(* ===== verification/_CoqProject ===== *)
-Q . S2P
Prelude.v
RustStr.v
BTree.v
InOrderMap.v
JsonValue.v
JsonPtr.v
PtrDoc.v
JsonPatch.v
JsonDiff.v
DiffPatch.v
Subscriber.v
Store.v
PatchDb.v
ExVersion.v
ExRange.v
ExSat.v
ExParse.v
SquashFormat.v
SquashBlocks.v
SquashTree.v
SquashData.v
SquashFiles.v
SquashIo.v
SquashImage.v
SquashLoad.v
SquashInode.v
SquashTable.v
SquashEntries.v
SquashInodes.v
SquashFlatten.v
SquashWalk.v
SquashFlat.v
SquashAssemble.v
SquashReading.v
SquashGrow.v
SquashSerialize.v
SquashRoundtrip.v
SquashCanonical.v
MerkleVarint.v
MerkleBytes.v
MerkleArchive.v
MerkleHash.v
MerkleCopy.v
MerkleVerify.v
MerkleWrite.v
MerkleRead.v
MerkleRoundtrip.v
MerkleTree.v
MerkleSign.v
MerkleExpected.v
MerkleTrailer.v
MerklePackage.v
MerkleLocal.v
MerkleEndorse.v
MerkleChecks.v
MerkleExamples.v
UciSyntax.v
UciPrint.v
UciEdit.v
UciFiles.v
UciSave.v
UciExamples.v
