(* ===== verification/Prelude.v ===== *)
(** * Verification of the core libraries of the Start9 monorepo

    The monorepo holds StartOS, StartWRT and their shared Rust crates.  What its services
    have in common is a small core: a JSON document that is patched, stored and watched,
    the versions that packages depend on, the packages, and the images in them; the router also edits the
    configuration files of OpenWrt.  This library models that core and proves it correct.  Paths below are under
    [src/shared-libs/crates/], those of the router's files under [src/projects/start-wrt/backend/].

    ** The parts and their files

    - The JSON database.  [imbl-value] gives JSON values over persistent vectors and an
      insertion-ordered map; [patch-db/json-ptr] gives JSON pointers; [patch-db/json-patch] gives
      patches, their undo and the diff of two documents; [patch-db/core] stores a document with a
      log of its patches on disk and tells subscribers of every revision.
      - InOrderMap.v: [imbl-value/src/in_order_map/mod.rs], [InOMap] as its vector of pairs.
      - JsonValue.v: [imbl-value/src/lib.rs], [index.rs]: [Value], its equality and accessors.
      - JsonPtr.v, PtrDoc.v: [json-ptr/src/lib.rs]: pointers as their text and ranges, and
        their use on documents ([get], [set], [insert], [remove]).
      - JsonPatch.v: [json-patch/src/lib.rs]: [patch] with its undo stack, [patch_unsafe],
        [prepend], [affects_path], [merge].
      - JsonDiff.v: [json-patch/src/diff.rs].
      - DiffPatch.v: [core/src/patch.rs]: scoping a revision to a path, rebasing, [exists], [keys].
      - Subscriber.v: [core/src/subscriber.rs]: [Broadcast], [DbWatch] and the JSON subscriptions.
      - Store.v: [core/src/store.rs]: the log, compression, recovery and [apply] on a disk on
        which every call may fail and that may lose what was not synced in a crash.  [serde_cbor] gives the text of a pointer, which
        is parsed as [JsonPointer::deserialize] does.
      - PatchDb.v: [core/src/store.rs], [core/src/lib.rs]: the handle that users share.
    - Versions.  [exver] orders versions with flavors and prereleases, matches them against
      ranges, and decides whether ranges can be satisfied.
      - ExVersion.v, ExRange.v, ExSat.v, ExParse.v: [exver/src/exver.rs].
    - Package images.  [start-core/src/util/squashfs] writes and reads SquashFS images.
      - SquashFormat.v: [format.rs]: the records on disk and the superblock's checks.
      - SquashBlocks.v: [blocks.rs]: compressed blocks and the metadata streams, blocking and
        asynchronous.
      - SquashTree.v: [tree.rs]: names, paths, directories, hardlinks, options.
      - SquashData.v: [write.rs], [DataWriter] and the first part of [serialize]; [read.rs],
        [SquashfsFileReader] and the files of [Image::inode].
      - SquashFiles.v: the theorems on SquashData.v.
      - SquashIo.v: tokio's reading of an [AsyncRead] as an interface, [read.rs], [disk].
      - SquashImage.v: [write.rs], the tables and the superblock that [serialize] ends with;
        [read.rs], [Image::load] and [Image::metadata] on an archive.
      - SquashLoad.v: the theorems on SquashImage.v.
      - SquashInode.v: [write.rs], [InodeTables], the inode, directory and xattr tables; [read.rs],
        [Image::inode] and [Image::attributes].
      - SquashTable.v: what it means that a table holds some bytes behind a reference, and that a
        reader obtains them.
      - SquashEntries.v: extended attributes, simple inodes and directory listings, written and
        read back.
      - SquashInodes.v: the invariant of the tables while the inodes of a tree are written, and
        the round trip of all of them.
      - SquashFlatten.v: [write.rs], [flatten]; SquashWalk.v: the invariants of its walk, its links and
        its renumbering; SquashFlat.v: what it gives, and that this depends on nothing but the paths.
      - SquashAssemble.v: [read.rs], [Squashfs::deserialize]; SquashReading.v: the invariant of its
        walk over the inodes; SquashGrow.v: the tree that it puts together.
      - SquashSerialize.v: [write.rs], [Squashfs::serialize] as a whole; SquashRoundtrip.v: the round
        trip of a tree through an image; SquashCanonical.v: identical trees give identical bytes.
    - Packages.  [start-core/src/s9pk] writes and opens packages, signed trees of files whose directories are
      hashed by the hashes of their entries.
      - MerkleVarint.v: [merkle_archive/varint.rs]; MerkleBytes.v: what writers are given and readers
        obtain, with an instance of the varint codec.
      - MerkleArchive.v: [merkle_archive/mod.rs], [directory_contents.rs], [file_contents.rs], [hash.rs],
        [write_queue.rs], [source/mod.rs]; [sign/commitment/merkle_archive.rs]; [v2/mod.rs], [S9pk::serialize]
        and [S9pk::archive].
      - MerkleHash.v: tables of contents and the strings that are hashed; MerkleCopy.v: verified copies;
        MerkleVerify.v: what an archive that was opened is known to be; MerkleWrite.v: where the bodies go;
        MerkleRead.v, MerkleRoundtrip.v: reading back what was written; MerkleTree.v: inserting, updating
        hashes and filtering.
      - MerkleSign.v: [sign/mod.rs], [compat.rs], [ed25519.rs]: keys, signatures and their verification;
        MerkleTrailer.v: [v2/trailer.rs], the endorsements that follow a package, [v2/mod.rs], [S9pk] with its
        manifest and signatures, [util/io.rs], [AtomicFile]; MerkleLocal.v: the bytes that an archive depends on; MerkleEndorse.v:
        the theorems on MerkleTrailer.v; MerklePackage.v: [S9pk::serialize] of a whole package, its manifest changed or not, and
        [S9pk::archive] of what it has written.
      - MerkleExpected.v: [merkle_archive/expected.rs], the files that a package should have, and
        [with_stem]; MerkleChecks.v: what checking keeps.
      - MerkleExamples.v: concrete packages and the witnesses.
    - Router configuration.  [uciedit] parses the UCI files of OpenWrt so that comments and order stay, reads sections into structs and writes
      structs into them, and replaces the files on disk under locks.
      - UciSyntax.v: [uciedit/src/syntax.rs]; [uciedit/src/lib.rs], the errors; [uciedit_macros/src/lib.rs], the code that
        [derive(TypedSection)] generates, over the fields of a struct as data.
      - UciPrint.v: lines and files are parsed as they were printed; UciEdit.v: structs written to sections and read from them.
      - UciFiles.v: [uciedit/src/lib.rs], [read_all], [write_all], [LockedConfig]: a file system with locks and times, a process as
        where it stands in [write_all], a schedule of calls that may fail; UciSave.v: [dump_all] and [parse_all] together.
      - UciExamples.v: a scanner, a file and the witnesses.
    - Shared: Prelude.v (results, panics, machine integers, vectors, orders), RustStr.v (strings as
      UTF-8 bytes, slicing, formatting of numbers), BTree.v ([BTreeMap] as a sorted list).

    ** How the code is translated

    A [Result] is [result]; a function that can panic gives an [outcome], so that the absence of
    panics is a theorem; [&mut self] is state that is passed and returned.  A [usize] is an [N] or a
    [Z] with its bounds where they matter, a length where they cannot be reached.  Where the code
    calls another thread, a socket or a file, the answers are a list (a script) that a theorem
    quantifies over: short transfers, errors, interruptions, not ready, and for the disk also a
    crash.  Loops whose recursion is not structural have a fuel, and a theorem shows that the
    fuel given is enough: [diff_mut] the depth of the document plus one, the drain of a
    subscription the length of its queue plus one, [replay_log] the length of the file plus
    one, the rounds of the metadata writer and reader the data and the answers left, [decode_loop]
    the bytes to read and the limit plus one, [resolve_hardlink] the number of links plus one,
    [write_groups] the number of children, [read_groups] the size of the listing plus one,
    [read_chunked] the bytes to read plus one, [flatten_loop] the directories in the tree plus one,
    [read_loop] the inode count of the superblock plus one, [varint_loop] one more byte than a varint has, [copy_loop] the
    data and the answers left, [queue_loop] the entries of the tree plus one, [entries_loop] the bytes of
    the table plus one, [records_loop] the bytes of the region plus one.  The depth that [DirectoryContents_deserialize] is given bounds how deep directories are nested: the height of
    a tree that was written is enough; no depth is for a directory that has itself as an entry ([deserialize_unbounded], an example).

    Code of other crates is a parameter with laws, each with an instance that satisfies them:
    numbers ([JNumber], serde_json's number type), the channels of tokio ([Mpsc], [Bcast]), the codecs
    ([SerdeJson], [Cbor]), the address comparison that the diff uses as a shortcut, the compressor
    ([Zstd]), the hash ([Blake3]) and the sources of files ([FileSource]); for packages the varint codec ([VarInt]), the hash
    ([Hashing]), the signatures ([Ed25519], [PureEd25519]), their encoding ([Der]), manifests ([ManifestJson]) and the
    sources ([SizedSource], [ReadSource]); for configuration files the scanner of tokens ([Inpt], its laws in [InptOk]) and the tables of
    the Unicode standard beyond ASCII ([Unicode]).

    ** What the theorems show

    - Documents: the map is a finite map in insertion order; equality of values is an
      equivalence; what is written at a pointer is read back and failing edits change nothing.
    - Patches: a reversible patch is atomic and its undo restores the document; the diff of
      two documents takes one to the other and back; a patch scoped to a path does
      to the value there what the patch does to the whole; [merge] is RFC 7396.
    - The store: on a log whose pointers have one-byte characters and without a leftover backup, an acknowledged revision
      survives any failure and any crash, a
      failed one is rolled back, opening recovers what the disk holds; and where this is not so
      (a backup file that could not be removed, a new key that is a character of several bytes) theorems say so.
    - Subscriptions: as long as watched paths go through objects and no [apply] fails after its revision was committed, in every
      interleaving a watch reads the current value and is woken.
    - Versions: the order is total, printing and parsing are inverse, the truth tables of a range
      evaluate to whether a version satisfies it, an unsatisfiable range is empty.
    - Images: records, device numbers, metadata streams and files come back as they were
      written, whatever the output and the archive answer; references find what follows
      them; untrusted blocks decode within their limit; the superblock's checks
      are exact; paths are canonical, insertion into a tree is local and
      hardlinks end; the tables and the superblock written are the image that is loaded, and a
      reference found while writing is where the reader starts; every inode of a flattened tree,
      with its directory listing, its indexes and its extended attributes, is read as written;
      flattening fails exactly for the trees with a defect and otherwise lists every node once; and a tree
      that was written is read as a tree with the same paths, links, attributes and contents, while
      trees that agree in these are written as the same bytes.
    - Packages: what was written, with its manifest changed or not, is opened with the same signer, entries and files; an
      archive that is opened, from whatever bytes, is signed and hashed throughout and stays inside its source; the root hash commits
      to the contents up to collisions of the hash; inserting keeps stored hashes right, updating them computes
      them all, and filtering keeps the signature.
    - Endorsements: an archive depends on its own bytes and on nothing that follows them; whatever follows, reading endorsements does not fail
      and gives verified signatures only; appending one either leaves the file as it was or adds exactly that one, whatever fails on the way.
    - Expected files: filtering keeps the files that were checked and no others.
    - Router configuration: a struct whose values can be written (no backslash or line feed, unless quoted) is what is read from the section it was written to, and all other lines stay; an edited file, dumped and parsed, has the
      edit and everything else; writing files ends, with its locks released, each file replaced completely or not at all, whatever fails;
      saving and loading give the same sections, and a file modified in between is a conflict; but when a process opens a file
      that another one is about to replace, the update of the other is lost.
    - Findings: theorems on inputs for which the code does not do what its
      documentation says are kept beside the others.

    ** Not modelled, and the plan

    Of the images: [source.rs] and what is below it reads directories, tar files and OCI layers through
    the file system and third-party parsers.  Of packages: what is in a manifest and its validation, icons, conversions of older packages, the sources over HTTP and shared
    files, GPG and PEM; a file is taken to answer the same size every time, and the paths given to [check_stem] to be
    UTF-8, as the callers' are; tokio's copying and the writer that hashes while it writes are taken to do so, and the flush at the end of a copy not to fail; the DER encoding of keys and signatures, in part
    code of [sign/mod.rs], is taken to be read as it was written.  Of the database: the process-wide lock table, [TypedPatchDb] and the
    derive macros.  Of [imbl-value]: serde, conversions and formatting.  [exver/src/emver.rs] is an
    older format.  Of [uciedit]: the structs of [openwrt.rs], which only declare fields, how the macro inspects them, and
    [parse_io] and [dump_io].  The services of [start-core], those of StartWRT and the binaries orchestrate
    containers, networks and system tools; [jsonpath] is a fork of a third-party
    crate; [rpc-toolkit], [visit-rs] and [yasi] are plumbing, macros and interning. *)
From Stdlib Require Export Lia.
From stdpp Require Export base tactics decidable numbers option list.

#[global] Set Default Goal Selector "!".

(** ** Results and panics

    A Rust [Result] is [result]; a computation that may panic ([unwrap] on
    [None], slicing off a character boundary, a failed [assert!]) returns an
    [outcome].  Functions that take [&mut T] thread the [T] explicitly. *)

Inductive result (A E : Type) : Type :=
| Ok (a : A)
| Err (e : E).
Arguments Ok {A E} a.
Arguments Err {A E} e.

Inductive outcome (A : Type) : Type :=
| Done (a : A)
| Panic.
Arguments Done {A} a.
Arguments Panic {A}.

Declare Scope rust_scope.
Delimit Scope rust_scope with rust.

Definition outcome_bind {A B} (m : outcome A) (f : A -> outcome B) : outcome B :=
  match m with Done a => f a | Panic => Panic end.

Definition outcome_map {A B} (f : A -> B) (m : outcome A) : outcome B :=
  match m with Done a => Done (f a) | Panic => Panic end.

Definition unwrap {A} (o : option A) : outcome A :=
  match o with Some a => Done a | None => Panic end.

Definition result_ok {A E} (r : result A E) : option A :=
  match r with Ok a => Some a | Err _ => None end.

Definition is_ok {A E} (r : result A E) : bool :=
  match r with Ok _ => true | Err _ => false end.

Notation "'let*' x ':=' m 'in' k" := (outcome_bind m (fun x => k))
  (at level 10, x pattern, m at level 100, k at level 200) : rust_scope.

(** The [?] operator. *)
Definition result_bind {A B E} (m : result A E) (f : A -> result B E) : result B E :=
  match m with Ok a => f a | Err e => Err e end.

Notation "'let?' x ':=' m 'in' k" := (result_bind m (fun x => k))
  (at level 10, x pattern, m at level 100, k at level 200) : rust_scope.

(** ** Machine integers *)

(** [usize::MAX + 1] on the 64-bit targets the products ship for. *)
Definition usize_mod : N := 18446744073709551616%N.

(** [n + 1] on a [usize], with overflow checks. *)
Definition usize_succ (n : N) : outcome N :=
  if (n + 1 <? usize_mod)%N then Done (n + 1)%N else Panic.

(** A sequence length that fits a [usize]. *)
Definition fits_usize (n : nat) : bool := (N.of_nat n <? usize_mod)%N.

(** ** Vectors indexed by [usize]

    [Vec] and [imbl::Vector] are their sequence of elements.  An index is an
    [N]; it is converted to [nat] only below the length, so that evaluating an
    out-of-range access stays cheap. *)

Definition vec_len {A} (l : list A) : N := N.of_nat (length l).

Definition vec_get {A} (l : list A) (i : N) : option A :=
  if (i <? vec_len l)%N then l !! N.to_nat i else None.

Definition vec_set {A} (l : list A) (i : N) (x : A) : list A :=
  if (i <? vec_len l)%N then <[N.to_nat i := x]> l else l.

(** [Vector::insert(i, x)] for [i <= len]; every call site checks the bound. *)
Definition vec_insert {A} (l : list A) (i : N) (x : A) : list A :=
  if (i <=? vec_len l)%N then take (N.to_nat i) l ++ x :: drop (N.to_nat i) l else l.

(** [Vector::remove(i)] for [i < len]; every call site checks the bound. *)
Definition vec_remove {A} (l : list A) (i : N) : list A :=
  if (i <? vec_len l)%N then take (N.to_nat i) l ++ drop (S (N.to_nat i)) l else l.

(** ** Orderings

    [OrdCmp cmp] is what [Ord]'s contract promises of a comparison function: a
    total preorder whose [Equal] classes are congruent.  Clients (sorted
    tables, version ranges) are proved against this interface. *)

Class OrdCmp {A} (cmp : A -> A -> comparison) : Prop := {
  cmp_opp : forall x y, cmp y x = CompOpp (cmp x y);
  cmp_eq_l : forall x y z, cmp x y = Eq -> cmp x z = cmp y z;
  cmp_lt_trans : forall x y z, cmp x y = Lt -> cmp y z = Lt -> cmp x z = Lt;
}.
Arguments cmp_opp {A} cmp {_} x y.
Arguments cmp_eq_l {A} cmp {_} x y z _.
Arguments cmp_lt_trans {A} cmp {_} x y z _ _.

(** [Ordering::then_with]. *)
Definition then_with (c d : comparison) : comparison :=
  match c with Eq => d | _ => c end.

(** [Ord for \[T\]]: lexicographic, a proper prefix is smaller. *)
Fixpoint list_cmp {A} (cmp : A -> A -> comparison) (l k : list A) : comparison :=
  match l, k with
  | [], [] => Eq
  | [], _ :: _ => Lt
  | _ :: _, [] => Gt
  | x :: l', y :: k' => then_with (cmp x y) (list_cmp cmp l' k')
  end.

(** [Ord for Option<T>]: [None] is smaller than every [Some]. *)
Definition option_cmp {A} (cmp : A -> A -> comparison) (a b : option A) : comparison :=
  match a, b with
  | None, None => Eq
  | None, Some _ => Lt
  | Some _, None => Gt
  | Some x, Some y => cmp x y
  end.

(** [Ord for bool]: [false < true]. *)
Definition bool_cmp (a b : bool) : comparison :=
  match a, b with
  | false, true => Lt
  | true, false => Gt
  | _, _ => Eq
  end.

(** A lexicographic pair, the order [#[derive(Ord)]] gives to struct fields. *)
Definition pair_cmp {A B} (ca : A -> A -> comparison) (cb : B -> B -> comparison)
    (p q : A * B) : comparison :=
  then_with (ca p.1 q.1) (cb p.2 q.2).

Definition is_lt (c : comparison) : bool := match c with Lt => true | _ => false end.
Definition is_eq (c : comparison) : bool := match c with Eq => true | _ => false end.

#[export] Instance comparison_eq_dec : EqDecision comparison.
Proof. solve_decision. Defined.

(** ** Automation *)

Create HintDb rust.

(** Case analysis on the scrutinee of a [match] or [if] anywhere in the goal or
    the hypotheses, keeping the equation and discarding absurd branches. *)
Ltac case_step :=
  match goal with
  | |- context [match ?x with _ => _ end] => destruct x eqn:?
  | H : context [match ?x with _ => _ end] |- _ => destruct x eqn:?
  end.

Ltac case_all := repeat (case_step; simplify_eq/=; try done).

Ltac bool_to_prop :=
  repeat match goal with
  | H : (_ <? _)%N = true |- _ => apply N.ltb_lt in H
  | H : (_ <? _)%N = false |- _ => apply N.ltb_ge in H
  | H : (_ <=? _)%N = true |- _ => apply N.leb_le in H
  | H : (_ <=? _)%N = false |- _ => apply N.leb_gt in H
  | H : (_ =? _)%N = true |- _ => apply N.eqb_eq in H
  | H : (_ =? _)%N = false |- _ => apply N.eqb_neq in H
  | H : (_ && _) = true |- _ => apply andb_true_iff in H; destruct H
  | H : bool_decide _ = true |- _ => apply bool_decide_eq_true in H
  | H : bool_decide _ = false |- _ => apply bool_decide_eq_false in H
  | H : negb _ = true |- _ => apply negb_true_iff in H
  | H : negb _ = false |- _ => apply negb_false_iff in H
  end.

(** ** Lemmas on orderings *)

Section ord_cmp.
Context {A : Type} (cmp : A -> A -> comparison) `{!OrdCmp cmp}.

Lemma cmp_refl x : cmp x x = Eq.
Proof. pose proof (cmp_opp cmp x x) as H. by destruct (cmp x x). Qed.

Lemma cmp_eq_sym x y : cmp x y = Eq -> cmp y x = Eq.
Proof. intros H. by rewrite (cmp_opp cmp x y), H. Qed.

Lemma cmp_eq_r x y z : cmp x y = Eq -> cmp z x = cmp z y.
Proof. intros H. rewrite (cmp_opp cmp x z), (cmp_opp cmp y z). by rewrite (cmp_eq_l cmp x y z H). Qed.

Lemma cmp_eq_trans x y z : cmp x y = Eq -> cmp y z = Eq -> cmp x z = Eq.
Proof. intros H1 H2. by rewrite (cmp_eq_l cmp x y z H1). Qed.

Lemma cmp_gt_lt x y : cmp x y = Gt <-> cmp y x = Lt.
Proof. rewrite (cmp_opp cmp x y). by destruct (cmp x y). Qed.

Lemma cmp_gt_trans x y z : cmp x y = Gt -> cmp y z = Gt -> cmp x z = Gt.
Proof. rewrite !cmp_gt_lt. intros. eapply cmp_lt_trans; eauto. Qed.
End ord_cmp.

Lemma then_with_opp c d : CompOpp (then_with c d) = then_with (CompOpp c) (CompOpp d).
Proof. by destruct c. Qed.

#[export] Instance N_compare_ord : OrdCmp N.compare.
Proof.
  split.
  - intros x y. apply N.compare_antisym.
  - intros x y z H%N.compare_eq_iff. by subst.
  - exact N.lt_trans.
Qed.

#[export] Instance Nat_compare_ord : OrdCmp Nat.compare.
Proof.
  split.
  - intros x y. apply Nat.compare_antisym.
  - intros x y z H%Nat.compare_eq_iff. by subst.
  - intros x y z. rewrite !Nat.compare_lt_iff. lia.
Qed.

#[export] Instance Z_compare_ord : OrdCmp Z.compare.
Proof.
  split.
  - intros x y. apply Z.compare_antisym.
  - intros x y z H%Z.compare_eq_iff. by subst.
  - exact Z.lt_trans.
Qed.

#[export] Instance bool_cmp_ord : OrdCmp bool_cmp.
Proof. split; intros; by repeat match goal with b : bool |- _ => destruct b end. Qed.

Section lex.
Context {A B : Type} (ca : A -> A -> comparison) (cb : B -> B -> comparison).
Context `{!OrdCmp ca, !OrdCmp cb}.

#[export] Instance pair_cmp_ord : OrdCmp (pair_cmp ca cb).
Proof.
  split; unfold pair_cmp.
  - intros x y. rewrite then_with_opp. by rewrite <- !cmp_opp.
  - intros x y z. destruct (ca x.1 y.1) eqn:E; simpl; [|done..]. intros E2.
    by rewrite (cmp_eq_l ca x.1 y.1 z.1 E), (cmp_eq_l cb x.2 y.2 z.2 E2).
  - intros x y z. destruct (ca x.1 y.1) eqn:E; simpl; [|intros _|done].
    + rewrite (cmp_eq_l ca x.1 y.1 z.1 E). destruct (ca y.1 z.1); simpl; [|done..].
      apply (cmp_lt_trans cb).
    + destruct (ca y.1 z.1) eqn:E2; simpl; [|intros _|done].
      * intros _. by rewrite <- (cmp_eq_r ca y.1 z.1 x.1 E2), E.
      * by rewrite (cmp_lt_trans ca x.1 y.1 z.1 E E2).
Qed.

#[export] Instance list_cmp_ord : OrdCmp (list_cmp ca).
Proof.
  split.
  - induction x as [|a x IH]; intros [|b y]; simpl; [done..|].
    rewrite then_with_opp. by rewrite <- cmp_opp, <- IH.
  - induction x as [|a x IH]; intros [|b y] [|c z]; simpl; try done.
    destruct (ca a b) eqn:E; simpl; [|done..]. intros E2.
    by rewrite (cmp_eq_l ca a b c E), (IH y z E2).
  - induction x as [|a x IH]; intros [|b y] [|c z]; simpl; try done.
    destruct (ca a b) eqn:E; simpl; [|intros _|done].
    + rewrite (cmp_eq_l ca a b c E). destruct (ca b c); simpl; [|done..]. apply IH.
    + destruct (ca b c) eqn:E2; simpl; [|intros _|done].
      * intros _. by rewrite <- (cmp_eq_r ca b c a E2), E.
      * by rewrite (cmp_lt_trans ca a b c E E2).
Qed.

#[export] Instance option_cmp_ord : OrdCmp (option_cmp ca).
Proof.
  split.
  - intros [x|] [y|]; simpl; [apply (cmp_opp ca)|done..].
  - intros [x|] [y|] [z|]; simpl; try done. apply (cmp_eq_l ca).
  - intros [x|] [y|] [z|]; simpl; try done. apply (cmp_lt_trans ca).
Qed.
End lex.

(** An order pulled back along a key function. *)
Lemma key_cmp_ord {A B} (cmp : B -> B -> comparison) (key : A -> B) (c : A -> A -> comparison) :
  OrdCmp cmp -> (forall x y, c x y = cmp (key x) (key y)) -> OrdCmp c.
Proof.
  intros Ho E. split; intros *; rewrite !E; [apply (cmp_opp cmp)|apply (cmp_eq_l cmp)|apply (cmp_lt_trans cmp)].
Qed.

Lemma then_with_eq c d : then_with c d = Eq <-> c = Eq /\ d = Eq.
Proof. destruct c; simpl; intuition congruence. Qed.

Lemma list_cmp_eq {A} (cmp : A -> A -> comparison) l k :
  (forall x y, cmp x y = Eq <-> x = y) -> list_cmp cmp l k = Eq <-> l = k.
Proof.
  intros H. revert k. induction l as [|x l IH]; intros [|y k]; simpl; try done.
  destruct (cmp x y) eqn:E; simpl.
  - apply H in E as ->. rewrite IH. split; [by intros ->|by intros [= ->]].
  - split; [done|]. intros [= -> ->]. assert (cmp y y = Eq) by by apply H. congruence.
  - split; [done|]. intros [= -> ->]. assert (cmp y y = Eq) by by apply H. congruence.
Qed.

(** ** Lemmas on vectors *)

Section vec.
Context {A : Type}.
Implicit Types (l : list A) (i : N) (x : A).

Lemma vec_get_Some l i x : vec_get l i = Some x <-> l !! N.to_nat i = Some x.
Proof.
  unfold vec_get, vec_len. destruct (N.ltb_spec i (N.of_nat (length l))); [done|].
  split; [done|]. intros ?%lookup_lt_Some. lia.
Qed.

Lemma vec_get_None l i : vec_get l i = None <-> (vec_len l <= i)%N.
Proof.
  unfold vec_get, vec_len. destruct (N.ltb_spec i (N.of_nat (length l))).
  - rewrite lookup_ge_None. lia.
  - split; [lia|done].
Qed.

Lemma vec_get_eq l i : vec_get l i = l !! N.to_nat i.
Proof. apply option_eq. intros x. apply vec_get_Some. Qed.

Lemma vec_get_lt l i x : vec_get l i = Some x -> (i < vec_len l)%N.
Proof. rewrite vec_get_Some. intros ?%lookup_lt_Some. unfold vec_len. lia. Qed.

Lemma vec_set_eq l i x : vec_set l i x = <[N.to_nat i := x]> l.
Proof.
  unfold vec_set, vec_len. destruct (N.ltb_spec i (N.of_nat (length l))); [done|].
  rewrite list_insert_ge; [done|lia].
Qed.

Lemma vec_set_len l i x : length (vec_set l i x) = length l.
Proof. rewrite vec_set_eq. apply length_insert. Qed.

Lemma vec_insert_eq l i x : (i <= vec_len l)%N ->
  vec_insert l i x = take (N.to_nat i) l ++ x :: drop (N.to_nat i) l.
Proof. intros H. unfold vec_insert. by apply N.leb_le in H as ->. Qed.

Lemma vec_insert_len l i x : (i <= vec_len l)%N ->
  length (vec_insert l i x) = S (length l).
Proof.
  intros H. rewrite vec_insert_eq by done. unfold vec_len in H.
  rewrite length_app, length_take; simpl; rewrite length_drop. lia.
Qed.

Lemma vec_remove_eq l i : (i < vec_len l)%N ->
  vec_remove l i = take (N.to_nat i) l ++ drop (S (N.to_nat i)) l.
Proof. intros H. unfold vec_remove. by apply N.ltb_lt in H as ->. Qed.

Lemma vec_remove_insert l i x : (i <= vec_len l)%N ->
  vec_remove (vec_insert l i x) i = l.
Proof.
  intros H. pose proof (vec_insert_len l i x H). unfold vec_len in *.
  rewrite vec_remove_eq by (unfold vec_len; lia). rewrite vec_insert_eq by done.
  rewrite take_app_le by (rewrite length_take; lia).
  rewrite take_take, Nat.min_id, drop_app_ge by (rewrite length_take; lia).
  rewrite length_take, Nat.min_l by lia.
  replace (S (N.to_nat i) - N.to_nat i) with 1 by lia. simpl. rewrite drop_0. apply take_drop.
Qed.

Lemma vec_insert_remove l i x : vec_get l i = Some x ->
  vec_insert (vec_remove l i) i x = l.
Proof.
  intros H. pose proof (vec_get_lt _ _ _ H) as Hi. apply vec_get_Some in H.
  rewrite vec_remove_eq by done. unfold vec_len in Hi.
  rewrite vec_insert_eq.
  2:{ unfold vec_len. rewrite length_app, length_take, length_drop. lia. }
  rewrite take_app_length' by (rewrite length_take; lia).
  rewrite drop_app_length' by (rewrite length_take; lia).
  by rewrite take_drop_middle.
Qed.
End vec.


