(* ===== verification/RustStr.v ===== *)
(** * Rust strings

    A [&str]/[String] is the list of its Unicode scalar values.  Byte offsets,
    which [str::len], [char_indices] and slicing work with, are computed from
    the UTF-8 width of each scalar value; slicing off a character boundary or
    out of range panics, which [str_slice] reports as [None].  [str]'s [Ord] is
    bytewise; UTF-8 preserves the order of scalar values, so it is the
    lexicographic order on them.

    [str::parse::<usize>], [Display for usize], [split], [split_once] and
    [strip_prefix] are the standard library's, written out on this
    representation, with the round trips the other files use. *)
From Stdlib Require String Ascii.
Export String.StringSyntax.
Delimit Scope string_scope with string.
From S2P Require Import Prelude.

(** Concrete strings in examples and in the literals of the code. *)
Fixpoint str_of_string (s : String.string) : list N :=
  match s with
  | String.EmptyString => []
  | String.String a r => Ascii.N_of_ascii a :: str_of_string r
  end.

Abbreviation str := (list N).
Notation "$ s" := (str_of_string s%string) (at level 1, format "$ s").

Definition str_eqb (a b : str) : bool := bool_decide (a = b).

Definition str_cmp : str -> str -> comparison := list_cmp N.compare.

(** ** Bytes and slices *)

Definition len_utf8 (c : N) : nat :=
  if (c <? 128)%N then 1 else if (c <? 2048)%N then 2
  else if (c <? 65536)%N then 3 else 4.

(** [str::len]: the number of UTF-8 bytes. *)
Definition str_len (s : str) : nat := sum_list_with len_utf8 s.
#[global] Arguments str_len : simpl never.

Fixpoint char_indices_from (i : nat) (s : str) : list (nat * N) :=
  match s with
  | [] => []
  | c :: r => (i, c) :: char_indices_from (i + len_utf8 c) r
  end.

Definition char_indices (s : str) : list (nat * N) := char_indices_from 0 s.

(** Split at a byte offset; [None] off a character boundary or past the end. *)
Fixpoint split_at_byte (n : nat) (s : str) : option (str * str) :=
  match n with
  | 0 => Some ([], s)
  | _ => match s with
         | [] => None
         | c :: r =>
             if len_utf8 c <=? n then
               '(a, b) ← split_at_byte (n - len_utf8 c) r; Some (c :: a, b)
             else None
         end
  end.

(** [&s[a..b]]; [None] stands for the panic. *)
Definition str_slice (s : str) (a b : nat) : option str :=
  if a <=? b then
    '(_, r) ← split_at_byte a s;
    '(m, _) ← split_at_byte (b - a) r;
    Some m
  else None.

(** [&s[a..]]. *)
Definition str_slice_from (s : str) (a : nat) : option str := 
  split_at_byte a s ≫= fun p => Some p.2.

(** ** Character classes and decimal numbers *)

Definition is_ascii_digit (c : N) : bool := ((48 <=? c) && (c <=? 57))%N.
Definition is_ascii_lowercase (c : N) : bool := ((97 <=? c) && (c <=? 122))%N.
Definition is_ascii_uppercase (c : N) : bool := ((65 <=? c) && (c <=? 90))%N.

Fixpoint parse_digits (acc : N) (s : str) : option N :=
  match s with
  | [] => Some acc
  | c :: r =>
      if is_ascii_digit c then
        let acc' := (acc * 10 + (c - 48))%N in
        if (acc' <? usize_mod)%N then parse_digits acc' r else None
      else None
  end.

(** [usize::from_str]: an optional [+], then at least one digit, with an error
    on overflow. *)
Definition parse_usize (s : str) : option N :=
  match s with
  | [] => None
  | c :: r =>
      if (c =? 43)%N then match r with [] => None | _ => parse_digits 0 r end
      else parse_digits 0 s
  end.

(** [Display for usize], most significant digit first.  The number of binary
    digits bounds the number of decimal ones, so it is enough fuel. *)
Fixpoint show_loop (fuel : nat) (n : N) (acc : str) : str :=
  match fuel with
  | 0 => acc
  | S f =>
      let acc' := (48 + n mod 10)%N :: acc in
      if (n <? 10)%N then acc' else show_loop f (n / 10) acc'
  end.

Definition show_N (n : N) : str := show_loop (S (N.size_nat n)) n [].

(** ** Splitting *)

Definition strip_prefix_char (c : N) (s : str) : option str :=
  match s with
  | x :: r => if (x =? c)%N then Some r else None
  | [] => None
  end.

Fixpoint str_split_once (c : N) (s : str) : option (str * str) :=
  match s with
  | [] => None
  | x :: r =>
      if (x =? c)%N then Some ([], r)
      else '(a, b) ← str_split_once c r; Some (x :: a, b)
  end.

Fixpoint str_split (c : N) (s : str) : list str :=
  match s with
  | [] => [[]]
  | x :: r =>
      if (x =? c)%N then [] :: str_split c r
      else match str_split c r with
           | h :: t => (x :: h) :: t
           | [] => [[x]]
           end
  end.

(** [itertools::intersperse] of pieces with a one-character separator, written
    out piece by piece. *)
Fixpoint str_join (c : N) (ps : list str) : str :=
  match ps with
  | [] => []
  | [p] => p
  | p :: r => p ++ c :: str_join c r
  end.

(** ** Lemmas: order *)

#[export] Instance str_cmp_ord : OrdCmp str_cmp.
Proof. apply _. Qed.

Lemma str_cmp_eq (a b : str) : str_cmp a b = Eq <-> a = b.
Proof. apply list_cmp_eq. intros. apply N.compare_eq_iff. Qed.

Lemma str_eqb_eq (a b : str) : str_eqb a b = true <-> a = b.
Proof. apply bool_decide_eq_true. Qed.

Lemma str_eqb_refl (a : str) : str_eqb a a = true.
Proof. by apply str_eqb_eq. Qed.

Lemma str_eqb_neq (a b : str) : str_eqb a b = false <-> a ≠ b.
Proof. apply bool_decide_eq_false. Qed.

(** ** Lemmas: bytes and slices *)

Lemma len_utf8_pos c : 1 <= len_utf8 c.
Proof. unfold len_utf8. repeat case_match; lia. Qed.

Lemma str_len_app (a b : str) : str_len (a ++ b) = str_len a + str_len b.
Proof. unfold str_len. induction a; simpl; lia. Qed.

Lemma str_len_cons c (s : str) : str_len (c :: s) = len_utf8 c + str_len s.
Proof. done. Qed.

Lemma split_at_byte_app (a b : str) : split_at_byte (str_len a) (a ++ b) = Some (a, b).
Proof.
  induction a as [|c a IH]; [by destruct b|]. rewrite str_len_cons. cbn [app].
  pose proof (len_utf8_pos c). destruct (len_utf8 c + str_len a) eqn:E; [lia|].
  cbn [split_at_byte]. rewrite <- E.
  replace (len_utf8 c <=? len_utf8 c + str_len a) with true by (symmetry; apply Nat.leb_le; lia).
  replace (len_utf8 c + str_len a - len_utf8 c) with (str_len a) by lia. by rewrite IH.
Qed.

Lemma str_slice_app (a b c : str) :
  str_slice (a ++ b ++ c) (str_len a) (str_len a + str_len b) = Some b.
Proof.
  unfold str_slice. rewrite (proj2 (Nat.leb_le _ _)) by lia.
  rewrite split_at_byte_app. simpl.
  replace (str_len a + str_len b - str_len a) with (str_len b) by lia.
  by rewrite split_at_byte_app.
Qed.

Lemma str_slice_from_app (a b : str) : str_slice_from (a ++ b) (str_len a) = Some b.
Proof. unfold str_slice_from. by rewrite split_at_byte_app. Qed.

Lemma char_indices_from_app i (a b : str) :
  char_indices_from i (a ++ b) = char_indices_from i a ++ char_indices_from (i + str_len a) b.
Proof.
  revert i. induction a as [|c a IH]; intros i; simpl.
  { unfold str_len. simpl. by rewrite Nat.add_0_r. }
  by rewrite IH, str_len_cons, Nat.add_assoc.
Qed.

(** ** Lemmas: decimal numbers *)

Lemma show_loop_app fuel n acc : show_loop fuel n acc = show_loop fuel n [] ++ acc.
Proof.
  revert n acc. induction fuel as [|f IH]; intros n acc; [done|]. simpl.
  destruct (n <? 10)%N; [done|]. rewrite IH. rewrite (IH _ [_]). by rewrite <- app_assoc.
Qed.

(** One step of the decimal expansion, free of the fuel. *)
Lemma show_loop_eq fuel n : (N.size_nat n < fuel)%nat ->
  show_loop fuel n [] =
    (if (n <? 10)%N then [] else show_loop (fuel - 1) (n / 10) []) ++ [(48 + n mod 10)%N].
Proof.
  intros H. destruct fuel as [|f]; [lia|]. simpl. rewrite Nat.sub_0_r.
  destruct (n <? 10)%N; [done|]. by rewrite show_loop_app.
Qed.

Lemma size_nat_div10 n : (10 <= n)%N -> (N.size_nat (n / 10) < N.size_nat n)%nat.
Proof.
  intros H. assert (forall k, N.size_nat k = N.to_nat (N.size k)) as Hs.
  { intros [|p]; [done|]. simpl. induction p; simpl; lia. }
  rewrite !Hs. assert (0 < n / 10)%N by (apply N.div_str_pos; lia).
  rewrite !N.size_log2 by lia.
  assert (N.log2 (n / 10) < N.log2 n)%N; [|lia].
  apply N.log2_lt_pow2; [lia|].
  destruct (N.log2_spec n ltac:(lia)) as [_ Hn].
  apply N.Div0.div_lt_upper_bound. rewrite N.pow_succ_r' in Hn.
  assert (0 < 2 ^ N.log2 n)%N by (apply N.neq_0_lt_0, N.pow_nonzero; lia). lia.
Qed.

(** Induction on the decimal expansion of a number. *)
Lemma show_N_ind (P : N -> str -> Prop) :
  (forall n, (n < 10)%N -> P n [(48 + n)%N]) ->
  (forall n s, (10 <= n)%N -> P (n / 10)%N s -> P n (s ++ [(48 + n mod 10)%N])) ->
  forall n, P n (show_N n).
Proof.
  intros H1 H2 n. unfold show_N.
  assert (forall fuel n, (N.size_nat n < fuel)%nat -> P n (show_loop fuel n [])) as H; [|apply H; lia].
  clear n. induction fuel as [|f IH]; intros n Hn; [lia|].
  rewrite show_loop_eq by done. destruct (N.ltb_spec n 10) as [Hlt|Hge].
  - rewrite N.mod_small by done. by apply H1.
  - apply H2; [done|]. rewrite Nat.sub_succ, Nat.sub_0_r. apply IH.
    pose proof (size_nat_div10 n Hge). lia.
Qed.

Lemma parse_digits_app acc (a b : str) :
  parse_digits acc (a ++ b) = parse_digits acc a ≫= fun acc' => parse_digits acc' b.
Proof.
  revert acc. induction a as [|c a IH]; intros acc; simpl; [done|].
  destruct (is_ascii_digit c); [|done]. case_match; [|done]. apply IH.
Qed.

Lemma is_ascii_digit_mod n : is_ascii_digit (48 + n mod 10)%N = true.
Proof.
  unfold is_ascii_digit. pose proof (N.mod_lt n 10 ltac:(lia)).
  apply andb_true_iff. rewrite !N.leb_le. generalize dependent (n mod 10)%N. intros m Hm. lia.
Qed.

Lemma show_N_digits n : Forall (fun c => is_ascii_digit c = true) (show_N n).
Proof.
  apply (show_N_ind (fun _ s => Forall (fun c => is_ascii_digit c = true) s)).
  - intros k Hk. constructor; [|done]. rewrite <- (N.mod_small k 10) by done.
    apply is_ascii_digit_mod.
  - intros k s _ IH. apply Forall_app. split; [done|]. by rewrite Forall_singleton, is_ascii_digit_mod.
Qed.

Lemma show_N_nonempty n : show_N n ≠ [].
Proof.
  apply (show_N_ind (fun _ s => s ≠ [])); [done|]. intros k s _ _ H.
  by apply app_nil in H as [_ ?].
Qed.

(** The decimal expansion starts with [0] only for zero. *)
Lemma show_N_head n : (n = 0%N /\ show_N n = [48%N]) \/
  exists c s, show_N n = c :: s /\ c ≠ 48%N.
Proof.
  apply (show_N_ind (fun n s => (n = 0%N /\ s = [48%N]) \/ exists c r, s = c :: r /\ c ≠ 48%N)).
  - intros k Hk. destruct (decide (k = 0%N)) as [->|Hk0]; [by left|]. right.
    exists (48 + k)%N, []. split; [done|lia].
  - intros k s Hk [[H0 ->]|(c & r & -> & Hc)].
    + assert (0 < k / 10)%N by (apply N.div_str_pos; lia). lia.
    + right. exists c, (r ++ [(48 + k mod 10)%N]). by split.
Qed.

Lemma parse_digits_show n : (n < usize_mod)%N -> parse_digits 0 (show_N n) = Some n.
Proof.
  apply (show_N_ind (fun n s => (n < usize_mod)%N -> parse_digits 0 s = Some n)).
  - intros k Hk Hm. simpl. rewrite <- (N.mod_small k 10) at 1 by done.
    rewrite is_ascii_digit_mod. replace (48 + k - 48)%N with k by lia.
    rewrite N.mul_0_l, N.add_0_l. by rewrite (proj2 (N.ltb_lt _ _)).
  - intros k s Hk IH Hm. rewrite parse_digits_app.
    rewrite IH by (assert (k / 10 <= k)%N by (apply N.Div0.div_le_upper_bound; lia); lia).
    simpl. rewrite is_ascii_digit_mod.
    replace (k / 10 * 10 + (48 + k mod 10 - 48))%N with k.
    2:{ pose proof (N.div_mod k 10 ltac:(lia)) as E.
        generalize dependent (k / 10)%N. generalize dependent (k mod 10)%N. intros. lia. }
    by rewrite (proj2 (N.ltb_lt _ _)).
Qed.

Lemma show_N_not_char n c : is_ascii_digit c = false -> c ∉ show_N n.
Proof.
  intros Hc Hin. pose proof (show_N_digits n) as H. rewrite list.Forall_forall in H.
  apply H in Hin. congruence.
Qed.

(** [n.to_string().parse() == Ok(n)]. *)
Lemma parse_usize_show n : (n < usize_mod)%N -> parse_usize (show_N n) = Some n.
Proof.
  intros Hn. pose proof (parse_digits_show n Hn) as Hp. unfold parse_usize.
  destruct (show_N n) as [|c s] eqn:E; [by apply show_N_nonempty in E|].
  destruct (N.eqb_spec c 43) as [->|]; [|done].
  exfalso. apply (show_N_not_char n 43%N); [done|]. rewrite E. constructor.
Qed.

Lemma show_N_inj n m : (n < usize_mod)%N -> (m < usize_mod)%N -> show_N n = show_N m -> n = m.
Proof.
  intros Hn Hm E. apply parse_digits_show in Hn, Hm. rewrite E in Hn. congruence.
Qed.

Lemma parse_digits_bound acc s n : (acc < usize_mod)%N ->
  parse_digits acc s = Some n -> (n < usize_mod)%N.
Proof.
  revert acc. induction s as [|c s IH]; intros acc Hacc; simpl; [congruence|].
  destruct (is_ascii_digit c); [|done]. case_match; [|done]. apply IH. by apply N.ltb_lt.
Qed.

(** A parsed [usize] is below [2^64]. *)
Lemma parse_usize_bound s n : parse_usize s = Some n -> (n < usize_mod)%N.
Proof.
  destruct s as [|c r]; [done|]. cbn [parse_usize].
  destruct (c =? 43)%N; [destruct r; [done|]|]; apply parse_digits_bound; by apply N.ltb_lt.
Qed.

(** ** Lemmas: splitting *)

Lemma str_split_once_None c (s : str) : str_split_once c s = None <-> c ∉ s.
Proof.
  induction s as [|x s IH]; simpl; [split; [intros _; apply not_elem_of_nil|done]|].
  rewrite not_elem_of_cons. destruct (N.eqb_spec x c) as [->|]; [by split; [done|intros []]|].
  destruct (str_split_once c s) as [[a b]|]; simpl; rewrite <- IH; by split; [|intros []].
Qed.

Lemma str_split_once_app c (a b : str) : c ∉ a -> str_split_once c (a ++ c :: b) = Some (a, b).
Proof.
  induction a as [|x a IH]; simpl; [by rewrite N.eqb_refl|].
  intros [Hx Ha]%not_elem_of_cons. rewrite (proj2 (N.eqb_neq x c)) by congruence.
  by rewrite IH.
Qed.

Lemma str_split_nonempty c (s : str) : str_split c s ≠ [].
Proof. destruct s as [|x s]; simpl; [done|]. repeat case_match; done. Qed.

Lemma str_split_notin c (s : str) : c ∉ s -> str_split c s = [s].
Proof.
  induction s as [|x s IH]; simpl; [done|]. intros [Hx Hs]%not_elem_of_cons.
  rewrite (proj2 (N.eqb_neq x c)) by congruence. by rewrite IH.
Qed.

Lemma str_split_app c (a b : str) : c ∉ a -> str_split c (a ++ c :: b) = a :: str_split c b.
Proof.
  induction a as [|x a IH]; simpl; [by rewrite N.eqb_refl|].
  intros [Hx Ha]%not_elem_of_cons. rewrite (proj2 (N.eqb_neq x c)) by congruence.
  by rewrite IH.
Qed.

(** Splitting what was joined gives the pieces back. *)
Lemma str_split_join c (ps : list str) :
  ps ≠ [] -> Forall (fun p => c ∉ p) ps -> str_split c (str_join c ps) = ps.
Proof.
  induction ps as [|p [|q ps] IH]; intros Hne Hall; [done| |].
  - simpl. rewrite str_split_notin; [done|]. by inversion Hall.
  - change (str_join c (p :: q :: ps)) with (p ++ c :: str_join c (q :: ps)). inversion Hall as [|? ? Hp Hps]; subst.
    rewrite str_split_app by done. by rewrite IH.
Qed.

Lemma str_join_elem_of c d (ps : list str) : d ∈ str_join c ps -> d = c \/ exists p, p ∈ ps /\ d ∈ p.
Proof.
  induction ps as [|p [|q ps] IH].
  - by intros ?%not_elem_of_nil.
  - intros H. right. exists p. split; [constructor|done].
  - change (str_join c (p :: q :: ps)) with (p ++ c :: str_join c (q :: ps)).
    intros [H|[->|H]%elem_of_cons]%elem_of_app; [|by left|].
    + right. exists p. split; [constructor|done].
    + destruct (IH H) as [->|(p' & H1 & H2)]; [by left|]. right. exists p'.
      split; [by apply elem_of_cons; right|done].
Qed.

#[export] Hint Resolve str_eqb_refl len_utf8_pos str_split_nonempty show_N_nonempty : rust.
