(* ===== verification/BTree.v ===== *)
(** * Ordered sets and maps

    What the crates use of [BTreeSet] and [BTreeMap]: a set is its strictly
    sorted list of elements, a map its list of entries sorted by key.  The
    comparison function is a parameter, of which the lemmas assume the contract
    of [Ord] ([OrdCmp], Prelude.v) and that [Equal] means equal. *)
From stdpp Require Import sorting.
From S2P Require Import Prelude.

Section BTree.
Context {K V : Type} (cmp : K -> K -> comparison).

Fixpoint BTreeSet_insert (k : K) (l : list K) : list K :=
  match l with
  | [] => [k]
  | x :: r =>
      match cmp k x with
      | Lt => k :: l
      | Eq => l
      | Gt => x :: BTreeSet_insert k r
      end
  end.

Definition BTreeSet_collect (ks : list K) : list K :=
  fold_left (fun s k => BTreeSet_insert k s) ks [].

Definition BTreeSet_contains (k : K) (l : list K) : bool := existsb (fun x => is_eq (cmp k x)) l.

Fixpoint BTreeMap_insert (k : K) (v : V) (m : list (K * V)) : list (K * V) :=
  match m with
  | [] => [(k, v)]
  | (x, w) :: r =>
      match cmp k x with
      | Lt => (k, v) :: m
      | Eq => (k, v) :: r
      | Gt => (x, w) :: BTreeMap_insert k v r
      end
  end.

Fixpoint BTreeMap_get (k : K) (m : list (K * V)) : option V :=
  match m with
  | [] => None
  | (x, w) :: r => if is_eq (cmp k x) then Some w else BTreeMap_get k r
  end.

(** The entries that are left and the value taken out. *)
Fixpoint BTreeMap_remove (k : K) (m : list (K * V)) : list (K * V) * option V :=
  match m with
  | [] => ([], None)
  | (x, w) :: r =>
      match cmp k x with
      | Eq => (r, Some w)
      | _ => let '(r', o) := BTreeMap_remove k r in ((x, w) :: r', o)
      end
  end.
End BTree.

(** ** Lemmas *)

Section lemmas.
Context {K : Type} (cmp : K -> K -> comparison) `{!OrdCmp cmp}.
Hypothesis cmp_eq : forall a b, cmp a b = Eq <-> a = b.

Lemma elem_of_BTreeSet_insert k l x : x ∈ BTreeSet_insert cmp k l <-> x = k \/ x ∈ l.
Proof.
  induction l as [|y l IH]; simpl; [by rewrite list_elem_of_singleton, elem_of_nil; intuition|].
  destruct (cmp k y) eqn:E; rewrite ?elem_of_cons, ?IH.
  - apply cmp_eq in E as ->. intuition.
  - done.
  - intuition.
Qed.

Lemma elem_of_BTreeSet_collect ks x : x ∈ BTreeSet_collect cmp ks <-> x ∈ ks.
Proof.
  unfold BTreeSet_collect.
  assert (forall acc, x ∈ fold_left (fun s k => BTreeSet_insert cmp k s) ks acc <-> x ∈ ks \/ x ∈ acc) as Hf.
  { induction ks as [|k ks IH]; intros acc; simpl; [rewrite elem_of_nil; intuition|].
    rewrite IH, elem_of_BTreeSet_insert, elem_of_cons. intuition. }
  rewrite Hf, elem_of_nil. intuition.
Qed.

Lemma BTreeSet_contains_spec k l : BTreeSet_contains cmp k l = true <-> k ∈ l.
Proof.
  unfold BTreeSet_contains. rewrite existsb_exists. split.
  - intros (x & Hx%list_elem_of_In & E). destruct (cmp k x) eqn:Ec; [|done..].
    by apply cmp_eq in Ec as ->.
  - intros Hk. exists k. split; [by apply list_elem_of_In|]. by rewrite (cmp_refl cmp).
Qed.
End lemmas.

Section sorted.
Context {K : Type} (cmp : K -> K -> comparison) `{!OrdCmp cmp}.

Definition keys_lt (a b : K) : Prop := cmp a b = Lt.

Lemma keys_lt_trans a b c : keys_lt a b -> keys_lt b c -> keys_lt a c.
Proof. apply (cmp_lt_trans cmp). Qed.

Lemma Forall_BTreeSet_insert (P : K -> Prop) k l : P k -> Forall P l -> Forall P (BTreeSet_insert cmp k l).
Proof.
  intros Hk. induction 1 as [|x l Hx Hl IH]; simpl; [by constructor|].
  destruct (cmp k x); repeat constructor; done.
Qed.

Lemma BTreeSet_insert_sorted k l :
  StronglySorted keys_lt l -> StronglySorted keys_lt (BTreeSet_insert cmp k l).
Proof.
  induction 1 as [|x l Hs IH Hx]; simpl; [by repeat constructor|].
  destruct (cmp k x) eqn:E; [by constructor| |].
  - constructor; [by constructor|]. constructor; [done|].
    eapply Forall_impl; [done|]. intros y Hy. by eapply keys_lt_trans.
  - constructor; [done|]. apply Forall_BTreeSet_insert; [|done]. by apply (cmp_gt_lt cmp).
Qed.

Lemma BTreeSet_collect_sorted ks : StronglySorted keys_lt (BTreeSet_collect cmp ks).
Proof.
  unfold BTreeSet_collect. generalize (SSorted_nil keys_lt). generalize (@nil K).
  induction ks as [|k ks IH]; intros acc Hacc; simpl; [done|]. by apply IH, BTreeSet_insert_sorted.
Qed.

Lemma sorted_NoDup ks : StronglySorted keys_lt ks -> NoDup ks.
Proof.
  induction 1 as [|k ks Hs IH Hk]; constructor; [|done]. intros Hin.
  rewrite list.Forall_forall in Hk. apply Hk in Hin. unfold keys_lt in Hin.
  by rewrite (cmp_refl cmp) in Hin.
Qed.

(** No element is visited twice. *)
Lemma BTreeSet_collect_NoDup ks : NoDup (BTreeSet_collect cmp ks).
Proof. apply sorted_NoDup, BTreeSet_collect_sorted. Qed.
End sorted.

Section map_lemmas.
Context {K V : Type} (cmp : K -> K -> comparison) `{!OrdCmp cmp}.
Hypothesis cmp_eq : forall a b, cmp a b = Eq <-> a = b.
Implicit Types (m : list (K * V)).

Definition BTreeMap_wf m : Prop := StronglySorted (keys_lt cmp) (map fst m).

Lemma map_insert_elem k v m x w : BTreeMap_wf m ->
  (x, w) ∈ BTreeMap_insert cmp k v m <-> (x = k /\ w = v) \/ (x ≠ k /\ (x, w) ∈ m).
Proof.
  induction m as [|[y u] m IH]; intros Hw; simpl.
  { rewrite list_elem_of_singleton, elem_of_nil. split; [intros [= -> ->]; by left|].
    intros [[-> ->]|[_ []]]; done. }
  inversion Hw as [|? ? Hs Hy]; subst. rewrite list.Forall_forall in Hy.
  assert (forall a b, (a, b) ∈ m -> cmp y a = Lt) as Hlt.
  { intros a b Hab. apply Hy, list_elem_of_In, in_map_iff. exists (a, b).
    split; [done|by apply list_elem_of_In]. }
  destruct (cmp k y) eqn:E; rewrite !elem_of_cons.
  - apply cmp_eq in E as ->. split.
    + intros [[= -> ->]|Hm]; [by left|]. right. split; [|by right]. intros ->.
      specialize (Hlt _ _ Hm). by rewrite (cmp_refl cmp) in Hlt.
    + intros [[-> ->]|[Hne [[= -> ->]|Hm]]]; [by left|done|by right].
  - split.
    + intros [[= -> ->]|[[= -> ->]|Hm]]; [by left| |]; right.
      * split; [|by left]. intros ->. by rewrite (cmp_refl cmp) in E.
      * split; [|by right]. intros ->. specialize (Hlt _ _ Hm).
        pose proof (cmp_lt_trans cmp _ _ _ E Hlt) as Hc. by rewrite (cmp_refl cmp) in Hc.
    + intros [[-> ->]|[Hne Hm]]; [by left|by right].
  - rewrite IH by done. split.
    + intros [[= -> ->]|[[-> ->]|[Hne Hm]]]; [right|by left|right].
      * split; [|by left]. intros ->. by rewrite (cmp_refl cmp) in E.
      * split; [done|by right].
    + intros [[-> ->]|[Hne [[= -> ->]|Hm]]]; [right; by left|by left|right; by right].
Qed.

Lemma map_insert_keys k v m (P : K -> Prop) : P k -> Forall P (map fst m) ->
  Forall P (map fst (BTreeMap_insert cmp k v m)).
Proof.
  intros Hk. induction m as [|[y u] m IH]; simpl; [by constructor|]. intros HF.
  inversion HF; subst. destruct (cmp k y); simpl; repeat constructor; auto.
Qed.

Lemma map_insert_wf k v m : BTreeMap_wf m -> BTreeMap_wf (BTreeMap_insert cmp k v m).
Proof.
  unfold BTreeMap_wf. induction m as [|[y u] m IH]; simpl; [by repeat constructor|].
  intros Hw. inversion Hw as [|? ? Hs Hy]; subst. destruct (cmp k y) eqn:E; simpl.
  - apply cmp_eq in E as ->. by constructor.
  - constructor; [done|]. constructor; [done|]. eapply Forall_impl; [done|].
    intros a Ha. exact (cmp_lt_trans cmp _ _ _ E Ha).
  - constructor; [by apply IH|]. apply map_insert_keys; [by apply (cmp_gt_lt cmp)|done].
Qed.

Lemma map_insert_length k v m : length m <= length (BTreeMap_insert cmp k v m) <= 1 + length m.
Proof. induction m as [|[y u] m IH]; simpl; [lia|]. destruct (cmp k y); simpl; lia. Qed.

Lemma is_eq_true a b : is_eq (cmp a b) = true <-> a = b.
Proof. rewrite <- cmp_eq. by destruct (cmp a b). Qed.

Lemma is_eq_refl a : is_eq (cmp a a) = true.
Proof. by apply is_eq_true. Qed.

Lemma map_get_insert k v m : BTreeMap_get cmp k (BTreeMap_insert cmp k v m) = Some v.
Proof.
  induction m as [|[x w] m IH]; simpl; [by rewrite is_eq_refl|].
  destruct (cmp k x) eqn:E; simpl; rewrite ?is_eq_refl; [done..|]. by rewrite E.
Qed.

Lemma map_get_insert_ne k j v m : j ≠ k -> BTreeMap_get cmp j (BTreeMap_insert cmp k v m) = BTreeMap_get cmp j m.
Proof.
  intros Hne. assert (is_eq (cmp j k) = false) as Hf.
  { destruct (is_eq (cmp j k)) eqn:E; [|done]. by apply is_eq_true in E. }
  induction m as [|[x w] m IH]; simpl; [by rewrite Hf|].
  destruct (cmp k x) eqn:E; simpl; rewrite ?Hf; [|done|by rewrite IH].
  apply cmp_eq in E as <-. by rewrite Hf.
Qed.

Lemma map_insert_get k v m : BTreeMap_wf m -> BTreeMap_get cmp k m = Some v -> BTreeMap_insert cmp k v m = m.
Proof.
  unfold BTreeMap_wf. induction m as [|[x w] m IH]; simpl; [done|]. intros Hw.
  inversion Hw as [|? ? Hs Hx]; subst. destruct (cmp k x) eqn:E; simpl.
  - apply cmp_eq in E as ->. by intros [= ->].
  - intros Hg. exfalso. assert (forall y u, (y, u) ∈ m -> k ≠ y) as Hn.
    { intros y u Hy ->. rewrite list.Forall_forall in Hx.
      assert (cmp x y = Lt) as Hl.
      { apply Hx, list_elem_of_In, in_map_iff. exists (y, u). split; [done|by apply list_elem_of_In]. }
      pose proof (cmp_lt_trans cmp _ _ _ E Hl) as Hc. by rewrite (cmp_refl cmp) in Hc. }
    clear -Hg Hn cmp_eq. induction m as [|[y u] m IH]; simpl in Hg; [done|].
    destruct (is_eq (cmp k y)) eqn:Ey.
    + apply is_eq_true in Ey as ->. by apply (Hn y u); [left|].
    + apply IH; [done|]. intros z t Hz. apply (Hn z t). by right.
  - intros Hg. by rewrite IH.
Qed.

(** [remove] takes out the entry of [k], if there is one. *)
Lemma map_remove_spec k m : BTreeMap_wf m ->
  match BTreeMap_remove cmp k m with
  | (m', o) => BTreeMap_wf m' /\ (forall x w, (x, w) ∈ m' <-> x ≠ k /\ (x, w) ∈ m)
      /\ (forall w, o = Some w <-> (k, w) ∈ m) /\ Forall (fun x => x ∈ map fst m) (map fst m')
  end.
Proof.
  unfold BTreeMap_wf. induction m as [|[y u] m IH]; simpl; intros Hw.
  { split_and!; [done|..|done].
    - intros x w. rewrite elem_of_nil. by intuition.
    - intros w. rewrite elem_of_nil. done. }
  inversion Hw as [|? ? Hs Hy]; subst. specialize (IH Hs).
  assert (forall a b, (a, b) ∈ m -> cmp y a = Lt) as Hlt.
  { intros a b Hab. rewrite list.Forall_forall in Hy. apply Hy, list_elem_of_In, in_map_iff.
    exists (a, b). split; [done|by apply list_elem_of_In]. }
  assert (forall b, (y, b) ∉ m) as Hni.
  { intros b Hb%Hlt. by rewrite (cmp_refl cmp) in Hb. }
  destruct (BTreeMap_remove cmp k m) as [m' o] eqn:Er.
  destruct IH as (Hw' & Hin & Ho & HF).
  assert (forall c, c = cmp k y -> c ≠ Eq -> k ≠ y) as Hne.
  { intros c -> Hc ->. apply Hc, (cmp_refl cmp). }
  assert (k ≠ y -> StronglySorted (keys_lt cmp) (map fst ((y, u) :: m'))
    /\ (forall x w, (x, w) ∈ (y, u) :: m' <-> x ≠ k /\ (x, w) ∈ (y, u) :: m)
    /\ (forall w, o = Some w <-> (k, w) ∈ (y, u) :: m)
    /\ Forall (fun x => x ∈ map fst ((y, u) :: m)) (map fst ((y, u) :: m'))) as Hother.
  { intros Hk. split_and!.
    - simpl. constructor; [done|]. rewrite list.Forall_forall in HF, Hy |- *. intros x Hx. by apply Hy, HF.
    - intros x w. rewrite !elem_of_cons, Hin. split.
      + intros [[= -> ->]|[? ?]]; [split; [done|by left]|]. split; [done|by right].
      + intros [? [?|?]]; [by left|by right].
    - intros w. rewrite Ho, elem_of_cons. split; [by right|]. intros [[= -> ->]|?]; done.
    - simpl. constructor; [by left|]. eapply Forall_impl; [done|]. intros x Hx. by right. }
  destruct (cmp k y) eqn:E.
  - apply cmp_eq in E as ->. split_and!; [done|..].
    + intros x w. rewrite elem_of_cons. split.
      * intros Hx. split; [|by right]. intros ->. by eapply Hni.
      * intros [Hx [[= -> ->]|?]]; done.
    + intros w. rewrite elem_of_cons. split; [intros [= ->]; by left|].
      intros [[= ->]|Hw2]; [done|by apply Hni in Hw2].
    + apply list.Forall_forall. intros x Hx. by right.
  - apply Hother. by eapply (Hne Lt).
  - apply Hother. by eapply (Hne Gt).
Qed.
End map_lemmas.

(** ** Sorting *)

(** [slice::sort_by], which is stable. *)
Fixpoint insert_by {A} (cmp : A -> A -> comparison) (x : A) (l : list A) : list A :=
  match l with
  | [] => [x]
  | y :: r => match cmp x y with Gt => y :: insert_by cmp x r | _ => x :: l end
  end.

Definition sort_by {A} (cmp : A -> A -> comparison) (l : list A) : list A := foldr (insert_by cmp) [] l.

Lemma insert_by_perm {A} (cmp : A -> A -> comparison) x l : insert_by cmp x l ≡ₚ x :: l.
Proof. induction l as [|y l IH]; simpl; [done|]. destruct (cmp x y); [done|done|]. by rewrite IH, Permutation_swap. Qed.

Lemma sort_by_perm {A} (cmp : A -> A -> comparison) l : sort_by cmp l ≡ₚ l.
Proof. unfold sort_by. induction l as [|x l IH]; simpl; [done|]. by rewrite insert_by_perm, IH. Qed.

Section sorting.
Context {A K : Type} (cmp : K -> K -> comparison) `{!OrdCmp cmp} (key : A -> K).
Hypothesis cmp_eq : forall a b, cmp a b = Eq <-> a = b.
Let by_key (a b : A) : comparison := cmp (key a) (key b).

Lemma insert_by_sorted x l : key x ∉ map key l -> StronglySorted (keys_lt cmp) (map key l) ->
  StronglySorted (keys_lt cmp) (map key (insert_by by_key x l)).
Proof.
  induction l as [|y l IH]; simpl; intros Hx Hs; [by repeat constructor|].
  apply not_elem_of_cons in Hx as [Hne Hx]. inversion Hs as [|? ? Hs' HF]; subst. unfold by_key at 1.
  destruct (cmp (key x) (key y)) eqn:E; simpl.
  - by apply cmp_eq in E.
  - constructor; [done|]. constructor; [done|]. eapply Forall_impl; [exact HF|]. intros z Hz. by eapply keys_lt_trans.
  - constructor; [by apply IH|]. rewrite insert_by_perm. simpl. constructor; [|done].
    unfold keys_lt. by rewrite (cmp_opp cmp), E.
Qed.

Lemma sort_by_sorted l : NoDup (map key l) -> StronglySorted (keys_lt cmp) (map key (sort_by by_key l)).
Proof.
  unfold sort_by. induction l as [|x l IH]; simpl; [constructor|]. rewrite NoDup_cons. intros [Hx Hnd].
  apply insert_by_sorted; [|by apply IH]. change (foldr (insert_by by_key) [] l) with (sort_by by_key l). by rewrite sort_by_perm.
Qed.
End sorting.

(** Lists that are strictly sorted by a key and have the same elements are equal. *)
Lemma sorted_unique {A K} (cmp : K -> K -> comparison) `{!OrdCmp cmp} (key : A -> K) (l k : list A) :
  StronglySorted (keys_lt cmp) (map key l) -> StronglySorted (keys_lt cmp) (map key k) -> (forall x, x ∈ l <-> x ∈ k) -> l = k.
Proof.
  assert (forall x, ~ keys_lt cmp x x) as Hirr.
  { intros x Hx. unfold keys_lt in Hx. pose proof (cmp_opp cmp x x) as Ho. rewrite Hx in Ho. done. }
  revert k. induction l as [|x l IH]; intros [|y k] Hl Hk Hlk; [done|..].
  - destruct (proj1 (elem_of_nil y)). apply Hlk. left.
  - destruct (proj1 (elem_of_nil x)). apply Hlk. left.
  - cbn [map] in Hl, Hk. inversion Hl as [|? ? Hl' HFl]; subst. inversion Hk as [|? ? Hk' HFk]; subst. rewrite Forall_map, Forall_forall in HFl, HFk.
    assert (x = y) as ->.
    { destruct (proj1 (elem_of_cons k x y) (proj1 (Hlk x) ltac:(left))) as [|Hxk]; [done|].
      destruct (proj1 (elem_of_cons l y x) (proj2 (Hlk y) ltac:(left))) as [|Hyl]; [done|].
      destruct (Hirr (key x)). exact (keys_lt_trans cmp _ (key y) _ (HFl y Hyl) (HFk x Hxk)). }
    f_equal. apply IH; [done..|]. intros z. split; intros Hz.
    + destruct (proj1 (elem_of_cons k z y) (proj1 (Hlk z) ltac:(by right))) as [->|]; [|done]. by destruct (Hirr _ (HFl y Hz)).
    + destruct (proj1 (elem_of_cons l z y) (proj2 (Hlk z) ltac:(by right))) as [->|]; [|done]. by destruct (Hirr _ (HFk y Hz)).
Qed.
