(* ===== verification/InOrderMap.v ===== *)
(** * The insertion-ordered map [InOMap]

    [shared-libs/crates/imbl-value/src/in_order_map/mod.rs]: a JSON object is a
    vector of key/value pairs in insertion order, looked up by a linear scan.
    The struct has the one field [value], so a map is its list of pairs; a
    [&mut self] method returns the new map beside its result, and a method that
    returns a [&mut V] returns the current value with the function that writes
    a new one back.

    Definitions first, the operations in the order of the source; then the
    invariant (no key occurs twice), that every operation preserves it, and the
    refinement of the finite map [gmap] by [abs]. *)
From stdpp Require Import gmap.
From S2P Require Import Prelude.

Abbreviation InOMap K V := (list (K * V)).

Section InOMap.
Context {K V : Type} `{EqDecision K}.
Implicit Types (m : InOMap K V) (k key : K) (v : V).

(** ** Queries *)

Definition InOMap_new : InOMap K V := [].

Definition InOMap_is_empty m : bool := match m with [] => true | _ => false end.

Definition InOMap_len m : nat := length m.

Definition InOMap_keys m : list K := map fst m.

Definition InOMap_values m : list V := map snd m.

Definition InOMap_clear m : InOMap K V := [].

(** [iter().find(|(k, _)| k == key)] *)
Fixpoint InOMap_get_key_value key m : option (K * V) :=
  match m with
  | [] => None
  | (k, v) :: r => if decide (k = key) then Some (k, v) else InOMap_get_key_value key r
  end.

Fixpoint InOMap_get key m : option V :=
  match m with
  | [] => None
  | (k, v) :: r => if decide (k = key) then Some v else InOMap_get key r
  end.

Definition InOMap_contains_key key m : bool :=
  match InOMap_get key m with Some _ => true | None => false end.

(** [iter().enumerate().find(|(_, (k, _))| k == key).map(|(index, _)| index)] *)
Fixpoint InOMap_find_index key m : option nat :=
  match m with
  | [] => None
  | (k, _) :: r => if decide (k = key) then Some 0 else S <$> InOMap_find_index key r
  end.

(** The value under [key] and the map with another value written there. *)
Fixpoint InOMap_get_mut key m : option (V * (V -> InOMap K V)) :=
  match m with
  | [] => None
  | (k, v) :: r =>
      if decide (k = key) then Some (v, fun v' => (k, v') :: r)
      else '(w, put) ← InOMap_get_mut key r; Some (w, fun v' => (k, v) :: put v')
  end.

(** ** Insertion and removal *)

Definition InOMap_insert key v m : InOMap K V * option V :=
  match InOMap_find_index key m with
  | Some x => (delete x m ++ [(key, v)], snd <$> m !! x)
  | None => (m ++ [(key, v)], None)
  end.

Definition InOMap_remove_with_key key m : InOMap K V * option (K * V) :=
  match InOMap_find_index key m with
  | Some x => (delete x m, m !! x)
  | None => (m, None)
  end.

Definition InOMap_remove key m : InOMap K V * option V :=
  match InOMap_find_index key m with
  | Some x => (delete x m, snd <$> m !! x)
  | None => (m, None)
  end.

Definition InOMap_update m k v : InOMap K V := (InOMap_insert k v m).1.

Definition InOMap_extract_with_key k m : option (K * V * InOMap K V) :=
  let '(out, r) := InOMap_remove_with_key k m in
  match r with Some (k', v) => Some (k', v, out) | None => None end.

Definition InOMap_extract k m : option (V * InOMap K V) :=
  match InOMap_extract_with_key k m with
  | Some (_, v, m') => Some (v, m')
  | None => None
  end.

Definition InOMap_update_with_key m k v (f : K -> V -> V -> V) : InOMap K V :=
  match InOMap_extract_with_key k m with
  | None => InOMap_update m k v
  | Some (_, v2, m') => InOMap_update m' k (f k v2 v)
  end.

Definition InOMap_update_with m k v (f : V -> V -> V) : InOMap K V :=
  match InOMap_extract_with_key k m with
  | None => InOMap_update m k v
  | Some (_, v2, m') => InOMap_update m' k (f v2 v)
  end.

Definition InOMap_update_lookup_with_key m k v (f : K -> V -> V -> V) : option V * InOMap K V :=
  match InOMap_extract_with_key k m with
  | None => (None, InOMap_update m k v)
  | Some (_, v2, m') => (Some v2, InOMap_update m' k (f k v2 v))
  end.

Definition InOMap_alter (f : option V -> option V) k m : InOMap K V :=
  let pop := InOMap_extract_with_key k m in
  match f ((fun p => p.1.2) <$> pop), pop with
  | None, None => m
  | Some v, None => InOMap_update m k v
  | None, Some (_, _, m') => m'
  | Some v, Some (_, _, m') => InOMap_update m' k v
  end.

Definition InOMap_without k m : InOMap K V :=
  match InOMap_extract_with_key k m with
  | None => m
  | Some (_, _, m') => m'
  end.

Definition InOMap_retain (f : K -> V -> bool) m : InOMap K V :=
  List.filter (fun p => f p.1 p.2) m.

(** ** Entries *)

(** The borrowed map travels with the entry. *)
Inductive Entry : Type :=
| Occupied (emap : InOMap K V) (index : nat) (ekey : K)
| Vacant (emap : InOMap K V) (ekey : K).

Definition InOMap_entry key m : Entry :=
  match InOMap_find_index key m with
  | Some index => Occupied m index key
  | None => Vacant m key
  end.

Definition Entry_key (e : Entry) : K :=
  match e with Occupied _ _ k | Vacant _ k => k end.

(** Overwrite the value part of the pair at [index]. *)
Definition set_value_at m (index : nat) v : InOMap K V :=
  match m !! index with Some (k, _) => <[index := (k, v)]> m | None => m end.

(** [OccupiedEntry::into_mut] / [get_mut]. *)
Definition OccupiedEntry_into_mut m (index : nat) : outcome (V * (V -> InOMap K V)) :=
  match m !! index with
  | Some (_, v) => Done (v, set_value_at m index)
  | None => Panic
  end.

(** [OccupiedEntry::insert]: swaps the value in and returns the old one. *)
Definition OccupiedEntry_insert m (index : nat) v : outcome (InOMap K V * V) :=
  match m !! index with
  | Some (_, old) => Done (set_value_at m index v, old)
  | None => Panic
  end.

(** [VacantEntry::insert]: insert, then look the key up again. *)
Definition VacantEntry_insert m key v : outcome (V * (V -> InOMap K V)) :=
  unwrap (InOMap_get_mut key (InOMap_insert key v m).1).

Definition Entry_or_insert_with (e : Entry) (default : unit -> V)
    : outcome (V * (V -> InOMap K V)) :=
  match e with
  | Occupied m index _ => OccupiedEntry_into_mut m index
  | Vacant m key => VacantEntry_insert m key (default tt)
  end.

Definition Entry_or_insert (e : Entry) (default : V) : outcome (V * (V -> InOMap K V)) :=
  Entry_or_insert_with e (fun _ => default).

Definition Entry_and_modify (e : Entry) (f : V -> V) : outcome Entry :=
  match e with
  | Occupied m index k =>
      match OccupiedEntry_into_mut m index with
      | Done (v, put) => Done (Occupied (put (f v)) index k)
      | Panic => Panic
      end
  | Vacant m k => Done (Vacant m k)
  end.

(** [OccupiedEntry::remove_entry] *)
Definition OccupiedEntry_remove_entry m key : outcome (InOMap K V * (K * V)) :=
  let '(m', r) := InOMap_remove_with_key key m in
  match r with Some kv => Done (m', kv) | None => Panic end.

(** ** Bulk operations *)

(** One round of [union]'s loop over the consumed map. *)
Definition union_step (use_to_consume : bool) (to_mutate : InOMap K V) (kv : K * V) : InOMap K V :=
  match InOMap_entry kv.1 to_mutate with
  | Occupied m index _ =>
      if use_to_consume then
        match OccupiedEntry_insert m index kv.2 with Done (m', _) => m' | Panic => m end
      else m
  | Vacant m k => (InOMap_insert k kv.2 m).1
  end.

Definition InOMap_union m other : InOMap K V :=
  let '(to_mutate, to_consume, use_to_consume) :=
    if InOMap_len other <=? InOMap_len m then (m, other, false) else (other, m, true) in
  rev (fold_left (union_step use_to_consume) (rev to_consume) to_mutate).

Definition union_with_step (f : K -> V -> V -> V) m (kv : K * V) : InOMap K V :=
  let '(m', r) := InOMap_remove kv.1 m in
  match r with
  | None => (InOMap_insert kv.1 kv.2 m').1
  | Some left_value => (InOMap_insert kv.1 (f kv.1 left_value kv.2) m').1
  end.

Definition InOMap_union_with_key_inner m other (f : K -> V -> V -> V) : InOMap K V :=
  fold_left (union_with_step f) other m.

Definition InOMap_union_with_key m other (f : K -> V -> V -> V) : InOMap K V :=
  if InOMap_len other <=? InOMap_len m then InOMap_union_with_key_inner m other f
  else InOMap_union_with_key_inner other m
         (fun key other_value self_value => f key self_value other_value).

Definition InOMap_union_with m other (f : V -> V -> V) : InOMap K V :=
  InOMap_union_with_key m other (fun _ v1 v2 => f v1 v2).

Definition InOMap_unions (i : list (InOMap K V)) : InOMap K V :=
  fold_left InOMap_union i InOMap_new.

Definition InOMap_unions_with (i : list (InOMap K V)) (f : V -> V -> V) : InOMap K V :=
  fold_left (fun a b => InOMap_union_with a b f) i InOMap_new.

Definition InOMap_unions_with_key (i : list (InOMap K V)) (f : K -> V -> V -> V) : InOMap K V :=
  fold_left (fun a b => InOMap_union_with_key a b f) i InOMap_new.

Definition sym_diff_step (f : K -> V -> V -> option V)
    (st : InOMap K V * InOMap K V) (kv : K * V) : InOMap K V * InOMap K V :=
  let '(self, out) := st in
  let '(self', r) := InOMap_remove kv.1 self in
  match r with
  | None => (self', (InOMap_insert kv.1 kv.2 out).1)
  | Some left_value =>
      match f kv.1 left_value kv.2 with
      | Some final_value => (self', (InOMap_insert kv.1 final_value out).1)
      | None => (self', out)
      end
  end.

Definition InOMap_symmetric_difference_with_key m other (f : K -> V -> V -> option V)
    : InOMap K V :=
  let '(self, out) := fold_left (sym_diff_step f) other (m, InOMap_new) in
  InOMap_union out self.

Definition InOMap_symmetric_difference_with m other (f : V -> V -> option V) : InOMap K V :=
  InOMap_symmetric_difference_with_key m other (fun _ a b => f a b).

Definition InOMap_symmetric_difference m other : InOMap K V :=
  InOMap_symmetric_difference_with_key m other (fun _ _ _ => None).

Definition InOMap_relative_complement m other : InOMap K V :=
  fold_left (fun self kv => (InOMap_remove (kv : K * V).1 self).1) other m.

(** [Extend] and [FromIterator]. *)
Definition InOMap_extend m (it : list (K * V)) : InOMap K V :=
  fold_left (fun self kv => (InOMap_insert (kv : K * V).1 kv.2 self).1) it m.

Definition InOMap_from_iter (it : list (K * V)) : InOMap K V := InOMap_extend InOMap_new it.

(** [impl Index]: panics on a missing key. *)
Definition InOMap_index m key : outcome V := unwrap (InOMap_get key m).

(** ** Equality

    [PartialEq]: the same vector of pairs, or the same number of pairs and
    every pair found in the other map.  The pointer comparison that short-cuts
    both is only taken when the two sides are the same vector. *)
Section eq.
Variable veq : V -> V -> bool.

Fixpoint pairs_eqb m other : bool :=
  match m, other with
  | [], [] => true
  | (k, v) :: r, (k', v') :: r' => bool_decide (k = k') && veq v v' && pairs_eqb r r'
  | _, _ => false
  end.

Definition InOMap_eqb m other : bool :=
  pairs_eqb m other
  || (Nat.eqb (length m) (length other)
      && forallb (fun kv => match InOMap_get kv.1 other with
                            | Some w => veq kv.2 w
                            | None => false
                            end) m).
End eq.

Definition InOMap_is_submap_by m other (cmp : V -> V -> bool) : bool :=
  forallb (fun kv => match InOMap_get kv.1 other with
                     | Some ov => cmp kv.2 ov
                     | None => false
                     end) m.

Definition InOMap_is_proper_submap_by m other (cmp : V -> V -> bool) : bool :=
  negb (Nat.eqb (length m) (length other)) && InOMap_is_submap_by m other cmp.

(** ** The invariant and the abstraction *)

(** No key occurs twice. *)
Definition InOMap_wf m : Prop := NoDup (InOMap_keys m).

End InOMap.

Arguments Entry : clear implicits.

Definition intersection_step {K B C V} `{EqDecision K} (f : K -> V -> B -> C)
    (st : InOMap K V * InOMap K C) (kv : K * B) : InOMap K V * InOMap K C :=
  let '(self, out) := st in
  let '(self', r) := InOMap_remove kv.1 self in
  match r with
  | None => (self', out)
  | Some left_value => (self', (InOMap_insert kv.1 (f kv.1 left_value kv.2) out).1)
  end.

Definition InOMap_intersection_with_key {K V B C} `{EqDecision K}
    (m : InOMap K V) (other : InOMap K B) (f : K -> V -> B -> C) : InOMap K C :=
  (fold_left (intersection_step f) other (m, InOMap_new)).2.

Definition InOMap_intersection_with {K V B C} `{EqDecision K}
    (m : InOMap K V) (other : InOMap K B) (f : V -> B -> C) : InOMap K C :=
  InOMap_intersection_with_key m other (fun _ v1 v2 => f v1 v2).

Definition InOMap_intersection {K V} `{EqDecision K} (m other : InOMap K V) : InOMap K V :=
  InOMap_intersection_with_key m other (fun _ v _ => v).

(** The finite map an [InOMap] stands for. *)
Definition InOMap_abs {K V} `{Countable K} (m : InOMap K V) : gmap K V := list_to_map m.

(** ** Lemmas: lookup *)

Section lookup.
Context {K V : Type} `{EqDecision K}.
Implicit Types (m : InOMap K V) (k key : K) (v : V).

Lemma find_index_spec key m :
  match InOMap_find_index key m with
  | Some i => exists a v b, m = a ++ (key, v) :: b /\ length a = i /\ key ∉ InOMap_keys a
  | None => key ∉ InOMap_keys m
  end.
Proof.
  induction m as [|[k v] m IH]; simpl; [apply not_elem_of_nil|].
  destruct (decide (k = key)) as [->|Hne].
  - exists [], v, m. split; [done|]. split; [done|]. apply not_elem_of_nil.
  - destruct (InOMap_find_index key m); simpl.
    + destruct IH as (a & w & b & -> & <- & Hni). exists ((k, v) :: a), w, b.
      split; [done|]. split; [done|]. by apply not_elem_of_cons.
    + by apply not_elem_of_cons.
Qed.

Lemma get_app key (a b : InOMap K V) :
  InOMap_get key (a ++ b) = match InOMap_get key a with Some v => Some v | None => InOMap_get key b end.
Proof. induction a as [|[k v] a IH]; simpl; [done|]. by case_decide. Qed.

Lemma get_None key m : InOMap_get key m = None <-> key ∉ InOMap_keys m.
Proof.
  induction m as [|[k v] m IH]; simpl; [split; [intros _; apply not_elem_of_nil|done]|].
  rewrite not_elem_of_cons. case_decide; [|rewrite IH].
  - split; [done|]. by intros [? _].
  - split; [|by intros [_ ?]]. intros ?. by split.
Qed.

Lemma get_notin key m : key ∉ InOMap_keys m -> InOMap_get key m = None.
Proof. apply get_None. Qed.

Lemma get_elem_of key m v : InOMap_get key m = Some v -> (key, v) ∈ m.
Proof.
  induction m as [|[k w] m IH]; simpl; [done|]. rewrite elem_of_cons.
  case_decide; [|auto]. intros. left. congruence.
Qed.

Lemma get_Some_keys key m v : InOMap_get key m = Some v -> key ∈ InOMap_keys m.
Proof. intros H. apply get_elem_of in H. by apply (list_elem_of_fmap_2 fst) in H. Qed.

Lemma elem_of_get key m v : InOMap_wf m -> (key, v) ∈ m -> InOMap_get key m = Some v.
Proof.
  unfold InOMap_wf. induction m as [|[k w] m IH]; simpl; [by intros _ ?%not_elem_of_nil|].
  intros [Hni Hnd]%NoDup_cons [[= -> ->]|Hin]%elem_of_cons; [by rewrite decide_True|].
  rewrite decide_False; [by apply IH|]. intros ->. apply Hni.
  by apply (list_elem_of_fmap_2 fst) in Hin.
Qed.

Lemma find_index_None key m : InOMap_find_index key m = None <-> InOMap_get key m = None.
Proof.
  pose proof (find_index_spec key m) as H. rewrite get_None.
  destruct (InOMap_find_index key m); [|done]. destruct H as (a & v & b & -> & _ & _).
  split; [done|]. intros H. destruct H. unfold InOMap_keys. rewrite map_app.
  apply elem_of_app. right. constructor.
Qed.

(** The decomposition of a map around the first binding of a present key. *)
Lemma get_split key m v : InOMap_get key m = Some v ->
  exists a b, m = a ++ (key, v) :: b /\ (key ∉ InOMap_keys a)
    /\ InOMap_find_index key m = Some (length a).
Proof.
  intros Hg. pose proof (find_index_spec key m) as H.
  destruct (InOMap_find_index key m) as [i|]; [|apply get_notin in H; congruence].
  destruct H as (a & w & b & -> & <- & Hni). exists a, b.
  rewrite get_app, (get_notin _ _ Hni) in Hg. simpl in Hg. rewrite decide_True in Hg by done.
  by simplify_eq.
Qed.

Lemma keys_app (a b : InOMap K V) : InOMap_keys (a ++ b) = InOMap_keys a ++ InOMap_keys b.
Proof. apply map_app. Qed.

Lemma wf_app (a b : InOMap K V) :
  InOMap_wf (a ++ b) <->
  InOMap_wf a /\ (forall k, k ∈ InOMap_keys a -> k ∉ InOMap_keys b) /\ InOMap_wf b.
Proof. unfold InOMap_wf. by rewrite keys_app, NoDup_app. Qed.

Lemma wf_cons k v m : InOMap_wf ((k, v) :: m) <-> (k ∉ InOMap_keys m) /\ InOMap_wf m.
Proof. apply NoDup_cons. Qed.

Lemma wf_middle (a b : InOMap K V) k v :
  InOMap_wf (a ++ (k, v) :: b) <->
  (k ∉ InOMap_keys a) /\ (k ∉ InOMap_keys b) /\ InOMap_wf (a ++ b).
Proof.
  rewrite !wf_app, wf_cons. split.
  - intros (Ha & Hd & Hk & Hb). split_and!; try done.
    + intros Hin. apply (Hd k Hin). constructor.
    + intros k' Hin Hin'. apply (Hd k' Hin). by apply elem_of_cons; right.
  - intros (Hka & Hkb & Ha & Hd & Hb). split_and!; try done.
    intros k' Hin [->|Hin']%elem_of_cons; [done|]. by apply (Hd k').
Qed.
End lookup.

(** ** Lemmas: the operations through [InOMap_get] *)

Section ops.
Context {K V : Type} `{EqDecision K}.
Implicit Types (m : InOMap K V) (k key : K) (v : V).

Lemma delete_middle {A} (a b : list A) x : delete (length a) (a ++ x :: b) = a ++ b.
Proof. induction a as [|y a IH]; simpl; [done|]. by f_equal. Qed.

Lemma find_index_split key (a b : InOMap K V) v : key ∉ InOMap_keys a ->
  InOMap_find_index key (a ++ (key, v) :: b) = Some (length a).
Proof.
  induction a as [|[k w] a IH]; simpl; [by rewrite decide_True|].
  intros [Hk Hni]%not_elem_of_cons. rewrite decide_False by done. by rewrite IH.
Qed.

Lemma remove_split key (a b : InOMap K V) v : key ∉ InOMap_keys a ->
  InOMap_remove key (a ++ (key, v) :: b) = (a ++ b, Some v).
Proof.
  intros Hni. unfold InOMap_remove. rewrite find_index_split by done.
  by rewrite delete_middle, list_lookup_middle.
Qed.

Lemma remove_notin key m : InOMap_get key m = None -> InOMap_remove key m = (m, None).
Proof. intros H%find_index_None. unfold InOMap_remove. by rewrite H. Qed.

Lemma insert_split key (a b : InOMap K V) v v' : key ∉ InOMap_keys a ->
  InOMap_insert key v' (a ++ (key, v) :: b) = (a ++ b ++ [(key, v')], Some v).
Proof.
  intros Hni. unfold InOMap_insert. rewrite find_index_split by done.
  by rewrite delete_middle, list_lookup_middle, app_assoc.
Qed.

Lemma insert_notin key m v : InOMap_get key m = None ->
  InOMap_insert key v m = (m ++ [(key, v)], None).
Proof. intros H%find_index_None. unfold InOMap_insert. by rewrite H. Qed.

(** [insert] and [remove] return the value the key had. *)
Lemma insert_prev key m v : (InOMap_insert key v m).2 = InOMap_get key m.
Proof.
  destruct (InOMap_get key m) as [w|] eqn:E.
  - destruct (get_split _ _ _ E) as (a & b & -> & Hni & _). by rewrite insert_split.
  - by rewrite insert_notin.
Qed.

Lemma remove_prev key m : (InOMap_remove key m).2 = InOMap_get key m.
Proof.
  destruct (InOMap_get key m) as [w|] eqn:E.
  - destruct (get_split _ _ _ E) as (a & b & -> & Hni & _). by rewrite remove_split.
  - by rewrite remove_notin.
Qed.

Lemma get_remove key m k : InOMap_wf m ->
  InOMap_get k (InOMap_remove key m).1 = if decide (key = k) then None else InOMap_get k m.
Proof.
  intros Hwf. destruct (InOMap_get key m) as [w|] eqn:E.
  - destruct (get_split _ _ _ E) as (a & b & -> & Hni & _). rewrite remove_split by done.
    apply wf_middle in Hwf as (Ha & Hb & _). simpl. rewrite !get_app. simpl.
    case_decide; [subst|done]. by rewrite (get_notin _ _ Ha), (get_notin _ _ Hb).
  - rewrite remove_notin by done. simpl. by case_decide; subst.
Qed.

Lemma get_insert key v m k : InOMap_wf m ->
  InOMap_get k (InOMap_insert key v m).1 = if decide (key = k) then Some v else InOMap_get k m.
Proof.
  intros Hwf. destruct (InOMap_get key m) as [w|] eqn:E.
  - destruct (get_split _ _ _ E) as (a & b & -> & Hni & _). rewrite insert_split by done.
    apply wf_middle in Hwf as (Ha & Hb & _). simpl. rewrite !get_app. simpl.
    case_decide; [subst|]; [by rewrite (get_notin _ _ Ha), (get_notin _ _ Hb)|].
    repeat case_match; congruence.
  - rewrite insert_notin by done. simpl. rewrite get_app. simpl.
    case_decide; [subst; by rewrite E|]. by destruct (InOMap_get k m).
Qed.

Lemma wf_remove key m : InOMap_wf m -> InOMap_wf (InOMap_remove key m).1.
Proof.
  intros Hwf. destruct (InOMap_get key m) as [w|] eqn:E.
  - destruct (get_split _ _ _ E) as (a & b & -> & Hni & _). rewrite remove_split by done.
    by apply wf_middle in Hwf as (_ & _ & ?).
  - by rewrite remove_notin.
Qed.

Lemma wf_snoc key v m : InOMap_wf m -> InOMap_get key m = None -> InOMap_wf (m ++ [(key, v)]).
Proof.
  intros Hwf Hg%get_None. apply wf_middle. rewrite app_nil_r. split_and!; [done| |done].
  apply not_elem_of_nil.
Qed.

Lemma wf_insert key v m : InOMap_wf m -> InOMap_wf (InOMap_insert key v m).1.
Proof.
  intros Hwf. destruct (InOMap_get key m) as [w|] eqn:E.
  - destruct (get_split _ _ _ E) as (a & b & -> & Hni & _). rewrite insert_split by done.
    apply wf_middle in Hwf as (Ha & Hb & Hab). simpl. rewrite app_assoc. apply wf_snoc; [done|].
    by rewrite get_app, (get_notin _ _ Ha), (get_notin _ _ Hb).
  - rewrite insert_notin by done. by apply wf_snoc.
Qed.

(** [get_mut] finds what [get] finds; writing through it changes that key only
    and keeps the order. *)
Lemma get_mut_split key (a b : InOMap K V) v : key ∉ InOMap_keys a ->
  exists put, InOMap_get_mut key (a ++ (key, v) :: b) = Some (v, put)
    /\ forall v', put v' = a ++ (key, v') :: b.
Proof.
  induction a as [|[k w] a IH]; simpl.
  - intros _. rewrite decide_True by done. by eexists.
  - intros [Hk Hni]%not_elem_of_cons. rewrite decide_False by done.
    destruct (IH Hni) as (put & -> & Hput). simpl. eexists. split; [done|].
    intros v'. simpl. by rewrite Hput.
Qed.

Lemma get_mut_None key m : InOMap_get_mut key m = None <-> InOMap_get key m = None.
Proof.
  induction m as [|[k v] m IH]; simpl; [done|]. case_decide; [done|].
  destruct (InOMap_get_mut key m) as [[w put]|], (InOMap_get key m); simpl; try done.
  split; [done|]. by intros Hx%IH.
Qed.

Lemma get_mut_spec key m :
  match InOMap_get_mut key m with
  | Some (v, put) => InOMap_get key m = Some v /\
      (forall v' k, InOMap_get k (put v') = if decide (key = k) then Some v' else InOMap_get k m)
      /\ (forall v', InOMap_keys (put v') = InOMap_keys m)
  | None => InOMap_get key m = None
  end.
Proof.
  destruct (InOMap_get key m) as [v|] eqn:E.
  - destruct (get_split _ _ _ E) as (a & b & -> & Hni & _).
    destruct (get_mut_split key a b v Hni) as (put & -> & Hput).
    split_and!; [done| |].
    + intros v' k. rewrite Hput, !get_app. simpl. case_decide; [subst|done].
      by rewrite (get_notin _ _ Hni).
    + intros v'. rewrite Hput, !keys_app. done.
  - by rewrite (proj2 (get_mut_None key m) E).
Qed.

(** Every entry that [entry] hands out points into the map: none of the
    [unwrap]s behind it can panic. *)
Lemma entry_spec key m :
  match InOMap_entry key m with
  | Occupied m' i k => m' = m /\ k = key /\
      exists v, m !! i = Some (key, v) /\ InOMap_get key m = Some v
  | Vacant m' k => m' = m /\ k = key /\ InOMap_get key m = None
  end.
Proof.
  unfold InOMap_entry. destruct (InOMap_get key m) as [v|] eqn:E.
  - destruct (get_split _ _ _ E) as (a & b & -> & Hni & ->). split; [done|]. split; [done|].
    exists v. split; [|done]. by apply list_lookup_middle.
  - by rewrite (proj2 (find_index_None key m) E).
Qed.

Lemma set_value_at_split (a b : InOMap K V) k v v' :
  set_value_at (a ++ (k, v) :: b) (length a) v' = a ++ (k, v') :: b.
Proof.
  unfold set_value_at. rewrite list_lookup_middle by done.
  by rewrite insert_app_r_alt, Nat.sub_diag by done.
Qed.

(** [entry(key).or_insert(default)] never panics; it yields the present value,
    or inserts the default. *)
Lemma or_insert_spec key m default : InOMap_wf m ->
  exists v put, Entry_or_insert (InOMap_entry key m) default = Done (v, put)
    /\ v = from_option id default (InOMap_get key m)
    /\ (forall v' k, InOMap_get k (put v') = if decide (key = k) then Some v' else InOMap_get k m)
    /\ (forall v', InOMap_wf (put v')).
Proof.
  intros Hwf. unfold Entry_or_insert, Entry_or_insert_with, InOMap_entry.
  destruct (InOMap_get key m) as [v|] eqn:E.
  - destruct (get_split _ _ _ E) as (a & b & -> & Hni & ->).
    unfold OccupiedEntry_into_mut. rewrite list_lookup_middle by done.
    eexists _, _. split_and!; [done|done| |].
    + intros v' k. rewrite set_value_at_split, !get_app. simpl. case_decide; [subst|done].
      by rewrite (get_notin _ _ Hni).
    + intros v'. rewrite set_value_at_split. apply wf_middle in Hwf. by apply wf_middle.
  - rewrite (proj2 (find_index_None key m) E). unfold VacantEntry_insert.
    pose proof (get_mut_spec key (InOMap_insert key default m).1) as Hm.
    destruct (InOMap_get_mut key (InOMap_insert key default m).1) as [[w put]|].
    + destruct Hm as (Hg & Hput & Hk). rewrite get_insert, decide_True in Hg by done.
      eexists _, _. split_and!; [done|by injection Hg| |].
      * intros v' k. rewrite Hput, get_insert by done. by case_decide.
      * intros v'. unfold InOMap_wf. rewrite Hk. by apply wf_insert.
    + rewrite get_insert, decide_True in Hm by done. done.
Qed.
End ops.

(** ** Lemmas: bulk operations *)

Section bulk.
Context {K V : Type} `{EqDecision K}.
Implicit Types (m : InOMap K V) (k key : K) (v : V).

Lemma get_perm m m' k : InOMap_wf m -> m ≡ₚ m' -> InOMap_get k m' = InOMap_get k m.
Proof.
  intros Hwf Hp. assert (InOMap_wf m') as Hwf'.
  { unfold InOMap_wf, InOMap_keys. by rewrite <- Hp. }
  destruct (InOMap_get k m) as [v|] eqn:E.
  - apply elem_of_get; [done|]. rewrite <- Hp. by apply get_elem_of.
  - apply get_None. unfold InOMap_keys. rewrite <- Hp. by apply get_None in E.
Qed.

Lemma wf_rev m : InOMap_wf m -> InOMap_wf (rev m).
Proof. unfold InOMap_wf, InOMap_keys. by rewrite <- (Permutation_rev m). Qed.

Lemma get_rev m k : InOMap_wf m -> InOMap_get k (rev m) = InOMap_get k m.
Proof. intros. apply get_perm; [done|]. apply Permutation_rev. Qed.

(** A loop over the pairs of a map that treats one key per round. *)
Lemma fold_get {B} (step : InOMap K V -> K * B -> InOMap K V)
    (g : K -> option V -> B -> option V) (l : InOMap K B) m :
  (forall m key b, InOMap_wf m -> InOMap_wf (step m (key, b))) ->
  (forall m key b k, InOMap_wf m ->
     InOMap_get k (step m (key, b)) =
       if decide (key = k) then g key (InOMap_get key m) b else InOMap_get k m) ->
  InOMap_wf m -> InOMap_wf l ->
  InOMap_wf (fold_left step l m) /\
  forall k, InOMap_get k (fold_left step l m) =
    match InOMap_get k l with None => InOMap_get k m | Some b => g k (InOMap_get k m) b end.
Proof.
  intros Hw Hg. revert m. induction l as [|[key b] l IH]; intros m Hm Hl; simpl; [done|].
  apply wf_cons in Hl as [Hni Hl]. destruct (IH (step m (key, b)) ltac:(auto) Hl) as [IH1 IH2].
  split; [done|]. intros k. rewrite IH2, Hg by done. case_decide; [subst|done].
  by rewrite (get_notin _ _ Hni).
Qed.

Lemma set_value_at_spec m i k v v' : m !! i = Some (k, v) -> InOMap_get k m = Some v ->
  InOMap_wf m ->
  InOMap_wf (set_value_at m i v') /\
  forall k', InOMap_get k' (set_value_at m i v') = if decide (k = k') then Some v' else InOMap_get k' m.
Proof.
  intros Hi Hg Hwf. apply list_elem_of_split_length in Hi as (a & b & -> & ->).
  rewrite set_value_at_split. pose proof Hwf as (Ha & Hb & Hab)%wf_middle.
  split; [by apply wf_middle|]. intros k'. rewrite !get_app. simpl. case_decide; [subst|done].
  by rewrite (get_notin _ _ Ha).
Qed.

Lemma union_step_spec use m key v : InOMap_wf m ->
  InOMap_wf (union_step use m (key, v)) /\
  forall k, InOMap_get k (union_step use m (key, v)) =
    if decide (key = k) then
      Some (match InOMap_get key m with Some w => if use then v else w | None => v end)
    else InOMap_get k m.
Proof.
  intros Hwf. unfold union_step. simpl. pose proof (entry_spec key m) as He.
  destruct (InOMap_entry key m) as [m' i k0|m' k0].
  - destruct He as (-> & -> & w & Hi & Hg). rewrite Hg. destruct use.
    + unfold OccupiedEntry_insert. rewrite Hi. by apply set_value_at_spec with w.
    + split; [done|]. intros k. by case_decide; subst.
  - destruct He as (-> & -> & Hg). rewrite Hg. split; [by apply wf_insert|].
    intros k. by apply get_insert.
Qed.

Lemma union_spec m other : InOMap_wf m -> InOMap_wf other ->
  InOMap_wf (InOMap_union m other) /\
  forall k, InOMap_get k (InOMap_union m other) =
    match InOMap_get k m with Some v => Some v | None => InOMap_get k other end.
Proof.
  intros Hm Ho. unfold InOMap_union.
  assert (forall use (a b : InOMap K V), InOMap_wf a -> InOMap_wf b ->
    InOMap_wf (rev (fold_left (union_step use) (rev b) a)) /\
    forall k, InOMap_get k (rev (fold_left (union_step use) (rev b) a)) =
      match InOMap_get k b with
      | None => InOMap_get k a
      | Some v => Some (match InOMap_get k a with Some w => if use then v else w | None => v end)
      end) as Hfold.
  { intros use a b Ha Hb.
    destruct (fold_get (union_step use)
      (fun _ (o : option V) (v : V) => Some (match o with Some w => if use then v else w | None => v end))
      (rev b) a) as [H1 H2]; [intros; by apply union_step_spec..|done|by apply wf_rev|].
    split; [by apply wf_rev|]. intros k. rewrite get_rev, H2 by done. by rewrite get_rev. }
  destruct (InOMap_len other <=? InOMap_len m).
  - split; [by apply Hfold|]. intros k. rewrite (proj2 (Hfold false m other Hm Ho)).
    by destruct (InOMap_get k m), (InOMap_get k other).
  - split; [by apply Hfold|]. intros k. rewrite (proj2 (Hfold true other m Ho Hm)).
    by destruct (InOMap_get k m), (InOMap_get k other).
Qed.

Lemma union_with_step_spec f m key v : InOMap_wf m ->
  InOMap_wf (union_with_step f m (key, v)) /\
  forall k, InOMap_get k (union_with_step f m (key, v)) =
    if decide (key = k) then
      Some (match InOMap_get key m with Some w => f key w v | None => v end)
    else InOMap_get k m.
Proof.
  intros Hwf. unfold union_with_step. simpl.
  pose proof (remove_prev key m) as Hp. pose proof (wf_remove key m Hwf) as Hw.
  assert (forall k, key ≠ k -> InOMap_get k (InOMap_remove key m).1 = InOMap_get k m) as Hr.
  { intros k Hk. by rewrite get_remove, decide_False. }
  destruct (InOMap_remove key m) as [m' r]; simpl in *; subst r.
  destruct (InOMap_get key m) as [w|]; (split; [by apply wf_insert|]);
    intros k; rewrite get_insert by done; case_decide; auto.
Qed.

Lemma union_with_key_inner_spec f m other : InOMap_wf m -> InOMap_wf other ->
  InOMap_wf (InOMap_union_with_key_inner m other f) /\
  forall k, InOMap_get k (InOMap_union_with_key_inner m other f) =
    match InOMap_get k m, InOMap_get k other with
    | Some a, Some b => Some (f k a b)
    | Some a, None => Some a
    | None, o => o
    end.
Proof.
  intros Hm Ho. unfold InOMap_union_with_key_inner.
  destruct (fold_get (union_with_step f)
    (fun key (o : option V) (b : V) => Some (match o with Some w => f key w b | None => b end))
    other m) as [H1 H2]; [intros; by apply union_with_step_spec..|done|done|].
  split; [done|]. intros k. rewrite H2. by destruct (InOMap_get k m), (InOMap_get k other).
Qed.

Lemma union_with_key_spec f m other : InOMap_wf m -> InOMap_wf other ->
  InOMap_wf (InOMap_union_with_key m other f) /\
  forall k, InOMap_get k (InOMap_union_with_key m other f) =
    match InOMap_get k m, InOMap_get k other with
    | Some a, Some b => Some (f k a b)
    | Some a, None => Some a
    | None, o => o
    end.
Proof.
  intros Hm Ho. unfold InOMap_union_with_key. case_match.
  - by apply union_with_key_inner_spec.
  - edestruct (union_with_key_inner_spec
      (fun key other_value self_value => f key self_value other_value) other m) as [H1 H2]; [done..|].
    split; [done|]. intros k. rewrite H2. by destruct (InOMap_get k m), (InOMap_get k other).
Qed.

Lemma relative_complement_spec m other : InOMap_wf m -> InOMap_wf other ->
  InOMap_wf (InOMap_relative_complement m other) /\
  forall k, InOMap_get k (InOMap_relative_complement m other) =
    match InOMap_get k other with Some _ => None | None => InOMap_get k m end.
Proof.
  intros Hm Ho. unfold InOMap_relative_complement.
  apply (fold_get (fun self kv => (InOMap_remove (kv : K * V).1 self).1) (fun _ _ _ => None));
    [intros; by apply wf_remove|intros; by apply get_remove|done..].
Qed.

(** The two maps the loop of [symmetric_difference_with_key] and of
    [intersection_with_key] keeps. *)
Lemma split_fold_spec {B C} (step : InOMap K V * InOMap K C -> K * B -> InOMap K V * InOMap K C)
    (g : K -> option V -> B -> option C) (l : InOMap K B) :
  (forall self out key b, InOMap_wf self -> InOMap_wf out -> InOMap_get key out = None ->
     step (self, out) (key, b) =
       ((InOMap_remove key self).1,
        match g key (InOMap_get key self) b with
        | Some c => (InOMap_insert key c out).1
        | None => out
        end)) ->
  forall self out, InOMap_wf self -> InOMap_wf out -> InOMap_wf l ->
  (forall k, k ∈ InOMap_keys l -> InOMap_get k out = None) ->
  let '(self', out') := fold_left step l (self, out) in
  InOMap_wf self' /\ InOMap_wf out' /\
  (forall k, InOMap_get k self' = match InOMap_get k l with Some _ => None | None => InOMap_get k self end) /\
  (forall k, InOMap_get k out' =
     match InOMap_get k l with Some b => g k (InOMap_get k self) b | None => InOMap_get k out end).
Proof.
  intros Hstep. induction l as [|[key b] l IH]; intros self out Hs Ho Hl Hd; simpl; [done|].
  apply wf_cons in Hl as [Hni Hl].
  assert (InOMap_get key out = None) as Hk by (apply Hd; constructor).
  rewrite Hstep by done.
  set (out1 := match g key (InOMap_get key self) b with
               | Some c => (InOMap_insert key c out).1 | None => out end).
  assert (InOMap_wf out1) as Ho1 by (unfold out1; case_match; [by apply wf_insert|done]).
  assert (forall k, InOMap_get k out1 =
    if decide (key = k) then g key (InOMap_get key self) b else InOMap_get k out) as Hg1.
  { intros k. unfold out1. destruct (g key _ b); [by apply get_insert|].
    case_decide; [by subst|done]. }
  specialize (IH (InOMap_remove key self).1 out1 (wf_remove key self Hs) Ho1 Hl).
  destruct (fold_left step l ((InOMap_remove key self).1, out1)) as [self' out'].
  destruct IH as (H1 & H2 & H3 & H4).
  { intros k Hin. rewrite Hg1. rewrite decide_False by (by intros ->).
    apply Hd. by apply elem_of_cons; right. }
  split_and!; [done..| |]; intros k.
  - rewrite H3, get_remove by done. case_decide; [subst|done]. by rewrite (get_notin _ _ Hni).
  - rewrite H4, Hg1, get_remove by done. case_decide; [subst|done]. by rewrite (get_notin _ _ Hni).
Qed.

Lemma symmetric_difference_with_key_spec f m other : InOMap_wf m -> InOMap_wf other ->
  InOMap_wf (InOMap_symmetric_difference_with_key m other f) /\
  forall k, InOMap_get k (InOMap_symmetric_difference_with_key m other f) =
    match InOMap_get k m, InOMap_get k other with
    | Some a, Some b => f k a b
    | Some a, None => Some a
    | None, o => o
    end.
Proof.
  intros Hm Ho. unfold InOMap_symmetric_difference_with_key.
  pose proof (split_fold_spec (sym_diff_step f)
    (fun k (o : option V) (b : V) => match o with Some a => f k a b | None => Some b end) other) as H.
  specialize (H ltac:(intros self out key b Hs Hout Hk; unfold sym_diff_step; simpl;
    pose proof (remove_prev key self) as Hp;
    destruct (InOMap_remove key self) as [s' r]; simpl in *; subst r; by repeat case_match)
    m InOMap_new Hm (NoDup_nil_2 : InOMap_wf (InOMap_new (V:=V))) Ho ltac:(done)).
  destruct (fold_left (sym_diff_step f) other (m, InOMap_new)) as [self out].
  destruct H as (H1 & H2 & H3 & H4).
  destruct (union_spec out self H2 H1) as [Hw Hg]. split; [done|].
  intros k. rewrite Hg, H3, H4. simpl.
  destruct (InOMap_get k m), (InOMap_get k other); simpl; repeat case_match; congruence.
Qed.
End bulk.

Lemma intersection_with_key_spec {K V B C} `{EqDecision K} (f : K -> V -> B -> C)
    (m : InOMap K V) (other : InOMap K B) : InOMap_wf m -> InOMap_wf other ->
  InOMap_wf (InOMap_intersection_with_key m other f) /\
  forall k, InOMap_get k (InOMap_intersection_with_key m other f) =
    match InOMap_get k m, InOMap_get k other with
    | Some a, Some b => Some (f k a b)
    | _, _ => None
    end.
Proof.
  intros Hm Ho. unfold InOMap_intersection_with_key.
  pose proof (split_fold_spec (intersection_step f)
    (fun k (o : option V) (b : B) => match o with Some a => Some (f k a b) | None => None end) other) as H.
  specialize (H ltac:(intros self out key b Hs Hout Hk; unfold intersection_step; simpl;
    pose proof (remove_prev key self) as Hp;
    destruct (InOMap_remove key self) as [s' r]; simpl in *; subst r; by repeat case_match)
    m InOMap_new Hm (NoDup_nil_2 : InOMap_wf (InOMap_new (V:=C))) Ho ltac:(done)).
  destruct (fold_left (intersection_step f) other (m, InOMap_new)) as [self out].
  destruct H as (_ & H2 & _ & H4). split; [done|].
  intros k. rewrite H4. simpl. by destruct (InOMap_get k m), (InOMap_get k other).
Qed.

(** ** Lemmas: equality *)

Section eqb.
Context {K V : Type} `{EqDecision K} (veq : V -> V -> bool).
Implicit Types (a b : InOMap K V).

(** Both maps bind the same keys, to values [veq] accepts. *)
Definition same_bindings a b : Prop :=
  forall k, option_Forall2 (fun v w => veq v w = true) (InOMap_get k a) (InOMap_get k b).

Lemma pairs_eqb_same a b : pairs_eqb veq a b = true -> same_bindings a b.
Proof.
  revert b. induction a as [|[k v] a IH]; intros [|[k' v'] b] He k0; simplify_eq/=; [constructor|].
  bool_to_prop. subst k'. case_decide; [by constructor|]. by apply IH.
Qed.

Lemma same_bindings_keys a b k : same_bindings a b -> k ∈ InOMap_keys a <-> k ∈ InOMap_keys b.
Proof.
  intros Hs. specialize (Hs k). pose proof (get_None k a). pose proof (get_None k b).
  destruct Hs as [v w _|].
  - split; intros _; apply dec_stable; intros Hn; [apply H0 in Hn|apply H in Hn]; done.
  - split; intros Hin; exfalso; [by apply H|by apply H0].
Qed.

Lemma InOMap_eqb_spec a b : InOMap_wf a -> InOMap_wf b ->
  InOMap_eqb veq a b = true <-> same_bindings a b.
Proof.
  intros Ha Hb. unfold InOMap_eqb. rewrite orb_true_iff, andb_true_iff, Nat.eqb_eq, forallb_forall.
  split.
  - intros [He|[Hlen Hall]]; [by apply pairs_eqb_same|].
    assert (forall k v, InOMap_get k a = Some v ->
      exists w, InOMap_get k b = Some w /\ veq v w = true) as Hsub.
    { intros k v Hg%get_elem_of%list_elem_of_In%Hall. simpl in Hg.
      destruct (InOMap_get k b) as [w|]; [by exists w|done]. }
    assert (InOMap_keys a ≡ₚ InOMap_keys b) as Hp.
    { apply submseteq_length_Permutation.
      - apply NoDup_submseteq; [done|]. intros k Hk.
        destruct (InOMap_get k a) as [v|] eqn:E; [|by apply get_None in E].
        destruct (Hsub k v E) as (w & Hw & _). by apply get_Some_keys in Hw.
      - unfold InOMap_keys. by rewrite !length_map, Hlen. }
    intros k. destruct (InOMap_get k a) as [v|] eqn:E.
    + destruct (Hsub k v E) as (w & -> & Hvw). by constructor.
    + apply get_None in E. rewrite Hp in E. apply get_None in E as ->. constructor.
  - intros Hs. right. split.
    + assert (InOMap_keys a ≡ₚ InOMap_keys b) as Hp.
      { apply NoDup_Permutation; [done..|]. intros k. by apply same_bindings_keys. }
      apply Permutation_length in Hp. unfold InOMap_keys in Hp. by rewrite !length_map in Hp.
    + intros [k v] Hin%list_elem_of_In%elem_of_get; [|done]. specialize (Hs k).
      rewrite Hin in Hs. simpl. by inversion Hs.
Qed.
End eqb.

(** ** The refinement of [gmap] *)

Section refine.
Context {K V : Type} `{Countable K}.
Implicit Types (m : InOMap K V) (k key : K) (v : V).

Lemma abs_lookup m k : InOMap_abs m !! k = InOMap_get k m.
Proof.
  unfold InOMap_abs. induction m as [|[k' v] m IH]; simpl; [done|].
  rewrite lookup_insert. by case_decide.
Qed.

Lemma abs_eq m (g : gmap K V) : (forall k, InOMap_get k m = g !! k) -> InOMap_abs m = g.
Proof. intros E. apply map_eq. intros k. by rewrite abs_lookup. Qed.

Lemma abs_insert key v m : InOMap_wf m ->
  InOMap_abs (InOMap_insert key v m).1 = <[key := v]> (InOMap_abs m).
Proof.
  intros. apply abs_eq. intros k. rewrite get_insert, lookup_insert, abs_lookup by done.
  by repeat case_decide.
Qed.

Lemma abs_remove key m : InOMap_wf m ->
  InOMap_abs (InOMap_remove key m).1 = delete key (InOMap_abs m).
Proof.
  intros. apply abs_eq. intros k. rewrite get_remove, lookup_delete, abs_lookup by done.
  by repeat case_decide.
Qed.

Lemma remove_with_key_remove key m :
  (InOMap_remove_with_key key m).1 = (InOMap_remove key m).1
  /\ (InOMap_remove_with_key key m).2 = pair key <$> (InOMap_remove key m).2.
Proof.
  unfold InOMap_remove_with_key, InOMap_remove. pose proof (find_index_spec key m) as Hi.
  destruct (InOMap_find_index key m); [|done]. destruct Hi as (a & v & b & -> & <- & _).
  by rewrite list_lookup_middle.
Qed.

Lemma extract_with_key_spec key m :
  InOMap_extract_with_key key m =
    match InOMap_get key m with
    | Some v => Some (key, v, (InOMap_remove key m).1)
    | None => None
    end.
Proof.
  unfold InOMap_extract_with_key. destruct (remove_with_key_remove key m) as [H1 H2].
  rewrite remove_prev in H2. destruct (InOMap_remove_with_key key m) as [out r]; simpl in *.
  subst. by destruct (InOMap_get key m).
Qed.

Lemma update_with_key_spec f key v m : InOMap_wf m ->
  InOMap_abs (InOMap_update_with_key m key v f) =
    <[key := match InOMap_abs m !! key with Some v2 => f key v2 v | None => v end]> (InOMap_abs m).
Proof.
  intros Hwf. unfold InOMap_update_with_key, InOMap_update.
  rewrite extract_with_key_spec, abs_lookup. destruct (InOMap_get key m) as [v2|].
  - rewrite abs_insert, abs_remove by auto using wf_remove. apply insert_delete_eq.
  - by apply abs_insert.
Qed.

Lemma wf_update_with_key f key v m : InOMap_wf m -> InOMap_wf (InOMap_update_with_key m key v f).
Proof.
  intros Hwf. unfold InOMap_update_with_key, InOMap_update. rewrite extract_with_key_spec.
  destruct (InOMap_get key m); simpl; auto using wf_insert, wf_remove.
Qed.

Lemma wf_alter f key m : InOMap_wf m -> InOMap_wf (InOMap_alter f key m).
Proof.
  intros Hwf. unfold InOMap_alter, InOMap_update. rewrite extract_with_key_spec.
  destruct (InOMap_get key m) as [w|]; simpl; destruct (f _); auto using wf_insert, wf_remove.
Qed.

Lemma alter_spec f key m : InOMap_wf m ->
  InOMap_abs (InOMap_alter f key m) = partial_alter f key (InOMap_abs m).
Proof.
  intros Hwf. apply abs_eq. intros k. rewrite lookup_partial_alter, !abs_lookup.
  unfold InOMap_alter, InOMap_update. rewrite extract_with_key_spec.
  destruct (InOMap_get key m) as [w|] eqn:E; simpl.
  - destruct (f (Some w)) eqn:Ef; [rewrite get_insert by auto using wf_remove|];
      rewrite get_remove by done; by repeat case_decide.
  - destruct (f None) eqn:Ef; [rewrite get_insert by done; by repeat case_decide|].
    case_decide; [subst|done]. by rewrite E.
Qed.
End refine.

(** ** Properties *)

Section properties.
Context {K V : Type} `{Countable K}.
Implicit Types (a b m : InOMap K V) (k key : K) (v : V).

(** C28: on maps without repeated keys, [get], [insert], [remove],
    [update_with_key] and [alter] are the finite-map operations, [insert] and
    [remove] return the value the key had before, and all keep the keys
    distinct. *)
Theorem InOMap_refines_map m key v f g : InOMap_wf m ->
  InOMap_get key m = InOMap_abs m !! key
  /\ (InOMap_insert key v m).2 = InOMap_abs m !! key
  /\ InOMap_abs (InOMap_insert key v m).1 = <[key := v]> (InOMap_abs m)
  /\ InOMap_wf (InOMap_insert key v m).1
  /\ (InOMap_remove key m).2 = InOMap_abs m !! key
  /\ InOMap_abs (InOMap_remove key m).1 = delete key (InOMap_abs m)
  /\ InOMap_wf (InOMap_remove key m).1
  /\ InOMap_abs (InOMap_update_with_key m key v f) =
       <[key := match InOMap_abs m !! key with Some w => f key w v | None => v end]> (InOMap_abs m)
  /\ InOMap_wf (InOMap_update_with_key m key v f)
  /\ InOMap_abs (InOMap_alter g key m) = partial_alter g key (InOMap_abs m)
  /\ InOMap_wf (InOMap_alter g key m).
Proof.
  intros Hwf. rewrite insert_prev, remove_prev, abs_lookup.
  split_and!; auto using abs_insert, wf_insert, abs_remove, wf_remove, alter_spec, wf_update_with_key, wf_alter.
  rewrite <- abs_lookup. by apply update_with_key_spec.
Qed.

(** [union] keeps the left map's values, [relative_complement],
    [intersection] and [symmetric_difference] are the set operations on keys
    they are named after, whichever map is longer and whatever the order of the
    pairs, and their results have no repeated key. *)
Theorem InOMap_bulk_refines a b : InOMap_wf a -> InOMap_wf b ->
  (InOMap_wf (InOMap_union a b) /\ InOMap_abs (InOMap_union a b) = InOMap_abs a ∪ InOMap_abs b)
  /\ (InOMap_wf (InOMap_relative_complement a b)
      /\ InOMap_abs (InOMap_relative_complement a b) = InOMap_abs a ∖ InOMap_abs b)
  /\ (InOMap_wf (InOMap_intersection a b)
      /\ InOMap_abs (InOMap_intersection a b) = InOMap_abs a ∩ InOMap_abs b)
  /\ (InOMap_wf (InOMap_symmetric_difference a b)
      /\ InOMap_abs (InOMap_symmetric_difference a b)
         = (InOMap_abs a ∖ InOMap_abs b) ∪ (InOMap_abs b ∖ InOMap_abs a)).
Proof.
  intros Ha Hb. unfold InOMap_intersection, InOMap_symmetric_difference.
  pose proof (union_spec a b Ha Hb) as [? Hu].
  pose proof (relative_complement_spec a b Ha Hb) as [? Hr].
  pose proof (intersection_with_key_spec (fun _ v (_ : V) => v) a b Ha Hb) as [? Hi].
  pose proof (symmetric_difference_with_key_spec (fun _ _ _ => None) a b Ha Hb) as [? Hs].
  split_and!; try done; apply abs_eq; intros k;
    rewrite ?Hu, ?Hr, ?Hi, ?Hs, ?lookup_union, ?lookup_intersection, ?lookup_difference, !abs_lookup;
    by destruct (InOMap_get k a), (InOMap_get k b).
Qed.

(** Two objects compare equal exactly when they bind the
    same keys to equal values, in whatever order the keys were inserted. *)
Theorem InOMap_eq_order_independent (veq : V -> V -> bool) a b : InOMap_wf a -> InOMap_wf b ->
  InOMap_eqb veq a b = true <->
  (forall k, option_Forall2 (fun v w => veq v w = true) (InOMap_abs a !! k) (InOMap_abs b !! k)).
Proof.
  intros Ha Hb. rewrite InOMap_eqb_spec by done. unfold same_bindings.
  by setoid_rewrite abs_lookup.
Qed.

(** [entry(key).or_insert(default)] never panics; the reference it
    returns holds the present value or the default, and writing through it
    updates that key alone. *)
Theorem InOMap_entry_total key m default : InOMap_wf m ->
  exists v put, Entry_or_insert (InOMap_entry key m) default = Done (v, put)
    /\ v = from_option id default (InOMap_abs m !! key)
    /\ (forall v', InOMap_wf (put v') /\ InOMap_abs (put v') = <[key := v']> (InOMap_abs m)).
Proof.
  intros Hwf. destruct (or_insert_spec key m default Hwf) as (v & put & He & Hv & Hput & Hw).
  exists v, put. rewrite abs_lookup. split_and!; [done..|]. intros v'. split; [done|].
  apply abs_eq. intros k. rewrite Hput, lookup_insert, abs_lookup. by repeat case_decide.
Qed.
End properties.

(** ** The properties at concrete maps *)

Module InOrderMapExamples.

Definition m1 : InOMap nat nat := [(3, 30); (1, 10); (2, 20)].
Definition m2 : InOMap nat nat := [(2, 21); (4, 40)].

Lemma m1_wf : InOMap_wf m1.
Proof. by apply (bool_decide_unpack _). Qed.

Lemma m2_wf : InOMap_wf m2.
Proof. by apply (bool_decide_unpack _). Qed.

Lemma InOMap_refines_map_witness :
  InOMap_insert 1 11 m1 = ([(3, 30); (2, 20); (1, 11)], Some 10)
  /\ InOMap_abs (InOMap_insert 1 11 m1).1 = <[1 := 11]> (InOMap_abs m1)
  /\ InOMap_remove 1 m1 = ([(3, 30); (2, 20)], Some 10)
  /\ InOMap_abs (InOMap_remove 1 m1).1 = delete 1 (InOMap_abs m1).
Proof.
  destruct (InOMap_refines_map m1 1 11 (fun _ a b => a + b) (fmap S) m1_wf)
    as (_ & _ & Hi & _ & _ & Hr & _). auto.
Defined.

Lemma InOMap_bulk_refines_witness :
  InOMap_union m2 m1 = [(4, 40); (2, 21); (1, 10); (3, 30)]
  /\ InOMap_abs (InOMap_union m2 m1) = InOMap_abs m2 ∪ InOMap_abs m1
  /\ InOMap_symmetric_difference m2 m1 = [(4, 40); (1, 10); (3, 30)]
  /\ InOMap_wf (InOMap_symmetric_difference m2 m1).
Proof.
  destruct (InOMap_bulk_refines m2 m1 m2_wf m1_wf) as ([_ Hu] & _ & _ & Hs & _). auto.
Defined.

Lemma InOMap_eq_order_independent_witness :
  InOMap_eqb Nat.eqb m1 (rev m1) = true
  /\ (forall k, option_Forall2 (fun v w => Nat.eqb v w = true)
                  (InOMap_abs m1 !! k) (InOMap_abs (rev m1) !! k)).
Proof.
  split; [reflexivity|].
  assert (InOMap_wf (rev m1)) as Hr by by apply (bool_decide_unpack _).
  by apply (InOMap_eq_order_independent Nat.eqb m1 (rev m1) m1_wf Hr).
Defined.

End InOrderMapExamples.
