(* ===== verification/JsonValue.v ===== *)
(** * The JSON value [Value]

    [shared-libs/crates/imbl-value/src/lib.rs] and [index.rs].  [Array] holds
    the elements of the persistent vector, [Object] an [InOMap], [String] the
    scalar values of the shared string.  [serde_json::Number] is third-party
    code: the class [JNumber] gives it as a type with the equality its [Eq]
    implementation promises.

    [veq] is the equality of JSON documents, coarser than [=]: the order of an
    object's keys does not matter.  [Value_eqb], the model of
    [impl PartialEq for Value], decides it on well-formed values, those in
    which no object repeats a key. *)
From S2P Require Import Prelude RustStr InOrderMap.

(** What the code uses of [serde_json::Number]: an equality that is an
    equivalence ([impl Eq for Number]). *)
Class JNumber := {
  Number : Type;
  num_eqb : Number -> Number -> bool;
  num_eqb_refl : forall a, num_eqb a a = true;
  num_eqb_sym : forall a b, num_eqb a b = true -> num_eqb b a = true;
  num_eqb_trans : forall a b c, num_eqb a b = true -> num_eqb b c = true -> num_eqb a c = true;
}.

(** An instance to evaluate with: integer numbers. *)
Definition ZNumber : JNumber.
Proof.
  refine {| Number := Z; num_eqb := Z.eqb |}.
  - apply Z.eqb_refl.
  - intros a b H. by rewrite Z.eqb_sym.
  - intros a b c H1%Z.eqb_eq H2%Z.eqb_eq. subst. apply Z.eqb_refl.
Defined.

(** [PartialEq for Vector<A>]: the same length and equal elements. *)
Section vec_eqb.
Context {A : Type} (eqb : A -> A -> bool).

Fixpoint vec_eqb (l k : list A) : bool :=
  match l, k with
  | [], [] => true
  | x :: l', y :: k' => eqb x y && vec_eqb l' k'
  | _, _ => false
  end.
End vec_eqb.

Section Value.
Context `{JN : JNumber}.

Unset Elimination Schemes.
Inductive Value : Type :=
| Null
| Bool (b : bool)
| Num (n : Number)
| Str (s : str)
| Array (l : list Value)
| Object (m : InOMap str Value).
Set Elimination Schemes.

(** ** Inspection *)

Definition Value_as_object (v : Value) : option (InOMap str Value) :=
  match v with Object m => Some m | _ => None end.
Definition Value_is_object (v : Value) : bool :=
  match Value_as_object v with Some _ => true | None => false end.
Definition Value_as_array (v : Value) : option (list Value) :=
  match v with Array l => Some l | _ => None end.
Definition Value_is_array (v : Value) : bool :=
  match Value_as_array v with Some _ => true | None => false end.
Definition Value_as_str (v : Value) : option str :=
  match v with Str s => Some s | _ => None end.
Definition Value_is_string (v : Value) : bool :=
  match Value_as_str v with Some _ => true | None => false end.
Definition Value_is_number (v : Value) : bool :=
  match v with Num _ => true | _ => false end.
Definition Value_as_bool (v : Value) : option bool :=
  match v with Bool b => Some b | _ => None end.
Definition Value_is_boolean (v : Value) : bool :=
  match Value_as_bool v with Some _ => true | None => false end.
Definition Value_as_null (v : Value) : option unit :=
  match v with Null => Some tt | _ => None end.
Definition Value_is_null (v : Value) : bool :=
  match Value_as_null v with Some _ => true | None => false end.

Definition Value_discriminant (v : Value) : N :=
  match v with
  | Null => 0 | Bool _ => 1 | Num _ => 2 | Str _ => 3 | Array _ => 4 | Object _ => 5
  end.

(** [impl Default for Value] *)
Definition Value_default : Value := Null.

(** [Value::take]: the new value and the one taken out. *)
Definition Value_take (v : Value) : Value * Value := (Null, v).

(** ** Indexing ([index.rs]) *)

(** [impl Index for usize] *)
Definition usize_index_into (i : N) (v : Value) : option Value :=
  match v with Array vec => vec_get vec i | _ => None end.

Definition usize_index_into_mut (i : N) (v : Value) : option (Value * (Value -> Value)) :=
  match v with
  | Array vec => x ← vec_get vec i; Some (x, fun x' => Array (vec_set vec i x'))
  | _ => None
  end.

Definition usize_index_into_owned (i : N) (v : Value) : option Value :=
  match v with
  | Array vec => if (i <? vec_len vec)%N then vec_get vec i else None
  | _ => None
  end.

Definition usize_index_or_insert (i : N) (v : Value) : outcome (Value * (Value -> Value)) :=
  match v with
  | Array vec => unwrap (usize_index_into_mut i v)
  | _ => Panic
  end.

(** [impl Index for str] *)
Definition str_index_into (k : str) (v : Value) : option Value :=
  match v with Object map => InOMap_get k map | _ => None end.

Definition str_index_into_mut (k : str) (v : Value) : option (Value * (Value -> Value)) :=
  match v with
  | Object map => '(x, put) ← InOMap_get_mut k map; Some (x, fun x' => Object (put x'))
  | _ => None
  end.

Definition str_index_into_owned (k : str) (v : Value) : option Value :=
  match v with Object map => (InOMap_remove k map).2 | _ => None end.

(** A [null] is first turned into an empty object. *)
Definition str_index_or_insert (k : str) (v : Value) : outcome (Value * (Value -> Value)) :=
  let v' := match v with Null => Object InOMap_new | _ => v end in
  match v' with
  | Object map =>
      match Entry_or_insert (InOMap_entry k map) Null with
      | Done (x, put) => Done (x, fun x' => Object (put x'))
      | Panic => Panic
      end
  | _ => Panic
  end.

(** ** Equality *)

(** [impl PartialEq for Value]. *)
Fixpoint Value_eqb (a b : Value) {struct a} : bool :=
  match a, b with
  | Array x, Array y => vec_eqb Value_eqb x y
  | Bool x, Bool y => Bool.eqb x y
  | Null, Null => true
  | Num x, Num y => num_eqb x y
  | Object x, Object y => InOMap_eqb Value_eqb x y
  | Str x, Str y => str_eqb x y
  | _, _ => false
  end.

(** [Value::ptr_eq].  [same_alloc] says whether the two values are one
    allocation; it is a parameter because it depends on the memory the values
    live in and not on their contents. *)
Definition Value_ptr_eq (same_alloc : bool) (a b : Value) : bool :=
  match a, b with
  | Array _, Array _ | Object _, Object _ | Str _, Str _ => same_alloc
  | _, _ => Value_eqb a b
  end.

(** ** [Value::pointer] *)

(** [str::replace] of a two-character pattern by one character. *)
Fixpoint replace2 (a b c : N) (s : str) : str :=
  match s with
  | x :: ((y :: r) as t) =>
      if ((x =? a) && (y =? b))%N then c :: replace2 a b c r else x :: replace2 a b c t
  | _ => s
  end.

(** [parse_index]: no sign, no leading zero. *)
Definition parse_index (s : str) : option N :=
  match s with
  | c :: r =>
      if ((c =? 43) || ((c =? 48) && negb (vec_len s =? 1)))%N then None else parse_usize s
  | [] => parse_usize s
  end.

Definition pointer_step (target : Value) (token : str) : option Value :=
  match target with
  | Object map => InOMap_get token map
  | Array list => x ← parse_index token; vec_get list x
  | _ => None
  end.

Fixpoint pointer_fold (target : Value) (tokens : list str) : option Value :=
  match tokens with
  | [] => Some target
  | t :: r => target' ← pointer_step target t; pointer_fold target' r
  end.

Definition Value_pointer (pointer : str) (v : Value) : option Value :=
  match pointer with
  | [] => Some v
  | c :: _ =>
      if (c =? 47)%N then
        pointer_fold v
          (map (fun x => replace2 126 48 126 (replace2 126 49 47 x))
               (drop 1 (str_split 47 pointer)))
      else None
  end.

(** ** Well-formed values and document equality *)

(** No object repeats a key. *)
Fixpoint value_wf (v : Value) : bool :=
  match v with
  | Array l => forallb value_wf l
  | Object m => bool_decide (NoDup (InOMap_keys m)) && forallb (fun kv => value_wf kv.2) m
  | _ => true
  end.

(** Every array length fits a [usize], which holds of every value in memory. *)
Fixpoint value_fits (v : Value) : bool :=
  match v with
  | Array l => fits_usize (length l) && forallb value_fits l
  | Object m => forallb (fun kv => value_fits kv.2) m
  | _ => true
  end.

(** Nesting depth. *)
Fixpoint value_depth (v : Value) : nat :=
  match v with
  | Array l => S (foldr (fun x d => max (value_depth x) d) 0 l)
  | Object m => S (foldr (fun kv d => max (value_depth kv.2) d) 0 m)
  | _ => 0
  end.

(** Equality of documents: objects as finite maps. *)
Unset Elimination Schemes.
Inductive veq : Value -> Value -> Prop :=
| veq_null : veq Null Null
| veq_bool b : veq (Bool b) (Bool b)
| veq_num n n' : num_eqb n n' = true -> veq (Num n) (Num n')
| veq_str s : veq (Str s) (Str s)
| veq_array l l' : Forall2 veq l l' -> veq (Array l) (Array l')
| veq_object m m' :
    (forall k, option_Forall2 veq (InOMap_get k m) (InOMap_get k m')) ->
    veq (Object m) (Object m').
Set Elimination Schemes.

(** ** Induction *)

Section ind.
Variable P : Value -> Prop.
Hypothesis Pnull : P Null.
Hypothesis Pbool : forall b, P (Bool b).
Hypothesis Pnum : forall n, P (Num n).
Hypothesis Pstr : forall s, P (Str s).
Hypothesis Parray : forall l, Forall P l -> P (Array l).
Hypothesis Pobject : forall m, Forall (fun kv => P kv.2) m -> P (Object m).

Fixpoint Value_ind (v : Value) : P v :=
  match v with
  | Null => Pnull
  | Bool b => Pbool b
  | Num n => Pnum n
  | Str s => Pstr s
  | Array l => Parray l
      ((fix go (l : list Value) : Forall P l :=
          match l with
          | [] => Forall_nil_2 P
          | x :: r => Forall_cons_2 P x r (Value_ind x) (go r)
          end) l)
  | Object m => Pobject m
      ((fix go (m : list (str * Value)) : Forall (fun kv => P kv.2) m :=
          match m with
          | [] => Forall_nil_2 (fun kv : str * Value => P kv.2)
          | (k, x) :: r =>
              Forall_cons_2 (fun kv : str * Value => P kv.2) (k, x) r (Value_ind x) (go r)
          end) m)
  end.
End ind.
End Value.

(** ** Lemmas: document equality *)

Section veq.
Context `{JN : JNumber}.
Implicit Types (v w : Value) (m : InOMap str Value).

Lemma get_Forall (P : Value -> Prop) m k v :
  Forall (fun kv => P kv.2) m -> InOMap_get k m = Some v -> P v.
Proof. intros HF Hg%get_elem_of. rewrite list.Forall_forall in HF. by apply HF in Hg. Qed.

#[export] Instance veq_refl : Reflexive veq.
Proof.
  intros v. induction v as [| | | |l IH|m IH] using Value_ind; constructor.
  - apply num_eqb_refl.
  - induction IH; by constructor.
  - intros k. destruct (InOMap_get k m) eqn:E; constructor. eapply (get_Forall (fun v => veq v v)); eauto.
Qed.

#[export] Instance veq_sym : Symmetric veq.
Proof.
  intros v. induction v as [| | | |l IH|m IH] using Value_ind; intros w Hvw; inversion Hvw; subst;
    constructor.
  - by apply num_eqb_sym.
  - match goal with H : Forall2 veq _ _ |- _ => rename H into HF end. clear Hvw.
    induction HF as [|x y l k Hxy HF IH2]; constructor; inversion IH; subst; auto.
  - intros k. specialize (H0 k). destruct (InOMap_get k m) eqn:E; inversion H0; subst; constructor.
    eapply (get_Forall (fun v => forall w, veq v w -> veq w v)); eauto.
Qed.

#[export] Instance veq_trans : Transitive veq.
Proof.
  intros v. induction v as [| | | |l IH|m IH] using Value_ind; intros w u Hvw Hwu;
    inversion Hvw; subst; inversion Hwu; subst; constructor.
  - by eapply num_eqb_trans.
  - clear Hvw Hwu. revert l' l'0 H0 H1.
    induction IH as [|x l Hx _ IH2]; intros k j Hlk Hkj; inversion Hlk; subst; inversion Hkj; subst;
      constructor; eauto.
  - intros k. specialize (H0 k). specialize (H1 k).
    destruct (InOMap_get k m) eqn:E, (InOMap_get k m'), (InOMap_get k m'0);
      inversion H0; inversion H1; subst; constructor.
    eapply (get_Forall (fun v => forall w u, veq v w -> veq w u -> veq v u)); eauto.
Qed.

#[export] Instance veq_equiv : Equivalence veq.
Proof. split; apply _. Qed.
End veq.

(** ** Lemmas: well-formedness *)

Section wf.
Context `{JN : JNumber}.
Implicit Types (v w : Value) (m : InOMap str Value) (l : list Value).

Lemma wf_array l : value_wf (Array l) = true <-> Forall (fun v => value_wf v = true) l.
Proof.
  simpl. rewrite forallb_forall, list.Forall_forall. by setoid_rewrite list_elem_of_In.
Qed.

Lemma fits_array l : value_fits (Array l) = true <->
  fits_usize (length l) = true /\ Forall (fun v => value_fits v = true) l.
Proof.
  simpl. rewrite andb_true_iff, forallb_forall, list.Forall_forall.
  by setoid_rewrite list_elem_of_In.
Qed.

Lemma fits_object m : value_fits (Object m) = true <-> Forall (fun kv => value_fits kv.2 = true) m.
Proof.
  simpl. rewrite forallb_forall, list.Forall_forall. by setoid_rewrite list_elem_of_In.
Qed.

Lemma wf_object m : value_wf (Object m) = true <->
  InOMap_wf m /\ Forall (fun kv => value_wf kv.2 = true) m.
Proof.
  simpl. rewrite andb_true_iff, bool_decide_eq_true, forallb_forall, list.Forall_forall.
  by setoid_rewrite list_elem_of_In.
Qed.

Lemma wf_array_get l i v : value_wf (Array l) = true -> vec_get l i = Some v -> value_wf v = true.
Proof.
  intros HF%wf_array Hg. rewrite vec_get_eq in Hg. exact (Forall_lookup_1 _ _ _ _ HF Hg).
Qed.

Lemma wf_object_get m k v : value_wf (Object m) = true -> InOMap_get k m = Some v -> value_wf v = true.
Proof. intros [_ HF]%wf_object Hg. by eapply (get_Forall (fun v => value_wf v = true)). Qed.

Lemma wf_object_insert m k v : value_wf (Object m) = true -> value_wf v = true ->
  value_wf (Object (InOMap_insert k v m).1) = true.
Proof.
  intros [Hw HF]%wf_object Hv. apply wf_object. split; [by apply wf_insert|].
  apply list.Forall_forall. intros [k' v'] Hin%elem_of_get; [|by apply wf_insert].
  rewrite get_insert in Hin by done. case_decide; [by simplify_eq|].
  by eapply (get_Forall (fun v => value_wf v = true)).
Qed.

Lemma wf_object_remove m k : value_wf (Object m) = true ->
  value_wf (Object (InOMap_remove k m).1) = true.
Proof.
  intros [Hw HF]%wf_object. apply wf_object. split; [by apply wf_remove|].
  apply list.Forall_forall. intros [k' v'] Hin%elem_of_get; [|by apply wf_remove].
  rewrite get_remove in Hin by done. case_decide; [done|].
  by eapply (get_Forall (fun v => value_wf v = true)).
Qed.

(** Writing a well-formed value through [get_mut] keeps the object well formed. *)
Lemma wf_object_put m k v put v' : value_wf (Object m) = true -> value_wf v' = true ->
  InOMap_get_mut k m = Some (v, put) -> value_wf (Object (put v')) = true.
Proof.
  intros [Hw HF]%wf_object Hv Hg. pose proof (get_mut_spec k m) as Hs. rewrite Hg in Hs.
  destruct Hs as (_ & Hput & Hk). apply wf_object.
  assert (InOMap_wf (put v')) as Hw' by (unfold InOMap_wf; by rewrite Hk).
  split; [done|]. apply list.Forall_forall. intros [k' w] Hin%elem_of_get; [|done].
  rewrite Hput in Hin. case_decide; [by simplify_eq|].
  by eapply (get_Forall (fun v => value_wf v = true)).
Qed.

Lemma wf_array_set l i v : value_wf (Array l) = true -> value_wf v = true ->
  value_wf (Array (vec_set l i v)) = true.
Proof.
  intros HF%wf_array Hv. apply wf_array. rewrite vec_set_eq. by apply Forall_insert.
Qed.

Lemma wf_array_insert l i v : value_wf (Array l) = true -> value_wf v = true ->
  value_wf (Array (vec_insert l i v)) = true.
Proof.
  intros HF%wf_array Hv. apply wf_array. unfold vec_insert. case_match; [|done].
  apply Forall_app. split; [by apply Forall_take|]. constructor; [done|]. by apply Forall_drop.
Qed.

Lemma wf_array_remove l i : value_wf (Array l) = true -> value_wf (Array (vec_remove l i)) = true.
Proof.
  intros HF%wf_array. apply wf_array. unfold vec_remove. case_match; [|done].
  apply Forall_app. split; [by apply Forall_take|by apply Forall_drop].
Qed.

(** ** Depth *)

Lemma depth_array_get l i v : vec_get l i = Some v -> value_depth v < value_depth (Array l).
Proof.
  rewrite vec_get_eq. simpl. revert i. induction l as [|x l IH]; intros i; [done|].
  destruct (N.to_nat i) as [|n] eqn:En; simpl; [intros; simplify_eq; lia|].
  intros Hn. specialize (IH (N.of_nat n)). rewrite Nat2N.id in IH. apply IH in Hn. lia.
Qed.

Lemma depth_object_get m k v : InOMap_get k m = Some v -> value_depth v < value_depth (Object m).
Proof.
  simpl. induction m as [|[k' x] m IH]; simpl; [done|].
  case_decide; intros; simplify_eq; [lia|]. specialize (IH ltac:(done)). lia.
Qed.

(** ** [Value_eqb] decides [veq] *)

Lemma vec_eqb_spec (l k : list Value) :
  Forall (fun v => forall w, value_wf v = true -> value_wf w = true -> Value_eqb v w = true <-> veq v w) l ->
  Forall (fun v => value_wf v = true) l -> Forall (fun v => value_wf v = true) k ->
  vec_eqb Value_eqb l k = true <-> Forall2 veq l k.
Proof.
  intros IH. revert k. induction IH as [|x l Hx _ IHl]; intros [|y k] Hl Hk; simpl;
    try (split; [done|by inversion 1]).
  inversion Hl; inversion Hk; subst. rewrite andb_true_iff, Hx, IHl by done.
  split; [intros []; by constructor|]. by inversion 1.
Qed.

Lemma Value_eqb_spec v w : value_wf v = true -> value_wf w = true -> Value_eqb v w = true <-> veq v w.
Proof.
  revert w. induction v as [| | | |l IH|m IH] using Value_ind; intros w Hv Hw;
    destruct w; simpl Value_eqb; try (split; [done|by inversion 1]).
  - rewrite eqb_true_iff. split; [intros ->; constructor|by inversion 1].
  - split; [by constructor|by inversion 1].
  - rewrite str_eqb_eq. split; [intros ->; constructor|by inversion 1].
  - apply wf_array in Hv, Hw. rewrite vec_eqb_spec by done.
    split; [by constructor|by inversion 1].
  - pose proof Hv as [Hm Hv']%wf_object. pose proof Hw as [Hm' Hw']%wf_object.
    rewrite InOMap_eqb_spec by done.
    assert (forall k, option_Forall2 (fun v w => Value_eqb v w = true) (InOMap_get k m) (InOMap_get k m0)
       <-> option_Forall2 veq (InOMap_get k m) (InOMap_get k m0)) as Heq.
    { intros k. destruct (InOMap_get k m) as [x|] eqn:E1, (InOMap_get k m0) as [y|] eqn:E2;
        [|split; inversion 1..|split; constructor].
      assert (Value_eqb x y = true <-> veq x y) as Hxy.
      { apply (get_Forall (fun v => forall w, value_wf v = true -> value_wf w = true ->
          Value_eqb v w = true <-> veq v w) m k x IH E1); eauto using wf_object_get. }
      split; inversion 1; constructor; by apply Hxy. }
    unfold same_bindings. setoid_rewrite Heq. split; [by constructor|by inversion 1].
Qed.

Lemma Value_eqb_false v w : value_wf v = true -> value_wf w = true ->
  Value_eqb v w = false <-> ¬ veq v w.
Proof.
  intros Hv Hw. rewrite <- Value_eqb_spec by done. by destruct (Value_eqb v w).
Qed.

(** ** Congruence of the accessors *)

Lemma veq_array_len l l' : Forall2 veq l l' -> length l = length l'.
Proof. apply Forall2_length. Qed.

Lemma veq_vec_get l l' i : Forall2 veq l l' -> option_Forall2 veq (vec_get l i) (vec_get l' i).
Proof.
  intros HF. rewrite !vec_get_eq. destruct (l !! N.to_nat i) as [x|] eqn:E.
  - eapply Forall2_lookup_l in HF as (y & -> & Hxy); [|done]. by constructor.
  - destruct (l' !! N.to_nat i) as [y|] eqn:E'; [|constructor].
    eapply Forall2_lookup_r in HF as (x & Hx & _); [|done]. congruence.
Qed.

Lemma veq_is_null v w : veq v w -> Value_is_null v = Value_is_null w.
Proof. by inversion 1. Qed.

(** [==] on JSON values (objects compared without regard to the order
    of their keys) is an equivalence relation that decides equality of
    documents. *)
Theorem Value_eq_decides (a b c : Value) :
  value_wf a = true -> value_wf b = true -> value_wf c = true ->
  (Value_eqb a b = true <-> veq a b)
  /\ Value_eqb a a = true
  /\ Value_eqb a b = Value_eqb b a
  /\ (Value_eqb a b = true -> Value_eqb b c = true -> Value_eqb a c = true).
Proof.
  intros Ha Hb Hc. split_and!.
  - by apply Value_eqb_spec.
  - by apply Value_eqb_spec.
  - apply eq_true_iff_eq. rewrite !Value_eqb_spec by done. by split; intros; symmetry.
  - rewrite !Value_eqb_spec by done. intros. by etrans.
Qed.
End wf.

#[export] Hint Resolve wf_array_get wf_object_get wf_object_insert wf_object_remove
  wf_array_set wf_array_insert wf_array_remove : rust.

Module JsonValueExamples.
#[local] Existing Instance ZNumber.

Definition v1 : Value := Object [($"a", Num 1%Z); ($"b", Array [Bool true])].
Definition v2 : Value := Object [($"b", Array [Bool true]); ($"a", Num 1%Z)].

Lemma Value_eq_decides_witness :
  Value_eqb v1 v2 = true /\ veq v1 v2 /\ v1 <> v2 /\ Value_eqb v2 v1 = Value_eqb v1 v2.
Proof.
  destruct (Value_eq_decides v1 v2 v1) as ([Hd _] & _ & Hs & _); [reflexivity..|].
  split; [reflexivity|]. split; [by apply Hd|]. done.
Defined.

End JsonValueExamples.
