(* ===== verification/JsonPtr.v ===== *)
(** * JSON pointers

    [shared-libs/crates/patch-db/json-ptr/src/lib.rs]: a pointer keeps its
    source string and, per segment, the byte range of the segment in that
    string (with the unescaped text when the range holds escapes).  [offset] is
    the position of the source in the string the ranges were computed for: a
    slice of a pointer keeps the original ranges.

    Every byte-range computation is modelled as written, including the
    subtractions that underflow and the slices that panic.  [ptr_wf p ks] says
    that the pointer [p] represents the list of segments [ks]; the lemmas show
    that the operations on pointers are the operations on lists of segments. *)
From S2P Require Import Prelude RustStr.

Local Open Scope rust_scope.

(** ** Data *)

Inductive ParseError : Type :=
| InvalidEscape (c : N)
| NoLeadingSlash.

Inductive PtrSegment : Type :=
| Unescaped (range : nat * nat)
| Escaped (range : nat * nat) (s : str).

Definition PtrSegment_range (seg : PtrSegment) : nat * nat :=
  match seg with Unescaped range => range | Escaped range _ => range end.

(** [range_mut] with both ends moved by [n]. *)
Definition shift_range (n : nat) (seg : PtrSegment) : PtrSegment :=
  match seg with
  | Unescaped (a, b) => Unescaped (a + n, b + n)
  | Escaped (a, b) s => Escaped (a + n, b + n) s
  end.

Record JsonPointer : Type := mkPtr {
  src : str;
  offset : nat;
  segments : list PtrSegment;
}.

(** [ROOT] and [JsonPointer::default()]. *)
Definition ROOT : JsonPointer := mkPtr [] 0 [].

(** [usize] subtraction: underflow panics. *)
Definition checked_sub (a b : nat) : outcome nat := if b <=? a then Done (a - b) else Panic.

(** ** The trait [SegList]: a segment list is two adjacent slices *)

Definition SegList : Type := (list PtrSegment * list PtrSegment).

Definition SegList_get (sl : SegList) (idx : nat) : option PtrSegment :=
  match sl.1 !! idx with
  | Some seg => Some seg
  | None => sl.2 !! (idx - length sl.1)
  end.

Definition SegList_first (sl : SegList) : option PtrSegment :=
  match sl.1 !! 0 with Some seg => Some seg | None => sl.2 !! 0 end.

Definition SegList_last (sl : SegList) : option PtrSegment :=
  match last sl.2 with Some seg => Some seg | None => last sl.1 end.

Definition SegList_len (sl : SegList) : nat := length sl.1 + length sl.2.

(** [&l[a..b]] *)
Definition list_slice {A} (l : list A) (a b : nat) : outcome (list A) :=
  if (a <=? b) && (b <=? length l) then Done (take (b - a) (drop a l)) else Panic.

(** [slice(start_idx..end_idx)], the bounds already computed. *)
Definition SegList_slice (sl : SegList) (start_idx end_idx : nat) : outcome (option SegList) :=
  let '(lft, rgt) := sl in
  if start_idx <=? length lft then
    if end_idx <=? length lft then
      let* l := list_slice lft start_idx end_idx in Done (Some (l, []))
    else if end_idx - length lft <=? length rgt then
      let* l := list_slice lft start_idx (length lft) in
      let* r := list_slice rgt 0 (end_idx - length lft) in
      Done (Some (l, r))
    else Done None
  else if start_idx - length lft <? length rgt then
    let* e := checked_sub end_idx (length lft) in
    if e <=? length rgt then
      let* r := list_slice rgt (start_idx - length lft) e in Done (Some ([], r))
    else Done None
  else Done None.

(** ** Parsing *)

(** [range.start..end] *)
Definition with_end (seg : PtrSegment) (e : nat) : PtrSegment :=
  match seg with
  | Unescaped (a, _) => Unescaped (a, e)
  | Escaped (a, _) s => Escaped (a, e) s
  end.

(** The segment after an escape that stands for [c], at byte [idx]. *)
Definition escape_segment (source : str) (seg : PtrSegment) (idx : nat) (c : N) : outcome PtrSegment :=
  match seg with
  | Unescaped (a, b) =>
      let* text := unwrap (str_slice source a b) in
      Done (Escaped (a, idx + 1) (text ++ [c]))
  | Escaped (a, _) s => Done (Escaped (a, idx + 1) (s ++ [c]))
  end.

(** The loop of [parse] over the characters after the leading slash. *)
Fixpoint parse_loop (source : str) (chars : list (nat * N))
    (segs : list PtrSegment) (segment : PtrSegment) (escape_next_char : bool)
    : outcome (result (list PtrSegment) ParseError) :=
  match chars with
  | [] => Done (Ok (segs ++ [segment]))
  | (idx, c) :: rest =>
      if escape_next_char then
        if (c =? 48)%N then
          let* segment' := escape_segment source segment idx 126 in
          parse_loop source rest segs segment' false
        else if (c =? 49)%N then
          let* segment' := escape_segment source segment idx 47 in
          parse_loop source rest segs segment' false
        else Done (Err (InvalidEscape c))
      else if (c =? 47)%N then
        parse_loop source rest (segs ++ [segment]) (Unescaped (idx + 1, idx + 1)) false
      else if (c =? 126)%N then parse_loop source rest segs segment true
      else
        parse_loop source rest segs
          (match segment with
           | Unescaped (a, _) => Unescaped (a, idx + 1)
           | Escaped (a, _) s => Escaped (a, idx + 1) (s ++ [c])
           end) false
  end.

Definition JsonPointer_parse (s : str) : outcome (result JsonPointer ParseError) :=
  match char_indices s with
  | [] => Done (Ok (mkPtr s 0 []))
  | (_, c) :: rest =>
      if (c =? 47)%N then
        let* r := parse_loop s rest [] (Unescaped (1, 1)) false in
        match r with
        | Ok segs => Done (Ok (mkPtr s 0 segs))
        | Err e => Done (Err e)
        end
      else Done (Err NoLeadingSlash)
  end.

(** ** Reading *)

Definition JsonPointer_len (p : JsonPointer) : nat := SegList_len (segments p, []).

Definition JsonPointer_is_empty (p : JsonPointer) : bool := JsonPointer_len p =? 0.

(** The text of a segment of [p]. *)
Definition segment_text (p : JsonPointer) (seg : PtrSegment) : outcome str :=
  match seg with
  | Unescaped (a, b) =>
      let* a' := checked_sub a (offset p) in
      let* b' := checked_sub b (offset p) in
      unwrap (str_slice (src p) a' b')
  | Escaped _ s => Done s
  end.

Definition JsonPointer_get_segment (p : JsonPointer) (idx : nat) : outcome (option str) :=
  match SegList_get (segments p, []) idx with
  | Some seg => outcome_map Some (segment_text p seg)
  | None => Done None
  end.

(** Running [JsonPointerIter] to its end. *)
Fixpoint texts (p : JsonPointer) (segs : list PtrSegment) : outcome (list str) :=
  match segs with
  | [] => Done []
  | seg :: r =>
      let* k := segment_text p seg in
      let* ks := texts p r in
      Done (k :: ks)
  end.

Definition JsonPointer_iter (p : JsonPointer) : outcome (list str) := texts p (segments p).

(** [slice(a..b)]. *)
Definition JsonPointer_slice (p : JsonPointer) (a b : nat) : outcome (option JsonPointer) :=
  let* sl := SegList_slice (segments p, []) a b in
  match sl with
  | None => Done None
  | Some (l, r) =>
      let segs := l ++ r in
      match segs with
      | [] => Done (Some (mkPtr [] 0 segs))
      | first :: _ =>
          let lst := List.last segs first in
          let* off := checked_sub (PtrSegment_range first).1 1 in
          let* s0 := checked_sub off (offset p) in
          let* s1 := checked_sub (PtrSegment_range lst).2 (offset p) in
          let* s := unwrap (str_slice (src p) s0 s1) in
          Done (Some (mkPtr s off segs))
      end
  end.

Definition JsonPointer_uncons (p : JsonPointer) : outcome (option (str * JsonPointer)) :=
  let* k := JsonPointer_get_segment p 0 in
  let* rest := JsonPointer_slice p 1 (JsonPointer_len p) in
  match k, rest with
  | Some k, Some rest => Done (Some (k, rest))
  | _, _ => Done None
  end.

(** [self.get_segment(idx) == Some(seg)] for the segments of [other] in turn. *)
Fixpoint has_segments (p : JsonPointer) (idx : nat) (ks : list str) : outcome bool :=
  match ks with
  | [] => Done true
  | k :: r =>
      let* s := JsonPointer_get_segment p idx in
      if bool_decide (s = Some k) then has_segments p (S idx) r else Done false
  end.

Definition JsonPointer_starts_with (p other : JsonPointer) : outcome bool :=
  let* ks := JsonPointer_iter other in has_segments p 0 ks.

Definition JsonPointer_strip_prefix (p other : JsonPointer) : outcome (option JsonPointer) :=
  let* ks := JsonPointer_iter other in
  let* b := has_segments p 0 ks in
  if negb b then Done None
  else if JsonPointer_len p =? JsonPointer_len other then Done (Some ROOT)
  else
    match SegList_get (segments p, []) (JsonPointer_len other) with
    | None => Done None
    | Some seg =>
        let* src_start := checked_sub (PtrSegment_range seg).1 1 in
        let* s := unwrap (str_slice_from (src p) src_start) in
        let* sl := SegList_slice (segments p, []) (JsonPointer_len other) (JsonPointer_len p) in
        match sl with
        | None => Done None
        | Some (l, r) => Done (Some (mkPtr s src_start (l ++ r)))
        end
    end.

(** The number of leading segments [common_prefix] finds in common. *)
Fixpoint common_count (other : JsonPointer) (idx : nat) (ks : list str) : outcome nat :=
  match ks with
  | [] => Done idx
  | k :: r =>
      let* s := JsonPointer_get_segment other idx in
      if bool_decide (Some k = s) then common_count other (S idx) r else Done idx
  end.

Definition JsonPointer_common_prefix (p other : JsonPointer) : outcome JsonPointer :=
  let* ks := JsonPointer_iter p in
  let* n := common_count other 0 ks in
  let* common_idx :=
    match n with
    | 0 => Done 0
    | S i =>
        match SegList_get (segments p, []) i with
        | Some seg => checked_sub (PtrSegment_range seg).2 (offset p)
        | None => Done 0
        end
    end in
  let* s := unwrap (str_slice (src p) 0 common_idx) in
  let* sl := SegList_slice (segments p, []) 0 n in
  let* lr := unwrap sl in
  Done (mkPtr s (offset p) (lr.1 ++ lr.2)).

(** [PartialEq]: the same number of segments, equal one by one. *)
Definition JsonPointer_eqb (p q : JsonPointer) : outcome bool :=
  if JsonPointer_len p =? JsonPointer_len q then
    let* ks := JsonPointer_iter p in
    let* qs := JsonPointer_iter q in
    Done (bool_decide (ks = qs))
  else Done false.

(** [Ord]: lexicographic on the segments. *)
Definition JsonPointer_cmp (p q : JsonPointer) : outcome comparison :=
  let* ks := JsonPointer_iter p in
  let* qs := JsonPointer_iter q in
  Done (list_cmp str_cmp ks qs).

(** ** Building *)

(** The escaped form of one character and of a segment. *)
Definition escape_char (c : N) : str :=
  if (c =? 126)%N then [126; 48]%N else if (c =? 47)%N then [126; 49]%N else [c].

Definition escape (segment : str) : str := segment ≫= escape_char.
#[global] Arguments escape : simpl never.

Definition needs_escape (c : N) : bool := ((c =? 126) || (c =? 47))%N.

Definition JsonPointer_push_end (p : JsonPointer) (segment : str) : JsonPointer :=
  let start := str_len (src p ++ [47%N]) in
  let src' := src p ++ [47%N] ++ escape segment in
  let range := (start, str_len src') in
  mkPtr src' (offset p)
    (segments p ++ [if existsb needs_escape segment then Escaped range segment
                    else Unescaped range]).

Definition JsonPointer_push_end_idx (p : JsonPointer) (segment : N) : JsonPointer :=
  let start := str_len (src p) + 1 in
  let src' := src p ++ [47%N] ++ show_N segment in
  mkPtr src' (offset p) (segments p ++ [Unescaped (start, str_len src')]).

Definition JsonPointer_push_start (p : JsonPointer) (segment : str) : JsonPointer :=
  let escaped := length (List.filter needs_escape segment) in
  let prefix_len := str_len segment + escaped + 1 in
  mkPtr ([47%N] ++ escape segment ++ src p) (offset p)
    ((if 0 <? escaped then Escaped (1, prefix_len) segment else Unescaped (1, prefix_len))
       :: map (shift_range prefix_len) (segments p)).

Definition JsonPointer_push_start_idx (p : JsonPointer) (segment : N) : JsonPointer :=
  let s := [47%N] ++ show_N segment in
  let prefix_len := str_len s in
  mkPtr (s ++ src p) (offset p)
    (Unescaped (1, prefix_len) :: map (shift_range prefix_len) (segments p)).

(** [String::truncate]: no effect past the end, a panic off a boundary. *)
Definition str_truncate (s : str) (n : nat) : outcome str :=
  if str_len s <=? n then Done s
  else match split_at_byte n s with Some (a, _) => Done a | None => Panic end.

Definition JsonPointer_pop_end (p : JsonPointer) : outcome JsonPointer :=
  match last (segments p) with
  | None => Done p
  | Some seg =>
      let* n := checked_sub (PtrSegment_range seg).1 1 in
      let* s := str_truncate (src p) n in
      Done (mkPtr s (offset p) (removelast (segments p)))
  end.

(** [replace_range(a..b, "")]. *)
Definition str_remove_range (s : str) (a b : nat) : outcome str :=
  if a <=? b then
    match split_at_byte a s, split_at_byte b s with
    | Some (x, _), Some (_, y) => Done (x ++ y)
    | _, _ => Panic
    end
  else Panic.

Definition JsonPointer_pop_start (p : JsonPointer) : outcome JsonPointer :=
  match segments p with
  | [] => Done p
  | seg :: r =>
      let '(a, b) := PtrSegment_range seg in
      let* a' := checked_sub a 1 in
      let* s := str_remove_range (src p) a' b in
      Done (mkPtr s (offset p) r)
  end.

Definition JsonPointer_truncate (p : JsonPointer) (new_len : nat) : outcome JsonPointer :=
  match segments p !! new_len with
  | None => Done p
  | Some seg =>
      let* n := checked_sub (PtrSegment_range seg).1 1 in
      let* s := str_truncate (src p) n in
      Done (mkPtr s (offset p) (take new_len (segments p)))
  end.

Definition JsonPointer_append (p suffix : JsonPointer) : outcome JsonPointer :=
  let* ks := JsonPointer_iter suffix in
  Done (fold_left JsonPointer_push_end ks p).

Definition JsonPointer_prepend (p prefix : JsonPointer) : outcome JsonPointer :=
  let* ks := JsonPointer_iter prefix in
  Done (fold_left JsonPointer_push_start (rev ks) p).

(** [impl Add]: concatenation with the ranges of the right operand rebased. *)
Definition rebase_range (rhs_offset src_len off : nat) (seg : PtrSegment) : outcome PtrSegment :=
  match seg with
  | Unescaped (a, b) =>
      let* a' := checked_sub a rhs_offset in
      let* b' := checked_sub b rhs_offset in
      Done (Unescaped (a' + src_len + off, b' + src_len + off))
  | Escaped (a, b) s =>
      let* a' := checked_sub a rhs_offset in
      let* b' := checked_sub b rhs_offset in
      Done (Escaped (a' + src_len + off, b' + src_len + off) s)
  end.

Fixpoint rebase_ranges (rhs_offset src_len off : nat) (segs : list PtrSegment)
    : outcome (list PtrSegment) :=
  match segs with
  | [] => Done []
  | seg :: r =>
      let* seg' := rebase_range rhs_offset src_len off seg in
      let* r' := rebase_ranges rhs_offset src_len off r in
      Done (seg' :: r')
  end.

Definition JsonPointer_add (p rhs : JsonPointer) : outcome JsonPointer :=
  let* segs := rebase_ranges (offset rhs) (str_len (src p)) (offset p) (segments rhs) in
  Done (mkPtr (src p ++ src rhs) (offset p) (segments p ++ segs)).

(** ** Representation *)

(** The text of a pointer with segments [ks]. *)
Definition render (ks : list str) : str := ks ≫= fun k => 47%N :: escape k.
#[global] Arguments render : simpl never.

(** From byte [pos] on, the segments [segs] cover the text of [ks]. *)
Fixpoint segs_at (pos : nat) (segs : list PtrSegment) (ks : list str) : Prop :=
  match segs, ks with
  | [], [] => True
  | seg :: segs', k :: ks' =>
      let e := pos + 1 + str_len (escape k) in
      (seg = Escaped (pos + 1, e) k \/ (seg = Unescaped (pos + 1, e) /\ escape k = k))
      /\ segs_at e segs' ks'
  | _, _ => False
  end.

(** [p] represents the segments [ks]. *)
Definition ptr_wf (p : JsonPointer) (ks : list str) : Prop :=
  src p = render ks /\ segs_at (offset p) (segments p) ks.

(** ** Lemmas: escaping *)

Lemma escape_app (a b : str) : escape (a ++ b) = escape a ++ escape b.
Proof. apply bind_app. Qed.

Lemma escape_cons c (s : str) : escape (c :: s) = escape_char c ++ escape s.
Proof. done. Qed.

Lemma render_app (a b : list str) : render (a ++ b) = render a ++ render b.
Proof. apply bind_app. Qed.

Lemma render_cons (k : str) ks : render (k :: ks) = 47%N :: escape k ++ render ks.
Proof. done. Qed.

Lemma render_singleton (k : str) : render [k] = 47%N :: escape k.
Proof. rewrite render_cons. f_equal. apply (app_nil_r (escape k)). Qed.

Lemma escape_char_plain c : needs_escape c = false -> escape_char c = [c].
Proof. unfold needs_escape, escape_char. intros [-> ->]%orb_false_iff. done. Qed.

Lemma escape_plain (k : str) : existsb needs_escape k = false -> escape k = k.
Proof.
  induction k as [|c k IH]; simpl; [done|]. intros [Hc Hk]%orb_false_iff.
  by rewrite escape_cons, escape_char_plain, IH.
Qed.

Lemma str_len_escape (k : str) : str_len (escape k) = str_len k + length (List.filter needs_escape k).
Proof.
  induction k as [|c k IH]; [done|]. rewrite escape_cons, str_len_app, IH, str_len_cons. simpl.
  unfold escape_char, needs_escape.
  destruct (N.eqb_spec c 126) as [->|]; simpl; [lia|].
  destruct (N.eqb_spec c 47) as [->|]; simpl; [lia|].
  unfold str_len at 1. simpl. lia.
Qed.

Lemma filter_existsb (k : str) : existsb needs_escape k = (0 <? length (List.filter needs_escape k)).
Proof. induction k as [|c k IH]; simpl; [done|]. by destruct (needs_escape c). Qed.

Lemma show_N_plain n : existsb needs_escape (show_N n) = false.
Proof.
  pose proof (show_N_digits n) as HF. induction HF as [|c s Hc _ IH]; simpl; [done|].
  rewrite IH, orb_false_r. unfold is_ascii_digit in Hc. unfold needs_escape. bool_to_prop.
  apply orb_false_iff. rewrite !N.eqb_neq. lia.
Qed.

(** ** Lemmas: representation *)

Lemma segs_at_length pos segs ks : segs_at pos segs ks -> length segs = length ks.
Proof.
  revert pos ks. induction segs as [|seg segs IH]; intros pos [|k ks]; simpl; try done.
  intros [_ H]. f_equal. by eapply IH.
Qed.

Lemma segs_at_cons pos seg segs k ks : segs_at pos (seg :: segs) (k :: ks) <->
  (seg = Escaped (pos + 1, pos + 1 + str_len (escape k)) k
   \/ (seg = Unescaped (pos + 1, pos + 1 + str_len (escape k)) /\ escape k = k))
  /\ segs_at (pos + str_len (render [k])) segs ks.
Proof.
  unfold render. cbn [mbind list_bind]. rewrite app_nil_r, str_len_cons.
  replace (pos + (len_utf8 47 + str_len (escape k))) with (pos + 1 + str_len (escape k)) by (simpl; lia).
  done.
Qed.

Lemma segs_at_app pos s1 s2 k1 k2 : length s1 = length k1 ->
  segs_at pos (s1 ++ s2) (k1 ++ k2) <-> segs_at pos s1 k1 /\ segs_at (pos + str_len (render k1)) s2 k2.
Proof.
  revert pos k1. induction s1 as [|seg s1 IH]; intros pos [|k k1] Hlen; try done.
  { simpl. rewrite Nat.add_0_r. tauto. }
  cbn [app]. rewrite !segs_at_cons, IH by (simpl in *; lia).
  rewrite (render_app [k] k1 : render (k :: k1) = _), str_len_app, Nat.add_assoc. tauto.
Qed.

Lemma segs_at_shift n pos segs ks :
  segs_at pos segs ks -> segs_at (pos + n) (map (shift_range n) segs) ks.
Proof.
  revert pos ks. induction segs as [|seg segs IH]; intros pos [|k ks]; try done.
  cbn [map]. rewrite !segs_at_cons. intros [Hseg H]. split.
  - replace (pos + n + 1) with (pos + 1 + n) by lia.
    replace (pos + 1 + n + str_len (escape k)) with (pos + 1 + str_len (escape k) + n) by lia.
    destruct Hseg as [->|[-> He]]; [by left|by right].
  - replace (pos + n + str_len (render [k])) with (pos + str_len (render [k]) + n) by lia. by apply IH.
Qed.

(** Splitting a represented pointer at a segment. *)
Lemma ptr_wf_split p k1 k k2 : ptr_wf p (k1 ++ k :: k2) ->
  exists s1 seg s2, segments p = s1 ++ seg :: s2 /\ length s1 = length k1
    /\ segs_at (offset p) s1 k1
    /\ segs_at (offset p + str_len (render k1)) (seg :: s2) (k :: k2).
Proof.
  intros [_ H]. pose proof (segs_at_length _ _ _ H) as Hl. rewrite length_app in Hl. simpl in Hl.
  rewrite <- (take_drop (length k1) (segments p)) in H |- *.
  assert (length (take (length k1) (segments p)) = length k1) as Ht by (rewrite length_take; lia).
  apply segs_at_app in H as [H1 H2]; [|done].
  destruct (drop (length k1) (segments p)) as [|seg s2]; [done|]. by exists (take (length k1) (segments p)), seg, s2.
Qed.

Lemma checked_sub_add a b : checked_sub (a + b) a = Done b.
Proof.
  unfold checked_sub. rewrite (proj2 (Nat.leb_le _ _)) by lia. f_equal. lia.
Qed.

Lemma checked_sub_le a b : b <= a -> checked_sub a b = Done (a - b).
Proof. intros H. unfold checked_sub. by rewrite (proj2 (Nat.leb_le _ _) H). Qed.

Lemma segment_text_spec p k1 k k2 seg s2 : src p = render (k1 ++ k :: k2) ->
  segs_at (offset p + str_len (render k1)) (seg :: s2) (k :: k2) -> segment_text p seg = Done k.
Proof.
  intros Hsrc [Hseg _]. unfold segment_text. destruct Hseg as [->|[-> He]]; [done|].
  rewrite He. rewrite <- !Nat.add_assoc, !checked_sub_add. simpl.
  rewrite Hsrc, render_app, render_cons, He.
  pose proof (str_slice_app (render k1 ++ [47%N]) k (render k2)) as Hs.
  assert (str_len (render k1 ++ [47%N]) = str_len (render k1) + 1) as Hl by by rewrite str_len_app.
  rewrite Hl, <- app_assoc, <- Nat.add_assoc in Hs. cbn [app Nat.add] in Hs. by rewrite Hs.
Qed.

Lemma texts_spec p k1 k2 s2 : src p = render (k1 ++ k2) ->
  segs_at (offset p + str_len (render k1)) s2 k2 -> texts p s2 = Done k2.
Proof.
  revert k1 s2. induction k2 as [|k k2 IH]; intros k1 [|seg s2] Hsrc H; try done.
  cbn [texts]. rewrite (segment_text_spec p k1 k k2 seg s2 Hsrc H). cbn [outcome_bind].
  rewrite (IH (k1 ++ [k]) s2); [done| |].
  - by rewrite <- app_assoc.
  - apply segs_at_cons in H as [_ H]. by rewrite render_app, str_len_app, Nat.add_assoc.
Qed.

(** Iterating over a represented pointer yields its segments and never panics. *)
Lemma iter_spec p ks : ptr_wf p ks -> JsonPointer_iter p = Done ks.
Proof.
  intros [Hsrc H]. apply (texts_spec p [] ks); [done|]. by rewrite Nat.add_0_r.
Qed.

Lemma len_spec p ks : ptr_wf p ks -> JsonPointer_len p = length ks.
Proof.
  intros [_ H%segs_at_length]. unfold JsonPointer_len, SegList_len. simpl. lia.
Qed.

Lemma SegList_get_app sl i : SegList_get sl i = (sl.1 ++ sl.2) !! i.
Proof. unfold SegList_get. by rewrite lookup_app. Qed.

Lemma get_segment_spec p ks i : ptr_wf p ks -> JsonPointer_get_segment p i = Done (ks !! i).
Proof.
  intros Hwf. unfold JsonPointer_get_segment. rewrite SegList_get_app. simpl. rewrite app_nil_r.
  destruct (ks !! i) as [k|] eqn:Hk.
  - apply list_elem_of_split_length in Hk as (k1 & k2 & -> & ->).
    destruct (ptr_wf_split p k1 k k2 Hwf) as (s1 & seg & s2 & -> & Hl & _ & H2).
    rewrite <- Hl, list_lookup_middle by done.
    by rewrite (segment_text_spec p k1 k k2 seg s2 (proj1 Hwf) H2).
  - apply lookup_ge_None in Hk. destruct Hwf as [_ Hs%segs_at_length].
    by rewrite (proj2 (lookup_ge_None (segments p) i)) by lia.
Qed.

Lemma SegList_slice_contig (segs : list PtrSegment) a b : a <= b -> b <= length segs ->
  SegList_slice (segs, []) a b = Done (Some (take (b - a) (drop a segs), [])).
Proof.
  intros Ha Hb. unfold SegList_slice, list_slice.
  rewrite !(proj2 (Nat.leb_le _ _)) by lia. done.
Qed.

(** ** Lemmas: slices and prefixes *)

(** The segments [k2] in the middle of a represented pointer. *)
Lemma ptr_wf_middle p k1 k2 k3 : ptr_wf p (k1 ++ k2 ++ k3) ->
  exists s1 s2 s3, segments p = s1 ++ s2 ++ s3 /\ length s1 = length k1 /\ length s2 = length k2
    /\ segs_at (offset p) s1 k1
    /\ segs_at (offset p + str_len (render k1)) s2 k2
    /\ segs_at (offset p + str_len (render k1) + str_len (render k2)) s3 k3.
Proof.
  intros [_ H]. pose proof (segs_at_length _ _ _ H) as Hl. rewrite !length_app in Hl.
  rewrite <- (take_drop (length k1) (segments p)) in H |- *.
  set (t := drop (length k1) (segments p)) in *.
  assert (length t = length k2 + length k3) as Ht by (unfold t; rewrite length_drop; lia).
  rewrite <- (take_drop (length k2) t) in H |- *.
  apply segs_at_app in H as [H1 H2]; [|rewrite length_take; lia].
  apply segs_at_app in H2 as [H2 H3]; [|rewrite length_take; lia].
  eexists _, _, _. split; [reflexivity|].
  split_and!; try done; rewrite length_take; lia.
Qed.

(** The range of the last of several segments ends where their text ends. *)
Lemma segs_at_last pos seg segs k ks : segs_at pos (seg :: segs) (k :: ks) ->
  (PtrSegment_range (List.last (seg :: segs) seg)).2 = pos + str_len (render (k :: ks)).
Proof.
  revert pos seg k ks. induction segs as [|seg' segs IH]; intros pos seg k [|k' ks] H;
    try (apply segs_at_cons in H as [_ H]; done).
  - apply segs_at_cons in H as [Hseg _]. simpl.
    rewrite render_cons, str_len_cons, app_nil_r.
    destruct Hseg as [->|[-> _]]; simpl; lia.
  - pose proof H as [_ H']%segs_at_cons. apply IH in H'.
    change (List.last (seg :: seg' :: segs) seg) with (List.last (seg' :: segs) seg).
    rewrite (render_app [k] (k' :: ks) : render (k :: k' :: ks) = _), str_len_app.
    rewrite Nat.add_assoc, <- H'. do 2 f_equal. clear. revert seg'.
    induction segs as [|x segs IH]; intros seg'; [done|]. simpl in *. destruct segs; [done|]. apply IH.
Qed.

Lemma segs_at_first pos seg segs k ks : segs_at pos (seg :: segs) (k :: ks) ->
  (PtrSegment_range seg).1 = pos + 1.
Proof. intros [Hseg _]%segs_at_cons. by destruct Hseg as [->|[-> _]]. Qed.

(** [slice(a..b)] is the sublist of the segments, at its own offset. *)
Lemma slice_spec p ks a b : ptr_wf p ks -> a <= b -> b <= length ks ->
  exists q, JsonPointer_slice p a b = Done (Some q) /\ ptr_wf q (take (b - a) (drop a ks))
    /\ (a = 0 -> offset p = 0 -> offset q = 0).
Proof.
  intros Hwf Ha Hb. pose proof (segs_at_length _ _ _ (proj2 Hwf)) as Hlen.
  unfold JsonPointer_slice. rewrite SegList_slice_contig by lia. cbn [outcome_bind].
  rewrite app_nil_r.
  assert (ks = take a ks ++ take (b - a) (drop a ks) ++ drop (b - a) (drop a ks)) as Eks.
  { by rewrite (take_drop (b - a)), take_drop. }
  rewrite Eks in Hwf. apply ptr_wf_middle in Hwf as Hm.
  destruct Hm as (s1 & s2 & s3 & Hs & Hl1 & Hl2 & H1 & H2 & H3).
  rewrite length_take in Hl1. rewrite length_take, length_drop in Hl2.
  set (km := take (b - a) (drop a ks)) in *.
  assert (take (b - a) (drop a (segments p)) = s2) as ->.
  { rewrite Hs, drop_app_length' by lia. rewrite take_app_length' by lia. done. }
  destruct s2 as [|seg s2]; [destruct km; [|done]|].
  { eexists. split; [done|]. done. }
  destruct km as [|k km'] eqn:Ekm; [done|].
  rewrite (segs_at_first _ _ _ _ _ H2), (segs_at_last _ _ _ _ _ H2).
  rewrite checked_sub_le by lia. cbn [outcome_bind].
  replace (offset p + str_len (render (take a ks)) + 1 - 1)
    with (offset p + str_len (render (take a ks))) by lia.
  rewrite checked_sub_add. cbn [outcome_bind].
  rewrite <- Nat.add_assoc, checked_sub_add. cbn [outcome_bind].
  destruct Hwf as [Hsrc _]. rewrite Hsrc, !render_app, str_slice_app. cbn [unwrap outcome_bind].
  eexists. split; [done|]. split; [by split|]. simpl. intros -> ->. done.
Qed.

Lemma has_segments_spec p ks idx qs : ptr_wf p ks ->
  has_segments p idx qs = Done (bool_decide (qs `prefix_of` drop idx ks)).
Proof.
  intros Hwf. revert idx. induction qs as [|q qs IH]; intros idx; cbn [has_segments].
  { rewrite bool_decide_true; [done|]. apply prefix_nil. }
  rewrite (get_segment_spec p ks idx Hwf). cbn [outcome_bind].
  destruct (ks !! idx) as [k|] eqn:Hk.
  - rewrite (drop_S _ _ _ Hk). case_bool_decide as Hkq.
    + simplify_eq. rewrite IH. f_equal. apply bool_decide_ext. split.
      * intros Hp. by apply prefix_cons.
      * by intros Hp%prefix_cons_inv_2.
    + rewrite bool_decide_false; [done|]. intros Hp. apply prefix_cons_inv_1 in Hp. congruence.
  - apply lookup_ge_None in Hk. rewrite drop_ge by done.
    case_bool_decide; [done|]. rewrite bool_decide_false; [done|]. by intros ?%prefix_nil_not.
Qed.

Lemma starts_with_spec p q ks qs : ptr_wf p ks -> ptr_wf q qs ->
  JsonPointer_starts_with p q = Done (bool_decide (qs `prefix_of` ks)).
Proof.
  intros Hp Hq. unfold JsonPointer_starts_with. rewrite (iter_spec q qs Hq). cbn [outcome_bind].
  by rewrite (has_segments_spec p ks 0 qs Hp), drop_0.
Qed.

(** [strip_prefix] drops the prefix; it slices with absolute positions, so the
    pointer must start at offset zero. *)
Lemma strip_prefix_spec p q ks qs : ptr_wf p ks -> offset p = 0 -> ptr_wf q qs ->
  match JsonPointer_strip_prefix p q with
  | Done (Some r) => exists rs, ks = qs ++ rs /\ ptr_wf r rs
  | Done None => ¬ (qs `prefix_of` ks)
  | Panic => False
  end.
Proof.
  intros Hp Hoff Hq. unfold JsonPointer_strip_prefix. rewrite (iter_spec q qs Hq). cbn [outcome_bind].
  rewrite (has_segments_spec p ks 0 qs Hp), drop_0. cbn [outcome_bind].
  case_bool_decide as Hpre; [|done]. cbn [negb]. destruct Hpre as [rs ->].
  rewrite (len_spec p _ Hp), (len_spec q _ Hq), length_app.
  destruct (Nat.eqb_spec (length qs + length rs) (length qs)) as [He|He].
  { exists []. destruct rs; [|simpl in *; lia]. split; [done|]. by split. }
  destruct rs as [|k rs]; [simpl in *; lia|].
  destruct (ptr_wf_split p qs k rs Hp) as (s1 & seg & s2 & Hs & Hl & H1 & H2).
  rewrite SegList_get_app. cbn [fst snd]. rewrite app_nil_r, Hs, <- Hl, list_lookup_middle by done.
  rewrite (segs_at_first _ _ _ _ _ H2), Hoff. cbn [Nat.add].
  rewrite checked_sub_le by lia. cbn [outcome_bind]. rewrite Nat.add_sub.
  rewrite (proj1 Hp), render_app, str_slice_from_app. cbn [unwrap outcome_bind].
  apply segs_at_length in H2 as Hl2. simpl in Hl2.
  rewrite SegList_slice_contig by (rewrite ?length_app; simpl; lia). cbn [outcome_bind].
  exists (k :: rs). split; [done|]. split; [done|]. cbn [offset segments].
  rewrite app_nil_r, drop_app_length, Hl.
  replace (length qs + length (k :: rs) - length qs) with (length (seg :: s2)) by (simpl; lia).
  rewrite firstn_all. by rewrite Hoff in H2.
Qed.

(** ** Lemmas: building pointers *)

Lemma push_end_spec p ks k : ptr_wf p ks -> offset p = 0 ->
  ptr_wf (JsonPointer_push_end p k) (ks ++ [k]) /\ offset (JsonPointer_push_end p k) = 0.
Proof.
  intros [Hsrc Hsegs] Hoff. split; [|done]. unfold JsonPointer_push_end. split; cbn [src offset segments].
  - by rewrite Hsrc, render_app, render_singleton.
  - rewrite Hoff in *. apply segs_at_app; [by eapply segs_at_length|]. split; [done|].
    rewrite segs_at_cons. cbn [Nat.add]. split; [|done].
    rewrite !str_len_app, Hsrc. change (str_len [47%N]) with 1. rewrite Nat.add_assoc.
    destruct (existsb needs_escape k) eqn:E; [by left|right].
    split; [done|]. by apply escape_plain.
Qed.

Lemma push_end_idx_eq p n : JsonPointer_push_end_idx p n = JsonPointer_push_end p (show_N n).
Proof.
  unfold JsonPointer_push_end_idx, JsonPointer_push_end.
  rewrite show_N_plain, (escape_plain (show_N n)) by apply show_N_plain.
  by rewrite !str_len_app.
Qed.

Lemma push_start_spec p ks k : ptr_wf p ks -> offset p = 0 ->
  ptr_wf (JsonPointer_push_start p k) (k :: ks) /\ offset (JsonPointer_push_start p k) = 0.
Proof.
  intros [Hsrc Hsegs] Hoff. split; [|done]. unfold JsonPointer_push_start. split; cbn [src offset segments].
  - by rewrite Hsrc, render_cons.
  - rewrite Hoff in *. rewrite segs_at_cons. cbn [Nat.add].
    pose proof (str_len_escape k) as Hl.
    replace (str_len (render [k])) with (str_len k + length (List.filter needs_escape k) + 1).
    2:{ rewrite render_singleton, str_len_cons, Hl. simpl. lia. }
    split; [|by apply (segs_at_shift _ 0)].
    replace (str_len k + length (List.filter needs_escape k) + 1) with (S (str_len (escape k))) by lia.
    rewrite <- filter_existsb. destruct (existsb needs_escape k) eqn:E; [by left|right].
    split; [done|]. by apply escape_plain.
Qed.

Lemma push_start_idx_eq p n : JsonPointer_push_start_idx p n = JsonPointer_push_start p (show_N n).
Proof.
  unfold JsonPointer_push_start_idx, JsonPointer_push_start.
  pose proof (show_N_plain n) as Hp. rewrite filter_existsb in Hp.
  pose proof (str_len_escape (show_N n)) as Hl. rewrite (escape_plain _ (show_N_plain n)) in *.
  destruct (length (List.filter needs_escape (show_N n))); [|done].
  rewrite str_len_app. change (str_len [47%N]) with 1.
  replace (str_len (show_N n) + 0 + 1) with (1 + str_len (show_N n)) by lia. done.
Qed.

Lemma str_truncate_app (a b : str) : str_truncate (a ++ b) (str_len a) = Done a.
Proof.
  unfold str_truncate. rewrite str_len_app. destruct (Nat.leb_spec (str_len a + str_len b) (str_len a)).
  - destruct b as [|c b]; [by rewrite app_nil_r|]. rewrite str_len_cons in *.
    pose proof (len_utf8_pos c). lia.
  - by rewrite split_at_byte_app.
Qed.

Lemma truncate_spec p ks n : ptr_wf p ks -> offset p = 0 ->
  exists q, JsonPointer_truncate p n = Done q /\ ptr_wf q (take n ks) /\ offset q = 0.
Proof.
  intros Hwf Hoff. unfold JsonPointer_truncate.
  pose proof (segs_at_length _ _ _ (proj2 Hwf)) as Hlen.
  destruct (ks !! n) as [k|] eqn:Hk.
  - apply list_elem_of_split_length in Hk as (k1 & k2 & -> & ->).
    destruct (ptr_wf_split p k1 k k2 Hwf) as (s1 & seg & s2 & Hs & Hl & H1 & H2).
    rewrite Hs, <- Hl, list_lookup_middle by done.
    rewrite (segs_at_first _ _ _ _ _ H2), Hoff. cbn [Nat.add].
    rewrite checked_sub_le by lia. cbn [outcome_bind]. rewrite Nat.add_sub.
    rewrite (proj1 Hwf), render_app, str_truncate_app. cbn [outcome_bind].
    eexists. split; [done|]. rewrite Hl, take_app_length. split; [|done]. split; [done|].
    cbn [offset segments]. rewrite <- Hl, take_app_length. by rewrite Hoff in H1.
  - apply lookup_ge_None in Hk. rewrite (proj2 (lookup_ge_None (segments p) n)) by lia.
    exists p. rewrite take_ge by done. done.
Qed.

Lemma pop_end_spec p ks : ptr_wf p ks -> offset p = 0 ->
  exists q, JsonPointer_pop_end p = Done q /\ ptr_wf q (removelast ks) /\ offset q = 0.
Proof.
  intros Hwf Hoff. destruct (truncate_spec p ks (length ks - 1) Hwf Hoff) as (q & Hq & Hwq & Hoq).
  exists q. pose proof (segs_at_length _ _ _ (proj2 Hwf)) as Hlen.
  assert (removelast ks = take (length ks - 1) ks) as ->.
  { clear. induction ks as [|k [|k' ks] IH]; [done..|].
    change (removelast (k :: k' :: ks)) with (k :: removelast (k' :: ks)). rewrite IH. simpl.
    by rewrite Nat.sub_0_r. }
  split; [|done]. rewrite <- Hq. unfold JsonPointer_pop_end, JsonPointer_truncate.
  rewrite last_lookup, Hlen. replace (pred (length ks)) with (length ks - 1) by lia.
  destruct (segments p !! (length ks - 1)); [|done]. rewrite <- Hlen. by rewrite removelast_firstn_len, Nat.sub_1_r.
Qed.

Lemma append_spec p q ks qs : ptr_wf p ks -> offset p = 0 -> ptr_wf q qs ->
  exists r, JsonPointer_append p q = Done r /\ ptr_wf r (ks ++ qs) /\ offset r = 0.
Proof.
  intros Hp Hoff Hq. unfold JsonPointer_append. rewrite (iter_spec q qs Hq). cbn [outcome_bind].
  eexists. split; [done|]. clear Hq q. revert p ks Hp Hoff.
  induction qs as [|k qs IH]; intros p ks Hp Hoff; simpl; [by rewrite app_nil_r|].
  destruct (push_end_spec p ks k Hp Hoff) as [H1 H2].
  rewrite (app_assoc ks [k] qs : ks ++ k :: qs = _). by apply IH.
Qed.

Lemma prepend_spec p q ks qs : ptr_wf p ks -> offset p = 0 -> ptr_wf q qs ->
  exists r, JsonPointer_prepend p q = Done r /\ ptr_wf r (qs ++ ks) /\ offset r = 0.
Proof.
  intros Hp Hoff Hq. unfold JsonPointer_prepend. rewrite (iter_spec q qs Hq). cbn [outcome_bind].
  eexists. split; [done|]. clear Hq q. revert p ks Hp Hoff.
  induction qs as [|k qs IH] using rev_ind; intros p ks Hp Hoff; [done|].
  rewrite rev_unit. cbn [fold_left]. rewrite <- app_assoc.
  destruct (push_start_spec p ks k Hp Hoff) as [H1 H2]. by apply IH.
Qed.

(** ** Lemmas: parsing *)

(** The segment the parser holds after the text [t] of a segment that starts
    after byte [pos]. *)
Definition segment_state (pos : nat) (t : str) : PtrSegment :=
  let range := (pos + 1, pos + 1 + str_len (escape t)) in
  if existsb needs_escape t then Escaped range t else Unescaped range.

Definition one_byte (c : N) : bool := (c <? 128)%N.

Lemma one_byte_len c : one_byte c = true -> len_utf8 c = 1.
Proof. unfold one_byte, len_utf8. by intros ->. Qed.

Lemma existsb_snoc (t : str) c : existsb needs_escape (t ++ [c]) = existsb needs_escape t || needs_escape c.
Proof. rewrite existsb_app. simpl. by rewrite orb_false_r. Qed.

(** One escape sequence. *)
Lemma escape_segment_state (pre t rest : str) (c : N) :
  needs_escape c = true ->
  escape_segment (pre ++ 47%N :: escape t ++ rest) (segment_state (str_len pre) t)
    (str_len pre + 1 + str_len (escape t) + 1) c
  = Done (segment_state (str_len pre) (t ++ [c])).
Proof.
  intros Hc. unfold segment_state. rewrite existsb_snoc, Hc, orb_true_r.
  assert (str_len (escape (t ++ [c])) = str_len (escape t) + 2) as Hl.
  { rewrite escape_app, str_len_app. f_equal. rewrite escape_cons. unfold escape_char.
    unfold needs_escape in Hc. destruct (N.eqb_spec c 126); [done|]. by destruct (N.eqb_spec c 47). }
  rewrite Hl. destruct (existsb needs_escape t) eqn:E; cbn [escape_segment].
  - do 3 f_equal. lia.
  - pose proof (str_slice_app (pre ++ [47%N]) (escape t) rest) as Hs.
    rewrite str_len_app, <- app_assoc in Hs. change (str_len [47%N]) with 1 in Hs. cbn [app] in Hs.
    rewrite Hs. cbn [unwrap outcome_bind]. rewrite (escape_plain t E). do 3 f_equal. lia.
Qed.

(** The parser over the text of one segment. *)
Lemma parse_segment (pre t t' rest : str) segs :
  Forall (fun c => one_byte c = true) t' ->
  let source := pre ++ 47%N :: escape t ++ escape t' ++ rest in
  let pos := str_len pre in
  parse_loop source (char_indices_from (pos + 1 + str_len (escape t)) (escape t' ++ rest))
    segs (segment_state pos t) false
  = parse_loop source (char_indices_from (pos + 1 + str_len (escape (t ++ t'))) rest)
    segs (segment_state pos (t ++ t')) false.
Proof.
  intros HF source pos. subst source. revert t. induction HF as [|c t' Hc HF IH]; intros t.
  { by rewrite !app_nil_r. }
  specialize (IH (t ++ [c])). rewrite escape_app, str_len_app, <- !app_assoc in IH.
  rewrite (escape_cons c []) in IH. change (escape []) with (@nil N) in IH. rewrite app_nil_r in IH.
  rewrite escape_cons. rewrite <- !app_assoc. cbn [app] in IH. rewrite <- IH. clear IH.
  destruct (needs_escape c) eqn:En.
  - assert (escape_char c = [126; (if (c =? 126)%N then 48 else 49)]%N) as Ec.
    { unfold escape_char. unfold needs_escape in En. destruct (N.eqb_spec c 126); [done|].
      by destruct (N.eqb_spec c 47). }
    rewrite Ec. cbn [app char_indices_from parse_loop]. change (len_utf8 126) with 1.
    change (126 =? 47)%N with false. change (126 =? 126)%N with true. cbn [parse_loop].
    pose proof (escape_segment_state pre t
      ([126; (if (c =? 126)%N then 48 else 49)]%N ++ escape t' ++ rest) c En) as Hs.
    cbn [app] in Hs. fold pos in Hs |- *.
    assert (c = if (c =? 126)%N then 126%N else 47%N) as Hcv.
    { unfold needs_escape in En. destruct (N.eqb_spec c 126); [done|].
      by destruct (N.eqb_spec c 47). }
    assert (pos + 1 + (str_len (escape t) + 2) = pos + 1 + str_len (escape t) + 1 + 1) as Hpos by lia.
    destruct (c =? 126)%N; subst c; rewrite Hs; cbn [outcome_bind];
      [change (str_len [126%N; 48%N]) with 2|change (str_len [126%N; 49%N]) with 2];
      by rewrite Hpos.
  - rewrite (escape_char_plain c En). cbn [app char_indices_from parse_loop].
    pose proof En as [E126 E47]%orb_false_iff. rewrite E126, E47.
    rewrite (one_byte_len c Hc). change (str_len [c]) with (len_utf8 c + 0).
    rewrite (one_byte_len c Hc). f_equal; [f_equal; lia|].
    unfold segment_state. rewrite existsb_snoc, En, orb_false_r.
    rewrite escape_app, str_len_app, (escape_plain [c]) by (simpl; by rewrite En).
    change (str_len [c]) with (len_utf8 c + 0). rewrite (one_byte_len c Hc).
    destruct (existsb needs_escape t); do 2 f_equal; lia.
Qed.

Lemma parse_segment0 (pre k rest : str) segs : Forall (fun c => one_byte c = true) k ->
  parse_loop (pre ++ 47%N :: escape k ++ rest)
    (char_indices_from (str_len pre + 1) (escape k ++ rest))
    segs (Unescaped (str_len pre + 1, str_len pre + 1)) false
  = parse_loop (pre ++ 47%N :: escape k ++ rest)
    (char_indices_from (str_len pre + 1 + str_len (escape k)) rest)
    segs (segment_state (str_len pre) k) false.
Proof.
  intros Hk. pose proof (parse_segment pre [] k rest segs Hk) as Hp.
  unfold segment_state at 1 in Hp. change (str_len (escape [])) with 0 in Hp.
  rewrite Nat.add_0_r in Hp. exact Hp.
Qed.

Lemma segment_state_wf pos k :
  segment_state pos k = Escaped (pos + 1, pos + 1 + str_len (escape k)) k
  \/ (segment_state pos k = Unescaped (pos + 1, pos + 1 + str_len (escape k)) /\ escape k = k).
Proof.
  unfold segment_state. destruct (existsb needs_escape k) eqn:E; [by left|right].
  split; [done|]. by apply escape_plain.
Qed.

Lemma parse_segments (pre k : str) ks segs :
  Forall (fun c => one_byte c = true) k -> Forall (Forall (fun c => one_byte c = true)) ks ->
  exists segs', parse_loop (pre ++ render (k :: ks))
      (char_indices_from (str_len pre + 1) (escape k ++ render ks)) segs
      (Unescaped (str_len pre + 1, str_len pre + 1)) false = Done (Ok (segs ++ segs'))
    /\ segs_at (str_len pre) segs' (k :: ks).
Proof.
  intros Hk Hks. revert pre k segs Hk. induction Hks as [|k' ks Hk' Hks IH]; intros pre k segs Hk;
    rewrite render_cons, parse_segment0 by done.
  - change (render []) with (@nil N). cbn [char_indices_from parse_loop].
    eexists. split; [done|]. split; [apply segment_state_wf|done].
  - specialize (IH (pre ++ 47%N :: escape k) k' (segs ++ [segment_state (str_len pre) k]) Hk').
    destruct IH as (segs' & IH & Hs).
    rewrite str_len_app, str_len_cons in IH, Hs. change (len_utf8 47) with 1 in IH, Hs.
    rewrite <- app_assoc in IH. cbn [app] in IH.
    rewrite render_cons in IH |- *. cbn [char_indices_from parse_loop].
    change (47 =? 47)%N with true. cbn match. change (len_utf8 47) with 1.
    replace (str_len pre + 1 + str_len (escape k) + 1)
      with (str_len pre + (1 + str_len (escape k)) + 1) by lia.
    rewrite IH. exists (segment_state (str_len pre) k :: segs'). rewrite <- app_assoc.
    split; [done|]. apply segs_at_cons. split; [apply segment_state_wf|].
    rewrite render_singleton, str_len_cons. exact Hs.
Qed.

(** Parsing the text of one-byte segments gives a pointer to them. *)
Lemma parse_render ks : Forall (Forall (fun c => one_byte c = true)) ks ->
  exists p, JsonPointer_parse (render ks) = Done (Ok p) /\ ptr_wf p ks /\ offset p = 0.
Proof.
  intros HF. unfold JsonPointer_parse, char_indices. destruct HF as [|k ks Hk Hks].
  { eexists. split; [done|]. by split. }
  destruct (parse_segments [] k ks [] Hk Hks) as (segs & Hp & Hs). cbn [app] in Hp.
  change (str_len []) with 0 in Hp, Hs. cbn [Nat.add] in Hp.
  rewrite render_cons in Hp |- *. cbn [char_indices_from]. change (47 =? 47)%N with true. cbn match.
  change (len_utf8 47) with 1. cbn [Nat.add]. rewrite Hp. cbn [outcome_bind].
  eexists. split; [done|]. split; [|done]. split; [by rewrite render_cons|done].
Qed.

(** ** Lemmas: concatenation and layout *)

Lemma rebase_ranges_spec ro sl off pos segs ks : segs_at (ro + pos) segs ks ->
  exists segs', rebase_ranges ro sl off segs = Done segs' /\ segs_at (off + sl + pos) segs' ks.
Proof.
  revert pos ks. induction segs as [|seg segs IH]; intros pos [|k ks] H; try done.
  { by exists []. }
  apply segs_at_cons in H as [Hseg H]. rewrite <- Nat.add_assoc in H. apply IH in H as (segs' & E & H).
  cbn [rebase_ranges]. rewrite E.
  destruct Hseg as [->|[-> He]]; cbn [rebase_range];
    rewrite !checked_sub_le by lia; cbn [outcome_bind]; (eexists; split; [done|]);
    apply segs_at_cons; (split; [|by rewrite <- Nat.add_assoc]); [left|right; split; [|done]];
    do 2 f_equal; lia.
Qed.

Lemma add_spec p q ks qs : ptr_wf p ks -> ptr_wf q qs ->
  exists r, JsonPointer_add p q = Done r /\ ptr_wf r (ks ++ qs).
Proof.
  intros [Hp1 Hp2] [Hq1 Hq2]. unfold JsonPointer_add. rewrite <- (Nat.add_0_r (offset q)) in Hq2.
  destruct (rebase_ranges_spec _ (str_len (src p)) (offset p) 0 _ _ Hq2) as (segs & E & H).
  rewrite Nat.add_0_r, E in *. cbn [outcome_bind]. eexists. split; [done|]. split; simpl.
  - by rewrite Hp1, Hq1, render_app.
  - apply segs_at_app; [by eapply segs_at_length|]. split; [done|]. by rewrite <- Hp1.
Qed.

Lemma SegList_slice_layout (l r : list PtrSegment) a b :
  a <= b -> b <= length l + length r -> a < length l + length r ->
  exists l' r', SegList_slice (l, r) a b = Done (Some (l', r'))
    /\ l' ++ r' = take (b - a) (drop a (l ++ r)).
Proof.
  intros Hab Hb Ha. unfold SegList_slice, list_slice.
  destruct (Nat.leb_spec a (length l)).
  - destruct (Nat.leb_spec b (length l)).
    + rewrite (proj2 (Nat.leb_le a b)) by lia. cbn [andb outcome_bind].
      eexists _, _. split; [done|]. rewrite app_nil_r, drop_app_le by done.
      rewrite take_app_le by (rewrite length_drop; lia). done.
    + rewrite !(proj2 (Nat.leb_le _ _)) by lia. cbn [andb outcome_bind].
      eexists _, _. split; [done|]. rewrite drop_0, Nat.sub_0_r, drop_app_le by done.
      rewrite (take_ge (drop a l)) by (rewrite length_drop; lia).
      rewrite take_app_ge by (rewrite length_drop; lia). rewrite length_drop. do 2 f_equal. lia.
  - rewrite (proj2 (Nat.ltb_lt _ _)) by lia. rewrite checked_sub_le by lia. cbn [outcome_bind].
    rewrite !(proj2 (Nat.leb_le _ _)) by lia. cbn [andb outcome_bind].
    eexists _, _. split; [done|]. rewrite drop_app_ge by lia. simpl. f_equal. lia.
Qed.

(** ** Properties *)

(** The text of any list of one-byte (ASCII) segments, with
    [~] and [/] escaped, parses back to a pointer to exactly these segments,
    whose own text is the input; parsing and iterating do not panic. *)
Theorem JsonPointer_parse_roundtrip ks : Forall (Forall (fun c => one_byte c = true)) ks ->
  exists p, JsonPointer_parse (render ks) = Done (Ok p) /\ src p = render ks
    /\ JsonPointer_iter p = Done ks.
Proof.
  intros HF. destruct (parse_render ks HF) as (p & Hp & Hwf & _). exists p.
  split_and!; [done|apply Hwf|by apply iter_spec].
Qed.

Lemma JsonPointer_parse_roundtrip_witness :
  exists p, JsonPointer_parse (render [[97]; [126; 47]]%N) = Done (Ok p)
    /\ src p = render [[97]; [126; 47]]%N /\ JsonPointer_iter p = Done [[97]; [126; 47]]%N.
Proof. apply (JsonPointer_parse_roundtrip [[97]; [126; 47]]%N). repeat constructor. Defined.

(** C39: a pointer that represents the segments [ks] and has the offset
    zero, as one has that is not a slice of another, behaves as that list: iteration, length, segment lookup, slicing,
    prefix test, [strip_prefix], and pushing at both ends, popping at the end, truncating, appending, prepending and
    concatenating are the list operations, and none of the byte-range
    arithmetic underflows or slices off a boundary.  This does not hold of [pop_start] ([JsonPointer_pop_start_corrupts]). *)
Theorem JsonPointer_refines_segments p ks q qs k n i a b :
  ptr_wf p ks -> offset p = 0 -> ptr_wf q qs -> a <= b -> b <= length ks ->
  JsonPointer_iter p = Done ks
  /\ JsonPointer_len p = length ks
  /\ JsonPointer_get_segment p i = Done (ks !! i)
  /\ (exists r, JsonPointer_slice p a b = Done (Some r) /\ ptr_wf r (take (b - a) (drop a ks)))
  /\ JsonPointer_starts_with p q = Done (bool_decide (qs `prefix_of` ks))
  /\ (ptr_wf (JsonPointer_push_end p k) (ks ++ [k]))
  /\ (ptr_wf (JsonPointer_push_end_idx p n) (ks ++ [show_N n]))
  /\ (ptr_wf (JsonPointer_push_start p k) (k :: ks))
  /\ (ptr_wf (JsonPointer_push_start_idx p n) (show_N n :: ks))
  /\ (exists r, JsonPointer_pop_end p = Done r /\ ptr_wf r (removelast ks))
  /\ (exists r, JsonPointer_truncate p i = Done r /\ ptr_wf r (take i ks))
  /\ (exists r, JsonPointer_append p q = Done r /\ ptr_wf r (ks ++ qs))
  /\ (exists r, JsonPointer_prepend p q = Done r /\ ptr_wf r (qs ++ ks))
  /\ (exists r, JsonPointer_add p q = Done r /\ ptr_wf r (ks ++ qs))
  /\ match JsonPointer_strip_prefix p q with
     | Done (Some r) => exists rs, ks = qs ++ rs /\ ptr_wf r rs
     | Done None => ¬ (qs `prefix_of` ks)
     | Panic => False
     end.
Proof.
  intros Hp Ho Hq Hab Hb. pose proof (strip_prefix_spec p q ks qs Hp Ho Hq) as Hstrip. rewrite push_end_idx_eq, push_start_idx_eq.
  destruct (slice_spec p ks a b Hp Hab Hb) as (s & Hs & Hws & _).
  destruct (pop_end_spec p ks Hp Ho) as (e & He & Hwe & _).
  destruct (truncate_spec p ks i Hp Ho) as (t & Ht & Hwt & _).
  destruct (append_spec p q ks qs Hp Ho Hq) as (u & Hu & Hwu & _).
  destruct (prepend_spec p q ks qs Hp Ho Hq) as (w & Hw & Hww & _).
  split_and!; eauto using iter_spec, len_spec, get_segment_spec, starts_with_spec, add_spec;
    by (apply push_end_spec || apply push_start_spec).
Qed.

Lemma JsonPointer_refines_segments_witness :
  let p := mkPtr [47; 97; 47; 98]%N 0 [Unescaped (1, 2); Unescaped (3, 4)] in
  JsonPointer_iter p = Done [[97]; [98]]%N
  /\ exists r, JsonPointer_append p p = Done r /\ ptr_wf r [[97]; [98]; [97]; [98]]%N.
Proof.
  intros p. assert (ptr_wf p [[97]; [98]]%N) as Hp by (split; [done|by repeat split; right]).
  destruct (JsonPointer_refines_segments p [[97]; [98]]%N p [[97]; [98]]%N [] 0%N 0 0 1)
    as (H1 & _ & _ & _ & _ & _ & _ & _ & _ & _ & _ & H2 & _); [done..|simpl; lia|simpl; lia|].
  split; [exact H1|exact H2].
Defined.

(** On a pointer at offset zero, [strip_prefix] returns
    the remaining segments exactly when the other pointer is a prefix, and
    never panics. *)
Theorem JsonPointer_strip_prefix_correct p q ks qs : ptr_wf p ks -> offset p = 0 -> ptr_wf q qs ->
  match JsonPointer_strip_prefix p q with
  | Done (Some r) => exists rs, ks = qs ++ rs /\ ptr_wf r rs
  | Done None => ¬ (qs `prefix_of` ks)
  | Panic => False
  end.
Proof. apply strip_prefix_spec. Qed.

Lemma JsonPointer_strip_prefix_correct_witness :
  let p := mkPtr [47; 97; 47; 98]%N 0 [Unescaped (1, 2); Unescaped (3, 4)] in
  let q := mkPtr [47; 97]%N 0 [Unescaped (1, 2)] in
  match JsonPointer_strip_prefix p q with
  | Done (Some r) => exists rs, [[97]; [98]]%N = [[97]]%N ++ rs /\ ptr_wf r rs
  | Done None => ¬ ([[97]]%N `prefix_of` [[97]; [98]]%N)
  | Panic => False
  end.
Proof.
  intros p q. apply (JsonPointer_strip_prefix_correct p q [[97]; [98]]%N [[97]]%N);
    [split; [done|by repeat split; right]|done|split; [done|by repeat split; right]].
Defined.

(** Reading a segment list through its two slices does not
    depend on where the ring buffer is split: [get], [first], [last], [len] and
    [slice] from a position inside the list agree with the list. *)
Theorem SegList_layout_independent (l r : list PtrSegment) i a b :
  a <= b -> b <= length l + length r -> a < length l + length r ->
  SegList_get (l, r) i = (l ++ r) !! i
  /\ SegList_len (l, r) = length (l ++ r)
  /\ SegList_first (l, r) = (l ++ r) !! 0
  /\ SegList_last (l, r) = last (l ++ r)
  /\ exists l' r', SegList_slice (l, r) a b = Done (Some (l', r'))
      /\ l' ++ r' = take (b - a) (drop a (l ++ r)).
Proof.
  intros. split_and!; [by rewrite SegList_get_app|by rewrite length_app| | |by apply SegList_slice_layout].
  - unfold SegList_first. simpl. by destruct l.
  - unfold SegList_last. simpl. rewrite last_app. by destruct (last r).
Qed.

Lemma SegList_layout_independent_witness :
  let x := Unescaped (1, 2) in let y := Unescaped (3, 4) in
  exists l' r', SegList_slice ([x], [y]) 1 2 = Done (Some (l', r')) /\ l' ++ r' = [y].
Proof.
  intros x y. destruct (SegList_layout_independent [x] [y] 0 1 2) as (_ & _ & _ & _ & H); [simpl; lia..|].
  exact H.
Defined.

(** The end of a segment's range is computed as the
    position of its last character plus one, so a pointer whose segment ends in
    a multi-byte character parses, and reading that segment then panics. *)
Theorem JsonPointer_parse_multibyte_panics c : one_byte c = false ->
  exists p, JsonPointer_parse [47%N; c] = Done (Ok p) /\ JsonPointer_get_segment p 0 = Panic.
Proof.
  intros Hc. unfold JsonPointer_parse, char_indices. simpl.
  assert ((c =? 47)%N = false /\ (c =? 126)%N = false) as [-> ->].
  { unfold one_byte in Hc. bool_to_prop. rewrite !N.eqb_neq. lia. }
  eexists. split; [done|]. unfold JsonPointer_get_segment, segment_text. simpl.
  unfold str_slice. cbn. replace (len_utf8 c <=? 1) with false; [done|].
  symmetry. apply Nat.leb_gt. unfold len_utf8. unfold one_byte in Hc. rewrite Hc.
  repeat case_match; lia.
Qed.

Lemma JsonPointer_parse_multibyte_panics_witness :
  exists p, JsonPointer_parse [47%N; 233%N] = Done (Ok p) /\ JsonPointer_get_segment p 0 = Panic.
Proof. apply (JsonPointer_parse_multibyte_panics 233%N). reflexivity. Defined.

(** [pop_start] removes the first segment's text but leaves
    the ranges of the others where they were: after popping [/a] off [/a/b],
    the text is [/b] and reading its only segment panics. *)
Theorem JsonPointer_pop_start_corrupts :
  exists p q, JsonPointer_parse [47; 97; 47; 98]%N = Done (Ok p)
    /\ JsonPointer_iter p = Done [[97]; [98]]%N
    /\ JsonPointer_pop_start p = Done q /\ src q = [47; 98]%N /\ JsonPointer_iter q = Panic.
Proof. eexists _, _. by split_and!. Qed.
