(* ===== verification/PtrDoc.v ===== *)
(** * Documents addressed by JSON pointers

    The methods of [JsonPointer] that walk a document
    ([shared-libs/crates/patch-db/json-ptr/src/lib.rs]: [get], [get_mut],
    [take], [set], [insert], [remove]).  A pointer is the list of segments its
    iterator yields (JsonPtr.v); the segment after the current one, which the
    code reads with [get_segment(idx + 1)], is the head of the rest of the
    list.  A method that takes [&mut Value] returns the new document whatever
    its result is, so what an error leaves behind is visible. *)
From S2P Require Import Prelude RustStr InOrderMap JsonValue.

Local Open Scope rust_scope.

Inductive IndexError : Type :=
| CouldNotIndexInto (what : str)
| IndexOutOfBounds (n : N)
| InvalidArrayIndex
| ArrayIndexLeadingZero.

Definition parse_idx (idx : str) : result N IndexError :=
  match idx with
  | c :: _ :: _ =>
      if (c =? 48)%N then Err ArrayIndexLeadingZero
      else match parse_usize idx with Some n => Ok n | None => Err InvalidArrayIndex end
  | _ => match parse_usize idx with Some n => Ok n | None => Err InvalidArrayIndex end
  end.

(** The segment [-] and the segment [0], which the code compares with. *)
Definition dash : str := $"-".
Definition zero : str := $"0".

Section PtrDoc.
Context `{JN : JNumber}.
Implicit Types (doc v : Value) (ks : list str).

(** The child a segment addresses: by index in an array, by key otherwise. *)
Definition child (doc : Value) (seg : str) : option Value :=
  if Value_is_array doc then i ← result_ok (parse_idx seg); usize_index_into i doc
  else str_index_into seg doc.

Definition child_mut (doc : Value) (seg : str) : option (Value * (Value -> Value)) :=
  if Value_is_array doc then i ← result_ok (parse_idx seg); usize_index_into_mut i doc
  else str_index_into_mut seg doc.

Fixpoint ptr_get ks doc : option Value :=
  match ks with
  | [] => Some doc
  | seg :: r => doc' ← child doc seg; ptr_get r doc'
  end.

(** The target and the function that writes another value there. *)
Fixpoint ptr_get_mut ks doc : option (Value * (Value -> Value)) :=
  match ks with
  | [] => Some (doc, fun x => x)
  | seg :: r =>
      '(doc', put) ← child_mut doc seg;
      '(x, put') ← ptr_get_mut r doc';
      Some (x, fun y => put (put' y))
  end.

Definition ptr_take ks doc : Value * option Value :=
  match ptr_get_mut ks doc with
  | Some (x, put) => (put (Value_take x).1, Some (Value_take x).2)
  | None => (doc, None)
  end.

(** The empty container [recursive] creates for the segment [next]. *)
Definition container_for (next : str) : Value :=
  if str_eqb next zero then Array [] else Object InOMap_new.

(** The index a segment denotes in an array when it may be [-]. *)
Definition insert_idx (l : list Value) (seg : str) : result N IndexError :=
  if str_eqb seg dash then Ok (vec_len l) else parse_idx seg.

Definition scalar_error (doc : Value) : IndexError :=
  match doc with
  | Bool _ => CouldNotIndexInto $"boolean"
  | Null => CouldNotIndexInto $"null"
  | Num _ => CouldNotIndexInto $"number"
  | _ => CouldNotIndexInto $"string"
  end.

Fixpoint ptr_insert ks doc v (recursive : bool) : Value * result (option Value) IndexError :=
  match ks with
  | [] => (v, Ok (Some doc))
  | seg :: r =>
      match doc with
      | Array l =>
          match insert_idx l seg with
          | Err e => (doc, Err e)
          | Ok num =>
              match r with
              | next :: _ =>
                  let l' := if ((num =? vec_len l)%N && recursive)
                            then vec_insert l num (container_for next) else l in
                  match vec_get l' num with
                  | None => (Array l', Err (IndexOutOfBounds num))
                  | Some x =>
                      let '(x', res) := ptr_insert r x v recursive in
                      (Array (vec_set l' num x'), res)
                  end
              | [] =>
                  if (num <=? vec_len l)%N then (Array (vec_insert l num v), Ok None)
                  else (doc, Err (IndexOutOfBounds num))
              end
          end
      | Object o =>
          match InOMap_get seg o, r with
          | None, [] => (Object (InOMap_insert seg v o).1, Ok None)
          | present, _ =>
              let o' := match present, r with
                        | None, next :: _ =>
                            if recursive then (InOMap_insert seg (container_for next) o).1 else o
                        | _, _ => o
                        end in
              match InOMap_get_mut seg o' with
              | None => (Object o', Err (CouldNotIndexInto $"undefined"))
              | Some (x, put) =>
                  let '(x', res) := ptr_insert r x v recursive in (Object (put x'), res)
              end
          end
      | _ => (doc, Err (scalar_error doc))
      end
  end.

(** [set] replaces an array element where [insert] shifts the tail; a missing
    key on the way is unwrapped. *)
Fixpoint ptr_set ks doc v (recursive : bool) : outcome (Value * result (option Value) IndexError) :=
  match ks with
  | [] => Done (v, Ok (Some doc))
  | seg :: r =>
      match doc with
      | Array l =>
          match insert_idx l seg with
          | Err e => Done (doc, Err e)
          | Ok num =>
              match (num =? vec_len l)%N, r with
              | true, [] => Done (Array (l ++ [v]), Ok None)
              | at_end, _ =>
                  let l' := match at_end, r with
                            | true, next :: _ =>
                                if recursive then l ++ [container_for next] else l
                            | _, _ => l
                            end in
                  match vec_get l' num with
                  | None => Done (Array l', Err (IndexOutOfBounds num))
                  | Some x =>
                      let* (x', res) := ptr_set r x v recursive in
                      Done (Array (vec_set l' num x'), res)
                  end
              end
          end
      | Object o =>
          match InOMap_get seg o, r with
          | None, [] => Done (Object (InOMap_insert seg v o).1, Ok None)
          | present, _ =>
              let o' := match present, r with
                        | None, next :: _ =>
                            if recursive then (InOMap_insert seg (container_for next) o).1 else o
                        | _, _ => o
                        end in
              match InOMap_get_mut seg o' with
              | None => Panic
              | Some (x, put) =>
                  let* (x', res) := ptr_set r x v recursive in Done (Object (put x'), res)
              end
          end
      | _ => Done (doc, Err (scalar_error doc))
      end
  end.

(** The index of a segment in an array for [remove]. *)
Definition remove_idx (l : list Value) (seg : str) (allow_last : bool) : option N :=
  if allow_last && str_eqb seg dash && negb (vec_len l =? 0)%N then Some (vec_len l - 1)%N
  else result_ok (parse_idx seg).

Fixpoint ptr_remove ks doc (allow_last : bool) : Value * option Value :=
  match ks with
  | [] => (doc, None)
  | seg :: [] =>
      match doc with
      | Array l =>
          match remove_idx l seg allow_last with
          | Some num =>
              if (num <? vec_len l)%N then (Array (vec_remove l num), vec_get l num)
              else (doc, None)
          | None => (doc, None)
          end
      | Object o => let '(o', x) := InOMap_remove seg o in (Object o', x)
      | _ => (doc, None)
      end
  | seg :: r =>
      match doc with
      | Array l =>
          match remove_idx l seg allow_last with
          | Some num =>
              match vec_get l num with
              | Some x =>
                  let '(x', res) := ptr_remove r x allow_last in
                  (Array (vec_set l num x'), res)
              | None => (doc, None)
              end
          | None => (doc, None)
          end
      | Object o =>
          match InOMap_get_mut seg o with
          | Some (x, put) =>
              let '(x', res) := ptr_remove r x allow_last in (Object (put x'), res)
          | None => (doc, None)
          end
      | _ => (doc, None)
      end
  end.
End PtrDoc.

(** ** Lemmas: references into a document *)

Section lens.
Context `{JN : JNumber}.
Implicit Types (doc v x y : Value) (ks : list str) (seg : str).

(** [put] behaves as a reference to a part [x] of [doc]. *)
Record is_ref (doc x : Value) (put : Value -> Value) : Prop := {
  ref_put_get : put x = doc;
  ref_proper : forall y y', veq y y' -> veq (put y) (put y');
  ref_wf : forall y, value_wf doc = true -> value_wf y = true -> value_wf (put y) = true;
}.

Lemma vec_set_set (l : list Value) i x y : vec_set (vec_set l i x) i y = vec_set l i y.
Proof. rewrite !vec_set_eq. apply list_insert_insert_eq. Qed.

Lemma vec_set_get (l : list Value) i x : vec_get l i = Some x -> vec_set l i x = l.
Proof. rewrite vec_get_eq, vec_set_eq. apply list_insert_id. Qed.

Lemma vec_get_set (l : list Value) i x y : vec_get l i = Some x -> vec_get (vec_set l i y) i = Some y.
Proof.
  rewrite !vec_get_eq, vec_set_eq. intros ?%lookup_lt_Some. by apply list_lookup_insert_eq.
Qed.

Lemma veq_vec_set (l l' : list Value) i y y' :
  Forall2 veq l l' -> veq y y' -> Forall2 veq (vec_set l i y) (vec_set l' i y').
Proof. intros. rewrite !vec_set_eq. by apply Forall2_insert. Qed.

Lemma child_mut_child doc seg :
  match child_mut doc seg with
  | Some (x, put) => child doc seg = Some x
  | None => child doc seg = None
  end.
Proof.
  unfold child_mut, child. destruct (Value_is_array doc).
  - destruct (result_ok (parse_idx seg)) as [i|]; simpl; [|done].
    destruct doc; simpl; try done. by destruct (vec_get l i).
  - destruct doc; simpl; try done. pose proof (get_mut_spec seg m) as H.
    destruct (InOMap_get_mut seg m) as [[x put]|]; simpl; [by destruct H|done].
Qed.

(** What [child_mut] finds can be read again after a write, and a second write
    overrides the first. *)
Lemma child_mut_spec doc seg x put : child_mut doc seg = Some (x, put) ->
  is_ref doc x put /\
  forall y, exists put', child_mut (put y) seg = Some (y, put') /\ forall z, put' z = put z.
Proof.
  unfold child_mut. destruct (Value_is_array doc) eqn:Ea.
  - destruct (result_ok (parse_idx seg)) as [i|] eqn:Ei; simpl; [|done].
    destruct doc; simpl; try done. destruct (vec_get l i) as [w|] eqn:Ew; simpl; [|done].
    intros [= <- <-]. split.
    + split; [by rewrite (vec_set_get l i w Ew)| |].
      * intros. constructor. by apply veq_vec_set.
      * intros. by apply wf_array_set.
    + intros y. simpl. rewrite (vec_get_set l i w y Ew). simpl. eexists. split; [done|].
      intros z. simpl. by rewrite vec_set_set.
  - destruct doc; simpl; try done.
    destruct (InOMap_get_mut seg m) as [[w pt]|] eqn:Em; simpl; [|done]. intros [= <- <-].
    pose proof (get_mut_spec seg m) as Hs. rewrite Em in Hs. destruct Hs as (Hg & Hput & Hk).
    destruct (get_split seg m w Hg) as (a & b & -> & Hni & _).
    destruct (get_mut_split seg a b w Hni) as (pt' & E & Hpt). rewrite Em in E. injection E as <-.
    split.
    + split; [by rewrite Hpt| |].
      * intros y y' Hy. constructor. intros k. rewrite !Hput.
        case_decide; [by constructor|]. destruct (InOMap_get k _); constructor. done.
      * intros y Hd Hy. by eapply wf_object_put.
    + intros y. rewrite Hpt. simpl. destruct (get_mut_split seg a b y Hni) as (pt' & -> & Hpt').
      simpl. eexists. split; [done|]. intros z. cbn. by rewrite Hpt', Hpt.
Qed.

Lemma get_mut_get ks doc :
  match ptr_get_mut ks doc with
  | Some (x, _) => ptr_get ks doc = Some x
  | None => ptr_get ks doc = None
  end.
Proof.
  revert doc. induction ks as [|seg ks IH]; intros doc; simpl; [done|].
  pose proof (child_mut_child doc seg) as Hc.
  destruct (child_mut doc seg) as [[x put]|]; simpl; rewrite Hc; simpl; [|done].
  specialize (IH x). by destruct (ptr_get_mut ks x) as [[y put']|].
Qed.

Lemma ptr_get_mut_Some ks doc x : ptr_get ks doc = Some x ->
  exists put, ptr_get_mut ks doc = Some (x, put).
Proof.
  intros Hg. pose proof (get_mut_get ks doc) as Hm.
  destruct (ptr_get_mut ks doc) as [[y put]|]; [|congruence].
  exists put. congruence.
Qed.

Lemma child_wf doc seg x : value_wf doc = true -> child doc seg = Some x -> value_wf x = true.
Proof.
  unfold child. destruct doc; simpl; try done.
  - intros Hw. destruct (result_ok (parse_idx seg)); simpl; [|done]. intros Hg. by eapply wf_array_get.
  - intros Hw Hg. by eapply wf_object_get.
Qed.

Lemma ptr_get_wf ks doc x : value_wf doc = true -> ptr_get ks doc = Some x -> value_wf x = true.
Proof.
  revert doc. induction ks as [|seg ks IH]; intros doc Hw; simpl; [by intros [= <-]|].
  destruct (child doc seg) as [w|] eqn:E; simpl; [|done]. eauto using child_wf.
Qed.

(** The same for a path of any length. *)
Lemma ptr_get_mut_spec ks doc x put : ptr_get_mut ks doc = Some (x, put) ->
  is_ref doc x put /\
  forall y, exists put', ptr_get_mut ks (put y) = Some (y, put') /\ forall z, put' z = put z.
Proof.
  revert doc x put. induction ks as [|seg ks IH]; intros doc x put; cbn [ptr_get_mut].
  { intros [= <- <-]. split; [by split|]. intros y. eexists. by split. }
  destruct (child_mut doc seg) as [[w pt]|] eqn:Ec; [|done]. cbn [mbind option_bind].
  destruct (ptr_get_mut ks w) as [[w' pt']|] eqn:Em; [|done]. cbn [mbind option_bind].
  intros [= <- <-]. pose proof (child_mut_child doc seg) as Hch. rewrite Ec in Hch.
  apply child_mut_spec in Ec as [Hr1 Hc]. apply IH in Em as [Hr2 Hm]. split.
  - destruct Hr1 as [G1 P1 W1], Hr2 as [G2 P2 W2]. split; [by rewrite G2|auto|].
    intros y Hd Hy. eauto using child_wf.
  - intros y. destruct (Hc (pt' y)) as (q & -> & Hq). cbn [mbind option_bind].
    destruct (Hm y) as (q' & -> & Hq'). cbn [mbind option_bind]. eexists. split; [done|].
    intros z. cbn. by rewrite Hq, Hq'.
Qed.

Lemma ptr_get_put ks doc x put y : ptr_get_mut ks doc = Some (x, put) -> ptr_get ks (put y) = Some y.
Proof.
  intros [_ Hm]%ptr_get_mut_spec. destruct (Hm y) as (q & Hq & _).
  pose proof (get_mut_get ks (put y)) as Hg. by rewrite Hq in Hg.
Qed.

Lemma ptr_get_app ks qs doc : ptr_get (ks ++ qs) doc = x ← ptr_get ks doc; ptr_get qs x.
Proof.
  revert doc. induction ks as [|seg ks IH]; intros doc; simpl; [done|].
  destruct (child doc seg); simpl; auto.
Qed.
End lens.

(** ** Lemmas: an operation acts at the end of its path *)

Section ops.
Context `{JN : JNumber}.
Implicit Types (doc v x y : Value) (ks q : list str) (seg : str).

Lemma parse_idx_dash : exists e, parse_idx dash = Err e.
Proof. by eexists. Qed.

Lemma parse_idx_not_dash seg i : result_ok (parse_idx seg) = Some i -> str_eqb seg dash = false.
Proof.
  intros Hp. destruct (str_eqb seg dash) eqn:E; [|done]. apply str_eqb_eq in E as ->.
  destruct parse_idx_dash as [e He]. by rewrite He in Hp.
Qed.

Lemma result_ok_Some {A E} (r : result A E) a : result_ok r = Some a -> r = Ok a.
Proof. destruct r; simpl; congruence. Qed.

Lemma insert_lift ks q doc x put v r : q <> [] -> ptr_get_mut ks doc = Some (x, put) ->
  ptr_insert (ks ++ q) doc v r = (put (ptr_insert q x v r).1, (ptr_insert q x v r).2).
Proof.
  intros Hq. revert doc x put. induction ks as [|seg ks IH]; intros doc x put; cbn [ptr_get_mut].
  { intros [= <- <-]. apply surjective_pairing. }
  destruct (child_mut doc seg) as [[w pt]|] eqn:Ec; [|done]. cbn [mbind option_bind].
  destruct (ptr_get_mut ks w) as [[w' pt']|] eqn:Em; [|done]. cbn [mbind option_bind].
  intros [= <- <-]. apply IH in Em. cbn [app ptr_insert].
  destruct (ks ++ q) as [|n r'] eqn:Ekq; [by apply app_nil in Ekq as []|].
  set (rec := ptr_insert (n :: r')) in *.
  unfold child_mut in Ec. destruct doc; simpl in Ec; try done.
  - destruct (result_ok (parse_idx seg)) as [i|] eqn:Ei; simpl in Ec; [|done].
    destruct (vec_get l i) as [z|] eqn:Eg; simpl in Ec; [|done]. injection Ec as <- <-.
    unfold insert_idx. rewrite (parse_idx_not_dash _ _ Ei), (result_ok_Some _ _ Ei).
    pose proof (vec_get_lt _ _ _ Eg). rewrite (proj2 (N.eqb_neq i (vec_len l))) by lia. simpl.
    rewrite Eg, Em. by destruct (ptr_insert q _ v r).
  - destruct (InOMap_get_mut seg m) as [[z p]|] eqn:Eg; simpl in Ec; [|done]. injection Ec as <- <-.
    pose proof (get_mut_spec seg m) as Hs. rewrite Eg in Hs. destruct Hs as (-> & _). simpl.
    rewrite ?Eg, Em. by destruct (ptr_insert q _ v r).
Qed.

Lemma insert_lift_none ks q doc v : q <> [] -> ptr_get ks doc = None ->
  exists e, ptr_insert (ks ++ q) doc v false = (doc, Err e).
Proof.
  intros Hq. revert doc. induction ks as [|seg ks IH]; intros doc; cbn [ptr_get]; [done|].
  cbn [app ptr_insert]. destruct (ks ++ q) as [|n r'] eqn:Ekq; [by apply app_nil in Ekq as []|].
  set (rec := ptr_insert (n :: r')) in *.
  unfold child. destruct doc; simpl; try by eexists.
  - unfold insert_idx. destruct (str_eqb seg dash) eqn:Ed.
    { intros _. rewrite andb_false_r. rewrite (proj2 (vec_get_None l (vec_len l))) by lia. by eexists. }
    destruct (parse_idx seg) as [i|e]; simpl; [|by eexists]. rewrite andb_false_r.
    destruct (vec_get l i) as [z|] eqn:Eg; simpl; [|by eexists]. intros Hn.
    destruct (IH z Hn) as [e He]. rewrite He. rewrite vec_set_get by done. by eexists.
  - pose proof (get_mut_spec seg m) as Hs.
    destruct (InOMap_get_mut seg m) as [[z p]|] eqn:Eg.
    2:{ rewrite Hs. simpl. rewrite ?Eg. by eexists. }
    destruct Hs as (Hg & _). rewrite Hg. simpl. intros Hn. destruct (IH z Hn) as [e He].
    rewrite ?Eg, He. destruct (get_split seg m z Hg) as (a & b & -> & Hni & _).
    destruct (get_mut_split seg a b z Hni) as (pt' & E & Hpt). rewrite Eg in E. injection E as <-.
    rewrite Hpt. by eexists.
Qed.

Lemma ptr_remove_cons seg n r doc al :
  ptr_remove (seg :: n :: r) doc al =
  match doc with
  | Array l =>
      match remove_idx l seg al with
      | Some num =>
          match vec_get l num with
          | Some x =>
              let '(x', res) := ptr_remove (n :: r) x al in (Array (vec_set l num x'), res)
          | None => (doc, None)
          end
      | None => (doc, None)
      end
  | Object o =>
      match InOMap_get_mut seg o with
      | Some (x, put) => let '(x', res) := ptr_remove (n :: r) x al in (Object (put x'), res)
      | None => (doc, None)
      end
  | _ => (doc, None)
  end.
Proof. by destruct doc. Qed.

Lemma remove_idx_parse (l : list Value) seg i al :
  result_ok (parse_idx seg) = Some i -> remove_idx l seg al = Some i.
Proof.
  intros Ei. unfold remove_idx. by rewrite (parse_idx_not_dash _ _ Ei), andb_false_r.
Qed.

Lemma remove_lift ks q doc x put al : q <> [] -> ptr_get_mut ks doc = Some (x, put) ->
  ptr_remove (ks ++ q) doc al = (put (ptr_remove q x al).1, (ptr_remove q x al).2).
Proof.
  intros Hq. revert doc x put. induction ks as [|seg ks IH]; intros doc x put; cbn [ptr_get_mut].
  { intros [= <- <-]. apply surjective_pairing. }
  destruct (child_mut doc seg) as [[w pt]|] eqn:Ec; [|done]. cbn [mbind option_bind].
  destruct (ptr_get_mut ks w) as [[w' pt']|] eqn:Em; [|done]. cbn [mbind option_bind].
  intros [= <- <-]. apply IH in Em. cbn [app].
  destruct (ks ++ q) as [|n r'] eqn:Ekq; [by apply app_nil in Ekq as []|].
  rewrite ptr_remove_cons. set (rec := ptr_remove (n :: r')) in *. unfold child_mut in Ec. destruct doc; simpl in Ec; try done.
  - destruct (result_ok (parse_idx seg)) as [i|] eqn:Ei; simpl in Ec; [|done].
    destruct (vec_get l i) as [z|] eqn:Eg; simpl in Ec; [|done]. injection Ec as <- <-.
    rewrite (remove_idx_parse l seg i al Ei), Eg, Em. by destruct (ptr_remove q _ al).
  - destruct (InOMap_get_mut seg m) as [[z p]|] eqn:Eg; simpl in Ec; [|done]. injection Ec as <- <-.
    rewrite Em. by destruct (ptr_remove q _ al).
Qed.

Lemma remove_lift_none ks q doc : q <> [] -> ptr_get ks doc = None ->
  ptr_remove (ks ++ q) doc false = (doc, None).
Proof.
  intros Hq. revert doc. induction ks as [|seg ks IH]; intros doc; cbn [ptr_get]; [done|].
  cbn [app]. destruct (ks ++ q) as [|n r'] eqn:Ekq; [by apply app_nil in Ekq as []|].
  rewrite ptr_remove_cons. set (rec := ptr_remove (n :: r')) in *. unfold child, remove_idx. simpl. destruct doc; simpl; try done.
  - destruct (parse_idx seg) as [i|e]; simpl; [|done].
    destruct (vec_get l i) as [z|] eqn:Eg; simpl; [|done]. intros Hn.
    rewrite (IH z Hn). by rewrite vec_set_get.
  - pose proof (get_mut_spec seg m) as Hs.
    destruct (InOMap_get_mut seg m) as [[z p]|] eqn:Eg; [|done].
    destruct Hs as (Hg & _). rewrite Hg. simpl. intros Hn. rewrite (IH z Hn).
    destruct (get_split seg m z Hg) as (a & b & -> & Hni & _).
    destruct (get_mut_split seg a b z Hni) as (pt' & E & Hpt). rewrite Eg in E. injection E as <-.
    by rewrite Hpt.
Qed.
End ops.

(** ** Lemmas: undoing an operation *)

Section undo.
Context `{JN : JNumber}.
Implicit Types (doc v x y : Value) (ks q : list str) (seg : str).

Lemma leaf_insert_remove seg x v x' : ptr_insert [seg] x v false = (x', Ok None) ->
  ptr_remove [seg] x' true = (x, Some v).
Proof.
  simpl. destruct x; simpl; try done.
  - destruct (insert_idx l seg) as [num|] eqn:Ei; [|done].
    destruct (num <=? vec_len l)%N eqn:El; [|done]. intros [= <-]. bool_to_prop. simpl.
    assert (vec_len (vec_insert l num v) = vec_len l + 1)%N as Hlen.
    { unfold vec_len at 1. rewrite vec_insert_len by done. unfold vec_len. lia. }
    assert (remove_idx (vec_insert l num v) seg true = Some num) as ->.
    { unfold insert_idx in Ei. unfold remove_idx. destruct (str_eqb seg dash) eqn:Ed; simpl.
      - injection Ei as <-. rewrite Hlen, (proj2 (N.eqb_neq _ _)) by lia. simpl. f_equal. lia.
      - by rewrite Ei. }
    assert (num < vec_len (vec_insert l num v))%N as Hlt by lia.
    rewrite (proj2 (N.ltb_lt _ _) Hlt), vec_remove_insert by done. f_equal.
    rewrite vec_get_Some, vec_insert_eq by done. unfold vec_len in El.
    rewrite lookup_app_r; rewrite length_take; [|lia].
    by replace (N.to_nat num - _) with 0 by lia.
  - destruct (InOMap_get seg m) as [w|] eqn:Eg.
    + rewrite ?Eg. destruct (InOMap_get_mut seg m) as [[? ?]|]; done.
    + intros [= <-]. rewrite insert_notin by done. simpl.
      by rewrite remove_split, app_nil_r by by apply get_None.
Qed.

Lemma leaf_insert_insert seg x v x' old : ptr_insert [seg] x v false = (x', Ok (Some old)) ->
  ptr_insert [seg] x' old false = (x, Ok (Some v)).
Proof.
  simpl. destruct x; simpl; try done.
  - destruct (insert_idx l seg); [|done]. by destruct (_ <=? _)%N.
  - destruct (InOMap_get seg m) as [w|] eqn:Eg; [|done].
    destruct (get_split seg m w Eg) as (a & b & -> & Hni & _).
    destruct (get_mut_split seg a b w Hni) as (pt' & -> & Hpt). intros [= <- <-]. rewrite Hpt.
    rewrite get_app, (get_notin _ _ Hni). simpl. rewrite decide_True by done.
    destruct (get_mut_split seg a b v Hni) as (pt2 & -> & Hpt2). by rewrite Hpt2.
Qed.

Lemma leaf_insert_err seg x v x' e : ptr_insert [seg] x v false = (x', Err e) -> x' = x.
Proof.
  simpl. destruct x; simpl; try congruence.
  - destruct (insert_idx l seg); [|congruence]. destruct (_ <=? _)%N; congruence.
  - destruct (InOMap_get seg m) eqn:Eg; [|done].
    pose proof (get_mut_spec seg m) as Hs. destruct (InOMap_get_mut seg m) as [[? ?]|]; [done|].
    congruence.
Qed.

Lemma leaf_insert_wf seg x v x' res : value_wf x = true -> value_wf v = true ->
  ptr_insert [seg] x v false = (x', res) ->
  value_wf x' = true /\ forall old, res = Ok (Some old) -> value_wf old = true.
Proof.
  intros Hx Hv. simpl. destruct x; try by (intros [= <- <-]).
  - destruct (insert_idx l seg); [|by intros [= <- <-]].
    destruct (_ <=? _)%N; intros [= <- <-]; (split; [auto with rust|done]).
  - destruct (InOMap_get seg m) eqn:Eg; [|intros [= <- <-]; split; [auto with rust|done]].
    pose proof (get_mut_spec seg m) as Hs.
    destruct (InOMap_get_mut seg m) as [[? ?]|] eqn:Em; [|congruence]. intros [= <- <-].
    destruct Hs as (Hg & _). split; [by eapply wf_object_put|]. intros ? [= <-]. by eapply wf_object_get.
Qed.

(** What [remove] takes out of a well-formed container, [insert] puts back; an
    object's key may come back at the end. *)
Lemma leaf_remove_insert seg x x' old : value_wf x = true ->
  ptr_remove [seg] x false = (x', Some old) ->
  exists x'', ptr_insert [seg] x' old false = (x'', Ok None) /\ veq x'' x.
Proof.
  intros Hw. simpl. destruct x; simpl; try done.
  - unfold remove_idx, insert_idx. simpl. destruct (result_ok (parse_idx seg)) as [i|] eqn:Ei; [|done].
    destruct (i <? vec_len l)%N eqn:El; [|done]. bool_to_prop. intros [= <- Hg].
    rewrite (parse_idx_not_dash _ _ Ei), (result_ok_Some _ _ Ei).
    assert (i <= vec_len (vec_remove l i))%N as Hle.
    { rewrite vec_remove_eq by done. unfold vec_len in *.
      rewrite length_app, length_take, length_drop. lia. }
    rewrite (proj2 (N.leb_le _ _) Hle). eexists. split; [done|]. by rewrite vec_insert_remove.
  - apply wf_object in Hw as [Hw _]. destruct (InOMap_get seg m) as [w|] eqn:Eg.
    2:{ by rewrite remove_notin. }
    pose proof (remove_prev seg m) as Hp. destruct (InOMap_remove seg m) as [m' o] eqn:Er.
    simpl in Hp. intros [= <- ->]. pose proof (get_remove seg m) as Hr. rewrite Er in Hr.
    pose proof (wf_remove seg m Hw) as Hw'. rewrite Er in Hw'. simpl in *.
    rewrite Hr, decide_True by done. eexists. split; [done|]. constructor. intros k.
    rewrite get_insert, Hr by done. case_decide; [subst; rewrite <- Hp; by constructor|].
    destruct (InOMap_get k m); by constructor.
Qed.

Lemma leaf_remove_none seg x x' al : ptr_remove [seg] x al = (x', None) -> x' = x.
Proof.
  simpl. destruct x; simpl; try congruence.
  - destruct (remove_idx l seg al); [|congruence]. destruct (_ <? _)%N eqn:El; [|congruence].
    bool_to_prop. intros [= _ Hg%vec_get_None]. lia.
  - pose proof (remove_prev seg m) as Hp. destruct (InOMap_remove seg m) as [m' o] eqn:Er.
    simpl in Hp. intros [= <- ->]. rewrite remove_notin in Er by done. congruence.
Qed.

Lemma leaf_remove_wf seg x x' res al : value_wf x = true -> ptr_remove [seg] x al = (x', res) ->
  value_wf x' = true /\ forall old, res = Some old -> value_wf old = true.
Proof.
  intros Hx. simpl. destruct x; try by (intros [= <- <-]).
  - destruct (remove_idx l seg al); [|by intros [= <- <-]].
    destruct (_ <? _)%N; intros [= <- <-]; split; [auto with rust|by eauto with rust|done|done].
  - pose proof (remove_prev seg m) as Hp. pose proof (wf_object_remove m seg Hx) as Hr.
    destruct (InOMap_remove seg m) as [m' o]. intros [= <- <-]. cbn [fst snd] in *. split; [done|].
    subst o. intros old Ho. exact (wf_object_get _ _ _ Hx Ho).
Qed.

(** A path is empty or has a last segment; the prefix resolves or not. *)
Lemma path_cases ks doc :
  ks = [] \/ exists init seg, ks = init ++ [seg] /\
    (ptr_get init doc = None \/ exists x put, ptr_get_mut init doc = Some (x, put)).
Proof.
  destruct ks as [|seg init _] using rev_ind; [by left|]. right. exists init, seg. split; [done|].
  destruct (ptr_get init doc) as [x|] eqn:E; [right|by left].
  apply ptr_get_mut_Some in E as [put E]. by exists x, put.
Qed.

Lemma insert_err ks doc v doc' e : ptr_insert ks doc v false = (doc', Err e) -> doc' = doc.
Proof.
  destruct (path_cases ks doc) as [->|(init & seg & -> & [Hn|(x & put & Hm)])]; [done| |].
  - apply (insert_lift_none init [seg] doc v) in Hn as [e' He]; [|done]. rewrite He. congruence.
  - rewrite (insert_lift init [seg] doc x put v false) by done.
    destruct (ptr_insert [seg] x v false) as [x' res] eqn:E. intros [= <- ->].
    apply leaf_insert_err in E as ->. by apply ptr_get_mut_spec in Hm as [[]].
Qed.

(** [insert] without a previous value is undone by [remove]; this is exact. *)
Lemma insert_remove ks doc v doc' : ptr_insert ks doc v false = (doc', Ok None) ->
  ptr_remove ks doc' true = (doc, Some v).
Proof.
  destruct (path_cases ks doc) as [->|(init & seg & -> & [Hn|(x & put & Hm)])]; [done| |].
  - apply (insert_lift_none init [seg] doc v) in Hn as [e' ->]; done.
  - rewrite (insert_lift init [seg] doc x put v false) by done.
    destruct (ptr_insert [seg] x v false) as [x' res] eqn:E. intros [= <- ->].
    apply leaf_insert_remove in E. apply ptr_get_mut_spec in Hm as [[Hg _ _] Hm].
    destruct (Hm x') as (put' & Hm' & Hput'). simpl.
    rewrite (remove_lift init [seg] _ x' put' true), E by done. simpl. by rewrite Hput', Hg.
Qed.

(** [insert] over a previous value is undone by inserting that value. *)
Lemma insert_insert ks doc v doc' old : ptr_insert ks doc v false = (doc', Ok (Some old)) ->
  ptr_insert ks doc' old false = (doc, Ok (Some v)).
Proof.
  destruct (path_cases ks doc) as [->|(init & seg & -> & [Hn|(x & put & Hm)])].
  - simpl. by intros [= <- <-].
  - apply (insert_lift_none init [seg] doc v) in Hn as [e' ->]; done.
  - rewrite (insert_lift init [seg] doc x put v false) by done.
    destruct (ptr_insert [seg] x v false) as [x' res] eqn:E. intros [= <- ->].
    apply leaf_insert_insert in E. apply ptr_get_mut_spec in Hm as [[Hg _ _] Hm].
    destruct (Hm x') as (put' & Hm' & Hput'). simpl.
    rewrite (insert_lift init [seg] _ x' put' old false), E by done. simpl. by rewrite Hput', Hg.
Qed.

Lemma insert_wf ks doc v doc' res : value_wf doc = true -> value_wf v = true ->
  ptr_insert ks doc v false = (doc', res) ->
  value_wf doc' = true /\ forall old, res = Ok (Some old) -> value_wf old = true.
Proof.
  intros Hd Hv. destruct (path_cases ks doc) as [->|(init & seg & -> & [Hn|(x & put & Hm)])].
  - intros [= <- <-]. split; [done|]. by intros ? [= <-].
  - apply (insert_lift_none init [seg] doc v) in Hn as [e' ->]; [|done]. by intros [= <- <-].
  - rewrite (insert_lift init [seg] doc x put v false) by done.
    pose proof (get_mut_get init doc) as Hg. rewrite Hm in Hg.
    destruct (ptr_insert [seg] x v false) as [x' res'] eqn:E. intros [= <- <-].
    apply leaf_insert_wf in E as [Hx' Hold]; [|exact (ptr_get_wf _ _ _ Hd Hg)|done].
    apply ptr_get_mut_spec in Hm as [[_ _ Hwf] _]. split; [by apply Hwf|done].
Qed.

Lemma remove_none ks doc doc' al : ptr_remove ks doc al = (doc', None) -> doc' = doc.
Proof.
  revert doc doc'. induction ks as [|seg [|n ks] IH]; intros doc doc'; [by intros [= <-]|by apply leaf_remove_none|].
  rewrite ptr_remove_cons. destruct doc as [| | | |l|m]; try by intros [= <-].
  - destruct (remove_idx l seg al) as [i|]; [|by intros [= <-]]. destruct (vec_get l i) as [x|] eqn:Eg; [|by intros [= <-]].
    destruct (ptr_remove (n :: ks) x al) as [x' res'] eqn:Er. intros [= <- ->]. apply IH in Er as ->. by rewrite vec_set_get.
  - destruct (InOMap_get_mut seg m) as [[x put]|] eqn:Em; [|by intros [= <-]].
    destruct (ptr_remove (n :: ks) x al) as [x' res'] eqn:Er. intros [= <- ->]. apply IH in Er as ->.
    destruct (child_mut_spec (Object m) seg x (fun y => Object (put y))) as [[Hput _ _] _]; [unfold child_mut; cbn; by rewrite Em|done].
Qed.

Lemma remove_wf ks doc doc' res al : value_wf doc = true -> ptr_remove ks doc al = (doc', res) ->
  value_wf doc' = true /\ forall old, res = Some old -> value_wf old = true.
Proof.
  revert doc doc'. induction ks as [|seg [|n ks] IH]; intros doc doc' Hd.
  { by intros [= <- <-]. }
  { by apply leaf_remove_wf. }
  rewrite ptr_remove_cons. destruct doc as [| | | |l|m]; try by intros [= <- <-].
  - destruct (remove_idx l seg al) as [i|]; [|by intros [= <- <-]].
    destruct (vec_get l i) as [x|] eqn:Eg; [|by intros [= <- <-]].
    destruct (ptr_remove (n :: ks) x al) as [x' res'] eqn:Er. intros [= <- <-].
    apply IH in Er as [Hx Hold]; [|exact (wf_array_get _ _ _ Hd Eg)].
    split; [by apply wf_array_set|done].
  - pose proof (get_mut_spec seg m) as Hs.
    destruct (InOMap_get_mut seg m) as [[x put]|] eqn:Em; [|by intros [= <- <-]].
    destruct (ptr_remove (n :: ks) x al) as [x' res'] eqn:Er. intros [= <- <-].
    apply IH in Er as [Hx Hold]; [|exact (wf_object_get _ _ _ Hd (proj1 Hs))].
    split; [exact (wf_object_put _ _ _ _ _ Hd Hx Em)|done].
Qed.

(** [remove] is undone by [insert]ing what it took out, up to key order. *)
Lemma remove_insert ks doc doc' old : value_wf doc = true ->
  ptr_remove ks doc false = (doc', Some old) ->
  exists doc'', ptr_insert ks doc' old false = (doc'', Ok None) /\ veq doc'' doc.
Proof.
  intros Hd. destruct (path_cases ks doc) as [->|(init & seg & -> & [Hn|(x & put & Hm)])]; [done| |].
  - by rewrite remove_lift_none.
  - rewrite (remove_lift init [seg] doc x put false) by done.
    pose proof (get_mut_get init doc) as Hg. rewrite Hm in Hg.
    destruct (ptr_remove [seg] x false) as [x' res] eqn:E. intros [= <- ->].
    apply leaf_remove_insert in E as (x'' & E & Hx''); [|exact (ptr_get_wf _ _ _ Hd Hg)].
    apply ptr_get_mut_spec in Hm as [[Hpg Hpr _] Hm].
    destruct (Hm x') as (put' & Hm' & Hput'). simpl.
    rewrite (insert_lift init [seg] _ x' put' old false), E by done. simpl. eexists. split; [done|].
    rewrite Hput'. rewrite <- Hpg. by apply Hpr.
Qed.
End undo.

(** ** Lemmas: equal documents behave equally *)

Section proper.
Context `{JN : JNumber}.
Implicit Types (doc v x y : Value) (ks q : list str) (seg : str) (m : InOMap str Value).

Definition same_refs (a b : option (Value * (Value -> Value))) : Prop :=
  option_Forall2 (fun a b => veq a.1 b.1 /\ forall y y', veq y y' -> veq (a.2 y) (b.2 y')) a b.

Definition same_insert (a b : Value * result (option Value) IndexError) : Prop :=
  veq a.1 b.1 /\
  match a.2, b.2 with
  | Ok x, Ok y => option_Forall2 veq x y
  | Err e, Err e' => e = e'
  | _, _ => False
  end.

Definition same_remove (a b : Value * option Value) : Prop :=
  veq a.1 b.1 /\ option_Forall2 veq a.2 b.2.

Lemma get_mut_proper m m' k :
  (forall k, option_Forall2 veq (InOMap_get k m) (InOMap_get k m')) ->
  option_Forall2 (fun a b => InOMap_get k m = Some a.1 /\ InOMap_get k m' = Some b.1
      /\ veq a.1 b.1 /\ forall y y', veq y y' -> veq (Object (a.2 y)) (Object (b.2 y')))
    (InOMap_get_mut k m) (InOMap_get_mut k m').
Proof.
  intros Hm. pose proof (get_mut_spec k m) as H1. pose proof (get_mut_spec k m') as H2.
  pose proof (Hm k) as Hk.
  destruct (InOMap_get_mut k m) as [[x p]|], (InOMap_get_mut k m') as [[y q]|]; simpl in *.
  - destruct H1 as (E1 & Hp & _), H2 as (E2 & Hq & _). rewrite E1, E2 in Hk. inversion Hk; subst.
    constructor. simpl. split_and!; [done|done|done|].
    intros z z' Hz. constructor. intros j. rewrite Hp, Hq. case_decide; [by constructor|done].
  - destruct H1 as (E1 & _). rewrite E1, H2 in Hk. inversion Hk.
  - destruct H2 as (E2 & _). rewrite E2, H1 in Hk. inversion Hk.
  - constructor.
Qed.

Lemma vec_get_proper (l l' : list Value) i : Forall2 veq l l' ->
  option_Forall2 (fun a b => veq a b /\
      forall y y', veq y y' -> veq (Array (vec_set l i y)) (Array (vec_set l' i y')))
    (vec_get l i) (vec_get l' i).
Proof.
  intros HF. pose proof (veq_vec_get l l' i HF) as Hg. inversion Hg; subst; constructor.
  split; [done|]. intros. constructor. by apply veq_vec_set.
Qed.

Lemma child_mut_proper doc doc' seg : veq doc doc' -> same_refs (child_mut doc seg) (child_mut doc' seg).
Proof.
  unfold child_mut, same_refs. destruct 1 as [| | | |l l' HF|m m' Hm]; simpl; try by constructor.
  - destruct (result_ok (parse_idx seg)) as [i|]; simpl; [|constructor].
    pose proof (vec_get_proper l l' i HF) as Hg. inversion Hg as [a b [? ?] E1 E2|E1 E2]; subst;
      rewrite <- ?E1, <- ?E2 in *; simpl; by constructor.
  - pose proof (get_mut_proper m m' seg Hm) as Hg.
    inversion Hg as [[x p] [x' p'] (_ & _ & ? & ?) E1 E2|E1 E2]; simpl; by constructor.
Qed.

Lemma ptr_get_mut_proper ks doc doc' : veq doc doc' ->
  same_refs (ptr_get_mut ks doc) (ptr_get_mut ks doc').
Proof.
  revert doc doc'. induction ks as [|seg ks IH]; intros doc doc' Hd; cbn [ptr_get_mut].
  { by constructor. }
  pose proof (child_mut_proper doc doc' seg Hd) as Hc.
  inversion Hc as [[x p] [x' p'] [Hx Hp] E1 E2|E1 E2]; simpl; [|constructor].
  specialize (IH _ _ Hx). simpl in IH. inversion IH as [[y q] [y' q'] [Hy Hq] E3 E4|E3 E4]; simpl;
    constructor. simpl in *. auto.
Qed.

Lemma ptr_get_proper ks doc doc' : veq doc doc' ->
  option_Forall2 veq (ptr_get ks doc) (ptr_get ks doc').
Proof.
  intros Hd%(ptr_get_mut_proper ks). pose proof (get_mut_get ks doc) as H1.
  pose proof (get_mut_get ks doc') as H2.
  destruct Hd as [[x p] [x' p'] [Hx _]|]; rewrite H1, H2; by constructor.
Qed.

Lemma vec_len_proper (l l' : list Value) : Forall2 veq l l' -> vec_len l = vec_len l'.
Proof. intros HF. unfold vec_len. by rewrite (Forall2_length _ _ _ HF). Qed.

Lemma insert_idx_proper (l l' : list Value) seg : Forall2 veq l l' -> insert_idx l seg = insert_idx l' seg.
Proof. intros HF. unfold insert_idx. by rewrite (vec_len_proper l l'). Qed.

Lemma remove_idx_proper (l l' : list Value) seg al : Forall2 veq l l' ->
  remove_idx l seg al = remove_idx l' seg al.
Proof. intros HF. unfold remove_idx. by rewrite (vec_len_proper l l'). Qed.

Lemma vec_insert_proper (l l' : list Value) i v v' : Forall2 veq l l' -> veq v v' ->
  Forall2 veq (vec_insert l i v) (vec_insert l' i v').
Proof.
  intros HF Hv. unfold vec_insert. rewrite (vec_len_proper l l') by done. case_match; [|done].
  apply Forall2_app; [by apply Forall2_take|]. constructor; [done|]. by apply Forall2_drop.
Qed.

Lemma vec_remove_proper (l l' : list Value) i : Forall2 veq l l' ->
  Forall2 veq (vec_remove l i) (vec_remove l' i).
Proof.
  intros HF. unfold vec_remove. rewrite (vec_len_proper l l') by done. case_match; [|done].
  apply Forall2_app; [by apply Forall2_take|by apply Forall2_drop].
Qed.

Lemma insert_proper ks doc doc' v v' : value_wf doc = true -> value_wf doc' = true ->
  veq doc doc' -> veq v v' -> same_insert (ptr_insert ks doc v false) (ptr_insert ks doc' v' false).
Proof.
  revert doc doc'. induction ks as [|seg ks IH]; intros doc doc' Hw Hw' Hd Hv; cbn [ptr_insert].
  { split; [done|]. by constructor. }
  destruct Hd as [| |n n' Hn| |l l' HF|m m' Hm]; try by (split; [by constructor|]).
  - rewrite (insert_idx_proper l l' seg HF), (vec_len_proper l l' HF).
    destruct (insert_idx l' seg) as [i|]; [|by split; [constructor|]].
    destruct ks as [|n ks].
    { destruct (i <=? vec_len l')%N; split; try by constructor.
      constructor. by apply vec_insert_proper. }
    rewrite andb_false_r. pose proof (vec_get_proper l l' i HF) as Hg.
    inversion Hg as [x x' [Hx Hp] E1 E2|E1 E2]; [|by split; [constructor|]].
    destruct (IH x x') as [IH1 IH2]; [exact (wf_array_get _ _ _ Hw (eq_sym E1))|exact (wf_array_get _ _ _ Hw' (eq_sym E2))|done|done|].
    destruct (ptr_insert (n :: ks) x v false), (ptr_insert (n :: ks) x' v' false). simpl in *.
    split; simpl; auto.
  - pose proof (Hm seg) as Hs. pose proof (get_mut_proper m m' seg Hm) as Hg.
    inversion Hg as [[x p] [x' p'] (G1 & G2 & Hx & Hp) E1 E2|E1 E2].
    + simpl in *. rewrite G1, G2. 
      destruct (IH x x') as [IH1 IH2]; [exact (wf_object_get _ _ _ Hw G1)|
        exact (wf_object_get _ _ _ Hw' G2)|done|done|].
      destruct (ptr_insert ks x v false), (ptr_insert ks x' v' false). simpl in *.
      split; simpl; auto.
    + symmetry in E1, E2. pose proof (proj1 (get_mut_None seg m) E1) as G1.
      pose proof (proj1 (get_mut_None seg m') E2) as G2. rewrite G1, G2.
      destruct ks; [|rewrite E1, E2; by split; [constructor|]].
      apply wf_object in Hw as [Hw _], Hw' as [Hw' _]. split; [|constructor]. constructor. intros k.
      rewrite !get_insert by done. case_decide; [by constructor|done].
Qed.

Lemma remove_leaf_proper seg doc doc' al : value_wf doc = true -> value_wf doc' = true ->
  veq doc doc' -> same_remove (ptr_remove [seg] doc al) (ptr_remove [seg] doc' al).
Proof.
  intros Hw Hw' Hd. cbn [ptr_remove].
  destruct Hd as [| |n n' Hn| |l l' HF|m m' Hm]; try by (split; [by constructor|constructor]).
  - rewrite (remove_idx_proper l l' seg al HF), (vec_len_proper l l' HF).
    destruct (remove_idx l' seg al) as [i|]; [|by split; [constructor|constructor]].
    destruct (i <? vec_len l')%N; [|by split; [constructor|constructor]].
    split; [constructor; by apply vec_remove_proper|by apply veq_vec_get].
  - apply wf_object in Hw as [Hw _], Hw' as [Hw' _].
    pose proof (remove_prev seg m) as P1. pose proof (remove_prev seg m') as P2.
    pose proof (get_remove seg m) as R1. pose proof (get_remove seg m') as R2.
    destruct (InOMap_remove seg m) as [m1 o1], (InOMap_remove seg m') as [m2 o2].
    simpl in *. subst. split; [|apply Hm]. simpl. constructor. intros k. rewrite R1, R2 by done.
    case_decide; [constructor|done].
Qed.

Lemma remove_proper ks doc doc' al : value_wf doc = true -> value_wf doc' = true ->
  veq doc doc' -> same_remove (ptr_remove ks doc al) (ptr_remove ks doc' al).
Proof.
  revert doc doc'. induction ks as [|seg [|n ks] IH]; intros doc doc' Hw Hw' Hd.
  { split; [done|]. constructor. }
  { by apply remove_leaf_proper. }
  rewrite !ptr_remove_cons.
  destruct Hd as [| |n0 n' Hn| |l l' HF|m m' Hm]; try by (split; [by constructor|constructor]).
  - rewrite (remove_idx_proper l l' seg al HF).
    destruct (remove_idx l' seg al) as [i|]; [|by split; [constructor|constructor]].
    pose proof (vec_get_proper l l' i HF) as Hg.
    inversion Hg as [x x' [Hx Hp] E1 E2|E1 E2]; [|by split; [constructor|constructor]].
    destruct (IH x x') as [IH1 IH2]; [exact (wf_array_get _ _ _ Hw (eq_sym E1))|exact (wf_array_get _ _ _ Hw' (eq_sym E2))|done|].
    destruct (ptr_remove (n :: ks) x al), (ptr_remove (n :: ks) x' al). simpl in *.
    split; simpl; auto.
  - pose proof (get_mut_proper m m' seg Hm) as Hg.
    inversion Hg as [[x p] [x' p'] (G1 & G2 & Hx & Hp) E1 E2|E1 E2];
      [|by split; [constructor|constructor]].
    destruct (IH x x') as [IH1 IH2]; [exact (wf_object_get _ _ _ Hw G1)|
      exact (wf_object_get _ _ _ Hw' G2)|done|].
    destruct (ptr_remove (n :: ks) x al), (ptr_remove (n :: ks) x' al). simpl in *.
    split; simpl; auto.
Qed.
End proper.

(** ** Lemmas: reading back what was written *)

Section readback.
Context `{JN : JNumber}.
Implicit Types (doc v x y : Value) (ks q : list str) (seg : str).

Lemma vec_get_insert (l : list Value) i v : (i <= vec_len l)%N -> vec_get (vec_insert l i v) i = Some v.
Proof.
  intros Hi. rewrite vec_get_Some, vec_insert_eq by done. unfold vec_len in Hi.
  rewrite lookup_app_r; rewrite length_take; [|lia]. by replace (N.to_nat i - _) with 0 by lia.
Qed.

Lemma container_wf seg : value_wf (container_for seg) = true.
Proof. unfold container_for. by destruct (str_eqb seg zero). Qed.

Lemma child_array_set (l : list Value) seg i x x' :
  parse_idx seg = Ok i -> vec_get l i = Some x -> child (Array (vec_set l i x')) seg = Some x'.
Proof. intros Hp Hg. unfold child. simpl. rewrite Hp. simpl. by eapply vec_get_set. Qed.

Lemma child_object_put m seg x put x' :
  InOMap_get_mut seg m = Some (x, put) -> child (Object (put x')) seg = Some x'.
Proof.
  intros Hm. pose proof (get_mut_spec seg m) as Hs. rewrite Hm in Hs. destruct Hs as (_ & Hp & _).
  unfold child. simpl. by rewrite Hp, decide_True.
Qed.

Lemma recursive_child_wf m seg r next :
  value_wf (Object m) = true ->
  value_wf (Object (if (r : bool) then (InOMap_insert seg (container_for next) m).1 else m)) = true.
Proof. intros Hw. destruct r; [apply wf_object_insert; [done|apply container_wf]|done]. Qed.

Lemma insert_get ks doc v r doc' prev : value_wf doc = true -> dash ∉ ks ->
  ptr_insert ks doc v r = (doc', Ok prev) -> ptr_get ks doc' = Some v.
Proof.
  revert doc doc'. induction ks as [|seg ks IH]; intros doc doc' Hw Hd; cbn [ptr_insert ptr_get].
  { by intros [= <- _]. }
  apply not_elem_of_cons in Hd as [Hseg Hd]. destruct doc as [| | | |l|m]; try done.
  - unfold insert_idx. destruct (str_eqb seg dash) eqn:E; [by apply str_eqb_eq in E as ->|].
    destruct (parse_idx seg) as [i|] eqn:Ei; [|done]. destruct ks as [|n ks].
    { destruct (i <=? vec_len l)%N eqn:El; [|done]. bool_to_prop. intros [= <- _].
      unfold child. simpl. rewrite Ei. simpl. by rewrite vec_get_insert. }
    set (l' := if _ && r then _ else l).
    assert (value_wf (Array l') = true) as Hw'.
    { unfold l'. destruct (_ && r); [|done]. apply wf_array_insert; [done|apply container_wf]. }
    destruct (vec_get l' i) as [x|] eqn:Eg; [|done].
    destruct (ptr_insert (n :: ks) x v r) as [x' res] eqn:Er. intros [= <- ->].
    rewrite (child_array_set l' seg i x x' Ei Eg). cbn [mbind option_bind].
    apply IH in Er; [done|exact (wf_array_get _ _ _ Hw' Eg)|done].
  - destruct (InOMap_get seg m) as [w|] eqn:Eg.
    + destruct (InOMap_get_mut seg m) as [[x put]|] eqn:Em; [|done].
      destruct (ptr_insert ks x v r) as [x' res] eqn:Er. intros [= <- ->].
      rewrite (child_object_put _ _ _ _ x' Em). cbn [mbind option_bind].
      pose proof (get_mut_spec seg m) as Hs. rewrite Em in Hs. destruct Hs as (Hx & _).
      apply IH in Er; [done|exact (wf_object_get _ _ _ Hw Hx)|done].
    + destruct ks as [|n ks].
      { intros [= <- _]. unfold child. simpl. apply wf_object in Hw as [Hw _].
        by rewrite get_insert, decide_True by done. }
      pose proof (recursive_child_wf m seg r n Hw) as Hw'. set (m' := if r then _ else m) in *.
      destruct (InOMap_get_mut seg m') as [[x put]|] eqn:Em; [|done].
      destruct (ptr_insert (n :: ks) x v r) as [x' res] eqn:Er. intros [= <- ->].
      rewrite (child_object_put _ _ _ _ x' Em). cbn [mbind option_bind].
      pose proof (get_mut_spec seg m') as Hs. rewrite Em in Hs. destruct Hs as (Hx & _).
      apply IH in Er; [done|exact (wf_object_get _ _ _ Hw' Hx)|done].
Qed.

Lemma set_get ks doc v r doc' prev : value_wf doc = true -> dash ∉ ks ->
  ptr_set ks doc v r = Done (doc', Ok prev) -> ptr_get ks doc' = Some v.
Proof.
  revert doc doc'. induction ks as [|seg ks IH]; intros doc doc' Hw Hd; cbn [ptr_set ptr_get].
  { by intros [= <- _]. }
  apply not_elem_of_cons in Hd as [Hseg Hd]. destruct doc as [| | | |l|m]; try done.
  - unfold insert_idx. destruct (str_eqb seg dash) eqn:E; [by apply str_eqb_eq in E as ->|].
    destruct (parse_idx seg) as [i|] eqn:Ei; [|done].
    assert (forall (l' : list Value), value_wf (Array l') = true ->
      match vec_get l' i with
      | None => Done (Array l', Err (IndexOutOfBounds i))
      | Some x => let* (x', res) := ptr_set ks x v r in Done (Array (vec_set l' i x'), res)
      end = Done (doc', Ok prev) -> (x ← child doc' seg; ptr_get ks x) = Some v) as Hgen.
    { intros l' Hw'. destruct (vec_get l' i) as [x|] eqn:Eg; [|done].
      destruct (ptr_set ks x v r) as [[x' res]|] eqn:Er; [|done]. intros [= <- ->].
      rewrite (child_array_set l' seg i x x' Ei Eg). cbn [mbind option_bind].
      apply IH in Er; [done|exact (wf_array_get _ _ _ Hw' Eg)|done]. }
    destruct (i =? vec_len l)%N eqn:El; [destruct ks as [|n ks]|].
    + bool_to_prop. intros [= <- _]. unfold child. simpl. rewrite Ei. simpl.
      assert (vec_get (l ++ [v]) i = Some v) as ->; [|done].
      rewrite vec_get_Some. unfold vec_len in El. subst i. rewrite Nat2N.id.
      by rewrite lookup_app_r, Nat.sub_diag.
    + destruct r; apply Hgen; [|done]. rewrite wf_array in Hw |- *. apply Forall_app.
      split; [done|]. constructor; [apply container_wf|done].
    + by destruct ks; apply Hgen.
  - assert (forall m', value_wf (Object m') = true ->
      match InOMap_get_mut seg m' with
      | None => Panic
      | Some (x, put) => let* (x', res) := ptr_set ks x v r in Done (Object (put x'), res)
      end = Done (doc', Ok prev) -> (x ← child doc' seg; ptr_get ks x) = Some v) as Hgen.
    { intros m' Hw'. destruct (InOMap_get_mut seg m') as [[x put]|] eqn:Em; [|done].
      destruct (ptr_set ks x v r) as [[x' res]|] eqn:Er; [|done]. intros [= <- ->].
      rewrite (child_object_put _ _ _ _ x' Em). cbn [mbind option_bind].
      pose proof (get_mut_spec seg m') as Hs. rewrite Em in Hs. destruct Hs as (Hx & _).
      apply IH in Er; [done|exact (wf_object_get _ _ _ Hw' Hx)|done]. }
    destruct (InOMap_get seg m) as [w|] eqn:Eg; [by apply Hgen|].
    destruct ks as [|n ks]; [|apply Hgen; by apply recursive_child_wf].
    intros [= <- _]. unfold child. simpl. apply wf_object in Hw as [Hw _].
    by rewrite get_insert, decide_True by done.
Qed.
End readback.

(** ** Properties *)

Section properties.
Context `{JN : JNumber}.
Implicit Types (doc v x y : Value) (ks q : list str) (seg : str).

(** What [insert] and [set] store, recursively or not, [get] reads back at
    the same pointer (no segment being [-], which names no element), and both
    keep the document well formed. *)
Theorem ptr_write_read ks doc v r : value_wf doc = true -> dash ∉ ks ->
  (forall doc' prev, ptr_insert ks doc v r = (doc', Ok prev) -> ptr_get ks doc' = Some v)
  /\ (forall doc' prev, ptr_set ks doc v r = Done (doc', Ok prev) -> ptr_get ks doc' = Some v)
  /\ (value_wf v = true -> value_wf (ptr_insert ks doc v false).1 = true).
Proof.
  intros Hw Hd. split_and!.
  - intros. by eapply insert_get.
  - intros. by eapply set_get.
  - intros Hv. destruct (ptr_insert ks doc v false) as [d res] eqn:E. by eapply insert_wf in E as [].
Qed.

(** C30: edits at a pointer that do not create parents ([recursive] is false).  A failing [insert] leaves the document untouched; so does a
    failing [remove], whether or not [-] stands for the last element ([allow_last]).  An
    [insert] that displaced nothing is undone exactly by [remove] with [allow_last], one that
    displaced a value by inserting that value, and a [remove] without [allow_last] is undone by
    [insert], up to the order of an object's keys. *)
Theorem ptr_edit_reversible ks doc v : value_wf doc = true ->
  match ptr_insert ks doc v false with
  | (doc', Err _) => doc' = doc
  | (doc', Ok None) => ptr_remove ks doc' true = (doc, Some v)
  | (doc', Ok (Some old)) => ptr_insert ks doc' old false = (doc, Ok (Some v))
  end /\
  match ptr_remove ks doc false with
  | (doc', None) => doc' = doc
  | (doc', Some old) =>
      exists doc'', ptr_insert ks doc' old false = (doc'', Ok None) /\ veq doc'' doc
  end /\
  forall allow_last doc', ptr_remove ks doc allow_last = (doc', None) -> doc' = doc.
Proof.
  intros Hw. split; [|split; [|intros al d; apply remove_none]].
  - destruct (ptr_insert ks doc v false) as [d [[old|]|e]] eqn:E.
    + by apply insert_insert.
    + by apply insert_remove.
    + by eapply insert_err.
  - destruct (ptr_remove ks doc false) as [d [old|]] eqn:E; [by apply remove_insert|by eapply remove_none].
Qed.

(** Equal documents (whatever the order of their keys) give equal
    results to every pointer operation, errors included. *)
Theorem ptr_ops_respect_equality ks doc doc' v v' al :
  value_wf doc = true -> value_wf doc' = true -> veq doc doc' -> veq v v' ->
  option_Forall2 veq (ptr_get ks doc) (ptr_get ks doc')
  /\ same_refs (ptr_get_mut ks doc) (ptr_get_mut ks doc')
  /\ same_insert (ptr_insert ks doc v false) (ptr_insert ks doc' v' false)
  /\ same_remove (ptr_remove ks doc al) (ptr_remove ks doc' al).
Proof.
  intros. split_and!; [by apply ptr_get_proper|by apply ptr_get_mut_proper|
    by apply insert_proper|by apply remove_proper].
Qed.

(** [set] without [recursive] panics on a path whose first key is
    missing from the object, where [insert] reports an error. *)
Theorem ptr_set_missing_panics seg next ks (m : InOMap str Value) v : InOMap_get seg m = None ->
  ptr_set (seg :: next :: ks) (Object m) v false = Panic
  /\ ptr_insert (seg :: next :: ks) (Object m) v false
     = (Object m, Err (CouldNotIndexInto $"undefined")).
Proof.
  intros Hg. cbn [ptr_set ptr_insert]. rewrite Hg. by rewrite (proj2 (get_mut_None seg m) Hg).
Qed.
End properties.

(** ** Witnesses *)

Module PtrDocExamples.
#[local] Existing Instance ZNumber.

Definition doc1 : Value :=
  Object [($"a", Array [Num 1%Z; Num 2%Z]); ($"b", Object [($"c", Str $"x")])].
Definition doc2 : Value :=
  Object [($"b", Object [($"c", Str $"x")]); ($"a", Array [Num 1%Z; Num 2%Z])].

Lemma doc12_veq : veq doc1 doc2.
Proof. by apply Value_eqb_spec; vm_compute. Qed.

Lemma ptr_write_read_witness :
  ptr_get [$"a"; $"1"] (ptr_insert [$"a"; $"1"] doc1 Null false).1 = Some Null
  /\ ptr_get [$"z"; $"k"] (ptr_insert [$"z"; $"k"] doc1 Null true).1 = Some Null.
Proof.
  split.
  - refine (proj1 (ptr_write_read [$"a"; $"1"] doc1 Null false _ _) _ None _); [done| |done].
    by apply (bool_decide_unpack _).
  - refine (proj1 (ptr_write_read [$"z"; $"k"] doc1 Null true _ _) _ None _); [done| |done].
    by apply (bool_decide_unpack _).
Defined.

Lemma ptr_edit_reversible_witness :
  ptr_remove [$"a"; $"-"] (ptr_insert [$"a"; $"-"] doc1 Null false).1 true = (doc1, Some Null)
  /\ exists d, ptr_insert [$"b"] (ptr_remove [$"b"] doc1 false).1 (Object [($"c", Str $"x")]) false
               = (d, Ok None) /\ veq d doc1.
Proof.
  split.
  - exact (proj1 (ptr_edit_reversible [$"a"; $"-"] doc1 Null eq_refl)).
  - exact (proj1 (proj2 (ptr_edit_reversible [$"b"] doc1 Null eq_refl))).
Defined.

Lemma ptr_ops_respect_equality_witness :
  same_remove (ptr_remove [$"a"; $"-"] doc1 true) (ptr_remove [$"a"; $"-"] doc2 true).
Proof.
  apply (ptr_ops_respect_equality [$"a"; $"-"] doc1 doc2 Null Null true); [done|done|apply doc12_veq|done].
Defined.

Lemma ptr_set_missing_panics_witness :
  ptr_set [$"x"; $"y"] (Object [($"a", Null)]) Null false = Panic.
Proof. by apply (ptr_set_missing_panics $"x" $"y" [] [($"a", Null)] Null). Defined.
End PtrDocExamples.
