(* ===== verification/JsonPatch.v ===== *)
(** * JSON Patch and JSON Merge Patch

    [shared-libs/crates/patch-db/json-patch/src/lib.rs].  A path is the list of
    segments of its pointer: JsonPtr.v proves that [==], [starts_with] and
    [prepend] on pointers are the functions on segment lists used here.

    An undo closure is its defunctionalised form [UndoOperation]: which
    operation pushed it and what it captured; [run_undo] is the closure's body.
    Its [unwrap]s and [assert!]s make it an [outcome].  The undo stack is a list
    whose head is the last element of the code's [Vec]. *)
From S2P Require Import Prelude RustStr InOrderMap JsonValue PtrDoc.

Local Open Scope rust_scope.

(** [JsonPointer::eq] and [JsonPointer::starts_with] on segments. *)
Definition path_eqb (p q : list str) : bool := bool_decide (p = q).
Definition path_starts_with (p q : list str) : bool := bool_decide (q `prefix_of` p).

Inductive PatchError : Type := InvalidPointer | TestFailed.

Section JsonPatch.
Context `{JN : JNumber}.
Implicit Types (doc value prev : Value) (path from ptr : list str).

Inductive PatchOperation : Type :=
| Add (path : list str) (value : Value)
| Remove (path : list str)
| Replace (path : list str) (value : Value)
| Move (from path : list str)
| Copy (from path : list str)
| Test (path : list str) (value : Value).

Definition Patch : Type := list PatchOperation.

(** ** [impl Patch] *)

Definition op_prepend ptr (op : PatchOperation) : PatchOperation :=
  match op with
  | Add path value => Add (ptr ++ path) value
  | Remove path => Remove (ptr ++ path)
  | Replace path value => Replace (ptr ++ path) value
  | Move from path => Move (ptr ++ from) (ptr ++ path)
  | Copy from path => Copy (ptr ++ from) (ptr ++ path)
  | Test path value => Test (ptr ++ path) value
  end.

Definition Patch_prepend ptr (p : Patch) : Patch := map (op_prepend ptr) p.

Definition related path ptr : bool := path_starts_with path ptr || path_starts_with ptr path.

Definition op_affects_path (op : PatchOperation) ptr : bool :=
  match op with
  | Add path _ | Remove path | Replace path _ | Copy _ path => related path ptr
  | Move from path => related path ptr || related from ptr
  | Test _ _ => false
  end.

Definition Patch_affects_path (p : Patch) ptr : bool := existsb (fun op => op_affects_path op ptr) p.

Definition Patch_is_empty (p : Patch) : bool := match p with [] => true | _ => false end.

(** ** The operations *)

Definition add doc path value : Value * result (option Value) PatchError :=
  match ptr_insert path doc value false with
  | (doc', Ok prev) => (doc', Ok prev)
  | (doc', Err _) => (doc', Err InvalidPointer)
  end.

Definition remove doc path (allow_last : bool) : Value * result Value PatchError :=
  match ptr_remove path doc allow_last with
  | (doc', Some v) => (doc', Ok v)
  | (doc', None) => (doc', Err InvalidPointer)
  end.

Definition replace doc path value : Value * result Value PatchError :=
  match ptr_get_mut path doc with
  | Some (target, put) => (put value, Ok target)
  | None =>
      match add doc path value with
      | (doc', Ok prev) => (doc', Ok (from_option id Value_default prev))
      | (doc', Err e) => (doc', Err e)
      end
  end.

Definition mov doc from path (allow_last : bool) : Value * result (option Value) PatchError :=
  if path_eqb path from then (doc, Ok None)
  else if path_starts_with path from || bool_decide (from = []) then (doc, Err InvalidPointer)
  else match remove doc from allow_last with
       | (doc', Ok val) => add doc' path val
       | (doc', Err e) => (doc', Err e)
       end.

Definition copy doc from path : Value * result (option Value) PatchError :=
  match ptr_get from doc with
  | Some source => add doc path source
  | None => (doc, Err InvalidPointer)
  end.

Definition test doc path (expected : Value) : result unit PatchError :=
  match ptr_get path doc with
  | Some target => if Value_eqb target expected then Ok tt else Err TestFailed
  | None => Err InvalidPointer
  end.

(** ** Undo *)

Inductive UndoOperation : Type :=
| UndoAdd (path : list str) (prev : option Value)
| UndoRemove (path : list str) (prev : Value)
| UndoReplace (path : list str) (prev : Value)
| UndoMove (from path : list str) (prev : option Value)
| UndoTest.

Definition run_undo (u : UndoOperation) doc : outcome Value :=
  match u with
  | UndoAdd path None =>
      match remove doc path true with (doc', Ok _) => Done doc' | _ => Panic end
  | UndoAdd path (Some v) =>
      match add doc path v with (doc', Ok (Some _)) => Done doc' | _ => Panic end
  | UndoRemove path prev =>
      match add doc path prev with (doc', Ok None) => Done doc' | _ => Panic end
  | UndoReplace path prev =>
      match replace doc path prev with (doc', Ok _) => Done doc' | _ => Panic end
  | UndoMove from path prev =>
      match mov doc path from true with
      | (doc', Ok _) =>
          match prev with
          | None => Done doc'
          | Some prev =>
              match add doc' path prev with (doc'', Ok None) => Done doc'' | _ => Panic end
          end
      | _ => Panic
      end
  | UndoTest => Done doc
  end.

(** [while undo.0.len() > initial_len { undo.0.pop().unwrap()(doc) }]: the
    document and what is left of the stack. *)
Fixpoint unwind (undo : list UndoOperation) (initial_len : nat) doc
    : outcome (Value * list UndoOperation) :=
  match undo with
  | [] => Done (doc, [])
  | u :: rest =>
      if initial_len <? length undo then
        let* doc' := run_undo u doc in unwind rest initial_len doc'
      else Done (doc, undo)
  end.

(** [Undo::apply] *)
Definition Undo_apply (undo : list UndoOperation) doc : outcome Value :=
  let* r := unwind undo 0 doc in Done r.1.

(** The [match *patch] of [apply_patches]: apply one operation and push its
    undo closure. *)
Definition apply_op (op : PatchOperation) doc : Value * result UndoOperation PatchError :=
  match op with
  | Add path value =>
      match add doc path value with
      | (doc', Ok prev) => (doc', Ok (UndoAdd path prev))
      | (doc', Err e) => (doc', Err e)
      end
  | Remove path =>
      match remove doc path false with
      | (doc', Ok prev) => (doc', Ok (UndoRemove path prev))
      | (doc', Err e) => (doc', Err e)
      end
  | Replace path value =>
      match replace doc path value with
      | (doc', Ok prev) => (doc', Ok (UndoReplace path prev))
      | (doc', Err e) => (doc', Err e)
      end
  | Move from path =>
      match mov doc from path false with
      | (doc', Ok prev) => (doc', Ok (UndoMove from path prev))
      | (doc', Err e) => (doc', Err e)
      end
  | Copy from path =>
      match copy doc from path with
      | (doc', Ok prev) => (doc', Ok (UndoAdd path prev))
      | (doc', Err e) => (doc', Err e)
      end
  | Test path value =>
      match test doc path value with
      | Ok _ => (doc, Ok UndoTest)
      | Err e => (doc, Err e)
      end
  end.

Fixpoint apply_loop (initial_len : nat) doc (patches : Patch) (undo : list UndoOperation)
    : outcome (Value * list UndoOperation * result unit PatchError) :=
  match patches with
  | [] => Done (doc, undo, Ok tt)
  | p :: rest =>
      match apply_op p doc with
      | (doc', Ok u) => apply_loop initial_len doc' rest (u :: undo)
      | (doc', Err e) =>
          let* (doc'', undo') := unwind undo initial_len doc' in Done (doc'', undo', Err e)
      end
  end.

Definition apply_patches doc (patches : Patch) (undo : list UndoOperation) :=
  apply_loop (length undo) doc patches undo.

Definition patch doc (p : Patch) : outcome (Value * result (list UndoOperation) PatchError) :=
  let* (doc', undo, res) := apply_patches doc p [] in
  Done (doc', match res with Ok _ => Ok undo | Err e => Err e end).

(** One iteration of [patch_unsafe]; its [match] differs from [apply_patches]
    only in what it does with the previous value. *)
Definition unsafe_op (op : PatchOperation) doc : Value * result unit PatchError :=
  match op with
  | Add path value =>
      match add doc path value with (d, Ok _) => (d, Ok tt) | (d, Err e) => (d, Err e) end
  | Remove path =>
      match remove doc path false with (d, Ok _) => (d, Ok tt) | (d, Err e) => (d, Err e) end
  | Replace path value =>
      match replace doc path value with (d, Ok _) => (d, Ok tt) | (d, Err e) => (d, Err e) end
  | Move from path =>
      match mov doc from path false with (d, Ok _) => (d, Ok tt) | (d, Err e) => (d, Err e) end
  | Copy from path =>
      match copy doc from path with (d, Ok _) => (d, Ok tt) | (d, Err e) => (d, Err e) end
  | Test path value => (doc, test doc path value)
  end.

Fixpoint patch_unsafe doc (p : Patch) : Value * result unit PatchError :=
  match p with
  | [] => (doc, Ok tt)
  | op :: rest =>
      match unsafe_op op doc with
      | (doc', Ok _) => patch_unsafe doc' rest
      | (doc', Err e) => (doc', Err e)
      end
  end.

(** ** JSON Merge Patch *)

Section merge_loop.
Variable merge : Value -> Value -> outcome Value.

(** The loop of [merge] over the entries of the patch object. *)
Fixpoint merge_entries (map : InOMap str Value) (entries : list (str * Value))
    : outcome (InOMap str Value) :=
  match entries with
  | [] => Done map
  | (key, value) :: rest =>
      if Value_is_null value then merge_entries (InOMap_remove key map).1 rest
      else
        let* (slot, put) := Entry_or_insert (InOMap_entry key map) Null in
        let* slot' := merge slot value in
        merge_entries (put slot') rest
  end.
End merge_loop.

Fixpoint merge doc (p : Value) {struct p} : outcome Value :=
  match p with
  | Object entries =>
      let map := match doc with Object m => m | _ => InOMap_new end in
      let* map' := merge_entries merge map entries in
      Done (Object map')
  | _ => Done p
  end.

End JsonPatch.

(** ** When an operation can be undone

    [op_reversible op doc] is the condition under which the closure pushed for
    [op] restores [doc]; it is computed by running the operation.  A [replace]
    must address an existing value, a [move] must displace nothing, not go to
    an ancestor of its source, and not fail half way. *)
Section reversible.
Context `{JN : JNumber}.

Definition op_wf (op : PatchOperation) : bool :=
  match op with
  | Add _ v | Replace _ v | Test _ v => value_wf v
  | Remove _ | Move _ _ | Copy _ _ => true
  end.

Definition patch_wf (p : Patch) : bool := forallb op_wf p.

Definition op_reversible (op : PatchOperation) (doc : Value) : bool :=
  match op with
  | Replace path v =>
      match ptr_get path doc with Some _ => true | None => negb (is_ok (add doc path v).2) end
  | Move from path =>
      if path_eqb path from then true
      else if path_starts_with path from || bool_decide (from = []) then true
      else match remove doc from false with
           | (_, Err _) => true
           | (doc', Ok val) =>
               match (add doc' path val).2 with
               | Ok None => negb (path_starts_with from path || bool_decide (path = []))
               | _ => false
               end
           end
  | _ => true
  end.

(** The condition at every operation of the patch that is reached. *)
Fixpoint patch_reversible (p : Patch) (doc : Value) : bool :=
  match p with
  | [] => true
  | op :: rest =>
      op_reversible op doc &&
      match apply_op op doc with
      | (doc', Ok _) => patch_reversible rest doc'
      | (_, Err _) => true
      end
  end.

(** [u] takes every document equal to [after] to one equal to [before]. *)
Definition undoes (u : UndoOperation) (after before : Value) : Prop :=
  forall d, value_wf d = true -> veq d after ->
    exists d', run_undo u d = Done d' /\ value_wf d' = true /\ veq d' before.
End reversible.

Section undo_lemmas.
Context `{JN : JNumber}.
Implicit Types (doc d value v : Value) (path from ptr : list str).

Lemma add_wf doc path v doc' res : value_wf doc = true -> value_wf v = true ->
  add doc path v = (doc', res) ->
  value_wf doc' = true /\ forall old, res = Ok (Some old) -> value_wf old = true.
Proof.
  intros Hd Hv. unfold add. destruct (ptr_insert path doc v false) as [x [o|e]] eqn:E;
    intros [= <- <-]; apply insert_wf in E as [? Ho]; try done.
  split; [done|]. intros old [= ->]. by apply Ho.
Qed.

Lemma removed_wf doc path al doc' res : value_wf doc = true -> remove doc path al = (doc', res) ->
  value_wf doc' = true /\ forall old, res = Ok old -> value_wf old = true.
Proof.
  intros Hd. unfold remove. destruct (ptr_remove path doc al) as [x [o|]] eqn:E;
    intros [= <- <-]; apply remove_wf in E as [? Ho]; try done.
  split; [done|]. intros old [= ->]. by apply Ho.
Qed.

Lemma add_err doc path v doc' e : add doc path v = (doc', Err e) -> doc' = doc.
Proof.
  unfold add. destruct (ptr_insert path doc v false) as [x [o|e']] eqn:E; [done|].
  intros [= <- _]. by apply insert_err in E.
Qed.

Lemma remove_err doc path doc' e : remove doc path false = (doc', Err e) -> doc' = doc.
Proof.
  unfold remove. destruct (ptr_remove path doc false) as [x [o|]] eqn:E; [done|].
  intros [= <- _]. by apply remove_none in E.
Qed.

(** How [add] and [remove] act on equal documents. *)
Lemma add_proper doc d path v v' doc' prev : value_wf doc = true -> value_wf d = true ->
  veq d doc -> veq v' v -> value_wf v' = true -> add doc path v = (doc', Ok prev) ->
  exists d' prev', add d path v' = (d', Ok prev') /\ value_wf d' = true /\ veq d' doc'
    /\ option_Forall2 veq prev' prev.
Proof.
  intros Hw Hw' Hd Hv Hwv. unfold add.
  pose proof (insert_proper path d doc v' v Hw' Hw Hd Hv) as [H1 H2].
  destruct (ptr_insert path doc v false) as [x [o|e]]; [|done]. intros [= <- <-].
  destruct (ptr_insert path d v' false) as [x' [o'|e']] eqn:E; [|done]. simpl in *.
  apply insert_wf in E as [? _]; [|done..]. eauto 10.
Qed.

Lemma remove_proper' doc d path al doc' old : value_wf doc = true -> value_wf d = true ->
  veq d doc -> remove doc path al = (doc', Ok old) ->
  exists d' old', remove d path al = (d', Ok old') /\ value_wf d' = true /\ veq d' doc'
    /\ veq old' old /\ value_wf old' = true.
Proof.
  intros Hw Hw' Hd. unfold remove.
  pose proof (remove_proper path d doc al Hw' Hw Hd) as [H1 H2].
  destruct (ptr_remove path doc al) as [x [o|]]; [|done]. intros [= <- <-].
  destruct (ptr_remove path d al) as [x' o'] eqn:E. simpl in *. inversion H2; subst.
  apply remove_wf in E as [? Ho]; [|done]. eauto 10.
Qed.

Lemma add_remove doc path v doc' : add doc path v = (doc', Ok None) ->
  remove doc' path true = (doc, Ok v).
Proof.
  unfold add. destruct (ptr_insert path doc v false) as [x [o|e]] eqn:E; [|done].
  intros [= <- ->]. unfold remove. by rewrite (insert_remove _ _ _ _ E).
Qed.

Lemma add_add doc path v doc' old : add doc path v = (doc', Ok (Some old)) ->
  add doc' path old = (doc, Ok (Some v)).
Proof.
  unfold add. destruct (ptr_insert path doc v false) as [x [o|e]] eqn:E; [|done].
  intros [= <- ->]. by rewrite (insert_insert _ _ _ _ _ E).
Qed.

Lemma remove_add doc path doc' old : value_wf doc = true -> remove doc path false = (doc', Ok old) ->
  exists doc'', add doc' path old = (doc'', Ok None) /\ veq doc'' doc.
Proof.
  intros Hw. unfold remove. destruct (ptr_remove path doc false) as [x [o|]] eqn:E; [|done].
  intros [= <- ->]. apply remove_insert in E as (d & Hd & Hv); [|done].
  exists d. unfold add. by rewrite Hd.
Qed.

Lemma add_undoes doc path v doc' prev : value_wf doc = true -> value_wf v = true ->
  add doc path v = (doc', Ok prev) -> undoes (UndoAdd path prev) doc' doc.
Proof.
  intros Hw Hv Ha d Hwd Hd. pose proof (add_wf _ _ _ _ _ Hw Hv Ha) as [Hw' Hold].
  destruct prev as [old|]; simpl.
  - apply add_add in Ha. destruct (add_proper doc' d path old old doc (Some v)) as
      (d' & p' & -> & Hwf & Hveq & Hp); [done..|by apply Hold|done|]. inversion Hp; subst. eauto.
  - apply add_remove in Ha. destruct (remove_proper' doc' d path true doc v) as
      (d' & p' & -> & Hwf & Hveq & Hp); [done..|]. eauto.
Qed.

Lemma remove_undoes doc path doc' old : value_wf doc = true ->
  remove doc path false = (doc', Ok old) -> undoes (UndoRemove path old) doc' doc.
Proof.
  intros Hw Ha d Hwd Hd. pose proof (removed_wf _ _ _ _ _ Hw Ha) as [Hw' Hold].
  apply remove_add in Ha as (doc'' & Ha & Heq); [|done]. simpl.
  destruct (add_proper doc' d path old old doc'' None) as
    (d' & p' & -> & Hwf & Hveq & Hp); [done..|by apply Hold|done|]. inversion Hp; subst.
  exists d'. split; [done|]. split; [done|]. by etrans.
Qed.

Lemma replace_undoes doc path v old put : value_wf doc = true -> value_wf v = true ->
  ptr_get_mut path doc = Some (old, put) -> undoes (UndoReplace path old) (put v) doc.
Proof.
  intros Hw Hv Hm d Hwd Hd. pose proof (get_mut_get path doc) as Hg. rewrite Hm in Hg.
  pose proof (ptr_get_wf _ _ _ Hw Hg) as Hwo.
  apply ptr_get_mut_spec in Hm as [[Hpg _ _] Hm]. destruct (Hm v) as (put' & Hm' & Hput).
  pose proof (ptr_get_mut_proper path d (put v) Hd) as Hr. rewrite Hm' in Hr.
  simpl. unfold replace. inversion Hr as [[x q] ? [_ Hq] E1 E2|]; subst. simpl in *.
  exists (q old). split; [done|]. symmetry in E1. apply ptr_get_mut_spec in E1 as [[_ _ Hwf] _].
  split; [by apply Hwf|]. rewrite <- Hput. by apply Hq.
Qed.

Lemma move_undoes doc from path doc1 val doc2 : value_wf doc = true ->
  path ≠ from -> path_starts_with from path = false -> path ≠ [] ->
  remove doc from false = (doc1, Ok val) -> add doc1 path val = (doc2, Ok None) ->
  undoes (UndoMove from path None) doc2 doc.
Proof.
  intros Hw Hne Hsw Hnil Hr Ha d Hwd Hd.
  pose proof (removed_wf _ _ _ _ _ Hw Hr) as [Hw1 Hwv]. specialize (Hwv val eq_refl).
  pose proof (add_wf _ _ _ _ _ Hw1 Hwv Ha) as [Hw2 _].
  apply add_remove in Ha. apply remove_add in Hr as (doc'' & Hr & Heq); [|done].
  destruct (remove_proper' doc2 d path true doc1 val) as (d1 & v1 & Hd1 & Hwf1 & He1 & Hv1 & Hwv1);
    [done..|].
  destruct (add_proper doc1 d1 from val v1 doc'' None) as (d2 & p2 & Hd2 & Hwf2 & He2 & Hp2); [done..|].
  simpl. unfold mov, path_eqb. rewrite bool_decide_false by congruence.
  rewrite Hsw, bool_decide_false, Hd1, Hd2 by done. simpl.
  exists d2. split; [done|]. split; [done|]. by etrans.
Qed.
End undo_lemmas.

Section patch_lemmas.
Context `{JN : JNumber}.
Implicit Types (doc d value v : Value) (path from ptr : list str) (p : Patch).

(** [u]'s closure exists and restores the document, or the operation failed and
    changed nothing. *)
Lemma apply_op_spec op doc : value_wf doc = true -> op_wf op = true -> op_reversible op doc = true ->
  match apply_op op doc with
  | (doc', Ok u) => value_wf doc' = true /\ undoes u doc' doc
  | (doc', Err _) => doc' = doc
  end.
Proof.
  intros Hw Hop Hrev. destruct op as [path v|path|path v|from path|from path|path v]; simpl in *.
  - destruct (add doc path v) as [doc' [prev|e]] eqn:E; [|by eapply add_err].
    split; [by eapply add_wf in E as []|by eapply add_undoes].
  - destruct (remove doc path false) as [doc' [old|e]] eqn:E; [|by eapply remove_err].
    split; [by eapply removed_wf in E as []|by eapply remove_undoes].
  - unfold replace. pose proof (get_mut_get path doc) as Hg.
    destruct (ptr_get_mut path doc) as [[old put]|] eqn:Em.
    + split; [|by apply replace_undoes]. apply ptr_get_mut_spec in Em as [[_ _ Hwf] _]. by apply Hwf.
    + rewrite Hg in Hrev. destruct (add doc path v) as [doc' [prev|e]] eqn:E; [done|].
      by eapply add_err.
  - unfold mov. destruct (path_eqb path from) eqn:Epf.
    { split; [done|]. intros d Hwd Hd. simpl. unfold mov, path_eqb in *. bool_to_prop. subst.
      rewrite bool_decide_true by done. eauto. }
    destruct (path_starts_with path from || bool_decide (from = [])); [done|].
    destruct (remove doc from false) as [doc1 [val|e]] eqn:Er; [|by eapply remove_err].
    destruct (add doc1 path val) as [doc2 [[old|]|e]] eqn:Ea; [done| |done]. simpl in Hrev.
    apply negb_true_iff, orb_false_iff in Hrev as [Hsw Hnil]. unfold path_eqb in Epf. bool_to_prop.
    split; [|by eapply move_undoes].
    apply removed_wf in Er as [Hw1 Hwv]; [|done]. eapply add_wf in Ea as [? _]; eauto.
  - unfold copy. destruct (ptr_get from doc) as [src|] eqn:Eg; [|done].
    destruct (add doc path src) as [doc' [prev|e]] eqn:E; [|by eapply add_err].
    pose proof (ptr_get_wf _ _ _ Hw Eg).
    split; [by eapply add_wf in E as []|by eapply add_undoes].
  - destruct (test doc path v); [|done]. split; [done|]. intros d Hwd Hd. simpl. eauto.
Qed.

(** Unwinding the stack to height [n] takes [now] back to [before]. *)
Definition stack_undoes (undo : list UndoOperation) (n : nat) (now before : Value) : Prop :=
  forall d, value_wf d = true -> veq d now ->
    exists d' rest, unwind undo n d = Done (d', rest) /\ value_wf d' = true /\ veq d' before.

Lemma stack_push undo n u doc' doc doc0 : n <= length undo -> undoes u doc' doc ->
  stack_undoes undo n doc doc0 -> stack_undoes (u :: undo) n doc' doc0.
Proof.
  intros Hn Hu Hs d Hw Hd. cbn [unwind]. rewrite (proj2 (Nat.ltb_lt _ _)) by (simpl; lia).
  destruct (Hu d Hw Hd) as (d1 & -> & Hw1 & Hd1). cbn [outcome_bind]. by apply Hs.
Qed.

Lemma stack_base undo doc : stack_undoes undo (length undo) doc doc.
Proof.
  intros d Hw Hd. destruct undo; simpl; [eauto|].
  rewrite (proj2 (Nat.ltb_ge _ _)) by lia. eauto.
Qed.

Lemma apply_loop_spec n p doc undo doc0 :
  value_wf doc = true -> patch_wf p = true -> patch_reversible p doc = true ->
  n <= length undo -> stack_undoes undo n doc doc0 ->
  exists doc' undo' res, apply_loop n doc p undo = Done (doc', undo', res) /\ value_wf doc' = true /\
    match res with
    | Ok _ => stack_undoes undo' n doc' doc0
    | Err _ => veq doc' doc0
    end.
Proof.
  revert doc undo. induction p as [|op p IH]; intros doc undo Hw Hp Hrev Hn Hs; cbn [apply_loop].
  { eauto 10. }
  simpl in Hp, Hrev. apply andb_true_iff in Hp as [Hop Hp], Hrev as [Hro Hrev].
  pose proof (apply_op_spec op doc Hw Hop Hro) as Ha.
  destruct (apply_op op doc) as [doc' [u|e]].
  - destruct Ha as [Hw' Hu]. apply IH; [done..|simpl; lia|]. by eapply stack_push.
  - subst doc'. destruct (Hs doc Hw (reflexivity _)) as (d' & rest & -> & Hwd & Hd). cbn. eauto 10.
Qed.

Lemma apply_op_unsafe op doc :
  match apply_op op doc, unsafe_op op doc with
  | (d, Ok _), (d', Ok _) => d = d'
  | (d, Err e), (d', Err e') => d = d' /\ e = e'
  | _, _ => False
  end.
Proof.
  destruct op; simpl; unfold replace, mov, copy;
    repeat (case_match; simplify_eq/=; try done).
Qed.

Lemma apply_loop_unsafe n p doc undo :
  match apply_loop n doc p undo, patch_unsafe doc p with
  | Done (d, _, Ok _), (d', Ok _) => d = d'
  | Done (_, _, Err e), (_, Err e') => e = e'
  | Panic, (_, Err _) => True
  | _, _ => False
  end.
Proof.
  revert doc undo. induction p as [|op p IH]; intros doc undo; simpl; [done|].
  pose proof (apply_op_unsafe op doc) as Ha.
  destruct (apply_op op doc) as [d [u|e]], (unsafe_op op doc) as [d' [u'|e']]; try done.
  - subst. apply IH.
  - destruct Ha as [-> ->]. by destruct (unwind undo n d') as [[? ?]|].
Qed.

(** A reversible patch is undone, by [patch] itself or by the [Undo]. *)
Lemma patch_undo_spec p doc :
  value_wf doc = true -> patch_wf p = true -> patch_reversible p doc = true ->
  exists doc' res, patch doc p = Done (doc', res) /\ value_wf doc' = true /\
    match res with
    | Err _ => veq doc' doc
    | Ok undo => exists d, Undo_apply undo doc' = Done d /\ value_wf d = true /\ veq d doc
    end.
Proof.
  intros Hw Hp Hrev.
  destruct (apply_loop_spec 0 p doc [] doc Hw Hp Hrev (le_n 0) (stack_base [] doc))
    as (doc' & undo & res & E & Hw' & Hres).
  unfold patch, apply_patches. simpl length. rewrite E. cbn [outcome_bind].
  eexists _, _. split; [done|]. split; [done|]. destruct res as [u|e]; [|done].
  destruct (Hres doc' Hw' (reflexivity _)) as (d & rest & Hd & Hwd & Hveq).
  unfold Undo_apply. rewrite Hd. simpl. eauto.
Qed.

(** [patch] and [patch_unsafe] succeed together. *)
Lemma patch_ok_iff doc p doc' :
  patch_unsafe doc p = (doc', Ok tt) <-> exists undo, patch doc p = Done (doc', Ok undo).
Proof.
  unfold patch, apply_patches. pose proof (apply_loop_unsafe (length (A:=UndoOperation) []) p doc []) as Hl.
  destruct (apply_loop _ doc p []) as [[[d u] [[]|e]]|], (patch_unsafe doc p) as [d' [[]|e']];
    try done; simpl in *; subst.
  - split; [intros [= <-]; eauto|by intros [? [= ->]]].
  - split; [done|by intros [? [=]]].
  - split; [done|by intros [? [=]]].
Qed.
End patch_lemmas.

(** ** Lemmas: merge *)

Section merge_lemmas.
Context `{JN : JNumber}.
Implicit Types (doc d v : Value) (m pm : InOMap str Value).

(** RFC 7396 key by key: [null] deletes, another value is merged into what the
    document has under the key, an absent key is left alone. *)
Definition merged_at (old : option Value) (change : option Value) : option Value :=
  match change with
  | None => old
  | Some v =>
      if Value_is_null v then None
      else match merge (from_option id Null old) v with Done x => Some x | Panic => None end
  end.

Definition merge_total (v : Value) : Prop :=
  forall doc, value_wf doc = true -> value_wf v = true ->
    exists d, merge doc v = Done d /\ value_wf d = true.

Lemma merge_entries_spec pm m :
  Forall (fun kv => merge_total kv.2) pm -> Forall (fun kv => value_wf kv.2 = true) pm ->
  InOMap_wf pm -> value_wf (Object m) = true ->
  exists m', merge_entries merge m pm = Done m' /\ value_wf (Object m') = true /\
    forall k, InOMap_get k m' = merged_at (InOMap_get k m) (InOMap_get k pm).
Proof.
  intros Htot Hwv. revert m. induction pm as [|[key v] pm IH]; intros m Hpm Hm; [by exists m|].
  inversion Htot as [|? ? Hv Htot']; inversion Hwv as [|? ? Hv' Hwv']; subst. simpl in Hv, Hv'.
  apply NoDup_cons in Hpm as [Hni Hpm]. fold (InOMap_keys pm) in Hni.
  assert (InOMap_get key pm = None) as Hkey by by apply get_None.
  assert (forall m1 new, value_wf (Object m1) = true ->
    new = merged_at (InOMap_get key m) (Some v) ->
    (forall k, InOMap_get k m1 = if decide (key = k) then new else InOMap_get k m) ->
    exists m', merge_entries merge m1 pm = Done m' /\ value_wf (Object m') = true /\
    forall k, InOMap_get k m' = merged_at (InOMap_get k m) (InOMap_get k ((key, v) :: pm))) as Hstep.
  { intros m1 new Hm1 -> Hg1. destruct (IH Htot' Hwv' m1 Hpm Hm1) as (m' & -> & Hm' & Hg').
    exists m'. split; [done|]. split; [done|]. intros k. rewrite Hg', Hg1. cbn [InOMap_get].
    case_decide; [subst; by rewrite Hkey|done]. }
  pose proof Hm as [Hwm Hmv]%wf_object. cbn [merge_entries].
  destruct (Value_is_null v) eqn:En.
  { apply (Hstep _ None); [by apply wf_object_remove|simpl; by rewrite En|].
    intros k. by apply get_remove. }
  destruct (or_insert_spec key m Null Hwm) as (slot & put & -> & Hslot & Hput & Hwput).
  cbn [outcome_bind]. destruct (Hv slot) as (d & Hd & Hwd); [|done|].
  { subst slot. destruct (InOMap_get key m) eqn:E; [by eapply wf_object_get|done]. }
  rewrite Hd. cbn [outcome_bind]. apply (Hstep _ (Some d)); [| |by intros k; rewrite Hput].
  - apply wf_object. split; [done|]. apply list.Forall_forall. intros [k w] Hin%elem_of_get; [|done].
    rewrite Hput in Hin. case_decide; [by simplify_eq|].
    exact (get_Forall (fun v => value_wf v = true) m k w Hmv Hin).
  - simpl. rewrite En. rewrite Hslot in Hd. by rewrite Hd.
Qed.

Definition object_of (doc : Value) : InOMap str Value :=
  match doc with Object m => m | _ => InOMap_new end.

Lemma object_of_wf doc : value_wf doc = true -> value_wf (Object (object_of doc)) = true.
Proof. by destruct doc. Qed.

Lemma merge_total_all v : merge_total v.
Proof.
  induction v as [| | | |l IH|pm IH] using Value_ind; intros doc Hd Hv; try (eexists; by split).
  apply wf_object in Hv as [Hpm Hvs]. simpl.
  destruct (merge_entries_spec pm (object_of doc) IH Hvs Hpm (object_of_wf doc Hd)) as (m' & E & Hw & _).
  unfold object_of in E. rewrite E. by eexists.
Qed.

Lemma merge_object doc pm : value_wf doc = true -> value_wf (Object pm) = true ->
  exists m', merge doc (Object pm) = Done (Object m') /\ value_wf (Object m') = true /\
    forall k, InOMap_get k m' = merged_at (InOMap_get k (object_of doc)) (InOMap_get k pm).
Proof.
  intros Hd [Hpm Hvs]%wf_object.
  assert (Forall (fun kv => merge_total kv.2) pm) as Ht.
  { apply list.Forall_forall. intros. apply merge_total_all. }
  destruct (merge_entries_spec pm (object_of doc) Ht Hvs Hpm (object_of_wf doc Hd)) as (m' & E & Hw & Hg).
  exists m'. simpl. unfold object_of in E at 1. by rewrite E.
Qed.

Lemma merge_twice v doc d1 d2 : value_wf doc = true -> value_wf v = true ->
  merge doc v = Done d1 -> merge d1 v = Done d2 -> veq d2 d1.
Proof.
  revert doc d1 d2. induction v as [| | | |l IH|pm IH] using Value_ind; intros doc d1 d2 Hd Hv;
    try by (intros [= <-] [= <-]).
  destruct (merge_object doc pm Hd Hv) as (m1 & -> & Hw1 & Hg1). intros [= <-].
  destruct (merge_object (Object m1) pm Hw1 Hv) as (m2 & -> & Hw2 & Hg2). intros [= <-].
  constructor. intros k. rewrite Hg2. simpl object_of. rewrite Hg1.
  destruct (InOMap_get k pm) as [v|] eqn:Ek; simpl.
  2:{ destruct (InOMap_get k (object_of doc)); by constructor. }
  destruct (Value_is_null v) eqn:En; [constructor|].
  assert (value_wf v = true) as Hwv by exact (wf_object_get _ _ _ Hv Ek).
  set (old := from_option id Null (InOMap_get k (object_of doc))).
  assert (value_wf old = true) as Hold.
  { unfold old. destruct (InOMap_get k (object_of doc)) eqn:E; [|done].
    exact (wf_object_get _ _ _ (object_of_wf doc Hd) E). }
  destruct (merge_total_all v old Hold Hwv) as (x & Hx & Hwx). rewrite Hx. simpl.
  destruct (merge_total_all v x Hwx Hwv) as (y & Hy & _). rewrite Hy. constructor.
  exact (get_Forall (fun v => forall doc d1 d2, value_wf doc = true -> value_wf v = true ->
    merge doc v = Done d1 -> merge d1 v = Done d2 -> veq d2 d1) pm k v IH Ek old x y Hold Hwv Hx Hy).
Qed.
End merge_lemmas.

(** ** Lemmas: operations away from a path *)

Section frame.
Context `{JN : JNumber}.
Implicit Types (doc d v x : Value) (path from ptr : list str) (m : InOMap str Value).

(** Every container [ptr] goes through is an object. *)
Fixpoint obj_path ptr doc : bool :=
  match ptr with
  | [] => true
  | seg :: r =>
      match doc with
      | Object m => match InOMap_get seg m with Some x => obj_path r x | None => true end
      | Array _ => false
      | _ => true
      end
  end.

(** [doc'] looks like [doc] from [ptr]. *)
Definition same_at ptr doc doc' : Prop :=
  ptr_get ptr doc' = ptr_get ptr doc /\ obj_path ptr doc' = true.

Lemma related_cons seg path ptr : related (seg :: path) (seg :: ptr) = related path ptr.
Proof.
  unfold related, path_starts_with. f_equal; apply bool_decide_ext; (split; [by intros ?%prefix_cons_inv_2|]);
    by apply prefix_cons.
Qed.

Lemma related_nil_l ptr : related [] ptr = true.
Proof. unfold related, path_starts_with. rewrite orb_true_iff, !bool_decide_eq_true. right. apply prefix_nil. Qed.

Lemma related_nil_r path : related path [] = true.
Proof. unfold related, path_starts_with. rewrite orb_true_iff, !bool_decide_eq_true. left. apply prefix_nil. Qed.

Lemma same_at_refl ptr doc : obj_path ptr doc = true -> same_at ptr doc doc.
Proof. by split. Qed.

Lemma same_at_object m m' seg ptr : InOMap_get seg m' = InOMap_get seg m ->
  obj_path (seg :: ptr) (Object m) = true -> same_at (seg :: ptr) (Object m) (Object m').
Proof. intros Hg Ho. unfold same_at. cbn in *. by rewrite Hg. Qed.

(** The shape of the three frame lemmas: below the divergence nothing changes. *)
Lemma same_at_step m m' seg ptr x x' :
  InOMap_get seg m = Some x -> InOMap_get seg m' = Some x' ->
  same_at ptr x x' -> same_at (seg :: ptr) (Object m) (Object m').
Proof. intros H1 H2 [Hs Ho]. unfold same_at. cbn. by rewrite H1, H2. Qed.

Lemma frame_insert path ptr doc v : value_wf doc = true -> obj_path ptr doc = true ->
  related path ptr = false -> same_at ptr doc (ptr_insert path doc v false).1.
Proof.
  revert path doc. induction ptr as [|k ptr IH]; intros path doc Hw Ho; [by rewrite related_nil_r|].
  destruct path as [|seg path]; [by rewrite related_nil_l|]. intros Hr. cbn [ptr_insert].
  destruct doc as [| | | |l|m]; try done. destruct (InOMap_get seg m) as [x|] eqn:Eg.
  - pose proof (get_mut_spec seg m) as Hs.
    destruct (InOMap_get_mut seg m) as [[y put]|] eqn:Em; [|congruence].
    destruct Hs as (Hy & Hput & _). rewrite Eg in Hy. injection Hy as <-.
    destruct (ptr_insert path x v false) as [x' res] eqn:E. simpl.
    destruct (decide (seg = k)) as [->|Hne].
    + rewrite related_cons in Hr. simpl in Ho. rewrite Eg in Ho.
      eapply same_at_step; [done|by rewrite Hput, decide_True|].
      specialize (IH path x). rewrite E in IH. apply IH; [exact (wf_object_get _ _ _ Hw Eg)|done..].
    + apply same_at_object; [|done]. by rewrite Hput, decide_False.
  - pose proof (proj2 (get_mut_None seg m) Eg) as Em. destruct path as [|n path]; [|rewrite Em; by apply same_at_refl].
    destruct (decide (seg = k)) as [->|Hne]; [by rewrite related_cons, related_nil_l in Hr|].
    apply same_at_object; [|done]. apply wf_object in Hw as [Hw _]. by rewrite get_insert, decide_False.
Qed.

Lemma frame_remove path ptr doc : value_wf doc = true -> obj_path ptr doc = true ->
  related path ptr = false -> same_at ptr doc (ptr_remove path doc false).1.
Proof.
  revert path doc. induction ptr as [|k ptr IH]; intros path doc Hw Ho; [by rewrite related_nil_r|].
  destruct path as [|seg path]; [by rewrite related_nil_l|]. intros Hr.
  destruct path as [|n path].
  - destruct doc as [| | | |l|m]; try done. cbn [ptr_remove].
    destruct (decide (seg = k)) as [->|Hne]; [by rewrite related_cons, related_nil_l in Hr|].
    pose proof (get_remove seg m k) as Hg. destruct (InOMap_remove seg m) as [m' o].
    apply same_at_object; [|done]. apply wf_object in Hw as [Hw _]. simpl in Hg.
    by rewrite Hg, decide_False.
  - rewrite ptr_remove_cons. destruct doc as [| | | |l|m]; try done.
    pose proof (get_mut_spec seg m) as Hs.
    destruct (InOMap_get_mut seg m) as [[x put]|] eqn:Em; [|by apply same_at_refl].
    destruct Hs as (Eg & Hput & _). destruct (ptr_remove (n :: path) x false) as [x' res] eqn:E. simpl.
    destruct (decide (seg = k)) as [->|Hne].
    + rewrite related_cons in Hr. simpl in Ho. rewrite Eg in Ho.
      eapply same_at_step; [done|by rewrite Hput, decide_True|].
      specialize (IH (n :: path) x). rewrite E in IH.
      apply IH; [exact (wf_object_get _ _ _ Hw Eg)|done..].
    + apply same_at_object; [|done]. by rewrite Hput, decide_False.
Qed.

Lemma frame_put path ptr doc x put v : obj_path ptr doc = true ->
  related path ptr = false -> ptr_get_mut path doc = Some (x, put) -> same_at ptr doc (put v).
Proof.
  revert path doc x put. induction ptr as [|k ptr IH]; intros path doc x put Ho;
    [by rewrite related_nil_r|].
  destruct path as [|seg path]; [by rewrite related_nil_l|]. intros Hr. cbn [ptr_get_mut].
  unfold child_mut. destruct doc as [| | | |l|m]; try done. simpl.
  pose proof (get_mut_spec seg m) as Hs.
  destruct (InOMap_get_mut seg m) as [[y q]|] eqn:Em; [|done]. simpl.
  destruct Hs as (Eg & Hput & _).
  destruct (ptr_get_mut path y) as [[z q']|] eqn:E; [|done]. simpl. intros [= <- <-].
  destruct (decide (seg = k)) as [->|Hne].
  - rewrite related_cons in Hr. simpl in Ho. rewrite Eg in Ho.
    eapply same_at_step; [done|by rewrite Hput, decide_True|]. by eapply IH.
  - apply same_at_object; [|done]. by rewrite Hput, decide_False.
Qed.

Lemma add_eq doc path v : (add doc path v).1 = (ptr_insert path doc v false).1.
Proof. unfold add. by destruct (ptr_insert path doc v false) as [? []]. Qed.

Lemma remove_eq doc path al : (remove doc path al).1 = (ptr_remove path doc al).1.
Proof. unfold remove. by destruct (ptr_remove path doc al) as [? []]. Qed.

Lemma same_at_trans ptr d1 d2 d3 : same_at ptr d1 d2 -> same_at ptr d2 d3 -> same_at ptr d1 d3.
Proof. intros [H1 _] [H2 H3]. split; [congruence|done]. Qed.

(** One operation: what it writes is well formed and [ptr] does not see it. *)
Lemma frame_op op ptr doc : value_wf doc = true -> op_wf op = true -> obj_path ptr doc = true ->
  op_affects_path op ptr = false ->
  value_wf (unsafe_op op doc).1 = true /\ same_at ptr doc (unsafe_op op doc).1.
Proof.
  intros Hw Hop Ho.
  assert (forall path v, value_wf v = true -> related path ptr = false ->
    value_wf (add doc path v).1 = true /\ same_at ptr doc (add doc path v).1) as Hadd.
  { intros path v Hv Hr. split; [|rewrite add_eq; by apply frame_insert].
    destruct (add doc path v) eqn:E. by eapply add_wf in E as [? _]. }
  destruct op as [path v|path|path v|from path|from path|path v]; simpl in *.
  - intros Hr. specialize (Hadd path v Hop Hr). by destruct (add doc path v) as [? []].
  - intros Hr. pose proof (frame_remove path ptr doc Hw Ho Hr) as Hf. rewrite <- remove_eq in Hf.
    destruct (remove doc path false) as [d r] eqn:E. apply removed_wf in E as [? _]; [|done].
    by destruct r.
  - intros Hr. unfold replace. destruct (ptr_get_mut path doc) as [[x put]|] eqn:Em; simpl.
    + split; [|by eapply frame_put]. apply ptr_get_mut_spec in Em as [[_ _ Hwf] _]. by apply Hwf.
    + specialize (Hadd path v Hop Hr). by destruct (add doc path v) as [? []].
  - intros [Hr1 Hr2]%orb_false_iff. unfold mov. destruct (path_eqb path from); [by split|].
    destruct (_ || _); [by split|].
    pose proof (frame_remove from ptr doc Hw Ho Hr2) as Hf. rewrite <- remove_eq in Hf.
    destruct (remove doc from false) as [d [val|e]] eqn:E; apply removed_wf in E as [Hwd Hval];
      try done. simpl in Hf. specialize (Hval val eq_refl).
    pose proof (frame_insert path ptr d val Hwd (proj2 Hf) Hr1) as Hf2. rewrite <- add_eq in Hf2.
    destruct (add d path val) as [d' r] eqn:E'. eapply add_wf in E' as [? _]; [|done..].
    simpl in Hf2. pose proof (same_at_trans _ _ _ _ Hf Hf2). by destruct r.
  - intros Hr. unfold copy. destruct (ptr_get from doc) as [src|] eqn:E; [|by split].
    specialize (Hadd path src (ptr_get_wf _ _ _ Hw E) Hr). by destruct (add doc path src) as [? []].
  - by split.
Qed.

Lemma frame_patch p ptr doc : value_wf doc = true -> patch_wf p = true -> obj_path ptr doc = true ->
  Patch_affects_path p ptr = false -> same_at ptr doc (patch_unsafe doc p).1.
Proof.
  revert doc. induction p as [|op p IH]; intros doc Hw Hp Ho; simpl; [by split|].
  simpl in Hp. apply andb_true_iff in Hp as [Hop Hp]. intros [Ha Hr]%orb_false_iff.
  destruct (frame_op op ptr doc Hw Hop Ho Ha) as [Hw' Hs].
  destruct (unsafe_op op doc) as [d [u|e]]; [|done]. simpl in *.
  eapply same_at_trans; [done|]. apply IH; [done|done|apply Hs|done].
Qed.

(** ** Lemmas: a patch under a prefix *)

Lemma ptr_get_mut_app ks qs doc x put : ptr_get_mut ks doc = Some (x, put) ->
  ptr_get_mut (ks ++ qs) doc = '(y, q) ← ptr_get_mut qs x; Some (y, fun z => put (q z)).
Proof.
  revert doc x put. induction ks as [|seg ks IH]; intros doc x put; cbn [ptr_get_mut app].
  { intros [= <- <-]. by destruct (ptr_get_mut qs doc) as [[? ?]|]. }
  destruct (child_mut doc seg) as [[w pt]|]; [|done]. cbn [mbind option_bind].
  destruct (ptr_get_mut ks w) as [[w' pt']|] eqn:Em; [|done]. cbn [mbind option_bind].
  intros [= <- <-]. rewrite (IH _ _ _ Em). by destruct (ptr_get_mut qs w') as [[? ?]|].
Qed.

Lemma prefix_shift ptr a b : path_starts_with (ptr ++ a) (ptr ++ b) = path_starts_with a b.
Proof.
  unfold path_starts_with. apply bool_decide_ext. split; [by intros ?%prefix_app_inv|]. by apply prefix_app.
Qed.

Lemma path_eqb_shift ptr a b : path_eqb (ptr ++ a) (ptr ++ b) = path_eqb a b.
Proof. unfold path_eqb. apply bool_decide_ext. split; [by intros ?%app_inv_head|by intros ->]. Qed.

(** The operations that act strictly below the root; [replace] and [test] may
    address the root itself. *)
Definition op_below (op : PatchOperation) : bool :=
  match op with
  | Add path _ | Remove path | Copy _ path | Move _ path => negb (bool_decide (path = []))
  | Replace _ _ | Test _ _ => true
  end.

Section prepend.
Context (ptr : list str) (doc x : Value) (put : Value -> Value).
Hypothesis Hm : ptr_get_mut ptr doc = Some (x, put).

Lemma ptr_get_prepend path : ptr_get (ptr ++ path) doc = ptr_get path x.
Proof. rewrite ptr_get_app. pose proof (get_mut_get ptr doc) as Hg. rewrite Hm in Hg. by rewrite Hg. Qed.

Lemma add_prepend path v : path ≠ [] ->
  add doc (ptr ++ path) v = (put (add x path v).1, (add x path v).2).
Proof.
  intros Hp. unfold add. rewrite (insert_lift ptr path doc x put v false Hp Hm).
  by destruct (ptr_insert path x v false) as [? []].
Qed.

Lemma remove_prepend path al : path ≠ [] ->
  remove doc (ptr ++ path) al = (put (remove x path al).1, (remove x path al).2).
Proof.
  intros Hp. unfold remove. rewrite (remove_lift ptr path doc x put al Hp Hm).
  by destruct (ptr_remove path x al) as [? []].
Qed.

Lemma replace_prepend path v :
  replace doc (ptr ++ path) v = (put (replace x path v).1, (replace x path v).2).
Proof.
  unfold replace. rewrite (ptr_get_mut_app _ _ _ _ _ Hm).
  destruct (ptr_get_mut path x) as [[y q]|] eqn:E; [done|]. simpl.
  destruct path as [|seg path]; [done|]. rewrite add_prepend by done.
  by destruct (add x (seg :: path) v) as [? []].
Qed.
End prepend.

Lemma unsafe_op_prepend ptr doc x put op : ptr_get_mut ptr doc = Some (x, put) -> op_below op = true ->
  unsafe_op (op_prepend ptr op) doc = (put (unsafe_op op x).1, (unsafe_op op x).2).
Proof.
  intros Hm Hb. assert (put x = doc) as Hid by by apply ptr_get_mut_spec in Hm as [[]].
  destruct op as [path v|path|path v|from path|from path|path v]; simpl in *; bool_to_prop.
  - rewrite (add_prepend _ _ _ _ Hm) by done. by destruct (add x path v) as [? []].
  - rewrite (remove_prepend _ _ _ _ Hm) by done. by destruct (remove x path false) as [? []].
  - rewrite (replace_prepend _ _ _ _ Hm). by destruct (replace x path v) as [? []].
  - unfold mov. rewrite path_eqb_shift, prefix_shift. destruct (path_eqb path from); [simpl; by rewrite Hid|].
    destruct (path_starts_with path from) eqn:Es; [simpl; by rewrite Hid|]. simpl.
    assert (from ≠ []) as Hf.
    { intros ->. unfold path_starts_with in Es. bool_to_prop. apply Es, prefix_nil. }
    rewrite !bool_decide_false by (try done; by intros [_ ?]%app_nil).
    rewrite (remove_prepend _ _ _ _ Hm) by done.
    destruct (remove x from false) as [x' [val|e]]; [|done]. simpl.
    destruct (proj2 (ptr_get_mut_spec _ _ _ _ Hm) x') as (put' & Hm' & Hput).
    rewrite (add_prepend _ _ _ _ Hm') by done. rewrite Hput. by destruct (add x' path val) as [? []].
  - unfold copy. rewrite (ptr_get_prepend _ _ _ _ Hm). destruct (ptr_get from x) as [src|]; [|simpl; by rewrite Hid].
    rewrite (add_prepend _ _ _ _ Hm) by done. by destruct (add x path src) as [? []].
  - unfold test. rewrite (ptr_get_prepend _ _ _ _ Hm), Hid. done.
Qed.

Lemma patch_unsafe_prepend ptr doc x put p : ptr_get_mut ptr doc = Some (x, put) ->
  forallb op_below p = true ->
  patch_unsafe doc (Patch_prepend ptr p) = (put (patch_unsafe x p).1, (patch_unsafe x p).2).
Proof.
  revert doc x put. induction p as [|op p IH]; intros doc x put Hm Hb; simpl.
  { by apply ptr_get_mut_spec in Hm as [[-> _ _]]. }
  simpl in Hb. apply andb_true_iff in Hb as [Hop Hb].
  rewrite (unsafe_op_prepend _ _ _ _ _ Hm Hop).
  destruct (unsafe_op op x) as [x' [u|e]]; [|done]. simpl.
  destruct (proj2 (ptr_get_mut_spec _ _ _ _ Hm) x') as (put' & Hm' & Hput).
  fold (Patch_prepend ptr p). rewrite (IH _ _ _ Hm' Hb). by rewrite Hput.
Qed.
End frame.

(** ** Properties *)

Section properties.
Context `{JN : JNumber}.
Implicit Types (doc d v x : Value) (path from ptr : list str) (p : Patch) (m : InOMap str Value).

(** C18: [patch] never panics on a reversible patch; when it fails the document is
    left equal to the original, and when it succeeds the [Undo] it returns
    takes the patched document back to it. *)
Theorem patch_atomic p doc :
  value_wf doc = true -> patch_wf p = true -> patch_reversible p doc = true ->
  exists doc' res, patch doc p = Done (doc', res) /\ value_wf doc' = true /\
    match res with
    | Err _ => veq doc' doc
    | Ok undo => exists d, Undo_apply undo doc' = Done d /\ veq d doc
    end.
Proof.
  intros Hw Hp Hrev. destruct (patch_undo_spec p doc Hw Hp Hrev) as (doc' & res & E & Hw' & Hres).
  exists doc', res. split; [done|]. split; [done|]. destruct res; [|done].
  destruct Hres as (d & ? & _ & ?). eauto.
Qed.

(** [patch] and [patch_unsafe] succeed on the same inputs with the same
    document, and fail with the same error. *)
Theorem patch_unsafe_equiv p doc :
  (forall doc', patch_unsafe doc p = (doc', Ok tt) <-> exists undo, patch doc p = Done (doc', Ok undo))
  /\ (forall doc' e, patch doc p = Done (doc', Err e) -> (patch_unsafe doc p).2 = Err e)
  /\ (patch doc p = Panic -> is_ok (patch_unsafe doc p).2 = false).
Proof.
  split; [intros doc'; apply patch_ok_iff|].
  unfold patch, apply_patches. pose proof (apply_loop_unsafe (length (A:=UndoOperation) []) p doc []) as Hl.
  by destruct (apply_loop _ doc p []) as [[[d u] [[]|e]]|], (patch_unsafe doc p) as [d' [[]|e']];
    simpl in *; subst; split; intros; simplify_eq.
Qed.

(** C31: a patch for which [affects_path] answers [false] leaves the value
    at the path as it is, when the path leads through objects only. *)
Theorem affects_path_sound p ptr doc :
  value_wf doc = true -> patch_wf p = true -> obj_path ptr doc = true ->
  Patch_affects_path p ptr = false ->
  ptr_get ptr (patch_unsafe doc p).1 = ptr_get ptr doc.
Proof. intros. by apply frame_patch. Qed.

(** A patch made for a member of a document and prepended with the
    member's path changes that member as the patch does and nothing else. *)
Theorem prepend_localises p ptr doc x put :
  ptr_get_mut ptr doc = Some (x, put) -> forallb op_below p = true ->
  patch_unsafe doc (Patch_prepend ptr p) = (put (patch_unsafe x p).1, (patch_unsafe x p).2)
  /\ ptr_get ptr (patch_unsafe doc (Patch_prepend ptr p)).1 = Some (patch_unsafe x p).1.
Proof.
  intros Hm Hb. rewrite (patch_unsafe_prepend _ _ _ _ _ Hm Hb). split; [done|].
  by apply (ptr_get_put _ _ _ _ _ Hm).
Qed.

(** C32: [merge] terminates without panicking and implements JSON Merge Patch: a
    patch that is no object replaces the document; an object is merged key by
    key, [null] deleting; merging the same patch again changes nothing. *)
Theorem merge_rfc7396 doc (p : Value) : value_wf doc = true -> value_wf p = true ->
  exists d, merge doc p = Done d /\ value_wf d = true
  /\ match p with
     | Object pm => exists m', d = Object m' /\
         forall k, InOMap_get k m' = merged_at (InOMap_get k (object_of doc)) (InOMap_get k pm)
     | _ => d = p
     end
  /\ exists d', merge d p = Done d' /\ veq d' d.
Proof.
  intros Hd Hp. destruct (merge_total_all p doc Hd Hp) as (d & E & Hwd). exists d.
  split; [done|]. split; [done|]. split.
  - destruct p as [| | | | |pm]; try (simpl in E; congruence).
    destruct (merge_object doc pm Hd Hp) as (m' & E' & _ & Hg). rewrite E in E'.
    injection E' as ->. eauto.
  - destruct (merge_total_all p d Hwd Hp) as (d' & E' & _). exists d'. split; [done|].
    exact (merge_twice p doc d d' Hd Hp E E').
Qed.

(** A [move] whose source exists but whose target's parent does not
    fails after removing the source: [patch] reports the error and the value is
    gone, although a failed patch is documented to be reverted. *)
Theorem failed_move_not_reverted m k v k1 k2 : InOMap_wf m ->
  InOMap_get k m = Some v -> InOMap_get k1 m = None ->
  patch (Object m) [Move [k] [k1; k2]] = Done (Object (InOMap_remove k m).1, Err InvalidPointer)
  /\ ptr_get [k] (Object m) = Some v
  /\ ptr_get [k] (Object (InOMap_remove k m).1) = None.
Proof.
  intros Hw Hk Hk1. assert (k ≠ k1) as Hne by congruence. split_and!.
  - unfold patch, apply_patches. cbn [length apply_loop apply_op]. unfold mov, path_eqb, path_starts_with.
    rewrite !bool_decide_false; try done; [|by intros ?%prefix_cons_inv_1]. simpl orb. cbn iota.
    unfold remove. cbn [ptr_remove]. pose proof (remove_prev k m) as Hp.
    pose proof (get_remove k m k1 Hw) as Hg. rewrite decide_False, Hk1 in Hg by done.
    destruct (InOMap_remove k m) as [m' o]. simpl in Hp, Hg. subst o. rewrite Hk.
    unfold add. cbn [ptr_insert]. by rewrite Hg, (proj2 (get_mut_None k1 m') Hg).
  - unfold ptr_get, child. simpl. by rewrite Hk.
  - unfold ptr_get, child. simpl. by rewrite get_remove, decide_True.
Qed.

(** The [Undo] of a [replace] that created its key does not delete the
    key again: it leaves [null] under it. *)
Theorem undo_replace_missing m k v : InOMap_wf m -> InOMap_get k m = None ->
  exists doc' undo, patch (Object m) [Replace [k] v] = Done (doc', Ok undo)
    /\ Undo_apply undo doc' = Done (Object (m ++ [(k, Null)]))
    /\ ptr_get [k] (Object m) = None.
Proof.
  intros Hw Hk. exists (Object (m ++ [(k, v)])), [UndoReplace [k] Null].
  assert (k ∉ InOMap_keys m) as Hni by by apply get_None.
  destruct (get_mut_split k m [] v Hni) as (put & Hp & Hput). split_and!.
  - unfold patch, apply_patches. cbn [length apply_loop apply_op]. unfold replace. cbn [ptr_get_mut].
    unfold child_mut. simpl Value_is_array. cbn iota. cbn [str_index_into_mut].
    rewrite (proj2 (get_mut_None k m) Hk). simpl. unfold add. cbn [ptr_insert].
    by rewrite Hk, insert_notin.
  - unfold Undo_apply. cbn [unwind length]. simpl Nat.ltb. cbn iota. cbn [run_undo]. unfold replace.
    cbn [ptr_get_mut]. unfold child_mut. simpl Value_is_array. cbn iota. cbn [str_index_into_mut].
    rewrite Hp. simpl. by rewrite Hput.
  - unfold ptr_get, child. simpl. by rewrite Hk.
Qed.
End properties.

(** ** Witnesses *)

Module JsonPatchExamples.
#[local] Existing Instance ZNumber.

Definition doc0 : Value :=
  Object [($"a", Array [Num 1%Z; Num 2%Z]); ($"b", Object [($"c", Str $"x")])].

(** Five operations of which the last fails. *)
Definition failing : Patch :=
  [Add [$"a"; $"-"] Null; Remove [$"b"; $"c"]; Replace [$"a"; $"0"] (Num 7%Z);
   Move [$"a"; $"1"] [$"b"; $"d"]; Test [$"a"; $"0"] (Num 1%Z)].

Lemma patch_atomic_witness :
  exists d, patch doc0 failing = Done (d, Err TestFailed) /\ veq d doc0.
Proof.
  destruct (patch_atomic failing doc0 eq_refl eq_refl eq_refl) as (d & res & E & _ & Hres).
  exists d. assert (res = Err TestFailed) as ->; [|by split].
  assert (exists d', patch doc0 failing = Done (d', Err TestFailed)) as [d' E'] by (eexists; by vm_compute).
  congruence.
Defined.

Lemma affects_path_sound_witness :
  ptr_get [$"b"; $"c"] (patch_unsafe doc0 [Remove [$"a"; $"0"]; Add [$"b"; $"d"] Null]).1
  = Some (Str $"x").
Proof.
  by rewrite (affects_path_sound [Remove [$"a"; $"0"]; Add [$"b"; $"d"] Null] [$"b"; $"c"] doc0).
Defined.

Lemma prepend_localises_witness :
  ptr_get [$"b"] (patch_unsafe doc0 (Patch_prepend [$"b"] [Remove [$"c"]])).1 = Some (Object []).
Proof.
  destruct (ptr_get_mut_Some [$"b"] doc0 (Object [($"c", Str $"x")]) eq_refl) as [put Hput].
  exact (proj2 (prepend_localises [Remove [$"c"]] [$"b"] doc0 _ put Hput eq_refl)).
Defined.

Lemma merge_rfc7396_witness :
  exists d, merge doc0 (Object [($"a", Null); ($"b", Object [($"d", Bool true)])]) = Done d
    /\ value_wf d = true.
Proof.
  destruct (merge_rfc7396 doc0 (Object [($"a", Null); ($"b", Object [($"d", Bool true)])]))
    as (d & E & Hw & _); [done|done|]. by exists d.
Defined.

Lemma failed_move_not_reverted_witness :
  patch (Object [($"a", Null)]) [Move [$"a"] [$"x"; $"y"]] = Done (Object [], Err InvalidPointer).
Proof.
  apply (failed_move_not_reverted [($"a", Null)] $"a" Null $"x" $"y"); [|done|done].
  apply NoDup_cons. split; [apply not_elem_of_nil|apply NoDup_nil_2].
Defined.

Lemma undo_replace_missing_witness :
  exists doc' undo, patch (Object []) [Replace [$"k"] (Bool true)] = Done (doc', Ok undo)
    /\ Undo_apply undo doc' = Done (Object [($"k", Null)])
    /\ ptr_get [$"k"] (Object []) = None.
Proof. apply (undo_replace_missing [] $"k" (Bool true)); [apply NoDup_nil_2|done]. Defined.

(** Removing an array element moves the later ones, which
    [affects_path] does not see: it answers [false] for the next index although
    the value there changes. *)
Theorem affects_path_misses_shift :
  let p := [Remove [$"a"; $"0"]] in
  Patch_affects_path p [$"a"; $"1"] = false
  /\ ptr_get [$"a"; $"1"] doc0 = Some (Num 2%Z)
  /\ ptr_get [$"a"; $"1"] (patch_unsafe doc0 p).1 = None.
Proof. by vm_compute. Qed.

(** The [Undo] of a successful [move] into the parent of its
    source panics. *)
Theorem undo_move_to_ancestor_panics :
  let doc := Object [($"p", Object [($"q", Null)])] in
  exists doc' undo, patch doc [Move [$"p"; $"q"] [$"p"]] = Done (doc', Ok undo)
    /\ Undo_apply undo doc' = Panic.
Proof.
  exists (Object [($"p", Null)]), [UndoMove [$"p"; $"q"] [$"p"] (Some (Object []))].
  split; by vm_compute.
Qed.
End JsonPatchExamples.
