(* ===== verification/JsonDiff.v ===== *)
(** * Diffing JSON documents

    [shared-libs/crates/patch-db/json-patch/src/diff.rs].  The [PatchDiffer]
    keeps the path of the value being compared and the operations found so far.

    The code skips what is shared in memory ([ptr_eq]).  Whether two parts of
    the documents are one allocation depends on how they were built, so it is a
    parameter, [same from_loc to_loc], indexed by the location of the part in
    each document; the theorems assume what [Vector::ptr_eq] and [Arc::ptr_eq]
    document: parts that share memory have equal contents.  A recursive call
    sees the parameter relative to its two parts.

    The loops over [f_idx] and [t_idx] recurse on what is left of the two
    vectors.  [diff_mut] recurses on the fuel; a value's depth suffices. *)
From S2P Require Import Prelude RustStr BTree InOrderMap JsonValue PtrDoc JsonPatch.

Section JsonDiff.
Context `{JN : JNumber}.

Abbreviation oracle := (list str -> list str -> bool).

Record PatchDiffer : Type := mkDiffer { differ_path : list str; differ_patch : Patch }.

Definition PatchDiffer_new : PatchDiffer := mkDiffer [] [].

Definition push_op (d : PatchDiffer) (op : PatchOperation) : PatchDiffer :=
  mkDiffer (differ_path d) (differ_patch d ++ [op]).
Definition push_end (d : PatchDiffer) (k : str) : PatchDiffer :=
  mkDiffer (differ_path d ++ [k]) (differ_patch d).
Definition pop_end (d : PatchDiffer) : PatchDiffer :=
  mkDiffer (take (length (differ_path d) - 1) (differ_path d)) (differ_patch d).

(** The sharing parameter seen from the parts at [a] and [b]. *)
Definition at_loc (same : oracle) (a b : str) : oracle := fun x y => same (a :: x) (b :: y).

Section loops.
Variable rec : oracle -> PatchDiffer -> Value -> Value -> PatchDiffer.
Variable same : oracle.

Definition diff_key (f t : InOMap str Value) (d : PatchDiffer) (key : str) : PatchDiffer :=
  let d := push_end d key in
  let d :=
    match InOMap_get key f, InOMap_get key t with
    | Some x, Some y => if negb (Value_eqb x y) then rec (at_loc same key key) d x y else d
    | Some _, None => push_op d (Remove (differ_path d))
    | None, Some y => push_op d (Add (differ_path d) y)
    | None, None => d
    end in
  pop_end d.

(** [f[f_idx].ptr_eq(&t[t_idx])] *)
Definition elem_ptr_eq (f_idx t_idx : N) (x y : Value) : bool :=
  Value_ptr_eq (same [show_N f_idx] [show_N t_idx]) x y.

(** [t.iter().skip(t_idx).any(|t| f[f_idx].ptr_eq(t))] *)
Fixpoint any_in_to (f_idx t_idx : N) (x : Value) (ts : list Value) : bool :=
  match ts with
  | [] => false
  | y :: r => elem_ptr_eq f_idx t_idx x y || any_in_to f_idx (t_idx + 1) x r
  end.

(** [f.iter().skip(f_idx).any(|f| t[t_idx].ptr_eq(f))] *)
Fixpoint any_in_from (f_idx t_idx : N) (y : Value) (fs : list Value) : bool :=
  match fs with
  | [] => false
  | x :: r =>
      Value_ptr_eq (same [show_N f_idx] [show_N t_idx]) y x || any_in_from (f_idx + 1) t_idx y r
  end.

Definition diff_elem (f_idx t_idx : N) (d : PatchDiffer) (x y : Value) : PatchDiffer :=
  pop_end (rec (at_loc same (show_N f_idx) (show_N t_idx)) (push_end d (show_N t_idx)) x y).

(** [differ.path.clone().join_end_idx(t_idx)] *)
Definition join_end_idx (d : PatchDiffer) (i : N) : list str := differ_path d ++ [show_N i].

(** [while f_idx < f.len()] after the first loop of the growing case. *)
Fixpoint remove_rest (t_idx : N) (fs : list Value) (d : PatchDiffer) : PatchDiffer :=
  match fs with
  | [] => d
  | _ :: fs' => remove_rest t_idx fs' (push_op d (Remove (join_end_idx d t_idx)))
  end.

(** [while t_idx < t.len()] after the first loop of the shrinking case. *)
Fixpoint add_rest (t_idx : N) (ts : list Value) (d : PatchDiffer) : PatchDiffer :=
  match ts with
  | [] => d
  | y :: ts' => add_rest (t_idx + 1) ts' (push_op d (Add (join_end_idx d t_idx) y))
  end.

(** [f.len() < t.len()] *)
Fixpoint diff_grow (f_idx t_idx : N) (fs ts : list Value) (d : PatchDiffer) : PatchDiffer :=
  match ts with
  | [] => remove_rest t_idx fs d
  | y :: ts' =>
      match fs with
      | [] => diff_grow f_idx (t_idx + 1) [] ts' (push_op d (Add (join_end_idx d t_idx) y))
      | x :: fs' =>
          if negb (elem_ptr_eq f_idx t_idx x y) then
            if any_in_to f_idx (t_idx + 1) x ts' then
              diff_grow f_idx (t_idx + 1) fs ts' (push_op d (Add (join_end_idx d t_idx) y))
            else diff_grow (f_idx + 1) (t_idx + 1) fs' ts' (diff_elem f_idx t_idx d x y)
          else diff_grow (f_idx + 1) (t_idx + 1) fs' ts' d
      end
  end.

(** [f.len() > t.len()] *)
Fixpoint diff_shrink (f_idx t_idx : N) (fs ts : list Value) (d : PatchDiffer) : PatchDiffer :=
  match fs with
  | [] => add_rest t_idx ts d
  | x :: fs' =>
      match ts with
      | [] => diff_shrink (f_idx + 1) t_idx fs' [] (push_op d (Remove (join_end_idx d t_idx)))
      | y :: ts' =>
          if negb (elem_ptr_eq f_idx t_idx x y) then
            if any_in_from (f_idx + 1) t_idx y fs' then
              diff_shrink (f_idx + 1) t_idx fs' ts (push_op d (Remove (join_end_idx d t_idx)))
            else diff_shrink (f_idx + 1) (t_idx + 1) fs' ts' (diff_elem f_idx t_idx d x y)
          else diff_shrink (f_idx + 1) (t_idx + 1) fs' ts' d
      end
  end.

(** [for i in 0..f.len()] *)
Fixpoint diff_equal (i : N) (fs ts : list Value) (d : PatchDiffer) : PatchDiffer :=
  match fs, ts with
  | x :: fs', y :: ts' =>
      diff_equal (i + 1) fs' ts'
        (if negb (elem_ptr_eq i i x y) then diff_elem i i d x y else d)
  | _, _ => d
  end.
End loops.

(** The arm [(f, t) if f != t]. *)
Definition diff_other (d : PatchDiffer) (from to : Value) : PatchDiffer :=
  if negb (Value_eqb from to) then push_op d (Replace (differ_path d) to) else d.

Fixpoint diff_mut (fuel : nat) (same : oracle) (d : PatchDiffer) (from to : Value) : PatchDiffer :=
  match fuel with
  | 0 => d
  | S fuel =>
      match from, to with
      | Object f, Object t =>
          if negb (same [] []) then
            fold_left (diff_key (diff_mut fuel) same f t)
              (BTreeSet_collect str_cmp (InOMap_keys f ++ InOMap_keys t)) d
          else diff_other d from to
      | Array f, Array t =>
          if negb (same [] []) then
            if (vec_len f <? vec_len t)%N then diff_grow (diff_mut fuel) same 0 0 f t d
            else if (vec_len t <? vec_len f)%N then diff_shrink (diff_mut fuel) same 0 0 f t d
            else diff_equal (diff_mut fuel) same 0 f t d
          else diff_other d from to
      | _, _ => diff_other d from to
      end
  end.

(** One level of fuel per level of [from]. *)
Definition diff (same : oracle) (from to : Value) : Patch :=
  differ_patch (diff_mut (S (value_depth from)) same PatchDiffer_new from to).
End JsonDiff.

(** ** Lemmas: running the operations a diff consists of *)

Section runs.
Context `{JN : JNumber}.
Implicit Types (doc d v x y : Value) (path ptr : list str) (p q : Patch).

Inductive runs : Patch -> Value -> Value -> Prop :=
| runs_nil d : runs [] d d
| runs_add path v p d d1 d2 prev : path ≠ [] -> value_wf v = true ->
    add d path v = (d1, Ok prev) -> runs p d1 d2 -> runs (Add path v :: p) d d2
| runs_remove path p d d1 d2 old : path ≠ [] ->
    remove d path false = (d1, Ok old) -> runs p d1 d2 -> runs (Remove path :: p) d d2
| runs_replace path v p d d2 old put : value_wf v = true ->
    ptr_get_mut path d = Some (old, put) -> runs p (put v) d2 -> runs (Replace path v :: p) d d2.

Lemma runs_unsafe p d d' : runs p d d' -> patch_unsafe d p = (d', Ok tt).
Proof.
  induction 1 as [|? ? ? ? ? ? ? ? ? E _ IH|? ? ? ? ? ? ? E _ IH|? ? ? ? ? ? ? ? E _ IH]; simpl; [done|..].
  - by rewrite E.
  - by rewrite E.
  - unfold replace. by rewrite E.
Qed.

Lemma runs_reversible p d d' : runs p d d' -> patch_reversible p d = true.
Proof.
  induction 1 as [|? ? ? ? ? ? ? ? ? E _ IH|? ? ? ? ? ? ? E _ IH|? ? ? ? ? ? put ? E _ IH]; simpl; [done|..].
  - by rewrite E.
  - by rewrite E.
  - unfold replace. pose proof (get_mut_get path d) as Hg. rewrite E in Hg. by rewrite E, Hg.
Qed.

Lemma runs_patch_wf p d d' : runs p d d' -> patch_wf p = true.
Proof. induction 1; simpl; try done; by apply andb_true_iff. Qed.

Lemma runs_below p d d' : runs p d d' -> forallb op_below p = true.
Proof.
  induction 1; simpl; rewrite ?andb_true_iff, ?negb_true_iff; try done; by rewrite bool_decide_false.
Qed.

Lemma runs_wf p d d' : runs p d d' -> value_wf d = true -> value_wf d' = true.
Proof.
  induction 1 as [|? ? ? ? ? ? ? ? ? E _ IH|? ? ? ? ? ? ? E _ IH|? ? ? ? ? ? ? ? E _ IH];
    intros Hd; [done|apply IH..].
  - by eapply add_wf in E as [].
  - by eapply removed_wf in E as [].
  - apply ptr_get_mut_spec in E as [[_ _ Hwf] _]. by apply Hwf.
Qed.

Lemma runs_app p q d d1 d2 : runs p d d1 -> runs q d1 d2 -> runs (p ++ q) d d2.
Proof. induction 1; intros Hq; simpl; [done|econstructor; eauto..]. Qed.

Lemma runs_add1 path v d d1 prev : path ≠ [] -> value_wf v = true ->
  add d path v = (d1, Ok prev) -> runs [Add path v] d d1.
Proof. intros. econstructor; eauto. constructor. Qed.

Lemma runs_remove1 path d d1 old : path ≠ [] -> remove d path false = (d1, Ok old) -> runs [Remove path] d d1.
Proof. intros. econstructor; eauto. constructor. Qed.

Lemma runs_prepend ptr p doc x put x' : ptr_get_mut ptr doc = Some (x, put) ->
  runs p x x' -> runs (Patch_prepend ptr p) doc (put x').
Proof.
  intros Hm Hr. revert doc put Hm.
  assert (forall path, path ≠ [] -> ptr ++ path ≠ []) as Hne by (intros ? ? [_ ?]%app_nil; done).
  induction Hr as [x|path v p x x1 x2 prev Hp Hv E _ IH|path p x x1 x2 old Hp E _ IH
    |path v p x x2 old q Hv E _ IH]; intros doc put Hm; simpl.
  - apply ptr_get_mut_spec in Hm as [[-> _ _] _]. constructor.
  - pose proof (add_prepend ptr doc x put Hm path v Hp) as Ha. rewrite E in Ha.
    destruct (proj2 (ptr_get_mut_spec _ _ _ _ Hm) x1) as (put' & Hm' & Hput).
    rewrite <- Hput. eapply runs_add; eauto.
  - pose proof (remove_prepend ptr doc x put Hm path false Hp) as Ha. rewrite E in Ha.
    destruct (proj2 (ptr_get_mut_spec _ _ _ _ Hm) x1) as (put' & Hm' & Hput).
    rewrite <- Hput. eapply runs_remove; eauto.
  - destruct (proj2 (ptr_get_mut_spec _ _ _ _ Hm) (q v)) as (put' & Hm' & Hput).
    rewrite <- Hput. apply (runs_replace (ptr ++ path) v _ doc _ old (fun z => put (q z)));
      [done| |by apply IH]. by rewrite (ptr_get_mut_app _ _ _ _ _ Hm), E.
Qed.
End runs.

(** ** Lemmas: array elements *)

Section elements.
Context `{JN : JNumber}.
Implicit Types (doc d v x y : Value) (pre post l : list Value) (i : N).

Lemma parse_idx_show i : (i < usize_mod)%N -> parse_idx (show_N i) = Ok i.
Proof.
  intros Hi. unfold parse_idx. rewrite (parse_usize_show i Hi).
  destruct (show_N_head i) as [[_ ->]|(c & s & -> & Hc)]; [done|].
  destruct s; [done|]. by rewrite (proj2 (N.eqb_neq c 48) Hc).
Qed.

Lemma vec_get_middle pre x post : vec_get (pre ++ x :: post) (vec_len pre) = Some x.
Proof. rewrite vec_get_Some. unfold vec_len. rewrite Nat2N.id. by apply list_lookup_middle. Qed.

Lemma ptr_get_elem pre x post r : (vec_len pre < usize_mod)%N ->
  ptr_get (show_N (vec_len pre) :: r) (Array (pre ++ x :: post)) = ptr_get r x.
Proof.
  intros Hi. cbn [ptr_get]. unfold child. simpl. rewrite parse_idx_show by done. simpl.
  by rewrite vec_get_middle.
Qed.

Lemma get_mut_elem pre x post : (vec_len pre < usize_mod)%N ->
  exists put, ptr_get_mut [show_N (vec_len pre)] (Array (pre ++ x :: post)) = Some (x, put)
    /\ forall y, put y = Array (pre ++ y :: post).
Proof.
  intros Hi. cbn [ptr_get_mut]. unfold child_mut. simpl. rewrite parse_idx_show by done. simpl.
  rewrite vec_get_middle. simpl. eexists. split; [done|]. intros y. simpl. f_equal.
  rewrite vec_set_eq. unfold vec_len. rewrite Nat2N.id.
  by rewrite insert_app_r_alt, Nat.sub_diag by lia.
Qed.

Lemma add_elem pre post y : (vec_len pre < usize_mod)%N ->
  add (Array (pre ++ post)) [show_N (vec_len pre)] y = (Array (pre ++ y :: post), Ok None).
Proof.
  intros Hi. unfold add. cbn [ptr_insert]. unfold insert_idx.
  rewrite (parse_idx_not_dash _ (vec_len pre)) by (by rewrite parse_idx_show).
  rewrite parse_idx_show by done.
  assert (vec_len pre <= vec_len (pre ++ post))%N as Hle by (unfold vec_len; rewrite length_app; lia).
  rewrite (proj2 (N.leb_le _ _) Hle), vec_insert_eq by done. unfold vec_len. rewrite Nat2N.id.
  by rewrite take_app_length, drop_app_length.
Qed.

Lemma remove_elem pre x post : (vec_len pre < usize_mod)%N ->
  remove (Array (pre ++ x :: post)) [show_N (vec_len pre)] false = (Array (pre ++ post), Ok x).
Proof.
  intros Hi. unfold remove. cbn [ptr_remove].
  rewrite (remove_idx_parse _ _ (vec_len pre)) by (by rewrite parse_idx_show).
  assert (vec_len pre < vec_len (pre ++ x :: post))%N as Hlt
    by (unfold vec_len; rewrite length_app; simpl; lia).
  rewrite (proj2 (N.ltb_lt _ _) Hlt), vec_get_middle, vec_remove_eq by done.
  unfold vec_len. rewrite Nat2N.id, take_app_length. do 3 f_equal.
  rewrite (cons_middle x pre post), app_assoc.
  by rewrite drop_app_length' by (rewrite length_app; simpl; lia).
Qed.
End elements.

(** Parts that share memory have equal contents. *)
Definition sound `{JN : JNumber} (same : list str -> list str -> bool) (f t : Value) : Prop :=
  forall a b x y, same a b = true -> ptr_get a f = Some x -> ptr_get b t = Some y -> x = y.

(** What the loops rely on in [diff_mut]: run on [x], the operations it appends
    (under the current path) give [y]. *)
Definition diffs `{JN : JNumber}
    (rec : (list str -> list str -> bool) -> PatchDiffer -> Value -> Value -> PatchDiffer)
    (same : list str -> list str -> bool) (x y : Value) : Prop :=
  forall path acc, exists ops x',
    rec same (mkDiffer path acc) x y = mkDiffer path (acc ++ Patch_prepend path ops)
    /\ runs ops x x' /\ veq x' y.

Section array_loops.
Context `{JN : JNumber}.
Context (rec : (list str -> list str -> bool) -> PatchDiffer -> Value -> Value -> PatchDiffer).
Context (same : list str -> list str -> bool) (F T : list Value).
Hypothesis Hsound : sound same (Array F) (Array T).
Hypothesis HwfF : Forall (fun v => value_wf v = true) F.
Hypothesis HwfT : Forall (fun v => value_wf v = true) T.
Hypothesis HlenF : (vec_len F < usize_mod)%N.
Hypothesis HlenT : (vec_len T < usize_mod)%N.
Hypothesis Hrec : forall s x y, x ∈ F -> y ∈ T -> sound s x y -> diffs rec s x y.

Implicit Types (fs ts fpre tpre cur : list Value) (x y : Value) (d : PatchDiffer).

(** The loop's position: [cur] has become equal to what is before [t_idx] in
    [T], and [fs], what is after [f_idx] in [F], is untouched. *)
Record at_pos (f_idx t_idx : N) (cur fs ts : list Value) : Prop := {
  pos_from : exists fpre, F = fpre ++ fs /\ f_idx = vec_len fpre;
  pos_to : exists tpre, T = tpre ++ ts /\ t_idx = vec_len tpre /\ Forall2 veq cur tpre;
}.

(** The operations appended from here turn the array into [T]. *)
Definition finishes (cur fs : list Value) (loop : PatchDiffer -> PatchDiffer) : Prop :=
  forall path acc, exists ops l, loop (mkDiffer path acc) = mkDiffer path (acc ++ Patch_prepend path ops)
    /\ runs ops (Array (cur ++ fs)) (Array l) /\ Forall2 veq l T.

Lemma pos_cur i j cur fs ts : at_pos i j cur fs ts -> j = vec_len cur /\ (j < usize_mod)%N.
Proof.
  intros [_ (tpre & HT & -> & HF)]. apply Forall2_length in HF. unfold vec_len in *.
  rewrite HT, length_app in HlenT. lia.
Qed.

Lemma vec_len_snoc {A} (l : list A) (x : A) : vec_len (l ++ [x]) = (vec_len l + 1)%N.
Proof. unfold vec_len. rewrite length_app. simpl. lia. Qed.

Lemma pos_step_to i j cur fs y ts y' : at_pos i j cur fs (y :: ts) -> veq y' y ->
  at_pos i (j + 1) (cur ++ [y']) fs ts.
Proof.
  intros [Hf (tpre & HT & -> & HF)] Hy. split; [done|]. exists (tpre ++ [y]).
  rewrite <- app_assoc, vec_len_snoc. split_and!; [done|done|]. apply Forall2_app; [done|].
  by constructor.
Qed.

Lemma pos_step_from i j cur x fs ts : at_pos i j cur (x :: fs) ts -> at_pos (i + 1) j cur fs ts.
Proof.
  intros [(fpre & HF & ->) Ht]. split; [|done]. exists (fpre ++ [x]).
  by rewrite <- app_assoc, vec_len_snoc.
Qed.

Lemma finishes_eq cur fs (loop loop' : PatchDiffer -> PatchDiffer) :
  (forall d, loop d = loop' d) -> finishes cur fs loop' -> finishes cur fs loop.
Proof. intros E H path acc. rewrite E. apply H. Qed.

(** Appending [ops] first. *)
Lemma finishes_after cur fs cur' fs' loop step ops :
  (forall path acc, step (mkDiffer path acc) = mkDiffer path (acc ++ Patch_prepend path ops)) ->
  runs ops (Array (cur ++ fs)) (Array (cur' ++ fs')) -> finishes cur' fs' loop ->
  finishes cur fs (fun d => loop (step d)).
Proof.
  intros Hs Hr Hl path acc. rewrite Hs.
  destruct (Hl path (acc ++ Patch_prepend path ops)) as (ops' & l & -> & Hr' & Hv).
  exists (ops ++ ops'), l. split_and!; [|by eapply runs_app|done].
  unfold Patch_prepend. by rewrite map_app, app_assoc.
Qed.

Lemma finishes_add i j cur fs y ts loop : at_pos i j cur fs (y :: ts) ->
  finishes (cur ++ [y]) fs loop ->
  finishes cur fs (fun d => loop (push_op d (Add (join_end_idx d j) y))).
Proof.
  intros Hp. destruct (pos_cur _ _ _ _ _ Hp) as [-> Hj].
  assert (value_wf y = true) as Hy.
  { destruct Hp as [_ (tpre & HT & _)]. rewrite HT in HwfT. apply Forall_app in HwfT as [_ Hw].
    by inversion Hw. }
  apply (finishes_after _ _ _ _ loop _ [Add [show_N (vec_len cur)] y]); [done|].
  rewrite <- app_assoc. simpl. apply (runs_add1 _ _ _ _ None); [done|done|by apply add_elem].
Qed.

Lemma finishes_remove i j cur x fs ts loop : at_pos i j cur (x :: fs) ts ->
  finishes cur fs loop ->
  finishes cur (x :: fs) (fun d => loop (push_op d (Remove (join_end_idx d j)))).
Proof.
  intros Hp. destruct (pos_cur _ _ _ _ _ Hp) as [-> Hj].
  apply (finishes_after _ _ _ _ loop _ [Remove [show_N (vec_len cur)]]); [done|].
  apply (runs_remove1 _ _ _ x); [done|by apply remove_elem].
Qed.

Lemma pos_elem i j cur x fs y ts : at_pos i j cur (x :: fs) (y :: ts) ->
  x ∈ F /\ y ∈ T /\ sound (at_loc same (show_N i) (show_N j)) x y.
Proof.
  intros [(fpre & HF & ->) (tpre & HT & -> & _)]. split_and!.
  - rewrite HF. apply elem_of_app. right. by left.
  - rewrite HT. apply elem_of_app. right. by left.
  - intros a b u w Hs Ha Hb. unfold at_loc in Hs. eapply Hsound; [done|..].
    + rewrite HF, ptr_get_elem; [done|]. rewrite HF in HlenF. unfold vec_len in *.
      rewrite length_app in HlenF. lia.
    + rewrite HT, ptr_get_elem; [done|]. rewrite HT in HlenT. unfold vec_len in *.
      rewrite length_app in HlenT. lia.
Qed.

(** Elements that [ptr_eq] identifies are equal. *)
Lemma pos_ptr_eq i j cur x fs y ts : at_pos i j cur (x :: fs) (y :: ts) ->
  elem_ptr_eq same i j x y = true -> veq x y.
Proof.
  intros Hp. destruct (pos_elem _ _ _ _ _ _ _ Hp) as (Hx & Hy & Hs).
  assert (Value_eqb x y = true -> veq x y) as Heq.
  { rewrite list.Forall_forall in HwfF, HwfT. apply Value_eqb_spec; auto. }
  unfold elem_ptr_eq, Value_ptr_eq.
  destruct x, y; try exact Heq; intros Hsame; by rewrite (Hs [] [] _ _ Hsame eq_refl eq_refl).
Qed.

Lemma finishes_elem i j cur x fs y ts loop : at_pos i j cur (x :: fs) (y :: ts) ->
  (forall x', veq x' y -> finishes (cur ++ [x']) fs loop) ->
  finishes cur (x :: fs) (fun d => loop (diff_elem rec same i j d x y)).
Proof.
  intros Hp Hl path acc. destruct (pos_elem _ _ _ _ _ _ _ Hp) as (Hx & Hy & Hs).
  destruct (pos_cur _ _ _ _ _ Hp) as [-> Hj].
  set (k := show_N (vec_len cur)) in *.
  destruct (Hrec _ x y Hx Hy Hs (path ++ [k]) acc) as (ops & x' & Hd & Hr & Hv).
  unfold diff_elem, push_end. cbn [differ_path differ_patch]. fold k. rewrite Hd.
  unfold pop_end. cbn [differ_path differ_patch]. rewrite length_app. simpl length.
  rewrite Nat.add_sub, take_app_length.
  destruct (Hl x' Hv path (acc ++ Patch_prepend (path ++ [k]) ops)) as (ops' & l & -> & Hr' & HT).
  exists (Patch_prepend [k] ops ++ ops'), l. split_and!; [| |done].
  - unfold Patch_prepend. rewrite map_app, <- app_assoc, map_map. do 3 f_equal.
    apply map_ext. intros [| | | | |]; simpl; by rewrite <- !app_assoc.
  - rewrite <- app_assoc in Hr'. simpl in Hr'. eapply runs_app; [|exact Hr'].
    destruct (get_mut_elem cur x fs Hj) as (put & Hm & Hput). rewrite <- (Hput x').
    by eapply runs_prepend.
Qed.

Lemma finishes_skip i j cur x fs y ts loop : at_pos i j cur (x :: fs) (y :: ts) ->
  finishes (cur ++ [x]) fs loop -> finishes cur (x :: fs) loop.
Proof. intros _ Hl path acc. specialize (Hl path acc). by rewrite <- app_assoc in Hl. Qed.

Lemma finishes_done i j cur : at_pos i j cur [] [] -> finishes cur [] (fun d => d).
Proof.
  intros [_ (tpre & HT & _ & HF)] path acc. rewrite app_nil_r in HT. subst tpre.
  exists [], cur. rewrite !app_nil_r. split_and!; [done|constructor|done].
Qed.

Lemma remove_rest_spec i j cur fs : at_pos i j cur fs [] -> finishes cur fs (remove_rest j fs).
Proof.
  revert i. induction fs as [|x fs IH]; intros i Hp; [by eapply finishes_done|].
  eapply finishes_eq; [by intros d|]. eapply finishes_remove; [done|]. eapply IH.
  by eapply pos_step_from.
Qed.

Lemma add_rest_spec i j cur ts : at_pos i j cur [] ts -> finishes cur [] (add_rest j ts).
Proof.
  revert j cur. induction ts as [|y ts IH]; intros j cur Hp; [by eapply finishes_done|].
  eapply finishes_eq; [by intros d|]. eapply finishes_add; [done|]. apply IH.
  by eapply pos_step_to.
Qed.

Lemma diff_grow_spec i j cur fs ts : at_pos i j cur fs ts ->
  finishes cur fs (diff_grow rec same i j fs ts).
Proof.
  revert i j cur fs. induction ts as [|y ts IH]; intros i j cur fs Hp.
  { eapply finishes_eq; [by intros d; destruct fs|]. by eapply remove_rest_spec. }
  assert (finishes cur fs (fun d => diff_grow rec same i (j + 1) fs ts
    (push_op d (Add (join_end_idx d j) y)))) as Hadd.
  { eapply finishes_add; [done|]. apply IH. by eapply pos_step_to. }
  destruct fs as [|x fs]; [done|]. cbn [diff_grow].
  destruct (elem_ptr_eq same i j x y) eqn:Ep; cbn [negb].
  - eapply finishes_skip; [done|]. apply IH. eapply pos_step_from, pos_step_to; [done|].
    by eapply pos_ptr_eq.
  - destruct (any_in_to same i (j + 1) x ts); [done|]. eapply finishes_elem; [done|].
    intros x' Hx'. apply IH. by eapply pos_step_from, pos_step_to.
Qed.

Lemma diff_shrink_spec i j cur fs ts : at_pos i j cur fs ts ->
  finishes cur fs (diff_shrink rec same i j fs ts).
Proof.
  revert i j cur ts. induction fs as [|x fs IH]; intros i j cur ts Hp.
  { eapply finishes_eq; [by intros d; destruct ts|]. by eapply add_rest_spec. }
  assert (finishes cur (x :: fs) (fun d => diff_shrink rec same (i + 1) j fs ts
    (push_op d (Remove (join_end_idx d j))))) as Hrem.
  { eapply finishes_remove; [done|]. apply IH. by eapply pos_step_from. }
  destruct ts as [|y ts]; [done|]. cbn [diff_shrink].
  destruct (elem_ptr_eq same i j x y) eqn:Ep; cbn [negb].
  - eapply finishes_skip; [done|]. apply IH. eapply pos_step_from, pos_step_to; [done|].
    by eapply pos_ptr_eq.
  - destruct (any_in_from same (i + 1) j y fs); [done|]. eapply finishes_elem; [done|].
    intros x' Hx'. apply IH. by eapply pos_step_from, pos_step_to.
Qed.

Lemma diff_equal_spec i cur fs ts : length fs = length ts -> at_pos i i cur fs ts ->
  finishes cur fs (diff_equal rec same i fs ts).
Proof.
  revert i cur ts. induction fs as [|x fs IH]; intros i cur [|y ts] Hlen Hp; try done.
  { by eapply finishes_done. }
  injection Hlen as Hlen. cbn [diff_equal].
  destruct (elem_ptr_eq same i i x y) eqn:Ep; cbn [negb].
  - eapply finishes_skip; [done|]. apply IH; [done|]. eapply pos_step_from, pos_step_to; [done|].
    by eapply pos_ptr_eq.
  - apply (finishes_elem i i cur x fs y ts (diff_equal rec same (i + 1) fs ts)); [done|].
    intros x' Hx'. apply IH; [done|]. by eapply pos_step_from, pos_step_to.
Qed.

Lemma at_start : at_pos 0 0 [] F T.
Proof. split; [by exists []|]. by exists []. Qed.
End array_loops.

Section object_loop.
Context `{JN : JNumber}.
Context (rec : (list str -> list str -> bool) -> PatchDiffer -> Value -> Value -> PatchDiffer).
Context (same : list str -> list str -> bool) (f t : InOMap str Value).
Hypothesis Hsound : sound same (Object f) (Object t).
Hypothesis Hwf : value_wf (Object f) = true.
Hypothesis Hwt : value_wf (Object t) = true.
Hypothesis Hrec : forall s k x y, InOMap_get k f = Some x -> InOMap_get k t = Some y ->
  sound s x y -> diffs rec s x y.
Implicit Types (cur : InOMap str Value) (k : str).

Lemma ptr_get_key cur k x r : InOMap_get k cur = Some x -> ptr_get (k :: r) (Object cur) = ptr_get r x.
Proof. intros Hg. cbn [ptr_get]. unfold child. simpl. by rewrite Hg. Qed.

(** Key [k] of [cur] is brought to its value in [t]; other keys are kept. *)
Definition settles k cur (ops : Patch) : Prop := exists cur',
  runs ops (Object cur) (Object cur')
  /\ option_Forall2 veq (InOMap_get k cur') (InOMap_get k t)
  /\ forall k', k ≠ k' -> InOMap_get k' cur' = InOMap_get k' cur.

Lemma settles_remove k cur x : value_wf (Object cur) = true -> InOMap_get k cur = Some x ->
  InOMap_get k t = None -> settles k cur [Remove [k]].
Proof.
  intros [Hw _]%wf_object Hx Ht. exists (InOMap_remove k cur).1. split_and!.
  - apply (runs_remove1 _ _ _ x); [done|]. unfold remove. cbn [ptr_remove].
    pose proof (remove_prev k cur) as Hp. destruct (InOMap_remove k cur) as [m o]. simpl in Hp.
    by rewrite Hp, Hx.
  - rewrite get_remove, decide_True, Ht by done. constructor.
  - intros k' Hk. by rewrite get_remove, decide_False.
Qed.

Lemma settles_add k cur y : value_wf (Object cur) = true -> InOMap_get k cur = None ->
  InOMap_get k t = Some y -> settles k cur [Add [k] y].
Proof.
  intros [Hw _]%wf_object Hx Ht. exists (InOMap_insert k y cur).1. split_and!.
  - apply (runs_add1 _ _ _ _ None); [done|exact (wf_object_get _ _ _ Hwt Ht)|].
    unfold add. cbn [ptr_insert]. by rewrite Hx.
  - rewrite get_insert, decide_True, Ht by done. by constructor.
  - intros k' Hk. by rewrite get_insert, decide_False.
Qed.

Lemma settles_prepend k cur x y ops x' : InOMap_get k cur = Some x -> InOMap_get k t = Some y ->
  runs ops x x' -> veq x' y -> settles k cur (Patch_prepend [k] ops).
Proof.
  intros Hx Hy Hr Hv. destruct (ptr_get_mut_Some [k] (Object cur) x) as [put Hm].
  { by rewrite (ptr_get_key _ _ x). }
  pose proof Hm as Hm'. cbn [ptr_get_mut] in Hm'. unfold child_mut in Hm'. simpl in Hm'.
  pose proof (get_mut_spec k cur) as Hs.
  destruct (InOMap_get_mut k cur) as [[w q]|]; [|done]. simpl in Hm'. injection Hm' as <- <-.
  destruct Hs as (_ & Hq & _). exists (q x'). split_and!.
  - exact (runs_prepend [k] ops _ _ _ x' Hm Hr).
  - rewrite Hq, decide_True, Hy by done. by constructor.
  - intros k' Hk. by rewrite Hq, decide_False.
Qed.

Lemma settles_nil k cur : option_Forall2 veq (InOMap_get k cur) (InOMap_get k t) -> settles k cur [].
Proof. intros Hv. exists cur. split_and!; [constructor|done|done]. Qed.

Lemma diff_key_spec k cur path acc : value_wf (Object cur) = true ->
  InOMap_get k cur = InOMap_get k f ->
  exists ops, diff_key rec same f t (mkDiffer path acc) k
    = mkDiffer path (acc ++ Patch_prepend path ops) /\ settles k cur ops.
Proof.
  intros Hw Hk. unfold diff_key, push_end, pop_end, push_op. cbn [differ_path differ_patch].
  destruct (InOMap_get k f) as [x|] eqn:Ef, (InOMap_get k t) as [y|] eqn:Et.
  - destruct (Value_eqb x y) eqn:Eq; cbn [negb].
    + exists []. cbn [differ_path differ_patch Patch_prepend map].
      rewrite length_app, Nat.add_sub, take_app_length, app_nil_r. split; [done|].
      apply settles_nil. rewrite Hk, Et. constructor.
      apply Value_eqb_spec; [exact (wf_object_get _ _ _ Hwf Ef)|exact (wf_object_get _ _ _ Hwt Et)|done].
    + destruct (Hrec (at_loc same k k) k x y Ef Et) with (path := path ++ [k]) (acc := acc)
        as (ops & x' & -> & Hr & Hv).
      { intros a b u w Hs Ha Hb. eapply Hsound; [exact Hs|..].
        - by rewrite (ptr_get_key f k x).
        - by rewrite (ptr_get_key t k y). }
      cbn [differ_path differ_patch]. rewrite length_app, Nat.add_sub, take_app_length.
      exists (Patch_prepend [k] ops). split; [|by eapply settles_prepend].
      unfold Patch_prepend. rewrite map_map. do 2 f_equal. apply map_ext.
      intros [| | | | |]; simpl; by rewrite <- !app_assoc.
  - exists [Remove [k]]. cbn [differ_path differ_patch].
    rewrite length_app, Nat.add_sub, take_app_length. split; [done|]. by eapply settles_remove.
  - exists [Add [k] y]. cbn [differ_path differ_patch].
    rewrite length_app, Nat.add_sub, take_app_length. split; [done|]. by apply settles_add.
  - exists []. cbn [differ_path differ_patch Patch_prepend map].
    rewrite length_app, Nat.add_sub, take_app_length, app_nil_r. split; [done|].
    apply settles_nil. rewrite Hk, Et. constructor.
Qed.

Lemma diff_keys_spec ks cur path acc : NoDup ks -> value_wf (Object cur) = true ->
  (forall k, k ∈ ks -> InOMap_get k cur = InOMap_get k f) ->
  exists ops cur', fold_left (diff_key rec same f t) ks (mkDiffer path acc)
      = mkDiffer path (acc ++ Patch_prepend path ops)
    /\ runs ops (Object cur) (Object cur')
    /\ (forall k, k ∈ ks -> option_Forall2 veq (InOMap_get k cur') (InOMap_get k t))
    /\ (forall k, k ∉ ks -> InOMap_get k cur' = InOMap_get k cur).
Proof.
  revert cur acc. induction ks as [|k ks IH]; intros cur acc Hnd Hw Hcur; cbn [fold_left].
  { exists [], cur. cbn [Patch_prepend map]. rewrite app_nil_r.
    split_and!; [done|constructor|by intros ? ?%elem_of_nil|done]. }
  apply NoDup_cons in Hnd as [Hni Hnd].
  destruct (diff_key_spec k cur path acc Hw) as (ops1 & -> & cur1 & Hr1 & Hk & Ho); [apply Hcur; by left|].
  destruct (IH cur1 (acc ++ Patch_prepend path ops1) Hnd) as (ops2 & cur2 & -> & Hr2 & Hin & Hout).
  { exact (runs_wf _ _ _ Hr1 Hw). }
  { intros k' Hk'. rewrite Ho by (intros ->; done). apply Hcur. by right. }
  exists (ops1 ++ ops2), cur2. split_and!.
  - unfold Patch_prepend. by rewrite map_app, app_assoc.
  - by eapply runs_app.
  - intros k' [->|Hk']%elem_of_cons; [by rewrite Hout|by apply Hin].
  - intros k' [Hne Hk']%not_elem_of_cons. by rewrite Hout, Ho.
Qed.
End object_loop.

(** ** Lemmas: [diff_mut] *)

Section diff_mut.
Context `{JN : JNumber}.
Implicit Types (f t : Value).

Lemma diff_other_spec f t path acc : value_wf f = true -> value_wf t = true ->
  exists ops f', diff_other (mkDiffer path acc) f t = mkDiffer path (acc ++ Patch_prepend path ops)
    /\ runs ops f f' /\ veq f' t.
Proof.
  intros Hf Ht. unfold diff_other, push_op. destruct (Value_eqb f t) eqn:E; simpl.
  - exists [], f. rewrite app_nil_r. split_and!; [done|constructor|]. by apply Value_eqb_spec.
  - exists [Replace [] t], t. simpl. rewrite app_nil_r. split_and!; [done| |done].
    by apply (runs_replace [] t [] f t f (fun x => x)); [| |constructor].
Qed.

Lemma key_of_either (m m' : InOMap str Value) k :
  k ∉ BTreeSet_collect str_cmp (InOMap_keys m ++ InOMap_keys m') ->
  InOMap_get k m = None /\ InOMap_get k m' = None.
Proof.
  rewrite (elem_of_BTreeSet_collect str_cmp str_cmp_eq), elem_of_app. intros Hk. split; apply get_None; auto.
Qed.

Lemma diff_mut_spec fuel same f t : value_depth f < fuel ->
  value_wf f = true -> value_wf t = true -> value_fits f = true -> value_fits t = true ->
  sound same f t -> diffs (diff_mut fuel) same f t.
Proof.
  revert same f t. induction fuel as [|fuel IH]; intros same f t Hd Hf Ht Hff Hft Hs path acc; [lia|].
  destruct f as [| | | |fl|fm], t as [| | | |tl|tm]; try by apply diff_other_spec.
  - cbn [diff_mut]. destruct (same [] []) eqn:E; cbn [negb]; [by apply diff_other_spec|].
    apply wf_array in Hf, Ht. apply fits_array in Hff as [Lf Hff], Hft as [Lt Hft].
    unfold fits_usize in Lf, Lt. bool_to_prop.
    assert (forall s x y, x ∈ fl -> y ∈ tl -> sound s x y -> diffs (diff_mut fuel) s x y) as Hrec.
    { intros s x y Hx Hy Hxy. rewrite list.Forall_forall in Hf, Ht, Hff, Hft. apply IH; auto.
      apply list_elem_of_lookup in Hx as [i Hi].
      pose proof (depth_array_get fl (N.of_nat i) x) as Hdx.
      rewrite vec_get_Some, Nat2N.id in Hdx. specialize (Hdx Hi). lia. }
    assert (forall loop, finishes tl [] fl loop ->
      exists ops f', loop (mkDiffer path acc) = mkDiffer path (acc ++ Patch_prepend path ops)
      /\ runs ops (Array fl) f' /\ veq f' (Array tl)) as Hfin.
    { intros loop Hl. destruct (Hl path acc) as (ops & l & -> & Hr & Hv).
      exists ops, (Array l). split_and!; [done|done|by constructor]. }
    destruct (N.ltb_spec (vec_len fl) (vec_len tl)) as [_|Hge].
    { apply Hfin, diff_grow_spec with (F := fl); try done. apply at_start. }
    destruct (N.ltb_spec (vec_len tl) (vec_len fl)) as [_|Hle].
    { apply Hfin, diff_shrink_spec with (F := fl); try done. apply at_start. }
    apply Hfin, diff_equal_spec with (F := fl); try done; [unfold vec_len in *; lia|apply at_start].
  - cbn [diff_mut]. destruct (same [] []) eqn:E; cbn [negb]; [by apply diff_other_spec|].
    pose proof (proj1 (fits_object fm) Hff) as Gf. pose proof (proj1 (fits_object tm) Hft) as Gt.
    destruct (diff_keys_spec (diff_mut fuel) same fm tm Hs Hf Ht) with
      (ks := BTreeSet_collect str_cmp (InOMap_keys fm ++ InOMap_keys tm)) (cur := fm) (path := path) (acc := acc)
      as (ops & cur & -> & Hr & Hin & Hout).
    + intros s k x y Hx Hy Hxy. apply IH; [|exact (wf_object_get _ _ _ Hf Hx)|
        exact (wf_object_get _ _ _ Ht Hy)|exact (get_Forall (fun v => value_fits v = true) _ _ _ Gf Hx)|
        exact (get_Forall (fun v => value_fits v = true) _ _ _ Gt Hy)|done].
      apply depth_object_get in Hx. lia.
    + apply (BTreeSet_collect_NoDup str_cmp).
    + done.
    + done.
    + exists ops, (Object cur). split_and!; [done|done|]. constructor. intros k.
      destruct (decide (k ∈ BTreeSet_collect str_cmp (InOMap_keys fm ++ InOMap_keys tm))) as [Hk|Hk]; [by apply Hin|].
      rewrite Hout by done. destruct (key_of_either fm tm k Hk) as [-> ->]. constructor.
Qed.
End diff_mut.

(** ** Lemmas: enough fuel, and equal documents *)

Section fuel.
Context `{JN : JNumber}.
Implicit Types (f t x y : Value) (d : PatchDiffer).

Section agree.
Context (rec rec' : (list str -> list str -> bool) -> PatchDiffer -> Value -> Value -> PatchDiffer).
Context (P : Value -> Prop) (same : list str -> list str -> bool).
Hypothesis Hagree : forall s d x y, P x -> rec s d x y = rec' s d x y.

Lemma grow_agree i j fs ts d : Forall P fs ->
  diff_grow rec same i j fs ts d = diff_grow rec' same i j fs ts d.
Proof.
  revert i j fs d. induction ts as [|y ts IH]; intros i j fs d Hfs; [done|].
  destruct Hfs as [|x fs Hx Hfs]; cbn [diff_grow]; [by apply IH|].
  destruct (negb _); [|by apply IH]. destruct (any_in_to _ _ _ _ _).
  - apply IH. by constructor.
  - unfold diff_elem. rewrite Hagree by done. by apply IH.
Qed.

Lemma shrink_agree i j fs ts d : Forall P fs ->
  diff_shrink rec same i j fs ts d = diff_shrink rec' same i j fs ts d.
Proof.
  intros Hfs. revert i j ts d. induction Hfs as [|x fs Hx Hfs IH]; intros i j ts d; [done|].
  destruct ts as [|y ts]; cbn [diff_shrink]; [apply IH|].
  destruct (negb _); [|apply IH]. destruct (any_in_from _ _ _ _ _); [apply IH|].
  unfold diff_elem. rewrite Hagree by done. apply IH.
Qed.

Lemma equal_agree i fs ts d : Forall P fs ->
  diff_equal rec same i fs ts d = diff_equal rec' same i fs ts d.
Proof.
  intros Hfs. revert i ts d. induction Hfs as [|x fs Hx Hfs IH]; intros i [|y ts] d; cbn [diff_equal]; [done..|].
  destruct (negb _); [|apply IH]. unfold diff_elem. rewrite Hagree by done. apply IH.
Qed.

Lemma keys_agree (f t : InOMap str Value) ks d : (forall k x, InOMap_get k f = Some x -> P x) ->
  fold_left (diff_key rec same f t) ks d = fold_left (diff_key rec' same f t) ks d.
Proof.
  intros Hf. revert d. induction ks as [|k ks IH]; intros d; cbn [fold_left]; [done|].
  rewrite IH. f_equal. unfold diff_key. destruct (InOMap_get k f) as [x|] eqn:E; [|done].
  destruct (InOMap_get k t); [|done]. by rewrite Hagree by eauto.
Qed.
End agree.

(** Fuel beyond the depth of [from] changes nothing: the recursion has ended. *)
Lemma diff_mut_fuel n n' same d f t : value_depth f < n -> value_depth f < n' ->
  diff_mut n same d f t = diff_mut n' same d f t.
Proof.
  revert n' same d f t. induction n as [|n IH]; intros [|n'] same d f t Hn Hn'; try lia.
  destruct f as [| | | |fl|fm], t as [| | | |tl|tm]; try done; cbn [diff_mut];
    destruct (negb (same [] [])); try done.
  - assert (Forall (fun x => value_depth x < n /\ value_depth x < n') fl) as HF.
    { apply list.Forall_forall. intros x [i Hi]%list_elem_of_lookup.
      pose proof (depth_array_get fl (N.of_nat i) x) as Hdx.
      rewrite vec_get_Some, Nat2N.id in Hdx. specialize (Hdx Hi). lia. }
    destruct (_ <? _)%N; [|destruct (_ <? _)%N];
      [eapply grow_agree|eapply shrink_agree|eapply equal_agree]; try exact HF;
      intros s d' x y []; by apply IH.
  - eapply (keys_agree _ _ (fun x => value_depth x < n /\ value_depth x < n')).
    + intros s d' x y []. by apply IH.
    + intros k x Hx%depth_object_get. lia.
Qed.

Lemma diff_elem_id rec same i j x y d :
  (forall s d, rec s d x y = d) -> diff_elem rec same i j d x y = d.
Proof.
  intros Hr. unfold diff_elem, pop_end, push_end. rewrite Hr. cbn [differ_path differ_patch].
  rewrite length_app, Nat.add_sub, take_app_length. by destruct d.
Qed.

(** Equal documents have an empty diff, whatever they share in memory. *)
Lemma diff_mut_equal n same d f t : value_wf f = true -> value_wf t = true -> veq f t ->
  diff_mut n same d f t = d.
Proof.
  revert same d f t. induction n as [|n IH]; intros same d f t Hf Ht Hv; [done|].
  assert (diff_other d f t = d) as Ho.
  { unfold diff_other. by rewrite (proj2 (Value_eqb_spec f t Hf Ht) Hv). }
  destruct Hv as [| | | |fl tl HF|fm tm Hm]; try done; cbn [diff_mut];
    destruct (negb (same [] [])); try done.
  - rewrite (vec_len_proper fl tl HF), N.ltb_irrefl. clear Ho.
    apply wf_array in Hf, Ht. generalize 0%N as i. revert d Hf Ht.
    induction HF as [|x y fl tl Hxy HF IH2]; intros d Hf Ht i; cbn [diff_equal]; [done|].
    inversion Hf; inversion Ht; subst.
    rewrite diff_elem_id by (intros; by apply IH). destruct (negb _); by apply IH2.
  - clear Ho. revert d. generalize (BTreeSet_collect str_cmp (InOMap_keys fm ++ InOMap_keys tm)) as ks.
    induction ks as [|k ks IH2]; intros d; cbn [fold_left]; [done|].
    assert (diff_key (diff_mut n) same fm tm d k = d) as ->; [|apply IH2].
    specialize (Hm k). unfold diff_key.
    assert (pop_end (push_end d k) = d) as Hpop.
    { unfold pop_end, push_end. cbn [differ_path differ_patch].
      rewrite length_app, Nat.add_sub, take_app_length. by destruct d. }
    destruct (InOMap_get k fm) as [x|] eqn:Ex, (InOMap_get k tm) as [y|] eqn:Ey; inversion Hm; subst;
      [|done]. rewrite (proj2 (Value_eqb_spec x y (wf_object_get _ _ _ Hf Ex) (wf_object_get _ _ _ Ht Ey)));
      done.
Qed.
End fuel.

(** ** Properties *)

(** The diff of two documents runs and gives the second; it is empty exactly when
    they are equal. *)
Lemma diff_runs `{JN : JNumber} (same : list str -> list str -> bool) from to :
  value_wf from = true -> value_wf to = true -> value_fits from = true -> value_fits to = true ->
  sound same from to ->
  (exists d, runs (diff same from to) from d /\ veq d to)
  /\ (Patch_is_empty (diff same from to) = true <-> veq from to).
Proof.
  intros Hf Ht Hff Hft Hs.
  destruct (diff_mut_spec (S (value_depth from)) same from to (Nat.lt_succ_diag_r _) Hf Ht Hff Hft Hs [] [])
    as (ops & d & E & Hr & Hv).
  assert (Patch_prepend [] ops = ops) as Hpre.
  { unfold Patch_prepend. rewrite <- (map_id ops) at 2. apply map_ext. by intros []. }
  split.
  - unfold diff, PatchDiffer_new. rewrite E. cbn [differ_patch app]. rewrite Hpre. eauto.
  - split.
    + unfold diff, PatchDiffer_new. rewrite E. cbn [differ_patch app]. rewrite Hpre.
      destruct ops as [|op ops]; [|done]. intros _. by inversion Hr; subst.
    + intros Hv'. unfold diff. by rewrite diff_mut_equal.
Qed.

Section properties.
Context `{JN : JNumber}.
Implicit Types (from to : Value).

(** C17: patching a document with its diff to another one succeeds and
    gives a document equal to the other; undoing that patch gives back the
    first. *)
Theorem diff_patch_roundtrip (same : list str -> list str -> bool) from to :
  value_wf from = true -> value_wf to = true -> value_fits from = true -> value_fits to = true ->
  sound same from to ->
  exists d undo, patch from (diff same from to) = Done (d, Ok undo)
    /\ Value_eqb d to = true
    /\ exists d', Undo_apply undo d = Done d' /\ Value_eqb d' from = true.
Proof.
  intros Hf Ht Hff Hft Hs. destruct (diff_runs same from to Hf Ht Hff Hft Hs) as [(d & Hr & Hv) _].
  destruct (patch_undo_spec _ from Hf (runs_patch_wf _ _ _ Hr) (runs_reversible _ _ _ Hr))
    as (doc' & res & E & Hw & Hres).
  destruct (proj1 (patch_ok_iff _ _ _) (runs_unsafe _ _ _ Hr)) as [undo Eu]. rewrite Eu in E.
  injection E as <- <-. destruct Hres as (d' & Hd & Hwd & Hveq). exists d, undo.
  split; [done|]. split; [by apply Value_eqb_spec|]. exists d'. split; [done|]. by apply Value_eqb_spec.
Qed.

(** The diff of two documents is empty exactly when they are equal. *)
Theorem diff_empty_iff_equal (same : list str -> list str -> bool) from to :
  value_wf from = true -> value_wf to = true -> value_fits from = true -> value_fits to = true ->
  sound same from to ->
  Patch_is_empty (diff same from to) = true <-> Value_eqb from to = true.
Proof.
  intros Hf Ht Hff Hft Hs. rewrite Value_eqb_spec by done. by apply diff_runs.
Qed.

(** [diff_mut] ends on every pair of documents: any fuel above the depth of
    the first gives the result of [diff]. *)
Theorem diff_terminates (same : list str -> list str -> bool) from to fuel :
  value_depth from < fuel ->
  differ_patch (diff_mut fuel same PatchDiffer_new from to) = diff same from to.
Proof. intros Hn. unfold diff. by rewrite (diff_mut_fuel fuel (S (value_depth from))) by lia. Qed.
End properties.

(** ** Witnesses *)

Module JsonDiffExamples.
#[local] Existing Instance ZNumber.

Definition shared : Value := Array [Str $"x"; Num 1%Z].
Definition from0 : Value :=
  Object [($"a", Array [Num 1%Z; shared; Num 3%Z]); ($"b", Object [($"c", Str $"x")])].
Definition to0 : Value :=
  Object [($"b", Object [($"d", Null)]); ($"a", Array [shared; Num 4%Z])].

(** [from0]'s [/a/1] is [to0]'s [/a/0] in memory; nothing else is shared. *)
Definition same0 (a b : list str) : bool :=
  bool_decide (a = [$"a"; $"1"]) && bool_decide (b = [$"a"; $"0"]).

Lemma same0_sound : sound same0 from0 to0.
Proof.
  intros a b x y [Ha Hb]%andb_true_iff. bool_to_prop. subst. vm_compute. congruence.
Qed.

Lemma diff_patch_roundtrip_witness :
  diff same0 from0 to0 =
    [Remove [$"a"; $"0"]; Replace [$"a"; $"1"] (Num 4%Z); Remove [$"b"; $"c"]; Add [$"b"; $"d"] Null]
  /\ exists d undo, patch from0 (diff same0 from0 to0) = Done (d, Ok undo) /\ Value_eqb d to0 = true.
Proof.
  split; [by vm_compute|].
  destruct (diff_patch_roundtrip same0 from0 to0 eq_refl eq_refl eq_refl eq_refl same0_sound)
    as (d & undo & E & Hv & _). by exists d, undo.
Defined.

Lemma diff_empty_iff_equal_witness :
  Patch_is_empty (diff same0 from0 to0) = true <-> Value_eqb from0 to0 = true.
Proof. exact (diff_empty_iff_equal same0 from0 to0 eq_refl eq_refl eq_refl eq_refl same0_sound). Defined.

Lemma diff_terminates_witness :
  differ_patch (diff_mut 10 same0 PatchDiffer_new from0 to0) = diff same0 from0 to0.
Proof. apply (diff_terminates same0 from0 to0 10). vm_compute. lia. Defined.
End JsonDiffExamples.
