(* ===== verification/DiffPatch.v ===== *)
(** * Revisions and scoped patches

    [shared-libs/crates/patch-db/core/src/patch.rs]: what the database does with
    the patches [diff] produces, which consist of [add], [remove] and [replace]
    only; on another operation the code reaches [unreachable!()], a panic.
    [parse::<usize>()] of a segment is [parse_usize]; the arithmetic on indices
    and on [path.len() - 1] panics on overflow. *)
From S2P Require Import Prelude RustStr BTree InOrderMap JsonValue PtrDoc JsonPatch JsonDiff.

Local Open Scope rust_scope.

(** [JsonPointer::strip_prefix] on segments (JsonPtr.v). *)
Definition path_strip_prefix (p q : list str) : option (list str) :=
  if path_starts_with p q then Some (drop (length q) p) else None.

Section DiffPatch.
Context `{JN : JNumber}.
Implicit Types (ops : Patch) (ptr path : list str).

Record Revision : Type := mkRevision { rev_id : N; rev_patch : Patch }.
Record Dump : Type := mkDump { dump_id : N; dump_value : Value }.

Definition DiffPatch_prepend ptr ops : Patch := Patch_prepend ptr ops.
Definition DiffPatch_add (value : Value) : Patch := [Add [] value].
Definition DiffPatch_append ops other : Patch := ops ++ other.
Definition DiffPatch_is_empty ops : bool := Patch_is_empty ops.

(** [tail.get(&op.value).cloned().unwrap_or_default()] *)
Definition get_or_default (tail : list str) (value : Value) : Value :=
  from_option id Value_default (ptr_get tail value).

Definition for_path_op ptr (op : PatchOperation) : outcome (option PatchOperation) :=
  match op with
  | Add path value =>
      match path_strip_prefix path ptr with
      | Some tail => Done (Some (Add tail value))
      | None =>
          match path_strip_prefix ptr path with
          | Some tail => Done (Some (Add [] (get_or_default tail value)))
          | None => Done None
          end
      end
  | Replace path value =>
      match path_strip_prefix path ptr with
      | Some tail => Done (Some (Replace tail value))
      | None =>
          match path_strip_prefix ptr path with
          | Some tail => Done (Some (Replace [] (get_or_default tail value)))
          | None => Done None
          end
      end
  | Remove path =>
      if path_starts_with ptr path then Done (Some (Replace [] Value_default))
      else match path_strip_prefix path ptr with
           | Some tail => Done (Some (Remove tail))
           | None => Done None
           end
  | _ => Panic
  end.

(** [iter().filter_map(..).collect()] *)
Fixpoint DiffPatch_for_path ptr ops : outcome Patch :=
  match ops with
  | [] => Done []
  | op :: rest =>
      let* o := for_path_op ptr op in
      let* r := DiffPatch_for_path ptr rest in
      Done (match o with Some op' => op' :: r | None => r end)
  end.

Definition Revision_for_path ptr (rev : Revision) : outcome Revision :=
  let* p := DiffPatch_for_path ptr (rev_patch rev) in Done (mkRevision (rev_id rev) p).

(** ** [rebase] *)

Definition op_path (op : PatchOperation) : outcome (list str) :=
  match op with
  | Add p _ | Replace p _ | Remove p => Done p
  | _ => Panic
  end.

Definition set_op_path (op : PatchOperation) path : PatchOperation :=
  match op with
  | Add _ v => Add path v
  | Replace _ v => Replace path v
  | Remove _ => Remove path
  | o => o
  end.

(** [path.len() - 1] *)
Definition last_idx path : outcome nat :=
  match length path with 0 => Panic | S n => Done n end.

(** The segment of [path] at [i] as an index. *)
Definition index_at path (i : nat) : option N := path !! i ≫= parse_usize.

(** [prefix] with the index [idx] and what follows position [i] in [path]. *)
Definition moved_path (prefix : list str) (idx : N) path (i : nat) : list str :=
  prefix ++ show_N idx :: drop (i + 1) path.

(** The inner loop's body below an [add] at [prefix]/[onto_idx]. *)
Definition rebase_onto_add (prefix : list str) (i : nat) (onto_idx : N) (op : PatchOperation)
    : outcome PatchOperation :=
  let* path := op_path op in
  if path_starts_with path prefix then
    match index_at path i with
    | Some idx =>
        if (onto_idx <=? idx)%N then
          let* idx' := usize_succ idx in Done (set_op_path op (moved_path prefix idx' path i))
        else Done op
    | None => Done op
    end
  else Done op.

(** The inner loop's body below a [remove]. *)
Definition rebase_onto_remove (prefix : list str) (i : nat) (onto_idx : N) (op : PatchOperation)
    : outcome PatchOperation :=
  let* path := op_path op in
  if path_starts_with path prefix then
    match index_at path i with
    | Some idx =>
        if (onto_idx <? idx)%N then Done (set_op_path op (moved_path prefix (idx - 1) path i))
        else if (idx =? onto_idx)%N then
          Done (match op with Replace p v => Add p v | o => o end)
        else Done op
    | None => Done op
    end
  else Done op.

Fixpoint map_ops (f : PatchOperation -> outcome PatchOperation) ops : outcome Patch :=
  match ops with
  | [] => Done []
  | op :: r => let* op' := f op in let* r' := map_ops f r in Done (op' :: r')
  end.

Definition rebase_step ops (onto_op : PatchOperation) : outcome Patch :=
  match onto_op with
  | Add path _ =>
      let* i := last_idx path in
      match index_at path i with
      | Some onto_idx => map_ops (rebase_onto_add (take i path) i onto_idx) ops
      | None => Done ops
      end
  | Remove path =>
      let* i := last_idx path in
      match index_at path i with
      | Some onto_idx => map_ops (rebase_onto_remove (take i path) i onto_idx) ops
      | None => Done ops
      end
  | _ => Done ops
  end.

Fixpoint DiffPatch_rebase ops (onto : Patch) : outcome Patch :=
  match onto with
  | [] => Done ops
  | o :: r => let* ops' := rebase_step ops o in DiffPatch_rebase ops' r
  end.

(** ** [exists] and [keys] *)

Fixpoint exists_loop ops (res : option bool) : outcome (option bool) :=
  match ops with
  | [] => Done res
  | Add path v :: r | Replace path v :: r =>
      exists_loop r (match path with [] => Some (negb (Value_is_null v)) | _ => res end)
  | Remove path :: r => exists_loop r (match path with [] => Some false | _ => res end)
  | _ :: _ => Panic
  end.

Definition DiffPatch_exists ops : outcome (option bool) := exists_loop ops None.

(** [keys] is a [BTreeSet<String>]. *)
Fixpoint DiffPatch_keys ops (keys : list str) : outcome (list str) :=
  match ops with
  | [] => Done keys
  | Add path _ :: r =>
      DiffPatch_keys r (match path with [k] => BTreeSet_insert str_cmp k keys | _ => keys end)
  | Replace _ _ :: r => DiffPatch_keys r keys
  | Remove path :: r =>
      DiffPatch_keys r
        (match path with [k] => filter (fun x => x ≠ k) keys | _ => keys end)
  | _ :: _ => Panic
  end.

(** [crate::patch::diff] *)
Definition DiffPatch_diff (same : list str -> list str -> bool) (l r : Value) : Patch := diff same l r.
End DiffPatch.

(** ** Lemmas: paths through objects *)

Section obj_path_lemmas.
Context `{JN : JNumber}.
Implicit Types (doc v x : Value) (ptr path tail : list str).

Lemma strip_prefix_Some p q tail : path_strip_prefix p q = Some tail -> p = q ++ tail.
Proof.
  unfold path_strip_prefix, path_starts_with. case_bool_decide as Hp; [|done]. destruct Hp as [k ->].
  intros [= <-]. by rewrite drop_app_length.
Qed.

Lemma strip_prefix_None p q : path_strip_prefix p q = None -> path_starts_with p q = false.
Proof. unfold path_strip_prefix. by destruct (path_starts_with p q). Qed.

Lemma obj_path_app a b doc : obj_path (a ++ b) doc = true -> obj_path a doc = true.
Proof.
  revert doc. induction a as [|seg a IH]; intros doc; [done|]. simpl. destruct doc; try done.
  destruct (InOMap_get seg m); [apply IH|done].
Qed.

(** What is inserted along objects is found there again. *)
Lemma insert_obj_get path doc v doc' prev : value_wf doc = true -> obj_path path doc = true ->
  ptr_insert path doc v false = (doc', Ok prev) -> ptr_get path doc' = Some v.
Proof.
  revert doc doc'. induction path as [|seg path IH]; intros doc doc' Hw Ho; cbn [ptr_insert ptr_get].
  { by intros [= <- _]. }
  destruct doc as [| | | | |m]; try done. simpl in Ho. destruct (InOMap_get seg m) as [x|] eqn:Eg.
  - pose proof (get_mut_spec seg m) as Hs. destruct (InOMap_get_mut seg m) as [[y put]|] eqn:Em; [|done].
    destruct Hs as (Hy & _). rewrite Eg in Hy. injection Hy as <-.
    destruct (ptr_insert path x v false) as [x' res] eqn:Er. intros [= <- ->].
    rewrite (child_object_put _ _ _ _ x' Em). cbn [mbind option_bind].
    apply IH in Er; [done|exact (wf_object_get _ _ _ Hw Eg)|done].
  - destruct path as [|n path].
    + intros [= <- _]. unfold child. simpl. apply wf_object in Hw as [Hw _].
      by rewrite get_insert, decide_True by done.
    + by rewrite (proj2 (get_mut_None seg m) Eg).
Qed.

Lemma add_obj_get path doc v doc' prev : value_wf doc = true -> obj_path path doc = true ->
  add doc path v = (doc', Ok prev) -> ptr_get path doc' = Some v.
Proof.
  intros Hw Ho. unfold add. destruct (ptr_insert path doc v false) as [d [o|e]] eqn:E; [|done].
  intros [= <- _]. exact (insert_obj_get _ _ _ _ _ Hw Ho E).
Qed.

Lemma remove_obj_get path doc doc' old : value_wf doc = true -> obj_path path doc = true ->
  ptr_remove path doc false = (doc', Some old) -> ptr_get path doc' = None.
Proof.
  revert doc doc'. induction path as [|seg [|n path] IH]; intros doc doc' Hw Ho; [done|..].
  - destruct doc as [| | | | |m]; try done. cbn [ptr_remove]. apply wf_object in Hw as [Hw _].
    pose proof (get_remove seg m seg Hw) as Hg. destruct (InOMap_remove seg m) as [m' o].
    intros [= <- _]. simpl in Hg. rewrite decide_True in Hg by done. cbn [ptr_get].
    unfold child. simpl. by rewrite Hg.
  - rewrite ptr_remove_cons. destruct doc as [| | | | |m]; try done.
    pose proof (get_mut_spec seg m) as Hs.
    destruct (InOMap_get_mut seg m) as [[x put]|] eqn:Em; [|done]. destruct Hs as (Eg & _).
    destruct (ptr_remove (n :: path) x false) as [x' res] eqn:Er. intros [= <- ->].
    cbn [ptr_get]. rewrite (child_object_put _ _ _ _ x' Em). cbn [mbind option_bind].
    apply IH in Er; [done|exact (wf_object_get _ _ _ Hw Eg)|]. simpl in Ho. by rewrite Eg in Ho.
Qed.

Lemma ptr_get_prefix_None a b doc : ptr_get a doc = None -> ptr_get (a ++ b) doc = None.
Proof. intros Ha. by rewrite ptr_get_app, Ha. Qed.

Lemma get_mut_None_get path doc : ptr_get_mut path doc = None <-> ptr_get path doc = None.
Proof.
  pose proof (get_mut_get path doc) as Hg. destruct (ptr_get_mut path doc) as [[x p]|]; rewrite Hg; done.
Qed.

(** An [add], [remove] or [replace] below a missing value fails. *)
Lemma add_below_missing ptr tail doc v : tail ≠ [] -> ptr_get ptr doc = None ->
  exists e, add doc (ptr ++ tail) v = (doc, Err e).
Proof.
  intros Ht Hg. destruct (insert_lift_none ptr tail doc v Ht Hg) as [e He]. exists InvalidPointer.
  unfold add. by rewrite He.
Qed.

Lemma replace_obj_get path doc v doc' old : value_wf doc = true -> obj_path path doc = true ->
  replace doc path v = (doc', Ok old) -> ptr_get path doc' = Some v.
Proof.
  intros Hw Ho. unfold replace. destruct (ptr_get_mut path doc) as [[x put]|] eqn:Em.
  - intros [= <- _]. by eapply ptr_get_put.
  - destruct (add doc path v) as [d [o|e]] eqn:Ea; [|done]. intros [= <- _]. exact (add_obj_get _ _ _ _ _ Hw Ho Ea).
Qed.
End obj_path_lemmas.

(** ** Lemmas: scoping *)

Section scope.
Context `{JN : JNumber}.
Implicit Types (doc v x : Value) (ptr path tail : list str) (p : Patch).

(** What a subscriber at [ptr] sees of the document. *)
Abbreviation scoped ptr doc := (get_or_default ptr doc).

Definition is_diff_op (op : PatchOperation) : bool :=
  match op with Add _ _ | Remove _ | Replace _ _ => true | _ => false end.

Lemma scoped_get ptr doc v : ptr_get ptr doc = Some v -> scoped ptr doc = v.
Proof. unfold get_or_default. by intros ->. Qed.

Lemma scoped_prefix a b doc v : ptr_get a doc = Some v -> scoped (a ++ b) doc = scoped b v.
Proof. unfold get_or_default. by intros E; rewrite ptr_get_app, E. Qed.

(** [op'] does to the scoped value what happened to the document. *)
Definition tracks ptr doc doc' (o : option PatchOperation) : Prop :=
  match o with
  | Some op' => unsafe_op op' (scoped ptr doc) = (scoped ptr doc', Ok tt)
  | None => scoped ptr doc' = scoped ptr doc
  end.

Lemma tracks_below ptr doc doc' op whole :
  (forall x put, ptr_get_mut ptr doc = Some (x, put) ->
     unsafe_op (op_prepend ptr op) doc = (put (unsafe_op op x).1, (unsafe_op op x).2)) ->
  (ptr_get ptr doc = None -> is_ok (unsafe_op (op_prepend ptr op) doc).2 = false) ->
  whole = op_prepend ptr op -> unsafe_op whole doc = (doc', Ok tt) -> tracks ptr doc doc' (Some op).
Proof.
  intros Hp Hn -> E. destruct (ptr_get_mut ptr doc) as [[x put]|] eqn:Em.
  - specialize (Hp x put eq_refl). rewrite E in Hp. injection Hp as Hd Hr. simpl.
    pose proof (get_mut_get ptr doc) as Hg. rewrite Em in Hg. rewrite (scoped_get _ _ _ Hg).
    assert (scoped ptr doc' = (unsafe_op op x).1) as ->.
    { apply scoped_get. rewrite Hd. by eapply ptr_get_put. }
    rewrite Hr. apply surjective_pairing.
  - apply get_mut_None_get in Em. specialize (Hn Em). by rewrite E in Hn.
Qed.

Lemma related_split path ptr : related path ptr = false ->
  path_starts_with path ptr = false /\ path_starts_with ptr path = false.
Proof. apply orb_false_iff. Qed.

Lemma for_path_add ptr path v doc doc' : value_wf doc = true -> value_wf v = true ->
  obj_path ptr doc = true -> unsafe_op (Add path v) doc = (doc', Ok tt) ->
  exists o, for_path_op ptr (Add path v) = Done o /\ tracks ptr doc doc' o.
Proof.
  intros Hw Hv Ho E. cbn [for_path_op]. destruct (path_strip_prefix path ptr) as [tail|] eqn:E1.
  - eexists. split; [done|]. apply strip_prefix_Some in E1 as ->. destruct tail as [|k tail].
    + simpl in *. rewrite app_nil_r in E. destruct (add doc ptr v) as [d [o|e]] eqn:Ea; [|done].
      injection E as <-. rewrite (scoped_get _ _ v); [done|]. exact (add_obj_get _ _ _ _ _ Hw Ho Ea).
    + eapply tracks_below; [| |done|done].
      * intros x put Hm. by apply unsafe_op_prepend.
      * intros Hn. simpl. by destruct (add_below_missing ptr (k :: tail) doc v) as [e ->].
  - destruct (path_strip_prefix ptr path) as [tail|] eqn:E2.
    + eexists. split; [done|]. apply strip_prefix_Some in E2 as ->. simpl in E |- *.
      destruct (add doc path v) as [d [o|e]] eqn:Ea; [|done]. injection E as <-.
      rewrite (scoped_prefix path tail d v); [done|]. apply obj_path_app in Ho. exact (add_obj_get _ _ _ _ _ Hw Ho Ea).
    + exists None. split; [done|]. apply strip_prefix_None in E1, E2.
      destruct (frame_op (Add path v) ptr doc Hw Hv Ho) as [_ [Hs _]].
      { simpl. unfold related. by rewrite E1, E2. }
      rewrite E in Hs. simpl. unfold get_or_default. simpl in Hs. by rewrite Hs.
Qed.

Lemma for_path_replace ptr path v doc doc' : value_wf doc = true -> value_wf v = true ->
  obj_path ptr doc = true -> unsafe_op (Replace path v) doc = (doc', Ok tt) ->
  exists o, for_path_op ptr (Replace path v) = Done o /\ tracks ptr doc doc' o.
Proof.
  intros Hw Hv Ho E. cbn [for_path_op]. destruct (path_strip_prefix path ptr) as [tail|] eqn:E1.
  - eexists. split; [done|]. apply strip_prefix_Some in E1 as ->. destruct tail as [|k tail].
    + simpl in *. rewrite app_nil_r in E. destruct (replace doc ptr v) as [d [o|e]] eqn:Ea; [|done].
      injection E as <-. rewrite (scoped_get _ _ v); [done|]. exact (replace_obj_get _ _ _ _ _ Hw Ho Ea).
    + eapply tracks_below; [| |done|done].
      * intros x put Hm. by apply unsafe_op_prepend.
      * intros Hn. simpl. unfold replace.
        rewrite (proj2 (get_mut_None_get (ptr ++ k :: tail) doc)) by by apply ptr_get_prefix_None.
        by destruct (add_below_missing ptr (k :: tail) doc v) as [e ->].
  - destruct (path_strip_prefix ptr path) as [tail|] eqn:E2.
    + eexists. split; [done|]. apply strip_prefix_Some in E2 as ->. simpl in E |- *.
      destruct (replace doc path v) as [d [o|e]] eqn:Ea; [|done]. injection E as <-.
      rewrite (scoped_prefix path tail d v); [done|]. apply obj_path_app in Ho. exact (replace_obj_get _ _ _ _ _ Hw Ho Ea).
    + exists None. split; [done|]. apply strip_prefix_None in E1, E2.
      destruct (frame_op (Replace path v) ptr doc Hw Hv Ho) as [_ [Hs _]].
      { simpl. unfold related. by rewrite E1, E2. }
      rewrite E in Hs. simpl. unfold get_or_default. simpl in Hs. by rewrite Hs.
Qed.

Lemma for_path_remove ptr path doc doc' : value_wf doc = true ->
  obj_path ptr doc = true -> unsafe_op (Remove path) doc = (doc', Ok tt) ->
  exists o, for_path_op ptr (Remove path) = Done o /\ tracks ptr doc doc' o.
Proof.
  intros Hw Ho E. cbn [for_path_op]. destruct (path_starts_with ptr path) eqn:E1.
  - eexists. split; [done|]. unfold path_starts_with in E1. bool_to_prop. destruct E1 as [tail ->].
    simpl in E |- *. unfold remove in E. destruct (ptr_remove path doc false) as [d [o|]] eqn:Er; [|done].
    injection E as <-. apply obj_path_app in Ho.
    pose proof (remove_obj_get _ _ _ _ Hw Ho Er) as Hn. unfold get_or_default.
    by rewrite (ptr_get_prefix_None _ tail _ Hn).
  - destruct (path_strip_prefix path ptr) as [tail|] eqn:E2.
    + eexists. split; [done|]. apply strip_prefix_Some in E2 as ->. destruct tail as [|k tail].
      { unfold path_starts_with in E1. bool_to_prop. rewrite app_nil_r in E1. by destruct E1. }
      eapply tracks_below; [| |done|done].
      * intros x put Hm. by apply unsafe_op_prepend.
      * intros Hn. simpl. unfold remove. by rewrite remove_lift_none.
    + exists None. split; [done|]. apply strip_prefix_None in E2.
      destruct (frame_op (Remove path) ptr doc Hw eq_refl Ho) as [_ [Hs _]].
      { simpl. unfold related. by rewrite E1, E2. }
      rewrite E in Hs. simpl. unfold get_or_default. simpl in Hs. by rewrite Hs.
Qed.

Lemma unsafe_diff_op_wf op doc : value_wf doc = true -> op_wf op = true -> is_diff_op op = true ->
  value_wf (unsafe_op op doc).1 = true.
Proof.
  intros Hw Hop. destruct op as [path v|path|path v| | |]; try done; intros _; simpl in *.
  - destruct (add doc path v) as [d r] eqn:E. eapply add_wf in E as [? _]; [|done..]. by destruct r.
  - destruct (remove doc path false) as [d r] eqn:E. eapply removed_wf in E as [? _]; [|done..]. by destruct r.
  - unfold replace. destruct (ptr_get_mut path doc) as [[x put]|] eqn:Em.
    + apply ptr_get_mut_spec in Em as [[_ _ Hwf] _]. by apply Hwf.
    + destruct (add doc path v) as [d r] eqn:E. eapply add_wf in E as [? _]; [|done..]. by destruct r.
Qed.

(** Equal documents are patched alike. *)
Lemma unsafe_op_proper op doc d doc' : value_wf doc = true -> value_wf d = true -> op_wf op = true ->
  is_diff_op op = true -> veq d doc -> unsafe_op op doc = (doc', Ok tt) ->
  exists d', unsafe_op op d = (d', Ok tt) /\ veq d' doc'.
Proof.
  intros Hw Hwd Hop Hdiff Hv. destruct op as [path v|path|path v| | |]; try done; simpl in *.
  - destruct (add doc path v) as [x [o|e]] eqn:E; [|done]. intros [= <-].
    destruct (add_proper doc d path v v x o) as (d' & o' & -> & _ & Hd' & _); try done. eauto.
  - destruct (remove doc path false) as [x [o|e]] eqn:E; [|done]. intros [= <-].
    destruct (remove_proper' doc d path false x o) as (d' & o' & -> & _ & Hd' & _); try done. eauto.
  - unfold replace. pose proof (ptr_get_mut_proper path d doc Hv) as Hm.
    destruct Hm as [[x p] [x' p'] [_ Hp]|].
    + intros [= <-]. eexists. split; [done|]. by apply Hp.
    + destruct (add doc path v) as [x [o|e]] eqn:E; [|done]. intros [= <-].
      destruct (add_proper doc d path v v x o) as (d' & o' & -> & _ & Hd' & _); try done. eauto.
Qed.

Lemma patch_unsafe_diff_wf p doc : value_wf doc = true -> patch_wf p = true -> forallb is_diff_op p = true ->
  value_wf (patch_unsafe doc p).1 = true.
Proof.
  revert doc. induction p as [|op p IH]; intros doc Hw; simpl; [done|].
  intros [Hop Hp]%andb_true_iff [Hd Hds]%andb_true_iff.
  pose proof (unsafe_diff_op_wf op doc Hw Hop Hd) as Hw'.
  destruct (unsafe_op op doc) as [d [[]|e]]; [by apply IH|done].
Qed.

Lemma patch_unsafe_proper p doc d doc' : value_wf doc = true -> value_wf d = true -> patch_wf p = true ->
  forallb is_diff_op p = true -> veq d doc -> patch_unsafe doc p = (doc', Ok tt) ->
  exists d', patch_unsafe d p = (d', Ok tt) /\ veq d' doc'.
Proof.
  revert doc d. induction p as [|op p IH]; intros doc d Hw Hwd; simpl; [intros _ _ ? [= <-]; eauto|].
  intros [Hop Hp]%andb_true_iff [Hd Hds]%andb_true_iff Hv.
  pose proof (unsafe_diff_op_wf op doc Hw Hop Hd) as Hw1. pose proof (unsafe_diff_op_wf op d Hwd Hop Hd) as Hwd1.
  destruct (unsafe_op op doc) as [x [[]|e]] eqn:E; [|done].
  destruct (unsafe_op_proper op doc d x Hw Hwd Hop Hd Hv E) as (y & Ey & Hy). rewrite Ey in Hwd1 |- *.
  by apply IH.
Qed.

(** A patch of the kind the database makes. *)
Definition db_patch p : bool := patch_wf p && forallb is_diff_op p.

Lemma db_patch_spec p : db_patch p = true <-> patch_wf p = true /\ forallb is_diff_op p = true.
Proof. apply andb_true_iff. Qed.

Lemma db_patch_wf doc p : value_wf doc = true -> db_patch p = true -> value_wf (patch_unsafe doc p).1 = true.
Proof. intros Hw [? ?]%db_patch_spec. by apply patch_unsafe_diff_wf. Qed.

Lemma db_patch_proper doc d p doc' : value_wf doc = true -> value_wf d = true -> db_patch p = true -> veq d doc ->
  patch_unsafe doc p = (doc', Ok tt) -> exists d', patch_unsafe d p = (d', Ok tt) /\ veq d' doc'.
Proof. intros ? ? [? ?]%db_patch_spec. by apply patch_unsafe_proper. Qed.

Lemma scoped_wf ptr doc : value_wf doc = true -> value_wf (scoped ptr doc) = true.
Proof.
  intros Hw. unfold get_or_default. destruct (ptr_get ptr doc) as [x|] eqn:E; [|done]. exact (ptr_get_wf _ _ _ Hw E).
Qed.

Lemma scoped_proper ptr doc doc' : veq doc doc' -> veq (scoped ptr doc) (scoped ptr doc').
Proof.
  intros Hv. unfold get_or_default. by destruct (ptr_get_proper ptr doc doc' Hv).
Qed.

Lemma db_patch_cons op p : db_patch (op :: p) = op_wf op && is_diff_op op && db_patch p.
Proof. unfold db_patch. simpl. by destruct (op_wf op), (is_diff_op op), (patch_wf p). Qed.

(** Scoping keeps the kind of a patch. *)
Lemma for_path_db ptr p q : db_patch p = true -> DiffPatch_for_path ptr p = Done q -> db_patch q = true.
Proof.
  revert q. induction p as [|op p IH]; intros q; simpl; [by intros _ [= <-]|].
  rewrite db_patch_cons. intros [[Hw Hd]%andb_true_iff Hp]%andb_true_iff.
  destruct (for_path_op ptr op) as [o|] eqn:Eo; [|done]. cbn [outcome_bind].
  destruct (DiffPatch_for_path ptr p) as [r|] eqn:Er; [|done]. intros [= <-]. specialize (IH r Hp eq_refl).
  destruct o as [op'|]; [|done]. rewrite db_patch_cons, IH, andb_true_r. clear IH Er.
  destruct op as [path v|path|path v| | |]; try done; simpl in Eo; repeat case_match; simplify_eq/=;
    rewrite ?andb_true_r; auto using scoped_wf.
Qed.

(** The path leads through objects before and after every operation. *)
Fixpoint path_stays ptr p doc : bool :=
  obj_path ptr doc &&
  match p with [] => true | op :: r => path_stays ptr r (unsafe_op op doc).1 end.

Lemma for_path_spec ptr p doc doc' : value_wf doc = true -> patch_wf p = true ->
  forallb is_diff_op p = true -> path_stays ptr p doc = true ->
  patch_unsafe doc p = (doc', Ok tt) ->
  exists q, DiffPatch_for_path ptr p = Done q /\
    patch_unsafe (scoped ptr doc) q = (scoped ptr doc', Ok tt).
Proof.
  revert doc. induction p as [|op p IH]; intros doc Hw Hp Hd Hs; simpl.
  { intros [= <-]. by exists []. }
  simpl in Hp, Hd, Hs. apply andb_true_iff in Hp as [Hop Hp], Hd as [Hdo Hd], Hs as [Ho Hs].
  pose proof (unsafe_diff_op_wf op doc Hw Hop Hdo) as Hw1.
  destruct (unsafe_op op doc) as [d [[]|e]] eqn:E; [|done]. simpl in Hw1, Hs. intros Hrest.
  destruct (IH d Hw1 Hp Hd Hs Hrest) as (q & -> & Hq).
  assert (exists o, for_path_op ptr op = Done o /\ tracks ptr doc d o) as (o & -> & Ht).
  { destruct op as [path v|path|path v| | |]; try done.
    - by apply for_path_add.
    - by apply for_path_remove.
    - by apply for_path_replace. }
  cbn [outcome_bind]. eexists. split; [done|]. destruct o as [op'|]; simpl in Ht.
  - cbn [patch_unsafe]. by rewrite Ht.
  - by rewrite <- Ht.
Qed.
End scope.

(** ** Lemmas: [exists] *)

Section exists_keys.
Context `{JN : JNumber}.
Implicit Types (doc v x : Value) (ptr path : list str) (p : Patch) (m : InOMap str Value).

Lemma insert_below_null seg r doc v doc' prev : ptr_insert (seg :: r) doc v false = (doc', Ok prev) ->
  Value_is_null doc = false /\ Value_is_null doc' = false.
Proof.
  cbn [ptr_insert]. destruct doc as [| | | |l|m]; try done.
  - destruct (insert_idx l seg); [|done]. destruct r as [|n r].
    + destruct (_ <=? _)%N; [by intros [= <- _]|done].
    + destruct (vec_get _ _); [|done]. destruct (ptr_insert _ _ _ _). by intros [= <- _].
  - destruct (InOMap_get seg m) as [w|].
    + destruct (InOMap_get_mut seg m) as [[? ?]|]; [|done]. destruct (ptr_insert _ _ _ _). by intros [= <- _].
    + destruct r; [by intros [= <- _]|]. destruct (InOMap_get_mut _ _) as [[? ?]|]; [|done].
      destruct (ptr_insert _ _ _ _). by intros [= <- _].
Qed.

Lemma remove_below_null seg r doc doc' old : ptr_remove (seg :: r) doc false = (doc', Some old) ->
  Value_is_null doc = false /\ Value_is_null doc' = false.
Proof.
  destruct r as [|n r].
  - cbn [ptr_remove]. destruct doc as [| | | |l|m]; try done.
    + destruct (remove_idx l seg false); [|done]. destruct (_ <? _)%N; [|done]. by intros [= <- _].
    + destruct (InOMap_remove seg m). by intros [= <- _].
  - rewrite ptr_remove_cons. destruct doc as [| | | |l|m]; try done.
    + destruct (remove_idx l seg false); [|done]. destruct (vec_get _ _); [|done].
      destruct (ptr_remove _ _ _). by intros [= <- _].
    + destruct (InOMap_get_mut seg m) as [[? ?]|]; [|done]. destruct (ptr_remove _ _ _). by intros [= <- _].
Qed.

Lemma put_below_null seg r doc x put y : ptr_get_mut (seg :: r) doc = Some (x, put) ->
  Value_is_null doc = false /\ Value_is_null (put y) = false.
Proof.
  cbn [ptr_get_mut]. unfold child_mut. destruct doc as [| | | |l|m]; try done; simpl.
  - destruct (result_ok (parse_idx seg)); [|done]. simpl. destruct (vec_get l _); [|done]. simpl.
    destruct (ptr_get_mut r _) as [[? ?]|]; [|done]. simpl. by intros [= _ <-].
  - destruct (InOMap_get_mut seg m) as [[? ?]|]; [|done]. simpl.
    destruct (ptr_get_mut r _) as [[? ?]|]; [|done]. simpl. by intros [= _ <-].
Qed.

(** One operation and the null-ness of the root. *)
Definition op_exists (op : PatchOperation) (res : option bool) : option bool :=
  match op with
  | Add [] v | Replace [] v => Some (negb (Value_is_null v))
  | Remove [] => Some false
  | _ => res
  end.

(** [res] tells whether [doc] is null, starting from a document for which [n] does. *)
Definition knows_null (n : bool) (res : option bool) doc : Prop :=
  Value_is_null doc = match res with Some b => negb b | None => n end.

Lemma op_null n op res doc doc' : is_diff_op op = true -> unsafe_op op doc = (doc', Ok tt) ->
  knows_null n res doc -> knows_null n (op_exists op res) doc'.
Proof.
  unfold knows_null. intros Hd.
  destruct op as [[|k path] v|[|k path]|[|k path] v| | |]; try done; simpl.
  - intros [= <-] _. by rewrite negb_involutive.
  - unfold add. destruct (ptr_insert (k :: path) doc v false) as [d [o|e]] eqn:E; [|done].
    apply insert_below_null in E as [E1 E2]. intros [= <-]. by rewrite E1, E2.
  - unfold remove. destruct (ptr_remove (k :: path) doc false) as [d [o|]] eqn:E; [|done].
    apply remove_below_null in E as [E1 E2]. intros [= <-]. by rewrite E1, E2.
  - intros [= <-] _. by rewrite negb_involutive.
  - unfold replace. destruct (ptr_get_mut (k :: path) doc) as [[x put]|] eqn:Em.
    + intros [= <-]. destruct (put_below_null k path doc x put v Em) as [E1 E2]. by rewrite E1, E2.
    + unfold add. destruct (ptr_insert (k :: path) doc v false) as [d [o|e]] eqn:E; [|done].
      apply insert_below_null in E as [E1 E2]. intros [= <-]. by rewrite E1, E2.
Qed.

Lemma exists_loop_spec n p doc doc' res : forallb is_diff_op p = true ->
  patch_unsafe doc p = (doc', Ok tt) -> knows_null n res doc ->
  exists b, exists_loop p res = Done b /\ knows_null n b doc'.
Proof.
  revert doc res. induction p as [|op p IH]; intros doc res Hd Hr Hk.
  { injection Hr as <-. by exists res. }
  simpl in Hd. apply andb_true_iff in Hd as [Hdo Hd]. cbn [patch_unsafe] in Hr.
  destruct (unsafe_op op doc) as [d [[]|e]] eqn:E; [|done].
  assert (exists_loop (op :: p) res = exists_loop p (op_exists op res)) as ->
    by by destruct op as [[] ?|[]|[] ?| | |].
  apply (IH d); [done|done|]. by eapply op_null.
Qed.

(** ** Lemmas: [keys] *)

(** Operations strictly below the root. *)
Definition op_inside (op : PatchOperation) : bool :=
  match op with
  | Add path _ | Remove path | Replace path _ => negb (bool_decide (path = []))
  | _ => false
  end.

Definition op_keys (op : PatchOperation) (k : str) (has : Prop) : Prop :=
  match op with
  | Add [k'] _ => k = k' \/ has
  | Remove [k'] => k ≠ k' /\ has
  | _ => has
  end.

Lemma insert_keys seg r m v d prev : InOMap_wf m ->
  ptr_insert (seg :: r) (Object m) v false = (d, Ok prev) ->
  exists m', d = Object m' /\ InOMap_wf m' /\ forall k, is_Some (InOMap_get k m') <->
    match r with [] => k = seg \/ is_Some (InOMap_get k m) | _ => is_Some (InOMap_get k m) end.
Proof.
  intros Hw. cbn [ptr_insert]. destruct (InOMap_get seg m) as [x|] eqn:Eg.
  - pose proof (get_mut_spec seg m) as Hs. destruct (InOMap_get_mut seg m) as [[y put]|] eqn:Em; [|done].
    destruct Hs as (_ & Hp & Hk). destruct (ptr_insert r y v false) as [x' res]. intros [= <- _].
    exists (put x'). split; [done|]. split; [unfold InOMap_wf; by rewrite Hk|]. intros k. rewrite Hp.
    case_decide as Hd; [subst; rewrite Eg|]; destruct r; intuition (subst; eauto; congruence).
  - destruct r as [|n r]; [|by rewrite (proj2 (get_mut_None seg m) Eg)]. intros [= <- _].
    eexists. split; [done|]. split; [by apply wf_insert|]. intros k. rewrite get_insert by done.
    case_decide; intuition (subst; eauto; congruence).
Qed.

Lemma remove_keys seg r m d old : InOMap_wf m ->
  ptr_remove (seg :: r) (Object m) false = (d, Some old) ->
  exists m', d = Object m' /\ InOMap_wf m' /\ forall k, is_Some (InOMap_get k m') <->
    match r with [] => k ≠ seg /\ is_Some (InOMap_get k m) | _ => is_Some (InOMap_get k m) end.
Proof.
  intros Hw. destruct r as [|n r].
  - cbn [ptr_remove]. pose proof (get_remove seg m) as Hg. pose proof (wf_remove seg m Hw) as Hw'.
    destruct (InOMap_remove seg m) as [m' o]. intros [= <- _]. exists m'. split; [done|]. split; [done|].
    intros k. simpl in Hg. rewrite Hg by done. case_decide; [|intuition congruence].
    subst. split; [by intros [? ?]|by intros [[] _]].
  - rewrite ptr_remove_cons. pose proof (get_mut_spec seg m) as Hs.
    destruct (InOMap_get_mut seg m) as [[y put]|] eqn:Em; [|done]. destruct Hs as (Eg & Hp & Hk).
    destruct (ptr_remove (n :: r) y false) as [x' res]. intros [= <- _]. exists (put x').
    split; [done|]. split; [unfold InOMap_wf; by rewrite Hk|]. intros k. rewrite Hp.
    case_decide; [subst; rewrite Eg|]; intuition eauto.
Qed.

Lemma put_keys seg r m x put v : InOMap_wf m -> ptr_get_mut (seg :: r) (Object m) = Some (x, put) ->
  exists m', put v = Object m' /\ InOMap_wf m' /\
    forall k, is_Some (InOMap_get k m') <-> is_Some (InOMap_get k m).
Proof.
  intros Hw. cbn [ptr_get_mut]. unfold child_mut. simpl. pose proof (get_mut_spec seg m) as Hs.
  destruct (InOMap_get_mut seg m) as [[y q]|] eqn:Em; [|done]. destruct Hs as (Eg & Hp & Hk). simpl.
  destruct (ptr_get_mut r y) as [[z q']|]; [|done]. simpl. intros [= _ <-]. exists (q (q' v)).
  split; [done|]. split; [unfold InOMap_wf; by rewrite Hk|]. intros k. rewrite Hp.
  case_decide; [subst; rewrite Eg|]; intuition eauto.
Qed.

Lemma op_keys_spec op m d : InOMap_wf m -> op_inside op = true -> op_reversible op (Object m) = true ->
  unsafe_op op (Object m) = (d, Ok tt) ->
  exists m', d = Object m' /\ InOMap_wf m' /\
    forall k, is_Some (InOMap_get k m') <-> op_keys op k (is_Some (InOMap_get k m)).
Proof.
  intros Hw Hi Hrev.
  destruct op as [[|seg r] v|[|seg r]|[|seg r] v| | |]; try done; cbn [unsafe_op].
  - unfold add. destruct (ptr_insert (seg :: r) (Object m) v false) as [x [o|e]] eqn:E; [|done].
    intros [= <-]. apply insert_keys in E as (m' & -> & Hw' & Hk); [|done]. exists m'. by destruct r.
  - unfold remove. destruct (ptr_remove (seg :: r) (Object m) false) as [x [o|]] eqn:E; [|done].
    intros [= <-]. apply remove_keys in E as (m' & -> & Hw' & Hk); [|done]. exists m'. by destruct r.
  - unfold replace. destruct (ptr_get_mut (seg :: r) (Object m)) as [[x put]|] eqn:Em.
    + intros [= <-]. destruct (put_keys seg r m x put v Hw Em) as (m' & -> & Hw' & Hk). exists m'. by destruct r.
    + cbn [op_reversible] in Hrev. rewrite (proj1 (get_mut_None_get _ _) Em) in Hrev.
      by destruct (add (Object m) (seg :: r) v) as [? []].
Qed.

Lemma keys_spec p m d K : InOMap_wf m -> forallb op_inside p = true ->
  patch_reversible p (Object m) = true -> patch_unsafe (Object m) p = (d, Ok tt) ->
  (forall k, k ∈ K <-> is_Some (InOMap_get k m)) ->
  exists K' m', DiffPatch_keys p K = Done K' /\ d = Object m' /\
    forall k, k ∈ K' <-> is_Some (InOMap_get k m').
Proof.
  revert m K. induction p as [|op p IH]; intros m K Hw Hi Hrev Hr HK.
  { injection Hr as <-. by exists K, m. }
  cbn [forallb patch_reversible patch_unsafe] in Hi, Hrev, Hr.
  apply andb_true_iff in Hi as [Hio Hi], Hrev as [Hro Hrev].
  pose proof (apply_op_unsafe op (Object m)) as Hau.
  destruct (unsafe_op op (Object m)) as [d1 [[]|e]] eqn:E; [|done].
  destruct (apply_op op (Object m)) as [d2 [u|e]]; [subst d2|done].
  destruct (op_keys_spec op m d1 Hw Hio Hro E) as (m1 & -> & Hw1 & Hk1).
  set (K1 := match op with
             | Add [k] _ => BTreeSet_insert str_cmp k K
             | Remove [k] => filter (fun s => s ≠ k) K
             | _ => K
             end).
  assert (DiffPatch_keys (op :: p) K = DiffPatch_keys p K1) as ->
    by by destruct op as [[|? []] ?|[|? []]|? ?| | |].
  apply (IH m1 K1); try done. intros k. rewrite Hk1. unfold K1.
  destruct op as [[|? []] ?|[|? []]|? ?| | |]; simpl; try apply HK.
  - rewrite (elem_of_BTreeSet_insert str_cmp str_cmp_eq), HK. done.
  - rewrite list_elem_of_filter, HK. done.
Qed.
End exists_keys.

(** ** Lemmas: [rebase] over an array *)

Section rebase_lemmas.
Context `{JN : JNumber}.
Implicit Types (l a b c : list Value) (v w x : Value) (i j : N).

Definition at_idx i : list str := [show_N i].

Lemma index_at_show i : (i < usize_mod)%N -> index_at (at_idx i) 0 = Some i.
Proof. intros Hi. unfold index_at, at_idx. simpl. by apply parse_usize_show. Qed.

Lemma rebase_replace_add i j v w : (i < usize_mod)%N -> (j + 1 < usize_mod)%N ->
  DiffPatch_rebase [Replace (at_idx j) w] [Add (at_idx i) v]
  = Done [Replace (at_idx (if (i <=? j)%N then j + 1 else j)%N) w].
Proof.
  intros Hi Hj. cbn [DiffPatch_rebase rebase_step last_idx length at_idx outcome_bind].
  rewrite (index_at_show i Hi). cbn [map_ops]. unfold rebase_onto_add. cbn [op_path outcome_bind take].
  unfold path_starts_with. rewrite bool_decide_true by apply prefix_nil.
  fold (at_idx j). rewrite index_at_show by lia.
  destruct (i <=? j)%N; [|done]. unfold usize_succ. by rewrite (proj2 (N.ltb_lt _ _) Hj).
Qed.

Lemma rebase_replace_remove i j w : (i < usize_mod)%N -> (j < usize_mod)%N ->
  DiffPatch_rebase [Replace (at_idx j) w] [Remove (at_idx i)]
  = Done [if (i <? j)%N then Replace (at_idx (j - 1)%N) w
          else if (j =? i)%N then Add (at_idx j) w else Replace (at_idx j) w].
Proof.
  intros Hi Hj. cbn [DiffPatch_rebase rebase_step last_idx length at_idx outcome_bind].
  rewrite (index_at_show i Hi). cbn [map_ops]. unfold rebase_onto_remove. cbn [op_path outcome_bind take].
  unfold path_starts_with. rewrite bool_decide_true by apply prefix_nil.
  fold (at_idx j). rewrite index_at_show by done.
  destruct (i <? j)%N; [done|]. by destruct (j =? i)%N.
Qed.

Lemma unsafe_add_elem a b v i : i = vec_len a -> (i < usize_mod)%N ->
  patch_unsafe (Array (a ++ b)) [Add (at_idx i) v] = (Array (a ++ v :: b), Ok tt).
Proof. intros -> Hi. unfold at_idx. cbn [patch_unsafe unsafe_op]. by rewrite add_elem. Qed.

Lemma unsafe_remove_elem a x b i : i = vec_len a -> (i < usize_mod)%N ->
  patch_unsafe (Array (a ++ x :: b)) [Remove (at_idx i)] = (Array (a ++ b), Ok tt).
Proof. intros -> Hi. unfold at_idx. cbn [patch_unsafe unsafe_op]. by rewrite remove_elem. Qed.

Lemma unsafe_replace_elem a x b w i : i = vec_len a -> (i < usize_mod)%N ->
  patch_unsafe (Array (a ++ x :: b)) [Replace (at_idx i) w] = (Array (a ++ w :: b), Ok tt).
Proof.
  intros -> Hi. unfold at_idx. cbn [patch_unsafe unsafe_op]. unfold replace.
  destruct (get_mut_elem a x b Hi) as (put & -> & Hp). by rewrite Hp.
Qed.

Lemma vec_len_app a b : vec_len (a ++ b) = (vec_len a + vec_len b)%N.
Proof. unfold vec_len. rewrite length_app. lia. Qed.

Lemma vec_len_cons x a : vec_len (x :: a) = (vec_len a + 1)%N.
Proof. unfold vec_len. simpl. lia. Qed.

Lemma split_idx l i : (i < vec_len l)%N -> exists a x b, l = a ++ x :: b /\ i = vec_len a.
Proof.
  intros Hi. unfold vec_len in Hi.
  destruct (lookup_lt_is_Some_2 l (N.to_nat i) ltac:(lia)) as [x Hx].
  exists (take (N.to_nat i) l), x, (drop (S (N.to_nat i)) l). split; [by rewrite take_drop_middle|].
  unfold vec_len. rewrite length_take. lia.
Qed.

Lemma split_le l i : (i <= vec_len l)%N -> exists a b, l = a ++ b /\ i = vec_len a.
Proof.
  intros Hi. unfold vec_len in Hi. exists (take (N.to_nat i) l), (drop (N.to_nat i) l).
  split; [by rewrite take_drop|]. unfold vec_len. rewrite length_take. lia.
Qed.
Lemma rebase_add_converges l i j v w : (vec_len l + 1 < usize_mod)%N -> (j < vec_len l)%N ->
  (i <= vec_len l)%N ->
  exists q d, DiffPatch_rebase [Replace (at_idx j) w] [Add (at_idx i) v] = Done q
    /\ patch_unsafe (patch_unsafe (Array l) [Add (at_idx i) v]).1 q = (d, Ok tt)
    /\ patch_unsafe (patch_unsafe (Array l) [Replace (at_idx j) w]).1 [Add (at_idx i) v] = (d, Ok tt).
Proof.
  intros Hlen Hj Hi. rewrite rebase_replace_add by lia. destruct (N.leb_spec i j) as [Hij|Hij].
  + destruct (split_le l i Hi) as (a & r & -> & ->). rewrite vec_len_app in *.
    destruct (split_idx r (j - vec_len a)) as (b & x & c & -> & Hb); [lia|].
    eexists _, (Array (a ++ v :: b ++ w :: c)). split; [done|]. split.
    * rewrite (unsafe_add_elem a (b ++ x :: c) v) by (done || lia). simpl fst.
      rewrite (app_assoc a (v :: b) (x :: c) : a ++ v :: b ++ x :: c = (a ++ v :: b) ++ x :: c).
      rewrite (unsafe_replace_elem (a ++ v :: b) x c w).
      -- by rewrite <- app_assoc.
      -- rewrite vec_len_app, vec_len_cons. lia.
      -- lia.
    * rewrite (app_assoc a b (x :: c)), (unsafe_replace_elem (a ++ b) x c w) by (rewrite ?vec_len_app; lia).
      simpl fst. rewrite <- app_assoc. by rewrite unsafe_add_elem by (done || lia).
  + destruct (split_idx l j Hj) as (a & x & r & -> & ->). rewrite vec_len_app, vec_len_cons in *.
    destruct (split_le r (i - vec_len a - 1)) as (b & c & -> & Hb); [lia|].
    eexists _, (Array (a ++ w :: b ++ v :: c)). split; [done|]. split.
    * rewrite (app_assoc a (x :: b) c : a ++ x :: b ++ c = (a ++ x :: b) ++ c).
      rewrite (unsafe_add_elem (a ++ x :: b) c v) by (rewrite ?vec_len_app, ?vec_len_cons; lia).
      simpl fst. rewrite <- app_assoc. cbn [app]. by rewrite (unsafe_replace_elem a x) by (done || lia).
    * rewrite (unsafe_replace_elem a x (b ++ c) w) by (done || lia). simpl fst.
      rewrite (app_assoc a (w :: b) c : a ++ w :: b ++ c = (a ++ w :: b) ++ c).
      rewrite (unsafe_add_elem (a ++ w :: b) c v) by (rewrite ?vec_len_app, ?vec_len_cons; lia).
      by rewrite <- app_assoc.
Qed.

Lemma rebase_remove_converges l i j w : (vec_len l + 1 < usize_mod)%N -> (j < vec_len l)%N ->
  (i < vec_len l)%N -> i ≠ j ->
  exists q d, DiffPatch_rebase [Replace (at_idx j) w] [Remove (at_idx i)] = Done q
    /\ patch_unsafe (patch_unsafe (Array l) [Remove (at_idx i)]).1 q = (d, Ok tt)
    /\ patch_unsafe (patch_unsafe (Array l) [Replace (at_idx j) w]).1 [Remove (at_idx i)] = (d, Ok tt).
Proof.
  intros Hlen Hj Hi Hne. rewrite rebase_replace_remove by lia. destruct (N.ltb_spec i j) as [Hij|Hij].
  + destruct (split_idx l i Hi) as (a & y & r & -> & ->). rewrite vec_len_app, vec_len_cons in *.
    destruct (split_idx r (j - vec_len a - 1)) as (b & x & c & -> & Hb); [lia|].
    eexists _, (Array (a ++ b ++ w :: c)). split; [done|]. split.
    * rewrite (unsafe_remove_elem a y (b ++ x :: c)) by (done || lia). simpl fst.
      rewrite (app_assoc a b (x :: c)), (unsafe_replace_elem (a ++ b) x c w)
        by (rewrite ?vec_len_app; lia). by rewrite <- app_assoc.
    * rewrite (app_assoc a (y :: b) (x :: c) : a ++ y :: b ++ x :: c = (a ++ y :: b) ++ x :: c).
      rewrite (unsafe_replace_elem (a ++ y :: b) x c w) by (rewrite ?vec_len_app, ?vec_len_cons; lia).
      simpl fst. rewrite <- app_assoc. cbn [app]. by rewrite (unsafe_remove_elem a y) by (done || lia).
  + rewrite (proj2 (N.eqb_neq j i)) by congruence.
    destruct (split_idx l j Hj) as (a & x & r & -> & ->). rewrite vec_len_app, vec_len_cons in *.
    destruct (split_idx r (i - vec_len a - 1)) as (b & y & c & -> & Hb); [lia|].
    eexists _, (Array (a ++ w :: b ++ c)). split; [done|]. split.
    * rewrite (app_assoc a (x :: b) (y :: c) : a ++ x :: b ++ y :: c = (a ++ x :: b) ++ y :: c).
      rewrite (unsafe_remove_elem (a ++ x :: b) y c) by (rewrite ?vec_len_app, ?vec_len_cons; lia).
      simpl fst. rewrite <- app_assoc. cbn [app]. by rewrite (unsafe_replace_elem a x) by (done || lia).
    * rewrite (unsafe_replace_elem a x (b ++ y :: c) w) by (done || lia). simpl fst.
      rewrite (app_assoc a (w :: b) (y :: c) : a ++ w :: b ++ y :: c = (a ++ w :: b) ++ y :: c).
      rewrite (unsafe_remove_elem (a ++ w :: b) y c) by (rewrite ?vec_len_app, ?vec_len_cons; lia).
      by rewrite <- app_assoc.
Qed.
End rebase_lemmas.

(** ** Properties *)

Section properties.
Context `{JN : JNumber}.

(** C26: scoping a successful revision to a path (through objects) gives a
    patch that succeeds on the value a subscriber had there and turns it into the
    value there now, a missing value counting as [null]. *)
Theorem for_path_tracks (ptr : list str) (p : Patch) (doc doc' : Value) undo :
  value_wf doc = true -> patch_wf p = true -> forallb is_diff_op p = true ->
  path_stays ptr p doc = true -> patch doc p = Done (doc', Ok undo) ->
  exists q undo', DiffPatch_for_path ptr p = Done q /\
    patch (get_or_default ptr doc) q = Done (get_or_default ptr doc', Ok undo').
Proof.
  intros Hw Hp Hd Hs E.
  destruct (for_path_spec ptr p doc doc' Hw Hp Hd Hs) as (q & Hq & Hqu); [apply patch_ok_iff; eauto|].
  apply patch_ok_iff in Hqu as [u Hu]. eauto.
Qed.

(** On a successful patch [exists] tells whether the root became
    [null] (or says nothing when its null-ness did not change), and [keys]
    follows the key set of an object that is patched below the root. *)
Theorem exists_and_keys_track (p : Patch) (doc doc' : Value) (m : InOMap str Value) (K : list str) :
  forallb is_diff_op p = true -> patch_unsafe doc p = (doc', Ok tt) ->
  (exists b, DiffPatch_exists p = Done b /\
     Value_is_null doc' = match b with Some b => negb b | None => Value_is_null doc end)
  /\ (doc = Object m -> InOMap_wf m -> forallb op_inside p = true -> patch_reversible p doc = true ->
      (forall k, k ∈ K <-> is_Some (InOMap_get k m)) ->
      exists K' m', DiffPatch_keys p K = Done K' /\ doc' = Object m' /\
        forall k, k ∈ K' <-> is_Some (InOMap_get k m')).
Proof.
  intros Hd Hr. split.
  - apply (exists_loop_spec (Value_is_null doc) p doc doc' None Hd Hr). done.
  - intros -> Hw Hi Hrev HK. by eapply keys_spec.
Qed.

(** Rebasing the replacement of an array element onto an insertion or
    a removal elsewhere in the array adjusts its index so that both orders of
    the two changes give the same array. *)
Theorem rebase_converges (l : list Value) (i j : N) (v w : Value) :
  (vec_len l + 1 < usize_mod)%N -> (j < vec_len l)%N ->
  ((i <= vec_len l)%N ->
   exists q d, DiffPatch_rebase [Replace (at_idx j) w] [Add (at_idx i) v] = Done q
     /\ patch_unsafe (patch_unsafe (Array l) [Add (at_idx i) v]).1 q = (d, Ok tt)
     /\ patch_unsafe (patch_unsafe (Array l) [Replace (at_idx j) w]).1 [Add (at_idx i) v] = (d, Ok tt))
  /\ ((i < vec_len l)%N -> i ≠ j ->
   exists q d, DiffPatch_rebase [Replace (at_idx j) w] [Remove (at_idx i)] = Done q
     /\ patch_unsafe (patch_unsafe (Array l) [Remove (at_idx i)]).1 q = (d, Ok tt)
     /\ patch_unsafe (patch_unsafe (Array l) [Replace (at_idx j) w]).1 [Remove (at_idx i)] = (d, Ok tt)).
Proof.
  intros Hlen Hj. split.
  - by apply rebase_add_converges.
  - by apply rebase_remove_converges.
Qed.
End properties.

(** ** Witnesses *)

Module DiffPatchExamples.
#[local] Existing Instance ZNumber.

Definition doc3 : Value :=
  Object [($"a", Object [($"x", Num 1%Z); ($"y", Num 2%Z)]); ($"l", Array [Num 1%Z; Num 2%Z])].
Definition change : Patch := [Remove [$"a"; $"x"]; Add [$"l"; $"0"] Null; Replace [$"a"; $"y"] (Num 3%Z)].

Lemma for_path_tracks_witness :
  exists q undo, DiffPatch_for_path [$"a"] change = Done q /\
    patch (Object [($"x", Num 1%Z); ($"y", Num 2%Z)]) q = Done (Object [($"y", Num 3%Z)], Ok undo).
Proof.
  exact (for_path_tracks [$"a"] change doc3
    (Object [($"a", Object [($"y", Num 3%Z)]); ($"l", Array [Null; Num 1%Z; Num 2%Z])])
    [UndoReplace [$"a"; $"y"] (Num 2%Z); UndoAdd [$"l"; $"0"] None; UndoRemove [$"a"; $"x"] (Num 1%Z)]
    eq_refl eq_refl eq_refl eq_refl eq_refl).
Defined.

Lemma exists_and_keys_track_witness :
  exists b, DiffPatch_exists [Add [$"k"] Null] = Done b /\
    Value_is_null (Object [($"k", Null)]) = match b with Some b => negb b | None => false end.
Proof.
  exact (proj1 (exists_and_keys_track [Add [$"k"] Null] (Object []) (Object [($"k", Null)]) [] [] eq_refl eq_refl)).
Defined.

Lemma rebase_converges_witness :
  exists q d, DiffPatch_rebase [Replace (at_idx 1) (Num 9%Z)] [Remove (at_idx 0)] = Done q
    /\ patch_unsafe (patch_unsafe (Array [Num 1%Z; Num 2%Z]) [Remove (at_idx 0)]).1 q = (d, Ok tt)
    /\ patch_unsafe (patch_unsafe (Array [Num 1%Z; Num 2%Z]) [Replace (at_idx 1) (Num 9%Z)]).1 [Remove (at_idx 0)]
       = (d, Ok tt).
Proof.
  refine (proj2 (rebase_converges [Num 1%Z; Num 2%Z] 0 1 Null (Num 9%Z) _ _) _ _); by vm_compute.
Defined.

(** Below an array the scoped patch is not enough: the element at [/l/1] changes
    when [/l/0] is removed, and the subscriber is told nothing. *)
Lemma for_path_misses_shift :
  DiffPatch_for_path [$"l"; $"1"] [Remove [$"l"; $"0"]] = Done []
  /\ get_or_default [$"l"; $"1"] doc3 = Num 2%Z
  /\ get_or_default [$"l"; $"1"] (patch_unsafe doc3 [Remove [$"l"; $"0"]]).1 = Null.
Proof. by vm_compute. Qed.
End DiffPatchExamples.
