(* ===== verification/Subscriber.v ===== *)
(** * Subscriptions

    [shared-libs/crates/patch-db/core/src/subscriber.rs]: a [Broadcast] hands the
    revisions of the database, scoped to a path, to its subscribers; a [DbWatch]
    applies the revisions it receives to its copy of the value at that path.

    The two ends of a channel share it.  The channels live in [Channels], a
    [Sender] and its [Receiver] are the index of one of them, and every operation
    threads [Channels].  Tokio's channels and [serde_json]'s encoder are not part
    of the repository: they are the classes [Mpsc], [Bcast] and [SerdeJson], with
    the documented behaviour the theorems rely on as laws of [Mpsc]. *)
From stdpp Require Import list.
From S2P Require Import Prelude RustStr BTree InOrderMap JsonValue PtrDoc JsonPatch JsonDiff DiffPatch.

Local Open Scope rust_scope.

Inductive Poll (A : Type) : Type :=
| Ready (a : A)
| Pending.
Arguments Ready {A} a.
Arguments Pending {A}.

(** [tokio::sync::mpsc], unbounded: [None] is the [Err] of [send] and of
    [try_recv]; [queued] is what was sent and not yet received. *)
Class Mpsc (A : Type) := {
  mpsc : Type;
  mpsc_new : mpsc;
  mpsc_is_closed : mpsc -> bool;
  mpsc_send : mpsc -> A -> option mpsc;
  mpsc_try_recv : mpsc -> option (A * mpsc);
  mpsc_poll_recv : mpsc -> mpsc * Poll (option A);
  mpsc_drop_receiver : mpsc -> mpsc;
  queued : mpsc -> list A;
  mpsc_new_spec : queued mpsc_new = [] /\ mpsc_is_closed mpsc_new = false;
  mpsc_send_open : forall c a, mpsc_is_closed c = false ->
    exists c', mpsc_send c a = Some c' /\ queued c' = queued c ++ [a] /\ mpsc_is_closed c' = false;
  mpsc_send_closed : forall c a, mpsc_is_closed c = true -> mpsc_send c a = None;
  mpsc_try_recv_spec : forall c,
    match queued c with
    | [] => mpsc_try_recv c = None
    | a :: q => exists c', mpsc_try_recv c = Some (a, c') /\ queued c' = q
                  /\ mpsc_is_closed c' = mpsc_is_closed c
    end;
  mpsc_poll_recv_spec : forall c a c', mpsc_try_recv c = Some (a, c') ->
    mpsc_poll_recv c = (c', Ready (Some a));
  mpsc_poll_recv_empty : forall c, mpsc_try_recv c = None ->
    queued (mpsc_poll_recv c).1 = queued c /\ mpsc_is_closed (mpsc_poll_recv c).1 = mpsc_is_closed c
    /\ forall a, (mpsc_poll_recv c).2 ≠ Ready (Some a);
  mpsc_drop_receiver_spec : forall c, mpsc_is_closed (mpsc_drop_receiver c) = true;
}.

(** [tokio::sync::broadcast]: a channel with its receivers, which are numbered. *)
Class Bcast (J : Type) := {
  bcast : Type;
  bcast_new : N -> outcome bcast;
  bcast_receiver_count : bcast -> nat;
  bcast_subscribe : bcast -> bcast * nat;
  bcast_send : bcast -> J -> bcast;
  bcast_recv : bcast -> nat -> bcast * Poll (option J);
  bcast_drop_receiver : bcast -> nat -> bcast;
}.

(** [serde_json::to_vec] on a revision and on a dump. *)
Class SerdeJson `{JN : JNumber} := {
  Bytes : Type;
  JsonError : Type;
  to_vec_revision : Revision -> result Bytes JsonError;
  to_vec_dump : Dump -> result Bytes JsonError;
}.

(** [BTreeMap::entry(k).or_insert_with(default)] followed by an update of the
    value in place. *)
Section entry.
Context {K V : Type} (cmp : K -> K -> comparison).

Fixpoint BTreeMap_upsert (k : K) (default : V) (f : V -> V) (m : list (K * V)) : list (K * V) :=
  match m with
  | [] => [(k, f default)]
  | (x, w) :: r =>
      match cmp k x with
      | Lt => (k, f default) :: m
      | Eq => (x, f w) :: r
      | Gt => (x, w) :: BTreeMap_upsert k default f r
      end
  end.

Fixpoint BTreeMap_get (k : K) (m : list (K * V)) : option V :=
  match m with
  | [] => None
  | (x, w) :: r => if is_eq (cmp k x) then Some w else BTreeMap_get k r
  end.
End entry.

Definition path_cmp : list str -> list str -> comparison := list_cmp str_cmp.

Section Subscriber.
Context `{SJ : SerdeJson}.
Abbreviation JsonRevision := (result Bytes JsonError).
Context `{MC : !Mpsc Revision} `{BC : !Bcast JsonRevision}.

(** [crate::Error]; what other crates' errors carry is left out. *)
Inductive Error : Type :=
| ErrIO
| ErrJSON
| ErrJSONEncoding (e : JsonError)
| ErrCBOR
| ErrPointer (e : IndexError)
| ErrPatch (e : PatchError)
| ErrJoin
| ErrFDLock
| ErrCacheCorrupted (e : Error)
| ErrSubscriber
| ErrNodeDoesNotExist (ptr : list str)
| ErrPanic
| ErrWouldBlock.

(** ** The channels *)

Record Channels : Type := mkChannels { mpscs : list mpsc; bcasts : list bcast }.

Definition set_mpsc (w : Channels) (tx : nat) (c : mpsc) : Channels :=
  mkChannels (<[tx := c]> (mpscs w)) (bcasts w).

Definition set_bcast (w : Channels) (tx : nat) (c : bcast) : Channels :=
  mkChannels (mpscs w) (<[tx := c]> (bcasts w)).

Definition is_closed (w : Channels) (tx : nat) : bool :=
  match mpscs w !! tx with Some c => mpsc_is_closed c | None => true end.

Definition receiver_count (w : Channels) (tx : nat) : nat :=
  match bcasts w !! tx with Some c => bcast_receiver_count c | None => 0 end.

(** [sender.send(value)]: whether it returned [Ok]. *)
Definition send_to (w : Channels) (tx : nat) (value : Revision) : Channels * bool :=
  match mpscs w !! tx with
  | Some c =>
      match mpsc_send c value with Some c' => (set_mpsc w tx c', true) | None => (w, false) end
  | None => (w, false)
  end.

(** ** [Broadcast] *)

Record ScopedBroadcast : Type := mkScoped {
  unbounded : list nat;
  json : list (N * nat);
  dump : option Bytes;
}.

Definition ScopedBroadcast_default : ScopedBroadcast := mkScoped [] [] None.

Definition prune_unbounded (w : Channels) (s : ScopedBroadcast) : ScopedBroadcast :=
  mkScoped (List.filter (fun tx => negb (is_closed w tx)) (unbounded s)) (json s) (dump s).

Definition ScopedBroadcast_is_empty (s : ScopedBroadcast) : bool :=
  match unbounded s, json s with [], [] => true | _, _ => false end.

Definition Broadcast : Type := list (list str * ScopedBroadcast).

Definition Broadcast_new : Broadcast := [].

(** [unbounded.retain(|sender| sender.send(scoped.clone()).is_ok())] *)
Fixpoint send_unbounded (w : Channels) (txs : list nat) (scoped : Revision) : Channels * list nat :=
  match txs with
  | [] => (w, [])
  | tx :: r =>
      let '(w1, ok) := send_to w tx scoped in
      let '(w2, kept) := send_unbounded w1 r scoped in
      (w2, if ok then tx :: kept else kept)
  end.

(** [for sender in listeners.json.values() { let _ = sender.send(json.clone()); }] *)
Fixpoint send_json (w : Channels) (senders : list (N * nat)) (j : JsonRevision) : Channels :=
  match senders with
  | [] => w
  | (_, tx) :: r =>
      let w1 := match bcasts w !! tx with Some c => set_bcast w tx (bcast_send c j) | None => w end in
      send_json w1 r j
  end.

(** The closure of [send]: [None] when the entry is dropped. *)
Definition send_scope (w : Channels) (ptr : list str) (s0 : ScopedBroadcast) (value : Revision)
    : outcome (Channels * option ScopedBroadcast) :=
  let s1 := prune_unbounded w (mkScoped (unbounded s0) (json s0) None) in
  let s := mkScoped (unbounded s1)
             (List.filter (fun e => negb (receiver_count w e.2 =? 0)) (json s1)) (dump s1) in
  if ScopedBroadcast_is_empty s then Done (w, None)
  else
    let* scoped := Revision_for_path ptr value in
    if Patch_is_empty (rev_patch scoped) then Done (w, Some s)
    else
      let '(w1, kept) := send_unbounded w (unbounded s) scoped in
      let w2 := match json s with [] => w1 | _ => send_json w1 (json s) (to_vec_revision scoped) end in
      Done (w2, Some (mkScoped kept (json s) (dump s))).

Fixpoint Broadcast_send (w : Channels) (listeners : Broadcast) (value : Revision)
    : outcome (Channels * Broadcast) :=
  match listeners with
  | [] => Done (w, [])
  | (ptr, s) :: r =>
      let* (w1, o) := send_scope w ptr s value in
      let* (w2, r') := Broadcast_send w1 r value in
      Done (w2, match o with Some s' => (ptr, s') :: r' | None => r' end)
  end.

Definition prune_listeners (w : Channels) (b : Broadcast) : Broadcast :=
  List.filter (fun e => negb (ScopedBroadcast_is_empty e.2))
    (map (fun e => (e.1, prune_unbounded w e.2)) b).

Definition push_unbounded (tx : nat) (s : ScopedBroadcast) : ScopedBroadcast :=
  mkScoped (unbounded s ++ [tx]) (json s) (dump s).

(** The new channel is the last of [mpscs]; the receiver is its index. *)
Definition Broadcast_subscribe (w : Channels) (b : Broadcast) (ptr : list str)
    : Channels * Broadcast * nat :=
  let b1 := prune_listeners w b in
  let tx := length (mpscs w) in
  (mkChannels (mpscs w ++ [mpsc_new]) (bcasts w),
   BTreeMap_upsert path_cmp ptr ScopedBroadcast_default (push_unbounded tx) b1, tx).

Record JsonSubscriber : Type := mkJsonSub { js_receiver : option (nat * nat) }.

(** The sender of a capacity, made when there is none. *)
Definition sender_for (w : Channels) (s : ScopedBroadcast) (capacity : N)
    : outcome (Channels * nat * ScopedBroadcast) :=
  match BTreeMap_get N.compare capacity (json s) with
  | Some tx => Done (w, tx, s)
  | None =>
      let* c := bcast_new capacity in
      let tx := length (bcasts w) in
      Done (mkChannels (mpscs w) (bcasts w ++ [c]), tx,
            mkScoped (unbounded s) (BTreeMap_insert N.compare capacity tx (json s)) (dump s))
  end.

(** [subscribe_json]: the entry is made before the dump is encoded, so it stays
    when encoding fails. *)
Definition Broadcast_subscribe_json (w : Channels) (b : Broadcast) (ptr : list str) (d : Dump)
    (capacity : N) : outcome (Channels * Broadcast * result (Bytes * JsonSubscriber) Error) :=
  let b1 := BTreeMap_upsert path_cmp ptr ScopedBroadcast_default id b in
  let s := from_option id ScopedBroadcast_default (BTreeMap_get path_cmp ptr b1) in
  match (match dump s with Some j => Ok j | None => to_vec_dump d end) with
  | Err e => Done (w, b1, Err (ErrJSONEncoding e))
  | Ok j =>
      let s1 := mkScoped (unbounded s) (json s) (Some j) in
      let* (w1, tx, s2) := sender_for w s1 capacity in
      let* c := unwrap (bcasts w1 !! tx) in
      let '(c', rx) := bcast_subscribe c in
      Done (set_bcast w1 tx c',
            BTreeMap_upsert path_cmp ptr ScopedBroadcast_default (fun _ => s2) b1,
            Ok (j, mkJsonSub (Some (tx, rx))))
  end.

(** [JsonSubscriber::recv], polled once; [recv] of the channel is [None] when it
    is closed or lagged. *)
Definition JsonSubscriber_recv (w : Channels) (sub : JsonSubscriber)
    : Channels * JsonSubscriber * Poll (result (option Bytes) Error) :=
  match js_receiver sub with
  | None => (w, sub, Ready (Ok None))
  | Some (tx, rx) =>
      match bcasts w !! tx with
      | None => (w, mkJsonSub None, Ready (Ok None))
      | Some c =>
          match bcast_recv c rx with
          | (c', Pending) => (set_bcast w tx c', sub, Pending)
          | (c', Ready (Some (Ok j))) => (set_bcast w tx c', sub, Ready (Ok (Some j)))
          | (c', Ready (Some (Err e))) =>
              (set_bcast w tx (bcast_drop_receiver c' rx), mkJsonSub None, Ready (Err (ErrJSONEncoding e)))
          | (c', Ready None) =>
              (set_bcast w tx (bcast_drop_receiver c' rx), mkJsonSub None, Ready (Ok None))
          end
      end
  end.

(** ** [DbWatch] *)

Record DbWatch : Type := mkWatch { state : Value; subscriber : nat; seen : bool }.

Definition DbWatch_new (d : Dump) (sub : nat) : DbWatch := mkWatch (dump_value d) sub false.

Definition try_recv (w : Channels) (rx : nat) : option (Revision * Channels) :=
  c ← mpscs w !! rx; '(rev, c') ← mpsc_try_recv c; Some (rev, set_mpsc w rx c').

(** The [while let Ok(rev) = self.subscriber.try_recv()] loop of [sync]
    ([mark] = [true]: it resets [seen]) and of [poll_changed].  The fuel bounds
    the number of queued revisions. *)
Fixpoint drain (fuel : nat) (mark : bool) (w : Channels) (d : DbWatch)
    : outcome (Channels * DbWatch * result unit Error) :=
  match fuel with
  | 0 => Panic
  | S n =>
      match try_recv w (subscriber d) with
      | None => Done (w, d, Ok tt)
      | Some (rev, w1) =>
          let* (st, r) := patch (state d) (rev_patch rev) in
          match r with
          | Err e => Done (w1, mkWatch st (subscriber d) (seen d), Err (ErrPatch e))
          | Ok _ => drain n mark w1 (mkWatch st (subscriber d) (if mark then false else seen d))
          end
      end
  end.

Definition queue_of (w : Channels) (rx : nat) : list Revision :=
  match mpscs w !! rx with Some c => queued c | None => [] end.

Definition drain_fuel (w : Channels) (d : DbWatch) : nat := S (length (queue_of w (subscriber d))).

Definition DbWatch_sync (w : Channels) (d : DbWatch) : outcome (Channels * DbWatch * result unit Error) :=
  drain (drain_fuel w d) true w d.

Definition DbWatch_peek (w : Channels) (d : DbWatch) : outcome (Channels * DbWatch * result Value Error) :=
  let* (w1, d1, r) := DbWatch_sync w d in
  Done (w1, d1, match r with Ok _ => Ok (state d1) | Err e => Err e end).

Definition DbWatch_peek_and_mark_seen (w : Channels) (d : DbWatch)
    : outcome (Channels * DbWatch * result Value Error) :=
  let* (w1, d1, r) := DbWatch_sync w d in
  Done (match r with
        | Ok _ => (w1, mkWatch (state d1) (subscriber d1) true, Ok (state d1))
        | Err e => (w1, d1, Err e)
        end).

Definition poll_recv (w : Channels) (rx : nat) : Channels * Poll (option Revision) :=
  match mpscs w !! rx with
  | Some c => let '(c', p) := mpsc_poll_recv c in (set_mpsc w rx c', p)
  | None => (w, Ready None)
  end.

Definition DbWatch_poll_changed (w : Channels) (d : DbWatch)
    : outcome (Channels * DbWatch * Poll (result unit Error)) :=
  if negb (seen d) then Done (w, mkWatch (state d) (subscriber d) true, Ready (Ok tt))
  else
    match poll_recv w (subscriber d) with
    | (w1, Pending) => Done (w1, d, Pending)
    | (w1, Ready None) => Done (w1, d, Ready (Err ErrSubscriber))
    | (w1, Ready (Some rev)) =>
        let* (st, r) := patch (state d) (rev_patch rev) in
        let d1 := mkWatch st (subscriber d) (seen d) in
        match r with
        | Err e => Done (w1, d1, Ready (Err (ErrPatch e)))
        | Ok _ =>
            let* (w2, d2, r2) := drain (drain_fuel w1 d1) false w1 d1 in
            Done (w2, d2, Ready r2)
        end
    end.

(** [Stream::poll_next]: the item is never [None]. *)
Definition DbWatch_poll_next (w : Channels) (d : DbWatch)
    : outcome (Channels * DbWatch * Poll (result Value Error)) :=
  let* (w1, d1, p) := DbWatch_poll_changed w d in
  Done (w1, d1, match p with
                | Pending => Pending
                | Ready (Err e) => Ready (Err e)
                | Ready (Ok _) => Ready (Ok (state d1))
                end).
End Subscriber.

(** ** Lemmas: entries *)

Section entry_lemmas.
Context {K V : Type} (cmp : K -> K -> comparison) `{!OrdCmp cmp}.
Hypothesis cmp_eq : forall a b, cmp a b = Eq <-> a = b.

(** An upsert touches one place of the map, where [get] finds it again. *)
Lemma upsert_split k (default : V) m : exists a x r,
  (forall f, BTreeMap_upsert cmp k default f m = a ++ (k, f x) :: r)
  /\ (forall f g, BTreeMap_upsert cmp k default g (a ++ (k, f x) :: r) = a ++ (k, g (f x)) :: r)
  /\ (forall y, BTreeMap_get cmp k (a ++ (k, y) :: r) = Some y)
  /\ ((m = a ++ r /\ x = default) \/ m = a ++ (k, x) :: r).
Proof.
  induction m as [|[y w] m IH]; simpl.
  { exists [], default, []. simpl. rewrite (cmp_refl cmp). by split_and!; [..|left]. }
  destruct (cmp k y) eqn:E.
  - apply cmp_eq in E as <-. exists [], w, m. simpl. rewrite (cmp_refl cmp). by split_and!; [..|right].
  - exists [], default, ((y, w) :: m). simpl. rewrite (cmp_refl cmp). by split_and!; [..|left].
  - destruct IH as (a & x & r & H1 & H2 & H3 & H4). exists ((y, w) :: a), x, r. simpl. rewrite E. simpl.
    split_and!; [intros; by rewrite H1|intros; by rewrite H2|done|].
    destruct H4 as [[-> ->]| ->]; [by left|by right].
Qed.
End entry_lemmas.

#[export] Instance path_cmp_ord : OrdCmp path_cmp.
Proof. apply _. Qed.

Lemma path_cmp_eq a b : path_cmp a b = Eq <-> a = b.
Proof. apply list_cmp_eq, str_cmp_eq. Qed.

(** ** Lemmas: delivery *)

Section delivery.
Context `{SJ : SerdeJson}.
Context `{MC : !Mpsc Revision} `{BC : !Bcast (result Bytes JsonError)}.
Implicit Types (w : Channels) (b : Broadcast) (s : ScopedBroadcast) (rev : Revision) (tx : nat).

(** The senders of [txs] whose receiver is there. *)
Definition open_txs w (txs : list nat) : list nat := List.filter (fun t => negb (is_closed w t)) txs.

Lemma elem_of_open_txs w txs t : t ∈ open_txs w txs <-> t ∈ txs /\ is_closed w t = false.
Proof. unfold open_txs. by rewrite list_elem_of_In, filter_In, <- list_elem_of_In, negb_true_iff. Qed.

Lemma NoDup_open_txs w txs : NoDup txs -> NoDup (open_txs w txs).
Proof. intros H. by apply NoDup_ListNoDup, List.NoDup_filter, NoDup_ListNoDup. Qed.

Lemma open_txs_twice w txs : open_txs w (open_txs w txs) = open_txs w txs.
Proof.
  unfold open_txs. induction txs as [|t l IH]; simpl; [done|].
  destruct (is_closed w t) eqn:E; simpl; [done|]. rewrite E. simpl. by f_equal.
Qed.

(** [w'] differs from [w] in the channels [txs] only, and each of them that is
    open has received [revs]. *)
Record delivered w w' (txs : list nat) (revs : list Revision) : Prop := {
  del_len : length (mpscs w') = length (mpscs w);
  del_other : forall t, t ∉ txs -> mpscs w' !! t = mpscs w !! t;
  del_open : forall t, t ∈ txs -> is_closed w t = false ->
    is_closed w' t = false /\ queue_of w' t = queue_of w t ++ revs;
}.

Lemma delivered_nil w : delivered w w [] [].
Proof. split; [done..|]. by intros t ?%not_elem_of_nil. Qed.

Lemma same_channel w w' t : mpscs w' !! t = mpscs w !! t ->
  is_closed w' t = is_closed w t /\ queue_of w' t = queue_of w t.
Proof. unfold is_closed, queue_of. by intros ->. Qed.

Lemma send_to_spec w tx rev : is_closed w tx = false ->
  exists w', send_to w tx rev = (w', true) /\ delivered w w' [tx] [rev].
Proof.
  unfold is_closed, send_to. destruct (mpscs w !! tx) as [c|] eqn:E; [|done]. intros Ho.
  destruct (mpsc_send_open c rev Ho) as (c' & -> & Hq & Ho'). eexists. split; [done|]. split.
  - apply length_insert.
  - intros t Ht. simpl. apply list_lookup_insert_ne. intros <-. by apply Ht, list_elem_of_singleton.
  - intros t ->%list_elem_of_singleton _. unfold is_closed, queue_of. simpl.
    apply lookup_lt_Some in E as Hlt. rewrite list_lookup_insert_eq by done. by rewrite E.
Qed.

Lemma send_to_closed w tx rev : is_closed w tx = true -> send_to w tx rev = (w, false).
Proof.
  unfold is_closed, send_to. destruct (mpscs w !! tx) as [c|]; [|done]. intros Hc.
  by rewrite mpsc_send_closed.
Qed.

Lemma send_unbounded_spec w txs rev : NoDup txs ->
  exists w' kept, send_unbounded w txs rev = (w', kept) /\ delivered w w' txs [rev]
    /\ kept = open_txs w txs.
Proof.
  intros Hnd. revert w. induction Hnd as [|tx txs Hni Hnd IH]; intros w; simpl.
  { exists w, []. split; [done|]. split; [|done]. split; [done..|]. by intros t ?%not_elem_of_nil. }
  destruct (is_closed w tx) eqn:Ec; simpl.
  - rewrite send_to_closed by done. destruct (IH w) as (w' & kept & -> & [Hl Ho Hop] & ->).
    eexists _, _. split; [done|]. split; [|done]. split; [done| |].
    + intros t [_ Ht]%not_elem_of_cons. by apply Ho.
    + intros t [->|Ht]%elem_of_cons Hc; [congruence|]. by apply Hop.
  - destruct (send_to_spec w tx rev Ec) as (w1 & -> & [Hl1 Ho1 Hop1]).
    destruct (IH w1) as (w' & kept & -> & [Hl Ho Hop] & ->).
    assert (forall t, t ∈ txs -> mpscs w1 !! t = mpscs w !! t) as Hsame.
    { intros t Ht. apply Ho1. intros ->%list_elem_of_singleton. done. }
    eexists _, _. split; [done|]. split; [|].
    + split; [by rewrite Hl| |].
      * intros t [Hne Ht]%not_elem_of_cons. rewrite Ho by done. apply Ho1. by rewrite list_elem_of_singleton.
      * intros t [->|Ht]%elem_of_cons Hc.
        -- destruct (same_channel w1 w' tx (Ho _ Hni)) as [-> ->]. apply Hop1; [by apply list_elem_of_singleton|done].
        -- destruct (same_channel w w1 t (Hsame _ Ht)) as [E1 E2]. rewrite <- E2. apply Hop; [done|]. by rewrite E1.
    + f_equal. apply List.filter_ext_in. intros t Ht%list_elem_of_In.
      by rewrite (proj1 (same_channel w w1 t (Hsame _ Ht))).
Qed.

Lemma send_json_mpscs w senders j : mpscs (send_json w senders j) = mpscs w.
Proof.
  revert w. induction senders as [|[n tx] r IH]; intros w; simpl; [done|]. rewrite IH.
  by destruct (bcasts w !! tx).
Qed.

Lemma for_path_done ptr p : forallb is_diff_op p = true -> exists q, DiffPatch_for_path ptr p = Done q.
Proof.
  induction p as [|op p IH]; simpl; [eauto|]. intros [Ho Hp]%andb_true_iff.
  destruct (IH Hp) as [q ->].
  destruct op as [path v|path|path v| | |]; try done; simpl; repeat case_match; eauto.
Qed.

(** What a subscriber at [ptr] is sent for a revision. *)
Definition scoped_revs (ptr : list str) (rev : Revision) : list Revision :=
  match Revision_for_path ptr rev with
  | Done r => if Patch_is_empty (rev_patch r) then [] else [r]
  | Panic => []
  end.

Lemma send_scope_spec w ptr s rev : NoDup (unbounded s) -> forallb is_diff_op (rev_patch rev) = true ->
  exists w' o, send_scope w ptr s rev = Done (w', o)
    /\ delivered w w' (unbounded s) (scoped_revs ptr rev)
    /\ (forall s', o = Some s' -> dump s' = None
        /\ unbounded s' = open_txs w (unbounded s))
    /\ (forall t, t ∈ unbounded s -> is_closed w t = false -> is_Some o).
Proof.
  intros Hnd Hd. unfold send_scope, scoped_revs, Revision_for_path.
  destruct (for_path_done ptr (rev_patch rev) Hd) as [q ->].
  cbn [outcome_bind rev_patch prune_unbounded unbounded json dump].
  fold (open_txs w (unbounded s)). set (open := open_txs w (unbounded s)).
  set (js := List.filter _ (json s)).
  assert (NoDup open) as Hndo by by apply NoDup_open_txs.
  assert (forall w' r, delivered w w' open r -> delivered w w' (unbounded s) r) as Hweak.
  { intros w' r [Hl Ho Hdo]. split; [done| |].
    - intros t Ht. apply Ho. by intros [? _]%elem_of_open_txs.
    - intros t Ht Hc. apply Hdo; [|done]. by apply elem_of_open_txs. }
  assert (delivered w w (unbounded s) []) as Hid.
  { split; [done..|]. intros t _ Hc. by rewrite app_nil_r. }
  unfold ScopedBroadcast_is_empty. simpl.
  destruct (match open with [] => _ | _ => _ end) eqn:Ee.
  - exists w, None. split; [done|]. destruct open as [|t0 open'] eqn:Eo; [|done]. split.
    { destruct (Patch_is_empty q); [done|]. apply Hweak. split; [done..|]. by intros t ?%not_elem_of_nil. }
    split; [done|]. intros t Ht Hc. exfalso. apply (not_elem_of_nil t). rewrite <- Eo.
    by apply elem_of_open_txs.
  - destruct (Patch_is_empty q) eqn:Eq.
    { eexists _, _. split; [done|]. split; [done|]. split; [by intros s' [= <-]|]. eauto. }
    destruct (send_unbounded_spec w open (mkRevision (rev_id rev) q) Hndo) as (w1 & kept & -> & Hdel & Hk).
    eexists _, _. split; [done|]. split.
    { apply Hweak. destruct js; [done|]. destruct Hdel as [H1 H2 H3].
      split; unfold is_closed, queue_of in *; rewrite send_json_mpscs; auto. }
    split; [|eauto]. intros s' [= <-]. simpl. split; [done|]. rewrite Hk. apply open_txs_twice.
Qed.
End delivery.

(** ** The invariants of a broadcast and of a watch *)

Section tracking.
Context `{SJ : SerdeJson}.
Context `{MC : !Mpsc Revision} `{BC : !Bcast (result Bytes JsonError)}.
Implicit Types (w : Channels) (b : Broadcast) (s : ScopedBroadcast) (rev : Revision) (tx t : nat)
  (ptr : list str) (doc v st : Value) (d : DbWatch).

Definition all_txs b : list nat := mjoin ((fun e => unbounded e.2) <$> b).

(** Every sender is listed once and has its channel. *)
Record wired w b : Prop := {
  wired_nodup : NoDup (all_txs b);
  wired_lt : Forall (fun t => t < length (mpscs w)) (all_txs b);
}.

Definition listens b ptr t : Prop := exists s, (ptr, s) ∈ b /\ t ∈ unbounded s.

(** Applying the queued revisions to [st] succeeds and gives [v]. *)
Fixpoint replays st (q : list Revision) v : Prop :=
  match q with
  | [] => st = v
  | r :: q' => exists st', patch_unsafe st (rev_patch r) = (st', Ok tt) /\ replays st' q' v
  end.

(** The watch [d] at [ptr] is up to date once it has applied what is queued. *)
Record tracking w b ptr d doc : Prop := {
  tr_listens : listens b ptr (subscriber d);
  tr_open : is_closed w (subscriber d) = false;
  tr_wf : value_wf (state d) = true;
  tr_queue : Forall (fun r => db_patch (rev_patch r) = true) (queue_of w (subscriber d));
  tr_replays : exists v, replays (state d) (queue_of w (subscriber d)) v /\ veq v (get_or_default ptr doc);
}.

Lemma elem_of_all_txs b t : t ∈ all_txs b <-> exists ptr, listens b ptr t.
Proof.
  unfold all_txs, listens. rewrite list_elem_of_join. split.
  - intros (l & Ht & ([ptr s] & -> & Hin)%list_elem_of_fmap). eauto.
  - intros (ptr & s & Hin & Ht). exists (unbounded s). split; [done|].
    by apply (list_elem_of_fmap_2 (fun e : list str * ScopedBroadcast => unbounded e.2)) in Hin.
Qed.

Lemma replays_snoc st q v rev v' : replays st q v ->
  patch_unsafe v (rev_patch rev) = (v', Ok tt) -> replays st (q ++ [rev]) v'.
Proof.
  revert st. induction q as [|r q IH]; intros st; simpl; [intros ->; eauto|].
  intros (st' & ? & ?). eauto.
Qed.

Lemma replays_wf st q v : value_wf st = true -> Forall (fun r => db_patch (rev_patch r) = true) q ->
  replays st q v -> value_wf v = true.
Proof.
  intros Hw Hq. revert st Hw. induction Hq as [|r q Hr Hq IH]; intros st Hw; simpl; [by intros <-|].
  intros (st' & E & Hrep). apply (IH st'); [|done]. pose proof (db_patch_wf st _ Hw Hr) as H. by rewrite E in H.
Qed.

Lemma all_txs_cons e b : all_txs (e :: b) = unbounded e.2 ++ all_txs b.
Proof. done. Qed.

Lemma send_spec w b rev : wired w b -> forallb is_diff_op (rev_patch rev) = true ->
  exists w' b', Broadcast_send w b rev = Done (w', b') /\ wired w' b'
    /\ (forall t, t ∈ all_txs b' -> t ∈ all_txs b)
    /\ (forall t, t ∉ all_txs b -> mpscs w' !! t = mpscs w !! t)
    /\ length (mpscs w') = length (mpscs w)
    /\ Forall (fun e => dump e.2 = None) b'
    /\ forall ptr t, listens b ptr t -> is_closed w t = false ->
         listens b' ptr t /\ is_closed w' t = false /\ queue_of w' t = queue_of w t ++ scoped_revs ptr rev.
Proof.
  intros Hw Hd. revert w Hw. induction b as [|[ptr s] b IH]; intros w [Hnd Hlt]; simpl.
  { exists w, []. split; [done|]. split; [by split|]. split_and!; try done.
    intros ptr t (s & []%not_elem_of_nil & _). }
  rewrite all_txs_cons in Hnd, Hlt |- *. cbn [snd] in *.
  apply NoDup_app in Hnd as (Hn1 & Hdis & Hn2). apply Forall_app in Hlt as [Hl1 Hl2].
  destruct (send_scope_spec w ptr s rev Hn1 Hd) as (w1 & o & -> & [Hlen Hoth Hop] & Hkept & Hsome).
  cbn [outcome_bind].
  destruct (IH w1) as (w2 & b' & -> & [Hnd' Hlt'] & Hsub & Hoth2 & Hlen2 & Hdump & Hlis).
  { split; [done|]. by rewrite Hlen. }
  cbn [outcome_bind]. set (b2 := match o with Some s' => (ptr, s') :: b' | None => b' end).
  assert (forall t, t ∈ all_txs b2 -> (t ∈ unbounded s /\ exists s', o = Some s' /\ t ∈ unbounded s') \/ t ∈ all_txs b') as Hb2.
  { unfold b2. destruct o as [s'|]; [|by right]. rewrite all_txs_cons. intros t [Ht|Ht]%elem_of_app; [left|by right].
    split; [|eauto]. cbn [snd] in Ht. rewrite (proj2 (Hkept s' eq_refl)) in Ht.
    by apply elem_of_open_txs in Ht as [Ht _]. }
  assert (forall t, t ∈ all_txs b2 -> t ∈ unbounded s ++ all_txs b) as Hincl.
  { intros t [[? _]|?]%Hb2; apply elem_of_app; [by left|right; by apply Hsub]. }
  exists w2, b2. split; [done|]. split_and!; [split|..].
  - unfold b2. destruct o as [s'|]; [|done]. rewrite all_txs_cons. apply NoDup_app. split_and!; [..|done].
    + cbn [snd]. rewrite (proj2 (Hkept s' eq_refl)). by apply NoDup_open_txs.
    + intros t Ht Ht'. cbn [snd] in Ht. rewrite (proj2 (Hkept s' eq_refl)) in Ht.
      apply elem_of_open_txs in Ht as [Ht _]. by apply (Hdis t), Hsub.
  - rewrite Hlen2, Hlen. apply list.Forall_forall. intros t Ht%Hincl.
    assert (Forall (fun t => t < length (mpscs w)) (unbounded s ++ all_txs b)) as HF by by apply Forall_app.
    rewrite list.Forall_forall in HF. by apply HF.
  - done.
  - intros t [H1 H2]%not_elem_of_app. rewrite Hoth2 by done. by apply Hoth.
  - by rewrite Hlen2.
  - unfold b2. destruct o as [s'|]; [|done]. constructor; [|done]. by apply (Hkept s').
  - intros ptr0 t (s0 & [[= -> ->]|Hin]%elem_of_cons & Ht) Hc.
    + destruct (Hsome t Ht Hc) as [s' ->].
      assert (t ∉ all_txs b) as Hni by (intros ?; by apply (Hdis t)).
      destruct (same_channel w1 w2 t (Hoth2 t Hni)) as [-> ->]. split; [|by apply Hop].
      exists s'. split; [by left|]. rewrite (proj2 (Hkept s' eq_refl)). by apply elem_of_open_txs.
    + assert (listens b ptr0 t) as Hl by by exists s0.
      assert (t ∉ unbounded s) as Hni.
      { intros Hts. apply (Hdis t Hts), elem_of_all_txs. eauto. }
      destruct (same_channel w w1 t (Hoth t Hni)) as [E1 E2].
      destruct (Hlis ptr0 t Hl) as ((s' & Hs' & Hts') & ? & ?); [by rewrite E1|].
      rewrite E2 in *. split; [|done]. exists s'. split; [|done].
      unfold b2. destruct o; [by right|done].
Qed.

(** *** Tracking is kept by every operation *)

Lemma tracking_frame w w' b b' ptr d doc : tracking w b ptr d doc ->
  listens b' ptr (subscriber d) -> mpscs w' !! subscriber d = mpscs w !! subscriber d ->
  tracking w' b' ptr d doc.
Proof.
  intros [_ Ho Hw Hq Hr] Hl E. destruct (same_channel w w' _ E) as [E1 E2].
  split; [done|by rewrite E1|done|by rewrite E2|by rewrite E2].
Qed.

Lemma tracking_veq w b ptr d doc doc' : veq doc doc' -> tracking w b ptr d doc -> tracking w b ptr d doc'.
Proof.
  intros Hv [? ? ? ? (v & ? & Hvv)]. split; [done..|]. exists v. split; [done|].
  etrans; [done|]. by apply scoped_proper.
Qed.

Lemma tracking_send w b rev ptr d doc doc' w' b' : wired w b -> tracking w b ptr d doc ->
  value_wf doc = true -> db_patch (rev_patch rev) = true ->
  path_stays ptr (rev_patch rev) doc = true -> patch_unsafe doc (rev_patch rev) = (doc', Ok tt) ->
  Broadcast_send w b rev = Done (w', b') -> tracking w' b' ptr d doc'.
Proof.
  intros Hwi [Hl Ho Hws Hq (v & Hr & Hv)] Hw Hdb Hs E Es. pose proof (proj1 (db_patch_spec _) Hdb) as [Hp Hd].
  destruct (send_spec w b rev Hwi Hd) as (w1 & b1 & E1 & _ & _ & _ & _ & _ & Hlis).
  rewrite Es in E1. injection E1 as <- <-. destruct (Hlis ptr _ Hl Ho) as (Hl' & Ho' & Hq').
  destruct (for_path_spec ptr _ doc doc' Hw Hp Hd Hs E) as (q & Eq & Hpq).
  pose proof (for_path_db _ _ _ Hdb Eq) as Hdq.
  destruct (db_patch_proper _ v q _ (scoped_wf ptr doc Hw) (replays_wf _ _ _ Hws Hq Hr) Hdq Hv Hpq) as (v' & Ev & Hv').
  assert (queue_of w' (subscriber d) = queue_of w (subscriber d) ++
    if Patch_is_empty q then [] else [mkRevision (rev_id rev) q]) as Hqq.
  { rewrite Hq'. unfold scoped_revs, Revision_for_path. rewrite Eq. cbn [outcome_bind rev_patch]. by destruct q. }
  split; [done..| |]; rewrite Hqq; destruct q as [|op q]; simpl; rewrite ?app_nil_r; try done.
  - apply Forall_app. split; [done|]. by repeat constructor.
  - exists v. injection Ev as ->. done.
  - exists v'. split; [|done]. by eapply replays_snoc.
Qed.

(** Taking a revision off the channel of [rx] changes no other channel. *)
Lemma try_recv_spec w rx : is_closed w rx = false ->
  match queue_of w rx with
  | [] => try_recv w rx = None
  | r :: q => exists w', try_recv w rx = Some (r, w') /\ queue_of w' rx = q /\ is_closed w' rx = false
      /\ (forall t, t ≠ rx -> mpscs w' !! t = mpscs w !! t) /\ length (mpscs w') = length (mpscs w)
      /\ poll_recv w rx = (w', Ready (Some r))
  end.
Proof.
  unfold is_closed, queue_of, try_recv, poll_recv. destruct (mpscs w !! rx) as [c|] eqn:E; [|done]. intros Ho.
  pose proof (mpsc_try_recv_spec c) as Hc. destruct (queued c) as [|r q]; simpl; [by rewrite Hc|].
  destruct Hc as (c' & Ec & Hq & Ho'). rewrite (mpsc_poll_recv_spec _ _ _ Ec), Ec. simpl.
  apply lookup_lt_Some in E as Hlt. eexists. split; [done|]. simpl.
  rewrite list_lookup_insert_eq, length_insert by done. split_and!; [done|congruence| |done|done].
  intros t Ht. by apply list_lookup_insert_ne.
Qed.

(** The loop applies everything that is queued. *)
Lemma drain_spec mark fuel w d v : is_closed w (subscriber d) = false ->
  length (queue_of w (subscriber d)) < fuel -> replays (state d) (queue_of w (subscriber d)) v ->
  exists w' d', drain fuel mark w d = Done (w', d', Ok tt) /\ state d' = v
    /\ subscriber d' = subscriber d /\ queue_of w' (subscriber d) = [] /\ is_closed w' (subscriber d) = false
    /\ (forall t, t ≠ subscriber d -> mpscs w' !! t = mpscs w !! t)
    /\ length (mpscs w') = length (mpscs w)
    /\ seen d' = match queue_of w (subscriber d) with [] => seen d | _ => if mark then false else seen d end.
Proof.
  remember (queue_of w (subscriber d)) as q eqn:Eq. revert fuel w d Eq.
  induction q as [|r q IH]; intros fuel w d Eq Ho Hlen Hrep; (destruct fuel as [|n]; [simpl in Hlen; lia|]);
    cbn [drain]; pose proof (try_recv_spec w (subscriber d) Ho) as Ht; rewrite <- Eq in Ht.
  - rewrite Ht. exists w, d. by split_and!.
  - destruct Ht as (w1 & -> & Hq1 & Ho1 & Hoth1 & Hl1 & _). destruct Hrep as (st' & Hpu & Hrep).
    apply patch_ok_iff in Hpu as [u ->]. cbn [outcome_bind].
    destruct (IH n w1 (mkWatch st' (subscriber d) (if mark then false else seen d)))
      as (w' & d' & -> & ? & ? & ? & ? & Hoth & Hl & Hs); simpl in *; [done|done|lia|done|].
    exists w', d'. split_and!; [done..| | |].
    + intros t Hne. rewrite Hoth by done. by apply Hoth1.
    + congruence.
    + rewrite Hs. by destruct q, mark.
Qed.

(** A drained watch still tracks and holds the present value. *)
Lemma tracking_drain mark w b ptr d doc : tracking w b ptr d doc ->
  exists w' d', drain (drain_fuel w d) mark w d = Done (w', d', Ok tt)
    /\ veq (state d') (get_or_default ptr doc) /\ tracking w' b ptr d' doc /\ subscriber d' = subscriber d
    /\ (forall t, t ≠ subscriber d -> mpscs w' !! t = mpscs w !! t)
    /\ length (mpscs w') = length (mpscs w)
    /\ seen d' = match queue_of w (subscriber d) with [] => seen d | _ => if mark then false else seen d end.
Proof.
  intros [Hl Ho Hw Hqq (v & Hr & Hv)].
  destruct (drain_spec mark (drain_fuel w d) w d v Ho (Nat.lt_succ_diag_r _) Hr)
    as (w' & d' & E & Hst & Hsub & Hq & Ho' & Hoth & Hlen & Hs).
  pose proof (replays_wf _ _ _ Hw Hqq Hr) as Hwv.
  exists w', d'. rewrite Hst. split_and!; try done.
  split; rewrite ?Hsub, ?Hst, ?Hq; [done..|]. by exists v.
Qed.

Lemma tracking_poll_empty w b ptr d doc : tracking w b ptr d doc -> seen d = true ->
  queue_of w (subscriber d) = [] ->
  exists w' p, DbWatch_poll_changed w d = Done (w', d, p) /\ tracking w' b ptr d doc
    /\ (forall t, t ≠ subscriber d -> mpscs w' !! t = mpscs w !! t)
    /\ length (mpscs w') = length (mpscs w).
Proof.
  intros [Hl Ho Hw Hqq Hr] Es Eq. unfold DbWatch_poll_changed, poll_recv. rewrite Es. cbn [negb].
  unfold is_closed, queue_of in Ho, Eq. destruct (mpscs w !! subscriber d) as [c|] eqn:Ec; [|done].
  pose proof (mpsc_try_recv_spec c) as Ht. rewrite Eq in Ht. destruct (mpsc_poll_recv_empty c Ht) as (Hq & Hcl & Hp).
  destruct (mpsc_poll_recv c) as [c' p]. simpl in *. apply lookup_lt_Some in Ec as Hlt.
  assert (tracking (set_mpsc w (subscriber d) c') b ptr d doc) as Htr.
  { unfold queue_of in Hqq, Hr. rewrite Ec, Eq in Hqq, Hr.
    split; unfold is_closed, queue_of; simpl; rewrite ?list_lookup_insert_eq by done; [done|congruence|done|..];
      by rewrite Hq, Eq. }
  assert (forall t, t ≠ subscriber d -> mpscs (set_mpsc w (subscriber d) c') !! t = mpscs w !! t) as Hoth.
  { intros t Hne. simpl. by apply list_lookup_insert_ne. }
  destruct p as [[rev|]|]; [by destruct (Hp rev)|..]; (eexists _, _; split; [done|]; split; [done|]; split; [done|]; apply length_insert).
Qed.

(** [poll_changed]: at first it reports the initial value; later it is pending
    while nothing is queued, and otherwise brings the watch up to date. *)
Lemma tracking_poll_changed w b ptr d doc : tracking w b ptr d doc ->
  (seen d = true -> queue_of w (subscriber d) ≠ []) ->
  exists w' d', DbWatch_poll_changed w d = Done (w', d', Ready (Ok tt)) /\ seen d' = true
    /\ (seen d = true -> veq (state d') (get_or_default ptr doc))
    /\ tracking w' b ptr d' doc /\ subscriber d' = subscriber d
    /\ (forall t, t ≠ subscriber d -> mpscs w' !! t = mpscs w !! t)
    /\ length (mpscs w') = length (mpscs w).
Proof.
  intros Htr Hne. unfold DbWatch_poll_changed. destruct (seen d) eqn:Es; cbn [negb].
  2:{ exists w, (mkWatch (state d) (subscriber d) true). destruct Htr. by split_and!. }
  specialize (Hne eq_refl). destruct Htr as [Hl Ho Hw Hqq (v & Hr & Hv)].
  pose proof (try_recv_spec w (subscriber d) Ho) as Ht.
  destruct (queue_of w (subscriber d)) as [|r q] eqn:Eq; [done|]. inversion Hqq as [|? ? Hdb Hqq']; subst.
  destruct Ht as (w1 & _ & Hq1 & Ho1 & Hoth1 & Hl1 & ->). destruct Hr as (st' & Hpu & Hrep).
  pose proof (db_patch_wf _ _ Hw Hdb) as Hw'. rewrite Hpu in Hw'.
  apply patch_ok_iff in Hpu as [u ->]. cbn [outcome_bind].
  destruct (tracking_drain false w1 b ptr (mkWatch st' (subscriber d) true) doc) as
    (w' & d' & -> & Hst & Htr & Hsub & Hoth & Hlen & Hs).
  { split; simpl; rewrite ?Hq1; [done..|]. eauto. }
  cbn [outcome_bind]. exists w', d'. simpl in *. split_and!; try done.
  - rewrite Hs. by destruct (queue_of w1 _).
  - intros t Ht. rewrite Hoth by done. by apply Hoth1.
  - congruence.
Qed.

(** *** Subscribing *)

Lemma all_txs_app b b' : all_txs (b ++ b') = all_txs b ++ all_txs b'.
Proof. unfold all_txs. by rewrite fmap_app, join_app. Qed.

Lemma listens_app b b' ptr t : listens (b ++ b') ptr t <-> listens b ptr t \/ listens b' ptr t.
Proof. unfold listens. setoid_rewrite elem_of_app. split; [intros (s & [?|?] & ?)|intros [(s & ? & ?)|(s & ? & ?)]]; eauto. Qed.

Lemma listens_cons ptr' s b ptr t :
  listens ((ptr', s) :: b) ptr t <-> (ptr' = ptr /\ t ∈ unbounded s) \/ listens b ptr t.
Proof.
  unfold listens. setoid_rewrite elem_of_cons. split.
  - intros (s0 & [[= -> ->]|?] & ?); [by left|]. right. eauto.
  - intros [[-> ?]|(s0 & ? & ?)]; eauto.
Qed.

(** An upsert that appends [new] to the senders of its entry. *)
Lemma upsert_txs b ptr f new : (forall s, unbounded (f s) = unbounded s ++ new) ->
  let b' := BTreeMap_upsert path_cmp ptr ScopedBroadcast_default f b in
  all_txs b' ≡ₚ new ++ all_txs b
  /\ (forall ptr0 t, listens b ptr0 t -> listens b' ptr0 t) /\ (forall t, t ∈ new -> listens b' ptr t).
Proof.
  intros Hf. destruct (upsert_split path_cmp path_cmp_eq ptr ScopedBroadcast_default b)
    as (a & x & r & Hu & _ & _ & Hb). cbn zeta. rewrite (Hu f), all_txs_app, all_txs_cons. cbn [snd]. rewrite Hf.
  split_and!.
  - transitivity (new ++ all_txs a ++ unbounded x ++ all_txs r).
    { rewrite !(assoc_L (++)). by rewrite <- !(assoc_L (++)), (Permutation_app_swap_app (unbounded x) new),
        (Permutation_app_swap_app (all_txs a) new). }
    by destruct Hb as [[-> ->]| ->]; rewrite all_txs_app, ?all_txs_cons.
  - intros ptr0 t. rewrite listens_app, listens_cons, Hf, elem_of_app.
    destruct Hb as [[-> ->]| ->]; rewrite !listens_app, ?listens_cons; tauto.
  - intros t Ht. rewrite listens_app, listens_cons, Hf, elem_of_app. tauto.
Qed.

(** Pruning drops closed senders only. *)
Lemma prune_listens w b ptr t : is_closed w t = false -> listens b ptr t -> listens (prune_listeners w b) ptr t.
Proof.
  intros Ho (s & Hin & Ht). exists (prune_unbounded w s).
  assert (t ∈ unbounded (prune_unbounded w s)) as Ht'.
  { change (t ∈ open_txs w (unbounded s)). by apply elem_of_open_txs. }
  split; [|done]. apply list_elem_of_In, filter_In. split.
  - apply in_map_iff. exists (ptr, s). split; [done|]. by apply list_elem_of_In.
  - unfold ScopedBroadcast_is_empty. cbn [snd]. destruct (unbounded (prune_unbounded w s)); [|done].
    by apply not_elem_of_nil in Ht'.
Qed.

Lemma prune_sublist w b : sublist (all_txs (prune_listeners w b)) (all_txs b).
Proof.
  unfold prune_listeners. induction b as [|[ptr s] b IH]; simpl; [done|]. rewrite all_txs_cons.
  assert (sublist (open_txs w (unbounded s)) (unbounded s)) as Hs.
  { unfold open_txs. induction (unbounded s) as [|t l IHl]; simpl; [done|].
    destruct (negb _); by constructor. }
  destruct (ScopedBroadcast_is_empty _); simpl; [by apply sublist_inserts_l|].
  rewrite all_txs_cons. by apply sublist_app.
Qed.

Lemma wired_prune w b : wired w b -> wired w (prune_listeners w b).
Proof.
  intros [Hn Hl]. pose proof (prune_sublist w b) as Hs. split; [by eapply sublist_NoDup|].
  rewrite list.Forall_forall in Hl |- *. intros t Ht. apply Hl. by eapply elem_of_submseteq, sublist_submseteq.
Qed.

(** [subscribe] makes a channel that nothing else uses and registers it. *)
Lemma subscribe_spec w b ptr w' b' tx : wired w b -> Broadcast_subscribe w b ptr = (w', b', tx) ->
  wired w' b' /\ tx = length (mpscs w) /\ length (mpscs w') = S (length (mpscs w))
  /\ listens b' ptr tx /\ is_closed w' tx = false /\ queue_of w' tx = []
  /\ (forall t, t < length (mpscs w) -> mpscs w' !! t = mpscs w !! t)
  /\ (forall ptr0 t, listens b ptr0 t -> is_closed w t = false -> listens b' ptr0 t).
Proof.
  intros Hw. unfold Broadcast_subscribe. intros [= <- <- <-].
  destruct (wired_prune w b Hw) as [Hn Hl].
  destruct (upsert_txs (prune_listeners w b) ptr (push_unbounded (length (mpscs w))) [length (mpscs w)])
    as (Hp & Hlis & Hnew); [done|].
  assert ((mpscs w ++ [mpsc_new]) !! length (mpscs w) = Some mpsc_new) as E
    by by rewrite lookup_app_r, Nat.sub_diag.
  destruct mpsc_new_spec as [Hq Hc]. split_and!.
  - split; simpl.
    + rewrite Hp. apply NoDup_cons. split; [|done]. intros Hin. rewrite list.Forall_forall in Hl.
      apply Hl in Hin. lia.
    + rewrite length_app, Hp. constructor; [simpl; lia|]. eapply Forall_impl; [done|]. simpl. lia.
  - done.
  - simpl. rewrite length_app. simpl. lia.
  - apply Hnew. by left.
  - unfold is_closed. simpl. by rewrite E.
  - unfold queue_of. simpl. by rewrite E.
  - intros t Ht. simpl. by apply lookup_app_l.
  - intros ptr0 t Hlt Ho. by apply Hlis, prune_listens.
Qed.

(** ** The cached dumps *)

(** Every cached dump encodes the revision [r] and the value of [doc] there. *)
Definition dump_current (r : N) doc ptr (j : Bytes) : Prop :=
  exists v, veq v (get_or_default ptr doc) /\ to_vec_dump (mkDump r v) = Ok j.

Definition dumps_current b (r : N) doc : Prop :=
  Forall (fun e => forall j, dump e.2 = Some j -> dump_current r doc e.1 j) b.

Lemma dumps_current_veq b r doc doc' : veq doc doc' -> dumps_current b r doc -> dumps_current b r doc'.
Proof.
  intros Hv Hd. eapply Forall_impl; [exact Hd|]. intros e He j Hj. destruct (He j Hj) as (v & ? & ?).
  exists v. split; [|done]. etrans; [done|]. by apply scoped_proper.
Qed.

Lemma sender_for_spec w s cap w' tx s' : sender_for w s cap = Done (w', tx, s') ->
  mpscs w' = mpscs w /\ unbounded s' = unbounded s /\ dump s' = dump s.
Proof.
  unfold sender_for. destruct (BTreeMap_get _ _ _); [by intros [= <- <- <-]|].
  destruct (bcast_new cap); [|done]. by intros [= <- <- <-].
Qed.

(** [subscribe_json] leaves the watches alone and answers with the present dump,
    cached or not. *)
Lemma subscribe_json_spec w b ptr r doc cap w' b' res : wired w b -> dumps_current b r doc ->
  Broadcast_subscribe_json w b ptr (mkDump r (get_or_default ptr doc)) cap = Done (w', b', res) ->
  wired w' b' /\ dumps_current b' r doc /\ mpscs w' = mpscs w
  /\ (forall ptr0 t, listens b ptr0 t -> listens b' ptr0 t)
  /\ match res with
     | Ok (j, _) => dump_current r doc ptr j
     | Err e => exists e', e = ErrJSONEncoding e' /\ to_vec_dump (mkDump r (get_or_default ptr doc)) = Err e'
     end.
Proof.
  intros [Hn Hl] Hd. unfold Broadcast_subscribe_json.
  destruct (upsert_split path_cmp path_cmp_eq ptr ScopedBroadcast_default b)
    as (a & x & z & Hu & Huu & Hg & Hb). rewrite (Hu id), Hg. cbn [from_option id].
  assert (Forall (fun e => forall j, dump e.2 = Some j -> dump_current r doc e.1 j) ((ptr, x) :: a ++ z)) as HF.
  { destruct Hb as [[-> ->]| ->]; [by constructor|]. unfold dumps_current in Hd.
    by rewrite <- Permutation_middle in Hd. }
  assert (forall y, unbounded y = unbounded x -> (forall j, dump y = Some j -> dump_current r doc ptr j) ->
    (forall w', mpscs w' = mpscs w -> wired w' (a ++ (ptr, y) :: z)) /\ dumps_current (a ++ (ptr, y) :: z) r doc
    /\ (forall ptr0 t, listens b ptr0 t -> listens (a ++ (ptr, y) :: z) ptr0 t)) as Hy.
  { intros y Hyx Hyd.
    destruct (upsert_txs b ptr (fun s => mkScoped (unbounded s) (json y) (dump y)) []) as (Hp & Hlis & _);
      [intros s; symmetry; apply app_nil_r|].
    rewrite Hu, <- Hyx in Hp, Hlis. replace (mkScoped (unbounded y) (json y) (dump y)) with y in * by by destruct y.
    split_and!; [| |done].
    - intros w1 E. split; rewrite Hp; [done|]. by rewrite E.
    - unfold dumps_current. rewrite <- Permutation_middle. inversion HF; subst. by constructor. }
  inversion HF as [|? ? Hx _]; subst. cbn [fst snd] in Hx.
  destruct (Hy x eq_refl Hx) as (Hw0 & Hd0 & Hl0).
  destruct (match dump x with Some j => Ok j | None => to_vec_dump _ end) as [j|e] eqn:Ej.
  2:{ intros [= <- <- <-]. split_and!; try done; [by apply Hw0|]. destruct (dump x); [done|]. eauto. }
  assert (dump_current r doc ptr j) as Hj.
  { destruct (dump x) as [j'|]; [|by exists (get_or_default ptr doc)]. injection Ej as <-. by apply Hx. }
  destruct (sender_for w _ cap) as [[[w1 tx] s2]|] eqn:Es; [|done]. cbn [outcome_bind].
  apply sender_for_spec in Es as (Em & Eu & Ed). cbn [unbounded dump] in Eu, Ed.
  destruct (bcasts w1 !! tx) as [c|]; [|done]. cbn [unwrap outcome_bind].
  destruct (bcast_subscribe c) as [c' rx]. pose proof (Huu id (fun _ => s2)) as E2. cbn [id] in E2.
  rewrite E2. intros [= <- <- <-].
  destruct (Hy s2 Eu) as (Hw2 & Hd2 & Hl2); [rewrite Ed; congruence|]. split_and!; try done. by apply Hw2.
Qed.

Lemma subscribe_dumps w b ptr w' b' tx r doc : dumps_current b r doc ->
  Broadcast_subscribe w b ptr = (w', b', tx) -> dumps_current b' r doc.
Proof.
  unfold Broadcast_subscribe. intros Hd [= _ <- _].
  assert (dumps_current (prune_listeners w b) r doc) as Hd'.
  { unfold dumps_current, prune_listeners in *. rewrite list.Forall_forall in Hd |- *.
    intros e He. apply list_elem_of_In, filter_In in He as [([p s] & <- & Hin)%in_map_iff _].
    apply list_elem_of_In in Hin. exact (Hd _ Hin). }
  destruct (upsert_split path_cmp path_cmp_eq ptr ScopedBroadcast_default (prune_listeners w b))
    as (a & x & z & Hu & _ & _ & Hb). rewrite Hu. unfold dumps_current in *.
  destruct Hb as [[Hb ->]| Hb]; rewrite Hb in Hd'.
  - rewrite <- Permutation_middle. by constructor.
  - rewrite <- Permutation_middle in Hd' |- *. by inversion Hd'; constructor.
Qed.

Lemma no_dumps_current b r doc : Forall (fun e => dump e.2 = None) b -> dumps_current b r doc.
Proof. intros H. eapply Forall_impl; [done|]. simpl. intros e -> j. done. Qed.
End tracking.

(** ** Instances to evaluate with *)

(** A channel is its queue and whether the receiver was dropped. *)
Definition ListMpsc (A : Type) : Mpsc A.
Proof.
  refine {| mpsc := list A * bool; mpsc_new := ([], false);
            mpsc_is_closed c := c.2;
            mpsc_send c a := if (c.2 : bool) then None else Some (c.1 ++ [a], false);
            mpsc_try_recv c := match c.1 with [] => None | a :: q => Some (a, (q, c.2)) end;
            mpsc_poll_recv c := match c.1 with [] => (c, Pending) | a :: q => ((q, c.2), Ready (Some a)) end;
            mpsc_drop_receiver c := (c.1, true);
            queued c := c.1 |}.
  - done.
  - intros [q c] a. simpl. intros ->. eauto.
  - intros [q c] a. simpl. by intros ->.
  - intros [[|a q] c]; simpl; eauto.
  - intros [[|b q] c] a c'; simpl; [done|]. by intros [= <- <-].
  - by intros [[|b q] c].
  - done.
Defined.

(** A receiver is dropped ([None]), lagged ([Some None]) or has a queue. *)
Definition ListBcast (J : Type) : Bcast J := {|
  bcast := N * list (option (option (list J)));
  bcast_new cap := if (usize_mod / 2 <? cap + 1)%N then Panic else Done (cap, []);
  bcast_receiver_count c := length (List.filter (fun r => match r with Some _ => true | None => false end) c.2);
  bcast_subscribe c := ((c.1, c.2 ++ [Some (Some [])]), length c.2);
  bcast_send c j := (c.1, map (fmap (fun r => q ← r; if (N.of_nat (length q) <? c.1)%N then Some (q ++ [j]) else None)) c.2);
  bcast_recv c rx :=
    match c.2 !! rx with
    | Some (Some (Some (j :: q))) => ((c.1, <[rx := Some (Some q)]> c.2), Ready (Some j))
    | Some (Some (Some [])) => (c, Pending)
    | _ => (c, Ready None)
    end;
  bcast_drop_receiver c rx := (c.1, <[rx := None]> c.2);
|}.

(** An encoder that keeps what it encodes. *)
Definition KeepJson `{JN : JNumber} : SerdeJson := {|
  Bytes := Revision + Dump; JsonError := Empty_set;
  to_vec_revision r := Ok (inl r); to_vec_dump d := Ok (inr d);
|}.
