(* ===== verification/Store.v ===== *)
(** * The store

    [shared-libs/crates/patch-db/core/src/store.rs], [Store]: the document with
    its revision number, kept in memory and on disk.  The file holds a revision
    number, a document and the patches applied since, each encoded by
    [serde_cbor]; [apply] appends a patch, every 4096th revision and every [open]
    rewrite the file through a backup.

    The disk is the content of the files [open] looks at: the store's file, its
    [.bak], [.bak.tmp] and [.failed].  Every I/O call consumes an event that says
    whether it succeeds, fails, or the machine stops there; a write that fails or
    is cut off may have written any prefix of its bytes.  When the machine stops,
    each file keeps at least what was synced of it and loses any part of the end
    that was not ([restarts]).  Renaming, truncating and removing a file are atomic
    and last.  That a file is missing is not told apart from that it is empty, and
    the lock that keeps two stores off one file is not modelled.  [serde_cbor] is
    the class [Cbor]; it reads the text of a pointer, which
    [JsonPointer::deserialize] parses. *)
From stdpp Require Import list countable.
From S2P Require Import Prelude RustStr BTree JsonPtr InOrderMap JsonValue PtrDoc JsonPatch JsonDiff DiffPatch Subscriber.

Local Open Scope rust_scope.

(** [StreamDeserializer::next]: the end of the input, an error, or an item and
    the rest of the input. *)
Inductive decoded (A B : Type) : Type :=
| End
| Bad
| Got (a : A) (rest : list B).
Arguments End {A B}.
Arguments Bad {A B}.
Arguments Got {A B} a rest.

(** An operation of a patch, with its pointers as [P]: their text, or parsed. *)
Inductive OpOf `{JN : JNumber} (P : Type) : Type :=
| OpAdd (path : P) (value : Value)
| OpRemove (path : P)
| OpReplace (path : P) (value : Value)
| OpMove (from path : P)
| OpCopy (from path : P)
| OpTest (path : P) (value : Value).
Arguments OpAdd {JN P}.
Arguments OpRemove {JN P}.
Arguments OpReplace {JN P}.
Arguments OpMove {JN P}.
Arguments OpCopy {JN P}.
Arguments OpTest {JN P}.

(** What the store relies on: decoding what was encoded gives it back and leaves
    what follows; the empty input is the end of the stream; decoding consumes
    input; a patch that is cut off does not decode. *)
Class Cbor `{JN : JNumber} := {
  byte : Type;
  zero_byte : byte;
  enc_u64 : N -> list byte;
  enc_value : Value -> list byte;
  enc_ops : list (OpOf str) -> list byte;
  dec_u64 : list byte -> decoded N byte;
  dec_value : list byte -> decoded Value byte;
  dec_ops : list byte -> decoded (list (OpOf str)) byte;
  dec_enc_u64 : forall n r, dec_u64 (enc_u64 n ++ r) = Got n r;
  dec_enc_value : forall v r, dec_value (enc_value v ++ r) = Got v r;
  dec_enc_ops : forall ops r, dec_ops (enc_ops ops ++ r) = Got ops r;
  dec_u64_nil : dec_u64 [] = End;
  dec_value_nil : dec_value [] = End;
  dec_ops_nil : dec_ops [] = End;
  dec_ops_shorter : forall bs ops r, dec_ops bs = Got ops r -> length r < length bs;
  dec_ops_cut : forall ops a b, enc_ops ops = a ++ b -> a ≠ [] -> b ≠ [] -> dec_ops a = Bad;
}.

(** ** Patches as they are written *)

Section Codec.
Context `{JN : JNumber} `{CB : !Cbor}.

(** [Serialize for JsonPointer] writes the text. *)
Definition op_text (op : PatchOperation) : OpOf str :=
  match op with
  | Add p v => OpAdd (render p) v
  | Remove p => OpRemove (render p)
  | Replace p v => OpReplace (render p) v
  | Move f p => OpMove (render f) (render p)
  | Copy f p => OpCopy (render f) (render p)
  | Test p v => OpTest (render p) v
  end.

Definition enc_patch (p : Patch) : list byte := enc_ops (map op_text p).

(** [Deserialize for JsonPointer] parses it. *)
Definition parse_op (op : OpOf str) : outcome (result (OpOf JsonPointer) ParseError) :=
  let one t k := let* r := JsonPointer_parse t in Done (let? p := r in Ok (k p)) in
  let two t u k := let* r := JsonPointer_parse t in let* q := JsonPointer_parse u in Done (let? p := r in let? p' := q in Ok (k p p')) in
  match op with
  | OpAdd t v => one t (fun p => OpAdd p v)
  | OpRemove t => one t OpRemove
  | OpReplace t v => one t (fun p => OpReplace p v)
  | OpMove t u => two t u OpMove
  | OpCopy t u => two t u OpCopy
  | OpTest t v => one t (fun p => OpTest p v)
  end.

Fixpoint parse_ops (ops : list (OpOf str)) : outcome (result (list (OpOf JsonPointer)) ParseError) :=
  match ops with
  | [] => Done (Ok [])
  | op :: rest =>
      let* r := parse_op op in
      match r with
      | Err e => Done (Err e)
      | Ok x => let* r' := parse_ops rest in Done (let? xs := r' in Ok (x :: xs))
      end
  end.

(** Applying a patch reads the segments of its pointers. *)
Definition read_op (op : OpOf JsonPointer) : outcome PatchOperation :=
  match op with
  | OpAdd p v => let* k := JsonPointer_iter p in Done (Add k v)
  | OpRemove p => let* k := JsonPointer_iter p in Done (Remove k)
  | OpReplace p v => let* k := JsonPointer_iter p in Done (Replace k v)
  | OpMove f p => let* j := JsonPointer_iter f in let* k := JsonPointer_iter p in Done (Move j k)
  | OpCopy f p => let* j := JsonPointer_iter f in let* k := JsonPointer_iter p in Done (Copy j k)
  | OpTest p v => let* k := JsonPointer_iter p in Done (Test k v)
  end.

Fixpoint read_ops (ops : list (OpOf JsonPointer)) : outcome Patch :=
  match ops with
  | [] => Done []
  | op :: rest => let* x := read_op op in let* xs := read_ops rest in Done (x :: xs)
  end.

(** The next patch of the stream; a panic is that of reading it or of applying
    it.  (An operation that fails before a pointer is read that panics makes
    [patch] fail instead; this is not told apart.) *)
Definition dec_patch (bs : list byte) : decoded (outcome Patch) byte :=
  match dec_ops bs with
  | End => End
  | Bad => Bad
  | Got ops rest =>
      match parse_ops ops with
      | Panic => Got Panic rest
      | Done (Err _) => Bad
      | Done (Ok xs) => Got (read_ops xs) rest
      end
  end.

(** Pointers of characters of one byte. *)
Definition plain_path (p : list str) : bool := forallb (forallb one_byte) p.

Definition plain_op (op : PatchOperation) : bool :=
  match op with
  | Add p _ | Remove p | Replace p _ | Test p _ => plain_path p
  | Move f p | Copy f p => plain_path f && plain_path p
  end.

Definition plain_patch (p : Patch) : bool := forallb plain_op p.

Lemma parse_plain k : plain_path k = true -> exists p, JsonPointer_parse (render k) = Done (Ok p) /\ JsonPointer_iter p = Done k.
Proof.
  intros Hk. destruct (parse_render k) as (p & Hp & Hwf & _); [|exists p; split; [done|by apply iter_spec]].
  apply Forall_forall. intros s Hs. unfold plain_path in Hk. rewrite forallb_forall in Hk. apply list_elem_of_In, Hk in Hs.
  apply Forall_forall. intros c Hc. rewrite forallb_forall in Hs. by apply Hs, list_elem_of_In.
Qed.

Lemma parse_read_plain op : plain_op op = true -> exists x, parse_op (op_text op) = Done (Ok x) /\ read_op x = Done op.
Proof.
  assert (forall p, plain_path p = true -> exists q, JsonPointer_parse (render p) = Done (Ok q) /\ JsonPointer_iter q = Done p) as Hpl by apply parse_plain.
  destruct op as [p v|p|p v|f p|f p|p v]; cbn [plain_op op_text parse_op]; rewrite ?andb_true_iff; intros Hp;
    [destruct (Hpl p Hp) as (q & E & R)..|destruct Hp as [Hf Hp]; destruct (Hpl f Hf) as (g & Ef & Rf), (Hpl p Hp) as (q & E & R)
    |destruct Hp as [Hf Hp]; destruct (Hpl f Hf) as (g & Ef & Rf), (Hpl p Hp) as (q & E & R)|destruct (Hpl p Hp) as (q & E & R)];
    [rewrite E..|rewrite Ef, E|rewrite Ef, E|rewrite E]; cbn [outcome_bind result_bind]; eexists; (split; [reflexivity|]); cbn [read_op];
    [rewrite R..|rewrite Rf; cbn [outcome_bind]; rewrite R|rewrite Rf; cbn [outcome_bind]; rewrite R|rewrite R]; done.
Qed.

Lemma dec_enc_patch p r : plain_patch p = true -> dec_patch (enc_patch p ++ r) = Got (Done p) r.
Proof.
  intros Hp. unfold dec_patch, enc_patch. rewrite dec_enc_ops.
  assert (exists xs, parse_ops (map op_text p) = Done (Ok xs) /\ read_ops xs = Done p) as (xs & -> & ->); [|done].
  induction p as [|op p IH]; [by exists []|]. cbn in Hp. apply andb_true_iff in Hp as [Hop Hp].
  destruct (parse_read_plain op Hop) as (x & Ex & Rx). destruct (IH Hp) as (xs & Exs & Rxs).
  exists (x :: xs). cbn. by rewrite Ex, Rx, Exs, Rxs.
Qed.

Lemma dec_patch_nil : dec_patch [] = End.
Proof. unfold dec_patch. by rewrite dec_ops_nil. Qed.

Lemma dec_patch_cut p a b : enc_patch p = a ++ b -> a ≠ [] -> b ≠ [] -> dec_patch a = Bad.
Proof. intros E Ha Hb. unfold dec_patch. by rewrite (dec_ops_cut (map op_text p) a b). Qed.

Lemma enc_patch_nonempty p : enc_patch p ≠ [].
Proof. intros E. pose proof (dec_enc_ops (map op_text p) []) as H. unfold enc_patch in E. by rewrite app_nil_r, E, dec_ops_nil in H. Qed.
End Codec.

(** What happens to an I/O call; the number is how many bytes of a write got
    through. *)
Inductive Event : Type :=
| EvOk
| EvErr (n : nat)
| EvCrash (n : nat).

Section Store.
Context `{SJ : SerdeJson}.
Context `{MC : !Mpsc Revision} `{BC : !Bcast (result Bytes JsonError)} `{CB : !Cbor}.

(** The result of a run: a value, an error, a panic, or the machine stopped. *)
Inductive io (A : Type) : Type :=
| IoOk (a : A)
| IoErr (e : Error)
| IoPanic
| IoCrash.
Arguments IoOk {A} a.
Arguments IoErr {A} e.
Arguments IoPanic {A}.
Arguments IoCrash {A}.

(** ** State *)

(** How much of the beginning of each file is synced. *)
Record Synced : Type := mkSynced { s_main : nat; s_bak : nat; s_tmp : nat }.

Record Disk : Type := mkDisk {
  main : list byte;
  bak : option (list byte);
  bak_tmp : list byte;
  failed : list Patch;
  synced : Synced;
}.

(** What is on the disk when the machine has stopped and starts again. *)
Definition restarts (d d' : Disk) : Prop := exists i j,
  s_main (synced d) <= i /\ s_bak (synced d) <= j /\
  d' = mkDisk (take i (main d)) (take j <$> bak d) (bak_tmp d') (failed d')
         (mkSynced (length (take i (main d))) (length (from_option (take j) [] (bak d))) (length (bak_tmp d'))).

(** The open file's position and the end of its last complete record. *)
Record FileStorage : Type := mkStorage { file_pos : nat; file_cursor : nat }.

Record Store : Type := mkStore {
  storage : option FileStorage;
  persistent : Value;
  revision : N;
  broadcast : Broadcast;
}.

Record Machine : Type := mkMachine {
  disk : Disk;
  evs : list Event;
  chans : Channels;
  store : Store;
  committed : bool;
}.

Definition set_disk (m : Machine) (d : Disk) : Machine := mkMachine d (evs m) (chans m) (store m) (committed m).
Definition set_evs (m : Machine) (e : list Event) : Machine := mkMachine (disk m) e (chans m) (store m) (committed m).
Definition set_store (m : Machine) (s : Store) : Machine := mkMachine (disk m) (evs m) (chans m) s (committed m).
Definition set_committed (m : Machine) (b : bool) : Machine := mkMachine (disk m) (evs m) (chans m) (store m) b.
Definition set_storage (m : Machine) (st : FileStorage) : Machine :=
  set_store m (mkStore (Some st) (persistent (store m)) (revision (store m)) (broadcast (store m))).
Definition set_doc (m : Machine) (v : Value) (r : N) : Machine :=
  set_store m (mkStore (storage (store m)) v r (broadcast (store m))).

(** ** Runs *)

Definition IO (A : Type) : Type := Machine -> Machine * io A.

Definition io_ret {A} (a : A) : IO A := fun m => (m, IoOk a).
Definition io_fail {A} (e : Error) : IO A := fun m => (m, IoErr e).
Definition io_panic {A} : IO A := fun m => (m, IoPanic).

Definition io_bind {A B} (c : IO A) (k : A -> IO B) : IO B := fun m =>
  match c m with
  | (m', IoOk a) => k a m'
  | (m', IoErr e) => (m', IoErr e)
  | (m', IoPanic) => (m', IoPanic)
  | (m', IoCrash) => (m', IoCrash)
  end.

Definition io_modify (f : Machine -> Machine) : IO unit := fun m => (f m, IoOk tt).

(** An I/O call: its effect when it completes and when [n] bytes got through. *)
Definition io_op (full : Machine -> Machine) (partial : nat -> Machine -> Machine) : IO unit := fun m =>
  match evs m with
  | [] => (full m, IoOk tt)
  | EvOk :: r => (full (set_evs m r), IoOk tt)
  | EvErr n :: r => (partial n (set_evs m r), IoErr ErrIO)
  | EvCrash n :: r => (partial n (set_evs m r), IoCrash)
  end.

Definition io_atomic (f : Machine -> Machine) : IO unit := io_op f (fun _ m => m).

(** [let _ = c] *)
Definition io_ignore (c : IO unit) : IO unit := fun m =>
  match c m with (m', IoErr _) => (m', IoOk tt) | r => r end.
End Store.
Arguments IoOk {JN SJ A} a.
Arguments IoErr {JN SJ A} e.
Arguments IoPanic {JN SJ A}.
Arguments IoCrash {JN SJ A}.

Notation "'let!' x ':=' c 'in' k" := (io_bind c (fun x => k))
  (at level 10, x pattern, c at level 100, k at level 200) : rust_scope.
Notation "c ';!' k" := (io_bind c (fun _ => k)) (at level 100, right associativity) : rust_scope.

Section Files.
Context `{SJ : SerdeJson}.
Context `{MC : !Mpsc Revision} `{BC : !Bcast (result Bytes JsonError)} `{CB : !Cbor}.
Implicit Types (m : Machine) (bs : list byte).

(** ** Files *)

(** Writing at a position; a gap before it is filled with zeros. *)
Definition write_at (c : list byte) (pos : nat) bs : list byte :=
  take pos (c ++ replicate (pos - length c) zero_byte) ++ bs ++ drop (pos + length bs) c.

(** A file's new content, with how much of it is synced. *)
Definition set_main m (c : list byte) (n : nat) : Machine :=
  set_disk m (mkDisk c (bak (disk m)) (bak_tmp (disk m)) (failed (disk m))
    (mkSynced n (s_bak (synced (disk m))) (s_tmp (synced (disk m))))).
Definition set_bak m (c : option (list byte)) (n : nat) : Machine :=
  set_disk m (mkDisk (main (disk m)) c (bak_tmp (disk m)) (failed (disk m))
    (mkSynced (s_main (synced (disk m))) n (s_tmp (synced (disk m))))).
Definition set_tmp m (c : list byte) (n : nat) : Machine :=
  set_disk m (mkDisk (main (disk m)) (bak (disk m)) c (failed (disk m))
    (mkSynced (s_main (synced (disk m))) (s_bak (synced (disk m))) n)).

(** The position of [storage.file], and the cursor beside it. *)
Definition pos_of m : nat := match storage (store m) with Some st => file_pos st | None => 0 end.
Definition cursor_of m : nat := match storage (store m) with Some st => file_cursor st | None => 0 end.
Definition set_pos m (p : nat) : Machine := set_storage m (mkStorage p (cursor_of m)).
Definition set_cursor m (c : nat) : Machine := set_storage m (mkStorage (pos_of m) c).

Definition put_main bs m : Machine :=
  set_pos (set_main m (write_at (main (disk m)) (pos_of m) bs) (s_main (synced (disk m)) `min` pos_of m)) (pos_of m + length bs).

Definition file_write_all bs : IO unit := io_op (put_main bs) (fun n => put_main (take n bs)).
Definition file_set_len (n : nat) : IO unit :=
  io_atomic (fun m => set_main m (take n (main (disk m) ++ replicate (n - length (main (disk m))) zero_byte))
                        (s_main (synced (disk m)) `min` n)).
Definition file_seek (p : nat) : IO unit := io_atomic (fun m => set_pos m p).
Definition file_flush : IO unit := io_atomic id.
Definition file_sync_all : IO unit := io_atomic (fun m => set_main m (main (disk m)) (length (main (disk m)))).
Definition file_stream_position : IO nat := let! _ := io_atomic id in fun m => (m, IoOk (pos_of m)).

Definition tmp_create : IO unit := io_atomic (fun m => set_tmp m [] 0).
Definition tmp_write_all bs : IO unit :=
  io_op (fun m => set_tmp m (bak_tmp (disk m) ++ bs) (s_tmp (synced (disk m))))
    (fun n m => set_tmp m (bak_tmp (disk m) ++ take n bs) (s_tmp (synced (disk m)))).
Definition tmp_sync_all : IO unit := io_atomic (fun m => set_tmp m (bak_tmp (disk m)) (length (bak_tmp (disk m)))).
Definition rename_tmp_bak : IO unit :=
  io_atomic (fun m => set_tmp (set_bak m (Some (bak_tmp (disk m))) (s_tmp (synced (disk m)))) [] 0).
Definition remove_bak : IO unit := io_atomic (fun m => set_bak m None 0).

(** ** [compress] *)

(** Up to the rename that makes rolling back unsafe. *)
Definition write_backup (revision_cbor data_cbor : list byte) : IO unit :=
  tmp_create ;!
  tmp_write_all revision_cbor ;!
  tmp_write_all data_cbor ;!
  io_atomic id (* flush *) ;!
  tmp_sync_all ;!
  rename_tmp_bak ;!
  io_modify (fun m => set_committed m true).

Definition rewrite_file (revision_cbor data_cbor : list byte) : IO unit :=
  file_set_len 0 ;!
  file_seek 0 ;!
  file_write_all revision_cbor ;!
  file_write_all data_cbor ;!
  file_flush ;!
  file_sync_all ;!
  let! p := file_stream_position in
  io_modify (fun m => set_cursor m p).

Definition Store_compress : IO unit := fun m =>
  match storage (store m) with
  | None => (m, IoOk tt)
  | Some _ =>
      let revision_cbor := enc_u64 (revision (store m)) in
      let data_cbor := enc_value (persistent (store m)) in
      (write_backup revision_cbor data_cbor ;!
       rewrite_file revision_cbor data_cbor ;!
       io_ignore remove_bak) m
  end.

(** ** [apply] *)

(** Writing the patch out: the part of [apply] under the [TentativeUpdated]
    guard.  The compression's [committed] flag is the machine's. *)
Definition seek_to_cursor : IO unit :=
  let! p := file_stream_position in
  (fun m =>
    let cursor := cursor_of m in
    if p =? cursor then (m, IoOk tt) else (file_set_len cursor ;! file_seek cursor) m).

Definition append_patch (patch_bin : list byte) : IO unit :=
  seek_to_cursor ;!
  file_write_all patch_bin ;!
  file_flush ;!
  file_sync_all ;!
  io_modify (fun m => set_cursor m (cursor_of m + length patch_bin)).

Definition persist (p : Patch) : IO unit := fun m =>
  match storage (store m) with
  | None => (m, IoOk tt)
  | Some _ =>
      if (revision (store m) mod 4096 =? 0)%N then Store_compress m else append_patch (enc_patch p) m
  end.

(** [Drop for TentativeUpdated], when the undo was not taken. *)
Definition roll_back (undo : list UndoOperation) (e : Error) : IO (option Revision) := fun m =>
  match Undo_apply undo (persistent (store m)) with
  | Panic => (m, IoPanic)
  | Done v => (set_doc m v (revision (store m) - 1)%N, IoErr e)
  end.

Definition send_revision (p : Patch) : IO (option Revision) := fun m =>
  let s := store m in
  let res := mkRevision (revision s) p in
  match Broadcast_send (chans m) (broadcast s) res with
  | Panic => (m, IoPanic)
  | Done (w, b) =>
      (mkMachine (disk m) (evs m) w (mkStore (storage s) (persistent s) (revision s) b) (committed m),
       IoOk (Some res))
  end.

Definition Store_apply (p : Patch) : IO (option Revision) := fun m0 =>
  if Patch_is_empty p then (m0, IoOk None)
  else
    match patch (persistent (store m0)) p with
    | Panic => (m0, IoPanic)
    | Done (doc, Err e) => (set_doc m0 doc (revision (store m0)), IoErr (ErrPatch e))
    | Done (doc, Ok undo) =>
        match usize_succ (revision (store m0)) with
        | Panic => (set_doc m0 doc (revision (store m0)), IoPanic)
        | Done r =>
            match persist p (set_committed (set_doc m0 doc r) false) with
            | (m, IoOk _) => send_revision p m
            | (m, IoErr e) => if committed m then (m, IoErr e) else roll_back undo e m
            | (m, IoPanic) => (m, IoPanic)
            | (m, IoCrash) => (m, IoCrash)
            end
        end
    end.

(** ** [open] *)

Definition rename_bak_main (c : list byte) : IO unit := io_atomic (fun m => set_bak (set_main m c (s_bak (synced (disk m)))) None 0).

Definition log_failed (p : Patch) : IO unit :=
  io_atomic (fun m => set_disk m (mkDisk (main (disk m)) (bak (disk m)) (bak_tmp (disk m)) (failed (disk m) ++ [p]) (synced (disk m)))).

(** The loop over the logged patches, from the bytes that are left.  Decoding
    consumes input, so the length of the input is enough fuel.  A panic in the
    blocking task is the [JoinError] of awaiting it. *)
Fixpoint replay_log (fuel : nat) bs (v : Value) (r : N) : IO (Value * N * list byte) :=
  match fuel with
  | 0 => io_panic
  | S n =>
      match dec_patch bs with
      | Got Panic _ => io_fail ErrJoin
      | Got (Done p) rest =>
          match patch v p with
          | Panic => io_fail ErrJoin
          | Done (v', res) =>
              match res with Ok _ => io_ret tt | Err _ => log_failed p end ;!
              match usize_succ r with
              | Panic => io_fail ErrJoin
              | Done r' => replay_log n rest v' r'
              end
          end
      | _ => io_ret (v, r, bs)
      end
  end.

Definition next_or {A} (d : decoded A byte) (bs : list byte) (default : A) : IO (A * list byte) :=
  match d with
  | End => io_ret (default, bs)
  | Bad => io_fail ErrCBOR
  | Got a rest => io_ret (a, rest)
  end.

(** Where reading stopped is the first [file_cursor], which [compress] replaces. *)
Definition finish_load bs (x : Value * N * list byte) : IO unit :=
  let '(v, r, rest) := x in
  io_atomic id (* stream_position *) ;!
  let cursor := length bs - length rest in
  io_modify (fun m => set_store m (mkStore (Some (mkStorage cursor cursor)) v r Broadcast_new)).

(** [open] up to the first [compress]; the file is read as it was when it was
    opened. *)
Definition load : IO unit :=
  (fun m => match bak (disk m) with Some c => rename_bak_main c m | None => (m, IoOk tt) end) ;!
  io_atomic id (* open *) ;!
  io_atomic id (* lock *) ;!
  (fun m =>
    let bs := main (disk m) in
    (let! (r0, bs1) := next_or (dec_u64 bs) bs 0%N in
     let! (v0, bs2) := next_or (dec_value bs1) bs1 Null in
     let! x := replay_log (S (length bs2)) bs2 v0 r0 in
     finish_load bs x) m).

Definition Store_open : IO unit :=
  load ;! io_modify (fun m => set_committed m false) ;! Store_compress.

(** ** The other operations *)

Definition Store_close : IO unit := fun m =>
  match storage (store m) with
  | None => (m, IoOk tt)
  | Some _ => (file_flush ;! io_atomic id (* shutdown *)) m
  end.

Definition Store_get_value (s : Store) (ptr : list str) : Value :=
  from_option id Null (ptr_get ptr (persistent s)).

Definition Store_exists (s : Store) (ptr : list str) : bool :=
  negb (Value_eqb (Store_get_value s ptr) Null).

Definition Store_keys (s : Store) (ptr : list str) : list str :=
  match Store_get_value s ptr with
  | Object o => BTreeSet_collect str_cmp (InOMap_keys o)
  | _ => []
  end.

Definition Store_dump (s : Store) (ptr : list str) : Dump :=
  mkDump (revision s) (from_option id Null (ptr_get ptr (persistent s))).

Definition Store_sequence (s : Store) : N := revision s.

(** [same] is which parts of the old and of the new value are one allocation. *)
Definition Store_put_value (same : list str -> list str -> bool) (ptr : list str) (value : Value)
    : IO (option Revision) := fun m =>
  let p := match ptr_get ptr (persistent (store m)) with
           | Some existing => DiffPatch_diff same existing value
           | None => DiffPatch_add value
           end in
  Store_apply (DiffPatch_prepend ptr p) m.

Definition Store_subscribe (m : Machine) (ptr : list str) : Machine * nat :=
  let s := store m in
  let '(w, b, rx) := Broadcast_subscribe (chans m) (broadcast s) ptr in
  (mkMachine (disk m) (evs m) w (mkStore (storage s) (persistent s) (revision s) b) (committed m), rx).
End Files.

(** ** Lemmas: runs *)

Section runs.
Context `{SJ : SerdeJson}.
Context `{MC : !Mpsc Revision} `{BC : !Bcast (result Bytes JsonError)} `{CB : !Cbor}.
Implicit Types (m : Machine) (bs : list byte).

(** Every run of [c] from [m] that returns satisfies [Q], every one that fails
    [E], every one that is cut off [C]; none panics. *)
Definition wp {A} (c : IO A) (Q : A -> Machine -> Prop) (E : Error -> Machine -> Prop)
    (C : Machine -> Prop) m : Prop :=
  match c m with
  | (m', IoOk a) => Q a m'
  | (m', IoErr e) => E e m'
  | (_, IoPanic) => False
  | (m', IoCrash) => C m'
  end.

Lemma wp_mono {A} (c : IO A) (Q Q' : A -> Machine -> Prop) (E E' : Error -> Machine -> Prop)
    (C C' : Machine -> Prop) m : wp c Q E C m ->
  (forall a m', Q a m' -> Q' a m') -> (forall e m', E e m' -> E' e m') -> (forall m', C m' -> C' m') ->
  wp c Q' E' C' m.
Proof. unfold wp. destruct (c m) as [m' []]; auto. Qed.

Lemma wp_bind {A B} (c : IO A) (k : A -> IO B) Q E C m :
  wp c (fun a => wp (k a) Q E C) E C m -> wp (io_bind c k) Q E C m.
Proof. unfold wp, io_bind. by destruct (c m) as [m' []]. Qed.

Lemma wp_op full partial (Q : unit -> Machine -> Prop) E C m : (forall r, Q tt (full (set_evs m r))) ->
  (forall n r, E ErrIO (partial n (set_evs m r)) /\ C (partial n (set_evs m r))) ->
  wp (io_op full partial) Q E C m.
Proof.
  intros HQ HEC. unfold wp, io_op. destruct m as [d [|[|n|n] r] ch s cm]; simpl.
  - exact (HQ []).
  - exact (HQ r).
  - apply HEC.
  - apply HEC.
Qed.

Lemma wp_atomic full (Q : unit -> Machine -> Prop) (E : Error -> Machine -> Prop) (C : Machine -> Prop) m :
  (forall r, Q tt (full (set_evs m r))) -> (forall r, E ErrIO (set_evs m r) /\ C (set_evs m r)) ->
  wp (io_atomic full) Q E C m.
Proof. intros HQ HEC. by apply wp_op. Qed.

Lemma wp_modify f (Q : unit -> Machine -> Prop) (E : Error -> Machine -> Prop) (C : Machine -> Prop) m :
  Q tt (f m) -> wp (io_modify f) Q E C m.
Proof. done. Qed.

Lemma wp_position (Q : nat -> Machine -> Prop) (E : Error -> Machine -> Prop) (C : Machine -> Prop) m :
  (forall r, Q (pos_of m) (set_evs m r)) -> (forall r, E ErrIO (set_evs m r) /\ C (set_evs m r)) ->
  wp file_stream_position Q E C m.
Proof. intros HQ HEC. apply wp_bind, wp_atomic; [|done]. exact HQ. Qed.

Lemma wp_ignore c (Q : unit -> Machine -> Prop) (E : Error -> Machine -> Prop) (C : Machine -> Prop) m :
  wp c Q (fun _ => Q tt) C m -> wp (io_ignore c) Q E C m.
Proof. unfold wp, io_ignore. destruct (c m) as [m' [[]| | |]]; done. Qed.

(** When no I/O call fails, [c] returns. *)
Definition lucky {A} (c : IO A) : Prop :=
  forall m, evs m = [] -> exists m' a, c m = (m', IoOk a) /\ evs m' = [].

Lemma lucky_bind {A B} (c : IO A) (k : A -> IO B) : lucky c -> (forall a, lucky (k a)) -> lucky (io_bind c k).
Proof.
  intros Hc Hk m Hm. destruct (Hc m Hm) as (m1 & a & E1 & Hm1). destruct (Hk a m1 Hm1) as (m2 & b & E2 & Hm2).
  exists m2, b. unfold io_bind. by rewrite E1.
Qed.

Lemma lucky_op full partial : (forall m, evs (full m) = evs m) -> lucky (io_op full partial).
Proof. intros Hf m Hm. exists (full m), tt. unfold io_op. rewrite Hm. by rewrite Hf. Qed.

Lemma lucky_modify f : (forall m, evs (f m) = evs m) -> lucky (io_modify f).
Proof. intros Hf m Hm. exists (f m), tt. unfold io_modify. by rewrite Hf. Qed.

(** *** Files *)

Lemma write_at_end c bs : write_at c (length c) bs = c ++ bs.
Proof.
  unfold write_at. rewrite Nat.sub_diag, app_nil_r, firstn_all, drop_ge by lia. by rewrite app_nil_r.
Qed.

Lemma write_at_nil bs : write_at [] 0 bs = bs.
Proof. apply (write_at_end []). Qed.

(** What [compress] writes. *)
Definition image (s : Store) : list byte := enc_u64 (revision s) ++ enc_value (persistent s).

(** The document, its subscribers and their channels are as they were. *)
Record same_mem m m' : Prop := {
  sm_doc : persistent (store m') = persistent (store m);
  sm_rev : revision (store m') = revision (store m);
  sm_bc : broadcast (store m') = broadcast (store m);
  sm_ch : chans m' = chans m;
}.

(** Nothing that [open] reads, and not the open file, has changed. *)
Record untouched m m' : Prop := {
  ut_mem : same_mem m m';
  ut_main : main (disk m') = main (disk m);
  ut_bak : bak (disk m') = bak (disk m);
  ut_synced : s_main (synced (disk m')) = s_main (synced (disk m)) /\ s_bak (synced (disk m')) = s_bak (synced (disk m));
  ut_storage : storage (store m') = storage (store m);
  ut_committed : committed m' = committed m;
}.

(** The backup is in place. *)
Record backed_up m m' : Prop := {
  bu_mem : same_mem m m';
  bu_bak : bak (disk m') = Some (image (store m));
  bu_synced : s_bak (synced (disk m')) = length (image (store m));
  bu_committed : committed m' = true;
}.

Lemma same_mem_refl m : same_mem m m.
Proof. done. Qed.

Lemma same_mem_trans m1 m2 m3 : same_mem m1 m2 -> same_mem m2 m3 -> same_mem m1 m3.
Proof. intros [] []. split; congruence. Qed.

(** Computes the fields of an explicit machine. *)
Ltac fields_of m := eval cbv beta iota delta [set_disk set_evs set_store set_committed set_storage set_doc
  set_main set_bak set_tmp pos_of cursor_of set_pos set_cursor put_main disk evs chans store committed main bak
  bak_tmp failed synced s_main s_bak s_tmp storage persistent revision broadcast file_pos file_cursor id] in m.
Ltac fields := lazymatch goal with
  | |- wp ?c ?Q ?E ?C ?m => let m' := fields_of m in change (wp c Q E C m')
  | |- ?Q ?m => let m' := fields_of m in change (Q m'); cbv beta
  end.

(** One I/O call; what holds when it fails is left to [tac]. *)
Ltac step tac := first
  [ apply wp_bind; step tac
  | first [apply wp_atomic | apply wp_position | apply wp_op]; intros; cbv beta; [fields|by split; tac]
  | apply wp_modify; fields ].

Lemma write_backup_spec m rc dc :
  wp (write_backup rc dc)
    (fun _ m' => same_mem m m' /\ main (disk m') = main (disk m) /\ bak (disk m') = Some (rc ++ dc)
       /\ s_bak (synced (disk m')) = length (rc ++ dc) /\ committed m' = true)
    (fun _ m' => untouched m m') (fun m' => untouched m m') m.
Proof.
  destruct m as [[mn bk tmp fl [sm sb stt]] ev ch [sto v r br] cm]. unfold write_backup.
  do 7 (step done). by split_and!.
Qed.

Lemma rewrite_file_spec m rc dc b : bak (disk m) = Some b -> s_bak (synced (disk m)) = length b -> committed m = true ->
  let kept_bak m' := bak (disk m') = Some b /\ s_bak (synced (disk m')) = length b in
  wp (rewrite_file rc dc)
    (fun _ m' => same_mem m m' /\ main (disk m') = rc ++ dc /\ s_main (synced (disk m')) = length (rc ++ dc) /\ kept_bak m' /\ committed m' = true
       /\ storage (store m') = Some (mkStorage (length (rc ++ dc)) (length (rc ++ dc))))
    (fun _ m' => same_mem m m' /\ kept_bak m' /\ committed m' = true)
    (fun m' => same_mem m m' /\ kept_bak m' /\ committed m' = true) m.
Proof.
  destruct m as [[mn bk tmp fl [sm sb stt]] ev ch [sto v r br] cm]. cbn [disk bak synced s_bak committed]. intros -> -> ->. cbv zeta. unfold rewrite_file.
  do 8 (step done). assert (write_at (write_at (take 0 (mn ++ replicate (0 - length mn) zero_byte)) 0 rc) (0 + length rc) dc = rc ++ dc) as ->
    by (rewrite take_0, write_at_nil; apply (write_at_end rc dc)).
  rewrite length_app. by split_and!.
Qed.

Lemma compress_spec m st : storage (store m) = Some st -> committed m = false ->
  wp Store_compress
    (fun _ m' => same_mem m m' /\ main (disk m') = image (store m) /\ committed m' = true
       /\ storage (store m') = Some (mkStorage (length (image (store m))) (length (image (store m))))
       /\ s_main (synced (disk m')) = length (image (store m))
       /\ (bak (disk m') = None \/ bak (disk m') = Some (image (store m)) /\ s_bak (synced (disk m')) = length (image (store m))))
    (fun _ m' => untouched m m' \/ backed_up m m')
    (fun m' => untouched m m' \/ backed_up m m') m.
Proof.
  intros Est Hc. unfold Store_compress, wp. rewrite Est. cbv zeta.
  match goal with |- match ?c m with _ => _ end =>
    change (wp c
      (fun _ m' => same_mem m m' /\ main (disk m') = image (store m) /\ committed m' = true
       /\ storage (store m') = Some (mkStorage (length (image (store m))) (length (image (store m))))
       /\ s_main (synced (disk m')) = length (image (store m))
       /\ (bak (disk m') = None \/ bak (disk m') = Some (image (store m)) /\ s_bak (synced (disk m')) = length (image (store m))))
      (fun _ m' => untouched m m' \/ backed_up m m') (fun m' => untouched m m' \/ backed_up m m') m) end.
  apply wp_bind. eapply wp_mono; [apply write_backup_spec| |by left..].
  intros [] m1 (Hm1 & _ & Hb1 & Hs1 & Hc1). apply wp_bind.
  assert (forall m2, same_mem m1 m2 /\ (bak (disk m2) = Some (image (store m)) /\ s_bak (synced (disk m2)) = length (image (store m))) /\ committed m2 = true ->
    untouched m m2 \/ backed_up m m2) as Hbu.
  { intros m2 (Hm2 & [Hb2 Hs2] & Hc2). right. split; [by eapply same_mem_trans|done..]. }
  eapply wp_mono; [by apply (rewrite_file_spec m1 _ _ (image (store m)))| |by intros; apply Hbu..].
  intros [] m2 (Hm2 & Hmain & Hsm & [Hb2 Hs2] & Hc2 & Hst2). apply wp_ignore.
  assert (same_mem m m2) as Hm02 by by eapply same_mem_trans.
  apply wp_atomic; intros r; cbn.
  - split_and!; [by destruct Hm02|done..|by left].
  - split; [split_and!; [by destruct Hm02|done..|by right]|]. right. split; [by destruct Hm02|done..].
Qed.

Lemma stream_position_lucky : lucky file_stream_position.
Proof.
  unfold file_stream_position. apply lucky_bind; [by apply lucky_op|]. intros _ m Hm. by exists m, (pos_of m).
Qed.

End runs.

(** Closes a goal [lucky c] for a sequence of calls. *)
Ltac lucky := repeat first [ apply stream_position_lucky | apply lucky_bind; [|intros ?]
                           | by apply lucky_op | by apply lucky_modify ].

Section lucky.
Context `{SJ : SerdeJson}.
Context `{MC : !Mpsc Revision} `{BC : !Bcast (result Bytes JsonError)} `{CB : !Cbor}.

Lemma ignore_lucky c : lucky c -> lucky (io_ignore c).
Proof. intros Hc m Hm. destruct (Hc m Hm) as (m' & a & E & Hm'). exists m', a. unfold io_ignore. by rewrite E. Qed.

Lemma compress_lucky : lucky Store_compress.
Proof.
  intros m Hm. unfold Store_compress. destruct (storage (store m)); [|by exists m, tt]. cbv zeta.
  match goal with |- exists m' a, ?c m = _ /\ _ => assert (lucky c) as Hl end; [|by apply Hl].
  apply lucky_bind; [unfold write_backup; lucky|]. intros []. apply lucky_bind; [|intros ?].
  - unfold rewrite_file. lucky.
  - apply ignore_lucky. lucky.
Qed.
End lucky.

(** ** What a disk holds *)

Section log.
Context `{SJ : SerdeJson}.
Context `{MC : !Mpsc Revision} `{BC : !Bcast (result Bytes JsonError)} `{CB : !Cbor}.
Implicit Types (m : Machine) (bs t : list byte) (d : Disk) (r : N) (v : Value) (p : Patch) (ps : list Patch).

(** The patches [ps] take [v] to [v']. *)
Fixpoint log_runs v ps v' : Prop :=
  match ps with
  | [] => v = v'
  | p :: ps' => db_patch p = true /\ plain_patch p = true /\ exists v1, patch_unsafe v p = (v1, Ok tt) /\ log_runs v1 ps' v'
  end.

Definition log_bytes r v ps : list byte := enc_u64 r ++ enc_value v ++ concat (map enc_patch ps).

(** What a write of a patch that was cut off leaves. *)
Definition torn t : Prop := t = [] \/ exists p b, enc_patch p = t ++ b /\ b ≠ [].

(** [open] reads the revision [r] and the document [v] from [bs]. *)
Inductive decodes bs r v : Prop :=
| decodes_empty : bs = [] -> r = 0%N -> veq Null v -> decodes bs r v
| decodes_log r0 v0 ps v1 t : bs = log_bytes r0 v0 ps ++ t -> torn t -> value_wf v0 = true ->
    log_runs v0 ps v1 -> veq v1 v -> r = (r0 + N.of_nat (length ps))%N -> (r < usize_mod)%N -> decodes bs r v.

(** A backup takes precedence. *)
Definition disk_holds d r v : Prop := decodes (from_option id (main d) (bak d)) r v.

(** The same whatever is lost when the machine stops. *)
Definition disk_keeps d r v : Prop := disk_holds d r v /\ forall d', restarts d d' -> disk_holds d' r v.

(** Nothing more is lost later. *)
Lemma restarts_settled d d' r v : restarts d d' -> disk_holds d' r v -> disk_keeps d' r v.
Proof.
  intros (i & j & _ & _ & E) Hd. split; [done|]. intros d'' (i' & j' & Hi & Hj & E'). unfold disk_holds in *. rewrite E'. rewrite E in Hd, Hi, Hj |- *.
  cbn [main bak synced s_main s_bak] in *. rewrite (take_ge (take i (main d)) i') by done.
  destruct (bak d) as [c|]; [|done]. cbn in *. by rewrite (take_ge (take j c) j') by done.
Qed.

(** The file up to the cursor is a log of revision [r] and document [v]; after it
    there is what a failed append left, which is a complete patch when [ph] is
    one.  The position tells whether something is there. *)
Record logged d (st : FileStorage) r v (ph : option Patch) : Prop := {
  lg_bak : bak d = None;
  lg_synced : file_cursor st <= s_main (synced d);
  lg_log : exists r0 v0 ps v1 t, main d = log_bytes r0 v0 ps ++ t
    /\ file_cursor st = length (log_bytes r0 v0 ps) /\ value_wf v0 = true /\ log_runs v0 ps v1
    /\ veq v1 v /\ r = (r0 + N.of_nat (length ps))%N /\ (file_pos st = file_cursor st -> t = [])
    /\ match ph with None => torn t | Some p => t = enc_patch p end;
  lg_bound : (r < usize_mod)%N;
  lg_wf : value_wf v = true;
  lg_phantom : forall p, ph = Some p -> db_patch p = true /\ plain_patch p = true /\ (r + 1 < usize_mod)%N
    /\ exists v2, patch_unsafe v p = (v2, Ok tt);
}.

Lemma log_runs_app v ps ps' v' :
  log_runs v (ps ++ ps') v' <-> exists v1, log_runs v ps v1 /\ log_runs v1 ps' v'.
Proof.
  revert v. induction ps as [|p ps IH]; intros v; simpl.
  { split; [intros H; by exists v|]. by intros (v1 & -> & H). }
  setoid_rewrite IH. split.
  - intros (Hp & Hq & v1 & E & v2 & H1 & H2). exists v2. split; [|done]. split; [done|]. split; [done|]. by exists v1.
  - intros (v2 & (Hp & Hq & v1 & E & H1) & H2). split; [done|]. split; [done|]. exists v1. split; [done|]. by exists v2.
Qed.

Lemma log_runs_one v p v' : db_patch p = true -> plain_patch p = true -> patch_unsafe v p = (v', Ok tt) -> log_runs v [p] v'.
Proof. intros Hp Hq E. cbn. split; [done|]. split; [done|]. by exists v'. Qed.

Lemma log_runs_wf v ps v' : value_wf v = true -> log_runs v ps v' -> value_wf v' = true.
Proof.
  revert v. induction ps as [|p ps IH]; intros v Hw; simpl; [by intros <-|].
  intros (Hp & _ & v1 & E & Hr). apply (IH v1); [|done]. pose proof (db_patch_wf v p Hw Hp) as H. by rewrite E in H.
Qed.

Lemma torn_nil : torn [].
Proof. by left. Qed.

(** A prefix of an encoded patch is torn or all of it. *)
Lemma take_patch p n : torn (take n (enc_patch p)) \/ take n (enc_patch p) = enc_patch p.
Proof.
  destruct (decide (drop n (enc_patch p) = [])) as [E|E].
  - right. rewrite <- (take_drop n (enc_patch p)) at 2. by rewrite E, app_nil_r.
  - left. right. exists p, (drop n (enc_patch p)). by rewrite take_drop.
Qed.

Lemma log_bytes_snoc r v ps p : log_bytes r v (ps ++ [p]) = log_bytes r v ps ++ enc_patch p.
Proof. unfold log_bytes. by rewrite map_app, concat_app, <- !app_assoc; simpl; rewrite app_nil_r. Qed.

Lemma torn_take t n : torn t -> torn (take n t).
Proof.
  intros [->|(p & b & E & Hb)]; [left; apply take_nil|]. right. exists p, (drop n t ++ b). rewrite app_assoc, take_drop. split; [done|]. by intros [_ ?]%app_eq_nil.
Qed.

(** The state a logged disk opens with: that of the log, or of the complete patch behind it. *)
Definition may_hold d r v (ph : option Patch) : Prop :=
  disk_holds d r v \/ exists p v', ph = Some p /\ patch_unsafe v p = (v', Ok tt) /\ disk_holds d (r + 1) v'.

Lemma log_tail d st r v ph (bs : list byte) n : logged d st r v ph -> bs = take n (main d) -> file_cursor st <= n ->
  decodes bs r v \/ exists p v', ph = Some p /\ patch_unsafe v p = (v', Ok tt) /\ decodes bs (r + 1) v'.
Proof.
  intros [Hb _ (r0 & v0 & ps & v1 & t & Hm & Hc & Hw & Hr & Hv & -> & _ & Ht) Hlt Hwv Hph] -> Hn.
  assert (take n (main d) = log_bytes r0 v0 ps ++ take (n - file_cursor st) t) as ->.
  { rewrite Hm, take_app, <- Hc. by rewrite take_ge by lia. }
  destruct ph as [p|]; [|left; eapply decodes_log; try done; by apply torn_take].
  destruct (Hph p eq_refl) as (Hdb & Hpl & Hlt' & v' & Ev). subst t. destruct (take_patch p (n - file_cursor st)) as [Htk|Htk]; [left; by eapply decodes_log|].
  right. exists p, v'. split; [done|]. split; [done|]. rewrite Htk. pose proof (log_runs_wf _ _ _ Hw Hr) as Hw1.
  destruct (db_patch_proper v v1 p v' Hwv Hw1 Hdb Hv Ev) as (w' & Ew & Hw').
  eapply (decodes_log _ _ _ r0 v0 (ps ++ [p]) w' []); [|apply torn_nil|done| |done| |done].
  - by rewrite app_nil_r, log_bytes_snoc.
  - apply log_runs_app. exists v1. split; [done|]. by apply log_runs_one.
  - rewrite length_app. simpl. lia.
Qed.

Lemma logged_restarts d d' st r v ph : logged d st r v ph -> restarts d d' -> may_hold d' r v ph.
Proof.
  intros Hl (i & j & Hi & _ & E). pose proof (lg_bak _ _ _ _ _ Hl) as Hb. pose proof (lg_synced _ _ _ _ _ Hl) as Hs. unfold may_hold, disk_holds. rewrite E, Hb. cbn [bak main fmap option_fmap option_map from_option].
  eapply log_tail; [done..|lia].
Qed.

Lemma logged_keeps d st r v : logged d st r v None -> disk_keeps d r v.
Proof.
  intros Hl. split.
  - unfold disk_holds. rewrite (lg_bak _ _ _ _ _ Hl). cbn. destruct (log_tail d st r v None (main d) (length (main d) `max` file_cursor st) Hl) as [?|(? & ? & ? & _)]; [by rewrite take_ge by lia|lia|done|done].
  - intros d' Hd'. by destruct (logged_restarts _ _ _ _ _ _ Hl Hd') as [?|(? & ? & ? & _)].
Qed.

(** Membership in an explicit list. *)
Ltac in_list := intros; repeat rewrite !elem_of_cons in *; repeat rewrite !elem_of_nil in *; intuition (subst; auto).

(** *** Appending *)

Lemma logged_clean d st r v ph pos : logged d st r v ph -> 
  logged (mkDisk (take (file_cursor st) (main d ++ replicate (file_cursor st - length (main d)) zero_byte))
            (bak d) (bak_tmp d) (failed d) (mkSynced (s_main (synced d) `min` file_cursor st) (s_bak (synced d)) (s_tmp (synced d))))
    (mkStorage pos (file_cursor st)) r v None.
Proof.
  intros [Hb Hs (r0 & v0 & ps & v1 & t & Hm & Hc & Hw & Hr & Hv & Hrv & _ & _) Hlt Hwv _].
  split; [done|cbn; lia| |done..]. exists r0, v0, ps, v1, []. cbn [main file_cursor file_pos].
  split_and!; [|done..|apply torn_nil].
  rewrite Hm, Hc, app_nil_r, <- app_assoc. apply take_app_length.
Qed.

(** Writing a prefix of a patch at the end of a clean log. *)
Lemma logged_write d st r v p bs v' ph n : logged d st r v None -> file_pos st = file_cursor st ->
  db_patch p = true -> plain_patch p = true -> (r + 1 < usize_mod)%N -> patch_unsafe v p = (v', Ok tt) ->
  match ph with None => torn bs | Some q => q = p /\ bs = enc_patch p end -> file_cursor st <= n ->
  logged (mkDisk (write_at (main d) (file_pos st) bs) (bak d) (bak_tmp d) (failed d) (mkSynced n (s_bak (synced d)) (s_tmp (synced d))))
    (mkStorage (file_pos st + length bs) (file_cursor st)) r v ph.
Proof.
  intros [Hb Hs (r0 & v0 & ps & v1 & t & Hm & Hc & Hw & Hr & Hv & Hrv & Hpos & _) Hlt Hwv _] Hp Hdb Hpl Hlt' Ev Hbs Hn.
  specialize (Hpos Hp). subst t. rewrite app_nil_r in Hm.
  split; [done|done| |done|done|].
  - exists r0, v0, ps, v1, bs. cbn [main file_cursor file_pos]. split_and!; try done.
    + by rewrite Hp, Hc, Hm, write_at_end.
    + intros Hz. apply length_zero_iff_nil. lia.
    + destruct ph as [q|]; [|done]. by destruct Hbs as [-> ->].
  - intros q ->. destruct Hbs as [-> ->]. eauto.
Qed.

(** A complete patch becomes part of the log when the cursor moves behind it. *)
Lemma logged_advance d st r v p v' : logged d st r v (Some p) -> patch_unsafe v p = (v', Ok tt) -> s_main (synced d) = length (main d) ->
  logged d (mkStorage (file_cursor st + length (enc_patch p)) (file_cursor st + length (enc_patch p)))
    (r + 1) v' None.
Proof.
  intros [Hb _ (r0 & v0 & ps & v1 & t & Hm & Hc & Hw & Hr & Hv & Hrv & _ & ->) Hlt Hwv Hph] Ev Hsy.
  destruct (Hph p eq_refl) as (Hdb & Hpl & Hlt' & _). pose proof (log_runs_wf _ _ _ Hw Hr) as Hw1.
  destruct (db_patch_proper v v1 p v' Hwv Hw1 Hdb Hv Ev) as (w' & Ew & Hw').
  pose proof (db_patch_wf v p Hwv Hdb) as Hwv'. rewrite Ev in Hwv'.
  split; [done|cbn [file_cursor]; rewrite Hsy, Hm, length_app; lia| |done..]. exists r0, v0, (ps ++ [p]), w', [].
  cbn [file_cursor file_pos]. rewrite log_bytes_snoc, app_nil_r, !length_app.
  split_and!; [done|lia|done| |done|simpl; lia|done|apply torn_nil].
  apply log_runs_app. exists v1. split; [done|]. by apply log_runs_one.
Qed.

Lemma logged_at_cursor d st r v ph : logged d st r v ph -> file_pos st = file_cursor st -> ph = None.
Proof.
  intros [_ _ (r0 & v0 & ps & v1 & t & _ & _ & _ & _ & _ & _ & Hpos & Hph) _ _ _] Hp.
  specialize (Hpos Hp). subst t. destruct ph as [p|]; [|done]. by destruct (enc_patch_nonempty p).
Qed.

(** The state of a run that has not acknowledged anything. *)
Record pending_append m r v (phs : list (option Patch)) m' : Prop := {
  pa_mem : same_mem m m';
  pa_committed : committed m' = committed m;
  pa_logged : exists st ph, storage (store m') = Some st /\ logged (disk m') st r v ph /\ ph ∈ phs;
}.

Lemma pending_mono m m1 r v phs phs' m' : same_mem m m1 -> committed m1 = committed m ->
  (forall x, x ∈ phs -> x ∈ phs') -> pending_append m1 r v phs m' -> pending_append m r v phs' m'.
Proof.
  intros Hm Hc Hi [Hm' Hc' (st & ph & ? & ? & ?)]. split; [by eapply same_mem_trans|congruence|]. eauto 10.
Qed.

Lemma pending_evs m r v phs m' e : pending_append m r v phs m' -> pending_append m r v phs (set_evs m' e).
Proof. intros [[] Hc ?]. by split. Qed.

Lemma seek_to_cursor_spec m st r v ph : storage (store m) = Some st -> logged (disk m) st r v ph ->
  wp seek_to_cursor
    (fun _ m' => pending_append m r v [None] m' /\ pos_of m' = cursor_of m')
    (fun _ => pending_append m r v [ph; None]) (pending_append m r v [ph; None]) m.
Proof.
  intros Est Hl. apply wp_bind.
  assert (forall x, pending_append m r v [ph; None] (set_evs m x)) as Hid.
  { intros x. split; [done..|]. exists st, ph. split; [done|]. split; [done|]. by left. }
  apply wp_position; [intros x|done].
  assert (cursor_of (set_evs m x) = file_cursor st) as Ec by (unfold cursor_of; simpl; by rewrite Est).
  assert (pos_of m = file_pos st) as Ep by (unfold pos_of; by rewrite Est).
  unfold wp. cbv zeta. rewrite Ec, Ep. destruct (file_pos st =? file_cursor st) eqn:Eq.
  - apply Nat.eqb_eq in Eq. pose proof (logged_at_cursor _ _ _ _ _ Hl Eq) as ->. split.
    + split; [done..|]. exists st, None. split; [done|]. split; [done|]. by left.
    + unfold pos_of, cursor_of. simpl. by rewrite Est.
  - match goal with |- match ?c ?n with _ => _ end => change (wp c
      (fun _ m' => pending_append m r v [None] m' /\ pos_of m' = cursor_of m')
      (fun _ => pending_append m r v [ph; None]) (pending_append m r v [ph; None]) n) end.
    apply wp_bind, wp_atomic; [intros y|intros y; split; apply Hid].
    assert (forall pos, logged _ _ _ _ _) as Hc by exact (fun pos => logged_clean _ _ _ _ _ pos Hl).
    apply wp_atomic; intros z.
    + split; [|done]. split; [done..|]. eexists (mkStorage (file_cursor st) (file_cursor st)), None. split_and!; [|apply Hc|by left].
      unfold set_pos, cursor_of. simpl. by rewrite Est.
    + assert (pending_append m r v [ph; None] (set_evs (set_main (set_evs (set_evs m x) y)
        (take (file_cursor st) (main (disk m) ++ replicate (file_cursor st - length (main (disk m))) zero_byte))
        (s_main (synced (disk m)) `min` file_cursor st)) z)) as H;
        [|by split].
      split; [done..|]. eexists _, None. split_and!; [done| |by right; left].
      destruct st as [fp fc]. apply Hc.
Qed.

Lemma append_patch_spec m st r v ph p v' : storage (store m) = Some st -> logged (disk m) st r v ph ->
  db_patch p = true -> plain_patch p = true -> (r + 1 < usize_mod)%N -> patch_unsafe v p = (v', Ok tt) ->
  wp (append_patch (enc_patch p)) (fun _ => pending_append m (r + 1) v' [None])
    (fun _ => pending_append m r v [ph; None; Some p]) (pending_append m r v [ph; None; Some p]) m.
Proof.
  intros Est Hl Hdb Hpl Hlt Ev. apply wp_bind.
  eapply wp_mono; [by apply (seek_to_cursor_spec m st r v ph)| |
    intros; apply (pending_mono m m r v [ph; None]); [done|done|in_list|done]..].
  intros [] m1 [[Hm1 Hc1 (st1 & ph1 & Est1 & Hl1 & ->%list_elem_of_singleton)] Hpos].
  unfold pos_of, cursor_of in Hpos. rewrite Est1 in Hpos. pose proof (lg_synced _ _ _ _ _ Hl1) as Hs1.
  pose proof (fun bs ph' n => logged_write _ _ _ _ _ bs _ ph' n Hl1 Hpos Hdb Hpl Hlt Ev) as Hwr.
  assert (forall bs ph' x, match ph' with None => torn bs | Some q => q = p /\ bs = enc_patch p end ->
    ph' ∈ [ph; None; Some p] -> pending_append m r v [ph; None; Some p] (put_main bs (set_evs m1 x))) as Hput.
  { intros bs ph' x Hbs Hin. apply (pending_mono m m1 _ _ [ph']); [done..|in_list|].
    split; [done..|]. eexists _, ph'. split; [done|]. split; [|by left].
    unfold put_main, pos_of, cursor_of. simpl. rewrite Est1. apply Hwr; [done|lia]. }
  apply wp_bind, wp_op.
  2:{ intros n x. assert (pending_append m r v [ph; None; Some p] (put_main (take n (enc_patch p)) (set_evs m1 x))) as H;
        [|by split]. destruct (take_patch p n) as [Ht|Ht]; [eapply (Hput _ None)|rewrite Ht; eapply (Hput _ (Some p))];
        try done; in_list. }
  intros x. assert (forall y, pending_append m r v [ph; None; Some p] (set_evs (put_main (enc_patch p) (set_evs m1 x)) y)) as Hfull.
  { intros y. apply pending_evs, (Hput (enc_patch p) (Some p) x); [done|in_list]. }
  apply wp_bind, wp_atomic; [intros y|by split]. apply wp_bind, wp_atomic; [intros z|intros z; split; apply pending_evs, Hfull].
  apply wp_modify. split; [by destruct Hm1|done|].
  set (new := write_at (main (disk m1)) (file_pos st1) (enc_patch p)).
  pose proof (Hwr (enc_patch p) (Some p) (length new) (conj eq_refl eq_refl)) as Hl2.
  assert (file_cursor st1 <= length new) as Hle.
  { unfold new, write_at. rewrite length_app, length_take, length_app, length_replicate. lia. }
  pose proof (logged_advance _ _ _ v p v' (Hl2 Hle) Ev eq_refl) as Hadv.
  eexists _, None. split; [done|]. split; [|by left].
  unfold set_cursor, put_main, set_pos, pos_of, cursor_of. simpl. rewrite Est1. simpl. unfold new in Hadv. rewrite Hpos in Hadv |- *. exact Hadv.
Qed.

(** *** Compressing *)

Lemma decodes_veq bs r v w : decodes bs r v -> veq v w -> decodes bs r w.
Proof.
  intros [-> -> Hv|r0 v0 ps v1 t -> Ht Hw Hr Hv -> Hlt] Hvw.
  - constructor 1; [done..|]. by etrans.
  - econstructor 2; [done..| |done|done]. by etrans.
Qed.

Lemma image_log (s : Store) : image s = log_bytes (revision s) (persistent s) [].
Proof. unfold image, log_bytes. by rewrite app_nil_r. Qed.

Lemma image_decodes (s : Store) : value_wf (persistent s) = true -> (revision s < usize_mod)%N ->
  decodes (image s) (revision s) (persistent s).
Proof.
  intros Hw Hlt. eapply (decodes_log _ _ _ (revision s) (persistent s) [] _ []);
    [by rewrite image_log, app_nil_r|apply torn_nil|done|done|done|simpl; lia|done].
Qed.

Lemma image_logged d (s : Store) : bak d = None -> main d = image s -> s_main (synced d) = length (image s) -> value_wf (persistent s) = true ->
  (revision s < usize_mod)%N ->
  logged d (mkStorage (length (image s)) (length (image s))) (revision s) (persistent s) None.
Proof.
  intros Hb Hm Hs Hw Hlt. split; [done|cbn; lia| |done..]. exists (revision s), (persistent s), [], (persistent s), [].
  cbn [file_cursor file_pos]. rewrite <- image_log, app_nil_r. split_and!; try done; [simpl; lia|apply torn_nil].
Qed.

Lemma logged_disk d d' st r v ph : main d' = main d -> bak d' = bak d -> s_main (synced d') = s_main (synced d) -> logged d st r v ph -> logged d' st r v ph.
Proof. intros Em Eb Es [Hb Hs Hl ? ? ?]. split; [congruence|by rewrite Es| |done..]. by rewrite Em. Qed.

(** A backup that is synced is what is found. *)
Lemma backup_keeps d c r v : bak d = Some c -> s_bak (synced d) = length c -> decodes c r v -> disk_keeps d r v.
Proof.
  intros Hb Hs Hc. split; [unfold disk_holds; by rewrite Hb|]. intros d' (i & j & _ & Hj & E). unfold disk_holds. rewrite E, Hb. cbn. by rewrite take_ge by lia.
Qed.

Lemma logged_veq d st r v w ph : veq v w -> value_wf w = true -> logged d st r v ph -> logged d st r w ph.
Proof.
  intros Hvw Hw [Hb Hs (r0 & v0 & ps & v1 & t & Hm & Hc & Hw0 & Hr & Hv & Hrest) Hlt Hwv Hph].
  split; [done|done| |done|done|].
  - exists r0, v0, ps, v1, t. split_and!; try done; [by etrans|apply Hrest..].
  - intros p Hp. destruct (Hph p Hp) as (Hdb & Hpl & Hlt' & v2 & E). split; [done|]. split; [done|]. split; [done|].
    assert (veq w v) as Hwv' by by symmetry.
    destruct (db_patch_proper v w p v2 Hwv Hw Hdb Hwv' E) as (w2 & ? & _). eauto.
Qed.

(** The store is open on a log of its document. *)
Definition live m (ph : option Patch) : Prop :=
  exists st, storage (store m) = Some st
    /\ logged (disk m) st (revision (store m)) (persistent (store m)) ph.

Lemma persist_spec m st r v ph p v' : storage (store m) = Some st -> logged (disk m) st r v ph ->
  db_patch p = true -> plain_patch p = true -> patch_unsafe v p = (v', Ok tt) -> persistent (store m) = v' ->
  revision (store m) = (r + 1)%N -> (r + 1 < usize_mod)%N -> committed m = false ->
  wp (persist p)
    (fun _ m' => same_mem m m' /\ disk_keeps (disk m') (r + 1) v' /\ (bak (disk m') = None -> live m' None))
    (fun _ m' => same_mem m m' /\
       if committed m' then disk_keeps (disk m') (r + 1) v' /\ is_Some (bak (disk m'))
       else pending_append m r v [ph; None; Some p] m')
    (fun m' => pending_append m r v [ph; None; Some p] m' \/ disk_keeps (disk m') (r + 1) v') m.
Proof.
  intros Est Hl Hdb Hpl Ev Hd Hr Hlt Hc. assert (value_wf v' = true) as Hw'.
  { pose proof (db_patch_wf v p (lg_wf _ _ _ _ _ Hl) Hdb) as H. by rewrite Ev in H. }
  assert (decodes (image (store m)) (r + 1) v') as Himg.
  { rewrite <- Hr, <- Hd. apply image_decodes; [by rewrite Hd|by rewrite Hr]. }
  assert (forall m', backed_up m m' -> disk_keeps (disk m') (r + 1) v') as Hbu.
  { intros m' [_ Hb Hs _]. by eapply backup_keeps. }
  assert (forall m', untouched m m' -> pending_append m r v [ph; None; Some p] m') as Hun.
  { intros m' [Hm Hmn Hb [Hsm _] Hst Hcm]. split; [done..|]. exists st, ph.
    split; [congruence|]. split; [by eapply logged_disk|by left]. }
  unfold wp, persist. rewrite Est. destruct (revision (store m) mod 4096 =? 0)%N.
  - pose proof (compress_spec m st Est Hc) as Hs. unfold wp in Hs.
    destruct (Store_compress m) as [m' [[]|e| |]].
    + destruct Hs as (Hm & Hmn & Hcm & Hst & Hsm & Hb). split; [done|].
      assert (bak (disk m') = None -> logged (disk m') (mkStorage (length (image (store m))) (length (image (store m)))) (r + 1) v' None) as Hlog.
      { intros Hnone. rewrite <- Hd, <- Hr. apply image_logged; [done..|by rewrite Hd|by rewrite Hr]. }
      split.
      * destruct Hb as [Hb|[Hb Hsb]]; [by eapply logged_keeps, Hlog|by eapply backup_keeps].
      * intros Hnone. exists (mkStorage (length (image (store m))) (length (image (store m)))).
        split; [done|]. rewrite (sm_doc _ _ Hm), (sm_rev _ _ Hm), Hd, Hr. by apply Hlog.
    + destruct Hs as [Hs|Hs].
      * split; [apply Hs|]. rewrite (ut_committed _ _ Hs), Hc. by apply Hun.
      * split; [apply Hs|]. rewrite (bu_committed _ _ Hs). split; [by apply Hbu|]. by rewrite (bu_bak _ _ Hs).
    + done.
    + destruct Hs as [Hs|Hs]; [left; by apply Hun|right; by apply Hbu].
  - pose proof (append_patch_spec m st r v ph p v' Est Hl Hdb Hpl Hlt Ev) as Hs. unfold wp in Hs.
    destruct (append_patch (enc_patch p) m) as [m' [[]|e| |]]; [|..|by left].
    + destruct Hs as [Hm Hcm (st' & ph' & Est' & Hl' & ->%list_elem_of_singleton)]. split; [done|].
      split; [exact (logged_keeps _ _ _ _ Hl')|]. intros _. exists st'. split; [done|].
      by rewrite (sm_doc _ _ Hm), (sm_rev _ _ Hm), Hd, Hr.
    + split; [apply Hs|]. by rewrite (pa_committed _ _ _ _ _ Hs), Hc.
    + done.
Qed.

(** *** Opening *)

Lemma usize_succ_ok r : (r + 1 < usize_mod)%N -> usize_succ r = Done (r + 1)%N.
Proof. intros H. unfold usize_succ. by rewrite (proj2 (N.ltb_lt _ _) H). Qed.

Lemma dec_torn t : torn t -> dec_patch t = End \/ dec_patch t = Bad.
Proof.
  intros [->|(p & b & E & Hb)]; [left; apply dec_patch_nil|].
  destruct t as [|x t]; [left; apply dec_patch_nil|]. right. by eapply dec_patch_cut.
Qed.

(** Replaying a log whose patches apply makes no I/O call. *)
Lemma replay_log_spec fuel ps t v r v1 m : log_runs v ps v1 -> torn t ->
  length (concat (map enc_patch ps) ++ t) < fuel -> (r + N.of_nat (length ps) < usize_mod)%N ->
  replay_log fuel (concat (map enc_patch ps) ++ t) v r m = (m, IoOk (v1, r + N.of_nat (length ps), t)%N).
Proof.
  revert fuel v r. induction ps as [|p ps IH]; intros fuel v r; simpl;
    (destruct fuel as [|n]; [simpl; intros; lia|]).
  - intros -> Ht _ _. cbn [replay_log]. rewrite N.add_0_r. by destruct (dec_torn t Ht) as [-> | ->].
  - intros (Hdb & Hpl & v2 & E & Hr) Ht Hlen Hlt. cbn [replay_log]. rewrite <- app_assoc in *. rewrite dec_enc_patch by done.
    apply patch_ok_iff in E as [u ->]. unfold io_bind, io_ret.
    rewrite usize_succ_ok by lia. rewrite IH; [|done|done| |lia].
    { replace (r + 1 + N.of_nat (length ps))%N with (r + N.of_nat (S (length ps)))%N by lia. done. }
    rewrite length_app in Hlen. pose proof (enc_patch_nonempty p) as Hne.
    destruct (enc_patch p); [done|]. simpl in Hlen. lia.
Qed.

(** The three reads of [load] on bytes that hold [r] and [v]. *)
Lemma read_spec bs r v m (k : Value * N * list byte -> IO unit) : decodes bs r v ->
  exists v1 rest, veq v1 v /\ value_wf v1 = true /\ (r < usize_mod)%N /\
  (let! (r0, bs1) := next_or (dec_u64 bs) bs 0%N in
   let! (v0, bs2) := next_or (dec_value bs1) bs1 Null in
   let! x := replay_log (S (length bs2)) bs2 v0 r0 in k x) m = k (v1, r, rest) m.
Proof.
  intros [-> -> Hv|r0 v0 ps v1 t -> Ht Hw Hr Hv -> Hlt].
  - exists Null, []. split_and!; [done..|]. unfold io_bind. rewrite dec_u64_nil. simpl.
    unfold io_ret. rewrite dec_value_nil. simpl. unfold io_ret. by rewrite dec_patch_nil.
  - exists v1, t. split_and!; [done|exact (log_runs_wf _ _ _ Hw Hr)|done|].
    unfold log_bytes, io_bind. rewrite <- !app_assoc, dec_enc_u64. cbn [next_or io_ret].
    rewrite dec_enc_value. cbn [next_or io_ret].
    by rewrite (replay_log_spec _ ps t v0 r0 v1 m Hr Ht (Nat.lt_succ_diag_r _) Hlt).
Qed.

(** What holds of the disk, now or after a restart, still does when the backup has become the file. *)
Lemma holds_renamed d c t f r v st : bak d = Some c -> disk_holds d r v -> disk_holds (mkDisk c None t f st) r v.
Proof. intros Eb Hd. unfold disk_holds in *. by rewrite Eb in Hd. Qed.

Lemma keeps_renamed d c t f r v st : bak d = Some c -> disk_keeps d r v ->
  disk_keeps (mkDisk c None t f (mkSynced (s_bak (synced d)) 0 st)) r v.
Proof.
  intros Eb [Hd Hk]. split; [by eapply holds_renamed|]. intros d' (i & j & Hi & _ & E). cbn [synced s_main main] in Hi, E.
  assert (restarts d (mkDisk (take (s_main (synced d)) (main d)) (Some (take i c)) [] []
    (mkSynced (length (take (s_main (synced d)) (main d))) (length (take i c)) 0))) as Hr.
  { exists (s_main (synced d)), i. split; [done|]. split; [done|]. by rewrite Eb. }
  apply Hk in Hr. unfold disk_holds in *. rewrite E. exact Hr.
Qed.

(** [load] keeps what holds of the disk, if renaming the backup does. *)
Lemma load_spec (K : Disk -> Prop) m r v : (forall d, K d -> disk_holds d r v) ->
  (forall d c t f st, bak d = Some c -> K d -> K (mkDisk c None t f (mkSynced (s_bak (synced d)) 0 st))) -> K (disk m) ->
  wp load
    (fun _ m' => K (disk m') /\ bak (disk m') = None /\ (r < usize_mod)%N
       /\ revision (store m') = r /\ veq (persistent (store m')) v
       /\ value_wf (persistent (store m')) = true /\ is_Some (storage (store m')))
    (fun _ m' => K (disk m')) (fun m' => K (disk m')) m.
Proof.
  intros HK Hren Hd. apply wp_bind.
  assert (wp (fun m => match bak (disk m) with Some c => rename_bak_main c m | None => (m, IoOk tt) end)
    (fun _ m' => K (disk m') /\ bak (disk m') = None) (fun _ m' => K (disk m')) (fun m' => K (disk m')) m) as H1.
  { unfold wp. destruct (bak (disk m)) as [c|] eqn:Eb; [|done].
    pose proof (wp_atomic (fun m => set_bak (set_main m c (s_bak (synced (disk m)))) None 0)
      (fun _ m' => K (disk m') /\ bak (disk m') = None) (fun _ m' => K (disk m')) (fun m' => K (disk m')) m) as Hop.
    unfold wp in Hop. apply Hop; [|done]. intros x. split; [|done]. by apply Hren. }
  eapply wp_mono; [exact H1| |done|done]. intros [] m1 [Hd1 Hb1].
  apply wp_bind, wp_atomic; [intros x|done]. apply wp_bind, wp_atomic; [intros y|done].
  unfold wp. cbv zeta. cbn [set_evs disk id].
  assert (decodes (main (disk m1)) r v) as Hdec by (pose proof (HK _ Hd1) as Hh; unfold disk_holds in Hh; by rewrite Hb1 in Hh).
  destruct (read_spec _ r v (set_evs (set_evs m1 x) y) (finish_load (main (disk m1))) Hdec)
    as (v1 & rest & Hv & Hw & Hlt & ->).
  match goal with |- match finish_load ?a ?b ?n with _ => _ end => change (wp (finish_load a b)
    (fun _ m' => K (disk m') /\ bak (disk m') = None /\ (r < usize_mod)%N
       /\ revision (store m') = r /\ veq (persistent (store m')) v
       /\ value_wf (persistent (store m')) = true /\ is_Some (storage (store m')))
    (fun _ m' => K (disk m')) (fun m' => K (disk m')) n) end.
  apply wp_bind, wp_atomic; [intros z|done]. apply wp_modify. cbn. split_and!; done.
Qed.

(** *** Runs without I/O failures *)

Lemma load_lucky m r v : evs m = [] -> disk_holds (disk m) r v ->
  exists m', load m = (m', IoOk tt) /\ evs m' = [].
Proof.
  intros He Hd. unfold load. unfold io_bind at 1.
  assert (exists m1, match bak (disk m) with Some c => rename_bak_main c m | None => (m, IoOk tt) end = (m1, IoOk tt)
    /\ evs m1 = [] /\ decodes (main (disk m1)) r v) as (m1 & -> & He1 & Hdec).
  { unfold disk_holds in Hd. destruct (bak (disk m)) as [c|] eqn:Eb; [|by exists m].
    unfold rename_bak_main, io_atomic, io_op. rewrite He. eexists. split; [done|]. by split. }
  unfold io_bind at 1 2, io_atomic at 1 2, io_op at 1 2. unfold id. rewrite He1. cbv iota beta zeta. rewrite He1. cbv iota beta zeta.
  destruct (read_spec _ r v m1 (finish_load (main (disk m1))) Hdec) as (v1 & rest & _ & _ & _ & ->).
  unfold finish_load, io_bind, io_atomic, io_op. rewrite He1. eexists. by split.
Qed.
End log.

(** ** Properties *)

Section properties.
Context `{SJ : SerdeJson}.
Context `{MC : !Mpsc Revision} `{BC : !Bcast (result Bytes JsonError)} `{CB : !Cbor}.
Implicit Types (m : Machine) (p : Patch).

(** Calls that leave a part [f] of the machine alone. *)
Definition keeps {T A} (f : Machine -> T) (c : IO A) : Prop := forall m, f (c m).1 = f m.

Lemma keeps_bind {T A B} (f : Machine -> T) (c : IO A) (k : A -> IO B) :
  keeps f c -> (forall a, keeps f (k a)) -> keeps f (io_bind c k).
Proof.
  intros Hc Hk m. unfold io_bind. specialize (Hc m). destruct (c m) as [m' []]; simpl in Hc; try done.
  by rewrite Hk.
Qed.

Lemma keeps_op {T} (f : Machine -> T) full partial : (forall m, f (full m) = f m) ->
  (forall n m, f (partial n m) = f m) -> (forall m e, f (set_evs m e) = f m) -> keeps f (io_op full partial).
Proof. intros Hf Hp He m. unfold io_op. destruct (evs m) as [|[] ?]; simpl; by rewrite ?Hf, ?Hp, ?He. Qed.

Lemma append_keeps bs : keeps (fun m => (bak (disk m), chans m, revision (store m), broadcast (store m))) (append_patch bs).
Proof.
  apply keeps_bind.
  - apply keeps_bind; [apply keeps_bind; [by apply keeps_op|by intros ? m]|]. intros q m. cbv zeta.
    destruct (q =? cursor_of m); [done|].
    assert (forall c, keeps (fun m => (bak (disk m), chans m, revision (store m), broadcast (store m))) (file_set_len c ;! file_seek c)) as Hk
      by (intros c; apply keeps_bind; [|intros _]; by apply keeps_op).
    apply Hk.
  - intros _. do 3 (apply keeps_bind; [by apply keeps_op|intros _]). by intros m.
Qed.

(** What the disk may hold after an append that was cut off. *)
Lemma pending_holds m r v ph p v' m' d : pending_append m r v [ph; None; Some p] m' -> restarts (disk m') d ->
  patch_unsafe v p = (v', Ok tt) ->
  disk_holds d r v \/ exists q w, (q = p \/ ph = Some q) /\ patch_unsafe v q = (w, Ok tt) /\ disk_holds d (r + 1) w.
Proof.
  intros [_ _ (st & ph' & _ & Hl & Hin)] Hd Ev. destruct (logged_restarts _ _ _ _ _ _ Hl Hd) as [?|(q & w & -> & E & H)]; [by left|].
  right. exists q, w. split; [|done]. apply elem_of_cons in Hin as [<-|[|[[= ->]|[]%not_elem_of_nil]%elem_of_cons]%elem_of_cons]; [by right|done|by left].
Qed.

(** C1: [Store::apply] of a patch that the database makes, with pointers of one-byte characters, that can be undone, on a store
    that is open on a log without a leftover backup, under every schedule of I/O failures and crashes.
    It never panics.  When it returns a revision, the document is the patched one
    and the disk opens with it, also when the machine stops and what was not synced is lost.
    When it fails, the document and revision are as
    before and the store goes on from there, or the failure came after the backup
    was in place and both memory and disk have the new document.  When the machine
    stops, whatever is lost, the disk opens with the old document, the new one, or one that an
    earlier failed call had written completely. *)
Theorem store_apply_durable m ph p :
  live m ph -> wired (chans m) (broadcast (store m)) -> db_patch p = true -> plain_patch p = true ->
  patch_reversible p (persistent (store m)) = true -> (revision (store m) + 1 < usize_mod)%N ->
  let v := persistent (store m) in let r := revision (store m) in
  match Store_apply p m with
  | (m', IoOk None) => p = [] /\ m' = m
  | (m', IoOk (Some rev)) => rev = mkRevision (r + 1) p /\ revision (store m') = (r + 1)%N
      /\ patch_unsafe v p = (persistent (store m'), Ok tt)
      /\ disk_keeps (disk m') (r + 1) (persistent (store m')) /\ (bak (disk m') = None -> live m' None)
  | (m', IoErr _) =>
      (veq (persistent (store m')) v /\ revision (store m') = r
       /\ exists ph', live m' ph' /\ ph' ∈ [ph; None; Some p])
      \/ (patch_unsafe v p = (persistent (store m'), Ok tt) /\ revision (store m') = (r + 1)%N
          /\ disk_keeps (disk m') (r + 1) (persistent (store m')) /\ is_Some (bak (disk m')))
  | (_, IoPanic) => False
  | (m', IoCrash) => forall d, restarts (disk m') d -> disk_holds d r v \/
      exists q v', (q = p \/ ph = Some q) /\ patch_unsafe v q = (v', Ok tt) /\ disk_holds d (r + 1) v'
  end.
Proof.
  intros (st & Est & Hl) Hwi Hdb Hpl Hrev Hlt v r. unfold Store_apply.
  destruct p as [|op p0]; [done|]. cbn [Patch_is_empty]. set (p := op :: p0) in *.
  pose proof (lg_wf _ _ _ _ _ Hl) as Hw. pose proof (proj1 (db_patch_spec p) Hdb) as [Hpw Hpd].
  destruct (patch_undo_spec p v Hw Hpw Hrev) as (doc & res & E & Hwd & Hres). fold v. rewrite E.
  destruct res as [undo|e].
  2:{ left. cbn. split; [done|]. split; [done|]. exists ph. split; [|by left]. exists st. split; [done|].
      apply (logged_veq _ _ _ v); [by symmetry|done|done]. }
  rewrite usize_succ_ok by done. assert (patch_unsafe v p = (doc, Ok tt)) as Ev by (apply patch_ok_iff; eauto).
  set (m1 := set_committed (set_doc m doc (revision (store m) + 1)) false).
  pose proof (persist_spec m1 st r v ph p doc Est Hl Hdb Hpl Ev eq_refl eq_refl Hlt eq_refl) as Hp.
  unfold wp in Hp. destruct (persist p m1) as [m2 [[]|e| |]].
  - destruct Hp as ([Hd2 Hr2 Hb2 Hc2] & Hdisk & Hlive). unfold send_revision.
    destruct (send_spec (chans m2) (broadcast (store m2)) (mkRevision (revision (store m2)) p))
      as (w & b & -> & _); [by rewrite Hb2, Hc2|done|].
    cbn in Hd2, Hr2 |- *. rewrite Hd2, Hr2 in *. split_and!; try done.
    intros Hb. destruct (Hlive Hb) as (st2 & ? & ?). exists st2. cbn. by rewrite Hd2, Hr2 in *.
  - destruct Hp as ([Hd2 Hr2 _ _] & Hp). cbn in Hd2, Hr2. destruct (committed m2).
    + right. destruct Hp as [Hdisk Hb]. by rewrite Hd2, Hr2.
    + destruct Hres as (d & Hu & Hwdd & Hvd). unfold roll_back. rewrite Hd2, Hu. cbn. rewrite Hr2, N.add_sub.
      left. split; [done|]. split; [done|].
      destruct Hp as [_ _ (st2 & ph2 & Est2 & Hl2 & Hin)]. exists ph2. split; [|done]. exists st2. split; [done|].
      apply (logged_veq _ _ _ v); [by symmetry|done|done].
  - done.
  - intros d Hd. destruct Hp as [Hp|[_ Hp]]; [by eapply pending_holds|]. right. exists p, doc. split; [by left|]. split; [done|by apply Hp].
Qed.

(** C19: [Store::open] on a disk that holds revision [r] and document [v], in a log of patches with pointers of one-byte characters,
    opens with them, whether they come from the backup or from the log with a
    torn end, and when it has succeeded they stay whatever is lost when the machine stops.  A failure leaves a disk that still holds
    them; if they would have survived a stop before, they survive one during or after [open];
    and without I/O failures [open] succeeds. *)
Theorem store_open_recovers m (r : N) (v : Value) : disk_holds (disk m) r v ->
  match Store_open m with
  | (m', IoOk _) => disk_keeps (disk m') r v /\ revision (store m') = r /\ veq (persistent (store m')) v
      /\ (bak (disk m') = None -> live m' None)
  | (_, IoPanic) => False
  | (m', _) => disk_holds (disk m') r v /\ (disk_keeps (disk m) r v -> disk_keeps (disk m') r v)
  end
  /\ (evs m = [] -> exists m', Store_open m = (m', IoOk tt)).
Proof.
  intros Hd. split.
  2:{ intros He. destruct (load_lucky m r v He Hd) as (m1 & E & He1).
      destruct (compress_lucky (set_committed m1 false) He1) as (m2 & [] & E2 & _).
      exists m2. unfold Store_open, io_bind. by rewrite E. }
  pose proof (load_spec (fun d => disk_holds d r v) m r v (fun _ H => H) (fun d c t f st Eb => holds_renamed d c t f r v _ Eb) Hd) as Hl.
  pose proof (load_spec (fun d => disk_keeps d r v) m r v (fun _ H => proj1 H) (fun d c t f st Eb => keeps_renamed d c t f r v st Eb)) as Hk.
  unfold wp in Hl, Hk. unfold Store_open, io_bind.
  destruct (load m) as [m1 [[]|e| |]]; [|by split|done|by split]. cbn.
  destruct Hl as (Hd1 & Hb1 & Hlt & <- & Hv1 & Hw1 & [st Est]).
  pose proof (compress_spec (set_committed m1 false) st Est eq_refl) as Hc. unfold wp in Hc.
  assert (decodes (image (store m1)) (revision (store m1)) v) as Himg.
  { eapply decodes_veq; [|done]. by apply image_decodes. }
  assert (forall m', untouched (set_committed m1 false) m' \/ backed_up (set_committed m1 false) m' ->
    disk_holds (disk m') (revision (store m1)) v /\ (disk_keeps (disk m) (revision (store m1)) v -> disk_keeps (disk m') (revision (store m1)) v)) as Hfail.
  { intros m' [[_ Hm Hb [Hsm Hsb] _ _]|[_ Hb Hs _]].
    - split; [unfold disk_holds in *; rewrite Hb, Hm; exact Hd1|]. intros H. destruct (Hk H) as [[Hk1 Hk2] _].
      split; [unfold disk_holds in *; rewrite Hb, Hm; exact Hk1|]. intros d (i & j & Hi & Hj & E). apply Hk2.
      exists i, j. rewrite Hm, Hb, Hsm, Hsb in *. done.
    - assert (disk_keeps (disk m') (revision (store m1)) v) as H by (by eapply backup_keeps). split; [exact (proj1 H)|intros _; exact H]. }
  destruct (Store_compress _) as [m2 [[]|e| |]]; [|by apply Hfail|done|by apply Hfail].
  destruct Hc as ([Hd2 Hr2 _ _] & Hm2 & _ & Hst2 & Hsm2 & Hb2). cbn in *. rewrite Hd2, Hr2.
  assert (bak (disk m2) = None -> logged (disk m2) (mkStorage (length (image (store m1))) (length (image (store m1)))) (revision (store m1)) (persistent (store m1)) None) as Hlog
    by (intros Hb; by apply image_logged).
  split_and!; [|done|done|].
  - destruct Hb2 as [Hb|[Hb Hs]]; [|by eapply backup_keeps]. destruct (logged_keeps _ _ _ _ (Hlog Hb)) as [H1 H2].
    split; [by eapply decodes_veq|]. intros d Hrd. by eapply decodes_veq; [apply H2|].
  - intros Hb. eexists. split; [done|]. cbn. rewrite Hd2, Hr2. by apply Hlog.
Qed.

(** C40: [compress] ignores a failure to remove the backup, and
    [open] prefers a backup to the file.  While a backup is left over, a revision
    that [apply] acknowledges (and has synced to the file) is not what the disk
    opens with: that stays the backup's. *)
Theorem leftover_backup_loses_updates m p (b : list byte) (r : N) (v : Value) m' rev :
  bak (disk m) = Some b -> decodes b r v -> is_Some (storage (store m)) ->
  ((revision (store m) + 1) mod 4096 ≠ 0)%N ->
  Store_apply p m = (m', IoOk (Some rev)) ->
  rev_id rev = (revision (store m) + 1)%N /\ disk_holds (disk m') r v.
Proof.
  intros Hb Hdec [st Est] Hmod. unfold Store_apply. destruct (Patch_is_empty p); [done|].
  destruct (patch _ p) as [[doc [undo|e]]|]; [|done..].
  destruct (usize_succ (revision (store m))) as [n|] eqn:En; [|done].
  assert (n = (revision (store m) + 1)%N) as ->.
  { unfold usize_succ in En. destruct (_ <? _)%N; [|done]. congruence. }
  set (m1 := set_committed _ false).
  unfold persist. change (storage (store m1)) with (storage (store m)). rewrite Est.
  change (revision (store m1)) with (revision (store m) + 1)%N.
  rewrite (proj2 (N.eqb_neq _ _) Hmod).
  pose proof (append_keeps (enc_patch p) m1) as Hk.
  destruct (append_patch (enc_patch p) m1) as [m2 [[]|e| |]]; cbn in Hk; injection Hk as Hk _ Hr _.
  - unfold send_revision. destruct (Broadcast_send _ _ _) as [[w bc]|]; [|done]. intros [= <- <-]. simpl.
    split; [done|]. unfold disk_holds. simpl. by rewrite Hk, Hb.
  - unfold roll_back. destruct (committed m2); [done|]. by destruct (Undo_apply _ _).
  - done.
  - done.
Qed.
(** *** A pointer that cannot be read back *)

(** Appending without I/O failures puts the bytes behind the log. *)
Lemma append_main m (st : FileStorage) (l t bs : list byte) : evs m = [] -> storage (store m) = Some st -> main (disk m) = l ++ t ->
  file_cursor st = length l -> (file_pos st = file_cursor st -> t = []) ->
  exists m', append_patch bs m = (m', IoOk tt) /\ evs m' = [] /\ main (disk m') = l ++ bs /\ bak (disk m') = bak (disk m).
Proof.
  destruct m as [[mn bk tmp fl sy] ev ch [sto v r br] cm]. cbn [evs store storage disk main bak]. intros -> -> -> Hc Ht. destruct st as [fp fc]. cbn [file_cursor file_pos] in *. subst fc.
  unfold append_patch, seek_to_cursor, file_stream_position, io_bind, io_atomic, io_op, io_ret. cbn -[write_at]. destruct (fp =? length l) eqn:E; cbn -[write_at].
  - apply Nat.eqb_eq in E as ->. rewrite (Ht eq_refl), app_nil_r. eexists. split; [done|]. cbn -[write_at]. by rewrite write_at_end.
  - eexists. split; [done|]. cbn -[write_at]. rewrite <- (app_assoc l t), take_app_length. by rewrite write_at_end.
Qed.

(** Replaying a log up to a patch whose pointers cannot be read. *)
Lemma replay_unreadable fuel ps bs rest v r v1 m : log_runs v ps v1 -> dec_patch bs = Got Panic rest ->
  length (concat (map enc_patch ps) ++ bs) < fuel -> (r + N.of_nat (length ps) < usize_mod)%N ->
  replay_log fuel (concat (map enc_patch ps) ++ bs) v r m = (m, IoErr ErrJoin).
Proof.
  revert fuel v r. induction ps as [|p ps IH]; intros fuel v r; simpl; (destruct fuel as [|n]; [simpl; intros; lia|]).
  - intros _ Hd _ _. cbn [replay_log]. by rewrite Hd.
  - intros (Hdb & Hpl & v2 & E & Hr) Ht Hlen Hlt. cbn [replay_log]. rewrite <- app_assoc in *. rewrite dec_enc_patch by done.
    apply patch_ok_iff in E as [u ->]. unfold io_bind, io_ret. rewrite usize_succ_ok by lia. apply IH; [done|done| |lia].
    rewrite length_app in Hlen. pose proof (enc_patch_nonempty p) as Hne. destruct (enc_patch p); [done|]. simpl in Hlen. lia.
Qed.

Lemma dec_multibyte c (w : Value) : one_byte c = false -> dec_patch (enc_patch [Add [[c]] w]) = Got Panic [].
Proof.
  intros Hc. unfold dec_patch, enc_patch. pose proof (dec_enc_ops (map op_text [Add [[c]] w]) []) as E. rewrite app_nil_r in E. rewrite E.
  assert (render [[c]] = [47%N; c]) as Er.
  { unfold render. cbn. assert (needs_escape c = false) as Hn.
    { unfold needs_escape. unfold one_byte in Hc. apply N.ltb_ge in Hc. apply orb_false_iff. rewrite !N.eqb_neq. lia. }
    by rewrite escape_cons, escape_char_plain. }
  cbn [map op_text parse_ops parse_op]. rewrite Er. unfold JsonPointer_parse, char_indices. simpl.
  assert ((c =? 47)%N = false /\ (c =? 126)%N = false) as [-> ->] by (unfold one_byte in Hc; apply N.ltb_ge in Hc; rewrite !N.eqb_neq; lia).
  cbn. unfold JsonPointer_iter. cbn. unfold segment_text. cbn. unfold str_slice. cbn. replace (len_utf8 c <=? 1) with false; [done|].
  symmetry. apply Nat.leb_gt. unfold len_utf8. unfold one_byte in Hc. rewrite Hc. repeat case_match; lia.
Qed.
Lemma open_unreadable m r0 v0 ps v1 bs rest : evs m = [] -> bak (disk m) = None -> main (disk m) = log_bytes r0 v0 ps ++ bs -> log_runs v0 ps v1 ->
  dec_patch bs = Got Panic rest -> (r0 + N.of_nat (length ps) < usize_mod)%N -> exists m', Store_open m = (m', IoErr ErrJoin).
Proof.
  destruct m as [[mn bk tmp fl sy] ev ch s cm]. cbn [evs disk bak main]. intros -> -> -> Hr Hd Hlt.
  unfold Store_open, load, io_bind, io_atomic, io_op, log_bytes. cbn [evs disk bak main id]. rewrite <- !app_assoc, dec_enc_u64. cbn [next_or io_ret]. rewrite dec_enc_value. cbn [next_or io_ret].
  rewrite (replay_unreadable _ ps bs rest v0 r0 v1); [by eexists|done|done|lia|done].
Qed.

(** C25: a new key that is a character of more than one byte.  [apply] acknowledges the patch that adds it to a document that is an object, without any I/O
    failure; but [JsonPointer::parse] mistakes where the key ends in the log, and the store cannot be opened again: reading the key panics. *)
Theorem multibyte_key_blocks_open m o c (w : Value) :
  live m None -> wired (chans m) (broadcast (store m)) -> evs m = [] -> persistent (store m) = Object o -> InOMap_get [c] o = None -> one_byte c = false ->
  (revision (store m) + 1 < usize_mod)%N -> ((revision (store m) + 1) mod 4096 ≠ 0)%N ->
  exists m', Store_apply [Add [[c]] w] m = (m', IoOk (Some (mkRevision (revision (store m) + 1) [Add [[c]] w]))) /\
    exists m'', Store_open m' = (m'', IoErr ErrJoin).
Proof.
  intros (st & Est & [Hb _ (r0 & v0 & ps & v1 & t & Hm & Hc & Hw0 & Hr & Hv & Hrv & Hpos & _) Hlt Hwv _]) Hwi He Ho Hnew Hmb Hrb Hmod. set (p := [Add [[c]] w]).
  assert (exists doc, patch_unsafe (Object o) p = (doc, Ok tt)) as (doc & Hp) by (unfold p; cbn; unfold add; cbn; rewrite Hnew; by eexists).
  apply patch_ok_iff in Hp as [undo Hp].
  unfold Store_apply. change (Patch_is_empty p) with false. cbv iota. rewrite Ho, Hp, usize_succ_ok by done. set (m1 := set_committed _ false).
  unfold persist. change (storage (store m1)) with (storage (store m)). rewrite Est. change (revision (store m1)) with (revision (store m) + 1)%N. rewrite (proj2 (N.eqb_neq _ _) Hmod).
  destruct (append_main m1 st (log_bytes r0 v0 ps) t (enc_patch p) He Est Hm Hc Hpos) as (m2 & E2 & He2 & Hm2 & Hb2). pose proof (append_keeps (enc_patch p) m1) as Hk. rewrite E2 in Hk |- *.
  cbn in Hk. injection Hk as _ Hch Hrev Hbc. unfold send_revision. rewrite Hch, Hbc, Hrev.
  destruct (send_spec (chans m) (broadcast (store m)) (mkRevision (revision (store m) + 1) p) Hwi eq_refl) as (ch & b & -> & _). eexists. split; [reflexivity|].
  eapply open_unreadable; [exact He2|cbn; by rewrite Hb2|exact Hm2|done|by apply dec_multibyte|lia].
Qed.
End properties.

(** ** A codec to evaluate with

    Values and patches are written as trees, trees as positive numbers, and a
    number as its binary digits with an end marker. *)
Module TreeCodec.

Fixpoint enc_pos (p : positive) : list N :=
  match p with
  | xH => [2%N]
  | xO q => 0%N :: enc_pos q
  | xI q => 1%N :: enc_pos q
  end.

Fixpoint dec_pos (bs : list N) : decoded positive N :=
  match bs with
  | [] => Bad
  | b :: r =>
      if (b =? 2)%N then Got xH r
      else match dec_pos r with
           | Got q r' => Got (if (b =? 0)%N then xO q else xI q) r'
           | _ => Bad
           end
  end.

Lemma dec_enc_pos p r : dec_pos (enc_pos p ++ r) = Got p r.
Proof. induction p as [p IH|p IH|]; simpl; [by rewrite IH..|done]. Qed.

Lemma dec_pos_cut p a b : enc_pos p = a ++ b -> b ≠ [] -> dec_pos a = Bad.
Proof.
  revert a. induction p as [p IH|p IH|]; intros [|x a] E Hb; try done; simpl in *; injection E as <- E.
  - simpl. by rewrite (IH a).
  - simpl. by rewrite (IH a).
  - by destruct a, b.
Qed.

Lemma dec_pos_shorter bs p r : dec_pos bs = Got p r -> length r < length bs.
Proof.
  revert p r. induction bs as [|b bs IH]; intros p r; simpl; [done|]. destruct (b =? 2)%N; [intros [= _ <-]; lia|].
  destruct (dec_pos bs) as [| |q r'] eqn:E; [done..|]. intros [= _ <-]. specialize (IH _ _ eq_refl). lia.
Qed.

Section frame.
Context {A T : Type} `{Countable T} (to : A -> T) (back : T -> A) (Hinv : forall a, back (to a) = a).

Definition enc (a : A) : list N := enc_pos (encode (to a)).
Definition dec (bs : list N) : decoded A N :=
  match bs with
  | [] => End
  | _ => match dec_pos bs with
         | Got q r => match decode q with Some t => Got (back t) r | None => Bad end
         | _ => Bad
         end
  end.

Lemma dec_enc a r : dec (enc a ++ r) = Got a r.
Proof.
  unfold dec, enc. pose proof (dec_enc_pos (encode (to a)) r) as E.
  destruct (enc_pos (encode (to a)) ++ r); [done|]. by rewrite E, decode_encode, Hinv.
Qed.

Lemma dec_cut x a b : enc x = a ++ b -> a ≠ [] -> b ≠ [] -> dec a = Bad.
Proof. intros E Ha Hb. unfold dec. apply (dec_pos_cut (encode (to x))) in E; [|done]. rewrite E. by destruct a. Qed.

Lemma dec_shorter bs a r : dec bs = Got a r -> length r < length bs.
Proof.
  unfold dec. destruct bs as [|b bs]; [done|]. destruct (dec_pos (b :: bs)) as [| |q r'] eqn:E; [done..|].
  destruct (decode q); [|done]. intros [= _ <-]. by apply dec_pos_shorter in E.
Qed.
End frame.

#[local] Existing Instance ZNumber.

Abbreviation tree := (gen_tree (bool + (Z + str))).

Definition str_leaf (s : str) : tree := GenLeaf (inr (inr s)).
Definition leaf_str (t : tree) : str := match t with GenLeaf (inr (inr s)) => s | _ => [] end.

Fixpoint value_tree (v : Value) : tree :=
  match v with
  | Null => GenNode 0 []
  | Bool b => GenLeaf (inl b)
  | Num z => GenLeaf (inr (inl z))
  | Str s => str_leaf s
  | Array l => GenNode 1 (map value_tree l)
  | Object m => GenNode 2 (map (fun kv => GenNode 3 [str_leaf kv.1; value_tree kv.2]) m)
  end.

Fixpoint tree_value (t : tree) : Value :=
  match t with
  | GenLeaf (inl b) => Bool b
  | GenLeaf (inr (inl z)) => Num z
  | GenLeaf (inr (inr s)) => Str s
  | GenNode 1 l => Array (map tree_value l)
  | GenNode 2 l =>
      Object (map (fun t => match t with GenNode _ [k; t'] => (leaf_str k, tree_value t') | _ => ([], Null) end) l)
  | GenNode _ _ => Null
  end.

Lemma tree_value_tree v : tree_value (value_tree v) = v.
Proof.
  induction v as [| | | |l IH|m IH] using Value_ind; simpl; try done; f_equal; rewrite map_map.
  - rewrite <- (map_id l) at 2. apply map_ext_Forall. done.
  - rewrite <- (map_id m) at 2. apply map_ext_Forall. eapply Forall_impl; [exact IH|].
    intros [k w]. simpl. by intros ->.
Qed.

Definition op_tree (op : OpOf str) : tree :=
  match op with
  | OpAdd p v => GenNode 0 [str_leaf p; value_tree v]
  | OpRemove p => GenNode 1 [str_leaf p]
  | OpReplace p v => GenNode 2 [str_leaf p; value_tree v]
  | OpMove f p => GenNode 3 [str_leaf f; str_leaf p]
  | OpCopy f p => GenNode 4 [str_leaf f; str_leaf p]
  | OpTest p v => GenNode 5 [str_leaf p; value_tree v]
  end.

Definition tree_op (t : tree) : OpOf str :=
  match t with
  | GenNode 0 [p; v] => OpAdd (leaf_str p) (tree_value v)
  | GenNode 2 [p; v] => OpReplace (leaf_str p) (tree_value v)
  | GenNode 3 [f; p] => OpMove (leaf_str f) (leaf_str p)
  | GenNode 4 [f; p] => OpCopy (leaf_str f) (leaf_str p)
  | GenNode 5 [p; v] => OpTest (leaf_str p) (tree_value v)
  | GenNode 1 [p] => OpRemove (leaf_str p)
  | _ => OpRemove []
  end.

Lemma tree_op_tree op : tree_op (op_tree op) = op.
Proof. destruct op; cbn [op_tree tree_op str_leaf leaf_str]; by rewrite ?tree_value_tree. Qed.

Definition ops_tree (p : list (OpOf str)) : tree := GenNode 0 (map op_tree p).
Definition tree_ops (t : tree) : list (OpOf str) := match t with GenNode _ l => map tree_op l | _ => [] end.

Lemma tree_ops_tree p : tree_ops (ops_tree p) = p.
Proof. simpl. rewrite map_map. rewrite <- (map_id p) at 2. apply map_ext, tree_op_tree. Qed.

Definition TreeCbor : Cbor.
Proof.
  refine {| byte := N; zero_byte := 0%N;
    enc_u64 := enc (fun n : N => n); enc_value := enc value_tree; enc_ops := enc ops_tree;
    dec_u64 := dec (fun n : N => n); dec_value := dec tree_value; dec_ops := dec tree_ops |}; try done.
  - by apply dec_enc.
  - apply dec_enc, tree_value_tree.
  - apply dec_enc, tree_ops_tree.
  - apply dec_shorter.
  - apply dec_cut.
Defined.
End TreeCodec.

(** ** Witnesses *)

Module StoreExamples.
#[local] Existing Instance ZNumber.
#[local] Existing Instance KeepJson.
#[local] Instance mpsc_inst : Mpsc Revision := ListMpsc Revision.
#[local] Instance bcast_inst : Bcast (result Bytes JsonError) := ListBcast _.
#[local] Existing Instance TreeCodec.TreeCbor.

(** A store just opened at revision [r], with the I/O events to come. *)
Definition opened (r : N) (v : Value) (b : option (list byte)) (e : list Event) : Machine :=
  let img := enc_u64 r ++ enc_value v in
  mkMachine (mkDisk img b [] [] (mkSynced (length img) (length (default [] b)) 0)) e (mkChannels [] [])
    (mkStore (Some (mkStorage (length img) (length img))) v r []) false.

Definition doc0 : Value := Object [($"a", Num 1%Z)].
Definition add_b : Patch := [Add [$"b"] Null].
Definition add_c : Patch := [Add [$"c"] Null].

Lemma opened_live r v e : value_wf v = true -> (r < usize_mod)%N -> live (opened r v None e) None.
Proof.
  intros Hw Hr. eexists. split; [done|].
  by apply (image_logged (disk (opened r v None e)) (mkStore None v r [])).
Qed.

Lemma opened_wired r v e : wired (chans (opened r v None e)) (broadcast (store (opened r v None e))).
Proof. split; constructor. Qed.

(** The write of the patch fails after three bytes. *)
Lemma store_apply_durable_witness :
  exists m', Store_apply add_b (opened 7 doc0 None [EvOk; EvErr 3]) = (m', IoErr ErrIO)
    /\ revision (store m') = 7%N /\ veq (persistent (store m')) doc0 /\ exists ph, live m' ph.
Proof.
  pose proof (store_apply_durable (opened 7 doc0 None [EvOk; EvErr 3]) None add_b
    (opened_live 7 doc0 _ eq_refl eq_refl) (opened_wired _ _ _) eq_refl eq_refl eq_refl eq_refl) as H.
  assert ((Store_apply add_b (opened 7 doc0 None [EvOk; EvErr 3])).2 = IoErr ErrIO) as E2 by by vm_compute.
  assert (bak (disk (Store_apply add_b (opened 7 doc0 None [EvOk; EvErr 3])).1) = None) as E1 by by vm_compute.
  cbv zeta in H. destruct (Store_apply add_b (opened 7 doc0 None [EvOk; EvErr 3])) as [m' x].
  simpl in E1, E2. subst x. exists m'. split; [done|].
  destruct H as [(Hv & Hr & ph & Hl & _)|(_ & _ & _ & Hb)]; [eauto|]. rewrite E1 in Hb. by destruct Hb.
Defined.

(** The log ends in a torn patch, and the machine stops while the file is
    rewritten. *)
Definition torn_log : list byte := log_bytes 7 doc0 [add_b] ++ take 5 (enc_patch add_c).

Lemma store_open_recovers_witness :
  exists m', Store_open (mkMachine (mkDisk torn_log None [] [] (mkSynced (length torn_log) 0 0))
      (replicate 12 EvOk ++ [EvCrash 1]) (mkChannels [] []) (mkStore None Null 0 []) false) = (m', IoCrash)
    /\ forall d, restarts (disk m') d -> disk_holds d 8 (Object [($"a", Num 1%Z); ($"b", Null)]).
Proof.
  set (m := mkMachine _ _ _ _ _).
  assert (disk_holds (disk m) 8 (Object [($"a", Num 1%Z); ($"b", Null)])) as Hd.
  { eapply (decodes_log _ _ _ 7 doc0 [add_b] _ (take 5 (enc_patch add_c)));
      [done| |done|by apply log_runs_one|done|done|done].
    destruct (take_patch add_c 5) as [?|E]; [done|]. by vm_compute in E. }
  assert (disk_keeps (disk m) 8 (Object [($"a", Num 1%Z); ($"b", Null)])) as Hk.
  { apply (restarts_settled (disk m)); [|done]. exists (length torn_log), 0. split; [done|]. split; [done|]. cbn [main disk m bak]. by rewrite firstn_all. }
  destruct (store_open_recovers m 8 _ Hd) as [H _].
  assert ((Store_open m).2 = IoCrash) as E by by vm_compute.
  destruct (Store_open m) as [m' x]. simpl in E. subst x. exists m'. split; [done|]. apply H, Hk.
Defined.

(** The backup of the compression at revision 4096 is left over; revision 4097 is
    acknowledged, and reopening goes back to 4096. *)
Definition after_compression : Machine :=
  (Store_apply add_b (opened 4095 doc0 None (replicate 13 EvOk ++ [EvErr 0]))).1.

Definition acknowledged : Machine := (Store_apply add_c after_compression).1.
Definition reopened : Machine := (Store_open acknowledged).1.
Definition doc_b : Value := Object [($"a", Num 1%Z); ($"b", Null)].

Lemma leftover_backup_loses_updates_witness :
  (Store_apply add_c after_compression).2 = IoOk (Some (mkRevision 4097 add_c))
  /\ disk_holds (disk acknowledged) 4096 doc_b
  /\ (Store_open acknowledged).2 = IoOk tt
  /\ revision (store reopened) = 4096%N /\ persistent (store reopened) = doc_b.
Proof.
  assert ((Store_apply add_c after_compression).2 = IoOk (Some (mkRevision 4097 add_c))) as E by by vm_compute.
  split; [done|]. split; [|by vm_compute].
  assert (decodes (enc_u64 4096 ++ enc_value doc_b) 4096 doc_b) as Hdec
    by exact (image_decodes (mkStore None doc_b 4096 []) eq_refl eq_refl).
  assert (bak (disk after_compression) = Some (enc_u64 4096 ++ enc_value doc_b)) as Hb by by vm_compute.
  assert (is_Some (storage (store after_compression))) as Hst by (vm_compute; eauto).
  assert (((revision (store after_compression) + 1) mod 4096 ≠ 0)%N) as Hmod by by vm_compute.
  refine (proj2 (leftover_backup_loses_updates after_compression add_c _ 4096 doc_b acknowledged
    (mkRevision 4097 add_c) Hb Hdec Hst Hmod _)).
  rewrite <- E. apply surjective_pairing.
Defined.

(** The key is e with an acute accent. *)
Lemma multibyte_key_blocks_open_witness :
  exists m', Store_apply [Add [[233%N]] Null] (opened 7 doc0 None []) = (m', IoOk (Some (mkRevision 8 [Add [[233%N]] Null]))) /\
    exists m'', Store_open m' = (m'', IoErr ErrJoin).
Proof.
  exact (multibyte_key_blocks_open (opened 7 doc0 None []) [($"a", Num 1%Z)] 233%N Null (opened_live 7 doc0 [] eq_refl eq_refl) (opened_wired _ _ _)
    eq_refl eq_refl eq_refl eq_refl eq_refl ltac:(by vm_compute)).
Defined.

(** A compression that fails after the backup is in place keeps the new revision,
    reports an error, and sends the revision to nobody. *)
Definition failed_late : Machine * io (option Revision) :=
  Store_apply add_b (opened 4095 doc0 None (replicate 6 EvOk ++ [EvErr 0])).

Lemma committed_failure_not_sent :
  failed_late.2 = IoErr ErrIO /\ revision (store failed_late.1) = 4096%N
  /\ persistent (store failed_late.1) = doc_b.
Proof. by vm_compute. Qed.
End StoreExamples.
