(* ===== verification/PatchDb.v ===== *)
(** * The database handle

    [shared-libs/crates/patch-db/core/src/store.rs], [MutateResult] and [PatchDb]:
    the operations of a database that is shared by its users.  The handle is an
    [Arc<RwLock<Store>>]; an operation holds the lock from its first to its last
    access to the store, so it is one function on the machine of Store.v, and the
    users' operations interleave as the steps of [step].

    A system is the machine with the watches that were handed out. *)
From stdpp Require Import list relations.
From S2P Require Import Prelude RustStr BTree InOrderMap JsonValue PtrDoc JsonPatch JsonDiff DiffPatch Subscriber Store.

Local Open Scope rust_scope.

(** ** [MutateResult] *)

Section MutateResult.
Context `{JN : JNumber} {T E : Type}.

Record MutateResult : Type := mkMutate {
  mr_result : result T E;
  mr_revision : option Revision;
}.

Definition MutateResult_from (r : result (T * option Revision) E) : MutateResult :=
  match r with
  | Ok (t, rev) => mkMutate (Ok t) rev
  | Err e => mkMutate (Err e) None
  end.
End MutateResult.
Arguments MutateResult {JN} T E.
Arguments mkMutate {JN T E}.

Section maps.
Context `{JN : JNumber} {T E : Type}.

Definition MutateResult_map_result {T0 E0} (x : MutateResult T E) (f : result T E -> result T0 E0)
    : MutateResult T0 E0 := mkMutate (f (mr_result x)) (mr_revision x).

Definition MutateResult_map_ok {T0} (x : MutateResult T E) (f : T -> T0) : MutateResult T0 E :=
  mkMutate (match mr_result x with Ok t => Ok (f t) | Err e => Err e end) (mr_revision x).

Definition MutateResult_map_err {E0} (x : MutateResult T E) (f : E -> E0) : MutateResult T E0 :=
  mkMutate (match mr_result x with Ok t => Ok t | Err e => Err (f e) end) (mr_revision x).

Definition MutateResult_and_then {T0} (x : MutateResult T E) (f : T -> result T0 E) : MutateResult T0 E :=
  mkMutate (match mr_result x with Ok t => f t | Err e => Err e end) (mr_revision x).
End maps.

Section PatchDb.
Context `{SJ : SerdeJson}.
Context `{MC : !Mpsc Revision} `{BC : !Bcast (result Bytes JsonError)} `{CB : !Cbor}.
Implicit Types (m : Machine) (ptr : list str).

(** ** [PatchDb] *)

(** No file is used; the disk is whatever it is. *)
Definition PatchDb_in_memory (d : Disk) : Machine :=
  mkMachine d [] (mkChannels [] []) (mkStore None Null 0 Broadcast_new) false.

Definition PatchDb_open : IO unit := Store_open.

Definition PatchDb_dump m ptr : Dump := Store_dump (store m) ptr.
Definition PatchDb_sequence m : N := Store_sequence (store m).

Definition PatchDb_dump_and_sub m ptr : Machine * (Dump * nat) :=
  let d := Store_dump (store m) ptr in
  let '(m', rx) := Store_subscribe m ptr in (m', (d, rx)).

Definition PatchDb_dump_and_sub_json m ptr (capacity : N)
    : outcome (Machine * result (Bytes * JsonSubscriber) Error) :=
  let s := store m in
  let* (w, b, r) := Broadcast_subscribe_json (chans m) (broadcast s) ptr (Store_dump s ptr) capacity in
  Done (mkMachine (disk m) (evs m) w (mkStore (storage s) (persistent s) (revision s) b) (committed m), r).

Definition PatchDb_watch m ptr : Machine * DbWatch :=
  let '(m', (d, sub)) := PatchDb_dump_and_sub m ptr in (m', DbWatch_new d sub).

Definition PatchDb_subscribe m ptr : Machine * nat := Store_subscribe m ptr.
Definition PatchDb_exists m ptr : bool := Store_exists (store m) ptr.
Definition PatchDb_keys m ptr : list str := Store_keys (store m) ptr.
Definition PatchDb_get_value m ptr : Value := Store_get_value (store m) ptr.

(** [put], of a value already turned into a [Value]. *)
Definition PatchDb_put (same : list str -> list str -> bool) ptr (value : Value) : IO (option Revision) :=
  Store_put_value same ptr value.

Definition PatchDb_apply (p : Patch) : IO (option Revision) := Store_apply p.

(** [apply_function]: [f] runs on a copy of the document under the write lock, a
    panic in it is caught; [same] tells which parts of the old and new document
    are one allocation. *)
Definition PatchDb_apply_function {T E} (from : Error -> E) (same : list str -> list str -> bool)
    (f : Value -> outcome (result (Value * T) E)) : IO (MutateResult (Value * T) E) := fun m =>
  match f (persistent (store m)) with
  | Panic => (m, IoOk (MutateResult_from (Err (from ErrPanic))))
  | Done (Err e) => (m, IoOk (MutateResult_from (Err e)))
  | Done (Ok (new, res)) =>
      match Store_apply (DiffPatch_diff same (persistent (store m)) new) m with
      | (m', IoOk rev) => (m', IoOk (MutateResult_from (Ok (new, res, rev))))
      | (m', IoErr e) => (m', IoOk (MutateResult_from (Err (from e))))
      | (m', IoPanic) => (m', IoPanic)
      | (m', IoCrash) => (m', IoCrash)
      end
  end.

(** ** The system *)

Record Sys : Type := mkSys { machine : Machine; watches : list (list str * DbWatch) }.

Definition set_chans m (w : Channels) : Machine := mkMachine (disk m) (evs m) w (store m) (committed m).

(** Dropping a watch drops its receiver. *)
Definition drop_receiver (w : Channels) (rx : nat) : Channels :=
  match mpscs w !! rx with Some c => set_mpsc w rx (mpsc_drop_receiver c) | None => w end.

(** One operation of a user.  Revisions come from [apply] (which [put] and
    [apply_function] call), with patches as the database makes them ([db_patch]) after which every
    watched path still goes through objects ([path_stays]).  A call that fails is a step when its patch can be undone
    and the revision is what it was.  Left out is the [apply] that fails after its
    revision was committed by the backup, which is sent to nobody ([committed_failure_not_sent]): after
    it a watch is behind the document. *)
Inductive step : Sys -> Sys -> Prop :=
| step_apply m ws p m' r : Store_apply p m = (m', IoOk r) -> db_patch p = true ->
    Forall (fun x => path_stays x.1 p (persistent (store m)) = true) ws ->
    step (mkSys m ws) (mkSys m' ws)
| step_apply_err m ws p m' e : Store_apply p m = (m', IoErr e) -> db_patch p = true ->
    patch_reversible p (persistent (store m)) = true ->
    revision (store m') = revision (store m) -> step (mkSys m ws) (mkSys m' ws)
| step_watch m ws ptr m' d : PatchDb_watch m ptr = (m', d) -> step (mkSys m ws) (mkSys m' (ws ++ [(ptr, d)]))
| step_sub_json m ws ptr cap m' r : PatchDb_dump_and_sub_json m ptr cap = Done (m', r) ->
    step (mkSys m ws) (mkSys m' ws)
| step_sync m a ptr d b w' d' r : DbWatch_sync (chans m) d = Done (w', d', r) ->
    step (mkSys m (a ++ (ptr, d) :: b)) (mkSys (set_chans m w') (a ++ (ptr, d') :: b))
| step_mark m a ptr d b w' d' r : DbWatch_peek_and_mark_seen (chans m) d = Done (w', d', r) ->
    step (mkSys m (a ++ (ptr, d) :: b)) (mkSys (set_chans m w') (a ++ (ptr, d') :: b))
| step_poll m a ptr d b w' d' r : DbWatch_poll_changed (chans m) d = Done (w', d', r) ->
    step (mkSys m (a ++ (ptr, d) :: b)) (mkSys (set_chans m w') (a ++ (ptr, d') :: b))
| step_drop m a ptr d b :
    step (mkSys m (a ++ (ptr, d) :: b)) (mkSys (set_chans m (drop_receiver (chans m) (subscriber d))) (a ++ b)).

Definition reachable : Sys -> Sys -> Prop := rtc step.

(** No subscriptions yet. *)
Definition initial (s : Sys) : Prop :=
  watches s = [] /\ broadcast (store (machine s)) = Broadcast_new /\ mpscs (chans (machine s)) = []
  /\ value_wf (persistent (store (machine s))) = true.
End PatchDb.

(** ** Lemmas: what [apply] does to the subscribers *)

Section effect.
Context `{SJ : SerdeJson}.
Context `{MC : !Mpsc Revision} `{BC : !Bcast (result Bytes JsonError)} `{CB : !Cbor}.
Implicit Types (m : Machine) (ptr : list str) (p : Patch).

Definition mem_of m : Channels * Value * N * Broadcast :=
  (chans m, persistent (store m), revision (store m), broadcast (store m)).

Ltac keep := repeat first [apply keeps_bind; [|intros ?] | by apply keeps_op | by intros ?].

Lemma compress_keeps : keeps mem_of Store_compress.
Proof.
  intros m. unfold Store_compress. destruct (storage (store m)); [|done]. cbv zeta.
  match goal with |- mem_of (?c m).1 = _ => assert (keeps mem_of c) as Hk end; [|apply Hk].
  apply keeps_bind; [unfold write_backup; keep|intros _]. apply keeps_bind; [unfold rewrite_file; keep|intros _].
  assert (keeps mem_of remove_bak) as Hr by keep. intros m1. unfold io_ignore. specialize (Hr m1).
  by destruct (remove_bak m1) as [m2 []].
Qed.

Lemma append_keeps_mem bs : keeps mem_of (append_patch bs).
Proof.
  apply keeps_bind; [|intros _; keep]. apply keeps_bind; [keep|]. intros q m. cbv zeta.
  destruct (q =? cursor_of m); [done|].
  assert (forall c, keeps mem_of (file_set_len c ;! file_seek c)) as Hk by (intros c; keep). apply Hk.
Qed.

Lemma persist_keeps p : keeps mem_of (persist p).
Proof.
  intros m. unfold persist. destruct (storage (store m)); [|done].
  destruct (_ =? _)%N; [apply compress_keeps|apply append_keeps_mem].
Qed.

Lemma usize_succ_inv r r' : usize_succ r = Done r' -> r' = (r + 1)%N.
Proof. unfold usize_succ. destruct (_ <? _)%N; [|done]. by intros [= <-]. Qed.

Lemma apply_ok_effect m p m' r : Store_apply p m = (m', IoOk r) ->
  (r = None /\ m' = m) \/
  (patch_unsafe (persistent (store m)) p = (persistent (store m'), Ok tt)
   /\ Broadcast_send (chans m) (broadcast (store m)) (mkRevision (revision (store m')) p)
      = Done (chans m', broadcast (store m'))).
Proof.
  unfold Store_apply. destruct (Patch_is_empty p); [intros [= <- <-]; by left|].
  destruct (patch _ p) as [[doc [undo|e]]|] eqn:E; [|done..].
  destruct (usize_succ _) as [n|]; [|done]. set (m1 := set_committed _ false).
  pose proof (persist_keeps p m1) as Hk. destruct (persist p m1) as [m2 [[]|e| |]]; try done.
  2:{ unfold roll_back. destruct (committed m2); [done|]. by destruct (Undo_apply _ _). }
  unfold send_revision. cbn in Hk. injection Hk as Hc Hd Hr Hb. rewrite Hc, Hb.
  destruct (Broadcast_send _ _ _) as [[w b]|] eqn:Es; [|done]. intros [= <- <-]. right. cbn.
  rewrite Hd. split; [|done]. apply patch_ok_iff. eauto.
Qed.

Lemma apply_err_effect m p m' e : value_wf (persistent (store m)) = true -> db_patch p = true ->
  patch_reversible p (persistent (store m)) = true ->
  Store_apply p m = (m', IoErr e) -> revision (store m') = revision (store m) ->
  chans m' = chans m /\ broadcast (store m') = broadcast (store m)
  /\ veq (persistent (store m')) (persistent (store m)) /\ value_wf (persistent (store m')) = true.
Proof.
  intros Hw Hdb Hrev. unfold Store_apply. destruct (Patch_is_empty p); [done|].
  pose proof (proj1 (db_patch_spec p) Hdb) as [Hpw _].
  destruct (patch_undo_spec p _ Hw Hpw Hrev) as (doc & res & -> & Hwd & Hres).
  destruct res as [undo|e']; [|by intros [= <- _]].
  destruct (usize_succ _) as [n|] eqn:En; [|done]. apply usize_succ_inv in En as ->.
  set (m1 := set_committed _ false).
  pose proof (persist_keeps p m1) as Hk. destruct (persist p m1) as [m2 [[]|e2| |]]; try done;
    cbn in Hk; injection Hk as Hc Hd Hr Hb.
  - unfold send_revision. by destruct (Broadcast_send _ _ _) as [[]|].
  - destruct (committed m2); [intros [= <- _]; lia|]. unfold roll_back. rewrite Hd.
    destruct Hres as (d & -> & Hwdd & Hvd). intros [= <- _] _. cbn. done.
Qed.
End effect.

(** ** Lemmas: the invariant of the system *)

Section invariant.
Context `{SJ : SerdeJson}.
Context `{MC : !Mpsc Revision} `{BC : !Bcast (result Bytes JsonError)} `{CB : !Cbor}.
Implicit Types (m : Machine) (ptr : list str) (p : Patch) (ws : list (list str * DbWatch)) (w : Channels).

Abbreviation doc_of m := (persistent (store m)).

Record sys_inv (s : Sys) : Prop := {
  si_wf : value_wf (doc_of (machine s)) = true;
  si_wired : wired (chans (machine s)) (broadcast (store (machine s)));
  si_nodup : NoDup ((fun x => subscriber x.2) <$> watches s);
  si_lt : Forall (fun x => subscriber x.2 < length (mpscs (chans (machine s)))) (watches s);
  si_track : Forall (fun x => tracking (chans (machine s)) (broadcast (store (machine s))) x.1 x.2
                                (doc_of (machine s))) (watches s);
  si_dumps : dumps_current (broadcast (store (machine s))) (revision (store (machine s))) (doc_of (machine s));
}.

Lemma initial_inv s : initial s -> sys_inv s.
Proof.
  intros (Ew & Eb & Em & Hw). split; rewrite ?Ew, ?Eb; try constructor; try done; by rewrite ?Em; constructor.
Qed.

(** A watch whose channel another one does not share. *)
Lemma other_watch a ptr d b x : NoDup ((fun x => subscriber x.2) <$> (a ++ (ptr, d) :: b)) -> x ∈ a ++ b ->
  subscriber x.2 ≠ subscriber (d : DbWatch).
Proof.
  rewrite fmap_app, fmap_cons. intros Hn Hx E. rewrite <- Permutation_middle in Hn. apply NoDup_cons in Hn as [Hni _].
  apply Hni. cbn [snd]. rewrite <- E, <- fmap_app.
  by apply (list_elem_of_fmap_2 (fun x : list str * DbWatch => subscriber x.2)).
Qed.

(** A watch's own operation. *)
Lemma inv_own m a ptr d b w' d' : sys_inv (mkSys m (a ++ (ptr, d) :: b)) ->
  tracking w' (broadcast (store m)) ptr d' (doc_of m) -> subscriber d' = subscriber d ->
  (forall t, t ≠ subscriber d -> mpscs w' !! t = mpscs (chans m) !! t) ->
  length (mpscs w') = length (mpscs (chans m)) ->
  sys_inv (mkSys (set_chans m w') (a ++ (ptr, d') :: b)).
Proof.
  intros [Hw [Hn Hl] Hnd Hlt Htr Hd] Ht Hs Hoth Hlen. cbn in *. split; cbn; try done.
  - split; [done|]. by rewrite Hlen.
  - rewrite fmap_app, fmap_cons in Hnd |- *. cbn [snd] in *. by rewrite Hs.
  - rewrite Hlen. rewrite <- Permutation_middle in Hlt |- *. inversion Hlt; subst. constructor; [|done].
    cbn [snd]. by rewrite Hs.
  - rewrite <- Permutation_middle in Htr |- *. inversion Htr as [|? ? _ Hrest]; subst. constructor; [done|].
    rewrite list.Forall_forall in Hrest |- *. intros x Hx. specialize (Hrest x Hx).
    eapply tracking_frame; [exact Hrest|apply Hrest|]. apply Hoth. by eapply other_watch.
Qed.

Lemma watch_at m ws a ptr d b : sys_inv (mkSys m ws) -> ws = a ++ (ptr, d) :: b ->
  tracking (chans m) (broadcast (store m)) ptr d (doc_of m).
Proof.
  intros Hi ->. pose proof (si_track _ Hi) as Ht. cbn in Ht. rewrite list.Forall_forall in Ht.
  apply (Ht (ptr, d)). apply elem_of_app. right. by left.
Qed.

Lemma inv_apply m ws p m' r : sys_inv (mkSys m ws) -> Store_apply p m = (m', IoOk r) -> db_patch p = true ->
  Forall (fun x => path_stays x.1 p (doc_of m) = true) ws -> sys_inv (mkSys m' ws).
Proof.
  intros [Hw Hwi Hnd Hlt Htr Hd] E Hdb Hp. apply apply_ok_effect in E as [[_ ->]|[E Es]]; [done|]. cbn in *.
  pose proof (proj1 (db_patch_spec p) Hdb) as [_ Hdiff].
  destruct (send_spec (chans m) (broadcast (store m)) (mkRevision (revision (store m')) p) Hwi Hdiff)
    as (w1 & b1 & E1 & Hwi' & _ & _ & Hlen & Hnone & _). rewrite Es in E1. injection E1 as <- <-.
  split; cbn; try done.
  - pose proof (db_patch_wf _ _ Hw Hdb) as H. by rewrite E in H.
  - by rewrite Hlen.
  - rewrite list.Forall_forall in Htr, Hp |- *. intros x Hx.
    exact (tracking_send _ _ (mkRevision (revision (store m')) p) _ _ _ _ _ _ Hwi (Htr x Hx) Hw Hdb (Hp x Hx) E Es).
  - by apply no_dumps_current.
Qed.

Lemma inv_apply_err m ws p m' e : sys_inv (mkSys m ws) -> Store_apply p m = (m', IoErr e) -> db_patch p = true ->
  patch_reversible p (doc_of m) = true -> revision (store m') = revision (store m) -> sys_inv (mkSys m' ws).
Proof.
  intros [Hw Hwi Hnd Hlt Htr Hd] E Hdb Hrev Er.
  destruct (apply_err_effect m p m' e Hw Hdb Hrev E Er) as (Ec & Eb & Hv & Hw'). cbn in *.
  assert (veq (doc_of m) (doc_of m')) as Hv' by by symmetry.
  split; cbn; rewrite ?Ec, ?Eb, ?Er; try done.
  - eapply Forall_impl; [exact Htr|]. intros x. by apply tracking_veq.
  - by eapply dumps_current_veq.
Qed.

Lemma inv_watch m ws ptr m' d : sys_inv (mkSys m ws) -> PatchDb_watch m ptr = (m', d) ->
  sys_inv (mkSys m' (ws ++ [(ptr, d)])).
Proof.
  intros [Hw Hwi Hnd Hlt Htr Hd]. unfold PatchDb_watch, PatchDb_dump_and_sub, Store_subscribe.
  cbn in Hw, Hwi, Hnd, Hlt, Htr, Hd. cbv zeta.
  destruct (Broadcast_subscribe (chans m) (broadcast (store m)) ptr) as [[w' b'] tx] eqn:Es. intros [= <- <-].
  pose proof (subscribe_dumps _ _ _ _ _ _ _ _ Hd Es) as Hd'.
  destruct (subscribe_spec _ _ _ _ _ _ Hwi Es) as (Hwi' & -> & Hlen & Hl & Ho & Hq & Hoth & Hlis).
  split; cbn [machine watches store chans broadcast persistent revision]; try done.
  - rewrite fmap_app, NoDup_app. split; [done|]. split; [|apply NoDup_singleton].
    intros t (x & -> & Hx)%list_elem_of_fmap Ht. apply list_elem_of_singleton in Ht. cbn in Ht.
    rewrite list.Forall_forall in Hlt. apply Hlt in Hx. lia.
  - apply Forall_app. split; [|constructor; [cbn; lia|done]]. eapply Forall_impl; [exact Hlt|]. cbn. lia.
  - apply Forall_app. split.
    + rewrite list.Forall_forall in Htr, Hlt |- *. intros x Hx. pose proof (Htr x Hx) as Hx'.
      eapply tracking_frame; [done|apply Hlis; apply Hx'|]. by apply Hoth, Hlt.
    + constructor; [|done]. split; cbn; rewrite ?Hq; try done.
      * by apply scoped_wf.
      * by exists (get_or_default ptr (doc_of m)).
Qed.

Lemma inv_sub_json m ws ptr cap m' r : sys_inv (mkSys m ws) ->
  PatchDb_dump_and_sub_json m ptr cap = Done (m', r) -> sys_inv (mkSys m' ws).
Proof.
  intros [Hw Hwi Hnd Hlt Htr Hd]. unfold PatchDb_dump_and_sub_json, Store_dump. cbn in *.
  destruct (Broadcast_subscribe_json _ _ _ _ _) as [[[w' b'] res]|] eqn:Es; [|done]. intros [= <- <-].
  destruct (subscribe_json_spec _ _ _ _ _ _ _ _ _ Hwi Hd Es) as (Hwi' & Hd' & Em & Hlis & _).
  split; cbn; rewrite ?Em; try done.
  eapply Forall_impl; [exact Htr|]. intros x Hx. eapply tracking_frame; [exact Hx|apply Hlis, Hx|by rewrite Em].
Qed.

(** A dropped receiver closes its channel; nobody else uses it. *)
Lemma inv_drop m a ptr d b : sys_inv (mkSys m (a ++ (ptr, d) :: b)) ->
  sys_inv (mkSys (set_chans m (drop_receiver (chans m) (subscriber d))) (a ++ b)).
Proof.
  intros [Hw [Hn Hl] Hnd Hlt Htr Hd]. cbn in *. unfold drop_receiver.
  assert (forall w', (forall t, t ≠ subscriber d -> mpscs w' !! t = mpscs (chans m) !! t) ->
    length (mpscs w') = length (mpscs (chans m)) -> sys_inv (mkSys (set_chans m w') (a ++ b))) as Hgo.
  { intros w' Hoth Hlen. split; cbn; try done.
    - split; [done|]. by rewrite Hlen.
    - rewrite fmap_app, fmap_cons in Hnd. rewrite fmap_app. rewrite <- Permutation_middle in Hnd. by apply NoDup_cons in Hnd as [_ ?].
    - rewrite Hlen. rewrite <- Permutation_middle in Hlt. by inversion Hlt.
    - pose proof Htr as Htr'. rewrite <- Permutation_middle in Htr'. inversion Htr' as [|? ? _ Hrest]; subst.
      rewrite list.Forall_forall in Hrest |- *. intros x Hx. pose proof (Hrest x Hx) as Hx'.
      eapply tracking_frame; [exact Hx'|apply Hx'|]. apply Hoth. by eapply other_watch. }
  destruct (mpscs (chans m) !! subscriber d) as [c|]; apply Hgo; try done; cbn.
  - intros t Ht. by apply list_lookup_insert_ne.
  - apply length_insert.
Qed.

Lemma inv_step s s' : step s s' -> sys_inv s -> sys_inv s'.
Proof.
  destruct 1 as [m ws p m' r E Hdb Hp|m ws p m' e E Hdb Hrev Er|m ws ptr m' d E|m ws ptr cap m' r E
    |m a ptr d b w' d' r E|m a ptr d b w' d' r E|m a ptr d b w' d' r E|m a ptr d b]; intros Hi.
  - by eapply inv_apply.
  - by eapply inv_apply_err.
  - by eapply inv_watch.
  - by eapply inv_sub_json.
  - pose proof (watch_at _ _ _ _ _ _ Hi eq_refl) as Ht.
    destruct (tracking_drain true _ _ _ _ _ Ht) as (w1 & d1 & E1 & _ & Ht1 & Hs & Hoth & Hlen & _).
    unfold DbWatch_sync in E. rewrite E1 in E. injection E as <- <- _. by apply (inv_own m a ptr d b).
  - pose proof (watch_at _ _ _ _ _ _ Hi eq_refl) as Ht.
    destruct (tracking_drain true _ _ _ _ _ Ht) as (w1 & d1 & E1 & _ & Ht1 & Hs & Hoth & Hlen & _).
    unfold DbWatch_peek_and_mark_seen, DbWatch_sync in E. rewrite E1 in E. injection E as <- <- _.
    apply (inv_own m a ptr d b); [done| |done..]. by destruct Ht1.
  - pose proof (watch_at _ _ _ _ _ _ Hi eq_refl) as Ht.
    destruct (decide (seen d = true /\ queue_of (chans m) (subscriber d) = [])) as [[Hs Hq]|Hno].
    + destruct (tracking_poll_empty _ _ _ _ _ Ht Hs Hq) as (w1 & q & E1 & Ht1 & Hoth & Hlen).
      rewrite E1 in E. injection E as <- <- _. by apply (inv_own m a ptr d b).
    + destruct (tracking_poll_changed _ _ _ _ _ Ht) as (w1 & d1 & E1 & _ & _ & Ht1 & Hs & Hoth & Hlen); [tauto|].
      rewrite E1 in E. injection E as <- <- _. by apply (inv_own m a ptr d b).
  - by apply (inv_drop m a ptr d b).
Qed.

Lemma inv_reachable s s' : initial s -> reachable s s' -> sys_inv s'.
Proof.
  intros Hi%initial_inv Hr. induction Hr as [|s1 s2 s3 Hs _ IH]; [done|]. apply IH. by eapply inv_step.
Qed.
End invariant.

(** ** Lemmas: runs without I/O failures *)

Section lucky_runs.
Context `{SJ : SerdeJson}.
Context `{MC : !Mpsc Revision} `{BC : !Bcast (result Bytes JsonError)} `{CB : !Cbor}.
Implicit Types (m : Machine) (p : Patch).

Lemma persist_lucky p : lucky (persist p).
Proof.
  intros m He. unfold persist. destruct (storage (store m)); [|by exists m, tt].
  destruct (_ =? _)%N; [by apply compress_lucky|].
  assert (lucky (append_patch (enc_patch p))) as Hl; [|by apply Hl].
  apply lucky_bind; [|intros ?; lucky]. apply lucky_bind; [lucky|]. intros q m1 He1. cbv zeta.
  destruct (q =? cursor_of m1); [by exists m1, tt|].
  assert (lucky (file_set_len (cursor_of m1) ;! file_seek (cursor_of m1))) as Hl by lucky. by apply Hl.
Qed.

Lemma runs_db_patch p d d' : runs p d d' -> db_patch p = true.
Proof.
  intros Hr. apply db_patch_spec. split; [exact (runs_patch_wf _ _ _ Hr)|]. induction Hr; by simpl.
Qed.

(** Without I/O failures a patch that applies is applied. *)
Lemma apply_lucky m p d : evs m = [] -> wired (chans m) (broadcast (store m)) -> p ≠ [] ->
  runs p (persistent (store m)) d -> (revision (store m) + 1 < usize_mod)%N ->
  exists m', Store_apply p m = (m', IoOk (Some (mkRevision (revision (store m) + 1) p)))
    /\ persistent (store m') = d /\ revision (store m') = (revision (store m) + 1)%N.
Proof.
  intros He Hwi Hne Hr Hlt. unfold Store_apply. destruct p as [|op p0]; [done|]. cbn [Patch_is_empty].
  set (p := op :: p0) in *. pose proof (runs_db_patch _ _ _ Hr) as Hdb. apply runs_unsafe in Hr as Hu.
  apply patch_ok_iff in Hu as [undo ->]. rewrite usize_succ_ok by done.
  set (m1 := set_committed _ false). destruct (persist_lucky p m1 He) as (m2 & [] & E & _).
  pose proof (persist_keeps p m1) as Hk. rewrite E in Hk |- *. cbn in Hk. injection Hk as Hc Hd Hrv Hb.
  pose proof (proj1 (db_patch_spec _) Hdb) as [_ Hdiff].
  unfold send_revision. rewrite Hc, Hb, Hrv, Hd.
  destruct (send_spec (chans m) (broadcast (store m)) (mkRevision (revision (store m) + 1) p) Hwi Hdiff)
    as (w & b & -> & _). eexists. split; [done|]. by cbn.
Qed.
End lucky_runs.

(** ** Properties *)

Section properties.
Context `{SJ : SerdeJson}.
Context `{MC : !Mpsc Revision} `{BC : !Bcast (result Bytes JsonError)} `{CB : !Cbor}.

(** C2: in every interleaving of the users' operations in [step] - patches of the database that keep
    every watched path going through objects, calls that fail and leave the revision as it was, new watches and subscriptions,
    watches that are read, polled and dropped; not an [apply] that fails although its revision was committed - each watch reads the value that is at its path now; one that has
    been marked seen and differs from it is woken by [poll_changed], which brings
    it up to date; and a JSON subscription starts from an encoding of the present
    revision and value. *)
Theorem watchers_converge s0 s : initial s0 -> reachable s0 s ->
  (forall ptr d, (ptr, d) ∈ watches s ->
     (exists w' d' v, DbWatch_peek (chans (machine s)) d = Done (w', d', Ok v)
        /\ veq v (PatchDb_get_value (machine s) ptr))
     /\ (seen d = true -> ~ veq (state d) (PatchDb_get_value (machine s) ptr) ->
         exists w' d', DbWatch_poll_changed (chans (machine s)) d = Done (w', d', Ready (Ok tt))
           /\ veq (state d') (PatchDb_get_value (machine s) ptr)))
  /\ (forall ptr capacity m' j sub,
     PatchDb_dump_and_sub_json (machine s) ptr capacity = Done (m', Ok (j, sub)) ->
     exists v, veq v (PatchDb_get_value (machine s) ptr)
       /\ to_vec_dump (mkDump (PatchDb_sequence (machine s)) v) = Ok j).
Proof.
  intros Hi Hr. pose proof (inv_reachable _ _ Hi Hr) as [_ Hwi _ _ Htr Hd]. split.
  - intros ptr d Hin. rewrite list.Forall_forall in Htr. specialize (Htr _ Hin). cbn [fst snd] in Htr. split.
    + destruct (tracking_drain true _ _ _ _ _ Htr) as (w' & d' & E & Hv & _).
      exists w', d', (state d'). unfold DbWatch_peek, DbWatch_sync. by rewrite E.
    + intros Hseen Hne.
      destruct (tracking_poll_changed _ _ _ _ _ Htr) as (w' & d' & E & _ & Hv & _); [|by eauto].
      intros _ Hq. destruct (tr_replays _ _ _ _ _ Htr) as (v & Hrep & Hv). rewrite Hq in Hrep. simpl in Hrep.
      subst v. by apply Hne.
  - intros ptr capacity m' j sub. unfold PatchDb_dump_and_sub_json.
    destruct (Broadcast_subscribe_json _ _ _ _ _) as [[[w b] r]|] eqn:E; [|done]. intros [= _ ->].
    destruct (subscribe_json_spec _ _ _ _ _ _ _ _ _ Hwi Hd E) as (_ & _ & _ & _ & v & ? & ?). by exists v.
Qed.

(** C27: without I/O failures [apply_function] installs a document equal
    to the one the function returns, as one revision, or as none when it equals
    the old document; when the function fails or panics nothing changes. *)
Theorem apply_function_commits {T E} (from : Error -> E) same
    (f : Value -> outcome (result (Value * T) E)) (m : Machine) :
  evs m = [] -> wired (chans m) (broadcast (store m)) -> (revision (store m) + 1 < usize_mod)%N ->
  let old := persistent (store m) in
  value_wf old = true -> value_fits old = true ->
  (forall new res, f old = Done (Ok (new, res)) ->
     value_wf new = true /\ value_fits new = true /\ sound same old new) ->
  match f old with
  | Done (Ok (new, res)) => exists m' rev,
      PatchDb_apply_function from same f m = (m', IoOk (mkMutate (Ok (new, res)) rev))
      /\ Value_eqb (persistent (store m')) new = true
      /\ (Value_eqb old new = true -> rev = None /\ m' = m)
      /\ (Value_eqb old new = false ->
          rev = Some (mkRevision (revision (store m) + 1) (DiffPatch_diff same old new))
          /\ revision (store m') = (revision (store m) + 1)%N)
  | Done (Err e) => PatchDb_apply_function from same f m = (m, IoOk (mkMutate (Err e) None))
  | Panic => PatchDb_apply_function from same f m = (m, IoOk (mkMutate (Err (from ErrPanic)) None))
  end.
Proof.
  intros He Hwi Hlt old Hw Hfits Hf. unfold PatchDb_apply_function. fold old.
  destruct (f old) as [[[new res]|e]|] eqn:Ef; [|done..].
  destruct (Hf new res eq_refl) as (Hwn & Hfn & Hs).
  destruct (diff_runs same old new Hw Hwn Hfits Hfn Hs) as [(d & Hr & Hv) Hemp].
  rewrite <- Value_eqb_spec in Hemp by done. unfold DiffPatch_diff.
  destruct (diff same old new) as [|op ops] eqn:Ed.
  - exists m, None. split; [done|]. pose proof (proj1 Hemp eq_refl) as Heq. split; [done|].
    split; [done|]. by rewrite Heq.
  - destruct (apply_lucky m (op :: ops) d He Hwi) as (m' & -> & Hd & Hrv); [done|done|done|].
    eexists _, _. split; [done|]. rewrite Hd. split; [apply Value_eqb_spec; [|done|done]; exact (runs_wf _ _ _ Hr Hw)|].
    split; [|done]. intros Heq. apply Hemp in Heq. done.
Qed.
End properties.

(** ** Witnesses *)

Module PatchDbExamples.
#[local] Existing Instance ZNumber.
#[local] Existing Instance KeepJson.
#[local] Instance mpsc_inst : Mpsc Revision := ListMpsc Revision.
#[local] Instance bcast_inst : Bcast (result Bytes JsonError) := ListBcast _.
#[local] Existing Instance TreeCodec.TreeCbor.

Definition doc1 : Value := Object [($"a", Num 1%Z); ($"l", Array [])].

Definition put1 : Patch := [Replace [] doc1].
Definition set2 : Patch := [Replace [$"a"] (Num 2%Z)].
Definition set3 : Patch := [Remove [$"a"]; Add [$"a"] (Num 3%Z)].

(** The document is put, [/a] is watched, and changed twice. *)
Definition db0 : Machine := PatchDb_in_memory (mkDisk [] None [] [] (mkSynced 0 0 0)).
Definition db1 : Machine := (Store_apply put1 db0).1.
Definition db2 : Machine := (PatchDb_watch db1 [$"a"]).1.
Definition watch2 : DbWatch := (PatchDb_watch db1 [$"a"]).2.
Definition db3 : Machine := (Store_apply set2 db2).1.
Definition db4 : Machine := (Store_apply set3 db3).1.

Lemma from_snd {A B} (x : A * B) (b : B) : x.2 = b -> x = (x.1, b).
Proof. destruct x. by intros <-. Qed.

Lemma run_to_db4 : reachable (mkSys db0 []) (mkSys db4 [([$"a"], watch2)]).
Proof.
  eapply rtc_l.
  { apply (step_apply db0 [] put1 db1 (Some (mkRevision 1 put1))); [apply from_snd; by vm_compute|done|constructor]. }
  eapply rtc_l.
  { apply (step_watch db1 [] [$"a"] db2 watch2). apply surjective_pairing. }
  eapply rtc_l.
  { apply (step_apply db2 _ set2 db3 (Some (mkRevision 2 set2))); [apply from_snd; by vm_compute|done|].
    constructor; [by vm_compute|constructor]. }
  eapply rtc_l.
  { apply (step_apply db3 _ set3 db4 (Some (mkRevision 3 set3))); [apply from_snd; by vm_compute|done|].
    constructor; [by vm_compute|constructor]. }
  apply rtc_refl.
Qed.

Lemma watchers_converge_witness :
  exists w' d' v, DbWatch_peek (chans db4) watch2 = Done (w', d', Ok v)
    /\ veq v (PatchDb_get_value db4 [$"a"]) /\ PatchDb_get_value db4 [$"a"] = Num 3%Z /\ state watch2 = Num 1%Z.
Proof.
  destruct (watchers_converge (mkSys db0 []) (mkSys db4 [([$"a"], watch2)])) as [H _].
  - split; [done|]. by vm_compute.
  - apply run_to_db4.
  - destruct (H [$"a"] watch2) as [(w' & d' & v & E & Hv) _]; [by left|].
    exists w', d', v. split; [exact E|]. split; [exact Hv|]. by vm_compute.
Defined.

(** Counting up the value under [a]. *)
Definition count (v : Value) : outcome (result (Value * unit) Error) :=
  Done (Ok (Object [($"a", Num 2%Z); ($"l", Array [])], tt)).

Lemma apply_function_commits_witness :
  exists m' rev, PatchDb_apply_function id (fun _ _ => false) count db1
      = (m', IoOk (mkMutate (Ok (Object [($"a", Num 2%Z); ($"l", Array [])], tt)) rev))
    /\ revision (store m') = 2%N.
Proof.
  assert (wired (chans db1) (broadcast (store db1))) as Hwi.
  { assert (all_txs (broadcast (store db1)) = []) as E by by vm_compute. split; rewrite E; constructor. }
  destruct (apply_function_commits id (fun _ _ => false) count db1) as (m' & rev & E & _ & _ & Hne);
    [by vm_compute|exact Hwi|by vm_compute..| |].
  - intros new res [= <- <-]. split; [done|]. split; [done|]. by intros ? ?.
  - exists m', rev. split; [exact E|]. apply Hne. by vm_compute.
Defined.
End PatchDbExamples.
