(* ===== verification/ExVersion.v ===== *)
(** * Versions

    [shared-libs/crates/exver/src/exver.rs], lines 1-492: prerelease segments,
    [Version] and [ExtendedVersion] with their orders, equalities, printing and
    parsing.  A [usize] is an [N]; an [InternedString] is its text, by which it
    is compared.  [semantic_number] slices [number\[..1\]] of an all-zero
    number, which panics when the number is empty, so it and what calls it are
    [outcome]s. *)
From S2P Require Import Prelude RustStr.

Local Open Scope rust_scope.

Inductive ParseError : Type :=
| InvalidVersion (input reason : str)
| InvalidVersionRange (input : str).

Inductive PreReleaseSegment : Type :=
| Number (n : N)
| BigNumber (s : str)
| PString (s : str).

(** ** [PreReleaseSegment] *)

Definition cmp_numeric (l r : str) : comparison :=
  then_with (Nat.compare (str_len l) (str_len r)) (str_cmp l r).

Definition PreReleaseSegment_cmp (a b : PreReleaseSegment) : comparison :=
  match a, b with
  | Number l, Number r => N.compare l r
  | BigNumber l, BigNumber r => cmp_numeric l r
  | Number l, BigNumber r => cmp_numeric (show_N l) r
  | BigNumber l, Number r => cmp_numeric l (show_N r)
  | PString l, PString r => str_cmp l r
  | (Number _ | BigNumber _), PString _ => Lt
  | PString _, _ => Gt
  end.

Definition PreReleaseSegment_eqb (a b : PreReleaseSegment) : bool := is_eq (PreReleaseSegment_cmp a b).

(** What [hash] feeds the hasher. *)
Definition PreReleaseSegment_hash (a : PreReleaseSegment) : N * str :=
  match a with
  | Number n => (0%N, show_N n)
  | BigNumber s => (0%N, s)
  | PString s => (1%N, s)
  end.

Definition PreReleaseSegment_fmt (a : PreReleaseSegment) : str :=
  match a with Number n => show_N n | BigNumber s => s | PString s => s end.

(** ** [Version] *)

Record Version : Type := mkVersion { number : list N; prerelease : list PreReleaseSegment }.

Definition Version_new (number : list N) (prerelease : list PreReleaseSegment) : Version :=
  mkVersion number prerelease.

Definition Version_default : Version := mkVersion [0%N] [].

(** The length up to the last nonzero segment, if any. *)
Fixpoint last_nonzero (l : list N) : option nat :=
  match l with
  | [] => None
  | x :: r =>
      match last_nonzero r with
      | Some i => Some (S i)
      | None => if (x =? 0)%N then None else Some 0
      end
  end.

Definition semantic_number (v : Version) : outcome (list N) :=
  let sem_len := match last_nonzero (number v) with Some l => l + 1 | None => 1 end in
  if sem_len <=? length (number v) then Done (take sem_len (number v)) else Panic.

Definition without_prerelease (v : Version) : Version := mkVersion (number v) [].

Definition with_prerelease (v : Version) (p : list PreReleaseSegment) : Version :=
  mkVersion (number v) (prerelease v ++ p).

(** [prerelease == prerelease] compares segment by segment. *)
Fixpoint segments_eqb (a b : list PreReleaseSegment) : bool :=
  match a, b with
  | [], [] => true
  | x :: a', y :: b' => PreReleaseSegment_eqb x y && segments_eqb a' b'
  | _, _ => false
  end.

Definition Version_eqb (a b : Version) : outcome bool :=
  let* sa := semantic_number a in
  let* sb := semantic_number b in
  Done (bool_decide (sa = sb) && segments_eqb (prerelease a) (prerelease b)).

(** What [hash] feeds the hasher. *)
Definition Version_hash (v : Version) : outcome (list N * list (N * str)) :=
  let* s := semantic_number v in Done (s, map PreReleaseSegment_hash (prerelease v)).

(** [zip_longest(..).map(|e| e.or_default())] *)
Fixpoint zip_default (l r : list N) : list (N * N) :=
  match l, r with
  | x :: l', y :: r' => (x, y) :: zip_default l' r'
  | [], _ => map (fun y => (0%N, y)) r
  | _, [] => map (fun x => (x, 0%N)) l
  end.

(** The [for] loop of [cmp], which returns at the first difference. *)
Fixpoint cmp_pairs (ps : list (N * N)) : comparison :=
  match ps with
  | [] => Eq
  | (l, r) :: ps' => match N.compare l r with Eq => cmp_pairs ps' | o => o end
  end.

Definition number_cmp (l r : list N) : comparison := cmp_pairs (zip_default l r).

Definition is_empty {A} (l : list A) : bool := match l with [] => true | _ => false end.

Definition Version_cmp (a b : Version) : comparison :=
  then_with (number_cmp (number a) (number b))
    (then_with (bool_cmp (is_empty (prerelease a)) (is_empty (prerelease b)))
       (list_cmp PreReleaseSegment_cmp (prerelease a) (prerelease b))).

(** [Display]: [46] is a dot, [45] a dash. *)
Definition Version_fmt (v : Version) : str :=
  (match number v with [] => [48%N] | ns => str_join 46 (map show_N ns) end) ++
  (match prerelease v with
   | [] => []
   | ps => 45%N :: str_join 46 (map PreReleaseSegment_fmt ps)
   end).

(** [iter().collect::<Result<_, _>>()] *)
Fixpoint collect_results {A B E} (f : A -> result B E) (l : list A) : result (list B) E :=
  match l with
  | [] => Ok []
  | x :: r =>
      match f x with
      | Err e => Err e
      | Ok y => match collect_results f r with Ok ys => Ok (y :: ys) | Err e => Err e end
      end
  end.

Definition is_prerelease_char (c : N) : bool :=
  is_ascii_digit c || is_ascii_lowercase c || is_ascii_uppercase c || (c =? 45)%N.

Definition parse_prerelease_segment (err : str -> ParseError) (seg : str) : result PreReleaseSegment ParseError :=
  if is_empty seg then Err (err $"prerelease identifier may not be empty")
  else if forallb is_ascii_digit seg then
    if (1 <? str_len seg) && bool_decide (head seg = Some 48%N) then
      Err (err $"numeric prerelease identifier may not have leading zero")
    else Ok (match parse_usize seg with Some n => Number n | None => BigNumber seg end)
  else if forallb is_prerelease_char seg then Ok (PString seg)
  else Err (err $"invalid character in prerelease identifier").

Definition Version_from_str (s : str) : result Version ParseError :=
  let err := InvalidVersion s in
  let '(num, pre) := match str_split_once 45 s with Some (v, p) => (v, Some p) | None => (s, None) end in
  match collect_results
          (fun v => match parse_usize v with
                    | Some n => Ok n
                    | None => Err (err $"invalid numeric identifier")
                    end) (str_split 46 num) with
  | Err e => Err e
  | Ok ns =>
      match pre with
      | None => Ok (mkVersion ns [])
      | Some p =>
          match collect_results (parse_prerelease_segment err) (str_split 46 p) with
          | Ok ps => Ok (mkVersion ns ps)
          | Err e => Err e
          end
      end
  end.

(** ** [ExtendedVersion] *)

Record ExtendedVersion : Type := mkExt {
  flavor : option str;
  upstream : Version;
  downstream : Version;
}.

Definition ExtendedVersion_new (upstream downstream : Version) : ExtendedVersion :=
  mkExt None upstream downstream.

Definition ExtendedVersion_from (v : Version) : ExtendedVersion := mkExt None v Version_default.

(** [From<emver::Version>], given the four numbers. *)
Definition ExtendedVersion_from_emver (major minor patch revision : N) : ExtendedVersion :=
  mkExt None (Version_new [major; minor; patch] []) (Version_new [revision] []).

Definition with_flavor (v : ExtendedVersion) (f : str) : ExtendedVersion :=
  mkExt (if is_empty f then None else Some f) (upstream v) (downstream v).

Definition without_flavor (v : ExtendedVersion) : ExtendedVersion :=
  mkExt None (upstream v) (downstream v).

Definition map_upstream (v : ExtendedVersion) (f : Version -> Version) : ExtendedVersion :=
  mkExt (flavor v) (f (upstream v)) (downstream v).

Definition map_downstream (v : ExtendedVersion) (f : Version -> Version) : ExtendedVersion :=
  mkExt (flavor v) (upstream v) (f (downstream v)).

(** [#\[derive(PartialEq)\]]: the fields in order, stopping at the first difference. *)
Definition ExtendedVersion_eqb (a b : ExtendedVersion) : outcome bool :=
  if bool_decide (flavor a = flavor b) then
    let* u := Version_eqb (upstream a) (upstream b) in
    if u then Version_eqb (downstream a) (downstream b) else Done false
  else Done false.

Definition ExtendedVersion_partial_cmp (a b : ExtendedVersion) : option comparison :=
  if bool_decide (flavor a = flavor b) then
    Some (then_with (Version_cmp (upstream a) (upstream b)) (Version_cmp (downstream a) (downstream b)))
  else None.

(** [35] is [#], [58] a colon. *)
Definition ExtendedVersion_fmt (v : ExtendedVersion) : str :=
  (match flavor v with Some f => 35%N :: f ++ [58%N] | None => [] end)
  ++ Version_fmt (upstream v) ++ 58%N :: Version_fmt (downstream v).

(** [strip_prefix("#").and_then(|s| s.split_once(":"))] *)
Definition split_flavor (s : str) : option (str * str) :=
  strip_prefix_char 35 s ≫= str_split_once 58.

Definition bad_flavor (s : str) : ParseError :=
  InvalidVersion s $"invalid flavor (must be ascii lowercase)".

Definition ExtendedVersion_from_str (s : str) : result ExtendedVersion ParseError :=
  let '(flavor, s') := match split_flavor s with Some (f, r) => (Some f, r) | None => (None, s) end in
  if forallb is_ascii_lowercase (from_option id [] flavor) then
    match str_split_once 58 s' with
    | None => Err (InvalidVersion s $"missing downstream version")
    | Some (u, d) =>
        match Version_from_str u with
        | Err e => Err e
        | Ok u =>
            match Version_from_str d with
            | Err e => Err e
            | Ok d => Ok (mkExt flavor u d)
            end
        end
    end
  else Err (bad_flavor s).

(** [parse_spec]: an empty flavor is no flavor, a missing downstream is [0]. *)
Definition parse_spec (s : str) : result ExtendedVersion ParseError :=
  let '(flavor, s') :=
    match split_flavor s with
    | Some (f, r) => (if is_empty f then None else Some f, r)
    | None => (None, s)
    end in
  if forallb is_ascii_lowercase (from_option id [] flavor) then
    let '(u, d) := match str_split_once 58 s' with Some p => p | None => (s', $"0") end in
    match Version_from_str u with
    | Err e => Err e
    | Ok u =>
        match Version_from_str d with
        | Err e => Err e
        | Ok d => Ok (mkExt flavor u d)
        end
    end
  else Err (bad_flavor s).

(** ** Lemmas: decimal numbers in order *)

(** The decimal expansion as a relation. *)
Inductive decimal : N -> str -> Prop :=
| dec_digit n : (n < 10)%N -> decimal n [(48 + n)%N]
| dec_step n s : (10 <= n)%N -> decimal (n / 10) s -> decimal n (s ++ [(48 + n mod 10)%N]).

Lemma show_N_decimal n : decimal n (show_N n).
Proof. apply (show_N_ind decimal); by constructor. Qed.

Lemma digit_len d : (d < 10)%N -> len_utf8 (48 + d) = 1.
Proof. intros Hd. unfold len_utf8. by rewrite (proj2 (N.ltb_lt _ _)) by lia. Qed.

Lemma decimal_len n s : decimal n s -> str_len s = length s /\ 1 <= length s.
Proof.
  induction 1 as [n Hn|n s Hn _ [IH1 IH2]].
  - rewrite str_len_cons, digit_len by done. by split.
  - rewrite str_len_app, str_len_cons, digit_len by (by apply N.mod_lt).
    rewrite length_app, IH1. unfold str_len. simpl. lia.
Qed.

Lemma list_cmp_snoc (a b : str) x y : length a = length b ->
  list_cmp N.compare (a ++ [x]) (b ++ [y]) = then_with (list_cmp N.compare a b) (N.compare x y).
Proof.
  revert b. induction a as [|c a IH]; intros [|d b] Hl; simpl in *; try lia.
  - by destruct (N.compare x y).
  - rewrite IH by lia. by destruct (N.compare c d).
Qed.

Lemma compare_div10 n m : N.compare n m =
  then_with (N.compare (n / 10) (m / 10)) (N.compare (n mod 10) (m mod 10)).
Proof.
  pose proof (N.div_mod n 10 ltac:(lia)) as En. pose proof (N.div_mod m 10 ltac:(lia)) as Em.
  pose proof (N.mod_lt n 10 ltac:(lia)) as Ln. pose proof (N.mod_lt m 10 ltac:(lia)) as Lm.
  revert En Em Ln Lm. generalize (n / 10)%N as a, (n mod 10)%N as b, (m / 10)%N as c, (m mod 10)%N as d.
  intros a b c d -> -> Hb Hd. destruct (N.compare_spec a c) as [->|H|H]; simpl.
  - destruct (N.compare_spec b d) as [->|H|H]; [apply N.compare_refl|apply N.compare_lt_iff; lia|
      apply N.compare_gt_iff; lia].
  - apply N.compare_lt_iff. lia.
  - apply N.compare_gt_iff. lia.
Qed.

Lemma decimal_cmp n s m t : decimal n s -> decimal m t -> N.compare n m = cmp_numeric s t.
Proof.
  intros Hn. revert m t. induction Hn as [n Hn|n s Hn Hs IH]; intros m t Hm; unfold cmp_numeric.
  - destruct Hm as [m Hm|m t Hm Ht].
    + rewrite !str_len_cons, !digit_len by done. unfold str_cmp, str_len. simpl.
      destruct (N.compare_spec n m) as [->|H|H].
      * by rewrite N.compare_refl.
      * by rewrite (proj2 (N.compare_lt_iff _ _)) by lia.
      * by rewrite (proj2 (N.compare_gt_iff _ _)) by lia.
    + destruct (decimal_len _ _ Ht) as [L1 L2].
      rewrite str_len_app, !str_len_cons, !digit_len, L1 by (done || by apply N.mod_lt).
      rewrite (proj2 (Nat.compare_lt_iff _ _)) by (unfold str_len; simpl; lia).
      simpl. apply N.compare_lt_iff. lia.
  - destruct (decimal_len _ _ Hs) as [L1 L2]. destruct Hm as [m Hm|m t Hm Ht].
    + rewrite str_len_app, !str_len_cons, !digit_len, L1 by (done || by apply N.mod_lt).
      rewrite (proj2 (Nat.compare_gt_iff _ _)) by (unfold str_len; simpl; lia).
      simpl. apply N.compare_gt_iff. lia.
    + destruct (decimal_len _ _ Ht) as [L3 L4]. rewrite compare_div10, (IH _ _ Ht). unfold cmp_numeric.
      rewrite !str_len_app, !str_len_cons, !digit_len, L1, L3 by (by apply N.mod_lt).
      replace (length s + (1 + str_len [])) with (S (length s)) by (unfold str_len; simpl; lia).
      replace (length t + (1 + str_len [])) with (S (length t)) by (unfold str_len; simpl; lia).
      rewrite Nat.compare_succ. destruct (Nat.compare_spec (length s) (length t)) as [He| |]; [|done..].
      simpl. unfold str_cmp. rewrite list_cmp_snoc by done. f_equal.
      generalize (n mod 10)%N as a, (m mod 10)%N as b. intros a b.
      destruct (N.compare_spec a b) as [->|H|H].
      * by rewrite N.compare_refl.
      * by rewrite (proj2 (N.compare_lt_iff _ _)) by lia.
      * by rewrite (proj2 (N.compare_gt_iff _ _)) by lia.
Qed.

(** Decimal texts compared by length and then as strings compare as numbers. *)
Lemma cmp_numeric_show n m : cmp_numeric (show_N n) (show_N m) = N.compare n m.
Proof. symmetry. apply decimal_cmp; apply show_N_decimal. Qed.

(** ** Lemmas: the order of prerelease segments *)

Definition segment_key (a : PreReleaseSegment) : bool * (nat * str) :=
  match a with
  | Number n => (false, (str_len (show_N n), show_N n))
  | BigNumber s => (false, (str_len s, s))
  | PString s => (true, (0, s))
  end.

Lemma PreReleaseSegment_cmp_key a b : PreReleaseSegment_cmp a b =
  pair_cmp bool_cmp (pair_cmp Nat.compare str_cmp) (segment_key a) (segment_key b).
Proof.
  destruct a as [n|s|s], b as [m|t|t]; simpl; try done.
  by rewrite <- cmp_numeric_show.
Qed.

#[export] Instance PreReleaseSegment_ord : OrdCmp PreReleaseSegment_cmp.
Proof. eapply key_cmp_ord; [|apply PreReleaseSegment_cmp_key]. apply _. Qed.

Lemma PreReleaseSegment_cmp_eq a b :
  PreReleaseSegment_cmp a b = Eq <-> PreReleaseSegment_hash a = PreReleaseSegment_hash b.
Proof.
  rewrite PreReleaseSegment_cmp_key. unfold pair_cmp. rewrite !then_with_eq, str_cmp_eq.
  destruct a, b; simpl; split; try (by intros [? _]); try done.
  all: try (intros (_ & _ & ->); done).
  all: intros [= ->]; split_and!; try done; by rewrite Nat.compare_refl.
Qed.

Lemma segments_eqb_cmp a b : segments_eqb a b = is_eq (list_cmp PreReleaseSegment_cmp a b).
Proof.
  revert b. induction a as [|x a IH]; intros [|y b]; simpl; try done. rewrite IH.
  unfold PreReleaseSegment_eqb. by destruct (PreReleaseSegment_cmp x y).
Qed.

(** ** Lemmas: the order of version numbers *)

(** [l] with zeros appended up to length [n]. *)
Definition pad (n : nat) (l : list N) : list N := l ++ replicate (n - length l) 0%N.

Lemma pad_length n l : length l <= n -> length (pad n l) = n.
Proof. intros Hl. unfold pad. rewrite length_app, length_replicate. lia. Qed.

Lemma cmp_zeros l n : length l = n ->
  cmp_pairs (map (fun x => (x, 0%N)) l) = list_cmp N.compare l (replicate n 0%N)
  /\ cmp_pairs (map (fun y => (0%N, y)) l) = list_cmp N.compare (replicate n 0%N) l.
Proof.
  intros <-. induction l as [|x l [IH1 IH2]]; [done|]. cbn [map cmp_pairs length replicate list_cmp].
  rewrite IH1, IH2. split; [by destruct (N.compare x 0)|by destruct (N.compare 0 x)].
Qed.

Lemma list_cmp_same {A} (cmp : A -> A -> comparison) `{!OrdCmp cmp} (l a b : list A) :
  list_cmp cmp (l ++ a) (l ++ b) = list_cmp cmp a b.
Proof. induction l as [|x l IH]; simpl; [done|]. by rewrite (cmp_refl cmp), IH. Qed.

Lemma number_cmp_pad_max l r :
  number_cmp l r = list_cmp N.compare (pad (max (length l) (length r)) l) (pad (max (length l) (length r)) r).
Proof.
  unfold number_cmp, pad. revert r. induction l as [|x l IH]; intros r.
  - cbn [length Nat.max]. rewrite Nat.sub_0_r, Nat.sub_diag, app_nil_r. simpl.
    by rewrite (proj2 (cmp_zeros r (length r) eq_refl)).
  - destruct r as [|y r].
    + cbn [length Nat.max]. rewrite Nat.sub_0_r, Nat.sub_diag, app_nil_r.
      change (zip_default (x :: l) []) with (map (fun x => (x, 0%N)) (x :: l)).
      by rewrite (proj1 (cmp_zeros (x :: l) (S (length l)) eq_refl)).
    + cbn [zip_default cmp_pairs length Nat.max Nat.sub app list_cmp]. rewrite IH.
      by destruct (N.compare x y).
Qed.

(** Zeros at the end do not matter. *)
Lemma list_cmp_zeros l r k : length l = length r ->
  list_cmp N.compare (l ++ replicate k 0%N) (r ++ replicate k 0%N) = list_cmp N.compare l r.
Proof.
  revert r. induction l as [|x l IH]; intros [|y r] Hl; simpl in *; try lia.
  - apply (cmp_refl (list_cmp N.compare)).
  - by rewrite IH by lia.
Qed.

Lemma pad_more n k l : length l <= n -> pad (n + k) l = pad n l ++ replicate k 0%N.
Proof.
  intros Hl. unfold pad. rewrite <- app_assoc, <- replicate_add. do 2 f_equal. lia.
Qed.

Lemma number_cmp_pad n l r : length l <= n -> length r <= n ->
  number_cmp l r = list_cmp N.compare (pad n l) (pad n r).
Proof.
  intros Hl Hr. rewrite number_cmp_pad_max. set (m := max (length l) (length r)).
  replace n with (m + (n - m)) by lia. rewrite !pad_more by lia.
  by rewrite list_cmp_zeros by (rewrite !pad_length; lia).
Qed.

#[export] Instance number_cmp_ord : OrdCmp number_cmp.
Proof.
  split.
  - intros x y. set (n := length x + length y).
    rewrite !(number_cmp_pad n) by lia. apply (cmp_opp (list_cmp N.compare)).
  - intros x y z. set (n := length x + length y + length z).
    rewrite !(number_cmp_pad n) by lia. apply (cmp_eq_l (list_cmp N.compare)).
  - intros x y z. set (n := length x + length y + length z).
    rewrite !(number_cmp_pad n) by lia. apply (cmp_lt_trans (list_cmp N.compare)).
Qed.

#[export] Instance Version_cmp_ord : OrdCmp Version_cmp.
Proof.
  apply (key_cmp_ord (pair_cmp number_cmp (pair_cmp bool_cmp (list_cmp PreReleaseSegment_cmp)))
    (fun v => (number v, (is_empty (prerelease v), prerelease v)))); [apply _|done].
Qed.

(** ** Lemmas: [semantic_number] *)

Lemma last_nonzero_spec l :
  match last_nonzero l with
  | Some i => i < length l /\ l = take (S i) l ++ replicate (length l - S i) 0%N
  | None => l = replicate (length l) 0%N
  end.
Proof.
  induction l as [|x l IH]; [done|]. cbn [last_nonzero length].
  destruct (last_nonzero l) as [i|].
  - destruct IH as [Hi IH]. split; [lia|]. cbn [take Nat.sub app]. by f_equal.
  - destruct (N.eqb_spec x 0) as [->|Hx]; [by simpl; f_equal|].
    split; [lia|]. cbn [take Nat.sub app]. rewrite ?take_0, Nat.sub_0_r. simpl. by f_equal.
Qed.

Lemma last_nonzero_zeros l k : last_nonzero (l ++ replicate k 0%N) = last_nonzero l.
Proof.
  induction l as [|x l IH]; simpl; [|by rewrite IH].
  induction k as [|k IH]; simpl; [done|]. by rewrite IH.
Qed.

Lemma last_nonzero_pad n l : last_nonzero (pad n l) = last_nonzero l.
Proof. apply last_nonzero_zeros. Qed.

Definition sem (l : list N) : list N :=
  take (match last_nonzero l with Some i => i + 1 | None => 1 end) l.

Lemma semantic_number_sem v : number v ≠ [] -> semantic_number v = Done (sem (number v)).
Proof.
  intros Hne. unfold semantic_number, sem. pose proof (last_nonzero_spec (number v)) as Hs.
  rewrite (proj2 (Nat.leb_le _ _)); [done|].
  destruct (last_nonzero (number v)); [lia|]. destruct (number v); [done|simpl; lia].
Qed.

Lemma sem_zeros l : exists k, l = sem l ++ replicate k 0%N.
Proof.
  unfold sem. pose proof (last_nonzero_spec l) as Hs. destruct (last_nonzero l) as [i|].
  - exists (length l - S i). rewrite Nat.add_1_r. apply Hs.
  - destruct l as [|x l]; [by exists 0|]. exists (length l). simpl in *. rewrite ?take_0.
    simpl. injection Hs as -> ->. by rewrite length_replicate.
Qed.

Lemma number_cmp_zeros l k r : number_cmp (l ++ replicate k 0%N) r = number_cmp l r.
Proof.
  set (n := length l + k + length r).
  rewrite !(number_cmp_pad n) by (rewrite ?length_app, ?length_replicate; lia). f_equal.
  unfold pad. rewrite length_app, length_replicate, <- app_assoc, <- replicate_add. f_equal. f_equal. lia.
Qed.

Lemma number_cmp_sem l r : number_cmp l r = number_cmp (sem l) (sem r).
Proof.
  destruct (sem_zeros l) as [k El], (sem_zeros r) as [j Er].
  rewrite El at 1. rewrite number_cmp_zeros.
  rewrite (cmp_opp number_cmp r (sem l)), (cmp_opp number_cmp (sem r) (sem l)). f_equal.
  rewrite Er at 1. apply number_cmp_zeros.
Qed.

Lemma take_pad n m l : m <= length l -> take m (pad n l) = take m l.
Proof. intros Hm. unfold pad. by rewrite take_app_le. Qed.

Lemma sem_eq l r : l ≠ [] -> r ≠ [] -> sem l = sem r <-> number_cmp l r = Eq.
Proof.
  intros Hl Hr. split.
  - intros E. rewrite number_cmp_sem, E. apply (cmp_refl number_cmp).
  - set (n := length l + length r). rewrite (number_cmp_pad n) by lia.
    rewrite (list_cmp_eq N.compare) by apply N.compare_eq_iff. intros E.
    assert (last_nonzero l = last_nonzero r) as Hn by (rewrite <- (last_nonzero_pad n l), E; apply last_nonzero_pad).
    unfold sem. rewrite <- Hn. pose proof (last_nonzero_spec l) as H1. pose proof (last_nonzero_spec r) as H2.
    rewrite <- Hn in H2. set (m := match last_nonzero l with Some i => i + 1 | None => 1 end).
    assert (m <= length l /\ m <= length r) as [Hm1 Hm2].
    { unfold m. destruct (last_nonzero l); [lia|]. destruct l, r; try done; simpl; lia. }
    rewrite <- (take_pad n m l), <- (take_pad n m r) by lia. by rewrite E.
Qed.

Lemma Version_eqb_cmp a b : number a ≠ [] -> number b ≠ [] ->
  Version_eqb a b = Done (is_eq (Version_cmp a b)).
Proof.
  intros Ha Hb. unfold Version_eqb. rewrite !semantic_number_sem by done. cbn [outcome_bind]. f_equal.
  unfold Version_cmp. rewrite segments_eqb_cmp. pose proof (sem_eq _ _ Ha Hb) as Hs.
  case_bool_decide as E.
  - rewrite (proj1 Hs E). simpl. destruct (prerelease a), (prerelease b); done.
  - destruct (number_cmp (number a) (number b)) eqn:En; [|done..]. exfalso. by apply E, Hs.
Qed.

(** ** Lemmas: printing and parsing *)

(** The segments and versions that parsing yields. *)
Definition segment_wf (a : PreReleaseSegment) : bool :=
  match a with
  | Number n => (n <? usize_mod)%N
  | BigNumber s =>
      negb (is_empty s) && forallb is_ascii_digit s
      && negb ((1 <? str_len s) && bool_decide (head s = Some 48%N))
      && bool_decide (parse_usize s = None)
  | PString s =>
      negb (is_empty s) && negb (forallb is_ascii_digit s) && forallb is_prerelease_char s
  end.

Definition version_wf (v : Version) : bool :=
  negb (is_empty (number v)) && forallb (fun n => (n <? usize_mod)%N) (number v)
  && forallb segment_wf (prerelease v).

Definition flavor_wf (f : option str) : bool := forallb is_ascii_lowercase (from_option id [] f).

Definition ext_wf (v : ExtendedVersion) : bool :=
  flavor_wf (flavor v) && version_wf (upstream v) && version_wf (downstream v).

Lemma digits_forallb n : forallb is_ascii_digit (show_N n) = true.
Proof.
  apply forallb_forall. pose proof (show_N_digits n) as HF. rewrite list.Forall_forall in HF.
  intros x Hx%list_elem_of_In. by apply HF.
Qed.

Lemma parse_fmt_segment err a : segment_wf a = true ->
  parse_prerelease_segment err (PreReleaseSegment_fmt a) = Ok a.
Proof.
  destruct a as [n|s|s]; simpl; unfold parse_prerelease_segment.
  - intros Hn%N.ltb_lt. rewrite digits_forallb, parse_usize_show by done.
    destruct (show_N_head n) as [[_ ->]|(c & s & -> & Hc)]; [done|]. simpl.
    rewrite bool_decide_false by congruence. by rewrite andb_false_r.
  - rewrite !andb_true_iff. intros [[[Hne Hd] Hz] Hp]. bool_to_prop.
    rewrite Hne, Hd, Hp. by destruct ((1 <? str_len s) && _).
  - rewrite !andb_true_iff. intros [[Hne Hd] Hc]. bool_to_prop. by rewrite Hne, Hd, Hc.
Qed.

Lemma segment_parsed_wf err s a : parse_prerelease_segment err s = Ok a -> segment_wf a = true.
Proof.
  unfold parse_prerelease_segment. destruct (is_empty s) eqn:Ee; [done|].
  destruct (forallb is_ascii_digit s) eqn:Ed.
  - destruct (_ && bool_decide _) eqn:Ez; [done|]. destruct (parse_usize s) as [n|] eqn:Ep.
    + intros [= <-]. simpl. apply N.ltb_lt. by eapply parse_usize_bound.
    + intros [= <-]. simpl. by rewrite Ee, Ed, Ez, Ep.
  - destruct (forallb is_prerelease_char s) eqn:Ec; [|done]. intros [= <-]. simpl. by rewrite Ee, Ed, Ec.
Qed.

Lemma collect_results_ok {A B E} (f : A -> result B E) (g : B -> A) (l : list B) :
  (forall x, x ∈ l -> f (g x) = Ok x) -> collect_results f (map g l) = Ok l.
Proof.
  induction l as [|x l IH]; intros Hf; [done|]. simpl. rewrite Hf by by left.
  rewrite IH; [done|]. intros y Hy. apply Hf. by right.
Qed.

Lemma collect_results_Forall {A B E} (f : A -> result B E) (P : B -> bool) l ys :
  (forall x y, f x = Ok y -> P y = true) -> collect_results f l = Ok ys ->
  forallb P ys = true /\ length ys = length l.
Proof.
  intros Hf. revert ys. induction l as [|x l IH]; intros ys; simpl; [by intros [= <-]|].
  destruct (f x) as [y|e] eqn:Ey; [|done]. destruct (collect_results f l) as [zs|e]; [|done].
  intros [= <-]. destruct (IH zs eq_refl) as [H1 H2]. simpl. by rewrite (Hf _ _ Ey), H1, H2.
Qed.

(** Which characters a printed version can hold. *)
Definition version_char (c : N) : bool := is_prerelease_char c || (c =? 46)%N.

Lemma segment_fmt_chars a c : segment_wf a = true -> c ∈ PreReleaseSegment_fmt a ->
  is_prerelease_char c = true.
Proof.
  assert (forall s, forallb is_ascii_digit s = true -> c ∈ s -> is_prerelease_char c = true) as Hdig.
  { intros s Hs Hc%list_elem_of_In. rewrite forallb_forall in Hs. apply Hs in Hc.
    unfold is_prerelease_char. by rewrite Hc. }
  destruct a as [n|s|s]; simpl.
  - intros _. apply Hdig, digits_forallb.
  - rewrite !andb_true_iff. intros [[[_ Hd] _] _]. by apply Hdig.
  - rewrite !andb_true_iff. intros [_ Hc]. rewrite forallb_forall in Hc.
    intros Hin%list_elem_of_In. by apply Hc.
Qed.

Lemma show_chars n c : c ∈ show_N n -> is_ascii_digit c = true.
Proof. pose proof (show_N_digits n) as HF. rewrite list.Forall_forall in HF. apply HF. Qed.

Lemma number_text_chars ns c : c ∈ str_join 46 (map show_N ns) -> is_ascii_digit c = true \/ c = 46%N.
Proof.
  intros [->|(p & Hp & Hc)]%str_join_elem_of; [by right|left].
  apply list_elem_of_In, in_map_iff in Hp as (n & <- & _). by apply show_chars in Hc.
Qed.

Lemma Version_fmt_chars v c : version_wf v = true -> c ∈ Version_fmt v -> version_char c = true.
Proof.
  unfold version_wf. rewrite !andb_true_iff. intros [[Hne _] Hp]. unfold Version_fmt.
  destruct (number v) as [|n ns]; [done|]. intros [Hc|Hc]%elem_of_app.
  - apply number_text_chars in Hc as [Hc| ->]; [|done].
    unfold version_char, is_prerelease_char. by rewrite Hc.
  - destruct (prerelease v) as [|p ps] eqn:Ep; [by apply elem_of_nil in Hc|].
    apply elem_of_cons in Hc as [->|Hc]; [done|].
    apply str_join_elem_of in Hc as [->|(s & Hs & Hc)]; [done|].
    apply list_elem_of_In, in_map_iff in Hs as (a & <- & Ha).
    rewrite forallb_forall in Hp. apply Hp in Ha. unfold version_char.
    by rewrite (segment_fmt_chars a c Ha Hc).
Qed.

Lemma dash_not_in_number ns : 45%N ∉ str_join 46 (map show_N ns).
Proof. by intros [H|H]%number_text_chars. Qed.

Lemma parse_numbers err ns : ns ≠ [] -> forallb (fun n => (n <? usize_mod)%N) ns = true ->
  collect_results (fun v => match parse_usize v with
                            | Some n => Ok n
                            | None => Err (err $"invalid numeric identifier") end)
    (str_split 46 (str_join 46 (map show_N ns))) = (Ok ns : result (list N) ParseError).
Proof.
  intros Hne Hw. rewrite str_split_join.
  - apply (collect_results_ok _ show_N). intros n Hn%list_elem_of_In.
    rewrite forallb_forall in Hw. apply Hw, N.ltb_lt in Hn. by rewrite parse_usize_show.
  - by destruct ns.
  - apply list.Forall_forall. intros s Hs. apply list_elem_of_In, in_map_iff in Hs as (n & <- & _).
    by apply show_N_not_char.
Qed.

Lemma Version_parse_fmt v : version_wf v = true -> Version_from_str (Version_fmt v) = Ok v.
Proof.
  intros Hw. pose proof Hw as Hw'. unfold version_wf in Hw'. rewrite !andb_true_iff in Hw'.
  destruct Hw' as [[Hne Hn] Hp]. destruct v as [ns ps]. simpl in Hne, Hn, Hp.
  assert (ns ≠ []) as Hns by by destruct ns.
  unfold Version_fmt, Version_from_str. cbn [number prerelease].
  destruct ns as [|n0 ns0]; [done|]. set (ns := n0 :: ns0) in *.
  destruct ps as [|p ps].
  - rewrite app_nil_r, (proj2 (str_split_once_None 45 _) (dash_not_in_number ns)).
    by rewrite parse_numbers.
  - rewrite str_split_once_app by apply dash_not_in_number. rewrite parse_numbers by done.
    rewrite str_split_join, (collect_results_ok _ PreReleaseSegment_fmt); [done| |done|].
    + intros a Ha%list_elem_of_In. apply parse_fmt_segment. rewrite forallb_forall in Hp. by apply Hp.
    + apply list.Forall_forall. intros s Hs Hdot.
      apply list_elem_of_In, in_map_iff in Hs as (a & <- & Ha). rewrite forallb_forall in Hp.
      by apply (segment_fmt_chars a 46%N (Hp a Ha)) in Hdot.
Qed.

Lemma Version_parsed_wf s v : Version_from_str s = Ok v -> version_wf v = true.
Proof.
  unfold Version_from_str. destruct (match str_split_once 45 s with Some _ => _ | None => _ end) as [num pre].
  destruct (collect_results _ (str_split 46 num)) as [ns|e] eqn:En; [|done].
  apply (collect_results_Forall _ (fun n => (n <? usize_mod)%N)) in En as [Hn Hl].
  2:{ intros x y Hy. destruct (parse_usize x) as [n|] eqn:E; [|done]. injection Hy as <-.
      apply N.ltb_lt. by eapply parse_usize_bound. }
  assert (is_empty ns = false) as Hne.
  { destruct ns; [|done]. symmetry in Hl. apply nil_length_inv in Hl. by apply str_split_nonempty in Hl. }
  destruct pre as [p|].
  - destruct (collect_results (parse_prerelease_segment _) _) as [ps|e] eqn:Ep; [|done].
    apply (collect_results_Forall _ segment_wf) in Ep as [Hp _]; [|by apply segment_parsed_wf].
    intros [= <-]. unfold version_wf. simpl. by rewrite Hne, Hn, Hp.
  - intros [= <-]. unfold version_wf. simpl. by rewrite Hne, Hn.
Qed.

Lemma colon_not_in_version v : version_wf v = true -> 58%N ∉ Version_fmt v.
Proof. by intros Hw Hc%Version_fmt_chars. Qed.

Lemma fmt_not_hash v s : version_wf v = true -> strip_prefix_char 35 (Version_fmt v ++ s) = None.
Proof.
  intros Hw. unfold version_wf in Hw. rewrite !andb_true_iff in Hw. destruct Hw as [[Hne _] _].
  unfold Version_fmt. destruct (number v) as [|n ns]; [done|].
  assert (exists c r, str_join 46 (map show_N (n :: ns)) = c :: r /\ is_ascii_digit c = true)
    as (c & r & -> & Hc).
  { cbn [map str_join]. pose proof (show_chars n) as Hd.
    destruct (show_N n) as [|c r] eqn:E; [by apply show_N_nonempty in E|].
    specialize (Hd c (list_elem_of_here _ _)). destruct (map show_N ns); simpl; eauto. }
  simpl. destruct (N.eqb_spec c 35) as [->|]; done.
Qed.

Lemma flavor_no_colon f : flavor_wf (Some f) = true -> 58%N ∉ f.
Proof.
  unfold flavor_wf. simpl. rewrite forallb_forall. intros Hf Hc%list_elem_of_In. by apply Hf in Hc.
Qed.

Lemma ExtendedVersion_parse_fmt v : ext_wf v = true ->
  ExtendedVersion_from_str (ExtendedVersion_fmt v) = Ok v
  /\ (flavor v ≠ Some [] -> parse_spec (ExtendedVersion_fmt v) = Ok v).
Proof.
  unfold ext_wf. rewrite !andb_true_iff. destruct v as [f u d]. simpl. intros [[Hf Hu] Hd].
  unfold ExtendedVersion_from_str, parse_spec, ExtendedVersion_fmt, split_flavor. cbn [flavor upstream downstream].
  assert (str_split_once 58 (Version_fmt u ++ 58%N :: Version_fmt d) = Some (Version_fmt u, Version_fmt d)) as Hs
    by by apply str_split_once_app, colon_not_in_version.
  destruct f as [f|]; simpl.
  - rewrite <- app_assoc. simpl. rewrite str_split_once_app by by apply flavor_no_colon.
    unfold flavor_wf in Hf. simpl in Hf. unfold id in *. cbn [from_option]. split; [by rewrite Hf, Hs, !Version_parse_fmt|].
    intros Hne. destruct f as [|c f]; [done|]. cbn [is_empty from_option].
    by rewrite Hf, Hs, !Version_parse_fmt.
  - rewrite fmt_not_hash by done. simpl. by rewrite Hs, !Version_parse_fmt.
Qed.

Lemma ExtendedVersion_parsed_wf s v : ExtendedVersion_from_str s = Ok v -> ext_wf v = true.
Proof.
  unfold ExtendedVersion_from_str.
  destruct (match split_flavor s with Some _ => _ | None => _ end) as [f s'].
  destruct (forallb is_ascii_lowercase (from_option id [] f)) eqn:Ef; [|done].
  destruct (str_split_once 58 s') as [[u d]|]; [|done].
  destruct (Version_from_str u) as [u'|] eqn:Eu; [|done].
  destruct (Version_from_str d) as [d'|] eqn:Ed; [|done]. intros [= <-].
  unfold ext_wf, flavor_wf. simpl. by rewrite Ef, (Version_parsed_wf _ _ Eu), (Version_parsed_wf _ _ Ed).
Qed.

(** ** Lemmas: the partial order of extended versions *)

(** The part of the order that compares versions of one flavor. *)
Definition ext_cmp (a b : ExtendedVersion) : comparison :=
  then_with (Version_cmp (upstream a) (upstream b)) (Version_cmp (downstream a) (downstream b)).

#[export] Instance ext_cmp_ord : OrdCmp ext_cmp.
Proof.
  apply (key_cmp_ord (pair_cmp Version_cmp Version_cmp) (fun v => (upstream v, downstream v)));
    [apply _|done].
Qed.

(** ** Properties *)

(** C37: [Ord for Version] is a total preorder (antisymmetric up to
    [Equal], transitive, total), where trailing zeros of the number do not
    matter and a prerelease comes before its release. *)
Theorem Version_total_order (a b c : Version) k p :
  Version_cmp b a = CompOpp (Version_cmp a b)
  /\ (Version_cmp a b = Lt -> Version_cmp b c = Lt -> Version_cmp a c = Lt)
  /\ (Version_cmp a b = Eq -> Version_cmp a c = Version_cmp b c)
  /\ Version_cmp (mkVersion (number a ++ replicate k 0%N) (prerelease a)) b = Version_cmp a b
  /\ Version_cmp (mkVersion (number a) (p :: prerelease a)) (without_prerelease a) = Lt.
Proof.
  split_and!.
  - apply (cmp_opp Version_cmp).
  - apply (cmp_lt_trans Version_cmp).
  - apply (cmp_eq_l Version_cmp).
  - unfold Version_cmp. simpl. by rewrite number_cmp_zeros.
  - unfold Version_cmp. simpl. by rewrite (cmp_refl number_cmp).
Qed.

Lemma Version_total_order_witness :
  Version_cmp (mkVersion [1; 2]%N [PString $"beta"]) (mkVersion [1; 2; 0]%N []) = Lt
  /\ Version_cmp (mkVersion [1]%N []) (mkVersion [2]%N []) = Lt.
Proof.
  split; [by vm_compute|].
  refine (proj1 (proj2 (Version_total_order (mkVersion [1]%N []) (mkVersion [1; 1]%N [])
    (mkVersion [2]%N []) 0 (Number 0))) _ _); by vm_compute.
Defined.

(** On versions with a nonempty number, [==] is the [Equal] of
    [cmp], never panics, and equal versions hash alike, as [Eq], [Ord] and
    [Hash] promise each other. *)
Theorem Version_eq_hash_consistent (a b : Version) : number a ≠ [] -> number b ≠ [] ->
  Version_eqb a b = Done (is_eq (Version_cmp a b))
  /\ (Version_cmp a b = Eq <-> Version_hash a = Version_hash b).
Proof.
  intros Ha Hb. split; [by apply Version_eqb_cmp|]. unfold Version_hash, Version_cmp.
  rewrite !semantic_number_sem by done. cbn [outcome_bind]. rewrite !then_with_eq, <- sem_eq by done.
  assert (forall p q, list_cmp PreReleaseSegment_cmp p q = Eq <->
    map PreReleaseSegment_hash p = map PreReleaseSegment_hash q) as Hp.
  { induction p as [|x p IH]; intros [|y q]; simpl; try done.
    rewrite then_with_eq, IH, PreReleaseSegment_cmp_eq. split; [by intros [-> ->]|by intros [= -> ->]]. }
  rewrite Hp. split.
  - by intros (-> & _ & ->).
  - intros [= -> E]. split_and!; [done| |done].
    destruct (prerelease a), (prerelease b); done.
Qed.

Lemma Version_eq_hash_consistent_witness :
  Version_eqb (mkVersion [1; 0]%N [BigNumber $"7"]) (mkVersion [1]%N [Number 7]) = Done true.
Proof.
  rewrite (proj1 (Version_eq_hash_consistent (mkVersion [1; 0]%N [BigNumber $"7"])
    (mkVersion [1]%N [Number 7]) ltac:(done) ltac:(done))). by vm_compute.
Defined.

(** [Version::new] accepts an empty number, which [cmp] and
    [Display] treat as zero, but [==] and [hash] panic on it. *)
Theorem Version_empty_number_panics (p : list PreReleaseSegment) (b : Version) :
  Version_eqb (Version_new [] p) b = Panic /\ Version_hash (Version_new [] p) = Panic
  /\ Version_cmp (Version_new [] p) (Version_new [0%N] p) = Eq
  /\ Version_fmt (Version_new [] p) = Version_fmt (Version_new [0%N] p).
Proof.
  split_and!; try done. unfold Version_cmp. simpl. rewrite (cmp_refl bool_cmp). simpl.
  apply (cmp_refl (list_cmp PreReleaseSegment_cmp)).
Qed.

(** [PartialOrd for ExtendedVersion] orders the versions of one
    flavor totally, leaves different flavors incomparable, and agrees with
    [==]. *)
Theorem ExtendedVersion_partial_order (a b c : ExtendedVersion) :
  (ExtendedVersion_partial_cmp a b = None <-> flavor a ≠ flavor b)
  /\ ExtendedVersion_partial_cmp b a = CompOpp <$> ExtendedVersion_partial_cmp a b
  /\ (ExtendedVersion_partial_cmp a b = Some Lt -> ExtendedVersion_partial_cmp b c = Some Lt ->
      ExtendedVersion_partial_cmp a c = Some Lt)
  /\ (number (upstream a) ≠ [] -> number (upstream b) ≠ [] ->
      number (downstream a) ≠ [] -> number (downstream b) ≠ [] ->
      ExtendedVersion_eqb a b = Done (bool_decide (ExtendedVersion_partial_cmp a b = Some Eq))).
Proof.
  unfold ExtendedVersion_partial_cmp. fold (ext_cmp a b) (ext_cmp b c) (ext_cmp a c) (ext_cmp b a).
  split_and!.
  - case_bool_decide; [|done]. split; [done|]. by intros [].
  - rewrite (bool_decide_ext (flavor b = flavor a) (flavor a = flavor b)) by (split; congruence).
    case_bool_decide; simpl; [|done]. by rewrite (cmp_opp ext_cmp a b).
  - do 2 (case_bool_decide; [|done]). rewrite (bool_decide_true (flavor a = flavor c)) by congruence.
    intros [= H1] [= H2]. by rewrite (cmp_lt_trans ext_cmp a b c H1 H2).
  - intros. unfold ExtendedVersion_eqb. case_bool_decide; [|done].
    rewrite !Version_eqb_cmp by done. cbn [outcome_bind]. unfold ext_cmp.
    destruct (Version_cmp (upstream a) (upstream b)); simpl; [|done..].
    by destruct (Version_cmp (downstream a) (downstream b)).
Qed.

Lemma ExtendedVersion_partial_order_witness :
  ExtendedVersion_partial_cmp (ExtendedVersion_from_emver 0 3 0 0) (ExtendedVersion_from_emver 0 3 2 0) = Some Lt.
Proof.
  refine (proj1 (proj2 (proj2 (ExtendedVersion_partial_order (ExtendedVersion_from_emver 0 3 0 0)
    (ExtendedVersion_from_emver 0 3 1 0) (ExtendedVersion_from_emver 0 3 2 0)))) _ _); by vm_compute.
Defined.

(** C38: what parses is well formed, and a well-formed [Version] or
    [ExtendedVersion] prints to a text that parses back to exactly it; so
    parsing, printing and parsing again is the identity. *)
Theorem version_print_parse (v : Version) (e : ExtendedVersion) (s : str) :
  (version_wf v = true -> Version_from_str (Version_fmt v) = Ok v)
  /\ (ext_wf e = true -> ExtendedVersion_from_str (ExtendedVersion_fmt e) = Ok e)
  /\ (ext_wf e = true -> flavor e ≠ Some [] -> parse_spec (ExtendedVersion_fmt e) = Ok e)
  /\ (Version_from_str s = Ok v -> version_wf v = true)
  /\ (ExtendedVersion_from_str s = Ok e -> ext_wf e = true).
Proof.
  split_and!.
  - apply Version_parse_fmt.
  - intros He. by apply ExtendedVersion_parse_fmt.
  - intros He. by apply ExtendedVersion_parse_fmt.
  - apply Version_parsed_wf.
  - apply ExtendedVersion_parsed_wf.
Qed.

Lemma version_print_parse_witness :
  let e := mkExt (Some $"knots") (mkVersion [27; 1]%N [PString $"rc"; Number 1]) (mkVersion [0]%N []) in
  ExtendedVersion_fmt e = $"#knots:27.1-rc.1:0"
  /\ ExtendedVersion_from_str (ExtendedVersion_fmt e) = Ok e.
Proof.
  intros e. split; [by vm_compute|].
  apply (proj1 (proj2 (version_print_parse Version_default e []))). by vm_compute.
Defined.
