(* ===== verification/ExRange.v ===== *)
(** * Version ranges

    [shared-libs/crates/exver/src/exver.rs], lines 472-693 and 941-1029: the
    ranges, [satisfies], the smart constructors, caret and tilde, and the
    matching of a release that declares several versions.  [caret] and [tilde]
    are [outcome]s: they call [semantic_number], and they add one to a [usize],
    which overflow checks turn into a panic. *)
From S2P Require Import Prelude RustStr ExVersion.

Local Open Scope rust_scope.

(** [Result<Ordering, Ordering>]: [Ok c] holds on [c], [Err c] on all but [c]. *)
Definition Operator : Type := result comparison comparison.
Definition GTE : Operator := Err Lt.
Definition LT : Operator := Ok Lt.
Definition NEQ : Operator := Err Eq.
Definition EQ : Operator := Ok Eq.
Definition LTE : Operator := Err Gt.
Definition GT : Operator := Ok Gt.

#[export] Instance Operator_eq_dec : EqDecision Operator.
Proof. intros x y. unfold Decision. repeat decide equality. Defined.

Inductive VersionRange : Type :=
| Anchor (op : Operator) (v : ExtendedVersion)
| And (a b : VersionRange)
| Or (a b : VersionRange)
| Not (a : VersionRange)
| Any
| None_
| Flavor (f : option str).

Definition VersionRange_default : VersionRange := Any.

Definition op_holds (op : Operator) (c : comparison) : bool :=
  match op with Ok d => bool_decide (c = d) | Err d => bool_decide (c ≠ d) end.

(** [ExtendedVersion::satisfies] *)
Fixpoint satisfies (v : ExtendedVersion) (range : VersionRange) : bool :=
  match range with
  | Anchor op w =>
      match ExtendedVersion_partial_cmp v w with
      | Some cmp => op_holds op cmp
      | None => bool_decide (op = NEQ)
      end
  | And a b => satisfies v a && satisfies v b
  | Or a b => satisfies v a || satisfies v b
  | Not a => negb (satisfies v a)
  | Any => true
  | None_ => false
  | Flavor f => bool_decide (flavor v = f)
  end.

(** [Version::satisfies] *)
Definition Version_satisfies (v : Version) (range : VersionRange) : bool :=
  satisfies (ExtendedVersion_new v Version_default) range.

(** ** Constructors *)

Definition VersionRange_and (a b : VersionRange) : VersionRange :=
  match a, b with
  | Any, b => b
  | a, Any => a
  | None_, _ => None_
  | _, None_ => None_
  | a, b => And a b
  end.

Definition VersionRange_or (a b : VersionRange) : VersionRange :=
  match a, b with
  | Any, _ => Any
  | _, Any => Any
  | None_, b => b
  | a, None_ => a
  | a, b => Or a b
  end.

Definition VersionRange_not (a : VersionRange) : VersionRange :=
  match a with
  | Anchor (Ok Eq) v => Anchor NEQ v
  | Anchor (Err Eq) v => Anchor EQ v
  | Not a => a
  | Any => None_
  | None_ => Any
  | a => Not a
  end.

Definition VersionRange_exactly (a : ExtendedVersion) : VersionRange := Anchor EQ a.

Definition VersionRange_reduce (r : VersionRange) : VersionRange :=
  match r with
  | And a b => VersionRange_and a b
  | Or a b => VersionRange_or a b
  | Not a => VersionRange_not a
  | a => a
  end.

(** [iter().enumerate().find(|(_, seg)| seg != 0)] *)
Fixpoint first_nonzero (l : list N) : option nat :=
  match l with
  | [] => None
  | x :: r => if (x =? 0)%N then S <$> first_nonzero r else Some 0
  end.

(** [semantic_number] is not empty when it returns. *)
Definition major_idx (s : list N) : nat := from_option id (length s - 1) (first_nonzero s).

(** [version] with another upstream number and downstream [0]. *)
Definition with_number (v : ExtendedVersion) (n : list N) : ExtendedVersion :=
  mkExt (flavor v) (mkVersion n (prerelease (upstream v))) Version_default.

Definition caret (version : ExtendedVersion) : outcome VersionRange :=
  let* s := semantic_number (upstream version) in
  let i := major_idx s in
  let* last := match s !! i with
               | Some n => let* m := usize_succ n in Done [m]
               | None => Done []
               end in
  let max := with_number version (take i s ++ last) in
  Done (VersionRange_and (Anchor GTE version) (Anchor LT max)).

Definition tilde (version : ExtendedVersion) : outcome VersionRange :=
  let* s := semantic_number (upstream version) in
  let i := major_idx s in
  let* m := usize_succ (from_option id 0%N (s !! (i + 1))) in
  let max := with_number version
    (take i s ++ (match s !! i with Some n => [n] | None => [] end) ++ [m]) in
  Done (VersionRange_and (Anchor GTE version) (Anchor LT max)).

(** ** Releases *)

Fixpoint release_matches (r : VersionRange) (versions : list ExtendedVersion) (negated : bool)
    : list bool :=
  let all_or_none := fun r =>
    let matched := existsb (fun v => satisfies v r) versions in
    replicate (length versions) (negb matched) in
  match r with
  | Not a => release_matches a versions (negb negated)
  | Anchor op v =>
      if bool_decide (op = NEQ) then
        (** the recursive call on [Anchor(EQ, v)], which takes neither of the first two arms *)
        if negb negated then all_or_none (Anchor EQ v)
        else map (fun w => satisfies w (Anchor EQ v)) versions
      else if negated then all_or_none r
      else map (fun w => satisfies w r) versions
  | And a b =>
      if negated then all_or_none r
      else zip_with andb (release_matches a versions false) (release_matches b versions false)
  | Or a b =>
      if negated then all_or_none r
      else zip_with orb (release_matches a versions false) (release_matches b versions false)
  | _ => if negated then all_or_none r else map (fun w => satisfies w r) versions
  end.

Definition satisfied_by_release (r : VersionRange) (versions : list ExtendedVersion) : bool :=
  existsb id (release_matches r versions false).

(** ** Printing *)

Definition is_expr (r : VersionRange) : bool :=
  match r with Anchor _ _ | Any | None_ => false | _ => true end.

Definition op_fmt (op : Operator) : str :=
  match op with
  | Err Lt => $">="
  | Ok Lt => $"<"
  | Err Eq => $"!="
  | Ok Eq => $"="
  | Err Gt => $"<="
  | Ok Gt => $">"
  end.

(** [write_with_parens] applied to the text of the operand. *)
Definition with_parens (r : VersionRange) (text : str) : str :=
  if is_expr r then $"(" ++ text ++ $")" else text.

Fixpoint VersionRange_fmt (r : VersionRange) : str :=
  match r with
  | Anchor op v => op_fmt op ++ ExtendedVersion_fmt v
  | And a b => with_parens a (VersionRange_fmt a) ++ $" " ++ with_parens b (VersionRange_fmt b)
  | Or a b => with_parens a (VersionRange_fmt a) ++ $" || " ++ with_parens b (VersionRange_fmt b)
  | Not a => $"!" ++ with_parens a (VersionRange_fmt a)
  | Any => $"*"
  | None_ => $"!"
  | Flavor (Some f) => $"#" ++ f
  | Flavor None => $"#"
  end.

(** ** The monoids [AnyRange] and [AllRange] *)

Definition AnyRange_combine (a b : VersionRange) : VersionRange := VersionRange_or a b.
Definition AnyRange_empty : VersionRange := None_.
Definition AllRange_combine (a b : VersionRange) : VersionRange := VersionRange_and a b.
Definition AllRange_empty : VersionRange := Any.

(** ** Lemmas: smart constructors *)

Lemma satisfies_neq v w : satisfies v (Anchor NEQ w) = negb (satisfies v (Anchor EQ w)).
Proof.
  simpl. destruct (ExtendedVersion_partial_cmp v w) as [[]|]; done.
Qed.

Lemma satisfies_and v a b : satisfies v (VersionRange_and a b) = satisfies v (And a b).
Proof. destruct a, b; simpl; rewrite ?andb_true_r, ?andb_false_r; done. Qed.

Lemma satisfies_or v a b : satisfies v (VersionRange_or a b) = satisfies v (Or a b).
Proof. destruct a, b; simpl; rewrite ?orb_true_r, ?orb_false_r; done. Qed.

Lemma satisfies_not v a : satisfies v (VersionRange_not a) = satisfies v (Not a).
Proof.
  destruct a as [op w| | | | | |]; try (simpl; by rewrite ?negb_involutive).
  destruct op as [[]|[]]; try done; cbn [VersionRange_not].
  - apply satisfies_neq.
  - change (satisfies v (Not (Anchor (Err Eq) w))) with (negb (satisfies v (Anchor NEQ w))).
    by rewrite satisfies_neq, negb_involutive.
Qed.

Lemma satisfies_reduce v r : satisfies v (VersionRange_reduce r) = satisfies v r.
Proof. destruct r; cbn [VersionRange_reduce]; [done|apply satisfies_and|apply satisfies_or|apply satisfies_not|done..]. Qed.

(** ** Lemmas: releases *)

Lemma release_len r vs neg : length (release_matches r vs neg) = length vs.
Proof.
  revert neg. induction r as [op v|a IHa b IHb|a IHa b IHb|a IHa| | |f]; intros neg; simpl;
    try (destruct neg; rewrite ?length_replicate, ?length_map; done).
  - destruct (bool_decide (op = NEQ)), neg; simpl; rewrite ?length_replicate, ?length_map; done.
  - destruct neg; [by rewrite length_replicate|]. rewrite length_zip_with, IHa, IHb. lia.
  - destruct neg; [by rewrite length_replicate|]. rewrite length_zip_with, IHa, IHb. lia.
Qed.

(** A release that declares one version matches as that version does. *)
Lemma release_single r v neg : release_matches r [v] neg = [xorb neg (satisfies v r)].
Proof.
  revert neg. induction r as [op w|a IHa b IHb|a IHa b IHb|a IHa| | |f]; intros neg;
    try (destruct neg; cbn [release_matches existsb length replicate map orb negb xorb]; by rewrite ?orb_false_r).
  - cbn [release_matches existsb length replicate map]. case_bool_decide as E.
    + subst op. rewrite satisfies_neq, orb_false_r. destruct neg, (satisfies v (Anchor EQ w)); done.
    + rewrite orb_false_r. by destruct neg, (satisfies v (Anchor op w)).
  - cbn [release_matches]. rewrite IHa, IHb. destruct neg; simpl; [by rewrite orb_false_r|].
    by destruct (satisfies v a), (satisfies v b).
  - cbn [release_matches]. rewrite IHa, IHb. destruct neg; simpl; [by rewrite orb_false_r|].
    by destruct (satisfies v a), (satisfies v b).
  - cbn [release_matches satisfies]. rewrite IHa. by destruct neg, (satisfies v a).
Qed.

Lemma zip_with_true (f : bool -> bool -> bool) (l : list bool) n : (forall b, f true b = b) ->
  length l = n -> zip_with f (replicate n true) l = l.
Proof. intros Hf <-. induction l as [|b l IH]; simpl; [done|]. by rewrite Hf, IH. Qed.

Lemma zip_with_const (f : bool -> bool -> bool) b c (l : list bool) n : (forall x, f b x = c) ->
  length l = n -> zip_with f (replicate n b) l = replicate n c.
Proof. intros Hf <-. induction l as [|x l IH]; simpl; [done|]. by rewrite Hf, IH. Qed.

Lemma zip_with_comm (f : bool -> bool -> bool) l k : (forall a b, f a b = f b a) ->
  zip_with f l k = zip_with f k l.
Proof. intros Hf. revert k. induction l as [|x l IH]; intros [|y k]; simpl; try done. by rewrite Hf, IH. Qed.

Lemma map_const {A B} (b : B) (l : list A) : map (fun _ => b) l = replicate (length l) b.
Proof. induction l; simpl; congruence. Qed.

Lemma release_any vs : release_matches Any vs false = replicate (length vs) true.
Proof. cbn [release_matches satisfies]. apply map_const. Qed.

Lemma release_none vs : release_matches None_ vs false = replicate (length vs) false.
Proof. cbn [release_matches satisfies]. apply map_const. Qed.

Lemma release_and a b vs :
  release_matches (VersionRange_and a b) vs false = release_matches (And a b) vs false.
Proof.
  assert (release_matches (And a b) vs false =
    zip_with andb (release_matches a vs false) (release_matches b vs false)) as -> by done.
  assert (a = Any \/ a = None_ \/ b = Any \/ b = None_ \/ VersionRange_and a b = And a b) as Hc
    by (destruct a, b; eauto 10).
  pose proof (release_len a vs false) as La. pose proof (release_len b vs false) as Lb.
  destruct Hc as [->|[->|[->|[->| ->]]]]; [..|done].
  - by rewrite release_any, (zip_with_true andb) by done.
  - assert (VersionRange_and None_ b = None_) as -> by by destruct b.
    by rewrite release_none, (zip_with_const andb false false) by done.
  - assert (VersionRange_and a Any = a) as -> by by destruct a.
    by rewrite release_any, (zip_with_comm andb), (zip_with_true andb) by (done || apply andb_comm).
  - assert (VersionRange_and a None_ = None_) as -> by by destruct a.
    by rewrite release_none, (zip_with_comm andb), (zip_with_const andb false false) by (done || apply andb_comm).
Qed.

Lemma release_or a b vs :
  release_matches (VersionRange_or a b) vs false = release_matches (Or a b) vs false.
Proof.
  assert (release_matches (Or a b) vs false =
    zip_with orb (release_matches a vs false) (release_matches b vs false)) as -> by done.
  assert (a = Any \/ a = None_ \/ b = Any \/ b = None_ \/ VersionRange_or a b = Or a b) as Hc
    by (destruct a, b; eauto 10).
  pose proof (release_len a vs false) as La. pose proof (release_len b vs false) as Lb.
  assert (forall l : list bool, length l = length vs -> zip_with orb (replicate (length vs) false) l = l) as Hf.
  { intros l <-. induction l; simpl; congruence. }
  destruct Hc as [->|[->|[->|[->| ->]]]]; [..|done].
  - assert (VersionRange_or Any b = Any) as -> by done.
    by rewrite release_any, (zip_with_const orb true true) by done.
  - assert (VersionRange_or None_ b = b) as -> by by destruct b.
    by rewrite release_none, Hf by done.
  - assert (VersionRange_or a Any = Any) as -> by by destruct a.
    by rewrite release_any, (zip_with_comm orb), (zip_with_const orb true true) by (done || apply orb_comm).
  - assert (VersionRange_or a None_ = a) as -> by by destruct a.
    by rewrite release_none, (zip_with_comm orb), Hf by (done || apply orb_comm).
Qed.

Lemma release_not a vs :
  release_matches (VersionRange_not a) vs false = release_matches (Not a) vs false.
Proof.
  destruct a as [[[]|[]] w| | | | | |]; try done.
  - cbn [VersionRange_not]. rewrite release_none. cbn [release_matches negb satisfies].
    destruct vs; simpl; [done|]. by rewrite ?orb_true_r.
  - cbn [VersionRange_not]. rewrite release_any. cbn [release_matches negb satisfies].
    assert (existsb (fun _ : ExtendedVersion => false) vs = false) as ->; [|done].
    by induction vs.
Qed.

Lemma release_reduce r vs :
  release_matches (VersionRange_reduce r) vs false = release_matches r vs false.
Proof. destruct r; cbn [VersionRange_reduce]; [done|apply release_and|apply release_or|apply release_not|done..]. Qed.

(** ** Lemmas: below the next breaking number *)

Lemma list_cmp_lt_bump k (X W : list N) : length X = length W -> k < length W ->
  list_cmp N.compare X W ≠ Lt ->
  list_cmp N.compare X (take k W ++ (nth k W 0 + 1)%N :: replicate (length W - (k + 1)) 0%N) = Lt
  <-> take (k + 1) X = take (k + 1) W.
Proof.
  revert X W. induction k as [|k IH]; intros [|x X] [|s W] Hl Hk; simpl in *; try lia.
  - rewrite Nat.sub_0_r, !take_0. intros Hge.
    assert (length X = length W) as Hl' by lia. clear Hl Hk.
    assert (list_cmp N.compare X (replicate (length W) 0%N) ≠ Lt) as Hz.
    { rewrite <- Hl'. clear. induction X as [|x X IH]; simpl; [done|].
      destruct (N.compare_spec x 0); simpl; [done|lia|done]. }
    destruct (N.compare_spec x (s + 1)) as [->|Hx|Hx]; simpl.
    + split; [done|]. intros [= E]. lia.
    + split; [|done]. intros _. destruct (N.compare_spec x s) as [->|Hs|Hs]; [done|done|lia].
    + split; [done|]. intros [= ->]. lia.
  - destruct (N.compare_spec x s) as [->|Hs|Hs]; simpl.
    + intros Hge. rewrite IH by (lia || done). split; [congruence|]. by intros [= ->].
    + by intros [].
    + intros _. split; [done|]. intros [= ->]. lia.
Qed.

Lemma nth_pad n l j : nth j (pad n l) 0%N = nth j l 0%N.
Proof.
  unfold pad. destruct (Nat.lt_ge_cases j (length l)) as [Hj|Hj].
  - by rewrite app_nth1.
  - rewrite app_nth2, (nth_overflow l) by done. generalize (j - length l) as i, (n - length l) as m.
    induction i as [|i IH]; intros [|m]; simpl; done.
Qed.

Lemma take_nth_eq k (X W : list N) : length X = length W -> k < length W ->
  take (k + 1) X = take (k + 1) W <-> forall j, j <= k -> nth j X 0%N = nth j W 0%N.
Proof.
  revert X W. induction k as [|k IH]; intros [|x X] [|s W] Hl Hk; simpl in *; try lia.
  - rewrite !take_0. split.
    + intros [= ->] [|j] Hj; [done|lia].
    + intros Hj. by rewrite (Hj 0 ltac:(lia)).
  - split.
    + intros [= -> E] [|j] Hj; [done|]. apply IH; [lia|lia|done|lia].
    + intros Hj. f_equal; [exact (Hj 0 ltac:(lia))|]. apply IH; [lia|lia|].
      intros j Hj'. exact (Hj (S j) ltac:(lia)).
Qed.

(** The number whose first [k] segments are those of [l] and whose segment [k]
    is one more. *)
Definition bump (k : nat) (l : list N) : list N := take k (pad (k + 1) l) ++ [(nth k l 0 + 1)%N].

Lemma take_pad_ge k n m l : k <= n -> k <= m -> take k (pad n l) = take k (pad m l).
Proof.
  intros Hn Hm. unfold pad. destruct (Nat.le_ge_cases k (length l)).
  - by rewrite !take_app_le.
  - rewrite !take_app_ge, !take_replicate by done. do 2 f_equal. lia.
Qed.

Lemma number_lt_bump x l k : number_cmp x l ≠ Lt ->
  number_cmp x (bump k l) = Lt <-> forall j, j <= k -> nth j x 0%N = nth j l 0%N.
Proof.
  set (n := length x + length l + k + 1).
  assert (length (bump k l) = k + 1) as Hb.
  { unfold bump, pad. rewrite length_app, length_take, length_app, length_replicate. simpl. lia. }
  rewrite !(number_cmp_pad n) by lia. intros Hge.
  assert (pad n (bump k l) = take k (pad n l) ++ (nth k (pad n l) 0 + 1)%N
    :: replicate (length (pad n l) - (k + 1)) 0%N) as ->.
  { rewrite nth_pad, pad_length by lia. unfold pad at 1. rewrite Hb. unfold bump.
    rewrite <- app_assoc. simpl. f_equal. apply take_pad_ge; lia. }
  rewrite list_cmp_lt_bump by (rewrite ?pad_length; done || lia).
  rewrite take_nth_eq by (rewrite ?pad_length; lia). by setoid_rewrite nth_pad.
Qed.

(** ** Lemmas: caret and tilde *)

Lemma sem_nonempty l : l ≠ [] -> sem l ≠ [].
Proof.
  intros Hl. unfold sem. destruct l as [|x l]; [done|]. by destruct (last_nonzero (x :: l)) as [[]|].
Qed.

Lemma nth_sem l j : nth j (sem l) 0%N = nth j l 0%N.
Proof.
  destruct (sem_zeros l) as [k E]. rewrite E at 2. clear E.
  rewrite <- (nth_pad (length (sem l) + k) (sem l) j). unfold pad. do 3 f_equal. lia.
Qed.

Lemma number_cmp_sem_r x l : number_cmp x (sem l) = number_cmp x l.
Proof.
  destruct (sem_zeros l) as [k E].
  rewrite (cmp_opp number_cmp (sem l) x), (cmp_opp number_cmp l x). f_equal.
  rewrite E at 2. by rewrite number_cmp_zeros.
Qed.

Lemma first_nonzero_lt l i : first_nonzero l = Some i -> i < length l.
Proof.
  revert i. induction l as [|x l IH]; intros i; simpl; [done|].
  destruct (x =? 0)%N; [|intros [= <-]; lia].
  destruct (first_nonzero l) as [j|]; simpl; [|done]. intros [= <-]. specialize (IH j eq_refl). lia.
Qed.

Lemma major_idx_lt s : s ≠ [] -> major_idx s < length s.
Proof.
  intros Hs. unfold major_idx. destruct (first_nonzero s) as [i|] eqn:E.
  - by apply first_nonzero_lt.
  - destruct s; [done|]. simpl. lia.
Qed.

Lemma number_cmp_zero l : number_cmp l [0%N] ≠ Lt.
Proof.
  destruct l as [|x l]; [done|]. unfold number_cmp. simpl.
  assert (cmp_pairs (zip_default l []) ≠ Lt) as Hl.
  { induction l as [|y l IH]; [done|]. destruct l as [|z l]; simpl in *; [by destruct (N.compare_spec y 0); [|lia|]|].
    destruct (N.compare_spec y 0); [done|lia|done]. }
  destruct (N.compare_spec x 0); [done|lia|done].
Qed.

Lemma nth_lookup_default (l : list N) i : nth i l 0%N = from_option id 0%N (l !! i).
Proof. revert i. induction l as [|x l IH]; intros [|i]; simpl; done || apply IH. Qed.

(** Between [v] and the number bumped at [k]: the segments up to [k] agree. *)
Lemma between_bump v x k s : sem (number (upstream v)) = s ->
  prerelease (upstream v) = [] -> prerelease (upstream x) = [] -> prerelease (downstream x) = [] ->
  satisfies x (And (Anchor GTE v) (Anchor LT (with_number v (bump k s)))) = true <->
  flavor x = flavor v /\ ext_cmp x v ≠ Lt /\
  forall j, j <= k -> nth j (number (upstream x)) 0%N = nth j (number (upstream v)) 0%N.
Proof.
  intros <- Pv Pxu Pxd. cbn [satisfies]. unfold ExtendedVersion_partial_cmp. cbn [flavor with_number].
  fold (ext_cmp x v) (ext_cmp x (with_number v (bump k (sem (number (upstream v)))))).
  case_bool_decide as Hf; [|split; [done|by intros [? _]]].
  unfold GTE, LT. cbn [op_holds]. rewrite andb_true_iff, !bool_decide_eq_true.
  assert (ext_cmp x v ≠ Lt -> ext_cmp x (with_number v (bump k (sem (number (upstream v))))) = Lt <->
    forall j, j <= k -> nth j (number (upstream x)) 0%N = nth j (number (upstream v)) 0%N) as H.
  { intros Hge. setoid_rewrite <- (nth_sem (number (upstream v))). rewrite <- number_lt_bump.
    - unfold ext_cmp, Version_cmp. simpl. rewrite Pv, Pxu, Pxd. simpl.
      pose proof (number_cmp_zero (number (downstream x))) as Hz.
      destruct (number_cmp (number (upstream x)) (bump k _)); simpl; [|done..].
      split; [|done]. destruct (number_cmp (number (downstream x)) [0%N]); by simpl.
    - rewrite number_cmp_sem_r. intros Hlt. apply Hge. unfold ext_cmp, Version_cmp. by rewrite Hlt. }
  split.
  - intros [H1 H2]. split_and!; [done|done|]. by apply H.
  - intros (_ & H1 & H2). split; [done|]. by apply H.
Qed.

Section caret_tilde.
Context (v : ExtendedVersion).
Hypothesis Hne : number (upstream v) ≠ [].
Hypothesis Hov : Forall (fun n => n + 1 < usize_mod)%N (number (upstream v)).
Let s := sem (number (upstream v)).
Let i := major_idx s.

Lemma sem_in_number n : n ∈ s -> (n + 1 < usize_mod)%N.
Proof.
  intros Hn. rewrite list.Forall_forall in Hov. apply Hov.
  destruct (sem_zeros (number (upstream v))) as [k ->]. apply elem_of_app. by left.
Qed.

Lemma major_lookup : s !! i = Some (nth i s 0%N).
Proof.
  pose proof (major_idx_lt s (sem_nonempty _ Hne)) as Hi.
  destruct (lookup_lt_is_Some_2 s i Hi) as [n Hn]. rewrite nth_lookup_default, Hn. done.
Qed.

Lemma usize_succ_done n : n ∈ s \/ n = 0%N -> usize_succ n = Done (n + 1)%N.
Proof.
  intros Hn. unfold usize_succ. rewrite (proj2 (N.ltb_lt _ _)); [done|].
  destruct Hn as [Hn| ->]; [by apply sem_in_number|done].
Qed.

Lemma caret_bump : caret v = Done (And (Anchor GTE v) (Anchor LT (with_number v (bump i s)))).
Proof.
  unfold caret. rewrite semantic_number_sem by done. cbn [outcome_bind]. fold s. fold i.
  rewrite major_lookup. rewrite usize_succ_done.
  2:{ left. apply (list_elem_of_lookup_2 s i). apply major_lookup. }
  cbn [outcome_bind]. unfold bump. do 5 f_equal.
  pose proof (major_idx_lt s (sem_nonempty _ Hne)) as Hi. unfold pad.
  rewrite take_app_le; [done|]. subst i. lia.
Qed.

Lemma tilde_bump : tilde v = Done (And (Anchor GTE v) (Anchor LT (with_number v (bump (i + 1) s)))).
Proof.
  unfold tilde. rewrite semantic_number_sem by done. cbn [outcome_bind]. fold s. fold i.
  rewrite major_lookup, <- nth_lookup_default. rewrite usize_succ_done.
  2:{ rewrite nth_lookup_default. destruct (s !! (i + 1)) as [n|] eqn:E; [left|by right].
      by apply (list_elem_of_lookup_2 s (i + 1)). }
  cbn [outcome_bind]. unfold bump. do 5 f_equal.
  pose proof (major_idx_lt s (sem_nonempty _ Hne)) as Hi. unfold pad.
  rewrite take_app_le by (subst i; lia). rewrite Nat.add_1_r, (take_S_r s i _ major_lookup).
  by rewrite <- app_assoc.
Qed.
End caret_tilde.

(** ** Properties *)

(** The smart constructors and [reduce] keep the meaning of the
    plain ones on every version, [!=v] is the complement of [=v], and [AllRange]
    and [AnyRange] are monoids with the neutral elements the code gives them. *)
Theorem range_constructors_sound (v w : ExtendedVersion) (a b c : VersionRange) :
  satisfies v (VersionRange_and a b) = (satisfies v a && satisfies v b)
  /\ satisfies v (VersionRange_or a b) = (satisfies v a || satisfies v b)
  /\ satisfies v (VersionRange_not a) = negb (satisfies v a)
  /\ satisfies v (VersionRange_reduce a) = satisfies v a
  /\ satisfies v (Anchor NEQ w) = negb (satisfies v (Anchor EQ w))
  /\ AllRange_combine AllRange_empty a = a /\ AllRange_combine a AllRange_empty = a
  /\ AnyRange_combine AnyRange_empty a = a /\ AnyRange_combine a AnyRange_empty = a
  /\ satisfies v (AllRange_combine a (AllRange_combine b c))
     = satisfies v (AllRange_combine (AllRange_combine a b) c)
  /\ satisfies v (AnyRange_combine a (AnyRange_combine b c))
     = satisfies v (AnyRange_combine (AnyRange_combine a b) c).
Proof.
  split_and!; [apply satisfies_and|apply satisfies_or|apply satisfies_not|apply satisfies_reduce|
    apply satisfies_neq|done|by destruct a|by destruct a|by destruct a|..].
  - unfold AllRange_combine. rewrite !satisfies_and. simpl. rewrite !satisfies_and. simpl. apply andb_assoc.
  - unfold AnyRange_combine. rewrite !satisfies_or. simpl. rewrite !satisfies_or. simpl. apply orb_assoc.
Qed.

(** On releases (no prerelease part), [^v] holds of the versions of
    [v]'s flavor that are at least [v] and agree with it up to its first nonzero
    segment, and [~v] up to the segment after that. *)
Theorem caret_tilde_meaning (v : ExtendedVersion) :
  number (upstream v) ≠ [] -> Forall (fun n => n + 1 < usize_mod)%N (number (upstream v)) ->
  prerelease (upstream v) = [] ->
  let i := major_idx (sem (number (upstream v))) in
  let compatible := fun x k => flavor x = flavor v /\ ext_cmp x v ≠ Lt /\
    forall j, j <= k -> nth j (number (upstream x)) 0%N = nth j (number (upstream v)) 0%N in
  exists rc rt, caret v = Done rc /\ tilde v = Done rt /\
    forall x, prerelease (upstream x) = [] -> prerelease (downstream x) = [] ->
      (satisfies x rc = true <-> compatible x i) /\ (satisfies x rt = true <-> compatible x (i + 1)).
Proof.
  intros Hne Hov Hp i compatible. eexists _, _.
  split; [by apply caret_bump|]. split; [by apply tilde_bump|]. intros x Hxu Hxd.
  split; by apply between_bump.
Qed.

Lemma caret_tilde_meaning_witness :
  let v := ExtendedVersion_from (mkVersion [0; 3; 2]%N []) in
  exists rc, caret v = Done rc /\ satisfies (ExtendedVersion_from (mkVersion [0; 3; 9]%N [])) rc = true.
Proof.
  intros v. destruct (caret_tilde_meaning v) as (rc & rt & Hc & _ & Hx); [done| |done|].
  { repeat constructor. }
  exists rc. split; [done|]. apply Hx; [done|done|]. split_and!; [done|by vm_compute|].
  intros j Hj. change (j <= 1) in Hj. destruct j as [|[|j]]; [done|done|lia].
Defined.

(** A release declaring one version satisfies a range exactly when the
    version does, an empty release satisfies none, a negated range needs that no
    declared version satisfies its operand, and [reduce] does not change the
    answer. *)
Theorem release_matching (r a : VersionRange) (v : ExtendedVersion) (vs : list ExtendedVersion) :
  satisfied_by_release r [v] = satisfies v r
  /\ satisfied_by_release r [] = false
  /\ satisfied_by_release (VersionRange_reduce r) vs = satisfied_by_release r vs
  /\ match a with
     | Not _ | Anchor (Err Eq) _ => True
     | _ => satisfied_by_release (Not a) vs
            = (negb (is_empty vs) && negb (existsb (fun v => satisfies v a) vs))
     end
  /\ length (release_matches r vs false) = length vs.
Proof.
  unfold satisfied_by_release. split_and!.
  - rewrite release_single. simpl. rewrite orb_false_r. by destruct (satisfies v r).
  - pose proof (release_len r [] false) as Hl. by destruct (release_matches r [] false).
  - by rewrite release_reduce.
  - assert (forall b, existsb id (replicate (length vs) b) = (negb (is_empty vs) && b)) as Hr.
    { intros b. destruct vs as [|w vs]; [done|]. simpl. destruct b; [done|]. by induction vs. }
    destruct a as [[[]|[]] w| | | | | |]; try done; apply Hr.
  - apply release_len.
Qed.
