(* ===== verification/ExSat.v ===== *)
(** * Satisfiability of version ranges

    [shared-libs/crates/exver/src/exver.rs], module [sat] (lines 696-940) and
    [satisfiable], [intersects] (645-653).  A range becomes a truth table over the version
    line for each part of a partition of the flavors.  [a.values\[i\]] panics out
    of range, so [zip] and what calls it are [outcome]s; the proofs show that no
    call panics.

    In [Table_zip] the loop's indices [i] and [j] are what is left of the two
    tables from there, and the vectors of [c] are kept in reverse, so that
    [last], [push] and [pop] act on the head. *)
From stdpp Require Import sorting.
From S2P Require Import Prelude RustStr BTree ExVersion ExRange.

Local Open Scope rust_scope.

(** [Option<InternedString>] with its order. *)
Definition flavor_cmp : option str -> option str -> comparison := option_cmp str_cmp.

Inductive FlavorAtom : Type :=
| IsFlavor (f : option str)
| FlavorNot (set : list (option str)).

#[export] Instance FlavorAtom_eq_dec : EqDecision FlavorAtom.
Proof. solve_decision. Defined.

(** [#\[derive(Ord)\]] *)
Definition FlavorAtom_cmp (a b : FlavorAtom) : comparison :=
  match a, b with
  | IsFlavor x, IsFlavor y => flavor_cmp x y
  | FlavorNot x, FlavorNot y => list_cmp flavor_cmp x y
  | IsFlavor _, FlavorNot _ => Lt
  | FlavorNot _, IsFlavor _ => Gt
  end.

Definition FlavorAtom_and (a b : FlavorAtom) : option FlavorAtom :=
  match a, b with
  | IsFlavor fa, IsFlavor fb => if bool_decide (fa = fb) then Some (IsFlavor fa) else None
  | IsFlavor f, FlavorNot set | FlavorNot set, IsFlavor f =>
      if BTreeSet_contains flavor_cmp f set then None else Some (IsFlavor f)
  | FlavorNot sa, FlavorNot sb => Some (FlavorNot (BTreeSet_collect flavor_cmp (sa ++ sb)))
  end.

Record Point : Type := mkPoint { p_upstream : Version; p_downstream : Version; side : Z }.

Definition Point_cmp (a b : Point) : comparison :=
  then_with (Version_cmp (p_upstream a) (p_upstream b))
    (then_with (Version_cmp (p_downstream a) (p_downstream b)) (Z.compare (side a) (side b))).

Record Table : Type := mkTable { points : list Point; values : list bool }.

Definition Table_from_value (v : bool) : Table := mkTable [] [v].

Definition Table_from_split (point : Point) (l r : bool) : Table := mkTable [point] [l; r].

(** [if c.values.last() == Some(next) { c.points.pop() } else { c.values.push(next) }] *)
Definition zip_push (next : bool) (cp : list Point) (cv : list bool) : list Point * list bool :=
  match cv with
  | last :: _ => if Bool.eqb last next then (drop 1 cp, cv) else (cp, next :: cv)
  | [] => (cp, next :: cv)
  end.

Section zip.
Variable f : bool -> bool -> bool.

Fixpoint zip_loop (ap : list Point) : list bool -> list Point -> list bool ->
    list Point -> list bool -> outcome Table :=
  fix inner (av : list bool) (bp : list Point) (bv : list bool) (cp : list Point) (cv : list bool)
      {struct bp} : outcome Table :=
    match av, bv with
    | va :: av', vb :: bv' =>
        let '(cp, cv) := zip_push (f va vb) cp cv in
        match ap, bp with
        | [], [] => Done (mkTable (rev cp) (rev cv))
        | [], pb :: bp' => inner av bp' bv' (pb :: cp) cv
        | pa :: ap', [] => zip_loop ap' av' bp bv (pa :: cp) cv
        | pa :: ap', pb :: bp' =>
            match Point_cmp pa pb with
            | Lt => zip_loop ap' av' bp bv (pa :: cp) cv
            | Gt => inner av bp' bv' (pb :: cp) cv
            | Eq => zip_loop ap' av' bp' bv' (pa :: cp) cv
            end
        end
    | _, _ => Panic
    end.

Definition Table_zip (a b : Table) : outcome Table :=
  zip_loop (points a) (values a) (points b) (values b) [] [].
End zip.

Inductive Tables : Type :=
| TTrue
| TFalse
| TMap (m : list (FlavorAtom * Table)).

Definition Tables_eq_flavor (f : option str) : Tables :=
  let m := BTreeMap_insert FlavorAtom_cmp (IsFlavor f) (Table_from_value true) [] in
  let not_set := BTreeSet_insert flavor_cmp f [] in
  TMap (BTreeMap_insert FlavorAtom_cmp (FlavorNot not_set) (Table_from_value false) m).

Definition Tables_cmp (version : ExtendedVersion) (side : Z) (l r : bool) : Tables :=
  let point := mkPoint (upstream version) (downstream version) side in
  let m := BTreeMap_insert FlavorAtom_cmp (IsFlavor (flavor version)) (Table_from_split point l r) [] in
  let not_set := BTreeSet_insert flavor_cmp (flavor version) [] in
  TMap (BTreeMap_insert FlavorAtom_cmp (FlavorNot not_set) (Table_from_value false) m).

Definition Table_not (t : Table) : Table := mkTable (points t) (map negb (values t)).

Definition Tables_not (t : Tables) : Tables :=
  match t with
  | TTrue => TFalse
  | TFalse => TTrue
  | TMap m => TMap (map (fun kt => (kt.1, Table_not kt.2)) m)
  end.

(** The body of the two nested loops of [and]. *)
Definition and_step (out : list (FlavorAtom * Table)) (ea eb : FlavorAtom * Table)
    : outcome (list (FlavorAtom * Table)) :=
  match FlavorAtom_and ea.1 eb.1 with
  | None => Done out
  | Some flavor =>
      let* combined := Table_zip andb ea.2 eb.2 in
      match BTreeMap_remove FlavorAtom_cmp flavor out with
      | (out', Some prev) =>
          let* merged := Table_zip orb prev combined in
          Done (BTreeMap_insert FlavorAtom_cmp flavor merged out')
      | (out', None) => Done (BTreeMap_insert FlavorAtom_cmp flavor combined out')
      end
  end.

Fixpoint and_inner (out : list (FlavorAtom * Table)) (ea : FlavorAtom * Table)
    (bm : list (FlavorAtom * Table)) : outcome (list (FlavorAtom * Table)) :=
  match bm with
  | [] => Done out
  | eb :: r => let* out' := and_step out ea eb in and_inner out' ea r
  end.

Fixpoint and_outer (out : list (FlavorAtom * Table)) (am bm : list (FlavorAtom * Table))
    : outcome (list (FlavorAtom * Table)) :=
  match am with
  | [] => Done out
  | ea :: r => let* out' := and_inner out ea bm in and_outer out' r bm
  end.

Definition Tables_and (a b : Tables) : outcome Tables :=
  match a, b with
  | TTrue, x => Done x
  | x, TTrue => Done x
  | TFalse, _ => Done TFalse
  | _, TFalse => Done TFalse
  | TMap am, TMap bm => let* out := and_outer [] am bm in Done (TMap out)
  end.

Definition Tables_or (a b : Tables) : outcome Tables :=
  let* t := Tables_and (Tables_not a) (Tables_not b) in Done (Tables_not t).

Definition Tables_satisfiable (t : Tables) : bool :=
  match t with
  | TTrue => true
  | TFalse => false
  | TMap m => existsb (fun kt => existsb id (values kt.2)) m
  end.

Fixpoint tables_of (range : VersionRange) : outcome Tables :=
  match range with
  | Any => Done TTrue
  | None_ => Done TFalse
  | Flavor f => Done (Tables_eq_flavor f)
  | Not a => let* t := tables_of a in Done (Tables_not t)
  | And a b => let* ta := tables_of a in let* tb := tables_of b in Tables_and ta tb
  | Or a b => let* ta := tables_of a in let* tb := tables_of b in Tables_or ta tb
  | Anchor op v =>
      match op with
      | Ok Eq => Tables_and (Tables_cmp v (-1) false true) (Tables_cmp v 1 true false)
      | Err Eq =>
          let* t := Tables_and (Tables_cmp v (-1) false true) (Tables_cmp v 1 true false) in
          Done (Tables_not t)
      | Ok Lt => Done (Tables_cmp v (-1) true false)
      | Err Gt => Done (Tables_cmp v 1 true false)
      | Ok Gt => Done (Tables_cmp v 1 false true)
      | Err Lt => Done (Tables_cmp v (-1) false true)
      end
  end.

(** [VersionRange::satisfiable] and [VersionRange::intersects] *)
Definition satisfiable (r : VersionRange) : outcome bool :=
  let* t := tables_of r in Done (Tables_satisfiable t).

Definition intersects (a b : VersionRange) : outcome bool :=
  let* ta := tables_of a in
  let* tb := tables_of b in
  let* t := Tables_and ta tb in
  Done (Tables_satisfiable t).

(** ** Lemmas: tables as functions on the version line *)

(** The value of the segment that holds the point [x]. *)
Fixpoint eval (ps : list Point) (vs : list bool) (x : Point) : bool :=
  match ps, vs with
  | p :: ps', v :: vs' => if is_lt (Point_cmp p x) then eval ps' vs' x else v
  | [], v :: _ => v
  | _, [] => false
  end.

Definition Table_eval (t : Table) (x : Point) : bool := eval (points t) (values t) x.

Abbreviation points_sorted := (StronglySorted (keys_lt Point_cmp)).

Definition table_wf (t : Table) : Prop :=
  points_sorted (points t) /\ length (values t) = S (length (points t)).

#[export] Instance Point_cmp_ord : OrdCmp Point_cmp.
Proof.
  apply (key_cmp_ord (pair_cmp Version_cmp (pair_cmp Version_cmp Z.compare))
    (fun p => (p_upstream p, (p_downstream p, side p)))); [apply _|done].
Qed.

Lemma eval_below ps v vs x : Forall (fun p => is_lt (Point_cmp p x) = false) ps ->
  eval ps (v :: vs) x = v.
Proof. intros HF. destruct HF as [|p ps Hp]; simpl; [done|]. by rewrite Hp. Qed.

(** A point that is not below [x] has only such points after it. *)
Lemma above_not_below q x ps : is_lt (Point_cmp q x) = false -> Forall (keys_lt Point_cmp q) ps ->
  Forall (fun p => is_lt (Point_cmp p x) = false) ps.
Proof.
  intros Hq HF. eapply Forall_impl; [done|]. intros p Hp. unfold keys_lt in Hp.
  destruct (Point_cmp p x) eqn:E; [done| |done]. by rewrite (cmp_lt_trans Point_cmp _ _ _ Hp E) in Hq.
Qed.

Lemma zip_loop_eq f ap av bp bv cp cv : zip_loop f ap av bp bv cp cv =
  match av, bv with
  | va :: av', vb :: bv' =>
      let '(cp, cv) := zip_push (f va vb) cp cv in
      match ap, bp with
      | [], [] => Done (mkTable (rev cp) (rev cv))
      | [], pb :: bp' => zip_loop f [] av bp' bv' (pb :: cp) cv
      | pa :: ap', [] => zip_loop f ap' av' bp bv (pa :: cp) cv
      | pa :: ap', pb :: bp' =>
          match Point_cmp pa pb with
          | Lt => zip_loop f ap' av' bp bv (pa :: cp) cv
          | Gt => zip_loop f ap av bp' bv' (pb :: cp) cv
          | Eq => zip_loop f ap' av' bp' bv' (pa :: cp) cv
          end
      end
  | _, _ => Panic
  end.
Proof. destruct ap, bp; done. Qed.

(** The result of the loop appends [ps], [vs] to what [zip_push] has left; seen
    from the last value pushed they are the pointwise combination. *)
Definition zips (f : bool -> bool -> bool) (ap : list Point) (av : list bool)
    (bp : list Point) (bv : list bool) (next : bool) (cp : list Point) (cv : list bool)
    (res : outcome Table) : Prop :=
  exists ps vs, res = Done (mkTable (rev cp ++ ps) (rev cv ++ vs))
    /\ length ps = length vs /\ points_sorted ps
    /\ (forall P : Point -> Prop, Forall P ap -> Forall P bp -> Forall P ps)
    /\ forall x, eval ps (next :: vs) x = f (eval ap av x) (eval bp bv x).

(** One step of the loop: [q] is the boundary passed, [a1], [b1] what is left. *)
Lemma zip_advance f ap av bp bv ap1 av1 bp1 bv1 q next next1 cp cv res :
  next = f (hd false av) (hd false bv) ->
  Forall (keys_lt Point_cmp q) ap1 -> Forall (keys_lt Point_cmp q) bp1 ->
  (forall P : Point -> Prop, Forall P ap -> Forall P bp -> P q /\ Forall P ap1 /\ Forall P bp1) ->
  (forall x, if is_lt (Point_cmp q x) then eval ap av x = eval ap1 av1 x /\ eval bp bv x = eval bp1 bv1 x
             else eval ap av x = hd false av /\ eval bp bv x = hd false bv) ->
  (let '(cp1, cv1) := zip_push next1 (q :: cp) (next :: cv) in
   zips f ap1 av1 bp1 bv1 next1 cp1 cv1 res) ->
  zips f ap av bp bv next cp (next :: cv) res.
Proof.
  intros Hn Ha Hb HP Hev. unfold zip_push. destruct (Bool.eqb next next1) eqn:E.
  - apply eqb_prop in E as ->. simpl drop. intros (ps & vs & -> & Hl & Hs & HF & He).
    exists ps, vs. split_and!; [done|done|done| |].
    + intros P H1 H2. destruct (HP P H1 H2) as (_ & H3 & H4). by apply HF.
    + intros x. specialize (Hev x). destruct (is_lt (Point_cmp q x)) eqn:Eq.
      * destruct Hev as [-> ->]. apply He.
      * destruct Hev as [-> ->]. rewrite eval_below; [done|].
        apply HF; by eapply above_not_below.
  - intros (ps & vs & -> & Hl & Hs & HF & He). exists (q :: ps), (next1 :: vs). split_and!.
    + simpl. by rewrite <- !app_assoc.
    + simpl. by rewrite Hl.
    + constructor; [done|]. by apply HF.
    + intros P H1 H2. destruct (HP P H1 H2) as (H3 & H4 & H5). constructor; [done|]. by apply HF.
    + intros x. specialize (Hev x). cbn [eval]. destruct (is_lt (Point_cmp q x)) eqn:Eq.
      * destruct Hev as [-> ->]. apply He.
      * destruct Hev as [-> ->]. done.
Qed.

Lemma zip_loop_spec f ap av bp bv cp cv :
  points_sorted ap -> points_sorted bp ->
  length av = S (length ap) -> length bv = S (length bp) ->
  let next := f (hd false av) (hd false bv) in
  let '(cp', cv') := zip_push next cp cv in
  zips f ap av bp bv next cp' cv' (zip_loop f ap av bp bv cp cv).
Proof.
  remember (length ap + length bp) as n eqn:En.
  revert ap av bp bv cp cv En. induction n as [n IH] using lt_wf_ind.
  intros ap av bp bv cp cv En Sa Sb La Lb. rewrite zip_loop_eq.
  destruct av as [|va av], bv as [|vb bv]; try done. simpl hd. cbn zeta.
  assert (exists cp' cv0, zip_push (f va vb) cp cv = (cp', f va vb :: cv0)) as (cp' & cv0 & ->).
  { unfold zip_push. destruct cv as [|l cv]; [eauto|]. destruct (Bool.eqb l (f va vb)) eqn:E; [|eauto].
    apply eqb_prop in E as ->. eauto. }
  simpl in La, Lb. injection La as La. injection Lb as Lb.
  destruct ap as [|pa ap], bp as [|pb bp].
  - exists [], []. rewrite !app_nil_r. split_and!; [done|done|constructor|done|done].
  - inversion Sb as [|? ? Sb' Hb]; subst.
    eapply (zip_advance f [] (va :: av) (pb :: bp) (vb :: bv) [] (va :: av) bp bv pb); [done|done|done| | |].
    + intros P H1 H2. inversion H2; subst. done.
    + intros x. cbn [eval hd]. by destruct (is_lt (Point_cmp pb x)).
    + refine (IH _ _ [] (va :: av) bp bv (pb :: cp') (f va vb :: cv0) eq_refl _ _ _ _); simpl in *; done || lia.
  - inversion Sa as [|? ? Sa' Ha]; subst.
    eapply (zip_advance f (pa :: ap) (va :: av) [] (vb :: bv) ap av [] (vb :: bv) pa); [done|done|done| | |].
    + intros P H1 H2. inversion H1; subst. done.
    + intros x. cbn [eval hd]. by destruct (is_lt (Point_cmp pa x)).
    + refine (IH _ _ ap av [] (vb :: bv) (pa :: cp') (f va vb :: cv0) eq_refl _ _ _ _); simpl in *; done || lia.
  - inversion Sa as [|? ? Sa' Ha]; inversion Sb as [|? ? Sb' Hb]; subst.
    destruct (Point_cmp pa pb) eqn:Ec.
    + eapply (zip_advance f (pa :: ap) (va :: av) (pb :: bp) (vb :: bv) ap av bp bv pa); [done|done| | | |].
      * eapply Forall_impl; [done|]. intros p Hp. unfold keys_lt in *. by rewrite (cmp_eq_l Point_cmp _ _ _ Ec).
      * intros P H1 H2. inversion H1; inversion H2; subst. done.
      * intros x. cbn [eval hd]. rewrite <- (cmp_eq_l Point_cmp _ _ x Ec).
        by destruct (is_lt (Point_cmp pa x)).
      * refine (IH _ _ ap av bp bv (pa :: cp') (f va vb :: cv0) eq_refl _ _ _ _); simpl in *; done || lia.
    + assert (Forall (keys_lt Point_cmp pa) (pb :: bp)) as Hab.
      { constructor; [done|]. eapply Forall_impl; [done|]. intros p Hp. by eapply (cmp_lt_trans Point_cmp). }
      eapply (zip_advance f (pa :: ap) (va :: av) (pb :: bp) (vb :: bv) ap av (pb :: bp) (vb :: bv) pa);
        [done|done|done| | |].
      * intros P H1 H2. inversion H1; subst. done.
      * intros x. cbn [eval hd]. destruct (is_lt (Point_cmp pa x)) eqn:Ex; [done|]. split; [done|].
        pose proof (above_not_below _ _ _ Ex Hab) as HF. inversion HF as [|? ? Hx]; subst. by rewrite Hx.
      * refine (IH _ _ ap av (pb :: bp) (vb :: bv) (pa :: cp') (f va vb :: cv0) eq_refl _ _ _ _);
          simpl in *; done || lia.
    + apply (cmp_gt_lt Point_cmp) in Ec.
      assert (Forall (keys_lt Point_cmp pb) (pa :: ap)) as Hab.
      { constructor; [done|]. eapply Forall_impl; [done|]. intros p Hp. by eapply (cmp_lt_trans Point_cmp). }
      eapply (zip_advance f (pa :: ap) (va :: av) (pb :: bp) (vb :: bv) (pa :: ap) (va :: av) bp bv pb);
        [done|done|done| | |].
      * intros P H1 H2. inversion H2; subst. done.
      * intros x. cbn [eval hd]. destruct (is_lt (Point_cmp pb x)) eqn:Ex; [done|]. split; [|done].
        pose proof (above_not_below _ _ _ Ex Hab) as HF. inversion HF as [|? ? Hx]; subst. by rewrite Hx.
      * refine (IH _ _ (pa :: ap) (va :: av) bp bv (pb :: cp') (f va vb :: cv0) eq_refl _ _ _ _);
          simpl in *; done || lia.
Qed.

(** [zip] never panics and combines pointwise. *)
Lemma Table_zip_spec f a b : table_wf a -> table_wf b ->
  exists c, Table_zip f a b = Done c /\ table_wf c /\
    forall x, Table_eval c x = f (Table_eval a x) (Table_eval b x).
Proof.
  intros [Sa La] [Sb Lb].
  destruct (zip_loop_spec f (points a) (values a) (points b) (values b) [] [] Sa Sb La Lb)
    as (ps & vs & E & Hl & Hs & _ & He).
  unfold Table_zip. rewrite E. eexists. split; [done|]. split.
  - split; simpl; [done|]. by rewrite Hl.
  - intros x. unfold Table_eval. simpl. apply He.
Qed.

(** ** Lemmas: flavor atoms *)

#[export] Instance flavor_cmp_ord : OrdCmp flavor_cmp.
Proof. apply _. Qed.

Lemma flavor_cmp_eq a b : flavor_cmp a b = Eq <-> a = b.
Proof.
  destruct a as [a|], b as [b|]; simpl; try done. rewrite str_cmp_eq. split; [by intros ->|by intros [= ->]].
Qed.

#[export] Instance FlavorAtom_cmp_ord : OrdCmp FlavorAtom_cmp.
Proof.
  apply (key_cmp_ord (pair_cmp bool_cmp (list_cmp flavor_cmp))
    (fun a => match a with IsFlavor f => (false, [f]) | FlavorNot s => (true, s) end)); [apply _|].
  intros [x|x] [y|y]; try done. unfold pair_cmp. simpl. by destruct (flavor_cmp x y).
Qed.

Lemma FlavorAtom_cmp_eq a b : FlavorAtom_cmp a b = Eq <-> a = b.
Proof.
  destruct a as [a|a], b as [b|b]; simpl; try done.
  - rewrite flavor_cmp_eq. split; [by intros ->|by intros [= ->]].
  - rewrite (list_cmp_eq flavor_cmp) by apply flavor_cmp_eq. split; [by intros ->|by intros [= ->]].
Qed.

Definition atom_matches (a : FlavorAtom) (f : option str) : Prop :=
  match a with IsFlavor g => f = g | FlavorNot set => f ∉ set end.

#[export] Instance atom_matches_dec a f : Decision (atom_matches a f).
Proof. destruct a; simpl; apply _. Defined.

(** The conjunction of two atoms is empty or an atom that holds of the flavors
    both hold of. *)
Lemma FlavorAtom_and_spec a b f :
  match FlavorAtom_and a b with
  | Some c => atom_matches c f <-> atom_matches a f /\ atom_matches b f
  | None => ¬ (atom_matches a f /\ atom_matches b f)
  end.
Proof.
  assert (forall g set, BTreeSet_contains flavor_cmp g set = true <-> g ∈ set) as Hc.
  { intros. apply BTreeSet_contains_spec; [apply _|apply flavor_cmp_eq]. }
  destruct a as [x|x], b as [y|y]; simpl.
  - case_bool_decide; simpl; intuition congruence.
  - specialize (Hc x y). destruct (BTreeSet_contains flavor_cmp x y); simpl.
    + intros [-> Hy]. by apply Hy, Hc.
    + split; [|by intros []]. intros ->. split; [done|]. by intros Hx%Hc.
  - specialize (Hc y x). destruct (BTreeSet_contains flavor_cmp y x); simpl.
    + intros [Hx ->]. by apply Hx, Hc.
    + split; [|by intros []]. intros ->. split; [|done]. by intros Hx%Hc.
  - rewrite (elem_of_BTreeSet_collect flavor_cmp flavor_cmp_eq), not_elem_of_app. done.
Qed.

(** ** Lemmas: tables as predicates on versions *)

Definition version_point (v : ExtendedVersion) : Point := mkPoint (upstream v) (downstream v) 0.

Definition entry_holds (v : ExtendedVersion) (e : FlavorAtom * Table) : bool :=
  bool_decide (atom_matches e.1 (flavor v)) && Table_eval e.2 (version_point v).

Definition Tables_eval (t : Tables) (v : ExtendedVersion) : bool :=
  match t with
  | TTrue => true
  | TFalse => false
  | TMap m => existsb (entry_holds v) m
  end.

(** The atoms of the map partition the flavors. *)
Definition partition (m : list (FlavorAtom * Table)) : Prop :=
  forall f, exists e, e ∈ m /\ atom_matches e.1 f /\ forall e', e' ∈ m -> atom_matches e'.1 f -> e' = e.

Definition map_ok (m : list (FlavorAtom * Table)) : Prop :=
  BTreeMap_wf FlavorAtom_cmp m /\ (forall e, e ∈ m -> table_wf e.2).

Definition tables_wf (t : Tables) : Prop :=
  match t with TMap m => map_ok m /\ partition m | _ => True end.

Lemma map_key_unique (m : list (FlavorAtom * Table)) k t t' : BTreeMap_wf FlavorAtom_cmp m ->
  (k, t) ∈ m -> (k, t') ∈ m -> t = t'.
Proof.
  intros Hw%(sorted_NoDup FlavorAtom_cmp). induction m as [|[k0 t0] m IH]; [by intros ?%elem_of_nil|].
  simpl in Hw. apply NoDup_cons in Hw as [Hni Hw].
  assert (forall u, (k0, u) ∉ m) as Hn.
  { intros u Hu. apply Hni, list_elem_of_In, in_map_iff. exists (k0, u). split; [done|by apply list_elem_of_In]. }
  rewrite !elem_of_cons. intros [E1|H1] [E2|H2]; simplify_eq; try done;
    [by apply Hn in H2|by apply Hn in H1|eauto].
Qed.

Lemma existsb_true {A} (P : A -> bool) l : existsb P l = true <-> exists x, x ∈ l /\ P x = true.
Proof. rewrite existsb_exists. by setoid_rewrite list_elem_of_In. Qed.

Lemma eval_not ps vs x : length vs = S (length ps) -> eval ps (map negb vs) x = negb (eval ps vs x).
Proof.
  revert vs. induction ps as [|p ps IH]; intros [|v vs] Hl; try done; simpl in *.
  destruct (is_lt (Point_cmp p x)); [|done]. apply IH. lia.
Qed.

Lemma Tables_not_spec t v : tables_wf t ->
  tables_wf (Tables_not t) /\ Tables_eval (Tables_not t) v = negb (Tables_eval t v).
Proof.
  destruct t as [| |m]; simpl; [done|done|]. intros [[Hw Ht] Hp].
  set (g := fun kt : FlavorAtom * Table => (kt.1, Table_not kt.2)).
  assert (forall e', e' ∈ map g m <-> exists e, e ∈ m /\ e' = g e) as Hin.
  { intros e'. rewrite list_elem_of_In, in_map_iff. setoid_rewrite list_elem_of_In.
    split; intros (e & H1 & H2); eauto. }
  split; [split; [split|]|].
  - unfold BTreeMap_wf in *. rewrite map_map. done.
  - intros e' (e & He & ->)%Hin. destruct (Ht e He) as [H1 H2]. split; simpl; [done|]. by rewrite length_map.
  - intros f. destruct (Hp f) as (e & He & Hm & Hu). exists (g e). split_and!; [apply Hin; eauto|done|].
    intros e' (e0 & He0 & ->)%Hin Hm0. by rewrite (Hu e0 He0 Hm0).
  - destruct (Hp (flavor v)) as (e & He & Hm & Hu).
    assert (forall e0, e0 ∈ m -> entry_holds v e0 = true <-> e0 = e /\ Table_eval e.2 (version_point v) = true) as H0.
    { intros e0 He0. unfold entry_holds. rewrite andb_true_iff, bool_decide_eq_true. split.
      - intros [H1 H2]. rewrite (Hu e0 He0 H1) in *. done.
      - by intros [-> ?]. }
    assert (Table_eval (g e).2 (version_point v) = negb (Table_eval e.2 (version_point v))) as Hneg.
    { apply eval_not. exact (proj2 (Ht e He)). }
    apply eq_true_iff_eq. rewrite negb_true_iff, <- not_true_iff_false, !existsb_true. split.
    + intros (e' & (e0 & He0 & ->)%Hin & H1) (e1 & He1 & H2). apply H0 in H2 as [-> H2]; [|done].
      unfold entry_holds in H1. apply andb_true_iff in H1 as [H1 H3]. bool_to_prop. simpl in H1.
      rewrite (Hu e0 He0 H1), Hneg, H2 in H3. done.
    + intros Hno. exists (g e). split; [apply Hin; eauto|]. unfold entry_holds.
      rewrite andb_true_iff, bool_decide_eq_true, Hneg. split; [done|].
      destruct (Table_eval e.2 (version_point v)) eqn:E; [|done]. exfalso. apply Hno. exists e.
      split; [done|]. by apply H0.
Qed.

(** ** Lemmas: conjunction *)

(** [out] represents the conjunctions of the pairs [L] gone through so far. *)
Record represents (out : list (FlavorAtom * Table)) (L : list ((FlavorAtom * Table) * (FlavorAtom * Table)))
    : Prop := {
  rep_ok : map_ok out;
  rep_from : forall k t, (k, t) ∈ out -> exists p, p ∈ L /\ FlavorAtom_and p.1.1 p.2.1 = Some k;
  rep_all : forall p k, p ∈ L -> FlavorAtom_and p.1.1 p.2.1 = Some k -> exists t, (k, t) ∈ out;
  rep_eval : forall v, existsb (entry_holds v) out
    = existsb (fun p => entry_holds v p.1 && entry_holds v p.2) L;
}.

Lemma entry_and v ea eb k c : FlavorAtom_and ea.1 eb.1 = Some k ->
  Table_eval c (version_point v)
    = (Table_eval ea.2 (version_point v) && Table_eval eb.2 (version_point v)) ->
  entry_holds v (k, c) = (entry_holds v ea && entry_holds v eb).
Proof.
  intros Hk Hc. pose proof (FlavorAtom_and_spec ea.1 eb.1 (flavor v)) as Hs. rewrite Hk in Hs.
  unfold entry_holds. simpl. rewrite Hc, (bool_decide_ext _ _ Hs), bool_decide_and.
  by destruct (bool_decide _), (bool_decide _), (Table_eval ea.2 _), (Table_eval eb.2 _).
Qed.

Lemma entry_none v ea eb : FlavorAtom_and ea.1 eb.1 = None ->
  entry_holds v ea && entry_holds v eb = false.
Proof.
  intros Hk. pose proof (FlavorAtom_and_spec ea.1 eb.1 (flavor v)) as Hs. rewrite Hk in Hs.
  unfold entry_holds. destruct (bool_decide (atom_matches ea.1 _)) eqn:E1,
    (bool_decide (atom_matches eb.1 _)) eqn:E2; simpl; rewrite ?andb_false_r; try done.
  bool_to_prop. by destruct Hs.
Qed.

(** Putting [c] under a key that [out'] lacks. *)
Lemma represents_insert out L ea eb k c out' : represents out L ->
  FlavorAtom_and ea.1 eb.1 = Some k -> table_wf c ->
  BTreeMap_wf FlavorAtom_cmp out' ->
  (forall x w, (x, w) ∈ out' <-> x ≠ k /\ (x, w) ∈ out) ->
  (forall v, entry_holds v (k, c) =
     (existsb (fun e => bool_decide (e.1 = k) && entry_holds v e) out)
     || (entry_holds v ea && entry_holds v eb)) ->
  represents (BTreeMap_insert FlavorAtom_cmp k c out') (L ++ [(ea, eb)]).
Proof.
  intros [[Hw Ht] Hfrom Hall Hev] Hk Hc Hw' Hin Hkc.
  assert (forall x w, (x, w) ∈ BTreeMap_insert FlavorAtom_cmp k c out' <->
    (x = k /\ w = c) \/ (x ≠ k /\ (x, w) ∈ out)) as Hins.
  { intros x w. rewrite (map_insert_elem FlavorAtom_cmp FlavorAtom_cmp_eq) by done.
    rewrite Hin. intuition. }
  split.
  - split; [by apply (map_insert_wf FlavorAtom_cmp FlavorAtom_cmp_eq)|].
    intros [x w] [[-> ->]|[_ H]]%Hins; [done|]. by apply Ht in H.
  - intros x w [[-> ->]|[_ H]]%Hins.
    + exists (ea, eb). split; [apply elem_of_app; right; by left|done].
    + destruct (Hfrom x w H) as (p & Hp & Hpk). exists p. split; [apply elem_of_app; by left|done].
  - intros p x [Hp|Hp%list_elem_of_singleton]%elem_of_app Hx.
    + destruct (decide (x = k)) as [->|Hne]; [exists c; apply Hins; by left|].
      destruct (Hall p x Hp Hx) as [w H]. exists w. apply Hins. by right.
    + subst p. simpl in Hx. rewrite Hk in Hx. injection Hx as <-. exists c. apply Hins. by left.
  - intros v. rewrite existsb_app, <- Hev. simpl. rewrite orb_false_r.
    apply eq_true_iff_eq. rewrite orb_true_iff, !existsb_true. split.
    + intros ([x w] & [[-> ->]|[Hne H]]%Hins & He); [|left; eauto].
      rewrite Hkc in He. apply orb_true_iff in He as [He|He]; [left|by right].
      apply existsb_true in He as (e & He & H2). apply andb_true_iff in H2 as [_ H2]. eauto.
    + intros [([x w] & H & He)|He].
      * destruct (decide (x = k)) as [->|Hne].
        -- exists (k, c). split; [apply Hins; by left|]. rewrite Hkc. apply orb_true_iff. left.
           apply existsb_true. exists (k, w). split; [done|]. rewrite bool_decide_true by done. done.
        -- exists (x, w). split; [apply Hins; by right|done].
      * exists (k, c). split; [apply Hins; by left|]. rewrite Hkc, He. apply orb_true_r.
Qed.

Lemma and_step_spec out L ea eb : represents out L -> table_wf ea.2 -> table_wf eb.2 ->
  exists out', and_step out ea eb = Done out' /\ represents out' (L ++ [(ea, eb)]).
Proof.
  intros HR Ha Hb. unfold and_step. destruct (FlavorAtom_and ea.1 eb.1) as [k|] eqn:Hk.
  2:{ exists out. split; [done|]. destruct HR as [Hok Hfrom Hall Hev]. split; [done|..].
      - intros x w H. destruct (Hfrom x w H) as (p & Hp & Hpk). exists p.
        split; [apply elem_of_app; by left|done].
      - intros p x [Hp|Hp%list_elem_of_singleton]%elem_of_app Hx; [eauto|]. subst p. simpl in Hx. congruence.
      - intros v. rewrite existsb_app, <- Hev. simpl. by rewrite (entry_none v ea eb Hk), orb_false_r. }
  destruct (Table_zip_spec andb ea.2 eb.2 Ha Hb) as (c & -> & Hwc & Hec). cbn [outcome_bind].
  pose proof (map_remove_spec FlavorAtom_cmp FlavorAtom_cmp_eq k out (proj1 (rep_ok _ _ HR))) as Hrem.
  destruct (BTreeMap_remove FlavorAtom_cmp k out) as [out' o]. destruct Hrem as (Hw' & Hin & Ho & _).
  pose proof (rep_ok _ _ HR) as [Hw Ht].
  assert (forall v w, o = Some w -> existsb (fun e => bool_decide (e.1 = k) && entry_holds v e) out
    = entry_holds v (k, w)) as Hkey.
  { intros v w Hw0%Ho. apply eq_true_iff_eq. rewrite existsb_true. split.
    - intros ([x u] & H1 & H2). apply andb_true_iff in H2 as [H2 H3]. bool_to_prop. simpl in H2. subst x.
      by rewrite (map_key_unique out k w u Hw Hw0 H1).
    - intros He. exists (k, w). split; [done|]. by rewrite bool_decide_true. }
  destruct o as [prev|].
  - assert (table_wf prev) as Hwp by (apply (Ht (k, prev)); by apply Ho).
    destruct (Table_zip_spec orb prev c Hwp Hwc) as (d & -> & Hwd & Hed). cbn [outcome_bind].
    eexists. split; [done|]. eapply represents_insert; try done. intros v.
    rewrite (Hkey v prev eq_refl), <- (entry_and v ea eb k c Hk (Hec _)).
    unfold entry_holds. simpl. rewrite Hed. by destruct (bool_decide _).
  - eexists. split; [done|]. eapply represents_insert; try done. intros v.
    rewrite (entry_and v ea eb k c Hk (Hec _)).
    assert (existsb (fun e => bool_decide (e.1 = k) && entry_holds v e) out = false) as ->; [|done].
    apply not_true_iff_false. rewrite existsb_true. intros ([x u] & H1 & H2).
    apply andb_true_iff in H2 as [H2 _]. bool_to_prop. simpl in H2. subst x.
    by apply Ho in H1.
Qed.

Lemma and_inner_spec out L ea bm : represents out L -> table_wf ea.2 ->
  (forall e, e ∈ bm -> table_wf e.2) ->
  exists out', and_inner out ea bm = Done out' /\ represents out' (L ++ map (fun eb => (ea, eb)) bm).
Proof.
  revert out L. induction bm as [|eb bm IH]; intros out L HR Ha Hb; simpl.
  { exists out. by rewrite app_nil_r. }
  destruct (and_step_spec out L ea eb HR Ha (Hb eb ltac:(by left))) as (out1 & -> & HR1). cbn [outcome_bind].
  destruct (IH out1 (L ++ [(ea, eb)]) HR1 Ha) as (out2 & -> & HR2).
  { intros e He. apply Hb. by right. }
  exists out2. by rewrite <- app_assoc in HR2.
Qed.

Definition pairs (am bm : list (FlavorAtom * Table)) := am ≫= fun ea => map (fun eb => (ea, eb)) bm.

Lemma and_outer_spec out L am bm : represents out L -> (forall e, e ∈ am -> table_wf e.2) ->
  (forall e, e ∈ bm -> table_wf e.2) ->
  exists out', and_outer out am bm = Done out' /\ represents out' (L ++ pairs am bm).
Proof.
  revert out L. induction am as [|ea am IH]; intros out L HR Ha Hb; simpl.
  { exists out. by rewrite app_nil_r. }
  destruct (and_inner_spec out L ea bm HR (Ha ea ltac:(by left)) Hb) as (out1 & -> & HR1). cbn [outcome_bind].
  destruct (IH out1 _ HR1) as (out2 & -> & HR2); [|done|].
  { intros e He. apply Ha. by right. }
  exists out2. split; [done|]. unfold pairs in *. simpl. by rewrite app_assoc.
Qed.

Lemma elem_of_pairs am bm p : p ∈ pairs am bm <-> p.1 ∈ am /\ p.2 ∈ bm.
Proof.
  unfold pairs. rewrite list_elem_of_bind. split.
  - intros (ea & Hp & Ha). apply list_elem_of_In, in_map_iff in Hp as (eb & <- & Hb).
    split; [done|by apply list_elem_of_In].
  - intros [Ha Hb]. exists p.1. split; [|done]. apply list_elem_of_In, in_map_iff. exists p.2.
    split; [by destruct p|by apply list_elem_of_In].
Qed.

Lemma Tables_and_spec a b : tables_wf a -> tables_wf b ->
  exists t, Tables_and a b = Done t /\ tables_wf t /\
    forall v, Tables_eval t v = (Tables_eval a v && Tables_eval b v).
Proof.
  intros Ha Hb. destruct a as [| |am]; [by exists b| |].
  { exists TFalse. by destruct b. }
  destruct b as [| |bm]; simpl.
  { exists (TMap am). split_and!; [done|done|]. intros v. by rewrite andb_true_r. }
  { exists TFalse. split_and!; [done|done|]. intros v. by rewrite andb_false_r. }
  destruct Ha as [[Wa Ta] Pa], Hb as [[Wb Tb] Pb].
  destruct (and_outer_spec [] [] am bm) as (out & -> & HR); [|done|done|].
  { split; [split; [constructor|by intros ? ?%elem_of_nil]|by intros ? ? ?%elem_of_nil|
      by intros ? ? ?%elem_of_nil|done]. }
  cbn [outcome_bind]. exists (TMap out). simpl in HR. destruct HR as [Hok Hfrom Hall Hev].
  split; [done|]. split; [split; [done|]|].
  - intros f. destruct (Pa f) as (ea & Hea & Ma & Ua), (Pb f) as (eb & Heb & Mb & Ub).
    pose proof (FlavorAtom_and_spec ea.1 eb.1 f) as Hs.
    destruct (FlavorAtom_and ea.1 eb.1) as [k|] eqn:Hk; [|by destruct Hs].
    destruct (Hall (ea, eb) k) as [t Ht]; [by apply elem_of_pairs|done|].
    exists (k, t). split_and!; [done|by apply Hs|]. intros [k' t'] Hin Hm. simpl in Hm.
    destruct (Hfrom k' t' Hin) as ([ea' eb'] & [Ha' Hb']%elem_of_pairs & Hk'). simpl in *.
    pose proof (FlavorAtom_and_spec ea'.1 eb'.1 f) as Hs'. rewrite Hk' in Hs'. destruct (proj1 Hs' Hm) as [M1 M2].
    rewrite (Ua ea' Ha' M1), (Ub eb' Hb' M2), Hk in Hk'. injection Hk' as <-.
    by rewrite (map_key_unique out k t t' (proj1 Hok) Ht Hin).
  - intros v. simpl. rewrite Hev. apply eq_true_iff_eq. rewrite andb_true_iff, !existsb_true. split.
    + intros ([ea eb] & [H1 H2]%elem_of_pairs & [H3 H4]%andb_true_iff). split; [by exists ea|by exists eb].
    + intros [(ea & H1 & H2) (eb & H3 & H4)]. exists (ea, eb). rewrite elem_of_pairs. simpl.
      by rewrite H2, H4.
Qed.

(** ** Lemmas: ranges *)

(** The map the two constructors of tables build: one flavor and all others. *)
Lemma two_entries f t : table_wf t ->
  let m := BTreeMap_insert FlavorAtom_cmp (FlavorNot (BTreeSet_insert flavor_cmp f []))
             (Table_from_value false) (BTreeMap_insert FlavorAtom_cmp (IsFlavor f) t []) in
  tables_wf (TMap m) /\
  forall v, Tables_eval (TMap m) v = (bool_decide (flavor v = f) && Table_eval t (version_point v)).
Proof.
  intros Ht. simpl. split; [split; [split|]|].
  - repeat constructor.
  - intros e [->|[->|?%elem_of_nil]%elem_of_cons]%elem_of_cons; [done| |done].
    split; [constructor|done].
  - intros g. destruct (decide (g = f)) as [->|Hne].
    + exists (IsFlavor f, t). split_and!; [by left|done|].
      intros e [->|[->|?%elem_of_nil]%elem_of_cons]%elem_of_cons; [done| |done].
      simpl. intros []. by left.
    + exists (FlavorNot [f], Table_from_value false). split_and!.
      * right. by left.
      * simpl. by intros ?%list_elem_of_singleton.
      * intros e [->|[->|?%elem_of_nil]%elem_of_cons]%elem_of_cons; done.
  - intros v. unfold entry_holds. simpl. by rewrite andb_false_r, orb_false_r.
Qed.

Lemma Tables_eq_flavor_spec f : tables_wf (Tables_eq_flavor f) /\
  forall v, Tables_eval (Tables_eq_flavor f) v = bool_decide (flavor v = f).
Proof.
  destruct (two_entries f (Table_from_value true)) as [Hw He]; [split; [constructor|done]|].
  split; [done|]. intros v. unfold Tables_eq_flavor. rewrite He. apply andb_true_r.
Qed.

(** [Tables::cmp] puts the version at [side] of the point: below it the value is
    [l], above it [r]. *)
Lemma Tables_cmp_spec w s l r : tables_wf (Tables_cmp w s l r) /\
  forall v, Tables_eval (Tables_cmp w s l r) v =
    (bool_decide (flavor v = flavor w) &&
     if is_lt (then_with (ext_cmp w v) (Z.compare s 0)) then r else l).
Proof.
  set (p := mkPoint (upstream w) (downstream w) s).
  destruct (two_entries (flavor w) (Table_from_split p l r)) as [Hw He]; [split; [repeat constructor|done]|].
  split; [done|]. intros v. unfold Tables_cmp. fold p. rewrite He. f_equal.
  unfold Table_eval. simpl. unfold Point_cmp. simpl. unfold ext_cmp.
  by destruct (Version_cmp (upstream w) (upstream v)).
Qed.

Lemma satisfies_anchor v op w : satisfies v (Anchor op w) =
  if bool_decide (flavor v = flavor w) then op_holds op (CompOpp (ext_cmp w v)) else bool_decide (op = NEQ).
Proof.
  simpl. unfold ExtendedVersion_partial_cmp. fold (ext_cmp v w). case_bool_decide; [|done].
  by rewrite (cmp_opp ext_cmp w v).
Qed.

Lemma anchor_eq_spec w : exists t,
  Tables_and (Tables_cmp w (-1) false true) (Tables_cmp w 1 true false) = Done t /\ tables_wf t /\
  forall v, Tables_eval t v = satisfies v (Anchor EQ w).
Proof.
  destruct (Tables_cmp_spec w (-1) false true) as [W1 E1], (Tables_cmp_spec w 1 true false) as [W2 E2].
  destruct (Tables_and_spec _ _ W1 W2) as (t & -> & Ht & Et). exists t. split_and!; [done|done|].
  intros v. rewrite Et, E1, E2, satisfies_anchor. case_bool_decide; [|done].
  by destruct (ext_cmp w v).
Qed.

(** The tables of a range exist and say of every version whether it satisfies
    the range. *)
Lemma tables_of_spec r : exists t, tables_of r = Done t /\ tables_wf t /\
  forall v, Tables_eval t v = satisfies v r.
Proof.
  induction r as [op w|a (ta & Ea & Wa & Va) b (tb & Eb & Wb & Vb)
    |a (ta & Ea & Wa & Va) b (tb & Eb & Wb & Vb)|a (ta & Ea & Wa & Va)| | |f]; cbn [tables_of].
  - assert (forall s l r, (forall v, Tables_eval (Tables_cmp w s l r) v = satisfies v (Anchor op w)) ->
      exists t, Done (Tables_cmp w s l r) = Done t /\ tables_wf t /\
      forall v, Tables_eval t v = satisfies v (Anchor op w)) as Hone.
    { intros s l r Hv. eexists. split; [done|]. split; [apply Tables_cmp_spec|done]. }
    destruct op as [[]|[]].
    + apply anchor_eq_spec.
    + apply Hone. intros v. rewrite (proj2 (Tables_cmp_spec w _ _ _)), satisfies_anchor.
      case_bool_decide; [|done]. by destruct (ext_cmp w v).
    + apply Hone. intros v. rewrite (proj2 (Tables_cmp_spec w _ _ _)), satisfies_anchor.
      case_bool_decide; [|done]. by destruct (ext_cmp w v).
    + destruct (anchor_eq_spec w) as (t & -> & Ht & Et). cbn [outcome_bind]. eexists. split; [done|].
      split; [by apply (Tables_not_spec t (ExtendedVersion_from Version_default))|].
      intros v. rewrite (proj2 (Tables_not_spec t v Ht)), Et. symmetry. apply satisfies_neq.
    + apply Hone. intros v. rewrite (proj2 (Tables_cmp_spec w _ _ _)), satisfies_anchor.
      case_bool_decide; [|done]. by destruct (ext_cmp w v).
    + apply Hone. intros v. rewrite (proj2 (Tables_cmp_spec w _ _ _)), satisfies_anchor.
      case_bool_decide; [|done]. by destruct (ext_cmp w v).
  - rewrite Ea, Eb. cbn [outcome_bind]. destruct (Tables_and_spec _ _ Wa Wb) as (t & -> & Ht & Et).
    exists t. split_and!; [done|done|]. intros v. simpl. by rewrite Et, Va, Vb.
  - rewrite Ea, Eb. cbn [outcome_bind]. unfold Tables_or.
    pose proof (fun v => Tables_not_spec ta v Wa) as Na. pose proof (fun v => Tables_not_spec tb v Wb) as Nb.
    set (v0 := ExtendedVersion_from Version_default).
    destruct (Tables_and_spec _ _ (proj1 (Na v0)) (proj1 (Nb v0))) as (t & -> & Ht & Et).
    cbn [outcome_bind]. eexists. split; [done|]. split; [by apply (Tables_not_spec t v0)|].
    intros v. rewrite (proj2 (Tables_not_spec t v Ht)), Et, (proj2 (Na v)), (proj2 (Nb v)), Va, Vb. simpl.
    by destruct (satisfies v a), (satisfies v b).
  - rewrite Ea. cbn [outcome_bind]. eexists. split; [done|].
    split; [by apply (Tables_not_spec ta (ExtendedVersion_from Version_default))|].
    intros v. rewrite (proj2 (Tables_not_spec ta v Wa)), Va. done.
  - by exists TTrue.
  - by exists TFalse.
  - eexists. split; [done|]. apply Tables_eq_flavor_spec.
Qed.

Lemma eval_in ps vs x : eval ps vs x = true -> existsb id vs = true.
Proof.
  revert vs. induction ps as [|p ps IH]; intros [|v vs]; simpl; try done.
  - by intros ->.
  - destruct (is_lt (Point_cmp p x)); [|by intros ->]. intros Hv%IH. by rewrite Hv, orb_true_r.
Qed.

Lemma Tables_eval_satisfiable t v : Tables_eval t v = true -> Tables_satisfiable t = true.
Proof.
  destruct t as [| |m]; simpl; [done|done|]. rewrite !existsb_true. intros (e & He & Hv).
  exists e. split; [done|]. unfold entry_holds in Hv. apply andb_true_iff in Hv as [_ Hv].
  by eapply eval_in.
Qed.

Lemma tables_of_and a b : tables_of (VersionRange_and a b) =
  (let* ta := tables_of a in let* tb := tables_of b in Tables_and ta tb).
Proof.
  destruct (tables_of_spec a) as (ta & Ea & _), (tables_of_spec b) as (tb & Eb & _).
  rewrite Ea, Eb. cbn [outcome_bind].
  assert (a = Any \/ a = None_ \/ b = Any \/ b = None_ \/ VersionRange_and a b = And a b) as Hc
    by (destruct a, b; eauto 10).
  destruct Hc as [->|[->|[->|[->| ->]]]].
  - injection Ea as <-. simpl. by rewrite Eb.
  - injection Ea as <-. assert (VersionRange_and None_ b = None_) as -> by by destruct b.
    simpl. by destruct tb.
  - injection Eb as <-. assert (VersionRange_and a Any = a) as -> by by destruct a.
    rewrite Ea. by destruct ta.
  - injection Eb as <-. assert (VersionRange_and a None_ = None_) as -> by by destruct a.
    simpl. by destruct ta.
  - cbn [tables_of]. by rewrite Ea, Eb.
Qed.

(** ** Properties *)

(** C33: the truth tables of a range are built without a panic, their
    atoms partition the flavors, and evaluating them at a version tells whether
    the version satisfies the range. *)
Theorem tables_decide_satisfaction r :
  exists t, tables_of r = Done t /\ tables_wf t /\ forall v, Tables_eval t v = satisfies v r.
Proof. apply tables_of_spec. Qed.

(** [Table::zip] of two sorted tables never indexes out of range, keeps
    the result sorted with one value more than points, and combines the two
    tables at every point of the version line, although it merges segments. *)
Theorem table_zip_pointwise f a b : table_wf a -> table_wf b ->
  exists c, Table_zip f a b = Done c /\ table_wf c /\
    forall x, Table_eval c x = f (Table_eval a x) (Table_eval b x).
Proof. apply Table_zip_spec. Qed.

Lemma table_zip_pointwise_witness :
  let p := fun n => mkPoint (mkVersion [n] []) Version_default 1 in
  let a := mkTable [p 1%N; p 3%N] [true; false; true] in
  let b := mkTable [p 2%N] [true; false] in
  exists c, Table_zip andb a b = Done c /\ values c = [true; false].
Proof.
  intros p a b. destruct (table_zip_pointwise andb a b) as (c & E & _).
  { split; [|done]. repeat constructor. }
  { split; [|done]. repeat constructor. }
  exists c. split; [done|]. vm_compute in E. by injection E as <-.
Defined.

(** C34: [satisfiable] always answers, a range it calls unsatisfiable has
    no version, and two ranges that do not [intersect] have no version in
    common. *)
Theorem unsatisfiable_ranges_are_empty a b v :
  (exists s, satisfiable a = Done s /\ (s = false -> satisfies v a = false))
  /\ (exists s, intersects a b = Done s /\ (s = false -> satisfies v a && satisfies v b = false)).
Proof.
  destruct (tables_of_spec a) as (ta & Ea & Wa & Va), (tables_of_spec b) as (tb & Eb & Wb & Vb). split.
  - unfold satisfiable. rewrite Ea. cbn [outcome_bind]. eexists. split; [done|]. intros Hs.
    rewrite <- Va. apply not_true_iff_false. intros Ht%Tables_eval_satisfiable. congruence.
  - unfold intersects. rewrite Ea, Eb. cbn [outcome_bind].
    destruct (Tables_and_spec _ _ Wa Wb) as (t & -> & _ & Vt). cbn [outcome_bind].
    eexists. split; [done|]. intros Hs. rewrite <- Va, <- Vb, <- Vt.
    apply not_true_iff_false. intros Ht%Tables_eval_satisfiable. congruence.
Qed.

Lemma unsatisfiable_ranges_are_empty_witness :
  let a := Anchor GTE (ExtendedVersion_from (mkVersion [2]%N [])) in
  let b := Anchor LT (ExtendedVersion_from (mkVersion [1]%N [])) in
  intersects a b = Done false /\
  satisfies (ExtendedVersion_from Version_default) a && satisfies (ExtendedVersion_from Version_default) b = false.
Proof.
  intros a b. split; [by vm_compute|].
  destruct (proj2 (unsatisfiable_ranges_are_empty a b (ExtendedVersion_from Version_default))) as (s & E & Hs).
  apply Hs. vm_compute in E. by injection E.
Defined.

(** [intersects] answers as the satisfiability of the conjunction built
    with the smart constructor. *)
Theorem intersects_is_and a b : intersects a b = satisfiable (VersionRange_and a b).
Proof.
  unfold intersects, satisfiable. rewrite tables_of_and.
  destruct (tables_of_spec a) as (ta & -> & _), (tables_of_spec b) as (tb & -> & _). done.
Qed.

(** The least version that can be written. *)
Definition least_version : Version := mkVersion [0%N] [Number 0].
Definition least_ext (f : option str) : ExtendedVersion := mkExt f least_version least_version.

Lemma least_number l : number_cmp l [0%N] ≠ Lt.
Proof. apply number_cmp_zero. Qed.

Lemma least_version_least v : version_wf v = true -> Version_cmp v least_version ≠ Lt.
Proof.
  unfold version_wf. rewrite !andb_true_iff. intros [_ Hp]. unfold Version_cmp. simpl.
  pose proof (least_number (number v)) as Hn. destruct (number_cmp (number v) [0%N]); simpl; [|done..].
  destruct (prerelease v) as [|p ps]; simpl; [done|]. simpl in Hp. apply andb_true_iff in Hp as [Hp _].
  assert (PreReleaseSegment_cmp p (Number 0) ≠ Lt) as Hc.
  { destruct p as [n|s|s]; simpl in *.
    - destruct (N.compare_spec n 0); [done|lia|done].
    - destruct s as [|c s]; [done|]. rewrite !andb_true_iff in Hp. destruct Hp as [[[_ [Hd _]%andb_true_iff] Hz] Hb].
      unfold cmp_numeric. change (str_len (show_N 0)) with 1.
      unfold str_len. simpl. assert (len_utf8 c = 1) as ->.
      { unfold is_ascii_digit in Hd. bool_to_prop. unfold len_utf8. by rewrite (proj2 (N.ltb_lt _ _)) by lia. }
      simpl. destruct (sum_list_with len_utf8 s) as [|k] eqn:Ek; simpl; [|done].
      assert (s = []) as ->.
      { destruct s as [|d s]; [done|]. simpl in Ek. pose proof (len_utf8_pos d). lia. }
      unfold str_cmp. change (show_N 0) with [48%N]. simpl. unfold is_ascii_digit in Hd. bool_to_prop.
      destruct (N.compare_spec c 48); simpl; [done|lia|done].
    - done. }
  destruct (PreReleaseSegment_cmp p (Number 0)); simpl; [by destruct ps|done|done].
Qed.

(** [satisfiable] can answer [true] for a range no version
    satisfies: nothing is below the version with the least number and the least
    prerelease. *)
Theorem satisfiable_overapproximates f :
  satisfiable (Anchor LT (least_ext f)) = Done true
  /\ forall v, ext_wf v = true -> satisfies v (Anchor LT (least_ext f)) = false.
Proof.
  split; [by destruct f|]. intros v. unfold ext_wf. rewrite !andb_true_iff. intros [[_ Hu] Hd].
  simpl. unfold ExtendedVersion_partial_cmp. case_bool_decide; [|done]. simpl.
  pose proof (least_version_least _ Hu) as H1. pose proof (least_version_least _ Hd) as H2.
  destruct (Version_cmp (upstream v) least_version); simpl; [|done..].
  by destruct (Version_cmp (downstream v) least_version).
Qed.

Lemma satisfiable_overapproximates_witness :
  satisfies (ExtendedVersion_from Version_default) (Anchor LT (least_ext None)) = false.
Proof. by apply (satisfiable_overapproximates None). Defined.
