(* ===== verification/ExParse.v ===== *)
(** * Parsing version ranges

    [shared-libs/crates/exver/src/exver.rs], lines 1035-1132.  The text is
    first parsed by [pest] with [grammar.pest]; the functions below turn the
    resulting tree of [Pair]s (a rule, the text it matched and the inner pairs)
    into a range, and are modelled on that tree. *)
From S2P Require Import Prelude RustStr ExVersion ExRange.

Local Open Scope rust_scope.

(** The rules of [grammar.pest] the functions look at. *)
Inductive Rule : Type :=
| R_version_range | R_or | R_and | R_version_range_atom | R_anchor | R_version_spec
| R_not | R_any | R_none | R_flavor_atom | R_cmp_op
| R_gte | R_lte | R_lt | R_neq | R_eq | R_gt | R_caret | R_tilde
| R_other.

#[warnings="-register-all"]
Inductive Pair : Type := mkPair (rule : Rule) (text : str) (inner : list Pair).

Definition as_rule (p : Pair) : Rule := match p with mkPair r _ _ => r end.
Definition as_str (p : Pair) : str := match p with mkPair _ s _ => s end.
Definition into_inner (p : Pair) : list Pair := match p with mkPair _ _ l => l end.

(** [str::trim] for the one whitespace character of the grammar. *)
Fixpoint trim_start (s : str) : str :=
  match s with c :: r => if (c =? 32)%N then trim_start r else s | [] => [] end.
Definition trim (s : str) : str := rev (trim_start (rev (trim_start s))).

Abbreviation parsed := (outcome (result VersionRange ParseError)).

Fixpoint anchor_tokens (input : str) (toks : list Pair) (op : Rule) (version : option ExtendedVersion)
    : result (Rule * option ExtendedVersion) ParseError :=
  match toks with
  | [] => Ok (op, version)
  | tok :: rest =>
      match as_rule tok with
      | R_cmp_op =>
          match into_inner tok with
          | t :: _ => anchor_tokens input rest (as_rule t) version
          | [] => Err (InvalidVersionRange input)
          end
      | R_version_spec =>
          match parse_spec (trim (as_str tok)) with
          | Ok v => anchor_tokens input rest op (Some v)
          | Err e => Err e
          end
      | _ => anchor_tokens input rest op version
      end
  end.

Definition parse_anchor (pair : Pair) : parsed :=
  let input := as_str pair in
  match anchor_tokens input (into_inner pair) R_caret None with
  | Err e => Done (Err e)
  | Ok (_, None) => Done (Err (InvalidVersionRange input))
  | Ok (op, Some version) =>
      match op with
      | R_caret => let* r := caret version in Done (Ok r)
      | R_tilde => let* r := tilde version in Done (Ok r)
      | R_gte => Done (Ok (Anchor GTE version))
      | R_lt => Done (Ok (Anchor LT version))
      | R_neq => Done (Ok (Anchor NEQ version))
      | R_eq => Done (Ok (Anchor EQ version))
      | R_lte => Done (Ok (Anchor LTE version))
      | R_gt => Done (Ok (Anchor GT version))
      | _ => Done (Err (InvalidVersionRange input))
      end
  end.

Definition parse_flavor_atom (atom : str) : result VersionRange ParseError :=
  match strip_prefix_char 35 atom with
  | Some f => Ok (Flavor (if is_empty f then None else Some f))
  | None => Err (InvalidVersionRange atom)
  end.

(** What the loop of [parse_version_range] does with the next atom: the
    operator seen last decides, whether or not it stood before this atom. *)
Definition join (op : option Rule) (prev : option VersionRange) (atom : VersionRange) : VersionRange :=
  match prev with
  | Some p => match op with Some R_or => VersionRange_or p atom | _ => VersionRange_and p atom end
  | None => atom
  end.

Fixpoint parse_version_range (pair : Pair) : parsed :=
  match pair with
  | mkPair _ input toks =>
      (fix loop (toks : list Pair) (prev : option VersionRange) (op : option Rule) : parsed :=
         match toks with
         | [] => Done (match prev with Some r => Ok r | None => Err (InvalidVersionRange input) end)
         | tok :: rest =>
             match as_rule tok with
             | R_version_range_atom =>
                 let* res := parse_version_range_atom tok in
                 match res with
                 | Err e => Done (Err e)
                 | Ok atom => loop rest (Some (join op prev atom)) op
                 end
             | R_or => loop rest prev (Some R_or)
             | R_and => loop rest prev (Some R_and)
             | _ => loop rest prev op
             end
         end) toks None None
  end
with parse_version_range_atom (pair : Pair) : parsed :=
  match pair with
  | mkPair _ input toks =>
      (fix loop (toks : list Pair) : parsed :=
         match toks with
         | [] => Done (Err (InvalidVersionRange input))
         | tok :: rest =>
             match as_rule tok with
             | R_version_range => parse_version_range tok
             | R_anchor => parse_anchor tok
             | R_not => parse_not tok
             | R_any => Done (Ok Any)
             | R_none => Done (Ok None_)
             | R_flavor_atom => Done (parse_flavor_atom (as_str tok))
             | _ => loop rest
             end
         end) toks
  end
with parse_not (pair : Pair) : parsed :=
  match pair with
  | mkPair _ input toks =>
      (fix loop (toks : list Pair) : parsed :=
         match toks with
         | [] => Done (Err (InvalidVersionRange input))
         | tok :: rest =>
             match as_rule tok with
             | R_version_range_atom =>
                 let* res := parse_version_range_atom tok in
                 Done (match res with Ok r => Ok (VersionRange_not r) | Err e => Err e end)
             | _ => loop rest
             end
         end) toks
  end.

(** ** Lemmas *)

(** The loop of [parse_version_range]. *)
Fixpoint range_loop (input : str) (toks : list Pair) (prev : option VersionRange) (op : option Rule) : parsed :=
  match toks with
  | [] => Done (match prev with Some r => Ok r | None => Err (InvalidVersionRange input) end)
  | tok :: rest =>
      match as_rule tok with
      | R_version_range_atom =>
          let* res := parse_version_range_atom tok in
          match res with
          | Err e => Done (Err e)
          | Ok atom => range_loop input rest (Some (join op prev atom)) op
          end
      | R_or => range_loop input rest prev (Some R_or)
      | R_and => range_loop input rest prev (Some R_and)
      | _ => range_loop input rest prev op
      end
  end.

Lemma parse_version_range_loop rule input toks :
  parse_version_range (mkPair rule input toks) = range_loop input toks None None.
Proof.
  cbn [parse_version_range].
  match goal with |- ?l toks None None = _ => set (loop := l) end.
  assert (forall ts prev op, loop ts prev op = range_loop input ts prev op) as H; [|apply H].
  induction ts as [|tok ts IH]; intros prev op; [done|]. cbn. destruct (as_rule tok); try apply IH.
  destruct (parse_version_range_atom tok) as [[r|e]|]; [apply IH|done|done].
Qed.

(** [tok] is an atom that parses to [r]. *)
Definition is_atom (tok : Pair) (r : VersionRange) : Prop :=
  as_rule tok = R_version_range_atom /\ parse_version_range_atom tok = Done (Ok r).

Lemma range_loop_atom input tok r rest prev op : is_atom tok r ->
  range_loop input (tok :: rest) prev op = range_loop input rest (Some (join op prev r)) op.
Proof. intros [H1 H2]. cbn [range_loop]. by rewrite H1, H2. Qed.

(** [||] or [&&] as a token and as the constructor. *)
Definition op_token (is_or : bool) : Pair :=
  mkPair (if is_or then R_or else R_and) (if is_or then $"||" else $"&&") [].
Definition op_join (is_or : bool) (p r : VersionRange) : VersionRange :=
  if is_or then VersionRange_or p r else VersionRange_and p r.

Lemma range_loop_op input (is_or : bool) tok r rest p op : is_atom tok r ->
  range_loop input (op_token is_or :: tok :: rest) (Some p) op
  = range_loop input rest (Some (op_join is_or p r)) (Some (if is_or then R_or else R_and)).
Proof.
  intros Ha. assert (range_loop input (op_token is_or :: tok :: rest) (Some p) op
    = range_loop input (tok :: rest) (Some p) (Some (if is_or then R_or else R_and))) as -> by by destruct is_or.
  rewrite (range_loop_atom _ _ r) by done. by destruct is_or.
Qed.

(** An atom, then pairs of an operator and an atom. *)
Definition operator_tokens (l : list (bool * Pair * VersionRange)) : list Pair :=
  l ≫= fun '(o, tok, _) => [op_token o; tok].

(** ** Properties *)

(** A range written with an explicit operator before every atom but
    the first is combined from left to right, [&&] and [||] having the same
    precedence. *)
Theorem parse_operators_left_to_right rule input tok r (l : list (bool * Pair * VersionRange)) :
  is_atom tok r -> Forall (fun '(o, t, x) => is_atom t x) l ->
  parse_version_range (mkPair rule input (tok :: operator_tokens l))
  = Done (Ok (fold_left (fun p '(o, _, x) => op_join o p x) l r)).
Proof.
  intros Ha Hl. rewrite parse_version_range_loop, (range_loop_atom _ _ r) by done. cbn [join].
  generalize (@None Rule) as op. clear Ha. revert r.
  induction Hl as [|[[o t] x] l Hx Hl IH]; intros r op; [done|].
  cbn [operator_tokens mbind list_bind app fold_left]. rewrite (range_loop_op _ o t x) by done. apply IH.
Qed.

(** Without an operator the one seen last is used again: in
    [a || b c] the space before [c] is read as [||], while in [a b] it is the
    documented implicit [&&]. *)
Theorem parse_implicit_and_after_or rule input ta tb tc a b c :
  is_atom ta a -> is_atom tb b -> is_atom tc c ->
  parse_version_range (mkPair rule input [ta; tb]) = Done (Ok (VersionRange_and a b))
  /\ parse_version_range (mkPair rule input [ta; op_token true; tb; tc])
     = Done (Ok (VersionRange_or (VersionRange_or a b) c))
  /\ parse_version_range (mkPair rule input [ta; op_token true; tb; op_token false; tc])
     = Done (Ok (VersionRange_and (VersionRange_or a b) c)).
Proof.
  intros Ha Hb Hc. rewrite !parse_version_range_loop, !(range_loop_atom _ ta a) by done.
  rewrite (range_loop_atom _ tb b), !(range_loop_op _ true tb b), (range_loop_atom _ tc c),
    (range_loop_op _ false tc c) by done. done.
Qed.

(** ** Witnesses *)

Module ExParseExamples.
(** The atoms [#a] and [*]. *)
Definition flavor_a : Pair := mkPair R_version_range_atom $"#a" [mkPair R_flavor_atom $"#a" []].
Definition anything : Pair := mkPair R_version_range_atom $"*" [mkPair R_any $"*" []].
Definition at_least : Pair :=
  mkPair R_version_range_atom $">=1.2"
    [mkPair R_anchor $">=1.2"
       [mkPair R_cmp_op $">=" [mkPair R_gte $">=" []]; mkPair R_version_spec $"1.2" []]].

Lemma flavor_a_atom : is_atom flavor_a (Flavor (Some $"a")).
Proof. by split. Qed.
Lemma at_least_atom : is_atom at_least (Anchor GTE (ExtendedVersion_from (mkVersion [1; 2]%N []))).
Proof. by split. Qed.

Lemma parse_operators_left_to_right_witness :
  parse_version_range (mkPair R_version_range $">=1.2 && #a"
    (at_least :: operator_tokens [(false, flavor_a, Flavor (Some $"a"))]))
  = Done (Ok (And (Anchor GTE (ExtendedVersion_from (mkVersion [1; 2]%N []))) (Flavor (Some $"a")))).
Proof.
  rewrite (parse_operators_left_to_right _ _ at_least
    (Anchor GTE (ExtendedVersion_from (mkVersion [1; 2]%N [])))); [done|apply at_least_atom|].
  constructor; [apply flavor_a_atom|done].
Defined.

Lemma parse_implicit_and_after_or_witness :
  parse_version_range (mkPair R_version_range $"#a >=1.2" [flavor_a; at_least])
  = Done (Ok (And (Flavor (Some $"a")) (Anchor GTE (ExtendedVersion_from (mkVersion [1; 2]%N []))))).
Proof.
  refine (proj1 (parse_implicit_and_after_or R_version_range $"#a >=1.2" flavor_a at_least flavor_a
    (Flavor (Some $"a")) (Anchor GTE (ExtendedVersion_from (mkVersion [1; 2]%N []))) (Flavor (Some $"a")) _ _ _));
    [apply flavor_a_atom|apply at_least_atom|apply flavor_a_atom].
Defined.
End ExParseExamples.
