(* ===== verification/SquashFormat.v ===== *)
(** * SquashFS structures on disk

    [shared-libs/crates/start-core/src/util/squashfs/format.rs]: the fixed-size
    records of a SquashFS image and their little-endian encoding, the checks on a
    superblock, device numbers, inode kinds and the namespaces of extended
    attributes.

    The macro [disk_struct!] turns a list of fields into a struct with [SIZE],
    [serialize] and [deserialize].  Here a struct is a record with an instance of
    [Disk] that lists the widths of its fields and relates the record to the tuple
    of their values; [serialize] and [deserialize] are defined once, over the
    widths, the way the macro repeats a statement per field. *)
From Stdlib Require Import Ascii String.
From coqutil Require Import Word.LittleEndianList.
From S2P Require Import Prelude RustStr.

Local Open Scope rust_scope.
Local Open Scope Z_scope.

Abbreviation byte := Init.Byte.byte.
Abbreviation bytes := (list byte).

(** ** Errors of [std::io] *)

Inductive io_error : Type :=
| InvalidData (message : str)
| UnexpectedEof
| WriteZero
| Interrupted
| WouldBlock
| Other (code : N).

Abbreviation io A := (result A io_error).

(** [blocks::invalid]. *)
Definition invalid {A} (message : str) : io A := Err (InvalidData message).

(** [Read::read_exact] of a byte slice. *)
Definition read_exact (n : nat) (r : bytes) : io (bytes * bytes) :=
  if (n <=? length r)%nat then Ok (take n r, drop n r) else Err UnexpectedEof.

(** ** Integers *)

Inductive int_ty : Type := u16 | u32 | u64 | i16.

Definition size_of (t : int_ty) : nat :=
  match t with u16 | i16 => 2 | u32 => 4 | u64 => 8 end%nat.

Definition in_range (t : int_ty) (z : Z) : bool :=
  match t with
  | u16 => (0 <=? z) && (z <? 2 ^ 16)
  | u32 => (0 <=? z) && (z <? 2 ^ 32)
  | u64 => (0 <=? z) && (z <? 2 ^ 64)
  | i16 => (- 2 ^ 15 <=? z) && (z <? 2 ^ 15)
  end.

Definition to_le_bytes (t : int_ty) (z : Z) : bytes := le_split (size_of t) z.
#[global] Arguments to_le_bytes : simpl never.

Definition from_le_bytes (t : int_ty) (bs : bytes) : Z :=
  let z := le_combine bs in
  match t with
  | i16 => if z <? 2 ^ 15 then z else z - 2 ^ 16
  | _ => z
  end.

(** ** [Disk] *)

Fixpoint tuple (l : list int_ty) : Type :=
  match l with [] => unit | _ :: r => (Z * tuple r)%type end.

Fixpoint tuple_ok (l : list int_ty) : tuple l -> bool :=
  match l with
  | [] => fun _ => true
  | t :: r => fun '(z, zs) => in_range t z && tuple_ok r zs
  end.

Class Disk (T : Type) : Type := {
  layout : list int_ty;
  to_tuple : T -> tuple layout;
  of_tuple : tuple layout -> T;
  of_to_tuple : forall x, of_tuple (to_tuple x) = x;
  to_of_tuple : forall t, to_tuple (of_tuple t) = t;
}.
Arguments layout T {_}.

Fixpoint serialize_tuple (l : list int_ty) : tuple l -> bytes :=
  match l with
  | [] => fun _ => []
  | t :: r => fun '(z, zs) => to_le_bytes t z ++ serialize_tuple r zs
  end.

Fixpoint deserialize_tuple (l : list int_ty) (r : bytes) : io (tuple l * bytes) :=
  match l with
  | [] => Ok (tt, r)
  | t :: l' =>
      let? (bs, r1) := read_exact (size_of t) r in
      let? (zs, r2) := deserialize_tuple l' r1 in
      Ok ((from_le_bytes t bs, zs), r2)
  end.

Definition SIZE (T : Type) `{Disk T} : nat := sum_list_with size_of (layout T).

Definition serialize {T} `{Disk T} (x : T) : bytes := serialize_tuple (layout T) (to_tuple x).

Definition deserialize {T} `{Disk T} (r : bytes) : io (T * bytes) :=
  let? (t, r') := deserialize_tuple (layout T) r in Ok (of_tuple t, r').

(** The values Rust's integer types let the fields have. *)
Definition disk_ok {T} `{Disk T} (x : T) : bool := tuple_ok (layout T) (to_tuple x).

Ltac tuple_law :=
  let t := fresh in
  intros t; cbn in t;
  repeat match goal with
  | p : (_ * _)%type |- _ => destruct p
  | u : unit |- _ => destruct u
  end; reflexivity.

(** ** The structures *)

Record Superblock : Type := mkSuperblock {
  magic : Z;
  inode_count : Z;
  sb_modification_time : Z;
  block_size : Z;
  fragment_count : Z;
  compression : Z;
  block_log : Z;
  flags : Z;
  id_count : Z;
  version_major : Z;
  version_minor : Z;
  root_inode : Z;
  bytes_used : Z;
  id_table : Z;
  xattr_id_table : Z;
  inode_table : Z;
  directory_table : Z;
  fragment_table : Z;
  export_table : Z;
}.

#[export, refine] Instance Superblock_disk : Disk Superblock := {
  layout := [u32; u32; u32; u32; u32; u16; u16; u16; u16; u16; u16; u64; u64; u64; u64; u64; u64; u64; u64];
  to_tuple s :=
    (magic s, (inode_count s, (sb_modification_time s, (block_size s, (fragment_count s,
    (compression s, (block_log s, (flags s, (id_count s, (version_major s, (version_minor s,
    (root_inode s, (bytes_used s, (id_table s, (xattr_id_table s, (inode_table s,
    (directory_table s, (fragment_table s, (export_table s, tt)))))))))))))))))));
  of_tuple '(a, (b, (c, (d, (e, (f, (g, (h, (i, (j, (k, (l, (m, (n, (o, (p, (q, (r, (s, _))))))))))))))))))) :=
    mkSuperblock a b c d e f g h i j k l m n o p q r s;
}.
Proof. - by intros []. - tuple_law. Defined.

Record InodeHeader : Type := mkInodeHeader {
  ih_kind : Z;
  ih_mode : Z;
  ih_uid : Z;
  ih_gid : Z;
  ih_modification_time : Z;
  ih_number : Z;
}.

#[export, refine] Instance InodeHeader_disk : Disk InodeHeader := {
  layout := [u16; u16; u16; u16; u32; u32];
  to_tuple s := (ih_kind s, (ih_mode s, (ih_uid s, (ih_gid s, (ih_modification_time s, (ih_number s, tt))))));
  of_tuple '(a, (b, (c, (d, (e, (f, _)))))) := mkInodeHeader a b c d e f;
}.
Proof. - by intros []. - tuple_law. Defined.

Record BasicDirectoryInode : Type := mkBasicDirectoryInode {
  bd_block : Z;
  bd_links : Z;
  bd_size : Z;
  bd_offset : Z;
  bd_parent : Z;
}.

#[export, refine] Instance BasicDirectoryInode_disk : Disk BasicDirectoryInode := {
  layout := [u32; u32; u16; u16; u32];
  to_tuple s := (bd_block s, (bd_links s, (bd_size s, (bd_offset s, (bd_parent s, tt)))));
  of_tuple '(a, (b, (c, (d, (e, _))))) := mkBasicDirectoryInode a b c d e;
}.
Proof. - by intros []. - tuple_law. Defined.

Record BasicFileInode : Type := mkBasicFileInode {
  bf_block : Z;
  bf_fragment : Z;
  bf_offset : Z;
  bf_size : Z;
}.

#[export, refine] Instance BasicFileInode_disk : Disk BasicFileInode := {
  layout := [u32; u32; u32; u32];
  to_tuple s := (bf_block s, (bf_fragment s, (bf_offset s, (bf_size s, tt))));
  of_tuple '(a, (b, (c, (d, _)))) := mkBasicFileInode a b c d;
}.
Proof. - by intros []. - tuple_law. Defined.

Record BasicDeviceInode : Type := mkBasicDeviceInode {
  bv_links : Z;
  bv_device : Z;
}.

#[export, refine] Instance BasicDeviceInode_disk : Disk BasicDeviceInode := {
  layout := [u32; u32];
  to_tuple s := (bv_links s, (bv_device s, tt));
  of_tuple '(a, (b, _)) := mkBasicDeviceInode a b;
}.
Proof. - by intros []. - tuple_law. Defined.

Record BasicIpcInode : Type := mkBasicIpcInode {
  bi_links : Z;
}.

#[export, refine] Instance BasicIpcInode_disk : Disk BasicIpcInode := {
  layout := [u32];
  to_tuple s := (bi_links s, tt);
  of_tuple '(a, _) := mkBasicIpcInode a;
}.
Proof. - by intros []. - tuple_law. Defined.

Record XattrValue : Type := mkXattrValue {
  xv_size : Z;
}.

#[export, refine] Instance XattrValue_disk : Disk XattrValue := {
  layout := [u32];
  to_tuple s := (xv_size s, tt);
  of_tuple '(a, _) := mkXattrValue a;
}.
Proof. - by intros []. - tuple_law. Defined.

Record DirectoryInode : Type := mkDirectoryInode {
  di_links : Z;
  di_size : Z;
  di_block : Z;
  di_parent : Z;
  di_index_count : Z;
  di_offset : Z;
  di_xattr : Z;
}.

#[export, refine] Instance DirectoryInode_disk : Disk DirectoryInode := {
  layout := [u32; u32; u32; u32; u16; u16; u32];
  to_tuple s := (di_links s, (di_size s, (di_block s, (di_parent s, (di_index_count s, (di_offset s, (di_xattr s, tt)))))));
  of_tuple '(a, (b, (c, (d, (e, (f, (g, _))))))) := mkDirectoryInode a b c d e f g;
}.
Proof. - by intros []. - tuple_law. Defined.

Record FileInode : Type := mkFileInode {
  fi_block : Z;
  fi_size : Z;
  fi_sparse : Z;
  fi_links : Z;
  fi_fragment : Z;
  fi_offset : Z;
  fi_xattr : Z;
}.

#[export, refine] Instance FileInode_disk : Disk FileInode := {
  layout := [u64; u64; u64; u32; u32; u32; u32];
  to_tuple s := (fi_block s, (fi_size s, (fi_sparse s, (fi_links s, (fi_fragment s, (fi_offset s, (fi_xattr s, tt)))))));
  of_tuple '(a, (b, (c, (d, (e, (f, (g, _))))))) := mkFileInode a b c d e f g;
}.
Proof. - by intros []. - tuple_law. Defined.

Record SymlinkInode : Type := mkSymlinkInode {
  sy_links : Z;
  sy_size : Z;
}.

#[export, refine] Instance SymlinkInode_disk : Disk SymlinkInode := {
  layout := [u32; u32];
  to_tuple s := (sy_links s, (sy_size s, tt));
  of_tuple '(a, (b, _)) := mkSymlinkInode a b;
}.
Proof. - by intros []. - tuple_law. Defined.

Record DeviceInode : Type := mkDeviceInode {
  dv_links : Z;
  dv_device : Z;
  dv_xattr : Z;
}.

#[export, refine] Instance DeviceInode_disk : Disk DeviceInode := {
  layout := [u32; u32; u32];
  to_tuple s := (dv_links s, (dv_device s, (dv_xattr s, tt)));
  of_tuple '(a, (b, (c, _))) := mkDeviceInode a b c;
}.
Proof. - by intros []. - tuple_law. Defined.

Record IpcInode : Type := mkIpcInode {
  ip_links : Z;
  ip_xattr : Z;
}.

#[export, refine] Instance IpcInode_disk : Disk IpcInode := {
  layout := [u32; u32];
  to_tuple s := (ip_links s, (ip_xattr s, tt));
  of_tuple '(a, (b, _)) := mkIpcInode a b;
}.
Proof. - by intros []. - tuple_law. Defined.

Record DirectoryHeader : Type := mkDirectoryHeader {
  dh_count : Z;
  dh_block : Z;
  dh_inode : Z;
}.

#[export, refine] Instance DirectoryHeader_disk : Disk DirectoryHeader := {
  layout := [u32; u32; u32];
  to_tuple s := (dh_count s, (dh_block s, (dh_inode s, tt)));
  of_tuple '(a, (b, (c, _))) := mkDirectoryHeader a b c;
}.
Proof. - by intros []. - tuple_law. Defined.

Record DirectoryEntry : Type := mkDirectoryEntry {
  de_offset : Z;
  de_inode_delta : Z;
  de_kind : Z;
  de_name_size : Z;
}.

#[export, refine] Instance DirectoryEntry_disk : Disk DirectoryEntry := {
  layout := [u16; i16; u16; u16];
  to_tuple s := (de_offset s, (de_inode_delta s, (de_kind s, (de_name_size s, tt))));
  of_tuple '(a, (b, (c, (d, _)))) := mkDirectoryEntry a b c d;
}.
Proof. - by intros []. - tuple_law. Defined.

Record DirectoryIndex : Type := mkDirectoryIndex {
  dx_index : Z;
  dx_block : Z;
  dx_name_size : Z;
}.

#[export, refine] Instance DirectoryIndex_disk : Disk DirectoryIndex := {
  layout := [u32; u32; u32];
  to_tuple s := (dx_index s, (dx_block s, (dx_name_size s, tt)));
  of_tuple '(a, (b, (c, _))) := mkDirectoryIndex a b c;
}.
Proof. - by intros []. - tuple_law. Defined.

Record Fragment : Type := mkFragment {
  fr_block : Z;
  fr_size : Z;
  fr_unused : Z;
}.

#[export, refine] Instance Fragment_disk : Disk Fragment := {
  layout := [u64; u32; u32];
  to_tuple s := (fr_block s, (fr_size s, (fr_unused s, tt)));
  of_tuple '(a, (b, (c, _))) := mkFragment a b c;
}.
Proof. - by intros []. - tuple_law. Defined.

Record XattrEntry : Type := mkXattrEntry {
  xe_kind : Z;
  xe_name_size : Z;
}.

#[export, refine] Instance XattrEntry_disk : Disk XattrEntry := {
  layout := [u16; u16];
  to_tuple s := (xe_kind s, (xe_name_size s, tt));
  of_tuple '(a, (b, _)) := mkXattrEntry a b;
}.
Proof. - by intros []. - tuple_law. Defined.

Record XattrId : Type := mkXattrId {
  xi_reference : Z;
  xi_count : Z;
  xi_size : Z;
}.

#[export, refine] Instance XattrId_disk : Disk XattrId := {
  layout := [u64; u32; u32];
  to_tuple s := (xi_reference s, (xi_count s, (xi_size s, tt)));
  of_tuple '(a, (b, (c, _))) := mkXattrId a b c;
}.
Proof. - by intros []. - tuple_law. Defined.

Record XattrTable : Type := mkXattrTable {
  xt_block : Z;
  xt_count : Z;
  xt_unused : Z;
}.

#[export, refine] Instance XattrTable_disk : Disk XattrTable := {
  layout := [u64; u32; u32];
  to_tuple s := (xt_block s, (xt_count s, (xt_unused s, tt)));
  of_tuple '(a, (b, (c, _))) := mkXattrTable a b c;
}.
Proof. - by intros []. - tuple_law. Defined.

(** ** Superblocks *)

Definition MAGIC : Z := 0x73717368.
Definition INVALID_TABLE : Z := 2 ^ 64 - 1.
Definition INVALID_INDEX : Z := 2 ^ 32 - 1.
Definition ALWAYS_FRAGMENTS : Z := Z.shiftl 1 5.
Definition DEDUPLICATED : Z := Z.shiftl 1 6.
Definition EXPORTABLE : Z := Z.shiftl 1 7.
Definition NO_XATTRS : Z := Z.shiftl 1 9.

(** [u32::ilog2] panics on zero. *)
Definition ilog2 (n : Z) : outcome Z := if 0 <? n then Done (Z.log2 n) else Panic.

Definition is_power_of_two (n : Z) : bool := (0 <? n) && (n =? 2 ^ Z.log2 n).

Definition Superblock_new (block_size modification_time : Z) : outcome Superblock :=
  let* log := ilog2 block_size in
  Done {|
    magic := MAGIC;
    inode_count := 0;
    sb_modification_time := modification_time;
    block_size := block_size;
    fragment_count := 0;
    compression := 6;
    block_log := log;
    flags := Z.lor EXPORTABLE ALWAYS_FRAGMENTS;
    id_count := 0;
    version_major := 4;
    version_minor := 0;
    root_inode := 0;
    bytes_used := 0;
    id_table := INVALID_TABLE;
    xattr_id_table := INVALID_TABLE;
    inode_table := INVALID_TABLE;
    directory_table := INVALID_TABLE;
    fragment_table := INVALID_TABLE;
    export_table := INVALID_TABLE;
  |}.

Definition validate_block_size (size : Z) : io unit :=
  if negb (is_power_of_two size) || negb ((4096 <=? size) && (size <=? 1048576)) then
    invalid $"SquashFS block size must be a power of two from 4 KiB through 1 MiB"
  else Ok tt.

Definition Superblock_validate (s : Superblock) : outcome (io unit) :=
  let size := Z.of_nat (SIZE Superblock) in
  let outside table := (table <? size) || (bytes_used s <=? table) in
  if negb (magic s =? MAGIC) || negb ((version_major s =? 4) && (version_minor s =? 0)) then
    Done (invalid $"not a SquashFS version 4 image")
  else if negb (compression s =? 6) then
    Done (invalid $"unsupported SquashFS compression (expected Zstd)")
  else match validate_block_size (block_size s) with
  | Err e => Done (Err e)
  | Ok _ =>
      let* log := ilog2 (block_size s) in
      if negb (block_log s =? log) || (bytes_used s <? size) || (inode_count s =? 0)
         || (id_count s =? 0) || (8192 <=? Z.land (root_inode s) 0xffff) then
        Done (invalid $"invalid SquashFS superblock")
      else if existsb outside [id_table s; inode_table s; directory_table s] then
        Done (invalid $"SquashFS table lies outside image")
      else if existsb (fun table => negb (table =? INVALID_TABLE) && outside table)
                [fragment_table s; export_table s; xattr_id_table s] then
        Done (invalid $"SquashFS optional table lies outside image")
      else if (directory_table s <=? inode_table s) || (id_table s <? directory_table s)
              || (negb (fragment_count s =? 0) && (fragment_table s =? INVALID_TABLE)) then
        Done (invalid $"invalid SquashFS table ordering")
      else Done (Ok tt)
  end.

(** ** Inode kinds *)

Inductive InodeKind : Type :=
| KDirectory
| KFile
| KSymlink
| KBlockDevice
| KCharacterDevice
| KFifo
| KSocket.

#[export] Instance InodeKind_eq_dec : EqDecision InodeKind.
Proof. solve_decision. Defined.

Definition InodeKind_basic (k : InodeKind) : Z :=
  match k with
  | KDirectory => 1
  | KFile => 2
  | KSymlink => 3
  | KBlockDevice => 4
  | KCharacterDevice => 5
  | KFifo => 6
  | KSocket => 7
  end.

Definition InodeKind_extended (k : InodeKind) : Z := InodeKind_basic k + 7.

Definition InodeKind_from_disk (kind : Z) : io InodeKind :=
  match kind with
  | 1 | 8 => Ok KDirectory
  | 2 | 9 => Ok KFile
  | 3 | 10 => Ok KSymlink
  | 4 | 11 => Ok KBlockDevice
  | 5 | 12 => Ok KCharacterDevice
  | 6 | 13 => Ok KFifo
  | 7 | 14 => Ok KSocket
  | _ => invalid $"invalid SquashFS inode type"
  end.

(** ** Device numbers *)

Definition device_number (major minor : Z) : io Z :=
  if (4096 <=? major) || (1048576 <=? minor) then
    invalid $"device number does not fit SquashFS encoding"
  else Ok (Z.lor (Z.lor (Z.shiftl (Z.land minor 0xfff00) 12) (Z.shiftl major 8)) (Z.land minor 0xff)).

Definition device_parts (device : Z) : Z * Z :=
  (Z.land (Z.shiftr device 8) 0xfff,
   Z.lor (Z.land device 0xff) (Z.land (Z.shiftr device 12) 0xfff00)).

(** ** Namespaces of extended attributes *)

#[export] Instance byte_eq_dec : EqDecision byte := Strings.Byte.byte_eq_dec.

Definition bstr (s : string) : bytes := list_byte_of_string s.

Definition XATTR_PREFIXES : list bytes := [bstr "user."; bstr "trusted."; bstr "security."].

(** [<[u8]>::strip_prefix]. *)
Fixpoint strip_prefix (prefix name : bytes) : option bytes :=
  match prefix, name with
  | [], _ => Some name
  | x :: p, y :: n => if decide (x = y) then strip_prefix p n else None
  | _ :: _, [] => None
  end.

Fixpoint find_prefix (prefixes : list bytes) (kind : Z) (name : bytes) : option (Z * bytes) :=
  match prefixes with
  | [] => None
  | p :: r =>
      match strip_prefix p name with
      | Some rest => Some (kind, rest)
      | None => find_prefix r (kind + 1) name
      end
  end.

Definition xattr_kind (name : bytes) : option (Z * bytes) := find_prefix XATTR_PREFIXES 0 name.

(** ** Lemmas: integers *)

Lemma to_le_bytes_length t z : length (to_le_bytes t z) = size_of t.
Proof. apply length_le_split. Qed.

Lemma from_to_le_bytes t z : in_range t z = true -> from_le_bytes t (to_le_bytes t z) = z.
Proof.
  intros H. unfold from_le_bytes, to_le_bytes. rewrite le_combine_split.
  destruct t; simpl in H |- *;
    try (rewrite Z.mod_small by lia; reflexivity).
  destruct (Z.ltb_spec z 0).
  - replace (z `mod` _) with (z + 2 ^ 16) by (apply (Z.mod_unique _ _ (-1)); lia).
    case_match; lia.
  - rewrite Z.mod_small by lia. case_match; lia.
Qed.

Lemma from_le_bytes_range t bs : length bs = size_of t -> in_range t (from_le_bytes t bs) = true.
Proof.
  intros H. pose proof (le_combine_bound bs) as B. rewrite H in B.
  destruct t; cbn in B |- *; try lia. case_match; lia.
Qed.

Lemma to_from_le_bytes t bs : length bs = size_of t -> to_le_bytes t (from_le_bytes t bs) = bs.
Proof.
  intros H. apply le_combine_inj; [by rewrite to_le_bytes_length|].
  unfold to_le_bytes. rewrite le_combine_split.
  pose proof (le_combine_bound bs) as B. rewrite H in B.
  destruct t; simpl size_of in *; simpl Z.of_nat in *; unfold from_le_bytes;
    try (by rewrite Z.mod_small by lia).
  case_match; [by rewrite Z.mod_small by lia|].
  symmetry; apply (Z.mod_unique _ _ (-1)); lia.
Qed.

Lemma read_exact_app a r : read_exact (length a) (a ++ r) = Ok (a, r).
Proof.
  unfold read_exact. rewrite length_app. destruct (Nat.leb_spec (length a) (length a + length r)); [|lia].
  by rewrite take_app_length, drop_app_length.
Qed.

Lemma read_exact_app' n a r : n = length a -> read_exact n (a ++ r) = Ok (a, r).
Proof. intros ->. apply read_exact_app. Qed.

Lemma read_exact_inv n r a r' : read_exact n r = Ok (a, r') -> r = a ++ r' /\ length a = n.
Proof.
  unfold read_exact. destruct (Nat.leb_spec n (length r)); intros [= <- <-].
  rewrite take_drop, length_take. split; [done|lia].
Qed.

(** ** Lemmas: structures *)

Lemma serialize_tuple_length l t : length (serialize_tuple l t) = sum_list_with size_of l.
Proof.
  induction l as [|i l IH]; simpl; [done|]. destruct t. by rewrite length_app, IH, to_le_bytes_length.
Qed.

Lemma deserialize_tuple_app l t r : tuple_ok l t = true ->
  deserialize_tuple l (serialize_tuple l t ++ r) = Ok (t, r).
Proof.
  induction l as [|i l IH]; simpl; [by destruct t|].
  destruct t as [z zs]. intros [Hz Hzs]%andb_true_iff. rewrite <- app_assoc.
  rewrite read_exact_app' by (by rewrite to_le_bytes_length). simpl.
  rewrite IH by done. simpl. by rewrite from_to_le_bytes.
Qed.

Lemma deserialize_tuple_inv l r t r' : deserialize_tuple l r = Ok (t, r') ->
  r = serialize_tuple l t ++ r' /\ tuple_ok l t = true.
Proof.
  revert r. induction l as [|i l IH]; simpl; intros r; [by intros [= <- <-]|].
  destruct (read_exact _ r) as [[bs r1]|] eqn:E1; simpl; [|done].
  destruct (deserialize_tuple l r1) as [[zs r2]|] eqn:E2; simpl; [|done].
  intros [= <- <-]. apply read_exact_inv in E1 as [-> E1]. apply IH in E2 as [-> E2].
  rewrite to_from_le_bytes, from_le_bytes_range, E2, <- app_assoc by done. done.
Qed.

Lemma deserialize_tuple_short l r : (length r < sum_list_with size_of l)%nat ->
  deserialize_tuple l r = Err UnexpectedEof.
Proof.
  revert r. induction l as [|i l IH]; simpl; intros r H; [lia|].
  unfold read_exact. destruct (Nat.leb_spec (size_of i) (length r)); simpl; [|done].
  rewrite IH; [done|]. rewrite length_drop. lia.
Qed.

Section disk.
Context {T : Type} `{D : Disk T}.

Lemma serialize_length (x : T) : length (serialize x) = SIZE T.
Proof. apply serialize_tuple_length. Qed.

Lemma deserialize_app (x : T) r : disk_ok x = true -> deserialize (serialize x ++ r) = Ok (x, r).
Proof.
  intros H. unfold deserialize, serialize. rewrite deserialize_tuple_app by done. simpl.
  by rewrite of_to_tuple.
Qed.

Lemma deserialize_inv r (x : T) r' : deserialize r = Ok (x, r') ->
  r = serialize x ++ r' /\ disk_ok x = true.
Proof.
  unfold deserialize, serialize, disk_ok. destruct (deserialize_tuple _ r) as [[t r1]|] eqn:E; simpl; [|done].
  intros [= <- <-]. rewrite to_of_tuple. by apply deserialize_tuple_inv.
Qed.

Lemma deserialize_tuple_total l r : (sum_list_with size_of l <= length r)%nat ->
  exists t r', deserialize_tuple l r = Ok (t, r').
Proof.
  revert r. induction l as [|i l IH]; simpl; intros r H; [by eexists _, _|].
  unfold read_exact. destruct (Nat.leb_spec (size_of i) (length r)); simpl; [|lia].
  destruct (IH (drop (size_of i) r)) as (t & r' & ->); [rewrite length_drop; lia|]. simpl. by eexists _, _.
Qed.

Lemma deserialize_total r : (SIZE T <= length r)%nat -> exists (x : T) r', deserialize r = Ok (x, r').
Proof.
  intros H. unfold deserialize. destruct (deserialize_tuple_total (layout T) r H) as (t & r' & ->). by eexists _, _.
Qed.

Lemma serialize_inj (x y : T) : disk_ok x = true -> disk_ok y = true -> serialize x = serialize y -> x = y.
Proof.
  intros Hx Hy E. apply (deserialize_app x []) in Hx. apply (deserialize_app y []) in Hy. congruence.
Qed.

(** Every record that [disk_struct!] declares is written as exactly
    [SIZE] bytes; reading these bytes, followed by anything, gives the record back and
    leaves what follows; conversely whatever is read from an input is a record whose
    fields fit their types and whose encoding is what was consumed; and an input that
    is too short gives [UnexpectedEof]. *)
Theorem disk_roundtrip :
  (forall x : T, length (serialize x) = SIZE T) /\
  (forall (x : T) r, disk_ok x = true -> deserialize (serialize x ++ r) = Ok (x, r)) /\
  (forall r (x : T) r', deserialize r = Ok (x, r') -> r = serialize x ++ r' /\ disk_ok x = true) /\
  (forall r, (length r < SIZE T)%nat -> deserialize (T := T) r = Err UnexpectedEof).
Proof.
  split; [exact serialize_length|]. split; [exact deserialize_app|]. split; [exact deserialize_inv|].
  intros r H. unfold deserialize. by rewrite deserialize_tuple_short.
Qed.
End disk.

(** ** Lemmas: superblocks and block sizes *)

Lemma is_power_of_two_spec n : is_power_of_two n = true <-> exists k, 0 <= k /\ n = 2 ^ k.
Proof.
  unfold is_power_of_two. rewrite andb_true_iff, Z.ltb_lt, Z.eqb_eq. split.
  - intros [H ->]. exists (Z.log2 n). split; [apply Z.log2_nonneg|]. done.
  - intros (k & Hk & ->). rewrite Z.log2_pow2 by done. split; [lia|done].
Qed.

Lemma validate_block_size_spec size :
  validate_block_size size = Ok tt <-> exists k, 12 <= k <= 20 /\ size = 2 ^ k.
Proof.
  unfold validate_block_size. split.
  - case_match eqn:E; [done|]. intros _.
    apply orb_false_iff in E as [E1 E2]. apply negb_false_iff in E1, E2.
    apply is_power_of_two_spec in E1 as (k & Hk & ->). exists k. split; [|done].
    split.
    + destruct (Z.ltb_spec k 12); [|lia]. assert (2 ^ k <= 2 ^ 11) by (apply Z.pow_le_mono_r; lia). lia.
    + destruct (Z.ltb_spec 20 k); [|lia]. assert (2 ^ 21 <= 2 ^ k) by (apply Z.pow_le_mono_r; lia). lia.
  - intros (k & Hk & ->).
    assert (is_power_of_two (2 ^ k) = true) as ->. { apply is_power_of_two_spec. exists k. split; [lia|done]. }
    assert (2 ^ 12 <= 2 ^ k <= 2 ^ 20) by (split; apply Z.pow_le_mono_r; lia).
    simpl. case_match eqn:E; [|done]. lia.
Qed.

(** The layout a validated superblock promises to the reader. *)
Definition inside (s : Superblock) (table : Z) : Prop := 96 <= table < bytes_used s.

Record superblock_valid (s : Superblock) : Prop := {
  sv_format : magic s = MAGIC /\ version_major s = 4 /\ version_minor s = 0 /\ compression s = 6;
  sv_blocks : 12 <= block_log s <= 20 /\ block_size s = 2 ^ block_log s;
  sv_counts : inode_count s ≠ 0 /\ id_count s ≠ 0;
  sv_root : root_inode s `mod` 2 ^ 16 < 8192;
  sv_tables : 96 <= inode_table s < directory_table s /\ directory_table s <= id_table s < bytes_used s;
  sv_optional : Forall (fun t => t = INVALID_TABLE \/ inside s t)
                  [fragment_table s; export_table s; xattr_id_table s];
  sv_fragments : fragment_count s ≠ 0 -> fragment_table s ≠ INVALID_TABLE;
}.

Lemma block_size_log s : validate_block_size (block_size s) = Ok tt ->
  ilog2 (block_size s) = Done (Z.log2 (block_size s)) /\ 12 <= Z.log2 (block_size s) <= 20 /\
  block_size s = 2 ^ Z.log2 (block_size s).
Proof.
  intros (k & Hk & ->)%validate_block_size_spec.
  rewrite Z.log2_pow2 by lia. unfold ilog2. rewrite Z.log2_pow2 by lia.
  assert (0 < 2 ^ k) by lia. destruct (Z.ltb_spec 0 (2 ^ k)); [done|lia].
Qed.

Lemma land_ffff z : Z.land z 0xffff = z `mod` 2 ^ 16.
Proof. change 0xffff with (Z.ones 16). by rewrite Z.land_ones by lia. Qed.

Lemma negb_eqb_false a c : negb (a =? c) = false <-> a = c.
Proof. rewrite negb_false_iff. apply Z.eqb_eq. Qed.

Ltac guard_false H :=
  repeat match type of H with
  | _ || _ = false => let H2 := fresh "G" in apply orb_false_iff in H as [H H2]; guard_false H2
  | negb (_ =? _) = false => apply negb_eqb_false in H
  | negb (_ && _) = false => apply negb_false_iff, andb_true_iff in H as [H ?]
  end.

Lemma validate_accepts s : Superblock_validate s = Done (Ok tt) -> superblock_valid s.
Proof.
  unfold Superblock_validate. change (Z.of_nat (SIZE Superblock)) with 96. rewrite land_ffff.
  case_match eqn:E1; [done|]. case_match eqn:E2; [done|].
  destruct (validate_block_size _) as [[]|] eqn:E3; [|done].
  destruct (block_size_log s E3) as (-> & Hlog & Hsz). simpl.
  case_match eqn:E4; [done|]. case_match eqn:E5; [done|]. case_match eqn:E6; [done|].
  case_match eqn:E7; [done|]. intros _.
  guard_false E1. guard_false E2. guard_false E4. guard_false E5. guard_false E6. guard_false E7.
  split; try lia.
  - by rewrite E4.
  - unfold inside. repeat apply Forall_cons_2; [lia..|apply Forall_nil_2].
Qed.

Lemma validate_complete s : superblock_valid s -> Superblock_validate s = Done (Ok tt).
Proof.
  intros [(H1 & H2 & H3 & H4) [Hl Hs] [Hi Hd] Hr Ht Ho Hf].
  unfold Superblock_validate. rewrite H1, H2, H3, H4. change (Z.of_nat (SIZE Superblock)) with 96.
  rewrite land_ffff. simpl.
  assert (validate_block_size (block_size s) = Ok tt) as Hv.
  { apply validate_block_size_spec. by exists (block_log s). }
  destruct (block_size_log s Hv) as (-> & _). rewrite Hv. simpl.
  assert (Z.log2 (block_size s) = block_log s) as -> by (rewrite Hs, Z.log2_pow2; lia).
  repeat (apply Forall_cons in Ho as [? Ho]). unfold inside in *.
  case_match eqn:E4; [lia|]. case_match eqn:E5; [lia|]. case_match eqn:E6; [lia|].
  case_match eqn:E7; [lia|done].
Qed.

(** [Superblock::validate] never panics (the [ilog2] it calls
    is guarded) and accepts exactly the superblocks of the version 4, Zstd format whose
    block size is the power of two between 4 KiB and 1 MiB given by [block_log], whose
    inode, directory and id tables follow one another inside the image, whose optional
    tables are absent or inside the image and whose root lies in a metadata block. *)
Theorem superblock_validate_exact s :
  (exists r, Superblock_validate s = Done r) /\
  (Superblock_validate s = Done (Ok tt) <-> superblock_valid s).
Proof.
  split.
  - unfold Superblock_validate. case_match; [eauto|]. case_match; [eauto|].
    destruct (validate_block_size _) as [[]|] eqn:E3; [|eauto].
    destruct (block_size_log s E3) as (-> & _). simpl. repeat case_match; eauto.
  - split; [apply validate_accepts|apply validate_complete].
Qed.

(** ** Lemmas: bits *)

Lemma testbit_shiftl a k j : 0 <= k -> Z.testbit (Z.shiftl a k) j = (k <=? j) && Z.testbit a (j - k).
Proof.
  intros Hk. destruct (Z.ltb_spec j 0).
  - rewrite Z.testbit_neg_r by done. destruct (Z.leb_spec k j); [lia|done].
  - rewrite Z.shiftl_spec by done. destruct (Z.leb_spec k j); [done|].
    by rewrite Z.testbit_neg_r by lia.
Qed.

Lemma testbit_shiftr a k j : 0 <= k -> Z.testbit (Z.shiftr a k) j = (0 <=? j) && Z.testbit a (j + k).
Proof.
  intros Hk. destruct (Z.leb_spec 0 j).
  - by rewrite Z.shiftr_spec by done.
  - by rewrite Z.testbit_neg_r by done.
Qed.

Lemma testbit_small a n j : 0 <= a < 2 ^ n -> Z.testbit a j = (0 <=? j) && (j <? n) && Z.testbit a j.
Proof.
  intros Ha. destruct (Z.leb_spec 0 j); [|by rewrite Z.testbit_neg_r by done].
  destruct (Z.ltb_spec j n); [done|].
  assert (0 <= n). { destruct (Z.ltb_spec n 0); [|done]. rewrite (Z.pow_neg_r 2 n) in Ha by done. lia. }
  rewrite <- (Z.mod_small a (2 ^ n)) by done. by rewrite Z.mod_pow2_bits_high by lia.
Qed.

Ltac push_bits :=
  repeat first
    [ rewrite Z.land_spec | rewrite Z.lor_spec
    | rewrite testbit_shiftl by lia | rewrite testbit_shiftr by lia
    | rewrite Z.testbit_ones by lia ].

Ltac decide_cmps :=
  repeat match goal with
  | |- context [?a <=? ?c] => first [ replace (a <=? c) with true by lia | replace (a <=? c) with false by lia ]
  | |- context [?a <? ?c] => first [ replace (a <? c) with true by lia | replace (a <? c) with false by lia ]
  end;
  rewrite ?andb_true_r, ?andb_false_r, ?andb_true_l, ?andb_false_l, ?orb_false_r, ?orb_false_l.

(** The masks as runs of ones. *)
Ltac masks :=
  change 0xfff with (Z.ones 12); change 0xfff00 with (Z.shiftl (Z.ones 12) 8);
  change 0xff with (Z.ones 8).

Lemma lor_shiftl_add a c k : 0 <= k -> 0 <= c < 2 ^ k -> Z.lor (Z.shiftl a k) c = a * 2 ^ k + c.
Proof.
  intros Hk Hc. rewrite <- Z.shiftl_mul_pow2 by done. symmetry. apply Z.add_nocarry_lor.
  apply Z.bits_inj'. intros i Hi. push_bits. rewrite Z.bits_0, (testbit_small c k i) by done.
  destruct (Z.ltb_spec i k); decide_cmps; done.
Qed.

Lemma bits_below d n : 0 <= n -> (forall i, n <= i -> Z.testbit d i = false) -> 0 <= d -> d < 2 ^ n.
Proof.
  intros Hn H Hd. rewrite <- (Z.mod_small d (2 ^ n)); [apply Z.mod_pos_bound; lia|].
  split; [done|]. assert (d `mod` 2 ^ n = d) as <-; [|apply Z.mod_pos_bound; lia].
  apply Z.bits_inj'. intros i Hi. destruct (Z.ltb_spec i n).
  - by rewrite Z.mod_pow2_bits_low by done.
  - rewrite Z.mod_pow2_bits_high by lia. by rewrite H.
Qed.

(** ** Device numbers *)

Definition device_word (major minor : Z) : Z :=
  Z.lor (Z.lor (Z.shiftl (Z.land minor 0xfff00) 12) (Z.shiftl major 8)) (Z.land minor 0xff).

Lemma device_number_ok major minor : 0 <= major < 2 ^ 12 -> 0 <= minor < 2 ^ 20 ->
  device_number major minor = Ok (device_word major minor).
Proof. intros. unfold device_number. case_match; [lia|done]. Qed.

Lemma device_parts_word major minor : 0 <= major < 2 ^ 12 -> 0 <= minor < 2 ^ 20 ->
  device_parts (device_word major minor) = (major, minor).
Proof.
  intros Ha Hi. unfold device_parts, device_word. masks. f_equal; apply Z.bits_inj'; intros i ?; push_bits.
  - rewrite (testbit_small major 12 i) by done.
    destruct (Z.ltb_spec i 12); decide_cmps; [f_equal; lia|done].
  - rewrite (testbit_small major 12 (i + 12 - 8)), (testbit_small minor 20 i) by done.
    destruct (Z.ltb_spec i 8); [|destruct (Z.ltb_spec i 20)]; decide_cmps; try done; f_equal; lia.
Qed.

Lemma device_word_range major minor : 0 <= major < 2 ^ 12 -> 0 <= minor < 2 ^ 20 ->
  0 <= device_word major minor < 2 ^ 32.
Proof.
  intros Ha Hi. unfold device_word.
  assert (forall a c, 0 <= a -> 0 <= c -> 0 <= Z.lor a c) as L by (intros; by apply Z.lor_nonneg).
  assert (0 <= Z.lor (Z.lor (Z.shiftl (Z.land minor 0xfff00) 12) (Z.shiftl major 8)) (Z.land minor 0xff)).
  { repeat apply L; rewrite ?Z.shiftl_nonneg, ?Z.land_nonneg; lia. }
  split; [done|]. apply bits_below; [lia| |done]. intros i ?. masks. push_bits.
  rewrite (testbit_small major 12 (i - 8)) by done. decide_cmps. done.
Qed.

Lemma device_word_parts d : 0 <= d < 2 ^ 32 ->
  device_word (device_parts d).1 (device_parts d).2 = d.
Proof.
  intros Hd. unfold device_parts, device_word. masks. apply Z.bits_inj'. intros i ?. simpl. push_bits.
  rewrite (testbit_small d 32 i) by done.
  destruct (Z.ltb_spec i 8); [|destruct (Z.ltb_spec i 20); [|destruct (Z.ltb_spec i 32)]];
    decide_cmps; try done; f_equal; lia.
Qed.

Lemma device_parts_range d : 0 <= d < 2 ^ 32 ->
  0 <= (device_parts d).1 < 2 ^ 12 /\ 0 <= (device_parts d).2 < 2 ^ 20.
Proof.
  intros Hd. unfold device_parts. simpl. masks.
  assert (forall a c, 0 <= a -> 0 <= Z.land a c) as L by (intros; apply Z.land_nonneg; by left).
  assert (forall k, 0 <= Z.shiftr d k) as S by (intros; apply Z.shiftr_nonneg; lia).
  split; (split; [rewrite ?Z.lor_nonneg; auto with lia|]); (apply bits_below; [lia| |rewrite ?Z.lor_nonneg; auto with lia]);
    intros i ?; push_bits; by decide_cmps.
Qed.

(** Device numbers survive the packing into 32 bits both ways: the
    parts of a packed number are the major and minor it was made of, packing the parts
    of any 32-bit word gives the word, and exactly the numbers with a major of more than
    12 bits or a minor of more than 20 are refused. *)
Theorem device_roundtrip :
  (forall major minor d, 0 <= major -> 0 <= minor -> device_number major minor = Ok d ->
     0 <= d < 2 ^ 32 /\ device_parts d = (major, minor)) /\
  (forall d, 0 <= d < 2 ^ 32 -> let '(major, minor) := device_parts d in device_number major minor = Ok d) /\
  (forall major minor, is_ok (device_number major minor) = (major <? 2 ^ 12) && (minor <? 2 ^ 20)).
Proof.
  split; [|split].
  - intros major minor d Ha Hi. unfold device_number. case_match eqn:E; [done|]. intros [= <-].
    apply orb_false_iff in E as [? ?].
    split; [apply device_word_range; lia|apply device_parts_word; lia].
  - intros d Hd. destruct (device_parts d) as [major minor] eqn:E.
    pose proof (device_parts_range d Hd) as R. pose proof (device_word_parts d Hd) as W.
    rewrite E in R, W. simpl in *. rewrite device_number_ok by lia. by rewrite W.
  - intros major minor. unfold device_number. case_match eqn:E; simpl; lia.
Qed.

(** ** Inode kinds and attribute namespaces *)

Lemma from_disk_basic k : InodeKind_from_disk (InodeKind_basic k) = Ok k.
Proof. by destruct k. Qed.

Lemma from_disk_extended k : InodeKind_from_disk (InodeKind_extended k) = Ok k.
Proof. by destruct k. Qed.

Lemma bytes_strip_prefix_Some p name rest : strip_prefix p name = Some rest <-> name = p ++ rest.
Proof.
  revert name. induction p as [|x p IH]; intros name; simpl; [split; congruence|].
  destruct name as [|y n]; [done|]. case_decide as E.
  - subst. rewrite IH. split; [by intros ->|by intros [= ->]].
  - split; [done|]. by intros [= ->].
Qed.

(** The namespace number and the rest that [xattr_kind] finds in an
    attribute's name are the ones the reader puts together again: prepending the prefix
    of that number to the rest gives the name, and no other number does. *)
Theorem xattr_kind_exact name kind rest :
  xattr_kind name = Some (kind, rest) <->
  0 <= kind /\ exists p, XATTR_PREFIXES !! Z.to_nat kind = Some p /\ name = p ++ rest.
Proof.
  unfold xattr_kind. cbn [find_prefix XATTR_PREFIXES]. split.
  - intros H. repeat case_match; simplify_eq;
      match goal with E : strip_prefix _ _ = Some _ |- _ => apply bytes_strip_prefix_Some in E as -> end;
      (split; [lia|]); eexists; (split; [|reflexivity]); reflexivity.
  - intros [Hk (p & Hp & ->)]. destruct (Z.to_nat kind) as [|[|[|n]]] eqn:E; [..|by destruct n];
      injection Hp as <-; replace kind with (Z.of_nat (Z.to_nat kind)) by lia; rewrite E; reflexivity.
Qed.

Module SquashFormatExamples.

Definition block : Superblock :=
  match Superblock_new 131072 1234 with Done s => s | Panic => mkSuperblock 0 0 0 0 0 0 0 0 0 0 0 0 0 0 0 0 0 0 0 end.

Example superblock_wire_layout :
  length (serialize block) = 96%nat /\
  take 4 (serialize block) = bstr "hsqs" /\
  take 4 (drop 20 (serialize block)) = le_split 2 6 ++ le_split 2 17 /\
  take 2 (drop 24 (serialize block)) = le_split 1 160 ++ le_split 1 0.
Proof. vm_compute. done. Qed.

Example signed_directory_delta_is_little_endian :
  serialize (mkDirectoryEntry 33 (-12) 2 255) =
  map (fun n => Strings.Byte.of_N n) [33; 0; 244; 255; 2; 0; 255; 0]%N ≫= option_list.
Proof. by vm_compute. Qed.

Lemma xattr_kind_exact_witness : xattr_kind (bstr "trusted.x") = Some (1, bstr "x").
Proof.
  apply (proj2 (xattr_kind_exact (bstr "trusted.x") 1 (bstr "x"))).
  split; [lia|]. by exists (bstr "trusted.").
Defined.

Lemma disk_roundtrip_witness : deserialize (serialize block ++ bstr "rest") = Ok (block, bstr "rest").
Proof. apply (proj1 (proj2 (disk_roundtrip (T := Superblock)))). vm_compute. reflexivity. Defined.

Lemma device_roundtrip_witness : device_parts 0x80001400 = (20, 0x80000).
Proof.
  apply (proj1 device_roundtrip 20 0x80000 0x80001400); [lia..|]. vm_compute. reflexivity.
Defined.

End SquashFormatExamples.
