(* ===== verification/SquashBlocks.v ===== *)
(** * SquashFS metadata blocks

    [shared-libs/crates/start-core/src/util/squashfs/blocks.rs]: compressed blocks of
    bounded size, the writer and the reader of the stream of metadata blocks, and the
    metadata tables of an image.

    Zstd is a parameter, the class [Zstd]: [zstd::bulk::compress] and the streaming
    decoder of [async_compression], with their documented behaviour in [ZstdOk].

    The writer and the reader wrap an arbitrary [Write], [AsyncWrite], [Read] or
    [AsyncRead].  It is a [Sink] or a [Source] with a script of responses, one per call:
    how many bytes were moved, an error, or not ready; when the script ends, a call moves
    all it can.  Every execution in which a call returns uses finitely many responses, so
    the scripts are all the behaviours of the inner object that the wrapper can see.
    [Vec<u8>] is the sink with an empty script. *)
From S2P Require Import Prelude RustStr SquashFormat.

Local Open Scope rust_scope.

(** ** Results of a poll and the state monad *)

Inductive res (A : Type) : Type :=
| Ready (a : A)
| Fail (e : io_error)
| Pending
| Panics.
Arguments Ready {A} a.
Arguments Fail {A} e.
Arguments Pending {A}.
Arguments Panics {A}.

Definition M (S A : Type) : Type := S -> S * res A.

Definition m_ret {S A} (a : A) : M S A := fun s => (s, Ready a).

Definition m_bind {S A B} (m : M S A) (f : A -> M S B) : M S B := fun s =>
  match m s with
  | (s', Ready a) => f a s'
  | (s', Fail e) => (s', Fail e)
  | (s', Pending) => (s', Pending)
  | (s', Panics) => (s', Panics)
  end.

Declare Scope poll_scope.
Delimit Scope poll_scope with poll.
Notation "'let>' x ':=' m 'in' k" := (m_bind m (fun x => k))
  (at level 10, x pattern, m at level 100, k at level 200) : poll_scope.
Notation "m ;> k" := (m_bind m (fun _ => k)) (at level 100, right associativity) : poll_scope.
Local Open Scope poll_scope.

(** The body of a [loop] returns [Some] to leave it and [None] to go on. *)
Fixpoint rounds {S A} (fuel : nat) (round : M S (option A)) : M S A :=
  match fuel with
  | 0 => fun s => (s, Panics)
  | Datatypes.S n =>
      let> o := round in
      match o with Some a => m_ret a | None => rounds n round end
  end.

(** [Err(e) if e.kind() == Interrupted => continue]. *)
Definition retry_interrupted {S A} (m : M S A) : M S (option A) := fun s =>
  match m s with
  | (s', Ready a) => (s', Ready (Some a))
  | (s', Fail Interrupted) => (s', Ready None)
  | (s', Fail e) => (s', Fail e)
  | (s', Pending) => (s', Pending)
  | (s', Panics) => (s', Panics)
  end.

Definition m_fail {S A} (e : io_error) : M S A := fun s => (s, Fail e).

(** A call that does not touch the state. *)
Definition lift_io {S A} (r : io A) : M S A := fun s =>
  (s, match r with Ok a => Ready a | Err e => Fail e end).

Definition is_empty {A} (l : list A) : bool := match l with [] => true | _ => false end.

(** ** The objects that are wrapped *)

Inductive response : Type :=
| Moved (n : nat)
| Failed (e : io_error)
| NotReady.

Record Sink : Type := mkSink { sunk : bytes; wscript : list response }.

(** [AsyncWrite::poll_write]: a prefix of the buffer is taken. *)
Definition sink_poll_write (buf : bytes) : M Sink nat := fun s =>
  match wscript s with
  | [] => (mkSink (sunk s ++ buf) [], Ready (length buf))
  | Moved n :: r => (mkSink (sunk s ++ take n buf) r, Ready (length (take n buf)))
  | Failed e :: r => (mkSink (sunk s) r, Fail e)
  | NotReady :: r => (mkSink (sunk s) r, Pending)
  end.

(** [AsyncWrite::poll_flush] and [poll_shutdown]. *)
Definition sink_poll_flush : M Sink unit := fun s =>
  match wscript s with
  | [] => (s, Ready tt)
  | Moved _ :: r => (mkSink (sunk s) r, Ready tt)
  | Failed e :: r => (mkSink (sunk s) r, Fail e)
  | NotReady :: r => (mkSink (sunk s) r, Pending)
  end.

(** A blocking object that is not ready answers [WouldBlock]. *)
Definition blocking {S A} (m : M S A) : M S A := fun s =>
  match m s with
  | (s', Pending) => (s', Fail WouldBlock)
  | r => r
  end.

Definition sink_write (buf : bytes) : M Sink nat := blocking (sink_poll_write buf).
Definition sink_flush : M Sink unit := blocking sink_poll_flush.

Record Source : Type := mkSource { data : bytes; rscript : list response }.

(** The first bytes of the source that a call which may move [n] bytes at most gets;
    at least one unless the source is at its end. *)
Definition take_data (n : nat) (s : Source) (r : list response) : Source * res bytes :=
  (mkSource (drop n (data s)) r, Ready (take n (data s))).

(** [AsyncRead::poll_read] into a buffer of [len > 0] bytes. *)
Definition source_poll_read (len : nat) : M Source bytes := fun s =>
  match rscript s with
  | [] => take_data len s []
  | Moved n :: r => take_data (S n `min` len) s r
  | Failed e :: r => (mkSource (data s) r, Fail e)
  | NotReady :: r => (mkSource (data s) r, Pending)
  end.

Definition source_read (len : nat) : M Source bytes := blocking (source_poll_read len).

(** ** Compressed blocks *)

Class Zstd : Type := {
  (** An error has a code, which [io::Error::other] wraps. *)
  compress : bytes -> Z -> result bytes N;
  Decoder : Type;
  decoder_new : Decoder;
  (** [Decode::decode] on the unread input and the room left in the output: the bytes it
      has read, the bytes it has written and whether the frame has ended. *)
  decoder_decode : Decoder -> bytes -> nat -> result (Decoder * nat * bytes * bool) io_error;
}.

Class ZstdOk (Z : Zstd) : Prop := {
  decoder_bounds : forall d i room d' n o done,
    decoder_decode d i room = Ok (d', n, o, done) -> n <= length i /\ length o <= room;
  (** A frame starts with a magic number. *)
  compress_nonempty : forall content level frame, compress content level = Ok frame -> frame ≠ [];
  (** A new decoder that is given a frame reads it to its end and writes the content,
      in steps of any size: while there is room it makes progress, and it reports the
      end when both are exhausted. *)
  decoder_frame : forall content level frame, compress content level = Ok frame ->
    exists R : bytes -> bytes -> Decoder -> Prop,
      R frame content decoder_new /\
      forall i o d room, R i o d -> 0 < room ->
        exists d' i1 i2 o1 o2 done,
          i = i1 ++ i2 /\ o = o1 ++ o2 /\
          decoder_decode d i room = Ok (d', length i1, o1, done) /\
          (done = true /\ i2 = [] /\ o2 = [] \/
           done = false /\ R i2 o2 d' /\ (i1 ≠ [] \/ o1 ≠ []));
}.

Definition METADATA_SIZE : nat := Z.to_nat 8192.
Definition UNCOMPRESSED_METADATA : Z := Z.shiftl 1 15.
Definition UNCOMPRESSED_DATA : Z := Z.shiftl 1 24.

Record EncodedBlock : Type := mkEncoded { eb_bytes : bytes; eb_compressed : bool }.

Section Blocks.
Context `{ZS : Zstd}.

Definition encode_block (bs : bytes) (level : Z) : io EncodedBlock :=
  match compress bs level with
  | Err code => Err (Other code)
  | Ok result => Ok (if length bs <=? length result then mkEncoded bs false else mkEncoded result true)
  end.

(** The loop of [decode_block]: the decoder, what it has not read and what it has
    written. *)
Fixpoint decode_loop (fuel : nat) (decoder : Decoder) (input output : bytes) (limit : nat) : io bytes :=
  match fuel with
  | 0 => invalid $"unreachable"
  | S n =>
      let? (decoder', read, written, done) := decoder_decode decoder input (limit + 1 - length output) in
      let input' := drop read input in
      let output' := output ++ written in
      if limit <? length output' then invalid $"decompressed SquashFS block exceeds its limit"
      else if (done : bool) then
        if is_empty input' then Ok output' else invalid $"trailing bytes in compressed SquashFS block"
      else if (read =? 0) && is_empty written then invalid $"incomplete compressed SquashFS block"
      else decode_loop n decoder' input' output' limit
  end.

Definition decode_block (bs : bytes) (compressed : bool) (limit : nat) : io bytes :=
  if negb compressed then
    if limit <? length bs then invalid $"uncompressed SquashFS block exceeds its limit" else Ok bs
  else decode_loop (S (length bs + limit)) decoder_new bs [] limit.

(** ** The writer *)

Record MetadataBlocksWriter : Type := mkWriter {
  writer : Sink;
  input : bytes;
  output : bytes;
  output_position : nat;
  level : Z;
}.

Definition MetadataBlocksWriter_with_level (w : Sink) (level : Z) : MetadataBlocksWriter :=
  mkWriter w [] [] 0 level.

(** [new]: the level of [Options::default()]. *)
Definition MetadataBlocksWriter_new (w : Sink) : MetadataBlocksWriter :=
  MetadataBlocksWriter_with_level w 15.

(** A call of the wrapped object. *)
Definition with_writer {A} (m : M Sink A) : M MetadataBlocksWriter A := fun w =>
  let '(s, r) := m (writer w) in (mkWriter s (input w) (output w) (output_position w) (level w), r).

Definition prepare_block : M MetadataBlocksWriter unit := fun w =>
  if is_empty (output w) && negb (is_empty (input w)) then
    match encode_block (input w) (level w) with
    | Err e => (w, Fail e)
    | Ok block =>
        let header := Z.lor (Z.of_nat (length (eb_bytes block)) `mod` 2 ^ 16)%Z
                        (if eb_compressed block then 0 else UNCOMPRESSED_METADATA)%Z in
        (mkWriter (writer w) [] (output w ++ to_le_bytes u16 header ++ eb_bytes block)
           (output_position w) (level w), Ready tt)
    end
  else (w, Ready tt).

Definition accept (bs : bytes) : M MetadataBlocksWriter nat := fun w =>
  if METADATA_SIZE <? length (input w) then (w, Panics)
  else
    let count := length bs `min` (METADATA_SIZE - length (input w)) in
    (mkWriter (writer w) (input w ++ take count bs) (output w) (output_position w) (level w), Ready count).

Definition advance_output (count : nat) : M MetadataBlocksWriter unit := fun w =>
  if count =? 0 then (w, Fail WriteZero)
  else if output_position w + count =? length (output w) then
    (mkWriter (writer w) (input w) [] 0 (level w), Ready tt)
  else (mkWriter (writer w) (input w) (output w) (output_position w + count) (level w), Ready tt).

(** [&self.output[self.output_position..]]. *)
Definition pending_output : M MetadataBlocksWriter bytes := fun w =>
  if output_position w <=? length (output w) then (w, Ready (drop (output_position w) (output w)))
  else (w, Panics).

(** The loop of [flush]; one response of the sink per round, and none left writes all. *)
Definition flush_round : M MetadataBlocksWriter (option unit) := fun w =>
  if is_empty (output w) then (w, Ready (Some tt))
  else
    (let> o := retry_interrupted (let> buf := pending_output in with_writer (sink_write buf)) in
     match o with
     | None => m_ret None
     | Some count => advance_output count ;> m_ret None
     end) w.

Definition flush : M MetadataBlocksWriter unit :=
  prepare_block ;>
  (fun w => rounds (2 + length (wscript (writer w))) flush_round w) ;>
  with_writer sink_flush.

Definition write (bs : bytes) : M MetadataBlocksWriter nat := fun w =>
  if is_empty bs then (w, Ready 0)
  else ((if (length (input w) =? METADATA_SIZE) || negb (is_empty (output w)) then flush else m_ret tt) ;>
        accept bs) w.

Definition poll_flush_round : M MetadataBlocksWriter (option unit) := fun w =>
  if is_empty (output w) then (w, Ready (Some tt))
  else
    (let> buf := pending_output in
     let> count := with_writer (sink_poll_write buf) in
     advance_output count ;> m_ret None) w.

Definition poll_flush : M MetadataBlocksWriter unit :=
  prepare_block ;>
  (fun w => rounds (2 + length (wscript (writer w))) poll_flush_round w) ;>
  with_writer sink_poll_flush.

Definition poll_write (bs : bytes) : M MetadataBlocksWriter nat := fun w =>
  if is_empty bs then (w, Ready 0)
  else ((if (length (input w) =? METADATA_SIZE) || negb (is_empty (output w)) then poll_flush else m_ret tt) ;>
        accept bs) w.

Definition poll_shutdown : M MetadataBlocksWriter unit := poll_flush ;> with_writer sink_poll_flush.

(** ** Metadata tables *)

(** [Write::write_all]; a round takes a byte at least or uses up a response. *)
Fixpoint write_all_loop (fuel : nat) (buf : bytes) : M MetadataBlocksWriter unit :=
  match fuel with
  | 0 => fun w => (w, Panics)
  | S n =>
      if is_empty buf then m_ret tt
      else
        let> o := retry_interrupted (write buf) in
        match o with
        | None => write_all_loop n buf
        | Some 0 => m_fail WriteZero
        | Some k => write_all_loop n (drop k buf)
        end
  end.

Definition write_all (buf : bytes) : M MetadataBlocksWriter unit := fun w =>
  write_all_loop (1 + length buf + length (wscript (writer w))) buf w.

(** [MetadataTable] is its writer, over a [Vec<u8>]. *)
Abbreviation MetadataTable := MetadataBlocksWriter.

Definition MetadataTable_new (level : Z) : MetadataTable :=
  MetadataBlocksWriter_with_level (mkSink [] []) level.

Definition flush_full : M MetadataTable unit := fun w =>
  if length (input w) =? METADATA_SIZE then flush w else (w, Ready tt).

Definition table_position : M MetadataTable Z := fun w =>
  let block := Z.of_nat (length (sunk (writer w))) in
  if negb (in_range u32 block) then (w, Fail (InvalidData $"SquashFS metadata table exceeds 4 GiB"))
  else (w, Ready (Z.lor (Z.shiftl block 16) (Z.of_nat (length (input w))))).

Definition MetadataTable_reference : M MetadataTable Z := flush_full ;> table_position.

(** The vector the table is written to. *)
Definition table_bytes : M MetadataTable bytes := fun w => (w, Ready (sunk (writer w))).

Definition MetadataTable_finish : M MetadataTable bytes := flush ;> table_bytes.

(** ** The reader *)

Record MetadataDecoder : Type := mkDecoder {
  header : bytes;
  header_position : nat;
  payload : bytes;
  payload_position : nat;
  compressed : bool;
  d_output : bytes;
  d_output_position : nat;
}.

Definition MetadataDecoder_new : MetadataDecoder :=
  mkDecoder (replicate 2 Byte.x00) 0 [] 0 false [] 0.

(** [Vec::resize(size, 0)]. *)
Definition resize (v : bytes) (size : nat) : bytes := take size v ++ replicate (size - length v) Byte.x00.

Definition accept_header : M MetadataDecoder unit := fun d =>
  let h := from_le_bytes u16 (header d) in
  let size := Z.to_nat (Z.ldiff h UNCOMPRESSED_METADATA) in
  if (size =? 0) || (METADATA_SIZE <? size) then
    (d, Fail (InvalidData $"invalid SquashFS metadata block size"))
  else
    (mkDecoder (header d) (header_position d) (resize (payload d) size) 0
       (Z.land h UNCOMPRESSED_METADATA =? 0)%Z (d_output d) (d_output_position d), Ready tt).

Definition decode : M MetadataDecoder unit := fun d =>
  match decode_block (payload d) (compressed d) METADATA_SIZE with
  | Err e => (d, Fail e)
  | Ok output =>
      let d' := mkDecoder (header d) (header_position d) (payload d) (payload_position d)
                  (compressed d) output (d_output_position d) in
      if is_empty output then (d', Fail (InvalidData $"empty SquashFS metadata block"))
      else (mkDecoder (header d) 0 [] (payload_position d) (compressed d) output 0, Ready tt)
  end.

(** The bytes copied into a buffer of [len] bytes. *)
Definition copy_output (len : nat) : M MetadataDecoder bytes := fun d =>
  if length (d_output d) <? d_output_position d then (d, Panics)
  else
    let count := len `min` (length (d_output d) - d_output_position d) in
    (mkDecoder (header d) (header_position d) (payload d) (payload_position d) (compressed d)
       (d_output d) (d_output_position d + count),
     Ready (take count (drop (d_output_position d) (d_output d)))).

Record MetadataBlocksReader : Type := mkReader { reader : Source; decoder : MetadataDecoder }.

Definition MetadataBlocksReader_new (r : Source) : MetadataBlocksReader := mkReader r MetadataDecoder_new.

Definition with_reader {A} (m : M Source A) : M MetadataBlocksReader A := fun r =>
  let '(s, x) := m (reader r) in (mkReader s (decoder r), x).

Definition with_decoder {A} (m : M MetadataDecoder A) : M MetadataBlocksReader A := fun r =>
  let '(d, x) := m (decoder r) in (mkReader (reader r) d, x).

(** Bytes stored into a buffer from a position on. *)
Definition store (pos : nat) (bs buf : bytes) : bytes := take pos buf ++ bs ++ drop (pos + length bs) buf.

Definition store_header (bs : bytes) : M MetadataDecoder unit := fun d =>
  (mkDecoder (store (header_position d) bs (header d)) (header_position d) (payload d)
     (payload_position d) (compressed d) (d_output d) (d_output_position d), Ready tt).

Definition advance_header (count : nat) : M MetadataDecoder unit := fun d =>
  (mkDecoder (header d) (header_position d + count) (payload d) (payload_position d)
     (compressed d) (d_output d) (d_output_position d), Ready tt).

Definition store_payload_at (pos : nat) (bs : bytes) : M MetadataDecoder unit := fun d =>
  (mkDecoder (header d) (header_position d) (store pos bs (payload d))
     (payload_position d) (compressed d) (d_output d) (d_output_position d), Ready tt).

Definition store_payload (bs : bytes) : M MetadataDecoder unit := fun d =>
  store_payload_at (payload_position d) bs d.

Definition advance_payload (count : nat) : M MetadataDecoder unit := fun d =>
  (mkDecoder (header d) (header_position d) (payload d) (payload_position d + count)
     (compressed d) (d_output d) (d_output_position d), Ready tt).

(** [Read::read_exact] of the source into the payload from [pos] on; what was read
    before an error stays in the buffer. *)
Fixpoint read_payload_loop (fuel : nat) (pos : nat) : M MetadataBlocksReader unit := fun r =>
  match fuel with
  | 0 => (r, Panics)
  | S n =>
      let room := length (payload (decoder r)) - pos in
      if room =? 0 then (r, Ready tt)
      else
        (let> o := retry_interrupted (with_reader (source_read room)) in
         match o with
         | None => read_payload_loop n pos
         | Some [] => m_fail UnexpectedEof
         | Some bs => with_decoder (store_payload_at pos bs) ;> read_payload_loop n (pos + length bs)
         end) r
  end.

Definition read_payload : M MetadataBlocksReader unit := fun r =>
  let pos := payload_position (decoder r) in
  if length (payload (decoder r)) <? pos then (r, Panics)
  else read_payload_loop (1 + length (payload (decoder r)) + length (rscript (reader r))) pos r.

Definition header_at : M MetadataBlocksReader nat := fun r => (r, Ready (header_position (decoder r))).

(** [read_exact] of the payload and [decode]; the loop goes on with its output. *)
Definition read_body {A} : M MetadataBlocksReader (option A) :=
  read_payload ;> with_decoder decode ;> m_ret None.

(** The loop of [read] into a buffer of [len] bytes; a round that does not return reads a
    byte at least, uses up a response or leaves output for the next round. *)
Definition read_round (len : nat) : M MetadataBlocksReader (option bytes) :=
  let> out := with_decoder (copy_output len) in
  if negb (is_empty out) then m_ret (Some out)
  else
    let> hp := header_at in
    if hp <? 2 then
      let> o := retry_interrupted (with_reader (source_read (2 - hp))) in
      match o with
      | None => m_ret None
      | Some bs =>
          with_decoder (store_header bs) ;>
          if is_empty bs then (if hp =? 0 then m_ret (Some []) else m_fail UnexpectedEof)
          else
            with_decoder (advance_header (length bs)) ;>
            if hp + length bs =? 2 then with_decoder accept_header ;> read_body else m_ret None
      end
    else read_body.

Definition round_fuel (r : MetadataBlocksReader) : nat :=
  4 + length (data (reader r)) + length (rscript (reader r)).

Definition read (len : nat) : M MetadataBlocksReader bytes := fun r =>
  if len =? 0 then (r, Ready []) else rounds (round_fuel r) (read_round len) r.

(** The rest of the payload's buffer, [&mut payload[payload_position..]]. *)
Definition payload_left : M MetadataBlocksReader nat := fun r =>
  let d := decoder r in
  if length (payload d) <? payload_position d then (r, Panics)
  else (r, Ready (length (payload d) - payload_position d)).

Definition decode_full : M MetadataBlocksReader unit := fun r =>
  if payload_position (decoder r) =? length (payload (decoder r)) then with_decoder decode r
  else (r, Ready tt).

Definition poll_body {A} : M MetadataBlocksReader (option A) :=
  let> remaining := payload_left in
  let> bs := with_reader (source_poll_read remaining) in
  with_decoder (store_payload bs) ;>
  if is_empty bs then m_fail UnexpectedEof
  else with_decoder (advance_payload (length bs)) ;> decode_full ;> m_ret None.

Definition poll_round (len : nat) : M MetadataBlocksReader (option bytes) :=
  let> out := with_decoder (copy_output len) in
  if negb (is_empty out) then m_ret (Some out)
  else
    let> hp := header_at in
    if hp <? 2 then
      let> bs := with_reader (source_poll_read (2 - hp)) in
      with_decoder (store_header bs) ;>
      if is_empty bs then (if hp =? 0 then m_ret (Some []) else m_fail UnexpectedEof)
      else
        with_decoder (advance_header (length bs)) ;>
        if hp + length bs =? 2 then with_decoder accept_header ;> poll_body else m_ret None
    else poll_body.

Definition poll_read (len : nat) : M MetadataBlocksReader bytes := fun r =>
  if len =? 0 then (r, Ready []) else rounds (round_fuel r) (poll_round len) r.
End Blocks.

(** ** Postconditions *)

Definition post {S A} (m : M S A) (s : S) (Q : S -> res A -> Prop) : Prop := Q (m s).1 (m s).2.

(** A goal on the result of a computation at [st], as a [post]. *)
Ltac fold_post st :=
  match goal with |- context [fst (?m st)] => match goal with |- ?G =>
    match eval pattern (m st) in G with ?P _ => change (post m st (fun s x => P (s, x))) end end end.

#[global] Arguments post : simpl never.
#[global] Arguments m_bind : simpl never.

(** What a bind does after its first part. *)
Definition and_then {S A B} (f : A -> M S B) (Q : S -> res B -> Prop) (s : S) (r : res A) : Prop :=
  match r with
  | Ready a => post (f a) s Q
  | Fail e => Q s (Fail e)
  | Pending => Q s Pending
  | Panics => Q s Panics
  end.

Section post.
Context {S A B : Type}.
Implicit Types (s : S).

Lemma post_bind (m : M S A) (f : A -> M S B) s Q : post m s (and_then f Q) -> post (m_bind m f) s Q.
Proof. unfold post, m_bind. by destruct (m s) as [s' []]. Qed.

Lemma post_mono (m : M S A) s (P Q : S -> res A -> Prop) :
  post m s P -> (forall s' r, P s' r -> Q s' r) -> post m s Q.
Proof. intros H HPQ. by apply HPQ. Qed.

Lemma post_ret (a : A) s (Q : S -> res A -> Prop) : Q s (Ready a) -> post (m_ret a) s Q.
Proof. done. Qed.

Lemma post_fail e s (Q : S -> res A -> Prop) : Q s (Fail e) -> post (m_fail e) s Q.
Proof. done. Qed.

Definition retried (Q : S -> res (option A) -> Prop) (s : S) (r : res A) : Prop :=
  match r with
  | Ready a => Q s (Ready (Some a))
  | Fail Interrupted => Q s (Ready None)
  | Fail e => Q s (Fail e)
  | Pending => Q s Pending
  | Panics => Q s Panics
  end.

Lemma post_retry (m : M S A) s Q : post m s (retried Q) -> post (retry_interrupted m) s Q.
Proof. unfold post, retry_interrupted. destruct (m s) as [s' [| []| |]]; done. Qed.

Lemma post_blocking (m : M S A) s (Q : S -> res A -> Prop) :
  post m s (fun s' r => match r with Pending => Q s' (Fail WouldBlock) | _ => Q s' r end) ->
  post (blocking m) s Q.
Proof. unfold post, blocking. destruct (m s) as [s' []]; done. Qed.

End post.

(** A loop whose rounds keep an invariant and decrease a measure below the fuel. *)
Lemma post_rounds {S A} (I : S -> Prop) (measure : S -> nat) (round : M S (option A)) (Q : S -> res A -> Prop) :
  (forall s, I s -> post round s (fun s' r =>
     match r with
     | Ready (Some a) => Q s' (Ready a)
     | Ready None => I s' /\ measure s' < measure s
     | Fail e => Q s' (Fail e)
     | Pending => Q s' Pending
     | Panics => Q s' Panics
     end)) ->
  forall fuel s, I s -> measure s < fuel -> post (rounds fuel round) s Q.
Proof.
  intros H fuel. induction fuel as [|n IH]; intros s Hs Hm; [lia|]. simpl.
  apply post_bind. eapply post_mono; [by apply H|]. intros s' [[a|]|e| |]; simpl; try done.
  intros [Hs' Hlt]. apply IH; [done|lia].
Qed.

Lemma is_empty_true {A} (l : list A) : is_empty l = true <-> l = [].
Proof. by destruct l. Qed.

Lemma is_empty_false {A} (l : list A) : is_empty l = false <-> l ≠ [].
Proof. by destruct l. Qed.

(** ** Lemmas: compressed blocks *)

Section blocks.
Context `{ZS : Zstd} `{!ZstdOk ZS}.

(** The loop ends: it reads or writes in every round but the last, and writes no more
    than the limit. *)
Lemma decode_loop_fuel n m d i o limit :
  length i + (limit - length o) < n -> length i + (limit - length o) < m ->
  decode_loop n d i o limit = decode_loop m d i o limit.
Proof.
  revert m d i o. induction n as [|n IH]; intros [|m] d i o Hn Hm; [lia..|]. simpl.
  destruct (decoder_decode _ _ _) as [[[[d' k] out] fin]|] eqn:E; simpl; [|done].
  apply decoder_bounds in E as [Hk Ho].
  destruct (Nat.ltb_spec limit (length (o ++ out))) as [|Hl]; [done|].
  destruct fin; [done|].
  destruct ((k =? 0) && is_empty out) eqn:Ep; [done|]. rewrite length_app in Hl.
  assert (0 < k + length out).
  { destruct k as [|k]; simpl in Ep; [|lia]. apply is_empty_false in Ep. destruct out; [done|simpl; lia]. }
  apply IH; rewrite length_drop, length_app; lia.
Qed.

Lemma decode_loop_bounded n d i o limit out : decode_loop n d i o limit = Ok out -> length out <= limit.
Proof.
  revert d i o. induction n as [|n IH]; intros d i o; simpl; [done|].
  destruct (decoder_decode _ _ _) as [[[[d' k] w] fin]|] eqn:E; simpl; [|done].
  destruct (Nat.ltb_spec limit (length (o ++ w))); [done|].
  destruct fin; [|case_match; [done|]; apply IH].
  case_match; [|done]. by intros [= <-].
Qed.

Lemma decode_loop_frame (R : bytes -> bytes -> Decoder -> Prop) :
  (forall i o d room, R i o d -> 0 < room ->
     exists d' i1 i2 o1 o2 done,
       i = i1 ++ i2 /\ o = o1 ++ o2 /\
       decoder_decode d i room = Ok (d', length i1, o1, done) /\
       (done = true /\ i2 = [] /\ o2 = [] \/
        done = false /\ R i2 o2 d' /\ (i1 ≠ [] \/ o1 ≠ []))) ->
  forall n d i o limit written, R i o d -> length written + length o <= limit ->
    length i + (limit - length written) < n ->
    decode_loop n d i written limit = Ok (written ++ o).
Proof.
  intros HR n. induction n as [|n IH]; intros d i o limit written Hr Hl Hn; [lia|]. simpl.
  destruct (HR i o d (limit + 1 - length written) Hr) as (d' & i1 & i2 & o1 & o2 & fin & -> & -> & -> & H); [lia|].
  simpl. rewrite length_app in Hl, Hn. rewrite drop_app_length.
  destruct (Nat.ltb_spec limit (length (written ++ o1))) as [Hx|]; [rewrite length_app in Hx; lia|].
  destruct H as [(-> & -> & ->)|(-> & Hr' & Hp)]; [by rewrite app_nil_r|].
  destruct ((length i1 =? 0) && is_empty o1) eqn:E.
  { apply andb_true_iff in E as [E1 E2]. apply is_empty_true in E2.
    apply Nat.eqb_eq, nil_length_inv in E1. by destruct Hp. }
  rewrite (IH d' i2 o2), <- app_assoc; [done|done|rewrite length_app; lia|].
  assert (0 < length i1 + length o1) by (destruct i1, o1; simpl; try lia; by destruct Hp).
  rewrite length_app. lia.
Qed.

Lemma encode_block_length bs lv e : encode_block bs lv = Ok e -> length (eb_bytes e) <= length bs.
Proof.
  unfold encode_block. destruct (compress bs lv) as [f|]; [|done]. intros [= <-].
  destruct (Nat.leb_spec (length bs) (length f)); simpl; lia.
Qed.

Lemma encode_block_nonempty bs lv e : bs ≠ [] -> encode_block bs lv = Ok e -> eb_bytes e ≠ [].
Proof.
  unfold encode_block. destruct (compress bs lv) as [frame|] eqn:E; [|done].
  apply compress_nonempty in E. intros ? [= <-]. by case_match.
Qed.

Lemma decode_encode_block bs lv e limit : length bs <= limit ->
  encode_block bs lv = Ok e -> decode_block (eb_bytes e) (eb_compressed e) limit = Ok bs.
Proof.
  intros Hl. unfold encode_block. destruct (compress bs lv) as [frame|] eqn:E; [|done].
  intros [= <-]. unfold decode_block. destruct (length bs <=? length frame); cbn [eb_bytes eb_compressed negb].
  - destruct (Nat.ltb_spec limit (length bs)); [lia|done].
  - apply decoder_frame in E as (R & H0 & HR).
    rewrite (decode_loop_frame R HR _ _ _ bs); [done|done|simpl; lia..].
Qed.

(** ** The stream of blocks *)

(** A metadata block as [prepare_block] lays it out. *)
Definition metadata_block (lv : Z) (c : bytes) : io bytes :=
  let? block := encode_block c lv in
  let h := Z.lor (Z.of_nat (length (eb_bytes block)) `mod` 2 ^ 16)%Z
             (if eb_compressed block then 0 else UNCOMPRESSED_METADATA)%Z in
  Ok (to_le_bytes u16 h ++ eb_bytes block).

(** [stream lv blocks bs]: [bs] are the encoded blocks with these contents. *)
Inductive stream (lv : Z) : list bytes -> bytes -> Prop :=
| stream_nil : stream lv [] []
| stream_cons c enc cs bs :
    c ≠ [] -> length c <= METADATA_SIZE -> metadata_block lv c = Ok enc ->
    stream lv cs bs -> stream lv (c :: cs) (enc ++ bs).

Lemma stream_app lv xs ys a c : stream lv xs a -> stream lv ys c -> stream lv (xs ++ ys) (a ++ c).
Proof. induction 1; simpl; [done|]. rewrite <- app_assoc. by constructor; auto. Qed.

Lemma stream_snoc lv xs a c enc : stream lv xs a -> c ≠ [] -> length c <= METADATA_SIZE ->
  metadata_block lv c = Ok enc -> stream lv (xs ++ [c]) (a ++ enc).
Proof.
  intros. apply stream_app; [done|]. rewrite <- (app_nil_r enc). constructor; try done. constructor.
Qed.

(** ** The writer's invariant *)

(** What the sink has and the writer still holds of the output are the blocks; a block is
    only held back while the input is empty. *)
Record writer_ok (w : MetadataBlocksWriter) (blocks : list bytes) : Prop := {
  wo_stream : stream (level w) blocks (sunk (writer w) ++ drop (output_position w) (output w));
  wo_input : length (input w) <= METADATA_SIZE;
  wo_output : output w = [] /\ output_position w = 0 \/
              output_position w < length (output w) /\ input w = [];
}.

(** The bytes taken so far: those in blocks and those not yet in one. *)
Definition taken (w : MetadataBlocksWriter) (blocks : list bytes) : bytes := concat blocks ++ input w.

(** A call leads from one valid state to another, has taken [add] and may have completed
    blocks. *)
Definition evolves (w : MetadataBlocksWriter) blocks (w' : MetadataBlocksWriter) (add : bytes) : Prop :=
  level w' = level w /\ length (wscript (writer w')) <= length (wscript (writer w)) /\
  exists more, writer_ok w' (blocks ++ more) /\ taken w' (blocks ++ more) = taken w blocks ++ add.

Lemma sink_poll_write_spec buf s : post (sink_poll_write buf) s (fun s' r =>
  match r with
  | Ready k => k <= length buf /\ sunk s' = sunk s ++ take k buf /\
      (length (wscript s') < length (wscript s) \/ wscript s' = [] /\ wscript s = [] /\ k = length buf)
  | Panics => False
  | _ => sunk s' = sunk s /\ length (wscript s') < length (wscript s)
  end).
Proof.
  unfold post, sink_poll_write. destruct (wscript s) as [|[n|e|] r] eqn:E; simpl.
  - rewrite firstn_all. split; [lia|]. split; [done|]. by right.
  - rewrite length_take. split; [lia|]. split; [|left; lia]. f_equal.
    destruct (Nat.leb_spec n (length buf)); [by rewrite Nat.min_l by lia|].
    rewrite Nat.min_r by lia. by rewrite firstn_all, take_ge by lia.
  - split; [done|lia].
  - split; [done|lia].
Qed.

Lemma sink_poll_flush_spec s : post sink_poll_flush s (fun s' r =>
  sunk s' = sunk s /\
  match r with
  | Ready _ => length (wscript s') <= length (wscript s)
  | Panics => False
  | _ => length (wscript s') < length (wscript s)
  end).
Proof. unfold post, sink_poll_flush. destruct (wscript s) as [|[n|e|] r] eqn:E; simpl; rewrite ?E; simpl; auto. Qed.

Lemma with_writer_post {A} (m : M Sink A) w Q :
  post m (writer w) (fun s r => Q (mkWriter s (input w) (output w) (output_position w) (level w)) r) ->
  post (with_writer m) w Q.
Proof. unfold post, with_writer. by destruct (m (writer w)). Qed.

(** An error of the compressor. *)
Definition compressor_error (lv : Z) (e : io_error) : Prop :=
  exists c code, compress c lv = Err code /\ e = Other code.

Lemma prepare_block_spec w blocks : writer_ok w blocks -> post prepare_block w (fun w' r =>
  evolves w blocks w' [] /\ wscript (writer w') = wscript (writer w) /\
  match r with
  | Ready _ => input w' = []
  | Fail e => compressor_error (level w) e /\ output w' = output w
  | _ => False
  end).
Proof.
  intros [Hs Hi Ho]. unfold post, prepare_block.
  destruct (is_empty (output w)) eqn:E1; simpl.
  2:{ apply is_empty_false in E1. destruct Ho as [[? _]|[Hp Hn]]; [done|].
      split; [|done]. split; [done|]. split; [done|]. exists []. rewrite !app_nil_r. split; [|done].
      split; auto. }
  apply is_empty_true in E1. destruct Ho as [[_ Hp]|[Hp _]]; [|rewrite E1 in Hp; simpl in Hp; lia].
  destruct (is_empty (input w)) eqn:E2; simpl.
  { apply is_empty_true in E2. split; [|done]. split; [done|]. split; [done|]. exists [].
    rewrite !app_nil_r. split; [|done]. split; auto. }
  apply is_empty_false in E2.
  destruct (encode_block (input w) (level w)) as [e|err] eqn:E; simpl.
  2:{ unfold encode_block in E. destruct (compress _ _) as [|code] eqn:Ec; [done|]. injection E as <-.
      split; [|split; [done|split; [by exists (input w), code|done]]]. split; [done|]. split; [done|]. exists [].
      rewrite !app_nil_r. split; [|done]. split; auto. }
  split; [|done]. split; [done|]. split; [done|]. exists [input w]. split.
  - rewrite E1, Hp, app_nil_r in Hs. split; simpl;
      [|lia|right; rewrite E1, Hp; simpl; rewrite ?length_app, ?to_le_bytes_length; simpl; split; [lia|done]].
    rewrite E1, Hp, drop_0. simpl. apply stream_snoc; try done.
    unfold metadata_block. by rewrite E.
  - unfold taken. rewrite concat_app. simpl. by rewrite !app_nil_r.
Qed.

(** One round of either flush: what the sink took leaves the output. *)
Lemma after_write w blocks k sk : writer_ok w blocks -> output w ≠ [] ->
  k <= length (drop (output_position w) (output w)) ->
  sunk sk = sunk (writer w) ++ take k (drop (output_position w) (output w)) ->
  let w1 := mkWriter sk (input w) (output w) (output_position w) (level w) in
  post (advance_output k) w1 (fun w' r =>
    level w' = level w /\ writer w' = sk /\ input w' = [] /\
    match r with
    | Ready _ => writer_ok w' blocks /\ (k = length (drop (output_position w) (output w)) -> output w' = [])
    | Fail _ => k = 0 /\ writer_ok w' blocks
    | _ => False
    end).
Proof.
  intros [Hs Hi Ho] Hne Hk Hsk w1. destruct Ho as [[? _]|[Hp Hin]]; [done|].
  rewrite length_drop in Hk. unfold post, advance_output, w1; simpl.
  assert (forall m, drop m (drop (output_position w) (output w)) = drop (output_position w + m) (output w)) as Hd
    by (intros; by rewrite drop_drop).
  destruct (Nat.eqb_spec k 0) as [->|Hk0]; simpl.
  { rewrite take_0, app_nil_r in Hsk. split; [done|]. split; [done|]. split; [done|]. split; [done|].
    split; simpl; [by rewrite Hsk|by rewrite Hin; simpl; lia|by right]. }
  assert (stream (level w) blocks (sunk sk ++ drop (output_position w + k) (output w))) as Hs'.
  { by rewrite Hsk, <- app_assoc, <- Hd, take_drop. }
  destruct (Nat.eqb_spec (output_position w + k) (length (output w))) as [He|He]; simpl.
  - split; [done|]. split; [done|]. split; [done|]. split; [|done].
    split; simpl; [|by rewrite Hin; simpl; lia|by left].
    by rewrite He, drop_all in Hs'.
  - split; [done|]. split; [done|]. split; [done|]. split.
    + split; simpl; [done|by rewrite Hin; simpl; lia|]. right. split; [lia|done].
    + rewrite length_drop. lia.
Qed.

Definition flush_measure (w : MetadataBlocksWriter) : nat :=
  length (wscript (writer w)) + (if is_empty (output w) then 0 else 1).

(** The state between the rounds of a flush of [blocks] that started in [w0]. *)
Definition flushing (w0 : MetadataBlocksWriter) blocks (w : MetadataBlocksWriter) : Prop :=
  level w = level w0 /\ length (wscript (writer w)) <= length (wscript (writer w0)) /\
  writer_ok w blocks /\ input w = [].

(** Where a flush of [blocks] that started in [w0] may end. *)
Definition flush_end (w0 : MetadataBlocksWriter) blocks (w : MetadataBlocksWriter) (r : res unit) : Prop :=
  flushing w0 blocks w /\
  match r with
  | Ready _ => output w = []
  | Panics => False
  | _ => length (wscript (writer w)) < length (wscript (writer w0))
  end.

Definition round_end (w0 : MetadataBlocksWriter) blocks (w1 w : MetadataBlocksWriter)
    (r : res (option unit)) : Prop :=
  match r with
  | Ready (Some a) => flush_end w0 blocks w (Ready a)
  | Ready None => flushing w0 blocks w /\ flush_measure w < flush_measure w1
  | Fail e => flush_end w0 blocks w (Fail e)
  | Pending => flush_end w0 blocks w Pending
  | Panics => False
  end.

(** The part the two rounds share: what follows a write of the pending output. *)
Lemma round_advance w0 blocks w k sk : flushing w0 blocks w -> output w ≠ [] ->
  let buf := drop (output_position w) (output w) in
  k <= length buf -> sunk sk = sunk (writer w) ++ take k buf ->
  length (wscript sk) < length (wscript (writer w)) \/
    wscript sk = [] /\ wscript (writer w) = [] /\ k = length buf ->
  post (advance_output k ;> m_ret None) (mkWriter sk (input w) (output w) (output_position w) (level w))
    (round_end w0 blocks w).
Proof.
  intros (Hl & Hw & Hok & Hin) Hne buf Hk Hsk Hscript. apply post_bind.
  eapply post_mono; [by apply (after_write w blocks k sk)|].
  intros w' [a|e| |] (Hl' & Hw' & Hin' & H); simpl; try done.
  - destruct H as [Hok' Hall]. apply post_ret. split.
    + split; [congruence|]. split; [rewrite Hw'; destruct Hscript as [?|(-> & _)]; [lia|simpl; lia]|by split].
    + unfold flush_measure. rewrite Hw'. apply is_empty_false in Hne. rewrite Hne.
      destruct Hscript as [?|(-> & -> & ->)]; [case_match; lia|]. rewrite Hall by done. simpl. lia.
  - destruct H as [-> Hok'].
    assert (length (wscript sk) < length (wscript (writer w))).
    { destruct Hscript as [?|(_ & _ & Hb)]; [done|]. unfold buf in Hb. rewrite length_drop in Hb.
      destruct (wo_output _ _ Hok) as [[? _]|[? _]]; [done|lia]. }
    split; [|rewrite Hw'; lia]. split; [congruence|]. split; [rewrite Hw'; lia|by split].
Qed.

Lemma pending_output_spec w blocks : writer_ok w blocks ->
  post pending_output w (fun w' r => w' = w /\ r = Ready (drop (output_position w) (output w))).
Proof.
  intros [_ _ Ho]. unfold post, pending_output.
  destruct (Nat.leb_spec (output_position w) (length (output w))); [done|].
  destruct Ho as [[_ ?]|[? _]]; lia.
Qed.

Lemma flushing_sink w0 blocks w sk : flushing w0 blocks w -> sunk sk = sunk (writer w) ->
  length (wscript sk) <= length (wscript (writer w)) ->
  flushing w0 blocks (mkWriter sk (input w) (output w) (output_position w) (level w)).
Proof.
  intros (Hl & Hw & [Hs Hi Ho] & Hin) Hsk Hsc. split; [done|]. split; [simpl; lia|]. split; [|done].
  split; simpl; [by rewrite Hsk|done|done].
Qed.

Lemma flush_measure_sink w sk : length (wscript sk) < length (wscript (writer w)) ->
  flush_measure (mkWriter sk (input w) (output w) (output_position w) (level w)) < flush_measure w.
Proof. intros. unfold flush_measure. simpl. lia. Qed.

Lemma sink_failed w0 blocks w sk : flushing w0 blocks w -> sunk sk = sunk (writer w) ->
  length (wscript sk) < length (wscript (writer w)) ->
  flushing w0 blocks (mkWriter sk (input w) (output w) (output_position w) (level w)) /\
  length (wscript sk) < length (wscript (writer w0)).
Proof.
  intros Hf Hsk Hlt. split; [apply flushing_sink; [done..|lia]|]. destruct Hf as (_ & Hle & _). lia.
Qed.

Lemma poll_flush_round_spec w0 blocks w : flushing w0 blocks w ->
  post poll_flush_round w (round_end w0 blocks w).
Proof.
  intros Hf. destruct (is_empty (output w)) eqn:E.
  { unfold post, poll_flush_round. rewrite E. simpl. split; [done|by apply is_empty_true in E]. }
  unfold post, poll_flush_round. rewrite E. apply is_empty_false in E.
  change (post (let> buf := pending_output in let> count := with_writer (sink_poll_write buf) in
    advance_output count ;> m_ret None) w (round_end w0 blocks w)).
  apply post_bind. eapply post_mono; [by apply (pending_output_spec w blocks), Hf|]. intros ? ? [-> ->].
  simpl. apply post_bind, with_writer_post. eapply post_mono; [apply sink_poll_write_spec|].
  intros sk [k|e| |]; simpl; try done.
  - intros (Hk & Hsk & Hsc). by apply round_advance.
  - intros [Hsk Hsc]. by apply sink_failed.
  - intros [Hsk Hsc]. by apply sink_failed.
Qed.

Lemma flush_round_spec w0 blocks w : flushing w0 blocks w ->
  post flush_round w (round_end w0 blocks w).
Proof.
  intros Hf. destruct (is_empty (output w)) eqn:E.
  { unfold post, flush_round. rewrite E. simpl. split; [done|by apply is_empty_true in E]. }
  unfold post, flush_round. rewrite E. apply is_empty_false in E.
  match goal with |- context [fst (?m w)] => change (post m w (round_end w0 blocks w)) end.
  apply post_bind, post_retry, post_bind.
  eapply post_mono; [by apply (pending_output_spec w blocks), Hf|]. intros ? ? [-> ->].
  simpl. apply with_writer_post, post_blocking. eapply post_mono; [apply sink_poll_write_spec|].
  intros sk [k|e| |]; simpl; try done.
  - intros (Hk & Hsk & Hsc). by apply round_advance.
  - intros [Hsk Hsc]. pose proof (sink_failed w0 blocks w sk Hf Hsk Hsc) as [Hf' Hlt].
    destruct e; simpl; try (by split). apply post_ret. split; [done|]. by apply flush_measure_sink.
  - intros [Hsk Hsc]. by apply sink_failed.
Qed.

(** A call that does not succeed used up a response, or compressing a block failed. *)
Definition blocked (w w' : MetadataBlocksWriter) {A} (r : res A) : Prop :=
  length (wscript (writer w')) < length (wscript (writer w)) \/
  (exists e, r = Fail e /\ compressor_error (level w) e) /\ (output w = [] -> output w' = []).

(** What every flush does, whatever the sink answers. *)
Definition flush_ok (fl : M MetadataBlocksWriter unit) : Prop := forall w blocks, writer_ok w blocks ->
  post fl w (fun w' r => evolves w blocks w' [] /\
    match r with
    | Ready _ => input w' = [] /\ output w' = []
    | Panics => False
    | _ => blocked w w' r
    end).

Lemma evolves_flushing w blocks w1 w2 more :
  level w1 = level w -> length (wscript (writer w1)) <= length (wscript (writer w)) ->
  taken w1 (blocks ++ more) = taken w blocks ++ [] -> input w1 = [] ->
  flushing w1 (blocks ++ more) w2 -> evolves w blocks w2 [].
Proof.
  intros Hl Hw Ht Hi (Hl2 & Hw2 & Hok2 & Hi2). split; [congruence|]. split; [lia|].
  exists more. split; [done|]. rewrite <- Ht. unfold taken. by rewrite Hi, Hi2.
Qed.

Lemma flush_ok_of round fl_sink :
  (forall w0 blocks w, flushing w0 blocks w -> post round w (round_end w0 blocks w)) ->
  (forall s, post fl_sink s (fun s' r => sunk s' = sunk s /\
     match r with
     | Ready _ => length (wscript s') <= length (wscript s)
     | Panics => False
     | _ => length (wscript s') < length (wscript s)
     end)) ->
  flush_ok (prepare_block ;> (fun w => rounds (2 + length (wscript (writer w))) round w) ;>
            with_writer fl_sink).
Proof.
  intros Hround Hsink w blocks Hok. apply post_bind.
  eapply post_mono; [by apply prepare_block_spec|].
  intros w1 [[]|e| |] ((Hl & Hw & more & Hok1 & Ht) & Hsc & Hin); simpl; try done.
  2:{ destruct Hin as [Hce Ho]. split; [|right; split; [by exists e|by rewrite Ho]].
      split; [done|]. split; [done|]. by exists more. }
  apply post_bind.
  match goal with |- post _ _ ?Q => change (post (rounds (2 + length (wscript (writer w1))) round) w1 Q) end.
  eapply post_mono.
  - apply (post_rounds (flushing w1 (blocks ++ more)) flush_measure round (flush_end w1 (blocks ++ more))).
    + intros w2 H2. eapply post_mono; [by apply Hround|]. intros w3 [[a|]|e| |]; simpl; done.
    + done.
    + unfold flush_measure. case_match; simpl; lia.
  - assert (forall w2 : MetadataBlocksWriter, flushing w1 (blocks ++ more) w2 -> evolves w blocks w2 []) as Hev
      by (intros; by eapply (evolves_flushing w blocks w1 _ more)).
    intros w2 [[]|e| |] [Hf Hr]; simpl; try done.
    + apply with_writer_post. eapply post_mono; [apply Hsink|]. intros sk r [Hsk Hr2].
      pose proof Hf as (_ & Hle & _ & Hi2). unfold blocked; simpl.
      destruct r; simpl; try done;
        (split; [apply Hev, flushing_sink; [done..|lia]|]); [done|left; lia..].
    + split; [by apply Hev|left; lia].
    + split; [by apply Hev|left; lia].
Qed.

Lemma flush_spec : flush_ok flush.
Proof.
  apply flush_ok_of; [exact flush_round_spec|]. intros s. apply post_blocking.
  eapply post_mono; [apply sink_poll_flush_spec|]. intros s' [| | |] [? ?]; done.
Qed.

Lemma poll_flush_spec : flush_ok poll_flush.
Proof. apply flush_ok_of; [exact poll_flush_round_spec|apply sink_poll_flush_spec]. Qed.

Lemma evolves_refl w blocks : writer_ok w blocks -> evolves w blocks w [].
Proof. intros H. split; [done|]. split; [done|]. exists []. by rewrite !app_nil_r. Qed.

Lemma evolves_step w blocks w1 more w2 a c : level w1 = level w ->
  length (wscript (writer w1)) <= length (wscript (writer w)) ->
  taken w1 (blocks ++ more) = taken w blocks ++ a ->
  evolves w1 (blocks ++ more) w2 c -> evolves w blocks w2 (a ++ c).
Proof.
  intros Hl Hw Ht (Hl2 & Hw2 & m2 & Hok2 & Ht2). split; [congruence|]. split; [lia|].
  exists (more ++ m2). rewrite !app_assoc. split; [done|]. by rewrite Ht2, Ht.
Qed.

Lemma accept_spec bs w blocks : writer_ok w blocks -> output w = [] ->
  post (accept bs) w (fun w' r => exists k, r = Ready k /\
    k = length bs `min` (METADATA_SIZE - length (input w)) /\ evolves w blocks w' (take k bs) /\
    output w' = [] /\ input w' = input w ++ take k bs /\ writer w' = writer w).
Proof.
  intros [Hs Hi Ho] He. unfold post, accept.
  destruct (Nat.ltb_spec METADATA_SIZE (length (input w))); [lia|]. simpl. eexists. split; [done|].
  split; [done|]. destruct Ho as [[_ Hp]|[Hp _]]; [|rewrite He in Hp; simpl in Hp; lia].
  split; [|done]. split; [done|]. split; [done|]. exists []. rewrite !app_nil_r. split.
  - split; simpl; [done| |left; done]. rewrite length_app, length_take. lia.
  - unfold taken. simpl. by rewrite app_assoc.
Qed.

(** What every write does: all or a prefix of the buffer is taken, or nothing. *)
Definition write_ok (wr : bytes -> M MetadataBlocksWriter nat) : Prop := forall bs w blocks, writer_ok w blocks ->
  post (wr bs) w (fun w' r =>
    match r with
    | Ready k => k <= length bs /\ (bs ≠ [] -> 0 < k) /\ evolves w blocks w' (take k bs) /\
        (bs ≠ [] \/ output w = [] -> output w' = [])
    | Panics => False
    | _ => evolves w blocks w' [] /\ blocked w w' r
    end).

Lemma write_ok_of fl : flush_ok fl -> write_ok (fun bs w =>
  if is_empty bs then (w, Ready 0)
  else ((if (length (input w) =? METADATA_SIZE) || negb (is_empty (output w)) then fl else m_ret tt) ;>
        accept bs) w).
Proof.
  intros Hfl bs w blocks Hok. unfold post. destruct (is_empty bs) eqn:E.
  { apply is_empty_true in E as ->. simpl. split; [lia|]. split; [done|]. split; [by apply evolves_refl|tauto]. }
  match goal with |- context [fst (?m w)] =>
    match goal with |- ?G => match eval pattern (m w) in G with ?F _ =>
      change (post m w (fun s r => F (s, r))) end end end; simpl.
  apply is_empty_false in E. apply post_bind. destruct (_ || _) eqn:Ec.
  - eapply post_mono; [by apply Hfl|]. intros w1 [[]|e| |] [Hev Hr]; simpl; try done.
    2:{ split; [done|]. destruct Hr as [Hr|[(e' & [= <-] & Hce) Ho]]; [by left|right; split; [by exists e|done]]. }
    2:{ split; [done|]. destruct Hr as [Hr|[(e' & Hr & _) _]]; [by left|done]. }
    destruct Hr as [Hi Ho]. destruct Hev as (Hl & Hw & more & Hok1 & Ht).
    eapply post_mono; [by apply (accept_spec bs w1 (blocks ++ more))|].
    intros w2 r (k & -> & -> & Hev2 & Ho2 & _). rewrite Hi in *. change (length []) with 0 in *.
    assert (0 < METADATA_SIZE) by (unfold METADATA_SIZE; lia).
    split; [lia|]. split; [intros _; destruct bs; [done|]; change (length (b :: bs)) with (S (length bs)); lia|].
    split; [|done]. rewrite <- (app_nil_l (take _ bs)). by eapply (evolves_step w blocks w1 more).
  - apply post_ret. simpl. apply orb_false_iff in Ec as [Hi Ho].
    apply negb_false_iff, is_empty_true in Ho. apply Nat.eqb_neq in Hi.
    eapply post_mono; [by apply (accept_spec bs w blocks)|].
    intros w2 r (k & -> & -> & Hev2 & Ho2 & _). pose proof (wo_input _ _ Hok).
    split; [lia|]. split; [|by split]. intros _. destruct bs; [done|]. change (length (b :: bs)) with (S (length bs)). lia.
Qed.

Lemma write_spec : write_ok write.
Proof. exact (write_ok_of flush flush_spec). Qed.

Lemma poll_write_spec : write_ok poll_write.
Proof. exact (write_ok_of poll_flush poll_flush_spec). Qed.

Lemma poll_shutdown_spec w blocks : writer_ok w blocks -> post poll_shutdown w (fun w' r =>
  evolves w blocks w' [] /\
  match r with Ready _ => input w' = [] /\ output w' = [] | Panics => False | _ => blocked w w' r end).
Proof.
  intros Hok. apply post_bind. eapply post_mono; [by apply poll_flush_spec|].
  intros w1 [[]|e| |] [Hev Hr]; simpl; try done.
  apply with_writer_post. eapply post_mono; [apply sink_poll_flush_spec|]. intros sk r [Hsk Hr2].
  destruct Hr as [Hi Ho]. destruct Hev as (Hl & Hw & more & [Hs1 Hi1 Ho1] & Ht).
  assert (evolves w blocks (mkWriter sk (input w1) (output w1) (output_position w1) (level w1)) []).
  { split; [done|]. split; [destruct r; simpl; lia|]. exists more. split; [|done].
    split; simpl; [by rewrite Hsk|done|done]. }
  split; [done|]. unfold blocked; simpl. destruct r; simpl; [done|left; lia|left; lia|done].
Qed.

Lemma write_all_loop_spec n buf w blocks : writer_ok w blocks ->
  length buf + length (wscript (writer w)) < n ->
  post (write_all_loop n buf) w (fun w' r => exists k, k <= length buf /\
    evolves w blocks w' (take k buf) /\
    match r with
    | Ready _ => k = length buf /\ (buf ≠ [] \/ output w = [] -> output w' = [])
    | Panics => False
    | _ => blocked w w' r
    end).
Proof.
  revert buf w blocks. induction n as [|n IH]; intros buf w blocks Hok Hn; [lia|]. simpl.
  destruct (is_empty buf) eqn:E.
  { apply is_empty_true in E as ->. exists 0. split; [done|]. split; [by apply evolves_refl|split; [done|by intros [?|?]]]. }
  apply is_empty_false in E. apply post_bind, post_retry.
  eapply post_mono; [by apply write_spec|]. intros w1 [k|e| |]; simpl; try done.
  - intros (Hk & Hpos & (Hl & Hw & more & Hok1 & Ht) & Ho1). specialize (Hpos E).
    destruct k as [|k]; [lia|]. eapply post_mono; [apply (IH _ _ _ Hok1); rewrite length_drop; lia|].
    intros w2 r (m & Hm & Hev & Hr). rewrite length_drop in Hm. exists (S k + m).
    split; [lia|]. rewrite <- take_take_drop. split; [by eapply (evolves_step w blocks w1 more)|].
    unfold blocked in *. rewrite length_drop in Hr.
    destruct r; try done; [split; [lia|tauto]|..]; (destruct Hr as [Hr|[Hr Ho]]; [left; lia|rewrite Hl in Hr; right; auto]).
  - intros [(Hl & Hw & more & Hok1 & Ht) Hb].
    assert (e = Interrupted \/ e ≠ Interrupted) as [->|He] by (destruct e; auto).
    + destruct Hb as [Hb|[(e' & [= <-] & (? & ? & _ & [=])) _]].
      eapply post_mono; [apply (IH buf _ _ Hok1); lia|]. intros w2 r (m & Hm & Hev & Hr). exists m.
      split; [done|]. split; [rewrite <- (app_nil_l (take _ _)); by eapply (evolves_step w blocks w1 more)|].
      unfold blocked in *. destruct Hev as (_ & Hle & _). destruct r; try done; [tauto|left; lia..].
    + assert (exists k, k <= length buf /\ evolves w blocks w1 (take k buf) /\ blocked w w1 (Fail (A := unit) e)).
      { exists 0. split; [lia|]. split; [by repeat split; [..|exists more]|].
        destruct Hb as [Hb|[(e' & [= <-] & Hce) Ho]]; [by left|right]. split; [by exists e|done]. }
      by destruct e.
  - intros [Hev Hb]. exists 0. split; [lia|]. split; [done|].
    destruct Hb as [Hb|[(e' & Hb & _) Ho]]; [by left|done].
Qed.

Lemma write_all_spec buf w blocks : writer_ok w blocks ->
  post (write_all buf) w (fun w' r => exists k, k <= length buf /\
    evolves w blocks w' (take k buf) /\
    match r with
    | Ready _ => k = length buf /\ (buf ≠ [] \/ output w = [] -> output w' = [])
    | Panics => False
    | _ => blocked w w' r
    end).
Proof. intros Hok. unfold post, write_all. apply (write_all_loop_spec _ buf w blocks Hok). lia. Qed.

(** ** Sequences of calls of the writer *)

Inductive wcall : Type :=
| CWrite (bs : bytes)
| CFlush
| CPollWrite (bs : bytes)
| CPollFlush
| CPollShutdown.

(** A call, with the bytes it reports as taken. *)
Definition do_call (c : wcall) : M MetadataBlocksWriter bytes :=
  match c with
  | CWrite bs => let> k := write bs in m_ret (take k bs)
  | CFlush => flush ;> m_ret []
  | CPollWrite bs => let> k := poll_write bs in m_ret (take k bs)
  | CPollFlush => poll_flush ;> m_ret []
  | CPollShutdown => poll_shutdown ;> m_ret []
  end.

(** The state after a call, what it took and whether it panicked. *)
Definition run_call (c : wcall) (w : MetadataBlocksWriter) : MetadataBlocksWriter * bytes * bool :=
  let '(w', r) := do_call c w in
  (w', match r with Ready took => took | _ => [] end, match r with Panics => true | _ => false end).

Fixpoint run_calls (cs : list wcall) (w : MetadataBlocksWriter) : MetadataBlocksWriter * bytes * bool :=
  match cs with
  | [] => (w, [], false)
  | c :: r =>
      let '(w1, took, p) := run_call c w in
      let '(w2, took', p') := run_calls r w1 in (w2, took ++ took', p || p')
  end.

Lemma post_run {S A} (m : M S A) s Q s' r : post m s Q -> m s = (s', r) -> Q s' r.
Proof. unfold post. intros H E. by rewrite E in H. Qed.

Lemma do_call_spec c w blocks : writer_ok w blocks -> post (do_call c) w (fun w' r =>
  match r with
  | Ready took => evolves w blocks w' took
  | Panics => False
  | _ => evolves w blocks w' []
  end).
Proof.
  intros Hok. destruct c; apply post_bind;
    (eapply post_mono;
     [first [by apply write_spec|by apply flush_spec|by apply poll_write_spec|by apply poll_flush_spec
            |by apply poll_shutdown_spec]|]);
    intros w' []; simpl; try tauto; intros; apply post_ret; tauto.
Qed.

Lemma run_call_spec c w blocks w' took p : writer_ok w blocks -> run_call c w = (w', took, p) ->
  evolves w blocks w' took /\ p = false.
Proof.
  intros Hok. unfold run_call. destruct (do_call c w) as [w1 r] eqn:E.
  apply (post_run _ _ _ _ _ (do_call_spec c w blocks Hok)) in E. destruct r; intros [= <- <- <-]; done.
Qed.

Lemma run_calls_spec cs w blocks w' took p : writer_ok w blocks -> run_calls cs w = (w', took, p) ->
  evolves w blocks w' took /\ p = false.
Proof.
  revert w blocks w' took p. induction cs as [|c cs IH]; intros w blocks w' took p Hok; simpl.
  { intros [= <- <- <-]. split; [by apply evolves_refl|done]. }
  destruct (run_call c w) as [[w1 t1] p1] eqn:E1. destruct (run_calls cs w1) as [[w2 t2] p2] eqn:E2.
  intros [= <- <- <-]. apply (run_call_spec _ _ blocks) in E1 as [(Hl & Hw & more & Hok1 & Ht) ->]; [|done].
  apply (IH _ _ _ _ _ Hok1) in E2 as [Hev ->]. split; [|done]. by eapply (evolves_step w blocks w1 more).
Qed.

Lemma new_writer_ok sk lv : sunk sk = [] -> writer_ok (MetadataBlocksWriter_with_level sk lv) [].
Proof. intros H. split; simpl; [rewrite H; constructor|lia|by left]. Qed.

Lemma flush_succeeds w blocks fl w' : writer_ok w blocks -> fl ∈ [flush; poll_flush; poll_shutdown] ->
  fl w = (w', Ready tt) -> evolves w blocks w' [] /\ input w' = [] /\ output w' = [].
Proof.
  intros Hok Hfl E. rewrite !elem_of_cons in Hfl.
  destruct Hfl as [->|[->|[->|[]%elem_of_nil]]];
    [pose proof (flush_spec w blocks Hok) as H|pose proof (poll_flush_spec w blocks Hok) as H
    |pose proof (poll_shutdown_spec w blocks Hok) as H];
    apply (post_run _ _ _ _ _ H) in E; tauto.
Qed.

Lemma calls_stream cs script lv w took p :
  run_calls cs (MetadataBlocksWriter_with_level (mkSink [] script) lv) = (w, took, p) ->
  p = false /\ level w = lv /\ exists blocks, writer_ok w blocks /\ taken w blocks = took.
Proof.
  intros E. apply (run_calls_spec _ _ []) in E as [(Hl & Hw & more & Hok & Ht) ->]; [|by apply new_writer_ok].
  split; [done|]. split; [done|]. by exists more.
Qed.

Lemma flushed_stream cs script lv w took p fl w' :
  run_calls cs (MetadataBlocksWriter_with_level (mkSink [] script) lv) = (w, took, p) ->
  fl ∈ [flush; poll_flush; poll_shutdown] -> fl w = (w', Ready tt) ->
  exists blocks, concat blocks = took /\ stream lv blocks (sunk (writer w')).
Proof.
  intros (_ & Hl & bl & Hok & Ht)%calls_stream Hfl E.
  destruct (flush_succeeds w bl fl w' Hok Hfl E) as ((Hl' & _ & m2 & [Hs' _ _] & Ht') & Hi & Ho).
  exists (bl ++ m2). unfold taken in *. rewrite Hi, !app_nil_r in *. split; [congruence|].
  by rewrite Hl', Hl, Ho, drop_nil, app_nil_r in Hs'.
Qed.

(** Whatever calls a user makes of a new [MetadataBlocksWriter], blocking
    or asynchronous, and however the wrapped object answers (short writes, errors,
    interruptions, not ready), no call panics and nothing is lost, duplicated or reordered: the
    bytes the calls reported as taken are the contents of a list of blocks of at most 8192 bytes
    followed by what is still buffered, and the wrapped object has got exactly the encoding of
    these blocks up to the part the writer still holds for the next flush.  When the last call is
    a flush that succeeds, the object has got the encoding of all the bytes taken. *)
Theorem metadata_writer_exact cs script lv :
  let '(w, took, panicked) := run_calls cs (MetadataBlocksWriter_with_level (mkSink [] script) lv) in
  panicked = false /\
  (exists blocks, concat blocks ++ input w = took /\ length (input w) <= METADATA_SIZE /\
     stream lv blocks (sunk (writer w) ++ drop (output_position w) (output w))) /\
  (forall fl w', fl ∈ [flush; poll_flush; poll_shutdown] -> fl w = (w', Ready tt) ->
     exists blocks, concat blocks = took /\ stream lv blocks (sunk (writer w'))).
Proof.
  destruct (run_calls _ _) as [[w took] p] eqn:E.
  pose proof E as (-> & Hl & bl & [Hs Hi _] & Ht)%calls_stream. split; [done|]. split.
  { exists bl. rewrite Hl in Hs. done. }
  intros fl w'. by apply flushed_stream with (cs := cs) (script := script) (p := false).
Qed.

(** ** Tables and references *)

(** Between calls a table's writer holds no encoded output: a vector takes it all. *)
Definition table_ok (w : MetadataBlocksWriter) blocks : Prop :=
  writer_ok w blocks /\ wscript (writer w) = [] /\ output w = [].

(** A call on a table: the bytes it takes, or an error of the compressor. *)
Definition table_post (w : MetadataBlocksWriter) blocks (add : bytes) {A} (w' : MetadataBlocksWriter) (r : res A) : Prop :=
  match r with
  | Ready _ => level w' = level w /\ exists more, table_ok w' (blocks ++ more) /\
      taken w' (blocks ++ more) = taken w blocks ++ add
  | Fail e => compressor_error (level w) e
  | _ => False
  end.

Lemma evolves_table w blocks w' add : table_ok w blocks -> output w' = [] -> evolves w blocks w' add ->
  level w' = level w /\ exists more, table_ok w' (blocks ++ more) /\
    taken w' (blocks ++ more) = taken w blocks ++ add.
Proof.
  intros (_ & Hsc & _) Ho (Hl & Hw & more & Hok & Ht). rewrite Hsc in Hw. split; [done|].
  exists more. repeat split; [apply Hok..| |done|done]. by apply nil_length_inv; simpl in Hw; lia.
Qed.

Lemma table_write_all buf w blocks : table_ok w blocks -> post (write_all buf) w (table_post w blocks buf).
Proof.
  intros Ht. pose proof Ht as (Hok & Hsc & Ho).
  eapply post_mono; [by apply (write_all_spec buf w blocks)|].
  intros w' [[]|e| |] (k & Hk & Hev & Hr); simpl; try done.
  - destruct Hr as [-> Ho']. rewrite firstn_all in Hev. by apply evolves_table; auto.
  - destruct Hr as [Hr|[(e' & [= <-] & Hce) _]]; [rewrite Hsc in Hr; simpl in Hr; lia|done].
  - destruct Hr as [Hr|[(e' & [=] & _) _]]. rewrite Hsc in Hr; simpl in Hr; lia.
Qed.

Lemma table_flush w blocks : table_ok w blocks ->
  post flush w (fun w' r => table_post w blocks [] w' r /\ (r = Ready tt -> input w' = [])).
Proof.
  intros Ht. pose proof Ht as (Hok & Hsc & Ho). eapply post_mono; [by apply (flush_spec w blocks)|].
  intros w' [[]|e| |] [Hev Hr]; simpl; try done.
  - destruct Hr as [Hi Ho']. split; [|done]. by apply evolves_table.
  - destruct Hr as [Hr|[(e' & [= <-] & Hce) _]]; [rewrite Hsc in Hr; simpl in Hr; lia|done].
  - destruct Hr as [Hr|[(e' & [=] & _) _]]. rewrite Hsc in Hr; simpl in Hr; lia.
Qed.

(** The reference of the next byte: the start of its block in the table and its offset there. *)
Definition reference_post (w : MetadataBlocksWriter) blocks (w' : MetadataBlocksWriter) (r : res Z) : Prop :=
  match r with
  | Ready ref => table_post w blocks [] w' r /\
      ref = (Z.of_nat (length (sunk (writer w'))) * 2 ^ 16 + Z.of_nat (length (input w')))%Z /\
      length (input w') < METADATA_SIZE
  | Fail e => compressor_error (level w) e \/
      e = InvalidData $"SquashFS metadata table exceeds 4 GiB" /\
      (2 ^ 32 <= Z.of_nat (length (sunk (writer w'))))%Z
  | _ => False
  end.

Lemma table_reference w blocks : table_ok w blocks ->
  post MetadataTable_reference w (reference_post w blocks).
Proof.
  intros Ht. pose proof Ht as (Hok & Hsc & Ho). apply post_bind.
  assert (post flush_full w (fun w' r => table_post w blocks [] w' r /\
            (r = Ready tt -> length (input w') < METADATA_SIZE))) as Hf.
  { unfold post, flush_full. destruct (Nat.eqb_spec (length (input w)) METADATA_SIZE) as [He|He].
    - pose proof (table_flush w blocks Ht) as [H1 H2]. split; [done|]. intros Hr. rewrite H2 by done.
      unfold METADATA_SIZE. simpl. lia.
    - split; [|intros _; pose proof (wo_input _ _ Hok); simpl; lia].
      simpl. apply evolves_table; [done..|]. by apply evolves_refl. }
  eapply post_mono; [exact Hf|]. intros w1 [[]|e| |] [Hp Hi]; simpl; try done; [|by left].
  specialize (Hi eq_refl). unfold post, table_position.
  destruct (in_range u32 _) eqn:Er; simpl in Er |- *; [|right; split; [done|lia]]. split; [done|].
  unfold METADATA_SIZE in *. rewrite lor_shiftl_add; [done|lia|]. lia.
Qed.

Lemma stream_inv_app lv xs ys bs : stream lv (xs ++ ys) bs ->
  exists a c, bs = a ++ c /\ stream lv xs a /\ stream lv ys c.
Proof.
  revert bs. induction xs as [|x xs IH]; intros bs; simpl.
  - intros H. exists [], bs. repeat split; [constructor|done].
  - inversion 1 as [|? enc ? bs' Hne Hl He Hs]; subst. apply IH in Hs as (a & c & -> & Ha & Hc).
    exists (enc ++ a), c. rewrite app_assoc. repeat split; [by constructor|done].
Qed.

Lemma stream_fun lv xs a c : stream lv xs a -> stream lv xs c -> a = c.
Proof.
  intros H. revert c. induction H as [|x enc cs bs Hne Hl He Hs IH]; intros c; inversion 1; subst; [done|].
  f_equal; [congruence|auto].
Qed.

(** The blocks of a table from the one a reference points into. *)
Lemma reference_blocks w blocks w' more : table_ok w blocks -> table_ok w' (blocks ++ more) ->
  level w' = level w ->
  sunk (writer w) ++ drop (length (sunk (writer w))) (sunk (writer w')) = sunk (writer w') /\
  stream (level w) more (drop (length (sunk (writer w))) (sunk (writer w'))).
Proof.
  intros ([Hs _ _] & _ & Ho) ([Hs' _ _] & _ & Ho') Hl. rewrite Ho, drop_nil, app_nil_r in Hs.
  rewrite Ho', drop_nil, app_nil_r, Hl in Hs'.
  apply stream_inv_app in Hs' as (a & c & -> & Ha & Hc). rewrite (stream_fun _ _ _ _ Hs Ha).
  by rewrite drop_app_length.
Qed.

Definition write_alls (bufs : list bytes) : M MetadataBlocksWriter unit :=
  foldr (fun buf k => write_all buf ;> k) (m_ret tt) bufs.

Lemma table_write_alls bufs w blocks : table_ok w blocks ->
  post (write_alls bufs) w (table_post w blocks (concat bufs)).
Proof.
  revert w blocks. induction bufs as [|buf bufs IH]; intros w blocks Ht; simpl.
  - apply post_ret. split; [done|]. exists []. by rewrite !app_nil_r.
  - apply post_bind. eapply post_mono; [by apply (table_write_all buf w blocks)|].
    intros w1 [[]|e| |]; simpl; try done. intros (Hl & more & Ht1 & Hk).
    eapply post_mono; [by apply (IH w1 (blocks ++ more))|]. intros w2 [[]|e| |]; simpl; try done; [|by rewrite Hl].
    intros (Hl2 & m2 & Ht2 & Hk2). split; [congruence|]. exists (more ++ m2).
    rewrite !app_assoc. split; [done|]. by rewrite Hk2, Hk.
Qed.

(** ** The reader's invariant *)

(** [in_payload lv blocks d bs]: the decoder is in the middle of the payload of the first
    block, and the source holds the rest of it and the other blocks. *)
Definition in_payload (lv : Z) blocks (d : MetadataDecoder) (bs : bytes) : Prop :=
  exists c cs e x rest, blocks = c :: cs /\ c ≠ [] /\ length c <= METADATA_SIZE /\
    encode_block c lv = Ok e /\ compressed d = eb_compressed e /\
    length (payload d) = length (eb_bytes e) /\
    eb_bytes e = take (payload_position d) (payload d) ++ x /\ x ≠ [] /\
    bs = x ++ rest /\ stream lv cs rest.

(** [blocks] are the blocks that are still to be decoded. *)
Record reader_ok (lv : Z) (r : MetadataBlocksReader) (blocks : list bytes) : Prop := {
  ro_output : d_output_position (decoder r) <= length (d_output (decoder r));
  ro_header : length (header (decoder r)) = 2;
  ro_phase :
    header_position (decoder r) < 2 /\ payload (decoder r) = [] /\
      stream lv blocks (take (header_position (decoder r)) (header (decoder r)) ++ data (reader r)) \/
    header_position (decoder r) = 2 /\ in_payload lv blocks (decoder r) (data (reader r));
}.

(** What is left to be read. *)
Definition content (r : MetadataBlocksReader) (blocks : list bytes) : bytes :=
  drop (d_output_position (decoder r)) (d_output (decoder r)) ++ concat blocks.

(** How many of the answers to come are errors. *)
Fixpoint fails (script : list response) : nat :=
  match script with
  | [] => 0
  | Failed _ :: r => S (fails r)
  | _ :: r => fails r
  end.

(** Answers that are left of others; and fewer of them. *)
Abbreviation script_le a b := (length a <= length b /\ fails a <= fails b).
Abbreviation script_lt a b := (length a < length b /\ fails a <= fails b).

Lemma fails_spec e script : Failed e ∈ script -> 0 < fails script.
Proof. induction script as [|[n|e'|] r IH]; simpl; [by intros ?%elem_of_nil|..]; intros [?|?]%elem_of_cons; try done; [by apply IH|lia|lia|by apply IH]. Qed.

Lemma source_poll_read_spec n s : 0 < n -> post (source_poll_read n) s (fun s' r =>
  match r with
  | Ready bs => data s = bs ++ data s' /\ length bs <= n /\ script_le (rscript s') (rscript s) /\
      (bs = [] -> data s = [])
  | Panics => False
  | Fail _ => data s' = data s /\ script_lt (rscript s') (rscript s) /\ fails (rscript s') < fails (rscript s)
  | Pending => data s' = data s /\ script_lt (rscript s') (rscript s)
  end).
Proof.
  intros Hn. unfold post, source_poll_read, take_data. destruct n as [|n]; [lia|].
  destruct (rscript s) as [|[k|e|] r]; simpl; rewrite ?take_drop, ?length_take;
    repeat split; try done; try lia; by destruct (data s).
Qed.

Lemma with_reader_post {A} (m : M Source A) r Q :
  post m (reader r) (fun s x => Q (mkReader s (decoder r)) x) -> post (with_reader m) r Q.
Proof. unfold post, with_reader. by destruct (m (reader r)). Qed.

Lemma with_decoder_post {A} (m : M MetadataDecoder A) r Q :
  post m (decoder r) (fun d x => Q (mkReader (reader r) d) x) -> post (with_decoder m) r Q.
Proof. unfold post, with_decoder. by destruct (m (decoder r)). Qed.

(** The header of a block tells the reader what the writer did. *)
Lemma metadata_block_inv lv c enc : c ≠ [] -> length c <= METADATA_SIZE -> metadata_block lv c = Ok enc ->
  exists e h, encode_block c lv = Ok e /\ enc = h ++ eb_bytes e /\ length h = 2 /\
    Z.to_nat (Z.ldiff (from_le_bytes u16 h) UNCOMPRESSED_METADATA) = length (eb_bytes e) /\
    (Z.land (from_le_bytes u16 h) UNCOMPRESSED_METADATA =? 0)%Z = eb_compressed e /\
    0 < length (eb_bytes e) <= METADATA_SIZE.
Proof.
  intros Hne Hl. unfold metadata_block. destruct (encode_block c lv) as [e|] eqn:E; cbn [result_bind]; [|done].
  cbv zeta. match goal with |- Ok (to_le_bytes u16 ?h ++ _) = _ -> _ =>
    intros Henc; assert (enc = to_le_bytes u16 h ++ eb_bytes e) as -> by congruence;
    clear Henc; exists e, (to_le_bytes u16 h)
  end.
  split; [done|]. split; [done|]. rewrite to_le_bytes_length. split; [done|].
  assert (0 < length (eb_bytes e)).
  { pose proof (encode_block_nonempty c lv e Hne E). destruct (eb_bytes e); [done|simpl; lia]. }
  pose proof (encode_block_length c lv e E). unfold METADATA_SIZE in *.
  set (n := Z.of_nat (length (eb_bytes e))). assert (0 < n <= 8192)%Z by lia.
  rewrite (Z.mod_small n) by lia.
  assert (forall i, Z.testbit n i = (0 <=? i)%Z && (i <? 14)%Z && Z.testbit n i) as Hn
    by (intros; apply testbit_small; lia).
  assert (Z.lor n (if eb_compressed e then 0 else UNCOMPRESSED_METADATA) =
          n + (if eb_compressed e then 0 else UNCOMPRESSED_METADATA))%Z as Hor.
  { symmetry. apply Z.add_nocarry_lor. apply Z.bits_inj'. intros i Hi.
    rewrite Z.land_spec, Z.bits_0, Hn. destruct (eb_compressed e); [by rewrite Z.bits_0, andb_false_r|].
    unfold UNCOMPRESSED_METADATA. rewrite testbit_shiftl by lia.
    destruct (Z.ltb_spec i 14); decide_cmps; done. }
  rewrite Hor, from_to_le_bytes.
  2:{ change UNCOMPRESSED_METADATA with 32768%Z. unfold in_range. destruct (eb_compressed e); lia. }
  rewrite <- Hor.
  assert (Z.ldiff n UNCOMPRESSED_METADATA = n /\ Z.land n UNCOMPRESSED_METADATA = 0)%Z as [Hd Hand].
  { split; apply Z.bits_inj'; intros i Hi; rewrite ?Z.ldiff_spec, ?Z.land_spec, ?Z.bits_0, Hn;
      unfold UNCOMPRESSED_METADATA; rewrite testbit_shiftl by lia;
      destruct (Z.ltb_spec i 14); decide_cmps; rewrite ?andb_true_r; done. }
  assert (Z.ldiff (Z.lor n (if eb_compressed e then 0 else UNCOMPRESSED_METADATA)) UNCOMPRESSED_METADATA = n)%Z as ->.
  { destruct (eb_compressed e); [by rewrite Z.lor_0_r|].
    rewrite Z.ldiff_land, Z.land_lor_distr_l, <- !Z.ldiff_land, Hd, Z.ldiff_diag, Z.lor_0_r. done. }
  split; [unfold n; lia|]. split; [|lia].
  destruct (eb_compressed e); [by rewrite Z.lor_0_r, Hand|].
  rewrite Z.land_lor_distr_l, Hand, Z.land_diag. done.
Qed.

Lemma store_length pos bs buf : pos + length bs <= length buf -> length (store pos bs buf) = length buf.
Proof. intros. unfold store. rewrite !length_app, length_take, length_drop. lia. Qed.

Lemma take_store pos bs buf : pos + length bs <= length buf ->
  take (pos + length bs) (store pos bs buf) = take pos buf ++ bs.
Proof.
  intros. unfold store. rewrite app_assoc. apply take_app_length'. rewrite length_app, length_take. lia.
Qed.

Lemma copy_output_spec lv len r blocks : 0 < len -> reader_ok lv r blocks ->
  post (with_decoder (copy_output len)) r (fun r' x => exists out, x = Ready out /\
    reader_ok lv r' blocks /\ content r blocks = out ++ content r' blocks /\ length out <= len /\
    reader r' = reader r /\
    (out = [] -> drop (d_output_position (decoder r')) (d_output (decoder r')) = [])).
Proof.
  intros Hlen [Hop Hh Hph]. apply with_decoder_post. unfold post, copy_output.
  destruct (Nat.ltb_spec (length (d_output (decoder r))) (d_output_position (decoder r))); [lia|]. simpl.
  set (pos := d_output_position (decoder r)) in *. set (o := d_output (decoder r)) in *.
  set (n := len `min` (length o - pos)). eexists. split; [reflexivity|].
  split; [split; simpl; [lia|done|exact Hph]|].
  split; [unfold content; simpl; rewrite app_assoc, <- drop_drop, take_drop; done|].
  split; [rewrite length_take; lia|]. split; [done|].
  intros E%(f_equal length). rewrite length_take, length_drop in E. simpl in E.
  apply drop_ge. lia.
Qed.

(** The decoder has the whole payload. *)
Lemma decode_spec lv r c cs e : c ≠ [] -> length c <= METADATA_SIZE -> encode_block c lv = Ok e ->
  compressed (decoder r) = eb_compressed e -> payload (decoder r) = eb_bytes e ->
  length (header (decoder r)) = 2 -> stream lv cs (data (reader r)) ->
  post (with_decoder decode) r (fun r' x => x = Ready tt /\ reader_ok lv r' cs /\
    content r' cs = c ++ concat cs /\ reader r' = reader r).
Proof.
  intros Hne Hl He Hc Hp Hh Hs. apply with_decoder_post. unfold post, decode.
  rewrite Hp, Hc, (decode_encode_block c lv e METADATA_SIZE Hl He).
  apply is_empty_false in Hne. rewrite Hne. simpl. split; [done|].
  split; [split; simpl; [lia|done|by left; split; [lia|]]|]. by unfold content; simpl; rewrite drop_0.
Qed.

Definition body_end {A} (lv : Z) (r : MetadataBlocksReader) blocks (r' : MetadataBlocksReader)
    (x : res (option A)) : Prop :=
  match x with
  | Ready None => exists blocks', reader_ok lv r' blocks' /\ content r' blocks' = concat blocks /\
      length (data (reader r')) < length (data (reader r)) /\
      script_le (rscript (reader r')) (rscript (reader r))
  | Ready (Some _) | Panics => False
  | Fail _ => reader_ok lv r' blocks /\ content r' blocks = concat blocks /\
      script_lt (rscript (reader r')) (rscript (reader r)) /\ fails (rscript (reader r')) < fails (rscript (reader r))
  | Pending => reader_ok lv r' blocks /\ content r' blocks = concat blocks /\
      script_lt (rscript (reader r')) (rscript (reader r))
  end.

(** Of two splits of a list the shorter first part begins the longer one. *)
Lemma shorter_prefix {A} (a x : list A) c rest : x ++ rest = a ++ c -> length a <= length x ->
  exists x', x = a ++ x' /\ c = x' ++ rest.
Proof.
  intros E H.
  assert (a = take (length a) x) as Ea.
  { rewrite <- (take_app_length a c) at 1. rewrite <- E. by rewrite take_app_le by lia. }
  exists (drop (length a) x). split; [rewrite Ea at 1; by rewrite take_drop|].
  apply (app_inv_head a). rewrite app_assoc. rewrite Ea at 2. by rewrite take_drop.
Qed.

Lemma poll_body_spec lv A r blocks : reader_ok lv r blocks ->
  drop (d_output_position (decoder r)) (d_output (decoder r)) = [] ->
  header_position (decoder r) = 2 -> post (poll_body (A := A)) r (body_end lv r blocks).
Proof.
  intros [Hop Hh Hph] Hdr H2. destruct Hph as [[? _]|[_ Hin]]; [lia|].
  pose proof Hin as (c & cs & e & x & rest & -> & Hne & Hl & He & Hc & Hlen & Heb & Hx & Hd & Hs).
  set (d := decoder r) in *. set (pp := payload_position d) in *.
  assert (length (take pp (payload d)) + length x = length (payload d)) as Hsum
    by (rewrite <- length_app, <- Heb; done).
  assert (pp + length x = length (payload d) /\ 0 < length x) as [Hpp Hx0].
  { rewrite length_take in Hsum. destruct x; [done|]. simpl in *. lia. }
  apply post_bind. unfold post at 1, payload_left. fold d pp.
  destruct (Nat.ltb_spec (length (payload d)) pp); [lia|]. simpl.
  apply post_bind, with_reader_post. eapply post_mono; [apply source_poll_read_spec; lia|].
  intros s [bs|err| |]; simpl; try done.
  2,3: intros [Hds Hsc]; split; [|split; [unfold content; simpl; fold d; by rewrite Hdr|done]];
    (split; simpl; [done|done|right; split; [done|]]); rewrite Hds; exact Hin.
  intros (Hds & Hbl & Hsc & Hbn). rewrite Hd in Hds.
  assert (bs ≠ []) as Hbs. { intros ->. specialize (Hbn eq_refl). rewrite Hd in Hbn. by destruct x. }
  destruct (shorter_prefix bs x (data s) rest) as (x' & -> & Hdr'); [done|lia|].
  clear Hds Hbn. rewrite length_app in Hpp.
  apply post_bind, with_decoder_post. unfold post at 1, store_payload, store_payload_at. simpl.
  apply is_empty_false in Hbs. rewrite Hbs. apply is_empty_false in Hbs. fold d pp.
  apply post_bind, with_decoder_post. unfold post at 1, advance_payload. simpl.
  apply post_bind. unfold post at 1, decode_full. simpl. fold d pp.
  rewrite store_length by lia.
  assert (0 < length bs) by (destruct bs; [done|simpl; lia]).
  destruct (Nat.eqb_spec (pp + length bs) (length (payload d))) as [Hfull|Hfull].
  - assert (x' = []) as ->. { apply nil_length_inv. lia. }
    match goal with |- and_then ?k ?Q (fst (with_decoder decode ?r1)) _ =>
      change (post (with_decoder decode) r1 (and_then k Q)) end.
    eapply post_mono; [apply (decode_spec lv _ c cs e); simpl; try done|].
    + rewrite app_nil_r in Heb. rewrite Heb. rewrite <- take_store by lia. rewrite Hfull.
      symmetry. apply take_ge. by rewrite store_length by lia.
    + by rewrite Hdr'.
    + intros r' y (-> & Hok & Hcont & Hr). simpl. apply post_ret. simpl. exists cs.
      split; [done|]. split; [done|]. rewrite Hr. simpl. rewrite Hdr', Hd, !length_app. split; [lia|done].
  - simpl. apply post_ret. simpl. exists (c :: cs).
    split; [|split; [unfold content; simpl; fold d; by rewrite Hdr|
                     rewrite Hdr', Hd, !length_app; split; [lia|done]]].
    split; simpl; [done|done|]. right. split; [done|].
    exists c, cs, e, x', rest. repeat split; try done; simpl.
    + by rewrite store_length by lia.
    + by rewrite take_store, <- app_assoc by lia.
    + intros ->. simpl in Hpp. lia.
Qed.

Lemma metadata_block_long lv c enc : c ≠ [] -> length c <= METADATA_SIZE ->
  metadata_block lv c = Ok enc -> 3 <= length enc.
Proof.
  intros Hne Hl (e & h & _ & -> & Hh & _ & _ & Hb)%metadata_block_inv; [|done..].
  rewrite length_app. lia.
Qed.

Lemma stream_short lv blocks bs : stream lv blocks bs -> length bs < 3 -> blocks = [] /\ bs = [].
Proof.
  inversion 1 as [|c enc cs bs' Hne Hl He Hs]; subst; [done|].
  apply metadata_block_long in He; [|done..]. rewrite length_app. lia.
Qed.

(** Two bytes of a header have come; [accept_header] sets up the payload. *)
Lemma accept_header_spec lv r blocks : length (header (decoder r)) = 2 -> payload (decoder r) = [] ->
  d_output_position (decoder r) <= length (d_output (decoder r)) -> header_position (decoder r) = 2 ->
  stream lv blocks (header (decoder r) ++ data (reader r)) ->
  post (with_decoder accept_header) r (fun r' x => x = Ready tt /\ reader_ok lv r' blocks /\
    header_position (decoder r') = 2 /\ reader r' = reader r /\
    d_output (decoder r') = d_output (decoder r) /\
    d_output_position (decoder r') = d_output_position (decoder r)).
Proof.
  intros Hh Hp Ho H2 Hs. apply with_decoder_post. unfold post, accept_header.
  inversion Hs as [Eb E|c enc cs bs Hne Hl He Hs' Ec E]; subst.
  { symmetry in E. apply app_nil in E as [E _]. by rewrite E in Hh. }
  apply metadata_block_inv in He as (e & h & He & -> & Hhl & Hsz & Hco & Hr); [|done..].
  rewrite <- app_assoc in E. apply app_inj_1 in E as [Eh Ed]; [|congruence]. rewrite <- Eh, Hsz, Hco.
  destruct (_ || _) eqn:Eb.
  { apply orb_true_iff in Eb as [Eb|Eb]; [apply Nat.eqb_eq in Eb|apply Nat.ltb_lt in Eb]; lia. }
  simpl. split; [done|]. split; [|done]. split; simpl; [done|congruence|]. right. split; [done|].
  exists c, cs, e, (eb_bytes e), bs. rewrite Hp. unfold resize. simpl. rewrite take_nil. simpl.
  rewrite length_replicate. repeat split; try done; [lia|]. intros E0. rewrite E0 in Hr. simpl in Hr. lia.
Qed.

(** What a read ends with when [total] was left. *)
Definition read_end (lv : Z) (total : bytes) (len : nat) (r : MetadataBlocksReader)
    (r' : MetadataBlocksReader) (x : res bytes) : Prop :=
  match x with
  | Ready out => (exists blocks, reader_ok lv r' blocks /\ total = out ++ content r' blocks) /\
      length out <= len /\ (out = [] -> total = []) /\
      script_le (rscript (reader r')) (rscript (reader r))
  | Panics => False
  | Fail _ => (exists blocks, reader_ok lv r' blocks /\ total = content r' blocks) /\
      script_lt (rscript (reader r')) (rscript (reader r)) /\ fails (rscript (reader r')) < fails (rscript (reader r))
  | Pending => (exists blocks, reader_ok lv r' blocks /\ total = content r' blocks) /\
      script_lt (rscript (reader r')) (rscript (reader r))
  end.

(** The state between two rounds. *)
Definition reading (lv : Z) (total : bytes) (r0 r : MetadataBlocksReader) : Prop :=
  (exists blocks, reader_ok lv r blocks /\ total = content r blocks) /\
  script_le (rscript (reader r)) (rscript (reader r0)).

Definition read_measure (r : MetadataBlocksReader) : nat :=
  length (data (reader r)) + length (rscript (reader r)).

Definition round_result (lv : Z) total len r0 (r r' : MetadataBlocksReader) (x : res (option bytes)) : Prop :=
  match x with
  | Ready (Some out) => read_end lv total len r0 r' (Ready out)
  | Ready None => reading lv total r0 r' /\ read_measure r' < read_measure r
  | Fail e => read_end lv total len r0 r' (Fail e)
  | Pending => read_end lv total len r0 r' Pending
  | Panics => False
  end.

Lemma body_round lv total len r0 r1 r2 blocks r' x : body_end lv r2 blocks r' x ->
  total = concat blocks -> script_le (rscript (reader r2)) (rscript (reader r1)) ->
  length (data (reader r2)) <= length (data (reader r1)) ->
  script_le (rscript (reader r1)) (rscript (reader r0)) ->
  round_result lv total len r0 r1 r' x.
Proof.
  intros H -> Hs Hd H0. destruct x as [[a|]|e| |]; simpl in *; try done.
  - destruct H as (blocks' & Hok & Hc & Hdl & Hsl). split; [|unfold read_measure; lia].
    split; [by exists blocks'|lia].
  - destruct H as (Hok & Hc & Hsl). split; [by exists blocks|lia].
  - destruct H as (Hok & Hc & Hsl). split; [by exists blocks|lia].
Qed.

(** Bytes of a header have come: what both rounds do then. *)
Lemma header_round lv len r0 r blocks s bs (body : M MetadataBlocksReader (option bytes)) Q :
  (forall r' o, round_result lv (concat blocks) len r0 r r' (Ready o) -> Q r' (Ready o)) ->
  let hp := header_position (decoder r) in
  reader_ok lv r blocks -> drop (d_output_position (decoder r)) (d_output (decoder r)) = [] ->
  hp < 2 -> data (reader r) = bs ++ data s -> length bs <= 2 - hp ->
  script_le (rscript s) (rscript (reader r)) -> (bs = [] -> data (reader r) = []) ->
  script_le (rscript (reader r)) (rscript (reader r0)) ->
  (forall r2, reader_ok lv r2 blocks -> header_position (decoder r2) = 2 -> reader r2 = s ->
     drop (d_output_position (decoder r2)) (d_output (decoder r2)) = [] ->
     post body r2 Q) ->
  post (with_decoder (store_header bs) ;>
        if is_empty bs then (if hp =? 0 then m_ret (Some []) else m_fail UnexpectedEof)
        else
          with_decoder (advance_header (length bs)) ;>
          if hp + length bs =? 2 then with_decoder accept_header ;> body else m_ret None)
    (mkReader s (decoder r)) Q.
Proof.
  intros HQ hp [Hop Hh Hph] Hdr Hhp Hd Hbl Hsc Hbn H0 Hbody. destruct Hph as [(_ & Hp & Hs)|[? _]]; [|lia].
  fold hp in Hs. set (d := decoder r) in *.
  apply post_bind, with_decoder_post. unfold post at 1, store_header. simpl. fold d hp.
  destruct (is_empty bs) eqn:Eb.
  { apply is_empty_true in Eb as ->. specialize (Hbn eq_refl). rewrite Hbn, app_nil_r in Hs.
    apply stream_short in Hs as [-> Hs]; [|rewrite length_take; lia].
    assert (hp = 0) as Hz. { apply (f_equal length) in Hs. rewrite length_take in Hs. simpl in Hs. lia. }
    rewrite Hz. simpl. apply post_ret, HQ. split; [|split; [simpl; lia|split; [done|simpl; lia]]].
    exists []. split; [|unfold content; simpl; by fold d; rewrite Hdr].
    split; simpl; [done|by rewrite store_length; simpl; lia|]. left.
    split; [lia|]. split; [done|]. simpl. rewrite Hbn in Hd. symmetry in Hd. apply app_nil in Hd as [_ ->]. constructor. }
  apply is_empty_false in Eb.
  assert (0 < length bs) by (destruct bs; [done|simpl; lia]).
  assert (hp + length bs <= length (header d)) by lia.
  apply post_bind, with_decoder_post. unfold post at 1, advance_header. simpl. fold d hp.
  assert (stream lv blocks (take (hp + length bs) (store hp bs (header d)) ++ data s)) as Hs'.
  { rewrite take_store by done. by rewrite <- app_assoc, <- Hd. }
  destruct (Nat.eqb_spec (hp + length bs) 2) as [H2|H2].
  - apply post_bind. eapply post_mono.
    { apply (accept_header_spec lv _ blocks); simpl; try done.
      - by rewrite store_length by lia.
      - by rewrite take_ge in Hs' by (rewrite store_length; lia). }
    intros r2 x (-> & Hok & Hp2 & Hr & Ho1 & Ho2). simpl. apply Hbody; try done. rewrite Ho1, Ho2. done.
  - apply post_ret, HQ. split.
    + split; [|simpl; lia]. exists blocks. split; [|unfold content; simpl; by fold d; rewrite Hdr].
      split; simpl; [done|by rewrite store_length by lia|]. left. split; [lia|done].
    + unfold read_measure. simpl. rewrite Hd, length_app. lia.
Qed.

Lemma poll_round_spec lv total len r0 r : 0 < len -> reading lv total r0 r ->
  post (poll_round len) r (round_result lv total len r0 r).
Proof.
  intros Hlen [(blocks & Hok & ->) H0]. apply post_bind.
  eapply post_mono; [by apply (copy_output_spec lv len r blocks)|].
  intros r1 x (out & -> & Hok1 & Hc & Hl & Hr & Hdr). simpl.
  destruct (is_empty out) eqn:Eo; simpl.
  2:{ apply is_empty_false in Eo. apply post_ret. split; [by exists blocks|]. by rewrite Hr. }
  apply is_empty_true in Eo as ->. specialize (Hdr eq_refl).
  assert (content r blocks = concat blocks) as -> by (rewrite Hc; unfold content; by rewrite Hdr).
  rewrite <- Hr in H0.
  assert (forall r' x, round_result lv (concat blocks) len r0 r1 r' x ->
                       round_result lv (concat blocks) len r0 r r' x) as Hw.
  { intros r' [[]|e| |]; simpl; unfold read_measure; rewrite ?Hr; done. }
  apply (post_mono _ _ (round_result lv (concat blocks) len r0 r1)); [|exact Hw].
  apply post_bind. unfold post at 1, header_at. simpl.
  assert (forall r2, reader_ok lv r2 blocks -> header_position (decoder r2) = 2 ->
    script_le (rscript (reader r2)) (rscript (reader r1)) ->
    length (data (reader r2)) <= length (data (reader r1)) ->
    drop (d_output_position (decoder r2)) (d_output (decoder r2)) = [] ->
    post poll_body r2 (round_result lv (concat blocks) len r0 r1)) as Hbody.
  { intros r2 Hok2 H2 Hs2 Hd2 Hdr2. eapply post_mono; [by apply (poll_body_spec lv bytes r2 blocks)|].
    intros r' x Hb. by eapply body_round. }
  destruct (Nat.ltb_spec (header_position (decoder r1)) 2) as [Hhp|Hhp].
  - apply post_bind, with_reader_post. eapply post_mono; [apply source_poll_read_spec; lia|].
    intros s [bs|e| |]; simpl; try done.
    + intros (Hd & Hbl & Hsc & Hbn). apply (header_round lv len r0 r1 blocks); try done.
      intros r2 Hok2 H2 Hs2 Hdr2. subst s. apply Hbody; try done. rewrite Hd, length_app. lia.
    + intros [Hd Hsc]. split; [|simpl; lia]. exists blocks.
      split; [|unfold content; simpl; by rewrite Hdr]. destruct Hok1 as [? ? Hph]. split; simpl; try done.
      by rewrite Hd.
    + intros [Hd Hsc]. split; [|simpl; lia]. exists blocks.
      split; [|unfold content; simpl; by rewrite Hdr]. destruct Hok1 as [? ? Hph]. split; simpl; try done.
      by rewrite Hd.
  - apply Hbody; try done. destruct Hok1 as [_ _ [[? _]|[? _]]]; lia.
Qed.

Lemma poll_read_spec lv len r blocks : reader_ok lv r blocks -> 0 < len ->
  post (poll_read len) r (read_end lv (content r blocks) len r).
Proof.
  intros Hok Hlen. unfold post, poll_read. destruct (Nat.eqb_spec len 0); [lia|].
  apply (post_rounds (reading lv (content r blocks) r) read_measure).
  - intros s Hs. eapply post_mono; [by apply (poll_round_spec lv (content r blocks) len r s)|].
    intros s' [[]|e| |]; done.
  - split; [by exists blocks|done].
  - unfold read_measure, round_fuel. lia.
Qed.

(** The decoder with another payload. *)
Definition set_payload (d : MetadataDecoder) (p : bytes) : MetadataDecoder :=
  mkDecoder (header d) (header_position d) p (payload_position d) (compressed d) (d_output d) (d_output_position d).

Lemma source_read_spec n s : 0 < n -> post (source_read n) s (fun s' r =>
  match r with
  | Ready bs => data s = bs ++ data s' /\ length bs <= n /\ script_le (rscript s') (rscript s) /\
      (bs = [] -> data s = [])
  | Fail _ => data s' = data s /\ script_lt (rscript s') (rscript s)
  | _ => False
  end).
Proof.
  intros Hn. apply post_blocking. eapply post_mono; [by apply source_poll_read_spec|]. intros s' [bs|e| |]; [done|by intros (? & ? & _)|done|done].
Qed.

Lemma read_payload_loop_spec n pos r want x rest :
  length (payload (decoder r)) = length want -> want = take pos (payload (decoder r)) ++ x ->
  pos <= length want -> data (reader r) = x ++ rest ->
  length x + length (rscript (reader r)) < n ->
  post (read_payload_loop n pos) r (fun r' y =>
    match y with
    | Ready _ => decoder r' = set_payload (decoder r) want /\ data (reader r') = rest /\
        script_le (rscript (reader r')) (rscript (reader r))
    | Fail _ => length (rscript (reader r')) < length (rscript (reader r))
    | _ => False
    end).
Proof.
  revert pos r x. induction n as [|n IH]; intros pos r x Hlen Hw Hpos Hd Hn; [lia|].
  unfold post. simpl.
  assert (length x = length want - pos) as Hx.
  { apply (f_equal length) in Hw. rewrite length_app, length_take in Hw. lia. }
  destruct (Nat.eqb_spec (length (payload (decoder r)) - pos) 0) as [Hz|Hz].
  { assert (x = []) as -> by (apply nil_length_inv; lia). simpl. rewrite app_nil_r in Hw.
    split; [|split; [done|lia]]. rewrite Hw, take_ge by lia. by destruct (decoder r). }
  match goal with |- context [fst (?m r)] => match goal with |- ?G =>
    match eval pattern (m r) in G with ?F _ => change (post m r (fun s x => F (s, x))) end end end. simpl.
  apply post_bind, post_retry, with_reader_post. eapply post_mono; [apply source_read_spec; lia|].
  intros s [bs|e| |]; simpl; try done.
  - intros (Hs & Hbl & Hsc & Hbn). rewrite Hd in Hs.
    destruct (shorter_prefix bs x (data s) rest) as (x' & -> & Hds); [done|lia|].
    rewrite length_app in Hx, Hn.
    destruct bs as [|b0 bs0] eqn:Eb.
    { specialize (Hbn eq_refl). rewrite Hd in Hbn. destruct x'; [simpl in Hx; lia|done]. }
    rewrite <- Eb in *. assert (0 < length bs) by (rewrite Eb; simpl; lia).
    assert (post (with_decoder (store_payload_at pos bs) ;> read_payload_loop n (pos + length bs))
      (mkReader s (decoder r)) (fun r' y =>
      match y with
      | Ready _ => decoder r' = set_payload (decoder r) want /\ data (reader r') = rest /\
          script_le (rscript (reader r')) (rscript (reader r))
      | Fail _ => length (rscript (reader r')) < length (rscript (reader r))
      | _ => False
      end)) as Hgoal; [|by rewrite Eb in Hgoal |- *].
    apply post_bind, with_decoder_post. unfold post at 1, store_payload_at. simpl.
    eapply post_mono; [apply (IH _ _ x'); simpl|].
    + by rewrite store_length by lia.
    + by rewrite take_store, <- app_assoc by lia.
    + lia.
    + done.
    + lia.
    + simpl. intros r' [[]|e| |]; try done; [|lia]. intros (Hdec & Hdat & Hle). split; [|split; [done|lia]].
      by rewrite Hdec.
  - intros [Hds Hsc].
    assert (e = Interrupted \/ e ≠ Interrupted) as [->|He] by (destruct e; auto).
    + eapply post_mono; [apply (IH _ _ x); simpl; try done; [by rewrite Hds|lia]|].
      simpl. intros r' [[]|e| |]; try done; [|lia]. intros (Hdec & Hdat & Hle). split; [done|split; [done|lia]].
    + destruct e; simpl; done || lia.
Qed.

(** ** The blocking reader *)

(** Like [read_end], but an error of the wrapped object in the middle of a payload loses what
    was read of it. *)
Definition blocking_end (lv : Z) (total : bytes) (len : nat) (r r' : MetadataBlocksReader) (x : res bytes) : Prop :=
  match x with
  | Fail _ => length (rscript (reader r')) < length (rscript (reader r))
  | Pending => False
  | _ => read_end lv total len r r' x
  end.

Definition blocking_round (lv : Z) total len r0 (r r' : MetadataBlocksReader) (x : res (option bytes)) : Prop :=
  match x with
  | Ready (Some out) => blocking_end lv total len r0 r' (Ready out)
  | Ready None => reading lv total r0 r' /\ read_measure r' < read_measure r
  | Fail e => blocking_end lv total len r0 r' (Fail e)
  | _ => False
  end.

Lemma read_body_spec lv len r0 r1 r blocks : reader_ok lv r blocks ->
  drop (d_output_position (decoder r)) (d_output (decoder r)) = [] ->
  header_position (decoder r) = 2 ->
  script_le (rscript (reader r)) (rscript (reader r1)) ->
  length (data (reader r)) <= length (data (reader r1)) ->
  script_le (rscript (reader r1)) (rscript (reader r0)) ->
  post read_body r (blocking_round lv (concat blocks) len r0 r1).
Proof.
  intros [Hop Hh Hph] Hdr H2 Hsc1 Hd1 Hsc0. destruct Hph as [[? _]|[_ Hin]]; [lia|].
  destruct Hin as (c & cs & e & x & rest & -> & Hne & Hl & He & Hc & Hlen & Heb & Hx & Hd & Hs).
  set (pp := payload_position (decoder r)) in *.
  assert (pp + length x = length (payload (decoder r)) /\ 0 < length x) as [Hpp Hx0].
  { apply (f_equal length) in Heb. rewrite length_app, length_take in Heb. destruct x; [done|]. simpl in *. lia. }
  apply post_bind. unfold post at 1, read_payload. fold pp.
  destruct (Nat.ltb_spec (length (payload (decoder r))) pp); [lia|].
  match goal with |- and_then ?k ?Q (fst (read_payload_loop ?n ?pos r)) _ =>
    change (post (read_payload_loop n pos) r (and_then k Q)) end.
  eapply post_mono; [apply (read_payload_loop_spec _ _ _ (eb_bytes e) x rest); try done; lia|].
  intros r' [[]|err| |]; simpl; try done; [|lia]. intros (Hdec & Hdat & Hle).
  apply post_bind. eapply post_mono; [apply (decode_spec lv _ c cs e); rewrite ?Hdec, ?Hdat; done|].
  intros r2 y (-> & Hok & Hcont & Hr). simpl. apply post_ret. simpl. split.
  - split; [by exists cs|]. rewrite Hr. lia.
  - unfold read_measure. rewrite Hr, Hdat. rewrite Hd, length_app in Hd1. lia.
Qed.

Lemma read_round_spec lv total len r0 r : 0 < len -> reading lv total r0 r ->
  post (read_round len) r (blocking_round lv total len r0 r).
Proof.
  intros Hlen [(blocks & Hok & ->) H0]. apply post_bind.
  eapply post_mono; [by apply (copy_output_spec lv len r blocks)|].
  intros r1 x (out & -> & Hok1 & Hc & Hl & Hr & Hdr). simpl.
  destruct (is_empty out) eqn:Eo; simpl.
  2:{ apply is_empty_false in Eo. apply post_ret. split; [by exists blocks|]. by rewrite Hr. }
  apply is_empty_true in Eo as ->. specialize (Hdr eq_refl).
  assert (content r blocks = concat blocks) as -> by (rewrite Hc; unfold content; by rewrite Hdr).
  rewrite <- Hr in H0.
  assert (forall r' x, blocking_round lv (concat blocks) len r0 r1 r' x ->
                       blocking_round lv (concat blocks) len r0 r r' x) as Hw.
  { intros r' [[]|e| |]; simpl; unfold read_measure; rewrite ?Hr; done. }
  apply (post_mono _ _ (blocking_round lv (concat blocks) len r0 r1)); [|exact Hw].
  apply post_bind. unfold post at 1, header_at. simpl.
  destruct (Nat.ltb_spec (header_position (decoder r1)) 2) as [Hhp|Hhp].
  - apply post_bind, post_retry, with_reader_post. eapply post_mono; [apply source_read_spec; lia|].
    intros s [bs|e| |]; simpl; try done.
    + intros (Hd & Hbl & Hsc & Hbn). apply (header_round lv len r0 r1 blocks); try done.
      intros r2 Hok2 H2 Hs2 Hdr2. subst s. apply read_body_spec; try done. rewrite Hd, length_app. lia.
    + intros [Hd Hsc]. assert (e = Interrupted \/ e ≠ Interrupted) as [->|He] by (destruct e; auto).
      * apply post_ret. split; [|unfold read_measure; simpl; rewrite Hd; lia].
        split; [|simpl; lia]. exists blocks. split; [|unfold content; simpl; by rewrite Hdr].
        destruct Hok1 as [? ? Hph]. split; simpl; try done. by rewrite Hd.
      * assert (length (rscript s) < length (rscript (reader r0))) by lia. by destruct e.
  - apply read_body_spec; try done. destruct Hok1 as [_ _ [[? _]|[? _]]]; lia.
Qed.

Lemma reader_read_spec lv len r blocks : reader_ok lv r blocks -> 0 < len ->
  post (read len) r (blocking_end lv (content r blocks) len r).
Proof.
  intros Hok Hlen. unfold post, read. destruct (Nat.eqb_spec len 0); [lia|].
  apply (post_rounds (reading lv (content r blocks) r) read_measure).
  - intros s Hs. eapply post_mono; [by apply (read_round_spec lv (content r blocks) len r s)|].
    intros s' [[]|e| |]; done.
  - split; [by exists blocks|done].
  - unfold read_measure, round_fuel. lia.
Qed.

(** ** Reading what was written *)

(** Asynchronous reads into buffers of the given sizes, until one of them reports the end;
    after an error or when the source is not ready the next read goes on.  The bytes that were
    read, whether the end was reported and whether a read panicked. *)
Fixpoint poll_reads (lens : list nat) (r : MetadataBlocksReader) : bytes * bool * bool :=
  match lens with
  | [] => ([], false, false)
  | len :: rest =>
      match poll_read len r with
      | (_, Ready []) => ([], true, false)
      | (r', Ready out) => let '(got, e, p) := poll_reads rest r' in (out ++ got, e, p)
      | (_, Panics) => ([], false, true)
      | (r', _) => poll_reads rest r'
      end
  end.

(** Blocking reads, which stop at the first error. *)
Fixpoint reads (lens : list nat) (r : MetadataBlocksReader) : bytes * bool * bool :=
  match lens with
  | [] => ([], false, false)
  | len :: rest =>
      match read len r with
      | (_, Ready []) => ([], true, false)
      | (r', Ready out) => let '(got, e, p) := reads rest r' in (out ++ got, e, p)
      | (_, Fail _) => ([], false, false)
      | _ => ([], false, true)
      end
  end.

(** The reads got a prefix of [total], all of it when the end was reported, and no panic. *)
Definition got_prefix (total : bytes) (x : bytes * bool * bool) : Prop :=
  let '(got, ended, panicked) := x in
  panicked = false /\ exists rest, total = got ++ rest /\ (ended = true -> rest = []).

Lemma got_prefix_app out total x : got_prefix total x ->
  got_prefix (out ++ total) (let '(got, e, p) := x in (out ++ got, e, p)).
Proof.
  destruct x as [[got e] p]. intros (-> & rest & -> & H). split; [done|]. exists rest.
  by rewrite app_assoc.
Qed.

Lemma poll_reads_spec lv lens r blocks : reader_ok lv r blocks -> Forall (fun n => 0 < n) lens ->
  got_prefix (content r blocks) (poll_reads lens r) /\
  (length (content r blocks) + length (rscript (reader r)) < length lens -> (poll_reads lens r).1.2 = true).
Proof.
  intros Hok Hpos. revert r blocks Hok. induction Hpos as [|len lens Hlen _ IH]; intros r blocks Hok; simpl.
  { split; [split; [done|by eexists]|lia]. }
  destruct (poll_read len r) as [r' x] eqn:E.
  apply (post_run _ _ _ _ _ (poll_read_spec lv len r blocks Hok Hlen)) in E. destruct x as [out|e| |]; simpl in E; [|..|done].
  - destruct E as ((bl & Hok' & Hc) & Hl & Hn & Hsc). destruct out as [|b0 out].
    { rewrite Hn by done. split; [|done]. split; [done|]. by exists []. }
    destruct (IH r' bl Hok') as [Hg He]. rewrite Hc. split; [by apply (got_prefix_app (b0 :: out)), Hg|].
    destruct (poll_reads lens r') as [[got e] p]. simpl in He |- *. rewrite length_app. intros Hlt.
    apply He. lia.
  - destruct E as [(bl & Hok' & Hc) Hs]. rewrite Hc. destruct (IH r' bl Hok') as [Hg He].
    split; [done|]. intros. apply He. lia.
  - destruct E as [(bl & Hok' & Hc) Hs]. rewrite Hc. destruct (IH r' bl Hok') as [Hg He].
    split; [done|]. intros. apply He. lia.
Qed.

Lemma reads_spec lv lens r blocks : reader_ok lv r blocks -> Forall (fun n => 0 < n) lens ->
  got_prefix (content r blocks) (reads lens r) /\
  (rscript (reader r) = [] -> length (content r blocks) < length lens -> (reads lens r).1.2 = true).
Proof.
  intros Hok Hpos. revert r blocks Hok. induction Hpos as [|len lens Hlen _ IH]; intros r blocks Hok; simpl.
  { split; [split; [done|by eexists]|lia]. }
  destruct (read len r) as [r' x] eqn:E.
  apply (post_run _ _ _ _ _ (reader_read_spec lv len r blocks Hok Hlen)) in E. destruct x as [out|e| |]; simpl in E; [|..|done|done].
  - destruct E as ((bl & Hok' & Hc) & Hl & Hn & Hsc). destruct out as [|b0 out].
    { rewrite Hn by done. split; [|done]. split; [done|]. by exists []. }
    destruct (IH r' bl Hok') as [Hg He]. rewrite Hc. split; [by apply (got_prefix_app (b0 :: out)), Hg|].
    destruct (reads lens r') as [[got e] p]. simpl in He |- *. rewrite length_app. intros Hz Hlt.
    rewrite Hz in Hsc. apply He; [apply nil_length_inv; simpl in Hsc; lia|lia].
  - split; [split; [done|by eexists]|]. intros Hz. rewrite Hz in E. simpl in E. lia.
Qed.

Lemma new_reader_ok lv blocks bs script : stream lv blocks bs ->
  reader_ok lv (MetadataBlocksReader_new (mkSource bs script)) blocks.
Proof. intros H. split; simpl; [done|done|]. left. split; [lia|done]. Qed.

(** C20: what is written through a [MetadataBlocksWriter] and flushed comes back
    through a [MetadataBlocksReader]: in whatever pieces the bytes were written, whatever the
    two wrapped objects answer (short transfers, errors, interruptions, not ready) and
    whatever buffers are used, the asynchronous reads never panic and get a prefix of the bytes
    that were taken, all of them when the end is reported; and when there are more reads
    than bytes and answers of the source, the end is reported.  Blocking reads get a prefix
    as well, up to an error of the source, and all when the source has no errors. *)
Theorem metadata_roundtrip cs wscr lv rscr lens fl w' :
  let '(w, took, _) := run_calls cs (MetadataBlocksWriter_with_level (mkSink [] wscr) lv) in
  fl ∈ [flush; poll_flush; poll_shutdown] -> fl w = (w', Ready tt) -> Forall (fun n => 0 < n) lens ->
  let r := MetadataBlocksReader_new (mkSource (sunk (writer w')) rscr) in
  got_prefix took (poll_reads lens r) /\
  (length took + length rscr < length lens -> poll_reads lens r = (took, true, false)) /\
  got_prefix took (reads lens r) /\
  (rscr = [] -> length took < length lens -> reads lens r = (took, true, false)).
Proof.
  destruct (run_calls _ _) as [[w took] p] eqn:E. intros Hfl Ew Hpos r.
  destruct (flushed_stream cs wscr lv w took p fl w' E Hfl Ew) as (blocks & <- & Hs).
  pose proof (new_reader_ok lv blocks _ rscr Hs) as Hok. fold r in Hok.
  assert (content r blocks = concat blocks) as Hc by done.
  destruct (poll_reads_spec lv lens r blocks Hok Hpos) as [H1 H2].
  destruct (reads_spec lv lens r blocks Hok Hpos) as [H3 H4]. rewrite Hc in *.
  assert (forall x, got_prefix (concat blocks) x -> x.1.2 = true -> x = (concat blocks, true, false)) as Hall.
  { intros [[got e] q] (-> & rest & -> & Hrest) He. simpl in He. subst e. by rewrite Hrest, app_nil_r. }
  split; [done|]. split; [intros; apply Hall; auto|]. split; [done|]. intros. apply Hall; auto.
Qed.

(** A table of which a reference is taken after some writes and before others. *)
Definition referenced (before after : list bytes) : M MetadataBlocksWriter (Z * bytes) :=
  write_alls before ;>
  let> reference := MetadataTable_reference in
  write_alls after ;>
  let> table := MetadataTable_finish in
  m_ret (reference, table).

Definition locates (lv : Z) (reference : Z) (table after : bytes) : Prop :=
  exists blocks, stream lv blocks (drop (Z.to_nat (Z.shiftr reference 16)) table) /\
    (Z.land reference 0xffff < 8192)%Z /\
    drop (Z.to_nat (Z.land reference 0xffff)) (concat blocks) = after.

Lemma reference_halves start off : (0 <= start)%Z -> (0 <= off < 2 ^ 16)%Z ->
  Z.shiftr (start * 2 ^ 16 + off) 16 = start /\ Z.land (start * 2 ^ 16 + off) 0xffff = off.
Proof.
  intros Hs Ho. rewrite Z.shiftr_div_pow2, land_ffff by lia. split.
  - symmetry. by apply (Z.div_unique _ _ _ off); [left|lia].
  - symmetry. by apply (Z.mod_unique _ _ start); [left|lia].
Qed.

Lemma new_table_ok lv : table_ok (MetadataTable_new lv) [].
Proof. split; [by apply new_writer_ok|done]. Qed.

(** A reference into a metadata table finds what was written after
    it was taken: its upper part is where a block of the finished table starts, its lower part
    is an offset below 8192, and the contents of the blocks from there on, without as many
    bytes as the offset says, are exactly the bytes written after the reference was taken.
    Building the table never panics and fails only when the compressor does or the table
    reaches 4 GiB. *)
Theorem metadata_reference_locates lv before after :
  post (referenced before after) (MetadataTable_new lv) (fun w r =>
    match r with
    | Ready (reference, table) => locates lv reference table (concat after)
    | Fail e => compressor_error lv e \/
        e = InvalidData $"SquashFS metadata table exceeds 4 GiB"
    | _ => False
    end).
Proof.
  apply post_bind. eapply post_mono; [apply (table_write_alls before), new_table_ok|].
  intros w1 [[]|e| |]; simpl; try done; [|by left]. intros (Hl1 & bl1 & Hok1 & _). simpl in Hok1.
  apply post_bind. eapply post_mono; [by apply (table_reference w1 bl1)|].
  intros w2 [ref|e| |]; simpl; try done; [|rewrite <- Hl1; tauto].
  intros ((Hl2 & bl2 & Hok2 & _) & Href & Hin). set (bl := bl1 ++ bl2) in *.
  apply post_bind. eapply post_mono; [by apply (table_write_alls after w2 bl)|].
  intros w3 [[]|e| |]; simpl; try done; [|rewrite Hl2, Hl1; by left]. intros (Hl3 & bl3 & Hok3 & Ht3).
  apply post_bind, post_bind. eapply post_mono; [by apply (table_flush w3 (bl ++ bl3))|].
  intros w4 [[]|e| |] [Hp4 Hi4]; simpl in Hp4 |- *; try done; [|rewrite Hl3, Hl2, Hl1 in Hp4; by left].
  specialize (Hi4 eq_refl). destruct Hp4 as (Hl4 & bl4 & Hok4 & Ht4). unfold post. simpl.
  rewrite <- app_assoc in Hok4, Ht4.
  destruct (reference_blocks w2 bl w4 (bl3 ++ bl4) Hok2 Hok4) as [_ Hs]; [congruence|].
  exists (bl3 ++ bl4). rewrite Href. unfold METADATA_SIZE in Hin.
  destruct (reference_halves (Z.of_nat (length (sunk (writer w2)))) (Z.of_nat (length (input w2)))) as [-> ->]; [lia..|].
  rewrite !Nat2Z.id. split; [by rewrite Hl2, Hl1 in Hs|]. split; [lia|].
  unfold taken in *. rewrite Hi4, !app_nil_r, Ht3, concat_app, <- app_assoc in Ht4.
  apply app_inv_head in Ht4. by rewrite Ht4, drop_app_length.
Qed.

(** C35: decoding a block of untrusted bytes ends after at most as many
    rounds as there are bytes to read and to write, whatever the bytes are, and never gives
    more than the limit; a block that [encode_block] made decodes to what it was made of. *)
Theorem decode_block_bounded bs compressed limit :
  (forall out, decode_block bs compressed limit = Ok out -> length out <= limit) /\
  (forall more, decode_loop (more + S (length bs + limit)) decoder_new bs [] limit =
                decode_loop (S (length bs + limit)) decoder_new bs [] limit) /\
  (forall c lv e, length c <= limit -> encode_block c lv = Ok e ->
     decode_block (eb_bytes e) (eb_compressed e) limit = Ok c).
Proof.
  split; [|split].
  - intros out. unfold decode_block. destruct compressed; [apply decode_loop_bounded|]. simpl.
    destruct (Nat.ltb_spec limit (length bs)); [done|]. by intros [= <-].
  - intros more. apply decode_loop_fuel; simpl; lia.
  - intros c lv e. apply decode_encode_block.
Qed.
End blocks.

(** ** An instance of the compressor, and examples *)

Module RunLength.

(** One byte repeated is its value and the length; anything else is stored. *)
Definition is_run (c : bytes) : option byte :=
  match c with
  | x :: r => if (Z.of_nat (length c) <? 2 ^ 16)%Z && forallb (fun y => bool_decide (x = y)) r then Some x else None
  | [] => None
  end.

Definition shrink (c : bytes) : bytes :=
  match is_run c with
  | Some x => Byte.x01 :: x :: to_le_bytes u16 (Z.of_nat (length c))
  | None => Byte.x00 :: c
  end.

Definition expand (frame : bytes) : option bytes :=
  match frame with
  | Byte.x00 :: c => Some c
  | Byte.x01 :: x :: n => Some (replicate (Z.to_nat (from_le_bytes u16 n)) x)
  | _ => None
  end.

Lemma expand_shrink c : expand (shrink c) = Some c.
Proof.
  unfold shrink. destruct (is_run c) as [x|] eqn:E; [|done].
  change (Some (replicate (Z.to_nat (from_le_bytes u16 (to_le_bytes u16 (Z.of_nat (length c))))) x) = Some c).
  unfold is_run in E. destruct c as [|y r]; [done|]. destruct (_ && _) eqn:Eb; [|done]. injection E as ->.
  apply andb_true_iff in Eb as [Hl Hr].
  rewrite from_to_le_bytes by (unfold in_range; simpl in *; lia). rewrite Nat2Z.id. f_equal.
  apply replicate_as_elem_of. split; [done|]. intros z.
  rewrite elem_of_cons. intros [->|Hz]; [done|].
  rewrite forallb_forall in Hr. apply list_elem_of_In in Hz. apply Hr in Hz. by apply bool_decide_eq_true in Hz.
Qed.

Definition step (d : option bytes) (i : bytes) (room : nat) : io (option bytes * nat * bytes * bool) :=
  match d with
  | None =>
      match expand i with
      | Some o => Ok (Some (drop room o), length i, take room o, length o <=? room)
      | None => Err (Other 1)
      end
  | Some o => Ok (Some (drop room o), 0, take room o, length o <=? room)
  end.

#[export] Instance zstd : Zstd :=
  {| compress c _ := Ok (shrink c); Decoder := option bytes; decoder_new := None; decoder_decode := step |}.

Definition decoding (i o : bytes) (d : option bytes) : Prop :=
  d = None /\ expand i = Some o \/ d = Some o /\ i = [].

Lemma step_decoding i o d room : decoding i o d -> 0 < room ->
  exists d' i1 i2 o1 o2 fin, i = i1 ++ i2 /\ o = o1 ++ o2 /\
    step d i room = Ok (d', length i1, o1, fin) /\
    (fin = true /\ i2 = [] /\ o2 = [] \/ fin = false /\ decoding i2 o2 d' /\ (i1 ≠ [] \/ o1 ≠ [])).
Proof.
  intros Hd Hr. exists (Some (drop room o)), i, [], (take room o), (drop room o), (length o <=? room).
  rewrite app_nil_r, take_drop. split; [done|]. split; [done|]. split.
  { destruct Hd as [[-> E]|[-> ->]]; simpl; [by rewrite E|done]. }
  destruct (Nat.leb_spec (length o) room) as [Hl|Hl].
  - left. split; [done|]. split; [done|]. by apply drop_ge.
  - right. split; [done|]. split; [by right|]. right. destruct o; [simpl in Hl; lia|]. by destruct room; [lia|].
Qed.

#[export] Instance zstd_ok : ZstdOk zstd.
Proof.
  split.
  - intros d i room d' n o fin. simpl. unfold step.
    destruct d as [o'|]; [|destruct (expand i); [|done]]; intros [= <- <- <- <-]; rewrite length_take; lia.
  - intros content lv frame [= <-]. unfold shrink. by case_match.
  - intros content lv frame [= <-]. exists decoding. split; [left; by rewrite expand_shrink|].
    exact step_decoding.
Qed.

End RunLength.

Module SquashBlocksExamples.
Import RunLength.

(** Two writes and flushes of an object that is interrupted, not ready, fails and writes a
    byte at a time. *)
Definition calls : list wcall := [CWrite (bstr "squash"); CPollFlush; CPollFlush; CWrite (bstr "fs"); CFlush].
Definition answers : list response := [Moved 3; NotReady; Failed (Other 7); Moved 1; Failed Interrupted].

Definition final : MetadataBlocksWriter * bytes * bool :=
  run_calls calls (MetadataBlocksWriter_with_level (mkSink [] answers) 15).

Example writer_retries : final.1.2 = bstr "squashfs" /\ final.2 = false.
Proof. by vm_compute. Qed.

Lemma metadata_writer_exact_witness :
  final.2 = false /\ exists blocks, concat blocks ++ input final.1.1 = final.1.2.
Proof.
  pose proof (metadata_writer_exact calls answers 15) as H. unfold final.
  destruct (run_calls _ _) as [[w took] p]. destruct H as (-> & (blocks & H & _) & _).
  split; [reflexivity|]. by exists blocks.
Defined.

Definition flushed : MetadataBlocksWriter := (flush final.1.1).1.

Lemma metadata_roundtrip_witness :
  poll_reads (replicate 20 3) (MetadataBlocksReader_new (mkSource (sunk (writer flushed)) [Moved 0; NotReady; Failed (Other 9)]))
  = (bstr "squashfs", true, false).
Proof.
  pose proof (metadata_roundtrip calls answers 15 [Moved 0; NotReady; Failed (Other 9)] (replicate 20 3) flush flushed) as H.
  fold final in H. destruct final as [[w took] p] eqn:E.
  assert (took = bstr "squashfs") as -> by (change took with ((w, took, p).1.2); rewrite <- E; by vm_compute).
  refine (proj1 (proj2 (H _ _ _)) _).
  - apply list_elem_of_here.
  - unfold flushed. rewrite E. change w with ((w, bstr "squashfs", p).1.1). rewrite <- E. vm_compute. reflexivity.
  - repeat constructor.
  - vm_compute. lia.
Defined.

Lemma metadata_reference_locates_witness :
  match referenced [bstr "one"; bstr "two"] [bstr "three"] (MetadataTable_new 15) with
  | (_, Ready (reference, table)) => locates 15 reference table (bstr "three")
  | _ => False
  end.
Proof.
  pose proof (metadata_reference_locates 15 [bstr "one"; bstr "two"] [bstr "three"]) as H.
  unfold post in H.
  destruct (referenced _ _ _) as [w r] eqn:E. destruct r as [[ref table]|e| |]; [exact H|..]; exfalso;
    apply (f_equal (fun x => match x.2 with Ready _ => true | _ => false end)) in E;
    vm_compute in E; discriminate E.
Defined.

Lemma decode_block_bounded_witness :
  decode_block (Byte.x01 :: Byte.x41 :: to_le_bytes u16 5) true 8 = Ok (bstr "AAAAA") /\
  decode_block (Byte.x01 :: Byte.x41 :: to_le_bytes u16 9) true 8 =
    invalid $"decompressed SquashFS block exceeds its limit".
Proof.
  pose proof (proj2 (proj2 (decode_block_bounded [] true 8)) (bstr "AAAAA") 1%Z
                (mkEncoded (Byte.x01 :: Byte.x41 :: to_le_bytes u16 5) true)) as H.
  split; [apply H; [vm_compute; lia|reflexivity]|vm_compute; reflexivity].
Defined.

End SquashBlocksExamples.
