(* ===== verification/SquashTree.v ===== *)
(** * The editable inode tree

    [shared-libs/crates/start-core/src/util/squashfs/tree.rs]: archive names and paths,
    directories and the operations that look up and insert entries, hardlink resolution,
    and the options of an image.

    A name is its bytes; a [PathBuf] that [normalize_path] returned is the list of its
    components, and [path_text] is its text.  Other paths (link targets, the arguments of
    the operations) are raw bytes. *)
From stdpp Require Import list sorting relations.
From S2P Require Import Prelude RustStr BTree SquashFormat.

Local Open Scope rust_scope.

(** ** Names and paths *)

Definition byte_cmp (a c : byte) : comparison := N.compare (Byte.to_N a) (Byte.to_N c).

(** [Ord for OsStr] is the order of the bytes. *)
Definition bytes_cmp : bytes -> bytes -> comparison := list_cmp byte_cmp.

Definition slash : byte := Byte.x2f.
Definition dot : bytes := [Byte.x2e].
Definition dotdot : bytes := [Byte.x2e; Byte.x2e].

Definition contains (c : byte) (bs : bytes) : bool := existsb (fun x => bool_decide (x = c)) bs.

Definition name_ok (name : bytes) : bool :=
  negb (bool_decide (name = []) || (256 <? length name) || bool_decide (name = dot)
        || bool_decide (name = dotdot) || contains Byte.x00 name || contains slash name).

Definition validate_name (name : bytes) : io unit :=
  if name_ok name then Ok tt else invalid $"invalid SquashFS entry name".

(** [std::path::Component] on Unix. *)
Inductive component : Type :=
| RootDir
| CurDir
| ParentDir
| Normal (name : bytes).

Fixpoint split_slash (path : bytes) : list bytes :=
  match path with
  | [] => [[]]
  | c :: r =>
      if bool_decide (c = slash) then [] :: split_slash r
      else match split_slash r with p :: ps => (c :: p) :: ps | [] => [[c]] end
  end.

(** A piece between slashes; empty ones and single dots are skipped. *)
Definition piece (p : bytes) : option component :=
  if bool_decide (p = []) || bool_decide (p = dot) then None
  else if bool_decide (p = dotdot) then Some ParentDir
  else Some (Normal p).

(** [Path::components]: a leading slash is the root, a leading dot the current directory. *)
Definition components (path : bytes) : list component :=
  match split_slash path with
  | [] => []
  | first :: rest =>
      (if bool_decide (first = []) then (if bool_decide (rest = []) then [] else [RootDir])
       else if bool_decide (first = dot) then [CurDir] else [])
      ++ omap piece (first :: rest)
  end.

(** [PathBuf::pop] on the components. *)
Definition pop (path : list bytes) : list bytes := removelast path.

Fixpoint normalize_loop (cs : list component) (normalized : list bytes) : io (list bytes) :=
  match cs with
  | [] => Ok normalized
  | RootDir :: r | CurDir :: r => normalize_loop r normalized
  | ParentDir :: r => normalize_loop r (pop normalized)
  | Normal name :: r =>
      let? _ := validate_name name in normalize_loop r (normalized ++ [name])
  end.

Definition normalize_path (path : bytes) : io (list bytes) := normalize_loop (components path) [].

(** The text of a path of normal components. *)
Fixpoint path_text (path : list bytes) : bytes :=
  match path with
  | [] => []
  | [name] => name
  | name :: r => name ++ slash :: path_text r
  end.

(** ** The tree *)

Record Metadata : Type := mkMetadata {
  mode : Z;
  uid : Z;
  gid : Z;
  modification_time : Z;
  xattrs : list (bytes * bytes);
}.

Definition Metadata_new (mode : Z) : Metadata := mkMetadata mode 0 0 0 [].

Record Device : Type := mkDevice { major : Z; minor : Z }.

Section Tree.
Context {S : Type}.

Inductive Entry : Type :=
| ENode (node : Node)
| EHardlink (target : bytes)
with Node : Type :=
| mkNode (metadata : Metadata) (contents : NodeContents)
with NodeContents : Type :=
| NFile (source : S)
| NDirectory (directory : DirectoryContents)
| NSymlink (target : bytes)
| NBlockDevice (device : Device)
| NCharacterDevice (device : Device)
| NFifo
| NSocket
with DirectoryContents : Type :=
| mkDir (entries : list (bytes * Entry)).

Definition metadata (n : Node) : Metadata := let '(mkNode m _) := n in m.
Definition contents (n : Node) : NodeContents := let '(mkNode _ c) := n in c.
Definition entries (d : DirectoryContents) : list (bytes * Entry) := let '(mkDir es) := d in es.

Definition Entry_new (m : Metadata) (c : NodeContents) : Entry := ENode (mkNode m c).
Definition Entry_file (m : Metadata) (source : S) : Entry := Entry_new m (NFile source).
Definition Entry_directory (m : Metadata) (d : DirectoryContents) : Entry := Entry_new m (NDirectory d).

Definition as_node (e : Entry) : option Node :=
  match e with ENode n => Some n | EHardlink _ => None end.

Definition as_directory (c : NodeContents) : option DirectoryContents :=
  match c with NDirectory d => Some d | _ => None end.

Definition NodeContents_kind (c : NodeContents) : InodeKind :=
  match c with
  | NFile _ => KFile
  | NDirectory _ => KDirectory
  | NSymlink _ => KSymlink
  | NBlockDevice _ => KBlockDevice
  | NCharacterDevice _ => KCharacterDevice
  | NFifo => KFifo
  | NSocket => KSocket
  end.

Definition DirectoryContents_new : DirectoryContents := mkDir [].
Definition DirectoryContents_iter (d : DirectoryContents) : list (bytes * Entry) := entries d.
Definition DirectoryContents_len (d : DirectoryContents) : nat := length (entries d).
Definition DirectoryContents_is_empty (d : DirectoryContents) : bool := bool_decide (DirectoryContents_len d = 0).

Definition DirectoryContents_get (name : bytes) (d : DirectoryContents) : option Entry :=
  BTreeMap_get bytes_cmp name (entries d).

(** [BTreeMap::insert] on the entries, without the check of the name. *)
Definition put (name : bytes) (e : Entry) (d : DirectoryContents) : DirectoryContents :=
  mkDir (BTreeMap_insert bytes_cmp name e (entries d)).

Definition DirectoryContents_insert (name : bytes) (e : Entry) (d : DirectoryContents)
    : DirectoryContents * io (option Entry) :=
  match validate_name name with
  | Err err => (d, Err err)
  | Ok _ => (put name e d, Ok (DirectoryContents_get name d))
  end.

(** The directory an entry is, if it is one. *)
Definition entry_directory (e : Entry) : option DirectoryContents :=
  n ← as_node e; as_directory (contents n).

(** The loop of [get_path]. *)
Fixpoint get_components (path : list bytes) (d : DirectoryContents) : option Entry :=
  match path with
  | [] => None
  | [name] => DirectoryContents_get name d
  | name :: r => e ← DirectoryContents_get name d; d' ← entry_directory e; get_components r d'
  end.

Definition DirectoryContents_get_path (path : bytes) (d : DirectoryContents) : option Entry :=
  p ← result_ok (normalize_path path); get_components p d.

Definition Node_implicit_directory : Node := mkNode (Metadata_new 0x1ed (* 0o755 *)) (NDirectory DirectoryContents_new).

(** The loop of [insert_path] down the parents and the insertion at its end.  The directory of
    each parent is changed in place, and a missing one is created before it is entered. *)
Fixpoint insert_components (parents : list bytes) (name : bytes) (e : Entry) (d : DirectoryContents)
    : DirectoryContents * io (option Entry) :=
  match parents with
  | [] => DirectoryContents_insert name e d
  | c :: r =>
      let entry := default (ENode Node_implicit_directory) (DirectoryContents_get c d) in
      match entry with
      | ENode (mkNode m (NDirectory sub)) =>
          let '(sub', res) := insert_components r name e sub in
          (put c (ENode (mkNode m (NDirectory sub'))) d, res)
      | _ => (put c entry d, invalid $"archive ancestor is not a directory")
      end
  end.

Definition DirectoryContents_insert_path (path : bytes) (e : Entry) (d : DirectoryContents)
    : DirectoryContents * io (option Entry) :=
  match normalize_path path with
  | Err err => (d, Err err)
  | Ok p =>
      match last p with
      | None => (d, invalid $"cannot insert an entry at the archive root")
      | Some name => insert_components (removelast p) name e d
      end
  end.

(** [set_inode_modification_time] on a node and its descendants. *)
Fixpoint set_time (timestamp : Z) (n : Node) : Node :=
  let '(mkNode m c) := n in
  mkNode (mkMetadata (mode m) (uid m) (gid m) timestamp (xattrs m))
    (match c with
     | NDirectory (mkDir es) =>
         NDirectory (mkDir (map (fun '(name, e) =>
           (name, match e with ENode n => ENode (set_time timestamp n) | EHardlink t => EHardlink t end)) es))
     | c => c
     end).

Definition Node_validate_hardlink_target (n : Node) : io unit :=
  match contents n with
  | NDirectory _ => invalid $"archive hardlinks cannot target directories"
  | _ => Ok tt
  end.
End Tree.
#[global] Arguments Entry S : clear implicits.
#[global] Arguments Node S : clear implicits.
#[global] Arguments NodeContents S : clear implicits.
#[global] Arguments DirectoryContents S : clear implicits.

(** ** Options and images *)

Record Options : Type := mkOptions {
  o_block_size : Z;
  compression_level : Z;
  o_modification_time : Z;
  deduplicate : bool;
}.

Definition Options_default : Options := mkOptions 131072 15 0 true.

Definition Options_new (block_size compression_level : Z) : io Options :=
  let? _ := validate_block_size block_size in
  if negb ((1 <=? compression_level)%Z && (compression_level <=? 22)%Z) then
    invalid $"Zstd compression level must be between 1 and 22"
  else Ok (mkOptions block_size compression_level (o_modification_time Options_default) (deduplicate Options_default)).

Record Squashfs (S : Type) : Type := mkSquashfs { root : Node S; options : Options }.
Arguments mkSquashfs {S}.
Arguments root {S}.
Arguments options {S}.

Section Squashfs.
Context {S : Type}.

Definition Squashfs_default : Squashfs S := mkSquashfs Node_implicit_directory Options_default.

Definition Squashfs_new (m : Metadata) (d : DirectoryContents S) : Squashfs S :=
  mkSquashfs (mkNode m (NDirectory d)) Options_default.

Definition Squashfs_contents (s : Squashfs S) : outcome (DirectoryContents S) :=
  unwrap (as_directory (contents (root s))).

Definition Squashfs_set_inode_modification_time (timestamp : Z) (s : Squashfs S) : Squashfs S :=
  mkSquashfs (set_time timestamp (root s)) (options s).
End Squashfs.

(** [into_dyn]: another representation [f] of the file sources. *)
Section Dyn.
Context {S T : Type} (f : S -> T).

Fixpoint Node_into_dyn (n : Node S) : Node T :=
  let '(mkNode m c) := n in
  mkNode m
    (match c with
     | NFile source => NFile (f source)
     | NDirectory (mkDir es) =>
         NDirectory (mkDir (map (fun '(name, e) =>
           (name, match e with ENode n => ENode (Node_into_dyn n) | EHardlink t => EHardlink t end)) es))
     | NSymlink t => NSymlink t
     | NBlockDevice d => NBlockDevice d
     | NCharacterDevice d => NCharacterDevice d
     | NFifo => NFifo
     | NSocket => NSocket
     end).

Definition Entry_into_dyn (e : Entry S) : Entry T :=
  match e with ENode n => ENode (Node_into_dyn n) | EHardlink t => EHardlink t end.

Definition Squashfs_into_dyn (s : Squashfs S) : Squashfs T := mkSquashfs (Node_into_dyn (root s)) (options s).
End Dyn.

(** ** Hardlinks *)

Section Hardlink.
Context {T : Type} (lookup : list bytes -> option (result T (list bytes))).

(** The loop of [resolve_hardlink]; [visited] is the set of targets seen before. *)
Fixpoint resolve_loop (fuel : nat) (visited : list (list bytes)) (target : list bytes) : option (io T) :=
  match fuel with
  | 0 => None
  | Datatypes.S n =>
      if bool_decide (target ∈ visited) then Some (invalid $"cyclic archive hardlink")
      else
        match lookup target with
        | Some (Ok node) => Some (Ok node)
        | Some (Err next) => resolve_loop n (target :: visited) next
        | None => Some (invalid $"archive hardlink target does not exist")
        end
  end.

(** [links] bounds the number of paths that are links; the message of a missing target also
    shows the path. *)
Definition resolve_hardlink (links : nat) (path : list bytes) : option (io T) := resolve_loop (S links) [] path.
End Hardlink.

(** ** Lemmas: names and paths *)

#[export] Instance byte_cmp_ord : OrdCmp byte_cmp.
Proof. exact (key_cmp_ord N.compare Byte.to_N byte_cmp _ (fun _ _ => eq_refl)). Qed.

Lemma byte_cmp_eq a c : byte_cmp a c = Eq <-> a = c.
Proof.
  unfold byte_cmp. rewrite N.compare_eq_iff. split; [|by intros ->]. intros H.
  apply (f_equal Byte.of_N) in H. rewrite !Byte.of_to_N in H. congruence.
Qed.

#[export] Instance bytes_cmp_ord : OrdCmp bytes_cmp.
Proof. exact (list_cmp_ord byte_cmp). Qed.

Lemma bytes_cmp_eq (a c : bytes) : bytes_cmp a c = Eq <-> a = c.
Proof. apply list_cmp_eq. exact byte_cmp_eq. Qed.

Lemma contains_spec c bs : contains c bs = true <-> c ∈ bs.
Proof.
  unfold contains. rewrite existsb_exists. split.
  - intros (x & Hx & E). apply bool_decide_eq_true in E as <-. by apply list_elem_of_In.
  - intros H. exists c. split; [by apply list_elem_of_In|by apply bool_decide_eq_true].
Qed.

Lemma name_ok_spec name : name_ok name = true <->
  name ≠ [] /\ length name <= 256 /\ name ≠ dot /\ name ≠ dotdot /\ (Byte.x00 ∉ name) /\ (slash ∉ name).
Proof.
  unfold name_ok. rewrite negb_true_iff, !orb_false_iff, !bool_decide_eq_false, Nat.ltb_ge.
  rewrite <- !contains_spec, !not_true_iff_false. tauto.
Qed.

Lemma validate_name_ok name : name_ok name = true -> validate_name name = Ok tt.
Proof. unfold validate_name. by intros ->. Qed.

Lemma split_slash_nonempty path : split_slash path ≠ [].
Proof. destruct path; simpl; [done|]. case_match; [done|]. by destruct (split_slash path). Qed.

Lemma split_slash_plain name : slash ∉ name -> split_slash name = [name].
Proof.
  induction name as [|c r IH]; simpl; [done|]. rewrite not_elem_of_cons. intros [Hc Hr].
  rewrite bool_decide_eq_false_2 by congruence. by rewrite IH.
Qed.

Lemma split_slash_app name rest : slash ∉ name -> split_slash (name ++ slash :: rest) = name :: split_slash rest.
Proof.
  induction name as [|c r IH]; simpl.
  - done.
  - rewrite not_elem_of_cons. intros [Hc Hr]. rewrite bool_decide_eq_false_2 by congruence. by rewrite IH.
Qed.

Lemma split_path_text names : names ≠ [] -> Forall (fun n => slash ∉ n) names ->
  split_slash (path_text names) = names.
Proof.
  intros Hne H. induction H as [|n names Hn Hns IH]; [done|]. simpl. destruct names as [|m names].
  - by apply split_slash_plain.
  - rewrite split_slash_app by done. f_equal. by apply IH.
Qed.

Lemma piece_normal name : name_ok name = true -> piece name = Some (Normal name).
Proof.
  intros (H1 & _ & H2 & H3 & _)%name_ok_spec. unfold piece.
  by rewrite !bool_decide_eq_false_2 by done.
Qed.

Lemma omap_normal names : Forall (fun n => name_ok n = true) names -> omap piece names = map Normal names.
Proof. induction 1 as [|n ns H _ IH]; csimpl; [done|]. by rewrite piece_normal, IH. Qed.

Lemma components_text names : Forall (fun n => name_ok n = true) names ->
  components (path_text names) = map Normal names.
Proof.
  intros H. unfold components. destruct names as [|n ns]; [done|].
  rewrite split_path_text; [|done|].
  2:{ eapply Forall_impl; [exact H|]. by intros x (_ & _ & _ & _ & _ & ?)%name_ok_spec. }
  pose proof (Forall_inv H) as (H1 & _ & H2 & _)%name_ok_spec.
  rewrite !bool_decide_eq_false_2 by done. rewrite omap_normal by done. done.
Qed.

Lemma normalize_normals names acc : Forall (fun n => name_ok n = true) names ->
  normalize_loop (map Normal names) acc = Ok (acc ++ names).
Proof.
  intros H. revert acc. induction H as [|n ns Hn _ IH]; intros acc; simpl; [by rewrite app_nil_r|].
  rewrite validate_name_ok by done. simpl. by rewrite IH, <- app_assoc.
Qed.

Lemma normalize_loop_valid cs acc p : Forall (fun n => name_ok n = true) acc ->
  normalize_loop cs acc = Ok p -> Forall (fun n => name_ok n = true) p.
Proof.
  revert acc. induction cs as [|[| | |name] cs IH]; intros acc Ha; simpl.
  - by intros [= <-].
  - by apply IH.
  - by apply IH.
  - apply IH. unfold pop. destruct (decide (acc = [])) as [->|Hne]; [done|].
    destruct (exists_last Hne) as (l & x & ->). rewrite removelast_last. by apply Forall_app in Ha as [? _].
  - unfold validate_name. destruct (name_ok name) eqn:E; simpl; [|done]. apply IH.
    apply Forall_app. by repeat constructor.
Qed.

Lemma normalize_valid path p : normalize_path path = Ok p -> Forall (fun n => name_ok n = true) p.
Proof. apply normalize_loop_valid. constructor. Qed.

Lemma normalize_text p : Forall (fun n => name_ok n = true) p -> normalize_path (path_text p) = Ok p.
Proof. intros H. unfold normalize_path. rewrite components_text by done. by apply normalize_normals. Qed.

(** [normalize_path] always gives a path of names that an archive may
    contain (so no [..], no slash and no NUL is left in it), and the text of such a path is its
    own normal form: normalising is idempotent and loses nothing of a clean path. *)
Theorem normalize_path_canonical :
  (forall path p, normalize_path path = Ok p -> Forall (fun n => name_ok n = true) p /\ normalize_path (path_text p) = Ok p) /\
  (forall p, Forall (fun n => name_ok n = true) p -> normalize_path (path_text p) = Ok p) /\
  (forall p q, Forall (fun n => name_ok n = true) p -> Forall (fun n => name_ok n = true) q ->
     path_text p = path_text q -> p = q).
Proof.
  split; [|split].
  - intros path p H%normalize_valid. split; [done|by apply normalize_text].
  - exact normalize_text.
  - intros p q Hp Hq E. apply normalize_text in Hp, Hq. rewrite E in Hp. congruence.
Qed.

(** ** Lemmas: directories *)

Section tree.
Context {S : Type}.
Implicit Types (d sub : DirectoryContents S) (e : Entry S) (name : bytes).

Lemma get_put name e d : DirectoryContents_get name (put name e d) = Some e.
Proof. apply (map_get_insert bytes_cmp bytes_cmp_eq). Qed.

Lemma get_put_ne name name' e d : name' ≠ name ->
  DirectoryContents_get name' (put name e d) = DirectoryContents_get name' d.
Proof. apply (map_get_insert_ne bytes_cmp bytes_cmp_eq). Qed.

(** Entries sorted by name, with names an archive may contain, at every level. *)
Inductive dir_wf : DirectoryContents S -> Prop :=
| dir_wf_intro es :
    BTreeMap_wf bytes_cmp es -> Forall (fun n => name_ok n = true) (map fst es) ->
    (forall name e sub, (name, e) ∈ es -> entry_directory e = Some sub -> dir_wf sub) ->
    dir_wf (mkDir es).

Definition entry_wf e : Prop := forall sub, entry_directory e = Some sub -> dir_wf sub.

Lemma get_elem name d e : DirectoryContents_get name d = Some e -> (name, e) ∈ entries d.
Proof.
  destruct d as [es]. unfold DirectoryContents_get. simpl. induction es as [|[x w] es IH]; simpl; [done|].
  destruct (is_eq (bytes_cmp name x)) eqn:E.
  - intros [= ->]. assert (name = x) as ->; [|left]. by apply (is_eq_true bytes_cmp bytes_cmp_eq).
  - intros H. right. by apply IH.
Qed.

Lemma dir_wf_get d name e : dir_wf d -> DirectoryContents_get name d = Some e -> entry_wf e.
Proof. intros [es _ _ H] Hg%get_elem sub Hs. exact (H name e sub Hg Hs). Qed.

Lemma dir_wf_put d name e : dir_wf d -> name_ok name = true -> entry_wf e -> dir_wf (put name e d).
Proof.
  intros [es Hs Hn Hsub] Hok He. constructor.
  - by apply (map_insert_wf bytes_cmp bytes_cmp_eq).
  - by apply map_insert_keys.
  - intros n x sub Hin Hx. apply (map_insert_elem bytes_cmp bytes_cmp_eq) in Hin; [|done].
    destruct Hin as [[-> ->]|[_ Hin]]; [by apply He|by eapply Hsub].
Qed.

Lemma put_get d name e : dir_wf d -> DirectoryContents_get name d = Some e -> put name e d = d.
Proof.
  intros [es Hs _ _]. unfold DirectoryContents_get, put. simpl. intros H.
  by rewrite (map_insert_get bytes_cmp bytes_cmp_eq).
Qed.

Lemma dir_wf_new : dir_wf DirectoryContents_new.
Proof. constructor; [constructor|constructor|]. intros ? ? ? []%elem_of_nil. Qed.

Lemma implicit_wf : entry_wf (ENode Node_implicit_directory).
Proof. intros sub [= <-]. apply dir_wf_new. Qed.

(** ** Lemmas: lookups along a path *)

Lemma get_components_cons name r d : r ≠ [] ->
  get_components (name :: r) d = (e ← DirectoryContents_get name d; d' ← entry_directory e; get_components r d').
Proof. by destruct r. Qed.

(** What a directory entry is replaced by when something is inserted below it. *)
Definition grown (old : option (Entry S)) (new : option (Entry S)) : Prop :=
  exists m sub, new = Some (ENode (mkNode m (NDirectory sub))) /\
    match old with
    | None => m = Metadata_new 0x1ed
    | Some (ENode (mkNode m0 (NDirectory _))) => m = m0
    | _ => False
    end.

(** A successful insertion at [p]. *)
Record inserted (p : list bytes) e d (d' : DirectoryContents S) : Prop := {
  ins_here : get_components p d' = Some e;
  ins_above : forall q, q ≠ [] -> q ≠ p -> q `prefix_of` p -> grown (get_components q d) (get_components q d');
  ins_else : forall q, ~ q `prefix_of` p -> ~ p `prefix_of` q -> get_components q d' = get_components q d;
}.

(** An ancestor of [p] that is no directory. *)
Definition blocked_at (p : list bytes) d : Prop :=
  exists q x, q `prefix_of` p /\ q ≠ p /\ get_components q d = Some x /\ entry_directory x = None.

Lemma grown_directory old new : grown old new -> exists sub, (new ≫= entry_directory) = Some sub.
Proof. intros (m & sub & -> & _). by exists sub. Qed.

(** Inserting below the entry [c], a directory or created as one. *)
Lemma inserted_cons c p e d m sub sub' : p ≠ [] ->
  (DirectoryContents_get c d = Some (ENode (mkNode m (NDirectory sub))) \/
   DirectoryContents_get c d = None /\ m = Metadata_new 0x1ed /\ sub = DirectoryContents_new) ->
  inserted p e sub sub' -> inserted (c :: p) e d (put c (ENode (mkNode m (NDirectory sub'))) d).
Proof.
  intros Hp Hc [Hh Ha He].
  assert (forall r, r ≠ [] -> get_components (c :: r) d = get_components r sub \/
            DirectoryContents_get c d = None /\ get_components (c :: r) d = None /\ get_components r sub = None) as Hsub.
  { intros r Hr. rewrite get_components_cons by done. destruct Hc as [->|(-> & _ & ->)]; [by left|right].
    split; [done|]. split; [done|]. destruct r as [|x [|y r]]; done. }
  assert (forall r, r ≠ [] -> get_components (c :: r) (put c (ENode (mkNode m (NDirectory sub'))) d) = get_components r sub') as Hsub'.
  { intros r Hr. by rewrite get_components_cons, get_put by done. }
  split.
  - by rewrite Hsub'.
  - intros [|x q] Hq Hne Hpre; [done|]. apply prefix_cons_inv_1 in Hpre as Hx. subst x.
    apply prefix_cons_inv_2 in Hpre. destruct q as [|y q].
    + simpl. rewrite get_put. exists m, sub'. split; [done|]. destruct Hc as [->|(-> & -> & _)]; done.
    + rewrite Hsub' by done. assert (y :: q ≠ p) by congruence.
      destruct (Hsub (y :: q)) as [->|(_ & -> & Hnone)]; [done|by apply Ha|].
      rewrite <- Hnone. by apply Ha.
  - intros [|x q] Hnp Hnq; [by destruct Hnp; apply prefix_nil|].
    destruct (decide (x = c)) as [->|Hx].
    + destruct (decide (q = [])) as [->|Hq]; [by destruct Hnp; apply prefix_cons, prefix_nil|].
      rewrite Hsub' by done. rewrite He.
      * destruct (Hsub q Hq) as [->|(_ & -> & ->)]; done.
      * intros H. by apply Hnp, prefix_cons.
      * intros H. by apply Hnq, prefix_cons.
    + destruct (decide (q = [])) as [->|Hq]; [simpl; by rewrite get_put_ne|].
      by rewrite !get_components_cons, get_put_ne by done.
Qed.

Lemma inserted_last name e d : inserted [name] e d (put name e d).
Proof.
  split.
  - simpl. apply get_put.
  - intros q Hq Hne Hpre. destruct q as [|x q]; [done|].
    pose proof (prefix_cons_inv_1 _ _ _ _ Hpre) as ->. apply prefix_cons_inv_2, prefix_nil_inv in Hpre. congruence.
  - intros [|x q] Hnp Hnq; [by destruct Hnp; apply prefix_nil|].
    destruct (decide (x = name)) as [->|Hx].
    + destruct Hnq. apply prefix_cons, prefix_nil.
    + destruct (decide (q = [])) as [->|Hq]; [simpl; by rewrite get_put_ne|].
      by rewrite !get_components_cons, get_put_ne by done.
Qed.

Lemma inserted_not_blocked p e d d' : inserted p e d d' -> ~ blocked_at p d.
Proof.
  intros [_ Ha _] (q & x & Hpre & Hne & Hx & Hd). assert (q ≠ []) by (intros ->; done).
  destruct (Ha q) as (m & sub & _ & Hold); [done..|]. rewrite Hx in Hold.
  destruct x as [[? []]|]; done.
Qed.

Definition insert_result (p : list bytes) e d (x : DirectoryContents S * io (option (Entry S))) : Prop :=
  match x with
  | (d', Ok old) => dir_wf d' /\ inserted p e d d' /\ old = get_components p d
  | (d', Err err) => d' = d /\ err = InvalidData $"archive ancestor is not a directory" /\ blocked_at p d
  end.

Lemma insert_below c p e d m sub x : p ≠ [] -> dir_wf d -> name_ok c = true ->
  (DirectoryContents_get c d = Some (ENode (mkNode m (NDirectory sub))) \/
   DirectoryContents_get c d = None /\ m = Metadata_new 0x1ed /\ sub = DirectoryContents_new) ->
  insert_result p e sub x ->
  insert_result (c :: p) e d (let '(sub', r) := x in (put c (ENode (mkNode m (NDirectory sub'))) d, r)).
Proof.
  intros Hp Hwf Hn Hc. destruct x as [sub' [old|err]]; unfold insert_result.
  - intros (Hwf' & Hins & ->). split; [apply dir_wf_put; [done..|]; by intros s' [= <-]|].
    split; [by eapply inserted_cons|]. rewrite get_components_cons by done.
    destruct Hc as [->|(-> & _ & ->)]; [done|]. destruct p as [|y [|z p]]; done.
  - intros (-> & -> & (q & y & Hpre & Hne & Hy & Hd)).
    assert (q ≠ []) as Hq by (intros ->; done).
    destruct Hc as [Hc|(_ & _ & ->)]; [|by destruct q as [|? [|? ?]]].
    split; [by apply put_get|]. split; [done|]. exists (c :: q), y.
    split; [by apply prefix_cons|]. split; [congruence|]. split; [|done].
    rewrite get_components_cons, Hc by done. done.
Qed.

Lemma insert_components_spec parents name e d : dir_wf d ->
  Forall (fun n => name_ok n = true) (parents ++ [name]) -> entry_wf e ->
  insert_result (parents ++ [name]) e d (insert_components parents name e d).
Proof.
  revert d. induction parents as [|c parents IH]; intros d Hwf Hok He; simpl in *.
  - apply Forall_cons in Hok as [Hn _]. unfold DirectoryContents_insert. rewrite validate_name_ok by done.
    split; [by apply dir_wf_put|]. split; [apply inserted_last|done].
  - apply Forall_cons in Hok as [Hn Hok].
    assert (parents ++ [name] ≠ []) as Hne by (by destruct parents).
    destruct (DirectoryContents_get c d) as [en|] eqn:Hg; simpl.
    + assert (forall sub, entry_directory en = Some sub -> dir_wf sub) as Hsub by exact (dir_wf_get d c en Hwf Hg).
      destruct en as [[m [| sub| | | | |]]|t];
        try (split; [by apply put_get|split; [done|]]; eexists [c], _;
             split; [apply prefix_cons, prefix_nil|split; [congruence|]]; simpl; by rewrite Hg).
      apply (insert_below c _ e d m sub); [done..|by left|]. apply IH; [by apply Hsub|done..].
    + apply (insert_below c _ e d (Metadata_new 0x1ed) DirectoryContents_new); [done..|by right|].
      apply IH; [apply dir_wf_new|done..].
Qed.

Lemma removelast_last_app (p : list bytes) name : last p = Some name -> removelast p ++ [name] = p.
Proof.
  intros H. destruct (decide (p = [])) as [->|Hne]; [done|].
  destruct (exists_last Hne) as (l & x & ->). rewrite last_snoc in H. injection H as ->.
  by rewrite removelast_last.
Qed.

(** Inserting at a path is atomic and local.  It fails exactly when the path is
    not a valid one, is the root, or goes through an entry that is no directory, and then the
    tree is as before.  Otherwise the tree stays well formed, the entry is found at the path,
    the entry it replaced is returned, the missing ancestors are directories of mode 0755, the
    ancestors that were there keep their attributes, and nothing else changes. *)
Theorem insert_path_exact path e d : dir_wf d -> entry_wf e ->
  match normalize_path path, DirectoryContents_insert_path path e d with
  | Ok p, (d', Ok old) =>
      p ≠ [] /\ ~ blocked_at p d /\ dir_wf d' /\ old = DirectoryContents_get_path path d /\
      DirectoryContents_get_path path d' = Some e /\ inserted p e d d'
  | Ok p, (d', Err _) => d' = d /\ (p = [] \/ blocked_at p d)
  | Err err, x => x = (d, Err err)
  end.
Proof.
  intros Hwf He. unfold DirectoryContents_insert_path, DirectoryContents_get_path.
  destruct (normalize_path path) as [p|err] eqn:Ep; [|done]. apply normalize_valid in Ep.
  destruct (last p) as [name|] eqn:El.
  - apply removelast_last_app in El. rewrite <- El in Ep.
    pose proof (insert_components_spec (removelast p) name e d Hwf Ep He) as H. rewrite El in H.
    destruct (insert_components _ _ _ _) as [d' [old|err]]; simpl in H |- *.
    + destruct H as (Hwf' & Hins & ->). split; [intros ->; by destruct (removelast [])|].
      split; [by eapply inserted_not_blocked|]. split; [done|]. split; [done|].
      split; [by apply (ins_here _ _ _ _ Hins)|done].
    + destruct H as (-> & _ & Hb). split; [done|by right].
  - apply last_None in El as ->. split; [done|by left].
Qed.
End tree.

(** ** Hardlinks *)

Section hardlink.
Context {T : Type} (lookup : list bytes -> option (result T (list bytes))).

Definition link (p q : list bytes) : Prop := lookup p = Some (Err q).

(** The links of the visited paths stay among them and the target. *)
Definition chasing (links visited : list (list bytes)) (path target : list bytes) : Prop :=
  NoDup visited /\ visited ⊆ links /\ rtc link path target /\ (path ∈ visited \/ path = target) /\
  forall v, v ∈ visited -> exists q, link v q /\ (q ∈ visited \/ q = target).

(** From a set of paths that links do not leave, nothing else is reached. *)
Lemma reach_closed (P : list bytes -> Prop) p q : (forall a c, P a -> link a c -> P c) ->
  P p -> rtc link p q -> P q.
Proof. intros Hc Hp H. induction H as [|a c d Hac _ IH]; [done|]. apply IH. by eapply Hc. Qed.

Lemma resolve_loop_spec links fuel visited path target :
  (forall p q, link p q -> p ∈ links) -> chasing links visited path target ->
  length links < fuel + length visited ->
  exists r, resolve_loop lookup fuel visited target = Some r /\
    match r with
    | Ok t => exists p, rtc link path p /\ lookup p = Some (Ok t)
    | Err _ => forall p t, rtc link path p -> lookup p ≠ Some (Ok t)
    end.
Proof.
  intros Hl. revert visited target. induction fuel as [|n IH]; intros visited target H Hf.
  { destruct H as (Hnd & Hsub & _). apply (NoDup_submseteq visited links) in Hsub; [|done].
    apply submseteq_length in Hsub. lia. }
  destruct H as (Hnd & Hsub & Hr & Hp & Hv). simpl. case_bool_decide as Hin.
  - eexists. split; [done|]. intros p t Hpt Ht.
    assert (p ∈ visited) as Hpv.
    { apply (reach_closed (fun x => x ∈ visited) path p); [|by destruct Hp as [| ->]|done].
      intros a c Ha Hac. destruct (Hv a Ha) as (q & Hq & Hqv). unfold link in *.
      assert (q = c) as <- by congruence. by destruct Hqv as [| ->]. }
    destruct (Hv p Hpv) as (q & Hq & _). unfold link in Hq. congruence.
  - destruct (lookup target) as [[t|q]|] eqn:E.
    + eexists. split; [done|]. by exists target.
    + apply IH; [|simpl; lia]. split; [by constructor|]. split; [|split; [|split]].
      * intros x [->|Hx]%elem_of_cons; [by eapply Hl|by apply Hsub].
      * eapply rtc_r; [exact Hr|done].
      * left. destruct Hp as [Hp| ->]; [by right|by left].
      * intros v [->|Hx]%elem_of_cons; [exists q; by auto|].
        destruct (Hv v Hx) as (w & Hw & [Hwv|Hwt]); exists w; (split; [done|]); left; [by right|by rewrite Hwt; left].
    + eexists. split; [done|]. intros p t Hpt Ht.
      assert (p ∈ visited \/ p = target) as [Hpv| ->].
      { apply (reach_closed (fun x => x ∈ visited \/ x = target) path p); [|done..].
        intros a c Ha Hac. unfold link in *. destruct Ha as [Ha| ->]; [|congruence].
        destruct (Hv a Ha) as (w & Hw & ?). unfold link in Hw. by assert (w = c) as <- by congruence. }
      * destruct (Hv p Hpv) as (w & Hw & _). unfold link in Hw. congruence.
      * congruence.
Qed.

(** C36: following hardlinks ends: with a fuel above the number of paths that are
    links it always answers.  It gives a node exactly when the chain of links from the path ends
    at that node, and otherwise (a cycle, or a missing target) an error. *)
Theorem resolve_hardlink_exact links path : (forall p q, link p q -> p ∈ links) ->
  exists r, resolve_hardlink lookup (length links) path = Some r /\
    (forall t, r = Ok t <-> exists p, rtc link path p /\ lookup p = Some (Ok t)).
Proof.
  intros Hl. destruct (resolve_loop_spec links (S (length links)) [] path path Hl) as (r & Hr & Hs); [|simpl; lia|].
  { repeat split; [constructor|set_solver|constructor|by right|]. intros v []%elem_of_nil. }
  exists r. split; [done|]. intros t. destruct r as [t'|e].
  - destruct Hs as (p & Hp & Ht). split; [intros [= ->]; by exists p|]. intros (q & Hq & Hqt). f_equal.
    assert (lookup q = Some (Ok t')); [|congruence].
    clear -Hp Ht Hq Hqt. revert Hq. induction Hp as [p|a c d Hac Hcd IH]; intros Hq.
    + inversion Hq as [|? y ? Hy]; subst; [done|]. unfold link in Hy. congruence.
    + inversion Hq as [|? y ? Hy Hyq]; subst; [unfold link in Hac; congruence|].
      apply IH; [done|]. unfold link in *. by assert (y = c) as -> by congruence.
  - split; [done|]. intros (p & Hp & Ht). by apply (Hs p t) in Hp.
Qed.
End hardlink.

(** ** Timestamps and file sources *)

Section maps.
Context {S T : Type}.

Definition set_time_entry (t : Z) (e : Entry S) : Entry S :=
  match e with ENode n => ENode (set_time t n) | EHardlink x => EHardlink x end.

Definition map_entries (f : Entry S -> Entry T) (d : DirectoryContents S) : DirectoryContents T :=
  mkDir (map (fun x => (x.1, f x.2)) (entries d)).

(** A map over a tree that keeps its shape. *)
Definition shape_map (f : Entry S -> Entry T) : Prop :=
  forall e, entry_directory (f e) = map_entries f <$> entry_directory e.

Lemma get_map_entries f name (d : DirectoryContents S) :
  DirectoryContents_get name (map_entries f d) = f <$> DirectoryContents_get name d.
Proof.
  destruct d as [es]. unfold DirectoryContents_get. simpl. induction es as [|[x w] es IH]; simpl; [done|].
  by destruct (is_eq (bytes_cmp name x)).
Qed.

Lemma shape_map_get f p (d : DirectoryContents S) : shape_map f ->
  get_components p (map_entries f d) = f <$> get_components p d.
Proof.
  intros Hf. revert d. induction p as [|c p IH]; intros d; [done|].
  destruct (decide (p = [])) as [->|Hp]; [apply get_map_entries|].
  rewrite !get_components_cons, get_map_entries by done.
  destruct (DirectoryContents_get c d) as [e|]; simpl; [|done]. rewrite Hf.
  destruct (entry_directory e) as [sub|]; simpl; [apply IH|done].
Qed.
End maps.

Lemma set_time_shape {S} t : shape_map (set_time_entry (S := S) t).
Proof.
  intros [[m [s|[es]|x|dev|dev| |]]|x]; try done. unfold entry_directory, map_entries. simpl.
  do 2 f_equal. apply map_ext. by intros [n [|]].
Qed.

Lemma into_dyn_shape {S T} (f : S -> T) : shape_map (Entry_into_dyn f).
Proof.
  intros [[m [s|[es]|x|dev|dev| |]]|x]; try done. unfold entry_directory, map_entries. simpl.
  do 2 f_equal. apply map_ext. by intros [n [|]].
Qed.

Definition node_time {S} (e : Entry S) : option Z := modification_time ∘ metadata <$> as_node e.

(** [set_inode_modification_time] sets the timestamp of the root and of every
    inode in the tree, and [into_dyn] and it change neither the paths of a tree nor, below the
    root, anything but the timestamp or the file sources of the inode at a path. *)
Theorem set_time_everywhere {S T} (f : S -> T) t p m (d : DirectoryContents S) :
  let s := Squashfs_new m d in
  match Squashfs_contents (Squashfs_set_inode_modification_time t s), Squashfs_contents (Squashfs_into_dyn f s) with
  | Done d1, Done d2 =>
      modification_time (metadata (root (Squashfs_set_inode_modification_time t s))) = t /\
      get_components p d1 = set_time_entry t <$> get_components p d /\
      (forall e, get_components p d1 = Some e -> node_time e = Some t \/ exists x, e = EHardlink x) /\
      get_components p d2 = Entry_into_dyn f <$> get_components p d
  | _, _ => False
  end.
Proof.
  destruct d as [es]. simpl. split; [done|].
  assert (forall f' : Entry S -> Entry S,
    (map (fun '(name, e) => (name, match e with ENode n => ENode (set_time t n) | EHardlink x => EHardlink x end)) es)
    = map (fun x => (x.1, set_time_entry t x.2)) es) as E1 by (intros; apply map_ext; by intros [n [|]]).
  rewrite (E1 id).
  assert (map (fun '(name, e) => (name, match e with ENode n => ENode (Node_into_dyn f n) | EHardlink x => EHardlink x end)) es
    = map (fun x => (x.1, Entry_into_dyn f x.2)) es) as -> by (apply map_ext; by intros [n [|]]).
  change (mkDir (map (fun x => (x.1, set_time_entry t x.2)) es)) with (map_entries (set_time_entry t) (mkDir es)).
  change (mkDir (map (fun x => (x.1, Entry_into_dyn f x.2)) es)) with (map_entries (Entry_into_dyn f) (mkDir es)).
  rewrite !shape_map_get by (apply set_time_shape || apply into_dyn_shape).
  split; [done|]. split; [|done]. intros e (x & _ & ->)%fmap_Some. destruct x as [[m' c]|x]; [by left|right; by exists x].
Qed.

Module SquashTreeExamples.

Definition file (n : nat) : Entry nat := Entry_file (Metadata_new 0x180) n.

Example paths_stop_at_the_root :
  normalize_path (bstr "/a/../../escape//./x") = Ok [bstr "escape"; bstr "x"] /\
  is_ok (normalize_path (Byte.x61 :: Byte.x00 :: [])) = false /\
  normalize_path (bstr "..") = Ok [].
Proof. by vm_compute. Qed.

Definition one : DirectoryContents nat := put (bstr "a") (file 1) DirectoryContents_new.

Lemma one_wf : dir_wf one.
Proof. apply dir_wf_put; [apply dir_wf_new|reflexivity|done]. Qed.

Lemma insert_path_exact_witness :
  DirectoryContents_get_path (bstr "b/c") (DirectoryContents_insert_path (bstr "b/c") (file 2) one).1 = Some (file 2) /\
  DirectoryContents_insert_path (bstr "a/c") (file 2) one = (one, invalid $"archive ancestor is not a directory").
Proof.
  pose proof (insert_path_exact (bstr "b/c") (file 2) one one_wf) as H. split.
  - destruct (DirectoryContents_insert_path (bstr "b/c") (file 2) one) as [d r] eqn:E.
    assert (is_ok r = true) as Hr.
    { change r with ((d, r).2). rewrite <- E. vm_compute. reflexivity. }
    destruct r as [old|]; [|discriminate Hr].
    change (normalize_path (bstr "b/c")) with (@Ok _ io_error [bstr "b"; bstr "c"]) in H.
    destruct H as (_ & _ & _ & _ & H & _); [intros sub E'; discriminate E'|exact H].
  - vm_compute. reflexivity.
Defined.

(** Two links in a row, and two that form a cycle. *)
Definition links (p : list bytes) : option (result nat (list bytes)) :=
  if bool_decide (p = [bstr "x"]) then Some (Err [bstr "y"])
  else if bool_decide (p = [bstr "y"]) then Some (Ok 7)
  else if bool_decide (p = [bstr "p"]) then Some (Err [bstr "q"])
  else if bool_decide (p = [bstr "q"]) then Some (Err [bstr "p"])
  else None.

Lemma resolve_hardlink_exact_witness :
  resolve_hardlink links 3 [bstr "x"] = Some (Ok 7) /\
  resolve_hardlink links 3 [bstr "p"] = Some (invalid $"cyclic archive hardlink").
Proof.
  destruct (resolve_hardlink_exact links [[bstr "x"]; [bstr "p"]; [bstr "q"]] [bstr "x"]) as (r & Hr & Ht).
  { intros p q. unfold link, links. repeat case_bool_decide; intros ?; simplify_eq;
      repeat (first [apply list_elem_of_here|apply list_elem_of_further]). }
  split; [|vm_compute; reflexivity].
  rewrite <- (proj2 (Ht 7)); [exact Hr|]. exists [bstr "y"]. split; [|reflexivity].
  apply rtc_once. reflexivity.
Defined.

End SquashTreeExamples.
