(* ===== verification/SquashData.v ===== *)
(** * File contents in an image

    [shared-libs/crates/start-core/src/util/squashfs/write.rs], [DataWriter], and
    [read.rs], [SquashfsFileSource], [SquashfsFileReader] and the part of [Image::inode]
    that turns a file's inode into its blocks: how the bytes of files are cut into
    blocks and shared fragments, and how they are read back.

    The output is a [Sink] (SquashBlocks.v); its [TrackingIO] starts at zero, so the position
    is the number of bytes the sink has got.  A file source is a parameter, the class
    [FileSource]: what [size], [copy] and [reader] give may differ, since a file can change
    between the calls.  The archive that an image is read from is its bytes, with a script
    of the answers of its asynchronous reads.  [blake3] is a parameter. *)
From S2P Require Import Prelude RustStr SquashFormat SquashBlocks SquashTree.

Local Open Scope rust_scope.
Local Open Scope poll_scope.

(** ** Asynchronous output *)

(** [AsyncWriteExt::write_all], awaited; one answer of the sink per round. *)
Fixpoint write_out_loop (fuel : nat) (buf : bytes) : M Sink unit := fun s =>
  match fuel with
  | 0 => (s, Panics)
  | S n =>
      if is_empty buf then (s, Ready tt)
      else
        match sink_poll_write buf s with
        | (s', Ready 0) => (s', Fail WriteZero)
        | (s', Ready k) => write_out_loop n (drop k buf) s'
        | (s', Fail e) => (s', Fail e)
        | (s', Pending) => write_out_loop n buf s'
        | (s', Panics) => (s', Panics)
        end
  end.

Definition write_out (buf : bytes) : M Sink unit := fun s => write_out_loop (2 + length (wscript s)) buf s.

(** [TrackingIO::position]. *)
Definition position_of (s : Sink) : Z := Z.of_nat (length (sunk s)).

(** ** File sources *)

(** A stream of bytes that ends, or fails, after them. *)
Record Stream : Type := mkStream { coming : bytes; failing : option io_error }.

Class FileSource (S : Type) : Type := {
  fs_size : S -> io Z;
  fs_copy : S -> io bytes;
  fs_reader : S -> io Stream;
}.

(** [read_exact] of [n] bytes. *)
Definition stream_read_exact (n : nat) (r : Stream) : io (bytes * Stream) :=
  if n <=? length (coming r) then Ok (take n (coming r), mkStream (drop n (coming r)) (failing r))
  else Err (default UnexpectedEof (failing r)).

(** [read] into a buffer of one byte: how many bytes it got. *)
Definition stream_read_one (r : Stream) : io nat :=
  match coming r, failing r with
  | _ :: _, _ => Ok 1
  | [], Some e => Err e
  | [], None => Ok 0
  end.

Class Blake3 : Type := {
  hash : Type;
  hash_eq_dec :: EqDecision hash;
  blake3 : bytes -> hash;
}.

(** ** Writing *)

Record FileLayout : Type := mkLayout {
  fl_block : Z;
  fl_size : Z;
  fl_sparse : Z;
  fl_blocks : list Z;
  fl_fragment : Z;
  fl_offset : Z;
}.

Record DataWriter : Type := mkData {
  dw_block_size : nat;
  dw_level : Z;
  fragments : list Fragment;
  tail : bytes;
}.

Definition DataWriter_new (o : Options) : DataWriter :=
  mkData (Z.to_nat (o_block_size o)) (compression_level o) [] [].

Definition u32_try_from (n : nat) (message : str) : io Z :=
  if in_range u32 (Z.of_nat n) then Ok (Z.of_nat n) else invalid message.

Section Write.
Context `{ZS : Zstd} `{B : Blake3} {S : Type} `{FileSource S}.

Definition DataWriter_block (level : Z) (bs : bytes) : M Sink Z :=
  let> block := lift_io (encode_block bs level) in
  let> size := lift_io (u32_try_from (length (eb_bytes block)) $"SquashFS data block exceeds format limit") in
  write_out (eb_bytes block) ;>
  m_ret (Z.lor size (if eb_compressed block then 0 else UNCOMPRESSED_DATA))%Z.

(** The calls that change the data writer as well as the output. *)
Definition D A : Type := M (DataWriter * Sink) A.

Definition on_sink {A} (m : M Sink A) : D A := fun '(d, s) => let '(s', r) := m s in ((d, s'), r).

Definition set_tail (t : bytes) : D unit := fun '(d, s) =>
  ((mkData (dw_block_size d) (dw_level d) (fragments d) t, s), Ready tt).

Definition push_fragment (f : Fragment) : D unit := fun '(d, s) =>
  ((mkData (dw_block_size d) (dw_level d) (fragments d ++ [f]) (tail d), s), Ready tt).

Definition flush_fragment : D unit := fun '(d, s) =>
  if is_empty (tail d) then ((d, s), Ready tt)
  else
    (let> size := on_sink (DataWriter_block (dw_level d) (tail d)) in
     push_fragment (mkFragment (position_of s) size 0) ;>
     set_tail []) (d, s).

(** The blocks of a file's loop: [n] of [block_size] bytes each.  Their sizes, the sparse bytes,
    the bytes hashed and the rest of the reader. *)
Fixpoint file_blocks_loop (n : nat) (reader : Stream) (blocks : list Z) (sparse : Z) (hashed : bytes)
    : D (list Z * Z * bytes * Stream) := fun '(d, s) =>
  match n with
  | 0 => ((d, s), Ready (blocks, sparse, hashed, reader))
  | Datatypes.S n' =>
      (let> (buffer, reader') := lift_io (stream_read_exact (dw_block_size d) reader) in
       if forallb (fun x => bool_decide (x = Byte.x00)) buffer then
         file_blocks_loop n' reader' (blocks ++ [0%Z]) (sparse + Z.of_nat (dw_block_size d))%Z (hashed ++ buffer)
       else
         let> size := on_sink (DataWriter_block (dw_level d) buffer) in
         file_blocks_loop n' reader' (blocks ++ [size]) sparse (hashed ++ buffer)) (d, s)
  end.

(** A file's last bytes are added to the fragment under construction: its index and their offset. *)
Definition push_tail (bs : bytes) : D (Z * Z) := fun '(d, s) =>
  (let> fragment := lift_io (u32_try_from (length (fragments d)) $"too many SquashFS fragments") in
   let offset := (Z.of_nat (length (tail d)) `mod` 2 ^ 32)%Z in
   set_tail (tail d ++ bs) ;>
   m_ret (fragment, offset)) (d, s).

(** The rest of a file that does not fill a block. *)
Definition file_tail (remaining : nat) (reader : Stream) : D (Z * Z * bytes * Stream) := fun '(d, s) =>
  if remaining =? 0 then ((d, s), Ready (INVALID_INDEX, 0%Z, [], reader))
  else
    (let> (bs, reader') := lift_io (stream_read_exact remaining reader) in
     (if dw_block_size d <? length (tail d) + length bs then flush_fragment else m_ret tt) ;>
     let> (fragment, offset) := push_tail bs in
     m_ret (fragment, offset, bs, reader')) (d, s).

Definition DataWriter_file (source : S) (size : Z) (expected : option hash) : D FileLayout := fun '(d, s) =>
  (let> reader := lift_io (fs_reader source) in
   let block_size := Z.of_nat (dw_block_size d) in
   let> (blocks, sparse, hashed, reader1) := file_blocks_loop (Z.to_nat (size / block_size)) reader [] 0%Z [] in
   let> (fragment, offset, bs, reader2) := file_tail (Z.to_nat (size `mod` block_size)) reader1 in
   let> more := lift_io (stream_read_one reader2) in
   if negb (more =? 0) || match expected with
                          | Some h => bool_decide (blake3 (hashed ++ bs) ≠ h)
                          | None => false
                          end
   then m_fail (InvalidData $"file source changed while creating SquashFS image")
   else m_ret (mkLayout (position_of s) size sparse blocks fragment offset)) (d, s).

Definition fingerprint (source : S) (size : Z) : io hash :=
  let? content := fs_copy source in
  if negb (Z.of_nat (length content) =? size)%Z then invalid $"file source size changed while hashing"
  else Ok (blake3 content).

(** The files of [Squashfs::serialize], in the order of their nodes; [duplicates] is the map from
    hash and size to a layout. *)
Definition find_duplicate (key : hash * Z) (duplicates : list (hash * Z * FileLayout)) : option FileLayout :=
  snd <$> find (fun x => bool_decide (x.1 = key)) duplicates.

Fixpoint write_files (deduplicate : bool) (sources : list S) (duplicates : list (hash * Z * FileLayout))
    : D (list FileLayout) :=
  match sources with
  | [] => m_ret []
  | source :: rest =>
      let> size := lift_io (fs_size source) in
      let> h := (if deduplicate then let> h := lift_io (fingerprint source size) in m_ret (Some h)
                 else m_ret None) in
      let key := (fun h => (h, size)) <$> h in
      match key ≫= (fun k => find_duplicate k duplicates) with
      | Some layout =>
          let> layouts := write_files deduplicate rest duplicates in m_ret (layout :: layouts)
      | None =>
          let> layout := DataWriter_file source size h in
          let duplicates' := match key with Some k => (k, layout) :: duplicates | None => duplicates end in
          let> layouts := write_files deduplicate rest duplicates' in m_ret (layout :: layouts)
      end
  end.

(** The data part of an image: all files and the last fragment. *)
Definition write_data (deduplicate : bool) (sources : list S) : D (list FileLayout) :=
  let> layouts := write_files deduplicate sources [] in
  flush_fragment ;>
  m_ret layouts.

(** The first part of [Squashfs::serialize]: room for the superblock, then the data. *)
Definition image_data (o : Options) (sources : list S) : D (list FileLayout) :=
  on_sink (write_out (replicate (SIZE Superblock) Byte.x00)) ;>
  write_data (deduplicate o) sources.
End Write.

(** ** Reading *)

Record DataBlock : Type := mkBlock {
  b_position : Z;
  b_encoded : Z;
  b_offset : nat;
  b_size : nat;
  b_fragment : bool;
}.

(** [Image::range]. *)
Definition range (start size end_ : Z) : io unit :=
  if (start <? Z.of_nat (SIZE Superblock))%Z || (end_ <? start)%Z || (end_ - start <? size)%Z then
    invalid $"SquashFS reference lies outside its table"
  else Ok tt.

Definition data_bounds (sb : Superblock) (position encoded : Z) : io unit :=
  let size := Z.ldiff encoded UNCOMPRESSED_DATA in
  if negb (Z.ldiff encoded (Z.lor UNCOMPRESSED_DATA (UNCOMPRESSED_DATA - 1)) =? 0)%Z
     || (block_size sb <? size)%Z then
    invalid $"invalid data block size"
  else if negb (encoded =? 0)%Z && (size =? 0)%Z then invalid $"empty data block"
  else range position size (inode_table sb).

(** The loop over a file's block sizes in [Image::inode]: [size] is the file's size and [index] the
    number of blocks before. *)
Fixpoint inode_blocks (sb : Superblock) (size : Z) (index position : Z) (sizes : list Z) : io (list DataBlock * Z) :=
  match sizes with
  | [] => Ok ([], position)
  | encoded :: rest =>
      let? _ := data_bounds sb position encoded in
      let length_ := Z.min (size - index * block_size sb) (block_size sb) in
      if negb (Z.land encoded UNCOMPRESSED_DATA =? 0)%Z
         && negb (Z.ldiff encoded UNCOMPRESSED_DATA =? length_)%Z then
        invalid $"incorrect uncompressed file block size"
      else
        let? (blocks, end_) := inode_blocks sb size (index + 1) (position + Z.ldiff encoded UNCOMPRESSED_DATA) rest in
        Ok (mkBlock position encoded 0 (Z.to_nat length_) false :: blocks, end_)
  end.

Record SquashfsFileSource : Type := mkFile {
  f_blocks : list DataBlock;
  f_size : nat;
  f_block_size : nat;
}.

(** The number of block sizes that follow a file's inode. *)
Definition block_count (sb : Superblock) (file : FileInode) : Z :=
  let tail := (fi_size file `mod` block_size sb)%Z in
  (fi_size file / block_size sb
   + (if negb (tail =? 0) && (fi_fragment file =? INVALID_INDEX) then 1 else 0))%Z.

(** The tail of a file in its fragment. *)
Definition inode_tail (sb : Superblock) (fragments : list Fragment) (file : FileInode) : io (list DataBlock) :=
  let tail := (fi_size file `mod` block_size sb)%Z in
  if negb (fi_fragment file =? INVALID_INDEX)%Z then
    if (tail =? 0)%Z then invalid $"fragment without file tail"
    else match vec_get fragments (Z.to_N (fi_fragment file)) with
         | None => invalid $"invalid file fragment index"
         | Some f =>
             if (block_size sb <? fi_offset file + tail)%Z then invalid $"file tail exceeds fragment block"
             else Ok [mkBlock (fr_block f) (fr_size f) (Z.to_nat (fi_offset file)) (Z.to_nat tail) true]
         end
  else if negb (fi_offset file =? 0)%Z then invalid $"fragment offset without fragment"
  else Ok [].

(** The file of an inode: [sizes] are the [block_count] sizes that follow it. *)
Definition inode_file (sb : Superblock) (fragments : list Fragment) (file : FileInode) (sizes : list Z)
    : io SquashfsFileSource :=
  if (2 ^ 63 - 1 <? fi_size file)%Z || (fi_size file <? fi_sparse file)%Z then invalid $"invalid file size"
  else
    let? (blocks, _) := inode_blocks sb (fi_size file) 0 (fi_block file) sizes in
    let? last := inode_tail sb fragments file in
    Ok (mkFile (blocks ++ last) (Z.to_nat (fi_size file)) (Z.to_nat (block_size sb))).

(** ** The file reader *)

(** The archive an image is read from: its bytes and the answers of its reads. *)
Record Archive : Type := mkArchive { image : bytes; ascript : list response }.

Record SquashfsFileReader : Type := mkFileReader {
  fr_file : SquashfsFileSource;
  position : nat;
  end_position : nat;
  buffer : bytes;
  buffer_position : nat;
  pending : option DataBlock;
  failed : bool;
}.

Definition FileSource_slice (f : SquashfsFileSource) (pos size : nat) : SquashfsFileReader :=
  let pos := pos `min` f_size f in
  mkFileReader f pos (pos + size `min` (f_size f - pos)) [] 0 None false.

Definition FileSource_reader (f : SquashfsFileSource) : SquashfsFileReader := FileSource_slice f 0 (f_size f).

(** [fetch] and [read_exact] of [n] bytes. *)
Definition fetch_exact (img : bytes) (pos n : Z) : io bytes :=
  if (pos + n <=? Z.of_nat (length img))%Z then Ok (take (Z.to_nat n) (drop (Z.to_nat pos) img))
  else Err UnexpectedEof.

Section Read.
Context `{ZS : Zstd}.

(** The future of [poll_read], when the archive answers. *)
Definition load_block (img : bytes) (limit : nat) (b : DataBlock) : io bytes :=
  if (b_encoded b =? 0)%Z then Ok (replicate (b_size b) Byte.x00)
  else
    let? bs := fetch_exact img (b_position b) (Z.ldiff (b_encoded b) UNCOMPRESSED_DATA) in
    let? decoded := decode_block bs (Z.land (b_encoded b) UNCOMPRESSED_DATA =? 0)%Z limit in
    if (length decoded <? b_offset b + b_size b)
       || (negb (b_fragment b) && negb (length decoded =? b_size b)) then
      invalid $"invalid SquashFS data block length"
    else Ok decoded.

Definition F A : Type := M (SquashfsFileReader * Archive) A.

(** A poll of the future: not ready, an error of the archive, or its result. *)
Definition poll_pending (b : DataBlock) : F bytes := fun '(r, a) =>
  let limit := f_block_size (fr_file r) in
  match ascript a with
  | NotReady :: rest => ((r, mkArchive (image a) rest), Pending)
  | Failed e :: rest => ((r, mkArchive (image a) rest), Fail e)
  | Moved _ :: rest => ((r, mkArchive (image a) rest), match load_block (image a) limit b with Ok x => Ready x | Err e => Fail e end)
  | [] => ((r, a), match load_block (image a) limit b with Ok x => Ready x | Err e => Fail e end)
  end.

(** The block of the current position; indexing past the end panics. *)
Definition current_block : F DataBlock := fun '(r, a) =>
  match f_blocks (fr_file r) !! (position r `div` f_block_size (fr_file r)) with
  | Some b => ((r, a), Ready b)
  | None => ((r, a), Panics)
  end.

Definition set_reader (f : SquashfsFileReader -> SquashfsFileReader) : F unit := fun '(r, a) => ((f r, a), Ready tt).

Definition set_buffer (buf : bytes) (pos : nat) (p : option DataBlock) (fl : bool) (r : SquashfsFileReader) : SquashfsFileReader :=
  mkFileReader (fr_file r) (position r) (end_position r) buf pos p fl.

(** The block of the future, which is made when there is none. *)
Definition pending_block : F DataBlock := fun '(r, a) =>
  match pending r with Some b => ((r, a), Ready b) | None => current_block (r, a) end.

(** A poll of the future and what follows its result. *)
Definition finish_pending (b : DataBlock) : F unit := fun '(r, a) =>
  match poll_pending b (r, a) with
  | ((r, a), Ready buf) =>
      (let> b := current_block in
       set_reader (fun r => set_buffer buf (b_offset b + position r `mod` f_block_size (fr_file r)) None (failed r) r))
        (r, a)
  | ((r, a), Fail e) => ((set_buffer (buffer r) (buffer_position r) None true r, a), Fail e)
  | ((r, a), Pending) => ((r, a), Pending)
  | ((r, a), Panics) => ((r, a), Panics)
  end.

(** The part of [poll_read] that fills an exhausted buffer. *)
Definition fill_buffer : F unit := fun '(r, a) =>
  if negb (buffer_position r =? length (buffer r)) then ((r, a), Ready tt)
  else
    (set_reader (fun r => set_buffer [] (buffer_position r) (pending r) (failed r) r) ;>
     let> b := pending_block in
     set_reader (fun r => set_buffer (buffer r) (buffer_position r) (Some b) (failed r) r) ;>
     finish_pending b) (r, a).

(** The part that copies to an output with room for [len] bytes. *)
Definition copy_block (len : nat) (b : DataBlock) : F bytes := fun '(r, a) =>
  let limit := b_offset b + b_size b in
  if limit <? buffer_position r then ((r, a), Panics)
  else
    let count := (len `min` (end_position r - position r)) `min` (limit - buffer_position r) in
    if length (buffer r) <? buffer_position r + count then ((r, a), Panics)
    else
      let out := take count (drop (buffer_position r) (buffer r)) in
      let bp := buffer_position r + count in
      let r1 := mkFileReader (fr_file r) (position r + count) (end_position r) (buffer r) bp (pending r) (failed r) in
      ((if bp =? limit then set_buffer [] 0 (pending r1) (failed r1) r1 else r1, a), Ready out).

Definition copy_out (len : nat) : F bytes := let> b := current_block in copy_block len b.

Definition file_poll_read (len : nat) : F bytes := fun '(r, a) =>
  if (len =? 0) || (position r =? end_position r) then ((r, a), Ready [])
  else if failed r then ((r, a), Fail (InvalidData $"SquashFS file reader failed"))
  else (fill_buffer ;> copy_out len) (r, a).
End Read.

(** ** Lemmas: chunks *)

(** Pieces of [bs] bytes, of which the last may be shorter. *)
Inductive chunked (bs : nat) : list bytes -> Prop :=
| chunked_nil : chunked bs []
| chunked_last c : 0 < length c <= bs -> chunked bs [c]
| chunked_cons c cs : length c = bs -> chunked bs cs -> chunked bs (c :: cs).

Lemma chunked_lookup bs cs pos : 0 < bs -> chunked bs cs -> pos < length (concat cs) ->
  exists c, cs !! (pos `div` bs) = Some c /\ pos `mod` bs < length c <= bs /\
    drop pos (concat cs) = drop (pos `mod` bs) c ++ concat (drop (S (pos `div` bs)) cs).
Proof.
  intros Hbs H. revert pos. induction H as [|c Hc|c cs Hc Hcs IH]; intros pos Hp; simpl in Hp; [lia|..].
  - rewrite app_nil_r in Hp. rewrite Nat.div_small, Nat.mod_small by lia. exists c. simpl.
    rewrite app_nil_r. split; [done|]. split; [lia|]. by rewrite app_nil_r.
  - destruct (decide (pos < bs)) as [Hlt|Hge].
    + rewrite Nat.div_small, Nat.mod_small by lia. exists c. split; [done|]. split; [lia|]. simpl.
      rewrite drop_app_le by lia. by rewrite skipn_O.
    + rewrite length_app in Hp. destruct (IH (pos - bs)) as (c' & Hl & Hm & Hd); [lia|].
      assert (pos = pos - bs + 1 * bs) as Ep by lia.
      assert (pos `div` bs = S ((pos - bs) `div` bs)) as Ediv.
      { rewrite Ep at 1. rewrite Nat.div_add by lia. lia. }
      assert (pos `mod` bs = (pos - bs) `mod` bs) as Emod.
      { rewrite Ep at 1. by rewrite Nat.Div0.mod_add. }
      rewrite Ediv, Emod. exists c'. split; [done|]. split; [done|]. simpl.
      rewrite drop_app_ge by lia. by rewrite Hc.
Qed.

(** ** The reader gives the bytes of a file *)

Section read.
Context `{ZS : Zstd}.

(** The block's part of what its stored bytes decode to is [c]. *)
Definition block_holds (img : bytes) (limit : nat) (b : DataBlock) (c : bytes) : Prop :=
  exists decoded, load_block img limit b = Ok decoded /\ b_offset b + b_size b <= length decoded /\
    length c = b_size b /\ take (b_size b) (drop (b_offset b) decoded) = c.

Definition file_holds (img : bytes) (f : SquashfsFileSource) (content : bytes) : Prop :=
  0 < f_block_size f /\ exists cs, chunked (f_block_size f) cs /\ concat cs = content /\
    f_size f = length content /\ Forall2 (block_holds img (f_block_size f)) (f_blocks f) cs.

(** The block at a position, what it decodes to and where the position is in it. *)
Lemma file_holds_at img f content pos : file_holds img f content -> pos < length content ->
  exists b decoded, f_blocks f !! (pos `div` f_block_size f) = Some b /\
    load_block img (f_block_size f) b = Ok decoded /\ b_offset b + b_size b <= length decoded /\
    pos `mod` f_block_size f < b_size b <= f_block_size f /\
    pos + (b_size b - pos `mod` f_block_size f) <= length content /\
    forall n, n <= b_size b - pos `mod` f_block_size f ->
      take n (drop (b_offset b + pos `mod` f_block_size f) decoded) = take n (drop pos content).
Proof.
  intros (Hbs & cs & Hch & <- & _ & HF) Hp.
  destruct (chunked_lookup _ cs pos Hbs Hch Hp) as (c & Hl & Hm & Hd).
  destruct (Forall2_lookup_r _ _ _ _ _ HF Hl) as (b & Hb & decoded & Hload & Hlen & Hc & Ht).
  exists b, decoded. split; [done|]. split; [done|]. split; [done|]. split; [lia|]. split.
  { apply (f_equal length) in Hd. rewrite length_app, !length_drop in Hd. lia. }
  intros n Hn.
  rewrite Hd, take_app_le by (rewrite length_drop; lia).
  rewrite <- Ht, skipn_firstn_comm, firstn_firstn, Nat.min_l by lia. by rewrite drop_drop.
Qed.

(** The state of a reader of the file that holds [content]. *)
Definition reader_inv (img content : bytes) (r : SquashfsFileReader) : Prop :=
  file_holds img (fr_file r) content /\ position r <= end_position r <= length content /\
  failed r = false /\
  (buffer r = [] /\ buffer_position r = 0 /\
     (pending r = None \/
      pending r = f_blocks (fr_file r) !! (position r `div` f_block_size (fr_file r)) /\ position r < end_position r) \/
   pending r = None /\ position r < length content /\ exists b,
     f_blocks (fr_file r) !! (position r `div` f_block_size (fr_file r)) = Some b /\
     load_block img (f_block_size (fr_file r)) b = Ok (buffer r) /\
     buffer_position r = b_offset b + position r `mod` f_block_size (fr_file r)).

Definition same_file (r r' : SquashfsFileReader) : Prop :=
  fr_file r' = fr_file r /\ end_position r' = end_position r.

(** A filled buffer at a position before the end. *)
Definition filled (img content : bytes) (r : SquashfsFileReader) : Prop :=
  reader_inv img content r /\ position r < end_position r /\ buffer r ≠ [].

(** What filling the buffer leads to. *)
Definition fill_end (img content : bytes) (r : SquashfsFileReader) (sc : list response)
    (st : SquashfsFileReader * Archive) (x : res unit) : Prop :=
  let '(r', a') := st in
  same_file r r' /\ position r' = position r /\ image a' = img /\
  match x with
  | Ready _ => filled img content r' /\ ascript a' `suffix_of` sc
  | Pending => reader_inv img content r' /\ sc = NotReady :: ascript a'
  | Fail e => failed r' = true /\ sc = Failed e :: ascript a'
  | Panics => False
  end.

Lemma finish_pending_spec img content r a b decoded : image a = img -> reader_inv img content r ->
  position r < end_position r -> buffer r = [] -> buffer_position r = 0 -> pending r = Some b ->
  f_blocks (fr_file r) !! (position r `div` f_block_size (fr_file r)) = Some b ->
  load_block img (f_block_size (fr_file r)) b = Ok decoded -> decoded ≠ [] ->
  post (finish_pending b) (r, a) (fill_end img content r (ascript a)).
Proof.
  intros Ha Hinv Hlt Hbuf Hbp Hp Hb Hload Hne. pose proof Hinv as (Hf & Hpe & Hfl & Hst).
  assert (forall sc, sc `suffix_of` ascript a ->
    post (let> b := current_block in
       set_reader (fun r => set_buffer decoded (b_offset b + position r `mod` f_block_size (fr_file r)) None (failed r) r))
      (r, mkArchive img sc) (fill_end img content r (ascript a))) as Hdone.
  { intros sc Hsc. apply post_bind. unfold post at 1, current_block. rewrite Hb.
    unfold and_then, post, set_reader, fill_end. cbn [fst snd set_buffer].
    split; [done|]. split; [done|]. split; [done|]. split; [|done]. split; [|done].
    split; [done|]. split; [done|]. split; [done|]. right. split; [done|]. split; [simpl; lia|]. by exists b. }
  unfold post, finish_pending, poll_pending. rewrite Ha, Hload.
  destruct (ascript a) as [|[n|e|] rest] eqn:Es.
  - destruct a as [im sc]. simpl in Ha, Es. subst. by apply Hdone.
  - apply Hdone. apply suffix_cons_r. done.
  - split; [done|]. split; [done|]. done.
  - split; [done|]. split; [done|]. split; [done|]. by split.
Qed.

Lemma fill_buffer_spec img content r a : image a = img -> reader_inv img content r -> position r < end_position r ->
  post fill_buffer (r, a) (fill_end img content r (ascript a)).
Proof.
  intros Ha Hinv Hlt. pose proof Hinv as (Hf & Hpe & Hfl & Hst).
  destruct (file_holds_at img (fr_file r) content (position r) Hf) as (b & decoded & Hb & Hload & Hlen & Hm & _ & _); [lia|].
  assert (decoded ≠ []) as Hne by (intros ->; simpl in Hlen; lia).
  unfold post, fill_buffer.
  destruct Hst as [(Hbuf & Hbp & Hpend)|(Hpend & Hpc & b' & Hb' & Hload' & Hbp)].
  - rewrite Hbuf, Hbp. cbn [length Nat.eqb negb].
    fold_post (r, a).
    apply post_bind. unfold post at 1, set_reader. rewrite Hbp. cbn [fst snd and_then].
    apply post_bind.
    assert (pending_block (set_buffer [] 0 (pending r) (failed r) r, a)
            = (set_buffer [] 0 (pending r) (failed r) r, a, Ready b)) as Hcur.
    { unfold pending_block, current_block. cbn [pending set_buffer fr_file position].
      destruct Hpend as [->|[-> _]]; by rewrite Hb. }
    unfold post at 1. rewrite Hcur. cbn [fst snd and_then]. apply post_bind.
    unfold post at 1, set_reader. cbn [fst snd and_then set_buffer].
    eapply post_mono; [apply (finish_pending_spec img content _ a b decoded); try done|].
    + split; [done|]. split; [done|]. split; [done|]. left. split; [done|]. split; [done|]. right. by rewrite <- Hb.
    + intros [r' a'] x. done.
  - assert (b' = b) as -> by congruence. assert (buffer r = decoded) as Hd by congruence.
    destruct (Nat.eqb_spec (buffer_position r) (length (buffer r))) as [E|E].
    { rewrite Hbp, Hd in E. lia. }
    split; [done|]. split; [done|]. split; [done|]. split; [|done]. split; [done|]. by rewrite Hd.
Qed.

Lemma copy_out_spec img content r a len : image a = img -> filled img content r -> 0 < len ->
  post (copy_out len) (r, a) (fun '(r', a') x => a' = a /\ same_file r r' /\ exists out, x = Ready out /\
    reader_inv img content r' /\ out ≠ [] /\ length out <= len /\ position r' = position r + length out /\
    out = take (length out) (drop (position r) content)).
Proof.
  intros Ha ((Hf & Hpe & Hfl & Hst) & Hlt & Hne) Hlen.
  destruct Hst as [(Hbuf & _)|(Hpend & Hpc & b' & Hb' & Hload' & Hbp)]; [done|].
  destruct (file_holds_at img (fr_file r) content (position r) Hf Hpc)
    as (b & decoded & Hb & Hload & Hdl & Hm & Hrest & Htake).
  assert (b' = b) as -> by congruence. assert (buffer r = decoded) as <- by congruence. clear Hb' Hload'.
  apply post_bind. unfold post at 1, current_block. rewrite Hb. unfold and_then, post, copy_block, fst, snd.
  destruct (Nat.ltb_spec (b_offset b + b_size b) (buffer_position r)); [lia|].
  set (m := position r `mod` f_block_size (fr_file r)) in *.
  set (count := (len `min` (end_position r - position r)) `min` (b_offset b + b_size b - buffer_position r)).
  assert (0 < count <= b_size b - m) by lia.
  destruct (Nat.ltb_spec (length (buffer r)) (buffer_position r + count)); [lia|].
  split; [done|]. split; [by destruct (_ =? _)|]. eexists. split; [reflexivity|].
  assert (length (take count (drop (buffer_position r) (buffer r))) = count) as Hoc
    by (rewrite length_take, length_drop; lia).
  rewrite Hoc. split; [|split; [|split; [lia|split; [by destruct (_ =? _)|]]]].
  - split; [by destruct (_ =? _)|]. split; [destruct (_ =? _); simpl; lia|].
    split; [by destruct (_ =? _)|].
    destruct (Nat.eqb_spec (buffer_position r + count) (b_offset b + b_size b)) as [E|E].
    + left. split; [done|]. split; [done|]. by left.
    + right. split; [done|]. simpl.
      assert (position r = f_block_size (fr_file r) * (position r `div` f_block_size (fr_file r)) + m) as Hdm
        by (apply Nat.div_mod_eq).
      assert ((position r + count) `div` f_block_size (fr_file r) = position r `div` f_block_size (fr_file r)) as Hdiv.
      { symmetry. apply (Nat.div_unique _ _ _ (m + count)); lia. }
      assert ((position r + count) `mod` f_block_size (fr_file r) = m + count) as Hmod.
      { symmetry. apply (Nat.mod_unique _ _ (position r `div` f_block_size (fr_file r))); lia. }
      split; [lia|]. exists b. rewrite Hdiv, Hmod. split; [done|]. split; [done|lia].
  - intros E. rewrite E in Hoc. simpl in Hoc. lia.
  - rewrite Hbp. apply Htake. lia.
Qed.

(** One poll of a reader whose state is valid. *)
Lemma file_poll_read_spec img content r a len : image a = img -> reader_inv img content r ->
  post (file_poll_read len) (r, a) (fun '(r', a') x =>
    image a' = img /\ same_file r r' /\
    match x with
    | Ready out => reader_inv img content r' /\ length out <= len /\
        position r' = position r + length out /\ out = take (length out) (drop (position r) content) /\
        (out = [] -> len = 0 \/ position r = end_position r) /\ ascript a' `suffix_of` ascript a
    | Pending => reader_inv img content r' /\ position r' = position r /\ ascript a = NotReady :: ascript a'
    | Fail e => failed r' = true /\ position r' = position r /\ ascript a = Failed e :: ascript a'
    | Panics => False
    end).
Proof.
  intros Ha Hinv. pose proof Hinv as (Hf & Hpe & Hfl & _). unfold post, file_poll_read.
  destruct ((len =? 0) || (position r =? end_position r)) eqn:Ez.
  { simpl. split; [done|]. split; [done|]. split; [done|]. split; [lia|]. split; [lia|]. split; [done|].
    split; [|done]. intros _. apply orb_true_iff in Ez as [E|E]; apply Nat.eqb_eq in E; auto. }
  apply orb_false_iff in Ez as [Hz Hp]. apply Nat.eqb_neq in Hz, Hp. rewrite Hfl.
  fold_post (r, a).
  apply post_bind. eapply post_mono; [apply (fill_buffer_spec img content r a); [done..|lia]|].
  intros [r1 a1] [[]|e| |] ([Hs1 Hs2] & Hpos & Hi & H); simpl; try done.
  - destruct H as [Hfill Hsc]. eapply post_mono; [apply (copy_out_spec img content r1 a1 len); [done..|lia]|].
    intros [r2 a2] x (-> & [Hs3 Hs4] & out & -> & Hinv2 & Hne & Hl & Hp2 & Ho). simpl.
    split; [done|]. split; [split; congruence|]. rewrite Hpos in *.
    split; [done|]. split; [done|]. split; [done|]. split; [done|]. split; [done|done].
  - destruct H as [Hff Hsc]. done.
  - destruct H as [Hinv1 Hsc]. done.
Qed.
End read.
