(* ===== verification/SquashFiles.v ===== *)
(** * Files come back from an image

    The theorems on [DataWriter] of [write.rs] and [SquashfsFileReader] of [read.rs], both
    defined in SquashData.v: what the writer lays out for a list of file sources is what
    a reader of the inodes made of these layouts gets, for every part of every file,
    shared fragments, sparse blocks and deduplicated files included; and the writer fails
    only for a reason outside of it. *)
From S2P Require Import Prelude RustStr SquashFormat SquashBlocks SquashTree SquashData.

Local Open Scope rust_scope.
Local Open Scope poll_scope.

(** The inode that [InodeTables::inode] makes of a layout. *)
Definition layout_inode (l : FileLayout) (links xattr : Z) : FileInode :=
  mkFileInode (fl_block l) (fl_size l) (fl_sparse l) links (fl_fragment l) (fl_offset l) xattr.

(** ** Sequences of reads *)

Section reads.
Context `{ZS : Zstd}.

(** Reads into buffers of the given sizes, until one reports the end or fails; when the archive
    is not ready the next read goes on.  The bytes, whether the end was reported and
    whether a read panicked. *)
Fixpoint file_reads (lens : list nat) (st : SquashfsFileReader * Archive) : bytes * bool * bool :=
  match lens with
  | [] => ([], false, false)
  | len :: rest =>
      match file_poll_read len st with
      | (_, Ready []) => ([], true, false)
      | (st', Ready out) => let '(got, e, p) := file_reads rest st' in (out ++ got, e, p)
      | (_, Fail _) => ([], false, false)
      | (st', Pending) => file_reads rest st'
      | (_, Panics) => ([], false, true)
      end
  end.

(** What a reader has not given yet. *)
Definition to_read (content : bytes) (r : SquashfsFileReader) : bytes :=
  take (end_position r - position r) (drop (position r) content).

Lemma to_read_step content r r' out : same_file r r' -> end_position r <= length content ->
  position r' <= end_position r' ->
  position r' = position r + length out -> out = take (length out) (drop (position r) content) ->
  to_read content r = out ++ to_read content r'.
Proof.
  intros [_ He] Hl Hp' Hp Ho. unfold to_read. rewrite He in *. rewrite Hp, <- drop_drop.
  rewrite <- (take_drop (length out) (drop (position r) content)) at 1. rewrite <- Ho.
  rewrite take_app_ge by lia. do 2 f_equal. lia.
Qed.

Definition no_failure (sc : list response) : Prop := forall e, Failed e ∉ sc.

Lemma no_failure_suffix sc sc' : sc' `suffix_of` sc -> no_failure sc -> no_failure sc'.
Proof. intros [used ->] H e He. apply (H e). apply elem_of_app. by right. Qed.

Lemma file_reads_spec img content lens r a : image a = img -> reader_inv img content r ->
  Forall (fun n => 0 < n) lens ->
  got_prefix (to_read content r) (file_reads lens (r, a)) /\
  (no_failure (ascript a) -> length (to_read content r) + length (ascript a) < length lens ->
   (file_reads lens (r, a)).1.2 = true).
Proof.
  intros Ha Hinv Hpos. revert r a Ha Hinv.
  induction Hpos as [|len lens Hlen _ IH]; intros r a Ha Hinv; cbn [file_reads length].
  { split; [split; [done|by eexists]|lia]. }
  pose proof Hinv as (_ & [_ Hpe] & _).
  destruct (file_poll_read len (r, a)) as [[r' a'] x] eqn:E.
  apply (post_run _ _ _ _ _ (file_poll_read_spec img content r a len Ha Hinv)) in E.
  destruct E as (Ha' & Hsame & E).
  destruct x as [out|e| |]; [|..|done].
  - destruct E as (Hinv' & _ & Hp & Ho & Hend & Hsc). pose proof Hinv' as (_ & [Hpe' _] & _).
    pose proof (to_read_step content r r' out Hsame Hpe Hpe' Hp Ho) as Hr.
    destruct out as [|x0 out].
    { destruct (Hend eq_refl) as [|He]; [lia|]. unfold to_read. rewrite He, Nat.sub_diag.
      split; [|done]. split; [done|]. by exists []. }
    destruct (IH r' a' Ha' Hinv') as [Hg He]. rewrite Hr. split; [by apply (got_prefix_app (x0 :: out)), Hg|].
    destruct (file_reads lens (r', a')) as [[got e] p]. rewrite length_app. simpl in He |- *. intros Hnf Hlt.
    apply suffix_length in Hsc as Hl. apply He; [by eapply no_failure_suffix|lia].
  - split; [split; [done|by eexists]|]. intros Hnf. destruct E as (_ & _ & E). rewrite E in Hnf.
    exfalso. apply (Hnf e). apply list_elem_of_here.
  - destruct E as (Hinv' & Hp & Hsc). rewrite Hsc. cbn [length]. destruct Hsame as [_ He].
    assert (to_read content r' = to_read content r) as <- by (unfold to_read; by rewrite Hp, He).
    destruct (IH r' a' Ha' Hinv') as [Hg Hd]. split; [done|]. intros Hnf Hlt. apply Hd; [|lia].
    eapply no_failure_suffix; [|done]. by apply suffix_cons_r.
Qed.

Lemma slice_inv img f content pos size : file_holds img f content ->
  reader_inv img content (FileSource_slice f pos size) /\
  to_read content (FileSource_slice f pos size) = take size (drop pos content).
Proof.
  intros Hf. assert (f_size f = length content) as Hs by (destruct Hf as (_ & cs & _ & _ & Hs & _); done).
  unfold reader_inv, to_read, FileSource_slice. cbn [fr_file position end_position failed buffer buffer_position pending].
  rewrite Hs. split.
  { split; [done|]. split; [lia|]. split; [done|]. left. split; [done|]. split; [done|]. by left. }
  destruct (Nat.leb_spec (length content) pos) as [Hle|Hlt].
  - rewrite !drop_ge by lia. by rewrite !take_nil.
  - rewrite (Nat.min_l pos) by lia. destruct (Nat.leb_spec size (length content - pos)).
    + f_equal. lia.
    + rewrite !take_ge; [done|rewrite length_drop; lia..].
Qed.

(** Every read of a part of a file gets a prefix of the part, and all of it after enough reads
    unless the archive fails. *)
Definition reads_back (img : bytes) (f : SquashfsFileSource) (content : bytes) : Prop :=
  forall pos size script lens, Forall (fun n => 0 < n) lens ->
    let part := take size (drop pos content) in
    let x := file_reads lens (FileSource_slice f pos size, mkArchive img script) in
    got_prefix part x /\
    (no_failure script -> length part + length script < length lens -> x = (part, true, false)).

Lemma file_holds_reads_back img f content : file_holds img f content -> reads_back img f content.
Proof.
  intros Hf pos size script lens Hpos part x.
  destruct (slice_inv img f content pos size Hf) as [Hinv Hr].
  destruct (file_reads_spec img content lens _ (mkArchive img script) eq_refl Hinv Hpos) as [Hg He].
  rewrite Hr in Hg, He. fold part in Hg, He. fold x in Hg, He. split; [done|]. intros Hnf Hl.
  specialize (He Hnf Hl). destruct x as [[got e] p]. destruct Hg as (-> & rest & Hp & Hrest).
  cbn in He. subst e. by rewrite Hp, Hrest, app_nil_r.
Qed.
End reads.

(** ** What the output of the data writer holds *)

(** [later a b]: [b] is [a] with more after it, and maybe another superblock. *)
Definition later (a b : bytes) : Prop :=
  SIZE Superblock <= length a /\
  exists head rest, length head = SIZE Superblock /\ b = head ++ drop (SIZE Superblock) a ++ rest.

Lemma later_app a rest : SIZE Superblock <= length a -> later a (a ++ rest).
Proof.
  intros H. split; [done|]. exists (take (SIZE Superblock) a), rest. split; [rewrite length_take; lia|].
  by rewrite app_assoc, take_drop.
Qed.

Lemma later_at a b pos n : later a b -> SIZE Superblock <= pos -> pos + n <= length a ->
  take n (drop pos b) = take n (drop pos a) /\ pos + n <= length b.
Proof.
  intros (Ha & head & rest & Hh & ->) Hp Hn. rewrite !length_app, length_drop, Hh. split; [|lia].
  rewrite drop_app_ge by lia. rewrite drop_app_le by (rewrite length_drop; lia).
  rewrite drop_drop, take_app_le by (rewrite length_drop; lia). do 2 f_equal. lia.
Qed.

(** The sizes of data blocks: a length below [2 ^ 24] and the bit for stored as it is. *)
Lemma encoded_size n (compressed : bool) : (0 <= n < 2 ^ 24)%Z ->
  let e := Z.lor n (if compressed then 0 else UNCOMPRESSED_DATA) in
  Z.ldiff e UNCOMPRESSED_DATA = n /\ Z.land e UNCOMPRESSED_DATA = (if compressed then 0 else UNCOMPRESSED_DATA)%Z /\
  Z.ldiff e (Z.lor UNCOMPRESSED_DATA (UNCOMPRESSED_DATA - 1)) = 0%Z.
Proof.
  intros Hn e. change UNCOMPRESSED_DATA with (2 ^ 24)%Z in *.
  change (2 ^ 24 - 1)%Z with (Z.ones 24).
  assert (forall i, (24 <= i)%Z -> Z.testbit n i = false) as Hhigh.
  { intros i Hi. rewrite <- (Z.mod_small n (2 ^ 24)) by lia. apply Z.mod_pow2_bits_high. lia. }
  assert (forall i, (0 <= i)%Z -> Z.testbit (if compressed then 0%Z else (2 ^ 24)%Z) i = negb compressed && (24 =? i)%Z) as Hc.
  { intros i Hi. destruct compressed; [apply Z.testbit_0_l|]. by rewrite Z.pow2_bits_eqb. }
  unfold e. split; [|split]; apply Z.bits_inj'; intros i Hi;
    rewrite ?Z.ldiff_spec, ?Z.land_spec, ?Z.lor_spec, ?Hc, ?Z.pow2_bits_eqb, ?Z.testbit_0_l by lia;
    destruct (Z.eqb_spec 24 i) as [<-|Hne]; rewrite ?(Hhigh 24%Z), ?andb_true_r, ?andb_false_r, ?orb_false_r by lia;
    simpl; try done.
  destruct (Z.leb_spec 24 i).
  - by rewrite Hhigh by lia.
  - rewrite Z.testbit_ones_nonneg by lia. destruct (Z.ltb_spec i 24); [|lia]. by rewrite andb_false_r.
Qed.

Section stored.
Context `{ZS : Zstd} `{!ZstdOk ZS}.
Variable lv : Z.

(** The block at [pos] with the encoded size [enc] is [c]. *)
Definition stored (img : bytes) (pos : nat) (enc : Z) (c : bytes) : Prop :=
  SIZE Superblock <= pos /\ c ≠ [] /\ exists e, encode_block c lv = Ok e /\
    enc = Z.lor (Z.of_nat (length (eb_bytes e))) (if eb_compressed e then 0 else UNCOMPRESSED_DATA) /\
    pos + length (eb_bytes e) <= length img /\ take (length (eb_bytes e)) (drop pos img) = eb_bytes e.

Lemma stored_later img img' pos enc c : later img img' -> stored img pos enc c -> stored img' pos enc c.
Proof.
  intros Hl (Hp & Hc & e & He & Henc & Hlen & Ht). split; [done|]. split; [done|]. exists e. split; [done|]. split; [done|].
  destruct (later_at img img' pos (length (eb_bytes e)) Hl Hp Hlen) as [-> ?]. done.
Qed.

(** What a reader of the block checks. *)
Record readable (img : bytes) (pos : nat) (enc : Z) (c : bytes) : Prop := {
  rd_length : exists n : nat, Z.ldiff enc UNCOMPRESSED_DATA = Z.of_nat n /\ 0 < n <= length c /\ pos + n <= length img;
  rd_high : Z.ldiff enc (Z.lor UNCOMPRESSED_DATA (UNCOMPRESSED_DATA - 1)) = 0%Z;
  rd_nonzero : enc ≠ 0%Z;
  rd_flag : Z.land enc UNCOMPRESSED_DATA ≠ 0%Z -> Z.ldiff enc UNCOMPRESSED_DATA = Z.of_nat (length c);
  rd_load : forall limit off size frag, length c <= limit -> off + size <= length c ->
    frag = true \/ size = length c -> load_block img limit (mkBlock (Z.of_nat pos) enc off size frag) = Ok c;
}.

Lemma stored_readable img pos enc c : (Z.of_nat (length c) < 2 ^ 24)%Z -> stored img pos enc c -> readable img pos enc c.
Proof.
  intros Hc (Hp & Hne & e & He & Henc & Hlen & Ht).
  pose proof (encode_block_length c lv e He) as Hel. pose proof (encode_block_nonempty c lv e Hne He) as Hen.
  assert (0 < length (eb_bytes e)) by (destruct (eb_bytes e); [done|simpl; lia]).
  destruct (encoded_size (Z.of_nat (length (eb_bytes e))) (eb_compressed e)) as (E1 & E2 & E3); [lia|].
  rewrite <- Henc in E1, E2, E3. assert (enc ≠ 0%Z) as Hnz by (intros ->; change (Z.ldiff 0 UNCOMPRESSED_DATA) with 0%Z in E1; lia).
  split; [|done|done|..].
  - exists (length (eb_bytes e)). split; [done|lia].
  - rewrite E1, E2. destruct (eb_compressed e) eqn:Ec; [done|]. intros _. f_equal.
    unfold encode_block in He. destruct (compress c lv); [|done]. injection He as <-. by case_match.
  - intros limit off size frag Hl Hos Hf. unfold load_block. cbn [b_encoded b_position b_size b_offset b_fragment].
    destruct (Z.eqb_spec enc 0); [done|]. rewrite E1, E2. unfold fetch_exact.
    destruct (Z.leb_spec (Z.of_nat pos + Z.of_nat (length (eb_bytes e))) (Z.of_nat (length img))); [|lia].
    rewrite !Nat2Z.id, Ht. cbn [result_bind].
    replace ((if eb_compressed e then 0 else UNCOMPRESSED_DATA) =? 0)%Z with (eb_compressed e) by by destruct (eb_compressed e).
    rewrite (decode_encode_block c lv e limit Hl He). cbn [result_bind].
    destruct (Nat.ltb_spec (length c) (off + size)); [lia|].
    destruct frag; [done|]. destruct Hf as [|Hf]; [done|]. by rewrite Hf, Nat.eqb_refl.
Qed.

(** The blocks of a file from [pos] on, up to the position [stop]. *)
Inductive blocks_stored (bs : nat) (img : bytes) : nat -> list Z -> list bytes -> nat -> Prop :=
| blocks_nil pos : blocks_stored bs img pos [] [] pos
| blocks_zero pos sizes cs stop :
    blocks_stored bs img pos sizes cs stop ->
    blocks_stored bs img pos (0%Z :: sizes) (replicate bs Byte.x00 :: cs) stop
| blocks_block pos enc c n sizes cs stop :
    length c = bs -> stored img pos enc c -> Z.ldiff enc UNCOMPRESSED_DATA = Z.of_nat n ->
    blocks_stored bs img (pos + n) sizes cs stop ->
    blocks_stored bs img pos (enc :: sizes) (c :: cs) stop.

Lemma blocks_stored_later bs img img' pos sizes cs stop : later img img' ->
  blocks_stored bs img pos sizes cs stop -> blocks_stored bs img' pos sizes cs stop.
Proof. intros Hl. induction 1; econstructor; eauto using stored_later. Qed.

Lemma blocks_stored_length bs img pos sizes cs stop : blocks_stored bs img pos sizes cs stop ->
  length sizes = length cs /\ Forall (fun c => length c = bs) cs /\ pos <= stop.
Proof.
  induction 1 as [|? ? ? ? ? IH|? ? ? n ? ? ? ? ? ? ? IH]; simpl; [auto|..]; destruct IH as (-> & H' & ?);
    (split; [done|]; split; [constructor; [|done]|lia]); [by rewrite length_replicate|done].
Qed.

(** ** Fragments *)

(** The contents of fragments can grow at their ends, and there can be more of them. *)
Definition fragments_grow (l l' : list bytes) : Prop :=
  forall i c, l !! i = Some c -> exists c', l' !! i = Some (c ++ c').

#[global] Instance fragments_grow_preorder : PreOrder fragments_grow.
Proof.
  split.
  - intros l i c H. exists []. by rewrite app_nil_r.
  - intros a b c H1 H2 i x Hx. destruct (H1 i x Hx) as [y Hy]. destruct (H2 i _ Hy) as [z Hz].
    exists (y ++ z). by rewrite app_assoc.
Qed.

Lemma fragments_grow_tail l t more : fragments_grow (l ++ [t]) (l ++ [t ++ more]).
Proof.
  intros i c H. apply lookup_app_Some in H as [H|[Hi H]].
  - exists []. rewrite app_nil_r. by apply lookup_app_l_Some.
  - exists more. apply list_lookup_singleton_Some in H as [H <-].
    rewrite lookup_app_r by done. by rewrite H.
Qed.

Lemma fragments_grow_new l l' : fragments_grow l (l ++ l').
Proof. intros i c H. exists []. rewrite app_nil_r. by apply lookup_app_l_Some. Qed.

Definition part_of (fcs : list bytes) (index offset : nat) (c : bytes) : Prop :=
  exists fc, fcs !! index = Some fc /\ offset + length c <= length fc /\ take (length c) (drop offset fc) = c.

Lemma part_of_grow fcs fcs' index offset c : fragments_grow fcs fcs' -> part_of fcs index offset c ->
  part_of fcs' index offset c.
Proof.
  intros Hg (fc & Hi & Hl & Ht). destruct (Hg _ _ Hi) as [more Hm]. exists (fc ++ more). split; [done|].
  rewrite length_app. split; [lia|]. rewrite drop_app_le, take_app_le; [done|rewrite length_drop; lia|lia].
Qed.

(** ** Layouts *)

(** The layout's file has this content, the fragments' contents being [fcs]. *)
Definition layout_ok (bs : nat) (img : bytes) (fcs : list bytes) (l : FileLayout) (content : bytes) : Prop :=
  fl_size l = Z.of_nat (length content) /\ (0 <= fl_sparse l <= fl_size l)%Z /\
  exists pos cs last stop, fl_block l = Z.of_nat pos /\ SIZE Superblock <= pos /\ stop <= length img /\
    content = concat cs ++ last /\ length last < bs /\
    blocks_stored bs img pos (fl_blocks l) cs stop /\
    (last = [] /\ fl_fragment l = INVALID_INDEX /\ fl_offset l = 0%Z \/
     last ≠ [] /\ exists index offset, fl_fragment l = Z.of_nat index /\ fl_offset l = Z.of_nat offset /\
       part_of fcs index offset last).

Lemma layout_ok_grow bs img img' fcs fcs' l content : later img img' -> fragments_grow fcs fcs' ->
  layout_ok bs img fcs l content -> layout_ok bs img' fcs' l content.
Proof.
  intros Hl Hg (Hs & Hsp & pos & cs & last & stop & Hb & Hp & Hst & Hc & Hla & Hbs & Hf).
  split; [done|]. split; [done|]. exists pos, cs, last, stop. split; [done|]. split; [done|].
  split. { destruct Hl as (Hb96 & head & rest & Hh & ->). rewrite !length_app, length_drop. lia. }
  split; [done|]. split; [done|]. split; [by eapply blocks_stored_later|].
  destruct Hf as [?|(Hne & index & offset & Hi & Ho & Hpo)]; [by left|]. right. split; [done|].
  exists index, offset. split; [done|]. split; [done|]. by eapply part_of_grow.
Qed.
End stored.

(** ** Writing to an output *)

(** The sink got more bytes and gave some of its answers. *)
Definition grown (s s' : Sink) : Prop :=
  (exists more, sunk s' = sunk s ++ more) /\ wscript s' `suffix_of` wscript s.

#[export] Instance grown_preorder : PreOrder grown.
Proof.
  split.
  - intros s. split; [exists []; by rewrite app_nil_r|done].
  - intros a b c [[m1 H1] H2] [[m2 H3] H4]. split; [|by etrans]. exists (m1 ++ m2).
    by rewrite H3, H1, app_assoc.
Qed.

(** Why a write to the sink fails. *)
Definition sink_cause (sc : list response) (e : io_error) : Prop := Failed e ∈ sc \/ e = WriteZero /\ Moved 0 ∈ sc.

Lemma sink_cause_suffix sc sc' e : sc' `suffix_of` sc -> sink_cause sc' e -> sink_cause sc e.
Proof. intros [used ->] [?|[? ?]]; [left|right; split; [done|]]; apply elem_of_app; by right. Qed.

Lemma write_out_loop_spec n buf s : length (wscript s) + (if is_empty buf then 1 else 2) <= n ->
  post (write_out_loop n buf) s (fun s' r => grown s s' /\
    match r with
    | Ready _ => sunk s' = sunk s ++ buf
    | Fail e => sink_cause (wscript s) e
    | _ => False
    end).
Proof.
  revert buf s. induction n as [|n IH]; intros buf s Hn; [case_match; lia|]. unfold post. cbn [write_out_loop].
  destruct (is_empty buf) eqn:Eb.
  { apply is_empty_true in Eb as ->. simpl. split; [reflexivity|by rewrite app_nil_r]. }
  unfold sink_poll_write. destruct (wscript s) as [|[k|e|] rest] eqn:Es.
  - apply is_empty_false in Eb. destruct (length buf) eqn:El; [by apply nil_length_inv in El|].
    destruct n as [|n']; [simpl in Hn; lia|]. cbn [write_out_loop].
    rewrite drop_ge by lia. simpl. split; [|done]. split; [by eexists|]. simpl. by rewrite Es.
  - destruct (length (take k buf)) as [|m] eqn:El.
    + simpl. split; [split; [by eexists|simpl; rewrite Es; by apply suffix_cons_r]|].
      right. split; [done|]. destruct k; [apply list_elem_of_here|].
      apply is_empty_false in Eb. by destruct buf.
    + specialize (IH (drop (Datatypes.S m) buf) (mkSink (sunk s ++ take k buf) rest)). unfold post in IH.
      destruct IH as [[[more Hm] Hsuf] Hr]; [simpl in Hn |- *; case_match; lia|]. simpl in Hm, Hsuf.
      split. { split; [exists (take k buf ++ more); by rewrite Hm, app_assoc|]. rewrite Es. by apply suffix_cons_r. }
      destruct (write_out_loop n _ _) as [s' []]; simpl in Hr |- *; [|..|done|done].
      * rewrite Hr, <- app_assoc. f_equal. rewrite length_take in El.
        destruct (Nat.leb_spec k (length buf)).
        -- assert (k = Datatypes.S m) as -> by lia. by rewrite take_drop.
        -- rewrite take_ge, drop_ge by lia. by rewrite app_nil_r.
      * eapply sink_cause_suffix; [|done]. by apply suffix_cons_r.
  - simpl. split; [split; [exists []; by rewrite app_nil_r|simpl; rewrite Es; by apply suffix_cons_r]|].
    left. apply list_elem_of_here.
  - specialize (IH buf (mkSink (sunk s) rest)). unfold post in IH.
    destruct IH as [[[more Hm] Hsuf] Hr]; [simpl in Hn |- *; rewrite Eb; lia|]. simpl in Hm, Hsuf.
    split. { split; [by exists more|]. rewrite Es. by apply suffix_cons_r. }
    destruct (write_out_loop n _ _) as [s' []]; simpl in Hr |- *; [done|..|done|done].
    eapply sink_cause_suffix; [|done]. by apply suffix_cons_r.
Qed.

Lemma write_out_runs buf s : post (write_out buf) s (fun s' r => grown s s' /\
  match r with
  | Ready _ => sunk s' = sunk s ++ buf
  | Fail e => sink_cause (wscript s) e
  | _ => False
  end).
Proof. apply (write_out_loop_spec (2 + length (wscript s)) buf s). case_match; lia. Qed.

(** ** The calls of the data writer *)

Section writer.
Context `{ZS : Zstd} `{!ZstdOk ZS} `{B : Blake3} {S : Type} `{FileSource S}.

(** Why a write fails: an answer of the sink, or the compressor. *)
Definition write_cause (lv : Z) (sc : list response) (e : io_error) : Prop :=
  compressor_error lv e \/ sink_cause sc e.

Lemma write_cause_suffix lv sc sc' e : sc' `suffix_of` sc -> write_cause lv sc' e -> write_cause lv sc e.
Proof.
  intros [used ->] [?|[?|[? ?]]]; [by left|right; left|right; right; split; [done|]];
    apply elem_of_app; by right.
Qed.

Lemma write_out_spec lv buf s : post (write_out buf) s (fun s' r => grown s s' /\
  match r with
  | Ready _ => sunk s' = sunk s ++ buf
  | Fail e => write_cause lv (wscript s) e
  | _ => False
  end).
Proof. eapply post_mono; [apply write_out_runs|]. intros s' [[]|e| |] [Hg Hr]; try done. split; [done|by right]. Qed.

Lemma post_lift_io {T A} (r : io A) (s : T) Q : Q s (match r with Ok a => Ready a | Err e => Fail e end) ->
  post (lift_io r) s Q.
Proof. unfold post, lift_io. by destruct r. Qed.

Lemma DataWriter_block_spec lv c s : c ≠ [] -> (Z.of_nat (length c) < 2 ^ 24)%Z ->
  SIZE Superblock <= length (sunk s) ->
  post (DataWriter_block lv c) s (fun s' r => grown s s' /\
    match r with
    | Ready enc => stored lv (sunk s') (length (sunk s)) enc c /\
        exists n : nat, Z.ldiff enc UNCOMPRESSED_DATA = Z.of_nat n /\ length (sunk s') = length (sunk s) + n
    | Fail e => write_cause lv (wscript s) e
    | _ => False
    end).
Proof.
  intros Hne Hl Hb. apply post_bind, post_lift_io. destruct (encode_block c lv) as [e|e] eqn:He; cbn [and_then].
  2: { split; [reflexivity|]. left. unfold encode_block in He. destruct (compress c lv) as [|code] eqn:Ec; [done|].
       injection He as <-. by exists c, code. }
  pose proof (encode_block_length c lv e He) as Hel.
  apply post_bind, post_lift_io. unfold u32_try_from.
  replace (in_range u32 (Z.of_nat (length (eb_bytes e)))) with true by (symmetry; unfold in_range; simpl; lia).
  cbn [and_then]. apply post_bind. eapply post_mono; [apply (write_out_spec lv)|].
  intros s' [[]|err| |] [Hg Hr]; try done. cbn [and_then]. apply post_ret. split; [done|].
  destruct (encoded_size (Z.of_nat (length (eb_bytes e))) (eb_compressed e)) as (E1 & _ & _); [lia|].
  split; [|exists (length (eb_bytes e)); split; [done|]; by rewrite Hr, length_app].
  split; [done|]. split; [done|]. exists e. split; [done|]. split; [done|]. rewrite Hr, length_app. split; [lia|].
  by rewrite drop_app_length, firstn_all.
Qed.

(** The state of the data writer: its fragments hold [fcs]. *)
Record data_ok (d : DataWriter) (s : Sink) (fcs : list bytes) : Prop := {
  do_size : 0 < dw_block_size d /\ (Z.of_nat (dw_block_size d) < 2 ^ 24)%Z;
  do_base : SIZE Superblock <= length (sunk s);
  do_fragments : Forall2 (fun f fc => fr_unused f = 0%Z /\ length fc <= dw_block_size d /\
    exists pos, fr_block f = Z.of_nat pos /\ stored (dw_level d) (sunk s) pos (fr_size f) fc) (fragments d) fcs;
  do_tail : length (tail d) <= dw_block_size d;
}.

Definition all_fragments (d : DataWriter) (fcs : list bytes) : list bytes := fcs ++ [tail d].

(** A call leads to a state that holds at least as much. *)
Record leads_to (d : DataWriter) (s : Sink) (fcs : list bytes) (d' : DataWriter) (s' : Sink) (fcs' : list bytes) : Prop := {
  lt_grown : grown s s';
  lt_size : dw_block_size d' = dw_block_size d;
  lt_level : dw_level d' = dw_level d;
  lt_fragments : fragments_grow (all_fragments d fcs) (all_fragments d' fcs');
  lt_ok : data_ok d' s' fcs';
}.

Lemma leads_to_refl d s fcs : data_ok d s fcs -> leads_to d s fcs d s fcs.
Proof. intros Hok. split; [reflexivity|done|done|reflexivity|done]. Qed.

Lemma leads_to_trans d s fcs d1 s1 fcs1 d2 s2 fcs2 :
  leads_to d s fcs d1 s1 fcs1 -> leads_to d1 s1 fcs1 d2 s2 fcs2 -> leads_to d s fcs d2 s2 fcs2.
Proof. intros [] []. split; [by etrans|congruence|congruence|by etrans|done]. Qed.

Lemma grown_later s s' : SIZE Superblock <= length (sunk s) -> grown s s' -> later (sunk s) (sunk s').
Proof. intros Hb [[more ->] _]. by apply later_app. Qed.

Lemma layout_ok_leads bs d s fcs d' s' fcs' l c : data_ok d s fcs -> leads_to d s fcs d' s' fcs' ->
  layout_ok (dw_level d) bs (sunk s) (all_fragments d fcs) l c ->
  layout_ok (dw_level d') bs (sunk s') (all_fragments d' fcs') l c.
Proof.
  intros Hok [Hg _ Hlv Hf _]. rewrite Hlv. apply layout_ok_grow; [|done]. apply grown_later; [by destruct Hok|done].
Qed.

Lemma data_ok_grown d s fcs s' : data_ok d s fcs -> grown s s' -> data_ok d s' fcs.
Proof.
  intros [H1 H2 H3 H4] Hg. split; [done|destruct Hg as [[more ->] _]; rewrite length_app; lia| |done].
  eapply Forall2_impl; [done|]. intros f fc (? & ? & pos & ? & ?). split; [done|]. split; [done|]. exists pos. split; [done|].
  eapply stored_later; [|done]. by apply grown_later.
Qed.

Lemma on_sink_post {A} (m : M Sink A) d s Q : post m s (fun s' r => Q (d, s') r) -> post (on_sink m) (d, s) Q.
Proof. unfold post, on_sink. by destruct (m s). Qed.

Lemma flush_fragment_spec d s fcs : data_ok d s fcs ->
  post flush_fragment (d, s) (fun '(d', s') r =>
    match r with
    | Ready _ => tail d' = [] /\ exists fcs', leads_to d s fcs d' s' fcs'
    | Fail e => write_cause (dw_level d) (wscript s) e
    | _ => False
    end).
Proof.
  intros Hok. pose proof Hok as [[Hb1 Hb2] Hbase Hfr Ht]. unfold post, flush_fragment.
  destruct (is_empty (tail d)) eqn:Et.
  { apply is_empty_true in Et. split; [done|]. exists fcs. by apply leads_to_refl. }
  apply is_empty_false in Et.
  fold_post (d, s).
  apply post_bind, on_sink_post.
  eapply post_mono; [apply (DataWriter_block_spec (dw_level d) (tail d)); [done|lia|done]|].
  intros s' [enc|e| |] [Hg Hr]; try done. destruct Hr as [Hst _]. cbn [and_then].
  apply post_bind. unfold post at 1, push_fragment. cbn [fst snd and_then fragments dw_block_size dw_level tail].
  unfold post, set_tail. cbn [fst snd fragments dw_block_size dw_level tail]. split; [done|].
  exists (fcs ++ [tail d]). split; [done|done|done|apply fragments_grow_new|].
  destruct (data_ok_grown d s fcs s' Hok Hg) as [H1 H2 H3 H4]. split; [done|done| |simpl; lia].
  simpl. apply Forall2_app; [done|]. constructor; [|constructor]. split; [done|]. split; [done|].
  by exists (length (sunk s)).
Qed.

Lemma stream_read_exact_spec n r :
  match stream_read_exact n r with
  | Ok (c, r') => length c = n /\ coming r = c ++ coming r' /\ failing r' = failing r
  | Err _ => length (coming r) < n
  end.
Proof.
  unfold stream_read_exact. destruct (Nat.leb_spec n (length (coming r))); [|done]. simpl.
  rewrite length_take, take_drop. split; [lia|done].
Qed.

Lemma all_zero c : forallb (fun x => bool_decide (x = Byte.x00)) c = true -> c = replicate (length c) Byte.x00.
Proof.
  intros Hz. symmetry. apply replicate_as_elem_of. split; [done|]. intros x Hx. rewrite forallb_forall in Hz.
  apply list_elem_of_In in Hx. apply Hz in Hx. by apply bool_decide_eq_true in Hx.
Qed.

Lemma file_blocks_loop_spec n reader blocks sparse hashed d s fcs : data_ok d s fcs ->
  post (file_blocks_loop n reader blocks sparse hashed) (d, s) (fun '(d', s') r =>
    match r with
    | Ready (blocks', sparse', hashed', reader') => d' = d /\ grown s s' /\
        exists sizes cs, blocks' = blocks ++ sizes /\ hashed' = hashed ++ concat cs /\ length cs = n /\
          coming reader = concat cs ++ coming reader' /\ failing reader' = failing reader /\
          (sparse <= sparse' <= sparse + Z.of_nat (n * dw_block_size d))%Z /\
          blocks_stored (dw_level d) (dw_block_size d) (sunk s') (length (sunk s)) sizes cs (length (sunk s'))
    | Fail e => length (coming reader) < n * dw_block_size d \/ write_cause (dw_level d) (wscript s) e
    | _ => False
    end).
Proof.
  revert reader blocks sparse hashed s. induction n as [|n IH]; intros reader blocks sparse hashed s Hok.
  { unfold post. simpl. split; [done|]. split; [reflexivity|]. exists [], []. rewrite !app_nil_r.
    split; [done|]. split; [done|]. split; [done|]. split; [done|]. split; [done|]. split; [lia|]. constructor. }
  unfold post. cbn [file_blocks_loop].
  fold_post (d, s).
  apply post_bind, post_lift_io. pose proof (stream_read_exact_spec (dw_block_size d) reader) as Hread.
  destruct (stream_read_exact _ reader) as [[c r1]|e]; cbn [and_then].
  2: { left. simpl. lia. }
  destruct Hread as (Hlen & Hcom & Hfail). pose proof Hok as [[Hb1 Hb2] Hbase _ _].
  destruct (forallb _ c) eqn:Ez.
  - eapply post_mono; [by apply IH|]. intros [d' s'] [[[[bl sp] h] r']|e| |]; try done.
    + intros (-> & Hg & sizes & cs & -> & -> & <- & Hc & Hf & Hsp & Hbs). split; [done|]. split; [done|].
      exists (0%Z :: sizes), (c :: cs). rewrite <- !app_assoc. cbn [app concat length].
      split; [done|]. split; [done|]. split; [done|]. split; [by rewrite Hcom, Hc, app_assoc|].
      split; [congruence|]. split; [simpl; lia|]. apply all_zero in Ez. rewrite Ez, Hlen. by constructor.
    + intros [Hs|Hw]; [left|by right]. rewrite Hcom, length_app. simpl. lia.
  - apply post_bind, on_sink_post.
    eapply post_mono; [apply (DataWriter_block_spec (dw_level d) c); [intros ->; simpl in Hlen; lia|lia|done]|].
    intros s1 [enc|e| |] [Hg1 Hr]; try done; cbn [and_then]; [|by right].
    destruct Hr as (Hst & k & Hk & Hl1).
    eapply post_mono; [apply IH; by eapply data_ok_grown|]. intros [d' s'] [[[[bl sp] h] r']|e| |]; try done.
    + intros (-> & Hg & sizes & cs & -> & -> & <- & Hc & Hf & Hsp & Hbs). split; [done|]. split; [by etrans|].
      exists (enc :: sizes), (c :: cs). rewrite <- !app_assoc. cbn [app concat length].
      split; [done|]. split; [done|]. split; [done|]. split; [by rewrite Hcom, Hc, app_assoc|].
      split; [congruence|]. split; [simpl; lia|]. rewrite Hl1 in Hbs.
      eapply blocks_block; [done| |done|done]. eapply stored_later; [|done]. apply grown_later; [|done].
      rewrite Hl1. lia.
    + intros [Hs|Hw]; [left|right].
      * rewrite Hcom, length_app. simpl. lia.
      * eapply write_cause_suffix; [|done]. apply Hg1.
Qed.

Definition too_many : io_error := InvalidData $"too many SquashFS fragments".

(** The tail of a file: where it is in the fragments. *)
Definition tail_at (fcs : list bytes) (last : bytes) (fragment offset : Z) : Prop :=
  last = [] /\ fragment = INVALID_INDEX /\ offset = 0%Z \/
  last ≠ [] /\ exists i o, fragment = Z.of_nat i /\ offset = Z.of_nat o /\ part_of fcs i o last.

Lemma push_tail_spec d s fcs last : data_ok d s fcs -> last ≠ [] ->
  length (tail d) + length last <= dw_block_size d ->
  post (push_tail last) (d, s) (fun '(d', s') r =>
    match r with
    | Ready (fragment, offset) => leads_to d s fcs d' s' fcs /\
        tail_at (all_fragments d' fcs) last fragment offset
    | Fail e => e = too_many
    | _ => False
    end).
Proof.
  intros Hok Hne Hfit. pose proof Hok as [[Hb1 Hb2] Hbase Hfr Ht]. unfold post, push_tail. fold_post (d, s).
  apply post_bind, post_lift_io. unfold u32_try_from. destruct (in_range _ _); [|done]. cbn [and_then].
  apply post_bind. unfold post at 1, set_tail. cbn [fst snd and_then]. unfold post, m_ret. cbn [fst snd].
  split.
  { split; [reflexivity|done|done|apply fragments_grow_tail|]. split; [done|done|done|].
    simpl. rewrite length_app. lia. }
  right. split; [done|]. exists (length (fragments d)), (length (tail d)). split; [done|].
  split; [rewrite Z.mod_small; lia|]. unfold all_fragments. cbn [tail].
  exists (tail d ++ last). rewrite (Forall2_length _ _ _ Hfr), lookup_app_r, Nat.sub_diag by done.
  rewrite length_app. split; [done|]. split; [lia|]. by rewrite drop_app_length, firstn_all.
Qed.

Lemma file_tail_spec remaining reader d s fcs : data_ok d s fcs -> remaining < dw_block_size d ->
  post (file_tail remaining reader) (d, s) (fun '(d', s') r =>
    match r with
    | Ready (fragment, offset, last, reader') => length last = remaining /\
        coming reader = last ++ coming reader' /\ failing reader' = failing reader /\
        exists fcs', leads_to d s fcs d' s' fcs' /\ tail_at (all_fragments d' fcs') last fragment offset
    | Fail e => length (coming reader) < remaining \/ e = too_many \/ write_cause (dw_level d) (wscript s) e
    | _ => False
    end).
Proof.
  intros Hok Hrem. unfold post, file_tail. destruct (Nat.eqb_spec remaining 0) as [->|Hnz].
  { simpl. split; [done|]. split; [done|]. split; [done|]. exists fcs. split; [by apply leads_to_refl|by left]. }
  fold_post (d, s). apply post_bind, post_lift_io. pose proof (stream_read_exact_spec remaining reader) as Hread.
  destruct (stream_read_exact _ reader) as [[c r1]|e]; cbn [and_then]; [|by left].
  destruct Hread as (Hlen & Hcom & Hfail). apply post_bind.
  eapply (post_mono _ _ (fun '(d1, s1) r =>
    match r with
    | Ready _ => length (tail d1) + length c <= dw_block_size d1 /\ exists fcs1, leads_to d s fcs d1 s1 fcs1
    | Fail e => write_cause (dw_level d) (wscript s) e
    | _ => False
    end)).
  - destruct (Nat.ltb_spec (dw_block_size d) (length (tail d) + length c)).
    + eapply post_mono; [by apply (flush_fragment_spec d s fcs)|]. intros [d1 s1] [[]|e| |]; try done.
      intros (Ht & fcs1 & Hl). split; [|by exists fcs1]. destruct Hl as [_ Hsz _ _ _]. rewrite Ht, Hsz. simpl. lia.
    + apply post_ret. split; [done|]. exists fcs. by apply leads_to_refl.
  - intros [d1 s1] [[]|e| |]; try done; cbn [and_then]; [|by right; right]. intros (Hfit & fcs1 & Hl1).
    apply post_bind. eapply post_mono; [apply (push_tail_spec d1 s1 fcs1 c); [by destruct Hl1| |done]|].
    { intros ->. simpl in Hlen. lia. }
    intros [d2 s2] [[fr off]|e| |]; try done; cbn [and_then]; [|by right; left].
    intros (Hl2 & Hat). apply post_ret. split; [done|]. split; [done|]. split; [done|]. exists fcs1.
    split; [by eapply leads_to_trans|done].
Qed.

Lemma concat_length bs (cs : list bytes) : Forall (fun c => length c = bs) cs -> length (concat cs) = length cs * bs.
Proof. induction 1 as [|c cs Hc _ IH]; simpl; [done|]. by rewrite length_app, Hc, IH. Qed.

(** The contents that a layout of the source is made of, when it is made. *)
Lemma DataWriter_file_spec source size expected d s fcs : data_ok d s fcs -> (0 <= size)%Z ->
  post (DataWriter_file source size expected) (d, s) (fun '(d', s') r =>
    match r with
    | Ready l => exists content fcs', fs_reader source = Ok (mkStream content None) /\
        size = Z.of_nat (length content) /\ (forall h, expected = Some h -> blake3 content = h) /\
        leads_to d s fcs d' s' fcs' /\
        layout_ok (dw_level d') (dw_block_size d') (sunk s') (all_fragments d' fcs') l content
    | Fail e => forall content, fs_reader source = Ok (mkStream content None) ->
        size = Z.of_nat (length content) -> (forall h, expected = Some h -> blake3 content = h) ->
        e = too_many \/ write_cause (dw_level d) (wscript s) e
    | _ => False
    end).
Proof.
  intros Hok Hsize. pose proof Hok as [[Hb1 Hb2] Hbase _ _]. unfold post, DataWriter_file. fold_post (d, s).
  set (n := Z.to_nat (size / Z.of_nat (dw_block_size d))).
  set (m := Z.to_nat (size `mod` Z.of_nat (dw_block_size d))).
  assert (Z.to_nat size = n * dw_block_size d + m /\ m < dw_block_size d) as [Hnm Hm].
  { pose proof (Z.div_mod size (Z.of_nat (dw_block_size d))) as Hdm.
    pose proof (Z.mod_pos_bound size (Z.of_nat (dw_block_size d))).
    pose proof (Z.div_pos size (Z.of_nat (dw_block_size d))). unfold n, m. nia. }
  apply post_bind, post_lift_io. destruct (fs_reader source) as [rd|e]; cbn [and_then]; [|done].
  apply post_bind. eapply post_mono; [by apply (file_blocks_loop_spec n rd [] 0%Z [] d s fcs)|].
  intros [d0 s1] [[[[blocks sparse] hashed] rd1]|e| |]; try done; cbn [and_then].
  2: { intros [Hs|Hw] content [= ->] Hsz _; [|by right]. simpl in Hs. lia. }
  intros (-> & Hg1 & sizes & cs & -> & -> & Hncs & Hc1 & Hf1 & Hsp & Hbs). rewrite !app_nil_l.
  assert (leads_to d s fcs d s1 fcs) as Hl1.
  { split; [done|done|done|reflexivity|]. by eapply data_ok_grown. }
  apply post_bind. eapply post_mono; [apply (file_tail_spec m rd1 d s1 fcs); [by destruct Hl1|done]|].
  intros [d2 s2] [[[[fr off] last] rd2]|e| |]; try done; cbn [and_then].
  2: { intros [Hs|[?|Hw]] content [= ->] Hsz _; [|by left|].
       - apply (f_equal length) in Hc1. destruct (blocks_stored_length _ _ _ _ _ _ _ Hbs) as (_ & HF & _).
         rewrite length_app, (concat_length (dw_block_size d)) in Hc1 by done. simpl in Hc1. lia.
       - right. eapply write_cause_suffix; [apply Hg1|done]. }
  intros (Hlast & Hc2 & Hf2 & fcs2 & Hl2 & Hat).
  destruct (blocks_stored_length _ _ _ _ _ _ _ Hbs) as (_ & HF & _).
  pose proof (concat_length _ _ HF) as Hcl. rewrite Hncs in Hcl.
  assert (Hcom : coming rd = (concat cs ++ last) ++ coming rd2) by by rewrite Hc1, Hc2, app_assoc.
  apply post_bind, post_lift_io. unfold stream_read_one.
  destruct (coming rd2) as [|b0 rest] eqn:Er2; [destruct (failing rd2) as [e|] eqn:Efail|]; cbn [and_then].
  - intros content [= ->]. simpl in Hf1. congruence.
  - cbn [negb Nat.eqb orb]. rewrite app_nil_r in Hcom.
    assert (rd = mkStream (concat cs ++ last) None) as -> by (destruct rd; simpl in *; congruence).
    assert (size = Z.of_nat (length (concat cs ++ last))) as Hsz by (rewrite length_app; lia).
    destruct (match expected with Some h => bool_decide (blake3 (concat cs ++ last) ≠ h) | None => false end) eqn:Eh.
    + apply post_fail. intros content [= <-] _ Hex. destruct expected as [h|]; [|done].
      apply bool_decide_eq_true in Eh. by destruct Eh; apply Hex.
    + apply post_ret. exists (concat cs ++ last), fcs2. split; [done|]. split; [done|]. split.
      { intros h ->. apply bool_decide_eq_false in Eh. by destruct (decide (blake3 (concat cs ++ last) = h)). }
      assert (leads_to d s fcs d2 s2 fcs2) as Hl by by eapply leads_to_trans. split; [done|].
      split; [done|]. split; [simpl; lia|]. destruct Hl2 as [Hg2 Hz2 Hv2 _ _]. rewrite Hz2, Hv2.
      exists (length (sunk s)), cs, last, (length (sunk s1)). split; [done|]. split; [done|].
      split; [destruct Hg2 as [[more ->] _]; rewrite length_app; lia|]. split; [done|]. split; [lia|].
      split; [|done]. eapply blocks_stored_later; [|done]. apply grown_later; [|done].
      destruct Hg1 as [[more ->] _]. rewrite length_app. lia.
  - apply post_fail. intros content [= ->] Hsz. simpl in Hcom. apply (f_equal length) in Hcom.
    rewrite !length_app in Hcom. simpl in Hcom. lia.
Qed.

(** ** All files *)

(** The source is the same whenever it is looked at. *)
Definition stable (source : S) (c : bytes) : Prop :=
  fs_size source = Ok (Z.of_nat (length c)) /\ fs_copy source = Ok c /\ fs_reader source = Ok (mkStream c None).

(** The content that the image gets of a source: what was hashed, or what was read. *)
Definition given (dedup : bool) (source : S) (c : bytes) : Prop :=
  if dedup then fs_copy source = Ok c else fs_reader source = Ok (mkStream c None).

(** The bytes that the sources give have different hashes when they are different. *)
Definition seen (sources : list S) (c : bytes) : Prop :=
  exists source, source ∈ sources /\ (fs_copy source = Ok c \/ exists f, fs_reader source = Ok (mkStream c f)).

Definition collision_free (sources : list S) : Prop :=
  forall a b, seen sources a -> seen sources b -> blake3 a = blake3 b -> length a = length b -> a = b.

Definition sizes_ok : Prop := forall (source : S) n, fs_size source = Ok n -> (0 <= n)%Z.

Definition duplicate_ok (sources : list S) (d : DataWriter) (s : Sink) (fcs : list bytes)
    (x : hash * Z * FileLayout) : Prop :=
  exists c, seen sources c /\ x.1 = (blake3 c, Z.of_nat (length c)) /\
    layout_ok (dw_level d) (dw_block_size d) (sunk s) (all_fragments d fcs) x.2 c.

Definition laid_out (dedup : bool) (d : DataWriter) (s : Sink) (fcs : list bytes) (source : S) (l : FileLayout) : Prop :=
  exists c, given dedup source c /\
    layout_ok (dw_level d) (dw_block_size d) (sunk s) (all_fragments d fcs) l c.

Lemma layout_ok_step d s fcs d' s' fcs' l c : data_ok d s fcs -> leads_to d s fcs d' s' fcs' ->
  layout_ok (dw_level d) (dw_block_size d) (sunk s) (all_fragments d fcs) l c ->
  layout_ok (dw_level d') (dw_block_size d') (sunk s') (all_fragments d' fcs') l c.
Proof. intros Hok Hl. pose proof (lt_size _ _ _ _ _ _ Hl) as ->. by apply layout_ok_leads. Qed.

Lemma duplicate_ok_step sources d s fcs d' s' fcs' : data_ok d s fcs -> leads_to d s fcs d' s' fcs' ->
  forall dups, Forall (duplicate_ok sources d s fcs) dups -> Forall (duplicate_ok sources d' s' fcs') dups.
Proof.
  intros Hok Hl dups HF. eapply Forall_impl; [exact HF|]. intros x (c & Hs & Hk & Hla). exists c. split; [done|]. split; [done|].
  by eapply layout_ok_step.
Qed.

Lemma find_duplicate_spec k dups l : find_duplicate k dups = Some l -> (k, l) ∈ dups.
Proof.
  unfold find_duplicate. intros Hf. apply fmap_Some in Hf as ([k' l'] & Hf & ->).
  apply find_some in Hf as [Hin Hk]. apply bool_decide_eq_true in Hk. simpl in Hk. subst k'.
  by apply list_elem_of_In.
Qed.

(** The outcome of writing some of the files. *)
Definition files_end (dedup : bool) (d : DataWriter) (s : Sink) (fcs : list bytes) (sources : list S)
    (st : DataWriter * Sink) (r : res (list FileLayout)) : Prop :=
  let '(d', s') := st in
  match r with
  | Ready layouts => exists fcs', leads_to d s fcs d' s' fcs' /\ Forall2 (laid_out dedup d' s' fcs') sources layouts
  | Fail e => Forall (fun source => exists c, stable source c) sources ->
      e = too_many \/ write_cause (dw_level d) (wscript s) e
  | _ => False
  end.

(** One more file, laid out before the others. *)
Lemma files_end_cons dedup d s fcs source l c sources d1 s1 fcs1 (m : D (list FileLayout)) :
  leads_to d s fcs d1 s1 fcs1 -> given dedup source c ->
  layout_ok (dw_level d1) (dw_block_size d1) (sunk s1) (all_fragments d1 fcs1) l c ->
  post m (d1, s1) (files_end dedup d1 s1 fcs1 sources) ->
  post (let> layouts := m in m_ret (l :: layouts)) (d1, s1) (files_end dedup d s fcs (source :: sources)).
Proof.
  intros Hl Hgiven Hla Hm. pose proof Hl as [Hg _ Hlv _ Hok1]. apply post_bind.
  eapply post_mono; [exact Hm|]. intros [d2 s2] [ls|e| |]; try done; cbn [and_then].
  - intros (fcs2 & Hl2 & HF). apply post_ret. exists fcs2. split; [by eapply leads_to_trans|].
    constructor; [|done]. exists c. split; [done|]. by eapply layout_ok_step.
  - intros Hst HF. apply Forall_cons in HF as [_ HF]. destruct (Hst HF) as [|Hw]; [by left|right].
    rewrite <- Hlv. eapply write_cause_suffix; [apply Hg|done].
Qed.

Lemma write_files_spec dedup all sources dups d s fcs : sizes_ok -> (dedup = true -> collision_free all) ->
  data_ok d s fcs -> Forall (duplicate_ok all d s fcs) dups -> sources ⊆ all ->
  post (write_files dedup sources dups) (d, s) (files_end dedup d s fcs sources).
Proof.
  intros Hsizes Hcf. revert dups d s fcs.
  induction sources as [|source rest IH]; intros dups d s fcs Hok Hdup Hsub; cbn [write_files].
  { apply post_ret. exists fcs. split; [by apply leads_to_refl|constructor]. }
  assert (rest ⊆ all) as Hrest by (intros x Hx; apply Hsub; by apply list_elem_of_further).
  assert (source ∈ all) as Hin by (apply Hsub, list_elem_of_here).
  apply post_bind, post_lift_io. destruct (fs_size source) as [size|e] eqn:Esize; cbn [and_then].
  2: { intros HF. apply Forall_cons in HF as [(c & Hc & _) _]. congruence. }
  pose proof (Hsizes source size Esize) as Hnn. destruct dedup.
  - unfold fingerprint. apply post_bind, post_bind, post_lift_io.
    destruct (fs_copy source) as [copy|e] eqn:Ecopy; cbn [result_bind and_then].
    2: { intros HF. apply Forall_cons in HF as [(c & _ & Hc & _) _]. congruence. }
    destruct (Z.eqb_spec (Z.of_nat (length copy)) size) as [Hsz|Hsz]; cbn [negb and_then].
    2: { intros HF. apply Forall_cons in HF as [(c & Hc & Hc' & _) _]. rewrite Ecopy in Hc'. rewrite Esize in Hc. congruence. }
    apply post_ret. cbn [and_then fmap option_fmap option_map mbind option_bind].
    assert (seen all copy) as Hseen by (exists source; auto).
    destruct (find_duplicate _ dups) as [l|] eqn:Ef.
    + apply find_duplicate_spec in Ef. rewrite Forall_forall in Hdup. pose proof (Hdup _ Ef) as (c & Hs & Hk & Hla).
      simpl in Hk. injection Hk as Hh Hl.
      assert (copy = c) as <- by (apply Hcf; [done..|lia]).
      eapply (files_end_cons true d s fcs source l copy); [by apply leads_to_refl|done|done|].
      apply IH; [done| |done]. by rewrite Forall_forall.
    + apply post_bind. eapply post_mono; [by apply (DataWriter_file_spec source size (Some (blake3 copy)) d s fcs)|].
      intros [d1 s1] [l|e| |]; try done; cbn [and_then].
      2: { intros Hst HF. apply Forall_cons in HF as [(c & Hc & Hc' & Hc'') _].
           assert (c = copy) as -> by congruence. apply (Hst copy Hc''); [congruence|]. by intros h [= <-]. }
      intros (c & fcs1 & Hrd & Hlen & Hh & Hl & Hla).
      assert (c = copy) as ->.
      { apply Hcf; [done|exists source; split; [done|right; by eexists]|done|by apply Hh|lia]. }
      eapply (files_end_cons true d s fcs source l copy); [done|done|done|].
      pose proof Hl as [_ _ _ _ Hok1]. apply IH; [done| |done].
      constructor; [|by apply (duplicate_ok_step all d s fcs d1 s1 fcs1)]. exists copy. by rewrite Hsz.
  - apply post_bind, post_ret. cbn [and_then fmap option_fmap option_map mbind option_bind].
    apply post_bind. eapply post_mono; [by apply (DataWriter_file_spec source size None d s fcs)|].
    intros [d1 s1] [l|e| |]; try done; cbn [and_then].
    2: { intros Hst HF. apply Forall_cons in HF as [(c & Hc & _ & Hc'') _]. apply (Hst c Hc''); [congruence|done]. }
    intros (c & fcs1 & Hrd & Hlen & _ & Hl & Hla).
    eapply (files_end_cons false d s fcs source l c); [done|done|done|].
    pose proof Hl as [_ _ _ _ Hok1]. apply IH; [done| |done]. by apply (duplicate_ok_step all d s fcs d1 s1 fcs1).
Qed.

Lemma write_data_spec dedup sources d s fcs : sizes_ok -> (dedup = true -> collision_free sources) -> data_ok d s fcs ->
  post (write_data dedup sources) (d, s) (fun st r => files_end dedup d s fcs sources st r /\
    match r with Ready _ => tail st.1 = [] | _ => True end).
Proof.
  intros Hsizes Hcf Hok. apply post_bind.
  eapply post_mono; [by apply (write_files_spec dedup sources sources [] d s fcs)|].
  intros [d1 s1] [ls|e| |]; try done; cbn [and_then]. intros (fcs1 & Hl1 & HF).
  pose proof Hl1 as [Hg1 _ Hlv1 _ Hok1]. apply post_bind.
  eapply post_mono; [by apply (flush_fragment_spec d1 s1 fcs1)|].
  intros [d2 s2] [[]|e| |]; try done; cbn [and_then].
  - intros (Ht & fcs2 & Hl2). apply post_ret. split; [|done]. exists fcs2. split; [by eapply leads_to_trans|].
    eapply Forall2_impl; [done|]. intros source l (c & Hc & Hla). exists c. split; [done|]. by eapply layout_ok_step.
  - intros Hw. split; [|done]. intros _. right. rewrite <- Hlv1. eapply write_cause_suffix; [apply Hg1|done].
Qed.
End writer.

(** ** Layouts are read back *)

Section read_back.
Context `{ZS : Zstd} `{!ZstdOk ZS}.
Variables (lv : Z) (bs : nat) (img : bytes) (sb : Superblock).
Hypothesis Hbs : 0 < bs.
Hypothesis Hbs24 : (Z.of_nat bs < 2 ^ 24)%Z.
Hypothesis Hsb : block_size sb = Z.of_nat bs.

Lemma range_ok pos n : SIZE Superblock <= pos -> (Z.of_nat (pos + n) <= inode_table sb)%Z ->
  range (Z.of_nat pos) (Z.of_nat n) (inode_table sb) = Ok tt.
Proof.
  intros Hp Hn. unfold range.
  destruct (Z.ltb_spec (Z.of_nat pos) (Z.of_nat (SIZE Superblock))); [lia|].
  destruct (Z.ltb_spec (inode_table sb) (Z.of_nat pos)); [lia|].
  destruct (Z.ltb_spec (inode_table sb - Z.of_nat pos) (Z.of_nat n)); [lia|done].
Qed.

Lemma data_bounds_stored pos enc c n : stored lv img pos enc c -> length c <= bs ->
  Z.ldiff enc UNCOMPRESSED_DATA = Z.of_nat n -> (Z.of_nat (pos + n) <= inode_table sb)%Z ->
  data_bounds sb (Z.of_nat pos) enc = Ok tt.
Proof.
  intros Hst Hc Hn Hend. destruct (stored_readable lv img pos enc c) as [(k & Hk & Hk1 & _) Hhigh Hnz _ _]; [lia|done|].
  unfold data_bounds. rewrite Hhigh, Hn, Hsb. cbn [Z.eqb negb orb].
  destruct (Z.ltb_spec (Z.of_nat bs) (Z.of_nat n)); [lia|].
  destruct (Z.eqb_spec enc 0); [done|]. destruct (Z.eqb_spec (Z.of_nat n) 0); [lia|]. cbn [negb andb].
  apply range_ok; [|done]. by destruct Hst.
Qed.

Lemma inode_blocks_stored size index pos sizes cs stop : blocks_stored lv bs img pos sizes cs stop ->
  SIZE Superblock <= pos -> (Z.of_nat stop <= inode_table sb)%Z ->
  ((index + Z.of_nat (length cs)) * Z.of_nat bs <= size)%Z ->
  exists blocks, inode_blocks sb size index (Z.of_nat pos) sizes = Ok (blocks, Z.of_nat stop) /\
    Forall2 (block_holds img bs) blocks cs.
Proof.
  intros Hb. revert index. induction Hb as [|pos sizes cs stop Hb IH|pos enc c n sizes cs stop Hc Hst Hn Hb IH];
    intros index Hp Hstop Hsize; cbn [inode_blocks].
  { exists []. by split; [|constructor]. }
  - destruct (blocks_stored_length _ _ _ _ _ _ _ Hb) as (_ & _ & Hle). cbn [length] in Hsize.
    destruct (IH (index + 1)%Z) as (blocks & Hi & HF); [done|done|lia|].
    assert (data_bounds sb (Z.of_nat pos) 0 = Ok tt) as ->.
    { unfold data_bounds. rewrite !Z.ldiff_0_l, Hsb. cbn [Z.eqb negb orb andb].
      destruct (Z.ltb_spec (Z.of_nat bs) 0); [lia|]. apply (range_ok pos 0); [done|lia]. }
    cbn [result_bind]. rewrite Z.land_0_l, Z.ldiff_0_l, Z.add_0_r, Hi, Hsb. cbn [Z.eqb negb andb result_bind].
    eexists. split; [reflexivity|]. constructor; [|done]. rewrite Z.min_r, Nat2Z.id by lia.
    exists (replicate bs Byte.x00). cbn [b_offset b_size]. rewrite !length_replicate.
    split; [done|]. split; [lia|]. split; [done|]. rewrite skipn_O, <- (length_replicate bs Byte.x00) at 1.
    by rewrite firstn_all.
  - destruct (blocks_stored_length _ _ _ _ _ _ _ Hb) as (_ & _ & Hle). cbn [length] in Hsize.
    destruct (IH (index + 1)%Z) as (blocks & Hi & HF); [lia|done|lia|].
    rewrite (data_bounds_stored pos enc c n) by (done || lia). cbn [result_bind].
    destruct (stored_readable lv img pos enc c) as [_ _ Hnz Hflag Hload]; [lia|done|].
    rewrite Hsb, Z.min_r by lia. rewrite Hn, <- Nat2Z.inj_add, Hi.
    assert (negb (Z.land enc UNCOMPRESSED_DATA =? 0)%Z && negb (Z.of_nat n =? Z.of_nat bs)%Z = false) as ->.
    { destruct (Z.eqb_spec (Z.land enc UNCOMPRESSED_DATA) 0); [done|]. rewrite <- Hn, Hflag, Hc by done.
      by rewrite Z.eqb_refl. }
    cbn [result_bind]. eexists. split; [reflexivity|]. constructor; [|done]. rewrite Nat2Z.id. exists c.
    cbn [b_offset b_size]. split; [apply Hload; [lia|lia|by right]|]. split; [lia|]. split; [done|].
    rewrite skipn_O. apply take_ge. lia.
Qed.

Lemma chunked_full cs last : Forall (fun c => length c = bs) cs -> length last < bs ->
  chunked bs (cs ++ if is_empty last then [] else [last]).
Proof.
  intros HF Hl. induction HF as [|c cs Hc _ IH]; simpl; [|by constructor].
  destruct last; simpl in *; [constructor|]. apply chunked_last. simpl. lia.
Qed.

(** The fragments of the writer as the reader loads them. *)
Definition fragment_ok (f : Fragment) (fc : bytes) : Prop :=
  fr_unused f = 0%Z /\ length fc <= bs /\ exists pos, fr_block f = Z.of_nat pos /\ stored lv img pos (fr_size f) fc.

(** The block of a file's tail. *)
Lemma tail_block frags fcs index offset last : Forall2 fragment_ok frags fcs ->
  last ≠ [] -> part_of (fcs ++ [[]]) index offset last ->
  exists f, vec_get frags (Z.to_N (Z.of_nat index)) = Some f /\ index < length frags /\
    offset + length last <= bs /\
    block_holds img bs (mkBlock (fr_block f) (fr_size f) offset (length last) true) last.
Proof.
  intros HF Hne (fc & Hi & Hl & Ht).
  assert (0 < length last) by (destruct last; [done|simpl; lia]).
  apply lookup_app_Some in Hi as [Hi|[_ Hi]].
  2: { apply list_lookup_singleton_Some in Hi as [_ <-]. simpl in Hl. lia. }
  destruct (Forall2_lookup_r _ _ _ _ _ HF Hi) as (f & Hf & _ & Hlen & pos & Hp & Hst). exists f.
  rewrite vec_get_eq. replace (N.to_nat (Z.to_N (Z.of_nat index))) with index by lia.
  split; [done|]. split; [by eapply lookup_lt_Some|]. split; [lia|].
  destruct (stored_readable lv img pos (fr_size f) fc) as [_ _ _ _ Hload]; [lia|done|].
  exists fc. cbn [b_offset b_size]. rewrite Hp. split; [apply Hload; [done|done|by left]|]. done.
Qed.

Lemma inode_file_layout frags fcs l c links xattr : Forall2 fragment_ok frags fcs ->
  (Z.of_nat (length frags) < 2 ^ 32)%Z -> (Z.of_nat (length c) < 2 ^ 63)%Z ->
  (exists data, layout_ok lv bs data (fcs ++ [[]]) l c /\ later data img /\ (Z.of_nat (length data) <= inode_table sb)%Z) ->
  block_count sb (layout_inode l links xattr) = Z.of_nat (length (fl_blocks l)) /\
  exists f, inode_file sb frags (layout_inode l links xattr) (fl_blocks l) = Ok f /\ file_holds img f c.
Proof.
  intros HF Hfr Hc63 (data & (Hsz & Hsp & pos & cs & last & stop & Hb & Hp & Hst & Hc & Hla & Hblk & Htail) & Hlater & Hend).
  apply (blocks_stored_later lv _ _ img _ _ _ _ Hlater) in Hblk.
  destruct (blocks_stored_length _ _ _ _ _ _ _ Hblk) as (Hls & Hlen & _).
  pose proof (concat_length bs cs Hlen) as Hcl.
  assert (length c = length cs * bs + length last) as Hlc by by rewrite Hc, length_app, Hcl.
  assert ((fl_size l `mod` Z.of_nat bs)%Z = Z.of_nat (length last)) as Hmod.
  { symmetry. apply (Z.mod_unique _ _ (Z.of_nat (length cs))); lia. }
  assert ((fl_size l / Z.of_nat bs)%Z = Z.of_nat (length cs)) as Hdiv.
  { symmetry. apply (Z.div_unique _ _ _ (Z.of_nat (length last))); lia. }
  assert (fl_fragment l = INVALID_INDEX -> last = []) as Hinv.
  { intros Hi. destruct Htail as [[? _]|(Hne & index & offset & Hfi & _ & Hpart)]; [done|].
    destruct (tail_block frags fcs index offset last HF Hne Hpart) as (_ & _ & Hlt & _).
    unfold INVALID_INDEX in Hi. lia. }
  unfold block_count, inode_file, inode_tail. cbn [layout_inode fi_size fi_sparse fi_block fi_fragment fi_offset].
  rewrite Hsb, Hmod, Hdiv, Hls. split.
  { destruct (Z.eqb_spec (fl_fragment l) INVALID_INDEX) as [Hi|]; [|by rewrite andb_false_r; lia].
    rewrite (Hinv Hi). simpl. lia. }
  destruct (Z.ltb_spec (2 ^ 63 - 1) (fl_size l)); [lia|]. destruct (Z.ltb_spec (fl_size l) (fl_sparse l)); [lia|]. cbn [orb].
  destruct (inode_blocks_stored (fl_size l) 0 pos (fl_blocks l) cs stop Hblk Hp) as (blocks & Hi & HB); [lia|lia|].
  rewrite Hb, Hi. cbn [result_bind].
  assert (forall extra, Forall2 (block_holds img bs) extra (if is_empty last then [] else [last]) ->
    exists f, (Ok (mkFile (blocks ++ extra) (Z.to_nat (fl_size l)) (Z.to_nat (Z.of_nat bs))) : io _) = Ok f /\ file_holds img f c) as Hdone.
  { intros extra HE. eexists. split; [reflexivity|]. unfold file_holds. cbn [f_block_size f_blocks f_size].
    rewrite Nat2Z.id. split; [done|]. exists (cs ++ if is_empty last then [] else [last]).
    split; [by apply chunked_full|]. split. { rewrite Hc, concat_app. f_equal. by destruct last; simpl; rewrite ?app_nil_r. }
    split; [lia|]. by apply Forall2_app. }
  destruct Htail as [(-> & -> & ->)|(Hne & index & offset & Hfi & Hfo & Hpart)].
  - cbn [Z.eqb Pos.eqb negb]. rewrite Z.eqb_refl. cbn [negb result_bind]. apply Hdone. constructor.
  - destruct (tail_block frags fcs index offset last HF Hne Hpart) as (f & Hget & Hlt & Hoff & Hhold).
    rewrite Hfi, Hfo, Hget. destruct (Z.eqb_spec (Z.of_nat index) INVALID_INDEX) as [Hi'|]; [unfold INVALID_INDEX in Hi'; lia|].
    assert (0 < length last) by (destruct last; [done|simpl; lia]).
    destruct (Z.eqb_spec (Z.of_nat (length last)) 0); [lia|]. cbn [negb].
    destruct (Z.ltb_spec (Z.of_nat bs) (Z.of_nat offset + Z.of_nat (length last))); [lia|]. cbn [result_bind].
    rewrite (Nat2Z.id offset), (Nat2Z.id (length last)). apply Hdone. destruct (is_empty last) eqn:Ee; [by apply is_empty_true in Ee|]. by repeat constructor.
Qed.
End read_back.

(** ** The theorems *)

Section theorems.
Context `{ZS : Zstd} `{!ZstdOk ZS} `{B : Blake3} {S : Type} `{FileSource S}.

Lemma image_data_spec o sources script : validate_block_size (o_block_size o) = Ok tt -> sizes_ok (S := S) ->
  (deduplicate o = true -> collision_free sources) ->
  post (image_data o sources) (DataWriter_new o, mkSink [] script) (fun '(d, s) r =>
    match r with
    | Ready layouts => exists fcs, data_ok d s fcs /\ tail d = [] /\ dw_block_size d = Z.to_nat (o_block_size o) /\
        dw_level d = compression_level o /\ Forall2 (laid_out (deduplicate o) d s fcs) sources layouts
    | Fail e => Forall (fun source => exists c, stable source c) sources ->
        e = too_many \/ write_cause (compression_level o) script e
    | _ => False
    end).
Proof.
  intros Hv Hsizes Hcf. apply validate_block_size_spec in Hv as (k & Hk & Hbs).
  assert (4096 <= o_block_size o <= 2 ^ 20)%Z as Hrange.
  { rewrite Hbs. split; [change 4096%Z with (2 ^ 12)%Z|]; apply Z.pow_le_mono_r; lia. }
  apply post_bind, on_sink_post. eapply post_mono; [apply (write_out_spec (compression_level o))|].
  intros s1 [[]|e| |] [Hg Hr]; try done; cbn [and_then]; [|intros _; by right].
  assert (data_ok (DataWriter_new o) s1 []) as Hok.
  { split; [cbn [DataWriter_new dw_block_size]; lia|rewrite Hr, length_app, length_replicate; lia|constructor|simpl; lia]. }
  eapply post_mono; [by apply (write_data_spec (deduplicate o) sources _ s1 [])|].
  intros [d s] [ls|e| |] [Hend Ht]; try done.
  - destruct Hend as (fcs & [_ Hz Hl _ Hok'] & HF). exists fcs. done.
  - intros Hst. destruct (Hend Hst) as [|Hw]; [by left|right]. eapply write_cause_suffix; [apply Hg|done].
Qed.

Lemma data_read_back o sources script d s layouts sb img :
  validate_block_size (o_block_size o) = Ok tt -> sizes_ok (S := S) ->
  (deduplicate o = true -> collision_free sources) ->
  image_data o sources (DataWriter_new o, mkSink [] script) = ((d, s), Ready layouts) ->
  (Z.of_nat (length (fragments d)) < 2 ^ 32)%Z ->
  block_size sb = o_block_size o -> (position_of s <= inode_table sb)%Z -> later (sunk s) img ->
  Forall (fun f => data_bounds sb (fr_block f) (fr_size f) = Ok tt /\ fr_size f ≠ 0%Z /\ fr_unused f = 0%Z) (fragments d) /\
  Forall2 (fun source l => exists c, given (deduplicate o) source c /\
    ((Z.of_nat (length c) < 2 ^ 63)%Z -> forall links xattr,
      block_count sb (layout_inode l links xattr) = Z.of_nat (length (fl_blocks l)) /\
      exists f, inode_file sb (fragments d) (layout_inode l links xattr) (fl_blocks l) = Ok f /\
        reads_back img f c)) sources layouts.
Proof.
  intros Hv Hsizes Hcf E Hfr Hsb Hend Hlater.
  apply (post_run _ _ _ _ _ (image_data_spec o sources script Hv Hsizes Hcf)) in E as (fcs & Hok & Ht & Hz & Hl & HF).
  apply validate_block_size_spec in Hv as (k & Hk & Hbs).
  assert (0 <= o_block_size o)%Z as Hnn by (rewrite Hbs; apply Z.pow_nonneg; lia).
  destruct Hok as [[Hb1 Hb2] Hbase Hfrag _].
  assert (block_size sb = Z.of_nat (dw_block_size d)) as Hsb' by lia.
  assert (Forall2 (fragment_ok (dw_level d) (dw_block_size d) img) (fragments d) fcs) as HFf.
  { eapply Forall2_impl; [exact Hfrag|]. intros f fc (? & ? & pos & ? & ?). split; [done|]. split; [done|].
    exists pos. split; [done|]. by eapply stored_later. }
  split.
  - apply Forall_forall. intros f Hf. apply list_elem_of_lookup in Hf as [i Hi].
    destruct (Forall2_lookup_l _ _ _ _ _ Hfrag Hi) as (fc & _ & Hu & Hlen & pos & -> & Hst).
    destruct (stored_readable (dw_level d) (sunk s) pos (fr_size f) fc) as [(n & Hn & Hn1 & Hn2) _ Hnz _ _]; [lia|done|].
    split; [|done]. unfold position_of in Hend.
    eapply (data_bounds_stored (dw_level d) (dw_block_size d) (sunk s)); [done..|exact Hst|done|exact Hn|lia].
  - eapply Forall2_impl; [exact HF|]. intros source l (c & Hc & Hla). exists c. split; [done|]. intros Hc63 links xattr.
    destruct (inode_file_layout (dw_level d) (dw_block_size d) img sb Hb1 Hb2 Hsb' (fragments d) fcs l c links xattr)
      as (Hcount & f & Hi & Hh); [done|done|done| |split; [done|]].
    + exists (sunk s). unfold all_fragments in Hla. rewrite Ht in Hla. done.
    + exists f. split; [done|]. by apply file_holds_reads_back.
Qed.

(** The files of an image are read back as they were written.  When the data part
    of an image has been written, in whatever pieces the output took it, then in every archive that
    has these bytes after a superblock with the same block size and an inode table that starts
    after them, the fragments pass the reader's checks, and the inode made of the layout of
    each source passes them as well and gives a file of which every part, read through buffers of any
    sizes from an archive that answers late, comes back without a panic: a prefix of the part's
    bytes, and all of them after enough reads unless the archive fails.  The bytes are those that were
    hashed, when files are deduplicated, and those that were read otherwise.  Deduplication relies on
    different contents having different hashes. *)
Theorem file_data_roundtrip o sources script d s layouts sb img :
  validate_block_size (o_block_size o) = Ok tt -> sizes_ok (S := S) ->
  (deduplicate o = true -> collision_free sources) ->
  image_data o sources (DataWriter_new o, mkSink [] script) = ((d, s), Ready layouts) ->
  (Z.of_nat (length (fragments d)) < 2 ^ 32)%Z ->
  block_size sb = o_block_size o -> (position_of s <= inode_table sb)%Z -> later (sunk s) img ->
  Forall (fun f => data_bounds sb (fr_block f) (fr_size f) = Ok tt /\ fr_size f ≠ 0%Z /\ fr_unused f = 0%Z) (fragments d) /\
  Forall2 (fun source l => exists c, given (deduplicate o) source c /\
    ((Z.of_nat (length c) < 2 ^ 63)%Z -> forall links xattr,
      block_count sb (layout_inode l links xattr) = Z.of_nat (length (fl_blocks l)) /\
      exists f, inode_file sb (fragments d) (layout_inode l links xattr) (fl_blocks l) = Ok f /\
        reads_back img f c)) sources layouts.
Proof. apply data_read_back. Qed.

(** Writing the data of an image ends, without a panic, and with one layout for
    each source when it succeeds.  When every source gives the same content whenever it is looked
    at, it fails only because the output or the compressor does, or because there are more
    fragments than an index can tell apart. *)
Theorem data_writer_failures o sources script : validate_block_size (o_block_size o) = Ok tt -> sizes_ok (S := S) ->
  (deduplicate o = true -> collision_free sources) ->
  match (image_data o sources (DataWriter_new o, mkSink [] script)).2 with
  | Ready layouts => length layouts = length sources
  | Fail e => Forall (fun source => exists c, stable source c) sources ->
      e = InvalidData $"too many SquashFS fragments" \/ compressor_error (compression_level o) e \/
      Failed e ∈ script \/ e = WriteZero /\ Moved 0 ∈ script
  | _ => False
  end.
Proof.
  intros Hv Hsizes Hcf. pose proof (image_data_spec o sources script Hv Hsizes Hcf) as Hp. unfold post in Hp.
  destruct (image_data _ _ _) as [[d s] [ls|e| |]]; simpl in Hp |- *; [|done..].
  destruct Hp as (fcs & _ & _ & _ & _ & HF). by apply Forall2_length in HF.
Qed.
End theorems.

(** ** Examples *)

Module SquashFilesExamples.
Import RunLength.

#[export] Instance hash_all : Blake3 := {| hash := bytes; blake3 c := c |}.

#[export] Instance in_memory : FileSource bytes :=
  {| fs_size c := Ok (Z.of_nat (length c)); fs_copy c := Ok c; fs_reader c := Ok (mkStream c None) |}.

Lemma in_memory_sizes : sizes_ok (S := bytes).
Proof. intros c n [= <-]. lia. Qed.

Lemma hash_all_free (sources : list bytes) : collision_free sources.
Proof. by intros a b. Qed.

Definition small : Options := mkOptions 4096 15 0 true.

(** A short file, one with a sparse block, one with a stored block, and the first again. *)
Definition files : list bytes :=
  [bstr "hello"; replicate 4096 Byte.x00 ++ bstr "tail"; bstr "ab" ++ replicate 4094 Byte.x01; bstr "hello"].

Definition answers : list response := [Moved 90; NotReady; Moved 6; Moved 1000].

Definition written : (DataWriter * Sink) * res (list FileLayout) :=
  image_data small files (DataWriter_new small, mkSink [] answers).

Example written_layouts : match written.2 with
  | Ready [a; b; c; d] => a = d /\ fl_sparse b = 4096%Z /\ fl_offset b = 5%Z /\ length (fl_blocks c) = 1
  | _ => False
  end.
Proof. vm_compute. done. Qed.

Definition header (s : Sink) : Superblock :=
  mkSuperblock 0 0 0 4096 1 0 12 0 0 0 0 0 0 0 0 (position_of s) 0 0 0.

Lemma file_data_roundtrip_witness :
  match written with
  | ((d, s), Ready [_; b; _; _]) => exists f,
      inode_file (header s) (fragments d) (layout_inode b 1 0) (fl_blocks b) = Ok f /\
      reads_back (sunk s ++ bstr "inodes") f (replicate 4096 Byte.x00 ++ bstr "tail")
  | _ => False
  end.
Proof.
  pose proof (file_data_roundtrip small files answers) as H. fold written in H.
  assert (match written.2 with Ready [_; _; _; _] => true | _ => false end = true) as Hr by (vm_compute; reflexivity).
  assert (length (fragments written.1.1) = 1) as Hf by (vm_compute; reflexivity).
  assert (SIZE Superblock <= length (sunk written.1.2)) as Hl by (apply Nat.leb_le; vm_compute; reflexivity).
  destruct written as [[d s] [[|l1 [|l2 [|l3 [|l4 [|]]]]]|e| |]]; try discriminate Hr. simpl in Hf, Hl.
  destruct (H d s [l1; l2; l3; l4] (header s) (sunk s ++ bstr "inodes")) as [_ HF].
  - reflexivity.
  - exact in_memory_sizes.
  - intros _. apply hash_all_free.
  - reflexivity.
  - rewrite Hf. lia.
  - reflexivity.
  - cbn [header inode_table]. lia.
  - by apply later_app.
  - apply Forall2_cons in HF as [_ HF]. apply Forall2_cons in HF as [(c & Hc & Hread) _].
    unfold given in Hc. cbn [small deduplicate] in Hc. injection Hc as <-.
    destruct (Hread ltac:(vm_compute; reflexivity) 1%Z 0%Z)
      as (_ & f & Hi & Hb). by exists f.
Defined.

Lemma data_writer_failures_witness :
  match (image_data small files (DataWriter_new small, mkSink [] [Moved 5; Failed (Other 3)])).2 with
  | Fail e => e = Other 3
  | _ => False
  end.
Proof.
  pose proof (data_writer_failures small files [Moved 5; Failed (Other 3)] eq_refl in_memory_sizes
                (fun _ => hash_all_free files)) as H.
  destruct (image_data _ _ _) as [[d s] [ls|e| |]] eqn:E; simpl in H |- *; [|..|done|done].
  - exfalso. apply (f_equal (fun x => match x.2 with Ready _ => true | _ => false end)) in E.
    vm_compute in E. discriminate E.
  - destruct H as [He|[(c & code & Hc & _)|[He|[_ He]]]].
    + apply Forall_forall. intros c _. exists c. split; [reflexivity|]. split; reflexivity.
    + apply (f_equal (fun x => match x.2 with Fail (InvalidData _) => true | _ => false end)) in E.
      simpl in E. rewrite He in E. vm_compute in E. discriminate E.
    + discriminate Hc.
    + apply elem_of_cons in He as [He|He]; [discriminate He|]. apply list_elem_of_singleton in He. by injection He.
    + apply elem_of_cons in He as [He|He]; [discriminate He|]. apply list_elem_of_singleton in He. discriminate He.
Defined.

End SquashFilesExamples.
