(* ===== verification/SquashIo.v ===== *)
(** * Asynchronous readers

    What [shared-libs/crates/start-core/src/util/squashfs/read.rs] uses of tokio's readers:
    [read_exact], the readers of an archive's ranges, of metadata blocks and of the first bytes
    of another reader ([take]), and the functions [disk], [u32_value] and [u64_value].

    [AsyncRead] is the trait; [AsyncReadOk] states what a reader promises to its clients: it
    gives the bytes it [holds], in order and once, answers only finitely often that it is not
    ready or failed, and fails only while errors are to come ([errors]).  Everything that reads an image is proved against this interface. *)
From S2P Require Import Prelude RustStr SquashFormat SquashBlocks.

Local Open Scope rust_scope.
Local Open Scope poll_scope.

Class AsyncRead (R : Type) : Type := {
  poll : nat -> M R bytes;
  (** How many answers of the archive the reader may still get. *)
  awaits : R -> nat;
  (** How many of them are errors. *)
  errors : R -> nat;
}.

Class AsyncReadOk (R : Type) `{AsyncRead R} : Type := {
  holds : R -> bytes -> Prop;
  poll_spec : forall len r c, holds r c -> 0 < len ->
    post (poll len) r (fun r' x =>
      match x with
      | Ready out => (awaits r' <= awaits r /\ errors r' <= errors r) /\ length out <= len /\ (out = [] -> c = []) /\
          exists c', c = out ++ c' /\ holds r' c'
      | Panics => False
      | Fail _ => (awaits r' < awaits r /\ errors r' < errors r) /\ holds r' c
      | Pending => (awaits r' < awaits r /\ errors r' <= errors r) /\ holds r' c
      end);
}.

(** ** [AsyncReadExt::read_exact] *)

Section read.
Context {R : Type} `{AsyncRead R}.

Fixpoint await_exact_loop (fuel : nat) (n : nat) (got : bytes) : M R bytes := fun r =>
  match fuel with
  | 0 => (r, Panics)
  | S k =>
      if n =? 0 then (r, Ready got)
      else
        match poll n r with
        | (r', Ready []) => (r', Fail UnexpectedEof)
        | (r', Ready out) => await_exact_loop k (n - length out) (got ++ out) r'
        | (r', Pending) => await_exact_loop k n got r'
        | (r', Fail e) => (r', Fail e)
        | (r', Panics) => (r', Panics)
        end
  end.

(** Into a buffer of [n] bytes; each round gets a byte at least or uses up an answer. *)
Definition await_exact (n : nat) : M R bytes := fun r => await_exact_loop (1 + n + awaits r) n [] r.

Definition disk (T : Type) `{Disk T} : M R T :=
  let> bs := await_exact (SIZE T) in
  let> (x, _) := lift_io (deserialize bs) in
  m_ret x.

Definition u32_value : M R Z := let> v := disk XattrValue in m_ret (xv_size v).

Definition u64_value : M R Z :=
  let> bs := await_exact 8 in
  m_ret (from_le_bytes u64 bs).
End read.

Section read_spec.
Context {R : Type} `{HR : AsyncRead R} `{!AsyncReadOk R}.

(** A read of [n] bytes from a reader that holds [c]. *)
Definition reads_exactly (n : nat) (c : bytes) (r r' : R) (x : res bytes) : Prop :=
  match x with
  | Ready out => length out = n /\ errors r' <= errors r /\ exists c', c = out ++ c' /\ holds r' c'
  | Fail e => e = UnexpectedEof /\ length c < n \/ 0 < errors r
  | _ => False
  end.

Lemma await_exact_loop_spec fuel n got r c : holds r c -> n + awaits r < fuel ->
  post (await_exact_loop fuel n got) r (fun r' x =>
    match x with
    | Ready out => exists out', out = got ++ out' /\ reads_exactly n c r r' (Ready out')
    | _ => reads_exactly n c r r' x
    end).
Proof.
  revert n got r c. induction fuel as [|k IH]; intros n got r c Hc Hf; [lia|]. unfold post. cbn [await_exact_loop].
  destruct (Nat.eqb_spec n 0) as [->|Hn].
  { exists []. rewrite app_nil_r. split; [done|]. split; [done|]. split; [done|]. by exists c. }
  pose proof (poll_spec n r c Hc ltac:(lia)) as Hp. unfold post in Hp.
  destruct (poll n r) as [r1 [out|e| |]]; simpl in Hp; [|..|done].
  - destruct Hp as (Ha & Hl & He & c' & -> & Hc'). destruct out as [|x out].
    { simpl. left. split; [done|]. specialize (He eq_refl). simpl in He |- *. rewrite He. simpl. lia. }
    assert (0 < length (x :: out)) by (simpl; lia).
    specialize (IH (n - length (x :: out)) (got ++ x :: out) r1 c' Hc' ltac:(lia)). unfold post in IH.
    destruct (await_exact_loop k _ _ r1) as [r2 [o2|e| |]]; simpl in IH |- *; [|..|tauto|tauto].
    + destruct IH as (out' & -> & Hlen & Ha2 & c2 & -> & Hc2).
      exists (x :: out ++ out'). rewrite <- app_assoc. split; [done|].
      split; [simpl in Hl, Hlen |- *; rewrite length_app; lia|]. split; [lia|].
      exists c2. split; [by simpl; rewrite app_assoc|done].
    + destruct IH as [[-> Hlt]|Hlt]; [left|right; lia].
      split; [done|]. simpl in Hlt |- *. rewrite length_app. lia.
  - simpl. right. lia.
  - destruct Hp as [Ha Hc']. specialize (IH n got r1 c Hc' ltac:(lia)). unfold post in IH.
    destruct (await_exact_loop k _ _ r1) as [r2 [o2|e| |]]; simpl in IH |- *; [|..|tauto|tauto].
    + destruct IH as (out' & -> & Hlen & Ha2 & HH). exists out'. split; [done|]. split; [done|]. split; [lia|done].
    + destruct IH as [?|?]; [by left|right; lia].
Qed.

Lemma await_exact_spec n r c : holds r c -> post (await_exact n) r (reads_exactly n c r).
Proof.
  intros Hc. unfold post, await_exact. pose proof (await_exact_loop_spec (1 + n + awaits r) n [] r c Hc ltac:(lia)) as Hp.
  unfold post in Hp. destruct (await_exact_loop _ _ _ r) as [r1 [out|e| |]]; try done. by destruct Hp as (out' & -> & Hp).
Qed.
End read_spec.

(** A read of a record. *)
Definition reads_disk {R} `{AsyncReadOk R} (T : Type) `{Disk T} (c : bytes) (r r' : R) (x : res T) : Prop :=
  match x with
  | Ready v => disk_ok v = true /\ errors r' <= errors r /\ exists c', c = serialize v ++ c' /\ holds r' c'
  | Fail e => e = UnexpectedEof /\ length c < SIZE T \/ 0 < errors r
  | _ => False
  end.

Section disk_spec.
Context {R : Type} `{HR : AsyncRead R} `{!AsyncReadOk R}.

Lemma disk_spec (T : Type) `{HD : Disk T} r c : holds r c -> post (disk T) r (reads_disk T c r).
Proof.
  intros Hc. apply post_bind. eapply post_mono; [by apply (await_exact_spec (SIZE T) r c)|].
  intros r1 [bs|e| |]; try done. cbn [and_then]. intros (Hl & Ha & c' & -> & Hc').
  apply post_bind. unfold post, lift_io. cbn [fst snd].
  destruct (deserialize bs) as [[v rest]|e] eqn:E; cbn [and_then].
  - apply post_ret. apply deserialize_inv in E as [-> Hok]. split; [done|]. split; [done|].
    assert (rest = []) as -> by (apply nil_length_inv; rewrite length_app, serialize_length in Hl; lia).
    rewrite app_nil_r. by exists c'.
  - exfalso. destruct (deserialize_total bs) as (v & rest & E'); [lia|]. congruence.
Qed.

(** The record that was written there. *)
Lemma disk_read (T : Type) `{HD : Disk T} r (v : T) c : holds r (serialize v ++ c) -> disk_ok v = true ->
  post (disk T) r (fun r' x =>
    match x with
    | Ready w => w = v /\ errors r' <= errors r /\ holds r' c
    | Fail _ => 0 < errors r
    | _ => False
    end).
Proof.
  intros Hc Hv. eapply post_mono; [by apply (disk_spec T)|]. intros r1 [w|e| |]; try done.
  - intros (Hw & Ha & c' & E & Hc').
    apply app_inj_1 in E as [E ->]; [|by rewrite !serialize_length]. split; [|done].
    apply serialize_inj in E; done.
  - intros [[_ Hl]|?]; [|done]. rewrite length_app, serialize_length in Hl. lia.
Qed.
End disk_spec.

(** ** The readers *)

#[export] Instance Source_read : AsyncRead Source :=
  {| poll := source_poll_read; awaits s := length (rscript s); errors s := fails (rscript s) |}.

#[export, refine] Instance Source_ok : AsyncReadOk Source := {| holds s c := data s = c |}.
Proof.
  intros len s c <- Hl. eapply post_mono; [by apply source_poll_read_spec|].
  intros s' [out|e| |]; try done; simpl.
  - intros (Hd & Ho & Ha & He). split; [done|]. split; [done|]. split; [done|]. by exists (data s').
  - intros (? & ? & ?). by split; [lia|].
  - intros [? ?]. done.
Defined.

Section metadata.
Context `{ZS : Zstd}.

#[export] Instance Metadata_read : AsyncRead MetadataBlocksReader :=
  {| poll := poll_read; awaits r := length (rscript (reader r)); errors r := fails (rscript (reader r)) |}.

#[export, refine] Instance Metadata_ok `{!ZstdOk ZS} : AsyncReadOk MetadataBlocksReader :=
  {| holds r c := exists lv blocks, reader_ok lv r blocks /\ content r blocks = c |}.
Proof.
  intros len r c (lv & blocks & Hok & <-) Hl. eapply post_mono; [by apply (poll_read_spec lv len r blocks)|].
  intros r' [out|e| |]; try done; simpl.
  - intros ((bl & Hok' & E) & Ho & He & Ha). split; [done|]. split; [done|]. split; [done|].
    exists (content r' bl). split; [done|]. by exists lv, bl.
  - intros ((bl & Hok' & E) & Ha). split; [lia|]. by exists lv, bl.
  - intros ((bl & Hok' & E) & Ha). split; [done|]. by exists lv, bl.
Defined.
End metadata.

(** [TrackingIO]: a reader that counts what it gave. *)
Record Tracking (R : Type) : Type := mkTracking { tracked : R; at_position : Z }.
Arguments mkTracking {R}.
Arguments tracked {R}.
Arguments at_position {R}.

(** [AsyncReadExt::take]: at most [limit] bytes of a reader. *)
Record Take (R : Type) : Type := mkTake { taken_from : R; limit : nat }.
Arguments mkTake {R}.
Arguments taken_from {R}.
Arguments limit {R}.

Section wrappers.
Context {R : Type} `{HR : AsyncRead R}.

Definition tracking_poll (len : nat) : M (Tracking R) bytes := fun t =>
  let '(r, x) := poll len (tracked t) in
  match x with
  | Ready out => (mkTracking r (at_position t + Z.of_nat (length out))%Z, x)
  | _ => (mkTracking r (at_position t), x)
  end.

#[export] Instance Tracking_read : AsyncRead (Tracking R) :=
  {| poll := tracking_poll; awaits t := awaits (tracked t); errors t := errors (tracked t) |}.

Definition take_poll (len : nat) : M (Take R) bytes := fun t =>
  if limit t =? 0 then (t, Ready [])
  else
    let '(r, x) := poll (len `min` limit t) (taken_from t) in
    match x with
    | Ready out => (mkTake r (limit t - length out), x)
    | _ => (mkTake r (limit t), x)
    end.

#[export] Instance Take_read : AsyncRead (Take R) :=
  {| poll := take_poll; awaits t := awaits (taken_from t); errors t := errors (taken_from t) |}.

Context `{!AsyncReadOk R}.

(** A wrapper holds what its reader holds, and the end of it is at the position [stop]. *)
#[refine] Definition Tracking_ok (stop : Z) : AsyncReadOk (Tracking R) :=
  {| holds t c := holds (tracked t) c /\ (at_position t + Z.of_nat (length c))%Z = stop |}.
Proof.
  intros len t c [Hc Hstop] Hl. unfold post, poll, Tracking_read, tracking_poll.
  pose proof (poll_spec len (tracked t) c Hc Hl) as Hp. unfold post in Hp.
  destruct (poll len (tracked t)) as [r [out|e| |]]; cbn [fst snd] in Hp |- *; [|..|done].
  - destruct Hp as (Ha & Hlen & He & c' & -> & Hc'). split; [done|]. split; [done|]. split; [done|].
    exists c'. split; [done|]. split; [done|]. cbn [at_position]. rewrite length_app in Hstop. lia.
  - by destruct Hp.
  - by destruct Hp.
Defined.

(** At most the first bytes. *)
#[export, refine] Instance Take_ok : AsyncReadOk (Take R) :=
  {| holds t c := exists c0, holds (taken_from t) c0 /\ c = take (limit t) c0 |}.
Proof.
  intros len t c (c0 & Hc & ->) Hl. unfold post, poll, Take_read, take_poll.
  destruct (Nat.eqb_spec (limit t) 0) as [E|E].
  { simpl. split; [done|]. split; [lia|]. split; [by rewrite E|]. exists (take (limit t) c0). split; [done|]. by exists c0. }
  pose proof (poll_spec (len `min` limit t) (taken_from t) c0 Hc ltac:(lia)) as Hp. unfold post in Hp.
  destruct (poll _ (taken_from t)) as [r [out|e| |]]; simpl in Hp |- *; [|..|done].
  - destruct Hp as (Ha & Hlen & He & c' & -> & Hc'). split; [done|]. split; [lia|].
    split; [intros Ho; rewrite He by done; by rewrite take_nil|].
    exists (take (limit t - length out) c'). split; [|by exists c'].
    by rewrite take_app_ge by lia.
  - destruct Hp as [Ha Hc']. split; [done|]. by exists c0.
  - destruct Hp as [Ha Hc']. split; [done|]. by exists c0.
Defined.
End wrappers.
