(* ===== verification/SquashImage.v ===== *)
(** * The tables of an image

    [shared-libs/crates/start-core/src/util/squashfs/write.rs], [table_blocks], [table_index],
    [indexed_table] and the part of [Squashfs::serialize] that writes the tables and the superblock;
    [read.rs], [Image] with [fetch], [boundaries], [metadata], [indexed] and [load].

    The archive an image is read from is its bytes, with a list of the answers it gives to
    the calls of [fetch]: an error, or a reader with its own answers (SquashIo.v).  The output is a
    [Sink] from the position the image starts at. *)
From S2P Require Import Prelude RustStr BTree SquashFormat SquashBlocks SquashTree SquashData SquashIo.

Local Open Scope rust_scope.
Local Open Scope poll_scope.

(** ** Writing tables *)

(** [slice::chunks]. *)
Fixpoint chunks_loop (fuel n : nat) (bs : bytes) : list bytes :=
  match fuel with
  | 0 => []
  | S k => if is_empty bs then [] else take n bs :: chunks_loop k n (drop n bs)
  end.

Definition chunks (n : nat) (bs : bytes) : list bytes := chunks_loop (length bs) n bs.

(** A computation on a value of its own. *)
Definition run {S R A} (m : M R A) (r : R) : M S (A * R) := fun s =>
  (s, match m r with
      | (r', Ready a) => Ready (a, r')
      | (_, Fail e) => Fail e
      | (_, Pending) => Pending
      | (_, Panics) => Panics
      end).

Definition m_panic {S A} : M S A := fun s => (s, Panics).

Definition lift_outcome {S A} (o : outcome A) : M S A :=
  match o with Done a => m_ret a | Panic => m_panic end.

Definition get_position : M Sink Z := fun s => (s, Ready (position_of s)).

(** What [InodeTables] holds when all inodes have been written. *)
Record InodeTables : Type := mkTables {
  inodes : MetadataBlocksWriter;
  directories : MetadataBlocksWriter;
  xattrs : MetadataBlocksWriter;
  xattr_ids : list XattrId;
  ids : list Z;
  references : list Z;
}.

Section Write.
Context `{ZS : Zstd}.

Fixpoint table_blocks_loop (level : Z) (cs : list bytes) : M Sink (list Z) :=
  match cs with
  | [] => m_ret []
  | chunk :: rest =>
      let> pointer := get_position in
      let> (block, _) := run (write_all chunk ;> MetadataTable_finish) (MetadataTable_new level) in
      write_out block ;>
      let> pointers := table_blocks_loop level rest in
      m_ret (pointer :: pointers)
  end.

Definition table_blocks (bs : bytes) (level : Z) : M Sink (list Z) :=
  table_blocks_loop level (chunks METADATA_SIZE bs).

Fixpoint write_pointers (pointers : list Z) : M Sink unit :=
  match pointers with
  | [] => m_ret tt
  | pointer :: rest => write_out (to_le_bytes u64 pointer) ;> write_pointers rest
  end.

Definition table_index (pointers : list Z) : M Sink Z :=
  let> index := get_position in
  write_pointers pointers ;>
  m_ret index.

Definition indexed_table (bs : bytes) (level : Z) : M Sink Z :=
  if is_empty bs then m_ret INVALID_TABLE
  else let> pointers := table_blocks bs level in table_index pointers.

(** [TryInto] of a length. *)
Definition try_into (t : int_ty) (n : nat) (message : str) : io Z :=
  if in_range t (Z.of_nat n) then Ok (Z.of_nat n) else invalid message.

Definition write_table (table : MetadataBlocksWriter) : M Sink unit :=
  let> (bs, _) := run MetadataTable_finish table in
  write_out bs.

(** The last table: the xattrs, their ids and the header before the index. *)
Definition write_xattrs (tables : InodeTables) (level : Z) : M Sink Z :=
  let> block := get_position in
  write_table (xattrs tables) ;>
  let> pointers := table_blocks (concat (map serialize (xattr_ids tables))) level in
  let> table := get_position in
  let> count := lift_io (try_into u32 (length (xattr_ids tables)) $"too many SquashFS xattr sets") in
  write_out (serialize (mkXattrTable block count 0)) ;>
  let> _ := table_index pointers in
  m_ret table.

(** [Squashfs::serialize] from the superblock on: the tables and the padding.  The superblock
    is returned with the length of the image. *)
Definition write_tables (o : Options) (node_count : nat) (frags : list Fragment) (tables : InodeTables)
    : M Sink (Superblock * Z) :=
  let level := compression_level o in
  let> sb := lift_outcome (Superblock_new (o_block_size o) (o_modification_time o)) in
  let> root := lift_outcome (unwrap (references tables !! 0)) in
  let> inode_table := get_position in
  write_table (inodes tables) ;>
  let> directory_table := get_position in
  write_table (directories tables) ;>
  let> fragment_count := lift_io (try_into u32 (length frags) $"too many SquashFS fragments") in
  let> fragment_table := indexed_table (concat (map serialize frags)) level in
  let> export_table := indexed_table (concat (map (to_le_bytes u64) (references tables))) level in
  let> id_count := lift_io (try_into u16 (length (ids tables)) $"too many SquashFS ownership IDs") in
  let> id_table := indexed_table (concat (map (to_le_bytes u32) (ids tables))) level in
  let> (xattr_id_table, no_xattrs) :=
    (if is_empty (xattr_ids tables) then m_ret (INVALID_TABLE, NO_XATTRS)
     else let> table := write_xattrs tables level in m_ret (table, 0%Z)) in
  let> bytes_used := get_position in
  write_out (replicate (Z.to_nat ((4096 - bytes_used `mod` 4096) `mod` 4096)) Byte.x00) ;>
  let> stop := get_position in
  m_ret (mkSuperblock (magic sb) (Z.of_nat node_count `mod` 2 ^ 32) (sb_modification_time sb) (block_size sb)
           fragment_count (compression sb) (block_log sb)
           (Z.lor (Z.lor (flags sb) no_xattrs) (if deduplicate o then DEDUPLICATED else 0))
           id_count (version_major sb) (version_minor sb) root bytes_used id_table
           xattr_id_table inode_table directory_table fragment_table export_table, stop).

(** [AsyncSeekExt::seek] and [flush]: answers of the output without bytes. *)
Fixpoint await_loop {A} (fuel : nat) (m : M Sink A) : M Sink A := fun s =>
  match fuel with
  | 0 => (s, Panics)
  | S n => match m s with (s', Pending) => await_loop n m s' | r => r end
  end.

Definition await {A} (m : M Sink A) : M Sink A := fun s => await_loop (1 + length (wscript s)) m s.

Definition sink_seek : M Sink unit := await sink_poll_flush.

(** [write_all] after a seek to the start: what is written replaces what was there. *)
Definition overwrite (bs : bytes) : M Sink unit := fun s =>
  let '(s', r) := write_out bs (mkSink [] (wscript s)) in
  (mkSink (sunk s' ++ drop (length (sunk s')) (sunk s)) (wscript s'), r).

(** The last lines of [serialize]: the superblock is written at the start. *)
Definition write_superblock (sb : Superblock) : M Sink unit :=
  sink_seek ;>
  overwrite (serialize sb) ;>
  sink_seek ;>
  await sink_poll_flush.
End Write.

(** ** The archive *)

Inductive served : Type :=
| Refused (e : io_error)
| Served (answers : list response).

Record Archived : Type := mkArchived {
  archive : bytes;
  servings : list served;
  (** [ArchiveSource::size]. *)
  reported : option Z;
}.

Definition slice_of (img : bytes) (start size : Z) : bytes := take (Z.to_nat size) (drop (Z.to_nat start) img).

(** [ArchiveSource::fetch]. *)
Definition source_fetch (start size : Z) : M Archived Source := fun a =>
  let bs := slice_of (archive a) start size in
  match servings a with
  | [] => (a, Ready (mkSource bs []))
  | Refused e :: rest => (mkArchived (archive a) rest (reported a), Fail e)
  | Served sc :: rest => (mkArchived (archive a) rest (reported a), Ready (mkSource bs sc))
  end.

(** ** Images *)

Record Image : Type := mkImage {
  superblock : Superblock;
  inode_map : list (Z * Z);
  directory_map : list (Z * Z);
  directory_end : Z;
  im_ids : list Z;
  im_fragments : list Fragment;
  exports : option (list Z);
  im_xattrs : list XattrId;
  xattr_map : list (Z * Z);
  xattr_start : Z;
  xattr_end : Z;
}.

Section Read.
Context `{ZS : Zstd}.

Definition fail {S A} (message : str) : M S A := lift_io (invalid message).

Definition image_fetch (sb : Superblock) (start size : Z) : M Archived Source :=
  lift_io (range start size (bytes_used sb)) ;>
  source_fetch start size.

(** [fetch] and [read_exact] of all that was fetched. *)
Definition fetch_bytes (sb : Superblock) (start size : Z) : M Archived bytes :=
  let> source := image_fetch sb start size in
  let> (bs, _) := run (await_exact (Z.to_nat size)) source in
  m_ret bs.

Fixpoint boundaries_loop (fuel : nat) (sb : Superblock) (position stop logical : Z) (blocks : list (Z * Z))
    : M Archived (list (Z * Z)) :=
  match fuel with
  | 0 => m_panic
  | S n =>
      if (position <? stop)%Z then
        lift_io (range position 2 stop) ;>
        let> bs := fetch_bytes sb position 2 in
        let encoded := from_le_bytes u16 bs in
        let size := Z.land encoded 0x7fff in
        if (size =? 0)%Z || (Z.of_nat METADATA_SIZE <? size)%Z then fail $"invalid metadata block size"
        else
          lift_io (range (position + 2) size stop) ;>
          let> payload := fetch_bytes sb (position + 2) size in
          let> decoded := lift_io (decode_block payload (Z.land encoded 0x8000 =? 0)%Z METADATA_SIZE) in
          if is_empty decoded then fail $"invalid decoded metadata block length"
          else
            boundaries_loop n sb (position + (size + 2)) stop (logical + Z.of_nat (length decoded))
              (BTreeMap_insert Z.compare position logical blocks)
      else m_ret blocks
  end.

(** The physical position of each metadata block and the position of its content. *)
Definition boundaries (sb : Superblock) (start stop : Z) : M Archived (list (Z * Z)) :=
  lift_io (range start 0 stop) ;>
  boundaries_loop (S (Z.to_nat (stop - start))) sb start stop 0 [].

Definition metadata (sb : Superblock) (start stop : Z) (blocks : list (Z * Z)) (reference : Z)
    : M Archived MetadataBlocksReader :=
  let position := (start + Z.shiftr reference 16)%Z in
  let offset := Z.land reference 0xffff in
  if (2 ^ 64 <=? position)%Z then fail $"metadata reference overflow"
  else if (Z.of_nat METADATA_SIZE <=? offset)%Z || negb (bool_decide (is_Some (BTreeMap_get Z.compare position blocks)))
  then fail $"invalid SquashFS metadata reference"
  else if (stop <? position)%Z then m_panic
  else
    let> source := image_fetch sb position (stop - position) in
    let r := MetadataBlocksReader_new source in
    if (offset =? 0)%Z then m_ret r
    else
      let> header := fetch_bytes sb position 2 in
      let encoded := from_le_bytes u16 header in
      let> bs := fetch_bytes sb (position + 2) (Z.land encoded 0x7fff) in
      let> decoded := lift_io (decode_block bs (Z.land encoded 0x8000 =? 0)%Z METADATA_SIZE) in
      if (Z.of_nat (length decoded) <=? offset)%Z then fail $"metadata offset exceeds decoded block"
      else
        let> (_, r') := run (await_exact (Z.to_nat offset)) r in
        m_ret r'.

(** The loop of [indexed] over the pointers: [n] are left, [index] were read. *)
Fixpoint indexed_loop (n : nat) (sb : Superblock) (position size index : Z) (pointers : Source)
    (result : bytes) (first : Z) (previous : option Z) : M Archived (bytes * Z) :=
  match n with
  | 0 => m_ret (result, first)
  | S n' =>
      let> (pointer, pointers') := run u64_value pointers in
      if match previous with Some p => (pointer <=? p)%Z | None => false end then
        fail $"unordered metadata table index"
      else if (pointer <? directory_table sb)%Z then fail $"indexed metadata overlaps inode or data table"
      else
        lift_io (range pointer 2 position) ;>
        let> header := fetch_bytes sb pointer 2 in
        let encoded := from_le_bytes u16 header in
        let length_ := Z.land encoded 0x7fff in
        if (length_ =? 0)%Z || (Z.of_nat METADATA_SIZE <? length_)%Z then fail $"invalid indexed metadata block"
        else
          lift_io (range (pointer + 2) length_ position) ;>
          let> bs := fetch_bytes sb (pointer + 2) length_ in
          let> decoded := lift_io (decode_block bs (Z.land encoded 0x8000 =? 0)%Z METADATA_SIZE) in
          let expected := Z.min (size - index * Z.of_nat METADATA_SIZE) (Z.of_nat METADATA_SIZE) in
          if negb (Z.of_nat (length decoded) =? expected)%Z then fail $"incorrect indexed table length"
          else
            indexed_loop n' sb position size (index + 1) pointers' (result ++ decoded)
              (Z.min first pointer) (Some (pointer + 2 + length_ - 1)%Z)
  end.

Definition indexed (sb : Superblock) (position count : Z) (width : nat) : M Archived (bytes * Z) :=
  let size := (count * Z.of_nat width)%Z in
  if (2 ^ 64 <=? size)%Z then fail $"table size overflow"
  else
    let blocks := ((size + Z.of_nat METADATA_SIZE - 1) / Z.of_nat METADATA_SIZE)%Z in
    if (2 ^ 64 <=? blocks * 8)%Z then fail $"table index overflow"
    else
      lift_io (range position (blocks * 8) (bytes_used sb)) ;>
      let> pointers := image_fetch sb position (blocks * 8) in
      indexed_loop (Z.to_nat blocks) sb position size 0 pointers [] position None.

(** [slice::chunks_exact]. *)
Definition chunks_exact (n : nat) (bs : bytes) : list bytes :=
  List.filter (fun c => length c =? n) (chunks n bs).

(** [while !bytes.is_empty()] over records of [T], each of which is checked. *)
Fixpoint parse_all {T} `{Disk T} (fuel : nat) (check : T -> io unit) (bs : bytes) : io (list T) :=
  match fuel with
  | 0 => Ok []
  | S n =>
      if is_empty bs then Ok []
      else
        let? (x, rest) := deserialize bs in
        let? _ := check x in
        let? xs := parse_all n check rest in
        Ok (x :: xs)
  end.

Definition check_fragment (sb : Superblock) (f : Fragment) : io unit :=
  let? _ := data_bounds sb (fr_block f) (fr_size f) in
  if (fr_size f =? 0)%Z || negb (fr_unused f =? 0)%Z then invalid $"invalid fragment entry" else Ok tt.

Definition load_superblock : M Archived Superblock :=
  let> source := source_fetch 0 (Z.of_nat (SIZE Superblock)) in
  let> (sb, _) := run (disk Superblock) source in
  let> checked := lift_outcome (Superblock_validate sb) in
  lift_io checked ;>
  let> last := source_fetch (bytes_used sb - 1) 1 in
  let> _ := run (await_exact 1) last in
  (fun a =>
    if match reported a with Some size => (size <? bytes_used sb)%Z | None => false end
    then fail $"truncated SquashFS image" a
    else m_ret sb a).

(** The fragments and where their blocks start. *)
Definition load_fragments (sb : Superblock) (directory_end : Z) : M Archived (list Fragment * Z) :=
  if (fragment_count sb =? 0)%Z then m_ret ([], directory_end)
  else
    let> (bs, start) := indexed sb (fragment_table sb) (fragment_count sb) (SIZE Fragment) in
    let> frags := lift_io (parse_all (length bs) (check_fragment sb) bs) in
    m_ret (frags, Z.min directory_end start).

Definition load_exports (sb : Superblock) (directory_end : Z) : M Archived (option (list Z) * Z) :=
  if negb (export_table sb =? INVALID_TABLE)%Z then
    let> (bs, start) := indexed sb (export_table sb) (inode_count sb) 8 in
    m_ret (Some (map (from_le_bytes u64) (chunks_exact 8 bs)), Z.min directory_end start)
  else if negb (Z.land (flags sb) EXPORTABLE =? 0)%Z then fail $"missing export table"
  else m_ret (None, directory_end).

(** The xattr ids, the blocks of the xattrs and the range they are in. *)
Definition load_xattrs (sb : Superblock) (directory_end : Z)
    : M Archived (list XattrId * list (Z * Z) * Z * Z) :=
  if (xattr_id_table sb =? INVALID_TABLE)%Z then m_ret ([], [], 0%Z, 0%Z)
  else
    let> source := image_fetch sb (xattr_id_table sb) (Z.of_nat (SIZE XattrTable)) in
    let> (table, _) := run (disk XattrTable) source in
    if (xt_count table =? 0)%Z || negb (xt_unused table =? 0)%Z || (xt_block table <=? directory_end)%Z then
      fail $"invalid xattr table header"
    else
      let> (bs, stop) := indexed sb (xattr_id_table sb + Z.of_nat (SIZE XattrTable)) (xt_count table) (SIZE XattrId) in
      let> blocks := boundaries sb (xt_block table) stop in
      let> xs := lift_io (parse_all (length bs) (fun _ => Ok tt) bs) in
      m_ret (xs, blocks, xt_block table, stop).

Definition load : M Archived Image :=
  let> sb := load_superblock in
  let> (id_bytes, directory_end0) := indexed sb (id_table sb) (id_count sb) 4 in
  let ids := map (from_le_bytes u32) (chunks_exact 4 id_bytes) in
  let> (frags, directory_end1) := load_fragments sb directory_end0 in
  let> (exports, directory_end) := load_exports sb directory_end1 in
  let> (xattrs, xattr_map, xattr_start, xattr_end) := load_xattrs sb directory_end in
  let> inode_map := boundaries sb (inode_table sb) (directory_table sb) in
  let> directory_map := boundaries sb (directory_table sb) directory_end in
  m_ret (mkImage sb inode_map directory_map directory_end ids frags exports xattrs xattr_map xattr_start xattr_end).
End Read.
