(* ===== verification/SquashLoad.v ===== *)
(** * Tables are loaded as they were written

    The theorems on the tables of an image (SquashImage.v): what [indexed_table] writes
    [Image::indexed] reads, [Image::boundaries] finds the blocks of a metadata table, a reference finds
    what was written after it was taken, and [Image::load] gives back the tables that
    [Squashfs::serialize] wrote. *)
From S2P Require Import Prelude RustStr BTree SquashFormat SquashBlocks SquashTree SquashData SquashFiles SquashIo SquashImage.

Local Open Scope rust_scope.
Local Open Scope poll_scope.

(** ** Bytes at a position *)

Definition located (img : bytes) (p : nat) (bs : bytes) : Prop :=
  exists pre suf, img = pre ++ bs ++ suf /\ length pre = p.

Lemma located_app img p a c : located img p (a ++ c) <-> located img p a /\ located img (p + length a) c.
Proof.
  split.
  - intros (pre & suf & -> & Hp). split.
    + exists pre, (c ++ suf). by rewrite <- app_assoc.
    + exists (pre ++ a), suf. rewrite length_app, <- !app_assoc. split; [done|lia].
  - intros [(pre & suf & -> & Hp) (pre' & suf' & E & Hp')].
    exists pre, suf'. split; [|done]. f_equal. rewrite <- app_assoc. f_equal.
    rewrite app_assoc in E. apply (app_inj_1 (pre ++ a)) in E as [_ E]; [done|rewrite length_app; lia].
Qed.

Lemma located_length img p bs : located img p bs -> p + length bs <= length img.
Proof. intros (pre & suf & -> & Hp). rewrite !length_app. lia. Qed.

Lemma located_slice img p bs : located img p bs -> slice_of img (Z.of_nat p) (Z.of_nat (length bs)) = bs.
Proof.
  intros (pre & suf & -> & Hp). unfold slice_of. rewrite !Nat2Z.id, <- Hp, drop_app_length.
  by rewrite take_app_length.
Qed.

Lemma located_later img p bs rest : located img p bs -> located (img ++ rest) p bs.
Proof. intros (pre & suf & -> & Hp). exists pre, (suf ++ rest). by rewrite <- !app_assoc. Qed.

Lemma located_end img bs : located (img ++ bs) (length img) bs.
Proof. exists img, []. by rewrite app_nil_r. Qed.

(** ** Metadata blocks and their positions *)

Lemma land_7fff h : (0 <= h < 2 ^ 16)%Z -> Z.land h 0x7fff = Z.ldiff h UNCOMPRESSED_METADATA.
Proof.
  intros Hh. change 0x7fff%Z with (Z.ones 15). change UNCOMPRESSED_METADATA with (2 ^ 15)%Z.
  apply Z.bits_inj'. intros i Hi. rewrite Z.land_spec, Z.ldiff_spec, Z.testbit_ones_nonneg, Z.pow2_bits_eqb by lia.
  destruct (Z.ltb_spec i 15), (Z.eqb_spec 15 i); try lia; rewrite ?andb_true_r, ?andb_false_r; try done.
  rewrite <- (Z.mod_small h (2 ^ 16)) by lia. symmetry. apply Z.mod_pow2_bits_high. lia.
Qed.

Section blocks.
Context `{ZS : Zstd} `{!ZstdOk ZS}.
Variable lv : Z.

(** What a reader finds in a metadata block. *)
Record block_parts (c enc h body : bytes) : Prop := {
  bp_enc : enc = h ++ body;
  bp_header : length h = 2;
  bp_size : Z.land (from_le_bytes u16 h) 0x7fff = Z.of_nat (length body);
  bp_body : 0 < length body <= METADATA_SIZE;
  bp_decode : decode_block body (Z.land (from_le_bytes u16 h) 0x8000 =? 0)%Z METADATA_SIZE = Ok c;
}.

Lemma metadata_block_parts c enc : c ≠ [] -> length c <= METADATA_SIZE -> metadata_block lv c = Ok enc ->
  exists h body, block_parts c enc h body.
Proof.
  intros Hne Hl E. destruct (metadata_block_inv lv c enc Hne Hl E) as (e & h & He & -> & Hh & Hsz & Hfl & Hb).
  exists h, (eb_bytes e). pose proof (from_le_bytes_range u16 h Hh) as Hr. unfold in_range in Hr.
  split; [done|done| |done|].
  - rewrite land_7fff by lia. rewrite <- Hsz. rewrite Z2Nat.id; [done|]. apply Z.ldiff_nonneg. left. lia.
  - change 0x8000%Z with UNCOMPRESSED_METADATA. rewrite Hfl. by apply (decode_encode_block c lv).
Qed.

(** Where the blocks of a table are and where their contents start. *)
Fixpoint block_map (pos logical : Z) (blocks : list bytes) : list (Z * Z) :=
  match blocks with
  | [] => []
  | c :: cs =>
      match metadata_block lv c with
      | Ok enc => (pos, logical) :: block_map (pos + Z.of_nat (length enc)) (logical + Z.of_nat (length c)) cs
      | Err _ => []
      end
  end.

Lemma block_map_app pos logical xs ys bs : stream lv xs bs ->
  block_map pos logical (xs ++ ys) =
  block_map pos logical xs ++ block_map (pos + Z.of_nat (length bs)) (logical + Z.of_nat (length (concat xs))) ys.
Proof.
  intros Hs. revert pos logical. induction Hs as [|c enc cs bs Hne Hl He Hs IH]; intros pos logical; simpl.
  - by rewrite !Z.add_0_r.
  - rewrite He, IH. simpl. rewrite !length_app, !Nat2Z.inj_add. by rewrite !Z.add_assoc.
Qed.

(** The positions increase. *)
Lemma block_map_above pos logical blocks bs : stream lv blocks bs ->
  Forall (fun x => (pos <= x.1 /\ logical <= x.2)%Z) (block_map pos logical blocks).
Proof.
  intros Hs. revert pos logical. induction Hs as [|c enc cs bs Hne Hl He Hs IH]; intros pos logical; simpl; [constructor|].
  rewrite He. constructor; [simpl; lia|]. eapply Forall_impl; [apply IH|]. intros [p l]; simpl. lia.
Qed.
End blocks.

(** A key above all others is added at the end. *)
Lemma map_insert_last {K V} (cmp : K -> K -> comparison) k (v : V) (m : list (K * V)) :
  Forall (fun x => cmp k x.1 = Gt) m -> BTreeMap_insert cmp k v m = m ++ [(k, v)].
Proof. induction 1 as [|[k' v'] m Hk _ IH]; simpl in *; [done|]. by rewrite IH, Hk. Qed.

Definition pointer_bytes (pointers : list Z) : bytes := concat (map (to_le_bytes u64) pointers).

Lemma chunked_count n cs : 0 < n -> chunked n cs ->
  ((Z.of_nat (length (concat cs)) + Z.of_nat n - 1) / Z.of_nat n)%Z = Z.of_nat (length cs).
Proof.
  intros Hn. induction 1 as [|c Hc|c cs Hc _ IH]; cbn [concat length].
  - rewrite Z.div_small; lia.
  - rewrite app_nil_r. symmetry. apply (Z.div_unique _ _ _ (Z.of_nat (length c) - 1)); lia.
  - rewrite length_app, Hc, Nat2Z.inj_succ, <- IH, <- Z.add_1_r.
    rewrite <- Z.div_add by lia. f_equal. lia.
Qed.

Lemma block_map_length `{ZS : Zstd} lv pos logical cs bs : stream lv cs bs -> length (block_map lv pos logical cs) = length cs.
Proof.
  intros Hs. revert pos logical. induction Hs as [|c enc cs bs Hne Hl He Hs IH]; intros pos logical; simpl; [done|].
  rewrite He. simpl. by rewrite IH.
Qed.

Lemma pointer_bytes_length pointers : length (pointer_bytes pointers) = 8 * length pointers.
Proof.
  unfold pointer_bytes. induction pointers as [|p ps IH]; [done|]. cbn [map concat length].
  rewrite length_app, to_le_bytes_length, IH. simpl. lia.
Qed.

Lemma range_spec start size stop : SIZE Superblock <= start -> start + size <= stop ->
  range (Z.of_nat start) (Z.of_nat size) (Z.of_nat stop) = Ok tt.
Proof.
  intros Hs Hl. unfold range. destruct (Z.ltb_spec (Z.of_nat start) (Z.of_nat (SIZE Superblock))); [lia|].
  destruct (Z.ltb_spec (Z.of_nat stop) (Z.of_nat start)); [lia|].
  destruct (Z.ltb_spec (Z.of_nat stop - Z.of_nat start) (Z.of_nat size)); [lia|done].
Qed.

(** ** Computations on an archive *)

(** An answer that refuses or fails. *)
Definition fault (x : served) : Prop := match x with Refused _ => True | Served answers => 0 < fails answers end.

Definition faulty (a : Archived) : Prop := Exists fault (servings a).

Section archive.
Context `{ZS : Zstd} `{!ZstdOk ZS}.
(** The archive's bytes, the size it reports and whether failures are among its answers. *)
Variables (img : bytes) (rep : option Z) (bad : Prop).

Definition archive_ok (a : Archived) : Prop := archive a = img /\ reported a = rep /\ (faulty a -> bad).

(** [m] gives a result in [P], or fails because the archive does. *)
Definition obtains {A} (m : M Archived A) (P : A -> Prop) : Prop := forall a, archive_ok a ->
  post m a (fun a' r => archive_ok a' /\ match r with Ready x => P x | Fail _ => bad | _ => False end).

Lemma obtains_bind {A B} (m : M Archived A) (f : A -> M Archived B) P Q :
  obtains m P -> (forall x, P x -> obtains (f x) Q) -> obtains (m_bind m f) Q.
Proof.
  intros Hm Hf a Ha. apply post_bind. eapply post_mono; [by apply Hm|].
  intros a' [x|e| |] [Ha' Hx]; try done. by apply (Hf x).
Qed.

Lemma obtains_ret {A} (x : A) (P : A -> Prop) : P x -> obtains (m_ret x) P.
Proof. intros Hx a Ha. by apply post_ret. Qed.

Lemma obtains_lift {A} (r : io A) (x : A) (P : A -> Prop) : r = Ok x -> P x -> obtains (lift_io r) P.
Proof. intros -> Hx a Ha. done. Qed.

Lemma obtains_mono {A} (m : M Archived A) (P Q : A -> Prop) : obtains m P -> (forall x, P x -> Q x) -> obtains m Q.
Proof.
  intros Hm HPQ a Ha. eapply post_mono; [by apply Hm|]. intros a' [x|e| |] [Ha' Hx]; auto; done.
Qed.

(** A reader that holds [c] and fails only because the archive does. *)
Definition reader_of {R} `{AsyncReadOk R} (r : R) (c : bytes) : Prop := holds r c /\ (0 < errors r -> bad).

Lemma obtains_run {R A} (m : M R A) (r : R) (P : A * R -> Prop) :
  post m r (fun r' x => match x with Ready v => P (v, r') | Fail _ => bad | _ => False end) -> obtains (run m r) P.
Proof. intros Hm a Ha. unfold post, run in *. by destruct (m r) as [r' []]. Qed.

Lemma obtains_exact {R} `{HR : AsyncRead R} `{!AsyncReadOk R} (r : R) c n : reader_of r c -> n <= length c ->
  obtains (run (await_exact n) r) (fun '(out, r') => out = take n c /\ reader_of r' (drop n c)).
Proof.
  intros [Hc Hb] Hn. apply obtains_run. eapply post_mono; [by apply (await_exact_spec n r c)|].
  intros r' [out|e| |]; try done; simpl.
  - intros (<- & Ha & c' & -> & Hc'). rewrite take_app_length, drop_app_length. split; [done|]. split; [done|].
    intros. apply Hb. lia.
  - intros [[_ ?]|?]; [lia|auto].
Qed.

Lemma obtains_disk {R} `{HR : AsyncRead R} `{!AsyncReadOk R} (r : R) (T : Type) `{HD : Disk T} (v : T) c :
  reader_of r (serialize v ++ c) -> disk_ok v = true ->
  obtains (run (disk T) r) (fun '(w, r') => w = v /\ reader_of r' c).
Proof.
  intros [Hc Hb] Hv. apply obtains_run. eapply post_mono; [by apply (disk_read T r v c)|].
  intros r' [w|e| |]; try done; simpl. intros (-> & Ha & Hc'). split; [done|]. split; [done|].
  intros. apply Hb. lia.
Qed.

Lemma obtains_u64 {R} `{HR : AsyncRead R} `{!AsyncReadOk R} (r : R) z c :
  reader_of r (to_le_bytes u64 z ++ c) -> in_range u64 z = true ->
  obtains (run u64_value r) (fun '(w, r') => w = z /\ reader_of r' c).
Proof.
  intros [Hc Hb] Hz. apply obtains_run. apply post_bind. eapply post_mono; [by apply (await_exact_spec 8 r _ Hc)|].
  intros r' [out|e| |]; try done; cbn [and_then].
  - intros (Hl & Ha & c' & E & Hc'). apply post_ret.
    apply app_inj_1 in E as [<- ->]; [|by rewrite Hl, to_le_bytes_length]. rewrite from_to_le_bytes by done.
    split; [done|]. split; [done|]. intros. apply Hb. lia.
  - intros [[_ Hl]|?]; [rewrite length_app, to_le_bytes_length in Hl; simpl in Hl; lia|auto].
Qed.

Variable sb : Superblock.

Lemma obtains_source start size bs : slice_of img start size = bs ->
  obtains (source_fetch start size) (fun s => reader_of s bs).
Proof.
  intros <- a (Ha & Hr & Hb). unfold post, source_fetch, reader_of. rewrite Ha.
  unfold archive_ok, faulty in *. destruct (servings a) as [|[e|sc] rest] eqn:Es; simpl.
  - split; [|split; [done|lia]]. split; [done|]. split; [done|]. by rewrite Es.
  - split; [|by apply Hb; left]. split; [done|]. split; [done|]. intros _. by apply Hb; left.
  - split; [|split; [done|]; intros H; apply Hb; by left]. split; [done|]. split; [done|]. intros H. apply Hb. by right.
Qed.

Lemma obtains_fetch start bs : located img start bs -> SIZE Superblock <= start ->
  (Z.of_nat (start + length bs) <= bytes_used sb)%Z ->
  obtains (image_fetch sb (Z.of_nat start) (Z.of_nat (length bs))) (fun s => reader_of s bs).
Proof.
  intros Hl Hs Hu. unfold image_fetch. eapply obtains_bind.
  { apply (obtains_lift _ tt (fun _ => True)); [|done].
    replace (bytes_used sb) with (Z.of_nat (Z.to_nat (bytes_used sb))) by lia. apply range_spec; lia. }
  intros _ _. apply obtains_source. by apply located_slice.
Qed.

Lemma obtains_bytes start n bs : located img start bs -> SIZE Superblock <= start -> n = length bs ->
  (Z.of_nat (start + length bs) <= bytes_used sb)%Z ->
  obtains (fetch_bytes sb (Z.of_nat start) (Z.of_nat n)) (fun x => x = bs).
Proof.
  intros Hl Hs -> Hu. unfold fetch_bytes. eapply obtains_bind; [by apply obtains_fetch|]. intros s Hs'.
  eapply obtains_bind; [apply (obtains_exact s bs); [done|lia]|]. intros [out r'] [-> _]. apply obtains_ret.
  by rewrite Nat2Z.id, firstn_all.
Qed.

(** ** The blocks of a metadata table *)

(** The header and the body of a block that is read at a position. *)
Lemma block_located lv p c enc rest : c ≠ [] -> length c <= METADATA_SIZE -> metadata_block lv c = Ok enc ->
  located img p (enc ++ rest) ->
  exists h body, block_parts c enc h body /\ length enc = 2 + length body /\ located img p h /\
    located img (p + 2) body /\ located img (p + length enc) rest.
Proof.
  intros Hne Hl He Hloc. destruct (metadata_block_parts lv c enc Hne Hl He) as (h & body & Hp).
  exists h, body. pose proof Hp as [-> Hh _ _ _]. apply located_app in Hloc as [Hloc Hrest].
  apply located_app in Hloc as [Hhl Hbl]. rewrite Hh in Hbl. rewrite length_app, Hh in Hrest |- *. done.
Qed.

Lemma boundaries_loop_spec lv blocks bs stop : stream lv blocks bs -> (Z.of_nat stop <= bytes_used sb)%Z ->
  forall fuel pos logical acc, located img pos bs -> SIZE Superblock <= pos -> pos + length bs = stop ->
    length bs < fuel -> Forall (fun x => (x.1 < Z.of_nat pos)%Z) acc ->
    obtains (boundaries_loop fuel sb (Z.of_nat pos) (Z.of_nat stop) logical acc)
      (fun m => m = acc ++ block_map lv (Z.of_nat pos) logical blocks).
Proof.
  intros Hs Hu. induction Hs as [|c enc cs bs Hne Hl He Hs IH]; intros fuel pos logical acc Hloc Hp Hend Hf Hacc;
    (destruct fuel as [|fuel]; [lia|]); cbn [boundaries_loop].
  { destruct (Z.ltb_spec (Z.of_nat pos) (Z.of_nat stop)); [simpl in Hend; lia|]. apply obtains_ret. by rewrite app_nil_r. }
  destruct (block_located lv pos c enc bs Hne Hl He Hloc) as (h & body & [-> Hh Hsz Hb Hdec] & Hlen & Hhl & Hbl & Hrest).
  rewrite !length_app in *. rewrite Hh in *.
  destruct (Z.ltb_spec (Z.of_nat pos) (Z.of_nat stop)); [|lia].
  eapply obtains_bind.
  { apply (obtains_lift _ tt (fun _ => True)); [|done]. apply (range_spec pos 2 stop); lia. }
  intros _ _. eapply obtains_bind; [apply (obtains_bytes pos 2 h); [done|done|by rewrite Hh|lia]|]. intros x ->. rewrite Hsz.
  destruct (Z.eqb_spec (Z.of_nat (length body)) 0); [lia|].
  destruct (Z.ltb_spec (Z.of_nat METADATA_SIZE) (Z.of_nat (length body))); [lia|]. cbn [orb].
  replace (Z.of_nat pos + 2)%Z with (Z.of_nat (pos + 2)) by lia. eapply obtains_bind.
  { apply (obtains_lift _ tt (fun _ => True)); [|done]. apply range_spec; lia. }
  intros _ _. eapply obtains_bind; [apply (obtains_bytes (pos + 2) (length body) body); [done|lia|done|lia]|].
  intros x ->. eapply obtains_bind; [by apply (obtains_lift _ c (fun x => x = c))|]. intros x ->.
  destruct (is_empty c) eqn:Ec; [by apply is_empty_true in Ec|].
  rewrite map_insert_last by (eapply Forall_impl; [exact Hacc|]; intros k; simpl; apply Z.compare_gt_iff).
  replace (Z.of_nat pos + (Z.of_nat (length body) + 2))%Z with (Z.of_nat (pos + (2 + length body))) by lia.
  eapply obtains_mono; [apply IH; [done|lia|lia|lia|]|].
  - apply Forall_app. split; [eapply Forall_impl; [done|]; intros [k v]; simpl; lia|]. repeat constructor. simpl. lia.
  - intros m ->. cbn [block_map]. rewrite He, length_app, Hh, <- app_assoc. cbn [app].
    by replace (Z.of_nat pos + Z.of_nat (2 + length body))%Z with (Z.of_nat (pos + (2 + length body))) by lia.
Qed.

Lemma boundaries_spec lv blocks bs start stop : stream lv blocks bs -> located img start bs ->
  SIZE Superblock <= start -> start + length bs = stop -> (Z.of_nat stop <= bytes_used sb)%Z ->
  obtains (boundaries sb (Z.of_nat start) (Z.of_nat stop)) (fun m => m = block_map lv (Z.of_nat start) 0 blocks).
Proof.
  intros Hs Hloc Hp Hend Hu. eapply obtains_bind.
  { apply (obtains_lift _ tt (fun _ => True)); [|done]. apply (range_spec start 0 stop); lia. }
  intros _ _. eapply obtains_mono; [by apply (boundaries_loop_spec lv blocks bs stop Hs Hu); [..|lia|constructor]|].
  by intros m ->.
Qed.

(** ** References *)

Lemma block_map_at lv (pos logical : Z) xs ys bs : stream lv xs bs -> ys ≠ [] -> forall cs, stream lv ys cs ->
  BTreeMap_get Z.compare (pos + Z.of_nat (length bs))%Z (block_map lv pos logical (xs ++ ys)) =
  Some (logical + Z.of_nat (length (concat xs)))%Z.
Proof.
  intros Hs Hne cs Hys. revert pos logical. induction Hs as [|c enc xs bs Hc Hl He Hs IH]; intros pos logical; simpl.
  - rewrite !Z.add_0_r. destruct Hys as [|c enc ys cs Hc Hl He Hs]; [done|]. simpl. rewrite He. simpl.
    by rewrite Z.compare_refl.
  - rewrite He. simpl. rewrite !length_app, !Nat2Z.inj_add.
    assert (0 < length enc).
    { destruct (metadata_block_parts lv c enc Hc Hl He) as (h & body & [-> Hh _ Hb _]). rewrite length_app. lia. }
    replace (pos + (Z.of_nat (length enc) + Z.of_nat (length bs)) ?= pos)%Z with Gt
      by (symmetry; apply Z.compare_gt_iff; lia).
    simpl. rewrite !Z.add_assoc. apply IH.
Qed.

(** A reference to the byte [offset] of the content from a block on: the reader holds what follows. *)
Lemma metadata_spec lv xs ys bs1 bs2 start stop offset reference :
  stream lv xs bs1 -> stream lv ys bs2 -> located img start (bs1 ++ bs2) ->
  SIZE Superblock <= start -> start + length (bs1 ++ bs2) = stop -> (Z.of_nat stop <= bytes_used sb)%Z ->
  (Z.of_nat stop < 2 ^ 64)%Z -> reference = (Z.of_nat (length bs1) * 2 ^ 16 + Z.of_nat offset)%Z ->
  (exists c cs, ys = c :: cs /\ offset < length c) ->
  obtains (metadata sb (Z.of_nat start) (Z.of_nat stop) (block_map lv (Z.of_nat start) 0 (xs ++ ys)) reference)
    (fun r => reader_of r (drop offset (concat ys))).
Proof.
  intros Hx Hy Hloc Hp Hend Hu H64 Href (c & cs & -> & Hoff). unfold metadata.
  inversion Hy as [|? enc ? bs Hne Hl He Hs]; subst.
  assert (Z.of_nat offset < 2 ^ 16)%Z as Ho16 by (unfold METADATA_SIZE in Hl; lia).
  destruct (reference_halves (Z.of_nat (length bs1)) (Z.of_nat offset)) as [-> ->]; [lia|lia|].
  rewrite !length_app in *. apply located_app in Hloc as [_ Hloc].
  destruct (block_located lv _ c enc bs Hne Hl He Hloc) as (h & body & [-> Hh Hsz Hb Hdec] & Hlen & Hhl & Hbl & Hrest).
  replace (Z.of_nat start + Z.of_nat (length bs1))%Z with (Z.of_nat (start + length bs1)) by lia.
  destruct (Z.leb_spec (2 ^ 64) (Z.of_nat (start + length bs1))); [lia|].
  destruct (Z.leb_spec (Z.of_nat METADATA_SIZE) (Z.of_nat offset)); [lia|]. cbn [orb].
  rewrite Nat2Z.inj_add, (block_map_at lv _ _ xs (c :: cs) bs1 Hx) with (cs := (h ++ body) ++ bs) by (auto; done).
  rewrite bool_decide_eq_true_2 by by eexists. cbn [negb]. rewrite <- Nat2Z.inj_add.
  rewrite !length_app in *. rewrite Hh in *.
  destruct (Z.ltb_spec (Z.of_nat (start + (length bs1 + (2 + length body + length bs)))) (Z.of_nat (start + length bs1))); [lia|].
  replace (Z.of_nat (start + (length bs1 + (2 + length body + length bs))) - Z.of_nat (start + length bs1))%Z
    with (Z.of_nat (length ((h ++ body) ++ bs))) by (rewrite !length_app; lia).
  eapply obtains_bind; [apply obtains_fetch; [done|lia|rewrite !length_app; lia]|].
  intros s [Hs' Hb']. simpl in Hs'.
  assert (reader_of (MetadataBlocksReader_new s) (concat (c :: cs))) as Hr.
  { split; [|done]. exists lv, (c :: cs). destruct s as [d sc]. simpl in Hs'. subst d. split; [by apply new_reader_ok|done]. }
  destruct (Z.eqb_spec (Z.of_nat offset) 0) as [E|E].
  { apply obtains_ret. by replace offset with 0 by lia. }
  eapply obtains_bind; [apply (obtains_bytes (start + length bs1) 2 h); [done|lia|by rewrite Hh|lia]|]. intros x ->. rewrite Hsz.
  replace (Z.of_nat (start + length bs1) + 2)%Z with (Z.of_nat (start + length bs1 + 2)) by lia.
  eapply obtains_bind; [apply (obtains_bytes (start + length bs1 + 2) (length body) body); [done|lia|done|lia]|].
  intros x ->. eapply obtains_bind; [by apply (obtains_lift _ c (fun x => x = c))|]. intros x ->.
  destruct (Z.leb_spec (Z.of_nat (length c)) (Z.of_nat offset)); [lia|]. rewrite Nat2Z.id.
  eapply obtains_bind; [apply (obtains_exact _ _ offset Hr); simpl; rewrite length_app; lia|].
  intros [out r'] [_ Hr']. by apply obtains_ret.
Qed.

(** ** Indexed tables *)

Lemma indexed_loop_spec lv cs bs : stream lv cs bs -> forall q p i size ptrs result first previous logical rest,
  chunked METADATA_SIZE cs -> located img p bs -> SIZE Superblock <= p -> p + length bs <= q ->
  (directory_table sb <= Z.of_nat p)%Z -> (Z.of_nat q <= bytes_used sb)%Z -> (Z.of_nat q < 2 ^ 64)%Z ->
  reader_of ptrs (pointer_bytes (map fst (block_map lv (Z.of_nat p) logical cs)) ++ rest) ->
  (size - i * Z.of_nat METADATA_SIZE)%Z = Z.of_nat (length (concat cs)) ->
  (forall x, previous = Some x -> (x < Z.of_nat p)%Z) ->
  obtains (indexed_loop (length cs) sb (Z.of_nat q) size i ptrs result first previous)
    (fun x => x = (result ++ concat cs, if is_empty cs then first else Z.min first (Z.of_nat p))).
Proof.
  intros Hs. induction Hs as [|c enc cs bs Hne Hl He Hs IH];
    intros q p i size ptrs result first previous logical rest Hch Hloc Hp Hq Hd Hu H64 Hptr Hsize Hprev;
    cbn [indexed_loop length].
  { apply obtains_ret. by rewrite app_nil_r. }
  cbn [block_map] in Hptr. rewrite He in Hptr. unfold pointer_bytes in Hptr. cbn [map concat fst] in Hptr. rewrite <- app_assoc in Hptr.
  destruct (block_located lv p c enc bs Hne Hl He Hloc) as (h & body & [-> Hh Hsz Hb Hdec] & Hlen & Hhl & Hbl & Hrest).
  rewrite !length_app in *. rewrite Hh in *.
  eapply obtains_bind; [apply (obtains_u64 ptrs (Z.of_nat p) _ Hptr); unfold in_range; lia|]. intros [pt ptrs'] [-> Hptr'].
  assert (match previous with Some x => (Z.of_nat p <=? x)%Z | None => false end = false) as ->.
  { destruct previous as [x|]; [|done]. specialize (Hprev x eq_refl). lia. }
  destruct (Z.ltb_spec (Z.of_nat p) (directory_table sb)); [lia|].
  eapply obtains_bind; [apply (obtains_lift _ tt (fun _ => True)); [apply (range_spec p 2 q); lia|done]|]. intros _ _.
  eapply obtains_bind; [apply (obtains_bytes p 2 h); [done|done|by rewrite Hh|lia]|]. intros x ->. rewrite Hsz.
  destruct (Z.eqb_spec (Z.of_nat (length body)) 0); [lia|].
  destruct (Z.ltb_spec (Z.of_nat METADATA_SIZE) (Z.of_nat (length body))); [lia|]. cbn [orb].
  replace (Z.of_nat p + 2)%Z with (Z.of_nat (p + 2)) by lia.
  eapply obtains_bind; [apply (obtains_lift _ tt (fun _ => True)); [apply range_spec; lia|done]|]. intros _ _.
  eapply obtains_bind; [apply (obtains_bytes (p + 2) (length body) body); [done|lia|done|lia]|]. intros x ->.
  eapply obtains_bind; [by apply (obtains_lift _ c (fun x => x = c))|]. intros x ->. rewrite Hsize. cbn [concat].
  assert (Z.min (Z.of_nat (length (c ++ concat cs))) (Z.of_nat METADATA_SIZE) = Z.of_nat (length c) /\
          chunked METADATA_SIZE cs) as [Hmin Hch'].
  { inversion Hch as [|? Hc'|? ? Hc' Hch']; subst; rewrite length_app; split; try done; simpl; [lia|constructor|lia]. }
  rewrite Hmin, Z.eqb_refl. cbn [negb].
  assert (cs ≠ [] -> length c = METADATA_SIZE) as Hfull by (inversion Hch; subst; [done|auto]).
  replace (Z.of_nat p + Z.of_nat (2 + length body))%Z with (Z.of_nat (p + (2 + length body))) in Hptr' by lia.
  destruct cs as [|c1 cs1]; [apply obtains_ret; by rewrite app_nil_r|].
  eapply obtains_mono.
  - eapply (IH q (p + (2 + length body)) (i + 1)%Z size ptrs' (result ++ c) (Z.min first (Z.of_nat p))
              (Some (Z.of_nat (p + 2) + Z.of_nat (length body) - 1)%Z)); [done|done|lia..|exact Hptr'| |].
    + specialize (Hfull ltac:(done)). cbn [concat] in Hsize |- *. rewrite !length_app in *. lia.
    + intros x [= <-]. lia.
  - intros x ->. rewrite <- app_assoc. cbn [is_empty]. f_equal. lia.
Qed.

(** [Image::indexed] on a table whose blocks are at [p] and whose index is at [q]. *)
Lemma indexed_spec lv cs bs p q count width : stream lv cs bs -> chunked METADATA_SIZE cs -> cs ≠ [] ->
  located img p bs -> located img q (pointer_bytes (map fst (block_map lv (Z.of_nat p) 0 cs))) ->
  SIZE Superblock <= p -> p + length bs <= q -> (directory_table sb <= Z.of_nat p)%Z ->
  (Z.of_nat (q + 8 * length cs) <= bytes_used sb)%Z -> (bytes_used sb < 2 ^ 64)%Z ->
  (count * Z.of_nat width)%Z = Z.of_nat (length (concat cs)) -> (Z.of_nat (length (concat cs)) < 2 ^ 64)%Z ->
  obtains (indexed sb (Z.of_nat q) count width) (fun x => x = (concat cs, Z.of_nat p)).
Proof.
  intros Hs Hch Hne Hloc Hq Hp Hpq Hd Hu H64 Hsize Hs64. unfold indexed. rewrite Hsize.
  destruct (Z.leb_spec (2 ^ 64) (Z.of_nat (length (concat cs)))); [lia|].
  rewrite (chunked_count METADATA_SIZE cs) by (done || (unfold METADATA_SIZE; lia)).
  destruct (Z.leb_spec (2 ^ 64) (Z.of_nat (length cs) * 8)); [lia|].
  assert (length (pointer_bytes (map fst (block_map lv (Z.of_nat p) 0 cs))) = 8 * length cs) as Hpl.
  { rewrite pointer_bytes_length, length_map. by rewrite (block_map_length lv _ _ cs bs). }
  replace (Z.of_nat (length cs) * 8)%Z with (Z.of_nat (length (pointer_bytes (map fst (block_map lv (Z.of_nat p) 0 cs)))))
    by (rewrite Hpl; lia).
  eapply obtains_bind.
  { apply (obtains_lift _ tt (fun _ => True)); [|done].
    replace (bytes_used sb) with (Z.of_nat (Z.to_nat (bytes_used sb))) by lia. apply range_spec; [lia|]. rewrite Hpl. lia. }
  intros _ _. eapply obtains_bind; [apply obtains_fetch; [done|lia|rewrite Hpl; lia]|]. intros ptrs Hptrs.
  rewrite Nat2Z.id. eapply obtains_mono.
  - eapply (indexed_loop_spec lv cs bs Hs q p 0 _ ptrs [] (Z.of_nat q) None 0 []); try done; try lia.
    by rewrite app_nil_r.
  - intros x ->. cbn [app]. destruct cs; [done|]. cbn [is_empty]. f_equal. lia.
Qed.
End archive.

(** ** What is written *)

Lemma chunks_loop_spec n fuel bs : 0 < n -> length bs <= fuel ->
  concat (chunks_loop fuel n bs) = bs /\ chunked n (chunks_loop fuel n bs).
Proof.
  intros Hn. revert bs. induction fuel as [|k IH]; intros bs Hl.
  { destruct bs; [|simpl in Hl; lia]. split; [done|constructor]. }
  cbn [chunks_loop]. destruct (is_empty bs) eqn:Eb.
  { apply is_empty_true in Eb as ->. split; [done|constructor]. }
  apply is_empty_false in Eb. assert (0 < length bs) by (destruct bs; [done|simpl; lia]).
  destruct (IH (drop n bs)) as [Hc Hch]; [rewrite length_drop; lia|]. cbn [concat]. rewrite Hc, take_drop.
  split; [done|]. destruct (Nat.leb_spec n (length bs)) as [Hle|Hlt].
  - apply chunked_cons; [rewrite length_take; lia|done].
  - rewrite drop_ge in Hch |- * by lia. replace (chunks_loop k n []) with (@nil bytes) by (by destruct k).
    apply chunked_last. rewrite length_take. lia.
Qed.

Lemma chunks_spec n bs : 0 < n -> concat (chunks n bs) = bs /\ chunked n (chunks n bs).
Proof. intros Hn. by apply chunks_loop_spec. Qed.

(** ** Tables have full blocks *)

Section full.
Context `{ZS : Zstd} `{!ZstdOk ZS}.

(** A table between calls: all its finished blocks are full. *)
Definition table_full (w : MetadataBlocksWriter) (blocks : list bytes) : Prop :=
  table_ok w blocks /\ Forall (fun c => length c = METADATA_SIZE) blocks.

(** What a flush of a table writes. *)
Lemma flush_vec w : wscript (writer w) = [] -> output w = [] -> output_position w = 0 -> input w ≠ [] ->
  flush w = match metadata_block (level w) (input w) with
            | Ok enc => (mkWriter (mkSink (sunk (writer w) ++ enc) []) [] [] 0 (level w), Ready tt)
            | Err e => (w, Fail e)
            end.
Proof.
  destruct w as [[sk sc] c o op lv]. cbn [writer wscript output output_position input level sunk]. intros -> -> -> Hne.
  unfold flush, m_bind, prepare_block.
  cbn [output input level is_empty]. destruct (is_empty c) eqn:Ec; [by apply is_empty_true in Ec|]. cbn [andb negb].
  unfold metadata_block. destruct (encode_block c lv) as [e|e]; [|done]. cbn [result_bind app].
  set (enc := to_le_bytes u16 _ ++ eb_bytes e).
  assert (enc ≠ []) as Henc by (intros E; apply (f_equal length) in E; unfold enc in E; rewrite length_app, to_le_bytes_length in E; simpl in E; lia).
  cbn [writer wscript length Nat.add rounds]. unfold m_bind, flush_round, m_bind, retry_interrupted. cbn [output].
  destruct (is_empty enc) eqn:Ee; [by apply is_empty_true in Ee|].
  unfold pending_output. cbn [output_position output]. cbn [Nat.leb fst snd].
  unfold with_writer, sink_write, blocking, sink_poll_write. cbn [writer wscript sunk app drop].
  unfold advance_output. destruct (Nat.eqb_spec (length enc) 0) as [E|_]; [by apply nil_length_inv in E|].
  cbn [output_position output Nat.add]. rewrite Nat.eqb_refl. cbn. done.
Qed.

Lemma table_idle w blocks : table_ok w blocks -> output w = [] /\ output_position w = 0 /\ wscript (writer w) = [] /\
  length (input w) <= METADATA_SIZE /\ stream (level w) blocks (sunk (writer w)).
Proof.
  intros ([Hs Hi Ho] & Hsc & Hout). rewrite Hout, drop_nil, app_nil_r in Hs.
  destruct Ho as [[_ Ho]|[Ho _]]; [done|]. rewrite Hout in Ho. simpl in Ho. lia.
Qed.

Lemma idle_table w blocks : output w = [] -> output_position w = 0 -> wscript (writer w) = [] ->
  length (input w) <= METADATA_SIZE -> stream (level w) blocks (sunk (writer w)) -> table_ok w blocks.
Proof.
  intros Ho Hp Hsc Hi Hs. split; [|done]. split; [by rewrite Ho, drop_nil, app_nil_r|done|by left].
Qed.

Lemma flush_idle w : wscript (writer w) = [] -> output w = [] -> input w = [] -> flush w = (w, Ready tt).
Proof. destruct w as [[sk sc] c o op lv]. cbn [writer wscript output input]. intros -> -> ->. done. Qed.

(** The state after a flush of what there is. *)
Lemma flush_table w blocks : table_ok w blocks -> input w ≠ [] ->
  post flush w (fun w' r =>
    match r with
    | Ready _ => level w' = level w /\ input w' = [] /\ table_ok w' (blocks ++ [input w])
    | Fail e => compressor_error (level w) e
    | _ => False
    end).
Proof.
  intros Hok Hne. destruct (table_idle w blocks Hok) as (Ho & Hp & Hsc & Hi & Hs).
  unfold post. rewrite flush_vec by done. unfold metadata_block. destruct (encode_block _ _) as [e|e] eqn:Ee; simpl.
  - split; [done|]. split; [done|]. apply idle_table; try done; [simpl; lia|]. simpl.
    apply (stream_snoc (level w) blocks _ (input w)); try done. unfold metadata_block. by rewrite Ee.
  - unfold encode_block in Ee. destruct (compress _ _) as [|code] eqn:Ec; [done|]. injection Ee as <-. by exists (input w), code.
Qed.

(** A call on a table that takes [add]. *)
Definition full_post (w : MetadataBlocksWriter) blocks (add : bytes) {A} (w' : MetadataBlocksWriter) (r : res A) : Prop :=
  match r with
  | Ready _ => level w' = level w /\ exists more, table_full w' (blocks ++ more) /\
      taken w' (blocks ++ more) = taken w blocks ++ add
  | Fail e => compressor_error (level w) e
  | _ => False
  end.

Lemma full_post_trans {A B} w blocks add w1 (r1 : res A) more1 add' w2 (r2 : res B) :
  level w1 = level w -> taken w1 (blocks ++ more1) = taken w blocks ++ add ->
  full_post w1 (blocks ++ more1) add' w2 r2 -> full_post w blocks (add ++ add') w2 r2.
Proof.
  intros Hl Ht. destruct r2; simpl; rewrite ?Hl; [|done..]. intros (Hl2 & more & Hf & Ht2). split; [done|].
  exists (more1 ++ more). rewrite !app_assoc. split; [done|]. by rewrite Ht2, Ht.
Qed.

(** A flush of a full block. *)
Lemma flush_full_block w blocks : table_full w blocks -> length (input w) = METADATA_SIZE ->
  post flush w (fun w' r => full_post w blocks [] w' r /\ (r = Ready tt -> input w' = [])).
Proof.
  intros [Hok HF] Hfull. assert (input w ≠ []) as Hne by (intros E; rewrite E in Hfull; unfold METADATA_SIZE in Hfull; simpl in Hfull; lia).
  eapply post_mono; [by apply (flush_table w blocks)|]. intros w' [[]|e| |]; try done. intros (Hl & Hi & Hok').
  split; [|done]. split; [done|]. exists [input w]. split.
  - split; [done|]. apply Forall_app. split; [done|]. by repeat constructor.
  - unfold taken. rewrite Hi, concat_app. cbn [concat]. by rewrite !app_nil_r.
Qed.

Lemma accept_full w blocks bs : table_full w blocks -> length (input w) < METADATA_SIZE -> bs ≠ [] ->
  post (accept bs) w (fun w' r => exists k, r = Ready (S k) /\ S k <= length bs /\
    full_post w blocks (take (S k) bs) w' r).
Proof.
  intros [Hok HF] Hlt Hne. destruct (table_idle w blocks Hok) as (Ho & Hp & Hsc & Hi & Hs).
  assert (0 < length bs) by (destruct bs; [done|simpl; lia]).
  unfold post, accept. destruct (Nat.ltb_spec METADATA_SIZE (length (input w))); [lia|]. cbn [fst snd].
  destruct (length bs `min` (METADATA_SIZE - length (input w))) as [|k] eqn:Ek; [lia|].
  exists k. split; [done|]. split; [lia|]. split; [done|]. exists []. rewrite app_nil_r. split.
  - split; [|done]. apply idle_table; try done. cbn [input]. rewrite length_app, length_take. lia.
  - unfold taken. cbn [input]. by rewrite app_assoc.
Qed.

Lemma write_full w blocks bs : table_full w blocks -> bs ≠ [] ->
  post (write bs) w (fun w' r =>
    match r with
    | Ready k => 0 < k <= length bs /\ full_post w blocks (take k bs) w' r
    | _ => full_post w blocks [] w' r
    end).
Proof.
  intros Hf Hne. pose proof Hf as [Hok HF]. destruct (table_idle w blocks Hok) as (Ho & Hp & Hsc & Hi & Hs).
  unfold post, write. destruct (is_empty bs) eqn:Eb; [by apply is_empty_true in Eb|]. rewrite Ho. cbn [is_empty negb].
  rewrite orb_false_r. fold_post w. apply post_bind.
  destruct (Nat.eqb_spec (length (input w)) METADATA_SIZE) as [E|E].
  - eapply post_mono; [by apply (flush_full_block w blocks)|]. intros w1 [[]|e| |] [Hp1 Hi1]; try done; cbn [and_then].
    destruct Hp1 as (Hl1 & more & Hf1 & Ht1). rewrite app_nil_r in Ht1.
    eapply post_mono; [apply (accept_full w1 (blocks ++ more) bs Hf1); [|done]|].
    { rewrite Hi1 by done. unfold METADATA_SIZE. simpl. lia. }
    intros w2 r (k & -> & Hk & Hpost). split; [lia|].
    apply (full_post_trans w blocks [] w1 (Ready tt) more (take (S k) bs) w2 (Ready (S k))); [done|by rewrite app_nil_r|done].
  - apply post_ret. cbn [and_then]. eapply post_mono; [apply (accept_full w blocks bs Hf); [lia|done]|].
    intros w2 r (k & -> & Hk & Hpost). split; [lia|done].
Qed.

Lemma write_all_full buf w blocks : table_full w blocks -> post (write_all buf) w (full_post w blocks buf).
Proof.
  intros Hf. unfold post, write_all. destruct (table_idle w blocks (proj1 Hf)) as (_ & _ & -> & _).
  assert (length buf < 1 + length buf + length (@nil response)) as Hfuel by (simpl; lia). revert Hfuel.
  generalize (1 + length buf + length (@nil response)). intros n Hfuel.
  change (post (write_all_loop n buf) w (full_post w blocks buf)).
  revert buf w blocks Hf Hfuel. induction n as [|n IH]; intros buf w blocks Hf Hn; [lia|]. cbn [write_all_loop].
  destruct (is_empty buf) eqn:Eb.
  { apply is_empty_true in Eb as ->. apply post_ret. split; [done|]. exists []. by rewrite !app_nil_r. }
  apply is_empty_false in Eb. apply post_bind, post_retry. eapply post_mono; [by apply (write_full w blocks buf)|].
  intros w1 [k|e| |]; [|..|done].
  - intros (Hk & Hl1 & more & Hf1 & Ht1). simpl. destruct k as [|k]; [lia|].
    eapply post_mono; [apply (IH (drop (S k) buf) w1 (blocks ++ more) Hf1); rewrite length_drop; lia|].
    intros w2 r2 Hp2. apply (full_post_trans w blocks (take (S k) buf) w1 (Ready tt) more) in Hp2; [|done..].
    by rewrite take_drop in Hp2.
  - intros He. pose proof He as (c & code & _ & ->). done.
  - done.
Qed.

Lemma reference_full w blocks : table_full w blocks ->
  post MetadataTable_reference w (fun w' r =>
    match r with
    | Ready ref => full_post w blocks [] w' r /\ length (input w') < METADATA_SIZE /\
        ref = (Z.of_nat (length (sunk (writer w'))) * 2 ^ 16 + Z.of_nat (length (input w')))%Z /\
        (Z.of_nat (length (sunk (writer w'))) < 2 ^ 32)%Z
    | Fail e => compressor_error (level w) e \/ e = InvalidData $"SquashFS metadata table exceeds 4 GiB"
    | _ => False
    end).
Proof.
  intros Hf. pose proof Hf as [Hok HF]. destruct (table_idle w blocks Hok) as (Ho & Hp & Hsc & Hi & Hs). apply post_bind.
  assert (post flush_full w (fun w' r => full_post w blocks [] w' r /\
            (r = Ready tt -> length (input w') < METADATA_SIZE))) as Hff.
  { unfold post, flush_full. destruct (Nat.eqb_spec (length (input w)) METADATA_SIZE) as [He|He].
    - pose proof (flush_full_block w blocks Hf He) as [H1 H2]. split; [done|]. intros Hr. rewrite H2 by done.
      unfold METADATA_SIZE. simpl. lia.
    - split; [|intros _; simpl; lia]. split; [done|]. exists []. by rewrite !app_nil_r. }
  eapply post_mono; [exact Hff|]. intros w1 [[]|e| |] [Hp1 Hi1]; simpl; try done; [|by left].
  specialize (Hi1 eq_refl). unfold post, table_position.
  destruct (in_range u32 _) eqn:Er; simpl in Er |- *; [|by right]. split; [done|]. split; [done|].
  unfold in_range in Er. unfold METADATA_SIZE in *. rewrite lor_shiftl_add; [split; [done|lia]|lia|]. lia.
Qed.

(** The calls of a table between its creation and its end: writes and references. *)
Inductive table_calls : MetadataBlocksWriter -> bytes -> MetadataBlocksWriter -> Prop :=
| calls_nil w : table_calls w [] w
| calls_write w buf w1 add w2 : write_all buf w = (w1, Ready tt) -> table_calls w1 add w2 -> table_calls w (buf ++ add) w2
| calls_reference w ref w1 add w2 : MetadataTable_reference w = (w1, Ready ref) -> table_calls w1 add w2 ->
    table_calls w add w2.

Lemma table_calls_full w add w' blocks : table_calls w add w' -> table_full w blocks ->
  level w' = level w /\ exists more, table_full w' (blocks ++ more) /\ taken w' (blocks ++ more) = taken w blocks ++ add.
Proof.
  intros Hc. revert blocks. induction Hc as [w|w buf w1 add w2 E Hc IH|w ref w1 add w2 E Hc IH]; intros blocks Hf.
  - split; [done|]. exists []. by rewrite !app_nil_r.
  - apply (post_run _ _ _ _ _ (write_all_full buf w blocks Hf)) in E as (Hl & more & Hf1 & Ht1).
    destruct (IH _ Hf1) as (Hl2 & more2 & Hf2 & Ht2). split; [congruence|]. exists (more ++ more2). rewrite !app_assoc.
    split; [done|]. by rewrite Ht2, Ht1.
  - apply (post_run _ _ _ _ _ (reference_full w blocks Hf)) in E as ((Hl & more & Hf1 & Ht1) & _).
    destruct (IH _ Hf1) as (Hl2 & more2 & Hf2 & Ht2). split; [congruence|]. exists (more ++ more2). rewrite !app_assoc.
    split; [done|]. by rewrite Ht2, Ht1, app_nil_r.
Qed.

Lemma table_calls_app w a w1 c w2 : table_calls w a w1 -> table_calls w1 c w2 -> table_calls w (a ++ c) w2.
Proof.
  induction 1; intros H2; [done| |].
  - rewrite <- app_assoc. by eapply calls_write; eauto.
  - by eapply calls_reference; eauto.
Qed.

Lemma new_table_full lv : table_full (MetadataTable_new lv) [].
Proof. split; [apply new_table_ok|constructor]. Qed.
End full.

Section written.
Context `{ZS : Zstd} `{!ZstdOk ZS}.

(** From the position [pos] on [m] writes bytes and gives a result that are in [P], or fails. *)
Definition appends {A} (pos : nat) (m : M Sink A) (P : bytes -> A -> Prop) : Prop := forall s,
  length (sunk s) = pos ->
  post m s (fun s' r =>
    match r with
    | Ready x => exists bs, sunk s' = sunk s ++ bs /\ P bs x
    | Fail _ => True
    | _ => False
    end).

Lemma appends_bind {A B} pos (m : M Sink A) (f : A -> M Sink B) P Q : appends pos m P ->
  (forall bs x, P bs x -> appends (pos + length bs) (f x) (fun bs' y => Q (bs ++ bs') y)) ->
  appends pos (m_bind m f) Q.
Proof.
  intros Hm Hf s Hs. apply post_bind. eapply post_mono; [by apply Hm|]. intros s1 [x|e| |]; try done.
  intros (bs & Hs1 & HP). cbn [and_then]. eapply post_mono; [apply (Hf bs x HP); by rewrite Hs1, length_app, Hs|].
  intros s2 [y|e| |]; try done. intros (bs' & Hs2 & HQ). exists (bs ++ bs'). by rewrite Hs2, Hs1, app_assoc.
Qed.

Lemma appends_ret {A} pos (x : A) (P : bytes -> A -> Prop) : P [] x -> appends pos (m_ret x) P.
Proof. intros HP s _. apply post_ret. exists []. by rewrite app_nil_r. Qed.

Lemma appends_mono {A} pos (m : M Sink A) (P Q : bytes -> A -> Prop) : appends pos m P ->
  (forall bs x, P bs x -> Q bs x) -> appends pos m Q.
Proof.
  intros Hm HPQ s Hs. eapply post_mono; [by apply Hm|]. intros s' [x|e| |]; try done.
  intros (bs & ? & ?). exists bs. auto.
Qed.

Lemma appends_lift {A} pos (r : io A) : appends pos (lift_io r) (fun bs x => bs = [] /\ r = Ok x).
Proof. intros s _. unfold post, lift_io. destruct r as [x|e]; simpl; [|done]. exists []. by rewrite app_nil_r. Qed.

Lemma appends_position pos : appends pos get_position (fun bs x => bs = [] /\ x = Z.of_nat pos).
Proof.
  intros s Hs. unfold post, get_position, position_of. simpl. exists []. by rewrite app_nil_r, Hs.
Qed.

Lemma appends_out pos bs : appends pos (write_out bs) (fun w _ => w = bs).
Proof.
  intros s _. eapply post_mono; [apply (write_out_spec 0)|]. intros s' [[]|e| |] [_ Hr]; try done. by exists bs.
Qed.

Lemma appends_run {R A} pos (m : M R A) (r : R) (P : A * R -> Prop) :
  post m r (fun r' x => match x with Ready v => P (v, r') | Fail _ => True | _ => False end) ->
  appends pos (run m r) (fun bs x => bs = [] /\ P x).
Proof.
  intros Hm s _. unfold post, run in *. destruct (m r) as [r' []]; simpl in *; try done.
  exists []. by rewrite app_nil_r.
Qed.

Variable lv : Z.

(** A metadata table in the state [w], finished: its blocks and one more of what is left. *)
Definition finished (w : MetadataBlocksWriter) (had blocks : list bytes) (bs : bytes) : Prop :=
  stream lv blocks bs /\ blocks = had ++ (if is_empty (input w) then [] else [input w]).

Lemma finished_content w had blocks bs : finished w had blocks bs -> concat blocks = taken w had.
Proof.
  intros [_ ->]. rewrite concat_app. unfold taken. f_equal. destruct (is_empty (input w)) eqn:E.
  - by apply is_empty_true in E as ->.
  - cbn [concat]. by rewrite app_nil_r.
Qed.

Lemma finish_spec w had : table_ok w had -> level w = lv ->
  post MetadataTable_finish w (fun _ r =>
    match r with
    | Ready bs => exists blocks, finished w had blocks bs
    | Fail _ => True
    | _ => False
    end).
Proof.
  intros Hok Hlv. destruct (table_idle w had Hok) as (Ho & Hp & Hsc & Hi & Hs). rewrite Hlv in Hs. apply post_bind.
  unfold finished. destruct (is_empty (input w)) eqn:E.
  - apply is_empty_true in E. unfold post at 1. rewrite flush_idle by done. cbn [fst snd and_then]. unfold post, table_bytes. simpl.
    exists had. by rewrite app_nil_r.
  - apply is_empty_false in E. eapply post_mono; [by apply (flush_table w had)|]. intros w1 [[]|e| |]; try done; cbn [and_then].
    intros (Hl & Hi1 & Hok1). destruct (table_idle w1 _ Hok1) as (_ & _ & _ & _ & Hs1). rewrite Hl, Hlv in Hs1.
    unfold post, table_bytes. cbn [fst snd]. by exists (had ++ [input w]).
Qed.

Lemma write_table_finished pos w had : table_ok w had -> level w = lv ->
  appends pos (write_table w) (fun bs _ => exists blocks, finished w had blocks bs).
Proof.
  intros Hok Hlv. eapply appends_bind.
  { apply appends_run with (P := fun x => exists blocks, finished w had blocks x.1).
    eapply post_mono; [by apply (finish_spec w had)|]. intros w' [bs|e| |]; try done. }
  intros bs [x w'] [-> Hx]. eapply appends_mono; [apply appends_out|]. by intros bs [] ->.
Qed.

(** One chunk in a table of its own is one block. *)
Lemma one_block c : c ≠ [] -> length c <= METADATA_SIZE ->
  post (write_all c ;> MetadataTable_finish) (MetadataTable_new lv) (fun _ r =>
    match r with Ready bs => metadata_block lv c = Ok bs | Fail _ => True | _ => False end).
Proof.
  intros Hne Hl. apply post_bind.
  assert (write_all c (MetadataTable_new lv) = (mkWriter (mkSink [] []) c [] 0 lv, Ready tt)) as Hw.
  { unfold write_all. simpl wscript. rewrite Nat.add_0_r.
    destruct c as [|x c]; [done|]. cbn [Nat.add length write_all_loop is_empty].
    unfold m_bind, retry_interrupted, write. cbn [is_empty MetadataTable_new MetadataBlocksWriter_with_level input output].
    unfold m_bind at 1. change (length (@nil byte) =? METADATA_SIZE) with false. cbn [orb negb m_ret].
    unfold accept. change (METADATA_SIZE <? length (@nil byte)) with false. cbn [input].
    rewrite Nat.min_l by (simpl length at 2; lia). rewrite firstn_all. cbn [length].
    change (METADATA_SIZE <? length (input (MetadataTable_new lv))) with false. cbv beta iota zeta.
    rewrite drop_ge by (simpl; lia). reflexivity. }
  unfold post at 1. rewrite Hw. cbn [fst snd and_then]. unfold post, MetadataTable_finish, m_bind.
  rewrite flush_vec by done. cbn [level input]. destruct (metadata_block lv c); done.
Qed.

Lemma chunked_pieces n cs : 0 < n -> chunked n cs -> Forall (fun c => c ≠ [] /\ length c <= n) cs.
Proof.
  intros Hn. induction 1 as [|c Hc|c cs Hc Hcs IH]; constructor; try done.
  - split; [intros ->; simpl in Hc; lia|lia].
  - split; [intros ->; simpl in Hc; lia|lia].
Qed.

Lemma table_blocks_loop_spec cs : chunked METADATA_SIZE cs -> forall pos,
  appends pos (table_blocks_loop lv cs) (fun bs ptrs => stream lv cs bs /\
    forall logical, ptrs = map fst (block_map lv (Z.of_nat pos) logical cs)).
Proof.
  intros Hch. apply chunked_pieces in Hch as HF; [|unfold METADATA_SIZE; lia].
  clear Hch. induction HF as [|c cs [Hne Hl] _ IH]; intros pos; cbn [table_blocks_loop].
  { apply appends_ret. split; [constructor|done]. }
  eapply appends_bind; [apply appends_position|]. intros bs0 p [-> ->]. cbn [length]. rewrite Nat.add_0_r.
  eapply appends_bind.
  { apply (appends_run pos _ _ (fun x => metadata_block lv c = Ok x.1)).
    eapply post_mono; [by apply one_block|]. by intros w [bs|e| |]. }
  intros bs0 [enc w] [-> He]. simpl in He. cbn [length app]. rewrite Nat.add_0_r.
  eapply appends_bind; [apply appends_out|]. intros bs0 [] ->.
  eapply appends_bind; [apply IH|]. intros bs ptrs [Hs Hp]. apply appends_ret. rewrite app_nil_r. split; [by constructor|].
  intros logical. cbn [block_map]. rewrite He. cbn [map fst]. f_equal.
  rewrite (Hp (logical + Z.of_nat (length c))%Z). by rewrite Nat2Z.inj_add.
Qed.

Lemma write_pointers_spec pointers : forall pos, appends pos (write_pointers pointers) (fun bs _ => bs = pointer_bytes pointers).
Proof.
  induction pointers as [|p ps IH]; intros pos; cbn [write_pointers].
  - by apply appends_ret.
  - eapply appends_bind; [apply appends_out|]. intros bs [] ->. eapply appends_mono; [apply IH|]. by intros bs [] ->.
Qed.

Lemma table_index_spec pos pointers :
  appends pos (table_index pointers) (fun bs x => bs = pointer_bytes pointers /\ x = Z.of_nat pos).
Proof.
  eapply appends_bind; [apply appends_position|]. intros bs0 p [-> ->]. cbn [length]. rewrite Nat.add_0_r.
  eapply appends_bind; [apply write_pointers_spec|]. intros bs [] ->. apply appends_ret. by rewrite app_nil_r.
Qed.

(** An indexed table of [bs] that was written at [p] as [table], with its index at [index]. *)
Definition indexed_at (p : nat) (table bs : bytes) (index : Z) : Prop :=
  bs = [] /\ table = [] /\ index = INVALID_TABLE \/
  exists cs blocks, cs ≠ [] /\ stream lv cs blocks /\ chunked METADATA_SIZE cs /\ concat cs = bs /\
    table = blocks ++ pointer_bytes (map fst (block_map lv (Z.of_nat p) 0 cs)) /\
    index = Z.of_nat (p + length blocks).

Lemma chunks_nonempty bs : bs ≠ [] -> chunks METADATA_SIZE bs ≠ [].
Proof. intros Hne E. apply Hne. rewrite <- (proj1 (chunks_spec METADATA_SIZE bs ltac:(unfold METADATA_SIZE; lia))), E. done. Qed.

Lemma indexed_table_spec pos bs : appends pos (indexed_table bs lv) (fun table index => indexed_at pos table bs index).
Proof.
  unfold indexed_table. destruct (is_empty bs) eqn:E.
  { apply is_empty_true in E. apply appends_ret. by left. }
  apply is_empty_false in E. destruct (chunks_spec METADATA_SIZE bs) as [Hc Hch]; [unfold METADATA_SIZE; lia|].
  eapply appends_bind; [by apply table_blocks_loop_spec|]. intros blocks ptrs [Hs Hp].
  eapply appends_mono; [apply table_index_spec|]. intros tb index [-> ->]. right.
  exists (chunks METADATA_SIZE bs), blocks. rewrite (Hp 0%Z). split; [by apply chunks_nonempty|]. done.
Qed.

(** ** The tables of an image *)

(** The xattrs, their ids and the header before the index, from [p] on. *)
Definition xattrs_at (p : nat) (tables : InodeTables) (had : list bytes) (bs : bytes) (table : Z) (blocks : list bytes) : Prop :=
  xattr_ids tables = [] /\ bs = [] /\ table = INVALID_TABLE \/
  xattr_ids tables ≠ [] /\ exists xb cs sb, finished (xattrs tables) had blocks xb /\ cs ≠ [] /\
    stream lv cs sb /\ chunked METADATA_SIZE cs /\ concat cs = concat (map serialize (xattr_ids tables)) /\
    in_range u32 (Z.of_nat (length (xattr_ids tables))) = true /\
    bs = xb ++ sb ++ serialize (mkXattrTable (Z.of_nat p) (Z.of_nat (length (xattr_ids tables))) 0) ++
         pointer_bytes (map fst (block_map lv (Z.of_nat (p + length xb)) 0 cs)) /\
    table = Z.of_nat (p + length xb + length sb).

Record parts : Type := mkParts {
  p_inodes : bytes;
  p_directories : bytes;
  p_fragments : bytes;
  p_exports : bytes;
  p_ids : bytes;
  p_xattrs : bytes;
  p_padding : bytes;
  p_inode_blocks : list bytes;
  p_directory_blocks : list bytes;
  p_xattr_blocks : list bytes;
}.

Definition parts_bytes (x : parts) : bytes :=
  p_inodes x ++ p_directories x ++ p_fragments x ++ p_exports x ++ p_ids x ++ p_xattrs x ++ p_padding x.

(** The blocks that the tables have before they are finished. *)
Record had_blocks : Type := mkHad { had_inodes : list bytes; had_directories : list bytes; had_xattrs : list bytes }.

Definition tables_ok (tables : InodeTables) (had : had_blocks) : Prop :=
  (table_full (inodes tables) (had_inodes had) /\ level (inodes tables) = lv) /\
  (table_full (directories tables) (had_directories had) /\ level (directories tables) = lv) /\
  (table_full (xattrs tables) (had_xattrs had) /\ level (xattrs tables) = lv).

(** What [write_tables] writes from [pos] on, and the superblock it gives. *)
Record tables_at (o : Options) (pos nodes : nat) (frags : list Fragment) (tables : InodeTables) (had : had_blocks)
    (x : parts) (sb : Superblock) : Prop := {
  ta_inodes : finished (inodes tables) (had_inodes had) (p_inode_blocks x) (p_inodes x);
  ta_directories : finished (directories tables) (had_directories had) (p_directory_blocks x) (p_directories x);
  ta_inode_table : inode_table sb = Z.of_nat pos;
  ta_directory_table : directory_table sb = Z.of_nat (pos + length (p_inodes x));
  ta_fragments : indexed_at (pos + length (p_inodes x) + length (p_directories x)) (p_fragments x)
    (concat (map serialize frags)) (fragment_table sb);
  ta_exports : indexed_at (pos + length (p_inodes x) + length (p_directories x) + length (p_fragments x)) (p_exports x)
    (concat (map (to_le_bytes u64) (references tables))) (export_table sb);
  ta_ids : indexed_at (pos + length (p_inodes x) + length (p_directories x) + length (p_fragments x) + length (p_exports x))
    (p_ids x) (concat (map (to_le_bytes u32) (ids tables))) (id_table sb);
  ta_xattrs : xattrs_at (pos + length (p_inodes x) + length (p_directories x) + length (p_fragments x) + length (p_exports x)
    + length (p_ids x)) tables (had_xattrs had) (p_xattrs x) (xattr_id_table sb) (p_xattr_blocks x);
  ta_used : bytes_used sb = Z.of_nat (pos + length (p_inodes x) + length (p_directories x) + length (p_fragments x)
    + length (p_exports x) + length (p_ids x) + length (p_xattrs x));
  ta_counts : inode_count sb = (Z.of_nat nodes `mod` 2 ^ 32)%Z /\
    fragment_count sb = Z.of_nat (length frags) /\ in_range u32 (fragment_count sb) = true /\
    id_count sb = Z.of_nat (length (ids tables)) /\ in_range u16 (id_count sb) = true;
  ta_root : references tables !! 0 = Some (root_inode sb);
  ta_new : exists new, Superblock_new (o_block_size o) (o_modification_time o) = Done new /\
    magic sb = magic new /\ sb_modification_time sb = sb_modification_time new /\ block_size sb = block_size new /\
    compression sb = compression new /\ block_log sb = block_log new /\ version_major sb = version_major new /\
    version_minor sb = version_minor new;
  ta_flags : exists more, (more = 0%Z \/ more = NO_XATTRS) /\ flags sb = Z.lor (Z.lor (Z.lor EXPORTABLE ALWAYS_FRAGMENTS) more) (if deduplicate o then DEDUPLICATED else 0);
}.

Lemma write_xattrs_spec pos tables had : table_ok (xattrs tables) had -> level (xattrs tables) = lv ->
  xattr_ids tables ≠ [] ->
  appends pos (write_xattrs tables lv) (fun bs table => exists blocks, xattrs_at pos tables had bs table blocks).
Proof.
  intros Hok Hlv Hne. unfold write_xattrs.
  eapply appends_bind; [apply appends_position|]. intros bs0 p [-> ->]. cbn [length]. rewrite Nat.add_0_r.
  eapply appends_bind; [by apply write_table_finished|]. intros xb _ [blocks Hfin].
  set (idb := concat (map serialize (xattr_ids tables))).
  assert (idb ≠ []) as Hidb.
  { unfold idb. destruct (xattr_ids tables) as [|x xs]; [done|]. cbn [map concat]. intros E.
    apply (f_equal length) in E. rewrite length_app, serialize_length in E. simpl in E. lia. }
  destruct (chunks_spec METADATA_SIZE idb) as [Hc Hch]; [unfold METADATA_SIZE; lia|].
  eapply appends_bind; [by apply table_blocks_loop_spec|]. intros sb ptrs [Hs Hp].
  eapply appends_bind; [apply appends_position|]. intros bs0 p [-> ->]. cbn [length app]. rewrite Nat.add_0_r.
  eapply appends_bind; [apply appends_lift|]. intros bs0 count [-> Hcount]. cbn [length app]. rewrite Nat.add_0_r.
  unfold try_into in Hcount. destruct (in_range u32 _) eqn:Er; [|done]. injection Hcount as <-.
  eapply appends_bind; [apply appends_out|]. intros bs0 [] ->.
  eapply appends_bind; [apply table_index_spec|]. intros bs0 i [-> ->]. apply appends_ret. rewrite app_nil_r.
  exists blocks. right. split; [done|]. exists xb, (chunks METADATA_SIZE idb), sb.
  split; [done|]. split; [by apply chunks_nonempty|]. split; [done|]. split; [done|]. split; [done|]. split; [done|].
  rewrite (Hp 0%Z). done.
Qed.
End written.

Section write_tables.
Context `{ZS : Zstd} `{!ZstdOk ZS}.

Lemma appends_outcome {A} pos (r : outcome A) x : r = Done x -> appends pos (lift_outcome r) (fun bs y => bs = [] /\ y = x).
Proof. intros ->. by apply appends_ret. Qed.

(** The xattrs, when there are any. *)
Lemma xattrs_part_spec pos lv tables had : table_ok (xattrs tables) had -> level (xattrs tables) = lv ->
  appends pos (if is_empty (xattr_ids tables) then m_ret (INVALID_TABLE, NO_XATTRS)
               else let> table := write_xattrs tables lv in m_ret (table, 0%Z))
    (fun bs '(table, more) => (more = 0%Z \/ more = NO_XATTRS) /\ exists blocks, xattrs_at lv pos tables had bs table blocks).
Proof.
  intros Hok Hlv. destruct (is_empty (xattr_ids tables)) eqn:E.
  - apply is_empty_true in E. apply appends_ret. split; [by right|]. exists []. by left.
  - apply is_empty_false in E. eapply appends_bind; [by apply write_xattrs_spec|]. intros bs table Hx.
    apply appends_ret. rewrite app_nil_r. split; [by left|done].
Qed.

Lemma write_tables_spec o pos nodes frags tables had : validate_block_size (o_block_size o) = Ok tt ->
  tables_ok (compression_level o) tables had -> references tables ≠ [] ->
  appends pos (write_tables o nodes frags tables) (fun bs '(sb, stop) =>
    exists x, bs = parts_bytes x /\ stop = Z.of_nat (pos + length bs) /\
      tables_at (compression_level o) o pos nodes frags tables had x sb).
Proof.
  intros Hv (([Hi _] & Hil) & ([Hd _] & Hdl) & ([Hx _] & Hxl)) Hrefs. unfold write_tables.
  assert (exists new, Superblock_new (o_block_size o) (o_modification_time o) = Done new) as [new Hnew].
  { unfold Superblock_new. apply validate_block_size_spec in Hv as (k & Hk & Hbs). unfold ilog2.
    destruct (Z.ltb_spec 0 (o_block_size o)) as [_|Hle]; [by eexists|].
    pose proof (Z.pow_pos_nonneg 2 k). lia. }
  destruct (references tables) as [|r0 refs] eqn:Er; [done|].
  eapply appends_bind; [by apply (appends_outcome _ _ new)|]. intros bs0 new' [-> ->].
  eapply appends_bind; [by apply (appends_outcome _ _ r0)|]. intros bs0 root [-> ->].
  eapply appends_bind; [apply appends_position|]. intros bs0 p [-> ->]. cbn [length app]. rewrite !Nat.add_0_r.
  eapply appends_bind; [by apply (write_table_finished (compression_level o) _ _ (had_inodes had))|]. intros ib _ [ibl Hib].
  eapply appends_bind; [apply appends_position|]. intros bs0 p [-> ->]. cbn [length app]. rewrite !Nat.add_0_r.
  eapply appends_bind; [by apply (write_table_finished (compression_level o) _ _ (had_directories had))|]. intros db _ [dbl Hdb].
  eapply appends_bind; [apply appends_lift|]. intros bs0 fc [-> Hfc]. cbn [length app]. rewrite !Nat.add_0_r.
  unfold try_into in Hfc. destruct (in_range u32 _) eqn:Efc; [|done]. injection Hfc as <-.
  eapply appends_bind; [apply indexed_table_spec|]. intros ft ftable Hft.
  eapply appends_bind; [apply indexed_table_spec|]. intros et etable Het.
  eapply appends_bind; [apply appends_lift|]. intros bs0 ic [-> Hic]. cbn [length app]. rewrite !Nat.add_0_r.
  unfold try_into in Hic. destruct (in_range u16 _) eqn:Eic; [|done]. injection Hic as <-.
  eapply appends_bind; [apply indexed_table_spec|]. intros it itable Hit.
  eapply appends_bind; [by apply (xattrs_part_spec _ _ _ (had_xattrs had))|]. intros xt [xtable more] (Hmore & xbl & Hxt).
  eapply appends_bind; [apply appends_position|]. intros bs0 used [-> ->]. cbn [length app]. rewrite !Nat.add_0_r.
  eapply appends_bind; [apply appends_out|]. intros pad [] Hpad.
  eapply appends_bind; [apply appends_position|]. intros bs0 stop [-> ->]. cbn [length app]. rewrite !Nat.add_0_r.
  apply appends_ret. rewrite app_nil_r.
  exists (mkParts ib db ft et it xt pad ibl dbl xbl). unfold parts_bytes.
  cbn [p_inodes p_directories p_fragments p_exports p_ids p_xattrs p_padding].
  split; [done|]. split; [rewrite !length_app; f_equal; lia|].
  split; cbn [p_inodes p_directories p_fragments p_exports p_ids p_xattrs p_padding p_inode_blocks p_directory_blocks
              p_xattr_blocks inode_table directory_table fragment_table export_table id_table xattr_id_table bytes_used
              inode_count fragment_count id_count root_inode magic sb_modification_time block_size compression block_log
              version_major version_minor flags]; try done.
  - by rewrite Er.
  - by rewrite Er.
  - by exists new.
  - exists more. split; [done|]. f_equal. f_equal. unfold Superblock_new in Hnew. destruct (ilog2 _); [|done]. simpl in Hnew. by injection Hnew as <-.
Qed.
End write_tables.

(** ** Values in tables *)

Lemma chunks_concat n cs : 0 < n -> Forall (fun c => length c = n) cs -> chunks n (concat cs) = cs.
Proof.
  intros Hn HF. unfold chunks. assert (forall fuel, length (concat cs) <= fuel -> chunks_loop fuel n (concat cs) = cs) as H;
    [|by apply H].
  induction HF as [|c cs Hc _ IH]; intros [|fuel] Hf; cbn [concat] in *; try done.
  { rewrite length_app in Hf. lia. }
  cbn [chunks_loop]. rewrite length_app in Hf. destruct (is_empty (c ++ concat cs)) eqn:E.
  { apply is_empty_true, (f_equal length) in E. rewrite length_app in E. simpl in E. lia. }
  replace (take n (c ++ concat cs)) with c by (rewrite <- Hc; by rewrite take_app_length).
  replace (drop n (c ++ concat cs)) with (concat cs) by (rewrite <- Hc; by rewrite drop_app_length).
  by rewrite IH by lia.
Qed.

Lemma ints_read t zs : Forall (fun z => in_range t z = true) zs ->
  map (from_le_bytes t) (chunks_exact (size_of t) (concat (map (to_le_bytes t) zs))) = zs.
Proof.
  intros HF. unfold chunks_exact. rewrite chunks_concat.
  - induction HF as [|z zs Hz _ IH]; [done|]. cbn [map List.filter]. rewrite to_le_bytes_length, Nat.eqb_refl. cbn [map].
    by rewrite from_to_le_bytes, IH.
  - by destruct t; simpl; lia.
  - clear HF. induction zs as [|z zs IH]; constructor; [apply to_le_bytes_length|done].
Qed.

Lemma parse_all_spec (T : Type) `{HD : Disk T} (check : T -> io unit) fuel xs : 0 < SIZE T ->
  Forall (fun x => disk_ok x = true /\ check x = Ok tt) xs -> length (concat (map serialize xs)) <= fuel ->
  parse_all fuel check (concat (map serialize xs)) = Ok xs.
Proof.
  intros Hs HF. revert fuel. induction HF as [|x xs [Hx Hc] _ IH]; intros [|fuel] Hf; cbn [map concat parse_all] in *; try done.
  { rewrite length_app, serialize_length in Hf. lia. }
  rewrite length_app, serialize_length in Hf.
  destruct (is_empty _) eqn:E.
  { apply is_empty_true, (f_equal length) in E. rewrite length_app, serialize_length in E. simpl in E. lia. }
  rewrite deserialize_app by done. cbn [result_bind]. rewrite Hc. cbn [result_bind]. rewrite IH by lia. done.
Qed.

Lemma ints_length t zs : length (concat (map (to_le_bytes t) zs)) = size_of t * length zs.
Proof. induction zs as [|z zs IH]; cbn [map concat length]; [lia|]. rewrite length_app, to_le_bytes_length, IH. lia. Qed.

Lemma records_length (T : Type) `{HD : Disk T} (xs : list T) : length (concat (map serialize xs)) = SIZE T * length xs.
Proof. induction xs as [|x xs IH]; cbn [map concat length]; [lia|]. rewrite length_app, serialize_length, IH. lia. Qed.

(** ** Loading *)

Section loading.
Context `{ZS : Zstd} `{!ZstdOk ZS}.
Variables (o : Options) (pos nodes : nat) (frags : list Fragment) (tables : InodeTables) (had : had_blocks)
  (x : parts) (sb : Superblock) (img : bytes) (rep : option Z) (bad : Prop).
Let lv := compression_level o.

(** What the caller of [write_tables] provides. *)
Record inputs_ok : Prop := {
  io_block_size : validate_block_size (o_block_size o) = Ok tt;
  io_time : in_range u32 (o_modification_time o) = true;
  io_nodes : 0 < nodes /\ (Z.of_nat nodes < 2 ^ 32)%Z;
  io_references : length (references tables) = nodes /\ Forall (fun r => in_range u64 r = true) (references tables);
  io_root : (root_inode sb `mod` 2 ^ 16 < 8192)%Z;
  io_ids : ids tables ≠ [] /\ Forall (fun i => in_range u32 i = true) (ids tables);
  io_fragments : Forall (fun f => disk_ok f = true /\ check_fragment sb f = Ok tt) frags;
  io_xattrs : Forall (fun i => disk_ok i = true) (xattr_ids tables);
  io_used : (bytes_used sb < 2 ^ 64)%Z;
}.

Hypothesis Hin : inputs_ok.
Hypothesis Hinodes : taken (inodes tables) (had_inodes had) ≠ [].
Hypothesis Hta : tables_at lv o pos nodes frags tables had x sb.
Hypothesis Hpos : SIZE Superblock <= pos.
Hypothesis Himg : located img pos (parts_bytes x).
Hypothesis Hhead : located img 0 (serialize sb).
Hypothesis Hrep : forall n, rep = Some n -> (bytes_used sb <= n)%Z.

Let p_d : nat := pos + length (p_inodes x).
Let p_f : nat := p_d + length (p_directories x).
Let p_e : nat := p_f + length (p_fragments x).
Let p_i : nat := p_e + length (p_exports x).
Let p_x : nat := p_i + length (p_ids x).
Let p_end : nat := p_x + length (p_xattrs x).

Lemma parts_located : located img pos (p_inodes x) /\ located img p_d (p_directories x) /\
  located img p_f (p_fragments x) /\ located img p_e (p_exports x) /\ located img p_i (p_ids x) /\
  located img p_x (p_xattrs x).
Proof.
  unfold parts_bytes in Himg. pose proof Himg as H. repeat (apply located_app in H as [? H]). done.
Qed.

Lemma used_end : bytes_used sb = Z.of_nat p_end /\ (bytes_used sb <= Z.of_nat (length img))%Z.
Proof.
  assert (bytes_used sb = Z.of_nat p_end) as -> by (rewrite (ta_used _ _ _ _ _ _ _ _ _ Hta); done). split; [done|].
  destruct parts_located as (_ & _ & _ & _ & _ & Hx). apply located_length in Hx. unfold p_end. lia.
Qed.

(** A table of values that is not empty. *)
Lemma indexed_part p table bs index count width : indexed_at lv p table bs index -> bs ≠ [] -> located img p table ->
  p_f <= p -> p + length table <= p_end -> (count * Z.of_nat width)%Z = Z.of_nat (length bs) ->
  (Z.of_nat (length bs) < 2 ^ 64)%Z ->
  (Z.of_nat p < index < Z.of_nat (p + length table))%Z /\
  obtains img rep bad (indexed sb index count width) (fun r => r = (bs, Z.of_nat p)).
Proof.
  intros Hat Hne Hloc Hpf Hpe Hcount H64. destruct used_end as [Hu Hul].
  destruct Hat as [(-> & _)|(cs & blocks & Hcs & Hs & Hch & <- & -> & ->)]; [done|].
  assert (length (pointer_bytes (map fst (block_map lv (Z.of_nat p) 0 cs))) = 8 * length cs) as Hpl.
  { rewrite pointer_bytes_length, length_map. by rewrite (block_map_length lv _ _ cs blocks Hs). }
  rewrite length_app, Hpl in *. apply located_app in Hloc as [Hloc Hptr].
  assert (0 < length cs) by (destruct cs; [done|simpl; lia]).
  assert (0 < length blocks).
  { inversion Hs as [|c enc cs' bs' Hc Hl He Hs']; subst; [done|]. rewrite length_app.
    destruct (metadata_block_parts lv c enc Hc Hl He) as (h & body & [-> Hh _ _ _]). rewrite length_app. lia. }
  split; [lia|]. unfold p_f, p_d in *. pose proof (io_used Hin).
  apply (indexed_spec img rep bad sb lv cs blocks p (p + length blocks)); try done; try lia.
  rewrite (ta_directory_table _ _ _ _ _ _ _ _ _ Hta). lia.
Qed.

Lemma ids_loaded : (Z.of_nat p_i < id_table sb < Z.of_nat p_x)%Z /\
  obtains img rep bad (indexed sb (id_table sb) (id_count sb) 4)
    (fun r => r = (concat (map (to_le_bytes u32) (ids tables)), Z.of_nat p_i)).
Proof.
  destruct Hin. destruct (ta_counts _ _ _ _ _ _ _ _ _ Hta) as (_ & _ & _ & Hc & Hr). rewrite Hc in *. unfold in_range in Hr.
  destruct parts_located as (_ & _ & _ & _ & Hloc & _).
  apply (indexed_part p_i (p_ids x)); try done; rewrite ?ints_length; simpl size_of; try lia.
  - apply (ta_ids _ _ _ _ _ _ _ _ _ Hta).
  - intros E. apply (f_equal length) in E. rewrite ints_length in E. destruct io_ids0 as [Hne _].
    destruct (ids tables); [done|simpl in E; lia].
Qed.

Lemma fragments_loaded de : obtains img rep bad (load_fragments sb de)
  (fun r => r = (frags, if is_empty frags then de else Z.min de (Z.of_nat p_f))) /\
  (frags = [] -> p_e = p_f) /\ p_f <= p_e.
Proof.
  destruct Hin. destruct (ta_counts _ _ _ _ _ _ _ _ _ Hta) as (_ & Hc & Hr & _). unfold load_fragments. rewrite Hc in *.
  unfold in_range in Hr. destruct parts_located as (_ & _ & Hloc & _).
  pose proof (ta_fragments _ _ _ _ _ _ _ _ _ Hta) as Hat.
  destruct (is_empty frags) eqn:Ef.
  - apply is_empty_true in Ef. rewrite Ef in *. cbn [length Z.of_nat Z.eqb map concat] in *. split; [by apply obtains_ret|].
    split; [|unfold p_e; lia]. intros _. destruct Hat as [(_ & Hp & _)|(cs & bl & Hne & Hs & Hch & Hcc & _)].
    + unfold p_e, p_f. rewrite Hp. simpl. lia.
    + exfalso. apply chunked_pieces in Hch; [|unfold METADATA_SIZE; lia]. destruct Hch as [|c cs [Hc' _] _]; [done|].
      cbn [concat] in Hcc. by destruct c.
  - apply is_empty_false in Ef. split; [|split; [done|unfold p_e; lia]].
    assert (0 < length frags) by (destruct frags; [done|simpl; lia]).
    destruct (Z.eqb_spec (Z.of_nat (length frags)) 0); [lia|].
    eapply obtains_bind.
    { refine (proj2 (indexed_part p_f (p_fragments x) _ _ _ _ Hat _ Hloc _ _ _ _)); rewrite ?records_length; change (SIZE Fragment) with 16; try lia.
      - intros E. apply (f_equal length) in E. rewrite records_length in E. change (SIZE Fragment) with 16 in E. simpl in E. lia. }
    intros r ->. eapply obtains_bind.
    { apply (obtains_lift _ _ _ _ frags (fun r => r = frags)); [|done]. apply parse_all_spec; [change (SIZE Fragment) with 16; lia|done|lia]. }
    intros r ->. by apply obtains_ret.
Qed.

Lemma exports_loaded de : obtains img rep bad (load_exports sb de)
  (fun r => r = (Some (references tables), Z.min de (Z.of_nat p_e))) /\ (Z.of_nat p_e < export_table sb < Z.of_nat p_i)%Z.
Proof.
  destruct Hin. destruct (ta_counts _ _ _ _ _ _ _ _ _ Hta) as (Hc & _). unfold load_exports. rewrite Hc in *.
  destruct parts_located as (_ & _ & _ & Hloc & _). destruct used_end as [Hu _].
  destruct io_references0 as [Hrl Hrr]. rewrite Z.mod_small by lia.
  destruct (indexed_part p_e (p_exports x) _ (export_table sb) (Z.of_nat nodes) 8 (ta_exports _ _ _ _ _ _ _ _ _ Hta)) as [Hi Hob];
    rewrite ?ints_length; simpl size_of; try done; try (unfold p_end, p_x, p_i, p_e; lia).
  { intros E. apply (f_equal length) in E. rewrite ints_length in E. simpl in E. lia. }
  split; [|done]. unfold INVALID_TABLE. destruct (Z.eqb_spec (export_table sb) (2 ^ 64 - 1)) as [E|E].
  { unfold p_end, p_x, p_i in *. lia. }
  cbn [negb]. eapply obtains_bind; [exact Hob|]. intros r ->. apply obtains_ret.
  change 8 with (size_of u64). by rewrite ints_read.
Qed.

(** The xattrs of an image: none, or their ids and the blocks they are in. *)
Definition xattrs_found (xs : list XattrId) (m : list (Z * Z)) (start stop : Z) : Prop :=
  xs = xattr_ids tables /\
  (xs ≠ [] -> exists p xb, start = Z.of_nat p /\ SIZE Superblock <= p /\ stop = Z.of_nat (p + length xb) /\
     (stop <= bytes_used sb)%Z /\ located img p xb /\ finished lv (xattrs tables) (had_xattrs had) (p_xattr_blocks x) xb /\
     m = block_map lv start 0 (p_xattr_blocks x)).

Lemma xattrs_loaded : obtains img rep bad (load_xattrs sb (Z.of_nat p_f)) (fun '(xs, m, start, stop) => xattrs_found xs m start stop) /\
  (xattr_id_table sb = INVALID_TABLE \/ Z.of_nat p_x < xattr_id_table sb < bytes_used sb)%Z.
Proof.
  destruct Hin. destruct used_end as [Hu _]. destruct parts_located as (_ & _ & _ & _ & _ & Hloc).
  destruct ids_loaded as [Hil _]. unfold load_xattrs.
  destruct (ta_xattrs _ _ _ _ _ _ _ _ _ Hta) as [(Hx & Hb & ->)|(Hx & xb & cs & sbs & Hfin & Hcs & Hs & Hch & Hcc & Hr & Hb & Ht)].
  { split; [|by left]. cbn [Z.eqb Pos.eqb INVALID_TABLE]. rewrite Z.eqb_refl. apply obtains_ret. split; [done|]. by intros. }
  fold p_d p_f p_e p_i p_x in Ht, Hb. set (hdr := mkXattrTable _ _ _) in Hb.
  assert (length (pointer_bytes (map fst (block_map lv (Z.of_nat (p_x + length xb)) 0 cs))) = 8 * length cs) as Hpl.
  { rewrite pointer_bytes_length, length_map. by rewrite (block_map_length lv _ _ cs sbs Hs). }
  assert (length (p_xattrs x) = length xb + length sbs + 16 + 8 * length cs) as Hlen.
  { rewrite Hb, !length_app, serialize_length, Hpl. change (SIZE XattrTable) with 16. lia. }
  assert (0 < length cs) by (destruct cs; [done|simpl; lia]).
  assert (length sbs <> 0) as Hsbs.
  { inversion Hs as [|c enc cs' bs' Hc Hl He Hs']; subst; [done|]. rewrite length_app.
    destruct (metadata_block_parts lv c enc Hc Hl He) as (h & body & [-> Hh _ _ _]). rewrite length_app. lia. }
  rewrite Hb in Hloc. apply located_app in Hloc as [Hxb Hloc]. apply located_app in Hloc as [Hsb Hloc].
  apply located_app in Hloc as [Hhd Hptr]. rewrite serialize_length in Hptr. change (SIZE XattrTable) with 16 in Hptr.
  assert (p_end = p_x + length (p_xattrs x)) as Hend by done.
  split; [|right; rewrite Ht; lia].
  destruct (Z.eqb_spec (xattr_id_table sb) INVALID_TABLE) as [E|_]; [unfold INVALID_TABLE in E; lia|].
  rewrite Ht. eapply obtains_bind.
  { replace (Z.of_nat (SIZE XattrTable)) with (Z.of_nat (length (serialize hdr))) by by rewrite serialize_length.
    apply obtains_fetch; [done|unfold p_x, p_i, p_e, p_f, p_d; lia|]. rewrite serialize_length. change (SIZE XattrTable) with 16. lia. }
  intros src Hsrc. eapply obtains_bind.
  { apply (obtains_disk _ _ _ src XattrTable hdr []); [by rewrite app_nil_r|].
    unfold in_range in Hr. apply andb_true_iff. split; [unfold in_range; cbn [hdr xt_block]; lia|].
    apply andb_true_iff. split; [unfold in_range; cbn; lia|]. done. }
  intros [hdr' src'] [-> _]. cbn [hdr xt_count xt_unused xt_block].
  assert (0 < length (xattr_ids tables)) by (destruct (xattr_ids tables); [done|simpl; lia]).
  destruct (Z.eqb_spec (Z.of_nat (length (xattr_ids tables))) 0); [lia|].
  destruct (Z.leb_spec (Z.of_nat p_x) (Z.of_nat p_f)); [unfold p_x, p_i, p_e in *; lia|]. cbn [Z.eqb negb orb].
  eapply obtains_bind.
  { replace (Z.of_nat (p_x + length xb + length sbs) + Z.of_nat (SIZE XattrTable))%Z
      with (Z.of_nat (p_x + length xb + length sbs + 16)) by (change (SIZE XattrTable) with 16; lia).
    apply (indexed_spec img rep bad sb lv cs sbs (p_x + length xb)); try done; try lia.
    - rewrite (ta_directory_table _ _ _ _ _ _ _ _ _ Hta). unfold p_x, p_i, p_e, p_f, p_d. lia.
    - rewrite Hcc, records_length. lia.
    - rewrite Hcc, records_length. change (SIZE XattrId) with 16. unfold in_range in Hr. lia. }
  intros r ->. pose proof Hfin as [Hxs _]. eapply obtains_bind.
  { apply (boundaries_spec img rep bad sb lv _ xb p_x (p_x + length xb) Hxs); [done|unfold p_x, p_i, p_e, p_f, p_d; lia|done|lia]. }
  intros m ->. eapply obtains_bind.
  { apply (obtains_lift _ _ _ _ (xattr_ids tables) (fun r => r = xattr_ids tables)); [|done]. rewrite Hcc.
    apply parse_all_spec; [change (SIZE XattrId) with 16; lia| |lia]. eapply Forall_impl; [exact io_xattrs0|]. done. }
  intros r ->. apply obtains_ret. split; [done|]. intros _. exists p_x, xb.
  split; [done|]. split; [unfold p_x, p_i, p_e, p_f, p_d; lia|]. split; [done|]. split; [lia|]. done.
Qed.

(** The inode table is not empty. *)
Lemma inodes_present : 0 < length (p_inodes x).
Proof.
  destruct Hin. pose proof (ta_inodes _ _ _ _ _ _ _ _ _ Hta) as Hf. pose proof (finished_content _ _ _ _ _ Hf) as Hc.
  destruct Hf as [Hs _]. inversion Hs as [E1 E2|c enc cs bs Hc' Hl He Hs' E1 E2].
  - rewrite <- E1 in Hc. by rewrite <- Hc in Hinodes.
  - rewrite length_app. destruct (metadata_block_parts lv c enc Hc' Hl He) as (h & body & [-> Hh _ _ _]).
    rewrite length_app. lia.
Qed.

Lemma fragment_table_at : fragment_table sb = INVALID_TABLE /\ frags = [] \/
  (Z.of_nat p_f < fragment_table sb < Z.of_nat p_e)%Z.
Proof.
  destruct Hin. destruct parts_located as (_ & _ & Hloc & _).
  destruct (ta_counts _ _ _ _ _ _ _ _ _ Hta) as (_ & Hc & Hr & _). rewrite Hc in Hr. unfold in_range in Hr.
  pose proof (ta_fragments _ _ _ _ _ _ _ _ _ Hta) as Hat. destruct (decide (frags = [])) as [E|E].
  - left. split; [|done]. destruct Hat as [(_ & _ & ?)|(cs & bl & Hne & Hs & Hch & Hcc & _)]; [done|]. rewrite E in Hcc.
    exfalso. apply chunked_pieces in Hch; [|unfold METADATA_SIZE; lia]. destruct Hch as [|c cs [Hc' _] _]; [done|].
    cbn [map concat] in Hcc. by destruct c.
  - right. assert (0 < length frags) by (destruct frags; [done|simpl; lia]).
    refine (proj1 (indexed_part p_f (p_fragments x) _ _ (Z.of_nat (length frags)) 16 Hat _ Hloc _ _ _ _));
      rewrite ?records_length; change (SIZE Fragment) with 16; try lia.
    intros E'. apply (f_equal length) in E'. rewrite records_length in E'. change (SIZE Fragment) with 16 in E'. simpl in E'. lia.
Qed.

Lemma written_valid : superblock_valid sb /\ disk_ok sb = true.
Proof.
  pose proof inodes_present as Hip. pose proof fragment_table_at as Hft. destruct ids_loaded as [Hids _].
  destruct xattrs_loaded as [_ Hxt]. destruct (exports_loaded 0) as [_ Hex]. destruct used_end as [Hu _].
  destruct Hin. destruct (ta_counts _ _ _ _ _ _ _ _ _ Hta) as (Hc1 & Hc2 & Hc3 & Hc4 & Hc5).
  destruct (ta_new _ _ _ _ _ _ _ _ _ Hta) as (new & Hnew & E1 & E2 & E3 & E4 & E5 & E6 & E7).
  destruct (ta_flags _ _ _ _ _ _ _ _ _ Hta) as (more & Hmore & Hflags).
  pose proof (ta_inode_table _ _ _ _ _ _ _ _ _ Hta) as Hit. pose proof (ta_directory_table _ _ _ _ _ _ _ _ _ Hta) as Hdt.
  pose proof (ta_root _ _ _ _ _ _ _ _ _ Hta) as Hroot.
  apply validate_block_size_spec in io_block_size0 as (k & Hk & Hbs).
  assert (block_size sb = 2 ^ k /\ block_log sb = k)%Z as [Hbk Hlog].
  { unfold Superblock_new, ilog2 in Hnew. destruct (0 <? o_block_size o)%Z eqn:E; [|done]. simpl in Hnew. injection Hnew as <-.
    simpl in E3, E5. rewrite Hbs in E3, E5. rewrite Z.log2_pow2 in E5 by lia. done. }
  assert (magic sb = MAGIC /\ version_major sb = 4 /\ version_minor sb = 0 /\ compression sb = 6 /\
          sb_modification_time sb = o_modification_time o)%Z as (Hm1 & Hm2 & Hm3 & Hm4 & Hm5).
  { unfold Superblock_new in Hnew. destruct (ilog2 _); [|done]. simpl in Hnew. injection Hnew as <-. done. }
  assert (2 ^ k <= 2 ^ 20)%Z as Hk20 by (apply Z.pow_le_mono_r; lia). assert (0 < 2 ^ k)%Z by (apply Z.pow_pos_nonneg; lia).
  assert (0 < length (ids tables)) by (destruct io_ids0; destruct (ids tables); [done|simpl; lia]).
  destruct io_references0 as [Hrl Hrr].
  assert (in_range u64 (root_inode sb) = true) as Hr0 by exact (Forall_lookup_1 _ _ _ _ Hrr Hroot).
  unfold in_range in Hc3, Hc5, Hr0. assert (p_end = p_x + length (p_xattrs x)) by done.
  unfold p_x, p_i, p_e, p_f, p_d in *. split.
  - split; [done|rewrite Hlog, Hbk; split; [lia|done]|rewrite Hc1, Z.mod_small; lia|done|rewrite Hit, Hdt; change (SIZE Superblock) with 96 in Hpos; lia| |].
    + unfold inside. change (SIZE Superblock) with 96 in Hpos. repeat apply Forall_cons_2; [| | |apply Forall_nil_2].
      * destruct Hft as [[? _]|?]; [by left|right; lia].
      * right. lia.
      * destruct Hxt as [?|?]; [by left|right; lia].
    + intros Hf. destruct Hft as [[_ Hf']|Hf']; [rewrite Hf' in Hc2; simpl in Hc2; lia|unfold INVALID_TABLE; lia].
  - assert (in_range u16 (flags sb) = true) as Hfl.
    { rewrite Hflags. destruct Hmore as [->| ->]; destruct (deduplicate o); done. }
    assert (0 <= fragment_table sb < 2 ^ 64)%Z by (destruct Hft as [[-> _]|?]; [done|lia]).
    assert (0 <= xattr_id_table sb < 2 ^ 64)%Z by (destruct Hxt as [->|?]; [done|lia]).
    unfold in_range in Hfl, io_time0. unfold disk_ok. cbn [layout Superblock_disk to_tuple tuple_ok].
    unfold in_range. rewrite Hm1, Hm2, Hm3, Hm4, Hm5, Hc1, Hit, Hdt, Hbk, Hlog. unfold INVALID_TABLE, MAGIC in *.
    pose proof (Z.mod_pos_bound (Z.of_nat nodes) (2 ^ 32)). rewrite !andb_true_iff. repeat split; try lia;
    rewrite ?Z.leb_le, ?Z.ltb_lt; [apply Nat2Z.is_nonneg|].
    eapply Z.lt_le_trans with (m := id_table sb); lia.
Qed.

Lemma superblock_loaded : obtains img rep bad load_superblock (fun r => r = sb).
Proof.
  destruct written_valid as [Hval Hok]. destruct used_end as [Hu Hul]. destruct ids_loaded as [Hids _].
  apply validate_complete in Hval. unfold load_superblock. eapply obtains_bind.
  { apply (obtains_source img rep bad 0 (Z.of_nat (SIZE Superblock)) (serialize sb)).
    rewrite <- (serialize_length sb). by apply (located_slice img 0). }
  intros src Hsrc. eapply obtains_bind; [apply (obtains_disk _ _ _ src Superblock sb []); [by rewrite app_nil_r|done]|].
  intros [sb' src'] [-> _]. rewrite Hval. cbn [lift_outcome]. eapply obtains_bind; [by apply (obtains_ret _ _ _ (Ok tt) (fun r => r = Ok tt))|].
  intros r ->. eapply obtains_bind; [by apply (obtains_lift _ _ _ _ tt (fun _ => True))|]. intros _ _.
  eapply obtains_bind; [by apply (obtains_source img rep bad _ 1 (slice_of img (bytes_used sb - 1) 1))|]. intros last Hlast.
  eapply obtains_bind.
  { apply (obtains_exact _ _ _ last _ 1 Hlast). unfold slice_of. rewrite length_take, length_drop. lia. }
  intros _ _ a Ha. pose proof Ha as (_ & Hr & _). unfold post. rewrite Hr.
  assert (match rep with Some size => (size <? bytes_used sb)%Z | None => false end = false) as ->.
  { destruct rep as [n|]; [|done]. specialize (Hrep n eq_refl). lia. }
  done.
Qed.

(** What [Image::load] gives. *)
Record image_of (im : Image) : Prop := {
  im_superblock : superblock im = sb;
  im_ids_ok : im_ids im = ids tables;
  im_fragments_ok : im_fragments im = frags;
  im_exports_ok : exports im = Some (references tables);
  im_xattrs_ok : xattrs_found (im_xattrs im) (xattr_map im) (xattr_start im) (xattr_end im);
  im_inodes_ok : inode_map im = block_map lv (inode_table sb) 0 (p_inode_blocks x);
  im_directories_ok : directory_map im = block_map lv (directory_table sb) 0 (p_directory_blocks x);
  im_directory_end : directory_end im = Z.of_nat p_f;
}.

Lemma image_loaded : obtains img rep bad load image_of.
Proof.
  destruct ids_loaded as [Hids Hidl]. destruct used_end as [Hu _]. destruct parts_located as (Hil & Hdl & _).
  pose proof (ta_inode_table _ _ _ _ _ _ _ _ _ Hta) as Hit. pose proof (ta_directory_table _ _ _ _ _ _ _ _ _ Hta) as Hdt.
  unfold load. eapply obtains_bind; [exact superblock_loaded|]. intros r ->.
  eapply obtains_bind; [exact Hidl|]. intros r ->. change 4 with (size_of u32).
  rewrite ints_read by apply (proj2 (io_ids Hin)).
  destruct (fragments_loaded (Z.of_nat p_i)) as (Hfr & Hnone & Hle).
  eapply obtains_bind; [exact Hfr|]. intros r ->. eapply obtains_bind; [apply (proj1 (exports_loaded _))|]. intros r ->.
  assert (Z.min (if is_empty frags then Z.of_nat p_i else Z.min (Z.of_nat p_i) (Z.of_nat p_f)) (Z.of_nat p_e) = Z.of_nat p_f) as ->.
  { destruct (is_empty frags) eqn:E; [apply is_empty_true in E; rewrite (Hnone E)|]; unfold p_i in *; lia. }
  eapply obtains_bind; [apply (proj1 xattrs_loaded)|]. intros [[[xs m] start] stop] Hx.
  assert (p_end = p_x + length (p_xattrs x)) by done. assert (p_f = p_d + length (p_directories x)) by done.
  eapply obtains_bind.
  { rewrite Hit, Hdt. apply (boundaries_spec img rep bad sb lv _ (p_inodes x) pos (pos + length (p_inodes x))
      (proj1 (ta_inodes _ _ _ _ _ _ _ _ _ Hta))); [done|done|done|]. unfold p_x, p_i, p_e, p_d in *. lia. }
  intros im ->. eapply obtains_bind.
  { rewrite Hdt. apply (boundaries_spec img rep bad sb lv _ (p_directories x) (pos + length (p_inodes x)) p_f
      (proj1 (ta_directories _ _ _ _ _ _ _ _ _ Hta))); [done|lia|done|]. unfold p_x, p_i, p_e, p_d in *. lia. }
  intros dm ->. apply obtains_ret. by split; cbn [inode_map directory_map]; rewrite ?Hit, ?Hdt.
Qed.
End loading.

(** ** The superblock at the start *)

Section superblock.
Context `{ZS : Zstd} `{!ZstdOk ZS}.

Lemma await_flush s : post (await sink_poll_flush) s (fun s' r => sunk s' = sunk s /\
  match r with Ready _ => True | Fail _ => True | _ => False end).
Proof.
  unfold post, await. destruct s as [bs sc]. simpl wscript.
  assert (forall n bs, length sc < n -> sunk (await_loop n sink_poll_flush (mkSink bs sc)).1 = bs /\
    match (await_loop n sink_poll_flush (mkSink bs sc)).2 with Ready _ => True | Fail _ => True | _ => False end) as H;
    [|by apply H; lia].
  induction sc as [|[k|e|] sc IH]; intros [|n] bs' Hn; simpl in Hn; try lia; try done.
  cbn [await_loop sink_poll_flush wscript sunk]. apply IH. lia.
Qed.

Lemma write_superblock_spec sb s : SIZE Superblock <= length (sunk s) ->
  post (write_superblock sb) s (fun s' r =>
    match r with
    | Ready _ => sunk s' = serialize sb ++ drop (SIZE Superblock) (sunk s)
    | Fail _ => True
    | _ => False
    end).
Proof.
  intros Hl. apply post_bind. eapply post_mono; [apply await_flush|]. intros s1 [[]|e| |] [E1 H1]; try done; cbn [and_then].
  apply post_bind. unfold post at 1, overwrite.
  pose proof (write_out_spec 0 (serialize sb) (mkSink [] (wscript s1))) as Hw. unfold post in Hw.
  destruct (write_out _ _) as [s2 [[]|e| |]]; destruct Hw as [_ Hw]; try done; cbn [fst snd and_then].
  simpl in Hw. apply post_bind. eapply post_mono; [apply await_flush|]. intros s3 [[]|e| |] [E3 H3]; try done; cbn [and_then].
  eapply post_mono; [apply await_flush|]. intros s4 [[]|e| |] [E4 H4]; try done.
  rewrite E4, E3. cbn [sunk]. by rewrite Hw, serialize_length, E1.
Qed.
End superblock.

(** ** The theorems *)

(** What a computation on an archive gives; it fails only when an answer of the archive refuses or fails. *)
Definition opens {A} (a : Archived) (m : M Archived A) (P : Archived -> A -> Prop) : Prop :=
  post m a (fun a' r => match r with Ready x => P a' x | Fail _ => faulty a | _ => False end).

Section theorems.
Context `{ZS : Zstd} `{!ZstdOk ZS}.

(** The tables and the superblock are written after the data that [s] has. *)
Definition write_image (o : Options) (nodes : nat) (frags : list Fragment) (tables : InodeTables) : M Sink Superblock :=
  let> (sb, _) := write_tables o nodes frags tables in
  write_superblock sb ;>
  m_ret sb.

Lemma write_image_runs o nodes frags tables had s : validate_block_size (o_block_size o) = Ok tt ->
  tables_ok (compression_level o) tables had -> references tables ≠ [] -> SIZE Superblock <= length (sunk s) ->
  post (write_image o nodes frags tables) s (fun s' r =>
    match r with
    | Ready sb => exists x, tables_at (compression_level o) o (length (sunk s)) nodes frags tables had x sb /\
        sunk s' = serialize sb ++ drop (SIZE Superblock) (sunk s) ++ parts_bytes x
    | Fail _ => True
    | _ => False
    end).
Proof.
  intros Hv Hok Hrefs Hl. apply post_bind. eapply post_mono; [by apply (write_tables_spec o (length (sunk s)) nodes frags tables had)|].
  intros s1 [[sb1 stop]|e| |]; try done; cbn [and_then]. intros (bs & Hs1 & x & -> & _ & Hta).
  apply post_bind. eapply post_mono; [apply write_superblock_spec; rewrite Hs1, length_app; lia|].
  intros s2 [[]|e| |]; try done; cbn [and_then]. intros Hs2. apply post_ret. exists x.
  split; [done|]. rewrite Hs2, Hs1, drop_app_le by lia. done.
Qed.

Lemma write_image_spec o nodes frags tables had s s' sb : validate_block_size (o_block_size o) = Ok tt ->
  tables_ok (compression_level o) tables had -> references tables ≠ [] -> SIZE Superblock <= length (sunk s) ->
  write_image o nodes frags tables s = (s', Ready sb) ->
  exists x, tables_at (compression_level o) o (length (sunk s)) nodes frags tables had x sb /\
    sunk s' = serialize sb ++ drop (SIZE Superblock) (sunk s) ++ parts_bytes x.
Proof.
  intros Hv Hok Hrefs Hl E. exact (post_run _ _ _ _ _ (write_image_runs o nodes frags tables had s Hv Hok Hrefs Hl) E).
Qed.

Lemma written_located s bs (sb : Superblock) extra : SIZE Superblock <= length (sunk s) ->
  located ((serialize sb ++ drop (SIZE Superblock) (sunk s) ++ bs) ++ extra) (length (sunk s)) bs /\
  located ((serialize sb ++ drop (SIZE Superblock) (sunk s) ++ bs) ++ extra) 0 (serialize sb).
Proof.
  intros Hl. split.
  - apply located_later. exists (serialize sb ++ drop (SIZE Superblock) (sunk s)), []. rewrite app_nil_r, app_assoc.
    split; [done|]. rewrite length_app, serialize_length, length_drop. lia.
  - apply located_later. by exists [], (drop (SIZE Superblock) (sunk s) ++ bs).
Qed.

(** The tables are what the writes of these contents to new ones made of them. *)
Definition tables_built (lv : Z) (tables : InodeTables) (ib db xb : bytes) : Prop :=
  table_calls (MetadataTable_new lv) ib (inodes tables) /\
  table_calls (MetadataTable_new lv) db (directories tables) /\
  table_calls (MetadataTable_new lv) xb (xattrs tables).

Lemma built_full lv w content : table_calls (MetadataTable_new lv) content w ->
  level w = lv /\ exists had, table_full w had /\ taken w had = content.
Proof.
  intros Hc. destruct (table_calls_full _ _ _ [] Hc (new_table_full lv)) as (Hl & had & Hf & Ht).
  split; [done|]. by exists had.
Qed.

Lemma built_ok lv tables ib db xb : tables_built lv tables ib db xb ->
  exists had, tables_ok lv tables had /\ taken (inodes tables) (had_inodes had) = ib /\
    taken (directories tables) (had_directories had) = db /\ taken (xattrs tables) (had_xattrs had) = xb.
Proof.
  intros (Hi & Hd & Hx). apply built_full in Hi as (? & hi & ? & ?), Hd as (? & hd & ? & ?), Hx as (? & hx & ? & ?).
  by exists (mkHad hi hd hx).
Qed.

(** An image that was written, in an archive that begins with it. *)
Definition archived (o : Options) (nodes : nat) (frags : list Fragment) (tables : InodeTables) (sb : Superblock)
    (a : Archived) : Prop :=
  exists s s' extra, SIZE Superblock <= length (sunk s) /\
    write_image o nodes frags tables s = (s', Ready sb) /\
    archive a = sunk s' ++ extra /\ (forall n, reported a = Some n -> (bytes_used sb <= n)%Z).

(** Loading an archived image: the parts of the image and what the tables hold. *)
Lemma archived_loads o nodes frags tables ib had sb a : tables_ok (compression_level o) tables had ->
  taken (inodes tables) (had_inodes had) = ib -> ib ≠ [] ->
  archived o nodes frags tables sb a -> inputs_ok o nodes frags tables sb ->
  exists pos x, tables_at (compression_level o) o pos nodes frags tables had x sb /\ SIZE Superblock <= pos /\
    located (archive a) pos (parts_bytes x) /\
    (bytes_used sb <= Z.of_nat (length (archive a)))%Z /\
    obtains (archive a) (reported a) (faulty a) load (image_of o pos frags tables had x sb (archive a)).
Proof.
  intros Hok Hib Hne (s & s' & extra & Hl & E & Ha & Hrep) Hin. pose proof (io_block_size _ _ _ _ _ Hin) as Hv.
  destruct (io_nodes _ _ _ _ _ Hin) as [Hn _]. destruct (io_references _ _ _ _ _ Hin) as [Hrl _].
  assert (references tables ≠ []) as Hrefs by (intros E'; rewrite E' in Hrl; simpl in Hrl; lia).
  destruct (write_image_spec o nodes frags tables had s s' sb Hv Hok Hrefs Hl E) as (x & Hta & Hs').
  destruct (written_located s (parts_bytes x) sb extra Hl) as [Hloc Hhead]. rewrite <- Hs', <- Ha in Hloc, Hhead.
  exists (length (sunk s)), x. split; [done|]. split; [done|]. split; [done|].
  split; [by eapply used_end|]. rewrite <- Hib in Hne.
  apply (image_loaded o (length (sunk s)) nodes frags tables had x sb (archive a) (reported a) (faulty a)); done.
Qed.

(** [Image::load] gives back the tables that [Squashfs::serialize] wrote.  When
    the tables have been written after the data and the superblock over the start, then from every archive
    that begins with these bytes, however it answers, [load] does not panic, fails only because the
    archive does, and otherwise gives an image with the superblock that was written, the same ids,
    fragments, inode references and xattr ids, and the positions of the blocks of the inode and directory
    tables, whose contents are what was written to them. *)
Theorem image_load_roundtrip o nodes frags tables ib db xb sb a :
  tables_built (compression_level o) tables ib db xb -> ib ≠ [] ->
  archived o nodes frags tables sb a -> inputs_ok o nodes frags tables sb ->
  opens a load (fun _ im =>
    superblock im = sb /\ im_ids im = ids tables /\ im_fragments im = frags /\
    exports im = Some (references tables) /\ im_xattrs im = xattr_ids tables /\
    exists inode_blocks directory_blocks,
      inode_map im = block_map (compression_level o) (inode_table sb) 0 inode_blocks /\ concat inode_blocks = ib /\
      directory_map im = block_map (compression_level o) (directory_table sb) 0 directory_blocks /\
      concat directory_blocks = db).
Proof.
  intros Hb Hne Ha Hin. destruct (built_ok _ _ _ _ _ Hb) as (had & Hok & Hib & Hdb & _).
  destruct (archived_loads o nodes frags tables ib had sb a Hok Hib Hne Ha Hin) as (pos & x & Hta & _ & _ & _ & Hload).
  eapply post_mono; [by apply Hload|]. intros a' [im|e| |] [_ H]; try done. destruct H as [H1 H2 H3 H4 [H5 _] H6 H7 _].
  split; [done|]. split; [done|]. split; [done|]. split; [done|]. split; [done|].
  exists (p_inode_blocks x), (p_directory_blocks x). rewrite <- Hib, <- Hdb.
  split; [done|]. split; [apply (finished_content _ _ _ _ _ (ta_inodes _ _ _ _ _ _ _ _ _ Hta))|].
  split; [done|]. apply (finished_content _ _ _ _ _ (ta_directories _ _ _ _ _ _ _ _ _ Hta)).
Qed.

(** A reference that was taken of a table when [after] had not been written yet. *)
Lemma reference_reads lv w had blocks bs ref w0 bl0 more after img rep bad sb start :
  finished lv w had blocks bs -> table_full w had -> level w0 = lv -> table_full w0 bl0 ->
  length (input w0) < METADATA_SIZE -> had = bl0 ++ more -> taken w had = taken w0 bl0 ++ after -> after ≠ [] ->
  ref = (Z.of_nat (length (sunk (writer w0))) * 2 ^ 16 + Z.of_nat (length (input w0)))%Z ->
  located img start bs -> SIZE Superblock <= start -> (Z.of_nat (start + length bs) <= bytes_used sb)%Z ->
  (bytes_used sb < 2 ^ 64)%Z ->
  obtains img rep bad (metadata sb (Z.of_nat start) (Z.of_nat (start + length bs)) (block_map lv (Z.of_nat start) 0 blocks) ref)
    (fun r => reader_of bad r after).
Proof.
  intros Hfin [_ Hfull] Hl0 [Hok0 _] Hlt -> Ht Hne Href Hloc Hs Hu H64.
  pose proof (finished_content _ _ _ _ _ Hfin) as Hcc. destruct Hfin as [Hst ->].
  destruct (table_idle w0 bl0 Hok0) as (_ & _ & _ & _ & Hst0). rewrite Hl0 in Hst0.
  rewrite <- app_assoc in Hst, Hcc |- *. set (ys := more ++ _) in *.
  apply stream_inv_app in Hst as (b1 & b2 & -> & Hs1 & Hs2). rewrite (stream_fun _ _ _ _ Hs1 Hst0) in *.
  unfold taken at 2 in Ht. rewrite Ht, concat_app, <- app_assoc in Hcc. apply app_inv_head in Hcc.
  assert (drop (length (input w0)) (concat ys) = after) as Hafter by by rewrite Hcc, drop_app_length.
  rewrite <- Hafter.
  apply (metadata_spec img rep bad sb lv bl0 ys (sunk (writer w0)) b2 start); try done; [lia|].
  unfold ys in *. destruct more as [|m ms].
  - cbn [app] in *. destruct (is_empty (input w)) eqn:Ee; cbn [concat] in Hcc.
    + destruct (input w0); [|done]. cbn [app] in Hcc. by subst after.
    + rewrite app_nil_r in Hcc. exists (input w), []. split; [done|]. rewrite Hcc, length_app.
      destruct after; [done|]. simpl. lia.
  - exists m, (ms ++ if is_empty (input w) then [] else [input w]). split; [done|].
    apply Forall_app in Hfull as [_ Hfull]. apply Forall_cons in Hfull as [-> _]. done.
Qed.

(** A reference into the inode table leads the reader to the inode: when it was
    taken after some writes to the table and [after] was written to it since, then in the loaded image the
    reference is accepted and the reader it gives holds exactly [after]; again no answer of the
    archive leads to a panic or to other bytes. *)
Theorem inode_reference_found o nodes frags tables ib db xb sb a before w w0 ref after :
  tables_built (compression_level o) tables ib db xb ->
  archived o nodes frags tables sb a -> inputs_ok o nodes frags tables sb ->
  table_calls (MetadataTable_new (compression_level o)) before w -> MetadataTable_reference w = (w0, Ready ref) ->
  table_calls w0 after (inodes tables) -> after ≠ [] ->
  opens a load (fun a' im =>
    opens a' (metadata sb (inode_table sb) (directory_table sb) (inode_map im) ref) (fun _ r => holds r after)).
Proof.
  intros Hb Ha Hin Hw Er Hw0 Hne. destruct (built_ok _ _ _ _ _ Hb) as (had0 & Hok0 & _).
  apply built_full in Hw as (Hlw & bl & Hfw & Htw).
  pose proof (post_run _ _ _ _ _ (reference_full w bl Hfw) Er) as ((Hl0 & more0 & Hf0 & Ht0) & Hlt & Href & _).
  destruct (table_calls_full _ _ _ _ Hw0 Hf0) as (Hli & more & Hfi & Hti).
  set (had := mkHad ((bl ++ more0) ++ more) (had_directories had0) (had_xattrs had0)).
  assert (tables_ok (compression_level o) tables had) as Hok.
  { destruct Hok0 as (_ & ? & ?). split; [|done]. split; [done|congruence]. }
  assert (taken (inodes tables) (had_inodes had) ≠ []) as Hne'.
  { cbn [had had_inodes]. rewrite Hti. intros E%app_nil. by destruct E. }
  destruct (archived_loads o nodes frags tables _ had sb a Hok eq_refl Hne' Ha Hin)
    as (pos & x & Hta & Hpos & Hloc & Hu & Hload).
  eapply post_mono; [by apply Hload|]. intros a' [im|e| |] [(Ha1 & Ha2 & Ha3) H]; try done.
  rewrite (im_inodes_ok _ _ _ _ _ _ _ _ _ H), (ta_inode_table _ _ _ _ _ _ _ _ _ Hta), (ta_directory_table _ _ _ _ _ _ _ _ _ Hta).
  unfold parts_bytes in Hloc. apply located_app in Hloc as [Hloc _].
  eapply post_mono.
  { apply (reference_reads (compression_level o) (inodes tables) ((bl ++ more0) ++ more) (p_inode_blocks x) (p_inodes x) ref w0
      (bl ++ more0) more after (archive a') (reported a') (faulty a') sb pos
      (ta_inodes _ _ _ _ _ _ _ _ _ Hta)); try done.
    - congruence.
    - by rewrite Ha1.
    - rewrite (ta_used _ _ _ _ _ _ _ _ _ Hta). lia.
    - apply (io_used _ _ _ _ _ Hin). }
  intros a'' [r|e| |] [_ Hr]; try done. apply Hr.
Qed.
End theorems.

(** ** Examples *)

Module SquashLoadExamples.
Import RunLength.

Definition o : Options := mkOptions 4096 15 7 true.
Definition new : MetadataBlocksWriter := MetadataTable_new 15.
Definition w : MetadataBlocksWriter := (write_all (bstr "first") new).1.
Definition w0 : MetadataBlocksWriter := (MetadataTable_reference w).1.
Definition w1 : MetadataBlocksWriter := (write_all (bstr "second") w0).1.
Definition ref : Z := match (MetadataTable_reference w).2 with Ready r => r | _ => 0%Z end.
Definition xw : MetadataBlocksWriter := (write_all (replicate 200 Byte.x41) new).1.

Definition tables : InodeTables := mkTables w1 (write_all (bstr "names") new).1 xw [mkXattrId 0 1 200] [0; 1000]%Z [ref].
Definition frags : list Fragment := [mkFragment 96 (Z.lor 3 UNCOMPRESSED_DATA) 0].
Definition data : Sink := mkSink (replicate 100 Byte.x07) [Moved 3; NotReady].
Definition written : Sink * res Superblock := write_image o 1 frags tables data.
Definition sb : Superblock := match written.2 with Ready s => s | _ => mkSuperblock 0 0 0 0 0 0 0 0 0 0 0 0 0 0 0 0 0 0 0 end.

(** The archive has more behind the image, and its first reader is slow. *)
Definition a : Archived := mkArchived (sunk written.1 ++ bstr "next") [Served [Moved 10; NotReady]; Served []] None.

Lemma new_write buf : (write_all buf new).2 = Ready tt -> table_calls new buf (write_all buf new).1.
Proof.
  intros E. rewrite <- (app_nil_r buf) at 1. eapply calls_write; [|constructor].
  by destruct (write_all buf new) as [w' r]; simpl in E; subst.
Qed.

Lemma reference_taken : MetadataTable_reference w = (w0, Ready ref).
Proof. vm_compute. reflexivity. Qed.

Lemma second_written : table_calls w0 (bstr "second") w1.
Proof. change (bstr "second") with (bstr "second" ++ []). eapply calls_write; [|constructor]. vm_compute. reflexivity. Qed.

Lemma built : tables_built 15 tables (bstr "first" ++ bstr "second") (bstr "names") (replicate 200 Byte.x41).
Proof.
  split; [|split; apply new_write; vm_compute; reflexivity].
  apply (table_calls_app _ _ w); [apply new_write; vm_compute; reflexivity|].
  eapply calls_reference; [exact reference_taken|exact second_written].
Qed.

Lemma is_archived : archived o 1 frags tables sb a.
Proof.
  exists data, written.1, (bstr "next"). split; [vm_compute; lia|]. split; [vm_compute; reflexivity|].
  split; [reflexivity|]. intros n E. cbn [a reported] in E. discriminate E.
Qed.

Lemma inputs : inputs_ok o 1 frags tables sb.
Proof.
  split; [reflexivity|reflexivity|lia|split; [reflexivity|]|vm_compute; reflexivity|split; [done|]|..|vm_compute; reflexivity];
    repeat constructor; vm_compute; reflexivity.
Qed.

Lemma image_load_roundtrip_witness : match (load a).2 with
  | Ready im => im_ids im = [0; 1000]%Z /\ im_fragments im = frags /\ exports im = Some [ref]
  | _ => False
  end.
Proof.
  pose proof (image_load_roundtrip o 1 frags tables _ _ _ sb a built ltac:(done) is_archived inputs) as H.
  unfold opens, post in H.
  assert (match (load a).2 with Ready _ => true | _ => false end = true) as E by (vm_compute; reflexivity).
  destruct (load a) as [a' [im|e| |]]; try discriminate E. cbn [fst snd] in H |- *.
  destruct H as (_ & H1 & H2 & H3 & _). unfold tables in H1, H3. cbn [ids references] in H1, H3.
  rewrite H1, H2, H3. split; [reflexivity|]. split; reflexivity.
Defined.

Lemma inode_reference_found_witness :
  opens a load (fun a' im =>
    opens a' (metadata sb (inode_table sb) (directory_table sb) (inode_map im) ref) (fun _ r => holds r (bstr "second"))).
Proof.
  apply (inode_reference_found o 1 frags tables _ _ _ sb a (bstr "first") w w0 ref (bstr "second") built is_archived inputs).
  - apply new_write. vm_compute. reflexivity.
  - exact reference_taken.
  - exact second_written.
  - discriminate.
Defined.
End SquashLoadExamples.
