(* ===== verification/SquashInode.v ===== *)
(** * Inodes, directories and extended attributes

    [shared-libs/crates/start-core/src/util/squashfs/write.rs], [FlatNode] and [InodeTables] with [new],
    [id], [xattrs] and [inode]; [read.rs], [Image::attributes] and [Image::inode].

    The writer changes its tables, the reader follows references through an archive (SquashImage.v).
    A record is written to a table a field at a time, as [disk_struct!] does. *)
From S2P Require Import Prelude RustStr BTree SquashFormat SquashBlocks SquashTree SquashData SquashFiles SquashIo SquashImage.

Local Open Scope rust_scope.
Local Open Scope poll_scope.

(** ** Writing *)

Section Flat.
Context {S : Type}.

Record FlatNode : Type := mkFlat {
  fn_node : Node S;
  fn_path : list bytes;
  fn_parent : nat;
  fn_children : list (bytes * nat);
  fn_links : Z;
}.
End Flat.
Arguments FlatNode S : clear implicits.

(** The bytes of each field. *)
Fixpoint tuple_fields (l : list int_ty) : tuple l -> list bytes :=
  match l with
  | [] => fun _ => []
  | t :: r => fun '(z, zs) => to_le_bytes t z :: tuple_fields r zs
  end.

Section Write.
Context `{ZS : Zstd} {S : Type}.

(** [Disk::serialize] into a table. *)
Definition write_disk {T} `{Disk T} (x : T) : M MetadataBlocksWriter unit := write_alls (tuple_fields (layout T) (to_tuple x)).

Definition InodeTables_new (nodes : list (FlatNode S)) (level : Z) : io InodeTables :=
  let ids := BTreeSet_collect Z.compare
    (concat (map (fun n => [uid (SquashTree.metadata (fn_node n)); gid (SquashTree.metadata (fn_node n))]) nodes)) in
  let? _ := try_into u16 (length ids) $"too many SquashFS ownership IDs" in
  Ok (mkTables (MetadataTable_new level) (MetadataTable_new level) (MetadataTable_new level) [] ids
        (replicate (length nodes) 0%Z)).

Definition on_inodes {A} (m : M MetadataBlocksWriter A) : M InodeTables A := fun t =>
  let '(w, r) := m (inodes t) in (mkTables w (directories t) (xattrs t) (xattr_ids t) (ids t) (references t), r).

Definition on_directories {A} (m : M MetadataBlocksWriter A) : M InodeTables A := fun t =>
  let '(w, r) := m (directories t) in (mkTables (inodes t) w (xattrs t) (xattr_ids t) (ids t) (references t), r).

Definition on_xattrs {A} (m : M MetadataBlocksWriter A) : M InodeTables A := fun t =>
  let '(w, r) := m (xattrs t) in (mkTables (inodes t) (directories t) w (xattr_ids t) (ids t) (references t), r).

(** An [as] cast to the type [t]. *)
Definition cast (t : int_ty) (z : Z) : Z :=
  match t with
  | u16 => z `mod` 2 ^ 16
  | u32 => z `mod` 2 ^ 32
  | u64 => z `mod` 2 ^ 64
  | i16 => (z + 2 ^ 15) `mod` 2 ^ 16 - 2 ^ 15
  end%Z.

(** [self.references\[index\] = reference]; an index past the end panics. *)
Definition set_reference (index : nat) (reference : Z) : M InodeTables unit := fun t =>
  if index <? length (references t) then
    (mkTables (inodes t) (directories t) (xattrs t) (xattr_ids t) (ids t) (<[index := reference]> (references t)), Ready tt)
  else (t, Panics).

Definition get_reference (index : nat) : M InodeTables Z := fun t =>
  match references t !! index with Some r => (t, Ready r) | None => (t, Panics) end.

(** [binary_search] of a sorted vector, [expect] and [as u16]. *)
Definition InodeTables_id (id : Z) : M InodeTables Z := fun t =>
  match list_find (fun x => x = id) (ids t) with
  | Some (i, _) => (t, Ready (cast u16 (Z.of_nat i)))
  | None => (t, Panics)
  end.

(** [u32::checked_add]. *)
Definition checked_add (a b : Z) (message : str) : io Z :=
  if in_range u32 (a + b)%Z then Ok (a + b)%Z else invalid message.

Fixpoint xattrs_loop (attrs : list (bytes * bytes)) (size : Z) : M MetadataBlocksWriter Z :=
  match attrs with
  | [] => m_ret size
  | (full, value) :: rest =>
      match xattr_kind full with
      | None => fail $"SquashFS xattr namespace must be user, trusted, or security"
      | Some (kind, name) =>
          if is_empty name || contains Byte.x00 name then fail $"invalid SquashFS xattr name"
          else
            let> name_size := lift_io (try_into u16 (length name) $"SquashFS xattr name exceeds format limit") in
            write_disk (mkXattrEntry kind name_size) ;>
            write_all name ;>
            let> value_size := lift_io (try_into u32 (length value) $"SquashFS xattr value exceeds format limit") in
            write_all (to_le_bytes u32 value_size) ;>
            write_all value ;>
            let> full_size := lift_io (try_into u32 (length full + 1) $"SquashFS xattr name exceeds format limit") in
            let> size1 := lift_io (checked_add size full_size $"SquashFS xattrs exceed format limit") in
            let> size2 := lift_io (checked_add size1 value_size $"SquashFS xattrs exceed format limit") in
            xattrs_loop rest size2
      end
  end.

Definition push_xattr_id (id : XattrId) : M InodeTables unit := fun t =>
  (mkTables (inodes t) (directories t) (xattrs t) (xattr_ids t ++ [id]) (ids t) (references t), Ready tt).

Definition xattr_count : M InodeTables nat := fun t => (t, Ready (length (xattr_ids t))).

Definition InodeTables_xattrs (m : Metadata) : M InodeTables Z :=
  if is_empty (SquashTree.xattrs m) then m_ret INVALID_INDEX
  else
    let> reference := on_xattrs MetadataTable_reference in
    let> size := on_xattrs (xattrs_loop (SquashTree.xattrs m) 0) in
    let> n := xattr_count in
    let> index := lift_io (try_into u32 n $"too many SquashFS xattr sets") in
    let> count := lift_io (try_into u32 (length (SquashTree.xattrs m)) $"too many inode xattrs") in
    push_xattr_id (mkXattrId reference count size) ;>
    m_ret index.


(** ** Directories *)

(** The children after the first of a group: the inodes of a group are in one block of the inode
    table and their numbers are near the first one.  The group has [len] children so far. *)
Fixpoint rest_of_group (refs : list Z) (block number : Z) (len : nat) (children : list (bytes * nat))
    : outcome (list (bytes * nat) * list (bytes * nat)) :=
  match children with
  | [] => Done ([], [])
  | (name, child) :: rest =>
      let delta := (Z.of_nat child + 1 - number)%Z in
      if len =? 256 then Done ([], children)
      else
        let* reference := unwrap (refs !! child) in
        if negb (Z.shiftr reference 16 =? block)%Z || negb (in_range i16 delta) then Done ([], children)
        else
          let* (group, rest') := rest_of_group refs block number (1 + len) rest in
          Done ((name, child) :: group, rest')
  end.

(** [name.len() as t - 1], which overflows on an empty name. *)
Definition len_minus_one (t : int_ty) (name : bytes) : outcome Z :=
  let n := cast t (Z.of_nat (length name)) in
  if (n =? 0)%Z then Panic else Done (n - 1)%Z.

Fixpoint write_entries (refs : list Z) (nodes : list (FlatNode S)) (number : Z) (group : list (bytes * nat)) (size : Z)
    : M MetadataBlocksWriter Z :=
  match group with
  | [] => m_ret size
  | (name, child) :: rest =>
      let> reference := lift_outcome (unwrap (refs !! child)) in
      let> node := lift_outcome (unwrap (nodes !! child)) in
      let> name_size := lift_outcome (len_minus_one u16 name) in
      write_disk (mkDirectoryEntry (cast u16 reference) (cast i16 (Z.of_nat child + 1 - number))
        (InodeKind_basic (NodeContents_kind (contents (fn_node node)))) name_size) ;>
      write_all name ;>
      let> size' := lift_io (checked_add size (cast u32 (Z.of_nat (SIZE DirectoryEntry + length name)))
        $"SquashFS directory exceeds format limit") in
      write_entries refs nodes number rest size'
  end.

(** The loop over the children: the size of the listing and its indexes, an index for the first group
    in each further block of the directory table. *)
Fixpoint write_groups (fuel : nat) (refs : list Z) (nodes : list (FlatNode S)) (children : list (bytes * nat))
    (size : Z) (indexes : list (DirectoryIndex * bytes)) (indexed_block : Z)
    : M MetadataBlocksWriter (Z * list (DirectoryIndex * bytes)) :=
  match fuel, children with
  | _, [] => m_ret (size, indexes)
  | 0, _ => m_panic
  | Datatypes.S k, (name, child) :: rest =>
      let> reference := lift_outcome (unwrap (refs !! child)) in
      let block := Z.shiftr reference 16 in
      let number := cast u32 (Z.of_nat child + 1) in
      let> (more, rest') := lift_outcome (rest_of_group refs block number 1 rest) in
      let group := (name, child) :: more in
      let> position := MetadataTable_reference in
      let> (indexes', indexed_block') :=
        (if negb (Z.shiftr position 16 =? indexed_block)%Z && (Z.of_nat (length indexes) <? 2 ^ 16 - 1)%Z then
           let> name_size := lift_outcome (len_minus_one u32 name) in
           m_ret (indexes ++ [(mkDirectoryIndex (size - 3) (cast u32 (Z.shiftr position 16)) name_size, name)],
                  Z.shiftr position 16)
         else m_ret (indexes, indexed_block)) in
      write_disk (mkDirectoryHeader (cast u32 (Z.of_nat (length group)) - 1) (cast u32 block) number) ;>
      let> size1 := lift_io (checked_add size (Z.of_nat (SIZE DirectoryHeader))
        $"SquashFS directory exceeds format limit") in
      let> size2 := write_entries refs nodes number group size1 in
      write_groups k refs nodes rest' size2 indexes' indexed_block'
  end.

Definition is_directory (node : FlatNode S) : bool :=
  match contents (fn_node node) with NDirectory _ => true | _ => false end.

(** [children.filter(..).count()]; a child that is not a node panics. *)
Fixpoint count_subdirs (nodes : list (FlatNode S)) (children : list (bytes * nat)) : outcome nat :=
  match children with
  | [] => Done 0
  | (_, child) :: rest =>
      let* node := unwrap (nodes !! child) in
      let* n := count_subdirs nodes rest in
      Done (if is_directory node then 1 + n else n)
  end.

Fixpoint write_indexes (indexes : list (DirectoryIndex * bytes)) : M MetadataBlocksWriter unit :=
  match indexes with
  | [] => m_ret tt
  | (index, name) :: rest => write_disk index ;> write_all name ;> write_indexes rest
  end.

(** ** Inodes *)

Definition get_references : M InodeTables (list Z) := fun t => (t, Ready (references t)).

Definition write_directory (index : nat) (node : FlatNode S) (nodes : list (FlatNode S)) (xattr : Z) : M InodeTables unit :=
  let> start := on_directories MetadataTable_reference in
  let> refs := get_references in
  let> (size, indexes) := on_directories
    (write_groups (length (fn_children node)) refs nodes (fn_children node) 3 [] (Z.shiftr start 16)) in
  let> subdirs := lift_outcome (count_subdirs nodes (fn_children node)) in
  let> links := lift_io (try_into u32 (subdirs + 2) $"too many directory links") in
  on_inodes (write_disk (mkDirectoryInode links size (cast u32 (Z.shiftr start 16))
    (if index =? 0 then cast u32 (Z.of_nat (length nodes) + 1) else cast u32 (Z.of_nat (fn_parent node) + 1))
    (cast u16 (Z.of_nat (length indexes))) (cast u16 start) xattr)) ;>
  on_inodes (write_indexes indexes).

Definition MAX_PORTABLE_SYMLINK_TARGET_SIZE : nat := Z.to_nat 4095.

Definition write_symlink (target : bytes) (links xattr : Z) : M MetadataBlocksWriter unit :=
  if contains Byte.x00 target then fail $"SquashFS symlink target contains NUL"
  else if MAX_PORTABLE_SYMLINK_TARGET_SIZE <? length target then
    fail $"SquashFS symlink target exceeds portable 4095-byte limit"
  else
    write_disk (mkSymlinkInode links (cast u32 (Z.of_nat (length target)))) ;>
    write_all target ;>
    write_all (to_le_bytes u32 xattr).

Definition write_device (device : Device) (links xattr : Z) : M MetadataBlocksWriter unit :=
  let> number := lift_io (device_number (major device) (minor device)) in
  write_disk (mkDeviceInode links number xattr).

Definition layout_of (layouts : list (option FileLayout)) (index : nat) : outcome FileLayout :=
  let* layout := unwrap (layouts !! index) in unwrap layout.

Definition write_contents (index : nat) (node : FlatNode S) (layouts : list (option FileLayout)) (nodes : list (FlatNode S))
    (xattr : Z) : M InodeTables unit :=
  match contents (fn_node node) with
  | NFile _ =>
      let> layout := lift_outcome (layout_of layouts index) in
      on_inodes (write_disk (layout_inode layout (fn_links node) xattr)) ;>
      on_inodes (write_alls (map (to_le_bytes u32) (fl_blocks layout)))
  | NDirectory _ => write_directory index node nodes xattr
  | NSymlink target => on_inodes (write_symlink target (fn_links node) xattr)
  | NBlockDevice device | NCharacterDevice device => on_inodes (write_device device (fn_links node) xattr)
  | NFifo | NSocket => on_inodes (write_disk (mkIpcInode (fn_links node) xattr))
  end.

Definition InodeTables_inode (index : nat) (node : FlatNode S) (layouts : list (option FileLayout))
    (nodes : list (FlatNode S)) : M InodeTables unit :=
  let m := SquashTree.metadata (fn_node node) in
  let> reference := on_inodes MetadataTable_reference in
  set_reference index reference ;>
  let> uid_index := InodeTables_id (uid m) in
  let> gid_index := InodeTables_id (gid m) in
  on_inodes (write_disk (mkInodeHeader (InodeKind_extended (NodeContents_kind (contents (fn_node node)))) (mode m)
    uid_index gid_index (modification_time m) (cast u32 (Z.of_nat index + 1)))) ;>
  let> xattr := InodeTables_xattrs m in
  write_contents index node layouts nodes xattr.

(** The inodes of [Squashfs::serialize]: those of directories come last, and in reverse, so that the
    inode of every child is written before the listing that refers to it. *)
Fixpoint inodes_loop (layouts : list (option FileLayout)) (nodes : list (FlatNode S)) (order : list (nat * FlatNode S))
    : M InodeTables unit :=
  match order with
  | [] => m_ret tt
  | (index, node) :: rest => InodeTables_inode index node layouts nodes ;> inodes_loop layouts nodes rest
  end.

Definition write_inodes (layouts : list (option FileLayout)) (nodes : list (FlatNode S)) : M InodeTables unit :=
  let numbered := imap pair nodes in
  inodes_loop layouts nodes (List.filter (fun x => negb (is_directory x.2)) numbered) ;>
  inodes_loop layouts nodes (List.filter (fun x => is_directory x.2) (rev numbered)).
End Write.

(** ** Reading *)

(** The loop that reads [n] bytes through a buffer of [METADATA_SIZE]; each piece is checked. *)
Fixpoint read_chunked_loop {R} `{AsyncRead R} (fuel : nat) (check : bytes -> io unit) (remaining : nat) (value : bytes)
    : M R bytes :=
  match fuel with
  | 0 => m_panic
  | S k =>
      if remaining =? 0 then m_ret value
      else
        let> buffer := await_exact (remaining `min` METADATA_SIZE) in
        lift_io (check buffer) ;>
        read_chunked_loop k check (remaining - remaining `min` METADATA_SIZE) (value ++ buffer)
  end.

Definition read_chunked {R} `{AsyncRead R} (check : bytes -> io unit) (n : nat) : M R bytes :=
  read_chunked_loop (S n) check n [].

Record Child : Type := mkChild {
  ch_name : bytes;
  ch_reference : Z;
  ch_number : Z;
  ch_kind : InodeKind;
}.

Record Parsed : Type := mkParsed {
  pa_header : InodeHeader;
  pa_node : Node SquashfsFileSource;
  pa_children : list Child;
  pa_parent : Z;
  pa_links : Z;
  pa_span : Z * Z;
}.

Section Read.
Context `{ZS : Zstd}.
Variable im : Image.

Definition xattr_reader (reference : Z) : M Archived MetadataBlocksReader :=
  metadata (superblock im) (xattr_start im) (xattr_end im) (xattr_map im) reference.

(** An attribute whose value is elsewhere: its reference is read, then the size of the value there.  The
    reader of the value, and the reader to go on with unless it is the same. *)
Definition xattr_input (kind value_size : Z) (reader : MetadataBlocksReader)
    : M Archived (Z * MetadataBlocksReader * option MetadataBlocksReader) :=
  if negb (Z.land kind 0x100 =? 0)%Z then
    if negb (value_size =? 8)%Z then fail $"invalid out-of-line xattr reference size"
    else
      let> (reference, reader1) := run u64_value reader in
      let> value_reader := xattr_reader reference in
      let> (size, value_reader1) := run u32_value value_reader in
      m_ret (size, value_reader1, Some reader1)
  else m_ret (value_size, reader, None).

Fixpoint attributes_loop (n : nat) (id : XattrId) (reader : MetadataBlocksReader) (total : Z)
    (result : list (bytes * bytes)) : M Archived (Z * list (bytes * bytes)) :=
  match n with
  | 0 => m_ret (total, result)
  | S n' =>
      let> (entry, reader1) := run (disk XattrEntry) reader in
      match XATTR_PREFIXES !! Z.to_nat (Z.ldiff (xe_kind entry) 0x100) with
      | None => fail $"invalid xattr namespace"
      | Some prefix =>
          if (xe_name_size entry =? 0)%Z then fail $"invalid xattr name size"
          else
            let> (suffix, reader2) := run (await_exact (Z.to_nat (xe_name_size entry))) reader1 in
            let name := prefix ++ suffix in
            if contains Byte.x00 name then fail $"NUL in xattr name"
            else
              let> (value_size0, reader3) := run u32_value reader2 in
              let> (value_size, input, parked) := xattr_input (xe_kind entry) value_size0 reader3 in
              let total' := (total + (Z.of_nat (length name) + 1 + value_size))%Z in
              if (2 ^ 64 <=? total')%Z then fail $"xattr size overflow"
              else if (xi_size id <? total')%Z then fail $"xattr set exceeds declared size"
              else
                let> (value, input') := run (read_chunked (fun _ => Ok tt) (Z.to_nat value_size)) input in
                if bool_decide (is_Some (BTreeMap_get bytes_cmp name result)) then fail $"duplicate xattr name"
                else attributes_loop n' id (default input' parked) total' (BTreeMap_insert bytes_cmp name value result)
      end
  end.

Definition attributes (index : Z) : M Archived (list (bytes * bytes)) :=
  if (index =? INVALID_INDEX)%Z then m_ret []
  else
    match im_xattrs im !! Z.to_nat index with
    | None => fail $"invalid xattr ID"
    | Some id =>
        let> reader := xattr_reader (xi_reference id) in
        let> (total, result) := attributes_loop (Z.to_nat (xi_count id)) id reader 0 [] in
        if negb (total =? xi_size id)%Z then fail $"incorrect xattr set size"
        else m_ret result
    end.

(** *** Files *)

Definition InodeReader : Type := Tracking MetadataBlocksReader.

Definition basic_file (file : BasicFileInode) : FileInode :=
  mkFileInode (bf_block file) (bf_size file) 0 1 (bf_fragment file) (bf_offset file) INVALID_INDEX.

(** The loop over the sizes of a file's blocks: [n] are left and [index] were read. *)
Fixpoint read_file_blocks (n : nat) (size index position : Z) : M InodeReader (list DataBlock) :=
  match n with
  | 0 => m_ret []
  | S n' =>
      let sb := superblock im in
      let> encoded := u32_value in
      lift_io (data_bounds sb position encoded) ;>
      let length_ := Z.min (size - index * block_size sb) (block_size sb) in
      if negb (Z.land encoded UNCOMPRESSED_DATA =? 0)%Z && negb (Z.ldiff encoded UNCOMPRESSED_DATA =? length_)%Z then
        fail $"incorrect uncompressed file block size"
      else
        let> blocks := read_file_blocks n' size (index + 1) (position + Z.ldiff encoded UNCOMPRESSED_DATA) in
        m_ret (mkBlock position encoded 0 (Z.to_nat length_) false :: blocks)
  end.

Definition read_file (extended : bool) : M InodeReader (SquashfsFileSource * Z * Z) :=
  let sb := superblock im in
  let> file := (if extended then disk FileInode
                else let> file := disk BasicFileInode in m_ret (basic_file file)) in
  if (2 ^ 63 - 1 <? fi_size file)%Z || (fi_size file <? fi_sparse file)%Z then fail $"invalid file size"
  else
    let> blocks := read_file_blocks (Z.to_nat (block_count sb file)) (fi_size file) 0 (fi_block file) in
    let> last := lift_io (inode_tail sb (im_fragments im) file) in
    m_ret (mkFile (blocks ++ last) (Z.to_nat (fi_size file)) (Z.to_nat (block_size sb)), fi_links file, fi_xattr file).

(** *** Directories *)

Definition basic_directory (d : BasicDirectoryInode) : DirectoryInode :=
  mkDirectoryInode (bd_links d) (bd_size d) (bd_block d) (bd_parent d) 0 (bd_offset d) INVALID_INDEX.

Definition directory_block (block : Z) : option Z :=
  BTreeMap_get Z.compare (directory_table (superblock im) + block)%Z (directory_map im).

Fixpoint read_indexes (n : nat) (size : Z) (previous : option Z) : M InodeReader (list (DirectoryIndex * bytes)) :=
  match n with
  | 0 => m_ret []
  | S n' =>
      let> index := disk DirectoryIndex in
      if (size - 3 <=? dx_index index)%Z || (256 <=? dx_name_size index)%Z
         || match previous with Some p => (dx_index index <=? p)%Z | None => false end
         || negb (bool_decide (is_Some (directory_block (dx_block index))))
      then fail $"invalid directory index"
      else
        let> name := await_exact (Z.to_nat (dx_name_size index + 1)) in
        lift_io (validate_name name) ;>
        let> indexes := read_indexes n' size (Some (dx_index index)) in
        m_ret ((index, name) :: indexes)
  end.

(** The variables of the loop over a listing. *)
Record Walk : Type := mkWalk {
  remaining : Z;
  unused_indexes : list (DirectoryIndex * bytes);
  last_name : option bytes;
  found : list Child;
}.

(** The first block after a position, [BTreeMap::range] and [next]. *)
Definition block_after (physical : Z) : option (Z * Z) :=
  List.find (fun x => (physical + 1 <=? x.1)%Z) (directory_map im).

(** The index of a group, if it has one: the name and the position must agree. *)
Definition check_index (initial group_offset : Z) (name : bytes) (indexes : list (DirectoryIndex * bytes))
    : outcome (io (list (DirectoryIndex * bytes))) :=
  match indexes with
  | [] => Done (Ok [])
  | (index, indexed_name) :: rest =>
      if (dx_index index <? group_offset)%Z then Done (invalid $"directory index does not point to a group")
      else if (dx_index index =? group_offset)%Z then
        let physical := (directory_table (superblock im) + dx_block index)%Z in
        let* indexed_block := unwrap (directory_block (dx_block index)) in
        let group_position := (initial + group_offset)%Z in
        let beyond_block := match block_after physical with
                            | Some (_, logical) => (logical <=? group_position)%Z
                            | None => false
                            end in
        Done (if negb (bool_decide (indexed_name = name)) || (group_position <? indexed_block)%Z || beyond_block
              then invalid $"directory index disagrees with directory contents"
              else Ok rest)
      else Done (Ok indexes)
  end.

Definition DirectoryReader : Type := Take MetadataBlocksReader.

(** One entry of a group. *)
Definition read_entry (initial : Z) (group : DirectoryHeader) (group_offset : Z) (first : bool) (w : Walk)
    : M DirectoryReader Walk :=
  if (remaining w <? Z.of_nat (SIZE DirectoryEntry))%Z then fail $"truncated directory entry"
  else
    let> entry := disk DirectoryEntry in
    let length_ := (de_name_size entry + 1)%Z in
    if (256 <? length_)%Z || (remaining w - Z.of_nat (SIZE DirectoryEntry) <? length_)%Z
       || negb ((1 <=? de_kind entry)%Z && (de_kind entry <=? 7)%Z)
    then fail $"invalid directory entry"
    else
      let> name := await_exact (Z.to_nat length_) in
      lift_io (validate_name name) ;>
      if match last_name w with Some last => negb (is_lt (bytes_cmp last name)) | None => false end then
        fail $"unordered or duplicate directory name"
      else
        let> indexes := (if first then
                           let> checked := lift_outcome (check_index initial group_offset name (unused_indexes w)) in
                           lift_io checked
                         else m_ret (unused_indexes w)) in
        let number := (dh_inode group + de_inode_delta entry)%Z in
        if (number <=? 0)%Z || (inode_count (superblock im) <? number)%Z then fail $"invalid directory inode number"
        else
          let> kind := lift_io (InodeKind_from_disk (de_kind entry)) in
          m_ret (mkWalk (remaining w - (Z.of_nat (SIZE DirectoryEntry) + length_)) indexes (Some name)
            (found w ++ [mkChild name (Z.lor (Z.shiftl (dh_block group) 16) (de_offset entry)) number kind])).

Fixpoint read_entries (n : nat) (initial : Z) (group : DirectoryHeader) (group_offset : Z) (first : bool) (w : Walk)
    : M DirectoryReader Walk :=
  match n with
  | 0 => m_ret w
  | S n' =>
      let> w' := read_entry initial group group_offset first w in
      read_entries n' initial group group_offset false w'
  end.

Fixpoint read_groups (fuel : nat) (size initial : Z) (w : Walk) : M DirectoryReader Walk :=
  match fuel with
  | 0 => m_panic
  | S k =>
      if (remaining w =? 0)%Z then m_ret w
      else if (remaining w <? Z.of_nat (SIZE DirectoryHeader))%Z then fail $"truncated directory header"
      else
        let group_offset := (size - 3 - remaining w)%Z in
        let> group := disk DirectoryHeader in
        if (256 <=? dh_count group)%Z then fail $"invalid directory group size"
        else
          let w1 := mkWalk (remaining w - Z.of_nat (SIZE DirectoryHeader)) (unused_indexes w) (last_name w) (found w) in
          let> w2 := read_entries (S (Z.to_nat (dh_count group))) initial group group_offset true w1 in
          read_groups k size initial w2
  end.

(** The children of a directory. *)
Definition read_listing (d : DirectoryInode) (indexes : list (DirectoryIndex * bytes)) : M Archived (list Child) :=
  let sb := superblock im in
  if (3 <? di_size d)%Z then
    let reference := Z.lor (Z.shiftl (di_block d) 16) (di_offset d) in
    let> reader := metadata sb (directory_table sb) (directory_end im) (directory_map im) reference in
    let> block := lift_outcome (unwrap (directory_block (di_block d))) in
    let initial := (block + di_offset d)%Z in
    let> (w, _) := run (read_groups (S (Z.to_nat (di_size d - 3))) (di_size d) initial
                          (mkWalk (di_size d - 3) indexes None [])) (mkTake reader (Z.to_nat (di_size d - 3))) in
    if negb (is_empty (unused_indexes w)) then fail $"unused directory index" else m_ret (found w)
  else if negb (is_empty indexes) then fail $"empty directory has indexes"
  else m_ret [].

(** The part of a directory that is in the inode table. *)
Definition read_directory (extended : bool) : M InodeReader (DirectoryInode * list (DirectoryIndex * bytes)) :=
  let> d := (if extended then disk DirectoryInode
             else let> d := disk BasicDirectoryInode in m_ret (basic_directory d)) in
  if (di_size d <? 3)%Z || (Z.of_nat METADATA_SIZE <=? di_offset d)%Z then fail $"invalid directory size or offset"
  else
    let> indexes := read_indexes (Z.to_nat (di_index_count d)) (di_size d) None in
    m_ret (d, indexes).

(** *** The other kinds *)

Definition no_nul (buffer : bytes) : io unit :=
  if contains Byte.x00 buffer then invalid $"NUL in symlink target" else Ok tt.

Definition read_symlink (extended : bool) : M InodeReader (bytes * Z * Z) :=
  let> link := disk SymlinkInode in
  let> target := read_chunked no_nul (Z.to_nat (sy_size link)) in
  let> xattr := (if extended then u32_value else m_ret INVALID_INDEX) in
  m_ret (target, sy_links link, xattr).

Definition read_device (extended : bool) : M InodeReader (Device * Z * Z) :=
  let> device := (if extended then disk DeviceInode
                  else let> d := disk BasicDeviceInode in m_ret (mkDeviceInode (bv_links d) (bv_device d) INVALID_INDEX)) in
  let '(major, minor) := device_parts (dv_device device) in
  m_ret (mkDevice major minor, dv_links device, dv_xattr device).

Definition read_ipc (extended : bool) : M InodeReader (Z * Z) :=
  let> ipc := (if extended then disk IpcInode
               else let> i := disk BasicIpcInode in m_ret (mkIpcInode (bi_links i) INVALID_INDEX)) in
  m_ret (ip_links ipc, ip_xattr ipc).

(** The contents by kind: with the children, the parent, the links, the index of the xattrs and the
    reader after the inode. *)
Definition read_contents (kind : InodeKind) (extended : bool) (reader : InodeReader)
    : M Archived (NodeContents SquashfsFileSource * list Child * Z * Z * Z * InodeReader) :=
  match kind with
  | KFile =>
      let> (file, links, xattr, reader') := run (read_file extended) reader in
      m_ret (NFile file, [], 0%Z, links, xattr, reader')
  | KDirectory =>
      let> (d, indexes, reader') := run (read_directory extended) reader in
      let> children := read_listing d indexes in
      m_ret (NDirectory DirectoryContents_new, children, di_parent d, di_links d, di_xattr d, reader')
  | KSymlink =>
      let> (target, links, xattr, reader') := run (read_symlink extended) reader in
      m_ret (NSymlink target, [], 0%Z, links, xattr, reader')
  | KBlockDevice | KCharacterDevice =>
      let> (device, links, xattr, reader') := run (read_device extended) reader in
      m_ret ((if bool_decide (kind = KBlockDevice) then NBlockDevice device else NCharacterDevice device), [], 0%Z, links,
        xattr, reader')
  | KFifo | KSocket =>
      let> (links, xattr, reader') := run (read_ipc extended) reader in
      m_ret ((if bool_decide (kind = KFifo) then NFifo else NSocket), [], 0%Z, links, xattr, reader')
  end.

(** The checks of a header: the kind, and the owner's ids. *)
Definition check_header (reference : Z) (header : InodeHeader) : outcome (io (InodeKind * Z * Z)) :=
  let sb := superblock im in
  match InodeKind_from_disk (ih_kind header) with
  | Err e => Done (Err e)
  | Ok kind =>
      if negb (Z.ldiff (ih_mode header) 0xfff =? 0)%Z || (ih_number header =? 0)%Z || (inode_count sb <? ih_number header)%Z
      then Done (invalid $"invalid inode header")
      else
        let* disagrees := match exports im with
                          | None => Done false
                          | Some refs =>
                              let* r := unwrap (refs !! Z.to_nat (ih_number header - 1)) in Done (negb (r =? reference)%Z)
                          end in
        if (disagrees : bool) then Done (invalid $"export table disagrees with inode reference")
        else
          match im_ids im !! Z.to_nat (ih_uid header), im_ids im !! Z.to_nat (ih_gid header) with
          | None, _ => Done (invalid $"invalid inode UID")
          | _, None => Done (invalid $"invalid inode GID")
          | Some uid, Some gid => Done (Ok (kind, uid, gid))
          end
  end.

Definition Image_inode (reference : Z) : M Archived Parsed :=
  let sb := superblock im in
  let> reader := metadata sb (inode_table sb) (directory_table sb) (inode_map im) reference in
  let> block := lift_outcome (unwrap (BTreeMap_get Z.compare (inode_table sb + Z.shiftr reference 16)%Z (inode_map im))) in
  let start := (block + Z.land reference 0xffff)%Z in
  let> (header, reader1) := run (disk InodeHeader) (mkTracking reader start) in
  let> checked := lift_outcome (check_header reference header) in
  let> (kind, uid, gid) := lift_io checked in
  let> (contents, children, parent, links, xattr, reader2) := read_contents kind (7 <? ih_kind header)%Z reader1 in
  if (links =? 0)%Z then fail $"inode has zero links"
  else
    let> xattrs := attributes xattr in
    m_ret (mkParsed header (mkNode (mkMetadata (ih_mode header) uid gid (ih_modification_time header) xattrs) contents)
      children parent links (start, at_position reader2)).
End Read.
