(* ===== verification/SquashTable.v ===== *)
(** * Metadata tables as their contents

    A logic for the code that fills the metadata tables of an image and for the code that reads them
    (SquashInode.v), over SquashBlocks.v and SquashLoad.v.  A table is its content: [emits] says which
    bytes a computation adds to it, [reference_of] that a reference was taken after some bytes,
    [table_in] that an archive has a table with some content, [parses] what a computation makes of the
    bytes that a reader holds. *)
From S2P Require Import Prelude RustStr BTree SquashFormat SquashBlocks SquashTree SquashData SquashFiles SquashIo SquashImage SquashLoad SquashInode.

Local Open Scope rust_scope.
Local Open Scope poll_scope.

(** ** Writing *)

Section emits.
Context `{ZS : Zstd} `{!ZstdOk ZS}.
Variable lv : Z.

(** A table with the content [c]. *)
Definition table_has (w : MetadataBlocksWriter) (c : bytes) : Prop :=
  level w = lv /\ exists had, table_full w had /\ taken w had = c.

(** [m] adds bytes to a table with the content [c], or fails. *)
Definition emits {A} (c : bytes) (m : M MetadataBlocksWriter A) (P : bytes -> A -> Prop) : Prop := forall w, table_has w c ->
  post m w (fun w' r =>
    match r with
    | Ready x => exists add, table_has w' (c ++ add) /\ P add x
    | Fail _ => True
    | _ => False
    end).

Lemma table_has_new : table_has (MetadataTable_new lv) [].
Proof. split; [done|]. exists []. split; [apply new_table_full|done]. Qed.

Lemma emits_bind {A B} c (m : M MetadataBlocksWriter A) (f : A -> M MetadataBlocksWriter B) P Q : emits c m P ->
  (forall add x, P add x -> emits (c ++ add) (f x) (fun add' y => Q (add ++ add') y)) -> emits c (m_bind m f) Q.
Proof.
  intros Hm Hf w Hw. apply post_bind. eapply post_mono; [by apply Hm|].
  intros w' [x|e| |] H; try done. destruct H as (add & Hw' & HP). cbn [and_then].
  eapply post_mono; [by apply (Hf add x HP)|]. intros w2 [y|e| |]; try done. intros (add' & Hw2 & HQ).
  exists (add ++ add'). by rewrite app_assoc.
Qed.

Lemma emits_mono {A} c (m : M MetadataBlocksWriter A) (P Q : bytes -> A -> Prop) : emits c m P ->
  (forall add x, P add x -> Q add x) -> emits c m Q.
Proof.
  intros Hm HPQ w Hw. eapply post_mono; [by apply Hm|]. intros w' [x|e| |]; try done.
  intros (add & Hw' & HP). exists add. auto.
Qed.

Lemma emits_ret {A} c (x : A) (P : bytes -> A -> Prop) : P [] x -> emits c (m_ret x) P.
Proof. intros HP w Hw. apply post_ret. exists []. by rewrite app_nil_r. Qed.

Lemma emits_lift {A} c (r : io A) : emits c (lift_io r) (fun add x => add = [] /\ r = Ok x).
Proof.
  intros w Hw. unfold post, lift_io. cbn [fst snd]. destruct r as [x|e]; [|done]. exists []. by rewrite app_nil_r.
Qed.

Lemma emits_fail {A} c message (P : bytes -> A -> Prop) : emits c (fail message) P.
Proof. eapply emits_mono; [apply emits_lift|]. by intros add x [_ ?]. Qed.

Lemma emits_outcome {A} c (o : outcome A) x : o = Done x -> emits c (lift_outcome o) (fun add y => add = [] /\ y = x).
Proof. intros ->. by apply emits_ret. Qed.

Lemma emits_write_all c buf : emits c (write_all buf) (fun add _ => add = buf).
Proof.
  intros w (Hl & had & Hf & <-). eapply post_mono; [by apply (write_all_full buf w had)|]. intros w' [[]|e| |]; try done.
  intros (Hl' & more & Hf' & Ht). exists buf. split; [|done]. split; [congruence|]. by exists (had ++ more).
Qed.

Lemma emits_write_alls c bufs : emits c (write_alls bufs) (fun add _ => add = concat bufs).
Proof.
  revert c. induction bufs as [|b bufs IH]; intros c; [by apply emits_ret|].
  eapply emits_bind; [apply emits_write_all|]. intros add [] ->. eapply emits_mono; [apply IH|]. by intros add [] ->.
Qed.

Lemma concat_tuple_fields l (x : tuple l) : concat (tuple_fields l x) = serialize_tuple l x.
Proof. induction l as [|t l IH]; [by destruct x|]. destruct x as [z x]. simpl. by rewrite IH. Qed.

Lemma emits_disk {T} `{HD : Disk T} c (x : T) : emits c (write_disk x) (fun add _ => add = serialize x).
Proof. unfold write_disk, serialize. rewrite <- concat_tuple_fields. apply emits_write_alls. Qed.

(** A reference that was taken when the table had the content [before]. *)
Definition reference_of (before : bytes) (ref : Z) : Prop :=
  exists blocks bs rest, stream lv blocks bs /\ Forall (fun c => length c = METADATA_SIZE) blocks /\
    before = concat blocks ++ rest /\ length rest < METADATA_SIZE /\
    ref = (Z.of_nat (length bs) * 2 ^ 16 + Z.of_nat (length rest))%Z /\ (Z.of_nat (length bs) < 2 ^ 32)%Z.

Lemma emits_reference c : emits c MetadataTable_reference (fun add ref => add = [] /\ reference_of c ref).
Proof.
  intros w (Hl & had & Hf & <-). eapply post_mono; [by apply (reference_full w had)|]. intros w' [ref|e| |]; try done.
  intros ((Hl' & more & Hf' & Ht) & Hlt & -> & H32). exists []. split; [|split; [done|]].
  - split; [congruence|]. by exists (had ++ more).
  - destruct Hf' as [Hok' HF]. destruct (table_idle _ _ Hok') as (_ & _ & _ & _ & Hs).
    exists (had ++ more), (sunk (writer w')), (input w'). rewrite Hl', Hl in Hs. rewrite app_nil_r in Ht. by rewrite <- Ht.
Qed.

Lemma reference_of_range before ref : reference_of before ref -> (0 <= ref < 2 ^ 48)%Z /\ (ref `mod` 2 ^ 16 < 8192)%Z.
Proof.
  intros (blocks & bs & rest & _ & _ & _ & Hr & -> & H32). unfold METADATA_SIZE in Hr. split; [lia|].
  rewrite Z.add_comm, Z.mod_add, Z.mod_small by lia. lia.
Qed.
End emits.

(** ** Tables in an archive *)

(** What a finished table has for blocks. *)
Lemma finished_chunked `{ZS : Zstd} lv w had blocks bs : finished lv w had blocks bs -> table_full w had ->
  chunked METADATA_SIZE blocks.
Proof.
  intros [_ ->] [Hok HF]. destruct (table_idle _ _ Hok) as (_ & _ & _ & Hi & _). clear Hok.
  induction HF as [|c had Hc HF IH]; [|by constructor].
  destruct (is_empty (input w)) eqn:E; [constructor|]. apply is_empty_false in E. constructor. split; [|done].
  destruct (input w); [done|]. simpl. lia.
Qed.

(** Full blocks are a prefix of the blocks of a longer content. *)
Lemma chunked_prefix n blocks full rest : 0 < n -> chunked n blocks -> Forall (fun c => length c = n) full ->
  concat blocks = concat full ++ rest -> exists more, blocks = full ++ more /\ concat more = rest /\ chunked n more.
Proof.
  intros Hn Hch HF. revert blocks Hch. induction HF as [|c full Hc HF IH]; intros blocks Hch E; [by exists blocks|].
  cbn [concat] in E. rewrite <- app_assoc in E. inversion Hch as [|d Hd|d ds Hd Hds]; subst blocks; cbn [concat] in E.
  - destruct c; [simpl in Hc; lia|done].
  - rewrite app_nil_r in E. assert (length d = n).
    { apply (f_equal length) in E. rewrite length_app in E. lia. }
    rewrite <- (app_nil_r d) in E. apply app_inj_1 in E as [-> E]; [|lia].
    destruct (IH [] (chunked_nil n)) as (more & Em & Hm & Hc'); [done|]. exists more. split; [|done]. cbn [app]. by rewrite <- Em.
  - apply app_inj_1 in E as [-> E]; [|lia]. destruct (IH ds Hds E) as (more & -> & Hm & Hc'). by exists more.
Qed.

Section table_in.
Context `{ZS : Zstd} `{!ZstdOk ZS}.
Variables (lv : Z) (img : bytes) (rep : option Z) (bad : Prop) (sb : Superblock).

(** The archive has the table with the content [c] between two positions, and [map] are its blocks. *)
Definition table_in (start stop : Z) (map : list (Z * Z)) (c : bytes) : Prop :=
  exists p blocks bs, stream lv blocks bs /\ chunked METADATA_SIZE blocks /\ concat blocks = c /\
    located img p bs /\ SIZE Superblock <= p /\ start = Z.of_nat p /\ stop = Z.of_nat (p + length bs) /\
    (stop <= bytes_used sb)%Z /\ (bytes_used sb < 2 ^ 64)%Z /\ map = block_map lv start 0 blocks.

Lemma table_in_finished w had blocks bs p : finished lv w had blocks bs -> table_full w had -> located img p bs ->
  SIZE Superblock <= p -> (Z.of_nat (p + length bs) <= bytes_used sb)%Z -> (bytes_used sb < 2 ^ 64)%Z ->
  table_in (Z.of_nat p) (Z.of_nat (p + length bs)) (block_map lv (Z.of_nat p) 0 blocks) (taken w had).
Proof.
  intros Hfin Hf Hloc Hp Hu H64. pose proof (finished_content _ _ _ _ _ Hfin) as Hc. pose proof Hfin as [Hs _].
  exists p, blocks, bs. split; [done|]. split; [by eapply finished_chunked|]. done.
Qed.

(** The blocks before a reference and those from it on. *)
Lemma reference_split blocks bs before after ref : stream lv blocks bs -> chunked METADATA_SIZE blocks ->
  concat blocks = before ++ after -> after ≠ [] -> reference_of lv before ref ->
  exists full c cs bs1 bs2 rest, blocks = full ++ c :: cs /\ bs = bs1 ++ bs2 /\ stream lv full bs1 /\ stream lv (c :: cs) bs2 /\
    before = concat full ++ rest /\ concat (c :: cs) = rest ++ after /\ length rest < length c /\
    Z.shiftr ref 16 = Z.of_nat (length bs1) /\ Z.land ref 0xffff = Z.of_nat (length rest) /\
    ref = (Z.of_nat (length bs1) * 2 ^ 16 + Z.of_nat (length rest))%Z /\
    (Z.of_nat (length bs1) < 2 ^ 32)%Z /\ length rest < METADATA_SIZE.
Proof.
  intros Hst Hch Hcc Hne (full & bs1 & rest & Hst1 & HF & -> & Hr & -> & H32). rewrite <- app_assoc in Hcc.
  destruct (chunked_prefix METADATA_SIZE blocks full (rest ++ after)) as (more & -> & Hm & Hcm);
    [unfold METADATA_SIZE; lia|done..|].
  apply stream_inv_app in Hst as (b1 & b2 & -> & Hs1 & Hs2). rewrite (stream_fun _ _ _ _ Hs1 Hst1) in *.
  assert (exists c cs, more = c :: cs /\ length rest < length c) as (c & cs & -> & Hlt).
  { destruct more as [|c cs]; cbn [concat] in Hm.
    - symmetry in Hm. by apply app_nil in Hm as [_ ->].
    - exists c, cs. split; [done|]. inversion Hcm as [|? Hc|? ? Hc Hcs]; subst; [|lia].
      rewrite app_nil_r in Hm. rewrite Hm, length_app. destruct after; [done|]. simpl. lia. }
  pose proof Hr as Hr'. unfold METADATA_SIZE in Hr.
  destruct (reference_halves (Z.of_nat (length bs1)) (Z.of_nat (length rest))) as [E1 E2]; [lia|lia|].
  by exists full, c, cs, bs1, b2, rest.
Qed.

(** A reference into a table: its block and the position in the content. *)
Lemma table_reference_at start stop map before after ref : table_in start stop map (before ++ after) -> after ≠ [] ->
  reference_of lv before ref ->
  obtains img rep bad (metadata sb start stop map ref) (fun r => reader_of bad r after) /\
  exists logical, BTreeMap_get Z.compare (start + Z.shiftr ref 16)%Z map = Some logical /\
    (logical + Z.land ref 0xffff)%Z = Z.of_nat (length before).
Proof.
  intros (p & blocks & bs & Hst & Hch & Hcc & Hloc & Hp & -> & -> & Hu & H64 & ->) Hne Href.
  destruct (reference_split _ _ _ _ _ Hst Hch Hcc Hne Href)
    as (full & c & cs & bs1 & bs2 & rest & -> & -> & Hs1 & Hs2 & -> & Hm & Hlt & E1 & E2 & Er & H32 & Hr). split.
  - replace after with (drop (length rest) (concat (c :: cs))) by by rewrite Hm, drop_app_length.
    apply (metadata_spec img rep bad sb lv full (c :: cs) bs1 bs2 p); try done; [lia|]. by exists c, cs.
  - rewrite E1, E2. exists (0 + Z.of_nat (length (concat full)))%Z.
    split; [by apply (block_map_at lv (Z.of_nat p) 0 full (c :: cs) bs1 Hs1) with (cs := bs2)|]. rewrite length_app. lia.
Qed.

(** Blocks at a position or before it are not found after it. *)
Lemma find_after_app pos logical xs bs ys q : stream lv xs bs -> (pos + Z.of_nat (length bs) <= q)%Z ->
  List.find (fun x => (q + 1 <=? x.1)%Z) (block_map lv pos logical xs ++ ys) = List.find (fun x => (q + 1 <=? x.1)%Z) ys.
Proof.
  intros Hs. revert pos logical. induction Hs as [|c enc xs bs Hne Hl He Hs IH]; intros pos logical Hq; [done|].
  cbn [block_map]. rewrite He. rewrite length_app in Hq. cbn [app List.find fst].
  destruct (Z.leb_spec (q + 1) pos); [lia|]. apply IH. lia.
Qed.

(** The block after the one of a reference starts after what was written before the reference. *)
Lemma table_next start stop map before after ref x : table_in start stop map (before ++ after) -> after ≠ [] ->
  reference_of lv before ref -> List.find (fun x => (start + Z.shiftr ref 16 + 1 <=? x.1)%Z) map = Some x ->
  (Z.of_nat (length before) < x.2)%Z.
Proof.
  intros (p & blocks & bs & Hst & Hch & Hcc & Hloc & Hp & -> & -> & Hu & H64 & ->) Hne Href Hfind.
  destruct (reference_split _ _ _ _ _ Hst Hch Hcc Hne Href)
    as (full & c & cs & bs1 & bs2 & rest & -> & -> & Hs1 & Hs2 & -> & Hm & Hlt & E1 & E2 & Er & H32 & Hr).
  rewrite E1, (block_map_app lv _ _ full (c :: cs) bs1 Hs1), (find_after_app _ _ full bs1) in Hfind; [|done|lia].
  inversion Hs2 as [|? enc ? bs' Hc Hl He Hs]; subst. cbn [block_map] in Hfind. rewrite He in Hfind. cbn [List.find fst] in Hfind.
  destruct (Z.leb_spec (Z.of_nat p + Z.of_nat (length bs1) + 1) (Z.of_nat p + Z.of_nat (length bs1))); [lia|].
  apply List.find_some in Hfind as [Hin _].
  pose proof (block_map_above lv (Z.of_nat p + Z.of_nat (length bs1) + Z.of_nat (length enc))
    (0 + Z.of_nat (length (concat full)) + Z.of_nat (length c)) cs bs' Hs) as HF.
  rewrite List.Forall_forall in HF. specialize (HF x Hin). rewrite length_app. lia.
Qed.
End table_in.

(** ** Reading *)

Section parses.
Context {R : Type} `{HR : AsyncRead R} `{!AsyncReadOk R}.
Variable bad : Prop.

(** [m] makes a value of the bytes [c] and leaves the rest of them, or fails because the archive does. *)
Definition parses {A} (m : M R A) (c : bytes) (P : A -> bytes -> Prop) : Prop := forall r, reader_of bad r c ->
  post m r (fun r' x =>
    match x with
    | Ready v => exists c', P v c' /\ reader_of bad r' c'
    | Fail _ => bad
    | _ => False
    end).

Lemma parses_bind {A B} (m : M R A) (f : A -> M R B) c P Q : parses m c P ->
  (forall x c', P x c' -> parses (f x) c' Q) -> parses (m_bind m f) c Q.
Proof.
  intros Hm Hf r Hr. apply post_bind. eapply post_mono; [by apply Hm|].
  intros r' [x|e| |] H; try done. destruct H as (c' & HP & Hr'). by apply (Hf x c' HP).
Qed.

Lemma parses_mono {A} (m : M R A) c (P Q : A -> bytes -> Prop) : parses m c P -> (forall x c', P x c' -> Q x c') ->
  parses m c Q.
Proof.
  intros Hm HPQ r Hr. eapply post_mono; [by apply Hm|]. intros r' [x|e| |]; try done. intros (c' & HP & Hr'). exists c'. auto.
Qed.

Lemma parses_ret {A} (x : A) c (P : A -> bytes -> Prop) : P x c -> parses (m_ret x) c P.
Proof. intros HP r Hr. apply post_ret. by exists c. Qed.

Lemma parses_lift {A} (o : io A) x c : o = Ok x -> parses (lift_io o) c (fun y c' => y = x /\ c' = c).
Proof. intros -> r Hr. by exists c. Qed.

Lemma parses_outcome {A} (o : outcome A) x c : o = Done x -> parses (lift_outcome o) c (fun y c' => y = x /\ c' = c).
Proof. intros ->. by apply parses_ret. Qed.

Lemma parses_exact a c : parses (await_exact (length a)) (a ++ c) (fun x c' => x = a /\ c' = c).
Proof.
  intros r [Hc Hb]. eapply post_mono; [by apply (await_exact_spec (length a) r (a ++ c))|].
  intros r' [out|e| |]; try done; simpl.
  - intros (Hl & Ha & c' & E & Hc'). apply app_inj_1 in E as [-> ->]; [|done]. exists c'. split; [done|]. split; [done|].
    intros. apply Hb. lia.
  - intros [[_ Hl]|?]; [rewrite length_app in Hl; lia|auto].
Qed.

Lemma parses_disk (T : Type) `{HD : Disk T} (v : T) c : disk_ok v = true ->
  parses (disk T) (serialize v ++ c) (fun x c' => x = v /\ c' = c).
Proof.
  intros Hv r [Hc Hb]. eapply post_mono; [by apply (disk_read T r v c)|].
  intros r' [w|e| |]; try done; simpl; auto. intros (-> & Ha & Hc'). exists c. split; [done|]. split; [done|].
  intros. apply Hb. lia.
Qed.

Lemma parses_u32 z c : in_range u32 z = true -> parses u32_value (to_le_bytes u32 z ++ c) (fun x c' => x = z /\ c' = c).
Proof.
  intros Hz. eapply parses_bind.
  - rewrite <- (app_nil_r (to_le_bytes u32 z)).
    change (to_le_bytes u32 z ++ []) with (serialize (mkXattrValue z)). apply parses_disk.
    unfold disk_ok. cbn -[in_range]. by rewrite Hz.
  - intros x c' [-> ->]. by apply parses_ret.
Qed.

(** The reading of bytes through a buffer. *)
Lemma parses_chunked_loop check fuel left got c : length left < fuel ->
  (forall x y z, left = x ++ y ++ z -> check y = Ok tt) ->
  parses (read_chunked_loop fuel check (length left) got) (left ++ c) (fun x c' => x = got ++ left /\ c' = c).
Proof.
  revert left got. induction fuel as [|k IH]; intros left got Hf Hcheck; [lia|]. cbn [read_chunked_loop].
  destruct (Nat.eqb_spec (length left) 0) as [E0|E0].
  { apply nil_length_inv in E0 as ->. apply parses_ret. by rewrite app_nil_r. }
  set (n := length left `min` METADATA_SIZE). assert (0 < n <= length left) as Hn by (unfold n, METADATA_SIZE; lia).
  pose proof (take_drop n left) as Htd. assert (n = length (take n left)) as Hlen by (rewrite length_take; lia).
  pose proof (parses_exact (take n left) (drop n left ++ c)) as Hx. rewrite <- Hlen, app_assoc, Htd in Hx.
  eapply parses_bind; [exact Hx|].
  intros x c' [-> ->]. eapply parses_bind; [by apply (parses_lift _ tt), (Hcheck [] _ (drop n left))|].
  intros ? c' [-> ->]. replace (length left - n) with (length (drop n left)) by (rewrite length_drop; lia).
  eapply parses_mono; [apply IH; [rewrite length_drop; lia|]|].
  - intros x y z E. apply (Hcheck (take n left ++ x) y z). by rewrite <- app_assoc, <- E.
  - intros x c' [-> ->]. by rewrite <- app_assoc, Htd.
Qed.

Lemma parses_chunked check a c : (forall x y z, a = x ++ y ++ z -> check y = Ok tt) ->
  parses (read_chunked check (length a)) (a ++ c) (fun x c' => x = a /\ c' = c).
Proof. intros. apply (parses_chunked_loop check (S (length a)) a []); [lia|done]. Qed.
End parses.

Lemma obtains_outcome {A} img rep bad (o : outcome A) x : o = Done x -> obtains img rep bad (lift_outcome o) (fun y => y = x).
Proof. intros ->. by apply obtains_ret. Qed.

Lemma obtains_io {A} img rep bad (o : io A) x : o = Ok x -> obtains img rep bad (lift_io o) (fun y => y = x).
Proof. intros E. by apply (obtains_lift _ _ _ o x). Qed.

(** A computation on a reader of its own. *)
Lemma obtains_parses {R A} `{HR : AsyncRead R} `{!AsyncReadOk R} img rep bad (m : M R A) (r : R) c P :
  reader_of bad r c -> parses bad m c P ->
  obtains img rep bad (run m r) (fun '(x, r') => exists c', P x c' /\ reader_of bad r' c').
Proof.
  intros Hr Hm. apply obtains_run. eapply post_mono; [by apply Hm|]. intros r' [x|e| |]; done.
Qed.
