(* ===== verification/SquashEntries.v ===== *)
(** * Extended attributes, inodes and listings, written and read

    The lemmas on the parts of SquashInode.v, with the logic of SquashTable.v: what the writer adds to the
    tables for the extended attributes of an inode and for the listing of a directory, and that the reader
    makes of these bytes, and of the bytes of each kind of inode, what was written. *)
From stdpp Require Import sorting.
From S2P Require Import Prelude RustStr BTree SquashFormat SquashBlocks SquashTree SquashData SquashFiles SquashIo SquashImage SquashLoad SquashInode SquashTable.

Local Open Scope rust_scope.
Local Open Scope poll_scope.

(** ** Casts *)

Lemma cast_range t z : in_range t z = true -> cast t z = z.
Proof. destruct t; cbn [in_range cast]; intros; rewrite Z.mod_small by lia; lia. Qed.

Lemma in_range_u32 z : (0 <= z < 2 ^ 32)%Z -> in_range u32 z = true.
Proof. unfold in_range. lia. Qed.

Lemma in_range_u16 z : (0 <= z < 2 ^ 16)%Z -> in_range u16 z = true.
Proof. unfold in_range. lia. Qed.

Lemma reference_block_range ref : (0 <= ref < 2 ^ 48)%Z -> in_range u32 (Z.shiftr ref 16) = true.
Proof.
  intros Hr. apply in_range_u32. rewrite Z.shiftr_div_pow2 by lia.
  split; [apply Z.div_pos; lia|apply Z.div_lt_upper_bound; lia].
Qed.

Lemma try_into_ok t n message z : try_into t n message = Ok z -> z = Z.of_nat n /\ in_range t z = true.
Proof. unfold try_into. destruct (in_range t (Z.of_nat n)) eqn:E; intros [= <-]. done. Qed.

Lemma checked_add_ok a b message z : checked_add a b message = Ok z -> z = (a + b)%Z /\ in_range u32 z = true.
Proof. unfold checked_add. destruct (in_range u32 (a + b)%Z) eqn:E; intros [= <-]. done. Qed.

(** ** Extended attributes *)

Lemma strip_prefix_app p name rest : strip_prefix p name = Some rest -> name = p ++ rest.
Proof.
  revert name. induction p as [|x p IH]; intros name; simpl; [by intros [= ->]|].
  destruct name as [|y name]; [done|]. destruct (decide (x = y)) as [->|]; [|done]. intros E. simpl. by rewrite (IH name E).
Qed.

Lemma find_prefix_spec prefixes k name kind rest : find_prefix prefixes k name = Some (kind, rest) ->
  exists i p, kind = (k + Z.of_nat i)%Z /\ prefixes !! i = Some p /\ name = p ++ rest.
Proof.
  revert k. induction prefixes as [|p ps IH]; intros k; simpl; [done|].
  destruct (strip_prefix p name) as [r|] eqn:E.
  - intros [= <- <-]. exists 0, p. split; [lia|]. split; [done|]. by apply strip_prefix_app.
  - intros (i & q & -> & Hq & ->)%IH. exists (S i), q. split; [lia|done].
Qed.

Lemma xattr_kind_spec full kind name : xattr_kind full = Some (kind, name) ->
  exists p, (0 <= kind < 3)%Z /\ XATTR_PREFIXES !! Z.to_nat kind = Some p /\ full = p ++ name /\ contains Byte.x00 p = false.
Proof.
  intros (i & p & -> & Hp & ->)%find_prefix_spec. rewrite Z.add_0_l, Nat2Z.id. exists p.
  destruct i as [|[|[|i]]]; simpl in Hp; simplify_eq; split; try lia; split; done.
Qed.

Section xattrs.
Context `{ZS : Zstd} `{!ZstdOk ZS}.
Variable lv : Z.

(** An attribute on disk. *)
Definition xattr_bytes '(full, value) : bytes :=
  match xattr_kind full with
  | Some (kind, name) =>
      serialize (mkXattrEntry kind (Z.of_nat (length name))) ++ name ++ to_le_bytes u32 (Z.of_nat (length value)) ++ value
  | None => []
  end.

Definition xattr_size '(full, value) : Z := (Z.of_nat (length (full : bytes)) + 1 + Z.of_nat (length (value : bytes)))%Z.

Definition xattr_ok '(full, value) : Prop :=
  exists kind name, xattr_kind full = Some (kind, name) /\ name ≠ [] /\ contains Byte.x00 name = false /\
    (Z.of_nat (length name) < 2 ^ 16)%Z /\ (Z.of_nat (length (value : bytes)) < 2 ^ 32)%Z.

Definition xattrs_size (attrs : list (bytes * bytes)) : Z := foldr (fun a n => (xattr_size a + n)%Z) 0%Z attrs.

Lemma xattrs_size_pos attrs : (0 <= xattrs_size attrs)%Z.
Proof.
  induction attrs as [|a attrs IH]; [done|]. unfold xattrs_size in *. cbn [foldr].
  assert (0 <= xattr_size a)%Z by (destruct a; unfold xattr_size; lia). lia.
Qed.

Lemma xattrs_loop_emits attrs c size : emits lv c (xattrs_loop attrs size) (fun add size' =>
  add = concat (map xattr_bytes attrs) /\ size' = (size + xattrs_size attrs)%Z /\ Forall xattr_ok attrs /\
  (attrs ≠ [] -> in_range u32 size' = true)).
Proof.
  revert c size. induction attrs as [|[full value] attrs IH]; intros c size; cbn [xattrs_loop].
  { apply emits_ret. split; [done|]. split; [simpl; lia|]. done. }
  destruct (xattr_kind full) as [[kind name]|] eqn:Ek; [|apply emits_fail].
  destruct (is_empty name || contains Byte.x00 name) eqn:En; [apply emits_fail|]. apply orb_false_iff in En as [Hne Hnul].
  eapply emits_bind; [apply emits_lift|]. intros ? nsz (-> & [-> Hn16]%try_into_ok).
  eapply emits_bind; [apply emits_disk|]. intros ? [] ->. eapply emits_bind; [apply emits_write_all|]. intros ? [] ->.
  eapply emits_bind; [apply emits_lift|]. intros ? vsz (-> & [-> Hv32]%try_into_ok).
  eapply emits_bind; [apply emits_write_all|]. intros ? [] ->. eapply emits_bind; [apply emits_write_all|]. intros ? [] ->.
  eapply emits_bind; [apply emits_lift|]. intros ? fsz (-> & [-> _]%try_into_ok).
  eapply emits_bind; [apply emits_lift|]. intros ? sz1 (-> & [-> _]%checked_add_ok).
  eapply emits_bind; [apply emits_lift|]. intros ? sz2 (-> & [-> Hr]%checked_add_ok).
  eapply emits_mono; [apply IH|]. intros add z (-> & -> & HF & Hrange). cbn [map concat xattr_bytes app]. rewrite Ek.
  split; [by rewrite <- !app_assoc|]. split; [unfold xattrs_size; cbn [foldr xattr_size]; lia|]. split.
  - constructor; [|done]. exists kind, name. split; [done|]. split; [by apply is_empty_false|]. split; [done|].
    unfold in_range in *. lia.
  - intros _. destruct attrs as [|a attrs]; [cbn [xattrs_size foldr] in *; by rewrite Z.add_0_r|by apply Hrange].
Qed.

Variables (img : bytes) (rep : option Z) (bad : Prop) (im : Image).
Abbreviation obtains := (obtains img rep bad).

(** A name above all others is new, and comes last. *)
Lemma sorted_new (result attrs : list (bytes * bytes)) name value :
  StronglySorted (keys_lt bytes_cmp) (map fst (result ++ (name, value) :: attrs)) ->
  BTreeMap_get bytes_cmp name result = None /\ BTreeMap_insert bytes_cmp name value result = result ++ [(name, value)].
Proof.
  intros Hs. assert (Forall (fun x => bytes_cmp name x.1 = Gt) result) as Hgt.
  { induction result as [|[k v] result IH]; [constructor|]. cbn [map app fst] in Hs. inversion Hs as [|? ? Hs' HF]; subst.
    constructor; [|by apply IH]. rewrite map_app in HF. apply Forall_app in HF as [_ HF]. inversion HF as [|? ? Hlt _]; subst.
    simpl. unfold keys_lt in Hlt. rewrite (cmp_opp bytes_cmp), Hlt. done. }
  split; [|by apply map_insert_last]. clear Hs. induction Hgt as [|[k v] result Hk _ IH]; simpl in *; [done|]. by rewrite Hk.
Qed.

Lemma attributes_loop_spec id attrs : forall reader rest total result, Forall xattr_ok attrs ->
  StronglySorted (keys_lt bytes_cmp) (map fst (result ++ attrs)) ->
  reader_of bad reader (concat (map xattr_bytes attrs) ++ rest) ->
  (0 <= total)%Z -> (total + xattrs_size attrs <= xi_size id < 2 ^ 32)%Z ->
  obtains (attributes_loop im (length attrs) id reader total result)
    (fun x => x = ((total + xattrs_size attrs)%Z, result ++ attrs)).
Proof.
  induction attrs as [|[full value] attrs IH]; intros reader rest total result HF Hs Hr Ht Hsize; cbn [length attributes_loop].
  { apply obtains_ret. cbn. by rewrite Z.add_0_r, app_nil_r. }
  apply Forall_cons in HF as [Ha HF']. unfold xattr_ok in Ha. destruct Ha as (kind & name & Ek & Hne & Hnul & Hn & Hv).
  cbn [map concat xattr_bytes] in Hr. rewrite Ek in Hr. rewrite <- !app_assoc in Hr.
  destruct (xattr_kind_spec full kind name Ek) as (p & Hk & Hp & Hfull & Hpnul).
  eapply obtains_bind; [eapply obtains_parses; [exact Hr|]; apply parses_disk; unfold disk_ok; cbn; lia|].
  intros [e r1] (c' & [-> ->] & Hr1). cbn [xe_kind xe_name_size].
  assert (Z.ldiff kind 0x100 = kind /\ Z.land kind 0x100 = 0%Z) as [Hdiff Hland].
  { assert (kind = 0 \/ kind = 1 \/ kind = 2)%Z as [Ek0|[Ek0|Ek0]] by lia; by rewrite Ek0. }
  rewrite Hdiff, Hp. destruct (Z.eqb_spec (Z.of_nat (length name)) 0) as [E|_]; [by destruct name|].
  rewrite Nat2Z.id. eapply obtains_bind; [eapply obtains_parses; [exact Hr1|]; apply parses_exact|].
  intros [x r2] (c' & [-> ->] & Hr2). rewrite <- Hfull.
  assert (contains Byte.x00 full = false) as ->.
  { rewrite Hfull. unfold contains in *. by rewrite existsb_app, Hpnul. }
  eapply obtains_bind; [eapply obtains_parses; [exact Hr2|]; apply parses_u32; unfold in_range; lia|].
  intros [x r3] (c' & [-> ->] & Hr3).
  eapply obtains_bind.
  { unfold xattr_input. rewrite Hland. cbn [Z.eqb negb].
    apply (obtains_ret _ _ _ _ (fun x => x = (Z.of_nat (length value), r3, None))). done. }
  intros x ->. cbn [xattrs_size foldr] in Hsize. unfold xattrs_size in IH. cbn [xattr_size] in Hsize.
  pose proof (xattrs_size_pos attrs) as Hpos. unfold xattrs_size in Hpos.
  destruct (Z.leb_spec (2 ^ 64) (total + (Z.of_nat (length full) + 1 + Z.of_nat (length value)))); [lia|].
  destruct (Z.ltb_spec (xi_size id) (total + (Z.of_nat (length full) + 1 + Z.of_nat (length value)))); [lia|].
  rewrite Nat2Z.id. eapply obtains_bind; [eapply obtains_parses; [exact Hr3|]; by apply parses_chunked|].
  intros [x r4] (c' & [-> ->] & Hr4). destruct (sorted_new result attrs full value Hs) as [-> ->].
  rewrite bool_decide_eq_false_2 by (intros [? ?]; done). cbn [default].
  eapply obtains_mono.
  - apply (IH r4 rest (total + (Z.of_nat (length full) + 1 + Z.of_nat (length value)))%Z (result ++ [(full, value)])); try done; [|lia|lia].
    by rewrite <- app_assoc.
  - intros x ->. unfold xattrs_size. cbn [foldr xattr_size]. rewrite <- app_assoc. f_equal. lia.
Qed.

(** The attributes of an inode in the tables: [xb] is the content of the xattr table. *)
Definition xattrs_at (xb : bytes) (ids : list XattrId) (index : Z) (attrs : list (bytes * bytes)) : Prop :=
  attrs = [] /\ index = INVALID_INDEX \/
  attrs ≠ [] /\ (0 <= index < INVALID_INDEX)%Z /\ Forall xattr_ok attrs /\
  exists before ref, reference_of lv before ref /\ before ++ concat (map xattr_bytes attrs) `prefix_of` xb /\
    ids !! Z.to_nat index = Some (mkXattrId ref (Z.of_nat (length attrs)) (xattrs_size attrs)) /\
    (xattrs_size attrs < 2 ^ 32)%Z.

Lemma xattr_bytes_nonempty a : xattr_ok a -> xattr_bytes a ≠ [].
Proof. destruct a as [full value]. intros (kind & name & E & Hne & _). simpl. rewrite E. by destruct name. Qed.

Lemma attributes_spec xb index attrs :
  (im_xattrs im ≠ [] -> table_in lv img (superblock im) (xattr_start im) (xattr_end im) (xattr_map im) xb) ->
  xattrs_at xb (im_xattrs im) index attrs -> StronglySorted (keys_lt bytes_cmp) (map fst attrs) ->
  obtains (attributes im index) (fun x => x = attrs).
Proof.
  intros Htab [[-> ->]|(Hne & Hi & HF & before & ref & Href & [rest ->] & Hid & Hsz)] Hs; unfold attributes.
  { rewrite Z.eqb_refl. by apply obtains_ret. }
  destruct (Z.eqb_spec index INVALID_INDEX) as [E|_]; [lia|]. rewrite Hid.
  assert (im_xattrs im ≠ []) as Hne' by (intros E; by rewrite E in Hid).
  assert (concat (map xattr_bytes attrs) ++ rest ≠ []) as Hrest.
  { destruct attrs as [|a attrs]; [done|]. inversion HF as [|? ? Ha _]; subst. cbn [map concat].
    pose proof (xattr_bytes_nonempty a Ha). by destruct (xattr_bytes a). }
  rewrite <- app_assoc in Htab.
  destruct (table_reference_at lv img rep bad (superblock im) _ _ _ _ _ ref (Htab Hne') Hrest Href) as [Hrd _].
  eapply obtains_bind; [exact Hrd|]. intros r Hr. cbn [xi_count xi_size]. rewrite Nat2Z.id.
  eapply obtains_bind; [apply (attributes_loop_spec _ attrs r rest 0 []); try done; cbn [xi_size]; lia|].
  intros x ->. rewrite Z.add_0_l, Z.eqb_refl. by apply obtains_ret.
Qed.
End xattrs.

(** ** Inodes but directories *)

(** The fields of a record fit their types. *)
Ltac solve_disk := unfold disk_ok, in_range in *; cbn in *; lia.

Section simple.
Context `{ZS : Zstd} `{HR : !AsyncReadOk InodeReader}.
Variables (bad : Prop) (im : Image).
Abbreviation parses := (parses bad).

Lemma read_file_blocks_spec size sizes : forall index position blocks stop rest,
  inode_blocks (superblock im) size index position sizes = Ok (blocks, stop) ->
  Forall (fun z => in_range u32 z = true) sizes ->
  parses (read_file_blocks im (length sizes) size index position) (concat (map (to_le_bytes u32) sizes) ++ rest)
    (fun x c' => x = blocks /\ c' = rest).
Proof.
  induction sizes as [|encoded sizes IH]; intros index position blocks stop rest; cbn [inode_blocks length read_file_blocks].
  { intros [= <- _] _. by apply parses_ret. }
  destruct (data_bounds (superblock im) position encoded) as [[]|e] eqn:Ed; [|done]. cbn [result_bind].
  destruct (_ && _) eqn:Eb; [done|].
  destruct (inode_blocks _ _ _ _ sizes) as [[bl st]|e] eqn:Ei; [|done]. intros [= <- _] HF. inversion HF; subst.
  cbn [map concat]. rewrite <- app_assoc. eapply parses_bind; [by apply parses_u32|]. intros x c' [-> ->].
  eapply parses_bind; [by apply (parses_lift _ _ tt)|]. intros ? c' [-> ->]. rewrite Eb. eapply parses_bind; [by eapply IH|]. intros x c' [-> ->]. by apply parses_ret.
Qed.

Lemma read_file_spec file sizes f rest : disk_ok file = true -> Forall (fun z => in_range u32 z = true) sizes ->
  block_count (superblock im) file = Z.of_nat (length sizes) ->
  inode_file (superblock im) (im_fragments im) file sizes = Ok f ->
  parses (read_file im true) (serialize file ++ concat (map (to_le_bytes u32) sizes) ++ rest)
    (fun x c' => x = (f, fi_links file, fi_xattr file) /\ c' = rest).
Proof.
  intros Hok HF Hc Hf. unfold read_file. eapply parses_bind; [by apply parses_disk|]. intros x c' [-> ->].
  unfold inode_file in Hf. destruct (_ || _); [done|].
  destruct (inode_blocks _ _ _ _ sizes) as [[bl st]|e] eqn:Ei; [|done]. cbn [result_bind] in Hf.
  destruct (inode_tail _ _ file) as [last|e] eqn:Et; [|done]. cbn [result_bind] in Hf. injection Hf as <-.
  rewrite Hc, Nat2Z.id. eapply parses_bind; [by eapply read_file_blocks_spec|]. intros x c' [-> ->].
  eapply parses_bind; [by apply (parses_lift _ _ last)|]. intros x c' [-> ->].
  by apply parses_ret.
Qed.

Lemma no_nul_part target x y z : contains Byte.x00 target = false -> target = x ++ y ++ z -> no_nul y = Ok tt.
Proof.
  intros Hn ->. unfold no_nul, contains in *. rewrite !existsb_app in Hn.
  by apply orb_false_iff in Hn as [_ [-> _]%orb_false_iff].
Qed.

Lemma read_symlink_spec target links xattr rest : contains Byte.x00 target = false ->
  (Z.of_nat (length target) < 2 ^ 32)%Z -> in_range u32 links = true -> in_range u32 xattr = true ->
  parses (read_symlink true)
    ((serialize (mkSymlinkInode links (Z.of_nat (length target))) ++ target ++ to_le_bytes u32 xattr) ++ rest)
    (fun x c' => x = (target, links, xattr) /\ c' = rest).
Proof.
  intros Hn Hl Hlk Hx. unfold read_symlink. rewrite <- !app_assoc.
  eapply parses_bind; [apply parses_disk; solve_disk|]. intros x c' [-> ->]. cbn [sy_size sy_links]. rewrite Nat2Z.id.
  eapply parses_bind; [apply parses_chunked; intros; by eapply no_nul_part|]. intros x c' [-> ->].
  eapply parses_bind; [by apply parses_u32|]. intros x c' [-> ->]. by apply parses_ret.
Qed.

Lemma read_device_spec device number links xattr rest : (0 <= major device)%Z -> (0 <= minor device)%Z ->
  device_number (major device) (minor device) = Ok number -> in_range u32 links = true -> in_range u32 xattr = true ->
  parses (read_device true) (serialize (mkDeviceInode links number xattr) ++ rest)
    (fun x c' => x = (device, links, xattr) /\ c' = rest).
Proof.
  intros Ha Hi Hd Hl Hx. destruct device as [a i]. cbn [major minor] in *.
  assert (a < 2 ^ 12 /\ i < 2 ^ 20)%Z as [Ha' Hi'] by (unfold device_number in Hd; destruct (_ || _) eqn:E; [done|lia]).
  rewrite device_number_ok in Hd by lia. injection Hd as <-.
  pose proof (device_word_range a i ltac:(lia) ltac:(lia)).
  unfold read_device. eapply parses_bind; [apply parses_disk; solve_disk|]. intros x c' [-> ->]. cbn [dv_device].
  rewrite device_parts_word by lia. by apply parses_ret.
Qed.

Lemma read_ipc_spec links xattr rest : in_range u32 links = true -> in_range u32 xattr = true ->
  parses (read_ipc true) (serialize (mkIpcInode links xattr) ++ rest) (fun x c' => x = (links, xattr) /\ c' = rest).
Proof.
  intros Hl Hx. unfold read_ipc. eapply parses_bind; [apply parses_disk; solve_disk|]. intros x c' [-> ->]. by apply parses_ret.
Qed.
End simple.

(** ** Listings of directories *)

Definition entry_bytes (number : Z) (c : Child) : bytes :=
  serialize (mkDirectoryEntry (ch_reference c `mod` 2 ^ 16) (ch_number c - number) (InodeKind_basic (ch_kind c))
    (Z.of_nat (length (ch_name c)) - 1)) ++ ch_name c.

(** Children in one group: the header has the block and the number of the first. *)
Definition group_bytes (g : list Child) : bytes :=
  match g with
  | [] => []
  | c :: _ =>
      serialize (mkDirectoryHeader (Z.of_nat (length g) - 1) (Z.shiftr (ch_reference c) 16) (ch_number c))
      ++ concat (map (entry_bytes (ch_number c)) g)
  end.

Definition listing_bytes (groups : list (list Child)) : bytes := concat (map group_bytes groups).

(** A child that can be listed in an image of [count] inodes. *)
Definition child_ok (count : Z) (c : Child) : Prop :=
  name_ok (ch_name c) = true /\ (0 <= ch_reference c < 2 ^ 48)%Z /\ (0 < ch_number c <= count)%Z.

Definition near (block number : Z) (c : Child) : Prop :=
  Z.shiftr (ch_reference c) 16 = block /\ in_range i16 (ch_number c - number) = true.

Definition group_ok (g : list Child) : Prop :=
  exists c cs, g = c :: cs /\ length g <= 256 /\ Forall (near (Z.shiftr (ch_reference c) 16) (ch_number c)) g.

Lemma entry_bytes_length number c : length (entry_bytes number c) = 8 + length (ch_name c).
Proof. unfold entry_bytes. by rewrite length_app, serialize_length. Qed.

Lemma group_bytes_length c cs : length (group_bytes (c :: cs)) = 12 + length (concat (map (entry_bytes (ch_number c)) (c :: cs))).
Proof. unfold group_bytes. by rewrite length_app, serialize_length. Qed.

Lemma group_bytes_nonempty g : group_ok g -> 12 < length (group_bytes g).
Proof.
  intros (c & cs & -> & _). rewrite group_bytes_length. cbn [map concat]. rewrite length_app, entry_bytes_length. lia.
Qed.

Lemma name_length name : name_ok name = true -> 1 <= length name <= 256.
Proof. intros (H1 & H2 & _)%name_ok_spec. destruct name; [done|]. simpl in *. lia. Qed.

(** The indexes of a listing that starts when the table has the content [d0], from the groups after [d] on:
    an index names a group by its offset, its first name and the block it is in. *)
Inductive indexes_of `{ZS : Zstd} (lv : Z) (d0 : bytes) : bytes -> list (list Child) -> list (DirectoryIndex * bytes) -> Prop :=
| indexes_nil d : indexes_of lv d0 d [] []
| indexes_skip d g gs ixs : indexes_of lv d0 (d ++ group_bytes g) gs ixs -> indexes_of lv d0 d (g :: gs) ixs
| indexes_take d c cs gs ixs pos : reference_of lv (d0 ++ d) pos -> indexes_of lv d0 (d ++ group_bytes (c :: cs)) gs ixs ->
    indexes_of lv d0 d ((c :: cs) :: gs)
      ((mkDirectoryIndex (Z.of_nat (length d)) (Z.shiftr pos 16) (Z.of_nat (length (ch_name c)) - 1), ch_name c) :: ixs).

Section write_listing.
Context `{ZS : Zstd} `{!ZstdOk ZS} {S : Type}.
Variables (lv count : Z) (refs : list Z) (nodes : list (FlatNode S)).
Hypothesis Hcount : (count < 2 ^ 32)%Z.

(** The child of a node that a directory has under a name. *)
Definition child_is (x : bytes * nat) (c : Child) : Prop :=
  ch_name c = x.1 /\ refs !! x.2 = Some (ch_reference c) /\ ch_number c = (Z.of_nat x.2 + 1)%Z /\
  exists node, nodes !! x.2 = Some node /\ ch_kind c = NodeContents_kind (contents (fn_node node)).

Lemma rest_of_group_spec block number children cs : Forall2 child_is children cs -> forall len, len <= 256 ->
  exists group rest gcs rcs, rest_of_group refs block number len children = Done (group, rest) /\
    cs = gcs ++ rcs /\ Forall2 child_is group gcs /\ Forall2 child_is rest rcs /\
    len + length gcs <= 256 /\ Forall (near block number) gcs.
Proof.
  induction 1 as [|[name child] c children cs Hc HF IH]; intros len Hlen; cbn [rest_of_group].
  { exists [], [], [], []. simpl. by rewrite Nat.add_0_r. }
  assert (exists group rest gcs rcs, Done ([], (name, child) :: children) = Done (group, rest) /\ c :: cs = gcs ++ rcs /\
    Forall2 child_is group gcs /\ Forall2 child_is rest rcs /\ len + length gcs <= 256 /\ Forall (near block number) gcs) as Hstop.
  { exists [], ((name, child) :: children), [], (c :: cs). simpl. rewrite Nat.add_0_r. split; [done|]. split; [done|]. split; [done|]. split; [by constructor|]. done. }
  destruct (Nat.eqb_spec len 256) as [_|Hne]; [done|].
  pose proof Hc as (_ & Hr & Hn & _). cbn [snd] in Hr, Hn. rewrite Hr. cbn [unwrap outcome_bind]. rewrite <- Hn.
  destruct (Z.eqb_spec (Z.shiftr (ch_reference c) 16) block) as [Eb|_]; [|done].
  destruct (in_range i16 (ch_number c - number)) eqn:Ei; [|done]. cbn [negb orb].
  destruct (IH (1 + len)) as (group & rest & gcs & rcs & -> & -> & Hg & Hrest & Hl & Hnear); [lia|].
  exists ((name, child) :: group), rest, (c :: gcs), rcs. cbn [outcome_bind length]. split; [done|]. split; [done|].
  split; [by constructor|]. split; [done|]. split; [lia|]. by constructor.
Qed.

Lemma len_minus_one_ok t name : t = u16 \/ t = u32 -> name_ok name = true ->
  len_minus_one t name = Done (Z.of_nat (length name) - 1)%Z.
Proof.
  intros Ht Hn. pose proof (name_length name Hn). unfold len_minus_one.
  rewrite cast_range by (destruct Ht; subst; unfold in_range; lia). destruct (Z.eqb_spec (Z.of_nat (length name)) 0); [lia|done].
Qed.

Lemma write_entries_emits number group cs : Forall2 child_is group cs -> forall c size,
  Forall (child_ok count) cs -> Forall (fun c => in_range i16 (ch_number c - number) = true) cs ->
  in_range u32 size = true ->
  emits lv c (write_entries refs nodes number group size) (fun add size' =>
    add = concat (map (entry_bytes number) cs) /\ size' = (size + Z.of_nat (length add))%Z /\ in_range u32 size' = true).
Proof.
  induction 1 as [|[name child] x group cs Hx HF IH]; intros c size Hok Hnear Hsize; cbn [write_entries].
  { apply emits_ret. split; [done|]. split; [simpl; lia|done]. }
  unfold child_is in Hx. cbn [fst snd] in Hx. destruct Hx as (<- & Hr & Hn & node & Hnode & Hk).
  inversion Hok as [|? ? (Hname & Href & Hnum) Hok']; subst. inversion Hnear as [|? ? Hi Hnear']; subst.
  eapply emits_bind; [apply emits_outcome; by rewrite Hr|]. intros ? ? [-> ->].
  eapply emits_bind; [apply emits_outcome; by rewrite Hnode|]. intros ? ? [-> ->].
  eapply emits_bind; [apply emits_outcome, len_minus_one_ok; [by left|done]|]. intros ? ? [-> ->].
  eapply emits_bind; [apply emits_disk|]. intros ? [] ->. eapply emits_bind; [apply emits_write_all|]. intros ? [] ->.
  rewrite <- Hn, <- Hk, (cast_range i16) by done. pose proof (name_length _ Hname).
  rewrite (cast_range u32) by (apply in_range_u32; change (SIZE DirectoryEntry) with 8; lia).
  eapply emits_bind; [apply emits_lift|]. intros ? ? (-> & [-> Hsz]%checked_add_ok).
  eapply emits_mono; [by apply IH|]. intros add z (-> & -> & Hz). cbn [app map concat].
  split; [by unfold entry_bytes at 2; rewrite <- app_assoc|]. rewrite !length_app, serialize_length.
  rewrite !Nat2Z.inj_add in *. rewrite <- !Z.add_assoc in *. done.
Qed.

(** What the loop over the children adds to the table whose content was [d0] before the listing and [d0 ++ d]
    before the loop. *)
Definition groups_written (d0 d : bytes) (cs : list Child) (size : Z) (ixs : list (DirectoryIndex * bytes))
    (add : bytes) '((size', ixs') : Z * list (DirectoryIndex * bytes)) : Prop :=
  exists groups new, add = listing_bytes groups /\ concat groups = cs /\ Forall group_ok groups /\
    size' = (size + Z.of_nat (length add))%Z /\ in_range u32 size' = true /\ ixs' = ixs ++ new /\
    (Z.of_nat (length ixs') < 2 ^ 16)%Z /\ indexes_of lv d0 d groups new.

(** A group gets an index when it is the first one in its block. *)
Lemma group_index_emits d0 d c cs pos ixs ib : reference_of lv (d0 ++ d) pos -> name_ok (ch_name c) = true ->
  (Z.of_nat (length ixs) < 2 ^ 16)%Z ->
  emits lv (d0 ++ d)
    (if negb (Z.shiftr pos 16 =? ib)%Z && (Z.of_nat (length ixs) <? 2 ^ 16 - 1)%Z then
       let> name_size := lift_outcome (len_minus_one u32 (ch_name c)) in
       m_ret (ixs ++ [(mkDirectoryIndex (3 + Z.of_nat (length d) - 3) (cast u32 (Z.shiftr pos 16)) name_size, ch_name c)],
              Z.shiftr pos 16)
     else m_ret (ixs, ib))
    (fun add '(ixs', _) => add = [] /\ (Z.of_nat (length ixs') < 2 ^ 16)%Z /\
      exists one, ixs' = ixs ++ one /\ forall gs new, indexes_of lv d0 (d ++ group_bytes (c :: cs)) gs new ->
        indexes_of lv d0 d ((c :: cs) :: gs) (one ++ new)).
Proof.
  intros Hpos Hn Hix. destruct (negb _ && _) eqn:Ei.
  - eapply emits_bind; [apply emits_outcome, len_minus_one_ok; [by right|done]|]. intros ? ? [-> ->]. apply emits_ret.
    split; [done|]. split; [rewrite length_app; simpl; lia|]. eexists. split; [done|]. intros gs new Hgs. cbn [app].
    destruct (reference_of_range lv _ _ Hpos) as [Hp48 _]. rewrite (cast_range u32) by by apply reference_block_range.
    replace (3 + Z.of_nat (length d) - 3)%Z with (Z.of_nat (length d)) by lia. by apply indexes_take.
  - apply emits_ret. split; [done|]. split; [done|]. exists []. rewrite app_nil_r. split; [done|]. intros gs new Hgs.
    by apply indexes_skip.
Qed.

Lemma write_groups_emits d0 fuel : forall children cs d size ixs ib, Forall2 child_is children cs ->
  Forall (child_ok count) cs -> length children <= fuel -> size = (3 + Z.of_nat (length d))%Z -> in_range u32 size = true ->
  (Z.of_nat (length ixs) < 2 ^ 16)%Z ->
  emits lv (d0 ++ d) (write_groups fuel refs nodes children size ixs ib) (groups_written d0 d cs size ixs).
Proof.
  induction fuel as [|fuel IH]; intros children cs d size ixs ib HF Hok Hfuel Hsize Hr Hix;
    (destruct HF as [|[name child] c children cs Hc HF]; cbn [write_groups];
      [apply emits_ret; exists [], []; simpl; rewrite app_nil_r, Z.add_0_r; repeat split; try done; constructor|]);
    [simpl in Hfuel; lia|].
  pose proof Hc as (Hname & Href & Hnum & _). cbn [fst snd] in Hname, Href, Hnum. subst name.
  inversion Hok as [|? ? Hcok Hok']; subst. pose proof Hcok as (Hn & Hr48 & Hnr).
  eapply emits_bind; [apply emits_outcome; by rewrite Href|]. intros ? ? [-> ->].
  rewrite <- Hnum, (cast_range u32) by (apply in_range_u32; lia).
  destruct (rest_of_group_spec (Z.shiftr (ch_reference c) 16) (ch_number c) children cs HF 1)
    as (group & rest & gcs & rcs & Hg & -> & HFg & HFr & Hlen & Hnear); [lia|].
  eapply emits_bind; [apply emits_outcome, Hg|]. intros ? ? [-> ->].
  eapply emits_bind; [apply emits_reference|]. intros ? pos [-> Hpos]. rewrite !app_nil_r in *.
  assert (Forall (near (Z.shiftr (ch_reference c) 16) (ch_number c)) (c :: gcs)) as Hgnear.
  { constructor; [|done]. split; [done|]. unfold in_range. lia. }
  assert (group_ok (c :: gcs)) as Hgok by (exists c, gcs; split; [done|]; split; [simpl; lia|done]).
  eapply emits_bind; [by apply (group_index_emits d0 d c gcs)|].
  intros ? [ixs' ib'] (-> & Hix' & one & -> & Hone). rewrite app_nil_r.
  assert (length (group : list (bytes * nat)) = length gcs) as Hglen by by eapply Forall2_length.
  eapply emits_bind; [apply emits_disk|]. intros ? [] ->.
  eapply emits_bind; [apply emits_lift|]. intros ? ? (-> & [-> Hsz]%checked_add_ok).
  eapply emits_bind.
  { apply (write_entries_emits (ch_number c) ((ch_name c, child) :: group) (c :: gcs)); [by constructor|..|done].
    - constructor; [done|]. by apply Forall_app in Hok' as [? _].
    - eapply Forall_impl; [exact Hgnear|]. by intros x [_ ?]. }
  intros ? sz2 (-> & -> & Hsz2). cbn [length] in *. rewrite Hglen. rewrite (cast_range u32) by (apply in_range_u32; lia).
  rewrite (cast_range u32) by by apply reference_block_range.
  assert (group_bytes (c :: gcs) = serialize (mkDirectoryHeader (Z.of_nat (1 + length gcs) - 1)
    (Z.shiftr (ch_reference c) 16) (ch_number c)) ++ concat (map (entry_bytes (ch_number c)) (c :: gcs))) as Hgb by done.
  rewrite app_nil_r, <- (app_assoc _ (serialize _)). cbn [Nat.add] in Hgb. rewrite <- Hgb, <- app_assoc.
  replace (3 + Z.of_nat (length d) + Z.of_nat (SIZE DirectoryHeader) +
    Z.of_nat (length (concat (map (entry_bytes (ch_number c)) (c :: gcs)))))%Z
    with (3 + Z.of_nat (length (d ++ group_bytes (c :: gcs))))%Z in *
    by (rewrite length_app, group_bytes_length; change (SIZE DirectoryHeader) with 12; lia).
  apply Forall_app in Hok' as [_ Hok']. simpl in Hfuel.
  assert (length rest <= length children) as Hrest.
  { apply Forall2_length in HFr, HF. rewrite length_app in HF. lia. }
  eapply emits_mono; [apply (IH rest rcs (d ++ group_bytes (c :: gcs))); try done; lia|].
  intros add [size' ixs'] (groups & new & -> & <- & HFg' & -> & Hr' & -> & Hix2 & Hnew).
  exists ((c :: gcs) :: groups), (one ++ new). cbn [app]. rewrite app_assoc, <- Hgb. split; [done|]. split; [done|].
  split; [by constructor|]. rewrite !length_app in *. split; [lia|]. split; [done|]. split; [by rewrite app_assoc|].
  split; [lia|]. by apply Hone.
Qed.
End write_listing.

Definition index_bytes '((i, name) : DirectoryIndex * bytes) : bytes := serialize i ++ name.

(** Children are in the order of their names, after the last one read. *)
Definition names_above (last : option bytes) (cs : list Child) : Prop :=
  StronglySorted (keys_lt bytes_cmp) (map ch_name cs) /\
  match last, cs with Some l, c :: _ => keys_lt bytes_cmp l (ch_name c) | _, _ => True end.

Lemma names_above_cons last c cs : names_above last (c :: cs) ->
  match last with Some l => negb (is_lt (bytes_cmp l (ch_name c))) | None => false end = false /\ names_above (Some (ch_name c)) cs.
Proof.
  intros [Hs Hl]. cbn [map] in Hs. inversion Hs as [|? ? Hs' HF]; subst. split.
  - destruct last as [l|]; [|done]. unfold keys_lt in Hl. by rewrite Hl.
  - split; [done|]. destruct cs as [|c' cs]; [done|]. by inversion HF.
Qed.

Lemma reference_join ref : (0 <= ref)%Z -> Z.lor (Z.shiftl (Z.shiftr ref 16) 16) (ref `mod` 2 ^ 16) = ref.
Proof.
  intros Hr. rewrite lor_shiftl_add by (lia || (apply Z.mod_pos_bound; lia)).
  rewrite Z.shiftr_div_pow2 by lia. pose proof (Z.div_mod ref (2 ^ 16)). lia.
Qed.

(** The groups of a listing that are to be read from the table [dir], [d] being read. *)
Record to_read (count : Z) (dir d0 d : bytes) (groups : list (list Child)) : Prop := {
  tr_content : (d0 ++ d) ++ listing_bytes groups `prefix_of` dir;
  tr_groups : Forall group_ok groups;
  tr_children : Forall (child_ok count) (concat groups);
}.

Lemma to_read_next count dir d0 d g gs : to_read count dir d0 d (g :: gs) -> to_read count dir d0 (d ++ group_bytes g) gs.
Proof.
  intros [Hp Hg Hc]. split.
  - unfold listing_bytes in *. cbn [map concat] in Hp. by rewrite <- !app_assoc in *.
  - by inversion Hg.
  - cbn [concat] in Hc. by apply Forall_app in Hc as [_ ?].
Qed.

Lemma to_read_mono count dir dir' d0 d gs : dir `prefix_of` dir' -> to_read count dir d0 d gs -> to_read count dir' d0 d gs.
Proof. intros Hp [H1 H2 H3]. split; [by etrans|done|done]. Qed.

(** A listing in the directory table, after the content [before], and the inode that refers to it. *)
Record listing_parts `{ZS : Zstd} (lv count : Z) (dir : bytes) (d : DirectoryInode) (ixs : list (DirectoryIndex * bytes)) (cs : list Child)
    (before : bytes) (groups : list (list Child)) (ref : Z) : Prop := {
  lp_reference : reference_of lv before ref;
  lp_read : to_read count dir before [] groups;
  lp_children : concat groups = cs;
  lp_names : StronglySorted (keys_lt bytes_cmp) (map ch_name cs);
  lp_indexes : indexes_of lv before [] groups ixs;
  lp_size : di_size d = (3 + Z.of_nat (length (listing_bytes groups)))%Z;
  lp_block : di_block d = Z.shiftr ref 16;
  lp_offset : di_offset d = (ref `mod` 2 ^ 16)%Z;
}.

Section read_listing.
Context `{ZS : Zstd} `{!ZstdOk ZS}.
Variables (lv : Z) (img : bytes) (rep : option Z) (bad : Prop) (im : Image) (dir : bytes).
Let sb := superblock im.
Hypothesis Hdir : table_in lv img sb (directory_table sb) (directory_end im) (directory_map im) dir.
Hypothesis Hcount : (inode_count sb < 2 ^ 32)%Z.

Abbreviation to_read := (to_read (inode_count sb) dir).

(** A position before a group: its block and the next one. *)
Lemma group_position d0 d c cs gs pos : to_read d0 d ((c :: cs) :: gs) -> reference_of lv (d0 ++ d) pos ->
  (exists logical, directory_block im (Z.shiftr pos 16) = Some logical /\
    (logical + Z.land pos 0xffff)%Z = Z.of_nat (length (d0 ++ d))) /\
  (forall x, block_after im (directory_table sb + Z.shiftr pos 16) = Some x -> (Z.of_nat (length (d0 ++ d)) < x.2)%Z).
Proof.
  intros [[rest ->] Hg _] Hpos. rewrite <- app_assoc in Hdir.
  assert (listing_bytes ((c :: cs) :: gs) ++ rest ≠ []) as Hne.
  { inversion Hg as [|? ? H _]; subst. apply group_bytes_nonempty in H. unfold listing_bytes. cbn [map concat].
    destruct (group_bytes (c :: cs)); [simpl in H; lia|done]. }
  split.
  - by destruct (table_reference_at lv img rep bad sb _ _ _ _ _ pos Hdir Hne Hpos) as [_ ?].
  - intros x. by apply (table_next lv img sb _ _ _ _ _ pos x Hdir Hne Hpos).
Qed.

Lemma read_indexes_spec `{HR : !AsyncReadOk InodeReader} d0 d groups ixs : indexes_of lv d0 d groups ixs ->
  forall size previous rest, to_read d0 d groups ->
  size = (3 + Z.of_nat (length d) + Z.of_nat (length (listing_bytes groups)))%Z -> in_range u32 size = true ->
  match previous with Some p => (p < Z.of_nat (length d))%Z | None => True end ->
  parses bad (read_indexes im (length ixs) size previous) (concat (map index_bytes ixs) ++ rest)
    (fun x c' => x = ixs /\ c' = rest).
Proof.
  induction 1 as [d|d g gs ixs Hi IH|d c cs gs ixs pos Hpos Hi IH]; intros size previous rest Hrd Hsize Hr Hprev.
  - by apply parses_ret.
  - unfold listing_bytes in *. cbn [map concat] in Hsize. apply IH; [by apply to_read_next| |done|].
    + rewrite !length_app in *. lia.
    + destruct previous; [|done]. rewrite length_app. lia.
  - destruct (group_position d0 d c cs gs pos Hrd Hpos) as [(logical & Hl & _) _].
    pose proof (reference_of_range lv _ _ Hpos) as [Hp48 _].
    assert (child_ok (inode_count sb) c) as (Hn & _ & _).
    { pose proof (tr_children _ _ _ _ _ Hrd) as H. cbn [concat app] in H. by inversion H. }
    pose proof (name_length _ Hn) as Hnl. pose proof (reference_block_range _ Hp48) as Hb.
    assert (12 < length (group_bytes (c :: cs))) as Hgl.
    { apply group_bytes_nonempty. by pose proof (tr_groups _ _ _ _ _ Hrd) as H; inversion H. }
    unfold listing_bytes in Hsize. cbn [map concat] in Hsize. rewrite length_app in Hsize.
    cbn [length read_indexes map concat index_bytes]. rewrite <- !app_assoc.
    eapply parses_bind; [apply parses_disk; unfold disk_ok, in_range in *; cbn [layout tuple_ok to_tuple DirectoryIndex_disk dx_index dx_block dx_name_size]; unfold in_range; lia|].
    intros x c' [-> ->]. cbn [dx_index dx_block dx_name_size]. rewrite Hl.
    destruct (Z.leb_spec (size - 3) (Z.of_nat (length d))); [lia|].
    destruct (Z.leb_spec 256 (Z.of_nat (length (ch_name c)) - 1)); [lia|].
    assert (match previous with Some p => (Z.of_nat (length d) <=? p)%Z | None => false end = false) as ->.
    { destruct previous; [|done]. lia. }
    rewrite bool_decide_eq_true_2 by by eexists. cbn [negb orb].
    replace (Z.to_nat (Z.of_nat (length (ch_name c)) - 1 + 1)) with (length (ch_name c)) by lia.
    eapply parses_bind; [apply parses_exact|]. intros x c' [-> ->].
    eapply parses_bind; [by apply (parses_lift _ _ tt), validate_name_ok|]. intros ? c' [-> ->].
    eapply parses_bind; [apply IH; [by apply to_read_next| |done|]|].
    + rewrite length_app. unfold listing_bytes. lia.
    + rewrite length_app. lia.
    + intros x c' [-> ->]. by apply parses_ret.
Qed.

Lemma indexes_above d0 d groups ixs : indexes_of lv d0 d groups ixs ->
  Forall (fun x => (Z.of_nat (length d) <= dx_index x.1)%Z) ixs.
Proof.
  induction 1 as [d|d g gs ixs Hi IH|d c cs gs ixs pos Hpos Hi IH]; [constructor| |constructor; [simpl; lia|]];
    (eapply Forall_impl; [exact IH|]); intros x; simpl; rewrite length_app; lia.
Qed.

(** The index of the next group, if it has one, is accepted. *)
Lemma check_index_spec d0 d c cs gs ixs : indexes_of lv d0 d ((c :: cs) :: gs) ixs -> to_read d0 d ((c :: cs) :: gs) ->
  exists ixs', check_index im (Z.of_nat (length d0)) (Z.of_nat (length d)) (ch_name c) ixs = Done (Ok ixs') /\
    indexes_of lv d0 (d ++ group_bytes (c :: cs)) gs ixs'.
Proof.
  intros Hi Hrd. inversion Hi as [|? ? ? ? Hi'|? ? ? ? ixs' pos Hpos Hi']; subst.
  - exists ixs. split; [|done]. unfold check_index. destruct ixs as [|[i name] ixs]; [done|].
    apply indexes_above in Hi'. inversion Hi' as [|? ? H _]; subst. cbn [fst] in H. rewrite length_app in H.
    assert (12 < length (group_bytes (c :: cs))) as Hgl.
    { apply group_bytes_nonempty. by pose proof (tr_groups _ _ _ _ _ Hrd) as HG; inversion HG. }
    destruct (Z.ltb_spec (dx_index i) (Z.of_nat (length d))); [lia|].
    destruct (Z.eqb_spec (dx_index i) (Z.of_nat (length d))); [lia|done].
  - exists ixs'. split; [|done]. unfold check_index. cbn [dx_index dx_block].
    destruct (group_position d0 d c cs gs pos Hrd Hpos) as [(logical & Hl & E) Hnext].
    destruct (Z.ltb_spec (Z.of_nat (length d)) (Z.of_nat (length d))); [lia|]. rewrite Z.eqb_refl, Hl. cbn [unwrap outcome_bind].
    rewrite bool_decide_eq_true_2 by done. rewrite length_app in *.
    assert (0 <= Z.land pos 0xffff)%Z as Hoff by (apply Z.land_nonneg; by right).
    destruct (Z.ltb_spec (Z.of_nat (length d0) + Z.of_nat (length d)) logical); [lia|]. cbn [negb orb].
    fold sb. destruct (block_after im (directory_table sb + Z.shiftr pos 16)) as [[k l]|] eqn:Ea; [|done].
    specialize (Hnext _ eq_refl). cbn [snd] in Hnext.
    destruct (Z.leb_spec l (Z.of_nat (length d0) + Z.of_nat (length d))); [lia|done].
Qed.

Section reader.
Context `{HR : !AsyncReadOk DirectoryReader}.

(** The walk after a child. *)
Definition stepped (w : Walk) (ixs : list (DirectoryIndex * bytes)) (c : Child) : Walk :=
  mkWalk (remaining w - (8 + Z.of_nat (length (ch_name c)))) ixs (Some (ch_name c)) (found w ++ [c]).

Lemma read_entry_spec initial count block number offset first w ixs c cs rest : child_ok (inode_count sb) c ->
  near block number c -> (0 <= number < 2 ^ 32)%Z -> (8 + Z.of_nat (length (ch_name c)) <= remaining w)%Z ->
  names_above (last_name w) (c :: cs) ->
  (if first : bool then check_index im initial offset (ch_name c) (unused_indexes w) = Done (Ok ixs) else ixs = unused_indexes w) ->
  parses bad (read_entry im initial (mkDirectoryHeader count block number) offset first w) (entry_bytes number c ++ rest)
    (fun w' c' => w' = stepped w ixs c /\ c' = rest).
Proof.
  intros (Hn & Href & Hnum) [<- Hi16] Hnumber Hrem Hnames Hix. pose proof (name_length _ Hn) as Hnl. unfold read_entry.
  change (SIZE DirectoryEntry) with 8. destruct (Z.ltb_spec (remaining w) (Z.of_nat 8)); [lia|].
  unfold entry_bytes. rewrite <- app_assoc.
  assert (1 <= InodeKind_basic (ch_kind c) <= 7)%Z as Hk by (destruct (ch_kind c); simpl; lia).
  pose proof (Z.mod_pos_bound (ch_reference c) (2 ^ 16)).
  eapply parses_bind; [apply parses_disk; unfold disk_ok; cbn [layout tuple_ok to_tuple DirectoryEntry_disk de_offset de_inode_delta de_kind de_name_size]; rewrite Hi16; unfold in_range; lia|].
  intros x c' [-> ->]. cbn [de_offset de_inode_delta de_kind de_name_size dh_block dh_inode].
  replace (Z.of_nat (length (ch_name c)) - 1 + 1)%Z with (Z.of_nat (length (ch_name c))) by lia.
  destruct (Z.ltb_spec 256 (Z.of_nat (length (ch_name c)))); [lia|].
  destruct (Z.ltb_spec (remaining w - Z.of_nat 8) (Z.of_nat (length (ch_name c)))); [lia|].
  destruct (Z.leb_spec 1 (InodeKind_basic (ch_kind c))); [|lia].
  destruct (Z.leb_spec (InodeKind_basic (ch_kind c)) 7); [|lia]. cbn [orb andb negb]. rewrite Nat2Z.id.
  eapply parses_bind; [apply parses_exact|]. intros x c' [-> ->].
  eapply parses_bind; [by apply (parses_lift _ _ tt), validate_name_ok|]. intros ? c' [-> ->].
  destruct (names_above_cons _ _ _ Hnames) as [-> _].
  eapply parses_bind with (P := fun x c' => x = ixs /\ c' = rest).
  { destruct first; [|subst ixs; by apply parses_ret].
    eapply parses_bind; [by apply parses_outcome|]. intros x c' [-> ->]. by apply parses_lift. }
  intros x c' [-> ->]. replace (number + (ch_number c - number))%Z with (ch_number c) by lia. fold sb.
  destruct (Z.leb_spec (ch_number c) 0); [lia|]. destruct (Z.ltb_spec (inode_count sb) (ch_number c)); [lia|]. cbn [orb].
  eapply parses_bind; [apply parses_lift, from_disk_basic|]. intros x c' [-> ->]. apply parses_ret.
  rewrite reference_join by lia. split; [|done]. unfold stepped. by destruct c.
Qed.

Definition walked (w : Walk) (ixs : list (DirectoryIndex * bytes)) (n : nat) (cs : list Child) : Walk :=
  mkWalk (remaining w - Z.of_nat n) ixs (match last cs with Some c => Some (ch_name c) | None => last_name w end) (found w ++ cs).

Lemma read_entries_spec initial count block number offset cs : forall first w ixs after rest,
  Forall (child_ok (inode_count sb)) cs -> Forall (near block number) cs -> (0 <= number < 2 ^ 32)%Z ->
  (Z.of_nat (length (concat (map (entry_bytes number) cs))) <= remaining w)%Z -> names_above (last_name w) (cs ++ after) ->
  match cs with
  | [] => ixs = unused_indexes w
  | c :: _ => if first : bool then check_index im initial offset (ch_name c) (unused_indexes w) = Done (Ok ixs)
              else ixs = unused_indexes w
  end ->
  parses bad (read_entries im (length cs) initial (mkDirectoryHeader count block number) offset first w)
    (concat (map (entry_bytes number) cs) ++ rest)
    (fun w' c' => w' = walked w ixs (length (concat (map (entry_bytes number) cs))) cs /\ c' = rest).
Proof.
  induction cs as [|c cs IH]; intros first w ixs after rest Hok Hnear Hnumber Hrem Hnames Hix; cbn [length read_entries].
  { apply parses_ret. split; [|done]. subst ixs. unfold walked. simpl. rewrite Z.sub_0_r, app_nil_r. by destruct w. }
  inversion Hok; subst. inversion Hnear; subst. cbn [map concat] in *. rewrite length_app, entry_bytes_length in *.
  rewrite <- app_assoc. eapply parses_bind; [by apply (read_entry_spec initial count block number offset first w ixs c (cs ++ after)); try done; lia|].
  intros x c' [-> ->]. destruct (names_above_cons _ _ _ Hnames) as [_ Hn'].
  eapply parses_mono; [apply (IH false (stepped w ixs c) ixs after rest); try done; [cbn [remaining stepped]; lia|by destruct cs]|].
  intros w' c' [-> ->]. split; [|done]. unfold walked, stepped. cbn [remaining last_name found unused_indexes]. f_equal.
  - lia.
  - destruct cs as [|c0 cs]; [done|]. rewrite last_cons_cons. destruct (last (c0 :: cs)) eqn:El; [done|]. by apply last_None in El.
  - by rewrite <- app_assoc.
Qed.

Lemma read_groups_spec d0 size groups : forall fuel d w, indexes_of lv d0 d groups (unused_indexes w) -> to_read d0 d groups ->
  names_above (last_name w) (concat groups) -> remaining w = Z.of_nat (length (listing_bytes groups)) ->
  size = (3 + Z.of_nat (length d) + remaining w)%Z -> length groups < fuel ->
  parses bad (read_groups im fuel size (Z.of_nat (length d0)) w) (listing_bytes groups)
    (fun w' _ => unused_indexes w' = [] /\ found w' = found w ++ concat groups).
Proof.
  induction groups as [|g groups IH]; intros fuel d w Hi Hrd Hnames Hrem Hsize Hf; (destruct fuel as [|fuel]; [lia|]); cbn [read_groups].
  { rewrite Hrem. cbn [listing_bytes map concat length Z.of_nat Z.eqb]. apply parses_ret. inversion Hi. by rewrite app_nil_r. }
  pose proof (tr_groups _ _ _ _ _ Hrd) as Hg. inversion Hg as [|? ? Hgok _]; subst. pose proof (group_bytes_nonempty g Hgok) as Hgl.
  destruct Hgok as (c & cs & -> & Hlen & Hnear). pose proof (tr_children _ _ _ _ _ Hrd) as Hc. cbn [concat] in Hc, Hnames |- *.
  apply Forall_app in Hc as [Hc _]. inversion Hc as [|? ? (_ & Href & Hnum) _]; subst.
  destruct (check_index_spec d0 d c cs groups _ Hi Hrd) as (ixs' & Hck & Hi').
  unfold listing_bytes in *. cbn [map concat] in Hrem |- *. rewrite length_app in Hrem.
  change (SIZE DirectoryHeader) with 12.
  destruct (Z.eqb_spec (remaining w) 0); [lia|]. destruct (Z.ltb_spec (remaining w) (Z.of_nat 12)); [lia|].
  replace (3 + Z.of_nat (length d) + remaining w - 3 - remaining w)%Z with (Z.of_nat (length d)) by lia.
  rewrite group_bytes_length in Hrem. unfold group_bytes at 1. rewrite <- app_assoc.
  eapply parses_bind; [apply parses_disk; unfold disk_ok; cbn [layout tuple_ok to_tuple DirectoryHeader_disk dh_count dh_block dh_inode];
    by rewrite reference_block_range, !in_range_u32 by (done || (cbn [length] in *; lia))|].
  intros x c' [-> ->]. cbn [dh_count]. destruct (Z.leb_spec 256 (Z.of_nat (length (c :: cs)) - 1)); [lia|].
  replace (S (Z.to_nat (Z.of_nat (length (c :: cs)) - 1))) with (length (c :: cs)) by (simpl; lia).
  eapply parses_bind.
  { apply (read_entries_spec (Z.of_nat (length d0)) _ _ (ch_number c) (Z.of_nat (length d)) (c :: cs) true _ ixs' (concat groups));
      try done; cbn [remaining]; lia. }
  intros w' c' [-> ->].
  eapply parses_mono; [apply (IH fuel (d ++ group_bytes (c :: cs))); cbn [unused_indexes walked remaining last_name]; try done|].
  - by apply to_read_next.
  - destruct Hnames as [Hs Hl]. split.
    + rewrite map_app in Hs. clear - Hs. induction (map ch_name (c :: cs)) as [|n ns IHn]; [done|]. inversion Hs; subst. by apply IHn.
    + destruct (last (c :: cs)) as [l|] eqn:El; [|by apply last_None in El]. destruct (concat groups) as [|c0 cs0]; [done|].
      apply last_Some in El as [pre Epre]. rewrite Epre in Hs. rewrite <- app_assoc, map_app in Hs. clear - Hs.
      induction (map ch_name pre) as [|n ns IHn]; [|inversion Hs; subst; by apply IHn].
      cbn [app map] in Hs. inversion Hs as [|? ? _ HF]; subst. by inversion HF.
  - lia.
  - rewrite length_app, group_bytes_length. lia.
  - simpl in Hf. lia.
  - intros w' c' [? Hfound]. split; [done|]. rewrite Hfound. cbn [found walked]. by rewrite <- app_assoc.
Qed.
End reader.

Lemma read_listing_spec d ixs cs before groups ref : listing_parts lv (inode_count sb) dir d ixs cs before groups ref ->
  obtains img rep bad (read_listing im d ixs) (fun x => x = cs).
Proof.
  intros [Href Hrd Hcs Hnames Hix Hsize Hblock Hoff]. unfold read_listing. subst cs.
  pose proof (reference_of_range lv _ _ Href) as [H48 _]. rewrite Hblock, Hoff, Hsize.
  destruct groups as [|g groups].
  { cbn [listing_bytes map concat length]. inversion Hix; subst. by apply obtains_ret. }
  assert (12 < length (listing_bytes (g :: groups))) as Hlen.
  { pose proof (tr_groups _ _ _ _ _ Hrd) as Hg. inversion Hg as [|? ? Hgok _]; subst. apply group_bytes_nonempty in Hgok.
    unfold listing_bytes. cbn [map concat]. rewrite length_app. lia. }
  destruct (Z.ltb_spec 3 (3 + Z.of_nat (length (listing_bytes (g :: groups))))); [|lia]. fold sb.
  rewrite reference_join by lia. destruct (tr_content _ _ _ _ _ Hrd) as [rest Erest]. pose proof Hdir as Hdir'.
  rewrite Erest, app_nil_r, <- app_assoc in Hdir'.
  destruct (table_reference_at lv img rep bad sb _ _ _ _ _ ref Hdir') as [Hrdr (logical & Hl & E)]; [|done|].
  { destruct (listing_bytes (g :: groups)); [simpl in Hlen; lia|done]. }
  eapply obtains_bind; [exact Hrdr|]. intros r [Hr Hb]. unfold directory_block. fold sb. rewrite Hl.
  eapply obtains_bind; [by apply (obtains_ret _ _ _ logical (fun x => x = logical))|]. intros ? ->.
  replace (logical + ref `mod` 2 ^ 16)%Z with (Z.of_nat (length before)) by (rewrite <- E, land_ffff by lia; lia).
  replace (3 + Z.of_nat (length (listing_bytes (g :: groups))) - 3)%Z with (Z.of_nat (length (listing_bytes (g :: groups)))) by lia.
  rewrite Nat2Z.id. eapply obtains_bind.
  { apply (obtains_parses img rep bad _ _ (listing_bytes (g :: groups))).
    - split; [|done]. exists (listing_bytes (g :: groups) ++ rest). split; [done|]. cbn [limit]. by rewrite take_app_length.
    - apply (read_groups_spec before _ (g :: groups) _ []); cbn [remaining unused_indexes last_name]; try done.
      assert (forall gs, Forall group_ok gs -> length gs <= length (listing_bytes gs)) as Hgs.
      { clear. induction 1 as [|g gs Hg _ IH]; [done|]. apply group_bytes_nonempty in Hg. unfold listing_bytes in *.
        cbn [map concat length]. rewrite length_app. lia. }
      specialize (Hgs _ (tr_groups _ _ _ _ _ Hrd)). lia. }
  intros [w r'] (c' & [Hu Hf] & _). rewrite Hu, Hf. by apply obtains_ret.
Qed.

Lemma read_directory_spec `{HR : !AsyncReadOk InodeReader} d ixs cs before groups ref rest :
  listing_parts lv (inode_count sb) dir d ixs cs before groups ref -> disk_ok d = true ->
  di_index_count d = Z.of_nat (length ixs) ->
  parses bad (read_directory im true) ((serialize d ++ concat (map index_bytes ixs)) ++ rest)
    (fun x c' => x = (d, ixs) /\ c' = rest).
Proof.
  intros [Href Hrd Hcs Hnames Hix Hsize Hblock Hoff] Hok Hn. unfold read_directory. rewrite <- app_assoc.
  eapply parses_bind; [by apply parses_disk|]. intros x c' [-> ->].
  pose proof (reference_of_range lv _ _ Href) as [_ Hlow]. rewrite <- Hoff in Hlow.
  destruct (Z.ltb_spec (di_size d) 3); [lia|].
  destruct (Z.leb_spec (Z.of_nat METADATA_SIZE) (di_offset d)); [unfold METADATA_SIZE in *; lia|]. cbn [orb].
  rewrite Hn, Nat2Z.id. eapply parses_bind.
  { apply (read_indexes_spec before [] groups ixs Hix); [done|simpl; lia| |done].
    unfold disk_ok in Hok. cbn [layout tuple_ok to_tuple DirectoryInode_disk] in Hok. by destruct (in_range u32 (di_size d)); [|rewrite andb_false_r in Hok]. }
  intros x c' [-> ->]. by apply parses_ret.
Qed.
End read_listing.
