(* ===== verification/SquashInodes.v ===== *)
(** * Inodes are read as they were written

    The theorems on SquashInode.v.  The writer keeps an invariant of its tables, [built]: every inode
    it has written is described by the bytes of the tables, and the listings refer to inodes that have
    been written before.  From every archive that begins with the finished image the reader then gives
    back the inode of every node. *)
From stdpp Require Import sorting.
From S2P Require Import Prelude RustStr BTree SquashFormat SquashBlocks SquashTree SquashData SquashFiles SquashIo SquashImage SquashLoad SquashInode SquashTable SquashEntries.

Local Open Scope rust_scope.
Local Open Scope poll_scope.

(** ** Computations on the tables *)

(** The contents of the tables. *)
Record Contents : Type := mkContents {
  c_inodes : bytes;
  c_directories : bytes;
  c_xattrs : bytes;
  c_xattr_ids : list XattrId;
  c_references : list Z;
}.

Section builds.
Context `{ZS : Zstd} `{!ZstdOk ZS}.
Variables (lv : Z) (owners : list Z).

Record tables_have (t : InodeTables) (T : Contents) : Prop := {
  th_inodes : table_has lv (inodes t) (c_inodes T);
  th_directories : table_has lv (directories t) (c_directories T);
  th_xattrs : table_has lv (xattrs t) (c_xattrs T);
  th_xattr_ids : xattr_ids t = c_xattr_ids T;
  th_references : references t = c_references T;
  th_ids : ids t = owners;
}.

(** [m] takes tables with the contents [T] to others, or fails. *)
Definition builds {A} (T : Contents) (m : M InodeTables A) (Q : A -> Contents -> Prop) : Prop := forall t, tables_have t T ->
  post m t (fun t' r =>
    match r with
    | Ready x => exists T', tables_have t' T' /\ Q x T'
    | Fail _ => True
    | _ => False
    end).

Lemma builds_bind {A B} T (m : M InodeTables A) (f : A -> M InodeTables B) P Q : builds T m P ->
  (forall x T', P x T' -> builds T' (f x) Q) -> builds T (m_bind m f) Q.
Proof.
  intros Hm Hf t Ht. apply post_bind. eapply post_mono; [by apply Hm|].
  intros t' [x|e| |] H; try done. destruct H as (T' & Ht' & HP). by apply (Hf x T' HP).
Qed.

Lemma builds_mono {A} T (m : M InodeTables A) (P Q : A -> Contents -> Prop) : builds T m P ->
  (forall x T', P x T' -> Q x T') -> builds T m Q.
Proof.
  intros Hm HPQ t Ht. eapply post_mono; [by apply Hm|]. intros t' [x|e| |]; try done. intros (T' & Ht' & HP). exists T'. auto.
Qed.

Lemma builds_ret {A} T (x : A) (Q : A -> Contents -> Prop) : Q x T -> builds T (m_ret x) Q.
Proof. intros HQ t Ht. apply post_ret. by exists T. Qed.

Lemma builds_lift {A} T (r : io A) : builds T (lift_io r) (fun x T' => T' = T /\ r = Ok x).
Proof. intros t Ht. unfold post, lift_io. cbn [fst snd]. destruct r as [x|e]; [|done]. by exists T. Qed.

Lemma builds_outcome {A} T (o : outcome A) x : o = Done x -> builds T (lift_outcome o) (fun y T' => T' = T /\ y = x).
Proof. intros ->. by apply builds_ret. Qed.

Definition add_inodes (T : Contents) (add : bytes) : Contents :=
  mkContents (c_inodes T ++ add) (c_directories T) (c_xattrs T) (c_xattr_ids T) (c_references T).

Definition add_directories (T : Contents) (add : bytes) : Contents :=
  mkContents (c_inodes T) (c_directories T ++ add) (c_xattrs T) (c_xattr_ids T) (c_references T).

Definition add_xattrs (T : Contents) (add : bytes) : Contents :=
  mkContents (c_inodes T) (c_directories T) (c_xattrs T ++ add) (c_xattr_ids T) (c_references T).

Lemma builds_inodes {A} T (m : M MetadataBlocksWriter A) P : emits lv (c_inodes T) m P ->
  builds T (on_inodes m) (fun x T' => exists add, P add x /\ T' = add_inodes T add).
Proof.
  intros Hm t [Hi Hd Hx H1 H2 H3]. unfold post, on_inodes. specialize (Hm _ Hi). unfold post in Hm.
  destruct (m (inodes t)) as [w [x|e| |]]; cbn [fst snd] in *; try done. destruct Hm as (add & Hw & HP).
  exists (add_inodes T add). split; [done|]. by exists add.
Qed.

Lemma builds_directories {A} T (m : M MetadataBlocksWriter A) P : emits lv (c_directories T) m P ->
  builds T (on_directories m) (fun x T' => exists add, P add x /\ T' = add_directories T add).
Proof.
  intros Hm t [Hi Hd Hx H1 H2 H3]. unfold post, on_directories. specialize (Hm _ Hd). unfold post in Hm.
  destruct (m (directories t)) as [w [x|e| |]]; cbn [fst snd] in *; try done. destruct Hm as (add & Hw & HP).
  exists (add_directories T add). split; [done|]. by exists add.
Qed.

Lemma builds_xattrs {A} T (m : M MetadataBlocksWriter A) P : emits lv (c_xattrs T) m P ->
  builds T (on_xattrs m) (fun x T' => exists add, P add x /\ T' = add_xattrs T add).
Proof.
  intros Hm t [Hi Hd Hx H1 H2 H3]. unfold post, on_xattrs. specialize (Hm _ Hx). unfold post in Hm.
  destruct (m (xattrs t)) as [w [x|e| |]]; cbn [fst snd] in *; try done. destruct Hm as (add & Hw & HP).
  exists (add_xattrs T add). split; [done|]. by exists add.
Qed.

Lemma builds_set_reference T index ref : index < length (c_references T) ->
  builds T (set_reference index ref) (fun _ T' =>
    T' = mkContents (c_inodes T) (c_directories T) (c_xattrs T) (c_xattr_ids T) (<[index := ref]> (c_references T))).
Proof.
  intros Hi t [H1 H2 H3 H4 H5 H6]. unfold post, set_reference. rewrite H5.
  destruct (Nat.ltb_spec index (length (c_references T))); [|lia]. cbn [fst snd]. eexists. split; [|done]. by split.
Qed.

Lemma builds_get_references T : builds T get_references (fun refs T' => T' = T /\ refs = c_references T).
Proof. intros t Ht. unfold post, get_references. cbn [fst snd]. exists T. split; [done|]. split; [done|]. apply Ht. Qed.

(** The index of an owner. *)
Lemma builds_id T id : id ∈ owners -> (Z.of_nat (length owners) < 2 ^ 16)%Z ->
  builds T (InodeTables_id id) (fun i T' => T' = T /\ in_range u16 i = true /\ owners !! Z.to_nat i = Some id).
Proof.
  intros Hid Hl t Ht. unfold post, InodeTables_id. rewrite (th_ids _ _ Ht).
  destruct (list_find (fun x => x = id) owners) as [[i x]|] eqn:E.
  - apply list_find_Some in E as (Hi & -> & _). pose proof (lookup_lt_Some _ _ _ Hi). cbn [fst snd]. exists T.
    rewrite cast_range by (unfold in_range; lia). split; [done|]. split; [done|]. split; [unfold in_range; lia|]. by rewrite Nat2Z.id.
  - apply list_find_None in E. rewrite Forall_forall in E. by specialize (E id Hid).
Qed.

(** The attributes of an inode. *)
Lemma builds_attributes T (m : Metadata) : (Z.of_nat (length (c_xattr_ids T)) < INVALID_INDEX)%Z ->
  builds T (InodeTables_xattrs m) (fun i T' => exists add more, T' = mkContents (c_inodes T) (c_directories T) (c_xattrs T ++ add)
      (c_xattr_ids T ++ more) (c_references T) /\ length more <= 1 /\ Forall (fun x => disk_ok x = true) more /\
    xattrs_at lv (c_xattrs T ++ add) (c_xattr_ids T ++ more) i (SquashTree.xattrs m)).
Proof.
  intros Hlen. unfold InodeTables_xattrs. destruct (is_empty (SquashTree.xattrs m)) eqn:Ee.
  { apply builds_ret. apply is_empty_true in Ee. exists [], []. rewrite !app_nil_r. split; [by destruct T|]. split; [simpl; lia|].
    split; [constructor|]. by left. }
  apply is_empty_false in Ee.
  eapply builds_bind; [apply builds_xattrs, emits_reference|]. intros ref ? (? & [-> Href] & ->).
  eapply builds_bind; [apply builds_xattrs, xattrs_loop_emits|]. intros size ? (? & (-> & -> & Hok & Hr) & ->).
  specialize (Hr Ee). rewrite Z.add_0_l in *.
  eapply builds_bind with (P := fun n T' => T' = _ /\ n = length (c_xattr_ids T)).
  { intros t Ht. unfold post, xattr_count. cbn [fst snd]. eexists. split; [exact Ht|]. split; [done|].
    by rewrite (th_xattr_ids _ _ Ht). }
  intros n ? [-> ->]. eapply builds_bind; [apply builds_lift|]. intros index ? [-> [-> Hi]%try_into_ok].
  eapply builds_bind; [apply builds_lift|]. intros count ? [-> [-> Hc]%try_into_ok].
  eapply builds_bind with (P := fun _ T' => T' = mkContents (c_inodes T) (c_directories T) (c_xattrs T ++ concat (map xattr_bytes (SquashTree.xattrs m)))
    (c_xattr_ids T ++ [mkXattrId ref (Z.of_nat (length (SquashTree.xattrs m))) (xattrs_size (SquashTree.xattrs m))]) (c_references T)).
  { intros t [H1 H2 H3 H4 H5 H6]. unfold post, push_xattr_id. cbn [fst snd]. eexists. split; [|done].
    cbn [add_xattrs c_xattrs c_xattr_ids c_inodes c_directories c_references] in *. rewrite app_nil_r in H3. split; try done. cbn. by rewrite H4. }
  intros ? ? ->. apply builds_ret. eexists _, [_]. split; [done|]. split; [simpl; lia|].
  destruct (reference_of_range lv _ _ Href) as [Hr48 _]. split.
  { repeat constructor. unfold disk_ok. cbn [layout tuple_ok to_tuple XattrId_disk xi_reference xi_count xi_size]. rewrite Hc, Hr.
    unfold in_range. lia. }
  right. split; [done|]. split; [lia|]. split; [done|]. exists (c_xattrs T), ref. split; [done|]. split; [done|].
  split; [by rewrite Nat2Z.id, lookup_app_r, Nat.sub_diag by lia|]. unfold in_range in Hr. lia.
Qed.
End builds.

(** ** The bytes of an inode *)

(** What [serialize] has of a node when it writes its inode, and what [flatten] guarantees. *)
Record node_ok {S} (layouts : list (option FileLayout)) (nodes : list (FlatNode S)) (i : nat) (node : FlatNode S) : Prop := {
  no_mode : (0 <= mode (SquashTree.metadata (fn_node node)) < 2 ^ 12)%Z;
  no_owner : in_range u32 (uid (SquashTree.metadata (fn_node node))) = true /\
    in_range u32 (gid (SquashTree.metadata (fn_node node))) = true;
  no_time : in_range u32 (modification_time (SquashTree.metadata (fn_node node))) = true;
  no_xattrs : StronglySorted (keys_lt bytes_cmp) (map fst (SquashTree.xattrs (SquashTree.metadata (fn_node node))));
  no_links : (0 < fn_links node < 2 ^ 32)%Z;
  no_parent : fn_parent node < length nodes;
  no_names : StronglySorted (keys_lt bytes_cmp) (map fst (fn_children node)) /\
    Forall (fun x => name_ok x.1 = true) (fn_children node);
  (** The directories below a directory come after it. *)
  no_children : Forall (fun x => exists child, nodes !! x.2 = Some child /\ (is_directory child = true -> i < x.2)) (fn_children node);
  no_contents : match contents (fn_node node) with
                | NFile _ => exists l, layout_of layouts i = Done l
                | NBlockDevice d | NCharacterDevice d => (0 <= major d)%Z /\ (0 <= minor d)%Z
                | _ => True
                end;
}.

Definition flat_ok {S} (layouts : list (option FileLayout)) (nodes : list (FlatNode S)) : Prop :=
  0 < length nodes /\ (Z.of_nat (length nodes) + 1 < 2 ^ 32)%Z /\
  forall i node, nodes !! i = Some node -> node_ok layouts nodes i node.

Section contents.
Context `{ZS : Zstd} `{!ZstdOk ZS} {S : Type}.
Variables (lv : Z) (owners : list Z) (layouts : list (option FileLayout)) (nodes : list (FlatNode S)).

Definition parent_number (i : nat) (node : FlatNode S) : Z :=
  if i =? 0 then (Z.of_nat (length nodes) + 1)%Z else (Z.of_nat (fn_parent node) + 1)%Z.

(** The listing of a directory and the part of its inode after the header. *)
Definition directory_body (T : Contents) (i : nat) (node : FlatNode S) (xattr : Z) (body : bytes) : Prop :=
  exists d ixs cs before groups ref subdirs,
    body = serialize d ++ concat (map index_bytes ixs) /\ disk_ok d = true /\ di_index_count d = Z.of_nat (length ixs) /\
    Forall2 (child_is (c_references T) nodes) (fn_children node) cs /\
    listing_parts lv (Z.of_nat (length nodes)) (c_directories T) d ixs cs before groups ref /\
    di_xattr d = xattr /\ di_parent d = parent_number i node /\
    count_subdirs nodes (fn_children node) = Done subdirs /\ di_links d = Z.of_nat (subdirs + 2).

(** The part of an inode after the header. *)
Definition body_of (T : Contents) (i : nat) (node : FlatNode S) (xattr : Z) (body : bytes) : Prop :=
  match contents (fn_node node) with
  | NFile _ => exists l, layout_of layouts i = Done l /\
      body = serialize (layout_inode l (fn_links node) xattr) ++ concat (map (to_le_bytes u32) (fl_blocks l))
  | NDirectory _ => directory_body T i node xattr body
  | NSymlink target => contains Byte.x00 target = false /\ (Z.of_nat (length target) < 2 ^ 32)%Z /\
      body = serialize (mkSymlinkInode (fn_links node) (Z.of_nat (length target))) ++ target ++ to_le_bytes u32 xattr
  | NBlockDevice d | NCharacterDevice d => exists number, device_number (major d) (minor d) = Ok number /\
      body = serialize (mkDeviceInode (fn_links node) number xattr)
  | NFifo | NSocket => body = serialize (mkIpcInode (fn_links node) xattr)
  end.

Lemma children_found refs l : (Z.of_nat (length nodes) < 2 ^ 32)%Z ->
  Forall (fun x => name_ok x.1 = true) l ->
  Forall (fun x => (exists child, nodes !! x.2 = Some child) /\ exists r, refs !! x.2 = Some r /\ (0 <= r < 2 ^ 48)%Z) l ->
  exists cs, Forall2 (child_is refs nodes) l cs /\ map ch_name cs = map fst l /\
    Forall (child_ok (Z.of_nat (length nodes))) cs.
Proof.
  intros Hn HN HF. induction HF as [|[name i] l [(child & Hc) (r & Hr & Hr48)] _ IH]; [by exists []|].
  inversion HN as [|? ? Hname HN']; subst. destruct (IH HN') as (cs & H2 & Hm & Hok). cbn [fst snd] in *.
  pose proof (lookup_lt_Some _ _ _ Hc).
  exists (mkChild name r (Z.of_nat i + 1) (NodeContents_kind (contents (fn_node child))) :: cs). split; [|split].
  - constructor; [|done]. split; [done|]. split; [done|]. split; [done|]. by exists child.
  - cbn [map ch_name fst]. by rewrite Hm.
  - constructor; [|done]. split; [done|]. split; [done|]. cbn [ch_number]. lia.
Qed.

Lemma child_names refs l cs : Forall2 (child_is refs nodes) l cs -> map ch_name cs = map fst l.
Proof. induction 1 as [|x c l cs (Hx & _) _ IH]; cbn [map]; [done|]. by rewrite Hx, IH. Qed.

Lemma count_subdirs_total l : Forall (fun x : bytes * nat => exists child, nodes !! x.2 = Some child) l ->
  exists n, count_subdirs nodes l = Done n /\ n <= length l.
Proof.
  induction 1 as [|[name i] l (child & Hc) _ (n & IH & Hn)]; [by exists 0|]. cbn [count_subdirs snd] in *. rewrite Hc. cbn [unwrap outcome_bind].
  rewrite IH. cbn [outcome_bind length]. destruct (is_directory child); eexists; split; [done|lia|done|lia].
Qed.

Lemma write_indexes_emits ixs c : emits lv c (write_indexes ixs) (fun add _ => add = concat (map index_bytes ixs)).
Proof.
  revert c. induction ixs as [|[i name] ixs IH]; intros c; cbn [write_indexes]; [by apply emits_ret|].
  eapply emits_bind; [apply emits_disk|]. intros ? [] ->. eapply emits_bind; [apply emits_write_all|]. intros ? [] ->.
  eapply emits_mono; [apply IH|]. intros add [] ->. cbn [map concat index_bytes]. by rewrite <- app_assoc.
Qed.

Definition body_built (T : Contents) (i : nat) (node : FlatNode S) (xattr : Z) (T' : Contents) : Prop :=
  exists body listing, T' = add_directories (add_inodes T body) listing /\ body_of T' i node xattr body.

Abbreviation builds := (builds lv owners).

Lemma builds_directory T i node xattr dir : flat_ok layouts nodes -> nodes !! i = Some node ->
  contents (fn_node node) = NDirectory dir -> in_range u32 xattr = true ->
  Forall (fun x => exists r, c_references T !! x.2 = Some r /\ (0 <= r < 2 ^ 48)%Z) (fn_children node) ->
  builds T (write_directory i node nodes xattr) (fun _ => body_built T i node xattr).
Proof.
  intros (_ & Hlen & Hflat) Hi Hdir Hx Hrefs. specialize (Hflat i node Hi). destruct (no_names _ _ _ _ Hflat) as [Hs Hn].
  assert (Forall (fun x : bytes * nat => exists child, nodes !! x.2 = Some child) (fn_children node)) as Hch.
  { eapply Forall_impl; [apply (no_children _ _ _ _ Hflat)|]. intros x (child & ? & _). by exists child. }
  destruct (children_found (c_references T) (fn_children node)) as (cs & H2 & Hm & Hok); [lia|done| |].
  { rewrite Forall_forall in *. auto. }
  destruct (count_subdirs_total _ Hch) as (subdirs & Hsub & _). unfold write_directory.
  eapply builds_bind; [apply builds_directories, emits_reference|]. intros start ? (? & [-> Href] & ->).
  eapply builds_bind; [apply builds_get_references|]. intros refs ? [-> ->].
  cbn [add_directories c_references]. eapply builds_bind.
  { apply builds_directories. eapply emits_mono.
    - apply (write_groups_emits lv (Z.of_nat (length nodes)) (c_references T) nodes ltac:(lia) (c_directories T)
        _ _ cs [] 3 [] _ H2 Hok); done || lia.
    - intros add x Hx'. exact Hx'. }
  intros [size ixs] ? (? & (groups & new & -> & Hcs & Hg & Hsize & Hr & -> & Hix & Hixs) & ->).
  eapply builds_bind; [by apply builds_outcome|]. intros ? ? [-> ->].
  eapply builds_bind; [apply builds_lift|]. intros links ? [-> [-> Hlinks]%try_into_ok].
  eapply builds_bind; [apply builds_inodes, emits_disk|]. intros [] ? (? & -> & ->).
  eapply builds_mono; [apply builds_inodes, write_indexes_emits|]. intros [] ? (? & -> & ->).
  destruct (reference_of_range lv _ _ Href) as [H48 Hlow]. pose proof (reference_block_range _ H48) as Hb.
  rewrite (cast_range u32 (Z.shiftr start 16)), (cast_range u16 (Z.of_nat _)) by (done || (unfold in_range; lia)).
  pose proof (no_parent _ _ _ _ Hflat) as Hpar.
  assert ((if i =? 0 then cast u32 (Z.of_nat (length nodes) + 1) else cast u32 (Z.of_nat (fn_parent node) + 1)) = parent_number i node
    /\ in_range u32 (parent_number i node) = true) as [Hp1 Hp2].
  { unfold parent_number. destruct (i =? 0); (rewrite cast_range; [split; [done|]|]); apply in_range_u32; lia. }
  rewrite Hp1. cbn [app] in *. set (d := mkDirectoryInode _ _ _ _ _ _ _).
  exists (serialize d ++ concat (map index_bytes new)), (listing_bytes groups). split.
  { unfold add_inodes, add_directories. cbn [c_inodes c_directories c_xattrs c_xattr_ids c_references].
    by rewrite !app_nil_r, app_assoc. }
  unfold body_of. rewrite Hdir. exists d, new, cs, (c_directories T), groups, start, subdirs.
  split; [done|]. split.
  { unfold disk_ok, d. cbn [layout tuple_ok to_tuple DirectoryInode_disk di_links di_size di_block di_parent di_index_count di_offset di_xattr].
    rewrite Hlinks, Hr, Hb, Hp2, Hx. cbn [cast]. pose proof (Z.mod_pos_bound start (2 ^ 16)). unfold in_range. lia. }
  split; [done|]. split; [done|]. split; [|done].
  split; [done| |done|by rewrite Hm|done| |done|done].
  - split; [|done|by rewrite Hcs]. cbn [add_inodes add_directories c_directories]. by rewrite !app_nil_r.
  - cbn [di_size d]. rewrite Hsize. lia.
Qed.

Lemma write_device_emits device links xattr c : emits lv c (write_device device links xattr) (fun add _ =>
  exists number, device_number (major device) (minor device) = Ok number /\ add = serialize (mkDeviceInode links number xattr)).
Proof.
  eapply emits_bind; [apply emits_lift|]. intros ? number [-> Hn]. eapply emits_mono; [apply emits_disk|].
  intros ? [] ->. by exists number.
Qed.

Lemma builds_contents T i node xattr : flat_ok layouts nodes -> nodes !! i = Some node -> in_range u32 xattr = true ->
  (is_directory node = true -> Forall (fun x => exists r, c_references T !! x.2 = Some r /\ (0 <= r < 2 ^ 48)%Z) (fn_children node)) ->
  builds T (write_contents i node layouts nodes xattr) (fun _ => body_built T i node xattr).
Proof.
  intros Hflat Hi Hx Hrefs. unfold write_contents. pose proof (proj2 (proj2 Hflat) i node Hi) as Hok.
  pose proof (no_contents _ _ _ _ Hok) as Hc. unfold is_directory in Hrefs.
  assert (forall body, body_of (add_inodes T body) i node xattr body -> body_built T i node xattr (add_inodes T body)) as Hdone.
  { intros body Hb. exists body, []. unfold add_directories. cbn. rewrite app_nil_r. done. }
  assert (forall m : M MetadataBlocksWriter unit, emits lv (c_inodes T) m (fun add _ => body_of (add_inodes T add) i node xattr add) ->
    builds T (on_inodes m) (fun _ => body_built T i node xattr)) as Hone.
  { intros m Hm. eapply builds_mono; [apply builds_inodes, Hm|]. intros [] ? (? & Hb & ->). auto. }
  unfold body_of in *. destruct (contents (fn_node node)) as [source|dir|target|device|device| |] eqn:Ec.
  - destruct Hc as (l & Hl). eapply builds_bind; [by apply builds_outcome|]. intros ? ? [-> ->].
    eapply builds_bind; [apply builds_inodes, emits_disk|]. intros [] ? (? & -> & ->).
    eapply builds_mono; [apply builds_inodes, emits_write_alls|]. intros [] ? (? & -> & ->).
    unfold add_inodes. cbn [c_inodes c_directories c_xattrs c_xattr_ids c_references]. rewrite <- app_assoc.
    apply Hdone. by exists l.
  - apply (builds_directory T i node xattr dir); auto.
  - unfold write_symlink. destruct (contains Byte.x00 target) eqn:En; [apply Hone, emits_fail|].
    destruct (Nat.ltb_spec MAX_PORTABLE_SYMLINK_TARGET_SIZE (length target)); [apply Hone, emits_fail|].
    unfold MAX_PORTABLE_SYMLINK_TARGET_SIZE in *. rewrite cast_range by (apply in_range_u32; lia).
    apply Hone. eapply emits_bind; [apply emits_disk|]. intros ? [] ->. eapply emits_bind; [apply emits_write_all|]. intros ? [] ->.
    eapply emits_mono; [apply emits_write_all|]. intros ? [] ->. split; [done|]. split; [lia|done].
  - apply Hone, write_device_emits.
  - apply Hone, write_device_emits.
  - apply Hone. eapply emits_mono; [apply emits_disk|]. by intros ? [] ->.
  - apply Hone. eapply emits_mono; [apply emits_disk|]. by intros ? [] ->.
Qed.
End contents.

(** ** The invariant of the writer *)

Section invariant.
Context `{ZS : Zstd} `{!ZstdOk ZS} {S : Type}.
Variables (lv : Z) (owners : list Z) (layouts : list (option FileLayout)) (nodes : list (FlatNode S)).
Hypothesis Hflat : flat_ok layouts nodes.
Hypothesis Howners : forall i node, nodes !! i = Some node ->
  uid (SquashTree.metadata (fn_node node)) ∈ owners /\ gid (SquashTree.metadata (fn_node node)) ∈ owners.
Hypothesis Hlength : (Z.of_nat (length owners) < 2 ^ 16)%Z.

Definition header_of (i : nat) (node : FlatNode S) (u g : Z) : InodeHeader :=
  let m := SquashTree.metadata (fn_node node) in
  mkInodeHeader (InodeKind_extended (NodeContents_kind (contents (fn_node node)))) (mode m) u g (modification_time m) (Z.of_nat i + 1).

(** An inode is in the tables, in the span [span] of the inode table: its header with the owner's indexes, its
    body and its attributes. *)
Definition inode_written (T : Contents) (span : nat * nat) (i : nat) (node : FlatNode S) : Prop :=
  exists before ref u g xattr body, let m := SquashTree.metadata (fn_node node) in
    span = (length before, length (before ++ serialize (header_of i node u g) ++ body)) /\
    c_references T !! i = Some ref /\ reference_of lv before ref /\
    before ++ serialize (header_of i node u g) ++ body `prefix_of` c_inodes T /\
    (in_range u16 u = true /\ owners !! Z.to_nat u = Some (uid m)) /\
    (in_range u16 g = true /\ owners !! Z.to_nat g = Some (gid m)) /\
    xattrs_at lv (c_xattrs T) (c_xattr_ids T) xattr (SquashTree.xattrs m) /\
    body_of lv layouts nodes T i node xattr body.

(** The inodes of [written] are in the tables, and so are the children of its directories; their spans are
    disjoint. *)
Record built (T : Contents) (spans : nat -> nat * nat) (written : list nat) : Prop := {
  bt_references : length (c_references T) = length nodes;
  bt_range : Forall (fun r => (0 <= r < 2 ^ 48)%Z) (c_references T);
  bt_xattr_ids : length (c_xattr_ids T) <= length written /\ Forall (fun x => disk_ok x = true) (c_xattr_ids T);
  bt_written : forall i, i ∈ written -> exists node, nodes !! i = Some node /\ inode_written T (spans i) i node /\
    (is_directory node = true -> Forall (fun x => x.2 ∈ written) (fn_children node));
  bt_spans : forall i j, i ∈ written -> j ∈ written -> i ≠ j ->
    (spans i).2 <= (spans j).1 \/ (spans j).2 <= (spans i).1;
  bt_distinct : NoDup written;
}.

(** Tables that have grown, with the same references for [written]. *)
Record grown (T T' : Contents) (written : list nat) : Prop := {
  gr_inodes : c_inodes T `prefix_of` c_inodes T';
  gr_directories : c_directories T `prefix_of` c_directories T';
  gr_xattrs : c_xattrs T `prefix_of` c_xattrs T';
  gr_xattr_ids : c_xattr_ids T `prefix_of` c_xattr_ids T';
  gr_references : forall i, i ∈ written -> c_references T' !! i = c_references T !! i;
}.

Lemma xattrs_at_grown xb xb' ids ids' i attrs : xb `prefix_of` xb' -> ids `prefix_of` ids' ->
  xattrs_at lv xb ids i attrs -> xattrs_at lv xb' ids' i attrs.
Proof.
  intros Hx [more ->] [[-> ->]|(Hne & Hi & HF & before & ref & Href & Hp & Hid & Hsz)]; [by left|right].
  split; [done|]. split; [done|]. split; [done|]. exists before, ref. split; [done|]. split; [by etrans|].
  split; [|done]. by apply lookup_app_l_Some.
Qed.

Lemma inode_written_grown T T' written span i node : grown T T' written -> i ∈ written ->
  (is_directory node = true -> Forall (fun x => x.2 ∈ written) (fn_children node)) ->
  inode_written T span i node -> inode_written T' span i node.
Proof.
  intros [Hgi Hgd Hgx Hgids Hgr] Hi Hch (before & ref & u & g & xattr & body & Hsp & Hr & Href & Hp & Hu & Hg & Hx & Hb).
  exists before, ref, u, g, xattr, body. split; [done|]. split; [by rewrite Hgr|]. split; [done|]. split; [by etrans|]. split; [done|].
  split; [done|]. split; [by eapply xattrs_at_grown|]. unfold body_of, is_directory in *.
  destruct (contents (fn_node node)); try done. specialize (Hch eq_refl).
  destruct Hb as (d & ixs & cs & bf & groups & rf & n & H1 & H2 & H3 & H4 & H5 & H6).
  exists d, ixs, cs, bf, groups, rf, n. split; [done|]. split; [done|]. split; [done|]. split; [|split; [|done]].
  - clear - H4 Hch Hgr. induction H4 as [|x c l cs (Hc1 & Hc2 & Hc3) _ IH]; [constructor|]. inversion Hch; subst.
    constructor; [|by apply IH]. split; [done|]. split; [|done]. by rewrite Hgr.
  - destruct H5 as [Q1 Q2 Q3 Q4 Q5 Q6 Q7 Q8]. split; try done. by eapply to_read_mono.
Qed.

(** One more inode. *)
Lemma inode_written_end T span i node : inode_written T span i node -> span.2 <= length (c_inodes T).
Proof. intros (before & ref & u & g & xattr & body & -> & _ & _ & Hp & _). by apply prefix_length in Hp. Qed.

Lemma built_more T T' spans written i node ref : built T spans written -> nodes !! i = Some node -> i ∉ written ->
  (is_directory node = true -> Forall (fun x => x.2 ∈ written) (fn_children node)) -> grown T T' written ->
  c_references T' = <[i:=ref]> (c_references T) -> (0 <= ref < 2 ^ 48)%Z ->
  length (c_xattr_ids T') <= 1 + length written /\ Forall (fun x => disk_ok x = true) (c_xattr_ids T') ->
  inode_written T' (length (c_inodes T), length (c_inodes T')) i node ->
  exists spans', built T' spans' (i :: written).
Proof.
  intros [Hrl Hrr _ Hw Hsp Hnd] Hi Hnew Hch Hgrown Hrefs H48 Hx Hnode.
  exists (fun j => if decide (j = i) then (length (c_inodes T), length (c_inodes T')) else spans j).
  split; [by rewrite Hrefs, length_insert|rewrite Hrefs; by apply Forall_insert|done| | |by constructor].
  - intros j [->|Hj]%elem_of_cons.
    + exists node. split; [done|]. rewrite decide_True by done. split; [done|]. intros Hd.
      eapply Forall_impl; [exact (Hch Hd)|]. intros x Hx'. by apply elem_of_cons; right.
    + destruct (Hw j Hj) as (nd & Hj' & Hwr & Hcd). exists nd. split; [done|].
      split; [rewrite decide_False by (by intros ->); by eapply inode_written_grown|].
      intros Hd. eapply Forall_impl; [exact (Hcd Hd)|]. intros x Hx'. by apply elem_of_cons; right.
  - assert (forall j, j ∈ written -> (spans j).2 <= length (c_inodes T)) as Hend.
    { intros j Hj. destruct (Hw j Hj) as (nd & _ & Hwr & _). by eapply inode_written_end. }
    intros j k [->|Hj]%elem_of_cons [->|Hk]%elem_of_cons Hjk; [done| | |].
    + rewrite decide_True, decide_False by auto. right. by apply Hend.
    + rewrite decide_False, decide_True by auto. left. by apply Hend.
    + rewrite !decide_False by (intros ->; done). by apply Hsp.
Qed.

Lemma built_inode T spans written i node : built T spans written -> nodes !! i = Some node -> i ∉ written ->
  (is_directory node = true -> Forall (fun x => x.2 ∈ written) (fn_children node)) ->
  length written < length nodes ->
  builds lv owners T (InodeTables_inode i node layouts nodes) (fun _ T' => exists spans', built T' spans' (i :: written)).
Proof.
  intros Hbt Hi Hnew Hch Hcount. pose proof Hbt as [Hrl Hrr [Hxl Hxok] Hw Hsp Hnd]. pose proof (proj2 (proj2 Hflat) i node Hi) as Hok.
  pose proof (lookup_lt_Some _ _ _ Hi) as Hil. destruct Hflat as (_ & H32 & _). unfold InodeTables_inode.
  eapply builds_bind; [apply builds_inodes, emits_reference|]. intros ref ? (? & [-> Href] & ->).
  eapply builds_bind; [apply builds_set_reference; cbn [add_inodes c_references]; lia|]. intros [] ? ->.
  eapply builds_bind; [apply builds_id; [by apply (Howners i)|done]|]. intros u ? (-> & Hu).
  eapply builds_bind; [apply builds_id; [by apply (Howners i)|done]|]. intros g ? (-> & Hg).
  eapply builds_bind; [apply builds_inodes, emits_disk|]. intros [] ? (? & -> & ->).
  rewrite (cast_range u32) by (apply in_range_u32; lia).
  eapply builds_bind; [apply builds_attributes; cbn [add_inodes c_xattr_ids]; unfold INVALID_INDEX; lia|].
  intros xattr ? (xadd & xmore & -> & Hxm & Hxmok & Hxat). cbn [add_inodes c_inodes c_directories c_xattrs c_xattr_ids c_references] in *.
  rewrite app_nil_r in *. destruct (reference_of_range lv _ _ Href) as [H48 _].
  assert (in_range u32 xattr = true) as Hxr.
  { destruct Hxat as [[_ ->]|(_ & ? & _)]; [done|]. apply in_range_u32. unfold INVALID_INDEX in *. lia. }
  assert (forall j, j ∈ written -> <[i:=ref]> (c_references T) !! j = c_references T !! j) as Hsame.
  { intros j Hj. apply list_lookup_insert_ne. by intros ->. }
  eapply builds_mono.
  { apply (builds_contents lv owners layouts nodes _ i node xattr Hflat Hi Hxr). intros Hd. cbn [c_references].
    eapply Forall_impl; [exact (Hch Hd)|]. intros x Hx. rewrite Hsame by done. destruct (Hw _ Hx) as (nd & Hnd' & _).
    apply lookup_lt_Some in Hnd'. rewrite <- Hrl in Hnd'. apply lookup_lt_is_Some in Hnd' as [r Hr]. exists r. split; [done|].
    by eapply (Forall_lookup_1 _ _ _ _ Hrr). }
  intros [] ? (body & listing & -> & Hb). set (T' := add_directories _ _) in *.
  assert (grown T T' written) as Hgrown.
  { split; cbn [T' add_directories add_inodes c_inodes c_directories c_xattrs c_xattr_ids c_references];
      [by rewrite <- app_assoc; eexists|by eexists|by eexists|by eexists|done]. }
  apply (built_more T T' spans written i node ref); try done.
  - cbn [T' add_directories add_inodes c_xattr_ids]. rewrite length_app. split; [lia|]. by apply Forall_app.
  - assert (c_inodes T' = c_inodes T ++ serialize (header_of i node u g) ++ body) as Ei
      by (cbn [T' add_directories add_inodes c_inodes]; by rewrite <- app_assoc). rewrite Ei.
    exists (c_inodes T), ref, u, g, xattr, body. split; [done|]. split; [apply list_lookup_insert_eq; lia|]. split; [done|].
    split; [by rewrite Ei|]. by split.
Qed.

(** An order in which the children of a directory come before it. *)
Inductive ordered : list nat -> list (nat * FlatNode S) -> Prop :=
| ordered_nil written : ordered written []
| ordered_cons written i node rest : nodes !! i = Some node -> i ∉ written ->
    (is_directory node = true -> Forall (fun x => x.2 ∈ written) (fn_children node)) ->
    ordered (i :: written) rest -> ordered written ((i, node) :: rest).

Lemma written_count written : NoDup written -> (forall i, i ∈ written -> exists node, nodes !! i = Some node) ->
  forall i node, nodes !! i = Some node -> i ∉ written -> length written < length nodes.
Proof.
  intros Hnd Hw i node Hi Hnew. assert (length (i :: written) <= length (seq 0 (length nodes))) as H.
  { apply submseteq_length, NoDup_submseteq; [by constructor|]. intros j Hj. apply elem_of_seq.
    assert (exists nd, nodes !! j = Some nd) as [nd H].
    { apply elem_of_cons in Hj as [->|Hj]; [by exists node|by apply Hw]. }
    apply lookup_lt_Some in H. lia. }
  rewrite length_seq in H. simpl in H. lia.
Qed.

Lemma inodes_loop_spec order : forall T spans written, built T spans written -> ordered written order ->
  builds lv owners T (inodes_loop layouts nodes order) (fun _ T' =>
    exists spans', built T' spans' (rev (map fst order) ++ written)).
Proof.
  induction order as [|[i node] order IH]; intros T spans written Hb Ho; cbn [inodes_loop]; [apply builds_ret; by exists spans|].
  inversion Ho as [|? ? ? ? Hi Hnew Hch Ho']; subst. eapply builds_bind.
  { apply (built_inode T spans written i node); try done. apply (written_count written) with (i := i) (node := node); try done; [apply Hb|].
    intros j Hj. destruct (bt_written _ _ _ Hb j Hj) as (nd & ? & _). by exists nd. }
  intros [] T' [spans' Hb']. eapply builds_mono; [by apply (IH T' spans' (i :: written))|]. intros [] T2 H2. cbn [map fst rev].
  by rewrite <- app_assoc.
Qed.
End invariant.

(** ** All inodes *)

Lemma elem_of_filter_bool {A} (f : A -> bool) (l : list A) x : x ∈ List.filter f l <-> x ∈ l /\ f x = true.
Proof. by rewrite !list_elem_of_In, filter_In. Qed.

Section all.
Context `{ZS : Zstd} `{!ZstdOk ZS} {S : Type}.
Variables (lv : Z) (layouts : list (option FileLayout)) (nodes : list (FlatNode S)).
Hypothesis Hflat : flat_ok layouts nodes.

Lemma elem_of_numbered i node : (i, node) ∈ imap pair nodes <-> nodes !! i = Some node.
Proof.
  rewrite elem_of_lookup_imap. split; [by intros (j & y & [= <- <-] & H)|]. intros H. by exists i, node.
Qed.

Lemma numbered_distinct : NoDup (map fst (imap pair nodes)).
Proof.
  assert (map fst (imap pair nodes) = seq 0 (length nodes)) as ->; [|apply NoDup_seq].
  change (map fst (imap pair nodes)) with (fst <$> imap pair nodes). rewrite fmap_imap.
  rewrite <- (list_fmap_id (seq 0 (length nodes))). apply (imap_seq_0 nodes id).
Qed.

Lemma ordered_files l : forall written, NoDup (map fst l) -> (forall i node, (i, node) ∈ l -> nodes !! i = Some node /\ i ∉ written) ->
  ordered nodes written (List.filter (fun x => negb (is_directory x.2)) l).
Proof.
  induction l as [|[i node] l IH]; intros written Hnd Hl; cbn [List.filter map fst] in *; [constructor|].
  apply NoDup_cons in Hnd as [Hi Hnd]. destruct (Hl i node) as [Hn Hw]; [by left|].
  destruct (is_directory node) eqn:Ed; cbn [snd negb]; rewrite ?Ed; cbn [negb].
  - apply IH; [done|]. intros j nd Hj. apply Hl. by right.
  - constructor; [done|done|by rewrite Ed|]. apply IH; [done|]. intros j nd Hj. destruct (Hl j nd) as [? ?]; [by right|].
    split; [done|]. intros [->|?]%elem_of_cons; [|done]. apply Hi. apply list_elem_of_fmap. by exists (i, nd).
Qed.

(** The directories from the last to the first; their children are files or come after them. *)
Lemma ordered_directories k : k <= length nodes -> forall written,
  (forall j node, nodes !! j = Some node -> (j ∈ written <-> is_directory node = false \/ k <= j)) ->
  ordered nodes written (List.filter (fun x => is_directory x.2) (rev (take k (imap pair nodes)))).
Proof.
  induction k as [|k IH]; intros Hk written Hw; [constructor|].
  destruct (lookup_lt_is_Some_2 nodes k) as [node Hn]; [lia|].
  rewrite (take_S_r _ _ (k, node)) by by rewrite list_lookup_imap, Hn. rewrite rev_app_distr. cbn [rev app List.filter snd].
  destruct (is_directory node) eqn:Ed.
  - constructor; [done| | |].
    + rewrite (Hw k node Hn), Ed. intros [?|?]; [done|lia].
    + intros _. pose proof (no_children _ _ _ _ (proj2 (proj2 Hflat) k node Hn)) as Hc. eapply Forall_impl; [exact Hc|].
      intros x (child & Hx & Hlt). apply (Hw _ child Hx). destruct (is_directory child); [right; by apply Hlt|by left].
    + apply IH; [lia|]. intros j nd Hj. rewrite elem_of_cons, (Hw j nd Hj). split; [|].
      * intros [->|[?|?]]; [right; lia|by left|right; lia].
      * intros [?|?]; [by right; left|]. destruct (decide (j = k)); [by left|right; right; lia].
  - apply IH; [lia|]. intros j nd Hj. rewrite (Hw j nd Hj). split; [intros [?|?]; [by left|right; lia]|].
    intros [?|?]; [by left|]. destruct (decide (j = k)) as [->|]; [left; congruence|right; lia].
Qed.

Definition no_contents_yet : Contents := mkContents [] [] [] [] (replicate (length nodes) 0%Z).

Lemma new_tables t : InodeTables_new nodes lv = Ok t ->
  tables_have lv (ids t) t no_contents_yet /\ (Z.of_nat (length (ids t)) < 2 ^ 16)%Z /\
  (forall z, z ∈ ids t <-> exists i node, nodes !! i = Some node /\
     (z = uid (SquashTree.metadata (fn_node node)) \/ z = gid (SquashTree.metadata (fn_node node)))).
Proof.
  unfold InodeTables_new. destruct (try_into u16 _ _) as [n|e] eqn:Et; [|done]. intros [= <-].
  apply try_into_ok in Et as [-> Hr]. cbn [ids]. split; [|split].
  - split; try done; cbn; apply table_has_new.
  - unfold in_range in Hr. lia.
  - intros z. rewrite (elem_of_BTreeSet_collect Z.compare Z.compare_eq_iff). rewrite list_elem_of_In, in_concat. split.
    + intros (l & Hl & Hz). apply in_map_iff in Hl as (node & <- & Hnode). apply list_elem_of_In, list_elem_of_lookup in Hnode as [i Hi].
      exists i, node. split; [done|]. destruct Hz as [<-|[<-|[]]]; auto.
    + intros (i & node & Hi & Hz). eexists. split.
      * apply in_map_iff. exists node. split; [done|]. apply list_elem_of_In. by eapply list_elem_of_lookup_2.
      * destruct Hz as [->| ->]; simpl; auto.
Qed.

Lemma write_inodes_spec t : InodeTables_new nodes lv = Ok t ->
  builds lv (ids t) no_contents_yet (write_inodes layouts nodes) (fun _ T =>
    exists spans written, built lv (ids t) layouts nodes T spans written /\ forall i, i < length nodes -> i ∈ written).
Proof.
  intros Ht. destruct (new_tables t Ht) as (_ & Hl & Hids).
  assert (forall i node, nodes !! i = Some node -> uid (SquashTree.metadata (fn_node node)) ∈ ids t /\
    gid (SquashTree.metadata (fn_node node)) ∈ ids t) as Howners.
  { intros i node Hi. rewrite !Hids. split; exists i, node; auto. }
  assert (built lv (ids t) layouts nodes no_contents_yet (fun _ => (0, 0)) []) as Hb0.
  { split; cbn; [by rewrite length_replicate|by apply Forall_replicate|split; [lia|constructor]| | |constructor];
    intros i; [|intros j]; intros Hi; by apply not_elem_of_nil in Hi. }
  eapply builds_bind.
  { apply (inodes_loop_spec lv (ids t) layouts nodes Hflat Howners Hl _ _ _ [] Hb0).
    apply ordered_files; [apply numbered_distinct|]. intros i node Hi%elem_of_numbered. split; [done|]. apply not_elem_of_nil. }
  intros [] T1 [sp1 H1]. rewrite app_nil_r in H1. set (files := List.filter _ (imap pair nodes)) in *.
  assert (forall j nd, nodes !! j = Some nd -> (j ∈ rev (map fst files) <-> is_directory nd = false \/ length nodes <= j)) as Hfiles.
  { intros j nd Hj. pose proof (lookup_lt_Some _ _ _ Hj). rewrite list_elem_of_In, <- in_rev, <- list_elem_of_In.
    change (map fst files) with (fst <$> files). rewrite list_elem_of_fmap. split.
    - intros ([j' nd'] & -> & [Hin Hd]%elem_of_filter_bool). apply elem_of_numbered in Hin. cbn [fst] in *. left.
      assert (nd' = nd) as -> by congruence. by apply negb_true_iff in Hd.
    - intros [Hd|?]; [|lia]. exists (j, nd). split; [done|]. apply elem_of_filter_bool. rewrite elem_of_numbered. cbn [snd]. by rewrite Hd. }
  eapply builds_mono.
  { apply (inodes_loop_spec lv (ids t) layouts nodes Hflat Howners Hl _ _ _ _ H1).
    rewrite <- (take_ge (imap pair nodes) (length nodes)) by by rewrite length_imap. by apply ordered_directories. }
  intros [] T2 [sp2 H2]. exists sp2. eexists. split; [exact H2|]. intros i Hi. apply lookup_lt_is_Some in Hi as [node Hi].
  apply elem_of_app. destruct (is_directory node) eqn:Ed; [left|right; apply (Hfiles i node Hi); by left].
  rewrite list_elem_of_In, <- in_rev, <- list_elem_of_In. apply list_elem_of_fmap. exists (i, node). split; [done|].
  apply elem_of_filter_bool. split; [|done]. rewrite list_elem_of_In, <- in_rev, <- list_elem_of_In. by apply elem_of_numbered.
Qed.
End all.

(** ** Reading an inode *)

(** The image has the contents of the tables. *)
Record image_has `{ZS : Zstd} (lv : Z) (owners : list Z) (count : nat) (img : bytes) (im : Image) (T : Contents) : Prop := {
  ih_count : inode_count (superblock im) = Z.of_nat count;
  ih_exports : exports im = Some (c_references T);
  ih_ids : im_ids im = owners;
  ih_xattr_ids : im_xattrs im = c_xattr_ids T;
  ih_inodes : table_in lv img (superblock im) (inode_table (superblock im)) (directory_table (superblock im)) (inode_map im) (c_inodes T);
  ih_directories : table_in lv img (superblock im) (directory_table (superblock im)) (directory_end im) (directory_map im) (c_directories T);
  ih_xattrs : im_xattrs im ≠ [] -> table_in lv img (superblock im) (xattr_start im) (xattr_end im) (xattr_map im) (c_xattrs T);
}.

(** What the reader makes of the files whose layouts were written: see SquashFiles.v. *)
Definition files_ok {S} (layouts : list (option FileLayout)) (nodes : list (FlatNode S)) (sb : Superblock) (frags : list Fragment) : Prop :=
  forall i node source l, nodes !! i = Some node -> contents (fn_node node) = NFile source -> layout_of layouts i = Done l ->
    disk_ok (layout_inode l 1 0) = true /\ Forall (fun z => in_range u32 z = true) (fl_blocks l) /\
    block_count sb (layout_inode l 1 0) = Z.of_nat (length (fl_blocks l)) /\
    exists f, inode_file sb frags (layout_inode l 1 0) (fl_blocks l) = Ok f.

Section read_as.
Context {S : Type}.
Variables (layouts : list (option FileLayout)) (nodes : list (FlatNode S)) (sb : Superblock) (frags : list Fragment) (refs : list Z).

(** What the reader makes of the contents of a node: the children of a directory with their references. *)
Definition contents_read (i : nat) (node : FlatNode S) (c : NodeContents SquashfsFileSource) (children : list Child)
    (parent links : Z) : Prop :=
  match contents (fn_node node) with
  | NFile _ => exists l f, layout_of layouts i = Done l /\ inode_file sb frags (layout_inode l 1 0) (fl_blocks l) = Ok f /\
      c = NFile f /\ children = [] /\ links = fn_links node
  | NDirectory _ => c = NDirectory DirectoryContents_new /\ Forall2 (child_is refs nodes) (fn_children node) children /\
      parent = parent_number nodes i node /\
      exists subdirs, count_subdirs nodes (fn_children node) = Done subdirs /\ links = Z.of_nat (subdirs + 2)
  | NSymlink target => c = NSymlink target /\ children = [] /\ links = fn_links node
  | NBlockDevice d => c = NBlockDevice d /\ children = [] /\ links = fn_links node
  | NCharacterDevice d => c = NCharacterDevice d /\ children = [] /\ links = fn_links node
  | NFifo => c = NFifo /\ children = [] /\ links = fn_links node
  | NSocket => c = NSocket /\ children = [] /\ links = fn_links node
  end.

(** What [Image::inode] gives for a node. *)
Record inode_read (i : nat) (node : FlatNode S) (span : nat * nat) (p : Parsed) : Prop := {
  ir_number : ih_number (pa_header p) = (Z.of_nat i + 1)%Z;
  ir_kind : ih_kind (pa_header p) = InodeKind_extended (NodeContents_kind (contents (fn_node node)));
  ir_metadata : SquashTree.metadata (pa_node p) = SquashTree.metadata (fn_node node);
  ir_contents : contents_read i node (contents (pa_node p)) (pa_children p) (pa_parent p) (pa_links p);
  ir_span : pa_span p = (Z.of_nat span.1, Z.of_nat span.2);
}.
End read_as.

Section read_inode.
Context `{ZS : Zstd} `{!ZstdOk ZS} {S : Type}.
Variables (lv : Z) (owners : list Z) (layouts : list (option FileLayout)) (nodes : list (FlatNode S)).
Hypothesis Hflat : flat_ok layouts nodes.
Variables (img : bytes) (rep : option Z) (bad : Prop) (im : Image) (T : Contents).
Hypothesis Him : image_has lv owners (length nodes) img im T.

Hypothesis Hfiles : files_ok layouts nodes (superblock im) (im_fragments im).

Variable stop : Z.
#[local] Instance tracking : AsyncReadOk InodeReader := Tracking_ok stop.

Lemma read_contents_spec i node xattr body rest reader : nodes !! i = Some node -> in_range u32 xattr = true ->
  body_of lv layouts nodes T i node xattr body -> reader_of bad reader (body ++ rest) ->
  obtains img rep bad (read_contents im (NodeContents_kind (contents (fn_node node))) true reader)
    (fun '(c, children, parent, links, x, reader') => x = xattr /\ reader_of bad reader' rest /\ contents_read layouts nodes (superblock im) (im_fragments im) (c_references T) i node c children parent links).
Proof.
  intros Hi Hx Hb Hr. pose proof (proj2 (proj2 Hflat) i node Hi) as Hok. pose proof (no_links _ _ _ _ Hok) as Hl.
  assert (in_range u32 (fn_links node) = true) as Hlinks by (apply in_range_u32; lia).
  pose proof (no_contents _ _ _ _ Hok) as Hc. unfold body_of in Hb. unfold contents_read.
  destruct (contents (fn_node node)) as [source|dir|target|device|device| |] eqn:Ec; cbn [NodeContents_kind read_contents].
  - destruct Hb as (l & Hlay & ->). destruct (Hfiles i node source l Hi Ec Hlay) as (Hdisk & HF & Hcount & f & Hf). rewrite <- app_assoc in Hr.
    eapply obtains_bind.
    { eapply obtains_parses; [exact Hr|]. apply (read_file_spec bad im (layout_inode l (fn_links node) xattr) (fl_blocks l) f); try done.
      unfold disk_ok, layout_inode in *. cbn [layout tuple_ok to_tuple FileInode_disk fi_block fi_size fi_sparse fi_links fi_fragment fi_offset fi_xattr] in *.
      rewrite Hlinks, Hx. rewrite !andb_true_iff in *. naive_solver. }
    intros [x r'] (c' & [-> ->] & Hr'). apply obtains_ret. split; [done|]. split; [done|]. by exists l, f.
  - destruct Hb as (d & ixs & cs & before & groups & ref & subdirs & -> & Hdisk & Hn & H2 & Hlp & Hdx & Hpar & Hsub & Hdl).
    rewrite <- (ih_count _ _ _ _ _ _ Him) in Hlp. eapply obtains_bind.
    { eapply obtains_parses; [exact Hr|]. by eapply (read_directory_spec lv img rep bad im (c_directories T) (ih_directories _ _ _ _ _ _ Him)). }
    intros [x r'] (c' & [-> ->] & Hr'). eapply obtains_bind.
    { eapply (read_listing_spec lv img rep bad im (c_directories T) (ih_directories _ _ _ _ _ _ Him)); [|exact Hlp].
      rewrite (ih_count _ _ _ _ _ _ Him). destruct Hflat as (_ & ? & _). lia. }
    intros x ->. apply obtains_ret. split; [done|]. split; [done|]. split; [done|]. split; [done|]. split; [done|]. by exists subdirs.
  - destruct Hb as (Hn & Htl & ->). eapply obtains_bind; [eapply obtains_parses; [exact Hr|]; by apply read_symlink_spec|].
    intros [x r'] (c' & [-> ->] & Hr'). by apply obtains_ret.
  - destruct Hb as (number & Hd & ->). destruct Hc. eapply obtains_bind; [eapply obtains_parses; [exact Hr|]; by apply (read_device_spec bad device)|].
    intros [x r'] (c' & [-> ->] & Hr'). by apply obtains_ret.
  - destruct Hb as (number & Hd & ->). destruct Hc. eapply obtains_bind; [eapply obtains_parses; [exact Hr|]; by apply (read_device_spec bad device)|].
    intros [x r'] (c' & [-> ->] & Hr'). by apply obtains_ret.
  - subst body. eapply obtains_bind; [eapply obtains_parses; [exact Hr|]; by apply read_ipc_spec|].
    intros [x r'] (c' & [-> ->] & Hr'). by apply obtains_ret.
  - subst body. eapply obtains_bind; [eapply obtains_parses; [exact Hr|]; by apply read_ipc_spec|].
    intros [x r'] (c' & [-> ->] & Hr'). by apply obtains_ret.
Qed.

Lemma check_header_spec i node ref u g : nodes !! i = Some node -> c_references T !! i = Some ref ->
  owners !! Z.to_nat u = Some (uid (SquashTree.metadata (fn_node node))) ->
  owners !! Z.to_nat g = Some (gid (SquashTree.metadata (fn_node node))) ->
  check_header im ref (header_of i node u g) =
    Done (Ok (NodeContents_kind (contents (fn_node node)), uid (SquashTree.metadata (fn_node node)), gid (SquashTree.metadata (fn_node node)))).
Proof.
  intros Hi Href Hu Hg. pose proof (no_mode _ _ _ _ (proj2 (proj2 Hflat) i node Hi)) as Hm. pose proof (lookup_lt_Some _ _ _ Hi).
  unfold check_header, header_of. cbn [ih_kind ih_mode ih_number ih_uid ih_gid]. rewrite from_disk_extended.
  replace (Z.ldiff (mode (SquashTree.metadata (fn_node node))) 0xfff) with 0%Z.
  2:{ change 0xfff%Z with (Z.ones 12). rewrite Z.ldiff_ones_r, Z.shiftr_div_pow2, Z.div_small by lia. done. }
  rewrite (ih_count _ _ _ _ _ _ Him). destruct (Z.eqb_spec (Z.of_nat i + 1) 0); [lia|].
  destruct (Z.ltb_spec (Z.of_nat (length nodes)) (Z.of_nat i + 1)); [lia|]. cbn [Z.eqb negb orb].
  rewrite (ih_exports _ _ _ _ _ _ Him). replace (Z.to_nat (Z.of_nat i + 1 - 1)) with i by lia. rewrite Href. cbn [unwrap outcome_bind].
  rewrite Z.eqb_refl. cbn [negb]. by rewrite (ih_ids _ _ _ _ _ _ Him), Hu, Hg.
Qed.
End read_inode.

Section read_inodes.
Context `{ZS : Zstd} `{!ZstdOk ZS} {S : Type}.
Variables (lv : Z) (owners : list Z) (layouts : list (option FileLayout)) (nodes : list (FlatNode S)).
Hypothesis Hflat : flat_ok layouts nodes.
Variables (img : bytes) (rep : option Z) (bad : Prop) (im : Image) (T : Contents).
Hypothesis Him : image_has lv owners (length nodes) img im T.
Hypothesis Hfiles : files_ok layouts nodes (superblock im) (im_fragments im).

Lemma Image_inode_spec i node span ref : nodes !! i = Some node -> inode_written lv owners layouts nodes T span i node ->
  c_references T !! i = Some ref ->
  obtains img rep bad (Image_inode im ref) (inode_read layouts nodes (superblock im) (im_fragments im) (c_references T) i node span).
Proof.
  intros Hi (before & ref' & u & g & xattr & body & -> & Hr' & Href & [rest Hp] & [Hu16 Hu] & [Hg16 Hg] & Hx & Hb) Hr.
  assert (ref' = ref) as -> by congruence. pose proof (proj2 (proj2 Hflat) i node Hi) as Hok.
  set (h := header_of i node u g) in *. pose proof (ih_inodes _ _ _ _ _ _ Him) as Htab. rewrite Hp, <- app_assoc in Htab.
  set (after := (serialize h ++ body) ++ rest) in *.
  assert (length after = length (serialize h) + length body + length rest) as Hlen by (unfold after; by rewrite !length_app).
  destruct (table_reference_at lv img rep bad (superblock im) _ _ _ _ _ ref Htab) as [Hrd (logical & Hl & E)]; [|done|].
  { intros E. rewrite E, serialize_length in Hlen. change (SIZE InodeHeader) with 16 in Hlen. simpl in Hlen. lia. }
  unfold Image_inode. eapply obtains_bind; [exact Hrd|]. intros r [Hr1 Hr2].
  eapply obtains_bind; [apply obtains_outcome; by rewrite Hl|]. intros ? ->. rewrite E.
  set (stop := (Z.of_nat (length before) + Z.of_nat (length after))%Z).
  assert (in_range u32 xattr = true) as Hxr.
  { destruct Hx as [[_ ->]|(_ & ? & _)]; [done|]. apply in_range_u32. unfold INVALID_INDEX in *. lia. }
  eapply obtains_bind.
  { apply (obtains_parses (AsyncReadOk0 := Tracking_ok stop) img rep bad _ _ after); [by repeat split|].
    unfold after. rewrite <- app_assoc. apply parses_disk. pose proof (no_mode _ _ _ _ Hok). pose proof (no_time _ _ _ _ Hok) as Ht.
    pose proof (lookup_lt_Some _ _ _ Hi). destruct Hflat as (_ & H32 & _).
    unfold disk_ok, h, header_of. cbn [layout tuple_ok to_tuple InodeHeader_disk ih_kind ih_mode ih_uid ih_gid ih_modification_time ih_number].
    rewrite Hu16, Hg16, Ht, (in_range_u32 (Z.of_nat i + 1)), (in_range_u16 (mode _)) by lia. by destruct (NodeContents_kind _). }
  intros [h' r1] (c' & [-> ->] & Hrd1).
  eapply obtains_bind; [by apply obtains_outcome, (check_header_spec lv owners layouts nodes Hflat img im T Him i node)|]. intros ? ->.
  eapply obtains_bind; [by apply obtains_io|]. intros ? ->. cbv beta iota.
  replace (7 <? ih_kind h)%Z with true
    by (unfold h, header_of; cbn [ih_kind]; destruct (NodeContents_kind _); done).
  eapply obtains_bind.
  { apply (read_contents_spec lv owners layouts nodes Hflat img rep bad im T Him Hfiles stop i node xattr body rest r1 Hi Hxr Hb Hrd1). }
  intros [[[[[c children] parent] links] x] r2] (-> & [[_ Hpos] _] & Hc).
  assert (links ≠ 0%Z) as Hlinks.
  { pose proof (no_links _ _ _ _ Hok). unfold contents_read in Hc.
    destruct (contents (fn_node node)); [destruct Hc as (? & ? & _ & _ & _ & _ & ->)|destruct Hc as (_ & _ & _ & ? & _ & ->)|
      destruct Hc as (_ & _ & ->)..]; lia. }
  destruct (Z.eqb_spec links 0); [done|].
  eapply obtains_bind.
  { apply (attributes_spec lv img rep bad im (c_xattrs T) xattr (SquashTree.xattrs (SquashTree.metadata (fn_node node))) (ih_xattrs _ _ _ _ _ _ Him)).
    - by rewrite (ih_xattr_ids _ _ _ _ _ _ Him).
    - apply (no_xattrs _ _ _ _ Hok). }
  intros ? ->. apply obtains_ret. split; cbn [pa_header pa_node pa_children pa_parent pa_links pa_span]; try done.
  - unfold h, header_of. cbn [SquashTree.metadata ih_mode ih_modification_time]. by destruct (SquashTree.metadata (fn_node node)).
  - cbn [fst snd]. f_equal. unfold stop in Hpos. rewrite Hlen in Hpos. rewrite !length_app. lia.
Qed.
End read_inodes.

(** ** Whole images *)

(** What the caller of [serialize] and its first part provide for the superblock. *)
Record image_inputs (o : Options) (frags : list Fragment) (sb : Superblock) : Prop := {
  ii_block_size : validate_block_size (o_block_size o) = Ok tt;
  ii_time : in_range u32 (o_modification_time o) = true;
  ii_fragments : Forall (fun f => disk_ok f = true /\ check_fragment sb f = Ok tt) frags;
  ii_used : (bytes_used sb < 2 ^ 64)%Z;
}.

Section images.
Context `{ZS : Zstd} `{!ZstdOk ZS} {S : Type}.
Variables (o : Options) (layouts : list (option FileLayout)) (nodes : list (FlatNode S)) (frags : list Fragment).
Let lv := compression_level o.
Hypothesis Hflat : flat_ok layouts nodes.

Lemma tables_have_ok owners t T : tables_have lv owners t T -> exists had, tables_ok lv t had /\
  taken (inodes t) (had_inodes had) = c_inodes T /\ taken (directories t) (had_directories had) = c_directories T /\
  taken (xattrs t) (had_xattrs had) = c_xattrs T.
Proof.
  intros [(Hl1 & h1 & Hf1 & Ht1) (Hl2 & h2 & Hf2 & Ht2) (Hl3 & h3 & Hf3 & Ht3) _ _ _]. by exists (mkHad h1 h2 h3).
Qed.

Variables (t0 t : InodeTables) (T : Contents) (spans : nat -> nat * nat) (written : list nat) (sb : Superblock) (a : Archived).
Hypothesis Ht0 : InodeTables_new nodes lv = Ok t0.
Hypothesis Ht : tables_have lv (ids t0) t T.
Hypothesis Hbuilt : built lv (ids t0) layouts nodes T spans written.
Hypothesis Hall : forall i, i < length nodes -> i ∈ written.
Hypothesis Harch : archived o (length nodes) frags t sb a.
Hypothesis Hin : image_inputs o frags sb.

Lemma all_written i node : nodes !! i = Some node -> inode_written lv (ids t0) layouts nodes T (spans i) i node.
Proof.
  intros Hi. destruct (bt_written _ _ _ _ _ _ _ Hbuilt i) as (nd & Hi' & Hw & _); [apply Hall; by eapply lookup_lt_Some|].
  by assert (nd = node) as -> by congruence.
Qed.

Lemma first_written : exists node, nodes !! 0 = Some node.
Proof. destruct Hflat as (H0 & _). by apply lookup_lt_is_Some in H0. Qed.

Lemma inodes_nonempty : c_inodes T ≠ [].
Proof.
  destruct first_written as [node H0]. destruct (all_written 0 node H0) as (before & ref & u & g & xattr & body & _ & _ & _ & [rest ->] & _).
  intros E. apply (f_equal length) in E. rewrite !length_app, serialize_length in E. change (SIZE InodeHeader) with 16 in E. simpl in E. lia.
Qed.

Lemma inputs_built : inputs_ok o (length nodes) frags t sb.
Proof.
  destruct Hin as [H1 H2 H3 H4]. pose proof Hflat as (Hn & H32 & Hok). destruct first_written as [node H0].
  destruct (new_tables lv nodes t0 Ht0) as (_ & Hidl & Hids).
  assert (references t ≠ []) as Hrefs.
  { intros E. pose proof (bt_references _ _ _ _ _ _ _ Hbuilt) as Hl. rewrite <- (th_references _ _ _ _ Ht), E in Hl. simpl in Hl. lia. }
  destruct (tables_have_ok _ _ _ Ht) as (had & Htok & _).
  pose proof Harch as (s & s' & extra & Hs & E & _).
  destruct (write_image_spec o (length nodes) frags t had s s' sb H1 Htok Hrefs Hs E) as (x & Hta & _).
  destruct (all_written 0 node H0) as (before & ref & u & g & xattr & body & _ & Hr & Href & _).
  pose proof (ta_root _ _ _ _ _ _ _ _ _ Hta) as Hroot. rewrite (th_references _ _ _ _ Ht), Hr in Hroot. injection Hroot as Hroot.
  split; try done; [by split; [|lia]|..].
  - rewrite (th_references _ _ _ _ Ht). split; [apply (bt_references _ _ _ _ _ _ _ Hbuilt)|].
    eapply Forall_impl; [apply (bt_range _ _ _ _ _ _ _ Hbuilt)|]. intros r [Hr1 Hr2]. unfold in_range. lia.
  - rewrite <- Hroot. by apply (reference_of_range lv before).
  - rewrite (th_ids _ _ _ _ Ht). split.
    + intros E'. assert (uid (SquashTree.metadata (fn_node node)) ∈ ids t0) as Hu by (apply Hids; exists 0, node; auto).
      rewrite E' in Hu. by apply not_elem_of_nil in Hu.
    + apply Forall_forall. intros z (i & nd & Hi & Hz)%Hids. destruct (no_owner _ _ _ _ (Hok i nd Hi)) as [? ?]. by destruct Hz as [->| ->].
  - rewrite (th_xattr_ids _ _ _ _ Ht). apply (bt_xattr_ids _ _ _ _ _ _ _ Hbuilt).
Qed.

Lemma image_has_loaded : obtains (archive a) (reported a) (faulty a) load (fun im =>
  superblock im = sb /\ im_fragments im = frags /\ image_has lv (ids t0) (length nodes) (archive a) im T).
Proof.
  destruct (tables_have_ok _ _ _ Ht) as (had & Htok & Hi & Hd & Hx). pose proof Htok as ([Hfi _] & [Hfd _] & [Hfx _]).
  pose proof inodes_nonempty as Hne. pose proof inputs_built as Hinp.
  destruct (archived_loads o (length nodes) frags t _ had sb a Htok Hi Hne Harch Hinp) as (pos & x & Hta & Hpos & Hloc & Hu & Hload).
  eapply obtains_mono; [exact Hload|]. intros im [I1 I2 I3 I4 [I5 I5'] I6 I7 I8].
  pose proof (ta_inode_table _ _ _ _ _ _ _ _ _ Hta) as Eit. pose proof (ta_directory_table _ _ _ _ _ _ _ _ _ Hta) as Edt.
  pose proof (ta_used _ _ _ _ _ _ _ _ _ Hta) as Eu. pose proof (ii_used _ _ _ Hin) as H64.
  unfold parts_bytes in Hloc. apply located_app in Hloc as [Hloci Hloc]. apply located_app in Hloc as [Hlocd _].
  split; [done|]. split; [done|]. split.
  - rewrite I1, (proj1 (ta_counts _ _ _ _ _ _ _ _ _ Hta)). destruct Hflat as (_ & Hlt & _). apply Z.mod_small. lia.
  - by rewrite I4, (th_references _ _ _ _ Ht).
  - by rewrite I2, (th_ids _ _ _ _ Ht).
  - by rewrite I5, (th_xattr_ids _ _ _ _ Ht).
  - rewrite I6, I1, Eit, Edt, <- Hi. apply (table_in_finished lv (archive a) sb _ _ _ _ pos (ta_inodes _ _ _ _ _ _ _ _ _ Hta)); try done. lia.
  - rewrite I7, I8, I1, Edt, <- Hd. apply (table_in_finished lv (archive a) sb _ _ _ _ _ (ta_directories _ _ _ _ _ _ _ _ _ Hta)); try done; lia.
  - intros Hxne. destruct (I5' Hxne) as (p & xb & -> & Hp & -> & Hst & Hxl & Hxf & ->). rewrite I1, <- Hx.
    by apply (table_in_finished lv (archive a) sb _ _ _ _ _ Hxf).
Qed.
End images.

(** Every inode is read as it was written.  For the nodes that [flatten] gives, [InodeTables] never panics;
    when all inodes have been written, then from every archive that begins with the finished image,
    however it answers, [load] and [Image::inode] at the reference of a node do not panic, fail only because the
    archive does, and otherwise give the node's number, kind, metadata with all extended attributes, contents and
    link count: the layout of a file, the target of a symlink, the numbers of a device, and for a directory its
    parent and its children in order, each with the reference, number and kind of the child's inode, whatever
    the groups and indexes its listing was split into.  The spans of different inodes do not overlap. *)
Theorem inodes_roundtrip `{ZS : Zstd} `{!ZstdOk ZS} {S : Type} o layouts (nodes : list (FlatNode S)) t0 :
  flat_ok layouts nodes -> InodeTables_new nodes (compression_level o) = Ok t0 ->
  match write_inodes layouts nodes t0 with
  | (t, Ready _) => forall frags sb a, archived o (length nodes) frags t sb a -> image_inputs o frags sb ->
      files_ok layouts nodes sb frags -> exists spans : nat -> nat * nat,
        (forall i j, i < length nodes -> j < length nodes -> i ≠ j -> (spans i).2 <= (spans j).1 \/ (spans j).2 <= (spans i).1) /\
        opens a load (fun a' im => superblock im = sb /\ forall i node, nodes !! i = Some node ->
          exists ref, references t !! i = Some ref /\
            opens a' (Image_inode im ref) (fun _ => inode_read layouts nodes sb frags (references t) i node (spans i)))
  | (_, Fail _) => True
  | _ => False
  end.
Proof.
  intros Hflat Ht0. destruct (new_tables _ nodes t0 Ht0) as (Hnew & _).
  pose proof (write_inodes_spec _ layouts nodes Hflat t0 Ht0 t0 Hnew) as H. unfold post in H.
  destruct (write_inodes layouts nodes t0) as [t [[]|e| |]]; cbn [fst snd] in H; try done.
  destruct H as (T & Ht & spans & written & Hb & Hall). intros frags sb a Ha Hin Hf. exists spans. split.
  { intros i j Hi Hj. apply (bt_spans _ _ _ _ _ _ _ Hb); auto. }
  assert (archive_ok (archive a) (reported a) (faulty a) a) as Hok by by split.
  eapply post_mono; [by apply (image_has_loaded o layouts nodes frags Hflat t0 t T spans written sb a Ht0 Ht Hb Hall Ha Hin)|].
  intros a' [im|e| |] [(Ha1 & Ha2 & _) H]; try done. destruct H as (Hsb & Hfr & Him). split; [done|]. intros i node Hi.
  pose proof (all_written o layouts nodes t0 T spans written Hb Hall i node Hi) as Hw.
  pose proof Hw as (_ & ref & _ & _ & _ & _ & _ & Href & _). rewrite (th_references _ _ _ _ Ht). exists ref. split; [done|].
  rewrite <- Ha1 in Him. rewrite <- Hsb, <- Hfr in *.
  eapply post_mono; [by apply (Image_inode_spec _ _ layouts nodes Hflat (archive a') (reported a') (faulty a') im T Him Hf i node (spans i) ref)|].
  intros a'' [p|e| |] [_ Hp]; done.
Qed.

(** ** Examples *)

Module SquashInodesExamples.
Import RunLength.

Definition o : Options := mkOptions 4096 15 7 true.
Definition plain (m : Z) : Metadata := mkMetadata m 1000 0 5 [].
Definition labelled : Metadata := mkMetadata 420 1000 7 5 [(bstr "security.b", bstr "zz"); (bstr "user.a", bstr "value")].
Definition directory : Node unit := mkNode (plain 493) (NDirectory DirectoryContents_new).

(** [/a] is a symlink, [/d] a directory with the fifo [x], [/f] a file with two links, [/l] a device. *)
Definition nodes : list (FlatNode unit) := [
  mkFlat directory [] 0 [(bstr "a", 1); (bstr "d", 2); (bstr "f", 3); (bstr "l", 4)] 1;
  mkFlat (mkNode labelled (NSymlink (bstr "to/there"))) [bstr "a"] 0 [] 1;
  mkFlat directory [bstr "d"] 0 [(bstr "g", 3); (bstr "x", 5)] 1;
  mkFlat (mkNode (plain 420) (NFile tt)) [bstr "f"] 0 [] 2;
  mkFlat (mkNode (plain 420) (NBlockDevice (mkDevice 8 300))) [bstr "l"] 0 [] 1;
  mkFlat (mkNode (plain 420) NFifo) [bstr "d"; bstr "x"] 2 [] 1].

Definition layouts : list (option FileLayout) :=
  [None; None; None; Some (mkLayout 96 99 0 [] 0 0); None; None].
Definition frags : list Fragment := [mkFragment 96 (Z.lor 99 UNCOMPRESSED_DATA) 0].

Definition new : InodeTables := match InodeTables_new nodes 15 with Ok t => t | Err _ => mkTables (MetadataTable_new 15) (MetadataTable_new 15) (MetadataTable_new 15) [] [] [] end.
Definition tables : InodeTables := (write_inodes layouts nodes new).1.
Definition data : Sink := mkSink (replicate 195 Byte.x07) [Moved 3; NotReady].
Definition written : Sink * res Superblock := write_image o 6 frags tables data.
Definition sb : Superblock := match written.2 with Ready s => s | _ => mkSuperblock 0 0 0 0 0 0 0 0 0 0 0 0 0 0 0 0 0 0 0 end.
Definition a : Archived := mkArchived (sunk written.1 ++ bstr "next") [Served [Moved 10; NotReady]; Served []] None.

Ltac check_node := split; [cbn; lia|split; reflexivity|reflexivity|once (repeat constructor)|cbn; lia|cbn; lia|
  split; once (repeat constructor)|
  repeat (apply Forall_cons_2; [eexists; split; [reflexivity|cbn; intros; first [discriminate|lia]]|]); apply Forall_nil_2|
  cbn; first [exact I|lia|eexists; reflexivity]].

Lemma nodes_flat : flat_ok layouts nodes.
Proof.
  split; [cbn; lia|]. split; [vm_compute; reflexivity|]. intros i node Hi.
  do 6 (destruct i as [|i]; [injection Hi as <-; check_node|]). done.
Qed.

Lemma new_ok : InodeTables_new nodes 15 = Ok new.
Proof. vm_compute. reflexivity. Qed.

Lemma all_ready : write_inodes layouts nodes new = (tables, Ready tt).
Proof. vm_compute. reflexivity. Qed.

Lemma tables_archived : archived o (length nodes) frags tables sb a.
Proof.
  exists data, written.1, (bstr "next"). split; [vm_compute; lia|]. split; [vm_compute; reflexivity|].
  split; [reflexivity|]. intros n E. cbn [a reported] in E. discriminate E.
Qed.

Lemma inode_inputs : image_inputs o frags sb.
Proof. split; [reflexivity|reflexivity|repeat constructor; vm_compute; reflexivity|vm_compute; reflexivity]. Qed.

Lemma files : files_ok layouts nodes sb frags.
Proof.
  intros i node source l Hi Hc Hl. do 6 (destruct i as [|i]; [injection Hi as <-; first [discriminate Hc|
    injection Hl as <-; split; [vm_compute; reflexivity|split; [constructor|split; [vm_compute; reflexivity|eexists; vm_compute; reflexivity]]]]|]). done.
Qed.

(** The listing of the root, read back. *)
Lemma inodes_roundtrip_witness : exists ref : Z, opens a load (fun a' im => opens a' (Image_inode im ref) (fun _ p =>
  map ch_name (pa_children p) = [bstr "a"; bstr "d"; bstr "f"; bstr "l"] /\ pa_parent p = 7%Z /\ pa_links p = 3%Z)).
Proof.
  pose proof (inodes_roundtrip o layouts nodes new nodes_flat new_ok) as H. rewrite all_ready in H.
  destruct (H frags sb a tables_archived inode_inputs files) as (spans & _ & Hload).
  assert (exists ref, references tables !! 0 = Some ref) as [ref Href] by (vm_compute; eexists; reflexivity).
  exists ref. unfold opens in Hload |- *. eapply post_mono; [exact Hload|]. intros a' [im|e| |] Hr; [|exact Hr|exact Hr|exact Hr].
  destruct Hr as [_ Hr]. destruct (Hr 0 _ eq_refl) as (ref' & Href' & Hread).
  assert (ref' = ref) as -> by (rewrite Href in Href'; by injection Href').
  eapply post_mono; [exact Hread|]. intros a'' [p|e| |] Hp; [|exact Hp|exact Hp|exact Hp].
  destruct Hp as [_ _ _ (_ & H2 & Hp & subdirs & Hs & Hl) _]. split; [|split].
  - by apply child_names in H2.
  - rewrite Hp. reflexivity.
  - vm_compute in Hs. injection Hs as <-. rewrite Hl. reflexivity.
Defined.
End SquashInodesExamples.
