(* ===== verification/SquashFlatten.v ===== *)
(** * Flattening a tree into inodes

    [shared-libs/crates/start-core/src/util/squashfs/write.rs], [flatten]: the nodes of a tree with
    their children and link counts, hardlinks resolved, in the order of their paths.

    A [PathBuf] is the list of its components, in the order of [Ord for Path]; the names in a directory
    are valid, so that [join] adds one component.  The stack of directories is a list with its top first. *)
From stdpp Require Import sorting relations.
From S2P Require Import Prelude RustStr BTree SquashFormat SquashBlocks SquashTree SquashData SquashFiles SquashIo SquashImage SquashInode.

Local Open Scope rust_scope.
Local Open Scope poll_scope.

(** [Ord for Path]: component by component. *)
Definition path_cmp : list bytes -> list bytes -> comparison := list_cmp bytes_cmp.

Section Flatten.
Context {S : Type}.

Record Flattening : Type := mkFlattening {
  f_nodes : list (FlatNode S);
  f_paths : list (list bytes * result nat (list bytes));
  f_links : list (nat * bytes * list bytes);
  f_stack : list nat;
}.

Definition push_child (child : bytes * nat) (n : FlatNode S) : FlatNode S :=
  mkFlat (fn_node n) (fn_path n) (fn_parent n) (fn_children n ++ [child]) (fn_links n).

Definition is_dir (n : Node S) : bool := match contents n with NDirectory _ => true | _ => false end.

(** [mode & !0o7777 != 0]. *)
Definition bad_mode (n : Node S) : bool := negb (Z.ldiff (mode (SquashTree.metadata n)) 0xfff =? 0)%Z.

(** One entry of the directory [parent]. *)
Definition flatten_entry (parent : nat) (name : bytes) (entry : Entry S) : M Flattening unit := fun st =>
  match f_nodes st !! parent with
  | None => (st, Panics)
  | Some p =>
      let path := fn_path p ++ [name] in
      match entry with
      | ENode node =>
          if bad_mode node then fail $"invalid SquashFS inode mode" st
          else
            let index := length (f_nodes st) in
            (mkFlattening (alter (push_child (name, index)) parent (f_nodes st ++ [mkFlat node path parent [] 1]))
               (BTreeMap_insert path_cmp path (Ok index) (f_paths st)) (f_links st)
               (if is_dir node then index :: f_stack st else f_stack st), Ready tt)
      | EHardlink target =>
          match normalize_path target with
          | Err e => (st, Fail e)
          | Ok target' =>
              (mkFlattening (f_nodes st) (BTreeMap_insert path_cmp path (Err target') (f_paths st))
                 (f_links st ++ [(parent, name, path)]) (f_stack st), Ready tt)
          end
      end
  end.

Fixpoint flatten_entries (parent : nat) (es : list (bytes * Entry S)) : M Flattening unit :=
  match es with
  | [] => m_ret tt
  | (name, entry) :: rest => flatten_entry parent name entry ;> flatten_entries parent rest
  end.

(** [nodes\[parent\].node.contents.as_directory().expect(..)]. *)
Definition queued_directory (parent : nat) : M Flattening (DirectoryContents S) := fun st =>
  match (p ← f_nodes st !! parent; as_directory (contents (fn_node p))) with
  | Some d => (st, Ready d)
  | None => (st, Panics)
  end.

Definition pop_stack : M Flattening (option nat) := fun st =>
  match f_stack st with
  | [] => (st, Ready None)
  | parent :: stack => (mkFlattening (f_nodes st) (f_paths st) (f_links st) stack, Ready (Some parent))
  end.

Fixpoint flatten_loop (fuel : nat) : M Flattening unit :=
  match fuel with
  | 0 => m_panic
  | Datatypes.S k =>
      let> top := pop_stack in
      match top with
      | None => m_ret tt
      | Some parent =>
          let> directory := queued_directory parent in
          flatten_entries parent (DirectoryContents_iter directory) ;>
          flatten_loop k
      end
  end.

(** The directories in a tree, each of which is popped once. *)
Fixpoint directories_in (n : Node S) : nat :=
  match contents n with
  | NDirectory (mkDir es) =>
      1 + list_sum (map (fun x => match x.2 with ENode n => directories_in n | EHardlink _ => 0 end) es)
  | _ => 0
  end.

(** [nodes\[index\]] and a change of it. *)
Definition node_at (index : nat) : M (list (FlatNode S)) (FlatNode S) := fun nodes =>
  match nodes !! index with Some n => (nodes, Ready n) | None => (nodes, Panics) end.

Definition change_node (index : nat) (f : FlatNode S -> FlatNode S) : M (list (FlatNode S)) unit := fun nodes =>
  match nodes !! index with Some _ => (alter f index nodes, Ready tt) | None => (nodes, Panics) end.

Definition set_links (links : Z) (n : FlatNode S) : FlatNode S :=
  mkFlat (fn_node n) (fn_path n) (fn_parent n) (fn_children n) links.

Definition move_node (path : list bytes) (parent : nat) (n : FlatNode S) : FlatNode S :=
  mkFlat (fn_node n) path parent (fn_children n) (fn_links n).

Definition resolve_path (paths : list (list bytes * result nat (list bytes))) (path : list bytes)
    : M (list (FlatNode S)) nat :=
  match resolve_hardlink (fun target => BTreeMap_get path_cmp target paths) (length paths) path with
  | Some r => lift_io r
  | None => m_panic
  end.

Definition flatten_link (paths : list (list bytes * result nat (list bytes))) (parent : nat) (name : bytes)
    (path : list bytes) : M (list (FlatNode S)) unit :=
  let> index := resolve_path paths path in
  let> node := node_at index in
  lift_io (Node_validate_hardlink_target (fn_node node)) ;>
  let> links := lift_io (checked_add (fn_links node) 1 $"too many inode links") in
  change_node index (set_links links) ;>
  (if is_lt (path_cmp path (fn_path node)) then change_node index (move_node path parent) else m_ret tt) ;>
  change_node parent (push_child (name, index)).

Fixpoint flatten_links (paths : list (list bytes * result nat (list bytes))) (links : list (nat * bytes * list bytes))
    : M (list (FlatNode S)) unit :=
  match links with
  | [] => m_ret tt
  | (parent, name, path) :: rest => flatten_link paths parent name path ;> flatten_links paths rest
  end.

Definition sort_children (n : FlatNode S) : FlatNode S :=
  mkFlat (fn_node n) (fn_path n) (fn_parent n) (sort_by (fun a b => bytes_cmp a.1 b.1) (fn_children n)) (fn_links n).

(** [indices\[old\] = new] for the nodes in their new order. *)
Fixpoint place_all (new : nat) (ordered : list (nat * FlatNode S)) (indices : list nat) : outcome (list nat) :=
  match ordered with
  | [] => Done indices
  | (old, _) :: rest =>
      if old <? length indices then place_all (1 + new) rest (<[old := new]> indices) else Panic
  end.

Fixpoint renumber_children (indices : list nat) (children : list (bytes * nat)) : outcome (list (bytes * nat)) :=
  match children with
  | [] => Done []
  | (name, child) :: rest =>
      let* child' := unwrap (indices !! child) in
      let* rest' := renumber_children indices rest in
      Done ((name, child') :: rest')
  end.

Fixpoint renumber_all (indices : list nat) (ordered : list (nat * FlatNode S)) : outcome (list (FlatNode S)) :=
  match ordered with
  | [] => Done []
  | (_, n) :: rest =>
      let* parent := unwrap (indices !! fn_parent n) in
      let* children := renumber_children indices (fn_children n) in
      let* rest' := renumber_all indices rest in
      Done (mkFlat (fn_node n) (fn_path n) parent children (fn_links n) :: rest')
  end.

(** The nodes in the order of their paths. *)
Definition order_nodes (nodes : list (FlatNode S)) : outcome (list (FlatNode S)) :=
  let ordered := sort_by (fun a b => path_cmp (fn_path a.2) (fn_path b.2)) (imap pair nodes) in
  let* indices := place_all 0 ordered (replicate (length ordered) 0) in
  renumber_all indices ordered.

Definition flatten_start (root : Node S) : Flattening :=
  mkFlattening [mkFlat root [] 0 [] 1] (BTreeMap_insert path_cmp [] (Ok 0) []) [] [0].

Definition on_nodes {A} (m : M (list (FlatNode S)) A) : M Flattening A := fun st =>
  let '(nodes, r) := m (f_nodes st) in (mkFlattening nodes (f_paths st) (f_links st) (f_stack st), r).

Definition get_flattening : M Flattening Flattening := fun st => (st, Ready st).

Definition flatten_all (root : Node S) : M Flattening (list (FlatNode S)) :=
  flatten_loop (1 + directories_in root) ;>
  (if bad_mode root then fail $"invalid SquashFS root mode" else m_ret tt) ;>
  let> st := get_flattening in
  let> _ := lift_io (try_into u32 (length (f_nodes st) + 1) $"too many SquashFS inodes") in
  on_nodes (flatten_links (f_paths st) (f_links st)) ;>
  let> st' := get_flattening in
  lift_outcome (order_nodes (map sort_children (f_nodes st'))).

Definition flatten (root : Node S) : res (list (FlatNode S)) := (flatten_all root (flatten_start root)).2.
End Flatten.
Arguments Flattening S : clear implicits.
