(* ===== verification/SquashWalk.v ===== *)
(** * The walk of [flatten]

    The theorems on SquashFlatten.v, first part: an invariant of the walk over a tree, of the loop over
    its hardlinks and of the final ordering. *)
From stdpp Require Import sorting relations.
From S2P Require Import Prelude RustStr BTree SquashFormat SquashBlocks SquashTree SquashData SquashFiles SquashIo SquashImage SquashInode SquashFlatten.

Local Open Scope rust_scope.
Local Open Scope poll_scope.

#[export] Instance path_cmp_ord : OrdCmp path_cmp.
Proof. exact (list_cmp_ord bytes_cmp). Qed.

Lemma paths_cmp_eq p q : path_cmp p q = Eq <-> p = q.
Proof. apply (list_cmp_eq bytes_cmp), bytes_cmp_eq. Qed.

Lemma path_cmp_prefix p x r : path_cmp p (p ++ x :: r) = Lt.
Proof.
  induction p as [|y p IH]; simpl; [done|]. unfold path_cmp in *. cbn [list_cmp]. by rewrite (proj2 (bytes_cmp_eq y y) eq_refl).
Qed.

(** ** Entries of a tree by path *)

Section tree.
Context {S : Type}.
Implicit Types (n root : Node S) (e : Entry S) (d : DirectoryContents S).

Definition entries_of (n : Node S) : list (bytes * Entry S) :=
  match contents n with NDirectory d => entries d | _ => [] end.

(** The entry at a path; the root is the node at the empty one. *)
Definition at_path (root : Node S) (p : list bytes) : option (Entry S) :=
  match p with
  | [] => Some (ENode root)
  | _ => d ← as_directory (contents root); get_components p d
  end.

Definition node_wf (n : Node S) : Prop := forall d, as_directory (contents n) = Some d -> dir_wf d.

Lemma get_elem_iff d name e : dir_wf d -> DirectoryContents_get name d = Some e <-> (name, e) ∈ entries d.
Proof.
  intros Hwf. split; [apply get_elem|]. destruct Hwf as [es Hs _ _]. simpl. unfold DirectoryContents_get. simpl.
  unfold BTreeMap_wf in Hs. induction es as [|[x w] es IH]; [by intros []%elem_of_nil|]. simpl in *. inversion Hs as [|? ? Hs' HF]; subst.
  intros [[= -> ->]|Hin]%elem_of_cons; [by rewrite (is_eq_refl bytes_cmp bytes_cmp_eq)|].
  rewrite Forall_forall in HF. assert (keys_lt bytes_cmp x name) as Hlt by (apply HF, list_elem_of_fmap; by exists (name, e)).
  destruct (is_eq (bytes_cmp name x)) eqn:E; [|by apply IH]. apply (is_eq_true bytes_cmp bytes_cmp_eq) in E as ->.
  unfold keys_lt in Hlt. by rewrite (proj2 (bytes_cmp_eq x x) eq_refl) in Hlt.
Qed.

Lemma get_components_snoc p name d : p ≠ [] ->
  get_components (p ++ [name]) d = (e ← get_components p d; d' ← entry_directory e; DirectoryContents_get name d').
Proof.
  revert d. induction p as [|x p IH]; intros d Hp; [done|]. destruct p as [|y p].
  - simpl. done.
  - cbn [app]. rewrite get_components_cons by done. rewrite (get_components_cons x (y :: p)) by done.
    change (y :: p ++ [name]) with ((y :: p) ++ [name]).
    destruct (DirectoryContents_get x d) as [e|]; cbn [mbind option_bind]; [|done]. destruct (entry_directory e) as [d'|]; cbn [mbind option_bind]; [|done].
    by apply IH.
Qed.

Lemma at_path_snoc root p name :
  at_path root (p ++ [name]) = (e ← at_path root p; d ← entry_directory e; DirectoryContents_get name d).
Proof.
  destruct p as [|x p]; simpl.
  - unfold entry_directory. simpl. by destruct (as_directory (contents root)).
  - destruct (as_directory (contents root)) as [d|]; cbn [mbind option_bind]; [|done]. by apply (get_components_snoc (x :: p)).
Qed.

Lemma at_path_wf root p n : node_wf root -> at_path root p = Some (ENode n) -> node_wf n.
Proof.
  intros Hr. revert n. induction p as [|name p IH] using rev_ind; intros n; [by intros [= <-]|]. rewrite at_path_snoc.
  destruct (at_path root p) as [[m|t]|]; simpl; [|done..]. unfold entry_directory. cbn [as_node mbind option_bind].
  destruct (as_directory (contents m)) as [d|] eqn:Ed; simpl; [|done]. intros Hg d' Hd'.
  apply (dir_wf_get d name (ENode n)); [by apply (IH m eq_refl)|done|]. unfold entry_directory. simpl. done.
Qed.

Lemma entries_of_directory n : node_wf n -> entries_of n = match as_directory (contents n) with Some d => entries d | None => [] end.
Proof. intros _. unfold entries_of. by destruct (contents n). Qed.

(** The entries below a directory. *)
Lemma at_path_below root p n name e : node_wf root -> at_path root p = Some (ENode n) ->
  at_path root (p ++ [name]) = Some e <-> (name, e) ∈ entries_of n.
Proof.
  intros Hr Hp. rewrite at_path_snoc, Hp. cbn [mbind option_bind]. unfold entry_directory. cbn [as_node mbind option_bind].
  pose proof (at_path_wf root p n Hr Hp) as Hn. rewrite entries_of_directory by done.
  destruct (as_directory (contents n)) as [d|] eqn:Ed; simpl.
  - apply get_elem_iff. by apply Hn.
  - split; [done|by intros []%elem_of_nil].
Qed.

Lemma at_path_above root p name e : at_path root (p ++ [name]) = Some e ->
  exists n, at_path root p = Some (ENode n).
Proof. rewrite at_path_snoc. destruct (at_path root p) as [[n|t]|]; [|done..]. by exists n. Qed.

Lemma entries_NoDup n : node_wf n -> NoDup (map fst (entries_of n)).
Proof.
  intros Hn. rewrite entries_of_directory by done. destruct (as_directory (contents n)) as [d|] eqn:Ed; [|constructor].
  destruct (Hn d Ed) as [es Hs _ _]. by apply (sorted_NoDup bytes_cmp).
Qed.

Lemma entries_sub_wf n name m : node_wf n -> (name, ENode m) ∈ entries_of n -> node_wf m.
Proof.
  intros Hn Hin d Hd. rewrite entries_of_directory in Hin by done. destruct (as_directory (contents n)) as [d'|] eqn:Ed; [|by apply elem_of_nil in Hin].
  destruct (Hn d' Ed) as [es _ _ H]. eapply (H name (ENode m)); [done|]. unfold entry_directory. simpl. done.
Qed.
End tree.

(** ** Where paths lead, and what makes a tree unfit *)

Section paths.
Context {S : Type} (root : Node S).

Definition tree_link (p q : list bytes) : Prop :=
  exists t, at_path root p = Some (EHardlink t) /\ normalize_path t = Ok q.

(** Following hardlinks from [p] ends at the node [n], whose place in the tree is [q]. *)
Definition leads (p q : list bytes) (n : Node S) : Prop := rtc tree_link p q /\ at_path root q = Some (ENode n).

Inductive defect : Prop :=
| bad_node_mode p n : at_path root p = Some (ENode n) -> bad_mode n = true -> defect
| bad_target p t : at_path root p = Some (EHardlink t) -> (forall q, normalize_path t ≠ Ok q) -> defect
| bad_hardlink p t : at_path root p = Some (EHardlink t) -> (forall q n, leads p q n -> is_dir n = true) -> defect
| too_many_nodes ps : NoDup ps -> (forall p, p ∈ ps -> exists n, at_path root p = Some (ENode n)) ->
    (2 ^ 32 <= Z.of_nat (length ps) + 1)%Z -> defect
| too_many_links q ps : NoDup ps -> (forall p, p ∈ ps -> exists n, leads p q n) ->
    (2 ^ 32 <= Z.of_nat (length ps))%Z -> defect.
End paths.

(** One more of the visited items of [parent]. *)
Definition see {A} (seen : nat -> list A) (parent : nat) (x : A) : nat -> list A :=
  fun k => if k =? parent then seen k ++ [x] else seen k.

Lemma see_other {A} (seen : nat -> list A) parent x k : k ≠ parent -> see seen parent x k = seen k.
Proof. unfold see. by destruct (Nat.eqb_spec k parent). Qed.

Lemma see_same {A} (seen : nat -> list A) parent x : see seen parent x parent = seen parent ++ [x].
Proof. unfold see. by rewrite Nat.eqb_refl. Qed.

Lemma elem_of_see {A} (seen : nat -> list A) parent x k y : y ∈ see seen parent x k <-> y ∈ seen k \/ k = parent /\ y = x.
Proof.
  unfold see. destruct (Nat.eqb_spec k parent) as [->|Hne]; [rewrite elem_of_app, list_elem_of_singleton|].
  - split; [intros [?|?]; auto|intros [?|[_ ?]]; auto].
  - split; [auto|intros [?|[? _]]; [done|by destruct Hne]].
Qed.

(** ** The walk *)

Section walk.
Context {S : Type} (root : Node S).
Hypothesis Hroot : node_wf root.
Implicit Types (st : Flattening S) (seen : nat -> list (bytes * Entry S)) (n : Node S).

(** The nodes among some entries. *)
Definition subnodes (es : list (bytes * Entry S)) : list (bytes * Node S) :=
  omap (fun x => match x.2 with ENode n => Some (x.1, n) | EHardlink _ => None end) es.

(** [seen k] are the entries of node [k] that have been visited. *)
Definition known st seen (p : list bytes) (x : result nat (list bytes)) : Prop :=
  (exists k nd, f_nodes st !! k = Some nd /\ fn_path nd = p /\ x = Ok k) \/
  (exists k nd name t q, f_nodes st !! k = Some nd /\ (name, EHardlink t) ∈ seen k /\ p = fn_path nd ++ [name] /\
     normalize_path t = Ok q /\ x = Err q).

Definition child_at (nodes : list (FlatNode S)) (k : nat) (path : list bytes) (x : bytes * Node S) (y : bytes * nat) : Prop :=
  x.1 = y.1 /\ exists c, nodes !! y.2 = Some c /\ fn_node c = x.2 /\ fn_path c = path ++ [x.1] /\ fn_parent c = k.

Record walked st seen : Prop := {
  w_root : exists nd, f_nodes st !! 0 = Some nd /\ fn_node nd = root /\ fn_path nd = [] /\ fn_parent nd = 0;
  w_at : forall k nd, f_nodes st !! k = Some nd -> at_path root (fn_path nd) = Some (ENode (fn_node nd));
  w_node : forall k nd, f_nodes st !! k = Some nd -> fn_links nd = 1%Z /\ seen k `prefix_of` entries_of (fn_node nd) /\
    Forall2 (child_at (f_nodes st) k (fn_path nd)) (subnodes (seen k)) (fn_children nd);
  w_above : forall k nd, f_nodes st !! k = Some nd -> k ≠ 0 -> bad_mode (fn_node nd) = false /\
    exists p name, f_nodes st !! fn_parent nd = Some p /\ (name, k) ∈ fn_children p;
  w_inj : forall j k a b, f_nodes st !! j = Some a -> f_nodes st !! k = Some b -> fn_path a = fn_path b -> j = k;
  w_paths : forall p x, BTreeMap_get path_cmp p (f_paths st) = Some x <-> known st seen p x;
  w_links : forall k name p, (k, name, p) ∈ f_links st <->
    exists nd t, f_nodes st !! k = Some nd /\ (name, EHardlink t) ∈ seen k /\ p = fn_path nd ++ [name];
  w_nodup : NoDup (f_links st);
  w_targets : forall k name t, (name, EHardlink t) ∈ seen k -> exists q, normalize_path t = Ok q;
  w_out : forall k, length (f_nodes st) <= k -> seen k = [];
}.

Lemma elem_of_subnodes name n es : (name, n) ∈ subnodes es <-> (name, ENode n) ∈ es.
Proof.
  unfold subnodes. rewrite list_elem_of_omap. split.
  - intros ([x [m|t]] & Hin & E); [|done]. injection E as -> ->. done.
  - intros Hin. by exists (name, ENode n).
Qed.

(** A child is a visited entry. *)
Lemma walked_child st seen k nd name j : walked st seen -> f_nodes st !! k = Some nd -> (name, j) ∈ fn_children nd ->
  exists c, f_nodes st !! j = Some c /\ fn_path c = fn_path nd ++ [name] /\ fn_parent c = k /\ (name, ENode (fn_node c)) ∈ seen k.
Proof.
  intros Hw Hk Hin. destruct (w_node _ _ Hw k nd Hk) as (_ & _ & HF). apply list_elem_of_lookup_1 in Hin as [i Hi].
  destruct (Forall2_lookup_r _ _ _ _ _ HF Hi) as ([x n] & Hx & E & c & Hc & Hn & Hp & Hpar). simpl in *. subst x.
  exists c. split; [done|]. split; [done|]. split; [done|]. apply elem_of_subnodes. rewrite Hn. by eapply list_elem_of_lookup_2.
Qed.

Lemma walked_wf st seen k nd : walked st seen -> f_nodes st !! k = Some nd -> node_wf (fn_node nd).
Proof. intros Hw Hk. by eapply at_path_wf, (w_at _ _ Hw). Qed.

Lemma snoc_inj {A} (l k : list A) x y : l ++ [x] = k ++ [y] -> l = k /\ x = y.
Proof. apply app_inj_tail. Qed.

(** Paths of entries that have not been visited are not known. *)
Lemma walked_fresh st seen parent nd name e rest x : walked st seen -> f_nodes st !! parent = Some nd ->
  entries_of (fn_node nd) = seen parent ++ (name, e) :: rest -> ~ known st seen (fn_path nd ++ [name]) x.
Proof.
  intros Hw Hp Hes Hk. pose proof (entries_NoDup _ (walked_wf _ _ _ _ Hw Hp)) as Hnd. rewrite Hes, map_app in Hnd. cbn [map fst] in Hnd.
  assert (forall e', ~ (name, e') ∈ seen parent) as Hnew.
  { intros e' Hin. apply NoDup_app in Hnd as (_ & Hd & _). apply (Hd name); [|left]. apply list_elem_of_fmap. by exists (name, e'). }
  destruct Hk as [(k & c & Hc & E & _)|(k & c & name' & t & q & Hc & Hin & E & _)].
  - destruct (decide (k = 0)) as [->|Hk0].
    { destruct (w_root _ _ Hw) as (r & Hr & _ & Hr0 & _). rewrite Hr in Hc. injection Hc as <-. rewrite Hr0 in E. by destruct (fn_path nd). }
    destruct (w_above _ _ Hw k c Hc Hk0) as (_ & p & name' & Hpar & Hin).
    destruct (walked_child _ _ _ _ _ _ Hw Hpar Hin) as (c' & Hc' & Hpath & _ & Hseen).
    rewrite Hc in Hc'. injection Hc' as <-. rewrite Hpath in E. apply snoc_inj in E as [E ->].
    rewrite (w_inj _ _ Hw _ _ _ _ Hpar Hp E) in Hseen. by apply Hnew in Hseen.
  - apply snoc_inj in E as [E ->]. rewrite <- (w_inj _ _ Hw _ _ _ _ Hp Hc E) in Hin. by apply Hnew in Hin.
Qed.

Lemma subnodes_app es x : subnodes (es ++ [x]) = subnodes es ++ subnodes [x].
Proof. unfold subnodes. by rewrite omap_app. Qed.

Lemma seen_prefix st seen parent nd x rest k c : walked st seen -> f_nodes st !! parent = Some nd ->
  entries_of (fn_node nd) = seen parent ++ x :: rest -> f_nodes st !! k = Some c ->
  see seen parent x k `prefix_of` entries_of (fn_node c).
Proof.
  intros Hw Hp Hes Hk. unfold see. destruct (Nat.eqb_spec k parent) as [->|Hne]; [|by apply (w_node _ _ Hw k c)].
  assert (c = nd) as -> by congruence. exists rest. by rewrite Hes, <- app_assoc.
Qed.

Lemma walked_link st seen parent nd name t q rest stack : walked st seen -> f_nodes st !! parent = Some nd ->
  entries_of (fn_node nd) = seen parent ++ (name, EHardlink t) :: rest -> normalize_path t = Ok q ->
  walked (mkFlattening (f_nodes st) (BTreeMap_insert path_cmp (fn_path nd ++ [name]) (Err q) (f_paths st))
            (f_links st ++ [(parent, name, fn_path nd ++ [name])]) stack) (see seen parent (name, EHardlink t)).
Proof.
  intros Hw Hp Hes Hq.
  assert (forall x, ~ known st seen (fn_path nd ++ [name]) x) as Hfresh by (intros; by eapply walked_fresh).
  split; cbn [f_nodes f_paths f_links].
  - apply (w_root _ _ Hw).
  - apply (w_at _ _ Hw).
  - intros k c Hk. destruct (w_node _ _ Hw k c Hk) as (Hl & _ & HF). split; [done|]. split; [by eapply seen_prefix|].
    unfold see. destruct (k =? parent); [|done]. rewrite subnodes_app. cbn [subnodes omap list_omap snd]. by rewrite app_nil_r.
  - apply (w_above _ _ Hw).
  - apply (w_inj _ _ Hw).
  - intros p x. destruct (decide (p = fn_path nd ++ [name])) as [->|Hne].
    + rewrite (map_get_insert path_cmp paths_cmp_eq). split.
      * intros [= <-]. right. exists parent, nd, name, t, q. rewrite see_same. split; [done|]. split; [|done].
        apply elem_of_app. right. by apply list_elem_of_singleton.
      * intros [H|(k & c & name' & t' & q' & Hk & Hin & E & Ht' & ->)]; [by destruct (Hfresh x); left|].
        apply elem_of_see in Hin as [Hin|[-> [= -> ->]]]; [|congruence].
        destruct (Hfresh (Err q')). right. by exists k, c, name', t', q'.
    + rewrite (map_get_insert_ne path_cmp paths_cmp_eq) by done. rewrite (w_paths _ _ Hw). unfold known. cbn [f_nodes].
      split; (intros [H|(k & c & name' & t' & q' & Hk & Hin & E & Ht' & ->)]; [by left|]); right; exists k, c, name', t', q';
        (split; [done|]); (split; [|done]).
      * apply elem_of_see. by left.
      * apply elem_of_see in Hin as [Hin|[-> [= -> ->]]]; [done|]. destruct Hne. congruence.
  - intros k name' p. rewrite elem_of_app, list_elem_of_singleton, (w_links _ _ Hw). split.
    + intros [(c & t' & Hk & Hin & ->)|[= -> -> ->]].
      * exists c, t'. split; [done|]. split; [|done]. apply elem_of_see. by left.
      * exists nd, t. split; [done|]. split; [|done]. apply elem_of_see. by right.
    + intros (c & t' & Hk & Hin & ->). apply elem_of_see in Hin as [Hin|[-> [= -> ->]]].
      * left. by exists c, t'.
      * right. by assert (c = nd) as -> by congruence.
  - apply NoDup_app. split; [apply (w_nodup _ _ Hw)|]. split; [|apply NoDup_singleton].
    intros [[k name'] p] Hin [= -> -> ->]%list_elem_of_singleton. apply (w_links _ _ Hw) in Hin as (c & t' & Hk & Hin & E).
    destruct (w_targets _ _ Hw _ _ _ Hin) as [q' Hq']. destruct (Hfresh (Err q')). right. by exists parent, c, name, t', q'.
  - intros k name' t' [Hin|[-> [= -> ->]]]%elem_of_see; [by eapply (w_targets _ _ Hw)|by exists q].
  - intros k Hk. rewrite see_other; [by apply (w_out _ _ Hw)|]. apply lookup_lt_Some in Hp. lia.
Qed.

(** The nodes after a new one has been added below [parent]. *)
Definition with_child (nodes : list (FlatNode S)) (parent : nat) (name : bytes) (c : FlatNode S) : list (FlatNode S) :=
  alter (push_child (name, length nodes)) parent (nodes ++ [c]).

Lemma with_child_lookup nodes parent name c k nd : parent < length nodes -> with_child nodes parent name c !! k = Some nd ->
  (k = length nodes /\ nd = c) \/
  (exists nd0, nodes !! k = Some nd0 /\ nd = if k =? parent then push_child (name, length nodes) nd0 else nd0).
Proof.
  intros Hlt. unfold with_child. destruct (decide (k = parent)) as [->|Hne].
  - rewrite list_lookup_alter_eq, lookup_app_l by done. destruct (nodes !! parent) as [nd0|] eqn:E; simpl; [|done].
    intros [= <-]. right. exists nd0. by rewrite Nat.eqb_refl.
  - rewrite list_lookup_alter_ne by done. intros [H|[Hge H]]%lookup_app_Some.
    + right. exists nd. split; [done|]. by destruct (Nat.eqb_spec k parent).
    + apply list_lookup_singleton_Some in H as [H ->]. left. split; [lia|done].
Qed.

Lemma with_child_old nodes parent name c k nd : nodes !! k = Some nd ->
  with_child nodes parent name c !! k = Some (if k =? parent then push_child (name, length nodes) nd else nd).
Proof.
  intros Hk. pose proof (lookup_lt_Some _ _ _ Hk). unfold with_child. destruct (Nat.eqb_spec k parent) as [->|Hne].
  - by rewrite list_lookup_alter_eq, lookup_app_l, Hk.
  - by rewrite list_lookup_alter_ne, lookup_app_l, Hk by done.
Qed.

Lemma with_child_new nodes parent name c : parent < length nodes -> with_child nodes parent name c !! length nodes = Some c.
Proof. intros Hlt. unfold with_child. rewrite list_lookup_alter_ne by lia. by rewrite lookup_app_r, Nat.sub_diag. Qed.

Lemma with_child_length nodes parent name c : length (with_child nodes parent name c) = 1 + length nodes.
Proof. unfold with_child. rewrite length_alter, length_app. simpl. lia. Qed.

Definition keeps (a b : FlatNode S) : Prop := fn_node a = fn_node b /\ fn_path a = fn_path b /\ fn_parent a = fn_parent b /\ fn_links a = fn_links b.

Lemma if_push k parent x nd : keeps (if k =? parent then push_child x nd else nd) nd.
Proof. by destruct (k =? parent). Qed.

Lemma child_at_keeps nodes nodes' k path x y :
  (forall j c, nodes !! j = Some c -> exists c', nodes' !! j = Some c' /\ keeps c' c) ->
  child_at nodes k path x y -> child_at nodes' k path x y.
Proof.
  intros Hn (E & c & Hc & E1 & E2 & E3). destruct (Hn _ _ Hc) as (c' & Hc' & K1 & K2 & K3 & _).
  split; [done|]. exists c'. by rewrite K1, K2, K3.
Qed.

(** A new node below [parent], for the next of its entries. *)
Section push.
Variables (st : Flattening S) (seen : nat -> list (bytes * Entry S)) (parent : nat) (nd : FlatNode S) (name : bytes) (n : Node S)
  (rest : list (bytes * Entry S)).
Hypothesis Hw : walked st seen.
Hypothesis Hp : f_nodes st !! parent = Some nd.
Hypothesis Hes : entries_of (fn_node nd) = seen parent ++ (name, ENode n) :: rest.
Let nodes : list (FlatNode S) := f_nodes st.
Let path : list bytes := fn_path nd ++ [name].
Let new : FlatNode S := mkFlat n path parent [] 1.
Let nodes' : list (FlatNode S) := with_child nodes parent name new.
Let seen' : nat -> list (bytes * Entry S) := see seen parent (name, ENode n).

Lemma push_found k c : nodes' !! k = Some c ->
  (k = length nodes /\ c = new) \/ exists c0, nodes !! k = Some c0 /\ keeps c c0 /\ (k ≠ parent -> c = c0).
Proof.
  intros [[-> ->]|(c0 & Hk & ->)]%with_child_lookup; [by left|right|by eapply lookup_lt_Some].
  exists c0. split; [done|]. split; [apply if_push|]. by destruct (Nat.eqb_spec k parent).
Qed.

Lemma push_kept k c : nodes !! k = Some c -> exists c', nodes' !! k = Some c' /\ keeps c' c /\ fn_children c ⊆ fn_children c'.
Proof.
  intros Hk. eexists. split; [by apply with_child_old|]. split; [apply if_push|]. destruct (_ =? _); [|done].
  cbn [push_child fn_children]. intros y Hy. apply elem_of_app. by left.
Qed.

Lemma push_new : nodes' !! length nodes = Some new.
Proof. apply with_child_new. by eapply lookup_lt_Some. Qed.

Lemma push_links k x t : (x, EHardlink t) ∈ seen' k <-> (x, EHardlink t) ∈ seen k.
Proof. unfold seen'. rewrite elem_of_see. split; [intros [?|[_ ?]]; done|by left]. Qed.

Lemma push_unseen : seen (length nodes) = [].
Proof. by apply (w_out _ _ Hw). Qed.

Lemma push_fresh x : ~ known st seen path x.
Proof. by eapply walked_fresh. Qed.

Lemma push_known stack p x : known (mkFlattening nodes' (f_paths st) (f_links st) stack) seen' p x <->
  known st seen p x \/ p = path /\ x = Ok (length nodes).
Proof.
  unfold known. cbn [f_nodes]. split.
  - intros [(k & c & Hk & E & ->)|(k & c & x' & t & q & Hk & Hin & E & Hq & ->)].
    + apply push_found in Hk as [[-> ->]|(c0 & Hk & (_ & Epath & _) & _)]; [by right|left; left].
      exists k, c0. by rewrite <- Epath.
    + apply push_links in Hin. left. right. apply push_found in Hk as [[-> ->]|(c0 & Hk & (_ & Epath & _) & _)].
      * rewrite push_unseen in Hin. by apply elem_of_nil in Hin.
      * exists k, c0, x', t, q. by rewrite <- Epath.
  - intros [[(k & c & Hk & E & ->)|(k & c & x' & t & q & Hk & Hin & E & Hq & ->)]|[-> ->]].
    + left. destruct (push_kept _ _ Hk) as (c' & Hc' & (_ & K2 & _) & _). exists k, c'. by rewrite K2.
    + right. destruct (push_kept _ _ Hk) as (c' & Hc' & (_ & K2 & _) & _). exists k, c', x', t, q. rewrite K2. split; [done|]. by rewrite push_links.
    + left. exists (length nodes), new. split; [apply push_new|done].
Qed.

Lemma push_node k c : nodes' !! k = Some c -> fn_links c = 1%Z /\ seen' k `prefix_of` entries_of (fn_node c) /\
  Forall2 (child_at nodes' k (fn_path c)) (subnodes (seen' k)) (fn_children c).
Proof.
  intros Hc. pose proof (lookup_lt_Some _ _ _ Hp) as Hlt. apply with_child_lookup in Hc as [[-> ->]|(c0 & Hk & ->)]; [| |done].
  - cbn [fn_path fn_node fn_links fn_children new]. unfold seen'. rewrite see_other by (unfold nodes; lia). rewrite push_unseen.
    split; [done|]. split; [apply prefix_nil|constructor].
  - destruct (if_push k parent (name, length nodes) c0) as (-> & -> & _ & ->). destruct (w_node _ _ Hw k c0 Hk) as (Hl & _ & HF).
    split; [done|]. split; [by eapply seen_prefix|].
    assert (Forall2 (child_at nodes' k (fn_path c0)) (subnodes (seen k)) (fn_children c0)) as HF'.
    { eapply Forall2_impl; [exact HF|]. intros x y Hxy. eapply child_at_keeps; [|exact Hxy].
      intros j c Hj. destruct (push_kept j c Hj) as (c' & ? & ? & _). by exists c'. }
    unfold seen', see. destruct (Nat.eqb_spec k parent) as [->|Hne]; [|done]. rewrite subnodes_app. cbn [push_child fn_children].
    apply Forall2_app; [done|]. constructor; [|constructor]. split; [done|]. exists new.
    assert (c0 = nd) as -> by (unfold nodes in Hk; congruence). split; [apply push_new|done].
Qed.

Lemma push_above k c : bad_mode n = false -> nodes' !! k = Some c -> k ≠ 0 -> bad_mode (fn_node c) = false /\
  exists p x, nodes' !! fn_parent c = Some p /\ (x, k) ∈ fn_children p.
Proof.
  intros Hm [[-> ->]|(c0 & Hk & (K1 & _ & K3 & _) & _)]%push_found Hk0.
  - split; [done|]. exists (push_child (name, length nodes) nd), name. cbn [fn_parent new]. split.
    + unfold nodes'. by rewrite (with_child_old _ _ _ _ _ _ Hp), Nat.eqb_refl.
    + cbn [push_child fn_children]. apply elem_of_app. right. by left.
  - rewrite K1, K3. destruct (w_above _ _ Hw k c0 Hk Hk0) as (? & p & x & Hpar & Hin).
    split; [done|]. destruct (push_kept _ _ Hpar) as (p' & Hp' & _ & Hsub). exists p', x. split; [done|by apply Hsub].
Qed.

Lemma push_inj j k a b : nodes' !! j = Some a -> nodes' !! k = Some b -> fn_path a = fn_path b -> j = k.
Proof.
  assert (forall i c, nodes !! i = Some c -> fn_path c ≠ path) as Hdiff.
  { intros i c Hi E. destruct (push_fresh (Ok i)). left. by exists i, c. }
  intros [[-> ->]|(a0 & Hj & (_ & -> & _) & _)]%push_found [[-> ->]|(b0 & Hk & (_ & -> & _) & _)]%push_found E; [done|..].
  - by destruct (Hdiff k b0 Hk).
  - by destruct (Hdiff j a0 Hj).
  - by apply (w_inj _ _ Hw _ _ _ _ Hj Hk).
Qed.

Lemma walked_push stack : bad_mode n = false ->
  walked (mkFlattening nodes' (BTreeMap_insert path_cmp path (Ok (length nodes)) (f_paths st)) (f_links st) stack) seen'.
Proof.
  intros Hm. split; cbn [f_nodes f_paths f_links].
  - destruct (w_root _ _ Hw) as (r & Hr & E1 & E2 & E3). destruct (push_kept _ _ Hr) as (r' & Hr' & (K1 & K2 & K3 & _) & _).
    exists r'. by rewrite K1, K2, K3.
  - intros k c [[-> ->]|(c0 & Hk & (K1 & K2 & _) & _)]%push_found.
    + apply (at_path_below root (fn_path nd) (fn_node nd)); [done|by eapply (w_at _ _ Hw)|].
      rewrite Hes. apply elem_of_app. right. left.
    + rewrite K1, K2. by eapply (w_at _ _ Hw).
  - apply push_node.
  - intros k c. by apply push_above.
  - apply push_inj.
  - intros p x. change (known _ _ _ _) with (known (mkFlattening nodes' (f_paths st) (f_links st) stack) seen' p x).
    rewrite push_known. destruct (decide (p = path)) as [->|Hne].
    + rewrite (map_get_insert path_cmp paths_cmp_eq). split; [intros [= <-]; by right|]. intros [H|[_ ->]]; [by destruct (push_fresh x)|done].
    + rewrite (map_get_insert_ne path_cmp paths_cmp_eq) by done. rewrite (w_paths _ _ Hw). split; [by left|]. by intros [H|[? _]].
  - intros k x p. rewrite (w_links _ _ Hw). split; intros (c & t & Hk & Hin & ->).
    + destruct (push_kept _ _ Hk) as (c' & Hc' & (_ & K2 & _) & _). exists c', t. by rewrite K2, push_links.
    + apply push_links in Hin. apply push_found in Hk as [[-> ->]|(c0 & Hk & (_ & K2 & _) & _)].
      * rewrite push_unseen in Hin. by apply elem_of_nil in Hin.
      * exists c0, t. by rewrite <- K2.
  - apply (w_nodup _ _ Hw).
  - intros k x t Hin. apply push_links in Hin. by eapply (w_targets _ _ Hw).
  - intros k Hk. unfold nodes' in Hk. rewrite with_child_length in Hk. pose proof (lookup_lt_Some _ _ _ Hp). unfold seen', nodes in *.
    rewrite see_other by lia. apply (w_out _ _ Hw). lia.
Qed.
End push.

(** Which nodes have been expanded: all but those on the stack and the one under way. *)
Record settled st seen (cur : option nat) : Prop := {
  s_nodup : NoDup (f_stack st);
  s_stack : forall k, k ∈ f_stack st -> Some k ≠ cur /\ exists nd, f_nodes st !! k = Some nd /\ is_dir (fn_node nd) = true;
  s_seen : forall k nd, f_nodes st !! k = Some nd -> Some k ≠ cur ->
    seen k = if bool_decide (k ∈ f_stack st) then [] else entries_of (fn_node nd);
}.

Definition entry_load (x : bytes * Entry S) : nat := match x.2 with ENode n => directories_in n | EHardlink _ => 0 end.

(** The directories that are still to be popped. *)
Definition load st : nat :=
  list_sum (map (fun k => from_option (fun nd => directories_in (fn_node nd)) 0 (f_nodes st !! k)) (f_stack st)).

Lemma is_dir_entries n : is_dir n = false -> entries_of n = [].
Proof. unfold is_dir, entries_of. by destruct (contents n). Qed.

Lemma directories_in_dir n : directories_in n = if is_dir n then 1 + list_sum (map entry_load (entries_of n)) else 0.
Proof. unfold is_dir, entries_of. by destruct n as [m []] eqn:E; [|destruct directory|..]. Qed.

Lemma entry_settled st seen parent nd name e rest : walked st seen -> settled st seen (Some parent) ->
  f_nodes st !! parent = Some nd -> entries_of (fn_node nd) = seen parent ++ (name, e) :: rest ->
  post (flatten_entry parent name e) st (fun st' r =>
    match r with
    | Ready _ => walked st' (see seen parent (name, e)) /\ settled st' (see seen parent (name, e)) (Some parent) /\
        (exists nd', f_nodes st' !! parent = Some nd' /\ fn_node nd' = fn_node nd) /\ load st' = load st + entry_load (name, e)
    | Fail _ => defect root
    | _ => False
    end).
Proof.
  intros Hw [Hnd Hst Hseen] Hp Hes. pose proof (lookup_lt_Some _ _ _ Hp) as Hlt. unfold flatten_entry, post. rewrite Hp.
  assert (at_path root (fn_path nd ++ [name]) = Some e) as Hat.
  { apply (at_path_below root (fn_path nd) (fn_node nd)); [done|by eapply (w_at _ _ Hw)|]. rewrite Hes. apply elem_of_app. right. left. }
  destruct e as [n|t].
  - destruct (bad_mode n) eqn:Hm; cbn [fst snd fail lift_io]; [by eapply bad_node_mode|].
    split; [by eapply walked_push|].
    pose proof (push_found st parent nd name n Hp) as Hfound. pose proof (push_kept st parent nd name n) as Hkept.
    pose proof (push_new st parent nd name n Hp) as Hnew.
    fold (with_child (f_nodes st) parent name (mkFlat n (fn_path nd ++ [name]) parent [] 1)).
    set (nodes' := with_child _ _ _ _) in *. split; [split|split]; cbn [f_nodes f_stack].
    + destruct (is_dir n); [|done]. constructor; [|done]. intros (_ & c & Hc & _)%Hst. apply lookup_lt_Some in Hc. lia.
    + intros k Hk. assert (k = length (f_nodes st) /\ is_dir n = true \/ k ∈ f_stack st) as [[-> Hd]|Hin].
      { destruct (is_dir n); [|by right]. apply elem_of_cons in Hk as [->|]; [by left|by right]. }
      * split; [intros [= E]; lia|]. by eexists.
      * destruct (Hst k Hin) as (? & c & Hc & Hd). split; [done|]. destruct (Hkept k c Hc) as (c' & Hc' & (K1 & _) & _). exists c'. by rewrite K1.
    + intros k c [[-> ->]|(c0 & Hk & (K1 & _) & _)]%Hfound Hne.
      * rewrite see_other by lia. rewrite (w_out _ _ Hw) by done. destruct (is_dir n) eqn:Hd; [by rewrite bool_decide_true by left|].
        rewrite is_dir_entries by done. by case_bool_decide.
      * rewrite see_other by congruence. rewrite (Hseen k c0 Hk Hne), K1. pose proof (lookup_lt_Some _ _ _ Hk).
        destruct (is_dir n); [|done]. case_bool_decide as Hin; case_bool_decide as Hin'; try done; [by destruct Hin'; right|].
        apply elem_of_cons in Hin' as [->|]; [lia|done].
    + destruct (Hkept parent nd Hp) as (c' & Hc' & (K1 & _) & _). by exists c'.
    + unfold load. cbn [f_nodes f_stack].
      assert (list_sum (map (fun k => from_option (fun nd => directories_in (fn_node nd)) 0 (nodes' !! k)) (f_stack st)) = load st) as E.
      { unfold load. f_equal. apply map_ext_in. intros k Hk%list_elem_of_In. destruct (Hst k Hk) as (_ & c & Hc & _).
        destruct (Hkept k c Hc) as (c' & Hc' & (K1 & _) & _). rewrite Hc, Hc'. simpl. by rewrite K1. }
      destruct (is_dir n) eqn:Hd; cbn [map list_sum foldr]; fold (load st).
      * unfold list_sum in E |- *. cbn [map foldr]. rewrite Hnew. cbn [from_option fn_node]. rewrite E. unfold entry_load. simpl. lia.
      * rewrite E. unfold entry_load. cbn [snd]. rewrite directories_in_dir, Hd. lia.
  - destruct (normalize_path t) as [q|err] eqn:Hq; cbn [fst snd].
    + split; [by eapply walked_link|]. split; [|split; [by exists nd|unfold load, entry_load; simpl; lia]].
      split; cbn [f_nodes f_stack]; [done|done|]. intros k c Hk Hne. rewrite see_other by congruence. by apply Hseen.
    + eapply bad_target; [exact Hat|]. intros q. by rewrite Hq.
Qed.

Lemma flatten_entries_spec es : forall st seen parent nd, walked st seen -> settled st seen (Some parent) ->
  f_nodes st !! parent = Some nd -> entries_of (fn_node nd) = seen parent ++ es ->
  post (flatten_entries parent es) st (fun st' r =>
    match r with
    | Ready _ => exists seen', walked st' seen' /\ settled st' seen' None /\ load st' = load st + list_sum (map entry_load es)
    | Fail _ => defect root
    | _ => False
    end).
Proof.
  induction es as [|[name e] es IH]; intros st seen parent nd Hw Hs Hp Hes; cbn [flatten_entries].
  - apply post_ret. exists seen. split; [done|]. split; [|simpl; lia]. rewrite app_nil_r in Hes. destruct Hs as [Hnd Hst Hseen].
    split; [done|by intros k (_ & ?)%Hst|]. intros k c Hk _. destruct (decide (k = parent)) as [->|Hne].
    + rewrite bool_decide_false; [by assert (c = nd) as -> by congruence|]. by intros [? _]%Hst.
    + apply Hseen; [done|congruence].
  - apply post_bind. eapply post_mono; [by eapply entry_settled|]. intros st' [[]|err| |]; try done.
    intros (Hw' & Hs' & (nd' & Hp' & E) & Hl). eapply post_mono.
    { apply (IH st' _ parent nd' Hw' Hs' Hp'). rewrite see_same, E, Hes. by rewrite <- app_assoc. }
    intros st'' [[]|err| |]; try done. intros (seen' & ? & ? & Hl'). exists seen'. split; [done|]. split; [done|].
    rewrite Hl', Hl. cbn [map]. unfold list_sum. cbn [foldr]. lia.
Qed.

Lemma flatten_loop_spec fuel : forall st seen, walked st seen -> settled st seen None -> load st < fuel ->
  post (flatten_loop fuel) st (fun st' r =>
    match r with
    | Ready _ => exists seen', walked st' seen' /\ forall k nd, f_nodes st' !! k = Some nd -> seen' k = entries_of (fn_node nd)
    | Fail _ => defect root
    | _ => False
    end).
Proof.
  induction fuel as [|fuel IH]; intros st seen Hw Hs Hf; [lia|]. cbn [flatten_loop]. apply post_bind.
  unfold pop_stack, post. destruct (f_stack st) as [|parent stack] eqn:Est; cbn [fst snd and_then].
  - apply post_ret. exists seen. split; [done|]. intros k nd Hk. rewrite (s_seen _ _ _ Hs k nd Hk) by done.
    by rewrite Est.
  - destruct Hs as [Hnd Hst Hseen]. rewrite Est in *. destruct (Hst parent ltac:(left)) as (_ & nd & Hp & Hd).
    apply NoDup_cons in Hnd as [Hnp Hnd].
    set (st1 := mkFlattening (f_nodes st) (f_paths st) (f_links st) stack).
    assert (walked st1 seen) as Hw1 by (destruct Hw; by split).
    assert (exists d, as_directory (contents (fn_node nd)) = Some d /\ entries_of (fn_node nd) = entries d) as (d & Hdir & Hes).
    { unfold is_dir, entries_of in *. destruct (contents (fn_node nd)); try done. by eexists. }
    assert (seen parent = []) as Hempty.
    { rewrite (Hseen parent nd Hp) by done. rewrite bool_decide_true; [done|left]. }
    assert (settled st1 seen (Some parent)) as Hs1.
    { split; cbn [st1 f_nodes f_stack]; [done|..].
      - intros k Hk. split; [congruence|]. apply Hst. by right.
      - intros k c Hk Hne. rewrite (Hseen k c Hk) by done. case_bool_decide as Hin; case_bool_decide as Hin'; try done.
        + apply elem_of_cons in Hin as [->|]; done.
        + destruct Hin. by right. }
    apply post_bind. unfold queued_directory, post. cbn [st1 f_nodes]. rewrite Hp. cbn [mbind option_bind]. rewrite Hdir. cbn [fst snd and_then].
    apply post_bind. eapply post_mono; [apply (flatten_entries_spec (entries d) st1 seen parent nd Hw1 Hs1 Hp)|].
    { by rewrite Hempty, Hes. }
    intros st2 [[]|err| |]; try done. intros (seen' & Hw2 & Hs2 & Hl). apply (IH st2 seen' Hw2 Hs2). rewrite Hl.
    unfold load in Hf. rewrite Est in Hf. unfold list_sum in Hf |- *. cbn [map foldr] in Hf. rewrite Hp in Hf. cbn [from_option] in Hf.
    rewrite directories_in_dir, Hd, Hes in Hf. unfold load, list_sum in *. cbn [st1 f_nodes f_stack]. lia.
Qed.

Lemma flatten_start_walked : is_dir root = true -> walked (flatten_start root) (fun _ => []) /\ settled (flatten_start root) (fun _ => []) None.
Proof.
  intros Hd. assert (forall k nd, f_nodes (flatten_start root) !! k = Some nd -> k = 0 /\ nd = mkFlat root [] 0 [] 1) as Hone.
  { intros k nd [-> ->]%list_lookup_singleton_Some. done. }
  split; split.
  - by exists (mkFlat root [] 0 [] 1).
  - by intros k nd [-> ->]%Hone.
  - intros k nd [-> ->]%Hone. split; [done|]. split; [apply prefix_nil|constructor].
  - by intros k nd [-> ->]%Hone.
  - by intros j k a b [-> ->]%Hone [-> ->]%Hone.
  - intros p x. cbn [flatten_start f_paths BTreeMap_insert BTreeMap_get]. split.
    + destruct (is_eq (path_cmp p [])) eqn:E; [|done]. apply (is_eq_true path_cmp paths_cmp_eq) in E as ->. intros [= <-].
      left. by exists 0, (mkFlat root [] 0 [] 1).
    + intros [(k & nd & [-> ->]%Hone & <- & ->)|(k & nd & name & t & q & _ & Hin & _)]; [done|by apply elem_of_nil in Hin].
  - intros k name p. split; [by intros []%elem_of_nil|]. intros (nd & t & _ & Hin & _). by apply elem_of_nil in Hin.
  - constructor.
  - by intros k name t []%elem_of_nil.
  - done.
  - apply NoDup_singleton.
  - intros k ->%list_elem_of_singleton. split; [done|]. by exists (mkFlat root [] 0 [] 1).
  - intros k nd [-> ->]%Hone _. by rewrite bool_decide_true by left.
Qed.

(** Following hardlinks is a function of the path. *)
Lemma leads_det p q n q' n' : leads root p q n -> leads root p q' n' -> q = q' /\ n = n'.
Proof.
  intros [Hp Hq] [Hp' Hq']. revert Hp'. induction Hp as [p|a b c (t & Ha & Ht) Hbc IH]; intros Hp'.
  - inversion Hp' as [|? b ? (t & Ht & _)]; subst; [|congruence]. split; [done|congruence].
  - inversion Hp' as [|? b' ? (t' & Ha' & Ht') Hb']; subst; [congruence|]. apply IH; [done|]. by assert (b = b') as -> by congruence.
Qed.

Lemma leads_here p n : at_path root p = Some (ENode n) -> leads root p p n.
Proof. by split; [constructor|]. Qed.

(** ** After the walk *)

Section explored.
Variables (st : Flattening S) (seen : nat -> list (bytes * Entry S)).
Hypothesis Hw : walked st seen.
Hypothesis Hdone : forall k nd, f_nodes st !! k = Some nd -> seen k = entries_of (fn_node nd).

Lemma explored_node p n : at_path root p = Some (ENode n) <->
  exists k nd, f_nodes st !! k = Some nd /\ fn_path nd = p /\ fn_node nd = n.
Proof.
  split; [|intros (k & nd & Hk & <- & <-); by eapply (w_at _ _ Hw)].
  revert n. induction p as [|name p IH] using rev_ind; intros n Hn.
  - injection Hn as <-. destruct (w_root _ _ Hw) as (nd & H0 & E & Ep & _). by exists 0, nd.
  - destruct (at_path_above _ _ _ _ Hn) as [m Hm]. destruct (IH m Hm) as (k & nd & Hk & <- & <-).
    apply (at_path_below root _ (fn_node nd)) in Hn; [|done..]. rewrite <- (Hdone k nd Hk) in Hn.
    apply elem_of_subnodes in Hn. apply list_elem_of_lookup_1 in Hn as [i Hi]. destruct (w_node _ _ Hw k nd Hk) as (_ & _ & HF).
    destruct (Forall2_lookup_l _ _ _ _ _ HF Hi) as ([x j] & _ & E & c & Hc & Hcn & Hcp & _). simpl in *. subst x. by exists j, c.
Qed.

Lemma explored_link p t : at_path root p = Some (EHardlink t) <->
  exists k nd name, f_nodes st !! k = Some nd /\ (name, EHardlink t) ∈ entries_of (fn_node nd) /\ p = fn_path nd ++ [name].
Proof.
  split.
  - destruct p as [|name p _] using rev_ind; [done|]. intros Hp. destruct (at_path_above _ _ _ _ Hp) as [m Hm].
    pose proof Hm as (k & nd & Hk & <- & <-)%explored_node. apply (at_path_below root _ (fn_node nd)) in Hp; [|done..]. by exists k, nd, name.
  - intros (k & nd & name & Hk & Hin & ->). apply (at_path_below root _ (fn_node nd)); [done|by eapply (w_at _ _ Hw)|done].
Qed.

Definition lookup_path (p : list bytes) : option (result nat (list bytes)) := BTreeMap_get path_cmp p (f_paths st).

Lemma lookup_path_node p k : lookup_path p = Some (Ok k) <-> exists nd, f_nodes st !! k = Some nd /\ fn_path nd = p.
Proof.
  unfold lookup_path. rewrite (w_paths _ _ Hw). split.
  - intros [(k' & nd & Hk & E & [= ->])|(? & ? & ? & ? & ? & _ & _ & _ & _ & ?)]; [by exists nd|done].
  - intros (nd & Hk & E). left. by exists k, nd.
Qed.

Lemma lookup_path_link p q : link lookup_path p q <-> tree_link root p q.
Proof.
  unfold link, lookup_path. rewrite (w_paths _ _ Hw). split.
  - intros [(? & ? & _ & _ & ?)|(k & nd & name & t & q' & Hk & Hin & -> & Ht & [= ->])]; [done|]. exists t. split; [|done].
    apply explored_link. exists k, nd, name. by rewrite <- (Hdone k nd Hk).
  - intros (t & Hp & Ht). right. apply explored_link in Hp as (k & nd & name & Hk & Hin & ->). exists k, nd, name, t, q.
    by rewrite (Hdone k nd Hk).
Qed.

Lemma rtc_same p q : rtc (link lookup_path) p q <-> rtc (tree_link root) p q.
Proof. split; apply rtc_subrel; intros a b; apply lookup_path_link. Qed.

Lemma known_path p x : lookup_path p = Some x -> p ∈ map fst (f_paths st).
Proof.
  unfold lookup_path. generalize (f_paths st). induction l as [|[y v] l IH]; simpl; [done|]. destruct (is_eq (path_cmp p y)) eqn:E.
  - apply (is_eq_true path_cmp paths_cmp_eq) in E as ->. intros _. left.
  - intros H. right. by apply IH.
Qed.

(** The path leads to the node [k]. *)
Definition points (p : list bytes) (k : nat) : Prop :=
  exists nd, f_nodes st !! k = Some nd /\ leads root p (fn_path nd) (fn_node nd).

Lemma points_det p k k' : points p k -> points p k' -> k = k'.
Proof. intros (a & Ha & La) (b & Hb & Lb). destruct (leads_det _ _ _ _ _ La Lb) as [E _]. by eapply (w_inj _ _ Hw). Qed.

Lemma resolve_path_spec p (nodes : list (FlatNode S)) : post (resolve_path (f_paths st) p) nodes (fun nodes' r => nodes' = nodes /\
  match r with
  | Ready k => points p k
  | Fail _ => forall q n, ~ leads root p q n
  | _ => False
  end).
Proof.
  unfold resolve_path, resolve_hardlink.
  destruct (resolve_loop_spec lookup_path (map fst (f_paths st)) (Datatypes.S (length (f_paths st))) [] p p) as (r & Hr & Hspec).
  - intros a b Hab. by eapply known_path.
  - repeat split; [constructor|by intros ? ?%elem_of_nil|constructor|by right|]. by intros v []%elem_of_nil.
  - rewrite length_map. simpl. lia.
  - unfold lookup_path in Hr. rewrite Hr. unfold post. destruct r as [k|err]; cbn [lift_io fst snd]; (split; [done|]).
    + destruct Hspec as (q & Hpq & (nd & Hk & <-)%lookup_path_node). apply rtc_same in Hpq. exists nd. split; [done|]. split; [done|].
      by eapply (w_at _ _ Hw).
    + intros q n [Hpq Hq]. apply explored_node in Hq as (k & nd & Hk & Hq & _). apply (Hspec q k); [by apply rtc_same|].
      apply lookup_path_node. by exists nd.
Qed.

(** ** Hardlinks *)

(** The node [nd], which was [nd0] after the walk, when the links [done] have been followed; [claims] are the
    paths that lead to it by now. *)
Record linked_node (done : list (nat * bytes * list bytes)) (k : nat) (nd0 nd : FlatNode S) (claims : list (list bytes)) : Prop := {
  ln_node : fn_node nd = fn_node nd0;
  ln_children : forall name j, (name, j) ∈ fn_children nd <->
    (name, j) ∈ fn_children nd0 \/ exists p, (k, name, p) ∈ done /\ points p j;
  ln_names : NoDup (map fst (fn_children nd));
  ln_nodup : NoDup claims;
  ln_claims : forall p, p ∈ claims <-> p = fn_path nd0 \/ exists par name, (par, name, p) ∈ done /\ points p k;
  ln_links : fn_links nd = Z.of_nat (length claims) /\ (fn_links nd < 2 ^ 32)%Z;
  ln_path : fn_path nd ∈ claims /\ forall p, p ∈ claims -> path_cmp p (fn_path nd) ≠ Lt;
  ln_parent : fn_path nd = [] /\ fn_parent nd = 0 \/
    exists par name, f_nodes st !! fn_parent nd = Some par /\ fn_path nd = fn_path par ++ [name];
  ln_dir : is_dir (fn_node nd) = true -> claims = [fn_path nd0];
}.

Definition linked (done : list (nat * bytes * list bytes)) (nodes : list (FlatNode S)) : Prop :=
  length nodes = length (f_nodes st) /\
  (forall par name p, (par, name, p) ∈ done -> exists j nd0, points p j /\ f_nodes st !! j = Some nd0 /\ is_dir (fn_node nd0) = false) /\
  forall k nd0 nd, f_nodes st !! k = Some nd0 -> nodes !! k = Some nd -> exists claims, linked_node done k nd0 nd claims.

(** Before the first link. *)
Lemma linked_nil : linked [] (f_nodes st).
Proof.
  split; [done|]. split; [by intros par name p []%elem_of_nil|]. intros k nd0 nd Hk Hk'. assert (nd = nd0) as -> by congruence. clear Hk'. exists [fn_path nd0].
  destruct (w_node _ _ Hw k nd0 Hk) as (Hl & _ & HF). split.
  - done.
  - intros name j. split; [by left|]. intros [?|(p & Hp & _)]; [done|by apply elem_of_nil in Hp].
  - assert (map fst (fn_children nd0) = map fst (subnodes (seen k))) as ->.
    { clear -HF. induction HF as [|x y ? ? (E & _) _ IH]; simpl; [done|]. by rewrite E, IH. }
    rewrite (Hdone k nd0 Hk). pose proof (entries_NoDup _ (walked_wf _ _ _ _ Hw Hk)) as Hnd. clear -Hnd.
    induction (entries_of (fn_node nd0)) as [|[x e] l IH]; simpl in *; [constructor|]. apply NoDup_cons in Hnd as [Hx Hnd].
    destruct e as [n|t]; simpl; [|by apply IH]. apply NoDup_cons. split; [|by apply IH].
    intros (y & Ey & Hy)%list_elem_of_fmap. destruct y as [y m]. simpl in Ey. subst y. apply elem_of_subnodes in Hy. apply Hx, list_elem_of_fmap. by exists (x, ENode m).
  - apply NoDup_singleton.
  - intros p. rewrite list_elem_of_singleton. split; [by left|]. intros [?|(par & name & Hp & _)]; [done|by apply elem_of_nil in Hp].
  - by rewrite Hl.
  - split; [by left|]. intros p ->%list_elem_of_singleton. by rewrite (proj2 (paths_cmp_eq _ _) eq_refl).
  - destruct (decide (k = 0)) as [->|Hk0].
    + left. destruct (w_root _ _ Hw) as (r & Hr & _ & Ep & Epar). by assert (nd0 = r) as -> by congruence.
    + right. destruct (w_above _ _ Hw k nd0 Hk Hk0) as (_ & par & name & Hpar & Hin). exists par, name. split; [done|].
      destruct (walked_child _ _ _ _ _ _ Hw Hpar Hin) as (c & Hc & Ep & _). by assert (nd0 = c) as -> by congruence.
  - done.
Qed.

(** What the state of a node says when one more link is followed, from [parent] to [index]. *)
Section one_link.
Variables (done rest : list (nat * bytes * list bytes)) (parent : nat) (name : bytes) (path : list bytes) (index : nat).
Hypothesis Hlinks : f_links st = done ++ (parent, name, path) :: rest.
Hypothesis Hpoints : points path index.

Lemma link_new x y : ~ (x, y, path) ∈ done.
Proof.
  intros Hin. pose proof (w_nodup _ _ Hw) as Hnd. rewrite Hlinks in Hnd. apply NoDup_app in Hnd as (_ & Hd & _).
  assert ((x, y, path) ∈ f_links st) as Hin' by (rewrite Hlinks; apply elem_of_app; by left).
  assert ((parent, name, path) ∈ f_links st) as Hme by (rewrite Hlinks; apply elem_of_app; right; left).
  apply (w_links _ _ Hw) in Hin' as (a & t & Ha & _ & E). apply (w_links _ _ Hw) in Hme as (b & t' & Hb & _ & E').
  rewrite E in E'. apply snoc_inj in E' as [Ep ->]. rewrite (w_inj _ _ Hw _ _ _ _ Ha Hb Ep) in Hin. apply (Hd _ Hin). left.
Qed.

(** The link's path is not the path of a node, and its name is not that of a child that is a node. *)
Lemma link_not_node k nd0 : f_nodes st !! k = Some nd0 -> path ≠ fn_path nd0.
Proof.
  intros Hk E. assert ((parent, name, path) ∈ f_links st) as Hme by (rewrite Hlinks; apply elem_of_app; right; left).
  apply (w_links _ _ Hw) in Hme as (b & t & Hb & Hin & E'). pose proof (w_at _ _ Hw _ _ Hk) as Hat. rewrite <- E, E' in Hat.
  apply (at_path_below root _ (fn_node b)) in Hat; [|done|by eapply (w_at _ _ Hw)]. rewrite (Hdone _ _ Hb) in Hin.
  pose proof (entries_NoDup _ (walked_wf _ _ _ _ Hw Hb)) as Hnd.
  apply list_elem_of_lookup_1 in Hat as [i Hi]. apply list_elem_of_lookup_1 in Hin as [j Hj].
  assert (i = j) as ->.
  { apply (NoDup_lookup _ i j name Hnd); rewrite list_lookup_fmap; [by rewrite Hi|by rewrite Hj]. }
  congruence.
Qed.

Lemma link_name_new nd0 j : f_nodes st !! parent = Some nd0 -> ~ (name, j) ∈ fn_children nd0.
Proof.
  intros Hp Hin. assert ((parent, name, path) ∈ f_links st) as Hme by (rewrite Hlinks; apply elem_of_app; right; left).
  apply (w_links _ _ Hw) in Hme as (b & t & Hb & _ & E). assert (b = nd0) as -> by congruence.
  destruct (walked_child _ _ _ _ _ _ Hw Hp Hin) as (c & Hc & Ep & _). by destruct (link_not_node j c Hc); rewrite Ep.
Qed.

Lemma done_name nd0 p : f_nodes st !! parent = Some nd0 -> (parent, name, p) ∈ done -> False.
Proof.
  intros Hp Hin. assert ((parent, name, path) ∈ f_links st) as Hme by (rewrite Hlinks; apply elem_of_app; right; left).
  apply (w_links _ _ Hw) in Hme as (b & t & Hb & _ & E).
  assert ((parent, name, p) ∈ f_links st) as Hin' by (rewrite Hlinks; apply elem_of_app; by left).
  apply (w_links _ _ Hw) in Hin' as (b' & t' & Hb' & _ & E'). assert (b = b') as <- by congruence.
  rewrite E', <- E in Hin. by apply (link_new parent name).
Qed.

Let done' := done ++ [(parent, name, path)].

Lemma done_more x y p : (x, y, p) ∈ done' <-> (x, y, p) ∈ done \/ x = parent /\ y = name /\ p = path.
Proof.
  unfold done'. rewrite elem_of_app, list_elem_of_singleton. split; (intros [?|H]; [by left|right]).
  - by injection H as -> -> ->.
  - by destruct H as (-> & -> & ->).
Qed.

(** The link's target. *)
Lemma link_claims k nd0 nd claims : f_nodes st !! k = Some nd0 -> linked_node done k nd0 nd claims ->
  ~ path ∈ claims /\ (forall p, p ∈ (if k =? index then path :: claims else claims) <->
    p = fn_path nd0 \/ exists par x, (par, x, p) ∈ done' /\ points p k).
Proof.
  intros Hk Hl. assert (path ∉ claims) as Hnew.
  { intros [E|(par & x & Hin & _)]%(ln_claims _ _ _ _ _ Hl); [by apply (link_not_node k nd0)|by apply (link_new par x)]. }
  split; [done|]. intros p. destruct (Nat.eqb_spec k index) as [->|Hne].
  - rewrite elem_of_cons, (ln_claims _ _ _ _ _ Hl). split.
    + intros [->|[->|(par & x & Hin & ?)]]; [|by left|]; right.
      * exists parent, name. by rewrite done_more; auto.
      * exists par, x. rewrite done_more. auto.
    + intros [->|(par & x & [Hin|(-> & -> & ->)]%done_more & ?)]; [by right; left| |by left]. right. right. eauto.
  - rewrite (ln_claims _ _ _ _ _ Hl). split.
    + intros [->|(par & x & Hin & ?)]; [by left|right]. exists par, x. rewrite done_more. auto.
    + intros [->|(par & x & [Hin|(-> & -> & ->)]%done_more & ?)]; [by left|right; eauto|]. by destruct Hne, (points_det path k index).
Qed.

Definition link_target (par : nat) (p : list bytes) (links : Z) (nd : FlatNode S) : FlatNode S :=
  if is_lt (path_cmp p (fn_path nd)) then move_node p par (set_links links nd) else set_links links nd.

(** A node after the link. *)
Definition link_step (links : Z) (k : nat) (nd : FlatNode S) : FlatNode S :=
  let nd1 := if k =? index then link_target parent path links nd else nd in
  if k =? parent then push_child (name, index) nd1 else nd1.

Lemma link_target_same par p links nd : fn_node (link_target par p links nd) = fn_node nd /\
  fn_children (link_target par p links nd) = fn_children nd /\ fn_links (link_target par p links nd) = links.
Proof. unfold link_target. by destruct (is_lt _). Qed.

Lemma link_step_node links k nd : fn_node (link_step links k nd) = fn_node nd.
Proof. unfold link_step. destruct (link_target_same parent path links nd) as (E & _). by destruct (k =? parent), (k =? index). Qed.

Lemma link_step_children links k nd : fn_children (link_step links k nd) = fn_children nd ++ (if k =? parent then [(name, index)] else []).
Proof.
  unfold link_step. destruct (link_target_same parent path links nd) as (_ & E & _).
  destruct (k =? parent), (k =? index); cbn [push_child fn_children]; by rewrite ?E, ?app_nil_r.
Qed.

Lemma link_step_links links k nd : fn_links (link_step links k nd) = if k =? index then links else fn_links nd.
Proof.
  unfold link_step. destruct (link_target_same parent path links nd) as (_ & _ & E).
  destruct (k =? parent), (k =? index); cbn [push_child fn_links]; by rewrite ?E.
Qed.

Lemma link_step_path links k nd : fn_path (link_step links k nd) = (if (k =? index) && is_lt (path_cmp path (fn_path nd)) then path else fn_path nd) /\
  fn_parent (link_step links k nd) = (if (k =? index) && is_lt (path_cmp path (fn_path nd)) then parent else fn_parent nd).
Proof. unfold link_step, link_target. by destruct (k =? parent), (k =? index), (is_lt _). Qed.

Lemma link_origin : exists b t, f_nodes st !! parent = Some b /\ path = fn_path b ++ [name] /\ at_path root path = Some (EHardlink t).
Proof.
  assert ((parent, name, path) ∈ f_links st) as Hme by (rewrite Hlinks; apply elem_of_app; right; left).
  apply (w_links _ _ Hw) in Hme as (b & t & Hb & Hin & E). exists b, t. split; [done|]. split; [done|].
  apply explored_link. exists parent, b, name. by rewrite <- (Hdone _ _ Hb).
Qed.

Lemma link_step_linked k nd0 nd claims : f_nodes st !! k = Some nd0 -> linked_node done k nd0 nd claims ->
  (k = index -> is_dir (fn_node nd0) = false /\ (fn_links nd + 1 < 2 ^ 32)%Z) ->
  linked_node done' k nd0 (link_step (fn_links nd + 1) k nd) (if k =? index then path :: claims else claims).
Proof.
  intros Hk Hl Hidx. destruct (link_claims k nd0 nd claims Hk Hl) as [Hnew Hcl]. destruct link_origin as (b & t & Hb & Epath & _).
  destruct (ln_links _ _ _ _ _ Hl) as [Hn Hn32]. destruct (ln_path _ _ _ _ _ Hl) as [Hin Hmin].
  destruct (link_step_path (fn_links nd + 1) k nd) as [Ep Epar].
  split.
  - by rewrite link_step_node, (ln_node _ _ _ _ _ Hl).
  - intros x j. rewrite link_step_children, elem_of_app, (ln_children _ _ _ _ _ Hl). split.
    + intros [[?|(p & Hp & ?)]|Hx]; [by left|right; exists p; by rewrite done_more; auto|].
      destruct (Nat.eqb_spec k parent) as [->|]; [|by apply elem_of_nil in Hx]. apply list_elem_of_singleton in Hx as [= -> ->].
      right. exists path. by rewrite done_more; auto.
    + intros [?|(p & [Hp|(-> & -> & ->)]%done_more & Hpt)]; [by left; left|left; right; eauto|]. right. rewrite Nat.eqb_refl.
      apply list_elem_of_singleton. by rewrite (points_det path j index).
  - rewrite link_step_children, map_app. destruct (Nat.eqb_spec k parent) as [->|]; cbn [map]; [|rewrite app_nil_r; apply (ln_names _ _ _ _ _ Hl)].
    apply NoDup_app. split; [apply (ln_names _ _ _ _ _ Hl)|]. split; [|apply NoDup_singleton].
    intros x ([x' j] & E & Hx)%list_elem_of_fmap Hx'%list_elem_of_singleton. simpl in *. subst x x'.
    apply (ln_children _ _ _ _ _ Hl) in Hx as [Hx|(p & Hp & _)]; [by apply (link_name_new nd0 j Hk)|by apply (done_name nd0 p Hk)].
  - destruct (k =? index); [|apply (ln_nodup _ _ _ _ _ Hl)]. constructor; [done|apply (ln_nodup _ _ _ _ _ Hl)].
  - exact Hcl.
  - rewrite link_step_links. destruct (Nat.eqb_spec k index) as [->|]; [|done]. destruct (Hidx eq_refl) as [_ ?]. simpl. lia.
  - rewrite Ep. destruct (k =? index); simpl; [|done]. destruct (path_cmp path (fn_path nd)) eqn:Ec; simpl.
    + split; [by right|]. intros p [->|Hp]%elem_of_cons; [congruence|by apply Hmin].
    + split; [by left|]. intros p [->|Hp]%elem_of_cons Hlt; [by rewrite (proj2 (paths_cmp_eq _ _) eq_refl) in Hlt|].
      by apply (Hmin p Hp), (cmp_lt_trans path_cmp p path).
    + split; [by right|]. intros p [->|Hp]%elem_of_cons; [congruence|by apply Hmin].
  - rewrite Ep, Epar. destruct ((k =? index) && _); [right; by exists b, name|apply (ln_parent _ _ _ _ _ Hl)].
  - rewrite link_step_node. intros Hd. destruct (Nat.eqb_spec k index) as [->|]; [|by apply (ln_dir _ _ _ _ _ Hl)].
    destruct (Hidx eq_refl) as [Hnd _]. rewrite (ln_node _ _ _ _ _ Hl) in Hd. congruence.
Qed.
End one_link.

Lemma change_node_spec (nodes : list (FlatNode S)) i f nd Q : nodes !! i = Some nd -> Q (alter f i nodes) (Ready tt) ->
  post (change_node i f) nodes Q.
Proof. intros Hi HQ. unfold change_node, post. by rewrite Hi. Qed.

(** The three changes of a link. *)
Lemma link_changes (nodes : list (FlatNode S)) parent name path index links nd pd : nodes !! index = Some nd -> nodes !! parent = Some pd ->
  post (change_node index (set_links links) ;>
        (if is_lt (path_cmp path (fn_path nd)) then change_node index (move_node path parent) else m_ret tt) ;>
        change_node parent (push_child (name, index)))%poll nodes (fun nodes' r => r = Ready tt /\ length nodes' = length nodes /\
    forall k kd, nodes' !! k = Some kd -> exists kd0, nodes !! k = Some kd0 /\ kd = link_step parent name path index links k kd0).
Proof.
  intros Hi Hpd. apply post_bind. eapply change_node_spec; [done|]. cbn [and_then].
  apply post_bind. eapply (post_mono _ _ (fun ns r => r = Ready tt /\ ns = alter (link_target parent path links) index nodes)).
  { unfold link_target. destruct (is_lt (path_cmp path (fn_path nd))) eqn:Elt.
    - eapply change_node_spec; [by rewrite list_lookup_alter_eq, Hi|]. split; [done|]. rewrite list_alter_alter_eq.
      apply list_alter_ext; [|done]. intros x Hx. assert (x = nd) as -> by congruence. unfold compose. by rewrite Elt.
    - apply post_ret. split; [done|]. apply list_alter_ext; [|done]. intros x Hx. assert (x = nd) as -> by congruence. by rewrite Elt. }
  intros nodes1 r [-> ->]. cbn [and_then].
  assert (is_Some (alter (link_target parent path links) index nodes !! parent)) as [pd1 Hpd1].
  { apply lookup_lt_is_Some. rewrite length_alter. by eapply lookup_lt_Some. }
  eapply change_node_spec; [exact Hpd1|]. split; [done|]. split; [by rewrite !length_alter|].
  intros k kd Hk. unfold link_step. rewrite list_lookup_alter in Hk. destruct (Nat.eqb_spec k parent) as [->|Hne].
  - rewrite decide_True in Hk by done. rewrite list_lookup_alter in Hk. destruct (Nat.eqb_spec parent index) as [->|].
    + rewrite decide_True, Hi in Hk by done. injection Hk as <-. by exists nd.
    + rewrite decide_False, Hpd in Hk by done. injection Hk as <-. by exists pd.
  - rewrite decide_False in Hk by done. rewrite list_lookup_alter in Hk. destruct (Nat.eqb_spec k index) as [->|].
    + rewrite decide_True, Hi in Hk by done. injection Hk as <-. by exists nd.
    + rewrite decide_False in Hk by done. by exists kd.
Qed.

Lemma flatten_link_spec done rest parent name path nodes : f_links st = done ++ (parent, name, path) :: rest -> linked done nodes ->
  post (flatten_link (f_paths st) parent name path) nodes (fun nodes' r =>
    match r with
    | Ready _ => linked (done ++ [(parent, name, path)]) nodes'
    | Fail _ => defect root
    | _ => False
    end).
Proof.
  intros Hlinks (Hlen & Hres & Hln). destruct (link_origin done rest parent name path Hlinks) as (b & t & Hb & Epath & Hat). unfold flatten_link.
  apply post_bind. eapply post_mono; [apply resolve_path_spec|]. intros nodes' [index|err| |] [-> H]; try done.
  2:{ eapply bad_hardlink; [exact Hat|]. intros q n Hq. by destruct (H q n). }
  pose proof H as (nd0 & Hi0 & Hleads). assert (exists nd, nodes !! index = Some nd) as [nd Hi].
  { apply lookup_lt_is_Some. rewrite Hlen. by eapply lookup_lt_Some. }
  destruct (Hln index nd0 nd Hi0 Hi) as [claims Hcl]. simpl.
  apply post_bind. unfold node_at, post. rewrite Hi. cbn [fst snd and_then].
  apply post_bind. destruct (Node_validate_hardlink_target (fn_node nd)) as [[]|err] eqn:Hv; unfold post; cbn [lift_io fst snd and_then].
  2:{ eapply bad_hardlink; [exact Hat|]. intros q n Hq. destruct (leads_det _ _ _ _ _ Hq Hleads) as [_ ->].
      rewrite <- (ln_node _ _ _ _ _ Hcl). unfold Node_validate_hardlink_target, is_dir in *. by destruct (contents (fn_node nd)). }
  assert (is_dir (fn_node nd0) = false) as Hnd.
  { rewrite <- (ln_node _ _ _ _ _ Hcl). unfold Node_validate_hardlink_target, is_dir in *. by destruct (contents (fn_node nd)). }
  destruct (ln_links _ _ _ _ _ Hcl) as [Hl Hl32].
  destruct (link_claims done rest parent name path index Hlinks H index nd0 nd claims Hi0 Hcl) as [Hnew _].
  apply post_bind. unfold checked_add. destruct (in_range u32 (fn_links nd + 1)) eqn:Hr; unfold post; cbn [lift_io fst snd and_then].
  2:{ apply (too_many_links root (fn_path nd0) (path :: claims)).
      - constructor; [done|apply (ln_nodup _ _ _ _ _ Hcl)].
      - intros p [->|[->|(par & x & Hin & nd' & Hi' & Hp)]%(ln_claims _ _ _ _ _ Hcl)]%elem_of_cons; [by eexists|..].
        + eexists. apply leads_here. by eapply (w_at _ _ Hw).
        + assert (nd' = nd0) as -> by congruence. by eexists.
      - unfold in_range in Hr. simpl length. lia. }
  assert (exists pd, nodes !! parent = Some pd) as [pd Hpd].
  { apply lookup_lt_is_Some. rewrite Hlen. by eapply lookup_lt_Some. }
  set (links := (fn_links nd + 1)%Z) in *. eapply post_mono; [by eapply link_changes|]. intros nodes' r (-> & Hlen' & Hstep).
  split; [by rewrite Hlen'|]. split.
  { intros par x p [Hin|E]%elem_of_app; [by apply (Hres par x)|]. apply list_elem_of_singleton in E as [= -> -> ->]. by exists index, nd0. }
  intros k k0 kd Hk0 Hk. destruct (Hstep k kd Hk) as (kd0 & Hkd0 & ->).
  destruct (Hln k k0 kd0 Hk0 Hkd0) as [cl Hcl']. exists (if k =? index then path :: cl else cl).
  destruct (decide (k = index)) as [->|Hne].
  - assert (kd0 = nd) as -> by congruence. apply (link_step_linked done rest parent name path index Hlinks H index k0 nd cl Hk0 Hcl').
    intros _. split; [by assert (k0 = nd0) as -> by congruence|]. unfold in_range in Hr. lia.
  - replace (link_step parent name path index links k kd0) with (link_step parent name path index (fn_links kd0 + 1) k kd0)
      by (unfold link_step; by destruct (Nat.eqb_spec k index)).
    apply (link_step_linked done rest parent name path index Hlinks H k k0 kd0 cl Hk0 Hcl'). done.
Qed.

Lemma flatten_links_spec rest : forall done nodes, f_links st = done ++ rest -> linked done nodes ->
  post (flatten_links (f_paths st) rest) nodes (fun nodes' r =>
    match r with Ready _ => linked (f_links st) nodes' | Fail _ => defect root | _ => False end).
Proof.
  induction rest as [|[[parent name] path] rest IH]; intros done nodes Hlinks Hl; cbn [flatten_links].
  - apply post_ret. by rewrite Hlinks, app_nil_r.
  - apply post_bind. eapply post_mono; [by eapply flatten_link_spec|]. intros nodes' [[]|err| |]; try done. simpl. intros Hl'.
    apply (IH (done ++ [(parent, name, path)]) nodes'); [|done]. by rewrite <- app_assoc.
Qed.

(** ** After all links *)

Section resolved.
Variable nodes : list (FlatNode S).
Hypothesis Hlinked : linked (f_links st) nodes.

Lemma resolved_claims k nd0 nd claims : f_nodes st !! k = Some nd0 -> linked_node (f_links st) k nd0 nd claims ->
  forall p, p ∈ claims <-> points p k.
Proof.
  intros Hk Hl p. rewrite (ln_claims _ _ _ _ _ Hl). split.
  - intros [->|(? & ? & _ & ?)]; [|done]. exists nd0. split; [done|]. apply leads_here. by eapply (w_at _ _ Hw).
  - intros Hp. pose proof Hp as (nd' & Hk' & Hr & Hat). assert (nd' = nd0) as -> by congruence.
    inversion Hr as [|? q ? (t & Ht & Hq)]; subst; [by left|right]. apply explored_link in Ht as (j & c & name & Hj & Hin & ->).
    exists j, name. split; [|done]. apply (w_links _ _ Hw). exists c, t. by rewrite (Hdone j c Hj).
Qed.

Lemma resolved_children k nd0 nd claims name j : f_nodes st !! k = Some nd0 -> linked_node (f_links st) k nd0 nd claims ->
  (name, j) ∈ fn_children nd <-> points (fn_path nd0 ++ [name]) j.
Proof.
  intros Hk Hl. rewrite (ln_children _ _ _ _ _ Hl). split.
  - intros [Hin|(p & Hin & Hp)].
    + destruct (walked_child _ _ _ _ _ _ Hw Hk Hin) as (c & Hc & <- & _). exists c. split; [done|]. apply leads_here. by eapply (w_at _ _ Hw).
    + apply (w_links _ _ Hw) in Hin as (c & t & Hc & _ & ->). by assert (c = nd0) as -> by congruence.
  - intros Hp. pose proof Hp as (c & Hj & Hr & Hat). inversion Hr as [? Ea Eb|? q ? (t & Ht & Hq) _ Ea Eb]; [left|right].
    + rewrite <- Eb in Hat. apply (at_path_below root _ (fn_node nd0)) in Hat; [|done|by eapply (w_at _ _ Hw)]. rewrite <- (Hdone k nd0 Hk) in Hat.
      apply elem_of_subnodes in Hat. apply list_elem_of_lookup_1 in Hat as [i Hi]. destruct (w_node _ _ Hw k nd0 Hk) as (_ & _ & HF).
      destruct (Forall2_lookup_l _ _ _ _ _ HF Hi) as ([z j'] & Hj' & E' & c' & Hc' & _ & Ep & _). simpl in *. subst z.
      assert (j' = j) as -> by (eapply (w_inj _ _ Hw); [done..|]; congruence). by eapply list_elem_of_lookup_2.
    + apply (at_path_below root _ (fn_node nd0)) in Ht; [|done|by eapply (w_at _ _ Hw)]. exists (fn_path nd0 ++ [name]). split; [|done].
      apply (w_links _ _ Hw). exists nd0, t. by rewrite (Hdone k nd0 Hk).
Qed.

Lemma resolved_origin k nd : nodes !! k = Some nd -> exists nd0 claims, f_nodes st !! k = Some nd0 /\ linked_node (f_links st) k nd0 nd claims.
Proof.
  intros Hk. destruct Hlinked as (Hlen & _ & Hl). assert (exists nd0, f_nodes st !! k = Some nd0) as [nd0 Hk0].
  { apply lookup_lt_is_Some. rewrite <- Hlen. by eapply lookup_lt_Some. }
  destruct (Hl k nd0 nd Hk0 Hk) as [claims H]. by exists nd0, claims.
Qed.

Lemma resolved_inj j k a b : nodes !! j = Some a -> nodes !! k = Some b -> fn_path a = fn_path b -> j = k.
Proof.
  intros Hj Hk E. destruct (resolved_origin j a Hj) as (a0 & ca & Hj0 & Ha). destruct (resolved_origin k b Hk) as (b0 & cb & Hk0 & Hb).
  destruct (ln_path _ _ _ _ _ Ha) as [Hina _]. destruct (ln_path _ _ _ _ _ Hb) as [Hinb _].
  apply (resolved_claims j a0 a ca Hj0 Ha) in Hina. apply (resolved_claims k b0 b cb Hk0 Hb) in Hinb.
  rewrite E in Hina. by eapply points_det.
Qed.
End resolved.
End explored.
End walk.

(** ** The nodes in order *)

Section order.
Context {S : Type}.
Implicit Types (ordered : list (nat * FlatNode S)) (indices : list nat).

Lemma place_all_spec ordered : forall new indices, NoDup (map fst ordered) -> Forall (fun x => x.1 < length indices) ordered ->
  exists indices', place_all new ordered indices = Done indices' /\ length indices' = length indices /\
    (forall i x, ordered !! i = Some x -> indices' !! x.1 = Some (new + i)) /\
    (forall k, ~ k ∈ map fst ordered -> indices' !! k = indices !! k).
Proof.
  induction ordered as [|[old nd] ordered IH]; intros new indices Hnd HF; cbn [place_all].
  { exists indices. split; [done|]. split; [done|]. split; [done|done]. }
  apply NoDup_cons in Hnd as [Hn Hnd]. inversion HF as [|? ? Hlt HF']; subst. simpl in Hlt, Hn. rewrite (proj2 (Nat.ltb_lt _ _) Hlt).
  destruct (IH (1 + new) (<[old := new]> indices) Hnd) as (indices' & E & Hl & Hin & Hout).
  { eapply Forall_impl; [exact HF'|]. intros x Hx. by rewrite length_insert. }
  exists indices'. split; [done|]. rewrite length_insert in Hl. split; [done|]. split.
  - intros [|i] x; simpl; [intros [= <-]|].
    + cbn [fst]. rewrite Hout by done. rewrite list_lookup_insert_eq by done. f_equal. lia.
    + intros Hi. rewrite (Hin i x Hi). f_equal. lia.
  - intros k Hk. simpl in Hk. apply not_elem_of_cons in Hk as [Hne Hk]. rewrite Hout by done. by rewrite list_lookup_insert_ne.
Qed.

Definition renumbered indices (n n' : FlatNode S) : Prop :=
  fn_node n' = fn_node n /\ fn_path n' = fn_path n /\ fn_links n' = fn_links n /\ indices !! fn_parent n = Some (fn_parent n') /\
  Forall2 (fun x y => x.1 = y.1 /\ indices !! x.2 = Some y.2) (fn_children n) (fn_children n').

Lemma renumber_children_spec indices children : Forall (fun x => x.2 < length indices) children ->
  exists children', renumber_children indices children = Done children' /\
    Forall2 (fun x y => x.1 = y.1 /\ indices !! x.2 = Some y.2) children children'.
Proof.
  induction 1 as [|[name j] l Hj _ (l' & IH & HF)]; cbn [renumber_children]; [by exists []|]. apply lookup_lt_is_Some in Hj as [j' Hj].
  simpl in Hj. rewrite Hj. cbn [unwrap outcome_bind]. rewrite IH. cbn [outcome_bind]. eexists. split; [done|]. by constructor.
Qed.

Lemma renumber_all_spec indices ordered :
  Forall (fun x => fn_parent x.2 < length indices /\ Forall (fun c => c.2 < length indices) (fn_children x.2)) ordered ->
  exists nodes, renumber_all indices ordered = Done nodes /\ Forall2 (fun x n => renumbered indices x.2 n) ordered nodes.
Proof.
  induction 1 as [|[old n] l [Hp Hc] _ (nodes & IH & HF)]; cbn [renumber_all]; [by exists []|]. simpl in Hp, Hc.
  apply lookup_lt_is_Some in Hp as [p Hp]. rewrite Hp. cbn [unwrap outcome_bind].
  destruct (renumber_children_spec indices (fn_children n) Hc) as (children & -> & HFc). cbn [outcome_bind]. rewrite IH. cbn [outcome_bind].
  eexists. split; [done|]. constructor; [|done]. by repeat split.
Qed.

(** [to] tells where a node has gone. *)
Lemma order_nodes_spec (nodes : list (FlatNode S)) : NoDup (map fn_path nodes) ->
  Forall (fun n => fn_parent n < length nodes /\ Forall (fun c => c.2 < length nodes) (fn_children n)) nodes ->
  exists nodes' indices, order_nodes nodes = Done nodes' /\ length nodes' = length nodes /\ length indices = length nodes /\
    StronglySorted (keys_lt path_cmp) (map fn_path nodes') /\
    (forall k n, nodes !! k = Some n -> exists i n', indices !! k = Some i /\ nodes' !! i = Some n' /\ renumbered indices n n') /\
    (forall i n', nodes' !! i = Some n' -> exists k n, indices !! k = Some i /\ nodes !! k = Some n /\ renumbered indices n n') /\
    (forall j k i, indices !! j = Some i -> indices !! k = Some i -> j = k).
Proof.
  intros Hnd HF. unfold order_nodes. set (l := imap pair nodes).
  assert (forall k x, l !! k = Some x <-> x.1 = k /\ nodes !! k = Some x.2) as Hl.
  { intros k [j n]. unfold l. rewrite list_lookup_imap. simpl. destruct (nodes !! k) as [n'|]; simpl.
    - split; [by intros [= -> ->]|by intros [-> [= ->]]].
    - split; [done|by intros [_ ?]]. }
  assert (map (fun x => fn_path x.2) l = map fn_path nodes) as Epaths.
  { apply list_eq. intros k. rewrite !list_lookup_fmap. unfold l. rewrite list_lookup_imap. by destruct (nodes !! k). }
  assert (map fst l = seq 0 (length nodes)) as Efst.
  { apply list_eq. intros k. rewrite list_lookup_fmap. unfold l. rewrite list_lookup_imap. destruct (nodes !! k) as [n|] eqn:E; simpl.
    - apply lookup_lt_Some in E. symmetry. by apply lookup_seq.
    - apply lookup_ge_None in E. symmetry. by apply lookup_seq_ge. }
  set (ordered := sort_by _ l).
  assert (ordered ≡ₚ l) as Hperm by apply sort_by_perm.
  assert (NoDup (map fst ordered)) as Hndo by (rewrite Hperm, Efst; apply NoDup_seq).
  assert (length ordered = length nodes) as Hlo by (rewrite (Permutation_length Hperm); unfold l; by rewrite length_imap).
  assert (forall x, x ∈ ordered <-> nodes !! x.1 = Some x.2) as Hin.
  { intros x. rewrite Hperm. rewrite list_elem_of_lookup. setoid_rewrite Hl. split; [by intros (k & <- & ?)|]. intros ?. by exists x.1. }
  destruct (place_all_spec ordered 0 (replicate (length ordered) 0) Hndo) as (indices & -> & Hli & Hplace & _).
  { apply Forall_forall. intros x Hx%Hin. rewrite length_replicate, Hlo. by eapply lookup_lt_Some. }
  rewrite length_replicate, Hlo in Hli. cbn [outcome_bind].
  destruct (renumber_all_spec indices ordered) as (nodes' & -> & HF2).
  { apply Forall_forall. intros x Hx%Hin. rewrite Hli. rewrite Forall_forall in HF. apply HF. by eapply list_elem_of_lookup_2. }
  exists nodes', indices. split; [done|]. split; [by rewrite <- (Forall2_length _ _ _ HF2)|]. split; [done|]. split; [|split; [|split]].
  - assert (map fn_path nodes' = map (fun x => fn_path x.2) ordered) as ->.
    { clear -HF2. induction HF2 as [|x n ? ? (_ & E & _) _ IH]; simpl; [done|]. by rewrite E, IH. }
    apply (sort_by_sorted path_cmp (fun x => fn_path x.2) paths_cmp_eq). by rewrite Epaths.
  - intros k n Hk. assert ((k, n) ∈ ordered) as Hx by by apply Hin. apply list_elem_of_lookup_1 in Hx as [i Hi].
    destruct (Forall2_lookup_l _ _ _ _ _ HF2 Hi) as (n' & Hn' & Hr). exists i, n'. split; [exact (Hplace i _ Hi)|done].
  - intros i n' Hi. destruct (Forall2_lookup_r _ _ _ _ _ HF2 Hi) as ([k n] & Hx & Hr). exists k, n.
    split; [apply (Hplace i _ Hx)|]. split; [|done]. apply (Hin (k, n)). by eapply list_elem_of_lookup_2.
  - assert (forall k i, indices !! k = Some i -> exists n, ordered !! i = Some (k, n)) as Hback.
    { intros k i Hk. assert (exists n, nodes !! k = Some n) as [n Hn] by (apply lookup_lt_is_Some; rewrite <- Hli; by eapply lookup_lt_Some).
      assert ((k, n) ∈ ordered) as Hx by by apply Hin. apply list_elem_of_lookup_1 in Hx as [i' Hi].
      pose proof (Hplace i' _ Hi) as E. simpl in E. assert (i' = i) as -> by congruence. by exists n. }
    intros j k i (n & Hj)%Hback (n' & Hk)%Hback. congruence.
Qed.
End order.
