(* ===== verification/SquashFlat.v ===== *)
(** * What [flatten] gives

    The theorems on SquashFlatten.v: the nodes that [flatten] lists are those of the tree, with the paths that
    lead to them as children, links, parents and order. *)
From stdpp Require Import sorting relations.
From S2P Require Import Prelude RustStr BTree SquashFormat SquashBlocks SquashTree SquashData SquashFiles SquashIo SquashImage SquashInode SquashFlatten SquashWalk.

Local Open Scope rust_scope.
Local Open Scope poll_scope.

(** ** What flattening gives *)

(** The nodes of a tree as [flatten] lists them; [home i] is the place in the tree of the [i]th node. *)
Record flattened {S} (root : Node S) (nodes : list (FlatNode S)) (home : nat -> list bytes) : Prop := {
  fl_count : (Z.of_nat (length nodes) + 1 < 2 ^ 32)%Z;
  fl_home : forall i nd, nodes !! i = Some nd -> at_path root (home i) = Some (ENode (fn_node nd)) /\ bad_mode (fn_node nd) = false;
  fl_onto : forall p n, at_path root p = Some (ENode n) -> exists i nd, nodes !! i = Some nd /\ home i = p;
  fl_inj : forall i j, i < length nodes -> j < length nodes -> home i = home j -> i = j;
  fl_sorted : StronglySorted (keys_lt path_cmp) (map fn_path nodes);
  fl_names : forall i nd, nodes !! i = Some nd -> StronglySorted (keys_lt bytes_cmp) (map fst (fn_children nd));
  fl_children : forall i nd name j, nodes !! i = Some nd -> (name, j) ∈ fn_children nd <->
    j < length nodes /\ rtc (tree_link root) (home i ++ [name]) (home j);
  fl_paths : forall i nd, nodes !! i = Some nd -> exists ps, NoDup ps /\ (forall p, p ∈ ps <-> rtc (tree_link root) p (home i)) /\
    fn_links nd = Z.of_nat (length ps) /\ (fn_links nd < 2 ^ 32)%Z /\
    fn_path nd ∈ ps /\ (forall p, p ∈ ps -> path_cmp p (fn_path nd) ≠ Lt) /\ (is_dir (fn_node nd) = true -> ps = [home i]);
  fl_parent : forall i nd, nodes !! i = Some nd -> fn_parent nd < length nodes /\
    (fn_path nd = [] /\ home (fn_parent nd) = [] \/ exists name, fn_path nd = home (fn_parent nd) ++ [name]);
  fl_links : forall p t, at_path root p = Some (EHardlink t) ->
    exists i nd, nodes !! i = Some nd /\ rtc (tree_link root) p (home i) /\ is_dir (fn_node nd) = false;
}.

Section flattened.
Context {S : Type} (root : Node S).
Hypothesis Hroot : node_wf root.

(** From the nodes after all links to the ordered ones. *)
Section ordered.
Variables (st : Flattening S) (seen : nat -> list (bytes * Entry S)) (nodes : list (FlatNode S)).
Hypothesis Hw : walked root st seen.
Hypothesis Hdone : forall k nd, f_nodes st !! k = Some nd -> seen k = entries_of (fn_node nd).
Hypothesis Hlinked : linked root st (f_links st) nodes.
Hypothesis Hmode : bad_mode root = false.
Hypothesis Hcount : (Z.of_nat (length (f_nodes st)) + 1 < 2 ^ 32)%Z.

Lemma walked_mode k nd : f_nodes st !! k = Some nd -> bad_mode (fn_node nd) = false.
Proof.
  intros Hk. destruct (decide (k = 0)) as [->|Hk0]; [|by apply (w_above _ _ _ Hw k nd)].
  destruct (w_root _ _ _ Hw) as (r & Hr & E & _). assert (nd = r) as -> by congruence. by rewrite E.
Qed.

Lemma points_range p k : points root st p k -> k < length (f_nodes st).
Proof. intros (nd & Hk & _). by eapply lookup_lt_Some. Qed.

Lemma sort_children_spec nd : NoDup (map fst (fn_children nd)) ->
  fn_children (@sort_children S nd) ≡ₚ fn_children nd /\ StronglySorted (keys_lt bytes_cmp) (map fst (fn_children (sort_children nd))).
Proof.
  intros Hnd. cbn [sort_children fn_children]. split; [apply sort_by_perm|].
  by apply (sort_by_sorted bytes_cmp fst bytes_cmp_eq).
Qed.

Lemma nodes_orderable : NoDup (map fn_path (map sort_children nodes)) /\
  Forall (fun n => fn_parent n < length (map sort_children nodes) /\
    Forall (fun c => c.2 < length (map sort_children nodes)) (fn_children n)) (map sort_children nodes).
Proof.
  pose proof Hlinked as (Hlen & _ & _). split.
  - rewrite map_map. cbn [sort_children fn_path]. apply NoDup_alt. intros i j p Hi Hj. rewrite list_lookup_fmap in Hi, Hj.
    destruct (nodes !! i) as [a|] eqn:Ha; [|done]. destruct (nodes !! j) as [b|] eqn:Hb; [|done]. simpl in Hi, Hj.
    eapply (resolved_inj root Hroot st seen Hw Hdone nodes Hlinked); [done..|congruence].
  - apply Forall_forall. intros n (nd & -> & Hin)%list_elem_of_fmap. apply list_elem_of_lookup_1 in Hin as [k Hk].
    destruct (resolved_origin root st nodes Hlinked k nd Hk) as (nd0 & claims & Hk0 & Hl). rewrite length_map, Hlen. split.
    + cbn [sort_children fn_parent]. destruct (ln_parent _ _ _ _ _ _ _ Hl) as [[_ ->]|(par & name & Hpar & _)]; [|by eapply lookup_lt_Some].
      destruct (w_root _ _ _ Hw) as (r & Hr & _). by eapply lookup_lt_Some.
    + apply Forall_forall. intros [name j] Hj. rewrite (proj1 (sort_children_spec nd (ln_names _ _ _ _ _ _ _ Hl))) in Hj.
      apply (resolved_children root Hroot st seen Hw Hdone k nd0 nd claims) in Hj; [|done..]. by apply points_range in Hj.
Qed.

Section renumbered.
Variables (nodes' : list (FlatNode S)) (indices : list nat).
Hypothesis Hlen' : length nodes' = length nodes.
Hypothesis Hfwd : forall k n, nodes !! k = Some n -> exists i n', indices !! k = Some i /\ nodes' !! i = Some n' /\
  renumbered indices (sort_children n) n'.
Hypothesis Hbwd : forall i n', nodes' !! i = Some n' -> exists k n, indices !! k = Some i /\ nodes !! k = Some n /\
  renumbered indices (sort_children n) n'.
Hypothesis Hinj : forall j k i, indices !! j = Some i -> indices !! k = Some i -> j = k.
Hypothesis Hsorted : StronglySorted (keys_lt path_cmp) (map fn_path nodes').

Definition home_of (i : nat) : list bytes :=
  match list_find (fun j => j = i) indices with
  | Some (k, _) => from_option fn_path [] (f_nodes st !! k)
  | None => []
  end.

Lemma home_of_index k i nd0 : indices !! k = Some i -> f_nodes st !! k = Some nd0 -> home_of i = fn_path nd0.
Proof.
  intros Hk Hk0. unfold home_of. destruct (list_find (fun j => j = i) indices) as [[k' j]|] eqn:E.
  - apply list_find_Some in E as (Hk' & -> & _). rewrite (Hinj k' k i Hk' Hk), Hk0. done.
  - apply list_find_None in E. rewrite Forall_forall in E. destruct (E i); [|done]. by eapply list_elem_of_lookup_2.
Qed.

(** Everything that is known of a node in its new place. *)
Lemma new_node i n' : nodes' !! i = Some n' -> exists k nd0 nd claims, indices !! k = Some i /\ f_nodes st !! k = Some nd0 /\
  nodes !! k = Some nd /\ linked_node root st (f_links st) k nd0 nd claims /\ home_of i = fn_path nd0 /\ renumbered indices (sort_children nd) n'.
Proof.
  intros Hi. destruct (Hbwd i n' Hi) as (k & nd & Hk & Hn & Hr). destruct (resolved_origin root st nodes Hlinked k nd Hn) as (nd0 & claims & Hk0 & Hl).
  exists k, nd0, nd, claims. split; [done|]. split; [done|]. split; [done|]. split; [done|]. split; [by apply (home_of_index k)|done].
Qed.

(** The place of a node of the walk. *)
Lemma new_place k nd0 : f_nodes st !! k = Some nd0 -> exists i n', indices !! k = Some i /\ nodes' !! i = Some n' /\ home_of i = fn_path nd0.
Proof.
  intros Hk. pose proof Hlinked as (Hlen & _ & _). assert (exists nd, nodes !! k = Some nd) as [nd Hnd].
  { apply lookup_lt_is_Some. rewrite Hlen. by eapply lookup_lt_Some. }
  destruct (Hfwd k nd Hnd) as (i & n' & Hi & Hn' & _). exists i, n'. split; [done|]. split; [done|]. by apply (home_of_index k).
Qed.

Lemma points_home p k i : indices !! k = Some i -> k < length (f_nodes st) -> points root st p k <-> rtc (tree_link root) p (home_of i).
Proof.
  intros Hk [nd0 Hk0]%lookup_lt_is_Some. rewrite (home_of_index k i nd0) by done. split.
  - intros (nd & Hnd & Hr & _). by assert (nd = nd0) as -> by congruence.
  - intros Hr. exists nd0. split; [done|]. split; [done|]. by eapply (w_at _ _ _ Hw).
Qed.

Lemma renumbered_children (n n' : FlatNode S) : renumbered indices n n' -> map fst (fn_children n') = map fst (fn_children n).
Proof.
  intros (_ & _ & _ & _ & HF). induction HF as [|x y ? ? [E _] _ IH]; simpl; [done|]. by rewrite E, IH.
Qed.

Lemma new_children i n' name j : nodes' !! i = Some n' -> (name, j) ∈ fn_children n' <->
  j < length nodes' /\ rtc (tree_link root) (home_of i ++ [name]) (home_of j).
Proof.
  intros Hi. pose proof Hlinked as (Hlen & _ & _). destruct (new_node i n' Hi) as (k & nd0 & nd & claims & Hk & Hk0 & Hn & Hl & Hh & Hr).
  pose proof (proj1 (sort_children_spec nd (ln_names _ _ _ _ _ _ _ Hl))) as Hperm. destruct Hr as (_ & _ & _ & _ & HF). rewrite Hh. split.
  - intros Hin. apply list_elem_of_lookup_1 in Hin as [m Hm]. destruct (Forall2_lookup_r _ _ _ _ _ HF Hm) as ([x c] & Hx & E & Hc). simpl in E, Hc. subst x.
    apply list_elem_of_lookup_2 in Hx. rewrite Hperm in Hx. apply (resolved_children root Hroot st seen Hw Hdone k nd0 nd claims) in Hx; [|done..].
    pose proof (points_range _ _ Hx) as Hlt. split; [|by apply (points_home _ c)]. pose proof Hlt as [c0 Hc0]%lookup_lt_is_Some.
    destruct (new_place c c0 Hc0) as (j' & n2 & Hj' & Hn2 & _). assert (j' = j) as -> by congruence. by eapply lookup_lt_Some.
  - intros [[n2 Hj]%lookup_lt_is_Some Hrtc]. destruct (new_node j n2 Hj) as (c & c0 & cd & cl & Hc & Hc0 & _ & _ & _ & _).
    apply (points_home _ c) in Hrtc; [|done|by eapply lookup_lt_Some].
    apply (resolved_children root Hroot st seen Hw Hdone k nd0 nd claims) in Hrtc; [|done..]. rewrite <- Hperm in Hrtc.
    apply list_elem_of_lookup_1 in Hrtc as [m Hm]. destruct (Forall2_lookup_l _ _ _ _ _ HF Hm) as ([x j'] & Hx & E & Hj'). simpl in E, Hj'. subst x.
    assert (j' = j) as -> by congruence. by eapply list_elem_of_lookup_2.
Qed.

Lemma flattened_nodes : flattened root nodes' home_of.
Proof.
  pose proof Hlinked as (Hlen & Hres & _). split.
  - rewrite Hlen', Hlen. done.
  - intros i n' Hi. destruct (new_node i n' Hi) as (k & nd0 & nd & claims & Hk & Hk0 & Hn & Hl & -> & E & _).
    rewrite E. cbn [sort_children fn_node]. rewrite (ln_node _ _ _ _ _ _ _ Hl). split; [by eapply (w_at _ _ _ Hw)|by eapply walked_mode].
  - intros p n Hp. apply (explored_node root Hroot st seen Hw Hdone) in Hp as (k & nd0 & Hk & <- & _).
    destruct (new_place k nd0 Hk) as (i & n' & _ & Hi & Hh). by exists i, n'.
  - intros i j [a Hi]%lookup_lt_is_Some [b Hj]%lookup_lt_is_Some E.
    destruct (new_node i a Hi) as (k & nd0 & _ & _ & Hk & Hk0 & _ & _ & Ha & _). destruct (new_node j b Hj) as (k' & nd1 & _ & _ & Hk' & Hk1 & _ & _ & Hb & _).
    rewrite Ha, Hb in E. assert (k = k') as <- by by eapply (w_inj _ _ _ Hw). congruence.
  - done.
  - intros i n' Hi. destruct (new_node i n' Hi) as (k & nd0 & nd & claims & _ & _ & _ & Hl & _ & Hr). rewrite (renumbered_children _ _ Hr).
    apply sort_children_spec, (ln_names _ _ _ _ _ _ _ Hl).
  - intros i n' name j. apply new_children.
  - intros i n' Hi. destruct (new_node i n' Hi) as (k & nd0 & nd & claims & Hk & Hk0 & Hn & Hl & Hh & E1 & E2 & E3 & _).
    exists claims. split; [apply (ln_nodup _ _ _ _ _ _ _ Hl)|]. split.
    { intros p. rewrite (resolved_claims root Hroot st seen Hw Hdone k nd0 nd claims) by done. apply points_home; [done|by eapply lookup_lt_Some]. }
    rewrite E1, E2, E3. cbn [sort_children fn_node fn_path fn_links]. destruct (ln_links _ _ _ _ _ _ _ Hl), (ln_path _ _ _ _ _ _ _ Hl).
    split; [done|]. split; [done|]. split; [done|]. split; [done|]. rewrite Hh. apply (ln_dir _ _ _ _ _ _ _ Hl).
  - intros i n' Hi. destruct (new_node i n' Hi) as (k & nd0 & nd & claims & Hk & Hk0 & Hn & Hl & Hh & E1 & E2 & E3 & Epar & _).
    cbn [sort_children fn_parent] in Epar. rewrite E2. cbn [sort_children fn_path].
    assert (exists p0, f_nodes st !! fn_parent nd = Some p0 /\ (fn_path nd = [] /\ fn_path p0 = [] \/ exists name, fn_path nd = fn_path p0 ++ [name])) as (p0 & Hp0 & Hp).
    { destruct (ln_parent _ _ _ _ _ _ _ Hl) as [[? ->]|(par & name & Hpar & ?)].
      - destruct (w_root _ _ _ Hw) as (r & Hr & _ & ? & _). exists r. by auto.
      - exists par. eauto. }
    destruct (new_place _ p0 Hp0) as (j & m & Hj & Hm & Hhj). assert (fn_parent n' = j) as -> by congruence. rewrite Hhj. split; [by eapply lookup_lt_Some|done].
  - intros p t Hp. pose proof Hp as (k & nd & name & Hk & Hin & E)%(explored_link root Hroot st seen Hw Hdone).
    destruct (Hres k name p) as (j & nd0 & Hpj & Hj & Hd).
    { apply (w_links _ _ _ Hw). exists nd, t. by rewrite (Hdone k nd Hk). }
    destruct (new_place j nd0 Hj) as (i & n' & Hi & Hn' & Hh). exists i, n'. split; [done|]. split; [by apply (points_home p j i Hi); [eapply lookup_lt_Some|]|].
    destruct (new_node i n' Hn') as (j' & nd1 & nd2 & claims & Hj' & Hj1 & _ & Hl & _ & E1 & _). rewrite E1. cbn [sort_children fn_node].
    rewrite (ln_node _ _ _ _ _ _ _ Hl). assert (j' = j) as -> by by eapply Hinj. by assert (nd1 = nd0) as -> by congruence.
Qed.
End renumbered.
End ordered.

Lemma flatten_spec : is_dir root = true ->
  match flatten root with
  | Ready nodes => exists home, flattened root nodes home
  | Fail _ => defect root
  | _ => False
  end.
Proof.
  intros Hd. destruct (flatten_start_walked root Hd) as [Hw0 Hs0]. unfold flatten, flatten_all.
  pose proof (flatten_loop_spec root Hroot (1 + directories_in root) _ _ Hw0 Hs0) as Hloop.
  assert (load (flatten_start root) < 1 + directories_in root) as Hfuel by (unfold load; simpl; lia). specialize (Hloop Hfuel).
  change (post (flatten_all root) (flatten_start root) (fun _ r =>
    match r with Ready nodes => exists home, flattened root nodes home | Fail _ => defect root | _ => False end)).
  apply post_bind. eapply post_mono; [exact Hloop|]. intros st [[]|err| |]; try done. intros (seen & Hw & Hdone). cbn [and_then].
  apply post_bind. destruct (bad_mode root) eqn:Hm; [apply post_lift_io; by eapply (bad_node_mode root [])|].
  apply post_ret. cbn [and_then]. apply post_bind. unfold get_flattening, post at 1. cbn [fst snd and_then].
  apply post_bind. unfold try_into. destruct (in_range u32 (Z.of_nat (length (f_nodes st) + 1))) eqn:Hr; unfold lift_io, post at 1; cbn [fst snd and_then].
  2:{ apply (too_many_nodes root (map fn_path (f_nodes st))).
      - apply NoDup_alt. intros i j p Hi Hj. rewrite list_lookup_fmap in Hi, Hj. destruct (f_nodes st !! i) as [a|] eqn:Ha; [|done].
        destruct (f_nodes st !! j) as [b|] eqn:Hb; [|done]. eapply (w_inj _ _ _ Hw); [done..|]. simpl in Hi, Hj. congruence.
      - intros p (nd & -> & [k Hk]%list_elem_of_lookup_1)%list_elem_of_fmap. eexists. by eapply (w_at _ _ _ Hw).
      - rewrite length_map. unfold in_range in Hr. apply andb_false_iff in Hr as [Hr%Z.leb_gt|Hr%Z.ltb_ge]; lia. }
  apply post_bind. unfold on_nodes.
  pose proof (flatten_links_spec root Hroot st seen Hw Hdone (f_links st) [] (f_nodes st) eq_refl (linked_nil root Hroot st seen Hw Hdone)) as Hl.
  unfold post in Hl |- *. destruct (flatten_links (f_paths st) (f_links st) (f_nodes st)) as [nodes [[]|err| |]]; cbn [fst snd and_then] in Hl |- *; try done.
  apply post_bind. unfold get_flattening, post at 1. cbn [fst snd and_then f_nodes]. destruct (nodes_orderable st seen nodes Hw Hdone Hl) as [Hnd HF].
  destruct (order_nodes_spec (map sort_children nodes) Hnd HF) as (nodes' & indices & -> & Hlen & _ & Hsort & Hfwd & Hbwd & Hinj).
  apply post_ret. exists (home_of st indices). rewrite length_map in Hlen.
  apply (flattened_nodes st seen nodes Hw Hdone Hl Hm); try done.
  - unfold in_range in Hr. apply andb_true_iff in Hr as [_ Hr%Z.ltb_lt]. lia.
  - intros k n Hk. apply Hfwd. by rewrite list_lookup_fmap, Hk.
  - intros i n' Hi. destruct (Hbwd i n' Hi) as (k & n & Hk & Hn & Hren). rewrite list_lookup_fmap in Hn.
    destruct (nodes !! k) as [n0|] eqn:E; [|done]. injection Hn as <-. by exists k, n0.
Qed.

(** A tree that can be flattened has no defect. *)
Lemma flattened_sound nodes home : flattened root nodes home -> ~ defect root.
Proof.
  intros Hf [p n Hp Hm|p t Hp Ht|p t Hp Ht|ps Hnd Hps Hn|q ps Hnd Hps Hn].
  - destruct (fl_onto _ _ _ Hf p n Hp) as (i & nd & Hi & <-). destruct (fl_home _ _ _ Hf i nd Hi) as [E Hgood]. rewrite Hp in E.
    injection E as ->. congruence.
  - destruct (fl_links _ _ _ Hf p t Hp) as (i & nd & Hi & Hr & _). destruct (fl_home _ _ _ Hf i nd Hi) as [E _].
    inversion Hr as [? Ea Eb|? q ? (t' & Ht' & Hq)]; subst; [congruence|]. rewrite Hp in Ht'. injection Ht' as ->. by apply (Ht q).
  - destruct (fl_links _ _ _ Hf p t Hp) as (i & nd & Hi & Hr & Hd). destruct (fl_home _ _ _ Hf i nd Hi) as [E _].
    rewrite (Ht (home i) (fn_node nd)) in Hd; [done|]. by split.
  - assert (length ps <= length (map home (seq 0 (length nodes)))) as Hle.
    { apply submseteq_length, NoDup_submseteq; [done|]. intros p Hp. destruct (Hps p Hp) as [n Hat].
      destruct (fl_onto _ _ _ Hf p n Hat) as (i & nd & Hi & <-). apply list_elem_of_fmap. exists i. split; [done|].
      apply elem_of_seq. apply lookup_lt_Some in Hi. lia. }
    rewrite length_map, length_seq in Hle. pose proof (fl_count _ _ _ Hf). lia.
  - destruct ps as [|p0 ps']; [simpl in Hn; lia|]. destruct (Hps p0 ltac:(left)) as (n0 & _ & Hq).
    destruct (fl_onto _ _ _ Hf q n0 Hq) as (i & nd & Hi & <-). destruct (fl_paths _ _ _ Hf i nd Hi) as (qs & _ & Hqs & El & Hlt & _).
    assert (length (p0 :: ps') <= length qs) as Hle.
    { apply submseteq_length, NoDup_submseteq; [done|]. intros p Hp. destruct (Hps p Hp) as (n & Hr & _). by apply Hqs. }
    lia.
Qed.

(** ** Reading off the nodes *)

Section facts.
Variables (nodes : list (FlatNode S)) (home : nat -> list bytes).
Hypothesis Hf : flattened root nodes home.

Lemma flat_leads i nd : nodes !! i = Some nd -> rtc (tree_link root) (fn_path nd) (home i).
Proof. intros Hi. destruct (fl_paths _ _ _ Hf i nd Hi) as (ps & _ & Hps & _ & _ & Hin & _). by apply Hps. Qed.

Lemma flat_dir_home i nd : nodes !! i = Some nd -> is_dir (fn_node nd) = true -> home i = fn_path nd.
Proof.
  intros Hi Hd. destruct (fl_paths _ _ _ Hf i nd Hi) as (ps & _ & _ & _ & _ & Hin & _ & E). rewrite (E Hd) in Hin.
  by apply list_elem_of_singleton in Hin.
Qed.

(** Only one path leads to a directory. *)
Lemma flat_dir_path i nd p : nodes !! i = Some nd -> is_dir (fn_node nd) = true -> rtc (tree_link root) p (home i) -> p = home i.
Proof.
  intros Hi Hd Hr. destruct (fl_paths _ _ _ Hf i nd Hi) as (ps & _ & Hps & _ & _ & _ & _ & E). apply Hps in Hr. rewrite (E Hd) in Hr.
  by apply list_elem_of_singleton in Hr.
Qed.

(** A path leads to at most one node. *)
Lemma flat_leads_det p i j : i < length nodes -> j < length nodes -> rtc (tree_link root) p (home i) -> rtc (tree_link root) p (home j) -> i = j.
Proof.
  intros Hi Hj Ri Rj. apply (fl_inj _ _ _ Hf); [done..|]. apply lookup_lt_is_Some in Hi as [a Ha]. apply lookup_lt_is_Some in Hj as [b Hb].
  eapply leads_det; (split; [eassumption|]); by apply (fl_home _ _ _ Hf).
Qed.

Lemma flat_path_inj i j a b : nodes !! i = Some a -> nodes !! j = Some b -> fn_path a = fn_path b -> i = j.
Proof.
  intros Hi Hj E. apply (flat_leads_det (fn_path a)); [by eapply lookup_lt_Some..|by apply flat_leads|]. rewrite E. by apply flat_leads.
Qed.

(** Every entry of the tree leads to a node. *)
Lemma flat_entry p e : at_path root p = Some e -> exists i nd, nodes !! i = Some nd /\ rtc (tree_link root) p (home i).
Proof.
  destruct e as [n|t]; intros Hp.
  - destruct (fl_onto _ _ _ Hf p n Hp) as (i & nd & Hi & <-). exists i, nd. split; [done|constructor].
  - destruct (fl_links _ _ _ Hf p t Hp) as (i & nd & Hi & Hr & _). by exists i, nd.
Qed.

Lemma flat_leads_at p i nd : nodes !! i = Some nd -> rtc (tree_link root) p (home i) -> exists e, at_path root p = Some e.
Proof.
  intros Hi Hr. inversion Hr as [? Ea Eb|? q ? (t & Ht & _)]; subst; [|by eexists]. eexists. by apply (fl_home _ _ _ Hf).
Qed.

(** Only directories have children. *)
Lemma flat_child_dir i nd x : nodes !! i = Some nd -> x ∈ fn_children nd -> is_dir (fn_node nd) = true.
Proof.
  intros Hi Hx. destruct x as [name j]. apply (fl_children _ _ _ Hf i nd name j Hi) in Hx as [[c Hj]%lookup_lt_is_Some Hr].
  destruct (flat_leads_at _ _ _ Hj Hr) as [e He]. apply (at_path_below root _ (fn_node nd)) in He; [|done|by apply (fl_home _ _ _ Hf)].
  destruct (is_dir (fn_node nd)) eqn:E; [done|]. rewrite is_dir_entries in He by done. by apply elem_of_nil in He.
Qed.

Lemma flat_children_dir i nd name j : nodes !! i = Some nd -> is_dir (fn_node nd) = true ->
  (name, j) ∈ fn_children nd <-> j < length nodes /\ rtc (tree_link root) (fn_path nd ++ [name]) (home j).
Proof. intros Hi Hd. rewrite (fl_children _ _ _ Hf i nd name j Hi). by rewrite (flat_dir_home i nd Hi Hd). Qed.

(** The parent is a directory, whose path is the path of the node without its last component. *)
Lemma flat_parent i nd : is_dir root = true -> nodes !! i = Some nd -> exists par, nodes !! fn_parent nd = Some par /\
  is_dir (fn_node par) = true /\ (fn_path nd = [] /\ fn_path par = [] \/ exists name, fn_path nd = fn_path par ++ [name]).
Proof.
  intros Hrd Hi. destruct (fl_parent _ _ _ Hf i nd Hi) as [[par Hpar]%lookup_lt_is_Some H]. exists par. split; [done|].
  destruct (fl_home _ _ _ Hf _ _ Hpar) as [Hat _]. assert (is_dir (fn_node par) = true) as Hd.
  { destruct H as [[_ E]|[name E]]; [rewrite E in Hat; by injection Hat as <-|].
    destruct (flat_leads_at _ _ _ Hi (flat_leads i nd Hi)) as [e He]. rewrite E in He. apply (at_path_below root _ _ name e Hroot Hat) in He.
    destruct (is_dir (fn_node par)) eqn:Ed; [done|]. rewrite is_dir_entries in He by done. by apply elem_of_nil in He. }
  split; [done|]. by rewrite (flat_dir_home _ _ Hpar Hd) in H.
Qed.
End facts.
End flattened.

(** ** Flattening is canonical *)

(** [R] relates the sources of files. *)
Definition node_alike {S T} (R : S -> T -> Prop) (n : Node S) (m : Node T) : Prop :=
  SquashTree.metadata n = SquashTree.metadata m /\
  match contents n, contents m with
  | NFile a, NFile b => R a b
  | NDirectory _, NDirectory _ => True
  | NSymlink a, NSymlink b => a = b
  | NBlockDevice a, NBlockDevice b | NCharacterDevice a, NCharacterDevice b => a = b
  | NFifo, NFifo | NSocket, NSocket => True
  | _, _ => False
  end.

(** Two paths lead to the same node. *)
Definition same_node {S} (root : Node S) (p p' : list bytes) : Prop := exists q n, leads root p q n /\ leads root p' q n.

(** The same paths, the same of them linked together, and nodes that are alike at them. *)
Record alike {S T} (R : S -> T -> Prop) (root : Node S) (root' : Node T) : Prop := {
  al_links : forall p p', same_node root p p' <-> same_node root' p p';
  al_nodes : forall p q n q' n', leads root p q n -> leads root' p q' n' -> node_alike R n n';
}.

Definition flat_alike {S T} (R : S -> T -> Prop) (a : FlatNode S) (b : FlatNode T) : Prop :=
  node_alike R (fn_node a) (fn_node b) /\ fn_path a = fn_path b /\ fn_parent a = fn_parent b /\
  fn_children a = fn_children b /\ fn_links a = fn_links b.

Section least.
Context {S : Type} (root : Node S) (nodes : list (FlatNode S)) (home : nat -> list bytes).
Hypothesis Hroot : node_wf root.
Hypothesis Hf : flattened root nodes home.

Lemma same_node_iff p p' : same_node root p p' <-> exists i nd, nodes !! i = Some nd /\ rtc (tree_link root) p (home i) /\ rtc (tree_link root) p' (home i).
Proof.
  split.
  - intros (q & n & [H1 Hq] & [H2 _]). destruct (fl_onto _ _ _ Hf q n Hq) as (i & nd & Hi & <-). by exists i, nd.
  - intros (i & nd & Hi & H1 & H2). destruct (fl_home _ _ _ Hf i nd Hi) as [Hat _]. by exists (home i), (fn_node nd).
Qed.

(** The paths of the nodes are those that no smaller path is linked to. *)
Lemma flat_path_least p : p ∈ map fn_path nodes <-> same_node root p p /\ forall p', same_node root p p' -> path_cmp p' p ≠ Lt.
Proof.
  split.
  - intros (nd & -> & [i Hi]%list_elem_of_lookup_1)%list_elem_of_fmap. pose proof (flat_leads root nodes home Hf i nd Hi) as Hl.
    split; [apply same_node_iff; by exists i, nd|]. intros p' (j & nd' & Hj & H1 & H2)%same_node_iff.
    assert (i = j) as <- by (eapply flat_leads_det; [done|by eapply lookup_lt_Some..|done|done]).
    destruct (fl_paths _ _ _ Hf i nd Hi) as (ps & _ & Hps & _ & _ & _ & Hmin & _). by apply Hmin, Hps.
  - intros [(i & nd & Hi & Hl & _)%same_node_iff Hleast]. destruct (fl_paths _ _ _ Hf i nd Hi) as (ps & _ & Hps & _ & _ & Hin & Hmin & _).
    apply list_elem_of_fmap. exists nd. split; [|by eapply list_elem_of_lookup_2].
    assert (path_cmp p (fn_path nd) ≠ Lt) as H1 by by apply Hmin, Hps.
    assert (path_cmp (fn_path nd) p ≠ Lt) as H2 by (apply Hleast, same_node_iff; exists i, nd; split; [done|]; split; [done|by apply Hps]).
    apply paths_cmp_eq. rewrite (cmp_opp path_cmp) in H2. by destruct (path_cmp p (fn_path nd)).
Qed.

Lemma leads_index p i nd : nodes !! i = Some nd -> rtc (tree_link root) p (home i) <-> same_node root (fn_path nd) p.
Proof.
  intros Hi. pose proof (flat_leads root nodes home Hf i nd Hi) as Hl. rewrite same_node_iff. split; [intros H; by exists i, nd|].
  intros (j & nd' & Hj & H1 & H2). by assert (i = j) as <- by (eapply flat_leads_det; [done|by eapply lookup_lt_Some..|done|done]).
Qed.
End least.

Section canonical.
Context {S T : Type} (R : S -> T -> Prop) (root : Node S) (root' : Node T).
Variables (nodes : list (FlatNode S)) (home : nat -> list bytes) (nodes' : list (FlatNode T)) (home' : nat -> list bytes).
Hypothesis Hroot : node_wf root.
Hypothesis Hroot' : node_wf root'.
Hypothesis Hd : is_dir root = true.
Hypothesis Hd' : is_dir root' = true.
Hypothesis Hf : flattened root nodes home.
Hypothesis Hf' : flattened root' nodes' home'.
Hypothesis Halike : alike R root root'.

Lemma canonical_paths : map fn_path nodes = map fn_path nodes'.
Proof.
  apply (sorted_unique path_cmp id); rewrite ?map_id; [apply (fl_sorted _ _ _ Hf)|apply (fl_sorted _ _ _ Hf')|].
  intros p. rewrite (flat_path_least root nodes home Hf), (flat_path_least root' nodes' home' Hf'). by setoid_rewrite (al_links _ _ _ Halike).
Qed.

Lemma canonical_path i a b : nodes !! i = Some a -> nodes' !! i = Some b -> fn_path a = fn_path b.
Proof.
  intros Ha Hb. pose proof (f_equal (.!! i) canonical_paths) as E. rewrite !list_lookup_fmap, Ha, Hb in E. by injection E.
Qed.

Lemma canonical_length : length nodes = length nodes'.
Proof. by rewrite <- (length_map fn_path nodes), canonical_paths, length_map. Qed.

Lemma canonical_leads p i a b : nodes !! i = Some a -> nodes' !! i = Some b ->
  rtc (tree_link root) p (home i) <-> rtc (tree_link root') p (home' i).
Proof.
  intros Ha Hb. rewrite (leads_index root nodes home Hf p i a Ha), (leads_index root' nodes' home' Hf' p i b Hb).
  rewrite <- (canonical_path i a b Ha Hb). apply (al_links _ _ _ Halike).
Qed.

Lemma canonical_node i a b : nodes !! i = Some a -> nodes' !! i = Some b -> node_alike R (fn_node a) (fn_node b).
Proof.
  intros Ha Hb. eapply (al_nodes _ _ _ Halike (fn_path a)).
  - split; [by eapply flat_leads|by apply (fl_home _ _ _ Hf)].
  - rewrite (canonical_path i a b Ha Hb). split; [by eapply flat_leads|by apply (fl_home _ _ _ Hf')].
Qed.

Lemma node_alike_dir n m : node_alike R n m -> is_dir n = is_dir m.
Proof. unfold node_alike, is_dir. intros [_ H]. by destruct (contents n), (contents m). Qed.

Lemma canonical_links i a b : nodes !! i = Some a -> nodes' !! i = Some b -> fn_links a = fn_links b.
Proof.
  intros Ha Hb. destruct (fl_paths _ _ _ Hf i a Ha) as (ps & Hnd & Hps & -> & _). destruct (fl_paths _ _ _ Hf' i b Hb) as (qs & Hnd' & Hqs & -> & _).
  f_equal. apply Permutation_length, NoDup_Permutation; [done..|]. intros p. rewrite Hps, Hqs. by eapply canonical_leads.
Qed.

Lemma canonical_children i a b : nodes !! i = Some a -> nodes' !! i = Some b -> fn_children a = fn_children b.
Proof.
  intros Ha Hb. pose proof (node_alike_dir _ _ (canonical_node i a b Ha Hb)) as Edir.
  apply (sorted_unique bytes_cmp fst); [by eapply (fl_names _ _ _ Hf)|by eapply (fl_names _ _ _ Hf')|]. intros [name j].
  destruct (is_dir (fn_node a)) eqn:Ea.
  - rewrite (flat_children_dir root nodes home Hf i a name j Ha Ea), (flat_children_dir root' nodes' home' Hf' i b name j Hb) by done.
    rewrite <- canonical_length, <- (canonical_path i a b Ha Hb). split; intros [Hlt Hr]; (split; [done|]); pose proof Hlt as Hlt';
      apply lookup_lt_is_Some in Hlt as [c Hc]; rewrite canonical_length in Hlt'; apply lookup_lt_is_Some in Hlt' as [c' Hc'];
      by apply (canonical_leads _ j c c').
  - split; intros Hin.
    + by rewrite (flat_child_dir root Hroot nodes home Hf i a _ Ha Hin) in Ea.
    + by rewrite (flat_child_dir root' Hroot' nodes' home' Hf' i b _ Hb Hin) in Edir.
Qed.

Lemma canonical_parent i a b : nodes !! i = Some a -> nodes' !! i = Some b -> fn_parent a = fn_parent b.
Proof.
  intros Ha Hb. destruct (flat_parent root Hroot nodes home Hf i a Hd Ha) as (par & Hpar & _ & H).
  destruct (flat_parent root' Hroot' nodes' home' Hf' i b Hd' Hb) as (par' & Hpar' & _ & H').
  rewrite <- (canonical_path i a b Ha Hb) in H'.
  assert (fn_path par = fn_path par') as E.
  { destruct H as [[E1 E2]|[name E1]], H' as [[E3 E4]|[name' E3]]; [congruence|..].
    - rewrite E1 in E3. by destruct (fn_path par').
    - rewrite E3 in E1. by destruct (fn_path par).
    - rewrite E1 in E3. by apply snoc_inj in E3 as [-> _]. }
  pose proof (lookup_lt_Some _ _ _ Hpar) as Hlt. rewrite canonical_length in Hlt. apply lookup_lt_is_Some in Hlt as [c Hc].
  eapply (flat_path_inj root' nodes' home' Hf'); [done..|]. by rewrite <- (canonical_path (fn_parent a) par c Hpar Hc).
Qed.

Lemma canonical_nodes : Forall2 (flat_alike R) nodes nodes'.
Proof.
  apply Forall2_same_length_lookup_2; [apply canonical_length|]. intros i a b Ha Hb. split; [by eapply canonical_node|].
  split; [by eapply canonical_path|]. split; [by eapply canonical_parent|]. split; [by eapply canonical_children|by eapply canonical_links].
Qed.
End canonical.

(** C29: flattening a tree of directories with valid names ends without a panic.  It fails exactly when the tree
    has a defect: a mode with other bits than the permissions, a hardlink whose target is no path, leads nowhere, runs
    in a cycle or ends at a directory, or too many nodes or links for the format.  Otherwise every node of the tree is listed
    once; the nodes are in the order of their paths, each under the least path that leads to it; the children
    of a node are, by name, the nodes that the entries of its directory lead to; its link count is the number of
    paths that lead to it; and its parent is the directory of its path. *)
Theorem flatten_exact {S} (root : Node S) : node_wf root -> is_dir root = true ->
  match flatten root with
  | Ready nodes => ~ defect root /\ exists home, flattened root nodes home
  | Fail _ => defect root
  | _ => False
  end.
Proof.
  intros Hwf Hd. pose proof (flatten_spec root Hwf Hd) as H. destruct (flatten root) as [nodes|err| |]; try done.
  destruct H as [home Hf]. split; [by eapply flattened_sound|by exists home].
Qed.

(** What is written does not depend on how the tree was put together or on which of the linked paths
    carries the node: two trees with the same paths, the same of them linked, and alike nodes
    flatten to nodes that agree in path, parent, children, link count, metadata and contents. *)
Theorem flatten_canonical {S T} (R : S -> T -> Prop) (root : Node S) (root' : Node T) nodes nodes' :
  node_wf root -> node_wf root' -> is_dir root = true -> is_dir root' = true -> alike R root root' ->
  flatten root = Ready nodes -> flatten root' = Ready nodes' -> Forall2 (flat_alike R) nodes nodes'.
Proof.
  intros Hwf Hwf' Hd Hd' Ha E E'. pose proof (flatten_spec root Hwf Hd) as H. pose proof (flatten_spec root' Hwf' Hd') as H'.
  rewrite E in H. rewrite E' in H'. destruct H as [home Hf], H' as [home' Hf']. by eapply canonical_nodes.
Qed.

(** ** Examples *)

Module SquashFlatExamples.

Definition plain : Metadata := Metadata_new 420.
Definition file (n : nat) : Entry nat := ENode (mkNode plain (NFile n)).
Definition dir (es : list (bytes * Entry nat)) : Node nat := mkNode plain (NDirectory (mkDir es)).

(** [/d/x] is the file, [/a] a link to it. *)
Definition carried_below : Node nat := dir [(bstr "a", EHardlink (bstr "/d/x")); (bstr "d", ENode (dir [(bstr "x", file 1)]))].
(** [/a] is the file, [/d/x] a link to it. *)
Definition carried_above : Node nat := dir [(bstr "a", file 2); (bstr "d", ENode (dir [(bstr "x", EHardlink (bstr "../a"))]))].

Ltac check_dir := intros d Hd; injection Hd as <-; constructor;
  [repeat constructor|repeat constructor|
   intros name e sub Hin He; repeat (apply elem_of_cons in Hin as [E|Hin];
     [injection E as -> ->; first [discriminate He|injection He as <-]|]); try (by apply elem_of_nil in Hin)].

Lemma below_wf : node_wf carried_below.
Proof.
  check_dir. constructor; [repeat constructor|repeat constructor|]. intros name e sub Hin He.
  apply elem_of_cons in Hin as [E|Hin]; [injection E as -> ->; discriminate He|by apply elem_of_nil in Hin].
Qed.

Lemma above_wf : node_wf carried_above.
Proof.
  check_dir. constructor; [repeat constructor|repeat constructor|]. intros name e sub Hin He.
  apply elem_of_cons in Hin as [E|Hin]; [injection E as -> ->; discriminate He|by apply elem_of_nil in Hin].
Qed.

(** The file is listed once, under the smaller of its paths and with two links. *)
Lemma flatten_exact_witness : exists nodes, flatten carried_below = Ready nodes /\
  map (fun n => (fn_path n, fn_parent n, fn_children n, fn_links n)) nodes =
    [([], 0, [(bstr "a", 1); (bstr "d", 2)], 1%Z); ([bstr "a"], 0, [], 2%Z); ([bstr "d"], 0, [(bstr "x", 1)], 1%Z)] /\
  ~ defect carried_below.
Proof.
  pose proof (flatten_exact carried_below below_wf eq_refl) as H. destruct (flatten carried_below) as [nodes|err| |] eqn:E;
    [|vm_compute in E; discriminate E..]. exists nodes. split; [reflexivity|]. destruct H as [H _]. split; [|exact H].
  vm_compute in E. injection E as <-. reflexivity.
Defined.

Definition d_below : Node nat := dir [(bstr "x", file 1)].
Definition d_above : Node nat := dir [(bstr "x", EHardlink (bstr "../a"))].
Definition node (n : nat) : Node nat := mkNode plain (NFile n).

Ltac at_cases H p x y :=
  destruct p as [|x [|y [|? p]]]; simpl in H; unfold DirectoryContents_get, entry_directory in H; simpl in H;
  repeat match type of H with
  | context [is_eq (bytes_cmp ?z ?w)] => destruct (is_eq (bytes_cmp z w)) eqn:?E; simpl in H; simplify_eq/=
  end;
  repeat match goal with E : is_eq (bytes_cmp _ _) = true |- _ => apply (is_eq_true bytes_cmp bytes_cmp_eq) in E as -> end;
  try unfold file in H; simplify_eq.

(** Where the paths of both trees lead. *)
Lemma below_leads p q n : leads carried_below p q n <-> p = [] /\ q = [] /\ n = carried_below \/ p = [bstr "d"] /\ q = [bstr "d"] /\ n = d_below \/
  (p = [bstr "a"] \/ p = [bstr "d"; bstr "x"]) /\ q = [bstr "d"; bstr "x"] /\ n = node 1.
Proof.
  assert (forall p n, at_path carried_below p = Some (ENode n) -> p = [] /\ n = carried_below \/ p = [bstr "d"] /\ n = d_below \/ p = [bstr "d"; bstr "x"] /\ n = node 1) as Hn.
  { clear. intros p n H. at_cases H p x y; auto 7. }
  assert (forall p t, at_path carried_below p = Some (EHardlink t) -> p = [bstr "a"] /\ t = bstr "/d/x") as Hl.
  { clear. intros p t H. at_cases H p x y; auto. }
  split.
  - intros [Hr Hq]. inversion Hr as [? Ea Eb|? r ? (t & Ht & Hr') Hrest]; subst.
    + apply Hn in Hq as [[-> ->]|[[-> ->]|[-> ->]]]; auto 10.
    + apply Hl in Ht as [-> ->]. vm_compute in Hr'. injection Hr' as <-. inversion Hrest as [? Ea Eb|? r ? (t & Ht & _)]; subst.
      * apply Hn in Hq as [[? _]|[[? _]|[_ ->]]]; [discriminate..|]. auto 10.
      * apply Hl in Ht as [? _]. discriminate.
  - intros [(-> & -> & ->)|[(-> & -> & ->)|([-> | ->] & -> & ->)]]; split; try reflexivity; try constructor.
    eapply rtc_l; [|constructor]. by exists (bstr "/d/x").
Qed.

Lemma above_leads p q n : leads carried_above p q n <-> p = [] /\ q = [] /\ n = carried_above \/ p = [bstr "d"] /\ q = [bstr "d"] /\ n = d_above \/
  (p = [bstr "a"] \/ p = [bstr "d"; bstr "x"]) /\ q = [bstr "a"] /\ n = node 2.
Proof.
  assert (forall p n, at_path carried_above p = Some (ENode n) -> p = [] /\ n = carried_above \/ p = [bstr "d"] /\ n = d_above \/ p = [bstr "a"] /\ n = node 2) as Hn.
  { clear. intros p n H. at_cases H p x y; auto 7. }
  assert (forall p t, at_path carried_above p = Some (EHardlink t) -> p = [bstr "d"; bstr "x"] /\ t = bstr "../a") as Hl.
  { clear. intros p t H. at_cases H p x y; auto. }
  split.
  - intros [Hr Hq]. inversion Hr as [? Ea Eb|? r ? (t & Ht & Hr') Hrest]; subst.
    + apply Hn in Hq as [[-> ->]|[[-> ->]|[-> ->]]]; auto 10.
    + apply Hl in Ht as [-> ->]. vm_compute in Hr'. injection Hr' as <-. inversion Hrest as [? Ea Eb|? r ? (t & Ht & _)]; subst.
      * apply Hn in Hq as [[? _]|[[? _]|[_ ->]]]; [discriminate..|]. auto 10.
      * apply Hl in Ht as [? _]. discriminate.
  - intros [(-> & -> & ->)|[(-> & -> & ->)|([-> | ->] & -> & ->)]]; split; try reflexivity; try constructor.
    eapply rtc_l; [|constructor]. by exists (bstr "../a").
Qed.

Lemma carried_alike : alike (fun _ _ : nat => True) carried_below carried_above.
Proof.
  split.
  - intros p p'. split; intros (q & n & H1 & H2).
    + apply below_leads in H1 as [(-> & -> & ->)|[(-> & -> & ->)|(Hp & -> & ->)]]; apply below_leads in H2 as [(-> & E & _)|[(-> & E & _)|(Hp' & E & _)]];
        try discriminate E; eexists _, _; split; apply above_leads; auto 10.
    + apply above_leads in H1 as [(-> & -> & ->)|[(-> & -> & ->)|(Hp & -> & ->)]]; apply above_leads in H2 as [(-> & E & _)|[(-> & E & _)|(Hp' & E & _)]];
        try discriminate E; eexists _, _; split; apply below_leads; auto 10.
  - intros p q n q' n' H1 H2. apply below_leads in H1 as [(-> & -> & ->)|[(-> & -> & ->)|(Hp & -> & ->)]];
      apply above_leads in H2 as [(E & _ & ->)|[(E & _ & ->)|(E & _ & ->)]]; subst; try (by split); try discriminate; by intuition discriminate.
Qed.

(** Both trees give the same listing. *)
Lemma flatten_canonical_witness : exists nodes nodes', flatten carried_below = Ready nodes /\ flatten carried_above = Ready nodes' /\
  Forall2 (flat_alike (fun _ _ => True)) nodes nodes'.
Proof.
  destruct (flatten carried_below) as [nodes|err| |] eqn:E; [|vm_compute in E; discriminate E..].
  destruct (flatten carried_above) as [nodes'|err| |] eqn:E'; [|vm_compute in E'; discriminate E'..].
  exists nodes, nodes'. split; [reflexivity|]. split; [reflexivity|].
  exact (flatten_canonical _ carried_below carried_above nodes nodes' below_wf above_wf eq_refl eq_refl carried_alike E E').
Defined.
End SquashFlatExamples.
