(* ===== verification/SquashAssemble.v ===== *)
(** * Assembling the tree of an image

    [shared-libs/crates/start-core/src/util/squashfs/read.rs], [Squashfs::deserialize]: the inodes that are
    reachable from the root are read breadth first, each once and with its place in the table, number, parent
    and link count checked; then the tree is put together from its leaves.

    A path is the list of its components, the path of a hardlink its text.  [self.inode] is a parameter of the
    loops. *)
From S2P Require Import Prelude RustStr BTree SquashFormat SquashBlocks SquashTree SquashData SquashFiles SquashIo SquashImage SquashInode.

Local Open Scope rust_scope.
Local Open Scope poll_scope.

(** The variables of [deserialize]; the front of the queue is the head of the list. *)
Record Reading : Type := mkReading {
  rd_spans : list (Z * Z);
  rd_numbers : list (Z * Z);
  rd_references : list (Z * nat);
  rd_nodes : list (option Parsed);
  rd_paths : list (list bytes);
  rd_entries : list (list (bytes * result nat (list bytes)));
  rd_occurrences : list Z;
  rd_queue : list nat;
}.

Definition pa_kind (p : Parsed) : InodeKind := NodeContents_kind (contents (pa_node p)).

(** [range(..=k).next_back()] and [range(k..).next()] of a [BTreeMap]. *)
Definition range_last (k : Z) (m : list (Z * Z)) : option (Z * Z) := last (List.filter (fun x => (x.1 <=? k)%Z) m).
Definition range_first (k : Z) (m : list (Z * Z)) : option (Z * Z) := head (List.filter (fun x => (k <=? x.1)%Z) m).

Definition overlaps (span : Z * Z) (spans : list (Z * Z)) : bool :=
  from_option (fun x => (span.1 <? x.2)%Z) false (range_last span.1 spans) ||
  from_option (fun x => (x.1 <? span.2)%Z) false (range_first span.1 spans).

(** [nodes\[index\].as_ref().unwrap()]. *)
Definition node_of (rd : Reading) (index : nat) : outcome Parsed := unwrap (mjoin (rd_nodes rd !! index)).

(** [entries\[index\].push(x)]. *)
Definition push_entry (rd : Reading) (index : nat) (x : bytes * result nat (list bytes))
    : outcome (list (list (bytes * result nat (list bytes)))) :=
  let* es := unwrap (rd_entries rd !! index) in Done (<[index := es ++ [x]]> (rd_entries rd)).

(** An addition of [u32]s, which panics when it overflows. *)
Definition add_u32 (a b : Z) : outcome Z := if in_range u32 (a + b)%Z then Done (a + b)%Z else Panic.

Section Deserialize.
Variables (inode : Z -> M Archived Parsed) (count : Z).

(** A child whose inode has been read before. *)
Definition read_again (parent index : nat) (child : Child) (rd : Reading) : M Archived Reading :=
  let> node := lift_outcome (node_of rd index) in
  if bool_decide (pa_kind node = KDirectory) || negb (ih_number (pa_header node) =? ch_number child)%Z
     || negb (bool_decide (pa_kind node = ch_kind child)) then fail $"cyclic directory or inconsistent hardlink"
  else
    let> seen := lift_outcome (unwrap (rd_occurrences rd !! index)) in
    let> seen' := lift_io (checked_add seen 1 $"link count overflow") in
    let> path := lift_outcome (unwrap (rd_paths rd !! index)) in
    let> entries := lift_outcome (push_entry rd parent (ch_name child, Err path)) in
    m_ret (mkReading (rd_spans rd) (rd_numbers rd) (rd_references rd) (rd_nodes rd) (rd_paths rd) entries
             (<[index := seen']> (rd_occurrences rd)) (rd_queue rd)).

Definition is_known {A} (o : option A) : bool := match o with Some _ => true | None => false end.

(** A child whose inode is new; the number of subdirectories so far. *)
Definition read_new (parent : nat) (parent_number : Z) (child : Child) (rd : Reading) (subdirs : Z) : M Archived (Reading * Z) :=
  if (count <=? Z.of_nat (length (rd_nodes rd)))%Z then fail $"more inodes than superblock declares"
  else
    let> node := inode (ch_reference child) in
    let number := ih_number (pa_header node) in
    if negb (number =? ch_number child)%Z || negb (bool_decide (pa_kind node = ch_kind child))
       || is_known (BTreeMap_get Z.compare number (rd_numbers rd)) then fail $"inconsistent directory inode identity"
    else if overlaps (pa_span node) (rd_spans rd) then fail $"overlapping SquashFS inodes"
    else
      let index := length (rd_nodes rd) in
      let directory := bool_decide (ch_kind child = KDirectory) in
      if directory && negb (pa_parent node =? parent_number)%Z then fail $"incorrect directory parent"
      else
        let> subdirs' := lift_outcome (if directory then add_u32 subdirs 1 else Done subdirs) in
        let> path := lift_outcome (unwrap (rd_paths rd !! parent)) in
        let> entries := lift_outcome (push_entry rd parent (ch_name child, Ok index)) in
        m_ret (mkReading (BTreeMap_insert Z.compare (pa_span node).1 (pa_span node).2 (rd_spans rd))
                 (BTreeMap_insert Z.compare number (ch_reference child) (rd_numbers rd))
                 (BTreeMap_insert Z.compare (ch_reference child) index (rd_references rd))
                 (rd_nodes rd ++ [Some node]) (rd_paths rd ++ [path ++ [ch_name child]]) (entries ++ [[]])
                 (rd_occurrences rd ++ [1%Z]) (if directory then rd_queue rd ++ [index] else rd_queue rd), subdirs').

Fixpoint read_children (parent : nat) (parent_number : Z) (children : list Child) (rd : Reading) (subdirs : Z)
    : M Archived (Reading * Z) :=
  match children with
  | [] => m_ret (rd, subdirs)
  | child :: rest =>
      let> (rd', subdirs') :=
        match BTreeMap_get Z.compare (ch_reference child) (rd_references rd) with
        | Some index => let> rd' := read_again parent index child rd in m_ret (rd', subdirs)
        | None => read_new parent parent_number child rd subdirs
        end in
      read_children parent parent_number rest rd' subdirs'
  end.

(** [mem::take] of the children of a node. *)
Definition take_children (rd : Reading) (index : nat) (node : Parsed) : Reading :=
  mkReading (rd_spans rd) (rd_numbers rd) (rd_references rd)
    (<[index := Some (mkParsed (pa_header node) (pa_node node) [] (pa_parent node) (pa_links node) (pa_span node))]> (rd_nodes rd))
    (rd_paths rd) (rd_entries rd) (rd_occurrences rd) (rd_queue rd).

Definition with_queue (rd : Reading) (queue : list nat) : Reading :=
  mkReading (rd_spans rd) (rd_numbers rd) (rd_references rd) (rd_nodes rd) (rd_paths rd) (rd_entries rd) (rd_occurrences rd) queue.

Fixpoint read_loop (fuel : nat) (rd : Reading) : M Archived Reading :=
  match fuel with
  | 0 => m_panic
  | S k =>
      match rd_queue rd with
      | [] => m_ret rd
      | parent :: queue =>
          let> node := lift_outcome (node_of rd parent) in
          let> (rd', subdirs) := read_children parent (ih_number (pa_header node)) (pa_children node)
            (take_children (with_queue rd queue) parent node) 0 in
          let> node' := lift_outcome (node_of rd' parent) in
          let> links := lift_outcome (add_u32 subdirs 2) in
          if negb (pa_links node' =? links)%Z then fail $"incorrect directory link count"
          else read_loop k rd'
      end
  end.
End Deserialize.

(** The link counts of all inodes but directories, and but basic files, which have none. *)
Fixpoint check_links (rd : Reading) (index : nat) (nodes : list (option Parsed)) : outcome (io unit) :=
  match nodes with
  | [] => Done (Ok tt)
  | node :: rest =>
      let* node := unwrap node in
      let* seen := unwrap (rd_occurrences rd !! index) in
      let kind := ih_kind (pa_header node) in
      if negb (bool_decide (pa_kind node = KDirectory)) && ((7 <? kind)%Z || negb (kind =? InodeKind_basic KFile)%Z)
         && negb (pa_links node =? seen)%Z then Done (invalid $"incorrect inode link count")
      else check_links rd (1 + index) rest
  end.

(** The entries of a directory are inserted; a child's node is taken out of [nodes]. *)
Fixpoint insert_entries (es : list (bytes * result nat (list bytes))) (d : DirectoryContents SquashfsFileSource)
    (nodes : list (option Parsed)) : outcome (io (DirectoryContents SquashfsFileSource * list (option Parsed))) :=
  match es with
  | [] => Done (Ok (d, nodes))
  | (name, target) :: rest =>
      let* (e, nodes') :=
        match target with
        | Ok child =>
            let* node := unwrap (mjoin (nodes !! child)) in Done (ENode (pa_node node), <[child := None]> nodes)
        | Err path => Done (EHardlink (path_text path), nodes)
        end in
      match DirectoryContents_insert name e d with
      | (d', Ok _) => insert_entries rest d' nodes'
      | (_, Err err) => Done (Err err)
      end
  end.

(** One step from the back: the node [index] gets its entries. *)
Definition assemble_node (rd : Reading) (index : nat) (nodes : list (option Parsed)) : outcome (io (list (option Parsed))) :=
  let* p := unwrap (mjoin (nodes !! index)) in
  let nodes1 := <[index := None]> nodes in
  match contents (pa_node p) with
  | NDirectory d =>
      let* es := unwrap (rd_entries rd !! index) in
      let* r := insert_entries es d nodes1 in
      Done (let? (d', nodes2) := r in
            Ok (<[index := Some (mkParsed (pa_header p) (mkNode (SquashTree.metadata (pa_node p)) (NDirectory d'))
                  (pa_children p) (pa_parent p) (pa_links p) (pa_span p))]> nodes2))
  | _ => Done (Ok (<[index := Some p]> nodes1))
  end.

(** [for index in (0..n).rev()]. *)
Fixpoint assemble (rd : Reading) (n : nat) (nodes : list (option Parsed)) : outcome (io (list (option Parsed))) :=
  match n with
  | 0 => Done (Ok nodes)
  | S index =>
      let* r := assemble_node rd index nodes in
      match r with
      | Ok nodes' => assemble rd index nodes'
      | Err err => Done (Err err)
      end
  end.

Definition start_reading (sb : Superblock) (root : Parsed) : Reading :=
  mkReading [pa_span root] [(ih_number (pa_header root), root_inode sb)] [(root_inode sb, 0)] [Some root] [[]] [[]] [1%Z] [0].

Section Whole.
Context `{ZS : Zstd}.

Definition deserialize : M Archived (Squashfs SquashfsFileSource) :=
  let> im := load in
  let sb := superblock im in
  let> root := Image_inode im (root_inode sb) in
  if negb (bool_decide (pa_kind root = KDirectory)) then fail $"SquashFS root is not a directory"
  else if negb (pa_parent root =? inode_count sb + 1)%Z then fail $"invalid root directory parent"
  else
    let> rd := read_loop (Image_inode im) (inode_count sb) (1 + Z.to_nat (inode_count sb)) (start_reading sb root) in
    if negb (Z.of_nat (length (rd_nodes rd)) =? inode_count sb)%Z then fail $"unreachable SquashFS inodes"
    else
      let> checked := lift_outcome (check_links rd 0 (rd_nodes rd)) in
      lift_io checked ;>
      let> assembled := lift_outcome (assemble rd (length (rd_nodes rd)) (rd_nodes rd)) in
      let> nodes := lift_io assembled in
      let> p := lift_outcome (unwrap (mjoin (nodes !! 0))) in
      match contents (pa_node p) with
      | NDirectory d =>
          let> o := lift_io (Options_new (block_size sb) 3) in
          m_ret (mkSquashfs (SquashTree.root (Squashfs_new (SquashTree.metadata (pa_node p)) d))
            (mkOptions (o_block_size o) (compression_level o) (sb_modification_time sb)
               (negb (Z.land (flags sb) DEDUPLICATED =? 0)%Z)))
      | _ => m_panic
      end.
End Whole.
