(* ===== verification/SquashReading.v ===== *)
(** * Reading the inodes of a tree

    The theorems on SquashAssemble.v, first part: an invariant of the breadth-first loop of [deserialize] over the
    inodes that were written for a flattened tree. *)
From stdpp Require Import sorting relations.
From S2P Require Import Prelude RustStr BTree SquashFormat SquashBlocks SquashTree SquashData SquashFiles SquashIo SquashImage SquashLoad SquashInode SquashTable SquashEntries SquashInodes SquashFlatten SquashWalk SquashFlat SquashAssemble.

Local Open Scope rust_scope.
Local Open Scope poll_scope.

(** ** Helpers *)

Lemma map_insert_sub {K V} (cmp : K -> K -> comparison) k v (m : list (K * V)) x :
  x ∈ BTreeMap_insert cmp k v m -> x = (k, v) \/ x ∈ m.
Proof.
  induction m as [|[y w] m IH]; simpl; [intros ->%list_elem_of_singleton; by left|].
  destruct (cmp k y); rewrite !elem_of_cons; [by intros [?|?]; auto|by intros [?|[?|?]]; auto|].
  intros [?|?]; [by auto|]. destruct IH; auto.
Qed.

Lemma Z_compare_eq (a b : Z) : (a ?= b)%Z = Eq <-> a = b.
Proof. apply Z.compare_eq_iff. Qed.

(** Spans that are apart do not overlap. *)
Lemma overlaps_false span spans : (span.1 < span.2)%Z ->
  (forall x, x ∈ spans -> (x.1 < x.2)%Z /\ ((x.2 <= span.1)%Z \/ (span.2 <= x.1)%Z)) -> overlaps span spans = false.
Proof.
  intros Hs Hx. unfold overlaps. apply orb_false_iff. split.
  - unfold range_last. destruct (last _) as [x|] eqn:E; [|done]. apply last_Some_elem_of, list_elem_of_In, List.filter_In in E as [Hin Hle].
    apply list_elem_of_In in Hin. destruct (Hx x Hin). simpl. apply Z.ltb_ge. lia.
  - unfold range_first. destruct (head _) as [x|] eqn:E; [|done]. apply head_Some_elem_of, list_elem_of_In, List.filter_In in E as [Hin Hle].
    apply list_elem_of_In in Hin. destruct (Hx x Hin). simpl. apply Z.ltb_ge. lia.
Qed.

Section reading.
Context {S : Type} (root : Node S) (nodes : list (FlatNode S)) (home : nat -> list bytes).
Hypothesis Hroot : node_wf root.
Hypothesis Hdir : is_dir root = true.
Hypothesis Hf : flattened root nodes home.

Abbreviation leads_to p i := (rtc (tree_link root) p (home i)).

(** ** Facts of the flat nodes *)

Lemma root_index nd : nodes !! 0 = Some nd -> home 0 = [] /\ fn_node nd = root.
Proof.
  intros H0. destruct (fl_onto _ _ _ Hf [] root eq_refl) as (i & r & Hi & Hh).
  assert (fn_path r = []) as Er.
  { rewrite <- (flat_dir_home root nodes home Hf i r Hi), Hh; [done|].
    destruct (fl_home _ _ _ Hf i r Hi) as [Hat _]. rewrite Hh in Hat. by injection Hat as <-. }
  assert (i = 0) as ->.
  { destruct i as [|i]; [done|]. pose proof (fl_sorted _ _ _ Hf) as Hs. destruct nodes as [|n0 rest]; [done|]. cbn [map] in Hs.
    inversion Hs as [|? ? _ HF]; subst. rewrite Forall_forall in HF. assert (keys_lt path_cmp (fn_path n0) (fn_path r)) as Hlt.
    { apply HF, list_elem_of_fmap. exists r. split; [done|]. by eapply list_elem_of_lookup_2. }
    rewrite Er in Hlt. unfold keys_lt, path_cmp in Hlt. by destruct (fn_path n0). }
  split; [done|]. assert (nd = r) as -> by congruence. destruct (fl_home _ _ _ Hf 0 r Hi) as [Hat _]. rewrite Hh in Hat. by injection Hat as <-.
Qed.

Lemma some_node : exists nd, nodes !! 0 = Some nd.
Proof.
  destruct (fl_onto _ _ _ Hf [] root eq_refl) as (i & r & Hi & _). apply lookup_lt_is_Some. apply lookup_lt_Some in Hi. lia.
Qed.

Lemma child_index i nd name j : nodes !! i = Some nd -> (name, j) ∈ fn_children nd -> leads_to (home i ++ [name]) j /\ exists c, nodes !! j = Some c.
Proof. intros Hi Hin. apply (fl_children _ _ _ Hf i nd name j Hi) in Hin as [Hlt Hl]. split; [done|by apply lookup_lt_is_Some]. Qed.

(** The root is no child. *)
Lemma child_not_root i nd name j : nodes !! i = Some nd -> (name, j) ∈ fn_children nd -> j ≠ 0.
Proof.
  intros Hi Hin ->. destruct (child_index i nd name 0 Hi Hin) as (Hl & c & Hc). destruct (root_index c Hc) as [Hh E].
  assert (home i ++ [name] = home 0) as E' by (eapply flat_dir_path; [done|done|by rewrite E|done]). rewrite Hh in E'. by destruct (home i).
Qed.

(** A directory is a child once, and of its parent. *)
Lemma dir_child_once i i' nd nd' name name' j c : nodes !! i = Some nd -> nodes !! i' = Some nd' -> nodes !! j = Some c -> is_dir (fn_node c) = true ->
  (name, j) ∈ fn_children nd -> (name', j) ∈ fn_children nd' -> i = i' /\ name = name'.
Proof.
  intros Hi Hi' Hj Hd Hin Hin'. destruct (child_index _ _ _ _ Hi Hin) as (Hl & _). destruct (child_index _ _ _ _ Hi' Hin') as (Hl' & _).
  eapply (flat_dir_path root nodes home Hf j c) in Hl; [|done..]. eapply (flat_dir_path root nodes home Hf j c) in Hl'; [|done..].
  rewrite <- Hl' in Hl. apply snoc_inj in Hl as [Hl ->]. split; [|done]. apply (fl_inj _ _ _ Hf); [by eapply lookup_lt_Some..|done].
Qed.

Lemma dir_child_parent i nd name j c : nodes !! i = Some nd -> nodes !! j = Some c -> is_dir (fn_node c) = true ->
  (name, j) ∈ fn_children nd -> parent_number nodes j c = (Z.of_nat i + 1)%Z.
Proof.
  intros Hi Hj Hd Hin. unfold parent_number. pose proof (child_not_root _ _ _ _ Hi Hin) as Hj0. destruct (Nat.eqb_spec j 0); [done|].
  destruct (flat_parent root Hroot nodes home Hf j c Hdir Hj) as (par & Hpar & Hpd & H). destruct (child_index _ _ _ _ Hi Hin) as (Hl & _).
  eapply (flat_dir_path root nodes home Hf j c) in Hl; [|done..]. rewrite (flat_dir_home root nodes home Hf j c Hj Hd) in Hl.
  pose proof (flat_child_dir root Hroot nodes home Hf i nd _ Hi Hin) as Hid. rewrite (flat_dir_home root nodes home Hf i nd Hi Hid) in Hl.
  assert (fn_path nd = fn_path par) as E.
  { destruct H as [[E _]|[name' E]]; rewrite E in Hl; [by destruct (fn_path nd)|]. by apply snoc_inj in Hl as [-> _]. }
  rewrite (flat_path_inj root nodes home Hf _ _ _ _ Hi Hpar E). done.
Qed.

Lemma child_names_nodup i nd : nodes !! i = Some nd -> NoDup (map fst (fn_children nd)).
Proof. intros Hi. apply (sorted_NoDup bytes_cmp). by eapply (fl_names _ _ _ Hf). Qed.

Variables (layouts : list (option FileLayout)) (sb : Superblock) (frags : list Fragment) (refs : list Z) (spans : nat -> nat * nat).
Hypothesis Hrefs : length refs = length nodes /\ NoDup refs.
Hypothesis Hspans : forall i, i < length nodes -> (spans i).1 < (spans i).2.
Hypothesis Hapart : forall i j, i < length nodes -> j < length nodes -> i ≠ j -> (spans i).2 <= (spans j).1 \/ (spans j).2 <= (spans i).1.

Variables (img : bytes) (rep : option Z) (bad : Prop) (inode : Z -> M Archived Parsed).
Hypothesis Hinode : forall i nd r, nodes !! i = Some nd -> refs !! i = Some r ->
  obtains img rep bad (inode r) (inode_read layouts nodes sb frags refs i nd (spans i)).

Abbreviation obtains := (obtains img rep bad).

(** ** The invariant *)

Definition same_but_children (p p0 : Parsed) : Prop :=
  pa_header p = pa_header p0 /\ pa_node p = pa_node p0 /\ pa_parent p = pa_parent p0 /\ pa_links p = pa_links p0 /\ pa_span p = pa_span p0.

(** The entry of the directory read as the [k]th for a child: a node that comes later, or a link to the path of one. *)
Definition entry_of (order : list nat) (paths : list (list bytes)) (k : nat) (x : bytes * nat) (y : bytes * result nat (list bytes)) : Prop :=
  x.1 = y.1 /\
  match y.2 with
  | Ok k' => k < k' /\ order !! k' = Some x.2 /\ exists p, paths !! k = Some p /\ paths !! k' = Some (p ++ [x.1])
  | Err path => exists k', order !! k' = Some x.2 /\ paths !! k' = Some path
  end.

(** The path is one that has been found to lead to the node [i], the [k]th that was read. *)
Definition claimed (order : list nat) (seen : nat -> list (bytes * nat)) (p : list bytes) (k i : nat) : Prop :=
  k = 0 /\ p = [] \/ exists k2 i2 name, order !! k2 = Some i2 /\ (name, i) ∈ seen k2 /\ p = home i2 ++ [name].

(** [order] are the nodes in the order in which they were read, [seen k] the children of the [k]th that have been
    visited; [cur] is the directory whose children are being visited. *)
Record read_ok (rd : Reading) (order : list nat) (seen : nat -> list (bytes * nat)) (cur : option nat) : Prop := {
  r_lengths : length (rd_nodes rd) = length order /\ length (rd_paths rd) = length order /\
    length (rd_entries rd) = length order /\ length (rd_occurrences rd) = length order;
  r_order : NoDup order /\ (forall i, i ∈ order -> i < length nodes) /\ order !! 0 = Some 0;
  r_nodes : forall k i nd, order !! k = Some i -> nodes !! i = Some nd -> exists p p0, rd_nodes rd !! k = Some (Some p) /\
    inode_read layouts nodes sb frags refs i nd (spans i) p0 /\ same_but_children p p0 /\ (k ∈ rd_queue rd -> p = p0);
  r_refs : forall r k, BTreeMap_get Z.compare r (rd_references rd) = Some k <-> exists i, order !! k = Some i /\ refs !! i = Some r;
  r_numbers : forall z r, BTreeMap_get Z.compare z (rd_numbers rd) = Some r -> exists i, i ∈ order /\ z = (Z.of_nat i + 1)%Z;
  r_spans : forall x, x ∈ rd_spans rd -> exists i, i ∈ order /\ x = (Z.of_nat (spans i).1, Z.of_nat (spans i).2);
  r_paths : forall k i, order !! k = Some i -> exists p, rd_paths rd !! k = Some p /\ leads_to p i /\
    (k ≠ 0 -> exists k2 i2 name es, order !! k2 = Some i2 /\ (name, i) ∈ seen k2 /\ p = home i2 ++ [name] /\
       rd_entries rd !! k2 = Some es /\ (name, Ok k) ∈ es);
  r_entries : forall k i nd, order !! k = Some i -> nodes !! i = Some nd -> seen k `prefix_of` fn_children nd /\
    exists es, rd_entries rd !! k = Some es /\ Forall2 (entry_of order (rd_paths rd) k) (seen k) es;
  r_claims : forall k i, order !! k = Some i -> exists ps, NoDup ps /\ rd_occurrences rd !! k = Some (Z.of_nat (length ps)) /\
    forall p, p ∈ ps <-> claimed order seen p k i;
  r_queue : NoDup (rd_queue rd) /\ forall k, k ∈ rd_queue rd -> Some k ≠ cur /\
    exists i nd, order !! k = Some i /\ nodes !! i = Some nd /\ is_dir (fn_node nd) = true;
  r_seen : forall k i nd, order !! k = Some i -> nodes !! i = Some nd -> Some k ≠ cur ->
    seen k = if bool_decide (k ∈ rd_queue rd) then [] else fn_children nd;
  r_out : forall k, length order <= k -> seen k = [];
}.

(** The children that have been visited have been read. *)
Lemma seen_in_order rd order seen cur k2 i2 x i' : read_ok rd order seen cur -> order !! k2 = Some i2 -> (x, i') ∈ seen k2 -> i' ∈ order.
Proof.
  intros Hok Hk2 Hin. destruct (lookup_lt_is_Some_2 nodes i2) as [nd2 Hi2]; [apply (r_order _ _ _ _ Hok); by eapply list_elem_of_lookup_2|].
  destruct (r_entries _ _ _ _ Hok k2 i2 nd2 Hk2 Hi2) as (_ & es2 & _ & HF). apply list_elem_of_lookup_1 in Hin as [m Hm].
  destruct (Forall2_lookup_l _ _ _ _ _ HF Hm) as (y & _ & _ & Hy). simpl in Hy. destruct y.2 as [k3|q3].
  - destruct Hy as (_ & Hy & _). by eapply list_elem_of_lookup_2.
  - destruct Hy as (k3 & Hy & _). by eapply list_elem_of_lookup_2.
Qed.

Lemma claimed_leads rd order seen cur p k i' : read_ok rd order seen cur -> order !! k = Some i' -> claimed order seen p k i' -> leads_to p i'.
Proof.
  intros Hok Hk [[-> ->]|(k2 & i2 & x & Hk2 & Hin & ->)].
  - destruct (r_order _ _ _ _ Hok) as (_ & _ & H0). assert (i' = 0) as -> by congruence. destruct some_node as [r Hr].
    rewrite (proj1 (root_index r Hr)). constructor.
  - destruct (lookup_lt_is_Some_2 nodes i2) as [nd2 Hi2]; [apply (r_order _ _ _ _ Hok); by eapply list_elem_of_lookup_2|].
    destruct (r_entries _ _ _ _ Hok k2 i2 nd2 Hk2 Hi2) as ([more E] & _). eapply child_index; [exact Hi2|]. rewrite E. apply elem_of_app. by left.
Qed.

Section step.
Variables (rd : Reading) (order : list nat) (seen : nat -> list (bytes * nat)) (parent i : nat) (nd : FlatNode S) (name : bytes) (j : nat)
  (rest : list (bytes * nat)).
Hypothesis Hok : read_ok rd order seen (Some parent).
Hypothesis Hp : order !! parent = Some i.
Hypothesis Hi : nodes !! i = Some nd.
Hypothesis Hes : fn_children nd = seen parent ++ (name, j) :: rest.

Let path : list bytes := home i ++ [name].

Lemma step_child : (name, j) ∈ fn_children nd.
Proof. rewrite Hes. apply elem_of_app. right. left. Qed.

Lemma step_unseen j' : ~ (name, j') ∈ seen parent.
Proof.
  intros Hin. pose proof (child_names_nodup i nd Hi) as Hnd. rewrite Hes, map_app in Hnd.
  apply NoDup_app in Hnd as (_ & Hd & _). apply (Hd name); [|left]. apply list_elem_of_fmap. by exists (name, j').
Qed.

(** The path of the child has not been seen. *)
Lemma step_fresh k2 i2 name2 j2 : order !! k2 = Some i2 -> (name2, j2) ∈ seen k2 -> home i2 ++ [name2] ≠ path.
Proof.
  intros Hk2 Hin [E ->]%snoc_inj. destruct (r_order _ _ _ _ Hok) as (Hnd & Hlt & _).
  assert (i2 = i) as -> by (apply (fl_inj _ _ _ Hf); [apply Hlt; by eapply list_elem_of_lookup_2|by eapply lookup_lt_Some|done]).
  assert (k2 = parent) as -> by by eapply NoDup_lookup. by apply step_unseen in Hin.
Qed.

Lemma step_not_claimed k i' : ~ claimed order seen path k i'.
Proof.
  intros [[_ E]|(k2 & i2 & name2 & Hk2 & Hin & E)]; [unfold path in E; by destruct (home i)|].
  by eapply step_fresh.
Qed.

Lemma step_prefix k i' nd' : order !! k = Some i' -> nodes !! i' = Some nd' -> see seen parent (name, j) k `prefix_of` fn_children nd'.
Proof.
  intros Hk Hi'. unfold see. destruct (Nat.eqb_spec k parent) as [->|Hne]; [|by apply (r_entries _ _ _ _ Hok k i' nd')].
  assert (i' = i) as -> by congruence. assert (nd' = nd) as -> by congruence. exists rest. by rewrite Hes, <- app_assoc.
Qed.

Lemma claimed_see p k i' : claimed order (see seen parent (name, j)) p k i' <-> claimed order seen p k i' \/ i' = j /\ p = path.
Proof.
  unfold claimed. setoid_rewrite elem_of_see. split.
  - intros [?|(k2 & i2 & x & Hk2 & [?|[E [= -> ->]]] & ->)]; [by left; left|left; right; by exists k2, i2, x|]. right. split; [done|].
    unfold path. by assert (i2 = i) as -> by congruence.
  - intros [[?|(k2 & i2 & x & ? & ? & ?)]|[-> ->]]; [by left|right; exists k2, i2, x; auto|]. right. exists parent, i, name. auto.
Qed.

(** A child that was read before. *)
Lemma again_ok k' c es q ps : order !! k' = Some j -> nodes !! j = Some c -> is_dir (fn_node c) = false ->
  rd_entries rd !! parent = Some es -> rd_paths rd !! k' = Some q -> rd_occurrences rd !! k' = Some ps ->
  read_ok (mkReading (rd_spans rd) (rd_numbers rd) (rd_references rd) (rd_nodes rd) (rd_paths rd)
             (<[parent := es ++ [(name, Err q)]]> (rd_entries rd)) (<[k' := (ps + 1)%Z]> (rd_occurrences rd)) (rd_queue rd))
    order (see seen parent (name, j)) (Some parent).
Proof.
  intros Hk' Hj Hnd He Hq Hocc. pose proof (r_order _ _ _ _ Hok) as (Hndo & _ & _).
  pose proof (lookup_lt_Some _ _ _ Hp) as Hplt. pose proof (lookup_lt_Some _ _ _ Hk') as Hklt.
  destruct (r_lengths _ _ _ _ Hok) as (L1 & L2 & L3 & L4). split; cbn [rd_spans rd_numbers rd_references rd_nodes rd_paths rd_entries rd_occurrences rd_queue].
  - by rewrite !length_insert.
  - apply (r_order _ _ _ _ Hok).
  - apply (r_nodes _ _ _ _ Hok).
  - apply (r_refs _ _ _ _ Hok).
  - apply (r_numbers _ _ _ _ Hok).
  - apply (r_spans _ _ _ _ Hok).
  - intros k i' Hk. destruct (r_paths _ _ _ _ Hok k i' Hk) as (p & ? & ? & H). exists p. split; [done|]. split; [done|].
    intros (k2 & i2 & x & es2 & ? & ? & ? & He2 & ?)%H. destruct (decide (k2 = parent)) as [->|Hne].
    + exists parent, i2, x, (es ++ [(name, Err q)]). assert (es2 = es) as -> by congruence. rewrite list_lookup_insert_eq by lia.
      rewrite elem_of_see, elem_of_app. auto 10.
    + exists k2, i2, x, es2. rewrite list_lookup_insert_ne by done. rewrite elem_of_see. auto 10.
  - intros k i' nd' Hk Hi'. split; [by eapply step_prefix|]. destruct (r_entries _ _ _ _ Hok k i' nd' Hk Hi') as (_ & es' & Hes' & HF).
    destruct (decide (k = parent)) as [->|Hne].
    + assert (es' = es) as -> by congruence. exists (es ++ [(name, Err q)]). rewrite list_lookup_insert_eq by lia. split; [done|].
      rewrite see_same. apply Forall2_app; [done|]. constructor; [|constructor]. split; [done|]. by exists k'.
    + exists es'. rewrite list_lookup_insert_ne, see_other by done. done.
  - intros k i' Hk. destruct (r_claims _ _ _ _ Hok k i' Hk) as (qs & Hnd' & Hl & Hqs). destruct (decide (k = k')) as [->|Hne].
    + assert (i' = j) as -> by congruence. exists (path :: qs). split; [constructor; [|done]; rewrite Hqs; apply step_not_claimed|].
      rewrite list_lookup_insert_eq by lia. assert (ps = Z.of_nat (length qs)) as -> by congruence. split; [f_equal; simpl; lia|].
      intros p. rewrite elem_of_cons, Hqs, claimed_see. split; [intros [?|?]; auto|intros [?|[_ ?]]; auto].
    + exists qs. rewrite list_lookup_insert_ne by done. split; [done|]. split; [done|]. intros p. rewrite Hqs, claimed_see.
      split; [by left|]. intros [?|[-> _]]; [done|]. by destruct Hne, (NoDup_lookup order k k' j).
  - apply (r_queue _ _ _ _ Hok).
  - intros k i' nd' Hk Hi' Hne. rewrite see_other by congruence. by apply (r_seen _ _ _ _ Hok k i').
  - intros k Hk. rewrite see_other by lia. by apply (r_out _ _ _ _ Hok).
Qed.

(** The path under which a directory was read is its place in the tree. *)
Lemma step_parent_path : rd_paths rd !! parent = Some (home i).
Proof.
  destruct (r_paths _ _ _ _ Hok parent i Hp) as (p & -> & Hl & _). f_equal. eapply flat_dir_path; [done|exact Hi| |done].
  eapply flat_child_dir; [done..|exact step_child].
Qed.

Lemma entry_of_mono x y more q k : k < length order -> length (rd_paths rd) = length order ->
  entry_of order (rd_paths rd) k x y -> entry_of (order ++ more) (rd_paths rd ++ q) k x y.
Proof.
  intros Hk Hlen [E H]. split; [done|]. destruct y.2 as [k'|r].
  - destruct H as (Hlt & Ho & p & H1 & H2). split; [done|]. split; [by apply lookup_app_l_Some|]. exists p.
    split; by apply lookup_app_l_Some.
  - destruct H as (k' & Ho & H1). exists k'. split; by apply lookup_app_l_Some.
Qed.

(** An index of the longer order is an old one or the new one. *)
Lemma order_snoc k i' : (order ++ [j]) !! k = Some i' -> order !! k = Some i' \/ k = length order /\ i' = j.
Proof.
  intros [H|[Hge H]]%lookup_app_Some; [by left|right]. apply list_lookup_singleton_Some in H as [H ->]. split; [lia|done].
Qed.

Lemma claimed_snoc p k i' : claimed (order ++ [j]) (see seen parent (name, j)) p k i' <-> claimed order seen p k i' \/ i' = j /\ p = path.
Proof.
  rewrite <- claimed_see. pose proof (lookup_lt_Some _ _ _ Hp) as Hplt. split.
  - intros [?|(k2 & i2 & x & [Hk2|[E ->]]%order_snoc & Hin & ->)]; [by left|right; by exists k2, i2, x|].
    rewrite see_other, (r_out _ _ _ _ Hok) in Hin by lia. by apply elem_of_nil in Hin.
  - intros [?|(k2 & i2 & x & Hk2 & ? & ?)]; [by left|right]. exists k2, i2, x. split; [by apply lookup_app_l_Some|auto].
Qed.

(** A child that is new. *)
Lemma fresh_ok c es p r : ~ j ∈ order -> nodes !! j = Some c -> rd_entries rd !! parent = Some es -> refs !! j = Some r ->
  inode_read layouts nodes sb frags refs j c (spans j) p ->
  read_ok (mkReading (BTreeMap_insert Z.compare (pa_span p).1 (pa_span p).2 (rd_spans rd))
             (BTreeMap_insert Z.compare (ih_number (pa_header p)) r (rd_numbers rd))
             (BTreeMap_insert Z.compare r (length (rd_nodes rd)) (rd_references rd))
             (rd_nodes rd ++ [Some p]) (rd_paths rd ++ [home i ++ [name]])
             (<[parent := es ++ [(name, Ok (length (rd_nodes rd)))]]> (rd_entries rd) ++ [[]])
             (rd_occurrences rd ++ [1%Z]) (if is_dir (fn_node c) then rd_queue rd ++ [length (rd_nodes rd)] else rd_queue rd))
    (order ++ [j]) (see seen parent (name, j)) (Some parent).
Proof.
  intros Hnew Hj He Hr Hread. pose proof (r_order _ _ _ _ Hok) as (Hndo & Hlt & H0). destruct (r_lengths _ _ _ _ Hok) as (L1 & L2 & L3 & L4).
  pose proof (lookup_lt_Some _ _ _ Hp) as Hplt. pose proof (lookup_lt_Some _ _ _ Hj) as Hjlt. rewrite L1.
  assert (forall k i', order !! k = Some i' -> k < length order) as Hold by (intros; by eapply lookup_lt_Some).
  assert (forall x, x ∈ order -> x ∈ order ++ [j]) as Hsub by (intros; apply elem_of_app; by left).
  assert (j ∈ order ++ [j]) as Hjn by (apply elem_of_app; right; left).
  split; cbn [rd_spans rd_numbers rd_references rd_nodes rd_paths rd_entries rd_occurrences rd_queue].
  - rewrite !length_app, length_insert. simpl. lia.
  - split; [|split; [|by apply lookup_app_l_Some]].
    + apply NoDup_app. split; [done|]. split; [|apply NoDup_singleton]. by intros x Hx ->%list_elem_of_singleton.
    + intros x [Hx| ->%list_elem_of_singleton]%elem_of_app; [by apply Hlt|done].
  - intros k i' nd' [Hk|[-> ->]]%order_snoc Hi'.
    + destruct (r_nodes _ _ _ _ Hok k i' nd' Hk Hi') as (p1 & p0 & Hn & ? & ? & Hq). exists p1, p0. split; [by apply lookup_app_l_Some|].
      split; [done|]. split; [done|]. intros Hin. apply Hq. destruct (is_dir (fn_node c)); [|done].
      apply elem_of_app in Hin as [?| ->%list_elem_of_singleton]; [done|]. apply Hold in Hk. lia.
    + exists p, p. assert (nd' = c) as -> by congruence. rewrite <- L1. split; [by rewrite lookup_app_r, Nat.sub_diag|]. done.
  - intros r' k. destruct (decide (r' = r)) as [->|Hne].
    + rewrite (map_get_insert Z.compare Z_compare_eq). split.
      * intros [= <-]. exists j. split; [by rewrite lookup_app_r, Nat.sub_diag|done].
      * intros (i' & [Hk|[-> ->]]%order_snoc & Hr'); [|done]. destruct Hrefs as [_ Hndr].
        assert (i' = j) as -> by by eapply (NoDup_lookup refs). by apply list_elem_of_lookup_2 in Hk.
    + rewrite (map_get_insert_ne Z.compare Z_compare_eq) by done. rewrite (r_refs _ _ _ _ Hok). split.
      * intros (i' & ? & ?). exists i'. split; [by apply lookup_app_l_Some|done].
      * intros (i' & [Hk|[-> ->]]%order_snoc & Hr'); [by exists i'|congruence].
  - intros z r'. rewrite (ir_number _ _ _ _ _ _ _ _ _ Hread). destruct (decide (z = (Z.of_nat j + 1)%Z)) as [->|Hne]; [intros _; by exists j|].
    rewrite (map_get_insert_ne Z.compare Z_compare_eq) by done. intros (i' & ? & ?)%(r_numbers _ _ _ _ Hok). exists i'. auto.
  - intros x. rewrite (ir_span _ _ _ _ _ _ _ _ _ Hread). intros [->|(i' & ? & ?)%(r_spans _ _ _ _ Hok)]%map_insert_sub; [by exists j|exists i'; auto].
  - intros k i' [Hk|[-> ->]]%order_snoc.
    + destruct (r_paths _ _ _ _ Hok k i' Hk) as (q & Hq & ? & H). exists q. split; [by apply lookup_app_l_Some|]. split; [done|].
      intros (k2 & i2 & x & es2 & Hk2 & ? & ? & He2 & ?)%H. destruct (decide (k2 = parent)) as [->|Hne].
      * eexists parent, i2, x, _. assert (es2 = es) as -> by congruence. rewrite elem_of_see. split; [by apply lookup_app_l_Some|].
        split; [auto|]. split; [done|]. split; [apply lookup_app_l_Some, list_lookup_insert_eq; lia|]. apply elem_of_app. by left.
      * exists k2, i2, x, es2. rewrite elem_of_see. split; [by apply lookup_app_l_Some|]. split; [auto|]. split; [done|].
        split; [|done]. apply lookup_app_l_Some. by rewrite list_lookup_insert_ne.
    + exists path. rewrite <- L2, lookup_app_r, Nat.sub_diag by done. split; [done|]. split; [by eapply child_index, step_child|].
      intros _. eexists parent, i, name, _. rewrite elem_of_see. split; [by apply lookup_app_l_Some|]. split; [auto|]. split; [done|].
      split; [apply lookup_app_l_Some, list_lookup_insert_eq; lia|]. apply elem_of_app. right. left.
  - intros k i' nd' [Hk|[-> ->]]%order_snoc Hi'.
    + split; [by eapply step_prefix|]. destruct (r_entries _ _ _ _ Hok k i' nd' Hk Hi') as (_ & es' & Hes' & HF).
      assert (Forall2 (entry_of (order ++ [j]) (rd_paths rd ++ [home i ++ [name]]) k) (seen k) es') as HF'.
      { eapply Forall2_impl; [exact HF|]. intros x y. apply entry_of_mono; [by eapply Hold|done]. }
      destruct (decide (k = parent)) as [->|Hne].
      * assert (es' = es) as -> by congruence. exists (es ++ [(name, Ok (length order))]). rewrite see_same. split.
        { rewrite lookup_app_l by (rewrite length_insert; lia). rewrite list_lookup_insert_eq by lia. done. }
        apply Forall2_app; [done|]. constructor; [|constructor]. split; [done|]. split; [lia|].
        split; [by rewrite lookup_app_r, Nat.sub_diag|]. exists (home i). split; [apply lookup_app_l_Some, step_parent_path|].
        by rewrite <- L2, lookup_app_r, Nat.sub_diag.
      * exists es'. rewrite see_other by done. split; [|done]. rewrite lookup_app_l by (rewrite length_insert; apply Hold in Hk; lia).
        by rewrite list_lookup_insert_ne.
    + rewrite see_other by lia. rewrite (r_out _ _ _ _ Hok) by done. split; [apply prefix_nil|]. exists []. split; [|constructor].
      rewrite lookup_app_r, length_insert, L3, Nat.sub_diag by (rewrite length_insert; lia). done.
  - intros k i' [Hk|[-> ->]]%order_snoc.
    + destruct (r_claims _ _ _ _ Hok k i' Hk) as (ps & Hnd' & Hl & Hps). exists ps. split; [done|]. split; [by apply lookup_app_l_Some|].
      intros q. rewrite Hps, claimed_snoc. split; [by left|]. intros [?|[-> _]]; [done|]. by apply list_elem_of_lookup_2 in Hk.
    + exists [path]. split; [apply NoDup_singleton|]. split; [by rewrite <- L4, lookup_app_r, Nat.sub_diag|].
      intros q. rewrite list_elem_of_singleton, claimed_snoc. split; [by right|].
      intros [[[E _]|(k2 & i2 & x & Hk2 & Hin & _)]|[_ ?]]; [rewrite E in Hplt; lia| |done]. by destruct Hnew; eapply seen_in_order.
  - destruct (r_queue _ _ _ _ Hok) as [Hndq Hq]. split.
    + destruct (is_dir (fn_node c)); [|done]. apply NoDup_app. split; [done|]. split; [|apply NoDup_singleton].
      intros k (_ & i' & _ & Hk & _)%Hq ->%list_elem_of_singleton. apply Hold in Hk. lia.
    + intros k Hin. assert (k ∈ rd_queue rd \/ k = length order /\ is_dir (fn_node c) = true) as [Hin'|[-> Hd]].
      { destruct (is_dir (fn_node c)); [|by left]. apply elem_of_app in Hin as [?| ->%list_elem_of_singleton]; auto. }
      * destruct (Hq k Hin') as (? & i' & nd' & ? & ? & ?). split; [done|]. exists i', nd'. split; [by apply lookup_app_l_Some|done].
      * split; [intros [= E]; lia|]. exists j, c. split; [by rewrite lookup_app_r, Nat.sub_diag|done].
  - intros k i' nd' [Hk|[-> ->]]%order_snoc Hi' Hne.
    + rewrite see_other by congruence. rewrite (r_seen _ _ _ _ Hok k i' nd' Hk Hi' Hne). apply Hold in Hk.
      destruct (is_dir (fn_node c)); [|done]. case_bool_decide as Hin; case_bool_decide as Hin'; try done.
      * destruct Hin'. apply elem_of_app. by left.
      * apply elem_of_app in Hin' as [?| ->%list_elem_of_singleton]; [done|lia].
    + rewrite see_other by lia. rewrite (r_out _ _ _ _ Hok) by done. assert (nd' = c) as -> by congruence.
      destruct (is_dir (fn_node c)) eqn:Hd; [rewrite bool_decide_true; [done|apply elem_of_app; right; left]|].
      case_bool_decide; [done|]. destruct (fn_children c) as [|x l] eqn:E; [done|].
      rewrite (flat_child_dir root Hroot nodes home Hf j c x Hj) in Hd; [done|]. rewrite E. left.
  - intros k Hk. rewrite length_app in Hk. simpl in Hk. rewrite see_other by lia. apply (r_out _ _ _ _ Hok). lia.
Qed.

(** A directory is new when it is met. *)
Lemma step_dir_new k' c : order !! k' = Some j -> nodes !! j = Some c -> is_dir (fn_node c) = false.
Proof.
  intros Hk' Hj. destruct (is_dir (fn_node c)) eqn:Hd; [|done]. pose proof (child_not_root i nd name j Hi step_child) as Hj0.
  destruct (r_order _ _ _ _ Hok) as (Hnd & Hlt & H0). destruct (r_paths _ _ _ _ Hok k' j Hk') as (q & _ & _ & H).
  destruct H as (k2 & i2 & name2 & es & Hk2 & Hin & _); [intros ->; congruence|].
  destruct (lookup_lt_is_Some_2 nodes i2) as [nd2 Hi2]; [apply Hlt; by eapply list_elem_of_lookup_2|].
  destruct (r_entries _ _ _ _ Hok k2 i2 nd2 Hk2 Hi2) as ([more E] & _).
  destruct (dir_child_once i i2 nd nd2 name name2 j c Hi Hi2 Hj Hd step_child) as [<- <-]; [rewrite E; apply elem_of_app; by left|].
  assert (k2 = parent) as -> by by eapply NoDup_lookup. by apply step_unseen in Hin.
Qed.

Lemma step_entries : exists es, rd_entries rd !! parent = Some es.
Proof. destruct (r_entries _ _ _ _ Hok parent i nd Hp Hi) as (_ & es & ? & _). by exists es. Qed.

(** One more link fits. *)
Lemma step_occurrences k' c : order !! k' = Some j -> nodes !! j = Some c ->
  exists seen_links, rd_occurrences rd !! k' = Some seen_links /\ checked_add seen_links 1 $"link count overflow" = Ok (seen_links + 1)%Z.
Proof.
  intros Hk' Hj. destruct (r_claims _ _ _ _ Hok k' j Hk') as (qs & Hnd & Hl & Hqs). eexists. split; [exact Hl|].
  destruct (fl_paths _ _ _ Hf j c Hj) as (ps & _ & Hps & El & Hlt & _).
  assert (length (path :: qs) <= length ps) as Hle.
  { apply submseteq_length, NoDup_submseteq; [constructor; [rewrite Hqs; apply step_not_claimed|done]|].
    intros p [->|Hp']%elem_of_cons; apply Hps; [by eapply child_index, step_child|]. apply Hqs in Hp'. by eapply claimed_leads. }
  simpl in Hle. unfold checked_add. by rewrite in_range_u32 by lia.
Qed.
End step.

Lemma read_kind i nd span p : inode_read layouts nodes sb frags refs i nd span p -> pa_kind p = NodeContents_kind (contents (fn_node nd)).
Proof.
  intros H. unfold pa_kind. pose proof (ir_contents _ _ _ _ _ _ _ _ _ H) as Hc. unfold contents_read in Hc.
  destruct (contents (fn_node nd)); [destruct Hc as (? & ? & _ & _ & -> & _)|destruct Hc as (-> & _)..]; done.
Qed.

Lemma kind_dir (n : Node S) : bool_decide (NodeContents_kind (contents n) = KDirectory) = is_dir n.
Proof. unfold is_dir. by destruct (contents n). Qed.

Lemma bool_decide_refl {A} `{EqDecision A} (x : A) : bool_decide (x = x) = true.
Proof. by rewrite bool_decide_true. Qed.

Lemma read_again_spec rd order seen parent i nd name j rest child k' : read_ok rd order seen (Some parent) ->
  order !! parent = Some i -> nodes !! i = Some nd -> fn_children nd = seen parent ++ (name, j) :: rest ->
  child_is refs nodes (name, j) child -> order !! k' = Some j ->
  obtains (read_again parent k' child rd) (fun rd' => read_ok rd' order (see seen parent (name, j)) (Some parent) /\ rd_queue rd' = rd_queue rd).
Proof.
  intros Hok Hp Hi Hes (Hname & Href & Hnum & c & Hj & Hkind) Hk'. simpl in *. unfold read_again.
  pose proof (step_dir_new rd order seen parent i nd name j rest Hok Hp Hi Hes k' c Hk' Hj) as Hd.
  destruct (r_nodes _ _ _ _ Hok k' j c Hk' Hj) as (p & p0 & Hn & Hread & (E1 & E2 & _) & _).
  eapply obtains_bind; [apply obtains_outcome; unfold node_of; by rewrite Hn|]. intros ? ->.
  assert (pa_kind p = NodeContents_kind (contents (fn_node c))) as Hpk.
  { rewrite <- (read_kind j c (spans j) p0 Hread). unfold pa_kind. by rewrite E2. }
  rewrite Hpk, kind_dir, Hd, E1, (ir_number _ _ _ _ _ _ _ _ _ Hread), Hnum, Z.eqb_refl, Hkind, bool_decide_refl. cbn [negb orb].
  destruct (step_occurrences rd order seen parent i nd name j rest Hok Hp Hi Hes k' c Hk' Hj) as (occ & Hocc & Hadd).
  eapply obtains_bind; [apply obtains_outcome; by rewrite Hocc|]. intros ? ->.
  eapply obtains_bind; [by apply obtains_io|]. intros ? ->.
  destruct (r_paths _ _ _ _ Hok k' j Hk') as (q & Hq & _).
  eapply obtains_bind; [apply obtains_outcome; by rewrite Hq|]. intros ? ->.
  destruct (step_entries rd order seen parent i nd Hok Hp Hi) as (es & He).
  eapply obtains_bind; [apply obtains_outcome; unfold push_entry; by rewrite He|]. intros ? ->.
  apply obtains_ret. rewrite Hname. split; [|done]. by eapply again_ok.
Qed.

Lemma order_short order j : NoDup order -> (forall i, i ∈ order -> i < length nodes) -> j < length nodes -> ~ j ∈ order -> length order < length nodes.
Proof.
  intros Hnd Hlt Hj Hn. assert (length (j :: order) <= length (seq 0 (length nodes))) as H.
  { apply submseteq_length, NoDup_submseteq; [by constructor|]. intros x [->|Hx]%elem_of_cons; apply elem_of_seq; [lia|]. specialize (Hlt x Hx). lia. }
  rewrite length_seq in H. simpl in H. lia.
Qed.

Lemma read_new_spec rd order seen parent i nd name j rest child m : read_ok rd order seen (Some parent) ->
  order !! parent = Some i -> nodes !! i = Some nd -> fn_children nd = seen parent ++ (name, j) :: rest ->
  child_is refs nodes (name, j) child -> ~ j ∈ order -> m + 1 <= length order ->
  obtains (read_new inode (Z.of_nat (length nodes)) parent (Z.of_nat i + 1) child rd (Z.of_nat m)) (fun '(rd', subdirs) =>
    read_ok rd' (order ++ [j]) (see seen parent (name, j)) (Some parent) /\ length (rd_queue rd') <= length (rd_queue rd) + 1 /\
    exists c, nodes !! j = Some c /\ subdirs = Z.of_nat (if is_dir (fn_node c) then 1 + m else m)).
Proof.
  intros Hok Hp Hi Hes (Hname & Href & Hnum & c & Hj & Hkind) Hnew Hm. simpl in *. unfold read_new.
  destruct (r_order _ _ _ _ Hok) as (Hnd & Hlt & H0). destruct (r_lengths _ _ _ _ Hok) as (L1 & L2 & L3 & L4).
  pose proof (lookup_lt_Some _ _ _ Hj) as Hjlt. pose proof (order_short order j Hnd Hlt Hjlt Hnew) as Hshort.
  destruct (Z.leb_spec (Z.of_nat (length nodes)) (Z.of_nat (length (rd_nodes rd)))); [lia|].
  eapply obtains_bind; [by apply (Hinode j c)|]. intros p Hread. rewrite (read_kind j c (spans j) p Hread), Hkind, bool_decide_refl, kind_dir.
  rewrite (ir_number _ _ _ _ _ _ _ _ _ Hread), Hnum, Z.eqb_refl. cbn [negb orb].
  assert (BTreeMap_get Z.compare (Z.of_nat j + 1)%Z (rd_numbers rd) = None) as ->.
  { destruct (BTreeMap_get _ _ _) eqn:E; [|done]. apply (r_numbers _ _ _ _ Hok) in E as (i' & Hi' & E). assert (i' = j) as -> by lia. done. }
  cbn [is_known]. rewrite overlaps_false.
  2:{ rewrite (ir_span _ _ _ _ _ _ _ _ _ Hread). simpl. specialize (Hspans j Hjlt). lia. }
  2:{ intros x Hx. destruct (r_spans _ _ _ _ Hok x Hx) as (i' & Hi' & ->). rewrite (ir_span _ _ _ _ _ _ _ _ _ Hread). simpl.
      pose proof (Hlt i' Hi') as Hlt'. pose proof (Hspans i' Hlt'). assert (i' ≠ j) as Hne by (intros ->; done).
      destruct (Hapart i' j Hlt' Hjlt Hne); lia. }
  assert (is_dir (fn_node c) && negb (pa_parent p =? Z.of_nat i + 1)%Z = false) as ->.
  { destruct (is_dir (fn_node c)) eqn:Hd; [|done]. simpl. pose proof (ir_contents _ _ _ _ _ _ _ _ _ Hread) as Hc. unfold contents_read in Hc.
    unfold is_dir in Hd. destruct (contents (fn_node c)) eqn:Ec; try done. destruct Hc as (_ & _ & -> & _).
    rewrite (dir_child_parent i nd name j c Hi Hj); [by rewrite Z.eqb_refl|unfold is_dir; by rewrite Ec|by eapply step_child]. }
  eapply obtains_bind.
  { apply (obtains_outcome _ _ _ _ (Z.of_nat (if is_dir (fn_node c) then 1 + m else m))). destruct (is_dir (fn_node c)); [|done].
    pose proof (fl_count _ _ _ Hf). unfold add_u32. rewrite in_range_u32 by lia. f_equal. lia. }
  intros ? ->. eapply obtains_bind; [apply obtains_outcome; by erewrite step_parent_path|]. intros ? ->.
  destruct (step_entries rd order seen parent i nd Hok Hp Hi) as (es & He).
  eapply obtains_bind; [apply obtains_outcome; unfold push_entry; by rewrite He|]. intros ? ->.
  apply obtains_ret. rewrite Hname. rewrite <- (ir_number _ _ _ _ _ _ _ _ _ Hread). split; [by eapply fresh_ok|]. split; [|by exists c].
  cbn [rd_queue]. destruct (is_dir (fn_node c)); [rewrite length_app; simpl; lia|lia].
Qed.

Lemma count_subdirs_snoc l m name j c : count_subdirs nodes l = Done m -> nodes !! j = Some c ->
  count_subdirs nodes (l ++ [(name, j)]) = Done (if is_dir (fn_node c) then 1 + m else m).
Proof.
  intros Hl Hj. revert m Hl. induction l as [|[x i] l IH]; intros m; simpl.
  - intros [= <-]. rewrite Hj. simpl. unfold is_directory, is_dir. by destruct (contents (fn_node c)).
  - destruct (nodes !! i) as [ci|]; simpl; [|done]. destruct (count_subdirs nodes l) as [m'|]; simpl; [|done]. rewrite (IH m' eq_refl). simpl.
    intros [= <-]. f_equal. by destruct (is_directory ci), (is_dir (fn_node c)).
Qed.

Lemma read_children_spec cs : forall l rd order seen parent i nd m, read_ok rd order seen (Some parent) ->
  order !! parent = Some i -> nodes !! i = Some nd -> fn_children nd = seen parent ++ l -> Forall2 (child_is refs nodes) l cs ->
  count_subdirs nodes (seen parent) = Done m -> m + 1 <= length order ->
  obtains (read_children inode (Z.of_nat (length nodes)) parent (Z.of_nat i + 1) cs rd (Z.of_nat m)) (fun '(rd', subdirs) =>
    exists order' seen' m', read_ok rd' order' seen' (Some parent) /\ order `prefix_of` order' /\ seen' parent = fn_children nd /\
      subdirs = Z.of_nat m' /\ count_subdirs nodes (fn_children nd) = Done m' /\ m' + 1 <= length order' /\
      length (rd_queue rd') + length order <= length order' + length (rd_queue rd)).
Proof.
  induction cs as [|child cs IH]; intros l rd order seen parent i nd m Hok Hp Hi Hes HF Hm Hlen; cbn [read_children].
  - inversion HF; subst. rewrite app_nil_r in Hes. apply obtains_ret. exists order, seen, m. rewrite Hes. split; [done|]. split; [done|].
    split; [done|]. split; [done|]. split; [done|]. split; [done|lia].
  - inversion HF as [|[name j] ? l' ? Hc HF']; subst. pose proof Hc as (_ & Href & _ & c & Hj & _). simpl in Href, Hj.
    assert (forall rd1 order1 m1, read_ok rd1 order1 (see seen parent (name, j)) (Some parent) -> order `prefix_of` order1 ->
      m1 = (if is_dir (fn_node c) then 1 + m else m) -> m1 + 1 <= length order1 ->
      length (rd_queue rd1) + length order <= length order1 + length (rd_queue rd) ->
      obtains (read_children inode (Z.of_nat (length nodes)) parent (Z.of_nat i + 1) cs rd1 (Z.of_nat m1)) (fun '(rd', subdirs) =>
        exists order' seen' m', read_ok rd' order' seen' (Some parent) /\ order `prefix_of` order' /\ seen' parent = fn_children nd /\
          subdirs = Z.of_nat m' /\ count_subdirs nodes (fn_children nd) = Done m' /\ m' + 1 <= length order' /\
          length (rd_queue rd') + length order <= length order' + length (rd_queue rd))) as Hgo.
    { intros rd1 order1 m1 Hok1 Hpre -> Hm1 Hq1. eapply obtains_mono.
      - apply (IH l' rd1 order1 (see seen parent (name, j)) parent i nd _ Hok1); [by eapply prefix_lookup_Some|done|..|done].
        + rewrite see_same, Hes. by rewrite <- app_assoc.
        + done.
        + rewrite see_same. by apply count_subdirs_snoc.
      - intros [rd' subdirs] (order' & seen' & m' & H1 & H2 & H3 & H4 & H5 & H6 & H7). exists order', seen', m'. split; [done|].
        split; [by etrans|]. split; [done|]. split; [done|]. split; [done|]. split; [done|lia]. }
    destruct (BTreeMap_get Z.compare (ch_reference child) (rd_references rd)) as [k'|] eqn:Eg.
    + apply (r_refs _ _ _ _ Hok) in Eg as (j' & Hk' & Hr'). assert (j' = j) as ->.
      { destruct Hrefs as [_ Hndr]. by eapply (NoDup_lookup refs). }
      pose proof (step_dir_new rd order seen parent i nd name j l' Hok Hp Hi Hes k' c Hk' Hj) as Hd.
      eapply obtains_bind.
      { eapply obtains_bind; [by apply (read_again_spec rd order seen parent i nd name j l' child k')|].
        intros rd' Hrd'. apply (obtains_ret _ _ _ _ (fun x => x.2 = Z.of_nat m /\ read_ok x.1 order (see seen parent (name, j)) (Some parent) /\ rd_queue x.1 = rd_queue rd)). done. }
      intros [rd' sd] (E & Hok' & Hq). cbn [fst snd] in *. subst sd. apply (Hgo rd' order); [done|done|by rewrite Hd|done|by rewrite Hq; lia].
    + assert (~ j ∈ order) as Hnew.
      { intros [k' Hk']%list_elem_of_lookup_1. assert (BTreeMap_get Z.compare (ch_reference child) (rd_references rd) = Some k'); [|congruence].
        apply (r_refs _ _ _ _ Hok). by exists j. }
      eapply obtains_bind; [by apply (read_new_spec rd order seen parent i nd name j l' child m)|].
      intros [rd' sd] (Hok' & Hq & c' & Hc' & ->). assert (c' = c) as -> by congruence.
      apply (Hgo rd' (order ++ [j])); [done|by eexists|done|..]; rewrite length_app; simpl; [destruct (is_dir (fn_node c)); lia|lia].
Qed.

(** The start of a directory. *)
Lemma read_ok_start rd order seen parent queue p i nd : read_ok rd order seen None -> rd_queue rd = parent :: queue ->
  order !! parent = Some i -> nodes !! i = Some nd -> rd_nodes rd !! parent = Some (Some p) ->
  read_ok (take_children (with_queue rd queue) parent p) order seen (Some parent).
Proof.
  intros Hok Hq Hp Hi Hn. destruct (r_lengths _ _ _ _ Hok) as (L1 & L2 & L3 & L4). destruct (r_queue _ _ _ _ Hok) as [Hnd Hque].
  rewrite Hq in Hnd. apply NoDup_cons in Hnd as [Hpq Hnd].
  unfold take_children, with_queue. split; cbn [rd_spans rd_numbers rd_references rd_nodes rd_paths rd_entries rd_occurrences rd_queue]; try apply Hok.
  - by rewrite length_insert.
  - intros k i' nd' Hk Hi'. destruct (r_nodes _ _ _ _ Hok k i' nd' Hk Hi') as (p1 & p0 & Hn1 & Hr & Hs & Hin). destruct (decide (k = parent)) as [->|Hne].
    + assert (p1 = p) as -> by congruence. eexists _, p0. rewrite list_lookup_insert_eq by (by eapply lookup_lt_Some). split; [done|]. split; [done|].
      split; [done|]. done.
    + exists p1, p0. rewrite list_lookup_insert_ne by done. split; [done|]. split; [done|]. split; [done|]. intros H. apply Hin. rewrite Hq. by right.
  - split; [done|]. intros k Hk. split; [congruence|]. apply Hque. rewrite Hq. by right.
  - intros k i' nd' Hk Hi' Hne. rewrite (r_seen _ _ _ _ Hok k i' nd' Hk Hi') by done. rewrite Hq.
    case_bool_decide as H1; case_bool_decide as H2; try done; [by apply elem_of_cons in H1 as [->|]|]. destruct H1. by right.
Qed.

(** The end of one. *)
Lemma read_ok_end rd order seen parent i nd : read_ok rd order seen (Some parent) -> order !! parent = Some i -> nodes !! i = Some nd ->
  seen parent = fn_children nd -> read_ok rd order seen None.
Proof.
  intros Hok Hp Hi Hs. destruct (r_queue _ _ _ _ Hok) as [Hnd Hque]. split; try apply Hok.
  - split; [done|]. intros k (_ & ?)%Hque. done.
  - intros k i' nd' Hk Hi' _. destruct (decide (k = parent)) as [->|Hne]; [|by apply (r_seen _ _ _ _ Hok k i'); [..|congruence]].
    rewrite bool_decide_false by (by intros [? _]%Hque). assert (i' = i) as -> by congruence. by assert (nd' = nd) as -> by congruence.
Qed.

Lemma order_bound rd order seen cur : read_ok rd order seen cur -> length order <= length nodes.
Proof.
  intros Hok. destruct (r_order _ _ _ _ Hok) as (Hnd & Hlt & _). rewrite <- (length_seq (length nodes) 0).
  apply submseteq_length, NoDup_submseteq; [done|]. intros x Hx. apply elem_of_seq. specialize (Hlt x Hx). lia.
Qed.

Lemma read_loop_spec fuel : forall rd order seen popped, read_ok rd order seen None -> popped + length (rd_queue rd) <= length order ->
  length nodes < fuel + popped ->
  obtains (read_loop inode (Z.of_nat (length nodes)) fuel rd) (fun rd' => exists order' seen', read_ok rd' order' seen' None /\ rd_queue rd' = []).
Proof.
  induction fuel as [|fuel IH]; intros rd order seen popped Hok Hpop Hfuel; pose proof (order_bound _ _ _ _ Hok) as Hb; [lia|].
  cbn [read_loop]. destruct (rd_queue rd) as [|parent queue] eqn:Hq; [apply obtains_ret; by exists order, seen|].
  destruct (r_queue _ _ _ _ Hok) as [_ Hque]. destruct (Hque parent) as (_ & i & nd & Hp & Hi & Hd); [rewrite Hq; left|].
  destruct (r_nodes _ _ _ _ Hok parent i nd Hp Hi) as (p & p0 & Hn & Hr & Hs & Hsame).
  assert (p = p0) as -> by (apply Hsame; rewrite Hq; left). clear Hsame Hs.
  eapply obtains_bind; [apply obtains_outcome; unfold node_of; by rewrite Hn|]. intros ? ->. rewrite (ir_number _ _ _ _ _ _ _ _ _ Hr).
  pose proof (ir_contents _ _ _ _ _ _ _ _ _ Hr) as Hc. unfold contents_read in Hc. unfold is_dir in Hd.
  destruct (contents (fn_node nd)) eqn:Ec; try done. destruct Hc as (_ & HF & _ & subdirs & Hsub & Hlinks).
  assert (seen parent = []) as Hempty.
  { rewrite (r_seen _ _ _ _ Hok parent i nd Hp Hi) by done. rewrite bool_decide_true; [done|rewrite Hq; left]. }
  eapply obtains_bind.
  { apply (read_children_spec _ (fn_children nd) _ order seen parent i nd 0 (read_ok_start rd order seen parent queue p0 i nd Hok Hq Hp Hi Hn)); try done.
    - by rewrite Hempty.
    - by rewrite Hempty.
    - apply lookup_lt_Some in Hp. lia. }
  intros [rd' sd] (order' & seen' & m' & Hok' & Hpre & Hseen & -> & Hsub' & Hm' & Hgrow). assert (m' = subdirs) as -> by congruence.
  assert (order' !! parent = Some i) as Hp' by by eapply prefix_lookup_Some. cbn [take_children with_queue rd_queue] in Hgrow.
  destruct (r_nodes _ _ _ _ Hok' parent i nd Hp' Hi) as (p' & p0' & Hn' & Hr' & (_ & _ & _ & El & _) & _).
  eapply obtains_bind; [apply obtains_outcome; unfold node_of; by rewrite Hn'|]. intros ? ->.
  pose proof (order_bound _ _ _ _ Hok') as Hb'. pose proof (fl_count _ _ _ Hf) as Hcnt.
  eapply obtains_bind; [apply obtains_outcome; unfold add_u32; by rewrite in_range_u32 by lia|]. intros ? ->.
  assert (pa_links p' = (Z.of_nat subdirs + 2)%Z) as ->.
  { pose proof (ir_contents _ _ _ _ _ _ _ _ _ Hr') as Hc'. unfold contents_read in Hc'. rewrite Ec in Hc'. destruct Hc' as (_ & _ & _ & sd' & Hs' & Hl').
    rewrite El, Hl'. assert (sd' = subdirs) as -> by congruence. lia. }
  rewrite Z.eqb_refl. cbn [negb]. apply (IH rd' order' seen' (1 + popped)); [by eapply read_ok_end|simpl in Hpop; lia|lia].
Qed.

Lemma start_ok nd p r : nodes !! 0 = Some nd -> refs !! 0 = Some r -> root_inode sb = r -> inode_read layouts nodes sb frags refs 0 nd (spans 0) p ->
  read_ok (start_reading sb p) [0] (fun _ => []) None.
Proof.
  intros H0 Hr0 Esb Hread. destruct (root_index nd H0) as [Hh Enode].
  assert (forall k i, [0] !! k = Some i -> k = 0 /\ i = 0) as Hone by (intros k i [-> ->]%list_lookup_singleton_Some; done).
  split; cbn [start_reading rd_spans rd_numbers rd_references rd_nodes rd_paths rd_entries rd_occurrences rd_queue].
  - done.
  - split; [apply NoDup_singleton|]. split; [|done]. intros i ->%list_elem_of_singleton. by eapply lookup_lt_Some.
  - intros k i nd' [-> ->]%Hone Hi. assert (nd' = nd) as -> by congruence. by exists p, p.
  - intros r' k. cbn [BTreeMap_get]. rewrite Esb. split.
    + destruct (is_eq (r' ?= r)%Z) eqn:E; [|done]. apply (is_eq_true Z.compare Z_compare_eq) in E as ->. intros [= <-]. by exists 0.
    + intros (i & [-> ->]%Hone & Hr'). assert (r' = r) as -> by congruence. by rewrite (is_eq_refl Z.compare Z_compare_eq).
  - intros z r'. cbn [BTreeMap_get]. rewrite (ir_number _ _ _ _ _ _ _ _ _ Hread). destruct (is_eq _) eqn:E; [|done].
    apply (is_eq_true Z.compare Z_compare_eq) in E as ->. intros _. exists 0. by split; [left|].
  - intros x ->%list_elem_of_singleton. exists 0. split; [left|]. apply (ir_span _ _ _ _ _ _ _ _ _ Hread).
  - intros k i [-> ->]%Hone. exists []. split; [done|]. split; [rewrite Hh; constructor|done].
  - intros k i nd' [-> ->]%Hone _. split; [apply prefix_nil|]. exists []. by split; [|constructor].
  - intros k i [-> ->]%Hone. exists [[]]. split; [apply NoDup_singleton|]. split; [done|]. intros q. rewrite list_elem_of_singleton. split.
    + intros ->. by left.
    + intros [[_ ?]|(? & ? & ? & _ & Hin & _)]; [done|by apply elem_of_nil in Hin].
  - split; [apply NoDup_singleton|]. intros k ->%list_elem_of_singleton. split; [done|]. exists 0, nd. split; [done|]. split; [done|by rewrite Enode].
  - intros k i nd' [-> ->]%Hone _ _. by rewrite bool_decide_true by left.
  - done.
Qed.

(** ** When all has been read *)

Section complete.
Variables (rd : Reading) (order : list nat) (seen : nat -> list (bytes * nat)).
Hypothesis Hok : read_ok rd order seen None.
Hypothesis Hq : rd_queue rd = [].

Lemma complete_seen k i nd : order !! k = Some i -> nodes !! i = Some nd -> seen k = fn_children nd.
Proof. intros Hk Hi. rewrite (r_seen _ _ _ _ Hok k i nd Hk Hi) by done. by rewrite Hq. Qed.

Lemma complete_order i : i < length nodes -> i ∈ order.
Proof.
  intros [nd Hi]%lookup_lt_is_Some. remember (home i) as p eqn:Ep. revert i nd Hi Ep. induction p as [|name p IH] using rev_ind; intros i nd Hi Ep.
  - destruct some_node as [r Hr]. destruct (root_index r Hr) as [Hh _].
    assert (i = 0) as -> by (apply (fl_inj _ _ _ Hf); [by eapply lookup_lt_Some..|congruence]).
    destruct (r_order _ _ _ _ Hok) as (_ & _ & H0). by eapply list_elem_of_lookup_2.
  - destruct (fl_home _ _ _ Hf i nd Hi) as [Hat _]. rewrite <- Ep in Hat. destruct (at_path_above _ _ _ _ Hat) as [n Hn].
    destruct (fl_onto _ _ _ Hf p n Hn) as (i2 & nd2 & Hi2 & Hp2). pose proof (IH i2 nd2 Hi2 (eq_sym Hp2)) as [k2 Hk2]%list_elem_of_lookup_1.
    assert ((name, i) ∈ seen k2) as Hin.
    { rewrite (complete_seen k2 i2 nd2 Hk2 Hi2). apply (fl_children _ _ _ Hf i2 nd2 name i Hi2). split; [by eapply lookup_lt_Some|].
      rewrite Hp2, Ep. constructor. }
    by eapply seen_in_order.
Qed.

Lemma complete_length : length order = length nodes.
Proof.
  pose proof (order_bound _ _ _ _ Hok) as Hle. assert (length (seq 0 (length nodes)) <= length order) as H.
  { apply submseteq_length, NoDup_submseteq; [apply NoDup_seq|]. intros i [_ Hi]%elem_of_seq. by apply complete_order. }
  rewrite length_seq in H. lia.
Qed.

(** Every path that leads to a node has been found. *)
Lemma complete_claims p k i : order !! k = Some i -> leads_to p i -> claimed order seen p k i.
Proof.
  intros Hk Hl. destruct (lookup_lt_is_Some_2 nodes i) as [nd Hi]; [apply (r_order _ _ _ _ Hok); by eapply list_elem_of_lookup_2|].
  destruct (flat_leads_at root nodes home Hf p i nd Hi Hl) as [e He]. destruct p as [|name p _] using rev_ind.
  - left. split; [|done]. destruct some_node as [r Hr]. destruct (root_index r Hr) as [Hh _]. destruct (r_order _ _ _ _ Hok) as (Hnd & _ & H0).
    assert (i = 0) as -> by (eapply (flat_leads_det root nodes home Hf []); [by eapply lookup_lt_Some..|done|rewrite Hh; constructor]).
    by eapply NoDup_lookup.
  - right. destruct (at_path_above _ _ _ _ He) as [n Hn]. destruct (fl_onto _ _ _ Hf p n Hn) as (i2 & nd2 & Hi2 & <-).
    pose proof (complete_order i2 (lookup_lt_Some _ _ _ Hi2)) as [k2 Hk2]%list_elem_of_lookup_1. exists k2, i2, name. split; [done|]. split; [|done].
    rewrite (complete_seen k2 i2 nd2 Hk2 Hi2). apply (fl_children _ _ _ Hf i2 nd2 name i Hi2). split; [by eapply lookup_lt_Some|done].
Qed.

Lemma complete_occurrences k i nd : order !! k = Some i -> nodes !! i = Some nd -> rd_occurrences rd !! k = Some (fn_links nd).
Proof.
  intros Hk Hi. destruct (r_claims _ _ _ _ Hok k i Hk) as (qs & Hnd & -> & Hqs). destruct (fl_paths _ _ _ Hf i nd Hi) as (ps & Hnd' & Hps & -> & _).
  do 2 f_equal. apply Permutation_length, NoDup_Permutation; [done..|]. intros p. rewrite Hqs, Hps. split; [by eapply claimed_leads|by apply complete_claims].
Qed.

Lemma read_links i nd span p : nodes !! i = Some nd -> is_dir (fn_node nd) = false -> inode_read layouts nodes sb frags refs i nd span p -> pa_links p = fn_links nd.
Proof.
  intros Hi Hd H. pose proof (ir_contents _ _ _ _ _ _ _ _ _ H) as Hc. unfold contents_read in Hc. unfold is_dir in Hd.
  destruct (contents (fn_node nd)); try done; [by destruct Hc as (? & ? & _ & _ & _ & _ & ->)|by destruct Hc as (_ & _ & ->)..].
Qed.

Lemma check_links_spec : forall l k, drop k (rd_nodes rd) = l -> check_links rd k l = Done (Ok tt).
Proof.
  induction l as [|x l IH]; intros k Hl; cbn [check_links]; [done|].
  assert (rd_nodes rd !! k = Some x) as Hx.
  { replace k with (k + 0) by lia. rewrite <- lookup_drop, Hl. done. }
  assert (exists i, order !! k = Some i) as [i Hk].
  { apply lookup_lt_is_Some. destruct (r_lengths _ _ _ _ Hok) as (<- & _). by eapply lookup_lt_Some. }
  destruct (lookup_lt_is_Some_2 nodes i) as [nd Hi]; [apply (r_order _ _ _ _ Hok); by eapply list_elem_of_lookup_2|].
  destruct (r_nodes _ _ _ _ Hok k i nd Hk Hi) as (p & p0 & Hn & Hr & (_ & E2 & _ & E4 & _) & _).
  assert (x = Some p) as -> by congruence. cbn [unwrap outcome_bind]. rewrite (complete_occurrences k i nd Hk Hi). cbn [unwrap outcome_bind].
  replace (pa_kind p) with (pa_kind p0) by (unfold pa_kind; by rewrite E2). rewrite (read_kind i nd (spans i) p0 Hr), kind_dir.
  destruct (is_dir (fn_node nd)) eqn:Hd; simpl.
  - apply (IH (1 + k)). rewrite <- (skipn_skipn 1 k), Hl. done.
  - rewrite E4, (read_links i nd (spans i) p0 Hi Hd Hr), Z.eqb_refl, andb_false_r. apply (IH (1 + k)). rewrite <- (skipn_skipn 1 k), Hl. done.
Qed.
End complete.
End reading.
