(* ===== verification/SquashGrow.v ===== *)
(** * The tree that is read

    The theorems on SquashAssemble.v, second part: from the inodes that were read the tree is put together, and its
    paths lead where those of the tree that was written do. *)
From stdpp Require Import sorting relations.
From S2P Require Import Prelude RustStr BTree SquashFormat SquashBlocks SquashTree SquashData SquashFiles SquashIo SquashImage SquashLoad SquashInode SquashTable SquashEntries SquashInodes SquashFlatten SquashWalk SquashFlat SquashAssemble SquashReading.

Local Open Scope rust_scope.
Local Open Scope poll_scope.

Abbreviation ReadNode := (Node SquashfsFileSource).
Abbreviation ReadEntry := (Entry SquashfsFileSource).

(** ** Trees made of inodes and entries *)

Section assembled.
Variable rd : Reading.

(** The tree below the [k]th inode. *)
Inductive assembled : nat -> ReadNode -> Prop :=
| assembled_leaf k p : rd_nodes rd !! k = Some (Some p) -> is_dir (pa_node p) = false -> assembled k (pa_node p)
| assembled_dir k p es es' : rd_nodes rd !! k = Some (Some p) -> is_dir (pa_node p) = true -> rd_entries rd !! k = Some es ->
    Forall2 assembled_entry es es' -> assembled k (mkNode (SquashTree.metadata (pa_node p)) (NDirectory (mkDir es')))
with assembled_entry : bytes * result nat (list bytes) -> bytes * ReadEntry -> Prop :=
| assembled_node name c t : assembled c t -> assembled_entry (name, Ok c) (name, ENode t)
| assembled_link name q : assembled_entry (name, Err q) (name, EHardlink (path_text q)).

Lemma assembled_names es es' : Forall2 assembled_entry es es' -> map fst es' = map fst es.
Proof. induction 1 as [|x y ? ? H _ IH]; simpl; [done|]. rewrite IH. by destruct H. Qed.

(** The inode is ready to be taken. *)
Definition ready (ns : list (option Parsed)) (c : nat) : Prop := exists p, ns !! c = Some (Some p) /\ assembled c (pa_node p).

Definition ok_targets (es : list (bytes * result nat (list bytes))) : list nat :=
  omap (fun x => match x.2 with Ok c => Some c | Err _ => None end) es.

Lemma insert_entries_spec es : forall done ns, Forall (fun c => ready ns c) (ok_targets es) -> NoDup (ok_targets es) ->
  StronglySorted (keys_lt bytes_cmp) (map fst done ++ map fst es) -> Forall (fun x => name_ok x.1 = true) es ->
  exists es' ns', insert_entries es (mkDir done) ns = Done (Ok (mkDir (done ++ es'), ns')) /\ Forall2 assembled_entry es es' /\
    length ns' = length ns /\ (forall k, ~ k ∈ ok_targets es -> ns' !! k = ns !! k).
Proof.
  induction es as [|[name target] es IH]; intros done ns Hready Hnd Hs Hn; cbn [insert_entries].
  { exists [], ns. rewrite app_nil_r. split; [done|]. split; [constructor|]. done. }
  inversion Hn as [|? ? Hname Hn']; subst. simpl in Hname.
  assert (forall e, DirectoryContents_insert name e (mkDir done) = (mkDir (done ++ [(name, e)]), Ok (DirectoryContents_get name (mkDir done)))) as Hins.
  { intros e. unfold DirectoryContents_insert, validate_name. rewrite Hname. unfold put. cbn [entries]. rewrite map_insert_last; [done|].
    apply Forall_forall. intros [x w] Hx. cbn [map fst] in Hs. cbn [fst]. apply StronglySorted_app_1_elem_of with (x1 := x) (x2 := name) in Hs;
      [|apply list_elem_of_fmap; by exists (x, w)|left]. unfold keys_lt in Hs. by rewrite (cmp_opp bytes_cmp), Hs. }
  assert (forall e, StronglySorted (keys_lt bytes_cmp) (map fst (done ++ [(name, e : ReadEntry)]) ++ map fst es)) as Hs'.
  { intros e. rewrite map_app, <- app_assoc. exact Hs. }
  destruct target as [c|q].
  - cbn [ok_targets omap list_omap snd] in Hready, Hnd. fold (ok_targets es) in Hready, Hnd. apply NoDup_cons in Hnd as [Hc Hnd].
    inversion Hready as [|? ? (p & Hp & Ha) Hready']; subst. rewrite Hp. cbn [mjoin option_join unwrap outcome_bind]. rewrite Hins.
    destruct (IH (done ++ [(name, ENode (pa_node p))]) (<[c := None]> ns)) as (es' & ns' & -> & HF & Hlen & Hout); [|done|done|done|].
    { rewrite Forall_forall in Hready' |- *. intros c' Hc'. destruct (Hready' c' Hc') as (p' & Hp' & Ha'). exists p'.
      rewrite list_lookup_insert_ne by (intros ->; done). done. }
    exists ((name, ENode (pa_node p)) :: es'), ns'. rewrite <- app_assoc. split; [done|]. split; [constructor; [by apply assembled_node|done]|].
    rewrite length_insert in Hlen. split; [done|]. intros k Hk. cbn [ok_targets omap list_omap snd] in Hk. fold (ok_targets es) in Hk.
    apply not_elem_of_cons in Hk as [Hne Hk]. rewrite Hout by done. by rewrite list_lookup_insert_ne.
  - cbn [ok_targets omap list_omap snd outcome_bind] in Hready, Hnd |- *. fold (ok_targets es) in Hready, Hnd |- *. rewrite Hins.
    destruct (IH (done ++ [(name, EHardlink (path_text q))]) ns) as (es' & ns' & -> & HF & Hlen & Hout); [done..|].
    exists ((name, EHardlink (path_text q)) :: es'), ns'. rewrite <- app_assoc. split; [done|]. split; [constructor; [apply assembled_link|done]|done].
Qed.
End assembled.

(** ** After the inodes have been read *)

Section grow.
Context {S : Type} (root : Node S) (nodes : list (FlatNode S)) (home : nat -> list bytes).
Hypothesis Hroot : node_wf root.
Hypothesis Hdir : is_dir root = true.
Hypothesis Hf : flattened root nodes home.
Variables (layouts : list (option FileLayout)) (sb : Superblock) (frags : list Fragment) (refs : list Z) (spans : nat -> nat * nat).
Hypothesis Hrefs : length refs = length nodes /\ NoDup refs.
Variables (rd : Reading) (order : list nat) (seen : nat -> list (bytes * nat)).
Hypothesis Hok : read_ok root nodes home layouts sb frags refs spans rd order seen None.
Hypothesis Hq : rd_queue rd = [].

Abbreviation leads_to p i := (rtc (tree_link root) p (home i)).
Abbreviation read_as i nd p := (inode_read layouts nodes sb frags refs i nd (spans i) p).

(** What is known of the [k]th inode. *)
Lemma grown_node k : k < length order -> exists i nd p p0 es, order !! k = Some i /\ nodes !! i = Some nd /\ rd_nodes rd !! k = Some (Some p) /\
  read_as i nd p0 /\ same_but_children p p0 /\ rd_entries rd !! k = Some es /\ Forall2 (entry_of order (rd_paths rd) k) (fn_children nd) es.
Proof.
  intros [i Hk]%lookup_lt_is_Some. destruct (lookup_lt_is_Some_2 nodes i) as [nd Hi]; [apply (r_order _ _ _ _ _ _ _ _ _ _ _ _ Hok); by eapply list_elem_of_lookup_2|].
  destruct (r_nodes _ _ _ _ _ _ _ _ _ _ _ _ Hok k i nd Hk Hi) as (p & p0 & Hn & Hr & Hs & _).
  destruct (r_entries _ _ _ _ _ _ _ _ _ _ _ _ Hok k i nd Hk Hi) as (_ & es & He & HF).
  rewrite (complete_seen root nodes home layouts sb frags refs spans rd order seen Hok Hq k i nd Hk Hi) in HF.
  exists i, nd, p, p0, es. auto 10.
Qed.

Lemma grown_dir i nd p p0 : read_as i nd p0 -> same_but_children p p0 -> is_dir (pa_node p) = is_dir (fn_node nd) /\
  (is_dir (fn_node nd) = true -> contents (pa_node p) = NDirectory DirectoryContents_new).
Proof.
  intros Hr (_ & -> & _). pose proof (ir_contents _ _ _ _ _ _ _ _ _ Hr) as Hc. unfold contents_read in Hc. unfold is_dir.
  destruct (contents (fn_node nd)); [destruct Hc as (? & ? & _ & _ & -> & _)|destruct Hc as (-> & _)..]; done.
Qed.

(** The path of a directory. *)
Lemma grown_path_dir k i nd : order !! k = Some i -> nodes !! i = Some nd -> is_dir (fn_node nd) = true -> rd_paths rd !! k = Some (home i).
Proof.
  intros Hk Hi Hd. destruct (r_paths _ _ _ _ _ _ _ _ _ _ _ _ Hok k i Hk) as (p & -> & Hl & _). f_equal. by eapply flat_dir_path.
Qed.

(** An inode is the node of one entry. *)
Lemma owner_unique k k' es es' name name' c : rd_entries rd !! k = Some es -> rd_entries rd !! k' = Some es' ->
  (name, Ok c) ∈ es -> (name', Ok c) ∈ es' -> k = k' /\ name = name'.
Proof.
  assert (forall k es name, rd_entries rd !! k = Some es -> (name, Ok c) ∈ es -> exists i nd, order !! k = Some i /\ nodes !! i = Some nd /\
    rd_paths rd !! c = Some (home i ++ [name])) as Hown.
  { intros k1 es1 name1 He [m Hm]%list_elem_of_lookup_1. assert (k1 < length order) as Hk.
    { destruct (r_lengths _ _ _ _ _ _ _ _ _ _ _ _ Hok) as (_ & _ & <- & _). by eapply lookup_lt_Some. }
    destruct (grown_node k1 Hk) as (i & nd & p & p0 & es2 & Hki & Hi & _ & _ & _ & He2 & HF). assert (es2 = es1) as -> by congruence.
    destruct (Forall2_lookup_r _ _ _ _ _ HF Hm) as ([x j] & Hx & E & _ & _ & q & Hq' & Hc). simpl in E, Hc. subst x. exists i, nd.
    split; [done|]. split; [done|]. rewrite (grown_path_dir k1 i nd Hki Hi) in Hq'; [congruence|].
    eapply flat_child_dir; [done..|]. by eapply list_elem_of_lookup_2. }
  intros He He' Hin Hin'. destruct (Hown k es name He Hin) as (i & nd & Hk & Hi & Hp). destruct (Hown k' es' name' He' Hin') as (i' & nd' & Hk' & Hi' & Hp').
  rewrite Hp in Hp'. injection Hp' as Hp'. apply snoc_inj in Hp' as [E ->]. split; [|done].
  assert (i = i') as <- by (apply (fl_inj _ _ _ Hf); [by eapply lookup_lt_Some..|done]).
  destruct (r_order _ _ _ _ _ _ _ _ _ _ _ _ Hok) as (Hnd & _). by eapply NoDup_lookup.
Qed.

Lemma child_name_ok i nd name j : nodes !! i = Some nd -> (name, j) ∈ fn_children nd -> name_ok name = true.
Proof.
  intros Hi Hin. apply (fl_children _ _ _ Hf i nd name j Hi) in Hin as [[c Hj]%lookup_lt_is_Some Hl].
  destruct (flat_leads_at root nodes home Hf _ _ _ Hj Hl) as [e He]. destruct (fl_home _ _ _ Hf i nd Hi) as [Hat _].
  pose proof (at_path_wf root _ _ Hroot Hat) as Hwf. apply (at_path_below root _ _ _ _ Hroot Hat) in He. rewrite entries_of_directory in He by done.
  destruct (as_directory (contents (fn_node nd))) as [d|] eqn:Ed; [|by apply elem_of_nil in He]. destruct (Hwf d Ed) as [es _ Hn _].
  rewrite Forall_forall in Hn. apply Hn, list_elem_of_fmap. by exists (name, e).
Qed.

Lemma elem_of_ok_targets c es : c ∈ ok_targets es <-> exists name, (name, Ok c) ∈ es.
Proof.
  unfold ok_targets. rewrite list_elem_of_omap. split.
  - intros ([name [c'|q]] & Hin & E); [|done]. injection E as ->. by exists name.
  - intros [name Hin]. by exists (name, Ok c).
Qed.

Lemma entries_ok k i nd es : order !! k = Some i -> nodes !! i = Some nd -> rd_entries rd !! k = Some es ->
  Forall2 (entry_of order (rd_paths rd) k) (fn_children nd) es ->
  NoDup (ok_targets es) /\ StronglySorted (keys_lt bytes_cmp) (map fst es) /\ Forall (fun x => name_ok x.1 = true) es /\
  forall c, c ∈ ok_targets es -> k < c < length order.
Proof.
  intros Hk Hi He HF. assert (map fst es = map fst (fn_children nd)) as En.
  { clear -HF. induction HF as [|x y ? ? [E _] _ IH]; simpl; [done|]. by rewrite E, IH. }
  split; [|split; [|split]].
  - pose proof (child_names_nodup root nodes home Hf i nd Hi) as Hnd. rewrite <- En in Hnd.
    assert (forall name name' c, (name, Ok c) ∈ es -> (name', Ok c) ∈ es -> name = name') as Hone by (intros; by eapply (owner_unique k k es es)).
    clear -Hnd Hone. induction es as [|[name [c|q]] es IH]; cbn [ok_targets omap list_omap snd map fst] in *; [constructor|..]; apply NoDup_cons in Hnd as [Hn Hnd].
    + constructor; [|apply IH; [done|]; intros x y z ? ?; apply (Hone x y z); by right].
      intros [name' Hin]%elem_of_ok_targets. assert (name = name') as <- by (apply (Hone name name' c); [left|by right]).
      apply Hn, list_elem_of_fmap. by exists (name, Ok c).
    + apply IH; [done|]. intros x y z ? ?. apply (Hone x y z); by right.
  - rewrite En. by eapply (fl_names _ _ _ Hf).
  - apply Forall_forall. intros y [m Hm]%list_elem_of_lookup_1. destruct (Forall2_lookup_r _ _ _ _ _ HF Hm) as ([x j] & Hx & E & _). simpl in E. rewrite <- E.
    eapply child_name_ok; [exact Hi|]. by eapply list_elem_of_lookup_2.
  - intros c [name [m Hm]%list_elem_of_lookup_1]%elem_of_ok_targets. destruct (Forall2_lookup_r _ _ _ _ _ HF Hm) as (x & _ & _ & Hlt & Ho & _).
    split; [done|by eapply lookup_lt_Some].
Qed.

(** The inodes from [m] on have their entries; those whose directory comes before [m] are still there. *)
Definition grown_from (m : nat) (ns : list (option Parsed)) : Prop :=
  length ns = length order /\ (forall k, k < m -> ns !! k = rd_nodes rd !! k) /\
  forall k, m <= k < length order -> (forall k2 es name, rd_entries rd !! k2 = Some es -> (name, Ok k) ∈ es -> k2 < m) -> ready rd ns k.

Lemma assemble_leaf m ns p : ns !! m = Some (Some p) -> is_dir (pa_node p) = false ->
  assemble_node rd m ns = Done (Ok (<[m := Some p]> (<[m := None]> ns))).
Proof. intros Hm Hd. unfold assemble_node. rewrite Hm. cbn [mjoin option_join unwrap outcome_bind]. unfold is_dir in Hd. by destruct (contents (pa_node p)). Qed.

Lemma assemble_node_spec m ns : m < length order -> grown_from (1 + m) ns ->
  exists ns', assemble_node rd m ns = Done (Ok ns') /\ grown_from m ns'.
Proof.
  intros Hm (Hlen & Hlow & Hhigh). destruct (grown_node m Hm) as (i & nd & p & p0 & es & Hk & Hi & Hn & Hr & Hs & He & HF).
  destruct (grown_dir i nd p p0 Hr Hs) as [Hd Hcont]. assert (ns !! m = Some (Some p)) as Hnm by (rewrite Hlow, Hn by lia; done).
  pose proof (assemble_leaf m ns p Hnm) as Hleaf. rewrite Hd in Hleaf.
  destruct (is_dir (fn_node nd)) eqn:Ed.
  - unfold assemble_node. rewrite Hnm. cbn [mjoin option_join unwrap outcome_bind]. rewrite Hcont by done. rewrite He. cbn [unwrap outcome_bind]. unfold DirectoryContents_new.
    destruct (entries_ok m i nd es Hk Hi He HF) as (Hnd & Hsort & Hnames & Hrange).
    destruct (insert_entries_spec rd es [] (<[m := None]> ns)) as (es' & ns' & -> & HFa & Hl & Hout); [|done|done|done|].
    { apply Forall_forall. intros c Hc. destruct (Hrange c Hc) as [Hlt Hlt']. pose proof Hc as [name Hin]%elem_of_ok_targets.
      destruct (Hhigh c) as (pc & Hpc & Ha); [lia| |exists pc; by rewrite list_lookup_insert_ne by lia].
      intros k2 es2 name2 He2 Hin2. destruct (owner_unique m k2 es es2 name name2 c He He2 Hin Hin2) as [<- _]. lia. }
    cbn [outcome_bind result_bind app]. eexists. split; [done|]. rewrite length_insert in Hl. split; [by rewrite length_insert, Hl|]. split.
    + intros k Hlt. rewrite list_lookup_insert_ne by lia. rewrite Hout; [rewrite list_lookup_insert_ne by lia; apply Hlow; lia|].
      intros Hc%Hrange. lia.
    + intros k [Hge Hlt] Hown. destruct (decide (k = m)) as [->|Hne].
      * eexists. rewrite list_lookup_insert_eq by lia. split; [done|]. cbn [pa_node]. eapply assembled_dir; [done|by rewrite Hd|done|done].
      * destruct (Hhigh k) as (pk & Hpk & Ha); [lia|intros k2 es2 name2 He2 Hin2; specialize (Hown k2 es2 name2 He2 Hin2); lia|].
        exists pk. rewrite list_lookup_insert_ne by done. rewrite Hout; [by rewrite list_lookup_insert_ne by done|].
        intros [name Hin]%elem_of_ok_targets. specialize (Hown m es name He Hin). lia.
  - rewrite Hleaf by done.
    eexists. split; [done|]. split; [by rewrite !length_insert|]. split.
    + intros k Hlt. rewrite !list_lookup_insert_ne by lia. apply Hlow. lia.
    + intros k [Hge Hlt] Hown. destruct (decide (k = m)) as [->|Hne].
      * exists p. rewrite list_lookup_insert_eq by (rewrite length_insert; lia). split; [done|]. by apply assembled_leaf.
      * destruct (Hhigh k) as (pk & Hpk & Ha); [lia|intros k2 es2 name2 He2 Hin2; specialize (Hown k2 es2 name2 He2 Hin2); lia|].
        exists pk. by rewrite !list_lookup_insert_ne by done.
Qed.

Lemma assemble_spec m : forall ns, m <= length order -> grown_from m ns -> exists ns', assemble rd m ns = Done (Ok ns') /\ grown_from 0 ns'.
Proof.
  induction m as [|m IH]; intros ns Hm Hg; cbn [assemble]; [by exists ns|].
  destruct (assemble_node_spec m ns) as (ns' & -> & Hg'); [lia|done|]. cbn [outcome_bind]. apply IH; [lia|done].
Qed.

Lemma order_positive : 0 < length order.
Proof. destruct (r_order _ _ _ _ _ _ _ _ _ _ _ _ Hok) as (_ & _ & H0). by eapply lookup_lt_Some. Qed.

Lemma entries_of_node k es : rd_entries rd !! k = Some es -> exists i nd p p0, order !! k = Some i /\ nodes !! i = Some nd /\
  rd_nodes rd !! k = Some (Some p) /\ read_as i nd p0 /\ same_but_children p p0 /\ Forall2 (entry_of order (rd_paths rd) k) (fn_children nd) es.
Proof.
  intros He. destruct (r_lengths _ _ _ _ _ _ _ _ _ _ _ _ Hok) as (_ & _ & L3 & _).
  destruct (grown_node k) as (i & nd & p & p0 & es' & ? & ? & ? & ? & ? & He' & ?); [rewrite <- L3; by eapply lookup_lt_Some|].
  assert (es' = es) as -> by congruence. by exists i, nd, p, p0.
Qed.

(** The whole tree. *)
Lemma assemble_all : exists ns p, assemble rd (length (rd_nodes rd)) (rd_nodes rd) = Done (Ok ns) /\ ns !! 0 = Some (Some p) /\ assembled rd 0 (pa_node p).
Proof.
  destruct (r_lengths _ _ _ _ _ _ _ _ _ _ _ _ Hok) as (L1 & _). rewrite L1.
  destruct (assemble_spec (length order) (rd_nodes rd)) as (ns & -> & _ & _ & Hg); [done|split; [done|split; [done|lia]]|].
  destruct (Hg 0) as (p & Hp & Ha); [pose proof order_positive; lia| |by exists ns, p].
  intros k2 es name He Hin. destruct (entries_of_node k2 es He) as (i & nd & p & p0 & Hk & Hi & _ & _ & _ & HF).
  destruct (entries_ok k2 i nd es Hk Hi He HF) as (_ & _ & _ & Hr). destruct (Hr 0); [apply elem_of_ok_targets; by exists name|lia].
Qed.

(** ** Where its paths lead *)

(** The tree below an inode, taken apart. *)
Lemma assembled_inv k t : assembled rd k t -> exists i nd p p0 es, order !! k = Some i /\ nodes !! i = Some nd /\ rd_nodes rd !! k = Some (Some p) /\
  read_as i nd p0 /\ same_but_children p p0 /\ rd_entries rd !! k = Some es /\ Forall2 (entry_of order (rd_paths rd) k) (fn_children nd) es /\
  SquashTree.metadata t = SquashTree.metadata (pa_node p) /\
  (is_dir (fn_node nd) = false /\ contents t = contents (pa_node p) /\ entries_of t = [] \/
   is_dir (fn_node nd) = true /\ (exists es', contents t = NDirectory (mkDir es') /\ Forall2 (assembled_entry rd) es es')).
Proof.
  intros Ha. assert (k < length order) as Hk.
  { destruct (r_lengths _ _ _ _ _ _ _ _ _ _ _ _ Hok) as (<- & _). by destruct Ha; eapply lookup_lt_Some. }
  destruct (grown_node k Hk) as (i & nd & p & p0 & es & ? & ? & Hn & Hr & Hs & He & HF). exists i, nd, p, p0, es.
  destruct (grown_dir i nd p p0 Hr Hs) as [Hd _]. do 7 (split; [done|]).
  destruct Ha as [k p' Hp Hdp|k p' es1 es' Hp Hdp He' HFa]; (assert (p' = p) as -> by congruence).
  - split; [done|]. left. split; [congruence|]. split; [done|by apply is_dir_entries].
  - split; [done|]. right. split; [congruence|]. exists es'. split; [done|]. by assert (es1 = es) as -> by congruence.
Qed.

Lemma assembled_entries k t name e : assembled rd k t -> (name, e) ∈ entries_of t -> exists i nd j y, order !! k = Some i /\ nodes !! i = Some nd /\
  rd_paths rd !! k = Some (home i) /\ (name, j) ∈ fn_children nd /\ entry_of order (rd_paths rd) k (name, j) (name, y) /\ assembled_entry rd (name, y) (name, e).
Proof.
  intros Ha Hin. destruct (assembled_inv k t Ha) as (i & nd & p & p0 & es & Hk & Hi & _ & _ & _ & He & HF & _ & H).
  destruct H as [(_ & _ & E)|(Hd & es' & Hc & HFa)]; [rewrite E in Hin; by apply elem_of_nil in Hin|].
  unfold entries_of in Hin. rewrite Hc in Hin. cbn [entries] in Hin. apply list_elem_of_lookup_1 in Hin as [m Hm].
  destruct (Forall2_lookup_r _ _ _ _ _ HFa Hm) as ([name' y] & Hy & Hae). destruct (Forall2_lookup_r _ _ _ _ _ HF Hy) as ([x j] & Hx & Heo).
  assert (name' = name) as -> by by inversion Hae. assert (x = name) as -> by apply Heo. exists i, nd, j, y. split; [done|]. split; [done|].
  split; [by eapply grown_path_dir|]. split; [by eapply list_elem_of_lookup_2|done].
Qed.

(** And the other way round: a child is an entry of the tree. *)
Lemma assembled_child k t i nd name j : assembled rd k t -> order !! k = Some i -> nodes !! i = Some nd -> (name, j) ∈ fn_children nd ->
  exists es y e, rd_entries rd !! k = Some es /\ (name, y) ∈ es /\ entry_of order (rd_paths rd) k (name, j) (name, y) /\ assembled_entry rd (name, y) (name, e) /\ (name, e) ∈ entries_of t.
Proof.
  intros Ha Hk Hi Hin. destruct (assembled_inv k t Ha) as (i' & nd' & p & p0 & es & Hk' & Hi' & _ & _ & _ & He & HF & _ & H).
  assert (i' = i) as -> by congruence. assert (nd' = nd) as -> by congruence.
  destruct H as [(Hd & _)|(Hd & es' & Hc & HFa)]; [by rewrite (flat_child_dir root Hroot nodes home Hf i nd _ Hi Hin) in Hd|].
  apply list_elem_of_lookup_1 in Hin as [m Hm]. destruct (Forall2_lookup_l _ _ _ _ _ HF Hm) as ([x y] & Hy & Heo).
  destruct (Forall2_lookup_l _ _ _ _ _ HFa Hy) as ([x' e] & He' & Hae). assert (x = name) as -> by (symmetry; apply Heo).
  assert (x' = name) as -> by by inversion Hae. exists es, y, e. split; [done|]. split; [by eapply list_elem_of_lookup_2|]. split; [done|]. split; [done|].
  unfold entries_of. rewrite Hc. by eapply list_elem_of_lookup_2.
Qed.

Lemma assembled_wf d : forall k t, length order <= k + d -> assembled rd k t -> node_wf t.
Proof.
  induction d as [|d IH]; intros k t Hd Ha.
  { destruct (assembled_inv k t Ha) as (i & nd & p & p0 & es & Hk & _). apply lookup_lt_Some in Hk. lia. }
  destruct (assembled_inv k t Ha) as (i & nd & p & p0 & es & Hk & Hi & _ & _ & _ & He & HF & _ & H). intros dir Edir.
  destruct H as [(Hnd & Ec & _)|(Hdir' & es' & Hc & HFa)].
  - destruct (assembled_inv k t Ha) as (i' & nd' & p' & p0' & es2 & Hk' & Hi' & _ & Hr & Hs & _ & _ & _ & H). assert (i' = i) as -> by congruence.
    assert (nd' = nd) as -> by congruence. destruct H as [(_ & Ec' & _)|(? & _)]; [|congruence]. destruct (grown_dir i nd p' p0' Hr Hs) as [Hd' _].
    rewrite Ec' in Edir. rewrite Hnd in Hd'. unfold is_dir in Hd'. by destruct (contents (pa_node p')).
  - rewrite Hc in Edir. injection Edir as <-. destruct (entries_ok k i nd es Hk Hi He HF) as (_ & Hs & Hn & _).
    pose proof (assembled_names rd es es' HFa) as En. constructor.
    + unfold BTreeMap_wf. by rewrite En.
    + rewrite En. rewrite Forall_map. exact Hn.
    + intros name e sub Hin Hsub. destruct (assembled_entries k t name e Ha) as (i' & nd' & j & y & _ & _ & _ & _ & Heo & Hae).
      { unfold entries_of. by rewrite Hc. }
      inversion Hae as [? c t' Ht'|]; subst; [|done]. destruct Heo as (_ & Hlt & _). cbn [snd] in Hlt.
      eapply (IH c t' ltac:(lia) Ht'). unfold entry_directory in Hsub. simpl in Hsub. done.
Qed.

Section tree.
Variable t0 : ReadNode.
Hypothesis Ht0 : assembled rd 0 t0.

Lemma t0_wf : node_wf t0.
Proof. by eapply (assembled_wf (length order) 0 t0). Qed.

Lemma root_path : rd_paths rd !! 0 = Some [].
Proof.
  destruct (some_node root nodes home Hf) as [r Hr]. destruct (root_index root nodes home Hdir Hf r Hr) as [Hh Er].
  destruct (r_order _ _ _ _ _ _ _ _ _ _ _ _ Hok) as (_ & _ & H0). rewrite (grown_path_dir 0 0 r H0 Hr); [by rewrite Hh|by rewrite Er].
Qed.

Lemma order_inj k k' i : order !! k = Some i -> order !! k' = Some i -> k = k'.
Proof. destruct (r_order _ _ _ _ _ _ _ _ _ _ _ _ Hok) as (Hnd & _). intros. by eapply NoDup_lookup. Qed.

(** The nodes of the tree are the inodes, at the paths under which they were read. *)
Lemma read_tree_node p t : at_path t0 p = Some (ENode t) -> exists k, rd_paths rd !! k = Some p /\ assembled rd k t.
Proof.
  revert t. induction p as [|name p IH] using rev_ind; intros t Hp.
  - injection Hp as <-. exists 0. split; [apply root_path|done].
  - destruct (at_path_above _ _ _ _ Hp) as [t1 H1]. destruct (IH t1 H1) as (k1 & Hk1 & Ha1). apply (at_path_below t0 p t1) in Hp; [|apply t0_wf|done].
    destruct (assembled_entries k1 t1 name (ENode t) Ha1 Hp) as (i & nd & j & y & _ & _ & _ & _ & (_ & Heo) & Hae).
    inversion Hae as [? c t' Hc|]; subst. cbn [snd] in Heo. destruct Heo as (_ & _ & q & Hq1 & Hc1). exists c. split; [|done]. cbn [fst] in Hc1. congruence.
Qed.

Lemma read_tree_inode k p : rd_paths rd !! k = Some p -> exists t, at_path t0 p = Some (ENode t) /\ assembled rd k t.
Proof.
  revert p. induction k as [k IH] using lt_wf_ind. intros p Hp. destruct (decide (k = 0)) as [->|Hk0].
  { rewrite root_path in Hp. injection Hp as <-. by exists t0. }
  assert (exists i, order !! k = Some i) as [i Hk].
  { apply lookup_lt_is_Some. destruct (r_lengths _ _ _ _ _ _ _ _ _ _ _ _ Hok) as (_ & <- & _). by eapply lookup_lt_Some. }
  destruct (r_paths _ _ _ _ _ _ _ _ _ _ _ _ Hok k i Hk) as (p' & Hp' & _ & H). destruct (H Hk0) as (k2 & i2 & name & es & Hk2 & Hin & -> & He & Hok2).
  assert (p = home i2 ++ [name]) as -> by congruence.
  destruct (entries_of_node k2 es He) as (i2' & nd2 & _ & _ & Hk2' & Hi2 & _ & _ & _ & HF). assert (i2' = i2) as -> by congruence.
  destruct (entries_ok k2 i2 nd2 es Hk2 Hi2 He HF) as (_ & _ & _ & Hr). destruct (Hr k) as [Hlt _]; [apply elem_of_ok_targets; by exists name|].
  rewrite (complete_seen root nodes home layouts sb frags refs spans rd order seen Hok Hq k2 i2 nd2 Hk2 Hi2) in Hin.
  destruct (IH k2 Hlt (home i2)) as (t2 & Ht2 & Ha2); [by eapply grown_path_dir, flat_child_dir|].
  destruct (assembled_child k2 t2 i2 nd2 name i Ha2 Hk2 Hi2 Hin) as (es' & y & e & He' & Hy & Heo & Hae & Hent).
  assert (y = Ok k) as ->.
  { assert (es' = es) as -> by congruence. apply list_elem_of_lookup_1 in Hy as [a Ha]. apply list_elem_of_lookup_1 in Hok2 as [b Hb].
    assert (NoDup (map fst es)) as Hnd by by apply (sorted_NoDup bytes_cmp), (entries_ok k2 i2 nd2 es).
    assert (a = b) as -> by (apply (NoDup_lookup _ a b name Hnd); rewrite list_lookup_fmap; [by rewrite Ha|by rewrite Hb]). congruence. }
  inversion Hae as [? c t Hc|]; subst. exists t. split; [|done]. apply (at_path_below t0 (home i2) t2); [apply t0_wf|done|done].
Qed.

Lemma path_names_ok p e : at_path root p = Some e -> Forall (fun n => name_ok n = true) p.
Proof.
  revert e. induction p as [|name p IH] using rev_ind; intros e Hp; [constructor|]. destruct (at_path_above _ _ _ _ Hp) as [n Hn].
  apply Forall_app. split; [by eapply IH|]. constructor; [|constructor]. pose proof (at_path_wf root p n Hroot Hn) as Hwf.
  apply (at_path_below root p n _ _ Hroot Hn) in Hp. rewrite entries_of_directory in Hp by done.
  destruct (as_directory (contents n)) as [d|] eqn:Ed; [|by apply elem_of_nil in Hp]. destruct (Hwf d Ed) as [es _ HF _].
  rewrite Forall_forall in HF. apply HF, list_elem_of_fmap. by exists (name, e).
Qed.

Lemma read_path_leads k p : rd_paths rd !! k = Some p -> exists i nd, order !! k = Some i /\ nodes !! i = Some nd /\ leads_to p i.
Proof.
  intros Hp. destruct (grown_node k) as (i & nd & _ & _ & _ & Hk & Hi & _).
  { destruct (r_lengths _ _ _ _ _ _ _ _ _ _ _ _ Hok) as (_ & <- & _). by eapply lookup_lt_Some. }
  destruct (r_paths _ _ _ _ _ _ _ _ _ _ _ _ Hok k i Hk) as (p' & Hp' & Hl & _). exists i, nd. split; [done|]. split; [done|]. congruence.
Qed.

Lemma read_path_text k p : rd_paths rd !! k = Some p -> normalize_path (path_text p) = Ok p.
Proof.
  intros (i & nd & _ & Hi & Hl)%read_path_leads. destruct (flat_leads_at root nodes home Hf p i nd Hi Hl) as [e He].
  apply normalize_text. by eapply path_names_ok.
Qed.

(** A hardlink of the tree leads to the path of an inode. *)
Lemma read_tree_link p q : tree_link t0 p q -> exists k i, order !! k = Some i /\ rd_paths rd !! k = Some q /\ leads_to p i.
Proof.
  intros (x & Hp & Hx). destruct p as [|name p _] using rev_ind; [done|]. destruct (at_path_above _ _ _ _ Hp) as [t1 H1].
  destruct (read_tree_node p t1 H1) as (k1 & Hk1 & Ha1). apply (at_path_below t0 p t1) in Hp; [|apply t0_wf|done].
  destruct (assembled_entries k1 t1 name _ Ha1 Hp) as (i & nd & j & y & Hk & Hi & Hpath & Hin & (_ & Heo) & Hae).
  inversion Hae as [|? q' Eq]; subst. cbn [snd] in Heo. destruct Heo as (k' & Hk' & Hq'). exists k', j. cbn [snd] in Hk'. split; [done|].
  rewrite (read_path_text k' q' Hq') in Hx. injection Hx as ->. split; [done|]. assert (p = home i) as -> by congruence.
  by eapply child_index.
Qed.

(** Paths lead to the inode of the node that they led to in the tree that was written. *)
Lemma read_tree_leads p q t : leads t0 p q t -> exists k i, order !! k = Some i /\ rd_paths rd !! k = Some q /\ assembled rd k t /\ leads_to p i.
Proof.
  intros [Hr Hat]. inversion Hr as [? Ea Eb|? q1 ? Hlink Hrest]; subst.
  - destruct (read_tree_node q t Hat) as (k & Hk & Ha). destruct (read_path_leads k q Hk) as (i & nd & ? & ? & ?). by exists k, i.
  - destruct (read_tree_link p q1 Hlink) as (k & i & Hk & Hq1 & Hl). destruct (read_tree_inode k q1 Hq1) as (t' & Ht' & Ha).
    inversion Hrest as [? Ea Eb|? q2 ? (x & Hx & _)]; subst; [|congruence]. exists k, i. assert (t' = t) as -> by congruence. done.
Qed.

Lemma read_tree_found p k i q : order !! k = Some i -> rd_paths rd !! k = Some q -> leads_to p i -> exists t, leads t0 p q t /\ assembled rd k t.
Proof.
  intros Hk Hq' Hl. destruct (read_tree_inode k q Hq') as (t & Ht & Ha). exists t. split; [|done]. split; [|done].
  destruct (complete_claims root nodes home Hdir Hf layouts sb frags refs spans rd order seen Hok Hq p k i Hk Hl) as [[-> ->]|(k2 & i2 & name & Hk2 & Hin & ->)].
  { rewrite root_path in Hq'. injection Hq' as <-. constructor. }
  destruct (grown_node k2 (lookup_lt_Some _ _ _ Hk2)) as (i2' & nd2 & _ & _ & _ & Hk2' & Hi2 & _). assert (i2' = i2) as -> by congruence.
  rewrite (complete_seen root nodes home layouts sb frags refs spans rd order seen Hok Hq k2 i2 nd2 Hk2 Hi2) in Hin.
  destruct (read_tree_inode k2 (home i2)) as (t2 & Ht2 & Ha2); [by eapply grown_path_dir, flat_child_dir|].
  destruct (assembled_child k2 t2 i2 nd2 name i Ha2 Hk2 Hi2 Hin) as (es' & y & e & He' & Hy & (_ & Heo) & Hae & Hent). cbn [fst snd] in Heo.
  inversion Hae as [? c t' Hc|? q' Eq]; subst.
  - destruct Heo as (_ & Hc' & q0 & Hq0 & Hcq). rewrite (order_inj c k i Hc' Hk) in Hcq.
    rewrite (grown_path_dir k2 i2 nd2 Hk2 Hi2) in Hq0 by by eapply flat_child_dir.
    assert (q = home i2 ++ [name]) as -> by congruence. constructor.
  - destruct Heo as (k' & Hk' & Hpath). rewrite (order_inj k' k i Hk' Hk) in Hpath. assert (q' = q) as -> by congruence.
    eapply rtc_l; [|constructor]. exists (path_text q). split; [|by eapply read_path_text].
    apply (at_path_below t0 (home i2) t2); [apply t0_wf|done|done].
Qed.

(** The source of a file and what is read for it: the file of its layout. *)
Definition file_read (source : S) (f : SquashfsFileSource) : Prop :=
  exists i nd l, nodes !! i = Some nd /\ contents (fn_node nd) = NFile source /\ layout_of layouts i = Done l /\
    inode_file sb frags (layout_inode l 1 0) (fl_blocks l) = Ok f.

Lemma assembled_alike k t i nd : assembled rd k t -> order !! k = Some i -> nodes !! i = Some nd -> node_alike file_read (fn_node nd) t.
Proof.
  intros Ha Hk Hi. destruct (assembled_inv k t Ha) as (i' & nd' & p & p0 & es & Hk' & Hi' & _ & Hr & (_ & E2 & _) & _ & _ & Em & H).
  assert (i' = i) as -> by congruence. assert (nd' = nd) as -> by congruence. split.
  - by rewrite Em, E2, (ir_metadata _ _ _ _ _ _ _ _ _ Hr).
  - pose proof (ir_contents _ _ _ _ _ _ _ _ _ Hr) as Hc. rewrite <- E2 in Hc. unfold contents_read in Hc. unfold is_dir in H.
    destruct H as [(Hd & -> & _)|(Hd & es' & -> & _)].
    + destruct (contents (fn_node nd)) eqn:Ec; try done; [|by destruct Hc as (-> & _)..].
      destruct Hc as (l & f & Hl & Hfile & -> & _). by exists i, nd, l.
    + by destruct (contents (fn_node nd)).
Qed.

(** The tree that is read is like the one that was written. *)
Lemma read_tree_alike : alike file_read root t0.
Proof.
  split.
  - intros p p'. rewrite (same_node_iff root nodes home Hf). split.
    + intros (i & nd & Hi & H1 & H2).
      pose proof (complete_order root nodes home Hdir Hf layouts sb frags refs spans rd order seen Hok Hq i (lookup_lt_Some _ _ _ Hi)) as [k Hk]%list_elem_of_lookup_1.
      destruct (r_paths _ _ _ _ _ _ _ _ _ _ _ _ Hok k i Hk) as (q & Hq' & _). destruct (read_tree_found p k i q Hk Hq' H1) as (t & Ht & _).
      destruct (read_tree_found p' k i q Hk Hq' H2) as (t' & Ht' & _). exists q, t. split; [done|]. destruct Ht as [_ E], Ht' as [Hr E']. by split.
    + intros (q & t & H1 & H2). destruct (read_tree_leads p q t H1) as (k & i & Hk & Hq1 & _ & Hl1). destruct (read_tree_leads p' q t H2) as (k' & i' & Hk' & Hq2 & _ & Hl2).
      destruct (read_path_leads k q Hq1) as (i1 & nd & Hk1 & Hi & Hlq). assert (i1 = i) as -> by congruence.
      destruct (read_path_leads k' q Hq2) as (i2 & nd' & Hk2 & Hi' & Hlq'). assert (i2 = i') as -> by congruence.
      assert (i = i') as <- by (eapply (flat_leads_det root nodes home Hf q); [by eapply lookup_lt_Some..|done|done]). by exists i, nd.
  - intros p q n q' n' Hn Hn'. destruct (read_tree_leads p q' n' Hn') as (k & i & Hk & _ & Ha & Hl).
    destruct (grown_node k (lookup_lt_Some _ _ _ Hk)) as (i' & nd & _ & _ & _ & Hk' & Hi & _). assert (i' = i) as -> by congruence.
    destruct (fl_home _ _ _ Hf i nd Hi) as [Hat _]. destruct (leads_det root p q n (home i) (fn_node nd) Hn) as [_ ->]; [by split|].
    by eapply assembled_alike.
Qed.
End tree.
End grow.
