(* ===== verification/SquashSerialize.v ===== *)
(** * Writing a whole image

    [shared-libs/crates/start-core/src/util/squashfs/write.rs], [Squashfs::serialize]: the tree is flattened, the data of
    its files, its inodes, the tables and at last the superblock are written.

    The output is a sink from the position at which the image begins; [stream_position] and [seek] are answers of the
    output without bytes.  The loop over the files is [write_files] of SquashData.v, whose layouts are then put at
    the indices of their nodes. *)
From S2P Require Import Prelude RustStr BTree SquashFormat SquashBlocks SquashTree SquashData SquashFiles SquashIo SquashImage SquashLoad SquashInode SquashFlatten.

Local Open Scope rust_scope.
Local Open Scope poll_scope.

Section Serialize.
Context `{ZS : Zstd} `{B : Blake3} {S : Type} `{FileSource S}.

Definition lift_res {T A} (r : res A) : M T A := fun s => (s, r).

(** A computation of a [DataWriter] of its own on the output. *)
Definition with_data {A} (o : Options) (m : D A) : M Sink (A * DataWriter) := fun s =>
  match m (DataWriter_new o, s) with
  | ((d, s'), Ready x) => (s', Ready (x, d))
  | ((_, s'), Fail e) => (s', Fail e)
  | ((_, s'), Pending) => (s', Pending)
  | ((_, s'), Panics) => (s', Panics)
  end.

Definition file_source (n : FlatNode S) : option S := match contents (fn_node n) with NFile source => Some source | _ => None end.

Definition file_sources (nodes : list (FlatNode S)) : list S := omap file_source nodes.

(** [layouts\[index\] = Some(layout)] for the nodes that are files. *)
Fixpoint place_layouts (nodes : list (FlatNode S)) (layouts : list FileLayout) : list (option FileLayout) :=
  match nodes with
  | [] => []
  | n :: rest =>
      match file_source n, layouts with
      | Some _, l :: layouts' => Some l :: place_layouts rest layouts'
      | _, _ => None :: place_layouts rest layouts
      end
  end.

Definition serialize_image (o : Options) (nodes : list (FlatNode S)) : M Sink Superblock :=
  let> (layouts, data) := with_data o (image_data o (file_sources nodes)) in
  let> new := lift_io (InodeTables_new nodes (compression_level o)) in
  let> (_, tables) := run (write_inodes (place_layouts nodes layouts) nodes) new in
  write_image o (length nodes) (fragments data) tables.

Definition Squashfs_serialize (s : Squashfs S) : M Sink unit :=
  let> nodes := lift_res (flatten (root s)) in
  sink_seek ;>
  let> _ := serialize_image (options s) nodes in
  m_ret tt.
End Serialize.
