(* ===== verification/SquashRoundtrip.v ===== *)
(** * The round trip of whole images

    What [Squashfs::serialize] writes of a tree, [Squashfs::deserialize] reads as a tree with the same paths, links,
    metadata and contents. *)
From stdpp Require Import sorting relations.
From S2P Require Import Prelude RustStr BTree SquashFormat SquashBlocks SquashTree SquashData SquashFiles SquashIo SquashImage SquashLoad SquashInode SquashTable SquashEntries SquashInodes SquashFlatten SquashWalk SquashFlat SquashAssemble SquashReading SquashGrow SquashSerialize.

Local Open Scope rust_scope.
Local Open Scope poll_scope.

(** ** Layouts *)

Section layouts.
Context `{ZS : Zstd} `{!ZstdOk ZS} {S : Type}.

(** The encoded size of a block is a [u32]. *)
Lemma stored_u32 lv img pos enc c : (Z.of_nat (length c) < 2 ^ 24)%Z -> stored lv img pos enc c -> in_range u32 enc = true.
Proof.
  intros Hc Hst. destruct (stored_readable lv img pos enc c Hc Hst) as [_ Hhigh _ _ _]. assert (0 <= enc)%Z as Hnn.
  { destruct Hst as (_ & _ & e & _ & -> & _). apply Z.lor_nonneg. split; [lia|]. by destruct (eb_compressed e). }
  change (Z.lor UNCOMPRESSED_DATA (UNCOMPRESSED_DATA - 1)) with (Z.ones 25) in Hhigh. rewrite Z.ldiff_ones_r in Hhigh by lia.
  rewrite Z.shiftl_mul_pow2, Z.shiftr_div_pow2 in Hhigh by lia. change (2 ^ 25)%Z with 33554432%Z in Hhigh. apply in_range_u32. Z.to_euclidean_division_equations. lia.
Qed.

(** What a layout says fits its inode, when the image does and the file is not larger than any file can be. *)
Lemma layout_disk lv bs img fcs l c : layout_ok lv bs img fcs l c -> (Z.of_nat (length img) < 2 ^ 64)%Z -> (Z.of_nat (length c) < 2 ^ 63)%Z ->
  (Z.of_nat bs < 2 ^ 24)%Z -> Forall (fun fc => length fc <= bs) fcs -> (Z.of_nat (length fcs) <= 2 ^ 32)%Z ->
  disk_ok (layout_inode l 1 0) = true /\ Forall (fun z => in_range u32 z = true) (fl_blocks l).
Proof.
  intros (Hs & Hsp & pos & cs & last & stop & Hb & Hp & Hst & Hc & Hla & Hbs & Hf) H64 H63 H24 Hfc H32. split.
  - assert (pos <= stop) as Hle by (clear -Hbs; induction Hbs; lia).
    assert (in_range u32 (fl_fragment l) = true /\ in_range u32 (fl_offset l) = true) as [Hfr Hof].
    { destruct Hf as [(_ & -> & ->)|(Hne & index & offset & -> & -> & fc & Hi & Ho & _)]; [done|].
      rewrite Forall_forall in Hfc. pose proof (Hfc fc (list_elem_of_lookup_2 _ _ _ Hi)). apply lookup_lt_Some in Hi. split; apply in_range_u32; lia. }
    unfold disk_ok, layout_inode. cbn [layout tuple_ok to_tuple FileInode_disk fi_block fi_size fi_sparse fi_links fi_fragment fi_offset fi_xattr].
    rewrite Hfr, Hof. assert (forall z, (0 <= z < 2 ^ 64)%Z -> in_range u64 z = true) as Hr by (intros z Hz; unfold in_range; lia).
    rewrite !Hr by lia. done.
  - clear -Hbs H24 ZstdOk0. induction Hbs as [pos|pos sizes cs stop _ IH|pos enc c n sizes cs stop Hl Hst _ _ IH]; constructor; try done.
    by apply (stored_u32 lv img pos enc c ltac:(lia)).
Qed.

(** The layout of a file is at the index of its node. *)
Lemma place_layouts_lookup (nodes : list (FlatNode S)) : forall (layouts : list FileLayout) i nd source, length layouts = length (file_sources nodes) ->
  nodes !! i = Some nd -> file_source nd = Some source ->
  exists m l, file_sources nodes !! m = Some source /\ layouts !! m = Some l /\ layout_of (place_layouts nodes layouts) i = Done l.
Proof.
  unfold file_sources. induction nodes as [|n nodes IH]; intros layouts i nd source Hl Hi Hs; [done|]. cbn [omap list_omap place_layouts] in Hl |- *.
  destruct (file_source n) as [x|] eqn:En.
  - destruct layouts as [|l layouts]; [done|]. destruct i as [|i]; cbn [lookup list_lookup] in Hi.
    + injection Hi as ->. exists 0, l. by assert (x = source) as -> by congruence.
    + destruct (IH layouts i nd source) as (m & l' & H1 & H2 & H3); [simpl in Hl; lia|done|done|]. by exists (1 + m), l'.
  - destruct i as [|i]; cbn [lookup list_lookup] in Hi; [congruence|]. destruct (IH layouts i nd source Hl Hi Hs) as (m & l' & H1 & H2 & H3). by exists m, l'.
Qed.
End layouts.

(** ** Flat nodes can be written *)

Lemma sorted_lookup {A} (R : A -> A -> Prop) l i j x y : StronglySorted R l -> l !! i = Some x -> l !! j = Some y -> i < j -> R x y.
Proof.
  intros Hs. revert i j. induction Hs as [|z l _ IH HF]; intros [|i] [|j] Hi Hj Hlt; try done; try lia.
  - injection Hi as <-. rewrite Forall_forall in HF. apply HF. by eapply list_elem_of_lookup_2.
  - apply (IH i j); [done|done|lia].
Qed.

Section typed.
Context {S : Type}.

(** What the types of the fields of a node say: [u16], [u32] and [BTreeMap]. *)
Record node_typed (n : Node S) : Prop := {
  nt_mode : in_range u16 (mode (SquashTree.metadata n)) = true;
  nt_owner : in_range u32 (uid (SquashTree.metadata n)) = true /\ in_range u32 (gid (SquashTree.metadata n)) = true;
  nt_time : in_range u32 (modification_time (SquashTree.metadata n)) = true;
  nt_xattrs : BTreeMap_wf bytes_cmp (SquashTree.xattrs (SquashTree.metadata n));
  nt_device : match contents n with
              | NBlockDevice d | NCharacterDevice d => in_range u32 (major d) = true /\ in_range u32 (minor d) = true
              | _ => True
              end;
}.

Definition tree_typed (root : Node S) : Prop := forall p n, at_path root p = Some (ENode n) -> node_typed n.

Lemma mode_small (n : Node S) : node_typed n -> bad_mode n = false -> (0 <= mode (SquashTree.metadata n) < 2 ^ 12)%Z.
Proof.
  intros Ht Hb. pose proof (nt_mode _ Ht) as Hm. unfold in_range in Hm. unfold bad_mode in Hb.
  destruct (Z.eqb_spec (Z.ldiff (mode (SquashTree.metadata n)) 0xfff) 0) as [E|]; [|done]. change 0xfff%Z with (Z.ones 12) in E.
  rewrite Z.ldiff_ones_r, Z.shiftl_mul_pow2, Z.shiftr_div_pow2 in E by lia. change (2 ^ 12)%Z with 4096%Z in *. Z.to_euclidean_division_equations. lia.
Qed.

Variables (root : Node S) (nodes : list (FlatNode S)) (home : nat -> list bytes) (layouts : list (option FileLayout)).
Hypothesis Hroot : node_wf root.
Hypothesis Hdir : is_dir root = true.
Hypothesis Hf : flattened root nodes home.
Hypothesis Htyped : tree_typed root.
Hypothesis Hlayouts : forall i nd source, nodes !! i = Some nd -> file_source nd = Some source ->
  exists l, layout_of layouts i = Done l.

(** A node whose path is longer comes later. *)
Lemma flat_after i j a b name : nodes !! i = Some a -> nodes !! j = Some b -> fn_path b = fn_path a ++ [name] -> i < j.
Proof.
  intros Hi Hj E. destruct (Nat.lt_trichotomy i j) as [|[->|Hlt]]; [done|..].
  - assert (a = b) as -> by congruence. apply (f_equal length) in E. rewrite length_app in E. simpl in E. lia.
  - assert (keys_lt path_cmp (fn_path b) (fn_path a)) as Hlt'.
    { apply (sorted_lookup _ (map fn_path nodes) j i); [apply (fl_sorted _ _ _ Hf)|by rewrite list_lookup_fmap, Hj|by rewrite list_lookup_fmap, Hi|done]. }
    unfold keys_lt in Hlt'. rewrite (cmp_opp path_cmp), E, path_cmp_prefix in Hlt'. done.
Qed.

Lemma flat_ok_flattened : flat_ok layouts nodes.
Proof.
  split; [destruct (some_node root nodes home Hf) as [r Hr]; by eapply lookup_lt_Some|]. split; [apply (fl_count _ _ _ Hf)|]. intros i nd Hi.
  destruct (fl_home _ _ _ Hf i nd Hi) as [Hat Hmode]. pose proof (Htyped _ _ Hat) as Ht. split.
  - by apply mode_small.
  - apply (nt_owner _ Ht).
  - apply (nt_time _ Ht).
  - apply (nt_xattrs _ Ht).
  - destruct (fl_paths _ _ _ Hf i nd Hi) as (ps & _ & _ & -> & ? & Hin & _). destruct ps; [by apply elem_of_nil in Hin|]. simpl length in *. lia.
  - apply (fl_parent _ _ _ Hf i nd Hi).
  - split; [by eapply (fl_names _ _ _ Hf)|]. apply Forall_forall. intros [name j] Hin. by eapply child_name_ok.
  - apply Forall_forall. intros [name j] Hin. destruct (child_index root nodes home Hf i nd name j Hi Hin) as (Hl & c & Hj). exists c. split; [done|]. simpl.
    intros Hd. change (is_dir (fn_node c) = true) in Hd. pose proof (flat_child_dir root Hroot nodes home Hf i nd _ Hi Hin) as Hid.
    eapply (flat_dir_path root nodes home Hf j c) in Hl; [|done..].
    rewrite (flat_dir_home root nodes home Hf j c Hj Hd), (flat_dir_home root nodes home Hf i nd Hi Hid) in Hl. by eapply flat_after.
  - pose proof (nt_device _ Ht) as Hdev. pose proof (Hlayouts i nd) as Hlay. unfold file_source in Hlay. unfold in_range in Hdev.
    destruct (contents (fn_node nd)) as [source| | |d|d| |]; try done; [by apply (Hlay source)|lia..].
Qed.
End typed.

(** ** Reading an image *)

Section read.
Context `{ZS : Zstd} `{!ZstdOk ZS} {S : Type}.
Variables (root : Node S) (o : Options) (layouts : list (option FileLayout)) (nodes : list (FlatNode S)) (home : nat -> list bytes) (frags : list Fragment).
Let lv := compression_level o.
Hypothesis Hroot : node_wf root.
Hypothesis Hdir : is_dir root = true.
Hypothesis Hf : flattened root nodes home.
Hypothesis Hflat : flat_ok layouts nodes.

Variables (t0 t : InodeTables) (T : Contents) (spans : nat -> nat * nat) (written : list nat) (sb : Superblock) (a : Archived).
Hypothesis Ht0 : InodeTables_new nodes lv = Ok t0.
Hypothesis Ht : tables_have lv (ids t0) t T.
Hypothesis Hbuilt : built lv (ids t0) layouts nodes T spans written.
Hypothesis Hall : forall i, i < length nodes -> i ∈ written.
Hypothesis Harch : archived o (length nodes) frags t sb a.
Hypothesis Hin : image_inputs o frags sb.
Hypothesis Hfiles : files_ok layouts nodes sb frags.

Lemma span_written i : i < length nodes -> exists nd, nodes !! i = Some nd /\ inode_written lv (ids t0) layouts nodes T (spans i) i nd.
Proof. intros [nd Hi]%lookup_lt_is_Some. exists nd. split; [done|]. by apply (all_written o layouts nodes t0 T spans written). Qed.

Lemma span_nonempty i : i < length nodes -> (spans i).1 < (spans i).2.
Proof.
  intros Hi. destruct (span_written i Hi) as (nd & _ & before & ref & u & g & xattr & body & -> & _). cbn [fst snd].
  rewrite !length_app, serialize_length. change (SIZE InodeHeader) with 16. lia.
Qed.

Lemma span_apart i j : i < length nodes -> j < length nodes -> i ≠ j -> (spans i).2 <= (spans j).1 \/ (spans j).2 <= (spans i).1.
Proof. intros Hi Hj. apply (bt_spans _ _ _ _ _ _ _ Hbuilt); auto. Qed.

(** Different inodes have different references. *)
Lemma references_distinct im : image_has lv (ids t0) (length nodes) (archive a) im T -> length (c_references T) = length nodes /\ NoDup (c_references T).
Proof.
  intros Him. pose proof (bt_references _ _ _ _ _ _ _ Hbuilt) as Hlen. split; [done|].
  assert (forall i r, c_references T !! i = Some r -> exists before : bytes, (spans i).1 = length before /\
    exists logical, BTreeMap_get Z.compare (inode_table (superblock im) + Z.shiftr r 16)%Z (inode_map im) = Some logical /\
      (logical + Z.land r 0xffff)%Z = Z.of_nat (length before)) as Hloc.
  { intros i r Hr. destruct (span_written i) as (nd & Hi & before & ref & u & g & xattr & body & -> & Hr' & Href & [rest Hp] & _).
    { rewrite <- Hlen. by eapply lookup_lt_Some. }
    assert (ref = r) as -> by congruence. exists before. split; [done|]. pose proof (ih_inodes _ _ _ _ _ _ Him) as Htab. rewrite Hp, <- app_assoc in Htab.
    destruct (table_reference_at lv (archive a) (reported a) (faulty a) (superblock im) _ _ _ _ _ r Htab) as [_ Hlog]; [|done|done].
    intros E. apply (f_equal length) in E. rewrite !length_app, serialize_length in E. change (SIZE InodeHeader) with 16 in E. simpl in E. lia. }
  apply NoDup_alt. intros i j r Hi Hj. destruct (decide (i = j)) as [|Hne]; [done|].
  destruct (Hloc i r Hi) as (bi & Ei & li & Hli & Hbi). destruct (Hloc j r Hj) as (bj & Ej & lj & Hlj & Hbj).
  assert (li = lj) as -> by congruence. apply lookup_lt_Some in Hi, Hj. rewrite Hlen in Hi, Hj.
  pose proof (span_nonempty i Hi). pose proof (span_nonempty j Hj). destruct (span_apart i j Hi Hj Hne); lia.
Qed.

Lemma written_superblock : exists new more, Superblock_new (o_block_size o) (o_modification_time o) = Done new /\ c_references T !! 0 = Some (root_inode sb) /\
  inode_count sb = Z.of_nat (length nodes) /\ sb_modification_time sb = o_modification_time o /\ block_size sb = o_block_size o /\
  (more = 0%Z \/ more = NO_XATTRS) /\ flags sb = Z.lor (Z.lor (Z.lor EXPORTABLE ALWAYS_FRAGMENTS) more) (if deduplicate o then DEDUPLICATED else 0).
Proof.
  destruct (tables_have_ok o (ids t0) t T Ht) as (had & Htok & _). pose proof Harch as (s & s' & extra & Hs & E & _).
  assert (references t ≠ []) as Hrefs.
  { intros Er. pose proof (bt_references _ _ _ _ _ _ _ Hbuilt) as Hl. rewrite <- (th_references _ _ _ _ Ht), Er in Hl. destruct Hflat as (? & _). simpl in Hl. lia. }
  destruct (write_image_spec o (length nodes) frags t had s s' sb (ii_block_size _ _ _ Hin) Htok Hrefs Hs E) as (x & Hta & _).
  destruct (ta_new _ _ _ _ _ _ _ _ _ Hta) as (new & Hnew & _ & Hmt & Hbs & _). destruct (ta_flags _ _ _ _ _ _ _ _ _ Hta) as (more & Hmore & Hfl).
  exists new, more. split; [done|]. rewrite <- (th_references _ _ _ _ Ht). split; [apply (ta_root _ _ _ _ _ _ _ _ _ Hta)|].
  split; [rewrite (proj1 (ta_counts _ _ _ _ _ _ _ _ _ Hta)); pose proof (fl_count _ _ _ Hf); apply Z.mod_small; lia|].
  unfold Superblock_new in Hnew. destruct (ilog2 (o_block_size o)); [|done]. injection Hnew as <-. done.
Qed.

Lemma deserialize_spec : obtains (archive a) (reported a) (faulty a) deserialize (fun s =>
  alike (file_read nodes layouts sb frags) root (SquashTree.root s) /\
  options s = mkOptions (o_block_size o) 3 (o_modification_time o) (deduplicate o)).
Proof.
  destruct written_superblock as (new & more & Hnew & Hroot0 & Hcount & Hmt & Hbs & Hmore & Hfl).
  destruct (some_node root nodes home Hf) as [r Hr]. destruct (root_index root nodes home Hdir Hf r Hr) as [Hh Er].
  unfold deserialize. eapply obtains_bind; [by apply (image_has_loaded o layouts nodes frags Hflat t0 t T spans written sb a)|].
  intros im (Esb & Efr & Him). rewrite Esb. pose proof (references_distinct im Him) as Hrefs.
  assert (forall i nd ref, nodes !! i = Some nd -> c_references T !! i = Some ref ->
    obtains (archive a) (reported a) (faulty a) (Image_inode im ref) (inode_read layouts nodes sb frags (c_references T) i nd (spans i))) as Hinode.
  { intros i nd ref Hi Href. rewrite <- Esb, <- Efr. rewrite <- Esb, <- Efr in Hfiles.
    apply (Image_inode_spec lv (ids t0) layouts nodes Hflat (archive a) (reported a) (faulty a) im T Him Hfiles i nd (spans i) ref Hi); [|done].
    by apply (all_written o layouts nodes t0 T spans written). }
  eapply obtains_bind; [by apply (Hinode 0 r)|]. intros p Hp.
  rewrite (read_kind nodes layouts sb frags (c_references T) 0 r (spans 0) p Hp), kind_dir, Er, Hdir. cbn [negb].
  assert (pa_parent p = (inode_count sb + 1)%Z) as ->.
  { pose proof (ir_contents _ _ _ _ _ _ _ _ _ Hp) as Hc. unfold contents_read in Hc. rewrite Er in Hc. unfold is_dir in Hdir.
    destruct (contents root); try done. destruct Hc as (_ & _ & -> & _). by rewrite Hcount. }
  rewrite Z.eqb_refl. cbn [negb]. rewrite Hcount, Nat2Z.id. eapply obtains_bind.
  { eapply (read_loop_spec root nodes home Hroot Hdir Hf layouts sb frags (c_references T) spans Hrefs span_nonempty span_apart _ _ _ (Image_inode im) Hinode
      (1 + length nodes) (start_reading sb p) [0] (fun _ => []) 0); [|simpl; lia|lia].
    by apply (start_ok root nodes home Hdir Hf layouts sb frags (c_references T) spans r p (root_inode sb)). }
  intros rd (order & seen & Hok & Hq). pose proof (complete_length root nodes home Hdir Hf layouts sb frags (c_references T) spans Hrefs rd order seen Hok Hq) as Hol.
  destruct (r_lengths _ _ _ _ _ _ _ _ _ _ _ _ Hok) as (L1 & _). rewrite L1, Hol, Z.eqb_refl. cbn [negb].
  eapply obtains_bind; [by apply obtains_outcome, (check_links_spec root nodes home Hdir Hf layouts sb frags (c_references T) spans Hrefs rd order seen Hok Hq)|].
  intros ? ->. eapply obtains_bind; [by apply obtains_io|]. intros ? ->.
  destruct (assemble_all root nodes home Hroot Hf layouts sb frags (c_references T) spans Hrefs rd order seen Hok Hq) as (ns & p' & Has & Hns & Hat).
  rewrite <- Hol, <- L1. eapply obtains_bind; [by apply obtains_outcome|]. intros ? ->. eapply obtains_bind; [by apply obtains_io|]. intros ? ->.
  eapply obtains_bind; [apply obtains_outcome; by rewrite Hns|]. intros ? ->.
  assert (exists d, contents (pa_node p') = NDirectory d) as [d Ed].
  { pose proof (assembled_alike root nodes home layouts sb frags (c_references T) spans rd order seen Hok Hq 0 (pa_node p') 0 r Hat) as [_ Hc]; [|done|].
    - by apply (r_order _ _ _ _ _ _ _ _ _ _ _ _ Hok).
    - rewrite Er in Hc. unfold is_dir in Hdir. destruct (contents root); try done. destruct (contents (pa_node p')); try done. by eexists. }
  rewrite Ed. rewrite Hbs. pose proof (ii_block_size _ _ _ Hin) as Hv.
  eapply obtains_bind; [apply obtains_io; unfold Options_new; by rewrite Hv|]. intros ? ->. apply obtains_ret.
  cbn [SquashTree.root options Squashfs_new o_block_size compression_level]. split.
  - replace (mkNode (SquashTree.metadata (pa_node p')) (NDirectory d)) with (pa_node p') by (rewrite <- Ed; by destruct (pa_node p')).
    by apply (read_tree_alike root nodes home Hroot Hdir Hf layouts sb frags (c_references T) spans Hrefs rd order seen Hok Hq).
  - f_equal; [done|]. rewrite Hfl. by destruct Hmore as [-> | ->], (deduplicate o).
Qed.
End read.

(** ** Writing an image *)

Section write.
Context `{ZS : Zstd} `{!ZstdOk ZS} `{B : Blake3} {S : Type} `{FileSource S}.

(** What is read for a source: a file with the bytes that the source gave. *)
Definition same_contents (o : Options) (img : bytes) (source : S) (f : SquashfsFileSource) : Prop :=
  exists c, given (deduplicate o) source c /\ reads_back img f c.

(** The sources of the files of a tree. *)
Definition tree_source (root : Node S) (source : S) : Prop :=
  exists p n, at_path root p = Some (ENode n) /\ contents n = NFile source.

Lemma alike_mono {T} (P Q : S -> T -> Prop) root root' : (forall x y, P x y -> Q x y) -> alike P root root' -> alike Q root root'.
Proof.
  intros HPQ [H1 H2]. split; [done|]. intros p q n q' n' Hn Hn'. destruct (H2 p q n q' n' Hn Hn') as [E Hc]. split; [done|].
  destruct (contents n), (contents n'); auto.
Qed.

Lemma given_fun dedup (source : S) c c' : given dedup source c -> given dedup source c' -> c = c'.
Proof. unfold given. destruct dedup; congruence. Qed.

(** What the data part provides for the rest of the image. *)
Record data_part (o : Options) (sb : Superblock) (img : bytes) (sources : list S) (frags : list Fragment) (layouts : list FileLayout) : Prop := {
  dp_fragments : Forall (fun f => disk_ok f = true /\ check_fragment sb f = Ok tt) frags;
  dp_files : Forall2 (fun source l => disk_ok (layout_inode l 1 0) = true /\ Forall (fun z => in_range u32 z = true) (fl_blocks l) /\
    block_count sb (layout_inode l 1 0) = Z.of_nat (length (fl_blocks l)) /\
    exists f, inode_file sb frags (layout_inode l 1 0) (fl_blocks l) = Ok f /\ same_contents o img source f) sources layouts;
}.

Lemma data_part_written o sources script d s layouts sb img :
  validate_block_size (o_block_size o) = Ok tt -> sizes_ok (S := S) -> (deduplicate o = true -> collision_free sources) ->
  (forall source c, source ∈ sources -> given (deduplicate o) source c -> (Z.of_nat (length c) < 2 ^ 63)%Z) ->
  image_data o sources (DataWriter_new o, mkSink [] script) = ((d, s), Ready layouts) ->
  in_range u32 (Z.of_nat (length (fragments d))) = true -> block_size sb = o_block_size o -> inode_table sb = Z.of_nat (length (sunk s)) ->
  later (sunk s) img -> (Z.of_nat (length img) < 2 ^ 64)%Z -> data_part o sb img sources (fragments d) layouts.
Proof.
  intros Hv Hsizes Hcf H63 E Hfr Hbs Hit Hlater H64. assert (Z.of_nat (length (fragments d)) < 2 ^ 32)%Z as Hfr' by (unfold in_range in Hfr; lia).
  destruct (data_read_back o sources script d s layouts sb img Hv Hsizes Hcf E Hfr' Hbs) as [Hb HF]; [unfold position_of; lia|done|].
  apply (post_run _ _ _ _ _ (image_data_spec o sources script Hv Hsizes Hcf)) in E as (fcs & Hok & Ht & _ & _ & HL).
  assert (length (sunk s) <= length img) as Hle by (destruct Hlater as (? & hd & rest & ? & ->); rewrite !length_app, length_drop; lia).
  destruct Hok as [[_ Hb2] _ Hfrag _]. split.
  - rewrite Forall_forall in Hb |- *. intros f Hf. destruct (Hb f Hf) as (Hd & Hnz & Hu). split.
    + apply list_elem_of_lookup in Hf as [i Hi]. destruct (Forall2_lookup_l _ _ _ _ _ Hfrag Hi) as (fc & _ & _ & Hlen & pos & Hp & Hst).
      unfold disk_ok. cbn [layout tuple_ok to_tuple Fragment_disk]. rewrite (stored_u32 _ _ _ _ fc ltac:(lia) Hst), Hu, Hp.
      destruct Hst as (_ & _ & e & _ & _ & Hl & _). rewrite andb_true_r. unfold in_range. lia.
    + unfold check_fragment. rewrite Hd. cbn [result_bind]. destruct (Z.eqb_spec (fr_size f) 0); [done|]. by rewrite Hu.
  - rewrite Forall2_same_length_lookup in HF, HL |- *. destruct HF as [Hlen HF], HL as [_ HL]. split; [done|]. intros i source l Hs Hl.
    destruct (HF i source l Hs Hl) as (c & Hc & Hread). destruct (HL i source l Hs Hl) as (c' & Hc' & Hlay).
    rewrite <- (given_fun _ _ _ _ Hc Hc') in Hlay. pose proof (H63 source c (list_elem_of_lookup_2 _ _ _ Hs) Hc) as Hc63.
    destruct (layout_disk _ _ _ _ _ _ Hlay) as [Hd Hbl]; [lia|done|done| | |].
    + unfold all_fragments. rewrite Ht. apply Forall_app. split; [|by repeat constructor; simpl; lia]. apply Forall_forall. intros fc Hfc.
      apply list_elem_of_lookup in Hfc as [j Hj]. by destruct (Forall2_lookup_r _ _ _ _ _ Hfrag Hj) as (? & _ & _ & ? & _).
    + unfold all_fragments. rewrite length_app, <- (Forall2_length _ _ _ Hfrag). simpl. lia.
    + destruct (Hread Hc63 1%Z 0%Z) as (Hcount & f & Hi & Hr). split; [done|]. split; [done|]. split; [done|]. exists f. split; [done|]. by exists c.
Qed.

Section parts.
Variables (o : Options) (sb : Superblock) (img : bytes) (nodes : list (FlatNode S)) (frags : list Fragment) (layouts : list FileLayout).
Hypothesis Hdp : data_part o sb img (file_sources nodes) frags layouts.

Lemma placed_layout i nd source l : nodes !! i = Some nd -> contents (fn_node nd) = NFile source -> layout_of (place_layouts nodes layouts) i = Done l ->
  exists m, file_sources nodes !! m = Some source /\ layouts !! m = Some l.
Proof.
  intros Hi Hc Hl. assert (file_source nd = Some source) as Hs by (unfold file_source; by rewrite Hc).
  destruct (place_layouts_lookup nodes layouts i nd source) as (m & l' & H1 & H2 & H3); [|done|done|].
  - symmetry. apply (Forall2_length _ _ _ (dp_files _ _ _ _ _ _ Hdp)).
  - exists m. split; [done|]. congruence.
Qed.

Lemma data_files : files_ok (place_layouts nodes layouts) nodes sb frags.
Proof.
  intros i nd source l Hi Hc Hl. destruct (placed_layout i nd source l Hi Hc Hl) as (m & Hm & Hlm).
  destruct (Forall2_lookup_lr _ _ _ _ _ _ (dp_files _ _ _ _ _ _ Hdp) Hm Hlm) as (H1 & H2 & H3 & f & Hf & _).
  split; [done|]. split; [done|]. split; [done|]. by exists f.
Qed.

Lemma file_read_same source f : file_read nodes (place_layouts nodes layouts) sb frags source f -> same_contents o img source f.
Proof.
  intros (i & nd & l & Hi & Hc & Hl & Hf). destruct (placed_layout i nd source l Hi Hc Hl) as (m & Hm & Hlm).
  destruct (Forall2_lookup_lr _ _ _ _ _ _ (dp_files _ _ _ _ _ _ Hdp) Hm Hlm) as (_ & _ & _ & f' & Hf' & Hs). by assert (f' = f) as -> by congruence.
Qed.
End parts.

Lemma with_data_post {A} o (m : D A) s Q :
  post m (DataWriter_new o, s) (fun st r => Q st.2 (match r with Ready x => Ready (x, st.1) | Fail e => Fail e | Pending => Pending | Panics => Panics end)) ->
  post (with_data o m) s Q.
Proof. unfold post, with_data. destruct (m _) as [[d s'] []]; done. Qed.

Lemma run_post {T R A} (m : M R A) r (s : T) Q :
  post m r (fun r' x => Q s (match x with Ready v => Ready (v, r') | Fail e => Fail e | Pending => Pending | Panics => Panics end)) ->
  post (run m r) s Q.
Proof. unfold post, run. destruct (m r) as [r' []]; done. Qed.

Section serialized.
Variables (o : Options) (root : Node S) (nodes : list (FlatNode S)) (home : nat -> list bytes).
Let lv := compression_level o.
Hypothesis Hroot : node_wf root.
Hypothesis Hdir : is_dir root = true.
Hypothesis Htyped : tree_typed root.
Hypothesis Hf : flattened root nodes home.
Hypothesis Hv : validate_block_size (o_block_size o) = Ok tt.
Hypothesis Htime : in_range u32 (o_modification_time o) = true.
Hypothesis Hsizes : sizes_ok (S := S).
Hypothesis Hcf : deduplicate o = true -> forall sources, Forall (tree_source root) sources -> collision_free sources.
Hypothesis H63 : forall source c, tree_source root source -> given (deduplicate o) source c -> (Z.of_nat (length c) < 2 ^ 63)%Z.

(** The image is read as the tree that was written. *)
Definition read_as_written (img : bytes) : Prop := forall extra a, archive a = img ++ extra ->
  (forall n, reported a = Some n -> (Z.of_nat (length img) <= n)%Z) -> (Z.of_nat (length (archive a)) < 2 ^ 64)%Z ->
  obtains (archive a) (reported a) (faulty a) deserialize (fun t =>
    alike (same_contents o (archive a)) root (SquashTree.root t) /\
    options t = mkOptions (o_block_size o) 3 (o_modification_time o) (deduplicate o)).

Lemma file_sources_tree : Forall (tree_source root) (file_sources nodes).
Proof.
  apply Forall_forall. intros source (nd & Hnd & Hs)%list_elem_of_omap. apply list_elem_of_lookup_1 in Hnd as [i Hi].
  destruct (fl_home _ _ _ Hf i nd Hi) as [Hat _]. exists (home i), (fn_node nd). split; [done|]. unfold file_source in Hs.
  destruct (contents (fn_node nd)); by try injection Hs as ->.
Qed.

Lemma image_read script d s layouts t0 t T spans written s' sb x had :
  image_data o (file_sources nodes) (DataWriter_new o, mkSink [] script) = ((d, s), Ready layouts) ->
  InodeTables_new nodes lv = Ok t0 -> tables_have lv (ids t0) t T -> flat_ok (place_layouts nodes layouts) nodes ->
  built lv (ids t0) (place_layouts nodes layouts) nodes T spans written -> (forall i, i < length nodes -> i ∈ written) ->
  SIZE Superblock <= length (sunk s) -> write_image o (length nodes) (fragments d) t s = (s', Ready sb) ->
  tables_at lv o (length (sunk s)) (length nodes) (fragments d) t had x sb ->
  sunk s' = serialize sb ++ drop (SIZE Superblock) (sunk s) ++ parts_bytes x -> read_as_written (sunk s').
Proof.
  intros E Ht0 Ht Hflat Hbuilt Hall Hl Ew Hta Es extra a Ha Hrep H64.
  assert (bytes_used sb <= Z.of_nat (length (sunk s')))%Z as Hused.
  { rewrite (ta_used _ _ _ _ _ _ _ _ _ Hta), Es. unfold parts_bytes. rewrite !length_app, serialize_length, length_drop. lia. }
  assert (later (sunk s) (archive a)) as Hlater.
  { split; [done|]. exists (serialize sb), (parts_bytes x ++ extra). split; [apply serialize_length|]. by rewrite Ha, Es, <- !app_assoc. }
  destruct (ta_new _ _ _ _ _ _ _ _ _ Hta) as (new & Hnew & _ & _ & Hbs & _).
  destruct (ta_counts _ _ _ _ _ _ _ _ _ Hta) as (_ & Hfc & Hfr & _). rewrite Hfc in Hfr.
  assert (data_part o sb (archive a) (file_sources nodes) (fragments d) layouts) as Hdp.
  { pose proof file_sources_tree as Hft. eapply data_part_written; try done.
    - intros Hd. by apply Hcf.
    - rewrite Forall_forall in Hft. intros source c Hs. by apply H63, Hft.
    - rewrite Hbs. unfold Superblock_new in Hnew. destruct (ilog2 (o_block_size o)); [|done]. by injection Hnew as <-.
    - apply (ta_inode_table _ _ _ _ _ _ _ _ _ Hta). }
  eapply obtains_mono.
  { eapply (deserialize_spec root o (place_layouts nodes layouts) nodes home (fragments d)); try done.
    - exists s, s', extra. split; [done|]. split; [done|]. split; [done|]. intros n Hn. specialize (Hrep n Hn). lia.
    - split; [done|done|apply (dp_fragments _ _ _ _ _ _ Hdp)|]. rewrite Ha, length_app in H64. lia.
    - by eapply data_files. }
  intros tr [Halike Hopt]. split; [|done]. eapply alike_mono; [|exact Halike]. intros source f. by apply file_read_same.
Qed.

Lemma serialize_image_spec script : post (serialize_image o nodes) (mkSink [] script) (fun s' r =>
  match r with Ready _ => read_as_written (sunk s') | Fail _ => True | _ => False end).
Proof.
  pose proof (image_data_spec o (file_sources nodes) script Hv Hsizes (fun Hd => Hcf Hd _ file_sources_tree)) as Hdata.
  unfold serialize_image. apply post_bind, with_data_post. unfold post in Hdata |- *.
  destruct (image_data o (file_sources nodes) (DataWriter_new o, mkSink [] script)) as [[d s] [layouts|e| |]] eqn:E; try done; cbn [fst snd and_then] in *.
  destruct Hdata as (fcs & Hok & _ & _ & _ & HL). apply Forall2_length in HL.
  destruct (InodeTables_new nodes (compression_level o)) as [t0|e] eqn:Et0; [|done]. apply post_bind, post_lift_io. cbn [and_then].
  destruct (new_tables _ nodes t0 Et0) as (Hnew & _).
  assert (flat_ok (place_layouts nodes layouts) nodes) as Hflat.
  { apply (flat_ok_flattened root nodes home); try done. intros i nd source Hi Hs.
    destruct (place_layouts_lookup nodes layouts i nd source) as (_ & l & _ & _ & Hl); [done..|]. by exists l. }
  apply post_bind, run_post. eapply post_mono; [by apply (write_inodes_spec _ _ nodes Hflat t0 Et0)|].
  intros t [[]|e| |]; try done; cbn [and_then]. intros (T & Ht & spans & written & Hb & Hall).
  destruct (tables_have_ok o (ids t0) t T Ht) as (had & Htok & _).
  assert (references t ≠ []) as Hrefs.
  { intros Er. pose proof (bt_references _ _ _ _ _ _ _ Hb) as Hl. rewrite <- (th_references _ _ _ _ Ht), Er in Hl. destruct Hflat as (? & _). simpl in Hl. lia. }
  pose proof (write_image_runs o (length nodes) (fragments d) t had s Hv Htok Hrefs (do_base _ _ _ Hok)) as Hw. unfold post in Hw |- *.
  destruct (write_image o (length nodes) (fragments d) t s) as [s' [sb|e| |]] eqn:Ew; try done. cbn [fst snd] in *.
  destruct Hw as (x & Hta & Es). by eapply image_read; try done; apply Hok.
Qed.
End serialized.
End write.

(** C15: a tree that was written as an image is read as the same tree.  For every directory tree whose fields
    have the values of their types, [Squashfs::serialize] ends without a panic, whatever the output answers; and when it
    succeeds, then from every archive that begins with the bytes it has written, whatever follows them and however
    the archive answers, [Squashfs::deserialize] does not panic, fails only because the archive does, and
    otherwise gives the options, at the default compression level, and a tree in which the same paths exist and the same of them are linked
    together, with the metadata and extended attributes, the symlink targets, the device numbers, and files that read
    back as the bytes their sources gave. *)
Theorem image_roundtrip `{ZS : Zstd} `{!ZstdOk ZS} `{B : Blake3} {S : Type} `{FileSource S} (s : Squashfs S) script :
  node_wf (root s) -> is_dir (root s) = true -> tree_typed (root s) ->
  validate_block_size (o_block_size (options s)) = Ok tt -> in_range u32 (o_modification_time (options s)) = true ->
  sizes_ok (S := S) ->
  (deduplicate (options s) = true -> forall sources, Forall (tree_source (root s)) sources -> collision_free sources) ->
  (forall source c, tree_source (root s) source -> given (deduplicate (options s)) source c -> (Z.of_nat (length c) < 2 ^ 63)%Z) ->
  match Squashfs_serialize s (mkSink [] script) with
  | (out, Ready _) => forall extra a, archive a = sunk out ++ extra ->
      (forall n, reported a = Some n -> (Z.of_nat (length (sunk out)) <= n)%Z) -> (Z.of_nat (length (archive a)) < 2 ^ 64)%Z ->
      opens a deserialize (fun _ t => alike (same_contents (options s) (archive a)) (root s) (root t) /\
        options t = mkOptions (o_block_size (options s)) 3 (o_modification_time (options s)) (deduplicate (options s)))
  | (_, Fail _) => True
  | _ => False
  end.
Proof.
  intros Hroot Hdir Htyped Hv Htime Hsizes Hcf H63.
  assert (post (Squashfs_serialize s) (mkSink [] script) (fun s' r =>
    match r with Ready _ => read_as_written (options s) (root s) (sunk s') | Fail _ => True | _ => False end)) as Hp.
  { unfold Squashfs_serialize. apply post_bind. unfold post at 1, lift_res. pose proof (flatten_spec (root s) Hroot Hdir) as Hfl.
    destruct (flatten (root s)) as [nodes|e| |]; try done. cbn [fst snd and_then]. destruct Hfl as [home Hf].
    apply post_bind. eapply post_mono; [apply await_flush|]. intros [bs sc] [[]|e| |] [Es Hr]; try done. cbn [and_then sunk] in *. subst bs.
    apply post_bind. eapply post_mono; [by eapply (serialize_image_spec (options s) (root s) nodes home)|]. intros s2 [sb|e| |]; done. }
  unfold post in Hp. destruct (Squashfs_serialize s (mkSink [] script)) as [out [[]|e| |]]; try done. cbn [fst snd] in Hp.
  intros extra a Ha Hrep H64. eapply post_mono; [by apply (Hp extra a Ha Hrep H64)|]. intros a' [t|e| |] [_ Ht]; done.
Qed.

(** ** Examples *)

Module SquashRoundtripExamples.
Import RunLength SquashFilesExamples.

Definition plain (m : Z) : Metadata := mkMetadata m 1000 0 5 [(bstr "user.a", bstr "value")].
Definition content : bytes := replicate 4096 Byte.x00 ++ bstr "tail".
Definition x : Node bytes := mkNode (plain 420) (NFile content).
Definition d : Node bytes := mkNode (plain 493) (NDirectory (mkDir [(bstr "s", ENode (mkNode (plain 511) (NSymlink (bstr "x")))); (bstr "x", ENode x)])).

(** [/d/x] is a file, [/d/s] a symlink to it and [/a] another link to the file. *)
Definition fs : Squashfs bytes :=
  mkSquashfs (mkNode (plain 493) (NDirectory (mkDir [(bstr "a", EHardlink (bstr "d/x")); (bstr "d", ENode d)]))) (mkOptions 4096 15 7 true).

Ltac check_entries := intros name e sub Hin He; repeat (apply elem_of_cons in Hin as [E|Hin];
  [injection E as -> ->; first [discriminate He|injection He as <-]|]); try (by apply elem_of_nil in Hin).

Lemma fs_wf : node_wf (root fs).
Proof.
  intros dir Hd. injection Hd as <-. constructor; [repeat constructor|repeat constructor|check_entries].
  constructor; [repeat constructor|repeat constructor|check_entries].
Qed.

Lemma fs_nodes p n : at_path (root fs) p = Some (ENode n) -> n = root fs \/ n = d \/ n = x \/ n = mkNode (plain 511) (NSymlink (bstr "x")).
Proof.
  intros H. destruct p as [|a [|b [|c p]]]; simpl in H; unfold DirectoryContents_get, entry_directory in H; simpl in H;
  repeat match type of H with
  | context [is_eq (bytes_cmp ?z ?w)] => destruct (is_eq (bytes_cmp z w)); simpl in H; simplify_eq/=
  end; simplify_eq; auto.
Qed.

Lemma fs_typed : tree_typed (root fs).
Proof. intros p n [->|[->|[->| ->]]]%fs_nodes; split; try reflexivity; try exact I; try (by split); by repeat constructor. Qed.

Lemma fs_sources source : tree_source (root fs) source -> source = content.
Proof. intros (p & n & [->|[->|[->| ->]]]%fs_nodes & Hc); try discriminate Hc. by injection Hc as <-. Qed.

Definition script : list response := [Moved 90; NotReady; Moved 6; Moved 1000].

(** An archive with more behind the image, whose first reader is slow. *)
Definition archive_of (out : Sink) : Archived := mkArchived (sunk out ++ bstr "next") [Served [Moved 10; NotReady]; Served []] None.

Lemma image_roundtrip_witness :
  match Squashfs_serialize fs (mkSink [] script) with
  | (out, Ready _) => exists t, (deserialize (archive_of out)).2 = Ready t /\
      alike (same_contents (options fs) (archive (archive_of out))) (root fs) (root t) /\ options t = mkOptions 4096 3 7 true
  | _ => False
  end.
Proof.
  assert (forall source c, tree_source (root fs) source -> given (deduplicate (options fs)) source c -> (Z.of_nat (length c) < 2 ^ 63)%Z) as H63.
  { intros source c Hs Hc. apply fs_sources in Hs as ->.
    rewrite <- (f_equal (fun r => match r with Ok v => v | Err _ => content end) Hc : content = c). vm_compute. reflexivity. }
  pose proof (image_roundtrip fs script fs_wf eq_refl fs_typed eq_refl eq_refl in_memory_sizes (fun _ sources _ => hash_all_free sources) H63) as H.
  assert (match Squashfs_serialize fs (mkSink [] script) with
    | (out, Ready _) => (Z.of_nat (length (archive (archive_of out))) <? 2 ^ 64)%Z && match (deserialize (archive_of out)).2 with Ready _ => true | _ => false end
    | _ => false
    end = true) as Hr by (vm_compute; reflexivity).
  destruct (Squashfs_serialize fs (mkSink [] script)) as [out [[]|e| |]]; [|discriminate Hr..]. apply andb_true_iff in Hr as [H64 Hr].
  apply Z.ltb_lt in H64. specialize (H (bstr "next") (archive_of out) eq_refl ltac:(intros n Hn; discriminate Hn) H64). unfold opens, post in H.
  destruct (deserialize (archive_of out)) as [a' [t|e| |]]; [|discriminate Hr..]. exists t. split; [reflexivity|exact H].
Defined.
End SquashRoundtripExamples.
