(* ===== verification/SquashCanonical.v ===== *)
(** * Identical trees give identical images

    The documentation of [Squashfs::serialize]: identical contents, inode attributes and options produce identical
    bytes, independent of insertion order and of which hardlink carries the source of a file.

    Computations are compared by what they do in every state, an equivalence that sequencing respects. *)
From stdpp Require Import sorting relations.
From S2P Require Import Prelude RustStr BTree SquashFormat SquashBlocks SquashTree SquashData SquashFiles SquashIo SquashImage SquashLoad SquashInode SquashFlatten SquashWalk SquashFlat SquashSerialize.

Local Open Scope rust_scope.
Local Open Scope poll_scope.

(** ** Computations that do the same *)

Definition does {T A} : relation (M T A) := pointwise_relation T eq.

#[export] Instance does_equivalence {T A} : Equivalence (@does T A).
Proof. unfold does. apply _. Qed.

#[export] Instance m_bind_proper {T A B} : Proper (does ==> pointwise_relation A does ==> does) (@m_bind T A B).
Proof. intros m m' Hm f f' Hf s. unfold m_bind. rewrite (Hm s). destruct (m' s) as [s' []]; [|done..]. apply Hf. Qed.

Lemma does_bind {T A B} (m : M T A) (f f' : A -> M T B) : (forall x, does (f x) (f' x)) -> does (m_bind m f) (m_bind m f').
Proof. intros Hf. by apply m_bind_proper. Qed.

Lemma does_done {T A A' B} x y (f : A -> M T B) (f' : A' -> M T B) : does (f x) (f' y) -> does (m_bind (lift_outcome (Done x)) f) (m_bind (lift_outcome (Done y)) f').
Proof. done. Qed.

(** A call on part of a state. *)
#[export] Instance on_directories_proper {A} : Proper (does ==> does) (@on_directories A).
Proof. intros m m' Hm t. unfold on_directories. by rewrite (Hm _). Qed.

#[export] Instance run_proper {T R A} : Proper (does ==> eq ==> does) (@run T R A).
Proof. intros m m' Hm r ? <- s. unfold run. by rewrite (Hm r). Qed.

#[export] Instance with_data_proper {A} o : Proper (does ==> does) (@with_data A o).
Proof. intros m m' Hm s. unfold with_data. by rewrite (Hm _). Qed.

#[export] Hint Extern 0 (does ?m ?m) => reflexivity : core.

Section canonical.
Context `{ZS : Zstd} `{B : Blake3} {S T : Type} `{HS : FileSource S} `{HT : FileSource T}.

(** Two sources behave the same. *)
Definition same_source (a : S) (b : T) : Prop := fs_size a = fs_size b /\ fs_copy a = fs_copy b /\ fs_reader a = fs_reader b.

Abbreviation flat_same := (flat_alike same_source).

(** ** The files *)

Lemma write_files_same dedup sources sources' : Forall2 same_source sources sources' ->
  forall dups, does (write_files dedup sources dups) (write_files dedup sources' dups).
Proof.
  induction 1 as [|a b sources sources' (H1 & H2 & H3) _ IH]; intros dups; cbn [write_files]; [done|]. rewrite H1. apply does_bind. intros size.
  unfold fingerprint. rewrite H2. apply does_bind. intros h. destruct (_ ≫= _) as [l|].
  - apply m_bind_proper; [apply IH|done].
  - apply m_bind_proper; [|intros l; apply m_bind_proper; [apply IH|done]].
    intros [d s]. unfold DataWriter_file. by rewrite H3.
Qed.

Lemma image_data_same o sources sources' : Forall2 same_source sources sources' -> does (image_data o sources) (image_data o sources').
Proof. intros HF. apply does_bind. intros _. apply m_bind_proper; [by apply write_files_same|done]. Qed.

(** ** The nodes *)

Lemma same_kind (a : FlatNode S) (b : FlatNode T) : flat_same a b -> NodeContents_kind (contents (fn_node a)) = NodeContents_kind (contents (fn_node b)).
Proof. intros ((_ & Hc) & _). by destruct (contents (fn_node a)), (contents (fn_node b)). Qed.

Lemma same_directory (a : FlatNode S) (b : FlatNode T) : flat_same a b -> is_directory a = is_directory b.
Proof. intros ((_ & Hc) & _). unfold is_directory. by destruct (contents (fn_node a)), (contents (fn_node b)). Qed.

Lemma same_metadata (a : FlatNode S) (b : FlatNode T) : flat_same a b -> SquashTree.metadata (fn_node a) = SquashTree.metadata (fn_node b).
Proof. by intros ((H & _) & _). Qed.

Lemma same_file_source (a : FlatNode S) (b : FlatNode T) : flat_same a b -> option_Forall2 same_source (file_source a) (file_source b).
Proof. intros ((_ & Hc) & _). unfold file_source. destruct (contents (fn_node a)), (contents (fn_node b)); try done; by constructor. Qed.

Section nodes.
Variables (nodes : list (FlatNode S)) (nodes' : list (FlatNode T)).
Hypothesis Hn : Forall2 flat_same nodes nodes'.

Lemma same_lookup i : option_Forall2 flat_same (nodes !! i) (nodes' !! i).
Proof. by apply Forall2_lookup. Qed.

Lemma file_sources_same : Forall2 same_source (file_sources nodes) (file_sources nodes').
Proof.
  unfold file_sources. revert Hn. clear. induction 1 as [|a b l l' Hab _ IH]; cbn [omap list_omap]; [constructor|].
  destruct (same_file_source a b Hab); [by constructor|done].
Qed.

Lemma place_layouts_same layouts : place_layouts nodes layouts = place_layouts nodes' layouts.
Proof.
  revert layouts. revert Hn. clear. induction 1 as [|a b l l' Hab _ IH]; intros layouts; cbn [place_layouts]; [done|].
  destruct (same_file_source a b Hab); [destruct layouts|]; by rewrite IH.
Qed.

Lemma InodeTables_new_same level : InodeTables_new nodes level = InodeTables_new nodes' level.
Proof.
  unfold InodeTables_new. rewrite (Forall2_length _ _ _ Hn).
  replace (map (fun n => [uid (SquashTree.metadata (fn_node n)); gid (SquashTree.metadata (fn_node n))]) nodes)
    with (map (fun n => [uid (SquashTree.metadata (fn_node n)); gid (SquashTree.metadata (fn_node n))]) nodes'); [done|].
  revert Hn. clear. induction 1 as [|a b l l' Hab _ IH]; [done|]. cbn [map]. by rewrite IH, (same_metadata _ _ Hab).
Qed.

Lemma write_entries_same refs number group : forall size, does (write_entries refs nodes number group size) (write_entries refs nodes' number group size).
Proof.
  induction group as [|[name child] group IH]; intros size; cbn [write_entries]; [done|]. apply does_bind. intros ref.
  destruct (same_lookup child) as [a b Hab|]; [|done]. apply does_done. rewrite (same_kind _ _ Hab).
  repeat (apply does_bind; intros ?). apply IH.
Qed.

Lemma write_groups_same fuel refs : forall children size indexes block,
  does (write_groups fuel refs nodes children size indexes block) (write_groups fuel refs nodes' children size indexes block).
Proof.
  induction fuel as [|fuel IH]; intros [|[name child] rest] size indexes block; cbn [write_groups]; try done.
  apply does_bind. intros ref. apply does_bind. intros [more rest']. apply does_bind. intros position. apply does_bind. intros [ixs block'].
  apply does_bind. intros _. apply does_bind. intros size1. apply m_bind_proper; [apply write_entries_same|]. intros size2. apply IH.
Qed.

Lemma count_subdirs_same children : count_subdirs nodes children = count_subdirs nodes' children.
Proof.
  induction children as [|[name child] rest IH]; cbn [count_subdirs]; [done|]. destruct (same_lookup child) as [a b Hab|]; [|done].
  cbn [unwrap outcome_bind]. by rewrite IH, (same_directory _ _ Hab).
Qed.

Lemma write_contents_same i a b layouts xattr : flat_same a b -> does (write_contents i a layouts nodes xattr) (write_contents i b layouts nodes' xattr).
Proof.
  intros Hab. pose proof Hab as ((_ & Hc) & _ & Hp & Hch & Hl). unfold write_contents. rewrite Hl.
  destruct (contents (fn_node a)), (contents (fn_node b)); try done; try by subst.
  unfold write_directory. rewrite Hch, Hp, (Forall2_length _ _ _ Hn). apply does_bind. intros start. apply does_bind. intros refs.
  apply m_bind_proper; [apply on_directories_proper, write_groups_same|]. intros [size ixs]. by rewrite count_subdirs_same.
Qed.

Lemma InodeTables_inode_same i a b layouts : flat_same a b -> does (InodeTables_inode i a layouts nodes) (InodeTables_inode i b layouts nodes').
Proof.
  intros Hab. unfold InodeTables_inode. rewrite (same_kind _ _ Hab), (same_metadata _ _ Hab).
  repeat (apply does_bind; intros ?). by apply write_contents_same.
Qed.

Lemma inodes_loop_same layouts order order' : Forall2 (fun x y => x.1 = y.1 /\ flat_same x.2 y.2) order order' ->
  does (inodes_loop layouts nodes order) (inodes_loop layouts nodes' order').
Proof.
  induction 1 as [|[i a] [j b] order order' [E Hab] _ IH]; cbn [inodes_loop]; [done|]. simpl in E. subst j.
  apply m_bind_proper; [by apply InodeTables_inode_same|]. by intros _.
Qed.
End nodes.

Lemma Forall2_filter_same {X Y} (R : X -> Y -> Prop) f g l l' : (forall x y, R x y -> f x = g y) -> Forall2 R l l' -> Forall2 R (List.filter f l) (List.filter g l').
Proof.
  intros Hfg. induction 1 as [|x y l l' Hxy _ IH]; cbn [List.filter]; [constructor|]. rewrite (Hfg x y Hxy). destruct (g y); [by constructor|done].
Qed.

Lemma write_inodes_same layouts (nodes : list (FlatNode S)) (nodes' : list (FlatNode T)) : Forall2 flat_same nodes nodes' ->
  does (write_inodes layouts nodes) (write_inodes layouts nodes').
Proof.
  intros Hn. assert (Forall2 (fun x y => x.1 = y.1 /\ flat_same x.2 y.2) (imap pair nodes) (imap pair nodes')) as Hi.
  { apply Forall2_same_length_lookup. rewrite !length_imap. split; [by eapply Forall2_length|]. intros i [j a] [k b] Ha Hb.
    rewrite list_lookup_imap in Ha. rewrite list_lookup_imap in Hb. apply fmap_Some in Ha as (x & Ha & [= -> ->]), Hb as (y & Hb & [= -> ->]). split; [done|]. by eapply Forall2_lookup_lr. }
  unfold write_inodes. apply m_bind_proper; [|intros _]; apply inodes_loop_same; try done; apply Forall2_filter_same; try done.
  - intros x y [_ Hxy]. by rewrite (same_directory _ _ Hxy).
  - intros x y [_ Hxy]. by apply same_directory.
  - rewrite !rev_alt. by apply Forall2_reverse.
Qed.

Lemma serialize_image_same o (nodes : list (FlatNode S)) (nodes' : list (FlatNode T)) : Forall2 flat_same nodes nodes' ->
  does (serialize_image o nodes) (serialize_image o nodes').
Proof.
  intros Hn. unfold serialize_image. rewrite (InodeTables_new_same nodes nodes' Hn), (Forall2_length _ _ _ Hn).
  apply m_bind_proper; [by apply with_data_proper, image_data_same, file_sources_same|]. intros [layouts data]. apply does_bind. intros new.
  rewrite (place_layouts_same nodes nodes' Hn). apply m_bind_proper; [|done]. apply run_proper; [by apply write_inodes_same|done].
Qed.
End canonical.

(** C16: identical trees give identical bytes.  Two trees, put together in whatever way, in which the same paths exist and the
    same of them are linked, no matter which of the linked paths carries the node, with the same metadata, targets
    and device numbers and with sources that behave the same, are written to the same output as the same bytes under
    the same options, and the output is left in the same state. *)
Theorem serialize_deterministic `{ZS : Zstd} `{B : Blake3} {S T : Type} `{HS : FileSource S} `{HT : FileSource T}
    (s : Squashfs S) (t : Squashfs T) sink out out' :
  node_wf (root s) -> is_dir (root s) = true -> node_wf (root t) -> is_dir (root t) = true ->
  alike same_source (root s) (root t) -> options s = options t ->
  Squashfs_serialize s sink = (out, Ready tt) -> Squashfs_serialize t sink = (out', Ready tt) -> out = out'.
Proof.
  intros Hs Hsd Ht Htd Ha Ho Es Et. unfold Squashfs_serialize, lift_res in Es, Et. rewrite Ho in Es. unfold m_bind at 1 in Es. unfold m_bind at 1 in Et.
  pose proof (flatten_spec (root s) Hs Hsd) as Hfs. pose proof (flatten_spec (root t) Ht Htd) as Hft.
  destruct (flatten (root s)) as [nodes|e| |], (flatten (root t)) as [nodes'|e'| |]; try done.
  destruct Hfs as [home Hfs], Hft as [home' Hft].
  assert (Forall2 (flat_alike same_source) nodes nodes') as Hn by by eapply canonical_nodes.
  assert (does (sink_seek ;> let> _ := serialize_image (options t) nodes in m_ret tt) (sink_seek ;> let> _ := serialize_image (options t) nodes' in m_ret tt)) as Hd.
  { apply does_bind. intros _. apply m_bind_proper; [by apply serialize_image_same|done]. }
  rewrite (Hd sink) in Es. congruence.
Qed.

(** ** Examples *)

Module SquashCanonicalExamples.
Import RunLength SquashFilesExamples SquashFlatExamples.

(** The files of the trees have the same content, whatever their numbers. *)
#[export] Instance hello : FileSource nat :=
  {| fs_size _ := Ok 5%Z; fs_copy _ := Ok (bstr "hello"); fs_reader _ := Ok (mkStream (bstr "hello") None) |}.

Lemma carried_same : alike same_source carried_below carried_above.
Proof.
  destruct carried_alike as [H1 H2]. split; [exact H1|]. intros p q n q' n' Hn Hn'. destruct (H2 p q n q' n' Hn Hn') as [E Hc]. split; [exact E|].
  destruct (contents n), (contents n'); try done.
Qed.

Definition script : list response := [Moved 90; NotReady; Moved 6; Moved 1000].

(** The link is written the same whichever of its paths carries the file. *)
Lemma serialize_deterministic_witness :
  exists out, Squashfs_serialize (mkSquashfs carried_below small) (mkSink [] script) = (out, Ready tt) /\
    Squashfs_serialize (mkSquashfs carried_above small) (mkSink [] script) = (out, Ready tt).
Proof.
  assert (match (Squashfs_serialize (mkSquashfs carried_below small) (mkSink [] script)).2 with Ready _ => true | _ => false end = true) as H1
    by (vm_compute; reflexivity).
  assert (match (Squashfs_serialize (mkSquashfs carried_above small) (mkSink [] script)).2 with Ready _ => true | _ => false end = true) as H2
    by (vm_compute; reflexivity).
  destruct (Squashfs_serialize (mkSquashfs carried_below small) (mkSink [] script)) as [out [[]|e| |]] eqn:E1; [|discriminate H1..].
  destruct (Squashfs_serialize (mkSquashfs carried_above small) (mkSink [] script)) as [out' [[]|e| |]] eqn:E2; [|discriminate H2..].
  exists out. split; [reflexivity|].
  rewrite (serialize_deterministic (mkSquashfs carried_below small) (mkSquashfs carried_above small) (mkSink [] script) out out'
    below_wf eq_refl above_wf eq_refl carried_same eq_refl E1 E2). reflexivity.
Defined.
End SquashCanonicalExamples.
