(* ===== verification/MerkleVarint.v ===== *)
(** * Integers and names in a table of contents

    [shared-libs/crates/start-core/src/s9pk/merkle_archive/varint.rs]: lengths and counts as variable-length
    integers, strings with their length before them.

    The encoding itself is the crate [integer_encoding], a parameter: the class [VarInt] with its documented
    behaviour in [VarIntOk].  A [&str] is its bytes, which are valid UTF-8; [read_to_string] checks that they are.
    What is written to is anything that takes bytes, the class [Writes]: an output (SquashBlocks.v), or a [Vec] or a hasher,
    which never fail. *)
From S2P Require Import Prelude RustStr SquashFormat SquashBlocks SquashData SquashIo SquashImage.

Local Open Scope rust_scope.
Local Open Scope poll_scope.

(** ** Writers *)

Class Writes (W : Type) : Type := { w_write : bytes -> M W unit }.

#[export] Instance Sink_writes : Writes Sink := {| w_write := write_out |}.

(** [Vec<u8>], and a [ParallelBlake3Writer] as the bytes it was given. *)
#[export] Instance Vec_writes : Writes bytes := {| w_write buf := fun v => (v ++ buf, Ready tt) |}.

(** ** [str::from_utf8] *)

Definition utf8_tail (b : byte) : bool := (128 <=? Byte.to_N b)%N && (Byte.to_N b <=? 191)%N.

Definition in_bytes (lo hi : N) (b : byte) : bool := (lo <=? Byte.to_N b)%N && (Byte.to_N b <=? hi)%N.

(** The well-formed sequences of the Unicode standard. *)
Fixpoint utf8_valid (bs : bytes) : bool :=
  match bs with
  | [] => true
  | a :: r =>
      if in_bytes 0 127 a then utf8_valid r
      else
        match r with
        | [] => false
        | b :: r2 =>
            if in_bytes 194 223 a then utf8_tail b && utf8_valid r2
            else
              match r2 with
              | [] => false
              | c :: r3 =>
                  if in_bytes 224 224 a then in_bytes 160 191 b && utf8_tail c && utf8_valid r3
                  else if in_bytes 225 236 a || in_bytes 238 239 a then utf8_tail b && utf8_tail c && utf8_valid r3
                  else if in_bytes 237 237 a then in_bytes 128 159 b && utf8_tail c && utf8_valid r3
                  else
                    match r3 with
                    | [] => false
                    | d :: r4 =>
                        if in_bytes 240 240 a then in_bytes 144 191 b && utf8_tail c && utf8_tail d && utf8_valid r4
                        else if in_bytes 241 243 a then utf8_tail b && utf8_tail c && utf8_tail d && utf8_valid r4
                        else if in_bytes 244 244 a then in_bytes 128 143 b && utf8_tail c && utf8_tail d && utf8_valid r4
                        else false
                    end
              end
        end
  end.

(** ** Variable-length integers *)

Definition MSB : Z := 0x80.

Definition has_msb (b : byte) : bool := negb (Z.land (Z.of_N (Byte.to_N b)) MSB =? 0)%Z.

Class VarInt : Type := {
  required_space : Z -> nat;
  encode_var : Z -> bytes;
  decode_var : bytes -> option (Z * nat);
}.

Definition MAX_SIZE : nat := (8 * 8 + 7) / 7.

(** The bytes of an encoding have their highest bit set, but for the last one. *)
Class VarIntOk (V : VarInt) : Prop := {
  encode_size : forall n, in_range u64 n = true -> length (encode_var n) = required_space n /\ required_space n <= MAX_SIZE;
  encode_last : forall n, in_range u64 n = true -> exists init b, encode_var n = init ++ [b] /\ has_msb b = false /\ Forall (fun x => has_msb x = true) init;
  decode_encode : forall n, in_range u64 n = true -> decode_var (encode_var n) = Some (n, length (encode_var n));
  decode_range : forall bs n k, decode_var bs = Some (n, k) -> in_range u64 n = true;
}.

Section Varint.
Context `{V : VarInt}.

Definition MAX_STR_LEN : Z := 1024 * 1024.

Definition serialized_varint_size (n : Z) : Z := Z.of_nat (required_space n).

Definition serialized_varstring_size (s : bytes) : Z := (serialized_varint_size (Z.of_nat (length s)) + Z.of_nat (length s))%Z.

Section Write.
Context {W : Type} `{Writes W}.

Definition serialize_varint (n : Z) : M W unit := w_write (encode_var n).

Definition serialize_varstring (s : bytes) : M W unit := serialize_varint (Z.of_nat (length s)) ;> w_write s.
End Write.

(** [VarIntProcessor]: the bytes pushed so far. *)
Definition VarIntProcessor_push (b : byte) (buf : bytes) : io bytes :=
  if MAX_SIZE <=? length buf then invalid $"Unterminated varint" else Ok (buf ++ [b]).

Definition VarIntProcessor_finished (buf : bytes) : bool := match last buf with Some b => negb (has_msb b) | None => false end.

Section Read.
Context {R : Type} `{AsyncRead R}.

(** The loop pushes at most one byte more than fit. *)
Fixpoint varint_loop (fuel : nat) (buf : bytes) : M R bytes :=
  match fuel with
  | 0 => m_panic
  | S k =>
      if VarIntProcessor_finished buf then m_ret buf
      else
        let> bs := await_exact 1 in
        let> buf' := lift_io (VarIntProcessor_push (default Byte.x00 (head bs)) buf) in
        varint_loop k buf'
  end.

Definition deserialize_varint : M R Z :=
  let> buf := varint_loop (2 + MAX_SIZE) [] in
  lift_io (match decode_var buf with Some (n, _) => Ok n | None => invalid $"Reached EOF" end).

(** [AsyncReadExt::read_to_end]: each round gets a byte at least or uses up an answer, and the reader holds [n] bytes at most. *)
Fixpoint read_to_end_loop (fuel : nat) (n : nat) (got : bytes) : M R bytes := fun r =>
  match fuel with
  | 0 => (r, Panics)
  | S k =>
      if n =? 0 then (r, Ready got)
      else
        match poll n r with
        | (r', Ready []) => (r', Ready got)
        | (r', Ready out) => read_to_end_loop k (n - length out) (got ++ out) r'
        | (r', Pending) => read_to_end_loop k n got r'
        | (r', Fail e) => (r', Fail e)
        | (r', Panics) => (r', Panics)
        end
  end.

(** [take(n)] and [read_to_string]: fewer bytes when the reader ends before. *)
Definition read_to_string (n : nat) : M R bytes := fun r =>
  (let> s := read_to_end_loop (2 + n + awaits r) n [] in
   if utf8_valid s then m_ret s else fail $"stream did not contain valid UTF-8") r.

Definition deserialize_varstring : M R bytes :=
  let> n := deserialize_varint in
  read_to_string (Z.to_nat (Z.min n MAX_STR_LEN)).
End Read.
End Varint.

Lemma in_range_u64 z : in_range u64 z = true <-> (0 <= z < 2 ^ 64)%Z.
Proof. cbn [in_range]. lia. Qed.

(** ** Encodings *)

Section lemmas.
Context `{V : VarInt} `{!VarIntOk V}.

Lemma has_msb_last init b : has_msb b = false -> VarIntProcessor_finished (init ++ [b]) = true.
Proof. intros Hb. unfold VarIntProcessor_finished. by rewrite last_snoc, Hb. Qed.

Lemma msb_unfinished buf : Forall (fun x => has_msb x = true) buf -> VarIntProcessor_finished buf = false.
Proof.
  intros HF. unfold VarIntProcessor_finished. destruct (last buf) as [b|] eqn:E; [|done].
  apply last_Some_elem_of in E. rewrite Forall_forall in HF. by rewrite (HF b E).
Qed.

(** An encoding is no prefix of another one. *)
Lemma encode_var_inj n m x y : in_range u64 n = true -> in_range u64 m = true -> encode_var n ++ x = encode_var m ++ y -> n = m /\ x = y.
Proof.
  intros Hn Hm E. destruct (encode_last n Hn) as (i & b & En & Hb & Hi). destruct (encode_last m Hm) as (j & c & Em & Hc & Hj).
  assert (encode_var n = encode_var m) as Enm.
  { rewrite En, Em in E |- *. rewrite <- !app_assoc in E. cbn [app] in E. clear -E Hb Hc Hi Hj. revert j Hj E. induction Hi as [|a i Ha _ IH]; intros j Hj E.
    - destruct j as [|d j]; cbn [app] in E; [by injection E as -> ->|]. injection E as -> E. inversion Hj. congruence.
    - destruct j as [|d j]; cbn [app] in E; injection E as -> E; [congruence|].
      inversion Hj as [|? ? _ Hj']; subst. cbn [app]. f_equal. by apply IH. }
  split; [|by rewrite Enm in E; apply app_inv_head in E].
  pose proof (decode_encode n Hn) as D1. pose proof (decode_encode m Hm) as D2. rewrite Enm in D1. congruence.
Qed.

Lemma varstring_inj s t x y : in_range u64 (Z.of_nat (length s)) = true -> in_range u64 (Z.of_nat (length t)) = true ->
  encode_var (Z.of_nat (length s)) ++ s ++ x = encode_var (Z.of_nat (length t)) ++ t ++ y -> s = t /\ x = y.
Proof. intros Hs Ht E. apply encode_var_inj in E as [El E]; [|done..]. apply app_inj_1 in E; [done|lia]. Qed.
End lemmas.
