(* ===== verification/MerkleBytes.v ===== *)
(** * What a writer gets and a reader finds

    The interface of the writers of MerkleVarint.v, [WritesOk], with its two instances: what a computation writes to any
    of them ([puts]).  Variable-length integers and strings with their length, written and read back.

    [Leb128] is an encoding that has the properties of [VarIntOk]. *)
From S2P Require Import Prelude RustStr SquashFormat SquashBlocks SquashData SquashIo SquashImage SquashFiles SquashLoad SquashTable MerkleVarint.

Local Open Scope rust_scope.
Local Open Scope poll_scope.

(** ** Writers *)

(** A writer has got bytes ([given]), only ever gets more ([later_w]), and fails for reasons of its own ([w_cause]). *)
Class WritesOk (W : Type) `{Writes W} : Type := {
  given : W -> bytes;
  later_w : W -> W -> Prop;
  later_w_pre :: PreOrder later_w;
  w_cause : W -> io_error -> Prop;
  w_cause_later : forall w w' e, later_w w w' -> w_cause w' e -> w_cause w e;
  w_write_spec : forall buf w, post (w_write buf) w (fun w' r => later_w w w' /\
    match r with
    | Ready _ => given w' = given w ++ buf
    | Fail e => w_cause w e
    | _ => False
    end);
}.

#[export, refine] Instance Sink_writes_ok : WritesOk Sink :=
  {| given := sunk; later_w := grown; w_cause s e := sink_cause (wscript s) e |}.
Proof.
  - intros s s' e [_ Hg] He. by eapply sink_cause_suffix.
  - intros buf s. apply write_out_runs.
Defined.

(** A [Vec] never fails. *)
#[export, refine] Instance Vec_writes_ok : WritesOk bytes :=
  {| given v := v; later_w := prefix; w_cause _ _ := False |}.
Proof.
  - done.
  - intros buf v. split; [by exists buf|done].
Defined.

Section puts.
Context {W : Type} `{HW : Writes W} `{!WritesOk W}.

(** From the state [w] on [m] writes bytes and gives a result that are in [P], or fails because of the writer or with an
    error in [err]. *)
Definition puts_from {A} (err : io_error -> Prop) (w : W) (m : M W A) (P : bytes -> A -> Prop) : Prop :=
  post m w (fun w' r => later_w w w' /\
    match r with
    | Ready x => exists bs, given w' = given w ++ bs /\ P bs x
    | Fail e => err e \/ w_cause w e
    | _ => False
    end).

Definition puts {A} (err : io_error -> Prop) (m : M W A) (P : bytes -> A -> Prop) : Prop := forall w, puts_from err w m P.

Lemma puts_from_bind {A B} err w (m : M W A) (f : A -> M W B) P Q : puts_from err w m P ->
  (forall w' bs x, given w' = given w ++ bs -> P bs x -> puts_from err w' (f x) (fun bs' y => Q (bs ++ bs') y)) ->
  puts_from err w (m_bind m f) Q.
Proof.
  intros Hm Hf. apply post_bind. eapply post_mono; [apply Hm|]. intros w1 [x|e| |] [Hl Hr]; try done. cbn [and_then].
  destruct Hr as (bs & E1 & HP). eapply post_mono; [apply (Hf w1 bs x E1 HP)|].
  intros w2 [y|e| |] [Hl2 Hr2]; (split; [by etrans|]); try done.
  - destruct Hr2 as (bs' & E2 & HQ). exists (bs ++ bs'). by rewrite E2, E1, app_assoc.
  - destruct Hr2 as [?|?]; [by left|right]. by eapply w_cause_later.
Qed.

Lemma puts_bind {A B} err (m : M W A) (f : A -> M W B) P Q : puts err m P ->
  (forall bs x, P bs x -> puts err (f x) (fun bs' y => Q (bs ++ bs') y)) -> puts err (m_bind m f) Q.
Proof. intros Hm Hf w. eapply puts_from_bind; [apply Hm|]. intros w' bs x _ HP. by apply Hf. Qed.

Lemma puts_ret {A} err (x : A) (P : bytes -> A -> Prop) : P [] x -> puts err (m_ret x) P.
Proof. intros HP w. apply post_ret. split; [done|]. exists []. by rewrite app_nil_r. Qed.

Lemma puts_from_mono {A} (err err' : io_error -> Prop) w (m : M W A) (P Q : bytes -> A -> Prop) : puts_from err w m P ->
  (forall bs x, P bs x -> Q bs x) -> (forall e, err e -> err' e) -> puts_from err' w m Q.
Proof.
  intros Hm HPQ He. eapply post_mono; [apply Hm|]. intros w' [x|e| |] [Hl Hr]; (split; [done|]); try done.
  - destruct Hr as (bs & ? & ?). exists bs. auto.
  - destruct Hr; auto.
Qed.

Lemma puts_mono {A} (err err' : io_error -> Prop) (m : M W A) (P Q : bytes -> A -> Prop) : puts err m P ->
  (forall bs x, P bs x -> Q bs x) -> (forall e, err e -> err' e) -> puts err' m Q.
Proof. intros Hm HPQ He w. by eapply puts_from_mono. Qed.

Lemma puts_lift {A} (err : io_error -> Prop) (r : io A) : (forall e, r = Err e -> err e) ->
  puts err (lift_io r) (fun bs x => bs = [] /\ r = Ok x).
Proof.
  intros He w. unfold post, lift_io. destruct r as [x|e]; simpl; (split; [done|]); [|by left; apply He].
  exists []. by rewrite app_nil_r.
Qed.

Lemma puts_write err buf : puts err (w_write buf) (fun bs _ => bs = buf).
Proof.
  intros w. eapply post_mono; [apply w_write_spec|]. intros w' [[]|e| |] [Hl Hr]; (split; [done|]); try done; [by exists buf|by right].
Qed.

Lemma puts_fail {A} (err : io_error -> Prop) e (P : bytes -> A -> Prop) : err e -> puts err (m_fail e) P.
Proof. intros He w. split; [done|]. by left. Qed.

Context `{V : VarInt}.

Lemma puts_varint err n : puts err (serialize_varint n) (fun bs _ => bs = encode_var n).
Proof. apply puts_write. Qed.

Definition varstring (s : bytes) : bytes := encode_var (Z.of_nat (length s)) ++ s.

Lemma puts_varstring err s : puts err (serialize_varstring s) (fun bs _ => bs = varstring s).
Proof.
  eapply puts_bind; [apply puts_varint|]. intros bs _ ->. eapply puts_mono; [apply puts_write| |done]. by intros bs _ ->.
Qed.
End puts.

(** ** Reading integers and names *)

Section reads.
Context `{V : VarInt} `{!VarIntOk V} {R : Type} `{HR : AsyncRead R} `{!AsyncReadOk R} (bad : Prop).

Lemma varstring_length s : in_range u64 (Z.of_nat (length s)) = true -> Z.of_nat (length (varstring s)) = serialized_varstring_size s.
Proof.
  intros Hs. destruct (encode_size _ Hs) as [El _]. unfold varstring, serialized_varstring_size, serialized_varint_size.
  rewrite length_app, El. lia.
Qed.

(** The bytes of an encoding are pushed until its last one. *)
Lemma parses_varint_loop fuel buf init b c : length init + 1 < fuel -> length buf + length init < MAX_SIZE ->
  Forall (fun x => has_msb x = true) (buf ++ init) -> has_msb b = false ->
  parses bad (varint_loop fuel buf) (init ++ b :: c) (fun x c' => x = buf ++ init ++ [b] /\ c' = c).
Proof.
  revert buf init. induction fuel as [|k IH]; intros buf init Hf Hm HF Hb; [lia|]. cbn [varint_loop].
  rewrite msb_unfinished by by apply Forall_app in HF as [? _].
  destruct init as [|a init]; cbn [app length] in *.
  - change (b :: c) with ([b] ++ c). eapply parses_bind; [apply (parses_exact bad [b] c)|]. intros x c' [-> ->]. cbn [head default].
    eapply parses_bind; [apply (parses_lift _ _ (buf ++ [b]))|].
    { unfold VarIntProcessor_push. by destruct (Nat.leb_spec MAX_SIZE (length buf)); [lia|]. }
    intros x c' [-> ->]. destruct k as [|k]; [lia|]. cbn [varint_loop]. rewrite has_msb_last by done. by apply parses_ret.
  - change (a :: init ++ b :: c) with ([a] ++ (init ++ b :: c)). eapply parses_bind; [apply (parses_exact bad [a])|].
    intros x c' [-> ->]. cbn [head default].
    eapply parses_bind; [apply (parses_lift _ _ (buf ++ [a]))|].
    { unfold VarIntProcessor_push. by destruct (Nat.leb_spec MAX_SIZE (length buf)); [lia|]. }
    intros x c' [-> ->]. eapply parses_mono; [apply IH|]; [lia|rewrite length_app; simpl; lia|by rewrite <- app_assoc|done|].
    intros x c' [-> ->]. by rewrite <- app_assoc.
Qed.

Lemma parses_varint n c : in_range u64 n = true -> parses bad deserialize_varint (encode_var n ++ c) (fun x c' => x = n /\ c' = c).
Proof.
  intros Hn. destruct (encode_size n Hn) as [El Hmax]. destruct (encode_last n Hn) as (init & b & En & Hb & HF).
  rewrite En, length_app in El. simpl in El. eapply parses_bind.
  - rewrite En, <- app_assoc. apply (parses_varint_loop _ [] init b c); [lia|simpl; lia|done..].
  - intros x c' [-> ->]. cbn [app]. rewrite <- En, (decode_encode n Hn). by apply parses_lift.
Qed.

Lemma parses_to_end fuel a got c r : reader_of bad r (a ++ c) -> length a + awaits r < fuel ->
  post (read_to_end_loop fuel (length a) got) r (fun r' x =>
    match x with
    | Ready v => v = got ++ a /\ reader_of bad r' c
    | Fail _ => bad
    | _ => False
    end).
Proof.
  revert a got r. induction fuel as [|k IH]; intros a got r [Hc Hb] Hf; [lia|]. unfold post. cbn [read_to_end_loop].
  destruct (Nat.eqb_spec (length a) 0) as [E|E].
  { apply nil_length_inv in E as ->. simpl. rewrite app_nil_r. done. }
  pose proof (poll_spec (length a) r (a ++ c) Hc ltac:(lia)) as Hp. unfold post in Hp.
  destruct (poll (length a) r) as [r1 [out|e| |]]; simpl in Hp; [|..|done].
  - destruct Hp as (Ha & Hl & He & c' & Ec & Hc'). destruct out as [|x out].
    { specialize (He eq_refl). rewrite He in *. by destruct a. }
    assert (exists a2, a = (x :: out) ++ a2 /\ c' = a2 ++ c) as (a2 & -> & ->).
    { exists (drop (length (x :: out)) a). pose proof (f_equal (take (length (x :: out))) Ec) as E1.
      pose proof (f_equal (drop (length (x :: out))) Ec) as E2.
      rewrite take_app_le, take_app_length in E1 by done. rewrite drop_app_le, drop_app_length in E2 by done.
      split; [|done]. by rewrite <- E1 at 1; rewrite take_drop. }
    specialize (IH a2 (got ++ x :: out) r1). unfold post in IH. rewrite length_app.
    replace (length (x :: out) + length a2 - length (x :: out)) with (length a2) by lia.
    assert (0 < length (x :: out)) by (simpl; lia). rewrite length_app in Hf.
    specialize (IH ltac:(split; [done|intros; apply Hb; lia]) ltac:(lia)).
    destruct (read_to_end_loop k _ _ r1) as [r2 [o2|e| |]]; simpl in IH |- *; try done.
    destruct IH as [-> Hr]. by rewrite <- app_assoc.
  - simpl. apply Hb. lia.
  - destruct Hp as [Ha Hc']. apply (IH a got r1); [split; [done|intros; apply Hb; lia]|lia].
Qed.

Lemma parses_to_string a c : utf8_valid a = true -> parses bad (read_to_string (length a)) (a ++ c) (fun x c' => x = a /\ c' = c).
Proof.
  intros Hu r Hr. unfold post, read_to_string. apply post_bind. eapply post_mono; [apply parses_to_end; [exact Hr|lia]|].
  intros r' [x|e| |]; try done. cbn [and_then app]. intros [-> Hr']. rewrite Hu. apply post_ret. by exists c.
Qed.

Lemma parses_varstring s c : utf8_valid s = true -> (Z.of_nat (length s) <= MAX_STR_LEN)%Z ->
  parses bad deserialize_varstring (varstring s ++ c) (fun x c' => x = s /\ c' = c).
Proof.
  intros Hu Hs. unfold varstring. rewrite <- app_assoc. eapply parses_bind.
  - apply parses_varint. unfold MAX_STR_LEN in Hs. apply in_range_u64. lia.
  - intros n c' [-> ->]. replace (Z.to_nat (Z.min (Z.of_nat (length s)) MAX_STR_LEN)) with (length s) by lia. by apply parses_to_string.
Qed.
End reads.

(** ** An encoding *)

Module Leb128.
Definition low (n : Z) : byte := default Byte.x00 (Byte.of_N (Z.to_N n)).

(** Seven bits a byte, the lowest ones first. *)
Fixpoint encode (fuel : nat) (n : Z) : bytes :=
  match fuel with
  | 0 => []
  | S k => if (n <? 128)%Z then [low n] else low (128 + n mod 128) :: encode k (n / 128)
  end.

Fixpoint decode (bs : bytes) : option (Z * nat) :=
  match bs with
  | [] => None
  | b :: r =>
      let v := Z.of_N (Byte.to_N b) in
      if has_msb b then '(n, k) ← decode r; Some ((v - 128) + 128 * n, S k)%Z else Some (v, 1)
  end.

#[export] Instance leb128 : VarInt := {|
  required_space n := length (encode 10 n);
  encode_var n := encode 10 n;
  decode_var bs := '(n, k) ← decode bs; if in_range u64 n then Some (n, k) else None;
|}.

Lemma low_value n : (0 <= n < 256)%Z -> Z.of_N (Byte.to_N (low n)) = n.
Proof.
  intros Hn. unfold low. destruct (Byte.of_N (Z.to_N n)) as [b|] eqn:E; simpl.
  - apply Byte.to_of_N in E. lia.
  - apply Byte.of_N_None_iff in E. lia.
Qed.

Lemma low_msb n : (0 <= n < 256)%Z -> has_msb (low n) = (128 <=? n)%Z.
Proof.
  intros Hn. unfold has_msb, MSB. rewrite low_value by done. change 128%Z with (2 ^ 7)%Z at 1.
  destruct (Z.leb_spec 128 n) as [Hl|Hl].
  - apply negb_true_iff, Z.eqb_neq. intros E. apply (f_equal (fun z => Z.testbit z 7)) in E.
    rewrite Z.land_spec in E. rewrite Z.bits_0, (Z.pow2_bits_true 7), andb_true_r in E by lia.
    assert (n = 128 + n mod 128)%Z as E2 by (Z.to_euclidean_division_equations; lia).
    rewrite Z.testbit_eqb in E by lia. change (2 ^ 7)%Z with 128%Z in E. apply Z.eqb_neq in E. Z.to_euclidean_division_equations. lia.
  - apply negb_false_iff, Z.eqb_eq. apply Z.bits_inj'. intros i Hi. rewrite Z.land_spec, Z.bits_0.
    destruct (Z.eq_dec i 7%Z) as [->|Hne]; [|rewrite (Z.pow2_bits_false 7 i) by lia; apply andb_false_r].
    rewrite Z.testbit_eqb by lia. change (2 ^ 7)%Z with 128%Z. rewrite Z.div_small by lia. done.
Qed.

Lemma encode_spec fuel n : (0 <= n < 128 ^ Z.of_nat fuel)%Z -> 0 < fuel ->
  decode (encode fuel n) = Some (n, length (encode fuel n)) /\ length (encode fuel n) <= fuel /\
  exists init b, encode fuel n = init ++ [b] /\ has_msb b = false /\ Forall (fun x => has_msb x = true) init.
Proof.
  revert n. induction fuel as [|k IH]; intros n Hn Hf; [lia|]. cbn [encode]. destruct (Z.ltb_spec n 128) as [Hlt|Hge].
  - assert (has_msb (low n) = false) as Hb by (rewrite low_msb by lia; lia).
    cbn [decode length]. rewrite Hb, low_value by lia. split; [done|]. split; [lia|]. by exists [], (low n).
  - destruct k as [|k]; [cbn in Hn; lia|].
    assert (0 <= n / 128 < 128 ^ Z.of_nat (S k))%Z as Hd.
    { replace (Z.of_nat (S (S k))) with (1 + Z.of_nat (S k))%Z in Hn by lia. rewrite Z.pow_add_r in Hn by lia.
      split; [apply Z.div_pos; lia|apply Z.div_lt_upper_bound; lia]. }
    destruct (IH (n / 128)%Z Hd ltac:(lia)) as (D & Hl & init & b & E & Hb & HF).
    pose proof (Z.mod_pos_bound n 128 ltac:(lia)).
    assert (has_msb (low (128 + n mod 128)) = true) as Hm by (rewrite low_msb by lia; lia).
    remember (encode (S k) (n / 128)) as r eqn:Er. cbn [decode length]. rewrite Hm, low_value, D by lia. simpl. split.
    { do 2 f_equal. pose proof (Z.div_mod n 128 ltac:(lia)). lia. }
    split; [lia|]. exists (low (128 + n mod 128) :: init), b. rewrite E. split; [done|]. split; [done|]. by constructor.
Qed.

#[export] Instance leb128_ok : VarIntOk leb128.
Proof.
  assert (forall n, in_range u64 n = true -> (0 <= n < 128 ^ Z.of_nat 10)%Z) as Hr.
  { intros n Hn%in_range_u64. change (128 ^ Z.of_nat 10)%Z with (2 ^ 70)%Z. lia. }
  assert (forall n, in_range u64 n = true -> _) as Hs by (intros n Hn; exact (encode_spec 10 n (Hr n Hn) ltac:(lia))).
  split.
  - intros n Hn. destruct (Hs n Hn) as (_ & Hl & _). by split.
  - intros n Hn. apply (Hs n Hn).
  - intros n Hn. destruct (Hs n Hn) as (D & _ & _). cbn [decode_var leb128 encode_var]. rewrite D. cbn -[in_range]. by rewrite Hn.
  - intros bs n k E. cbn -[in_range] in E. destruct (decode bs) as [[m j]|]; [|done]. cbn -[in_range] in E. destruct (in_range u64 m) eqn:Em; [|done]. by injection E as -> _.
Qed.
End Leb128.
