(* ===== verification/MerkleArchive.v ===== *)
(** * Merkle archives

    [shared-libs/crates/start-core/src/s9pk/merkle_archive]: [mod.rs], [directory_contents.rs], [file_contents.rs],
    [hash.rs], [write_queue.rs] and the parts of [source/mod.rs] that they use; [sign/commitment/merkle_archive.rs];
    how [s9pk/v2/mod.rs] writes and opens the archive of a package.

    A package is a tree of files whose directories are hashed by the hashes of their entries; the hash of the root is
    signed.  [blake3] and the signatures are parameters, as bytes.  What is written goes to anything that takes bytes
    ([Writes], MerkleVarint.v), what is read comes from an archive (SquashImage.v).  A file source is a parameter, the class
    [ReadSource]: its size, and a reader with its own answers.  An [OrdMap] is its sorted list of entries; the message of an
    [Error] stands for the error.  Additions of sizes and positions are those of [u64] as long as the archive itself is smaller than
    [2^64]. *)
From S2P Require Import Prelude RustStr BTree SquashFormat SquashBlocks SquashTree SquashData SquashIo SquashImage MerkleVarint.

Local Open Scope rust_scope.
Local Open Scope poll_scope.

(** [u64::to_be_bytes] and [from_be_bytes]. *)
Definition to_be_bytes (z : Z) : bytes := rev (to_le_bytes u64 z).
Definition from_be_bytes (bs : bytes) : Z := from_le_bytes u64 (rev bs).

(** [blake3] of some bytes, as the 32 bytes of a [Hash]. *)
Class Hashing : Type := { b3 : bytes -> bytes }.
Class HashingOk (H : Hashing) : Prop := { b3_length : forall c, length (b3 c) = 32 }.

(** [FileSource::size] and [FileSource::reader]. *)
Class SizedSource (S : Type) : Type := { rs_size : S -> io Z }.
Class ReadSource (S : Type) : Type := { rs_reader : S -> io Source }.

(** [FileSource for Arc<\[u8\]>]. *)
#[export] Instance Bytes_sized : SizedSource bytes := {| rs_size c := Ok (Z.of_nat (length c)) |}.
#[export] Instance Bytes_read : ReadSource bytes := {| rs_reader c := Ok (mkSource c []) |}.

(** [Path::join]. *)
Definition path_join (p q : bytes) : bytes :=
  if bool_decide (head q = Some slash) then q
  else if bool_decide (p = []) || bool_decide (last p = Some slash) then p ++ q
  else p ++ slash :: q.

(** ** Trees *)

Section Tree.
Context {S : Type}.

Inductive Entry : Type :=
| mkEntry (hash : option (bytes * Z)) (contents : EntryContents)
with EntryContents : Type :=
| Missing
| File (source : S)
| Directory (d : DirectoryContents)
with DirectoryContents : Type :=
| mkDirectory (entries : list (bytes * Entry)) (end_of_source : Z) (order : option (bytes -> bytes -> comparison)).

Definition e_hash (e : Entry) : option (bytes * Z) := let '(mkEntry h _) := e in h.
Definition e_contents (e : Entry) : EntryContents := let '(mkEntry _ c) := e in c.
Definition d_entries (d : DirectoryContents) : list (bytes * Entry) := let '(mkDirectory es _ _) := d in es.
Definition source_end (d : DirectoryContents) : Z := let '(mkDirectory _ e _) := d in e.
Definition d_order (d : DirectoryContents) : option (bytes -> bytes -> comparison) := let '(mkDirectory _ _ o) := d in o.

Definition DirectoryContents_new : DirectoryContents := mkDirectory [] 0 None.

Definition DirectoryContents_sort_by (order : bytes -> bytes -> comparison) (d : DirectoryContents) : DirectoryContents :=
  mkDirectory (d_entries d) (source_end d) (Some order).

Definition Entry_new (c : EntryContents) : Entry := mkEntry None c.
Definition Entry_file (source : S) : Entry := Entry_new (File source).
Definition Entry_directory (d : DirectoryContents) : Entry := Entry_new (Directory d).

Definition as_file (e : Entry) : option S := match e_contents e with File f => Some f | _ => None end.
Definition as_directory (e : Entry) : option DirectoryContents := match e_contents e with Directory d => Some d | _ => None end.

Definition type_id (c : EntryContents) : byte :=
  match c with Missing => Byte.x00 | File _ => Byte.x01 | Directory _ => Byte.x02 end.

Definition is_dir (c : EntryContents) : bool := match c with Directory _ => true | _ => false end.
Definition is_missing (c : EntryContents) : bool := match c with Missing => true | _ => false end.

(** *** Paths *)

Definition get (name : bytes) (d : DirectoryContents) : option Entry := BTreeMap_get bytes_cmp name (d_entries d).

(** The segments that iterating over a [Path] gives; the root is skipped. *)
Definition segment (c : component) : option bytes :=
  match c with RootDir => None | CurDir => Some dot | ParentDir => Some dotdot | Normal name => Some name end.

Definition segments (path : bytes) : list bytes := omap segment (components path).

(** The loop of [get_path]: the directory to look in and the entry found last. *)
Fixpoint get_segments (path : list bytes) (dir : option DirectoryContents) (res : option Entry) : option Entry :=
  match path with
  | [] => res
  | segment :: rest =>
      if utf8_valid segment then
        match dir with
        | None => None
        | Some d =>
            let res := get segment d in
            get_segments rest (match res with Some e => as_directory e | None => None end) res
        end
      else None
  end.

Definition get_path (path : bytes) (d : DirectoryContents) : option Entry := get_segments (segments path) (Some d) None.

(** The directories of [insert_path], made where they are missing; a directory that is entered loses its hash. *)
Fixpoint insert_segments (path : list bytes) (file : bytes) (entry : Entry) (d : DirectoryContents) : DirectoryContents * io unit :=
  match path with
  | [] => (mkDirectory (BTreeMap_insert bytes_cmp file entry (d_entries d)) (source_end d) (d_order d), Ok tt)
  | segment :: rest =>
      if utf8_valid segment then
        let es := match get segment d with
                  | Some _ => d_entries d
                  | None => BTreeMap_insert bytes_cmp segment (Entry_new (Directory DirectoryContents_new)) (d_entries d)
                  end in
        match BTreeMap_get bytes_cmp segment es with
        | Some (mkEntry _ (Directory sub)) =>
            let '(sub', r) := insert_segments rest file entry sub in
            (mkDirectory (BTreeMap_insert bytes_cmp segment (mkEntry None (Directory sub')) es) (source_end d) (d_order d), r)
        | Some (mkEntry _ c) =>
            (mkDirectory (BTreeMap_insert bytes_cmp segment (mkEntry None c) es) (source_end d) (d_order d),
             invalid $"ancestor exists and is not a directory")
        | None => (d, invalid $"ancestor exists and is not a directory")
        end
      else (d, invalid $"non-utf8 path segment")
  end.

(** [path.parent()] and [path.file_name()] by the components of the path. *)
Definition insert_path (path : bytes) (entry : Entry) (d : DirectoryContents) : DirectoryContents * io unit :=
  let cs := components path in
  match last cs with
  | Some (Normal file) =>
      if utf8_valid file then insert_segments (omap segment (removelast cs)) file entry d
      else (d, invalid $"cannot create file at root")
  | _ => (d, invalid $"cannot create file at root")
  end.

(** [DirectoryContents::file_paths]; the path of a directory ends in a slash. *)
Fixpoint file_paths (prefix : bytes) (d : DirectoryContents) : list bytes :=
  let '(mkDirectory es _ _) := d in
  concat (map (fun x =>
    let path := path_join prefix x.1 in
    match x.2 with
    | mkEntry _ (Directory sub) => path_join path [] :: file_paths path sub
    | _ => [path]
    end) es).
End Tree.
Arguments Entry S : clear implicits.
Arguments EntryContents S : clear implicits.
Arguments DirectoryContents S : clear implicits.

(** ** Sizes *)

Section Sizes.
Context `{V : VarInt} {S : Type}.

Definition FileContents_header_size : Z := 8.
Definition DirectoryContents_header_size : Z := 8 + 8.

Definition EntryContents_header_size (c : EntryContents S) : Z :=
  (1 + match c with Missing => 0 | File _ => FileContents_header_size | Directory _ => DirectoryContents_header_size end)%Z.

Definition Entry_header_size (e : Entry S) : Z := (32 + 8 + EntryContents_header_size (e_contents e))%Z.

Definition MerkleArchive_header_size : Z := (32 + 64 + 32 + 8 + DirectoryContents_header_size)%Z.

Definition toc_size (d : DirectoryContents S) : Z :=
  fold_left (fun acc x => (acc + serialized_varstring_size x.1 + Entry_header_size x.2)%Z) (d_entries d)
    (serialized_varint_size (Z.of_nat (length (d_entries d)))).
End Sizes.

(** ** Copying and verifying *)

Section Copy.
Context `{H : Hashing} {W : Type} `{Writes W}.

(** [VerifyingWriter::poll_write]: what is left of the size, when it is checked. *)
Definition verifying_write (verify : option (bytes * Z)) (buf : bytes) : M W (option (bytes * Z)) :=
  match verify with
  | Some (h, remaining) =>
      if (remaining <? Z.of_nat (length buf))%Z then fail $"attempted to write more bytes than signed"
      else w_write buf ;> m_ret (Some (h, remaining - Z.of_nat (length buf))%Z)
  | None => w_write buf ;> m_ret None
  end.

(** The size of the buffer of [tokio::io::copy]. *)
Definition COPY_SIZE : nat := Z.to_nat 8192.

(** [tokio::io::copy] into a [VerifyingWriter]; the bytes that were hashed. *)
Fixpoint copy_loop (fuel : nat) (verify : option (bytes * Z)) (hashed : bytes) (r : Source) : M W (bytes * option (bytes * Z)) :=
  match fuel with
  | 0 => m_panic
  | S k =>
      match source_poll_read COPY_SIZE r with
      | (_, Ready []) => m_ret (hashed, verify)
      | (r', Ready out) => let> verify' := verifying_write verify out in copy_loop k verify' (hashed ++ out) r'
      | (r', Pending) => copy_loop k verify hashed r'
      | (_, Fail e) => m_fail e
      | (_, Panics) => m_panic
      end
  end.

(** [FileSource::copy_verify] with a reader, and [VerifyingWriter::verify]. *)
Definition copy_reader (verify : option (bytes * Z)) (r : Source) : M W unit :=
  let> (hashed, verify') := copy_loop (2 + length (data r) + length (rscript r)) verify [] r in
  match verify' with
  | Some (expected, remaining) =>
      if negb (bool_decide (b3 hashed = expected)) then fail $"hash sum mismatch"
      else if negb (remaining =? 0)%Z then fail $"file size mismatch"
      else m_ret tt
  | None => m_ret tt
  end.

Definition copy_verify {S} `{ReadSource S} (source : S) (verify : option (bytes * Z)) : M W unit :=
  let> r := lift_io (rs_reader source) in
  copy_reader verify r.
End Copy.

(** The result of a computation on a [Vec] of its own. *)
Definition to_io (m : M bytes unit) : io bytes :=
  match m [] with
  | (v, Ready _) => Ok v
  | (_, Fail e) => Err e
  | (_, _) => invalid $""
  end.

(** ** Hashes and tables of contents *)

Section Contents.
Context `{V : VarInt} `{H : Hashing} {S : Type} `{SizedSource S} `{ReadSource S}.

(** [FileContents::hash]: the file is copied into a hasher. *)
Definition FileContents_hash (source : S) : io (bytes * Z) :=
  let? c := to_io (copy_verify source None) in
  Ok (b3 c, Z.of_nat (length c)).

Record WriteQueue : Type := mkQueue { next_available_position : Z; queue : list (Entry S) }.

Definition WriteQueue_new (position : Z) : WriteQueue := mkQueue position [].

Definition WriteQueue_add (e : Entry S) (q : WriteQueue) : io (Z * WriteQueue) :=
  let push size := Ok (next_available_position q, mkQueue (next_available_position q + size) (queue q ++ [e]))%Z in
  match e_contents e with
  | Missing => Ok (0%Z, q)
  | File f => let? size := rs_size f in push size
  | Directory d => push (toc_size d)
  end.

(** The order of a table of contents: directories, then files by [sort_by], then missing entries by name. *)
Definition toc_cmp (order : option (bytes -> bytes -> comparison)) (a b : bytes * Entry S) : comparison :=
  let ca := e_contents a.2 in
  let cb := e_contents b.2 in
  if is_dir ca && negb (is_dir cb) then Lt
  else if negb (is_dir ca) && is_dir cb then Gt
  else if is_missing ca && negb (is_missing cb) then Gt
  else if negb (is_missing ca) && is_missing cb then Lt
  else if is_missing ca && is_missing cb then bytes_cmp a.1 b.1
  else match order with Some cmp => cmp a.1 b.1 | None => Eq end.

Definition toc_entries (d : DirectoryContents S) : list (bytes * Entry S) := sort_by (toc_cmp (d_order d)) (d_entries d).

Section Write.
Context {W : Type} `{Writes W}.
(** [EntryContents::hash], for an entry without one. *)
Variable contents_hash : EntryContents S -> io (bytes * Z).

Definition EntryContents_serialize_header (c : EntryContents S) (position : Z) : M W unit :=
  w_write [type_id c] ;>
  match c with
  | Missing => m_ret tt
  | File _ => w_write (to_be_bytes position)
  | Directory d => w_write (to_be_bytes position) ;> w_write (to_be_bytes (toc_size d))
  end.

Definition Entry_serialize_header (e : Entry S) (position : Z) : M W unit :=
  let> (h, size) := match e_hash e with Some x => m_ret x | None => lift_io (contents_hash (e_contents e)) end in
  w_write h ;>
  w_write (to_be_bytes size) ;>
  EntryContents_serialize_header (e_contents e) position.

Fixpoint toc_loop (es : list (bytes * Entry S)) (q : WriteQueue) : M W WriteQueue :=
  match es with
  | [] => m_ret q
  | (name, e) :: rest =>
      serialize_varstring name ;>
      let> (position, q') := lift_io (WriteQueue_add e q) in
      Entry_serialize_header e position ;>
      toc_loop rest q'
  end.

Definition serialize_toc (d : DirectoryContents S) (q : WriteQueue) : M W WriteQueue :=
  serialize_varint (Z.of_nat (length (d_entries d))) ;>
  toc_loop (toc_entries d) q.
End Write.

(** [EntryContents::hash] of a missing entry. *)
Definition missing_hash (_ : EntryContents S) : io (bytes * Z) := invalid $"Cannot compute hash of missing file".

(** The directory of missing entries that [sighash] hashes the table of. *)
Definition missing_directory (hs : list (bytes * (bytes * Z))) : DirectoryContents S :=
  mkDirectory (map (fun x => (x.1, mkEntry (Some x.2) Missing)) hs) 0 None.

Definition sighash_of (hs : list (bytes * (bytes * Z))) : bytes :=
  b3 (serialize_toc (W := bytes) missing_hash (missing_directory hs) (WriteQueue_new 0) []).1.

(** [to_missing] of all entries: their hashes, computed where there is none. *)
Fixpoint contents_hash (c : EntryContents S) : io (bytes * Z) :=
  match c with
  | Missing => invalid $"Cannot compute hash of missing file"
  | File f => FileContents_hash f
  | Directory (mkDirectory es _ _ as d) =>
      let? hs := (fix hashes (es : list (bytes * Entry S)) : io (list (bytes * (bytes * Z))) :=
        match es with
        | [] => Ok []
        | (name, mkEntry h c) :: rest =>
            let? x := match h with Some x => Ok x | None => contents_hash c end in
            let? hs := hashes rest in
            Ok ((name, x) :: hs)
        end) es in
      Ok (sighash_of hs, toc_size d)
  end.

Fixpoint entry_hashes (es : list (bytes * Entry S)) : io (list (bytes * (bytes * Z))) :=
  match es with
  | [] => Ok []
  | (name, mkEntry h c) :: rest =>
      let? x := match h with Some x => Ok x | None => contents_hash c end in
      let? hs := entry_hashes rest in
      Ok ((name, x) :: hs)
  end.

Definition sighash (d : DirectoryContents S) : io bytes :=
  let? hs := entry_hashes (d_entries d) in Ok (sighash_of hs).

(** A change of one entry after the other, up to the first error. *)
Definition then_rest {A} (name : bytes) (r : Entry S * io A) (rest : list (bytes * Entry S)) (k : list (bytes * Entry S) * io unit)
    : list (bytes * Entry S) * io unit :=
  match r with
  | (e, Ok _) => let '(es, r') := k in ((name, e) :: es, r')
  | (e, Err err) => ((name, e) :: rest, Err err)
  end.

(** [self.hash = Some(self.contents.hash()?)]. *)
Definition set_hash (old : option (bytes * Z)) (c : EntryContents S) : Entry S * io unit :=
  match contents_hash c with
  | Ok h => (mkEntry (Some h) c, Ok tt)
  | Err err => (mkEntry old c, Err err)
  end.

(** [Entry::update_hash] and [DirectoryContents::update_hashes]; the flag is only passed on. *)
Fixpoint update_hash (only_missing : bool) (e : Entry S) : Entry S * io unit :=
  match e with
  | mkEntry h (Directory (mkDirectory es stop order)) =>
      let '(es', r) := (fix update (es : list (bytes * Entry S)) : list (bytes * Entry S) * io unit :=
        match es with
        | [] => ([], Ok tt)
        | (name, e) :: rest => then_rest name (update_hash only_missing e) rest (update rest)
        end) es in
      let c := Directory (mkDirectory es' stop order) in
      match r with
      | Ok _ => set_hash h c
      | Err err => (mkEntry h c, Err err)
      end
  | mkEntry h c => set_hash h c
  end.

Definition update_entries (only_missing : bool) : list (bytes * Entry S) -> list (bytes * Entry S) * io unit :=
  fix update es :=
    match es with
    | [] => ([], Ok tt)
    | (name, e) :: rest => then_rest name (update_hash only_missing e) rest (update rest)
    end.

Definition update_hashes (only_missing : bool) (d : DirectoryContents S) : DirectoryContents S * io unit :=
  let '(es, r) := update_entries only_missing (d_entries d) in
  (mkDirectory es (source_end d) (d_order d), r).

(** An entry that is filtered out keeps its hash. *)
Definition drop_entry (e : Entry S) : Entry S * io unit :=
  match e with
  | mkEntry None _ => (e, invalid $"cannot filter out unhashed file")
  | mkEntry h _ => (mkEntry h Missing, Ok tt)
  end.

(** [Entry::filter] and [DirectoryContents::filter]: the names below a directory are joined to its name. *)
Fixpoint filter_entry (keep : bytes -> bool) (e : Entry S) : Entry S * io unit :=
  match e with
  | mkEntry h (Directory (mkDirectory es stop order)) =>
      let '(es', r) := (fix filter_all (es : list (bytes * Entry S)) : list (bytes * Entry S) * io unit :=
        match es with
        | [] => ([], Ok tt)
        | (name, e) :: rest =>
            then_rest name (if keep name then filter_entry (fun p => keep (path_join name p)) e else drop_entry e) rest (filter_all rest)
        end) es in
      (mkEntry h (Directory (mkDirectory es' stop order)), r)
  | _ => (e, Ok tt)
  end.

Definition filter_entries (keep : bytes -> bool) : list (bytes * Entry S) -> list (bytes * Entry S) * io unit :=
  fix filter_all es :=
    match es with
    | [] => ([], Ok tt)
    | (name, e) :: rest =>
        then_rest name (if keep name then filter_entry (fun p => keep (path_join name p)) e else drop_entry e) rest (filter_all rest)
    end.

Definition DirectoryContents_filter (keep : bytes -> bool) (d : DirectoryContents S) : DirectoryContents S * io unit :=
  let '(es, r) := filter_entries keep (d_entries d) in
  (mkDirectory es (source_end d) (d_order d), r).

(** *** Writing all that is queued *)

(** [WriteQueue::serialize]; every entry below those queued is popped once. *)
Fixpoint queue_loop {W} `{Writes W} (fuel : nat) (verify : bool) (q : WriteQueue) : M W unit :=
  match fuel with
  | 0 => m_panic
  | Datatypes.S k =>
      match queue q with
      | [] => m_ret tt
      | e :: rest =>
          let q1 := mkQueue (next_available_position q) rest in
          match e_contents e with
          | Missing => queue_loop k verify q1
          | File f =>
              copy_verify f (if verify then e_hash e else None) ;>
              queue_loop k verify q1
          | Directory d =>
              let> q2 := serialize_toc contents_hash d q1 in
              queue_loop k verify q2
          end
      end
  end.

(** The entries in a tree. *)
Fixpoint entries_in (c : EntryContents S) : nat :=
  match c with
  | Directory (mkDirectory es _ _) => list_sum (map (fun x => match x.2 with mkEntry _ c => 1 + entries_in c end) es)
  | _ => 0
  end.
End Contents.
Arguments WriteQueue S : clear implicits.

(** ** Archives *)

(** [ed25519_dalek]: keys and signatures as their bytes; the message is what the [Sha512] digest is updated with. *)
Class Ed25519 : Type := {
  SigningKey : Type;
  verifying_key : SigningKey -> bytes;
  sign_prehashed : SigningKey -> bytes -> bytes -> io bytes;
  valid_key : bytes -> bool;
  verify_prehashed_strict : bytes -> bytes -> bytes -> bytes -> bool;
}.

(** What is signed is verified. *)
Class Ed25519Ok (E : Ed25519) : Prop := {
  key_length : forall k, length (verifying_key k) = 32;
  key_valid : forall k, valid_key (verifying_key k) = true;
  sign_length : forall k m c s, sign_prehashed k m c = Ok s -> length s = 64;
  sign_verifies : forall k m c s, sign_prehashed k m c = Ok s -> verify_prehashed_strict (verifying_key k) m c s = true;
}.

(** [Section] of a source that is the archive. *)
Record Section_ : Type := mkSection { se_position : Z; se_size : Z }.

#[export] Instance Section_sized : SizedSource Section_ := {| rs_size s := Ok (se_size s) |}.

Section Archive.
Context `{V : VarInt} `{H : Hashing} `{E : Ed25519}.

Inductive Signer : Type :=
| Signed (key signature : bytes) (max_size : Z) (context : bytes)
| Signing (key : SigningKey) (context : bytes).

Record MerkleArchive (S : Type) : Type := mkArchive { ma_signer : Signer; ma_contents : DirectoryContents S }.
Arguments mkArchive {S}.
Arguments ma_signer {S}.
Arguments ma_contents {S}.

Definition MerkleArchive_new {S} (d : DirectoryContents S) (key : SigningKey) (context : bytes) : MerkleArchive S :=
  mkArchive (Signing key context) d.

Definition MerkleArchive_signer {S} (a : MerkleArchive S) : bytes :=
  match ma_signer a with Signed k _ _ _ => k | Signing k _ => verifying_key k end.

Definition set_signer {S} (key : SigningKey) (context : bytes) (a : MerkleArchive S) : MerkleArchive S :=
  mkArchive (Signing key context) (ma_contents a).

Record MerkleArchiveCommitment : Type := mkCommitment { root_sighash : bytes; root_maxsize : Z }.

(** [Digestable::update]. *)
Definition digest (c : MerkleArchiveCommitment) : bytes := root_sighash c ++ to_be_bytes (root_maxsize c).

Section Serialize.
Context {S : Type} `{SizedSource S} `{ReadSource S}.

Definition commitment (a : MerkleArchive S) : io MerkleArchiveCommitment :=
  let size := match ma_signer a with Signed _ _ s _ => s | Signing _ _ => toc_size (ma_contents a) end in
  let? h := sighash (ma_contents a) in
  Ok (mkCommitment h size).

Definition signature (a : MerkleArchive S) : io bytes :=
  match ma_signer a with
  | Signed _ s _ _ => Ok s
  | Signing k context => let? c := commitment a in sign_prehashed k (digest c) context
  end.

Definition MerkleArchive_update_hashes (only_missing : bool) (a : MerkleArchive S) : MerkleArchive S * io unit :=
  let '(d, r) := update_hashes only_missing (ma_contents a) in (mkArchive (ma_signer a) d, r).

Definition MerkleArchive_filter (keep : bytes -> bool) (a : MerkleArchive S) : MerkleArchive S * io unit :=
  let '(d, r) := DirectoryContents_filter keep (ma_contents a) in (mkArchive (ma_signer a) d, r).

(** [MerkleArchiveCommitment::check]. *)
Definition commitment_check (c : MerkleArchiveCommitment) (a : MerkleArchive S) : io unit :=
  let? c' := commitment a in
  if negb (bool_decide (root_sighash c' = root_sighash c)) then invalid $"merkle root mismatch"
  else if (root_maxsize c <? root_maxsize c')%Z then invalid $"merkle root directory max size too large"
  else Ok tt.

(** [MerkleArchive::serialize] to an output whose position is the number of bytes it got. *)
Definition MerkleArchive_serialize (verify : bool) (a : MerkleArchive S) : M Sink unit :=
  let> c := lift_io (commitment a) in
  let> (key, s) := lift_io (match ma_signer a with
                            | Signed key s _ _ => Ok (key, s)
                            | Signing k context => let? s := sign_prehashed k (digest c) context in Ok (verifying_key k, s)
                            end) in
  w_write key ;>
  w_write s ;>
  w_write (root_sighash c) ;>
  w_write (to_be_bytes (root_maxsize c)) ;>
  let> start := get_position in
  let position := (start + DirectoryContents_header_size)%Z in
  w_write (to_be_bytes position) ;>
  w_write (to_be_bytes (toc_size (ma_contents a))) ;>
  let> q := serialize_toc contents_hash (ma_contents a) (WriteQueue_new (position + toc_size (ma_contents a))) in
  queue_loop (1 + entries_in (Directory (ma_contents a))) verify q.
End Serialize.

(** ** Reading *)

Definition section_end (s : Section_) : Z := (se_position s + se_size s)%Z.

(** [Section::reader] and [Section::slice]. *)
Definition section_reader (s : Section_) : M Archived Source := source_fetch (se_position s) (se_size s).

Definition section_slice (s : Section_) (position size : Z) : M Archived Source :=
  let position := Z.min position (se_size s) in
  if (2 ^ 64 <=? se_position s + position)%Z then fail $"archive section offset overflow"
  else source_fetch (se_position s + position) (Z.min size (se_size s - position)).

Definition get_reported : M Archived (option Z) := fun a => (a, Ready (reported a)).

Definition checked_end (position size : Z) : M Archived Z :=
  let stop := (position + size)%Z in
  if (2 ^ 64 <=? stop)%Z then fail $"invalid range"
  else
    let> limit := get_reported in
    match limit with
    | Some limit => if (stop <=? limit)%Z then m_ret stop else fail $"invalid range"
    | None => m_ret stop
    end.

(** [read_exact] of a header, which is a reader of its own. *)
Definition read_header (n : nat) (header : Source) : M Archived (bytes * Source) := run (await_exact n) header.

Definition FileContents_deserialize (header : Source) (size : Z) : M Archived (Section_ * Source) :=
  let> (bs, header) := read_header 8 header in
  let position := from_be_bytes bs in
  let> _ := checked_end position size in
  m_ret (mkSection position size, header).

(** How far an entry reaches. *)
Definition entry_end (e : Entry Section_) : Z :=
  match e_contents e with Missing => 0 | File f => section_end f | Directory d => source_end d end.

(** The hashes of entries that were read, all of which have one. *)
Definition read_hashes (es : list (bytes * Entry Section_)) : option (list (bytes * (bytes * Z))) :=
  mapM (fun x => h ← e_hash x.2; Some (x.1, h)) es.

Section Deserialize.
(** [DirectoryContents::deserialize], for the directories below. *)
Variable directory : Source -> bytes -> Z -> M Archived (DirectoryContents Section_ * Source).

Definition EntryContents_deserialize (header : Source) (h : bytes) (size : Z) : M Archived (EntryContents Section_ * Source) :=
  let> (bs, header) := read_header 1 header in
  match bs with
  | [Byte.x00] => m_ret (Missing, header)
  | [Byte.x01] => let> (f, header) := FileContents_deserialize header size in m_ret (File f, header)
  | [Byte.x02] => let> (d, header) := directory header h size in m_ret (Directory d, header)
  | _ => fail $"Unknown type id found in MerkleArchive"
  end.

Definition Entry_deserialize (header : Source) : M Archived (Entry Section_ * Source) :=
  let> (h, header) := read_header 32 header in
  let> (bs, header) := read_header 8 header in
  let size := from_be_bytes bs in
  let> (c, header) := EntryContents_deserialize header h size in
  m_ret (mkEntry (Some (h, size)) c, header).

(** The loop over the [n] entries of a table; each one takes a byte at least. *)
Fixpoint entries_loop (fuel : nat) (n : Z) (toc : Source) (es : list (bytes * Entry Section_)) (stop : Z)
    : M Archived (list (bytes * Entry Section_) * Z) :=
  match fuel with
  | 0 => m_panic
  | S k =>
      if (n =? 0)%Z then m_ret (es, stop)
      else
        let> (name, toc) := run deserialize_varstring toc in
        let> (e, toc) := Entry_deserialize toc in
        entries_loop k (n - 1) toc (BTreeMap_insert bytes_cmp name e es) (Z.max stop (entry_end e))
  end.
End Deserialize.

(** [depth] bounds how deep directories are nested. *)
Fixpoint DirectoryContents_deserialize (depth : nat) (header : Source) (expected : bytes) (max_size : Z)
    : M Archived (DirectoryContents Section_ * Source) :=
  match depth with
  | 0 => m_panic
  | S k =>
      let> (bs, header) := read_header 8 header in
      let position := from_be_bytes bs in
      let> (bs, header) := read_header 8 header in
      let size := from_be_bytes bs in
      if (max_size <? size)%Z then fail $"size is greater than signed"
      else
        let> stop := checked_end position size in
        let> toc := source_fetch position size in
        let> (n, toc) := run deserialize_varint toc in
        let> (es, stop) := entries_loop (DirectoryContents_deserialize k) (1 + length (data toc)) n toc [] stop in
        let> hs := lift_outcome (unwrap (read_hashes es)) in
        if bool_decide (sighash_of (S := Section_) hs = expected) then m_ret (mkDirectory es stop None, header)
        else fail $"hash sum does not match"
  end.

Definition CAP_1_MiB : Z := 1024 * 1024.

Definition MerkleArchive_deserialize (depth : nat) (context : bytes) (header : Source) (expected : option MerkleArchiveCommitment)
    : M Archived (MerkleArchive Section_) :=
  let> (key, header) := read_header 32 header in
  if negb (valid_key key) then fail $"invalid key"
  else
    let> (s, header) := read_header 64 header in
    let> (root, header) := read_header 32 header in
    let> (bs, header) := read_header 8 header in
    let max_size := from_be_bytes bs in
    if negb (verify_prehashed_strict key (digest (mkCommitment root max_size)) context s) then fail $"signature error"
    else
      lift_io (match expected with
               | Some c =>
                   if negb (bool_decide (root = root_sighash c)) then invalid $"merkle root mismatch"
                   else if (root_maxsize c <? max_size)%Z then invalid $"root directory max size too large"
                   else Ok tt
               | None =>
                   if (CAP_1_MiB <? max_size)%Z then
                     invalid $"root directory max size over 1MiB, cancelling download in case of DOS attack"
                   else Ok tt
               end) ;>
      let> (d, _) := DirectoryContents_deserialize depth header root max_size in
      m_ret (mkArchive (Signed key s max_size context) d).

(** [Vec::with_capacity] for bytes, which panics above [isize::MAX]. *)
Definition with_capacity {St} (size : Z) : M St unit := if (2 ^ 63 <=? size)%Z then m_panic else m_ret tt.

(** [FileSource::to_vec] of a section. *)
Definition section_to_vec (s : Section_) (verify : option (bytes * Z)) : M Archived bytes :=
  with_capacity (match verify with Some (_, size) => size | None => se_size s end) ;>
  let> r := section_reader s in
  lift_io (to_io (copy_reader verify r)).

(** [Entry::read_file_to_vec]. *)
Definition read_file_to_vec (e : Entry Section_) : M Archived bytes :=
  match e_contents e with
  | File f => section_to_vec f (e_hash e)
  | Directory _ => fail $"expected file, found directory"
  | Missing => fail $"entry is missing"
  end.

(** ** Packages *)

(** [s9pk/v2/mod.rs]. *)
Definition MAGIC_AND_VERSION : bytes := [Byte.x3b; Byte.x3b; Byte.x02].
Definition SIG_CONTEXT : bytes := bstr "s9pk".

(** [S9pk::serialize]: a manifest that was changed is written as a file of its own. *)
Definition S9pk_serialize {S} `{SizedSource S} `{ReadSource S} (verify : bool) (dirty_manifest : option (io S)) (a : MerkleArchive S) : M Sink unit :=
  w_write MAGIC_AND_VERSION ;>
  match dirty_manifest with
  | None => MerkleArchive_serialize verify a
  | Some manifest =>
      let> manifest := lift_io manifest in
      let '(d, r) := insert_path (bstr "manifest.json") (Entry_file manifest) (ma_contents a) in
      lift_io r ;>
      MerkleArchive_serialize verify (mkArchive (ma_signer a) d)
  end.

(** [S9pk::archive]. *)
Definition S9pk_archive (depth : nat) (expected : option MerkleArchiveCommitment) : M Archived (MerkleArchive Section_) :=
  let> header := source_fetch 0 (Z.of_nat (length MAGIC_AND_VERSION) + MerkleArchive_header_size) in
  let> (magic, header) := read_header (length MAGIC_AND_VERSION) header in
  if negb (bool_decide (magic = MAGIC_AND_VERSION)) then fail $"Invalid Magic or Unexpected Version"
  else MerkleArchive_deserialize depth SIG_CONTEXT header expected.
End Archive.
Arguments mkArchive {_ S}.
Arguments ma_signer {_ S}.
Arguments ma_contents {_ S}.
