(* ===== verification/MerkleHash.v ===== *)
(** * What the hash of a directory covers

    The bytes of a table of contents ([toc_bytes]) as a function of its entries and of the position of the first body, and
    the bytes that the hash of a directory is computed from ([sig_bytes]): they determine the names, hashes and sizes of its
    entries ([sig_bytes_inj]). *)
From stdpp Require Import sorting.
From S2P Require Import Prelude RustStr BTree SquashFormat SquashBlocks SquashTree SquashData SquashIo SquashImage MerkleVarint MerkleBytes MerkleArchive.

Local Open Scope rust_scope.
Local Open Scope poll_scope.

Lemma to_be_bytes_length z : length (to_be_bytes z) = 8.
Proof. unfold to_be_bytes. by rewrite length_rev, to_le_bytes_length. Qed.

Lemma from_to_be_bytes z : in_range u64 z = true -> from_be_bytes (to_be_bytes z) = z.
Proof. intros Hz. unfold from_be_bytes, to_be_bytes. by rewrite rev_involutive, from_to_le_bytes. Qed.

Lemma from_be_bytes_range bs : length bs = 8 -> in_range u64 (from_be_bytes bs) = true.
Proof. intros Hl. apply from_le_bytes_range. by rewrite length_rev. Qed.

Lemma to_be_bytes_inj a c : in_range u64 a = true -> in_range u64 c = true -> to_be_bytes a = to_be_bytes c -> a = c.
Proof. intros Ha Hc E. by rewrite <- (from_to_be_bytes a), <- (from_to_be_bytes c), E. Qed.

(** Sorting what a function that keeps the order was applied to. *)
Lemma sort_by_map {A B} (cmp : A -> A -> comparison) (cmp' : B -> B -> comparison) (f : A -> B) l :
  (forall a b, cmp' (f a) (f b) = cmp a b) -> sort_by cmp' (map f l) = map f (sort_by cmp l).
Proof.
  intros Hf. unfold sort_by. induction l as [|x l IH]; simpl; [done|]. rewrite IH. generalize (foldr (insert_by cmp) [] l). clear -Hf.
  intros l. induction l as [|y l IH]; simpl; [done|]. rewrite Hf. destruct (cmp x y); [done|done|]. by rewrite IH.
Qed.

Lemma sort_by_id {A K} (cmp : K -> K -> comparison) (key : A -> K) l : StronglySorted (keys_lt cmp) (map key l) ->
  sort_by (fun a b => cmp (key a) (key b)) l = l.
Proof.
  unfold sort_by. induction l as [|x l IH]; simpl; [done|]. intros Hs. inversion Hs as [|? ? Hs' HF]; subst. rewrite IH by done.
  destruct l as [|y l]; simpl; [done|]. inversion HF as [|? ? Hxy]; subst. unfold keys_lt in Hxy. by rewrite Hxy.
Qed.

(** ** Tables of contents *)

Section toc.
Context `{V : VarInt} {S : Type} `{HS : SizedSource S} (ch : EntryContents S -> io (bytes * Z)).

(** The hash that is written for an entry, and the size that is reserved for its body. *)
Definition hash_by (e : Entry S) : io (bytes * Z) := match e_hash e with Some x => Ok x | None => ch (e_contents e) end.

Definition body_size (e : Entry S) : io Z :=
  match e_contents e with Missing => Ok 0%Z | File f => rs_size f | Directory d => Ok (toc_size d) end.

Definition known (e : Entry S) : Prop := (exists h, hash_by e = Ok h) /\ exists n, body_size e = Ok n.

Definition hash_of (e : Entry S) : bytes * Z := match hash_by e with Ok h => h | Err _ => ([], 0%Z) end.
Definition body_len (e : Entry S) : Z := match body_size e with Ok n => n | Err _ => 0%Z end.

Definition header_bytes (h : bytes * Z) (c : EntryContents S) (p : Z) : bytes :=
  h.1 ++ to_be_bytes h.2 ++ [type_id c] ++
  match c with Missing => [] | File _ => to_be_bytes p | Directory d => to_be_bytes p ++ to_be_bytes (toc_size d) end.

Definition row (x : bytes * Entry S) (p : Z) : bytes := varstring x.1 ++ header_bytes (hash_of x.2) (e_contents x.2) p.

(** The bodies follow each other from [p] on. *)
Fixpoint rows (p : Z) (es : list (bytes * Entry S)) : bytes :=
  match es with [] => [] | x :: r => row x p ++ rows (p + body_len x.2) r end.

Definition toc_bytes (d : DirectoryContents S) (p : Z) : bytes := encode_var (Z.of_nat (length (d_entries d))) ++ rows p (toc_entries d).

Definition bodies_len (es : list (Entry S)) : Z := fold_right Z.add 0%Z (map body_len es).

Definition has_body (e : Entry S) : bool := negb (is_missing (e_contents e)).

(** Why an entry cannot be written. *)
Definition entry_cause (es : list (bytes * Entry S)) (err : io_error) : Prop :=
  exists x, x ∈ es /\ (hash_by x.2 = Err err \/ body_size x.2 = Err err).

Section spec.
Context {W : Type} `{HW : Writes W} `{!WritesOk W}.

Lemma puts_header (err : io_error -> Prop) e p : (forall x, hash_by e = Err x -> err x) ->
  puts (W := W) err (Entry_serialize_header ch e p) (fun bs _ => (exists h, hash_by e = Ok h) /\ bs = header_bytes (hash_of e) (e_contents e) p).
Proof.
  intros He. unfold Entry_serialize_header.
  assert (puts (W := W) err (match e_hash e with Some x => m_ret x | None => lift_io (ch (e_contents e)) end)
    (fun bs x => bs = [] /\ hash_by e = Ok x)) as Hh.
  { unfold hash_by in *. destruct (e_hash e); [by apply puts_ret|]. by apply puts_lift. }
  eapply puts_bind; [exact Hh|]. intros bs [h size] [-> E]. unfold hash_of. rewrite E. cbn [fst snd].
  eapply puts_bind; [apply puts_write|]. intros bs _ ->.
  eapply puts_bind; [apply puts_write|]. intros bs _ ->.
  eapply puts_bind; [apply puts_write|]. intros bs _ ->. unfold header_bytes. cbn [fst snd].
  destruct (e_contents e) as [|f|d].
  - apply puts_ret. eauto.
  - eapply puts_mono; [apply puts_write| |done]. intros bs _ ->. eauto.
  - eapply puts_bind; [apply puts_write|]. intros bs _ ->. eapply puts_mono; [apply puts_write| |done]. intros bs _ ->. eauto.
Qed.

Lemma queue_add_spec e q : WriteQueue_add e q =
  (let? n := body_size e in
   if has_body e then Ok (next_available_position q, mkQueue (next_available_position q + n) (queue q ++ [e]))%Z else Ok (0%Z, q)).
Proof. unfold WriteQueue_add, body_size, has_body. by destruct (e_contents e). Qed.

Lemma header_missing h c p p' : is_missing c = true -> header_bytes h c p = header_bytes h c p'.
Proof. by destruct c. Qed.

Lemma toc_loop_spec es : forall q, puts (W := W) (entry_cause es) (toc_loop ch es q) (fun bs q' =>
  Forall (fun x => known x.2) es /\ bs = rows (next_available_position q) es /\
  q' = mkQueue (next_available_position q + bodies_len (map snd es)) (queue q ++ filter has_body (map snd es))).
Proof.
  induction es as [|[name e] es IH]; intros q; cbn [toc_loop].
  { apply puts_ret. split; [done|]. split; [done|]. cbn. rewrite app_nil_r, Z.add_0_r. by destruct q. }
  eapply puts_bind; [apply puts_varstring|]. intros bs _ ->.
  eapply puts_bind.
  { apply puts_lift. intros err E. exists (name, e). split; [left|]. right. cbn. rewrite queue_add_spec in E.
    destruct (body_size e); cbn [result_bind] in E; [by destruct (has_body e)|congruence]. }
  intros bs [p q'] [-> E]. rewrite queue_add_spec in E. destruct (body_size e) as [n|] eqn:En; [|done]. cbn [result_bind] in E.
  eapply puts_bind; [apply puts_header; intros x Hx; exists (name, e); split; [left|by left]|].
  intros bs _ [Hh ->]. eapply puts_mono; [apply (IH q')| |].
  2: { intros err (x & Hx & Hc). exists x. split; [by right|done]. }
  intros bs q2 (HF & -> & ->). split; [constructor; [by split; [|exists n]|done]|].
  cbn [rows map snd fst]. unfold row, bodies_len, body_len. cbn [map fold_right snd fst]. rewrite En.
  destruct (has_body e) eqn:Hb; injection E as <- <-; cbn [next_available_position queue].
  - split; [by rewrite <- app_assoc|]. rewrite filter_cons_True by by rewrite Hb. rewrite <- app_assoc. f_equal. unfold body_len. lia.
  - assert (is_missing (e_contents e) = true) as Hm by (by apply negb_false_iff).
    assert (n = 0%Z) as -> by (unfold body_size in En; destruct (e_contents e); [congruence|done..]).
    rewrite Z.add_0_r. split; [by rewrite (header_missing _ _ 0%Z (next_available_position q) Hm), <- app_assoc|].
    rewrite filter_cons_False by (rewrite Hb; by intros []). f_equal.
Qed.

Lemma toc_spec d q : puts (W := W) (entry_cause (d_entries d)) (serialize_toc ch d q) (fun bs q' =>
  Forall (fun x => known x.2) (d_entries d) /\ bs = toc_bytes d (next_available_position q) /\
  q' = mkQueue (next_available_position q + bodies_len (map snd (toc_entries d))) (queue q ++ filter has_body (map snd (toc_entries d)))).
Proof.
  pose proof (sort_by_perm (toc_cmp (d_order d)) (d_entries d)) as Hp. change (toc_entries d ≡ₚ d_entries d) in Hp.
  eapply puts_bind; [apply puts_varint|]. intros bs _ ->. eapply puts_mono; [apply toc_loop_spec| |].
  - intros bs q' (HF & -> & ->). split; [by rewrite <- Hp|done].
  - intros err (x & Hx & Hc). exists x. by rewrite <- Hp.
Qed.
End spec.
End toc.

(** ** The hash of a directory *)

Section sighash.
Context `{V : VarInt} `{!VarIntOk V} `{H : Hashing}.

(** The name, hash and size of an entry, as the hash of its directory covers them. *)
Definition sig_row (x : bytes * (bytes * Z)) : bytes := varstring x.1 ++ x.2.1 ++ to_be_bytes x.2.2 ++ [Byte.x00].

Definition by_name (a b : bytes * (bytes * Z)) : comparison := bytes_cmp a.1 b.1.

Definition sig_bytes (hs : list (bytes * (bytes * Z))) : bytes :=
  encode_var (Z.of_nat (length hs)) ++ concat (map sig_row (sort_by by_name hs)).

Section source.
Context {S : Type} `{HS : SizedSource S}.

Definition to_missing (x : bytes * (bytes * Z)) : bytes * Entry S := (x.1, mkEntry (Some x.2) Missing).

Lemma missing_rows hs p : rows (missing_hash (S := S)) p (map to_missing hs) = concat (map sig_row hs).
Proof.
  revert p. induction hs as [|[name h] hs IH]; intros p; [done|]. cbn [map rows concat]. rewrite IH. f_equal.
Qed.

(** [sighash] hashes these bytes. *)
Lemma sighash_of_eq hs : sighash_of (S := S) hs = b3 (sig_bytes hs).
Proof.
  unfold sighash_of. f_equal. pose proof (toc_spec (W := bytes) (missing_hash (S := S)) (missing_directory hs) (WriteQueue_new 0) []) as Hp.
  unfold puts_from, post in Hp. destruct (serialize_toc missing_hash (missing_directory hs) (WriteQueue_new 0) []) as [v [q|e| |]].
  - destruct Hp as [_ (bs & E & _ & -> & _)]. cbn in E |- *. subst v. unfold toc_bytes, toc_entries, sig_bytes. cbn [d_entries missing_directory d_order].
    rewrite length_map. f_equal. change (map (fun x => (x.1, mkEntry (Some x.2) Missing)) hs) with (map to_missing hs).
    rewrite (sort_by_map by_name _ to_missing) by done. by rewrite missing_rows.
  - destruct Hp as [_ [(x & Hx & Hc)|[]]]. cbn in Hx. apply list_elem_of_fmap in Hx as (y & -> & _). by destruct Hc.
  - by destruct Hp.
  - by destruct Hp.
Qed.
End source.

(** Names have a length, hashes 32 bytes and sizes 64 bits. *)
Definition sig_ok (x : bytes * (bytes * Z)) : Prop :=
  in_range u64 (Z.of_nat (length x.1)) = true /\ length x.2.1 = 32 /\ in_range u64 x.2.2 = true.

Lemma sig_row_inj x y a c : sig_ok x -> sig_ok y -> sig_row x ++ a = sig_row y ++ c -> x = y /\ a = c.
Proof.
  destruct x as [n [h s]], y as [m [g t]]. unfold sig_ok, sig_row, varstring. cbn [fst snd]. intros (Hn & Hh & Hs) (Hm & Hg & Ht) E.
  rewrite <- !app_assoc in E. apply varstring_inj in E as [-> E]; [|done..].
  apply app_inj_1 in E as [-> E]; [|congruence]. apply app_inj_1 in E as [Eb E]; [|by rewrite !to_be_bytes_length].
  apply to_be_bytes_inj in Eb as ->; [|done..]. by apply app_inv_head in E.
Qed.

Lemma sig_rows_inj l k a c : Forall sig_ok l -> Forall sig_ok k -> length l = length k ->
  concat (map sig_row l) ++ a = concat (map sig_row k) ++ c -> l = k.
Proof.
  intros Hl. revert k. induction Hl as [|x l Hx Hl IH]; intros [|y k] Hk El E; try done. inversion Hk as [|? ? Hy Hk']; subst.
  cbn [map concat] in E. rewrite <- !app_assoc in E. apply sig_row_inj in E as [-> E]; [|done..]. injection El as El.
  f_equal. by apply (IH k).
Qed.

(** Directories with the same bytes have the same entries. *)
Lemma sig_bytes_inj l k : Forall sig_ok l -> Forall sig_ok k ->
  in_range u64 (Z.of_nat (length l)) = true -> in_range u64 (Z.of_nat (length k)) = true ->
  sig_bytes l = sig_bytes k -> l ≡ₚ k.
Proof.
  intros Hl Hk Rl Rk E. unfold sig_bytes in E. apply encode_var_inj in E as [El E]; [|done..].
  rewrite <- (sort_by_perm by_name l) in Hl |- *. rewrite <- (sort_by_perm by_name k) in Hk |- *.
  apply reflexive_eq. apply (sig_rows_inj _ _ [] []); [done..| |by rewrite E].
  rewrite (Permutation_length (sort_by_perm by_name l)), (Permutation_length (sort_by_perm by_name k)). lia.
Qed.
End sighash.

Section contents_hash.
Context `{V : VarInt} `{H : Hashing} {S : Type} `{HZ : SizedSource S} `{HS : ReadSource S}.

Lemma contents_hash_directory (d : DirectoryContents S) : contents_hash (Directory d) =
  (let? hs := entry_hashes (d_entries d) in Ok (sighash_of (S := S) hs, toc_size d)).
Proof. by destruct d. Qed.

Lemma entry_hashes_cons x es : entry_hashes (S := S) (x :: es) =
  (let? h := hash_by contents_hash x.2 in let? hs := entry_hashes es in Ok ((x.1, h) :: hs)).
Proof. by destruct x as [name [h c]]. Qed.

(** The hashes of a directory's entries are all known when one asks for all. *)
Lemma entry_hashes_Ok es hs : entry_hashes (S := S) es = Ok hs ->
  Forall (fun x => exists h, hash_by contents_hash x.2 = Ok h) es /\ hs = map (fun x => (x.1, hash_of contents_hash x.2)) es.
Proof.
  revert hs. induction es as [|x es IH]; intros hs E; [injection E as <-; done|]. rewrite entry_hashes_cons in E.
  destruct (hash_by contents_hash x.2) as [h|] eqn:Eh; [|done]. cbn [result_bind] in E. destruct (entry_hashes es) as [hs'|]; [|done].
  injection E as <-. destruct (IH hs' eq_refl) as [HF ->]. split; [constructor; [by exists h|done]|]. cbn [map]. unfold hash_of. by rewrite Eh.
Qed.

Lemma entry_hashes_known es : Forall (fun x => exists h, hash_by contents_hash x.2 = Ok h) es ->
  entry_hashes (S := S) es = Ok (map (fun x => (x.1, hash_of contents_hash x.2)) es).
Proof.
  induction 1 as [|x es [h Eh] _ IH]; [done|]. rewrite entry_hashes_cons, Eh, IH. cbn [result_bind map]. unfold hash_of. by rewrite Eh.
Qed.
End contents_hash.
