(* ===== verification/MerkleCopy.v ===== *)
(** * Copies of files

    [copy_reader]: what [tokio::io::copy] into a [VerifyingWriter] writes to any writer, and why it fails. *)
From S2P Require Import Prelude RustStr BTree SquashFormat SquashBlocks SquashTree SquashData SquashIo SquashImage MerkleVarint MerkleBytes MerkleArchive MerkleHash.

Local Open Scope rust_scope.
Local Open Scope poll_scope.

Section copies.
Context `{H : Hashing} {W : Type} `{HW : Writes W} `{!WritesOk W}.

(** Why a copy fails: the reader does, or what it gives is not what is expected. *)
Definition copy_cause (verify : option (bytes * Z)) (sc : list response) (c : bytes) (e : io_error) : Prop :=
  Failed e ∈ sc \/ exists h size, verify = Some (h, size) /\ (b3 c ≠ h \/ Z.of_nat (length c) ≠ size).

(** What is left to be written of an expected size. *)
Definition left_of (verify : option (bytes * Z)) (n : nat) : option (bytes * Z) := '(h, size) ← verify; Some (h, size - Z.of_nat n)%Z.

Definition short_of (verify : option (bytes * Z)) (n : nat) : Prop := exists h size, verify = Some (h, size) /\ (size < Z.of_nat n)%Z.

Lemma verifying_write_spec verify buf : puts (W := W) (fun _ => short_of verify (length buf)) (verifying_write verify buf)
  (fun bs v' => bs = buf /\ v' = left_of verify (length buf)).
Proof.
  unfold verifying_write, short_of. destruct verify as [[h size]|].
  - destruct (Z.ltb_spec size (Z.of_nat (length buf))) as [Hlt|Hge].
    { apply puts_fail. by exists h, size. }
    eapply puts_bind; [apply puts_write|]. intros bs _ ->. apply puts_ret. by rewrite app_nil_r.
  - eapply puts_bind; [apply puts_write|]. intros bs _ ->. apply puts_ret. by rewrite app_nil_r.
Qed.

Lemma short_of_left verify n m : short_of (left_of verify n) m -> short_of verify (n + m).
Proof. intros (h & size & E & Hlt). destruct verify as [[g s]|]; [|done]. injection E as <- <-. exists g, s. split; [done|lia]. Qed.

Lemma short_of_more verify n m : n <= m -> short_of verify n -> short_of verify m.
Proof. intros Hn (h & size & E & Hlt). exists h, size. split; [done|lia]. Qed.

(** One read: it fails, gives the end, or a part of what there is. *)
Lemma copy_read r : match source_poll_read COPY_SIZE r with
  | (r', Ready out) => data r = out ++ data r' /\ (out = [] -> data r = []) /\ length (rscript r') <= length (rscript r) /\
      forall e, Failed e ∈ rscript r' -> Failed e ∈ rscript r
  | (r', Pending) => data r' = data r /\ length (rscript r') < length (rscript r) /\ forall e, Failed e ∈ rscript r' -> Failed e ∈ rscript r
  | (_, Fail e) => Failed e ∈ rscript r
  | (_, Panics) => False
  end.
Proof.
  assert (0 < COPY_SIZE) as Hc by (unfold COPY_SIZE; lia). unfold source_poll_read, take_data. generalize dependent COPY_SIZE. intros n Hn.
  assert (forall m (l : bytes), 0 < m -> take m l = [] -> l = []) as Hnil by (intros [|m] [|x l] Hm; [lia|lia|done|done]).
  destruct r as [c [|[k|e|] sc]]; cbn [rscript data length].
  - rewrite take_drop. split; [done|]. split; [by apply Hnil; lia|]. done.
  - rewrite take_drop. split; [done|]. split; [by apply Hnil; lia|]. split; [lia|]. by right.
  - left.
  - split; [done|]. split; [lia|]. by right.
Qed.

Lemma copy_loop_spec fuel : forall verify hashed r, length (data r) + length (rscript r) < fuel ->
  puts (W := W) (fun e => Failed e ∈ rscript r \/ short_of verify (length (data r))) (copy_loop fuel verify hashed r)
    (fun bs '(x, v') => bs = data r /\ x = hashed ++ data r /\ v' = left_of verify (length (data r))).
Proof.
  induction fuel as [|k IH]; intros verify hashed r Hf; [lia|]. cbn [copy_loop]. pose proof (copy_read r) as Hr.
  destruct (source_poll_read COPY_SIZE r) as [r' [out|e| |]]; [| |..|done].
  - destruct Hr as (E & Hnil & Hsc & Hin). destruct out as [|b out].
    { specialize (Hnil eq_refl). rewrite Hnil. apply puts_ret. rewrite app_nil_r. split; [done|]. split; [done|].
      unfold left_of. destruct verify as [[h size]|]; [|done]. cbn. do 2 f_equal. lia. }
    assert (0 < length (b :: out)) by (cbn; lia). assert (length (data r) = length (b :: out) + length (data r')) as El by (by rewrite E, length_app).
    eapply puts_bind.
    { eapply puts_mono; [apply verifying_write_spec|exact (fun bs x P => P)|]. intros e He. right. eapply short_of_more; [|exact He]. lia. }
    intros bs v' [-> ->]. eapply puts_mono; [apply IH; lia| |].
    + intros bs [x v'] (-> & -> & ->). rewrite <- app_assoc, <- E. split; [done|]. split; [done|].
      unfold left_of. destruct verify as [[h size]|]; [|done]. cbn -[length]. do 2 f_equal. lia.
    + intros e [He|He]; [left; by apply Hin|right]. rewrite El. by apply short_of_left.
  - apply puts_fail. by left.
  - destruct Hr as (E & Hsc & Hin). rewrite <- E. eapply puts_mono; [apply IH; rewrite E; lia|done|]. intros e [He|He]; [left; by apply Hin|by right].
Qed.

(** A copy writes all the bytes that are read, and they are those expected. *)
Lemma copy_reader_spec verify r : puts (W := W) (copy_cause verify (rscript r) (data r)) (copy_reader verify r)
  (fun bs _ => bs = data r /\ forall h size, verify = Some (h, size) -> b3 (data r) = h /\ size = Z.of_nat (length (data r))).
Proof.
  eapply puts_bind.
  { eapply puts_mono; [apply copy_loop_spec; lia|exact (fun bs x P => P)|].
    intros e [He|(h & size & E & Hlt)]; [by left|right]. exists h, size. split; [done|]. right. lia. }
  intros bs [x v'] (-> & -> & ->). cbn [app]. destruct verify as [[h size]|]; cbn [left_of mbind option_bind]; [|by apply puts_ret; rewrite app_nil_r].
  case_bool_decide as Eh; cbn [negb].
  - destruct (Z.eqb_spec (size - Z.of_nat (length (data r))) 0) as [E0|E0]; cbn [negb].
    + apply puts_ret. rewrite app_nil_r. split; [done|]. intros ? ? [= <- <-]. split; [done|lia].
    + apply puts_fail. right. exists h, size. split; [done|]. right. lia.
  - apply puts_fail. right. exists h, size. split; [done|by left].
Qed.
End copies.
