(* ===== verification/MerkleVerify.v ===== *)
(** * What a read archive guarantees

    Whatever the bytes are that an archive is read from, the directories that are read hash to what their parents say and
    to the signed root ([verified_in]), and nothing reaches beyond [source_end].  So two archives that were read with the
    same root agree at every path: on the hash, and on the bytes of a file that is read with its hash. *)
From stdpp Require Import sorting.
From S2P Require Import Prelude RustStr BTree SquashFormat SquashBlocks SquashTree SquashData SquashIo SquashImage MerkleVarint MerkleBytes MerkleArchive MerkleHash MerkleCopy.

Local Open Scope rust_scope.
Local Open Scope poll_scope.

(** ** Results of reading *)

Section yields.
Variable rep : option Z.

(** A result of [m] is in [P]; the archive goes on reporting the size [rep]. *)
Definition yields {A} (m : M Archived A) (P : A -> Prop) : Prop := forall a, reported a = rep ->
  post m a (fun a' r => reported a' = rep /\ match r with Ready x => P x | _ => True end).

Lemma yields_bind {A B} (m : M Archived A) (f : A -> M Archived B) P Q : yields m P ->
  (forall x, P x -> yields (f x) Q) -> yields (m_bind m f) Q.
Proof.
  intros Hm Hf a Ha. apply post_bind. eapply post_mono; [by apply Hm|]. intros a' [x|e| |] [Ha' Hx]; try done. by apply (Hf x).
Qed.

Lemma yields_ret {A} (x : A) (P : A -> Prop) : P x -> yields (m_ret x) P.
Proof. intros Hx a Ha. by apply post_ret. Qed.

Lemma yields_fail {A} message (P : A -> Prop) : yields (fail message) P.
Proof. intros a Ha. done. Qed.

Lemma yields_lift {A} (r : io A) (P : A -> Prop) : (forall x, r = Ok x -> P x) -> yields (lift_io r) P.
Proof. intros HP a Ha. split; [done|]. destruct r; cbn; auto. Qed.

Lemma yields_outcome {A} (o : outcome A) (P : A -> Prop) : (forall x, o = Done x -> P x) -> yields (lift_outcome o) P.
Proof. intros HP a Ha. unfold post, lift_outcome. destruct o; (split; [done|]); cbn; auto. Qed.

Lemma yields_mono {A} (m : M Archived A) (P Q : A -> Prop) : yields m P -> (forall x, P x -> Q x) -> yields m Q.
Proof. intros Hm HPQ a Ha. eapply post_mono; [by apply Hm|]. intros a' [x|e| |] [Ha' Hx]; auto. Qed.

Lemma yields_run {R A} (m : M R A) (r : R) (P : A * R -> Prop) : (forall r' x, m r = (r', Ready x) -> P (x, r')) -> yields (run m r) P.
Proof. intros Hm a Ha. unfold post, run. destruct (m r) as [r' [x|e| |]] eqn:E; (split; [done|]); cbn; auto. Qed.

Lemma yields_fetch position size : yields (source_fetch position size) (fun _ => True).
Proof. intros a Ha. unfold post, source_fetch. by destruct (servings a) as [|[]]. Qed.

Lemma yields_header n r : yields (read_header n r) (fun '(bs, _) => length bs = n).
Proof.
  apply yields_run. intros r' x E. pose proof (await_exact_spec n r (data r) eq_refl) as Hp. unfold post in Hp. rewrite E in Hp. by destruct Hp.
Qed.

(** [checked_end]: the end of a range that lies in the archive, as far as its size is known. *)
Definition in_archive (stop : Z) : Prop := (0 <= stop < 2 ^ 64)%Z /\ match rep with Some limit => (stop <= limit)%Z | None => True end.

Lemma yields_end position size : (0 <= position)%Z -> (0 <= size)%Z ->
  yields (checked_end position size) (fun stop => stop = position + size /\ in_archive stop)%Z.
Proof.
  intros Hp Hs a Ha. unfold checked_end, in_archive. destruct (Z.leb_spec (2 ^ 64) (position + size)); [done|].
  unfold post, m_bind, get_reported. cbn. rewrite Ha. destruct rep as [limit|]; cbn; [|split; [done|]; split; [done|]; split; [lia|done]].
  destruct (Z.leb_spec (position + size) limit); cbn; [|done]. split; [done|]. split; [done|]. split; [lia|done].
Qed.

Lemma yields_end_of bs bs' : length bs = 8 -> length bs' = 8 ->
  yields (checked_end (from_be_bytes bs) (from_be_bytes bs')) (fun stop => stop = from_be_bytes bs + from_be_bytes bs' /\ in_archive stop)%Z.
Proof.
  intros H1%from_be_bytes_range%in_range_u64 H2%from_be_bytes_range%in_range_u64. apply yields_end; lia.
Qed.
End yields.

(** ** Names *)

Section names.
Context `{V : VarInt} `{!VarIntOk V}.

Lemma read_to_end_short fuel n got (r r' : Source) out : read_to_end_loop fuel n got r = (r', Ready out) -> length out <= length got + n.
Proof.
  revert n got r. induction fuel as [|k IH]; intros n got r E; [done|]. cbn [read_to_end_loop] in E.
  destruct (Nat.eqb_spec n 0) as [->|Hn]; [injection E as _ <-; lia|].
  pose proof (poll_spec n r (data r) eq_refl ltac:(lia)) as Hp. unfold post in Hp.
  destruct (poll n r) as [r1 [bs|e| |]]; cbn in Hp; [|done|..|done].
  - destruct Hp as (_ & Hl & _). destruct bs as [|x bs]; [injection E as _ <-; lia|]. apply IH in E. rewrite length_app in E. lia.
  - by apply IH in E.
Qed.

Lemma varstring_short (r r' : Source) s : deserialize_varstring r = (r', Ready s) -> (Z.of_nat (length s) <= MAX_STR_LEN)%Z.
Proof.
  unfold deserialize_varstring, m_bind. destruct (deserialize_varint r) as [r1 [n|e| |]]; try done. unfold read_to_string, m_bind.
  destruct (read_to_end_loop _ _ _ r1) as [r2 [x|e| |]] eqn:E; try done. destruct (utf8_valid x); [|done]. intros [= _ <-].
  apply read_to_end_short in E. cbn [length] in E. unfold MAX_STR_LEN in *. lia.
Qed.

Lemma varint_range (r r' : Source) n : deserialize_varint r = (r', Ready n) -> in_range u64 n = true.
Proof.
  unfold deserialize_varint, m_bind. destruct (varint_loop _ _ r) as [r1 [bs|e| |]]; try done. unfold lift_io.
  destruct (decode_var bs) as [[m k]|] eqn:E; [|done]. intros [= _ <-]. by eapply decode_range.
Qed.
End names.

(** ** Directories that were read *)

Section verified.
Context `{V : VarInt} `{!VarIntOk V} `{H : Hashing} (rep : option Z).

(** An entry reaches no further than [stop]; a file has the size that its directory signs. *)
Definition entry_in (stop : Z) (e : Entry Section_) : Prop :=
  (entry_end e <= stop)%Z /\
  match e_contents e with
  | File f => (0 <= se_position f)%Z /\ exists h, e_hash e = Some (h, se_size f)
  | _ => True
  end.

(** A directory hashes to [h], and its subdirectories to what it says of them. *)
Inductive verified_in : bytes -> DirectoryContents Section_ -> Prop :=
| verified_directory h es stop order hs :
    BTreeMap_wf bytes_cmp es -> read_hashes es = Some hs -> Forall sig_ok hs -> in_range u64 (Z.of_nat (length hs)) = true ->
    b3 (sig_bytes hs) = h -> in_archive rep stop -> Forall (fun x => entry_in stop x.2) es ->
    (forall name g size sub, (name, mkEntry (Some (g, size)) (Directory sub)) ∈ es -> verified_in g sub) ->
    verified_in h (mkDirectory es stop order).

Definition entry_checked (x : bytes * Entry Section_) : Prop :=
  (Z.of_nat (length x.1) <= MAX_STR_LEN)%Z /\ exists h size, e_hash x.2 = Some (h, size) /\ length h = 32 /\ in_range u64 size = true /\
  match e_contents x.2 with
  | Missing => True
  | File f => (0 <= se_position f)%Z /\ se_size f = size /\ in_archive rep (section_end f)
  | Directory sub => verified_in h sub
  end.

Lemma checked_hashes es hs : Forall entry_checked es -> read_hashes es = Some hs -> Forall sig_ok hs /\ length hs = length es.
Proof.
  intros HF E. apply mapM_Some_1 in E. split; [|by rewrite (Forall2_length _ _ _ E)].
  induction E as [|x y es hs Hx _ IH]; [done|]. inversion HF as [|? ? Hc HF']; subst. constructor; [|by apply IH].
  destruct Hc as (Hn & h & size & Eh & Hl & Hs & _). rewrite Eh in Hx. injection Hx as <-. split; [|done].
  apply in_range_u64. unfold MAX_STR_LEN in Hn. cbn [fst]. lia.
Qed.

Definition checks (directory : Source -> bytes -> Z -> M Archived (DirectoryContents Section_ * Source)) : Prop :=
  forall header h size, yields rep (directory header h size) (fun '(d, _) => verified_in h d).

Lemma entry_yields directory header : checks directory ->
  yields rep (Entry_deserialize directory header) (fun '(e, _) => forall name, (Z.of_nat (length name) <= MAX_STR_LEN)%Z -> entry_checked (name, e)).
Proof.
  intros Hd. eapply yields_bind; [apply yields_header|]. intros [h hd1] Hh. eapply yields_bind; [apply yields_header|]. intros [bs hd2] Hbs.
  pose proof (from_be_bytes_range bs Hbs) as Hsize. eapply (yields_bind _ _ _ (fun '(c, _) => forall name, (Z.of_nat (length name) <= MAX_STR_LEN)%Z ->
    entry_checked (name, mkEntry (Some (h, from_be_bytes bs)) c))).
  2: { intros [c hd3] Hc. by apply yields_ret. }
  eapply yields_bind; [apply yields_header|]. intros [ty hd3] _.
  assert (forall c, match c with Missing => True | File f => (0 <= se_position f)%Z /\ se_size f = from_be_bytes bs /\ in_archive rep (section_end f)
    | Directory sub => verified_in h sub end -> forall name, (Z.of_nat (length name) <= MAX_STR_LEN)%Z ->
    entry_checked (name, mkEntry (Some (h, from_be_bytes bs)) c)) as Hok.
  { intros c Hc name Hname. split; [done|]. by exists h, (from_be_bytes bs). }
  destruct ty as [|[] [|? ?]]; try apply yields_fail.
  - apply yields_ret. exact (Hok Missing I).
  - eapply (yields_bind _ _ _ (fun '(f, _) => (0 <= se_position f)%Z /\ se_size f = from_be_bytes bs /\ in_archive rep (section_end f)));
      [|intros [f hd4] Hf; apply yields_ret; exact (Hok (File f) Hf)].
    eapply yields_bind; [apply yields_header|]. intros [ps hd4] Hps. eapply yields_bind; [by apply yields_end_of|].
    intros stop [-> Hstop]. apply yields_ret. split; [|done]. apply from_be_bytes_range, in_range_u64 in Hps. cbn [se_position]. lia.
  - eapply yields_bind; [apply Hd|]. intros [sub hd4] Hsub. apply yields_ret. exact (Hok (Directory sub) Hsub).
Qed.

(** The entries read so far, [stop] the end of those and of [first]. *)
Definition entries_so_far (first : Z) (es : list (bytes * Entry Section_)) (stop : Z) : Prop :=
  BTreeMap_wf bytes_cmp es /\ Forall entry_checked es /\ Forall (fun x => (entry_end x.2 <= stop)%Z) es /\
  (first <= stop)%Z /\ in_archive rep stop.

Lemma checked_end_in x : entry_checked x -> (entry_end x.2 <= 0)%Z \/ in_archive rep (entry_end x.2).
Proof.
  destruct x as [name [h c]]. unfold entry_checked, entry_end. cbn. intros (_ & g & size & _ & _ & _ & Hc).
  destruct c as [|f|sub]; [left; lia|right; apply Hc|right]. by inversion Hc.
Qed.

Lemma entries_so_far_add first name e es stop : entries_so_far first es stop -> entry_checked (name, e) ->
  entries_so_far first (BTreeMap_insert bytes_cmp name e es) (Z.max stop (entry_end e)).
Proof.
  intros (Hw & HF & He & Hf & Ha) Hx.
  assert (forall P : bytes * Entry Section_ -> Prop, P (name, e) -> Forall P es -> Forall P (BTreeMap_insert bytes_cmp name e es)) as Hins.
  { intros P HP HPs. apply Forall_forall. intros [n v] Hn. apply (map_insert_elem bytes_cmp bytes_cmp_eq) in Hn as [[-> ->]|[_ Hn]]; [done| |done].
    rewrite Forall_forall in HPs. by apply HPs. }
  split; [by apply (map_insert_wf bytes_cmp bytes_cmp_eq)|]. split; [by apply Hins|]. split.
  { apply Hins; [cbn; lia|]. eapply Forall_impl; [exact He|]. cbn. intros; lia. }
  split; [lia|]. destruct Ha as [Hr Hl]. destruct (checked_end_in _ Hx) as [Hx0|[Hxr Hxl]]; cbn in *.
  - rewrite Z.max_l by lia. done.
  - split; [lia|]. destruct rep; [lia|done].
Qed.

Lemma entries_yields directory first : checks directory -> forall fuel n toc es stop,
  (0 <= n)%Z -> entries_so_far first es stop ->
  yields rep (entries_loop directory fuel n toc es stop) (fun '(es', stop') => entries_so_far first es' stop' /\
    (Z.of_nat (length es') <= Z.of_nat (length es) + n)%Z).
Proof.
  intros Hd. induction fuel as [|k IH]; intros n toc es stop Hn Hes; cbn [entries_loop]; [by intros a Ha|].
  destruct (Z.eqb_spec n 0) as [->|Hne]; [apply yields_ret; split; [done|lia]|].
  eapply (yields_bind _ _ _ (fun '(name, _) => (Z.of_nat (length name) <= MAX_STR_LEN)%Z)).
  { apply yields_run. intros r' x E. by eapply varstring_short. }
  intros [name toc1] Hname. eapply yields_bind; [by apply entry_yields|]. intros [e toc2] He. specialize (He name Hname).
  eapply yields_mono; [apply IH; [lia|by apply entries_so_far_add]|]. intros [es' stop'] [Hes' Hl]. split; [done|].
  pose proof (map_insert_length bytes_cmp name e es). lia.
Qed.

(** A directory that is read, from any archive whatever, is verified. *)
Lemma directory_yields depth : checks (DirectoryContents_deserialize depth).
Proof.
  induction depth as [|k IH]; intros header h size; cbn [DirectoryContents_deserialize]; [by intros a Ha|].
  eapply yields_bind; [apply yields_header|]. intros [ps hd1] Hps. eapply yields_bind; [apply yields_header|]. intros [ss hd2] Hss.
  destruct (size <? from_be_bytes ss)%Z; [apply yields_fail|].
  eapply yields_bind; [by apply yields_end_of|]. intros stop [_ Hstop].
  eapply yields_bind; [apply yields_fetch|]. intros toc _.
  eapply (yields_bind _ _ _ (fun '(n, _) => in_range u64 n = true)).
  { apply yields_run. intros r' x E. by eapply varint_range. }
  intros [n toc1] Hn. apply in_range_u64 in Hn as Hn'. eapply yields_bind.
  { apply (entries_yields _ stop IH _ n toc1 [] stop); [lia|]. split; [constructor|]. split; [constructor|]. split; [constructor|]. split; [lia|done]. }
  intros [es stop'] [(Hw & HF & He & _ & Ha) Hl]. eapply yields_bind; [apply yields_outcome; intros hs E; exact E|].
  intros hs E. unfold unwrap in E. destruct (read_hashes es) as [hs'|] eqn:Ehs; [|done]. injection E as ->.
  rewrite sighash_of_eq. case_bool_decide as Eh; [|apply yields_fail]. apply yields_ret.
  destruct (checked_hashes es hs HF Ehs) as [Hok El]. cbn [length] in Hl.
  apply (verified_directory h es stop' None hs); [done..| |done|done| |].
  - apply in_range_u64. lia.
  - apply Forall_forall. intros x Hx. rewrite Forall_forall in HF, He. split; [by apply He|].
    destruct (HF x Hx) as (_ & g & sz & Eg & _ & _ & Hc). destruct (e_contents x.2); [done| |done].
    destruct Hc as (Hp & <- & _). split; [done|]. by exists g.
  - intros name g sz sub Hin. rewrite Forall_forall in HF. destruct (HF _ Hin) as (_ & g' & sz' & Eg & _ & _ & Hc). cbn in *. by injection Eg as -> ->.
Qed.
End verified.

(** ** Files that are read *)

Section files.
Context `{H : Hashing}.

Lemma to_io_copy verify r c : to_io (copy_reader verify r) = Ok c -> c = data r /\ forall h size, verify = Some (h, size) -> b3 c = h /\ size = Z.of_nat (length c).
Proof.
  pose proof (copy_reader_spec (W := bytes) verify r []) as Hp. unfold puts_from, post in Hp. unfold to_io.
  destruct (copy_reader verify r []) as [v [x|e| |]]; try done. destruct Hp as [_ (bs & E & -> & Hv)]. cbn in E. subst v. by intros [= <-].
Qed.

(** A file that is read has the hash and the size of its entry. *)
Lemma read_file_hash e a a' c h size : e_hash e = Some (h, size) -> read_file_to_vec e a = (a', Ready c) ->
  b3 c = h /\ size = Z.of_nat (length c).
Proof.
  intros He. unfold read_file_to_vec. destruct (e_contents e) as [|f|d]; [done| |done]. unfold section_to_vec, m_bind, section_reader, with_capacity.
  destruct (2 ^ 63 <=? _)%Z; [done|]. cbn [m_ret].
  destruct (source_fetch _ _ a) as [a1 [r|x| |]]; try done. unfold lift_io. rewrite He.
  destruct (to_io (copy_reader (Some (h, size)) r)) as [c'|x] eqn:E; [|done]. intros [= _ <-]. apply to_io_copy in E as [_ E]. by apply E.
Qed.
End files.

(** ** Archives with the same root *)

Section integrity.
Context `{V : VarInt} `{!VarIntOk V} `{H : Hashing}.

(** The bytes that the directories of a tree are hashed from. *)
Fixpoint hashed_strings (d : DirectoryContents Section_) : list bytes :=
  let '(mkDirectory es _ _) := d in
  match read_hashes es with Some hs => [sig_bytes hs] | None => [] end ++
  concat (map (fun x => match x.2 with mkEntry _ (Directory sub) => hashed_strings sub | _ => [] end) es).

(** No two of these strings have the same hash. *)
Definition no_collision (l : list bytes) : Prop := forall a c, a ∈ l -> c ∈ l -> b3 a = b3 c -> a = c.

Lemma hashed_below name h sub es stop order : (name, mkEntry h (Directory sub)) ∈ es -> hashed_strings sub ⊆ hashed_strings (mkDirectory es stop order).
Proof.
  intros Hin c Hc. cbn [hashed_strings]. apply elem_of_app. right. apply list_elem_of_In, in_concat. exists (hashed_strings sub).
  split; [|by apply list_elem_of_In]. apply in_map_iff. exists (name, mkEntry h (Directory sub)). split; [done|]. by apply list_elem_of_In.
Qed.

Lemma map_get_elem {A} (k : bytes) (v : A) m : BTreeMap_get bytes_cmp k m = Some v -> (k, v) ∈ m.
Proof.
  induction m as [|[x w] m IH]; cbn; [done|]. destruct (is_eq (bytes_cmp k x)) eqn:E.
  - apply (is_eq_true bytes_cmp bytes_cmp_eq) in E as ->. intros [= ->]. left.
  - intros Hg. right. by apply IH.
Qed.

Lemma read_hashes_names es hs : read_hashes es = Some hs -> map fst hs = map fst es.
Proof.
  intros E. apply mapM_Some_1 in E. induction E as [|x y es hs Hx _ IH]; [done|]. cbn [map]. rewrite IH. f_equal.
  destruct (e_hash x.2); [|done]. by injection Hx as <-.
Qed.

(** Two directories with the same hash have entries with the same names, hashes and sizes. *)
Lemma verified_same rep rep' h d d' l : verified_in rep h d -> verified_in rep' h d' -> no_collision l ->
  hashed_strings d ⊆ l -> hashed_strings d' ⊆ l ->
  exists hs, read_hashes (d_entries d) = Some hs /\ read_hashes (d_entries d') = Some hs /\ NoDup (map fst hs).
Proof.
  intros Hd Hd' Hl Hin Hin'. destruct Hd as [h es stop order hs Hw Ehs Hok Hr Eh _ _ _].
  inversion Hd' as [? es' stop' order' hs' Hw' Ehs' Hok' Hr' Eh' _ _ _]; subst. cbn [d_entries].
  assert (sig_bytes hs = sig_bytes hs') as E.
  { apply Hl; [apply Hin|apply Hin'|done]; cbn [hashed_strings]; rewrite ?Ehs, ?Ehs'; left. }
  apply sig_bytes_inj in E; [|done..].
  assert (StronglySorted (keys_lt bytes_cmp) (map fst hs)) as Hs by (by rewrite (read_hashes_names _ _ Ehs)).
  exists hs. split; [done|]. split; [|by eapply sorted_NoDup; [apply bytes_cmp_ord|]].
  rewrite Ehs'. f_equal. symmetry. apply (sorted_unique bytes_cmp fst); [done|by rewrite (read_hashes_names _ _ Ehs')|]. intros x. by rewrite E.
Qed.

(** What the entries at one path of two archives have in common. *)
Definition agree (l : list bytes) (rep rep' : option Z) (o o' : option (Entry Section_)) : Prop :=
  match o, o' with
  | Some e, Some e' => e_hash e = e_hash e' /\ (exists x, e_hash e = Some x) /\
      forall d d', as_directory e = Some d -> as_directory e' = Some d' -> exists h,
        verified_in rep h d /\ verified_in rep' h d' /\ hashed_strings d ⊆ l /\ hashed_strings d' ⊆ l
  | _, _ => True
  end.

Lemma agree_get l rep rep' h d d' name : no_collision l -> verified_in rep h d -> verified_in rep' h d' ->
  hashed_strings d ⊆ l -> hashed_strings d' ⊆ l -> agree l rep rep' (get name d) (get name d').
Proof.
  intros Hl Hd Hd' Hin Hin'. destruct (verified_same _ _ _ _ _ _ Hd Hd' Hl Hin Hin') as (hs & E & E' & Hnd).
  unfold agree. destruct (get name d) as [e|] eqn:G; [|done]. destruct (get name d') as [e'|] eqn:G'; [|done].
  apply map_get_elem in G, G'. apply mapM_Some_1 in E, E'.
  assert (forall es x, Forall2 (fun (x : bytes * Entry Section_) y => (h ← e_hash x.2; Some (x.1, h)) = Some y) es hs -> (name, x) ∈ es ->
    exists y, e_hash x = Some y /\ (name, y) ∈ hs) as Hh.
  { intros es x HF Hx. apply list_elem_of_lookup_1 in Hx as [i Hi]. destruct (Forall2_lookup_l _ _ _ _ _ HF Hi) as (y & Hy & Ey). cbn in Ey.
    destruct (e_hash x) as [z|]; [|done]. injection Ey as <-. exists z. split; [done|]. by eapply list_elem_of_lookup_2. }
  destruct (Hh _ _ E G) as (y & Ey & Hy). destruct (Hh _ _ E' G') as (y' & Ey' & Hy').
  assert (y = y') as <-.
  { apply list_elem_of_lookup_1 in Hy as [i Hi]. apply list_elem_of_lookup_1 in Hy' as [j Hj].
    assert (i = j) as <-. { eapply NoDup_lookup; [exact Hnd| |]; rewrite list_lookup_fmap; [rewrite Hi|rewrite Hj]; done. } congruence. }
  split; [congruence|]. split; [by exists y|]. intros s s' Es Es'. destruct y as [g size].
  inversion Hd as [? es stop order ? _ _ _ _ _ _ _ Hsub]; subst. inversion Hd' as [? es' stop' order' ? _ _ _ _ _ _ _ Hsub']; subst.
  destruct e as [he [| |sd]], e' as [he' [| |sd']]; try done. cbn in Es, Es', Ey, Ey', G, G'. injection Es as ->. injection Es' as ->. subst he he'.
  exists g. split; [by eapply Hsub|]. split; [by eapply Hsub'|].
  split; (etrans; [by eapply hashed_below|done]).
Qed.

Lemma agree_segments l rep rep' path : no_collision l -> forall o o', agree l rep rep' o o' ->
  agree l rep rep' (get_segments path (o ≫= as_directory) o) (get_segments path (o' ≫= as_directory) o').
Proof.
  intros Hl. induction path as [|name path IH]; intros o o' Ho; [done|]. cbn [get_segments]. destruct (utf8_valid name); [|done].
  destruct (o ≫= as_directory) as [d|] eqn:Ed; [|done]. destruct (o' ≫= as_directory) as [d'|] eqn:Ed'.
  - destruct o as [e|], o' as [e'|]; try done. cbn in Ed, Ed'. destruct Ho as (_ & _ & Hd). destruct (Hd d d' Ed Ed') as (h & H1 & H2 & H3 & H4).
    apply (IH (get name d) (get name d')). by eapply agree_get.
  - unfold agree. by destruct (get_segments path _ _).
Qed.

Lemma agree_path l rep rep' h d d' path : no_collision l -> verified_in rep h d -> verified_in rep' h d' ->
  hashed_strings d ⊆ l -> hashed_strings d' ⊆ l -> agree l rep rep' (get_path path d) (get_path path d').
Proof.
  intros Hl Hd Hd' Hin Hin'. unfold get_path. destruct (segments path) as [|name rest] eqn:E; [done|].
  apply (agree_segments l rep rep' (name :: rest) Hl (Some (mkEntry (Some (h, 0%Z)) (Directory d))) (Some (mkEntry (Some (h, 0%Z)) (Directory d')))).
  split; [done|]. split; [by eexists|]. intros s s' [= <-] [= <-]. by exists h.
Qed.
End integrity.

(** ** Packages *)

Section packages.
Context `{V : VarInt} `{!VarIntOk V} `{H : Hashing} `{E : Ed25519}.

(** An archive that was read: the root is signed for [context], and is the one asked for. *)
Definition opened (rep : option Z) (context : bytes) (expected : option MerkleArchiveCommitment) (a : MerkleArchive Section_) : Prop :=
  exists key s max_size root, ma_signer a = Signed key s max_size context /\ valid_key key = true /\
    verify_prehashed_strict key (digest (mkCommitment root max_size)) context s = true /\
    match expected with Some c => root = root_sighash c /\ (max_size <= root_maxsize c)%Z | None => (max_size <= CAP_1_MiB)%Z end /\
    verified_in rep root (ma_contents a).

Lemma archive_yields rep depth context header expected : yields rep (MerkleArchive_deserialize depth context header expected) (opened rep context expected).
Proof.
  unfold MerkleArchive_deserialize. eapply yields_bind; [apply yields_header|]. intros [key hd1] _.
  destruct (valid_key key) eqn:Hv; [|apply yields_fail]. cbn [negb].
  eapply yields_bind; [apply yields_header|]. intros [s hd2] _. eapply yields_bind; [apply yields_header|]. intros [root hd3] _.
  eapply yields_bind; [apply yields_header|]. intros [bs hd4] _.
  destruct (verify_prehashed_strict key _ context s) eqn:Hs; [|apply yields_fail]. cbn [negb].
  eapply (yields_bind _ _ _ (fun _ => match expected with Some c => root = root_sighash c /\ (from_be_bytes bs <= root_maxsize c)%Z
    | None => (from_be_bytes bs <= CAP_1_MiB)%Z end)).
  { apply yields_lift. intros [] Ex. destruct expected as [c|].
    - case_bool_decide as Er; cbn [negb] in Ex; [|done]. by destruct (Z.ltb_spec (root_maxsize c) (from_be_bytes bs)).
    - by destruct (Z.ltb_spec CAP_1_MiB (from_be_bytes bs)). }
  intros [] Hexp.
  eapply yields_bind; [apply directory_yields|]. intros [d hd5] Hd. apply yields_ret. exists key, s, (from_be_bytes bs), root.
  split; [done|]. split; [done|]. split; [done|]. done.
Qed.

Lemma package_yields rep depth expected : yields rep (S9pk_archive depth expected) (opened rep SIG_CONTEXT expected).
Proof.
  unfold S9pk_archive. eapply yields_bind; [apply yields_fetch|]. intros header _. eapply yields_bind; [apply yields_header|]. intros [magic hd] _.
  case_bool_decide; cbn [negb]; [apply archive_yields|apply yields_fail].
Qed.

Lemma package_opened depth expected ar ar' a : S9pk_archive depth expected ar = (ar', Ready a) -> opened (reported ar) SIG_CONTEXT expected a.
Proof. intros Ex. pose proof (package_yields (reported ar) depth expected ar eq_refl) as Hp. unfold post in Hp. rewrite Ex in Hp. apply Hp. Qed.
End packages.

(** C4: nothing that is not signed comes out of a package.  Whatever the bytes of the source are and
    however it answers, an archive that [S9pk::archive] returns has a root whose hash and size limit the key has signed for packages, is
    the one asked for when a commitment is given, every directory in it hashes to what its parent, or the root, says, and no
    file or table reaches beyond [source_end], which is inside the source as far as its size is known. *)
Theorem package_verified `{V : VarInt} `{!VarIntOk V} `{H : Hashing} `{E : Ed25519} depth expected (ar ar' : Archived) (a : MerkleArchive Section_) :
  S9pk_archive depth expected ar = (ar', Ready a) ->
  exists key s max_size root, ma_signer a = Signed key s max_size SIG_CONTEXT /\
    verify_prehashed_strict key (digest (mkCommitment root max_size)) SIG_CONTEXT s = true /\
    match expected with Some c => root = root_sighash c /\ (max_size <= root_maxsize c)%Z | None => (max_size <= CAP_1_MiB)%Z end /\
    verified_in (reported ar) root (ma_contents a) /\ in_archive (reported ar) (source_end (ma_contents a)).
Proof.
  intros Ex. destruct (package_opened _ _ _ _ _ Ex) as (key & s & max_size & root & Es & _ & Hv & Hexp & Hd). exists key, s, max_size, root.
  split; [done|]. split; [done|]. split; [done|]. split; [done|]. by destruct Hd.
Qed.

(** C5: the root hash commits to the contents.  Two packages that were opened with the same root hash, from any
    sources, agree at every path at which both have an entry: on its hash and size, on the names in it if both are directories, and, when both read
    it as a file, on the bytes; provided that [blake3] has no collision among the strings hashed for their directories and the two
    files. *)
Theorem package_integrity `{V : VarInt} `{!VarIntOk V} `{H : Hashing} `{E : Ed25519} depth1 depth2 c1 c2 (ar1 ar1' ar2 ar2' : Archived)
    (a1 a2 : MerkleArchive Section_) path e1 e2 :
  S9pk_archive depth1 (Some c1) ar1 = (ar1', Ready a1) -> S9pk_archive depth2 (Some c2) ar2 = (ar2', Ready a2) ->
  root_sighash c1 = root_sighash c2 -> no_collision (hashed_strings (ma_contents a1) ++ hashed_strings (ma_contents a2)) ->
  get_path path (ma_contents a1) = Some e1 -> get_path path (ma_contents a2) = Some e2 ->
  e_hash e1 = e_hash e2 /\
  (forall d1 d2, as_directory e1 = Some d1 -> as_directory e2 = Some d2 -> map fst (d_entries d1) = map fst (d_entries d2)) /\
  forall s1 s1' b1 s2 s2' b2, read_file_to_vec e1 s1 = (s1', Ready b1) -> read_file_to_vec e2 s2 = (s2', Ready b2) ->
    no_collision [b1; b2] -> b1 = b2.
Proof.
  intros E1 E2 Ec Hl G1 G2. destruct (package_opened _ _ _ _ _ E1) as (k1 & sg1 & m1 & root1 & _ & _ & _ & [-> _] & D1).
  destruct (package_opened _ _ _ _ _ E2) as (k2 & sg2 & m2 & root2 & _ & _ & _ & [-> _] & D2). rewrite Ec in D1.
  pose proof (agree_path _ _ _ _ _ _ path Hl D1 D2 ltac:(intros x Hx; apply elem_of_app; by left) ltac:(intros x Hx; apply elem_of_app; by right)) as Ha. rewrite G1, G2 in Ha. destruct Ha as (Eh & [[h size] Hsome] & Hd).
  split; [done|]. split.
  - intros d1 d2 Hd1 Hd2. destruct (Hd d1 d2 Hd1 Hd2) as (g & V1 & V2 & S1 & S2).
    destruct (verified_same _ _ _ _ _ _ V1 V2 Hl S1 S2) as (hs & R1 & R2 & _). by rewrite <- (read_hashes_names _ _ R1), <- (read_hashes_names _ _ R2).
  - intros s1 s1' b1 s2 s2' b2 R1 R2 Hb. destruct (read_file_hash _ _ _ _ _ _ Hsome R1) as [<- _]. rewrite Eh in Hsome.
    destruct (read_file_hash _ _ _ _ _ _ Hsome R2) as [Eb _]. apply Hb; [left|right; left|by symmetry].
Qed.
