(* ===== verification/MerkleWrite.v ===== *)
(** * Where an archive puts what

    The write queue: every table of contents is followed, later, by the bodies that it points to.  Whatever is written
    after a position, an entry is [placed] where its directory says, and the last body ends where the archive does. *)
From S2P Require Import Prelude RustStr BTree SquashFormat SquashBlocks SquashTree SquashData SquashIo SquashImage SquashLoad MerkleVarint MerkleBytes MerkleArchive MerkleHash MerkleCopy.

Local Open Scope rust_scope.
Local Open Scope poll_scope.

(** The size of a source is that of what it gives. *)
Class ReadSourceOk (S : Type) `{SizedSource S} `{ReadSource S} : Prop :=
  { size_of_reader : forall (f : S) n, rs_size f = Ok n -> (0 <= n)%Z /\ forall r, rs_reader f = Ok r -> n = Z.of_nat (length (data r)) }.

Lemma list_sum_cons {A} (f : A -> nat) x l : list_sum (map f (x :: l)) = f x + list_sum (map f l).
Proof. done. Qed.

Lemma forall_filter {A} (P : A -> Prop) (f : A -> bool) l : Forall P l -> Forall P (filter f l).
Proof. rewrite !Forall_forall. intros HP x Hx. apply HP. by apply list_elem_of_filter in Hx as [_ ?]. Qed.

Section typed.
Context {S : Type}.

(** What the types of names, hashes and maps ensure: a map is sorted, names are [str]s, a hash has 32 bytes. *)
Definition entry_typed (x : bytes * Entry S) : Prop :=
  utf8_valid x.1 = true /\ in_range u64 (Z.of_nat (length x.1)) = true /\
  forall h size, e_hash x.2 = Some (h, size) -> length h = 32 /\ in_range u64 size = true.

Inductive typed : DirectoryContents S -> Prop :=
| typed_directory es stop order :
    BTreeMap_wf bytes_cmp es -> in_range u64 (Z.of_nat (length es)) = true -> Forall entry_typed es ->
    (forall name h sub, (name, mkEntry h (Directory sub)) ∈ es -> typed sub) -> typed (mkDirectory es stop order).

Lemma typed_entries d : typed d -> Forall entry_typed (d_entries d).
Proof. by destruct 1. Qed.

Lemma typed_sub d x sub : typed d -> x ∈ d_entries d -> e_contents x.2 = Directory sub -> typed sub.
Proof. destruct 1 as [es stop order _ _ _ Hsub]. destruct x as [name [h c]]. cbn. intros Hin ->. by eapply Hsub. Qed.
End typed.

Section write.
Context `{V : VarInt} `{!VarIntOk V} `{H : Hashing} `{!HashingOk H} {S : Type} `{HZ : SizedSource S} `{HS : ReadSource S} `{!ReadSourceOk S}.

Lemma toc_entries_perm (d : DirectoryContents S) : toc_entries d ≡ₚ d_entries d.
Proof. apply sort_by_perm. Qed.

(** ** Sizes *)

Lemma contents_hash_length c h size : contents_hash (S := S) c = Ok (h, size) -> length h = 32.
Proof.
  destruct c as [|f|d]; [done|..].
  - cbn [contents_hash]. unfold FileContents_hash. destruct (to_io _); [|done]. intros [= <- _]. apply b3_length.
  - rewrite contents_hash_directory. destruct (entry_hashes (d_entries d)) as [hs|]; [|done]. intros [= <- _]. apply b3_length.
Qed.

Lemma hash_of_length x : entry_typed x -> (exists h, hash_by contents_hash x.2 = Ok h) -> length (hash_of contents_hash x.2).1 = 32.
Proof.
  intros (_ & _ & Hh) [[h size] E]. unfold hash_of. rewrite E. cbn. unfold hash_by in E. destruct (e_hash x.2) as [[g s]|].
  - injection E as -> ->. by eapply Hh.
  - by eapply contents_hash_length.
Qed.

Lemma row_length x p : entry_typed x -> known contents_hash x.2 ->
  Z.of_nat (length (row contents_hash x p)) = (serialized_varstring_size x.1 + Entry_header_size x.2)%Z.
Proof.
  intros Hx [Hh _]. pose proof (hash_of_length x Hx Hh) as Hl. destruct Hx as (_ & Hn & _). unfold row, header_bytes, Entry_header_size, EntryContents_header_size.
  rewrite length_app, Nat2Z.inj_add, varstring_length by done. rewrite !length_app, Hl, to_be_bytes_length. cbn [length].
  destruct (e_contents x.2); rewrite ?length_app, ?to_be_bytes_length; cbn [length]; unfold FileContents_header_size, DirectoryContents_header_size; lia.
Qed.

Definition rows_size (es : list (bytes * Entry S)) : Z := foldr (fun x acc => serialized_varstring_size x.1 + Entry_header_size x.2 + acc)%Z 0%Z es.

Lemma rows_length es p : Forall entry_typed es -> Forall (fun x => known contents_hash x.2) es -> Z.of_nat (length (rows contents_hash p es)) = rows_size es.
Proof.
  intros HF. revert p. induction HF as [|x es Hx HF IH]; intros p HK; [done|]. inversion HK as [|? ? Hk HK']; subst.
  cbn [rows rows_size foldr]. rewrite length_app, Nat2Z.inj_add, row_length by done. rewrite IH by done. done.
Qed.

Lemma toc_size_rows d : toc_size d = (serialized_varint_size (Z.of_nat (length (d_entries d))) + rows_size (d_entries d))%Z.
Proof.
  unfold toc_size, rows_size. generalize (serialized_varint_size (Z.of_nat (length (d_entries d)))).
  induction (d_entries d) as [|x es IH]; intros z; cbn [fold_left foldr]; [lia|]. rewrite IH. lia.
Qed.

Lemma toc_size_nonneg (d : DirectoryContents S) : (0 <= toc_size d)%Z.
Proof.
  rewrite toc_size_rows. unfold rows_size, serialized_varint_size. enough (0 <= rows_size (d_entries d))%Z by (unfold rows_size in *; lia).
  unfold rows_size. induction (d_entries d) as [|x es IH]; cbn [foldr]; [lia|].
  enough (0 <= serialized_varstring_size x.1 + Entry_header_size x.2)%Z by lia. clear IH.
  unfold serialized_varstring_size, serialized_varint_size, Entry_header_size, EntryContents_header_size, FileContents_header_size, DirectoryContents_header_size.
  destruct (e_contents x.2); lia.
Qed.

Lemma rows_size_perm es es' : es ≡ₚ es' -> rows_size es = rows_size es'.
Proof. unfold rows_size. induction 1; cbn [foldr]; lia. Qed.

Lemma toc_bytes_length d p : typed d -> Forall (fun x => known contents_hash x.2) (d_entries d) ->
  Z.of_nat (length (toc_bytes contents_hash d p)) = toc_size d.
Proof.
  intros [es stop order Hw Hn HF _] HK. unfold toc_bytes. pose proof (toc_entries_perm (mkDirectory es stop order)) as Hp. cbn [d_entries] in *.
  rewrite length_app, Nat2Z.inj_add, rows_length, (rows_size_perm _ _ Hp), toc_size_rows by by rewrite Hp. cbn [d_entries].
  destruct (encode_size _ Hn) as [-> _]. done.
Qed.

(** ** Positions *)

Definition body_room (e : Entry S) : nat := Z.to_nat (body_len e).

(** In the image [img] the body of an entry is at the position [p]; [stop] is where the last body below it ends. *)
Inductive placed (img : bytes) : Entry S -> nat -> Z -> Prop :=
| placed_missing h p : placed img (mkEntry h Missing) p 0
| placed_file h f r p : rs_reader f = Ok r -> located img p (data r) -> placed img (mkEntry h (File f)) p (Z.of_nat (p + length (data r)))
| placed_directory h d p q stop : Forall (fun x => known contents_hash x.2) (d_entries d) ->
    located img p (toc_bytes contents_hash d (Z.of_nat q)) -> placed_all img (map snd (toc_entries d)) q stop ->
    placed img (mkEntry h (Directory d)) p (Z.max (Z.of_nat p + toc_size d) stop)
with placed_all (img : bytes) : list (Entry S) -> nat -> Z -> Prop :=
| placed_nil p : placed_all img [] p 0
| placed_cons e es p stop stop' : placed img e p stop -> placed_all img es (p + body_room e) stop' ->
    placed_all img (e :: es) p (Z.max stop stop').

Lemma placed_all_app img es es' p stop stop' : placed_all img es p stop -> (0 <= stop')%Z ->
  placed_all img es' (p + list_sum (map body_room es)) stop' -> placed_all img (es ++ es') p (Z.max stop stop').
Proof.
  intros Hes Hs Hes'. induction Hes as [p|e es p z z' He Hes IH]; cbn [map list_sum app fold_right] in *.
  - rewrite Nat.add_0_r in Hes'. by rewrite Z.max_r by lia.
  - rewrite <- Z.max_assoc. constructor; [done|]. apply IH. by rewrite <- Nat.add_assoc.
Qed.

Lemma placed_nonneg img e p stop : placed img e p stop -> (0 <= stop)%Z.
Proof. destruct 1 as [| |h d]; [lia..|]. pose proof (toc_size_nonneg d). lia. Qed.

Lemma placed_all_nonneg img es p stop : placed_all img es p stop -> (0 <= stop)%Z.
Proof. induction 1 as [|e es p z z' He _ IH]; [lia|]. apply placed_nonneg in He. lia. Qed.

Lemma placed_all_app_inv img es es' p stop : placed_all img (es ++ es') p stop ->
  exists z z', stop = Z.max z z' /\ placed_all img es p z /\ placed_all img es' (p + list_sum (map body_room es)) z'.
Proof.
  revert p stop. induction es as [|e es IH]; intros p stop Hp; cbn [app map list_sum fold_right] in *.
  - exists 0%Z, stop. rewrite Nat.add_0_r. split; [apply placed_all_nonneg in Hp; lia|]. split; [constructor|done].
  - inversion Hp as [|? ? ? z z' He Hes]; subst. destruct (IH _ _ Hes) as (y & y' & -> & Hy & Hy').
    exists (Z.max z y), y'. split; [lia|]. split; [by constructor|]. by rewrite Nat.add_assoc.
Qed.

(** Entries without a body take no room. *)
Lemma missing_room e : has_body e = false -> body_room e = 0.
Proof. unfold has_body, body_room, body_len, body_size. by destruct (e_contents e). Qed.

Lemma placed_filter img es p stop : placed_all img (filter has_body es) p stop -> placed_all img es p stop.
Proof.
  revert p stop. induction es as [|e es IH]; intros p stop Hp; [done|]. destruct (has_body e) eqn:Hb.
  - rewrite filter_cons_True in Hp by by rewrite Hb. inversion Hp; subst. constructor; [done|]. by apply IH.
  - rewrite filter_cons_False in Hp by (rewrite Hb; by intros []). pose proof (placed_all_nonneg _ _ _ _ Hp).
    rewrite <- (Z.max_r 0 stop) by lia. constructor; [|apply IH; by rewrite missing_room, Nat.add_0_r].
    destruct e as [h [| |]]; [constructor|done..].
Qed.

Lemma room_filter es : list_sum (map body_room (filter has_body es)) = list_sum (map body_room es).
Proof.
  induction es as [|e es IH]; [done|]. destruct (has_body e) eqn:Hb.
  - rewrite filter_cons_True by by rewrite Hb. by rewrite !list_sum_cons, IH.
  - rewrite filter_cons_False by (rewrite Hb; by intros []). by rewrite list_sum_cons, missing_room.
Qed.

(** ** Entries that can be written *)

(** Files can be read, and the hashes of files that are stored are right. *)
Inductive servable : Entry S -> Prop :=
| servable_missing x : servable (mkEntry (Some x) Missing)
| servable_file h f r : rs_reader f = Ok r -> rs_size f = Ok (Z.of_nat (length (data r))) -> (forall e, Failed e ∉ rscript r) ->
    (h = None \/ h = Some (b3 (data r), Z.of_nat (length (data r)))) -> servable (mkEntry h (File f))
| servable_directory h es stop order : (forall name e, (name, e) ∈ es -> servable e) -> servable (mkEntry h (Directory (mkDirectory es stop order))).

Lemma copy_verify_spec {W} `{HW : Writes W} `{!WritesOk W} (f : S) verify :
  puts (W := W) (fun e => rs_reader f = Err e \/ exists r, rs_reader f = Ok r /\ copy_cause verify (rscript r) (data r) e) (copy_verify f verify)
    (fun bs _ => exists r, rs_reader f = Ok r /\ bs = data r).
Proof.
  eapply puts_bind; [apply puts_lift; intros e E; by left|]. intros bs r [-> E].
  eapply puts_mono; [apply copy_reader_spec|intros bs [] [-> _]; by exists r|]. intros e He. right. by exists r.
Qed.

Lemma file_hash f r : rs_reader f = Ok r -> (forall e, Failed e ∉ rscript r) ->
  contents_hash (File f) = Ok (b3 (data r), Z.of_nat (length (data r))).
Proof.
  intros Er Hf. cbn [contents_hash]. unfold FileContents_hash, to_io. pose proof (copy_verify_spec (W := bytes) f None []) as Hp. unfold puts_from, post in Hp.
  destruct (copy_verify f None []) as [v [x|e| |]].
  - destruct Hp as [_ (bs & E & r' & Er' & ->)]. cbn in E. subst v. cbn. congruence.
  - destruct Hp as [_ [[Ee|(r' & Er' & [Hin|(h & size & ? & _)])]|[]]]; [congruence| |done]. rewrite Er in Er'. injection Er' as <-. by destruct (Hf e).
  - by destruct Hp.
  - by destruct Hp.
Qed.

Lemma servable_known e : servable e -> known contents_hash e.
Proof.
  induction 1 as [x|h f r Er Es Hf Hh|h es stop order Hes IH].
  - split; [by exists x|by exists 0%Z].
  - split; [|by eexists]. unfold hash_by. cbn. destruct h as [x|]; [by exists x|]. eexists. by apply file_hash.
  - split; [|by eexists]. unfold hash_by. cbn [e_hash e_contents]. destruct h as [x|]; [by exists x|].
    rewrite contents_hash_directory. cbn [d_entries]. rewrite entry_hashes_known; [by eexists|].
    apply Forall_forall. intros [name e] Hin. by destruct (IH name e Hin).
Qed.

(** ** The queue *)

Definition weight (e : Entry S) : nat := 1 + entries_in (e_contents e).

Definition queued_ok (e : Entry S) : Prop :=
  (exists n, body_size e = Ok n) /\ forall d, e_contents e = Directory d -> typed d.

Lemma weight_children (d : DirectoryContents S) : list_sum (map weight (filter has_body (map snd (toc_entries d)))) <= entries_in (Directory d).
Proof.
  assert (entries_in (Directory d) = list_sum (map weight (map snd (toc_entries d)))) as ->.
  { rewrite (toc_entries_perm d). destruct d as [es stop order]. cbn [entries_in d_entries]. rewrite map_map. f_equal. apply map_ext.
    by intros [name [h c]]. }
  induction (map snd (toc_entries d)) as [|e es IH]; [done|].
  destruct (decide (has_body e)) as [Hb|Hb]; [rewrite filter_cons_True by done|rewrite filter_cons_False by done]; rewrite !list_sum_cons; lia.
Qed.

Lemma bodies_room (es : list (Entry S)) : Forall queued_ok es -> bodies_len es = Z.of_nat (list_sum (map body_room es)).
Proof.
  unfold bodies_len. induction 1 as [|e es [[n Hn] _] _ IH]; [done|]. rewrite list_sum_cons. cbn [map fold_right]. rewrite IH.
  enough (0 <= body_len e)%Z by (unfold body_room; lia). unfold body_len. rewrite Hn. unfold body_size in Hn. destruct (e_contents e) as [|f|d].
  - by injection Hn as <-.
  - by apply size_of_reader in Hn as [? _].
  - injection Hn as <-. apply toc_size_nonneg.
Qed.

Lemma children_queued d : typed d -> Forall (fun x => known contents_hash x.2) (d_entries d) -> Forall queued_ok (map snd (toc_entries d)).
Proof.
  intros Ht HK. apply Forall_forall. intros e He. apply list_elem_of_fmap in He as (x & -> & Hx). rewrite (toc_entries_perm d) in Hx.
  rewrite Forall_forall in HK. destruct (HK x Hx) as [_ Hs]. split; [done|]. intros sub Esub. by eapply typed_sub.
Qed.

Section queue.
(** All that is queued can be written. *)
Variable good : Prop.
Context {W : Type} `{HW : Writes W} `{!WritesOk W}.

(** The queue and the position: what is queued starts at [pos]. *)
Record queue_at (pos : nat) (q : WriteQueue S) : Prop := {
  qa_good : good -> Forall servable (queue q);
  qa_ok : Forall queued_ok (queue q);
  qa_next : next_available_position q = Z.of_nat (pos + list_sum (map body_room (queue q)));
}.

Definition laid_out (pos : nat) (es : list (Entry S)) (bs : bytes) : Prop := forall img, located img pos bs ->
  exists stop, placed_all img es pos stop /\ Z.max (Z.of_nat pos) stop = Z.of_nat (pos + length bs).

Lemma toc_written d q pos h rest : queue_at pos q -> queue q = mkEntry h (Directory d) :: rest ->
  puts (W := W) (fun _ => good -> False) (serialize_toc contents_hash d (mkQueue (next_available_position q) rest)) (fun bs q' =>
    length bs = body_room (mkEntry h (Directory d)) /\ queue_at (pos + length bs) q' /\ queue q' = rest ++ filter has_body (map snd (toc_entries d)) /\
    bs = toc_bytes contents_hash d (next_available_position q) /\ Forall (fun x => known contents_hash x.2) (d_entries d)).
Proof.
  intros [Hg Hok Hnext] Eq. rewrite Eq in Hg, Hok, Hnext. inversion Hok as [|? ? [_ Hty] Hrest]; subst. specialize (Hty d eq_refl).
  assert (good -> Forall servable (map snd (toc_entries d)) /\ Forall servable rest) as Hserv.
  { intros G. specialize (Hg G). inversion Hg as [|? ? Hd Hr]; subst. split; [|done]. inversion Hd as [| |? es stop order Hes]; subst.
    rewrite (toc_entries_perm _). cbn [d_entries]. apply Forall_forall. intros e He. apply list_elem_of_fmap in He as ([name x] & -> & Hx). by eapply Hes. }
  eapply puts_mono; [apply toc_spec| |].
  - intros bs q' (HK & -> & ->). cbn [next_available_position queue] in *.
    pose proof (toc_bytes_length d (next_available_position q) Hty HK) as Hl. pose proof (toc_size_nonneg d).
    assert (length (toc_bytes contents_hash d (next_available_position q)) = body_room (mkEntry h (Directory d))) as El.
    { unfold body_room, body_len, body_size. cbn. lia. }
    split; [done|]. split; [|done]. pose proof (children_queued d Hty HK) as Hc. split; cbn [queue next_available_position].
    + intros G. destruct (Hserv G). apply Forall_app. split; [done|]. by apply forall_filter.
    + apply Forall_app. split; [done|]. by apply forall_filter.
    + rewrite map_app, list_sum_app, room_filter, bodies_room, El by done. rewrite Hnext, list_sum_cons. lia.
  - intros e (x & Hx & Hc) G. destruct (Hserv G) as [Hs _]. rewrite (toc_entries_perm d), Forall_map, Forall_forall in Hs.
    destruct (servable_known _ (Hs x Hx)) as [[y Ey] [n En]]. destruct Hc; congruence.
Qed.

Lemma file_written f h (verify : bool) q pos rest : queue_at pos q -> queue q = mkEntry h (File f) :: rest ->
  puts (W := W) (fun _ => good -> False) (copy_verify f (if verify then h else None)) (fun bs _ =>
    length bs = body_room (mkEntry h (File f)) /\ queue_at (pos + length bs) (mkQueue (next_available_position q) rest) /\
    exists r, rs_reader f = Ok r /\ bs = data r).
Proof.
  intros [Hg Hok Hnext] Eq. rewrite Eq in Hg, Hok, Hnext. inversion Hok as [|? ? [[n Hn] _] Hrest]; subst.
  eapply puts_mono; [apply copy_verify_spec| |].
  - intros bs [] (r & Er & ->). assert (length (data r) = body_room (mkEntry h (File f))) as El.
    { unfold body_room, body_len. rewrite Hn. cbn in Hn. apply size_of_reader in Hn as [_ Hn]. rewrite (Hn r Er). lia. }
    split; [done|]. split; [|by exists r]. split; cbn [queue next_available_position]; [|done|rewrite Hnext, list_sum_cons, El; lia].
    intros G. specialize (Hg G). by inversion Hg.
  - intros e Hc G. specialize (Hg G). inversion Hg as [|? ? Hf _]; subst. inversion Hf as [|? ? r Er Es Hnf Hh|]; subst.
    destruct Hc as [Ee|(r' & Er' & Hcause)]; [congruence|]. rewrite Er in Er'. injection Er' as <-.
    destruct Hcause as [Hin|(g & size & Eg & Hne)]; [by destruct (Hnf e)|]. destruct verify; [|done].
    destruct Hh as [->| ->]; [done|]. injection Eg as <- <-. by destruct Hne.
Qed.

Lemma queue_loop_spec verify fuel : forall q pos, queue_at pos q -> list_sum (map weight (queue q)) < fuel ->
  puts (W := W) (fun _ => good -> False) (queue_loop fuel verify q) (fun bs _ => laid_out pos (queue q) bs).
Proof.
  induction fuel as [|k IH]; intros q pos Hq Hf; [lia|]. cbn [queue_loop]. destruct (queue q) as [|e rest] eqn:Eq.
  { apply puts_ret. intros img _. exists 0%Z. split; [constructor|cbn; lia]. }
  rewrite list_sum_cons in Hf. assert (0 < weight e) by (unfold weight; lia). destruct e as [h [|f|d]]; cbn [e_contents e_hash].
  - eapply puts_mono; [apply (IH (mkQueue (next_available_position q) rest) pos); [|cbn [queue]; lia]| |done].
    + destruct Hq as [Hg Hok Hn]. rewrite Eq in Hg, Hok, Hn. rewrite list_sum_cons in Hn. inversion Hok; subst. split; [|done|done].
      intros G. specialize (Hg G). by inversion Hg.
    + intros bs [] Hl img Himg. destruct (Hl img Himg) as (stop & Hp & Es). exists (Z.max 0 stop). split; [|lia].
      constructor; [constructor|]. by rewrite Nat.add_0_r.
  - eapply puts_bind; [by eapply file_written|]. intros bs _ (El & Hq' & r & Er & ->).
    eapply puts_mono; [apply (IH _ _ Hq'); cbn [queue]; lia| |done]. intros bs [] Hl img Himg. apply located_app in Himg as [H1 H2].
    destruct (Hl img H2) as (stop & Hp & Es). exists (Z.max (Z.of_nat (pos + length (data r))) stop). rewrite length_app. split; [|lia].
    constructor; [by apply placed_file|]. by rewrite <- El.
  - eapply puts_bind; [by eapply toc_written|]. intros bs q' (El & Hq' & Eq' & -> & HK).
    pose proof (weight_children d). pose proof (toc_size_nonneg d). eapply puts_mono; [apply (IH _ _ Hq'); rewrite Eq', map_app, list_sum_app; unfold weight at 1 in Hf; cbn [e_contents] in Hf; lia| |done].
    intros bs [] Hl img Himg. apply located_app in Himg as [Hi1 Hi2]. destruct (Hl img Hi2) as (stop & Hp & Es). rewrite Eq' in Hp.
    apply placed_all_app_inv in Hp as (z & z' & -> & Hz & Hz').
    assert (next_available_position q = Z.of_nat (pos + body_room (mkEntry h (Directory d)) + list_sum (map body_room rest))) as Hnext.
    { rewrite (qa_next _ _ Hq), Eq, list_sum_cons. lia. }
    rewrite El in Hz, Hz', Es. rewrite Hnext in Hi1. apply placed_filter in Hz'.
    exists (Z.max (Z.max (Z.of_nat pos + toc_size d) z') z). split.
    + constructor; [by eapply placed_directory|done].
    + rewrite length_app, El. unfold body_room, body_len, body_size in *. cbn in *. lia.
Qed.
End queue.
End write.
