(* ===== verification/MerkleRead.v ===== *)
(** * Reading an archive back

    Reading an image in which the entries of a directory are [placed] gives a directory with the same names, hashes and files,
    and [source_end] is where the last body ends. *)
From stdpp Require Import sorting.
From S2P Require Import Prelude RustStr BTree SquashFormat SquashBlocks SquashTree SquashData SquashIo SquashImage SquashLoad SquashTable MerkleVarint MerkleBytes MerkleArchive MerkleHash MerkleCopy MerkleWrite.

Local Open Scope rust_scope.
Local Open Scope poll_scope.

Section read.
Context `{V : VarInt} `{!VarIntOk V} `{H : Hashing} `{!HashingOk H} {S : Type} `{HZ : SizedSource S} `{HS : ReadSource S} `{!ReadSourceOk S}.

(** ** Trees whose stored hashes are right *)

(** A stored hash is that of the contents; the size stored with a directory may be more than that of its table. *)
Inductive sound : DirectoryContents S -> Prop :=
| sound_directory es stop order :
    Forall (fun x => (Z.of_nat (length x.1) <= MAX_STR_LEN)%Z) es ->
    (forall name h size f r, (name, mkEntry (Some (h, size)) (File f)) ∈ es -> rs_reader f = Ok r ->
       h = b3 (data r) /\ size = Z.of_nat (length (data r))) ->
    (forall name h size sub, (name, mkEntry (Some (h, size)) (Directory sub)) ∈ es -> sighash sub = Ok h /\ (toc_size sub <= size)%Z) ->
    (forall name h sub, (name, mkEntry h (Directory sub)) ∈ es -> sound sub) ->
    sound (mkDirectory es stop order).

(** How deep directories are nested. *)
Fixpoint height (c : EntryContents S) : nat :=
  match c with
  | Directory (mkDirectory es _ _) => 1 + max_list (map (fun x => match x.2 with mkEntry _ c => height c end) es)
  | _ => 0
  end.

Lemma max_list_elem n l : n ∈ l -> n <= max_list l.
Proof. induction l as [|m l IH]; [by rewrite elem_of_nil|]. rewrite elem_of_cons. intros [->|Hn]; cbn; [lia|]. specialize (IH Hn). lia. Qed.

Lemma max_list_le n l : (forall m, m ∈ l -> m <= n) -> max_list l <= n.
Proof.
  induction l as [|m l IH]; intros Hl; cbn; [lia|]. apply Nat.max_lub; [apply Hl; by left|]. apply IH. intros k Hk. apply Hl. by right.
Qed.

Lemma height_sub name h sub es stop order : (name, mkEntry h (Directory sub)) ∈ es ->
  height (Directory sub) < height (Directory (mkDirectory es stop order)).
Proof.
  intros Hin. cbn [height]. apply Nat.lt_succ_r, max_list_elem, list_elem_of_fmap. exists (name, mkEntry h (Directory sub)). by split.
Qed.

(** ** Hashes *)

Lemma file_hash_inv f r x : rs_reader f = Ok r -> contents_hash (File f) = Ok x -> x = (b3 (data r), Z.of_nat (length (data r))).
Proof.
  intros Er. cbn [contents_hash]. unfold FileContents_hash, to_io. pose proof (copy_verify_spec (W := bytes) f None []) as Hp. unfold puts_from, post in Hp.
  destruct (copy_verify f None []) as [v [y|e| |]]; try done. destruct Hp as [_ (bs & E & r' & Er' & ->)]. cbn in E. subst v. cbn. intros [= <-]. congruence.
Qed.

Lemma sighash_known d : Forall (fun x => exists h, hash_by contents_hash x.2 = Ok h) (d_entries d) ->
  sighash d = Ok (b3 (sig_bytes (map (fun x => (x.1, hash_of contents_hash x.2)) (d_entries d)))).
Proof. intros HK. unfold sighash. rewrite entry_hashes_known by done. cbn [result_bind]. by rewrite sighash_of_eq. Qed.

Definition entry_sound (e : Entry S) : Prop :=
  (forall f r, e_contents e = File f -> rs_reader f = Ok r -> hash_of contents_hash e = (b3 (data r), Z.of_nat (length (data r)))) /\
  (forall sub, e_contents e = Directory sub -> sound sub /\ sighash sub = Ok (hash_of contents_hash e).1 /\ (toc_size sub <= (hash_of contents_hash e).2)%Z).

Lemma sound_entry d x : sound d -> x ∈ d_entries d -> (exists h, hash_by contents_hash x.2 = Ok h) -> entry_sound x.2.
Proof.
  destruct 1 as [es stop order _ Hfile Hdir Hsub]. destruct x as [name [h c]]. cbn [d_entries snd]. intros Hin [y Ey]. unfold entry_sound, hash_of. rewrite Ey.
  unfold hash_by in Ey. cbn [e_hash e_contents] in Ey. split; cbn [e_contents].
  - intros f r -> Er. destruct h as [[g size]|]; [|by eapply file_hash_inv]. injection Ey as <-. by destruct (Hfile _ _ _ _ _ Hin Er) as [-> ->].
  - intros sub ->. split; [by eapply Hsub|]. destruct h as [[g size]|]; [injection Ey as <-; by apply (Hdir _ _ _ _ Hin)|].
    rewrite contents_hash_directory in Ey. unfold sighash. destruct (entry_hashes (d_entries sub)) as [hs|]; [|done]. injection Ey as <-. done.
Qed.

(** ** Copies *)

Section image.
Variables (img : bytes) (rep : option Z) (bad : Prop).
Hypothesis img_size : (Z.of_nat (length img) < 2 ^ 64)%Z.
Hypothesis rep_ok : match rep with Some limit => (Z.of_nat (length img) <= limit)%Z | None => True end.

(** An entry that was read: the same names and hashes, and the files where they are in the image. *)
Inductive copy_of : Entry S -> Entry Section_ -> Prop :=
| copy_missing h h' : copy_of (mkEntry h Missing) (mkEntry h' Missing)
| copy_file h f h' r p : rs_reader f = Ok r -> located img p (data r) -> h' = Some (b3 (data r), Z.of_nat (length (data r))) ->
    copy_of (mkEntry h (File f)) (mkEntry h' (File (mkSection (Z.of_nat p) (Z.of_nat (length (data r))))))
| copy_directory h h' es stop order es' stop' : copy_all es es' ->
    copy_of (mkEntry h (Directory (mkDirectory es stop order))) (mkEntry h' (Directory (mkDirectory es' stop' None)))
with copy_all : list (bytes * Entry S) -> list (bytes * Entry Section_) -> Prop :=
| copy_nil : copy_all [] []
| copy_cons name e e' es es' : e_hash e' = Some (hash_of contents_hash e) -> copy_of e e' -> copy_all es es' ->
    copy_all ((name, e) :: es) ((name, e') :: es').

Definition same_entry (x : bytes * Entry S) (y : bytes * Entry Section_) : Prop :=
  x.1 = y.1 /\ e_hash y.2 = Some (hash_of contents_hash x.2) /\ copy_of x.2 y.2.

Lemma copy_all_iff es es' : copy_all es es' <-> Forall2 same_entry es es'.
Proof.
  split; [induction 1; by repeat constructor|]. induction 1 as [|[n e] [n' e'] es es' (En & Eh & Hc) _ IH]; [constructor|]. cbn in En. subst n'. by constructor.
Qed.

Definition copy_dir (d : DirectoryContents S) (d' : DirectoryContents Section_) : Prop :=
  Forall2 same_entry (d_entries d) (d_entries d') /\ d_order d' = None.

(** ** Reading *)

Lemma obtains_header (r : Source) a c n : reader_of bad r (a ++ c) -> n = length a ->
  obtains img rep bad (read_header n r) (fun '(bs, r') => bs = a /\ reader_of bad r' c).
Proof.
  intros Hr ->. eapply obtains_mono; [apply (obtains_exact img rep bad r (a ++ c)); [done|rewrite length_app; lia]|].
  intros [bs r']. by rewrite take_app_length, drop_app_length.
Qed.

Lemma obtains_end p bs : located img p bs -> obtains img rep bad (checked_end (Z.of_nat p) (Z.of_nat (length bs))) (fun stop => stop = Z.of_nat (p + length bs)).
Proof.
  intros Hl%located_length a (Ha & Hr & Hb). unfold checked_end. destruct (Z.leb_spec (2 ^ 64) (Z.of_nat p + Z.of_nat (length bs))); [lia|].
  unfold post, m_bind, get_reported. cbn [fst snd]. rewrite Hr. destruct rep as [limit|]; cbn.
  - destruct (Z.leb_spec (Z.of_nat p + Z.of_nat (length bs)) limit); [|lia]. cbn. split; [done|]. lia.
  - split; [done|]. lia.
Qed.

Lemma position_range p bs : located img p bs -> in_range u64 (Z.of_nat p) = true /\ in_range u64 (Z.of_nat (length bs)) = true.
Proof. intros Hl%located_length. rewrite !in_range_u64. lia. Qed.

(** [directory] reads the directories that are nested [k] deep at most. *)
Definition reads (k : nat) (directory : Source -> bytes -> Z -> M Archived (DirectoryContents Section_ * Source)) : Prop :=
  forall d p q stop (header : Source) rest expected max_size, typed d -> sound d -> height (Directory d) <= k ->
    Forall (fun x => known contents_hash x.2) (d_entries d) ->
    located img p (toc_bytes contents_hash d (Z.of_nat q)) -> placed_all img (map snd (toc_entries d)) q stop ->
    sighash d = Ok expected -> (toc_size d <= max_size)%Z ->
    reader_of bad header (to_be_bytes (Z.of_nat p) ++ to_be_bytes (toc_size d) ++ rest) ->
    obtains img rep bad (directory header expected max_size) (fun '(d', hd) =>
      copy_dir d d' /\ source_end d' = Z.max (Z.of_nat p + toc_size d) stop /\ reader_of bad hd rest).

(** What is known of an entry that is read. *)
Record entry_at (k : nat) (x : bytes * Entry S) (p : nat) (stop : Z) : Prop := {
  ea_typed : entry_typed x;
  ea_short : (Z.of_nat (length x.1) <= MAX_STR_LEN)%Z;
  ea_known : known contents_hash x.2;
  ea_sound : entry_sound x.2;
  ea_sub : forall sub, e_contents x.2 = Directory sub -> typed sub /\ height (Directory sub) <= k;
  ea_placed : placed img x.2 p stop;
}.

Lemma hash_size_range k x p stop : entry_at k x p stop -> in_range u64 (hash_of contents_hash x.2).2 = true.
Proof.
  intros [(_ & _ & Hst) _ [[[h size] Eh] _] [Hfile Hdir] Hsub Hp]. unfold hash_by in Eh. destruct (e_hash x.2) as [[g s]|] eqn:Est.
  { unfold hash_of, hash_by. rewrite Est. by destruct (Hst g s eq_refl). }
  destruct Hp as [h' p|h' f r p Er Hl|h' d p q z HK Hl Hall]; cbn [e_contents] in *.
  - done.
  - rewrite (Hfile f r eq_refl Er). by eapply position_range.
  - destruct (Hsub d eq_refl) as [Ht _]. rewrite contents_hash_directory in Eh. destruct (entry_hashes (d_entries d)) as [hs|] eqn:Ehs; [|done]. cbn in Est. subst h'.
    unfold hash_of, hash_by. cbn [e_hash e_contents]. rewrite contents_hash_directory, Ehs. cbn [result_bind snd].
    rewrite <- (toc_bytes_length d (Z.of_nat q)) by done. by eapply position_range.
Qed.

Lemma entry_read k directory x p stop (header : Source) rest : reads k directory -> entry_at k x p stop ->
  reader_of bad header (header_bytes (hash_of contents_hash x.2) (e_contents x.2) (Z.of_nat p) ++ rest) ->
  obtains img rep bad (Entry_deserialize directory header) (fun '(e', hd) => same_entry x (x.1, e') /\ entry_end e' = stop /\ reader_of bad hd rest).
Proof.
  intros Hdir Hx Hr. pose proof (hash_size_range _ _ _ _ Hx) as Hsize. destruct Hx as [Hty _ [Hh Hbody] [Hfile Hds] Hsub Hp].
  pose proof (hash_of_length x Hty Hh) as Hlen. unfold header_bytes in Hr. rewrite <- !app_assoc in Hr.
  eapply obtains_bind; [by eapply obtains_header|]. intros [? hd1] [-> Hr1].
  eapply obtains_bind; [eapply obtains_header; [exact Hr1|by rewrite to_be_bytes_length]|]. intros [? hd2] [-> Hr2]. rewrite from_to_be_bytes by done.
  eapply (obtains_bind _ _ _ _ _ (fun '(c', hd) => copy_of x.2 (mkEntry (Some (hash_of contents_hash x.2)) c') /\
    entry_end (mkEntry None c') = stop /\ reader_of bad hd rest)).
  2: { intros [c' hd] (Hc & He & Hr'). apply obtains_ret. rewrite <- surjective_pairing. split; [by split; [|split]|]. by split. }
  eapply obtains_bind; [eapply obtains_header; [exact Hr2|done]|]. intros [? hd3] [-> Hr3].
  destruct x as [name e]. cbn [fst snd] in *. destruct Hp as [h p|h f r p Er Hl|h d p q z HK Hl Hall]; cbn [e_contents type_id] in *.
  - apply obtains_ret. split; [apply copy_missing|]. by split.
  - pose proof (Hfile f r eq_refl Er) as Eh. rewrite Eh in *. cbn [snd] in *. destruct (position_range _ _ Hl) as [Hp64 _].
    eapply (obtains_bind _ _ _ _ _ (fun '(f', hd) => f' = mkSection (Z.of_nat p) (Z.of_nat (length (data r))) /\ reader_of bad hd rest)).
    { eapply obtains_bind; [eapply obtains_header; [exact Hr3|by rewrite to_be_bytes_length]|]. intros [? hd4] [-> Hr4]. rewrite from_to_be_bytes by done.
      eapply obtains_bind; [by apply obtains_end|]. intros ? ->. by apply obtains_ret. }
    intros [f' hd4] [-> Hr4]. apply obtains_ret. split; [by eapply copy_file|]. split; [|done]. cbn. unfold section_end. cbn. lia.
  - destruct (Hds d eq_refl) as (Hs & Esig & Hle). destruct (Hsub d eq_refl) as [Ht Hk]. rewrite <- app_assoc in Hr3.
    eapply obtains_bind; [by eapply Hdir|]. intros [d' hd4] ([Hc Ho] & He & Hr4). apply obtains_ret. split; [|done].
    destruct d as [es st o], d' as [es' st' o']. cbn in Ho. subst o'. constructor. by apply copy_all_iff.
Qed.

(** The entries of a table, from the position of the first body on. *)
Inductive entries_at (k : nat) : list (bytes * Entry S) -> nat -> Z -> Prop :=
| entries_nil p : entries_at k [] p 0
| entries_cons x es p stop stop' : entry_at k x p stop -> entries_at k es (p + body_room x.2) stop' ->
    entries_at k (x :: es) p (Z.max stop stop').

Lemma body_len_room x : known contents_hash x -> body_len x = Z.of_nat (body_room x).
Proof.
  intros [_ [n Hn]]. unfold body_room, body_len. rewrite Hn. rewrite Z2Nat.id; [done|]. unfold body_size in Hn. destruct (e_contents x).
  - by injection Hn as <-.
  - by apply size_of_reader in Hn as [? _].
  - injection Hn as <-. apply toc_size_nonneg.
Qed.

Lemma rows_cons x es p : known contents_hash x.2 -> rows contents_hash (Z.of_nat p) (x :: es) =
  row contents_hash x (Z.of_nat p) ++ rows contents_hash (Z.of_nat (p + body_room x.2)) es.
Proof. intros Hk. cbn [rows]. rewrite body_len_room, Nat2Z.inj_add by done. done. Qed.

Lemma entries_read k directory es p stop : reads k directory -> entries_at k es p stop -> forall fuel (toc : Source) acc stop0 rest,
  reader_of bad toc (rows contents_hash (Z.of_nat p) es ++ rest) -> length es < fuel -> (0 <= stop0)%Z ->
  obtains img rep bad (entries_loop directory fuel (Z.of_nat (length es)) toc acc stop0) (fun '(acc', stop') =>
    stop' = Z.max stop0 stop /\ exists es', Forall2 same_entry es es' /\
      acc' = fold_left (fun m x => BTreeMap_insert bytes_cmp x.1 x.2 m) es' acc).
Proof.
  intros Hdir. induction 1 as [p|x es p z z' Hx _ IH]; intros fuel toc acc stop0 rest Hr Hf H0; (destruct fuel as [|fuel]; [cbn in Hf; lia|]); cbn [entries_loop].
  { apply obtains_ret. split; [lia|]. by exists []. }
  destruct (Z.eqb_spec (Z.of_nat (length (x :: es))) 0) as [E|_]; [cbn in E; lia|].
  rewrite rows_cons in Hr by apply Hx. unfold row in Hr. rewrite <- !app_assoc in Hr.
  eapply obtains_bind; [eapply obtains_parses; [exact Hr|apply parses_varstring; [apply Hx|apply Hx]]|].
  intros [name toc1] (c & [-> ->] & Hr1). eapply obtains_bind; [by eapply entry_read|]. intros [e toc2] (He & Es & Hr2).
  replace (Z.of_nat (length (x :: es)) - 1)%Z with (Z.of_nat (length es)) by (cbn; lia).
  eapply obtains_mono; [apply (IH fuel toc2 _ _ rest Hr2); [cbn in Hf; lia|lia]|].
  intros [acc' stop'] (-> & es' & HF & ->). split; [rewrite Es; lia|]. exists ((x.1, e) :: es'). split; [by constructor|done].
Qed.

(** ** Maps *)

Lemma insert_all_elem (es : list (bytes * Entry Section_)) : forall acc, BTreeMap_wf bytes_cmp acc -> NoDup (map fst es) ->
  (forall x, x ∈ map fst es -> x ∉ map fst acc) ->
  BTreeMap_wf bytes_cmp (fold_left (fun m x => BTreeMap_insert bytes_cmp x.1 x.2 m) es acc) /\
  forall x, x ∈ fold_left (fun m x => BTreeMap_insert bytes_cmp x.1 x.2 m) es acc <-> x ∈ acc \/ x ∈ es.
Proof.
  induction es as [|[n e] es IH]; intros acc Hw Hnd Hdis; cbn [fold_left map fst snd] in *.
  { split; [done|]. intros x. rewrite elem_of_nil. intuition. }
  inversion Hnd as [|? ? Hn Hnd']; subst.
  assert (forall x, x ∈ BTreeMap_insert bytes_cmp n e acc <-> x = (n, e) \/ x ∈ acc) as Hins.
  { intros [m v]. rewrite (map_insert_elem bytes_cmp bytes_cmp_eq) by done. split.
    - intros [[-> ->]|[_ ?]]; [by left|by right].
    - intros [[= -> ->]|Hin]; [by left|]. right. split; [|done]. intros ->. apply (Hdis n); [left|]. apply list_elem_of_fmap. by exists (n, v). }
  destruct (IH (BTreeMap_insert bytes_cmp n e acc)) as [Hw' Hel]; [by apply (map_insert_wf bytes_cmp bytes_cmp_eq)|done| |].
  - intros x Hx Hin. apply list_elem_of_fmap in Hin as (y & -> & Hy). apply Hins in Hy as [->|Hy]; [done|].
    apply (Hdis y.1); [by right|]. apply list_elem_of_fmap. by exists y.
  - split; [done|]. intros x. rewrite Hel, Hins, elem_of_cons. intuition.
Qed.

Lemma same_names es es' : Forall2 same_entry es es' -> map fst es' = map fst es.
Proof. induction 1 as [|x y es es' (E & _) _ IH]; [done|]. cbn [map]. by rewrite IH, E. Qed.

(** The entries that were read in the order of the table are those of the directory. *)
Lemma entries_collected d es' : typed d -> Forall2 same_entry (toc_entries d) es' ->
  Forall2 same_entry (d_entries d) (fold_left (fun m x => BTreeMap_insert bytes_cmp x.1 x.2 m) es' []).
Proof.
  intros Ht HF. destruct (Permutation_Forall2 (toc_entries_perm d) HF) as (k & Hp & HFk).
  assert (BTreeMap_wf bytes_cmp (d_entries d)) as Hw by by destruct Ht.
  assert (StronglySorted (keys_lt bytes_cmp) (map fst k)) as Hs by (by rewrite (same_names _ _ HFk)).
  assert (NoDup (map fst es')) as Hnd by (rewrite Hp; by eapply sorted_NoDup; [apply bytes_cmp_ord|]).
  destruct (insert_all_elem es' []) as [Hw' Hel]; [constructor|done|intros x _; apply not_elem_of_nil|].
  replace (fold_left _ es' []) with k; [done|]. apply (sorted_unique bytes_cmp fst); [done|done|].
  intros x. rewrite Hel, elem_of_nil, Hp. intuition.
Qed.

Lemma read_hashes_same es es' : Forall2 same_entry es es' -> read_hashes es' = Some (map (fun x => (x.1, hash_of contents_hash x.2)) es).
Proof.
  induction 1 as [|x y es es' (En & Eh & _) _ IH]; [done|]. unfold read_hashes in *. cbn [mapM]. rewrite Eh, IH. cbn. by rewrite En.
Qed.

Lemma entries_of k d es q stop : typed d -> sound d -> height (Directory d) <= 1 + k ->
  Forall (fun x => known contents_hash x.2) (d_entries d) -> (forall x, x ∈ es -> x ∈ d_entries d) ->
  placed_all img (map snd es) q stop -> entries_at k es q stop.
Proof.
  intros Ht Hs Hh HK. revert q stop. induction es as [|x es IH]; intros q stop Hsub Hp; inversion Hp as [|? ? ? z z' He Hes]; subst; [constructor|].
  assert (x ∈ d_entries d) as Hin by (apply Hsub; left). rewrite Forall_forall in HK.
  constructor; [|apply IH; [|done]; intros y Hy; apply Hsub; by right]. split; [|..|done].
  - pose proof (typed_entries d Ht) as HF. rewrite Forall_forall in HF. by apply HF.
  - destruct Hs as [es0 st o HF _ _ _]. rewrite Forall_forall in HF. by apply HF.
  - by apply HK.
  - eapply sound_entry; [done..|]. by apply HK.
  - intros sub Esub. split; [by eapply typed_sub|]. destruct d as [es0 st o], x as [n [h c]]. cbn in Hin, Esub. subst c.
    pose proof (height_sub n h sub es0 st o Hin). lia.
Qed.

Lemma rows_count es p : length es <= length (rows contents_hash p es).
Proof.
  revert p. induction es as [|x es IH]; intros p; [done|]. cbn [rows length]. rewrite length_app. specialize (IH (p + body_len x.2)%Z).
  enough (0 < length (row contents_hash x p)) by lia. unfold row, header_bytes. rewrite !length_app. cbn [length]. lia.
Qed.

Lemma directory_read k : reads k (DirectoryContents_deserialize k).
Proof.
  induction k as [|k IH]; intros d p q stop header rest expected max_size Ht Hs Hh HK Hl Hall Esig Hmax Hr.
  { destruct d. cbn [height] in Hh. lia. }
  cbn [DirectoryContents_deserialize]. destruct (position_range _ _ Hl) as [Hp64 Hl64]. pose proof (toc_bytes_length d (Z.of_nat q) Ht HK) as El.
  rewrite El in Hl64.
  eapply obtains_bind; [eapply obtains_header; [exact Hr|by rewrite to_be_bytes_length]|]. intros [? hd1] [-> Hr1].
  eapply obtains_bind; [eapply obtains_header; [exact Hr1|by rewrite to_be_bytes_length]|]. intros [? hd2] [-> Hr2].
  rewrite !from_to_be_bytes by done. destruct (Z.ltb_spec max_size (toc_size d)) as [|_]; [lia|]. rewrite <- El.
  eapply obtains_bind; [by apply obtains_end|]. intros ? ->.
  eapply obtains_bind; [apply obtains_source, located_slice; exact Hl|]. intros toc Htoc.
  assert (in_range u64 (Z.of_nat (length (d_entries d))) = true) as Hn by by destruct Ht.
  eapply obtains_bind; [eapply obtains_parses; [exact Htoc|by apply parses_varint]|]. intros [n toc1] (c & [-> ->] & Hr3).
  rewrite <- (app_nil_r (rows _ _ _)) in Hr3. rewrite <- (Permutation_length (toc_entries_perm d)).
  eapply obtains_bind.
  { eapply (entries_read k _ _ _ _ IH); [by eapply entries_of; [..|intros x; rewrite toc_entries_perm|]|exact Hr3| |lia].
    destruct Hr3 as [Hd _]. cbn in Hd. rewrite Hd, app_nil_r. pose proof (rows_count (toc_entries d) (Z.of_nat q)). lia. }
  intros [acc stop'] (-> & es' & HF & ->). pose proof (entries_collected d es' Ht HF) as Hc.
  eapply obtains_bind; [apply obtains_outcome; by rewrite (read_hashes_same _ _ Hc)|]. intros hs ->. rewrite sighash_of_eq.
  rewrite sighash_known in Esig by (eapply Forall_impl; [exact HK|]; by intros x [? _]). injection Esig as <-. rewrite bool_decide_true by done.
  apply obtains_ret. split; [done|]. split; [|done]. cbn [source_end]. lia.
Qed.
End image.
End read.
