(* ===== verification/MerkleRoundtrip.v ===== *)
(** * Packages written and opened

    [MerkleArchive::serialize] and [MerkleArchive::deserialize] as a whole, and the archive of a package: what was written is
    read as the same tree of names, hashes and files, signed by the same key. *)
From S2P Require Import Prelude RustStr BTree SquashFormat SquashBlocks SquashTree SquashData SquashIo SquashImage SquashFiles SquashLoad SquashTable MerkleVarint MerkleBytes MerkleArchive MerkleHash MerkleCopy MerkleVerify MerkleWrite MerkleRead.

Local Open Scope rust_scope.
Local Open Scope poll_scope.

Section roundtrip.
Context `{V : VarInt} `{!VarIntOk V} `{H : Hashing} `{!HashingOk H} `{E : Ed25519} `{!Ed25519Ok E}.
Context {S : Type} `{HZ : SizedSource S} `{HS : ReadSource S} `{!ReadSourceOk S}.

(** ** Signatures *)

(** The key, the signature and the size that are written for the root [root]. *)
Definition signed_as (a : MerkleArchive S) (root key s : bytes) (max_size : Z) : Prop :=
  match ma_signer a with
  | Signed k sg m _ => k = key /\ sg = s /\ m = max_size
  | Signing k context => verifying_key k = key /\ toc_size (ma_contents a) = max_size /\
      sign_prehashed k (digest (mkCommitment root max_size)) context = Ok s
  end.

(** A signature that an archive was read with still fits its contents; a key signs for [context]. *)
Definition signer_fits (context : bytes) (a : MerkleArchive S) : Prop :=
  match ma_signer a with
  | Signed k sg m _ => length k = 32 /\ length sg = 64 /\ in_range u64 m = true /\ valid_key k = true /\ (toc_size (ma_contents a) <= m)%Z /\
      forall root, sighash (ma_contents a) = Ok root -> verify_prehashed_strict k (digest (mkCommitment root m)) context sg = true
  | Signing _ c => c = context
  end.

(** Why a signature may not be made. *)
Definition signs (a : MerkleArchive S) : Prop :=
  match ma_signer a with Signed _ _ _ _ => True | Signing k context => forall m, exists s, sign_prehashed k m context = Ok s end.

Lemma signed_lengths context a root key s max_size : signer_fits context a -> signed_as a root key s max_size -> length key = 32 /\ length s = 64.
Proof.
  unfold signer_fits, signed_as. destruct (ma_signer a) as [k sg m c|k c].
  - by intros (Hk & Hs & _) (<- & <- & _).
  - intros _ (<- & _ & Hs). split; [apply key_length|by eapply sign_length].
Qed.

Lemma signed_verifies context a root key s max_size : signer_fits context a -> signed_as a root key s max_size ->
  sighash (ma_contents a) = Ok root ->
  valid_key key = true /\ verify_prehashed_strict key (digest (mkCommitment root max_size)) context s = true /\ (toc_size (ma_contents a) <= max_size)%Z.
Proof.
  unfold signer_fits, signed_as. destruct (ma_signer a) as [k sg m c|k c].
  - intros (_ & _ & _ & Hv & Hle & Hs) (<- & <- & <-) Hr. split; [done|]. split; [by apply Hs|done].
  - intros -> (<- & <- & Hs) _. split; [apply key_valid|]. split; [by apply sign_verifies|done].
Qed.

(** ** Writing *)

(** What is before the table of contents of the root. *)
Definition head_bytes (key s root : bytes) (max_size position size : Z) : bytes :=
  key ++ s ++ root ++ to_be_bytes max_size ++ to_be_bytes position ++ to_be_bytes size.

(** What an archive is written as, from the position [start] on. *)
Definition archive_layout (a : MerkleArchive S) (start : nat) (bs : bytes) : Prop := exists root key s max_size body,
  sighash (ma_contents a) = Ok root /\ signed_as a root key s max_size /\
  let d := ma_contents a in
  let p := start + length (key ++ s ++ root) + 24 in
  bs = head_bytes key s root max_size (Z.of_nat p) (toc_size d) ++ body /\
  forall img, located img p body -> exists h stop, placed img (mkEntry h (Directory d)) p stop /\ stop = Z.of_nat (p + length body).

Section write.
Variable good : Prop.

Lemma serialize_puts verify a w : typed (ma_contents a) -> (good -> servable (mkEntry None (Directory (ma_contents a))) /\ signs a) ->
  puts_from (fun _ => good -> False) w (MerkleArchive_serialize verify a) (fun bs _ => archive_layout a (length (given w)) bs).
Proof.
  intros Ht Hgood. set (d := ma_contents a) in *. unfold MerkleArchive_serialize.
  assert (good -> exists root, sighash d = Ok root) as Hsig.
  { intros G. destruct (Hgood G) as [Hs _]. eexists. apply sighash_known. destruct d as [es stop order].
    inversion Hs as [| |? ? ? ? Hes]; subst. apply Forall_forall. intros [n e] Hin. by destruct (servable_known e (Hes n e Hin)). }
  eapply puts_from_bind.
  { apply puts_lift. intros e Ee G. destruct (Hsig G) as [root Er]. unfold commitment in Ee. fold d in Ee. rewrite Er in Ee. done. }
  intros w1 ? c Ew1 [-> Ec]. unfold commitment in Ec. fold d in Ec. destruct (sighash d) as [root|] eqn:Er; [|done]. injection Ec as <-.
  set (max_size := match ma_signer a with Signed _ _ s _ => s | Signing _ _ => toc_size d end). cbn [root_sighash root_maxsize].
  eapply puts_from_bind.
  { apply puts_lift. intros e Ee G. destruct (Hgood G) as [_ Hs]. unfold signs in Hs. destruct (ma_signer a) as [|k ctx]; [done|].
    destruct (Hs (digest (mkCommitment root max_size))) as [s Es]. rewrite Es in Ee. done. }
  intros w2 ? [key s] Ew2 [-> Es].
  assert (signed_as a root key s max_size) as Hsa.
  { unfold signed_as, max_size in *. destruct (ma_signer a) as [k sg m c|k c]; [by injection Es as -> ->|].
    destruct (sign_prehashed k _ c) as [sg|] eqn:Esg; [|done]. by injection Es as <- <-. }
  clearbody max_size. eapply puts_from_bind; [apply puts_write|]. intros w3 ? [] Ew3 ->.
  eapply puts_from_bind; [apply puts_write|]. intros w4 ? [] Ew4 ->. eapply puts_from_bind; [apply puts_write|]. intros w5 ? [] Ew5 ->.
  eapply puts_from_bind; [apply puts_write|]. intros w6 ? [] Ew6 ->.
  set (p := length (given w) + length (key ++ s ++ root) + 24).
  eapply (puts_from_bind _ _ _ _ (fun bs x => bs = [] /\ x = (Z.of_nat p - 16)%Z)).
  { split; [reflexivity|]. exists []. rewrite app_nil_r. split; [done|]. split; [done|]. unfold position_of. change (sunk w6) with (given w6).
    rewrite Ew6, Ew5, Ew4, Ew3, Ew2, Ew1, !length_app, to_be_bytes_length. unfold p. rewrite !length_app. cbn [length]. lia. }
  intros w7 ? start _ [-> ->]. fold d. replace (Z.of_nat p - 16 + DirectoryContents_header_size)%Z with (Z.of_nat p) by (unfold DirectoryContents_header_size; lia).
  eapply puts_from_bind; [apply puts_write|]. intros w8 ? [] _ ->. eapply puts_from_bind; [apply puts_write|]. intros w9 ? [] _ ->.
  pose proof (toc_size_nonneg d) as Hsize. set (q := mkQueue (Z.of_nat p + toc_size d) [mkEntry None (Directory d)]).
  change (puts_from (fun _ => good -> False) w9 (queue_loop (2 + entries_in (Directory d)) verify q) (fun bs' (_ : unit) =>
    archive_layout a (length (given w)) ([] ++ [] ++ key ++ s ++ root ++ to_be_bytes max_size ++ [] ++ to_be_bytes (Z.of_nat p) ++ to_be_bytes (toc_size d) ++ bs'))).
  eapply puts_from_mono; [apply (queue_loop_spec good verify _ q p)| |done].
  - split; cbn [queue next_available_position q].
    + intros G. constructor; [|constructor]. by destruct (Hgood G).
    + constructor; [|constructor]. split; [by eexists|]. by intros ? [= <-].
    + cbn [map list_sum fold_right]. unfold body_room, body_len, body_size. cbn. lia.
  - cbn [queue q map list_sum fold_right]. unfold weight. cbn [e_contents]. lia.
  - intros bs [] Hl. exists root, key, s, max_size, bs. split; [done|]. split; [done|]. fold d p. split; [unfold head_bytes; by rewrite <- !app_assoc|].
    intros img Himg. destruct (Hl img Himg) as (stop & Hp & Estop). inversion Hp as [|? ? ? z z' Hz Hnil]; subst. inversion Hnil; subst.
    exists None, z. split; [done|]. assert (Z.of_nat p + toc_size d <= z)%Z by (inversion Hz; subst; lia). lia.
Qed.
End write.

(** ** Reading *)

(** What is asked of the archive: a commitment, or that the table of the root is small. *)
Definition expectation (expected : option MerkleArchiveCommitment) (root : bytes) (max_size : Z) : Prop :=
  match expected with
  | Some c => root_sighash c = root /\ (max_size <= root_maxsize c)%Z
  | None => (max_size <= CAP_1_MiB)%Z
  end.

Section image.
Variables (img : bytes) (rep : option Z) (bad : Prop).
Hypothesis img_size : (Z.of_nat (length img) < 2 ^ 64)%Z.
Hypothesis rep_ok : match rep with Some limit => (Z.of_nat (length img) <= limit)%Z | None => True end.

Lemma archive_read depth context expected a root key s max_size h p stop (header : Source) rest :
  typed (ma_contents a) -> sound (ma_contents a) -> height (Directory (ma_contents a)) <= depth -> signer_fits context a ->
  sighash (ma_contents a) = Ok root -> signed_as a root key s max_size -> expectation expected root max_size ->
  placed img (mkEntry h (Directory (ma_contents a))) p stop ->
  reader_of bad header (head_bytes key s root max_size (Z.of_nat p) (toc_size (ma_contents a)) ++ rest) ->
  obtains img rep bad (MerkleArchive_deserialize depth context header expected) (fun a' =>
    ma_signer a' = Signed key s max_size context /\ copy_dir img (ma_contents a) (ma_contents a') /\ source_end (ma_contents a') = stop).
Proof.
  intros Ht Hs Hh Hfit Er Hsa Hexp Hp Hr. set (d := ma_contents a) in *. inversion Hp as [| |? ? ? q z HK Hl Hall]; subst.
  pose proof (toc_bytes_length d (Z.of_nat q) Ht HK) as El. apply located_length in Hl as Hlen.
  destruct (signed_lengths _ _ _ _ _ _ Hfit Hsa) as [Hk Hsl]. destruct (signed_verifies _ _ _ _ _ _ Hfit Hsa Er) as (Hvk & Hver & Hmax). fold d in Hmax.
  assert (length root = 32) as Hroot.
  { unfold sighash in Er. destruct (entry_hashes (d_entries d)); [|done]. injection Er as <-. apply b3_length. }
  assert (in_range u64 max_size = true) as Hm.
  { unfold signer_fits, signed_as in Hfit, Hsa. destruct (ma_signer a) as [k sg m c|k c]; [by destruct Hsa as (_ & _ & <-), Hfit as (_ & _ & ? & _)|].
    destruct Hsa as (_ & <- & _). fold d. apply in_range_u64. lia. }
  unfold head_bytes in Hr. rewrite <- !app_assoc in Hr. unfold MerkleArchive_deserialize.
  eapply obtains_bind; [by eapply obtains_header|]. intros [? hd1] [-> Hr1]. rewrite Hvk. cbn [negb].
  eapply obtains_bind; [by eapply obtains_header|]. intros [? hd2] [-> Hr2].
  eapply obtains_bind; [by eapply obtains_header|]. intros [? hd3] [-> Hr3].
  eapply obtains_bind; [eapply obtains_header; [exact Hr3|by rewrite to_be_bytes_length]|]. intros [? hd4] [-> Hr4].
  rewrite from_to_be_bytes, Hver by done. cbn [negb].
  eapply obtains_bind; [apply (obtains_io _ _ _ _ tt)|].
  { unfold expectation in Hexp. destruct expected as [c|].
    - destruct Hexp as [Ec Hle]. rewrite bool_decide_true by done. cbn [negb]. by destruct (Z.ltb_spec (root_maxsize c) max_size); [lia|].
    - by destruct (Z.ltb_spec CAP_1_MiB max_size); [lia|]. }
  intros [] _. eapply obtains_bind; [by apply (directory_read img rep bad img_size rep_ok depth d p q z hd4 rest root max_size)|].
  intros [d' hd5] (Hc & He & _). apply obtains_ret. done.
Qed.

Lemma package_read depth expected a bs : typed (ma_contents a) -> sound (ma_contents a) -> height (Directory (ma_contents a)) <= depth ->
  signer_fits SIG_CONTEXT a -> archive_layout a (length MAGIC_AND_VERSION) bs ->
  (forall c, commitment a = Ok c -> expectation expected (root_sighash c) (root_maxsize c)) ->
  located img 0 (MAGIC_AND_VERSION ++ bs) ->
  obtains img rep bad (S9pk_archive depth expected) (fun a' => MerkleArchive_signer a' = MerkleArchive_signer a /\
    copy_dir img (ma_contents a) (ma_contents a') /\ source_end (ma_contents a') = Z.of_nat (length (MAGIC_AND_VERSION ++ bs))).
Proof.
  intros Ht Hs Hh Hfit (root & key & s & max_size & body & Er & Hsa & -> & Hbody) Hexp Hl.
  destruct (signed_lengths _ _ _ _ _ _ Hfit Hsa) as [Hk Hsl].
  assert (length root = 32) as Hroot.
  { unfold sighash in Er. destruct (entry_hashes (d_entries (ma_contents a))); [|done]. injection Er as <-. apply b3_length. }
  set (p := length MAGIC_AND_VERSION + length (key ++ s ++ root) + 24) in *.
  set (hb := head_bytes key s root max_size (Z.of_nat p) (toc_size (ma_contents a))) in *.
  assert (length hb = 152) as Hhb by (unfold hb, head_bytes; rewrite !length_app, !to_be_bytes_length; lia).
  assert (p = length (MAGIC_AND_VERSION ++ hb)) as Ep by (rewrite length_app, Hhb; unfold p; rewrite !length_app; lia).
  rewrite app_assoc in Hl. apply located_app in Hl as [Hl1 Hl2]. cbn [Nat.add] in Hl2. rewrite <- Ep in Hl2.
  destruct (Hbody img Hl2) as (h & stop & Hp & Estop).
  unfold S9pk_archive. eapply obtains_bind.
  { apply (obtains_source img rep bad _ _ (MAGIC_AND_VERSION ++ hb)). rewrite <- (located_slice img 0 _ Hl1). f_equal. rewrite length_app, Hhb. done. }
  intros header Hr. eapply obtains_bind; [eapply obtains_header; [exact Hr|done]|]. intros [? hd1] [-> Hr1]. rewrite bool_decide_true by done. cbn [negb].
  rewrite <- (app_nil_r hb) in Hr1. eapply obtains_mono; [eapply (archive_read depth SIG_CONTEXT expected a root key s max_size h p stop hd1 []); try done|].
  - apply (Hexp (mkCommitment root max_size)). unfold commitment. rewrite Er. cbn [result_bind]. unfold signed_as in Hsa.
    destruct (ma_signer a); [by destruct Hsa as (_ & _ & ->)|by destruct Hsa as (_ & -> & _)].
  - intros a' (Esig & Hc & He). split; [|split; [done|]].
    + unfold MerkleArchive_signer. rewrite Esig. unfold signed_as in Hsa. destruct (ma_signer a); [by destruct Hsa|by destruct Hsa].
    + rewrite He, Estop, Ep, !length_app. lia.
Qed.

(** ** Paths *)

Definition copied (o : option (Entry S)) (o' : option (Entry Section_)) : Prop :=
  match o, o' with
  | Some e, Some e' => e_hash e' = Some (hash_of contents_hash e) /\ copy_of img e e'
  | None, None => True
  | _, _ => False
  end.

Lemma copy_get name d d' : copy_dir img d d' -> copied (get name d) (get name d').
Proof.
  intros [HF _]. unfold get. induction HF as [|[n e] [n' e'] es es' (En & Eh & Hc) _ IH]; [done|]. cbn [fst snd] in *. subst n'.
  cbn [BTreeMap_get]. by destruct (is_eq (bytes_cmp name n)).
Qed.

Lemma copy_directory_of o o' : copied o o' -> match o ≫= as_directory, o' ≫= as_directory with
  | Some d, Some d' => copy_dir img d d'
  | None, None => True
  | _, _ => False
  end.
Proof.
  destruct o as [e|], o' as [e'|]; try done. intros [_ Hc]. destruct Hc as [h h'|h f h' r p Er Hl Hh|h h' es stop order es' stop' Hall]; cbn; [done|done|].
  split; [by apply copy_all_iff|done].
Qed.

Lemma copy_segments path : forall o o', copied o o' -> copied (get_segments path (o ≫= as_directory) o) (get_segments path (o' ≫= as_directory) o').
Proof.
  induction path as [|name path IH]; intros o o' Ho; [done|]. cbn [get_segments]. destruct (utf8_valid name); [|done].
  pose proof (copy_directory_of o o' Ho) as Hd. destruct (o ≫= as_directory) as [d|], (o' ≫= as_directory) as [d'|]; try done.
  apply (IH (get name d) (get name d')). by apply copy_get.
Qed.

Lemma copy_path path d d' : copy_dir img d d' -> copied (get_path path d) (get_path path d').
Proof.
  intros Hd. unfold get_path. destruct (segments path) as [|name rest]; [done|]. cbn [get_segments]. destruct (utf8_valid name); [|done].
  apply (copy_segments rest (get name d) (get name d')). by apply copy_get.
Qed.

Lemma copy_type e e' : copy_of img e e' -> type_id (e_contents e') = type_id (e_contents e).
Proof. by destruct 1. Qed.

Lemma copy_file_read e e' f r : copy_of img e e' -> e_contents e = File f -> rs_reader f = Ok r -> (Z.of_nat (length (data r)) < 2 ^ 63)%Z ->
  obtains img rep bad (read_file_to_vec e') (fun c => c = data r).
Proof.
  destruct 1 as [|h g h' r' p Er Hl Hh|]; [done| |done]. cbn [e_contents]. intros [= <-] Er' H63. rewrite Er in Er'. injection Er' as <-.
  unfold read_file_to_vec. cbn [e_contents e_hash]. unfold section_to_vec, section_reader, with_capacity. cbn [se_position se_size].
  rewrite (proj2 (Z.leb_gt _ _)) by (by rewrite Hh). eapply (obtains_bind _ _ _ _ _ (fun _ => True)); [by apply obtains_ret|]. intros _ _.
  eapply obtains_bind; [apply obtains_source, located_slice; exact Hl|]. intros sc [Hd Hb]. cbn in Hd, Hb.
  pose proof (copy_reader_spec (W := bytes) h' sc []) as Hp. unfold puts_from, post in Hp. unfold to_io. intros a Ha.
  destruct (copy_reader h' sc []) as [v [x|e| |]]; cbn [fst snd] in Hp.
  - destruct Hp as [_ (bs & Ev & -> & _)]. cbn in Ev. subst v. cbn. split; [done|]. done.
  - split; [done|]. cbn. destruct Hp as [_ [[Hin|(hh & size & Eg & Hne)]|[]]]; [apply Hb; by eapply fails_spec|].
    subst h'. injection Eg as <- <-. rewrite Hd in Hne. by destruct Hne.
  - by destruct Hp.
  - by destruct Hp.
Qed.
End image.
End roundtrip.

(** An archive behind the magic bytes that was written is opened as the same archive. *)
Lemma archive_roundtrip `{V : VarInt} `{!VarIntOk V} `{H : Hashing} `{!HashingOk H} `{E : Ed25519} `{!Ed25519Ok E}
    {S : Type} `{HZ : SizedSource S} `{HS : ReadSource S} `{!ReadSourceOk S} (a : MerkleArchive S) (verify : bool) (depth : nat) (script : list response) :
  typed (ma_contents a) -> sound (ma_contents a) -> signer_fits SIG_CONTEXT a -> height (Directory (ma_contents a)) <= depth ->
  match S9pk_serialize verify None a (mkSink [] script) with
  | (out, Ready _) => forall expected ar extra, archive ar = sunk out ++ extra -> (Z.of_nat (length (archive ar)) < 2 ^ 64)%Z ->
      (forall n, reported ar = Some n -> (Z.of_nat (length (archive ar)) <= n)%Z) ->
      (forall c, commitment a = Ok c -> expectation expected (root_sighash c) (root_maxsize c)) ->
      opens ar (S9pk_archive depth expected) (fun ar' a' =>
        MerkleArchive_signer a' = MerkleArchive_signer a /\ source_end (ma_contents a') = Z.of_nat (length (sunk out)) /\
        forall path,
          match get_path path (ma_contents a), get_path path (ma_contents a') with
          | Some e, Some e' => e_hash e' = Some (hash_of contents_hash e) /\ type_id (e_contents e') = type_id (e_contents e) /\
              forall f r, e_contents e = File f -> rs_reader f = Ok r -> (Z.of_nat (length (data r)) < 2 ^ 63)%Z ->
                opens ar' (read_file_to_vec e') (fun _ c => c = data r)
          | None, None => True
          | _, _ => False
          end)
  | (_, Fail e) => servable (mkEntry None (Directory (ma_contents a))) /\ signs a -> sink_cause script e
  | _ => False
  end.
Proof.
  intros Ht Hs Hfit Hh. set (good := servable (mkEntry None (Directory (ma_contents a))) /\ signs a).
  assert (puts_from (fun _ => good -> False) (mkSink [] script) (S9pk_serialize verify None a) (fun bs _ =>
    exists bs', bs = MAGIC_AND_VERSION ++ bs' /\ archive_layout a (length MAGIC_AND_VERSION) bs')) as Hp.
  { eapply puts_from_bind; [apply puts_write|]. intros w ? [] Ew ->. cbn [given Sink_writes_ok sunk app] in Ew.
    eapply puts_from_mono; [by apply (serialize_puts good verify a w)| |done]. intros bs [] Hl. exists bs. split; [done|].
    cbn [given Sink_writes_ok] in Hl. by rewrite Ew in Hl. }
  unfold puts_from, post in Hp. destruct (S9pk_serialize verify None a (mkSink [] script)) as [out [[]|e| |]]; cbn [fst snd] in Hp; [| |by destruct Hp..].
  2: { destruct Hp as [_ [Hng|Hc]]; [|by intros _]. intros G. by destruct (Hng G). }
  destruct Hp as [_ (bs & Eout & bs' & -> & Hl)]. cbn [given Sink_writes_ok sunk app] in Eout.
  intros expected ar extra Ear H64 Hrep Hexp. set (img := archive ar).
  assert (match reported ar with Some limit => (Z.of_nat (length img) <= limit)%Z | None => True end) as Hrep' by (destruct (reported ar); [by apply Hrep|done]).
  assert (located img 0 (MAGIC_AND_VERSION ++ bs')) as Hloc by (unfold img; rewrite Ear, Eout; apply located_later; by apply (located_end [])).
  pose proof (package_read img (reported ar) (faulty ar) H64 Hrep' depth expected a bs' Ht Hs Hh Hfit Hl Hexp Hloc) as Hr.
  unfold opens. eapply post_mono; [by apply Hr|]. intros ar' [a'|e| |] [(Ea & Er & _) Hx]; try done.
  destruct Hx as (Hkey & Hc & Hend). split; [done|]. split; [by rewrite Hend, Eout|]. intros path.
  pose proof (copy_path img path _ _ Hc) as Hcp. destruct (get_path path (ma_contents a)) as [x|], (get_path path (ma_contents a')) as [x'|]; try done.
  destruct Hcp as [Hhash Hcp]. split; [done|]. split; [by eapply copy_type|]. intros f r Hf Hrd H63.
  unfold opens. eapply post_mono; [by apply (copy_file_read img (reported ar) (faulty ar') x x' f r)|]. by intros ar'' [c|e| |] [_ Hc'].
Qed.
