(* ===== verification/MerkleTree.v ===== *)
(** * Changing the tree of an archive

    [insert_path], [update_hashes] and [filter]: a hash that is stored is always that of the contents ([sound], MerkleRead.v), so
    that what was changed can be written and read; what [filter] leaves out keeps its hash, so that the root and its signature stay. *)
From stdpp Require Import sorting.
From S2P Require Import Prelude RustStr BTree SquashFormat SquashBlocks SquashTree SquashData SquashIo SquashImage MerkleVarint MerkleBytes MerkleArchive MerkleHash MerkleCopy MerkleVerify MerkleWrite MerkleRead MerkleRoundtrip.

Local Open Scope rust_scope.
Local Open Scope poll_scope.

(** ** Inserting *)

Section insert.
Context {S : Type}.
Implicit Types (d : DirectoryContents S) (e : Entry S).

(** One path neither leads to the other nor below it. *)
Fixpoint apart (p q : list bytes) : Prop :=
  match p, q with
  | a :: p', b :: q' => a ≠ b \/ apart p' q'
  | _, _ => False
  end.

Lemma directory_get_insert name e d : get name (mkDirectory (BTreeMap_insert bytes_cmp name e (d_entries d)) (source_end d) (d_order d)) = Some e.
Proof. apply (map_get_insert bytes_cmp bytes_cmp_eq). Qed.

Lemma directory_get_insert_ne name name' e d : name' ≠ name ->
  get name' (mkDirectory (BTreeMap_insert bytes_cmp name e (d_entries d)) (source_end d) (d_order d)) = get name' d.
Proof. apply (map_get_insert_ne bytes_cmp bytes_cmp_eq). Qed.

(** The entry to descend to: the one there is, or a new directory. *)
Definition step_into (name : bytes) d : Entry S := default (Entry_new (Directory DirectoryContents_new)) (get name d).

Lemma insert_segments_cons name path file entry d : insert_segments (name :: path) file entry d =
  if utf8_valid name then
    let changed c := mkDirectory (BTreeMap_insert bytes_cmp name (mkEntry None c) (match get name d with Some _ => d_entries d
      | None => BTreeMap_insert bytes_cmp name (Entry_new (Directory DirectoryContents_new)) (d_entries d) end)) (source_end d) (d_order d) in
    match e_contents (step_into name d) with
    | Directory sub => let '(sub', r) := insert_segments path file entry sub in (changed (Directory sub'), r)
    | c => (changed c, invalid $"ancestor exists and is not a directory")
    end
  else (d, invalid $"non-utf8 path segment").
Proof.
  cbn [insert_segments]. destruct (utf8_valid name); [|done]. unfold step_into. destruct (get name d) as [[h c]|] eqn:G; cbn [default].
  - unfold get in G. rewrite G. by destruct c.
  - rewrite (map_get_insert bytes_cmp bytes_cmp_eq). done.
Qed.

Lemma insert_twice {K A} (cmp : K -> K -> comparison) `{!OrdCmp cmp} k (v w : A) m :
  BTreeMap_insert cmp k w (BTreeMap_insert cmp k v m) = BTreeMap_insert cmp k w m.
Proof.
  induction m as [|[x u] m IH]; cbn; [by rewrite (cmp_refl cmp)|]. destruct (cmp k x) eqn:E; cbn; rewrite ?(cmp_refl cmp), ?E; [done|done|]. by rewrite IH.
Qed.

(** So the entry is put in the place of the one there was. *)
Definition replaced (name : bytes) (c : EntryContents S) d : DirectoryContents S :=
  mkDirectory (BTreeMap_insert bytes_cmp name (mkEntry None c) (d_entries d)) (source_end d) (d_order d).

Lemma insert_segments_step name path file entry d : utf8_valid name = true ->
  insert_segments (name :: path) file entry d =
  match e_contents (step_into name d) with
  | Directory sub => let '(sub', r) := insert_segments path file entry sub in (replaced name (Directory sub') d, r)
  | c => (replaced name c d, invalid $"ancestor exists and is not a directory")
  end.
Proof.
  intros Hu. rewrite insert_segments_cons, Hu. unfold replaced. cbn zeta. destruct (get name d); [done|].
  destruct (e_contents (step_into name d)) as [|f|sub]; [..|destruct (insert_segments path file entry sub)]; by rewrite (insert_twice bytes_cmp).
Qed.

(** What is inserted is found there. *)
Lemma insert_segments_get path file entry d d' : utf8_valid file = true -> insert_segments path file entry d = (d', Ok tt) ->
  get_segments (path ++ [file]) (Some d') None = Some entry.
Proof.
  intros Hf. revert d d'. assert (forall q e, get_segments q (as_directory e) (Some e) = match q with [] => Some e | _ => get_segments q (as_directory e) None end) as Hq by by intros [].
  induction path as [|name path IH]; intros d d' Ex.
  - injection Ex as <-. cbn [app get_segments]. by rewrite Hf, directory_get_insert.
  - cbn [app get_segments]. destruct (utf8_valid name) eqn:Hu; [|cbn [insert_segments] in Ex; by rewrite Hu in Ex].
    rewrite insert_segments_step in Ex by done. destruct (e_contents (step_into name d)) as [|f|sub]; [done|done|].
    destruct (insert_segments path file entry sub) as [sub' [[]|]] eqn:Es; [|done]. injection Ex as <-. unfold replaced. rewrite directory_get_insert, Hq.
    destruct (path ++ [file]) eqn:Ep; [by destruct path|]. by apply (IH sub sub').
Qed.

(** What is at other places stays. *)
Lemma insert_segments_other path file entry q d : apart (path ++ [file]) q ->
  get_segments q (Some (insert_segments path file entry d).1) None = get_segments q (Some d) None.
Proof.
  revert q d. induction path as [|name path IH]; intros [|x q] d Hq; try done; cbn [app apart] in Hq; cbn [get_segments];
    (destruct (utf8_valid x) eqn:Hx; [|done]).
  - destruct Hq as [Hne|[]]. cbn [insert_segments fst]. by rewrite directory_get_insert_ne.
  - destruct (utf8_valid name) eqn:Hu; [|cbn [insert_segments]; by rewrite Hu]. rewrite insert_segments_step by done.
    destruct (decide (x = name)) as [->|Hne].
    + destruct Hq as [?|Hq]; [done|]. destruct q as [|y q]; [by destruct path|].
      unfold step_into. destruct (get name d) as [e|] eqn:G; cbv [default from_option id].
      * destruct e as [h [|f|sub]]; cbn [e_contents]; [| |].
        -- unfold replaced. cbn [fst]. by rewrite directory_get_insert.
        -- unfold replaced. cbn [fst]. by rewrite directory_get_insert.
        -- specialize (IH (y :: q) sub Hq). destruct (insert_segments path file entry sub) as [sub' r]. unfold replaced. cbn [fst] in *. by rewrite directory_get_insert.
      * cbn [e_contents Entry_new]. specialize (IH (y :: q) DirectoryContents_new Hq).
        destruct (insert_segments path file entry DirectoryContents_new) as [sub' r]. unfold replaced. cbn [fst] in *. rewrite directory_get_insert.
        cbn [as_directory e_contents]. cbn [get_segments] in IH |- *. destruct (utf8_valid y); [|done]. rewrite IH. cbn. destruct q as [|z q]; [done|]. cbn. by destruct (utf8_valid z).
    + destruct (e_contents (step_into name d)) as [|f|sub]; [..|destruct (insert_segments path file entry sub) as [sub' r]]; unfold replaced; cbn [fst];
        by rewrite directory_get_insert_ne.
Qed.
End insert.

(** ** Stored hashes *)

Section sound.
Context `{V : VarInt} `{H : Hashing} {S : Type} `{HZ : SizedSource S} `{HS : ReadSource S}.
Implicit Types (d sub : DirectoryContents S) (e : Entry S).

(** Every map in the tree is sorted. *)
Inductive ordered : DirectoryContents S -> Prop :=
| ordered_directory es stop order : BTreeMap_wf bytes_cmp es ->
    (forall name h sub, (name, mkEntry h (Directory sub)) ∈ es -> ordered sub) -> ordered (mkDirectory es stop order).

Definition in_order d : Prop := ordered d /\ sound d.

Definition short (name : bytes) : Prop := (Z.of_nat (length name) <= MAX_STR_LEN)%Z.

(** An entry that fits into such a tree. *)
Record entry_fits (e : Entry S) : Prop := {
  ef_file : forall h size f r, e = mkEntry (Some (h, size)) (File f) -> rs_reader f = Ok r -> h = b3 (data r) /\ size = Z.of_nat (length (data r));
  ef_hash : forall h size sub, e = mkEntry (Some (h, size)) (Directory sub) -> sighash sub = Ok h /\ (toc_size sub <= size)%Z;
  ef_sub : forall h sub, e = mkEntry h (Directory sub) -> in_order sub;
}.

Lemma in_order_iff es stop order : in_order (mkDirectory es stop order) <-> BTreeMap_wf bytes_cmp es /\ Forall (fun x => short x.1 /\ entry_fits x.2) es.
Proof.
  rewrite Forall_forall. split.
  - intros [Ho Hs]. inversion Ho as [? ? ? Hw Hos]; subst. inversion Hs as [? ? ? Hn Hf Hd Hss]; subst. rewrite Forall_forall in Hn. split; [done|].
    intros [name e] Hin. split; [by apply (Hn (name, e))|]. cbn [snd]. split.
    + intros h size f r -> Er. by eapply Hf.
    + intros h size sub ->. by eapply Hd.
    + intros h sub ->. split; [by eapply Hos|by eapply Hss].
  - intros [Hw HF]. split; constructor.
    + done.
    + intros name h sub Hin. destruct (HF _ Hin) as [_ He]. by apply (ef_sub _ He h sub).
    + apply Forall_forall. intros x Hx. by apply HF.
    + intros name h size f r Hin Er. destruct (HF _ Hin) as [_ He]. by apply (ef_file _ He h size f r).
    + intros name h size sub Hin. destruct (HF _ Hin) as [_ He]. by apply (ef_hash _ He h size sub).
    + intros name h sub Hin. destruct (HF _ Hin) as [_ He]. by apply (ef_sub _ He h sub).
Qed.

Lemma in_order_entries d x : in_order d -> x ∈ d_entries d -> short x.1 /\ entry_fits x.2.
Proof. destruct d as [es stop order]. rewrite in_order_iff. intros [_ HF]. rewrite Forall_forall in HF. apply HF. Qed.

Lemma in_order_insert name e d : in_order d -> short name -> entry_fits e ->
  in_order (mkDirectory (BTreeMap_insert bytes_cmp name e (d_entries d)) (source_end d) (d_order d)).
Proof.
  destruct d as [es stop order]. rewrite !in_order_iff. cbn [d_entries]. intros [Hw HF] Hn He. split; [by apply (map_insert_wf bytes_cmp bytes_cmp_eq)|].
  rewrite Forall_forall in HF |- *. intros [n v] Hin. apply (map_insert_elem bytes_cmp bytes_cmp_eq) in Hin as [[-> ->]|[_ Hin]]; [done| |done]. by apply (HF (n, v)).
Qed.

Lemma in_order_new : in_order DirectoryContents_new.
Proof. apply in_order_iff. split; constructor. Qed.

(** An entry whose hash was taken away. *)
Lemma fits_unhashed c : (forall sub, c = Directory sub -> in_order sub) -> entry_fits (mkEntry None c).
Proof. intros Hc. split; [done|done|]. intros h sub [= _ ->]. by apply Hc. Qed.

Lemma insert_segments_in_order path file entry d : in_order d -> Forall short path -> short file -> entry_fits entry ->
  in_order (insert_segments path file entry d).1.
Proof.
  intros Hd HF Hfile He. revert d Hd. induction HF as [|name path Hn _ IH]; intros d Hd.
  { cbn [insert_segments fst]. by apply in_order_insert. }
  destruct (utf8_valid name) eqn:Hu; [|cbn [insert_segments]; by rewrite Hu]. rewrite insert_segments_step by done.
  assert (forall sub, e_contents (step_into name d) = Directory sub -> in_order sub) as Hsub.
  { intros sub. unfold step_into. destruct (get name d) as [[h c]|] eqn:G; cbn.
    - intros ->. apply map_get_elem in G. destruct (in_order_entries _ _ Hd G) as [_ Hfit]. by apply (ef_sub _ Hfit h sub).
    - intros [= <-]. apply in_order_new. }
  destruct (e_contents (step_into name d)) as [|f|sub].
  - apply in_order_insert; [done|done|]. by apply fits_unhashed.
  - apply in_order_insert; [done|done|]. by apply fits_unhashed.
  - specialize (IH sub (Hsub sub eq_refl)). destruct (insert_segments path file entry sub) as [sub' r]. apply in_order_insert; [done|done|].
    apply fits_unhashed. by intros ? [= <-].
Qed.
End sound.

(** C23: inserting an entry into an archive.  However it ends, the maps of the tree stay sorted and every hash that is stored
    stays that of the contents, because the directories on the way lose theirs.  When it succeeds the entry is what [get_path] finds at the path, and at every path that
    is neither above nor below it there is what there was. *)
Theorem insert_path_sound `{V : VarInt} `{H : Hashing} {S : Type} `{HZ : SizedSource S} `{HS : ReadSource S} (path : bytes) (entry : Entry S) (d : DirectoryContents S) :
  in_order d -> entry_fits entry -> Forall short (segments path) ->
  match insert_path path entry d with
  | (d', r) => in_order d' /\ (r = Ok tt -> get_path path d' = Some entry /\
      forall q, apart (segments path) (segments q) -> get_path q d' = get_path q d)
  end.
Proof.
  intros Hd He Hn. unfold insert_path. destruct (last (components path)) as [[| | |file]|] eqn:El; try (split; [done|]; by intros [=]).
  destruct (utf8_valid file) eqn:Hf; [|split; [done|]; by intros [=]].
  assert (segments path = omap segment (removelast (components path)) ++ [file]) as Es.
  { unfold segments. apply last_Some in El as (l & ->). by rewrite removelast_last, omap_app. }
  set (parents := omap segment (removelast (components path))) in *. rewrite Es, Forall_app in Hn. destruct Hn as [Hp Hfile]. rewrite Forall_singleton in Hfile.
  pose proof (insert_segments_in_order parents file entry d Hd Hp Hfile He) as Ho.
  pose proof (insert_segments_other parents file entry) as Hother.
  destruct (insert_segments parents file entry d) as [d' r] eqn:Ei. split; [done|]. intros ->. split.
  - unfold get_path. rewrite Es. by apply (insert_segments_get parents file entry d).
  - intros q Hq. unfold get_path. rewrite Es in Hq. specialize (Hother (segments q) d Hq). by rewrite Ei in Hother.
Qed.

(** ** Induction on a tree *)

Section tree_ind.
Context {S : Type} (P : Entry S -> Prop).
Hypothesis P_missing : forall h, P (mkEntry h Missing).
Hypothesis P_file : forall h f, P (mkEntry h (File f)).
Hypothesis P_directory : forall h es stop order, (forall name e, (name, e) ∈ es -> P e) -> P (mkEntry h (Directory (mkDirectory es stop order))).

Fixpoint tree_ind (e : Entry S) : P e.
Proof.
  destruct e as [h [|f|[es stop order]]]; [apply P_missing|apply P_file|]. apply P_directory.
  assert (Forall (fun x => P x.2) es) as HF by (induction es as [|[n x] es IH]; constructor; [exact (tree_ind x)|exact IH]).
  intros name e Hin. rewrite Forall_forall in HF. exact (HF (name, e) Hin).
Defined.
End tree_ind.

(** ** Computing the hashes *)

Section update.
Context `{V : VarInt} `{H : Hashing} {S : Type} `{HZ : SizedSource S} `{HS : ReadSource S}.
Implicit Types (d sub : DirectoryContents S) (e : Entry S).

(** The tree without its hashes. *)
Fixpoint strip (e : Entry S) : Entry S :=
  let '(mkEntry _ c) := e in
  mkEntry None (match c with
  | Directory (mkDirectory es stop order) => Directory (mkDirectory (map (fun x => (x.1, strip x.2)) es) stop order)
  | c => c
  end).

Definition strip_all (es : list (bytes * Entry S)) : list (bytes * Entry S) := map (fun x => (x.1, strip x.2)) es.

Definition strip_directory d : DirectoryContents S := mkDirectory (strip_all (d_entries d)) (source_end d) (d_order d).

(** Every entry has its hash, computed from what is there. *)
Inductive hashed : Entry S -> Prop :=
| hashed_file h f : contents_hash (File f) = Ok h -> hashed (mkEntry (Some h) (File f))
| hashed_directory h es stop order : (forall name e, (name, e) ∈ es -> hashed e) ->
    contents_hash (Directory (mkDirectory es stop order)) = Ok h -> hashed (mkEntry (Some h) (Directory (mkDirectory es stop order))).

(** All files can be read, and none is missing. *)
Inductive readable : Entry S -> Prop :=
| readable_file h f x : contents_hash (File f) = Ok x -> readable (mkEntry h (File f))
| readable_directory h es stop order : (forall name e, (name, e) ∈ es -> readable e) -> readable (mkEntry h (Directory (mkDirectory es stop order))).

Lemma update_hash_directory b h es stop order : update_hash b (mkEntry h (Directory (mkDirectory es stop order))) =
  let '(es', r) := update_entries b es in
  match r with
  | Ok _ => set_hash h (Directory (mkDirectory es' stop order))
  | Err err => (mkEntry h (Directory (mkDirectory es' stop order)), Err err)
  end.
Proof. done. Qed.

Lemma set_hash_Ok h c e' : set_hash (S := S) h c = (e', Ok tt) -> exists x, contents_hash c = Ok x /\ e' = mkEntry (Some x) c.
Proof. unfold set_hash. destruct (contents_hash c) as [x|]; [|done]. intros [= <-]. by exists x. Qed.

Lemma update_entries_cons b name e es : update_entries b ((name, e) :: es) = then_rest name (update_hash b e) es (update_entries b es).
Proof. done. Qed.

(** The entries that [update_entries] leaves are related to those it got when [update_hash] relates them. *)
Lemma update_entries_Ok (R : Entry S -> Entry S -> Prop) b es es' :
  (forall name e e', (name, e) ∈ es -> update_hash b e = (e', Ok tt) -> R e e') -> update_entries b es = (es', Ok tt) ->
  Forall2 (fun x y => x.1 = y.1 /\ R x.2 y.2) es es'.
Proof.
  revert es'. induction es as [|[name e] es IH]; intros es' HR E; [by injection E as <-|]. rewrite update_entries_cons in E. unfold then_rest in E.
  destruct (update_hash b e) as [e1 [[]|err]] eqn:E1; [|done]. destruct (update_entries b es) as [es1 r1]. injection E as <- ->.
  constructor; [split; [done|]; apply (HR name); [left|done]|]. apply IH; [|done]. intros n x x' Hin. apply (HR n). by right.
Qed.

Lemma update_entries_total b es : (forall name e, (name, e) ∈ es -> exists e', update_hash b e = (e', Ok tt)) -> exists es', update_entries b es = (es', Ok tt).
Proof.
  induction es as [|[name e] es IH]; intros Hes; [by exists []|]. destruct (Hes name e ltac:(left)) as [e' Ee].
  destruct IH as [es' Ees]; [intros n x Hin; apply (Hes n); by right|]. exists ((name, e') :: es'). by rewrite update_entries_cons, Ee, Ees.
Qed.

Lemma update_hash_Ok b e : forall e', update_hash b e = (e', Ok tt) -> hashed e' /\ strip e' = strip e.
Proof.
  induction e as [h|h f|h es stop order IH] using tree_ind; intros e' E.
  - apply set_hash_Ok in E as (x & Ex & ->). done.
  - apply set_hash_Ok in E as (x & Ex & ->). split; [by constructor|done].
  - rewrite update_hash_directory in E. destruct (update_entries b es) as [es' [[]|]] eqn:Ees; [|done]. apply set_hash_Ok in E as (x & Ex & ->).
    apply (update_entries_Ok (fun e e' => hashed e' /\ strip e' = strip e)) in Ees; [|intros name y y' Hin; by apply (IH name)]. split.
    + constructor; [|done]. intros name y Hin. apply list_elem_of_lookup_1 in Hin as [i Hi].
      destruct (Forall2_lookup_r _ _ _ _ _ Ees Hi) as (z & _ & _ & Hh & _). done.
    + cbn [strip]. do 3 f_equal. clear -Ees. induction Ees as [|u v es es' (En & _ & Es) _ IH]; [done|]. cbn [map]. by rewrite IH, Es, En.
Qed.

Lemma hashed_known e : hashed e -> exists h, e_hash e = Some h /\ contents_hash (e_contents e) = Ok h.
Proof. destruct 1 as [h f Hh|h es stop order _ Hh]; by exists h. Qed.

Lemma update_hash_readable b e : readable e -> exists e', update_hash b e = (e', Ok tt).
Proof.
  induction 1 as [h f x Ex|h es stop order _ IH].
  { exists (mkEntry (Some x) (File f)). change (update_hash b (mkEntry h (File f))) with (set_hash h (File f)). unfold set_hash. by rewrite Ex. }
  destruct (update_entries_total b es IH) as [es' Ees].
  rewrite update_hash_directory, Ees. pose proof (update_entries_Ok (fun _ e' => hashed e') b es es') as HF.
  specialize (HF ltac:(intros name e e' _ E; by destruct (update_hash_Ok _ _ _ E)) Ees).
  unfold set_hash. rewrite contents_hash_directory. cbn [d_entries]. rewrite entry_hashes_known; [by eexists|].
  apply Forall_forall. intros x Hin. apply list_elem_of_lookup_1 in Hin as [i Hi]. destruct (Forall2_lookup_r _ _ _ _ _ HF Hi) as (z & _ & _ & Hh).
  destruct (hashed_known _ Hh) as (y & Ey & _). exists y. unfold hash_by. by rewrite Ey.
Qed.

Lemma update_hash_flag b e : update_hash b e = update_hash true e.
Proof.
  induction e as [h|h f|h es stop order IH] using tree_ind; [done|done|]. rewrite !update_hash_directory.
  assert (update_entries b es = update_entries true es) as ->; [|done].
  induction es as [|[name e] es IHes]; [done|]. rewrite !update_entries_cons, (IH name e ltac:(left)), IHes; [done|]. intros n x Hin. apply (IH n). by right.
Qed.
Lemma strip_names (es : list (bytes * Entry S)) : map fst (strip_all es) = map fst es.
Proof. unfold strip_all. rewrite map_map. by apply map_ext. Qed.

Lemma strip_in_order es stop order : in_order (mkDirectory (strip_all es) stop order) <->
  BTreeMap_wf bytes_cmp es /\ Forall (fun x => short x.1 /\ entry_fits (strip x.2)) es.
Proof.
  rewrite in_order_iff. unfold BTreeMap_wf. rewrite strip_names. unfold strip_all. by rewrite Forall_map.
Qed.

Lemma hashed_fits e : hashed e -> entry_fits (strip e) -> entry_fits e.
Proof.
  induction 1 as [h f Hh|h es stop order _ IH Hh]; intros Hs.
  - split; [|done|done]. intros g size f' r [= -> ->] Er. by injection (file_hash_inv _ _ _ Er Hh) as -> ->.
  - split; [done|..].
    + intros g size sub [= -> <-]. rewrite contents_hash_directory in Hh. unfold sighash. destruct (entry_hashes _) as [hs|]; [|done]. by injection Hh as <- <-.
    + intros g sub [= _ <-]. assert (in_order (mkDirectory (strip_all es) stop order)) as Ho by exact (ef_sub _ Hs _ _ eq_refl).
      apply strip_in_order in Ho as [Hw HF]. apply in_order_iff. split; [done|]. rewrite Forall_forall in HF |- *. intros [n x] Hin.
      destruct (HF _ Hin) as [Hn Hx]. split; [done|]. by apply (IH n).
Qed.
End update.

Lemma update_hashes_Ok `{V : VarInt} `{H : Hashing} {S : Type} `{HZ : SizedSource S} `{HS : ReadSource S} b (d d' : DirectoryContents S) :
  in_order (strip_directory d) -> update_hashes b d = (d', Ok tt) ->
  strip_directory d' = strip_directory d /\ in_order d' /\ Forall (fun x => hashed x.2) (d_entries d').
Proof.
  destruct d as [es stop order]. unfold update_hashes, strip_directory. cbn [d_entries source_end d_order]. intros Ho E.
  destruct (update_entries b es) as [es' r] eqn:Ees. injection E as <- ->. cbn [d_entries source_end d_order].
  apply (update_entries_Ok (fun e e' => hashed e' /\ strip e' = strip e)) in Ees; [|intros name e e' _ E; exact (update_hash_Ok _ _ _ E)].
  assert (strip_all es' = strip_all es) as Es.
  { clear Ho. unfold strip_all. induction Ees as [|x y l k (En & _ & Ex) _ IH]; [done|]. cbn [map]. by rewrite Ex, En, IH. }
  assert (Forall (fun x => hashed x.2) es') as HH by (clear -Ees; induction Ees as [|x y l k (_ & Hh & _) _ IH]; by constructor).
  split; [by rewrite Es|]. split; [|done]. rewrite <- Es in Ho. apply strip_in_order in Ho as [Hw HF]. apply in_order_iff. split; [done|].
  rewrite Forall_forall in HF, HH |- *. intros x Hx. destruct (HF x Hx) as [Hn Hfit]. split; [done|]. apply hashed_fits; [by apply HH|done].
Qed.

(** C24: the hashes of an archive are computed from scratch.  Whatever hashes the entries had, when [update_hashes] succeeds
    every entry in the tree has one, each is that of what is there, so that the tree can be written and read back, and
    nothing but hashes has changed; and it succeeds when all files can be read and none is missing. *)
Theorem update_hashes_sound `{V : VarInt} `{H : Hashing} {S : Type} `{HZ : SizedSource S} `{HS : ReadSource S} (only_missing : bool) (d : DirectoryContents S) :
  in_order (strip_directory d) ->
  (forall d', update_hashes only_missing d = (d', Ok tt) ->
     strip_directory d' = strip_directory d /\ in_order d' /\ Forall (fun x => hashed x.2) (d_entries d')) /\
  (Forall (fun x => readable x.2) (d_entries d) -> exists d', update_hashes only_missing d = (d', Ok tt)).
Proof.
  intros Ho. split; [intros d' E; by apply (update_hashes_Ok only_missing d d')|]. rewrite Forall_forall. intros HR. unfold update_hashes.
  destruct (update_entries_total only_missing (d_entries d)) as [es' ->]; [|by eexists].
  intros name e Hin. exact (update_hash_readable only_missing e (HR _ Hin)).
Qed.

(** ** Filtering *)

Section filter.
Context `{V : VarInt} `{H : Hashing} {S : Type} `{HZ : SizedSource S} `{HS : ReadSource S}.
Implicit Types (d sub : DirectoryContents S) (e : Entry S).

(** Every entry of the tree has a hash. *)
Inductive stored : Entry S -> Prop :=
| stored_missing h : stored (mkEntry (Some h) Missing)
| stored_file h f : stored (mkEntry (Some h) (File f))
| stored_directory h es stop order : (forall name e, (name, e) ∈ es -> stored e) -> stored (mkEntry (Some h) (Directory (mkDirectory es stop order))).

Lemma stored_hash e : stored e -> exists h, e_hash e = Some h.
Proof. destruct 1; by eexists. Qed.

(** What is left of an entry: with [kept], all of it but what is left out below. *)
Inductive left_of_entry : (bytes -> bool) -> bool -> Entry S -> Entry S -> Prop :=
| left_out keep h c : left_of_entry keep false (mkEntry h c) (mkEntry h Missing)
| left_missing keep h : left_of_entry keep true (mkEntry h Missing) (mkEntry h Missing)
| left_file keep h f : left_of_entry keep true (mkEntry h (File f)) (mkEntry h (File f))
| left_directory keep h es es' stop order : left_of_entries keep es es' ->
    left_of_entry keep true (mkEntry h (Directory (mkDirectory es stop order))) (mkEntry h (Directory (mkDirectory es' stop order)))
with left_of_entries : (bytes -> bool) -> list (bytes * Entry S) -> list (bytes * Entry S) -> Prop :=
| left_nil keep : left_of_entries keep [] []
| left_cons keep name e e' es es' : left_of_entry (fun p => keep (path_join name p)) (keep name) e e' -> left_of_entries keep es es' ->
    left_of_entries keep ((name, e) :: es) ((name, e') :: es').

Lemma filter_entry_directory keep h (es : list (bytes * Entry S)) stop order : filter_entry keep (mkEntry h (Directory (mkDirectory es stop order))) =
  let '(es', r) := filter_entries keep es in (mkEntry h (Directory (mkDirectory es' stop order)), r).
Proof. done. Qed.

Lemma filter_entries_cons keep name e (es : list (bytes * Entry S)) : filter_entries keep ((name, e) :: es) =
  then_rest name (if keep name then filter_entry (fun p => keep (path_join name p)) e else drop_entry e) es (filter_entries keep es).
Proof. done. Qed.

Lemma filter_entries_spec keep (es : list (bytes * Entry S)) : (forall name e, (name, e) ∈ es -> stored e) ->
  (forall name e keep', (name, e) ∈ es -> exists e', filter_entry keep' e = (e', Ok tt) /\ left_of_entry keep' true e e') ->
  exists es', filter_entries keep es = (es', Ok tt) /\ left_of_entries keep es es'.
Proof.
  induction es as [|[name e] es IH]; intros Hst Hf; [exists []; split; [done|constructor]|].
  destruct IH as (es' & Ees & Hl); [intros n x Hin; apply (Hst n); by right|intros n x k Hin; apply (Hf n); by right|].
  rewrite filter_entries_cons, Ees. destruct (keep name) eqn:Hk.
  - destruct (Hf name e (fun p => keep (path_join name p)) ltac:(left)) as (e' & -> & He). exists ((name, e') :: es'). split; [done|].
    constructor; [by rewrite Hk|done].
  - destruct (stored_hash e (Hst name e ltac:(left))) as [h Eh]. destruct e as [he c]. cbn in Eh. subst he.
    exists ((name, mkEntry (Some h) Missing) :: es'). split; [done|]. constructor; [rewrite Hk; constructor|done].
Qed.

(** In a tree that has all its hashes nothing is refused. *)
Lemma filter_entry_spec e : stored e -> forall keep, exists e', filter_entry keep e = (e', Ok tt) /\ left_of_entry keep true e e'.
Proof.
  induction 1 as [h|h f|h es stop order Hst IH]; intros keep; [by eexists; split; [|constructor]..|].
  destruct (filter_entries_spec keep es Hst) as (es' & Ees & Hl); [intros name e k Hin; by apply (IH name)|].
  exists (mkEntry (Some h) (Directory (mkDirectory es' stop order))). split; [by rewrite filter_entry_directory, Ees|by constructor].
Qed.
(** An entry and what is left of it. *)
Record leaves e e' : Prop := {
  lv_hash : e_hash e' = e_hash e;
  lv_size : (Entry_header_size e' <= Entry_header_size e)%Z;
  lv_stored : stored e';
  lv_fits : entry_fits e -> entry_fits e';
  lv_height : height (e_contents e') <= height (e_contents e);
  lv_typed : (forall sub, e_contents e = Directory sub -> typed sub) -> forall sub, e_contents e' = Directory sub -> typed sub;
}.

Section directory.
Variables (es es' : list (bytes * Entry S)).
Hypothesis Hstored : forall name e, (name, e) ∈ es -> stored e.
Hypothesis Hleft : Forall2 (fun x y => x.1 = y.1 /\ leaves x.2 y.2) es es'.

Lemma leaves_names : map fst es' = map fst es.
Proof. clear Hstored. pose proof Hleft as HL. clear Hleft. induction HL as [|x y l k (En & _) _ IH]; [done|]. cbn [map]. by rewrite IH, En. Qed.

Lemma leaves_elem name e' : (name, e') ∈ es' -> exists e, (name, e) ∈ es /\ leaves e e'.
Proof.
  intros Hin. apply list_elem_of_lookup_1 in Hin as [i Hi]. destruct (Forall2_lookup_r _ _ _ _ _ Hleft Hi) as ([n e] & Hx & En & Hl). cbn in En, Hl. subst n.
  exists e. split; [by eapply list_elem_of_lookup_2|done].
Qed.

Lemma leaves_hashes : entry_hashes es' = entry_hashes es.
Proof.
  pose proof Hleft as HL. clear Hleft. induction HL as [|[n e] [n' e'] l k (En & Hl) _ IH]; [done|]. cbn [fst snd] in *. subst n'. rewrite !entry_hashes_cons, IH by (intros m x Hin; apply (Hstored m); by right).
  cbn [fst snd]. destruct (stored_hash e (Hstored n e ltac:(left))) as [h Eh]. unfold hash_by. by rewrite (lv_hash _ _ Hl), Eh.
Qed.

Lemma leaves_toc stop order : (toc_size (mkDirectory es' stop order) <= toc_size (mkDirectory es stop order))%Z.
Proof.
  rewrite !toc_size_rows. cbn [d_entries]. rewrite <- (length_map fst es'), <- (length_map fst es), leaves_names. clear Hstored.
  enough (rows_size es' <= rows_size es)%Z by lia. pose proof Hleft as HL. clear Hleft. unfold rows_size. induction HL as [|x y l k (En & Hl) _ IH]; cbn [foldr]; [lia|].
  rewrite En. pose proof (lv_size _ _ Hl). lia.
Qed.

Lemma leaves_in_order stop order : in_order (mkDirectory es stop order) -> in_order (mkDirectory es' stop order).
Proof.
  rewrite !in_order_iff. unfold BTreeMap_wf. rewrite leaves_names. intros [Hw HF]. split; [done|]. rewrite Forall_forall in HF |- *. intros [n e'] Hin.
  destruct (leaves_elem n e' Hin) as (e & He & Hl). destruct (HF _ He) as [Hn Hfit]. split; [done|]. by apply (lv_fits _ _ Hl).
Qed.

Lemma leaves_height stop order : height (Directory (mkDirectory es' stop order)) <= height (Directory (mkDirectory es stop order)).
Proof.
  clear Hstored. cbn [height]. apply le_n_S. pose proof Hleft as HL. clear Hleft. induction HL as [|[n [h c]] [n' [h' c']] l k (_ & Hl) _ IH]; [done|]. cbn [map snd max_list_with].
  pose proof (lv_height _ _ Hl) as Hh. cbn [snd e_contents] in Hh. unfold id in *. lia.
Qed.

Lemma leaves_typed stop order : typed (mkDirectory es stop order) -> typed (mkDirectory es' stop order).
Proof.
  intros Ht. inversion Ht as [? ? ? Hw Hn HF Hsub]; subst. constructor.
  - unfold BTreeMap_wf. by rewrite leaves_names.
  - by rewrite <- (length_map fst es'), leaves_names, length_map.
  - rewrite Forall_forall in HF |- *. intros [n e'] Hin. destruct (leaves_elem n e' Hin) as (e & He & Hl). destruct (HF _ He) as (Hu & Hr & Hh).
    split; [done|]. split; [done|]. cbn [snd] in *. rewrite (lv_hash _ _ Hl). done.
  - intros n h sub Hin. destruct (leaves_elem n _ Hin) as ([g c] & He & Hl). apply (lv_typed _ _ Hl); [|done]. cbn. intros s ->. by eapply Hsub.
Qed.
End directory.

Lemma left_forall2 (R : Entry S -> Entry S -> Prop) keep es es' : left_of_entries keep es es' ->
  (forall name e k b e', (name, e) ∈ es -> left_of_entry k b e e' -> R e e') -> Forall2 (fun x y => x.1 = y.1 /\ R x.2 y.2) es es'.
Proof.
  induction 1 as [keep|keep name e e' es es' He Hes IH]; intros HR; constructor.
  - split; [done|]. by eapply HR; [left|].
  - apply IH. intros n x k b x' Hin. apply (HR n). by right.
Qed.

Lemma left_leaves e : stored e -> forall keep b e', left_of_entry keep b e e' -> leaves e e'.
Proof.
  assert (forall h c, (Entry_header_size (S := S) (mkEntry h Missing) <= Entry_header_size (S := S) (mkEntry h c))%Z) as Hsize.
  { intros h c. unfold Entry_header_size, EntryContents_header_size, FileContents_header_size, DirectoryContents_header_size. cbn. destruct c; lia. }
  assert (forall h c, leaves (mkEntry (Some h) c) (mkEntry (Some h) Missing)) as Hout.
  { intros h c. split; [done|apply Hsize|constructor| |cbn; lia|done]. intros _. by split. }
  induction 1 as [h|h f|h es stop order Hst IH]; intros keep b e' Hl; inversion Hl; subst; try apply Hout.
  - split; [done|reflexivity|constructor|done|done|done].
  - rename es' into k. assert (Forall2 (fun x y => x.1 = y.1 /\ leaves x.2 y.2) es k) as HF.
    { eapply left_forall2; [done|]. intros n x kk b x' Hin Hx. by eapply (IH n). }
    split; [done|done| | |by apply leaves_height|].
    + constructor. intros n x Hin. destruct (leaves_elem es k HF n x Hin) as (y & _ & Hy). apply Hy.
    + intros Hfit. split; [done|..].
      * intros g size sub [= -> <-]. destruct (ef_hash _ Hfit g size _ eq_refl) as [Es Hle]. unfold sighash in *. cbn [d_entries] in *.
        rewrite (leaves_hashes es k Hst HF). split; [done|]. pose proof (leaves_toc es k HF stop order). lia.
      * intros g sub [= _ <-]. apply (leaves_in_order es k HF). by apply (ef_sub _ Hfit (Some h)).
    + cbn. intros Hty sub [= <-]. apply (leaves_typed es k HF). by apply Hty.
Qed.
(** A path all of whose parts are kept. *)
Fixpoint kept (keep : bytes -> bool) (path : list bytes) : bool :=
  match path with
  | [] => true
  | name :: rest => keep name && kept (fun p => keep (path_join name p)) rest
  end.

(** What is found at a path before and after. *)
Definition filtered_at (b : bool) (o o' : option (Entry S)) : Prop :=
  match o, o' with
  | Some e, Some e' => e_hash e' = e_hash e /\
      if b then type_id (e_contents e') = type_id (e_contents e) /\ (forall f, e_contents e = File f -> e_contents e' = File f)
      else e_contents e' = Missing
  | Some _, None => b = false
  | None, Some _ => False
  | None, None => True
  end.

Lemma left_get keep es es' name : left_of_entries keep es es' ->
  match BTreeMap_get bytes_cmp name es, BTreeMap_get bytes_cmp name es' with
  | Some e, Some e' => left_of_entry (fun p => keep (path_join name p)) (keep name) e e'
  | None, None => True
  | _, _ => False
  end.
Proof.
  induction 1 as [keep|keep n e e' es es' He _ IH]; [done|]. cbn [BTreeMap_get]. destruct (is_eq (bytes_cmp name n)) eqn:En; [|done].
  by apply (is_eq_true bytes_cmp bytes_cmp_eq) in En as ->.
Qed.

Lemma left_entry_filtered keep b e e' : left_of_entry keep b e e' -> filtered_at b (Some e) (Some e').
Proof. by destruct 1. Qed.

Lemma get_segments_none path (o : option (Entry S)) : path ≠ [] -> get_segments path None o = None.
Proof. destruct path as [|n path]; [done|]. cbn. by destruct (utf8_valid n). Qed.

Lemma left_segments path : path ≠ [] -> forall keep es es' stop order, left_of_entries keep es es' ->
  filtered_at (kept keep path) (get_segments path (Some (mkDirectory es stop order)) None) (get_segments path (Some (mkDirectory es' stop order)) None).
Proof.
  induction path as [|name path IH]; [done|]. intros _ keep es es' stop order Hl. cbn [get_segments kept]. destruct (utf8_valid name); [|done].
  unfold get. cbn [d_entries]. pose proof (left_get keep es es' name Hl) as Hg.
  destruct (BTreeMap_get bytes_cmp name es) as [e|], (BTreeMap_get bytes_cmp name es') as [e'|]; try done.
  - destruct path as [|m path]; [rewrite andb_true_r; by eapply left_entry_filtered|].
    inversion Hg as [? h c Eb|? h|? h f|? h l l' st o Hll]; subst.
    + rewrite (get_segments_none (m :: path)) by done. cbn [filtered_at andb]. by destruct (get_segments (m :: path) _ _).
    + cbn [as_directory e_contents]. by rewrite !get_segments_none.
    + cbn [as_directory e_contents]. by rewrite !get_segments_none.
    + cbn [as_directory e_contents andb]. exact (IH ltac:(done) _ l l' st o Hll).
  - destruct path as [|m path]; [done|]. by rewrite get_segments_none.
Qed.
End filter.

(** C21: leaving files out of a signed archive.  In an archive all of whose entries have a hash [filter] succeeds; the
    commitment is the same as before, and the signature still fits, so that what is left can be written, read and verified as before.  At a path
    all of whose parts are kept there is the same file as before; at any other there is nothing, or an entry that is marked missing and has the
    hash of what was there. *)
Theorem filter_keeps_signature `{V : VarInt} `{H : Hashing} `{E : Ed25519} {S : Type} `{HZ : SizedSource S} `{HS : ReadSource S}
    (keep : bytes -> bool) (context : bytes) (a : MerkleArchive S) key s max_size c :
  ma_signer a = Signed key s max_size c -> signer_fits context a -> typed (ma_contents a) -> in_order (ma_contents a) ->
  Forall (fun x => stored x.2) (d_entries (ma_contents a)) ->
  exists a', MerkleArchive_filter keep a = (a', Ok tt) /\ commitment a' = commitment a /\ signer_fits context a' /\
    typed (ma_contents a') /\ in_order (ma_contents a') /\ Forall (fun x => stored x.2) (d_entries (ma_contents a')) /\
    height (Directory (ma_contents a')) <= height (Directory (ma_contents a)) /\
    forall path, segments path ≠ [] -> filtered_at (kept keep (segments path)) (get_path path (ma_contents a)) (get_path path (ma_contents a')).
Proof.
  destruct a as [sg [es stop order]]. cbn [ma_signer ma_contents d_entries]. intros -> Hfit Hty Ho Hst. rewrite Forall_forall in Hst.
  destruct (filter_entries_spec keep es) as (es' & Ees & Hl); [intros n e Hin; exact (Hst _ Hin)|intros n e k Hin; exact (filter_entry_spec e (Hst _ Hin) k)|].
  assert (forall name e, (name, e) ∈ es -> stored e) as Hst' by (intros n e Hin; exact (Hst _ Hin)).
  assert (Forall2 (fun x y => x.1 = y.1 /\ leaves x.2 y.2) es es') as HF.
  { eapply left_forall2; [done|]. intros n e k b e' Hin He. by eapply left_leaves; [apply (Hst' n)|]. }
  pose proof (leaves_hashes es es' Hst' HF) as Eh. pose proof (leaves_toc es es' HF stop order) as Htoc.
  exists (mkArchive (Signed key s max_size c) (mkDirectory es' stop order)). unfold MerkleArchive_filter, DirectoryContents_filter. cbn [ma_contents d_entries ma_signer source_end d_order].
  rewrite Ees. split; [done|]. split; [unfold commitment, sighash; cbn [ma_contents ma_signer d_entries]; by rewrite Eh|]. split.
  { unfold signer_fits in *. cbn [ma_signer ma_contents] in *. destruct Hfit as (H1 & H2 & H3 & H4 & H5 & H6). split_and!; [done..|lia|].
    intros root Er. apply H6. unfold sighash in *. cbn [d_entries] in *. by rewrite <- Eh. }
  split; [by apply (leaves_typed es es' HF)|]. split; [by apply (leaves_in_order es es' HF)|]. split.
  { apply Forall_forall. intros [n e'] Hin. destruct (leaves_elem es es' HF n e' Hin) as (e & _ & Hle). apply Hle. }
  split; [by apply (leaves_height es es' HF)|]. intros path Hp. by apply left_segments.
Qed.
