(* ===== verification/MerkleSign.v ===== *)
(** * Keys, signatures and what is signed

    [shared-libs/crates/start-core/src/sign]: [mod.rs], the keys and signatures that packages and registries exchange and
    the message of a plain signature; [ed25519.rs], [Ed25519ph]; [compat.rs], signatures with the tag of older clients.

    The curve is a parameter: [Ed25519] (MerkleArchive.v) signs and verifies prehashed messages, [PureEd25519] verifies plain
    ones.  Encoding as DER is a parameter too ([Der]), of which the clients need that what was encoded is decoded. *)
From S2P Require Import Prelude RustStr BTree SquashFormat SquashBlocks SquashTree SquashData SquashIo SquashImage MerkleVarint MerkleArchive.

Local Open Scope rust_scope.
Local Open Scope poll_scope.

(** ** Keys and signatures *)

Inductive AnyVerifyingKey : Type := Ed25519Key (key : bytes).

Inductive AnySignature : Type :=
| Ed25519Plain (signature : bytes)
| Ed25519ph (signature : bytes).

#[export] Instance AnyVerifyingKey_eq_dec : EqDecision AnyVerifyingKey.
Proof. solve_decision. Defined.
#[export] Instance AnySignature_eq_dec : EqDecision AnySignature.
Proof. solve_decision. Defined.

(** [Ord for AnyVerifyingKey]. *)
Definition key_cmp (a b : AnyVerifyingKey) : comparison :=
  match a, b with Ed25519Key a, Ed25519Key b => bytes_cmp a b end.

Definition SignatureMap : Type := list (AnyVerifyingKey * AnySignature).

(** [VerifyingKey::verify_strict]: key, message, signature. *)
Class PureEd25519 : Type := { verify_strict : bytes -> bytes -> bytes -> bool }.

(** [DerEncoding] of keys and signatures, by the [pkcs8] and [der] crates. *)
Class Der : Type := {
  key_to_der : AnyVerifyingKey -> io bytes;
  key_from_der : bytes -> io AnyVerifyingKey;
  signature_to_der : AnySignature -> io bytes;
  signature_from_der : bytes -> io AnySignature;
}.

(** What is encoded is decoded, and is not empty. *)
Class DerOk (D : Der) : Prop := {
  key_der : forall k d, key_to_der k = Ok d -> key_from_der d = Ok k /\ d ≠ [];
  signature_der : forall s d, signature_to_der s = Ok d -> signature_from_der d = Ok s /\ d ≠ [];
}.

(** ** Verifying a commitment *)

Definition COMMITMENT_SIG_TAG : bytes := bstr "Start-Commitment-Sig v1" ++ [Byte.x00].

(** [SignedCommitment::TYPE_ID] of a [MerkleArchiveCommitment]. *)
Definition TYPE_ID : byte := Byte.x02.

Definition signing_message (tag : bytes) (c : MerkleArchiveCommitment) (context : bytes) : io bytes :=
  match Byte.of_nat (length context) with
  | None => invalid $"context too long"
  | Some n => Ok (tag ++ [n] ++ context ++ [TYPE_ID] ++ digest c)
  end.

Section verify.
Context `{E : Ed25519} `{P : PureEd25519}.

(** [Ed25519ph::verify]. *)
Definition Ed25519ph_verify_commitment (key : bytes) (c : MerkleArchiveCommitment) (context signature : bytes) : io unit :=
  if verify_prehashed_strict key (digest c) context signature then Ok tt else invalid $"signature error".

(** [AnyVerifyingKey::verify_commitment]. *)
Definition key_verify_commitment (key : AnyVerifyingKey) (c : MerkleArchiveCommitment) (context : bytes) (signature : AnySignature) : io unit :=
  match key, signature with
  | Ed25519Key k, Ed25519ph s => Ed25519ph_verify_commitment k c context s
  | Ed25519Key k, Ed25519Plain s =>
      let? message := signing_message COMMITMENT_SIG_TAG c context in
      if verify_strict k message s then Ok tt else invalid $"signature error"
  end.

(** [compat::verify_commitment]: the signature with its canonical tag. *)
Definition verify_commitment (key : AnyVerifyingKey) (c : MerkleArchiveCommitment) (context : bytes) (signature : AnySignature) : io AnySignature :=
  match key_verify_commitment key c context signature with
  | Ok _ => Ok signature
  | Err e =>
      match key, signature with
      | Ed25519Key k, Ed25519Plain s =>
          match Ed25519ph_verify_commitment k c context s with
          | Ok _ => Ok (Ed25519ph s)
          | Err _ => Err e
          end
      | _, _ => Err e
      end
  end.

(** [compat::verify_signatures]: the signature of the uploader comes last and replaces one with its key. *)
Fixpoint verify_all (c : MerkleArchiveCommitment) (context : bytes) (signatures : SignatureMap) (acc : SignatureMap) : io SignatureMap :=
  match signatures with
  | [] => Ok acc
  | (key, signature) :: rest =>
      let? s := verify_commitment key c context signature in
      verify_all c context rest (BTreeMap_insert key_cmp key s acc)
  end.

Definition verify_signatures (c : MerkleArchiveCommitment) (context : bytes) (signatures : SignatureMap)
    (uploader : AnyVerifyingKey) (signature : AnySignature) : io SignatureMap :=
  verify_all c context (signatures ++ [(uploader, signature)]) [].

(** ** Lemmas *)

Lemma key_cmp_eq a b : key_cmp a b = Eq <-> a = b.
Proof. destruct a as [a], b as [b]. cbn. rewrite bytes_cmp_eq. split; congruence. Qed.

(** A signature with its canonical tag is accepted as it is, so that verifying is idempotent. *)
Lemma verify_commitment_canonical key c context s s' : verify_commitment key c context s = Ok s' ->
  key_verify_commitment key c context s' = Ok tt /\ verify_commitment key c context s' = Ok s'.
Proof.
  assert (forall x, key_verify_commitment key c context x = Ok tt -> verify_commitment key c context x = Ok x) as Hok.
  { intros x Ex. unfold verify_commitment. by rewrite Ex. }
  unfold verify_commitment at 1. destruct (key_verify_commitment key c context s) as [[]|e] eqn:Es.
  - intros [= <-]. split; [done|]. by apply Hok.
  - destruct key as [k], s as [s|s]; [|done]. destruct (Ed25519ph_verify_commitment k c context s) as [[]|] eqn:Ep; [|done].
    intros [= <-]. split; [done|]. by apply Hok.
Qed.

(** All signatures of the result are canonical and verified, for the keys that were given. *)
Lemma verify_all_spec c context signatures acc m k : verify_all c context signatures acc = Ok m ->
  match BTreeMap_get key_cmp k m with
  | Some s => k ∈ map fst signatures /\ key_verify_commitment k c context s = Ok tt \/ BTreeMap_get key_cmp k acc = Some s
  | None => BTreeMap_get key_cmp k acc = None /\ k ∉ map fst signatures
  end.
Proof.
  revert acc. induction signatures as [|[k1 s1] rest IH]; intros acc; cbn [verify_all map fst].
  { intros [= <-]. destruct (BTreeMap_get key_cmp k acc); [by right|]. split; [done|]. apply not_elem_of_nil. }
  destruct (verify_commitment k1 c context s1) as [s2|e] eqn:Ev; [|done]. intros Hm. specialize (IH _ Hm). destruct (decide (k = k1)) as [->|Hne].
  - rewrite (map_get_insert key_cmp key_cmp_eq) in IH. destruct (BTreeMap_get key_cmp k1 m) as [s|]; [|by destruct IH]. left. split; [left|].
    destruct IH as [[_ Hs]|[= <-]]; [done|]. by apply verify_commitment_canonical in Ev as [? _].
  - rewrite (map_get_insert_ne key_cmp key_cmp_eq) in IH by done. destruct (BTreeMap_get key_cmp k m) as [s|].
    + destruct IH as [[Hk Hs]|Ha]; [left|by right]. split; [by right|done].
    + destruct IH as [Ha Hk]. split; [done|]. by rewrite not_elem_of_cons.
Qed.

(** [verify_signatures] keeps exactly the keys it was given, with the uploader's own signature for its key. *)
Lemma verify_signatures_spec c context signatures uploader signature m : verify_signatures c context signatures uploader signature = Ok m ->
  (exists s, BTreeMap_get key_cmp uploader m = Some s /\ verify_commitment uploader c context signature = Ok s) /\
  forall k, match BTreeMap_get key_cmp k m with
            | Some s => (k = uploader \/ k ∈ map fst signatures) /\ key_verify_commitment k c context s = Ok tt
            | None => k ≠ uploader /\ k ∉ map fst signatures
            end.
Proof.
  unfold verify_signatures. intros Hm. split.
  - assert (forall l acc, verify_all c context (l ++ [(uploader, signature)]) acc = Ok m ->
      exists s, BTreeMap_get key_cmp uploader m = Some s /\ verify_commitment uploader c context signature = Ok s) as Hl; [|by eapply Hl].
    induction l as [|[k s] l IH]; intros acc; cbn [app verify_all].
    + destruct (verify_commitment uploader c context signature) as [s'|e]; [|done]. cbn. intros [= <-]. exists s'. split; [|done]. apply (map_get_insert key_cmp key_cmp_eq).
    + destruct (verify_commitment k c context s) as [s'|e]; [|done]. apply IH.
  - intros k. pose proof (verify_all_spec c context _ _ _ k Hm) as Hk. rewrite map_app in Hk. cbn [map fst] in Hk.
    destruct (BTreeMap_get key_cmp k m) as [s|].
    + destruct Hk as [[Hin Hs]|[=]]. rewrite elem_of_app, list_elem_of_singleton in Hin. tauto.
    + destruct Hk as [_ Hn]. rewrite elem_of_app, list_elem_of_singleton in Hn. tauto.
Qed.
End verify.
