(* ===== verification/MerkleExpected.v ===== *)
(** * The files expected in a package

    [shared-libs/crates/start-core/src/s9pk/merkle_archive]: [expected.rs], [Expected] and [Filter], and
    [DirectoryContents::with_stem] of [directory_contents.rs]; what they use of [std::path]. *)
From S2P Require Import Prelude RustStr BTree SquashFormat SquashBlocks SquashTree SquashData SquashIo SquashImage MerkleVarint MerkleArchive.

Local Open Scope rust_scope.

(** ** Names of files *)

Definition file_name (path : bytes) : option bytes := match last (components path) with Some (Normal name) => Some name | _ => None end.

(** The parts before and after the last dot. *)
Fixpoint rsplit_dot (name : bytes) : option (bytes * bytes) :=
  match name with
  | [] => None
  | b :: rest =>
      match rsplit_dot rest with
      | Some (before, after) => Some (b :: before, after)
      | None => if bool_decide (b = Byte.x2e) then Some ([], rest) else None
      end
  end.

(** [rsplit_file_at_dot]: a dot in front of the name does not start an extension. *)
Definition rsplit_file_at_dot (name : bytes) : option bytes * option bytes :=
  if bool_decide (name = dotdot) then (Some name, None)
  else match rsplit_dot name with
       | None => (None, Some name)
       | Some ([], _) => (Some name, None)
       | Some (before, after) => (Some before, Some after)
       end.

Definition file_stem (path : bytes) : option bytes :=
  name ← file_name path;
  match rsplit_file_at_dot name with (Some before, _) => Some before | (None, after) => after end.

Definition extension (path : bytes) : option bytes :=
  name ← file_name path;
  match rsplit_file_at_dot name with (Some _, after) => after | (None, _) => None end.

(** ** Entries with a stem *)

Section Expected.
Context {S : Type}.

Fixpoint take_while {A} (f : A -> bool) (l : list A) : list A :=
  match l with
  | [] => []
  | x :: r => if f x then x :: take_while f r else []
  end.

(** [DirectoryContents::with_stem]: the entry with the name itself, then those behind it as long as they have the stem. *)
Definition with_stem (stem : bytes) (d : DirectoryContents S) : list (bytes * Entry S) :=
  match get stem d with Some e => [(stem, e)] | None => [] end ++
  take_while (fun x => bool_decide (file_stem x.1 = Some stem)) (List.filter (fun x => is_lt (bytes_cmp stem x.1)) (d_entries d)).

(** ** Checking *)

Record Expected : Type := mkExpected { keep : DirectoryContents unit; ex_dir : DirectoryContents S }.

Definition Expected_new (d : DirectoryContents S) : Expected := mkExpected DirectoryContents_new d.

Definition Expected_insert (path : bytes) (x : Expected) : Expected * io unit :=
  let '(k, r) := insert_path path (Entry_file tt) (keep x) in (mkExpected k (ex_dir x), r).

Definition check_file (path : bytes) (x : Expected) : Expected * io unit :=
  match get_path path (ex_dir x) ≫= as_file with
  | Some _ => Expected_insert path x
  | None => (x, invalid $"file missing from archive")
  end.

Fixpoint insert_files (paths : list bytes) (x : Expected) : Expected * io unit :=
  match paths with
  | [] => (x, Ok tt)
  | p :: rest =>
      if bool_decide (last p = Some slash) then insert_files rest x
      else match Expected_insert p x with
           | (x', Ok _) => insert_files rest x'
           | (x', Err e) => (x', Err e)
           end
  end.

Definition check_dir (path : bytes) (x : Expected) : Expected * io unit :=
  match get_path path (ex_dir x) ≫= as_directory with
  | Some d => insert_files (file_paths path d) x
  | None => (x, invalid $"directory missing from archive")
  end.

(** The only file with the stem and a valid extension. *)
Fixpoint only_valid (valid_extension : option bytes -> bool) (l : list (bytes * Entry S)) (acc : option bytes) : io bytes :=
  match l with
  | [] => match acc with Some name => Ok name | None => invalid $"file with valid extension missing from archive" end
  | (name, _) :: rest =>
      if valid_extension (extension name) then
        match acc with
        | Some _ => invalid $"more than one file with valid extension in archive"
        | None => only_valid valid_extension rest (Some name)
        end
      else only_valid valid_extension rest acc
  end.

(** A path with the given components. *)
Definition component_text (c : component) : bytes :=
  match c with RootDir => [slash] | CurDir => dot | ParentDir => dotdot | Normal name => name end.

Definition path_of (cs : list component) : bytes := fold_left (fun p c => path_join p (component_text c)) cs [].

(** [Path::with_file_name]. *)
Definition with_file_name (path name : bytes) : bytes :=
  path_join (match file_name path with Some _ => path_of (removelast (components path)) | None => path end) name.

(** The parent of the path is looked up unless it is empty; what is left of the path is the stem, which is taken to be UTF-8. *)
Definition check_stem (path : bytes) (valid_extension : option bytes -> bool) (x : Expected) : Expected * io unit :=
  let parent := removelast (components path) in
  let '(dir, stem) :=
    if bool_decide (parent = []) then (Some (ex_dir x), path)
    else (get_path (path_of parent) (ex_dir x) ≫= as_directory, from_option component_text [] (last (components path))) in
  match dir with
  | None => (x, invalid $"directory missing from archive")
  | Some dir =>
      match only_valid valid_extension (List.filter (fun y => bool_decide (is_Some (as_file y.2))) (with_stem stem dir)) None with
      | Err e => (x, Err e)
      | Ok name => Expected_insert (with_file_name path name) x
      end
  end.

(** [Filter::keep_checked]. *)
Definition keep_checked (kept : DirectoryContents unit) (d : DirectoryContents S) : DirectoryContents S * io unit :=
  DirectoryContents_filter (fun path => bool_decide (is_Some (get_path path kept))) d.
End Expected.
Arguments Expected S : clear implicits.
