(* ===== verification/MerkleTrailer.v ===== *)
(** * Packages and their endorsements

    [shared-libs/crates/start-core/src/s9pk/v2]: [trailer.rs], the endorsements that follow the archive of a package, and [mod.rs],
    a package with its manifest and its trailer, as it is opened from a file.

    The parser of the manifest is a parameter ([ManifestJson]).  The message of a [Diagnostic] is the text for its kind in some
    language and is left out.  [Trailer::append] works on a file and the temporary file beside it ([Disk]); every call to the
    file system may fail. *)
From S2P Require Import Prelude RustStr BTree SquashFormat SquashBlocks SquashTree SquashData SquashIo SquashImage MerkleVarint MerkleArchive MerkleSign MerkleExpected.

Local Open Scope rust_scope.
Local Open Scope poll_scope.

(** [u16::to_be_bytes] and [from_be_bytes]. *)
Definition u16_to_be_bytes (z : Z) : bytes := rev (to_le_bytes u16 z).
Definition u16_from_be_bytes (bs : bytes) : Z := from_le_bytes u16 (rev bs).

(** ** Trailers *)

Definition MAX_REGION : Z := 1024 * 1024.
Definition TRAILER_MAGIC : bytes := bstr "S9PKEXT1".

Record Diagnostic : Type := mkDiagnostic { dg_kind : bytes; dg_offset : option Z }.

Record Trailer : Type := mkTrailer {
  signatures : SignatureMap;
  diagnostics : list Diagnostic;
  start : option Z;
  raw : bytes;
  editable : bool;
  present : bool;
}.

Definition Trailer_default : Trailer := mkTrailer [] [] None [] false false.

Definition diagnose (kind : bytes) (offset : option Z) (t : Trailer) : Trailer :=
  mkTrailer (signatures t) (diagnostics t ++ [mkDiagnostic kind offset]) (start t) (raw t) (editable t) (present t).

Definition set_editable (b : bool) (t : Trailer) : Trailer :=
  mkTrailer (signatures t) (diagnostics t) (start t) (raw t) b (present t).

Definition set_present (t : Trailer) : Trailer :=
  mkTrailer (signatures t) (diagnostics t) (start t) (raw t) (editable t) true.

(** [self.signatures.entry(key).or_insert(signature)]. *)
Definition or_insert (key : AnyVerifyingKey) (signature : AnySignature) (m : SignatureMap) : SignatureMap :=
  match BTreeMap_get key_cmp key m with
  | Some _ => m
  | None => BTreeMap_insert key_cmp key signature m
  end.

Definition endorse (key : AnyVerifyingKey) (signature : AnySignature) (t : Trailer) : Trailer :=
  mkTrailer (or_insert key signature (signatures t)) (diagnostics t) (start t) (raw t) (editable t) (present t).

(** A slice of a vector, from [a] to [b]. *)
Definition between (a b : nat) (bs : bytes) : bytes := take (b - a) (drop a bs).

(** The records of a region: kind, start and end of each; the position of the first that does not fit. *)
Fixpoint records_loop (fuel : nat) (bs : bytes) (pos : nat) (records : list (Z * nat * nat)) : outcome (result (list (Z * nat * nat)) nat) :=
  match fuel with
  | 0 => Panic
  | S k =>
      if pos <? length bs then
        if length bs - pos <? 10 then Done (Err pos)
        else
          let kind := u16_from_be_bytes (between pos (pos + 2) bs) in
          let len := from_be_bytes (between (pos + 2) (pos + 10) bs) in
          if (Z.of_nat (length bs - pos - 10) <? len)%Z then Done (Err pos)
          else
            let stop := pos + 10 + Z.to_nat len in
            records_loop k bs stop (records ++ [(kind, pos, stop)])
      else Done (Ok records)
  end.

Section Trailer.
Context `{V : VarInt} `{H : Hashing} `{E : Ed25519} `{P : PureEd25519} `{D : Der}.

(** [decode_endorsement]: the length of the key, the key and the signature. *)
Definition decode_endorsement (value : bytes) : option (AnyVerifyingKey * AnySignature) :=
  if length value <? 8 then None
  else
    let len := from_be_bytes (take 8 value) in
    let stop := (8 + len)%Z in
    if (2 ^ 64 <=? stop)%Z then None
    else if (len =? 0)%Z || (Z.of_nat (length value) <=? stop)%Z then None
    else
      match key_from_der (between 8 (Z.to_nat stop) value), signature_from_der (drop (Z.to_nat stop) value) with
      | Ok key, Ok signature => Some (key, signature)
      | _, _ => None
      end.

Definition encode_endorsement (key : AnyVerifyingKey) (signature : AnySignature) : io bytes :=
  let? key := key_to_der key in
  let? signature := signature_to_der signature in
  Ok (to_be_bytes (Z.of_nat (length key)) ++ key ++ signature).

(** One record of [discover]. *)
Definition read_record (c : MerkleArchiveCommitment) (at_ : Z) (bs : bytes) (t : Trailer) (record : Z * nat * nat) : Trailer :=
  let '(kind, pos, stop) := record in
  if negb (kind =? 1)%Z then t
  else
    match decode_endorsement (between (pos + 10) stop bs) with
    | None => diagnose (bstr "invalid-record") (Some (at_ + Z.of_nat pos)%Z) (set_editable false t)
    | Some (key, signature) =>
        match verify_commitment key c SIG_CONTEXT signature with
        | Ok signature => endorse key signature t
        | Err _ => diagnose (bstr "invalid-signature") (Some (at_ + Z.of_nat pos)%Z) t
        end
    end.

Definition discover (c : MerkleArchiveCommitment) (archive_end : Z) : M Archived Trailer :=
  let result := set_editable true Trailer_default in
  let> size := get_reported in
  match size with
  | None => m_ret (diagnose (bstr "unknown-size") None (set_editable false result))
  | Some size =>
      if (size <? 16)%Z then m_ret result
      else
        let> source := source_fetch (size - 16) 16 in
        let> (footer, _) := run (await_exact 16) source in
        if negb (bool_decide (between 8 15 footer = take 7 TRAILER_MAGIC)) then m_ret result
        else
          let result := set_editable false (set_present result) in
          if negb (bool_decide (drop 8 footer = TRAILER_MAGIC)) then m_ret (diagnose (bstr "unsupported-version") (Some (size - 8)%Z) result)
          else
            let len := from_be_bytes (take 8 footer) in
            let header_size := (Z.of_nat (length MAGIC_AND_VERSION) + MerkleArchive_header_size)%Z in
            let at_ := (size - 16 - len)%Z in
            if (at_ <? 0)%Z || negb ((len <=? MAX_REGION) && (header_size <=? at_) && (archive_end <=? at_))%Z
            then m_ret (diagnose (bstr "invalid-framing") (Some (size - 16)%Z) result)
            else
              let> source := source_fetch at_ len in
              let> (bs, _) := run (await_exact (Z.to_nat len)) source in
              let> records := lift_outcome (records_loop (1 + length bs) bs 0 []) in
              match records with
              | Err pos => m_ret (diagnose (bstr "invalid-framing") (Some (at_ + Z.of_nat pos)%Z) result)
              | Ok records =>
                  let t := fold_left (read_record c at_ bs) records (set_editable true result) in
                  m_ret (mkTrailer (signatures t) (diagnostics t) (Some at_) bs (editable t) (present t))
              end
  end.

(** [Trailer::read]: a trailer that cannot be read is none. *)
Definition Trailer_read (c : MerkleArchiveCommitment) (archive_end : Z) : M Archived Trailer := fun a =>
  match discover c archive_end a with
  | (a', Fail _) => (a', Ready (diagnose (bstr "read-failed") None Trailer_default))
  | r => r
  end.
End Trailer.

(** ** Packages *)

(** [serde_json] on the [Manifest]. *)
Class ManifestJson : Type := {
  Manifest : Type;
  manifest_from_slice : bytes -> io Manifest;
  manifest_to_vec : Manifest -> io bytes;
}.

(** The order of the files of a package. *)
Definition priority (name : bytes) : option nat :=
  if bool_decide (name = bstr "manifest.json") then Some 0
  else if bool_decide (file_stem name = Some (bstr "icon")) then Some 1
  else if bool_decide (name = bstr "LICENSE.md") then Some 2
  else if bool_decide (name = bstr "instructions.md") then Some 3
  else if bool_decide (name = bstr "README.md") then Some 4
  else if bool_decide (name = bstr "dependencies") then Some 5
  else if bool_decide (name = bstr "javascript.squashfs") then Some 6
  else if bool_decide (name = bstr "assets.squashfs") then Some 7
  else if bool_decide (name = bstr "images") then Some 8
  else None.

Definition by_priority (a b : bytes) : comparison :=
  match priority a, priority b with
  | Some a, Some b => Nat.compare a b
  | Some _, None => Lt
  | None, Some _ => Gt
  | None, None => Eq
  end.

Section Package.
Context `{V : VarInt} `{H : Hashing} `{E : Ed25519} `{P : PureEd25519} `{D : Der} `{MJ : ManifestJson}.

Record S9pk (S : Type) : Type := mkS9pk {
  pk_manifest : Manifest;
  manifest_dirty : bool;
  pk_archive : MerkleArchive S;
  pk_size : option Z;
  pk_trailer : Trailer;
}.
Arguments mkS9pk {S}.
Arguments pk_manifest {S}.
Arguments manifest_dirty {S}.
Arguments pk_archive {S}.
Arguments pk_size {S}.
Arguments pk_trailer {S}.

Definition clear_signatures (t : Trailer) : Trailer := mkTrailer [] (diagnostics t) (start t) (raw t) (editable t) (present t).

(** What is done through [as_manifest_mut] and [as_archive_mut]. *)
Definition as_manifest_mut {S} (f : Manifest -> Manifest) (p : S9pk S) : S9pk S :=
  mkS9pk (f (pk_manifest p)) true (pk_archive p) (pk_size p) (clear_signatures (pk_trailer p)).

Definition as_archive_mut {S} (f : MerkleArchive S -> MerkleArchive S) (p : S9pk S) : S9pk S :=
  mkS9pk (pk_manifest p) (manifest_dirty p) (f (pk_archive p)) (pk_size p) (clear_signatures (pk_trailer p)).

Definition S9pk_new_with_manifest {S} (a : MerkleArchive S) (size : option Z) (m : Manifest) : S9pk S := mkS9pk m true a size Trailer_default.

Section Source.
Context {S : Type} `{SizedSource S} `{ReadSource S}.

(** [S9pk::signatures]: the embedded signature wins over the endorsements. *)
Definition S9pk_signatures (p : S9pk S) : io SignatureMap :=
  let? s := signature (pk_archive p) in
  Ok (fold_left (fun m x => or_insert x.1 x.2 m) (signatures (pk_trailer p)) [(Ed25519Key (MerkleArchive_signer (pk_archive p)), Ed25519ph s)]).

Definition needs_endorsement (signer : AnyVerifyingKey) (p : S9pk S) : io bool :=
  if negb (editable (pk_trailer p)) then invalid $"edit refused"
  else
    let? m := S9pk_signatures p in
    Ok (negb (bool_decide (is_Some (BTreeMap_get key_cmp signer m)))).

(** [S9pk::serialize]: the endorsements are not for what is written, and are dropped however writing ends. *)
Definition S9pk_write (of_bytes : bytes -> S) (verify : bool) (p : S9pk S) : S9pk S * M Sink unit :=
  let p :=
    if present (pk_trailer p) then mkS9pk (pk_manifest p) (manifest_dirty p) (pk_archive p) (pk_size p) (diagnose (bstr "discarded") None Trailer_default)
    else p in
  let manifest := if manifest_dirty p then Some (let? bs := manifest_to_vec (pk_manifest p) in Ok (of_bytes bs)) else None in
  (p, S9pk_serialize verify manifest (pk_archive p)).
End Source.

(** How the sections of an archive are read again, for the hashes that are not stored. *)
Context `{RS : ReadSource Section_}.

Definition extract_manifest (a : MerkleArchive Section_) : M Archived Manifest :=
  match get_path (bstr "manifest.json") (ma_contents a) with
  | None => fail $"manifest.json"
  | Some e => let> bs := read_file_to_vec e in lift_io (manifest_from_slice bs)
  end.

Definition S9pk_new (a : MerkleArchive Section_) (size : option Z) : M Archived (S9pk Section_) :=
  let> m := extract_manifest a in
  m_ret (mkS9pk m false a size Trailer_default).

Definition S9pk_deserialize (depth : nat) (expected : option MerkleArchiveCommitment) : M Archived (S9pk Section_) :=
  let> a := S9pk_archive depth expected in
  let a := mkArchive (ma_signer a) (DirectoryContents_sort_by by_priority (ma_contents a)) in
  let> size := get_reported in
  S9pk_new a size.

(** A package with its endorsements. *)
Definition deserialize_local (depth : nat) (expected : option MerkleArchiveCommitment) : M Archived (S9pk Section_) :=
  let> p := S9pk_deserialize depth expected in
  let> c := lift_io (commitment (pk_archive p)) in
  let> t := Trailer_read c (source_end (ma_contents (pk_archive p))) in
  m_ret (mkS9pk (pk_manifest p) (manifest_dirty p) (pk_archive p) (pk_size p) t).

(** ** Appending an endorsement *)

(** The file of a package, the temporary file beside it, and the answers to come: of opened files, of writes and of other calls. *)
Record Files : Type := mkFiles {
  fl_path : bytes;
  fl_tmp : option bytes;
  fl_served : list served;
  fl_writes : list response;
  fl_calls : list (option io_error);
}.

Definition call : M Files unit := fun f =>
  match fl_calls f with
  | [] => (f, Ready tt)
  | o :: rest =>
      (mkFiles (fl_path f) (fl_tmp f) (fl_served f) (fl_writes f) rest, match o with Some e => Fail e | None => Ready tt end)
  end.

(** A computation on the file as an archive, whose size is known unless the call for it fails; the calls for it have the same answer. *)
Definition on_path {A} (m : M Archived A) : M Files A := fun f =>
  let '(f, known) := match call f with (f, Ready _) => (f, true) | (f, _) => (f, false) end in
  let '(a, r) := m (mkArchived (fl_path f) (fl_served f) (if known then Some (Z.of_nat (length (fl_path f))) else None)) in
  (mkFiles (fl_path f) (fl_tmp f) (servings a) (fl_writes f) (fl_calls f), r).

(** [open_file] and [take]. *)
Definition open_prefix (n : Z) : M Files Source := fun f =>
  let '(a, r) := source_fetch 0 n (mkArchived (fl_path f) (fl_served f) None) in
  (mkFiles (fl_path f) (fl_tmp f) (servings a) (fl_writes f) (fl_calls f), r).

Definition set_tmp (o : option bytes) : M Files unit := fun f =>
  (mkFiles (fl_path f) o (fl_served f) (fl_writes f) (fl_calls f), Ready tt).

(** A computation that writes to the temporary file. *)
Definition on_tmp {A} (m : M Sink A) : M Files A := fun f =>
  let '(s, r) := m (mkSink (default [] (fl_tmp f)) (fl_writes f)) in
  (mkFiles (fl_path f) (Some (sunk s)) (fl_served f) (wscript s) (fl_calls f), r).

(** [AtomicFile::new]: the path is made canonical, the file is created. *)
Definition AtomicFile_new : M Files unit := call ;> call ;> set_tmp (Some []).

Definition AtomicFile_rollback : M Files unit := call ;> set_tmp None.

(** [Drop for AtomicFile]: whether the file is removed is only logged. *)
Definition AtomicFile_drop : M Files unit := fun f => let '(f, _) := AtomicFile_rollback f in (f, Ready tt).

(** [m], and [cleanup] when it fails, whose failure is reported instead. *)
Definition or_else {A} (m : M Files A) (cleanup : M Files unit) : M Files A := fun f =>
  match m f with
  | (f', Fail e) => (cleanup ;> m_fail e) f'
  | r => r
  end.

Definition rename : M Files unit := call ;> fun f =>
  (mkFiles (default (fl_path f) (fl_tmp f)) None (fl_served f) (fl_writes f) (fl_calls f), Ready tt).

(** [AtomicFile::save]: flush, shut down and sync. *)
Definition AtomicFile_save : M Files unit := or_else (call ;> call ;> call) AtomicFile_drop ;> rename.

(** The file up to [base_len], and the region behind it. *)
Definition write_region (base_len : Z) (source : Source) (region : bytes) : M Sink unit :=
  let> (copied, _) := copy_loop (2 + length (data source) + length (rscript source)) None [] source in
  if negb (Z.of_nat (length copied) =? base_len)%Z then fail $"edit refused"
  else w_write region.

Definition region_with (old record : bytes) : bytes :=
  old ++ u16_to_be_bytes 1 ++ to_be_bytes (Z.of_nat (length record)) ++ record.

Definition append (depth : nat) (signer : AnyVerifyingKey) (signature : AnySignature) : M Files unit :=
  call ;>
  let> p := on_path (deserialize_local depth None) in
  let> needed := lift_io (needs_endorsement signer p) in
  let> c := lift_io (commitment (pk_archive p)) in
  let> _ := lift_io (verify_commitment signer c SIG_CONTEXT signature) in
  if negb needed then m_ret tt
  else
    let> record := lift_io (encode_endorsement signer signature) in
    let len := (Z.of_nat (length (raw (pk_trailer p))) + 10 + Z.of_nat (length record))%Z in
    if (MAX_REGION <? len)%Z then fail $"too large"
    else
      let region := region_with (raw (pk_trailer p)) record ++ to_be_bytes len ++ TRAILER_MAGIC in
      let> base_len := lift_io (match start (pk_trailer p), pk_size p with
                                | Some n, _ => Ok n
                                | None, Some n => Ok n
                                | None, None => invalid $"unknown size"
                                end) in
      let> source := open_prefix base_len in
      AtomicFile_new ;>
      or_else (on_tmp (write_region base_len source region)) AtomicFile_rollback ;>
      AtomicFile_save.
End Package.
Arguments mkS9pk {_ _ _}.
Arguments pk_manifest {_ _ _}.
Arguments manifest_dirty {_ _ _}.
Arguments pk_archive {_ _ _}.
Arguments pk_size {_ _ _}.
Arguments pk_trailer {_ _ _}.
