(* ===== verification/MerklePackage.v ===== *)
(** * Packages written

    [S9pk::serialize] of a whole package, whether or not its manifest was changed since it was put into the archive, and
    [S9pk::archive] of what was written. *)
From S2P Require Import Prelude RustStr BTree SquashFormat SquashBlocks SquashTree SquashData SquashIo SquashImage SquashFiles SquashLoad MerkleVarint MerkleBytes MerkleArchive MerkleHash MerkleCopy MerkleVerify MerkleWrite MerkleRead MerkleRoundtrip MerkleTree MerkleSign MerkleExpected MerkleTrailer.

Local Open Scope rust_scope.
Local Open Scope poll_scope.

Section package.
Context `{V : VarInt} `{!VarIntOk V} `{H : Hashing} `{!HashingOk H} `{E : Ed25519} `{!Ed25519Ok E} `{MJ : ManifestJson}.
Context {S : Type} `{HZ : SizedSource S} `{HS : ReadSource S} `{!ReadSourceOk S}.
Variable of_bytes : bytes -> S.

Definition manifest_name : bytes := bstr "manifest.json".

(** The tree with [f] as its manifest. *)
Definition with_manifest (f : S) (d : DirectoryContents S) : DirectoryContents S :=
  mkDirectory (BTreeMap_insert bytes_cmp manifest_name (Entry_file f) (d_entries d)) (source_end d) (d_order d).

(** The archive that is written for a package: a manifest that was changed is in it in place of the file that was there. *)
Definition to_write (p : S9pk S) : io (MerkleArchive S) :=
  if manifest_dirty p then
    let? bs := manifest_to_vec (pk_manifest p) in
    Ok (mkArchive (ma_signer (pk_archive p)) (with_manifest (of_bytes bs) (ma_contents (pk_archive p))))
  else Ok (pk_archive p).

Lemma insert_manifest f d : insert_path manifest_name (Entry_file f) d = (with_manifest f d, Ok tt).
Proof. reflexivity. Qed.

Lemma elem_with_manifest f d name e : BTreeMap_wf bytes_cmp (d_entries d) -> (name, e) ∈ d_entries (with_manifest f d) ->
  name = manifest_name /\ e = Entry_file f \/ (name, e) ∈ d_entries d.
Proof.
  intros Hw Hin. apply (map_insert_elem bytes_cmp bytes_cmp_eq) in Hin; [|done]. destruct Hin as [?|[_ ?]]; [by left|by right].
Qed.

Lemma with_manifest_typed f d : typed d -> in_range u64 (Z.of_nat (1 + length (d_entries d))) = true -> typed (with_manifest f d).
Proof.
  intros Ht Hn. pose proof (typed_entries d Ht) as HF. pose proof (fun x s => typed_sub d x s Ht) as Hsub.
  assert (BTreeMap_wf bytes_cmp (d_entries d)) as Hw by (by destruct Ht). unfold with_manifest. constructor.
  - by apply (map_insert_wf bytes_cmp bytes_cmp_eq).
  - pose proof (map_insert_length bytes_cmp manifest_name (Entry_file f) (d_entries d)) as Hl.
    apply in_range_u64 in Hn. apply in_range_u64. lia.
  - rewrite Forall_forall in HF |- *. intros [n e] Hin. destruct (elem_with_manifest f d n e Hw Hin) as [[-> ->]|Hd]; [|by apply HF].
    split; [by vm_compute|]. split; [by vm_compute|]. by intros h size [=].
  - intros n h sub Hin. destruct (elem_with_manifest f d n _ Hw Hin) as [[_ [=]]|Hd]. by apply (Hsub _ _ Hd).
Qed.

Lemma with_manifest_sound f d : typed d -> sound d -> sound (with_manifest f d).
Proof.
  intros Ht Hs. assert (BTreeMap_wf bytes_cmp (d_entries d)) as Hw by (by destruct Ht). pose proof (elem_with_manifest f d) as He.
  destruct Hs as [es stop order HF Hfile Hdir Hsub]. unfold with_manifest in *. cbn [d_entries] in *. constructor.
  - rewrite Forall_forall in HF |- *. intros [n e] Hin. destruct (He n e Hw Hin) as [[-> ->]|Hd]; [by vm_compute|by apply (HF (n, e))].
  - intros n h size g r Hin. destruct (He n _ Hw Hin) as [[_ [=]]|Hd]. by eapply Hfile.
  - intros n h size sub Hin. destruct (He n _ Hw Hin) as [[_ [=]]|Hd]. by eapply Hdir.
  - intros n h sub Hin. destruct (He n _ Hw Hin) as [[_ [=]]|Hd]. by eapply Hsub.
Qed.

Lemma with_manifest_height f d : typed d -> height (Directory (with_manifest f d)) <= height (Directory d).
Proof.
  intros Ht. assert (BTreeMap_wf bytes_cmp (d_entries d)) as Hw by (by destruct Ht). pose proof (elem_with_manifest f d) as He.
  destruct d as [es stop order]. unfold with_manifest in *. cbn [height d_entries] in *. apply le_n_S, max_list_le.
  intros k Hk. apply list_elem_of_fmap in Hk as ([n [h c]] & -> & Hin). cbn. destruct (He n _ Hw Hin) as [[_ [= _ ->]]|Hd]; [cbn; lia|].
  apply max_list_elem, list_elem_of_fmap. by exists (n, mkEntry h c).
Qed.

Hypothesis of_bytes_read : forall bs, rs_reader (of_bytes bs) = Ok (mkSource bs []) /\ rs_size (of_bytes bs) = Ok (Z.of_nat (length bs)).

Lemma with_manifest_servable bs d h : servable (mkEntry h (Directory d)) -> typed d -> servable (mkEntry h (Directory (with_manifest (of_bytes bs) d))).
Proof.
  intros Hs Ht. assert (BTreeMap_wf bytes_cmp (d_entries d)) as Hw by (by destruct Ht). constructor. intros n e Hin.
  destruct (elem_with_manifest (of_bytes bs) d n e Hw Hin) as [[_ ->]|Hd].
  - destruct (of_bytes_read bs) as [Hr Hz]. eapply servable_file; [exact Hr|exact Hz|by intros ? ?%elem_of_nil|by left].
  - inversion Hs as [| |? es stop order Hes]; subst. by eapply Hes.
Qed.

(** What holds of the archive of a package holds of the archive that is written for it. *)
Lemma to_write_ok p a : to_write p = Ok a -> typed (ma_contents (pk_archive p)) -> sound (ma_contents (pk_archive p)) ->
  in_range u64 (Z.of_nat (1 + length (d_entries (ma_contents (pk_archive p))))) = true ->
  typed (ma_contents a) /\ sound (ma_contents a) /\ height (Directory (ma_contents a)) <= height (Directory (ma_contents (pk_archive p))) /\ ma_signer a = ma_signer (pk_archive p) /\
  (servable (mkEntry None (Directory (ma_contents (pk_archive p)))) -> servable (mkEntry None (Directory (ma_contents a)))).
Proof.
  unfold to_write. intros Ew Ht Hs Hn. destruct (manifest_dirty p); [|by injection Ew as <-].
  destruct (manifest_to_vec (pk_manifest p)) as [bs|]; [|done]. injection Ew as <-. cbn [ma_contents ma_signer].
  split; [by apply with_manifest_typed|]. split; [by apply with_manifest_sound|]. split; [by apply with_manifest_height|]. split; [done|].
  intros Hv. by apply with_manifest_servable.
Qed.

(** [S9pk::serialize] writes that archive, or fails because there is none. *)
Lemma S9pk_write_archive verify p a : to_write p = Ok a -> forall w, (S9pk_write of_bytes verify p).2 w = S9pk_serialize verify None a w.
Proof.
  unfold to_write, S9pk_write. intros Ew w. destruct (present (pk_trailer p)); cbn [snd manifest_dirty pk_manifest pk_archive];
    (destruct (manifest_dirty p); [|by injection Ew as <-]); (destruct (manifest_to_vec (pk_manifest p)) as [bs|]; [|done]); injection Ew as <-;
    unfold S9pk_serialize; cbn [result_bind]; unfold m_bind; (destruct (w_write MAGIC_AND_VERSION w) as [w' [[]|e| |]]; [|done..]); cbn;
    change (bstr "manifest.json") with manifest_name; by rewrite insert_manifest.
Qed.

Lemma S9pk_write_refuses verify p e : to_write p = Err e -> forall script,
  match (S9pk_write of_bytes verify p).2 (mkSink [] script) with (_, Fail _) => True | _ => False end.
Proof.
  unfold to_write, S9pk_write. intros Ew script.
  assert (forall m, manifest_to_vec m = Err e -> match S9pk_serialize verify (Some (let? bs := manifest_to_vec m in Ok (of_bytes bs))) (pk_archive p) (mkSink [] script) with (_, Fail _) => True | _ => False end) as Hf.
  { intros m ->. cbn [result_bind]. unfold S9pk_serialize, m_bind. pose proof (puts_write (fun _ => False) MAGIC_AND_VERSION (mkSink [] script)) as Hw. unfold puts_from, post in Hw.
    destruct (w_write MAGIC_AND_VERSION (mkSink [] script)) as [w' [[]|e'| |]]; cbn in Hw |- *; [done|done|by destruct Hw..]. }
  destruct (present (pk_trailer p)); cbn [snd manifest_dirty pk_manifest pk_archive]; (destruct (manifest_dirty p); [|done]); apply Hf; by destruct (manifest_to_vec (pk_manifest p)); [|injection Ew as ->].
Qed.

Lemma to_write_manifest p a : to_write p = Ok a -> manifest_dirty p = true ->
  exists bs, manifest_to_vec (pk_manifest p) = Ok bs /\ get_path manifest_name (ma_contents a) = Some (Entry_file (of_bytes bs)).
Proof.
  unfold to_write. intros Ew Hd. rewrite Hd in Ew. destruct (manifest_to_vec (pk_manifest p)) as [bs|]; [|done]. injection Ew as <-. exists bs. split; [done|].
  change (BTreeMap_get bytes_cmp manifest_name (d_entries (with_manifest (of_bytes bs) (ma_contents (pk_archive p)))) = Some (Entry_file (of_bytes bs))).
  apply (map_get_insert bytes_cmp bytes_cmp_eq).
Qed.
End package.

(** C3: a package that was written is opened as the same package.  [S9pk::serialize] of a package drops its trailer and writes [to_write]: the archive of the package, and
    when the manifest was changed this manifest in place of [manifest.json].  The stored hashes of the archive are right, nothing is nested deeper than [depth], and
    a signature that the archive was read with fits what is written (so that a package whose manifest was changed has a key to sign with).

    Writing ends without a panic whatever the output answers, and fails only because the output does when the manifest can be encoded, all files can be read and
    the key signs.  When it succeeds, then from every source that begins with the bytes it has written, whatever follows them and however the source answers,
    [S9pk::archive], asked for no commitment when the table of the root is at most 1 MiB and else for one that allows its size, does not panic, fails only because an answer of
    the source refuses or fails, and otherwise gives an archive signed by the same key, whose [source_end] is where the written bytes end (and a trailer starts); at every path
    there is an entry if and only if there was one, of the same type and with the hash of the contents, and a file below [2^63] bytes reads back, verified, as the bytes its source gave;
    a changed manifest reads back as its encoding. *)
Theorem package_roundtrip `{V : VarInt} `{!VarIntOk V} `{H : Hashing} `{!HashingOk H} `{E : Ed25519} `{!Ed25519Ok E} `{MJ : ManifestJson}
    {S : Type} `{HZ : SizedSource S} `{HS : ReadSource S} `{!ReadSourceOk S} (of_bytes : bytes -> S) (p : S9pk S) (verify : bool) (depth : nat) (script : list response) :
  (forall bs, rs_reader (of_bytes bs) = Ok (mkSource bs []) /\ rs_size (of_bytes bs) = Ok (Z.of_nat (length bs))) ->
  typed (ma_contents (pk_archive p)) -> sound (ma_contents (pk_archive p)) -> height (Directory (ma_contents (pk_archive p))) <= depth ->
  in_range u64 (Z.of_nat (1 + length (d_entries (ma_contents (pk_archive p))))) = true ->
  (forall a, to_write of_bytes p = Ok a -> signer_fits SIG_CONTEXT a) ->
  present (pk_trailer (S9pk_write of_bytes verify p).1) = false /\
  match (S9pk_write of_bytes verify p).2 (mkSink [] script) with
  | (out, Ready _) => exists a, to_write of_bytes p = Ok a /\
      forall expected ar extra, archive ar = sunk out ++ extra -> (Z.of_nat (length (archive ar)) < 2 ^ 64)%Z ->
      (forall n, reported ar = Some n -> (Z.of_nat (length (archive ar)) <= n)%Z) ->
      (forall c, commitment a = Ok c -> expectation expected (root_sighash c) (root_maxsize c)) ->
      opens ar (S9pk_archive depth expected) (fun ar' a' =>
        MerkleArchive_signer a' = MerkleArchive_signer (pk_archive p) /\ source_end (ma_contents a') = Z.of_nat (length (sunk out)) /\
        (forall path,
          match get_path path (ma_contents a), get_path path (ma_contents a') with
          | Some e, Some e' => e_hash e' = Some (hash_of contents_hash e) /\ type_id (e_contents e') = type_id (e_contents e) /\
              forall f r, e_contents e = File f -> rs_reader f = Ok r -> (Z.of_nat (length (data r)) < 2 ^ 63)%Z ->
                opens ar' (read_file_to_vec e') (fun _ c => c = data r)
          | None, None => True
          | _, _ => False
          end) /\
        (manifest_dirty p = true -> exists bs e', manifest_to_vec (pk_manifest p) = Ok bs /\ get_path manifest_name (ma_contents a') = Some e' /\
           ((Z.of_nat (length bs) < 2 ^ 63)%Z -> opens ar' (read_file_to_vec e') (fun _ c => c = bs))))
  | (_, Fail e) => (exists a, to_write of_bytes p = Ok a) /\ servable (mkEntry None (Directory (ma_contents (pk_archive p)))) /\ signs (pk_archive p) -> sink_cause script e
  | _ => False
  end.
Proof.
  intros Hof Ht Hs Hh Hn Hfit. split; [unfold S9pk_write; cbn [fst]; by destruct (present (pk_trailer p)) eqn:Ep|].
  destruct (to_write of_bytes p) as [a|e0] eqn:Ew.
  2: { pose proof (S9pk_write_refuses of_bytes verify p e0 Ew script) as Hr. destruct ((S9pk_write of_bytes verify p).2 _) as [out [[]|e| |]]; [done| |done..]. by intros [[? [=]] _]. }
  rewrite (S9pk_write_archive of_bytes verify p a Ew). destruct (to_write_ok of_bytes Hof p a Ew Ht Hs Hn) as (Hat & Has & Hah & Hsig & Hserve).
  pose proof (archive_roundtrip a verify depth script Hat Has (Hfit a eq_refl) ltac:(lia)) as Hr.
  destruct (S9pk_serialize verify None a (mkSink [] script)) as [out [[]|e| |]]; [|intros (_ & Hv & Hk)|done..].
  - exists a. split; [done|]. intros expected ar extra Ear H64 Hrep Hexp. specialize (Hr expected ar extra Ear H64 Hrep Hexp). unfold opens in Hr |- *. eapply post_mono; [exact Hr|].
    intros ar' [a'|e| |] Hx; [|exact Hx..]. destruct Hx as (Hk & He & Hp). split; [rewrite Hk; unfold MerkleArchive_signer; by rewrite Hsig|]. split; [done|]. split; [done|].
    intros Hd. destruct (to_write_manifest of_bytes p a Ew Hd) as (bs & Eb & Eg). specialize (Hp manifest_name). rewrite Eg in Hp.
    destruct (get_path manifest_name (ma_contents a')) as [e'|]; [|done]. exists bs, e'. split; [done|]. split; [done|]. intros Hl.
    destruct Hp as (_ & _ & Hp). by apply (Hp (of_bytes bs) (mkSource bs []) eq_refl (proj1 (Hof bs))).
  - apply Hr. split; [by apply Hserve|]. unfold signs in Hk |- *. by rewrite Hsig.
Qed.
