(* ===== verification/MerkleLocal.v ===== *)
(** * The bytes that a package depends on

    An archive is read from its header, its tables of contents and nothing else, all of which end at [source_end].  So the same bytes up
    to there give the same archive, from whatever source, however it answers, and whatever follows them ([archive_local]).  This is what
    allows endorsements to follow a package. *)
From S2P Require Import Prelude RustStr BTree SquashFormat SquashBlocks SquashTree SquashData SquashFiles SquashIo SquashImage SquashLoad MerkleVarint MerkleBytes MerkleArchive MerkleHash MerkleCopy MerkleVerify.

Local Open Scope rust_scope.
Local Open Scope poll_scope.

(** ** Readers with the same bytes *)

Section readers.
Context `{V : VarInt} (bad : Prop).

(** What [m] has read from one reader it reads from any other that holds the same bytes, unless that one fails. *)
Definition repeats {A} (m : M Source A) : Prop := forall r1 r1' x, m r1 = (r1', Ready x) -> forall r2, reader_of bad r2 (data r1) ->
  post m r2 (fun r2' y => match y with Ready v => v = x /\ reader_of bad r2' (data r1') | Fail _ => bad | _ => False end).

Lemma repeats_bind {A B} (m : M Source A) (f : A -> M Source B) : repeats m -> (forall x, repeats (f x)) -> repeats (m_bind m f).
Proof.
  intros Hm Hf r1 r1' y Ex r2 Hr. unfold m_bind in Ex. destruct (m r1) as [r3 [x|e| |]] eqn:E; try done. apply post_bind. eapply post_mono; [by eapply Hm|].
  intros r2' [v|e| |] Hv; try done. destruct Hv as [-> Hv]. by eapply Hf.
Qed.

Lemma repeats_ret {A} (x : A) : repeats (m_ret x).
Proof. intros r1 r1' y [= <- <-] r2 Hr. by apply post_ret. Qed.

Lemma repeats_fail {A} message : repeats (A := A) (fail message).
Proof. intros r1 r1' y Ex. done. Qed.

Lemma repeats_panic {A} : repeats (A := A) m_panic.
Proof. intros r1 r1' y Ex. done. Qed.

Lemma repeats_lift {A} (r : io A) : repeats (lift_io r).
Proof. intros r1 r1' y Ex r2 Hr. destruct r as [x|e]; [|done]. by injection Ex as <- <-. Qed.

Lemma repeats_exact n : repeats (await_exact n).
Proof.
  intros r1 r1' x Ex r2 [Hd Hb]. pose proof (await_exact_spec n r1 (data r1) eq_refl) as H1. unfold post in H1. rewrite Ex in H1.
  destruct H1 as (Hl & _ & c & Ec & Hc). eapply post_mono; [by apply (await_exact_spec n r2 (data r1))|].
  intros r2' [v|e| |]; try done; cbn.
  - intros (Hl' & Ha & c' & Ec' & Hc'). rewrite Ec in Ec'. apply app_inj_1 in Ec' as [-> ->]; [|by rewrite Hl]. cbn in Hc, Hc'. split; [done|].
    split; [by rewrite Hc|]. intros. apply Hb. cbn in *. lia.
  - intros [[_ Hlt]|Hlt]; [rewrite Ec, length_app in Hlt; lia|by apply Hb].
Qed.

Lemma repeats_varint : repeats deserialize_varint.
Proof.
  apply repeats_bind; [|intros; apply repeats_lift]. generalize (@nil byte). induction (2 + MAX_SIZE) as [|k IH]; intros buf; [apply repeats_panic|].
  cbn [varint_loop]. destruct (VarIntProcessor_finished buf); [apply repeats_ret|].
  apply repeats_bind; [apply repeats_exact|]. intros bs. apply repeats_bind; [apply repeats_lift|]. intros buf'. apply IH.
Qed.

(** [read_to_end] gives all there is. *)
Lemma read_to_end_all fuel n got (r : Source) : n + awaits r + 1 < fuel ->
  post (read_to_end_loop fuel n got) r (fun r' x =>
    match x with
    | Ready v => v = got ++ take n (data r) /\ data r' = drop n (data r) /\ errors r' <= errors r
    | Fail _ => 0 < errors r
    | _ => False
    end).
Proof.
  revert n got r. induction fuel as [|k IH]; intros n got r Hf; [lia|]. unfold post. cbn [read_to_end_loop].
  destruct (Nat.eqb_spec n 0) as [->|Hn]; [cbn; rewrite app_nil_r; by rewrite drop_0|].
  pose proof (poll_spec n r (data r) eq_refl ltac:(lia)) as Hp. unfold post in Hp.
  destruct (poll n r) as [r1 [out|e| |]]; cbn [fst snd] in Hp |- *; [| |destruct Hp as [Ha Hc]|done].
  - destruct Hp as (Ha & Hl & He & c' & Ec & Hc'). cbn [holds Source_ok] in Hc'. destruct out as [|x out].
    { cbn [fst snd]. rewrite (He eq_refl), take_nil, drop_nil, app_nil_r. rewrite Hc'. rewrite (He eq_refl) in Ec. cbn in Ec. subst c'. split; [done|]. split; [done|lia]. }
    assert (0 < length (x :: out)) as Hpos by (cbn; lia).
    specialize (IH (n - length (x :: out)) (got ++ x :: out) r1 ltac:(lia)). unfold post in IH.
    destruct (read_to_end_loop k _ _ r1) as [r2 [o2|e| |]]; cbn [fst snd] in IH |- *; [| lia|done|done].
    destruct IH as (-> & -> & Ha'). rewrite Hc', Ec, take_app_ge, drop_app_ge by done. split; [by rewrite <- app_assoc|]. split; [done|lia].
  - lia.
  - specialize (IH n got r1 ltac:(lia)). unfold post in IH. cbn [holds Source_ok] in Hc.
    destruct (read_to_end_loop k _ _ r1) as [r2 [o2|e| |]]; cbn [fst snd] in IH |- *; [|lia|done|done].
    destruct IH as (-> & -> & Ha'). rewrite Hc. split; [done|]. split; [done|lia].
Qed.

Lemma repeats_to_string n : repeats (read_to_string n).
Proof.
  intros r1 r1' x Ex r2 [Hd Hb]. unfold read_to_string, m_bind in Ex.
  pose proof (read_to_end_all (2 + n + awaits r1) n [] r1 ltac:(lia)) as H1. unfold post in H1.
  destruct (read_to_end_loop _ n [] r1) as [r3 [v|e| |]]; try done. cbn [fst snd app] in H1. destruct H1 as (-> & Hd1 & _).
  destruct (utf8_valid (take n (data r1))) eqn:Hu; [|done]. injection Ex as <- <-.
  unfold read_to_string, post. apply post_bind. eapply post_mono; [apply read_to_end_all; lia|]. cbn [holds Source_ok] in Hd.
  intros r4 [v|e| |]; try done. cbn [and_then app].
  intros (-> & Hd2 & Ha). rewrite Hd in *. rewrite Hu. apply post_ret. split; [done|]. split; [by rewrite Hd1|]. intros. apply Hb. lia.
Qed.

Lemma repeats_varstring : repeats deserialize_varstring.
Proof. apply repeats_bind; [apply repeats_varint|]. intros n. apply repeats_to_string. Qed.
End readers.

(** ** Computations that leave the archive as it is *)

Definition keeps {A} (m : M Archived A) : Prop := forall a, archive (m a).1 = archive a.

Section keeps.
Context `{V : VarInt} `{H : Hashing} `{E : Ed25519}.

Lemma keeps_then {A B} (m : M Archived A) (f : A -> M Archived B) : keeps m -> (forall x, keeps (f x)) -> keeps (m_bind m f).
Proof.
  intros Hm Hf a. unfold m_bind. specialize (Hm a). destruct (m a) as [a' [x|e| |]]; try done. cbn in Hm. rewrite <- Hm. apply Hf.
Qed.

Lemma keeps_ret {A} (x : A) : keeps (m_ret x).
Proof. done. Qed.

Lemma keeps_fail {A} message : keeps (A := A) (fail message).
Proof. done. Qed.

Lemma keeps_panic {A} : keeps (A := A) m_panic.
Proof. done. Qed.

Lemma keeps_lift {A} (r : io A) : keeps (lift_io r).
Proof. done. Qed.

Lemma keeps_outcome {A} (o : outcome A) : keeps (lift_outcome o).
Proof. by destruct o. Qed.

Lemma keeps_run {R A} (m : M R A) r : keeps (run m r).
Proof. intros a. unfold run. by destruct (m r). Qed.

Lemma keeps_fetch p s : keeps (source_fetch p s).
Proof. intros a. unfold source_fetch. by destruct (servings a) as [|[]]. Qed.

Lemma keeps_reported : keeps get_reported.
Proof. done. Qed.

Lemma keeps_if {A} (b : bool) (m m' : M Archived A) : keeps m -> keeps m' -> keeps (if b then m else m').
Proof. by destruct b. Qed.
End keeps.

Create HintDb keeps.
#[export] Hint Resolve keeps_then keeps_ret keeps_fail keeps_panic keeps_lift keeps_outcome keeps_run keeps_fetch keeps_reported keeps_if : keeps.

Ltac keeps_step := match goal with
  | |- keeps (match ?x with _ => _ end) => destruct x
  | |- keeps (let '(_, _) := ?x in _) => destruct x
  | |- keeps (m_bind _ _) => apply keeps_then; [|intros ?]
  | |- keeps _ => solve [auto with keeps]
  end.
Ltac keeps := repeat keeps_step.

Section keeps_archive.
Context `{V : VarInt} `{H : Hashing} `{E : Ed25519}.

Lemma keeps_end p s : keeps (checked_end p s).
Proof. unfold checked_end. keeps. Qed.
#[local] Hint Resolve keeps_end : keeps.

Lemma keeps_entry directory h : (forall a b c, keeps (directory a b c)) -> keeps (Entry_deserialize directory h).
Proof. intros Hd. unfold Entry_deserialize, EntryContents_deserialize, FileContents_deserialize, read_header. keeps; auto. Qed.

Lemma keeps_entries directory : (forall a b c, keeps (directory a b c)) -> forall fuel n toc es stop, keeps (entries_loop directory fuel n toc es stop).
Proof.
  intros Hd fuel. induction fuel as [|k IH]; intros n toc es stop; cbn [entries_loop]; [apply keeps_panic|].
  pose proof (keeps_entry directory) as He. keeps; auto.
Qed.

Lemma keeps_directory depth header h max_size : keeps (DirectoryContents_deserialize depth header h max_size).
Proof.
  revert header h max_size. induction depth as [|k IH]; intros header h max_size; cbn [DirectoryContents_deserialize]; [apply keeps_panic|].
  pose proof (keeps_entries _ IH) as He. unfold read_header. keeps; auto.
Qed.

Lemma keeps_package depth expected : keeps (S9pk_archive depth expected).
Proof. pose proof keeps_directory. unfold S9pk_archive, MerkleArchive_deserialize, read_header. keeps; auto. Qed.
End keeps_archive.

(** ** Archives with the same beginning *)

Section again.
Context `{V : VarInt} `{!VarIntOk V} `{H : Hashing} `{E : Ed25519}.
Variables (img1 img2 : bytes) (rep2 : option Z) (bad : Prop) (base : nat).
Hypothesis same_base : take base img2 = take base img1.
Hypothesis rep2_ok : match rep2 with Some limit => (Z.of_nat base <= limit)%Z | None => True end.

(** When [m1] has given a result with [C] on the first archive, then [m2] gives one in relation [R] on the second. *)
Definition again {A B} (C : A -> Prop) (m1 : M Archived A) (m2 : M Archived B) (R : A -> B -> Prop) : Prop :=
  forall a1 a1' x, archive a1 = img1 -> m1 a1 = (a1', Ready x) -> C x -> obtains img2 rep2 bad m2 (R x).

Lemma again_bind {A A' B B'} C C' (m1 : M Archived A) (m2 : M Archived A') (f1 : A -> M Archived B) (f2 : A' -> M Archived B') R Q :
  keeps m1 -> again C m1 m2 R -> (forall x1 x2, R x1 x2 -> again C' (f1 x1) (f2 x2) Q) ->
  (forall x a a' a'' y, m1 a = (a', Ready x) -> f1 x a' = (a'', Ready y) -> C' y -> C x) -> again C' (m_bind m1 f1) (m_bind m2 f2) Q.
Proof.
  intros Hk Hm Hf HC a1 a1'' y Ha Ey Hy. unfold m_bind in Ey. specialize (Hk a1). destruct (m1 a1) as [a1' [x|e| |]] eqn:Ex; try done.
  eapply obtains_bind; [eapply Hm; [done|done|by eapply HC]|]. intros x2 Hx. cbn in Hk. eapply (Hf x x2 Hx); [|done|done]. congruence.
Qed.

Lemma again_then {A A' B B'} C (m1 : M Archived A) (m2 : M Archived A') (f1 : A -> M Archived B) (f2 : A' -> M Archived B') R Q :
  keeps m1 -> again (fun _ => True) m1 m2 R -> (forall x1 x2, R x1 x2 -> again C (f1 x1) (f2 x2) Q) -> again C (m_bind m1 f1) (m_bind m2 f2) Q.
Proof. intros Hk Hm Hf. by eapply again_bind. Qed.

Lemma again_ret {A B} C (x : A) (y : B) (R : A -> B -> Prop) : R x y -> again C (m_ret x) (m_ret y) R.
Proof. intros Hr a a' z _ [= <- <-] _. by apply obtains_ret. Qed.

Lemma again_fail {A B} C message message' (R : A -> B -> Prop) : again C (fail message) (fail message') R.
Proof. intros a a' z _ Ez. done. Qed.

Lemma again_panic {A B} C (m : M Archived B) (R : A -> B -> Prop) : again C m_panic m R.
Proof. intros a a' z _ Ez. done. Qed.

Lemma again_lift {A} C (r : io A) : again C (lift_io r) (lift_io r) eq.
Proof. intros a a' z _ Ez _. destruct r as [x|e]; [|done]. injection Ez as <- <-. by eapply obtains_lift. Qed.

Lemma again_outcome {A} C (o : outcome A) : again C (lift_outcome o) (lift_outcome o) eq.
Proof. intros a a' z _ Ez _. destruct o as [x|]; [|done]. injection Ez as <- <-. by apply obtains_ret. Qed.

(** The same value, and a reader that is at the same place. *)
Definition same_read {A} (x y : A * Source) : Prop := y.1 = x.1 /\ reader_of bad y.2 (data x.2).

Lemma again_run {A} C (m : M Source A) r1 r2 : repeats bad m -> reader_of bad r2 (data r1) -> again C (run m r1) (run m r2) same_read.
Proof.
  intros Hm Hr a a' [x r1'] _ Ez _. unfold run in Ez. destruct (m r1) as [r3 [v|e| |]] eqn:Em; try done. injection Ez as <- <- <-.
  apply obtains_run. eapply post_mono; [by eapply Hm|]. by intros r2' [w|e| |].
Qed.

Lemma again_header C n r1 r2 : reader_of bad r2 (data r1) -> again C (read_header n r1) (read_header n r2) same_read.
Proof. apply again_run, repeats_exact. Qed.

Lemma again_fetch p s : (0 <= p)%Z -> (0 <= s)%Z ->
  again (fun _ => (p + s <= Z.of_nat base)%Z) (source_fetch p s) (source_fetch p s) (fun r1 r2 => reader_of bad r2 (data r1)).
Proof.
  intros Hp Hs a1 a1' r Ha Er Hb. assert (forall img : bytes, slice_of img p s = drop (Z.to_nat p) (take (Z.to_nat p + Z.to_nat s) (take base img))) as Ht.
  { intros img. unfold slice_of. rewrite take_drop_commute, take_take. do 2 f_equal. lia. }
  assert (data r = slice_of img2 p s) as Ed.
  { rewrite Ht, same_base, <- Ht, <- Ha. unfold source_fetch in Er. destruct (servings a1) as [|[]]; [|done|]; by injection Er as _ <-. }
  by apply obtains_source.
Qed.

Lemma again_end p s : again (fun stop => stop <= Z.of_nat base)%Z (checked_end p s) (checked_end p s) (fun x y => y = x /\ x = p + s)%Z.
Proof.
  intros a1 a1' stop _ Er Hb. unfold checked_end, m_bind, get_reported in *. destruct (Z.leb_spec (2 ^ 64) (p + s)); [done|].
  assert (stop = p + s)%Z as ->. { cbn in Er. destruct (reported a1) as [l|]; [destruct (p + s <=? l)%Z; [|done]|]; by injection Er. }
  intros a2 Ha2. unfold post. cbn. assert (reported a2 = rep2) as Hrep by apply Ha2. rewrite Hrep. destruct rep2 as [limit|]; [|done].
  by destruct (Z.leb_spec (p + s) limit); [|lia].
Qed.

Lemma checked_end_sum p s a a' stop : checked_end p s a = (a', Ready stop) -> stop = (p + s)%Z.
Proof.
  unfold checked_end, m_bind, get_reported. destruct (2 ^ 64 <=? p + s)%Z; [done|]. cbn.
  destruct (reported a) as [l|]; [destruct (p + s <=? l)%Z; [|done]|]; by intros [= _ <-].
Qed.

Lemma again_file r1 r2 s : reader_of bad r2 (data r1) ->
  again (fun x => section_end x.1 <= Z.of_nat base)%Z (FileContents_deserialize r1 s) (FileContents_deserialize r2 s) same_read.
Proof.
  intros Hr. unfold FileContents_deserialize. eapply again_then; [apply keeps_run|by apply again_header|]. intros [bs h1] [bs2 h2] [Eb Hh]. cbn in Eb, Hh. subst bs2.
  eapply again_bind; [apply keeps_end|apply again_end| |].
  - intros x y _. by apply again_ret.
  - intros x a a' a'' [f h] ->%checked_end_sum [= _ <- <-]. done.
Qed.

(** [DirectoryContents::deserialize] reads the same directory again, if the directory ends before [base]. *)
Definition reads_again (directory : Source -> bytes -> Z -> M Archived (DirectoryContents Section_ * Source)) : Prop :=
  forall r1 r2 h size, reader_of bad r2 (data r1) -> again (fun x => source_end x.1 <= Z.of_nat base)%Z (directory r1 h size) (directory r2 h size) same_read.

Section below.
Variable directory : Source -> bytes -> Z -> M Archived (DirectoryContents Section_ * Source).
Hypothesis directory_again : reads_again directory.
Hypothesis directory_keeps : forall a b c, keeps (directory a b c).

Definition contents_end (c : EntryContents Section_) : Z := entry_end (mkEntry None c).

Lemma again_contents r1 r2 h size : reader_of bad r2 (data r1) ->
  again (fun x => contents_end x.1 <= Z.of_nat base)%Z (EntryContents_deserialize directory r1 h size) (EntryContents_deserialize directory r2 h size) same_read.
Proof.
  intros Hr. unfold EntryContents_deserialize. eapply again_then; [apply keeps_run|by apply again_header|]. intros [bs h1] [bs2 h2] [Eb Hh]. cbn in Eb, Hh. subst bs2.
  assert (keeps (FileContents_deserialize h1 size)) as Hk by (unfold FileContents_deserialize, read_header; keeps; apply keeps_end).
  destruct bs as [|b [|]]; [apply again_fail| |destruct b; apply again_fail]. destruct b; try apply again_fail; [by apply again_ret| |].
  - eapply again_bind; [done|by apply again_file| |].
    + intros [f g1] [f2 g2] [Ef Hg]. cbn in Ef, Hg. subst f2. by apply again_ret.
    + intros [f g] a a' a'' [c g'] _ [= _ <- _]. done.
  - eapply again_bind; [done|by apply directory_again| |].
    + intros [d g1] [d2 g2] [Ed Hg]. cbn in Ed, Hg. subst d2. by apply again_ret.
    + intros [d g] a a' a'' [c g'] _ [= _ <- _]. done.
Qed.

Lemma again_entry r1 r2 : reader_of bad r2 (data r1) ->
  again (fun x => entry_end x.1 <= Z.of_nat base)%Z (Entry_deserialize directory r1) (Entry_deserialize directory r2) same_read.
Proof.
  intros Hr. unfold Entry_deserialize. eapply again_then; [apply keeps_run|by apply again_header|]. intros [h h1] [h' h2] [Eb Hh]. cbn in Eb, Hh. subst h'.
  eapply again_then; [apply keeps_run|by apply again_header|]. intros [bs h3] [bs2 h4] [Eb Hh3]. cbn in Eb, Hh3. subst bs2.
  eapply again_bind; [|by apply again_contents| |].
  - unfold EntryContents_deserialize, FileContents_deserialize, read_header. keeps; auto using keeps_end.
  - intros [c g1] [c2 g2] [Ec Hg]. cbn in Ec, Hg. subst c2. by apply again_ret.
  - intros [c g] a a' a'' [e g'] _ [= _ <- _]. done.
Qed.

Lemma entries_grow fuel n toc es stop a a' es' stop' : entries_loop directory fuel n toc es stop a = (a', Ready (es', stop')) -> (stop <= stop')%Z.
Proof.
  revert n toc es stop a. induction fuel as [|k IH]; intros n toc es stop a; cbn [entries_loop]; [done|]. destruct (n =? 0)%Z; [intros [= _ _ <-]; lia|].
  unfold m_bind. destruct (run deserialize_varstring toc a) as [a1 [[name toc1]|e| |]]; try done.
  destruct (Entry_deserialize directory toc1 a1) as [a2 [[e toc2]|err| |]]; try done. intros Ex%IH. lia.
Qed.

Lemma again_entries fuel : forall n r1 r2 es stop, reader_of bad r2 (data r1) ->
  again (fun x => x.2 <= Z.of_nat base)%Z (entries_loop directory fuel n r1 es stop) (entries_loop directory fuel n r2 es stop) (fun x y => y = x).
Proof.
  induction fuel as [|k IH]; intros n r1 r2 es stop Hr; cbn [entries_loop]; [apply again_panic|]. destruct (n =? 0)%Z; [by apply again_ret|].
  eapply again_then; [apply keeps_run|apply again_run; [apply repeats_varstring|done]|]. intros [name g1] [name2 g2] [En Hg]. cbn in En, Hg. subst name2.
  eapply again_bind; [by apply keeps_entry|by apply again_entry| |].
  - intros [e t1] [e2 t2] [Ee Ht]. cbn in Ee, Ht. subst e2. by apply IH.
  - intros [e t] a a' a'' [es' stop'] _ Ex%entries_grow Hb. cbn in *. lia.
Qed.
End below.

Lemma from_be_bytes_nonneg bs : (0 <= from_be_bytes bs)%Z.
Proof. unfold from_be_bytes, from_le_bytes. apply LittleEndianList.le_combine_bound. Qed.

(** What follows the entries of a directory leaves their end as it is. *)
Lemma directory_end (header : Source) expected es stop (a a' : Archived) d (g : Source) :
  (let> hs := lift_outcome (unwrap (read_hashes es)) in
   if bool_decide (sighash_of (S := Section_) hs = expected) then m_ret (mkDirectory es stop None, header) else fail $"hash sum does not match") a = (a', Ready (d, g)) ->
  source_end d = stop.
Proof.
  unfold m_bind. destruct (read_hashes es) as [hs|]; [|done]. cbn. case_bool_decide; [|done]. by intros [= _ <- _].
Qed.

Lemma directory_tail k (header : Source) expected stop toc a a' d (g : Source) :
  (let> (n, toc) := run deserialize_varint toc in
   let> (es, stop) := entries_loop (DirectoryContents_deserialize k) (1 + length (data toc)) n toc [] stop in
   let> hs := lift_outcome (unwrap (read_hashes es)) in
   if bool_decide (sighash_of (S := Section_) hs = expected) then m_ret (mkDirectory es stop None, header) else fail $"hash sum does not match") a = (a', Ready (d, g)) ->
  (stop <= source_end d)%Z.
Proof.
  intros Ex. unfold m_bind at 1 in Ex. destruct (run deserialize_varint toc a) as [a1 [[n toc1]|e| |]]; try done. unfold m_bind at 1 in Ex.
  destruct (entries_loop _ _ n toc1 [] stop a1) as [a2 [[es st]|e| |]] eqn:El; try done. apply entries_grow in El. apply directory_end in Ex. lia.
Qed.

Lemma again_directory depth : reads_again (DirectoryContents_deserialize depth).
Proof.
  induction depth as [|k IH]; intros r1 r2 h size Hr; cbn [DirectoryContents_deserialize]; [apply again_panic|].
  eapply again_then; [apply keeps_run|by apply again_header|]. intros [pos h1] [pos2 h2] [Eb Hh]. cbn in Eb, Hh. subst pos2.
  eapply again_then; [apply keeps_run|by apply again_header|]. intros [len h3] [len2 h4] [Eb Hh3]. cbn in Eb, Hh3. subst len2.
  destruct (size <? from_be_bytes len)%Z; [apply again_fail|].
  eapply again_bind; [apply keeps_end|apply again_end| |].
  - intros stop stop2 [-> Es]. eapply again_bind; [apply keeps_fetch|apply again_fetch; apply from_be_bytes_nonneg| |].
    + intros t1 t2 Ht. eapply again_then; [apply keeps_run|apply again_run; [apply repeats_varint|done]|]. intros [n u1] [n2 u2] [En Hu]. cbn in En, Hu. subst n2.
      replace (length (data u2)) with (length (data u1)) by by destruct Hu as [<- _].
      eapply again_bind; [apply keeps_entries, keeps_directory|apply again_entries; [done|apply keeps_directory|done]| |].
      * intros [es st] [es2 st2] [= -> ->]. eapply again_then; [apply keeps_outcome|apply again_outcome|]. intros hs ? <-.
        case_bool_decide; [by apply again_ret|apply again_fail].
      * intros [es st] a a' a'' [d g] _ Ex. apply directory_end in Ex. cbn. by rewrite Ex.
    + intros t a a' a'' [d g] _ Ex. apply directory_tail in Ex. cbn [fst]. intros. lia.
  - intros stop a a' a'' [d g] _ Ex. cbn. unfold m_bind at 1 in Ex. destruct (source_fetch _ _ a') as [a3 [t|e| |]]; try done. apply directory_tail in Ex. cbn. intros. lia.
Qed.
(** The size of the header of a package. *)
Definition package_header : Z := Z.of_nat (length MAGIC_AND_VERSION) + MerkleArchive_header_size.

Lemma again_archive depth context header1 header2 expected : reader_of bad header2 (data header1) ->
  again (fun a => source_end (ma_contents a) <= Z.of_nat base)%Z (MerkleArchive_deserialize depth context header1 expected)
    (MerkleArchive_deserialize depth context header2 expected) eq.
Proof.
  intros Hr. unfold MerkleArchive_deserialize. eapply again_then; [apply keeps_run|by apply again_header|]. intros [key h1] [key2 h2] [Eb Hh]. cbn in Eb, Hh. subst key2.
  destruct (negb (valid_key key)); [apply again_fail|].
  eapply again_then; [apply keeps_run|by apply again_header|]. intros [s h3] [s2 h4] [Eb Hh3]. cbn in Eb, Hh3. subst s2.
  eapply again_then; [apply keeps_run|by apply again_header|]. intros [root h5] [root2 h6] [Eb Hh5]. cbn in Eb, Hh5. subst root2.
  eapply again_then; [apply keeps_run|by apply again_header|]. intros [bs h7] [bs2 h8] [Eb Hh7]. cbn in Eb, Hh7. subst bs2.
  destruct (negb (verify_prehashed_strict _ _ _ _)); [apply again_fail|].
  eapply again_then; [apply keeps_lift|apply again_lift|]. intros [] [] _.
  eapply again_bind; [apply keeps_directory|by apply again_directory| |].
  - intros [d g1] [d2 g2] [Ed Hg]. cbn in Ed, Hg. subst d2. by apply again_ret.
  - intros [d g] a a' a'' x _ [= _ <-]. done.
Qed.

Lemma again_package depth expected : (package_header <= Z.of_nat base)%Z ->
  again (fun a => source_end (ma_contents a) <= Z.of_nat base)%Z (S9pk_archive depth expected) (S9pk_archive depth expected) eq.
Proof.
  intros Hb. unfold S9pk_archive. eapply again_bind; [apply keeps_fetch|by apply again_fetch| |done].
  intros r1 r2 Hr. eapply again_then; [apply keeps_run|by apply again_header|]. intros [magic h1] [magic2 h2] [Eb Hh]. cbn in Eb, Hh. subst magic2.
  case_bool_decide; cbn [negb]; [by apply again_archive|apply again_fail].
Qed.

(** A file is read again, when its section ends before [base]. *)
Lemma again_to_vec s verify : (0 <= se_position s)%Z -> (0 <= se_size s)%Z ->
  again (fun _ => section_end s <= Z.of_nat base)%Z (section_to_vec s verify) (section_to_vec s verify) eq.
Proof.
  intros Hp Hs. unfold section_to_vec, with_capacity. eapply (again_then _ _ _ _ _ (fun _ _ => True)); [keeps|by destruct (2 ^ 63 <=? _)%Z; [apply again_panic|apply again_ret]|].
  intros _ _ _. eapply again_bind; [apply keeps_fetch|by apply again_fetch| |done].
  intros r1 r2 Hr. intros a1 a1' c _ Ec _. unfold lift_io in Ec. destruct (to_io (copy_reader verify r1)) as [c'|e] eqn:E1; [|done]. injection Ec as _ <-.
  apply to_io_copy in E1 as [-> Hv]. destruct Hr as [Hd Hb]. cbn [holds Source_ok] in Hd.
  pose proof (copy_reader_spec (W := bytes) verify r2 []) as Hc. unfold puts_from, post in Hc. rewrite Hd in Hc. intros a2 Ha2. unfold to_io.
  destruct (copy_reader verify r2 []) as [v [x|e| |]]; cbn [fst snd] in Hc |- *; [| |by destruct Hc..].
  - destruct Hc as [_ (bs & Ev & -> & _)]. cbn in Ev. by subst v.
  - split; [done|]. cbn. destruct Hc as [_ [[Hin|(h & size & Eh & Hne)]|[]]].
    + apply Hb. by eapply fails_spec.
    + destruct (Hv h size Eh) as [<- ->]. by destruct Hne.
Qed.
End again.

(** C8: a package ends where its archive does.  Whatever an archive was read from, any other source with the same bytes
    up to [source_end] (and at least a header) gives the same archive, signature, entries and all, however the source answers and whatever follows these bytes:
    it fails only because the source does. *)
Theorem archive_local `{V : VarInt} `{!VarIntOk V} `{H : Hashing} `{E : Ed25519} depth expected (ar ar' ar2 : Archived) (a : MerkleArchive Section_) (base : nat) :
  S9pk_archive depth expected ar = (ar', Ready a) -> (package_header <= Z.of_nat base)%Z -> (source_end (ma_contents a) <= Z.of_nat base)%Z ->
  take base (archive ar2) = take base (archive ar) -> (forall n, reported ar2 = Some n -> (Z.of_nat base <= n)%Z) ->
  opens ar2 (S9pk_archive depth expected) (fun _ a' => a' = a).
Proof.
  intros Ex Hh Hb Ht Hr.
  assert (match reported ar2 with Some limit => (Z.of_nat base <= limit)%Z | None => True end) as Hr' by (destruct (reported ar2); [by apply Hr|done]).
  pose proof (again_package (archive ar) (archive ar2) (reported ar2) (faulty ar2) base Ht Hr' depth expected Hh ar ar' a eq_refl Ex Hb) as Ha.
  unfold opens. eapply post_mono; [by apply Ha|]. intros ar3 [x|e| |] [_ Hx]; done.
Qed.
