(* ===== verification/MerkleEndorse.v ===== *)
(** * Endorsements are added and read back

    The theorems on MerkleTrailer.v: reading a trailer never fails and gives verified signatures only ([trailer_verified]); appending an
    endorsement to a file either changes nothing or adds exactly that endorsement ([append_endorses]). *)
From S2P Require Import Prelude RustStr BTree SquashFormat SquashBlocks SquashTree SquashData SquashFiles SquashIo SquashImage SquashLoad MerkleVarint MerkleBytes MerkleArchive MerkleHash MerkleCopy MerkleVerify MerkleSign MerkleExpected MerkleTrailer MerkleLocal.

Local Open Scope rust_scope.
Local Open Scope poll_scope.

(** ** Records *)

Lemma between_app a b x y : b <= length x -> between a b (x ++ y) = between a b x.
Proof.
  intros Hb. unfold between. destruct (decide (a <= b)) as [Ha|Ha].
  - rewrite drop_app_le, take_app_le; [done| |lia]. rewrite length_drop. lia.
  - by replace (b - a) with 0 by lia.
Qed.

Lemma between_length a b x : a <= b <= length x -> length (between a b x) = b - a.
Proof. intros Hb. unfold between. rewrite length_take, length_drop. lia. Qed.

Lemma between_at x y z n m : n = length x -> m = length x + length y -> between n m (x ++ y ++ z) = y.
Proof. intros -> ->. unfold between. rewrite drop_app_length. replace (length x + length y - length x) with (length y) by lia. apply take_app_length. Qed.

(** The records from a position on, up to the end. *)
Inductive framed (bs : bytes) : nat -> list (Z * nat * nat) -> Prop :=
| framed_end : framed bs (length bs) []
| framed_record pos len rest : pos + 10 <= length bs -> len = from_be_bytes (between (pos + 2) (pos + 10) bs) -> (len <= Z.of_nat (length bs - pos - 10))%Z ->
    framed bs (pos + 10 + Z.to_nat len) rest ->
    framed bs pos ((u16_from_be_bytes (between pos (pos + 2) bs), pos, pos + 10 + Z.to_nat len) :: rest).

Lemma framed_range bs pos l : framed bs pos l -> pos <= length bs.
Proof. destruct 1; lia. Qed.

(** The loop always ends, with the records or the position of the first that does not fit. *)
Lemma records_loop_spec bs fuel : forall pos records, pos <= length bs -> length bs - pos < fuel ->
  match records_loop fuel bs pos records with
  | Done (Ok out) => exists l, out = records ++ l /\ framed bs pos l
  | Done (Err _) => True
  | Panic => False
  end.
Proof.
  induction fuel as [|k IH]; intros pos records Hp Hf; [lia|]. cbn [records_loop]. destruct (Nat.ltb_spec pos (length bs)) as [Hlt|Hge].
  - destruct (Nat.ltb_spec (length bs - pos) 10) as [|H10]; [done|].
    destruct (Z.ltb_spec (Z.of_nat (length bs - pos - 10)) (from_be_bytes (between (pos + 2) (pos + 10) bs))) as [|Hle]; [done|].
    pose proof (from_be_bytes_nonneg (between (pos + 2) (pos + 10) bs)) as H0.
    specialize (IH (pos + 10 + Z.to_nat (from_be_bytes (between (pos + 2) (pos + 10) bs))) (records ++ [(u16_from_be_bytes (between pos (pos + 2) bs), pos,
      pos + 10 + Z.to_nat (from_be_bytes (between (pos + 2) (pos + 10) bs)))]) ltac:(lia) ltac:(lia)).
    destruct (records_loop k bs _ _) as [[out|e]|]; try done. destruct IH as (l & -> & Hl). rewrite <- app_assoc. eexists. split; [done|].
    by apply framed_record; [lia|..].
  - exists []. rewrite app_nil_r. split; [done|]. replace pos with (length bs) by lia. constructor.
Qed.

Lemma framed_loop bs pos l : framed bs pos l -> forall fuel records, length bs - pos < fuel -> records_loop fuel bs pos records = Done (Ok (records ++ l)).
Proof.
  induction 1 as [|pos len rest Hp Hl Hle _ IH]; intros fuel records Hf; (destruct fuel as [|k]; [lia|]); cbn [records_loop].
  - by rewrite Nat.ltb_irrefl, app_nil_r.
  - rewrite (proj2 (Nat.ltb_lt pos (length bs))), (proj2 (Nat.ltb_ge _ 10)) by lia. rewrite <- Hl. rewrite (proj2 (Z.ltb_ge _ _)) by lia.
    rewrite IH by lia. by rewrite <- app_assoc.
Qed.

(** A record behind the others. *)
Definition record_bytes (record : bytes) : bytes := u16_to_be_bytes 1 ++ to_be_bytes (Z.of_nat (length record)) ++ record.

Lemma framed_app bs pos l record : framed bs pos l -> (Z.of_nat (length record) < 2 ^ 64)%Z ->
  framed (bs ++ record_bytes record) pos (l ++ [(1%Z, length bs, length bs + 10 + length record)]).
Proof.
  intros Hl Hr. assert (length (record_bytes record) = 10 + length record) as Er.
  { unfold record_bytes. rewrite !length_app, to_be_bytes_length. by unfold u16_to_be_bytes; rewrite length_rev, to_le_bytes_length. }
  induction Hl as [|pos len rest Hp Hlen Hle _ IH]; cbn [app].
  - assert (between (length bs) (length bs + 2) (bs ++ record_bytes record) = u16_to_be_bytes 1) as E1 by by apply between_at.
    assert (between (length bs + 2) (length bs + 10) (bs ++ record_bytes record) = to_be_bytes (Z.of_nat (length record))) as E2.
    { unfold record_bytes. rewrite app_assoc. apply between_at; rewrite length_app; change (length (u16_to_be_bytes 1)) with 2; [done|]. rewrite to_be_bytes_length. lia. }
    pose proof (framed_record (bs ++ record_bytes record) (length bs) (Z.of_nat (length record)) []) as Hf. rewrite E1, E2, Nat2Z.id in Hf.
    change (u16_from_be_bytes (u16_to_be_bytes 1)) with 1%Z in Hf. apply Hf; rewrite ?length_app, ?Er; [lia| |lia|].
    + symmetry. apply from_to_be_bytes, in_range_u64. lia.
    + replace (length bs + 10 + length record) with (length (bs ++ record_bytes record)) by (rewrite length_app, Er; lia). constructor.
  - assert (forall a b, b <= length bs -> between a b (bs ++ record_bytes record) = between a b bs) as Eb by (intros; by apply between_app).
    rewrite <- (Eb pos (pos + 2)) by lia. apply framed_record; [rewrite length_app; lia|by rewrite Eb by lia|rewrite length_app; lia|done].
Qed.

(** The bounds of the records. *)
Lemma framed_bounds bs pos l : framed bs pos l -> Forall (fun '(_, p, stop) => p + 10 <= stop <= length bs) l.
Proof. induction 1 as [|pos len rest Hp Hl Hle Hf IH]; constructor; [|done]. apply framed_range in Hf. lia. Qed.

(** ** Endorsements *)

Section endorsements.
Context `{V : VarInt} `{H : Hashing} `{E : Ed25519} `{P : PureEd25519} `{D : Der} `{!DerOk D}.

Lemma decode_encode_endorsement key signature value : encode_endorsement key signature = Ok value -> (Z.of_nat (length value) < 2 ^ 64)%Z ->
  decode_endorsement value = Some (key, signature).
Proof.
  intros Ev Hl. unfold encode_endorsement in Ev. destruct (key_to_der key) as [k|e] eqn:Ek; [|done].
  destruct (signature_to_der signature) as [s|e] eqn:Es; [|done]. assert (forall x y : bytes, Ok (E := io_error) x = Ok y -> y = x) as Hinj by by intros ? ? [= ->].
  apply Hinj in Ev as ->. apply key_der in Ek as [Ek Hk]. apply signature_der in Es as [Es Hs].
  assert (0 < length k) by (by destruct k; [|cbn; lia]). assert (0 < length s) by (by destruct s; [|cbn; lia]).
  rewrite !length_app, to_be_bytes_length in Hl. unfold decode_endorsement. rewrite !length_app, to_be_bytes_length.
  destruct (Nat.ltb_spec (8 + (length k + length s)) 8); [lia|].
  assert (take 8 (to_be_bytes (Z.of_nat (length k)) ++ k ++ s) = to_be_bytes (Z.of_nat (length k))) as -> by (apply take_app_length'; by rewrite to_be_bytes_length).
  rewrite from_to_be_bytes by (apply in_range_u64; lia).
  destruct (Z.leb_spec (2 ^ 64) (8 + Z.of_nat (length k))); [lia|]. destruct (Z.eqb_spec (Z.of_nat (length k)) 0); [lia|].
  destruct (Z.leb_spec (Z.of_nat (8 + (length k + length s))) (8 + Z.of_nat (length k))); [lia|]. cbn [orb].
  replace (Z.to_nat (8 + Z.of_nat (length k))) with (length (to_be_bytes (Z.of_nat (length k)) ++ k)) by (rewrite length_app, to_be_bytes_length; lia).
  rewrite (between_at (to_be_bytes _) k s) by (rewrite ?length_app, to_be_bytes_length; done).
  rewrite app_assoc, drop_app_length. by rewrite Ek, Es.
Qed.

(** What records do depends on their bytes only. *)
Lemma read_records_app c at_ bs ext l : Forall (fun '(_, p, stop) => p + 10 <= stop <= length bs) l -> forall t,
  fold_left (read_record c at_ (bs ++ ext)) l t = fold_left (read_record c at_ bs) l t.
Proof.
  induction 1 as [|[[kind p] stop] l Hb _ IH]; intros t; [done|]. cbn [fold_left]. rewrite IH. f_equal. cbn [read_record]. by rewrite between_app by lia.
Qed.

(** ** Signatures *)

Lemma get_or_insert k k' s m : BTreeMap_get key_cmp k (or_insert k' s m) =
  match BTreeMap_get key_cmp k m with Some x => Some x | None => if decide (k = k') then Some s else None end.
Proof.
  unfold or_insert. destruct (BTreeMap_get key_cmp k' m) as [x|] eqn:Ex.
  - destruct (decide (k = k')) as [->|]; [by rewrite Ex|]. by destruct (BTreeMap_get key_cmp k m).
  - destruct (decide (k = k')) as [->|Hne]; [rewrite Ex; apply (map_get_insert key_cmp key_cmp_eq)|].
    rewrite (map_get_insert_ne key_cmp key_cmp_eq) by done. by destruct (BTreeMap_get key_cmp k m).
Qed.

Lemma get_or_insert_all k (l m : SignatureMap) : BTreeMap_get key_cmp k (fold_left (fun m x => or_insert x.1 x.2 m) l m) =
  match BTreeMap_get key_cmp k m with Some x => Some x | None => BTreeMap_get key_cmp k l end.
Proof.
  revert m. induction l as [|[k' s] l IH]; intros m; cbn [fold_left fst snd]; [by destruct (BTreeMap_get key_cmp k m)|].
  rewrite IH, get_or_insert. cbn [BTreeMap_get]. destruct (BTreeMap_get key_cmp k m) as [x|]; [done|].
  destruct (decide (k = k')) as [->|Hne].
  - by rewrite (proj2 (is_eq_true key_cmp key_cmp_eq k' k') eq_refl).
  - destruct (is_eq (key_cmp k k')) eqn:Ee; [|done]. by apply (is_eq_true key_cmp key_cmp_eq) in Ee.
Qed.

(** All signatures are canonical and verified. *)
Definition all_verified (c : MerkleArchiveCommitment) (t : Trailer) : Prop := forall k s, BTreeMap_get key_cmp k (signatures t) = Some s ->
  key_verify_commitment k c SIG_CONTEXT s = Ok tt.

Lemma read_records_verified c at_ bs l t : all_verified c t -> all_verified c (fold_left (read_record c at_ bs) l t).
Proof.
  revert t. induction l as [|[[kind p] stop] l IH]; intros t Ht; [done|]. cbn [fold_left]. apply IH. unfold read_record. destruct (negb (kind =? 1)%Z); [done|].
  destruct (decode_endorsement _) as [[key s]|]; [|done]. destruct (verify_commitment key c SIG_CONTEXT s) as [s'|] eqn:Es; [|done].
  intros k x. unfold endorse. cbn [signatures]. rewrite get_or_insert. specialize (Ht k). destruct (BTreeMap_get key_cmp k (signatures t)) as [y|]; [apply Ht|].
  destruct (decide (k = key)) as [->|]; [|done]. intros [= <-]. by apply verify_commitment_canonical in Es as [? _].
Qed.
End endorsements.

(** ** Reading a trailer *)

Section discover.
Context `{V : VarInt} `{H : Hashing} `{E : Ed25519} `{P : PureEd25519} `{D : Der}.

Lemma obtains_reported img rep bad : obtains img rep bad get_reported (fun o => o = rep).
Proof. intros a Ha. split; [done|]. apply Ha. Qed.

Lemma obtains_exact_any img rep n (r : Source) : obtains img rep True (run (await_exact n) r) (fun '(out, r') => length out = n).
Proof.
  apply obtains_run. eapply post_mono; [by apply (await_exact_spec n r (data r))|]. intros r' [out|e| |]; try done. by intros [Hl _].
Qed.

Lemma obtains_source_any img rep p s : obtains img rep True (source_fetch p s) (fun _ => True).
Proof. eapply obtains_mono; [by apply obtains_source|done]. Qed.

(** A trailer with the magic bytes before its records are read. *)
Definition with_magic : Trailer := set_editable true (set_editable false (set_present (set_editable true Trailer_default))).

(** What the trailer of a source with the size [rep] is known to be. *)
Record discovered (c : MerkleArchiveCommitment) (archive_end : Z) (rep : option Z) (t : Trailer) : Prop := {
  di_verified : all_verified c t;
  di_size : editable t = true -> is_Some rep;
  di_start : match start t with
    | None => raw t = [] /\ signatures t = []
    | Some at_ => (package_header <= at_)%Z /\ (archive_end <= at_)%Z /\ rep = Some (at_ + Z.of_nat (length (raw t)) + 16)%Z /\
        exists l, framed (raw t) 0 l /\ signatures t = signatures (fold_left (read_record c at_ (raw t)) l with_magic) /\
          editable t = editable (fold_left (read_record c at_ (raw t)) l with_magic)
    end;
}.

Lemma discover_spec img rep c archive_end : obtains img rep True (discover c archive_end) (discovered c archive_end rep).
Proof.
  unfold discover. eapply obtains_bind; [apply obtains_reported|]. intros ? ->. destruct rep as [size|]; [|by apply obtains_ret].
  destruct (Z.ltb_spec size 16) as [|H16]; [by apply obtains_ret|]. eapply obtains_bind; [apply obtains_source_any|]. intros s1 _.
  eapply obtains_bind; [apply obtains_exact_any|]. intros [footer r1] Hf. case_bool_decide; cbn [negb]; [|by apply obtains_ret].
  case_bool_decide; cbn [negb]; [|by apply obtains_ret]. set (len := from_be_bytes (take 8 footer)). set (at_ := (size - 16 - len)%Z).
  pose proof (from_be_bytes_nonneg (take 8 footer)) as Hlen. fold len in Hlen. fold package_header.
  destruct ((at_ <? 0)%Z || negb ((len <=? MAX_REGION)%Z && (package_header <=? at_)%Z && (archive_end <=? at_)%Z)) eqn:Ec; [by apply obtains_ret|].
  apply orb_false_iff in Ec as [_ Ec]. apply negb_false_iff in Ec. rewrite !andb_true_iff, !Z.leb_le in Ec. destruct Ec as [[Hmax Hh] He].
  eapply obtains_bind; [apply obtains_source_any|]. intros s2 _. eapply obtains_bind; [apply obtains_exact_any|]. intros [bs r2] Hbs.
  pose proof (records_loop_spec bs (1 + length bs) 0 [] ltac:(lia) ltac:(lia)) as Hr. destruct (records_loop (1 + length bs) bs 0 []) as [[l|pos]|]; [| |done].
  - destruct Hr as (l' & -> & Hl). cbn [app]. eapply (obtains_bind _ _ _ _ _ (fun x => x = Ok l')); [by intros a Ha|]. intros ? ->. apply obtains_ret.
    change (set_editable true (set_editable false (set_present (set_editable true Trailer_default)))) with with_magic. split; cbn [start raw signatures editable].
    + intros k s. cbn [signatures]. revert k s. by apply read_records_verified.
    + by eexists.
    + split; [done|]. split; [done|]. split; [f_equal; lia|]. by exists l'.
  - eapply (obtains_bind _ _ _ _ _ (fun x => x = Err pos)); [by intros a Ha|]. intros ? ->. by apply obtains_ret.
Qed.

(** A trailer is always read, and what cannot be read cannot be edited. *)
Lemma trailer_read_spec c archive_end a : post (Trailer_read c archive_end) a (fun a' r =>
  archive a' = archive a /\ reported a' = reported a /\ match r with Ready t => discovered c archive_end (reported a) t | _ => False end).
Proof.
  pose proof (discover_spec (archive a) (reported a) c archive_end a ltac:(done)) as Hd. unfold post, Trailer_read in *.
  destruct (discover c archive_end a) as [a' [t|e| |]]; cbn [fst snd] in *; destruct Hd as [(Ha & Hr & _) Ht]; try done.
Qed.
End discover.

(** ** A region behind an archive *)

Section region.
Context `{V : VarInt} `{H : Hashing} `{E : Ed25519} `{P : PureEd25519} `{D : Der} `{!DerOk D}.

Definition footer_of (region : bytes) : bytes := to_be_bytes (Z.of_nat (length region)) ++ TRAILER_MAGIC.

Lemma footer_length region : length (footer_of region) = 16.
Proof. unfold footer_of. by rewrite length_app, to_be_bytes_length. Qed.

(** The trailer that a region of records is read as. *)
Lemma discover_region bad base region l c archive_end : let img := base ++ region ++ footer_of region in
  framed region 0 l -> (Z.of_nat (length region) <= MAX_REGION)%Z -> (package_header <= Z.of_nat (length base))%Z -> (archive_end <= Z.of_nat (length base))%Z ->
  obtains img (Some (Z.of_nat (length img))) bad (discover c archive_end) (fun t =>
    let t0 := fold_left (read_record c (Z.of_nat (length base)) region) l with_magic in
    signatures t = signatures t0 /\ editable t = editable t0).
Proof.
  intros img Hl Hmax Hh He. assert (length img = length base + length region + 16) as Ei by (unfold img; rewrite !length_app, footer_length; lia).
  unfold discover. eapply obtains_bind; [apply obtains_reported|]. intros ? ->. rewrite (proj2 (Z.ltb_ge _ _)) by lia.
  assert (located img (length base + length region) (footer_of region)) as Hf.
  { exists (base ++ region), []. unfold img. rewrite app_nil_r, <- app_assoc, length_app. done. }
  assert (located img (length base) region) as Hreg by (by exists base, (footer_of region)).
  replace (Z.of_nat (length img) - 16)%Z with (Z.of_nat (length base + length region)) by lia.
  pose proof (located_slice _ _ _ Hf) as Hsf. rewrite footer_length in Hsf.
  eapply obtains_bind; [apply (obtains_source _ _ _ _ _ (footer_of region) Hsf)|]. intros s1 Hs1.
  eapply obtains_bind; [by eapply obtains_exact; [exact Hs1|rewrite footer_length]|]. intros [footer r1] [-> _].
  rewrite (firstn_all2 (footer_of region)) by (by rewrite footer_length).
  assert (between 8 15 (footer_of region) = take 7 TRAILER_MAGIC) as -> by (unfold between, footer_of; rewrite drop_app_length' by (by rewrite to_be_bytes_length); done).
  assert (drop 8 (footer_of region) = TRAILER_MAGIC) as -> by (unfold footer_of; by rewrite drop_app_length' by (by rewrite to_be_bytes_length)).
  assert (take 8 (footer_of region) = to_be_bytes (Z.of_nat (length region))) as -> by (unfold footer_of; by rewrite take_app_length' by (by rewrite to_be_bytes_length)).
  rewrite !bool_decide_true by done. cbn [negb]. rewrite from_to_be_bytes by (apply in_range_u64; unfold MAX_REGION in Hmax; lia).
  replace (Z.of_nat (length base + length region) - Z.of_nat (length region))%Z with (Z.of_nat (length base)) by lia. fold package_header.
  rewrite (proj2 (Z.ltb_ge _ 0)), (proj2 (Z.leb_le (Z.of_nat (length region)) _)), (proj2 (Z.leb_le package_header _)), (proj2 (Z.leb_le archive_end _)) by (done || lia).
  cbn [andb orb negb]. eapply obtains_bind; [apply obtains_source; by apply located_slice|]. intros s2 Hs2.
  eapply obtains_bind; [by eapply obtains_exact; [exact Hs2|lia]|]. intros [bs r2] [-> _]. rewrite Nat2Z.id, firstn_all.
  rewrite (framed_loop region 0 l Hl) by lia. eapply (obtains_bind _ _ _ _ _ (fun x => x = Ok l)); [by intros a Ha|]. intros ? ->. by apply obtains_ret.
Qed.

(** A region with one endorsement more. *)
Lemma fold_endorsed c at_ old l record signer signature s : framed old 0 l -> encode_endorsement signer signature = Ok record ->
  (Z.of_nat (length record) < 2 ^ 64)%Z -> verify_commitment signer c SIG_CONTEXT signature = Ok s ->
  fold_left (read_record c at_ (old ++ record_bytes record)) (l ++ [(1%Z, length old, length old + 10 + length record)]) with_magic =
  endorse signer s (fold_left (read_record c at_ old) l with_magic).
Proof.
  intros Hl Er H64 Ev. rewrite fold_left_app, (read_records_app _ _ old _ l) by exact (framed_bounds _ _ _ Hl). cbn [fold_left]. cbn [read_record negb].
  change (negb (1 =? 1)%Z) with false. cbv iota.
  assert (between (length old + 10) (length old + 10 + length record) (old ++ record_bytes record) = record) as ->.
  { assert (length (old ++ u16_to_be_bytes 1 ++ to_be_bytes (Z.of_nat (length record))) = length old + 10) as El.
    { rewrite !length_app, to_be_bytes_length. change (length (u16_to_be_bytes 1)) with 2. lia. }
    assert (old ++ record_bytes record = (old ++ u16_to_be_bytes 1 ++ to_be_bytes (Z.of_nat (length record))) ++ record ++ []) as ->.
    { unfold record_bytes. by rewrite app_nil_r, <- !app_assoc. }
    by apply between_at; rewrite El. }
  by rewrite (decode_encode_endorsement signer signature record Er H64), Ev.
Qed.
End region.

(** ** Packages that are opened again *)

Tactic Notation "step_bind" hyp(H) "as" simple_intropattern(x) "eqn" ident(Em) := unfold m_bind at 1 in H; match type of H with
  | (match ?m with _ => _ end) = _ => destruct m as [?st [x|?e| |]] eqn:Em; try done
  end.

Section packages.
Context `{V : VarInt} `{!VarIntOk V} `{H : Hashing} `{E : Ed25519} `{P : PureEd25519} `{D : Der} `{MJ : ManifestJson} `{RS : ReadSource Section_}.

Lemma header_step n h a a' bs h' : read_header n h a = (a', Ready (bs, h')) -> length (data h) = n + length (data h').
Proof.
  unfold read_header, run. assert (holds h (data h)) as Hh by done. pose proof (await_exact_spec n h (data h) Hh) as Hp. unfold post in Hp. destruct (await_exact n h) as [r [out|e| |]]; try done.
  cbn [fst snd] in Hp. destruct Hp as (Hl & _ & c & Ec & Hc). intros [= _ <- <-]. rewrite Ec, length_app, Hl. by rewrite <- Hc.
Qed.

(** The results of [m] are in [P]. *)
Definition gives {A} (m : M Archived A) (P : A -> Prop) : Prop := forall a a' x, m a = (a', Ready x) -> P x.

Lemma gives_bind {A B} (m : M Archived A) (f : A -> M Archived B) Q R : gives m Q -> (forall x, Q x -> gives (f x) R) -> gives (m_bind m f) R.
Proof. intros Hm Hf a a' y. unfold m_bind. destruct (m a) as [a1 [x|e| |]] eqn:Ex; try done. intros Ey. by eapply Hf; [eapply Hm|]. Qed.

Lemma gives_always {A} (m : M Archived A) (Q : A -> Prop) : (forall x, Q x) -> gives m Q.
Proof. intros HQ a a' x _. apply HQ. Qed.

Lemma gives_step n h : gives (read_header n h) (fun '(_, h') => length (data h) = n + length (data h')).
Proof. intros a a' [bs h'] Ex. by eapply header_step. Qed.

Lemma gives_fail {A} message (Q : A -> Prop) : gives (fail message) Q.
Proof. by intros a a' x Ex. Qed.

(** All of the header of a package is read. *)
Lemma directory_header_read depth h expected max_size : gives (DirectoryContents_deserialize depth h expected max_size) (fun _ => 16 <= length (data h)).
Proof.
  destruct depth as [|k]; [by intros a a' x Ex|]. cbn [DirectoryContents_deserialize]. eapply gives_bind; [apply gives_step|]. intros [p1 h1] E1.
  eapply gives_bind; [apply gives_step|]. intros [p2 h2] E2. apply gives_always. intros _. lia.
Qed.

Lemma archive_header_read depth context h expected : gives (MerkleArchive_deserialize depth context h expected) (fun _ => 152 <= length (data h)).
Proof.
  unfold MerkleArchive_deserialize. eapply gives_bind; [apply gives_step|]. intros [key h1] E1. destruct (negb _); [apply gives_fail|].
  eapply gives_bind; [apply gives_step|]. intros [s h2] E2. eapply gives_bind; [apply gives_step|]. intros [root h3] E3.
  eapply gives_bind; [apply gives_step|]. intros [bs h4] E4. destruct (negb _); [apply gives_fail|].
  eapply gives_bind; [by apply (gives_always _ (fun _ => True))|]. intros _ _. eapply gives_bind; [apply directory_header_read|]. intros [d h5] Hd. apply gives_always. intros y. lia.
Qed.

Lemma package_header_read depth expected a a' x : S9pk_archive depth expected a = (a', Ready x) -> (package_header <= Z.of_nat (length (archive a)))%Z.
Proof.
  assert (package_header = 155)%Z as -> by done. revert a a' x. unfold S9pk_archive.
  assert (forall hd, gives (let> (magic, header) := read_header (length MAGIC_AND_VERSION) hd in
    if negb (bool_decide (magic = MAGIC_AND_VERSION)) then fail $"Invalid Magic or Unexpected Version"
    else MerkleArchive_deserialize depth SIG_CONTEXT header expected) (fun _ => 155 <= length (data hd))) as Hg.
  { intros hd. eapply gives_bind; [apply gives_step|]. intros [magic h1] E1. change (length MAGIC_AND_VERSION) with 3 in E1. destruct (negb _); [apply gives_fail|].
    intros a a' x Ex. apply archive_header_read in Ex. lia. }
  intros a a' x Ex. step_bind Ex as hd eqn E0. apply Hg in Ex. unfold source_fetch, slice_of in E0.
  destruct (servings a) as [|[]]; [|done|]; injection E0 as _ <-; cbn [data] in Ex; rewrite length_take, length_drop in Ex; lia.
Qed.

(** The file of the manifest lies in the archive. *)
Lemma verified_file rep h d name e f : verified_in rep h d -> get name d = Some e -> e_contents e = File f ->
  (0 <= se_position f)%Z /\ (0 <= se_size f)%Z /\ (section_end f <= source_end d)%Z.
Proof.
  intros Hv Hg Hf. destruct Hv as [h es stop order hs _ Eh Hok _ _ _ Hin _]. unfold get in Hg. cbn [d_entries source_end] in *. apply map_get_elem in Hg.
  rewrite Forall_forall in Hin. destruct (Hin _ Hg) as [Hend Hx]. cbn in Hend, Hx. rewrite Hf in Hx. destruct Hx as [Hp [g Hh]].
  unfold entry_end in Hend. rewrite Hf in Hend. split; [done|]. split; [|done].
  apply mapM_Some_1 in Eh. apply list_elem_of_lookup_1 in Hg as [i Hi]. destruct (Forall2_lookup_l _ _ _ _ _ Eh Hi) as (y & Hy & Ey). cbn in Ey. rewrite Hh in Ey.
  injection Ey as <-. rewrite Forall_forall in Hok. apply list_elem_of_lookup_2 in Hy. destruct (Hok _ Hy) as (_ & _ & Hr). cbn in Hr. apply in_range_u64 in Hr. lia.
Qed.

Lemma manifest_path (d : DirectoryContents Section_) : get_path (bstr "manifest.json") d = get (bstr "manifest.json") d.
Proof. unfold get_path. assert (segments (bstr "manifest.json") = [bstr "manifest.json"]) as -> by (vm_compute; done). cbn [get_segments]. assert (utf8_valid (bstr "manifest.json") = true) as -> by (vm_compute; done). done. Qed.

(** What opening a package has found. *)
Record opened_local (depth : nat) (img : bytes) (rep : option Z) (p : S9pk Section_) (c : MerkleArchiveCommitment) : Prop := {
  ol_header : (package_header <= Z.of_nat (length img))%Z;
  ol_end : in_archive rep (source_end (ma_contents (pk_archive p)));
  ol_size : pk_size p = rep;
  ol_commitment : commitment (pk_archive p) = Ok c;
  ol_signer : exists key s max_size context, ma_signer (pk_archive p) = Signed key s max_size context;
  ol_trailer : discovered c (source_end (ma_contents (pk_archive p))) rep (pk_trailer p);
  (** The package is opened again from any source that begins in the same way. *)
  ol_again : forall img2 rep2 bad base, take base img2 = take base img -> (package_header <= Z.of_nat base)%Z ->
    (source_end (ma_contents (pk_archive p)) <= Z.of_nat base)%Z -> match rep2 with Some limit => (Z.of_nat base <= limit)%Z | None => True end ->
    obtains img2 rep2 bad (S9pk_deserialize depth None) (fun p' => pk_archive p' = pk_archive p /\ pk_manifest p' = pk_manifest p);
}.

Lemma again_manifest img1 img2 rep2 bad base a rep h : take base img2 = take base img1 -> match rep2 with Some limit => (Z.of_nat base <= limit)%Z | None => True end ->
  verified_in rep h (ma_contents a) -> (source_end (ma_contents a) <= Z.of_nat base)%Z -> again img1 img2 rep2 bad (fun _ => True) (extract_manifest a) (extract_manifest a) eq.
Proof.
  intros Ht Hr Hv Hb. unfold extract_manifest. rewrite manifest_path. destruct (get (bstr "manifest.json") (ma_contents a)) as [e|] eqn:Eg; [|apply again_fail].
  eapply again_then; [|unfold read_file_to_vec; destruct (e_contents e) as [|f|d] eqn:Ef; [apply again_fail| |apply again_fail]|].
  - unfold read_file_to_vec, section_to_vec, section_reader, with_capacity. destruct (e_contents e); keeps.
  - destruct (verified_file rep h _ _ e f Hv Eg Ef) as (Hp & Hs & He). intros a1 a1' x Ha Ex _. eapply again_to_vec; [exact Ht|exact Hp|exact Hs|exact Ha|exact Ex|]. cbn. lia.
  - intros c ? <-. apply again_lift.
Qed.

Lemma yields_manifest rep a : yields rep (extract_manifest a) (fun _ => True).
Proof.
  unfold extract_manifest. destruct (get_path _ _) as [e|]; [|apply yields_fail]. eapply (yields_bind _ _ _ (fun _ => True)); [|intros; by apply yields_lift].
  unfold read_file_to_vec. destruct (e_contents e) as [|f|d]; [apply yields_fail| |apply yields_fail]. unfold section_to_vec, with_capacity.
  eapply (yields_bind _ _ _ (fun _ => True)); [destruct (2 ^ 63 <=? _)%Z; [by intros x Hx|by apply yields_ret]|]. intros _ _.
  eapply yields_bind; [apply yields_fetch|]. intros r _. by apply yields_lift.
Qed.

Lemma yields_run_at {A} rep (m : M Archived A) Q a a' x : m a = (a', Ready x) -> reported a = rep -> yields rep m Q -> reported a' = rep /\ Q x.
Proof. intros Ex Ha Hm. specialize (Hm a Ha). unfold post in Hm. by rewrite Ex in Hm. Qed.

Lemma verified_sorted rep h d order : verified_in rep h d -> verified_in rep h (DirectoryContents_sort_by order d).
Proof. intros Hv. destruct Hv as [h es stop o hs H1 H2 H3 H4 H5 H6 H7 H8]. by eapply verified_directory. Qed.

Lemma keeps_at {A} (m : M Archived A) a a' r : keeps m -> m a = (a', r) -> archive a' = archive a.
Proof. intros Hk Ex. specialize (Hk a). by rewrite Ex in Hk. Qed.

Lemma deserialize_opened depth img sv rep ar p : S9pk_deserialize depth None (mkArchived img sv rep) = (ar, Ready p) ->
  reported ar = rep /\ (package_header <= Z.of_nat (length img))%Z /\ in_archive rep (source_end (ma_contents (pk_archive p))) /\ pk_size p = rep /\
  (exists key s max_size context, ma_signer (pk_archive p) = Signed key s max_size context) /\
  forall img2 rep2 bad base, take base img2 = take base img -> (package_header <= Z.of_nat base)%Z ->
    (source_end (ma_contents (pk_archive p)) <= Z.of_nat base)%Z -> match rep2 with Some limit => (Z.of_nat base <= limit)%Z | None => True end ->
    obtains img2 rep2 bad (S9pk_deserialize depth None) (fun p' => pk_archive p' = pk_archive p /\ pk_manifest p' = pk_manifest p).
Proof.
  unfold S9pk_deserialize. intros Ex. step_bind Ex as x eqn E1. step_bind Ex as size eqn E2. unfold S9pk_new in Ex. step_bind Ex as m eqn E3. injection Ex as <- <-.
  destruct (yields_run_at rep _ _ _ _ _ E1 eq_refl (package_yields rep depth None)) as [Hr1 (key & s & max_size & root & Es & _ & _ & _ & Hv)].
  injection E2 as <- <-. pose proof (keeps_at _ _ _ _ (keeps_package depth None) E1) as Ha1. cbn [archive] in Ha1.
  set (y := mkArchive (ma_signer x) (DirectoryContents_sort_by by_priority (ma_contents x))) in *.
  assert (verified_in rep root (ma_contents y)) as Hvy by by apply verified_sorted.
  destruct (yields_run_at rep _ _ _ _ _ E3 Hr1 (yields_manifest rep y)) as [Hr2 _]. split; [done|]. cbn [pk_archive pk_size pk_manifest].
  split; [exact (package_header_read _ _ _ _ _ E1)|]. split; [by destruct Hvy|]. split; [done|]. split; [by exists key, s, max_size, SIG_CONTEXT|].
  intros img2 rep2 bad base Ht Hh Hb Hr. unfold S9pk_deserialize.
  eapply obtains_bind; [exact (again_package img img2 rep2 bad base Ht Hr depth None Hh (mkArchived img sv rep) _ x eq_refl E1 Hb)|]. intros ? <-.
  eapply (obtains_bind _ _ _ _ _ (fun _ => True)); [eapply obtains_mono; [apply obtains_reported|done]|]. intros o _. unfold S9pk_new.
  eapply obtains_bind; [exact (again_manifest img img2 rep2 bad base y rep root Ht Hr Hvy Hb _ _ m Ha1 E3 I)|]. intros ? <-. by apply obtains_ret.
Qed.

Lemma local_opened depth img sv rep ar p : deserialize_local depth None (mkArchived img sv rep) = (ar, Ready p) -> exists c, opened_local depth img rep p c.
Proof.
  unfold deserialize_local. intros Ex. step_bind Ex as q eqn E1. step_bind Ex as c eqn E2. step_bind Ex as t eqn E3. injection Ex as _ <-.
  destruct (deserialize_opened _ _ _ _ _ _ E1) as (Hr & Hh & Hend & Hsize & Hs & Hagain). exists c. unfold lift_io in E2.
  destruct (commitment (pk_archive q)) as [c'|] eqn:Ec; [|done]. injection E2 as <- <-.
  pose proof (trailer_read_spec c' (source_end (ma_contents (pk_archive q))) st) as Ht. unfold post in Ht. rewrite E3 in Ht. cbn [fst snd] in Ht. destruct Ht as (_ & _ & Ht). rewrite Hr in Ht.
  by split.
Qed.
End packages.

(** ** Changing the file *)

(** [m] leaves the file as it is; its result is in [Q]. *)
Definition leaves_file {A} (m : M Files A) (f : Files) (Q : Files -> A -> Prop) : Prop :=
  post m f (fun f' r => fl_path f' = fl_path f /\ match r with Ready x => Q f' x | _ => True end).

(** The file is as [Q] says after success, and as it was otherwise. *)
Definition file_after {A} (path : bytes) (Q : Files -> A -> Prop) (f : Files) (r : res A) : Prop :=
  match r with Ready x => Q f x | _ => fl_path f = path end.

Lemma after_bind {A B} (m : M Files A) (g : A -> M Files B) f Q R : leaves_file m f Q ->
  (forall f' x, fl_path f' = fl_path f -> Q f' x -> post (g x) f' (file_after (fl_path f) R)) -> post (m_bind m g) f (file_after (fl_path f) R).
Proof. intros Hm Hg. unfold leaves_file in Hm. apply post_bind. eapply post_mono; [exact Hm|]. intros f' [x|e| |] [Hp Hx]; [by apply Hg|done..]. Qed.

Lemma leaves_bind {A B} (m : M Files A) (g : A -> M Files B) f Q R : leaves_file m f Q ->
  (forall f' x, Q f' x -> leaves_file (g x) f' R) -> leaves_file (m_bind m g) f R.
Proof.
  unfold leaves_file. intros Hm Hg. apply post_bind. eapply post_mono; [exact Hm|]. intros f' [x|e| |] [Hp Hx]; [|done..]. eapply post_mono; [by apply Hg|].
  intros f'' r [Hp' Hr]. split; [congruence|done].
Qed.

Lemma leaves_lift {A} (r : io A) f : leaves_file (lift_io r) f (fun f' x => f' = f /\ r = Ok x).
Proof. by destruct r. Qed.

Lemma call_leaves f : leaves_file call f (fun f' _ => fl_tmp f' = fl_tmp f).
Proof. unfold leaves_file, post, call. by destruct (fl_calls f) as [|[]]. Qed.

Lemma new_leaves f : leaves_file AtomicFile_new f (fun f' _ => fl_tmp f' = Some []).
Proof. eapply leaves_bind; [apply call_leaves|]. intros f1 [] _. eapply leaves_bind; [apply call_leaves|]. by intros f2 [] _. Qed.

Lemma rollback_leaves f : leaves_file AtomicFile_rollback f (fun _ _ => True).
Proof. eapply leaves_bind; [apply call_leaves|]. by intros f1 [] _. Qed.

Lemma drop_leaves f : leaves_file AtomicFile_drop f (fun _ _ => True).
Proof. pose proof (rollback_leaves f) as Hr. unfold leaves_file, post, AtomicFile_drop in *. by destruct (AtomicFile_rollback f) as [f' [x|e| |]]. Qed.

Lemma or_else_leaves {A} (m : M Files A) cleanup f Q : leaves_file m f Q -> (forall f', leaves_file cleanup f' (fun _ _ => True)) -> leaves_file (or_else m cleanup) f Q.
Proof.
  intros Hm Hc. unfold leaves_file, post, or_else in *. destruct (m f) as [f1 [x|e| |]]; cbn [fst snd] in *; try done. destruct Hm as [Hp _].
  specialize (Hc f1). unfold m_bind. destruct (cleanup f1) as [f2 [y|e'| |]]; cbn [fst snd] in *; destruct Hc as [Hp' _]; cbn [fst snd m_fail]; (split; [congruence|done]).
Qed.

Lemma save_after f : post AtomicFile_save f (file_after (fl_path f) (fun f' _ => fl_path f' = default (fl_path f) (fl_tmp f))).
Proof.
  eapply after_bind with (Q := fun f' _ => fl_tmp f' = fl_tmp f).
  - apply or_else_leaves; [|apply drop_leaves]. eapply leaves_bind; [apply call_leaves|]. intros f1 [] E1. eapply leaves_bind; [apply call_leaves|]. intros f2 [] E2.
    eapply post_mono; [apply call_leaves|]. intros f3 [[]|e| |] [Hp Hx]; (split; [done|]); try done. congruence.
  - intros f1 [] Hp Ht. rewrite <- Hp. eapply after_bind; [apply call_leaves|]. intros f2 [] Hp2 Ht2. unfold post. cbn. by rewrite Ht2, Ht, Hp2.
Qed.

(** What is written to the temporary file. *)
Lemma write_region_tmp `{H : Hashing} base_len source region f : fl_tmp f = Some [] -> leaves_file (on_tmp (write_region base_len source region)) f (fun f' _ =>
  fl_tmp f' = Some (data source ++ region) /\ Z.of_nat (length (data source)) = base_len).
Proof.
  intros Ht. assert (puts (W := Sink) (fun _ => True) (write_region base_len source region) (fun bs _ => bs = data source ++ region /\ Z.of_nat (length (data source)) = base_len)) as Hw.
  { eapply puts_bind; [eapply puts_mono; [apply copy_loop_spec; lia|exact (fun bs x Q => Q)|done]|]. intros bs [copied v] (-> & -> & _). cbn [app].
    destruct (Z.eqb_spec (Z.of_nat (length (data source))) base_len) as [El|El]; cbn [negb]; [|by apply puts_fail].
    eapply puts_mono; [apply (puts_write (fun _ => True))| |done]. by intros bs [] ->. }
  specialize (Hw (mkSink [] (fl_writes f))). unfold puts_from, post in Hw. unfold leaves_file, post, on_tmp. rewrite Ht. change (default [] (Some [])) with (@nil byte).
  destruct (write_region base_len source region (mkSink [] (fl_writes f))) as [s [[]|e| |]]; cbn [fst snd fl_path] in *; (split; [done|]); try done.
  destruct Hw as [_ (bs & Es & -> & El)]. cbn [given Sink_writes_ok sunk app] in Es. by rewrite Es.
Qed.

Section append.
Context `{V : VarInt} `{!VarIntOk V} `{H : Hashing} `{E : Ed25519} `{P : PureEd25519} `{D : Der} `{!DerOk D} `{MJ : ManifestJson} `{RS : ReadSource Section_}.

(** A source that has all the bytes, reports their number and does not fail. *)
Definition reliable (bs : bytes) : Archived := mkArchived bs [] (Some (Z.of_nat (length bs))).

(** The signatures of a package in terms of those of its trailer. *)
Lemma signatures_get (p : S9pk Section_) key s max_size context m k : ma_signer (pk_archive p) = Signed key s max_size context -> S9pk_signatures p = Ok m ->
  BTreeMap_get key_cmp k m = if decide (k = Ed25519Key key) then Some (Ed25519ph s) else BTreeMap_get key_cmp k (signatures (pk_trailer p)).
Proof.
  intros Es. unfold S9pk_signatures, signature, MerkleArchive_signer. rewrite Es. intros [= <-]. rewrite get_or_insert_all. cbn [BTreeMap_get].
  destruct (decide (k = Ed25519Key key)) as [->|Hne].
  - by rewrite (proj2 (is_eq_true key_cmp key_cmp_eq (Ed25519Key key) (Ed25519Key key)) eq_refl).
  - destruct (is_eq (key_cmp k (Ed25519Key key))) eqn:Ee; [|done]. by apply (is_eq_true key_cmp key_cmp_eq) in Ee.
Qed.

Lemma obtains_trailer img rep c archive_end Q : obtains img rep False (discover c archive_end) Q -> obtains img rep False (Trailer_read c archive_end) Q.
Proof. intros Hd a Ha. specialize (Hd a Ha). unfold post, Trailer_read in *. by destruct (discover c archive_end a) as [a' [t|e| |]]; cbn [fst snd] in *; destruct Hd. Qed.

(** Where the base of a package ends, and the records behind it. *)
Lemma base_of depth img p c base_len : opened_local depth img (Some (Z.of_nat (length img))) p c ->
  match start (pk_trailer p), pk_size p with Some n, _ => base_len = n | None, Some n => base_len = n | None, None => False end ->
  (package_header <= base_len <= Z.of_nat (length img))%Z /\ (source_end (ma_contents (pk_archive p)) <= base_len)%Z /\
  exists l, framed (raw (pk_trailer p)) 0 l /\ signatures (pk_trailer p) = signatures (fold_left (read_record c base_len (raw (pk_trailer p))) l with_magic).
Proof.
  intros [Hh [Hend0 Hend] Hsize _ _ [_ _ Hst] _] Hb. rewrite Hsize in Hb. destruct (start (pk_trailer p)) as [at_|]; subst base_len.
  - destruct Hst as (H1 & H2 & [= H3] & l & Hl & Hsig & _). split; [lia|]. split; [done|]. by exists l.
  - destruct Hst as [-> ->]. split; [lia|]. split; [done|]. exists []. split; [constructor|done].
Qed.

(** The region that [append] writes behind the base of a package it has opened. *)
Lemma endorsed_package depth img p c signer signature s record base_len :
  opened_local depth img (Some (Z.of_nat (length img))) p c ->
  verify_commitment signer c SIG_CONTEXT signature = Ok s -> encode_endorsement signer signature = Ok record ->
  (Z.of_nat (length (raw (pk_trailer p))) + 10 + Z.of_nat (length record) <= MAX_REGION)%Z ->
  match start (pk_trailer p), pk_size p with Some n, _ => base_len = n | None, Some n => base_len = n | None, None => False end ->
  let base := take (Z.to_nat base_len) img in
  let region := region_with (raw (pk_trailer p)) record in
  let img' := base ++ region ++ footer_of region in
  (source_end (ma_contents (pk_archive p)) <= Z.of_nat (length base))%Z /\
  obtains img' (Some (Z.of_nat (length img'))) False (deserialize_local depth None) (fun p' =>
    pk_archive p' = pk_archive p /\ pk_manifest p' = pk_manifest p /\
    forall k, BTreeMap_get key_cmp k (signatures (pk_trailer p')) =
      match BTreeMap_get key_cmp k (signatures (pk_trailer p)) with Some x => Some x | None => if decide (k = signer) then Some s else None end).
Proof.
  intros Ho Ev Er Hmax Hbase base region img'. destruct (base_of _ _ _ _ _ Ho Hbase) as ([Hh Hlen] & Hend & l & Hl & Hsig).
  assert (0 <= base_len)%Z as H0 by (change package_header with 155%Z in Hh; lia).
  assert (length base = Z.to_nat base_len) as Eb by (unfold base; rewrite length_take; lia). rewrite Eb, Z2Nat.id by done. split; [done|].
  assert (region = raw (pk_trailer p) ++ record_bytes record) as Ereg by done.
  assert (Z.of_nat (length record) < 2 ^ 64)%Z as H64 by (unfold MAX_REGION in Hmax; lia).
  assert (length region = length (raw (pk_trailer p)) + 10 + length record) as El.
  { rewrite Ereg, length_app. unfold record_bytes. rewrite !length_app, to_be_bytes_length. change (length (u16_to_be_bytes 1)) with 2. lia. }
  unfold deserialize_local. eapply obtains_bind.
  { apply (ol_again _ _ _ _ _ Ho img' _ False (length base)); rewrite ?Eb, ?Z2Nat.id by done; [|done|done|].
    - unfold img'. rewrite take_app_le by lia. unfold base. rewrite take_take. by rewrite Nat.min_id.
    - unfold img'. rewrite length_app. lia. }
  intros p1 [Ea Em]. rewrite Ea. eapply obtains_bind; [eapply (obtains_lift _ _ _ _ c (fun x => x = c)); [apply Ho|done]|]. intros ? ->.
  eapply obtains_bind.
  { apply obtains_trailer, (discover_region False base region (l ++ [(1%Z, length (raw (pk_trailer p)), length (raw (pk_trailer p)) + 10 + length record)]) c).
    - rewrite Ereg. by apply framed_app.
    - lia.
    - rewrite Eb. lia.
    - rewrite Eb. lia. }
  intros t [Hst _]. apply obtains_ret. cbn [pk_archive pk_manifest pk_trailer]. split; [done|]. split; [done|]. intros k.
  rewrite Ereg, (fold_endorsed _ _ _ _ record signer signature s Hl Er H64 Ev) in Hst. rewrite Hst. cbn [endorse signatures]. rewrite get_or_insert, Hsig.
  by replace (Z.of_nat (length base)) with base_len by lia.
Qed.

Lemma on_path_opened {A} (m : M Archived A) f : leaves_file (on_path m) f (fun _ x => exists sv rep ar, m (mkArchived (fl_path f) sv rep) = (ar, Ready x) /\
  (rep = None \/ rep = Some (Z.of_nat (length (fl_path f))))).
Proof.
  unfold leaves_file, post, on_path. pose proof (call_leaves f) as Hc. unfold leaves_file, post in Hc. destruct (call f) as [f1 r] eqn:Ec. cbn [fst snd] in Hc. destruct Hc as [Hp _].
  set (known := match r with Ready _ => true | _ => false end). assert ((match r with Ready _ => (f1, true) | _ => (f1, false) end) = (f1, known)) as -> by by destruct r.
  rewrite <- Hp. destruct (m _) as [a [x|e| |]] eqn:Em; cbn [fst snd]; (split; [done|]); [|done..]. eexists _, _, _. split; [exact Em|]. destruct known; [by right|by left].
Qed.

Lemma open_prefix_data n f : leaves_file (open_prefix n) f (fun _ s => data s = take (Z.to_nat n) (fl_path f)).
Proof.
  unfold leaves_file, post, open_prefix, source_fetch, slice_of. cbn [servings archive]. change (Z.to_nat 0) with 0. rewrite drop_0. by destruct (fl_served f) as [|[]].
Qed.

(** From the package in [path] to the one in [path']: the endorsement was verified for the package that was found; it is there already, or it is added and nothing else changes. *)
Definition endorsed (depth : nat) (signer : AnyVerifyingKey) (signature : AnySignature) (path path' : bytes) : Prop := exists sv ar p c m s,
  deserialize_local depth None (mkArchived path sv (Some (Z.of_nat (length path)))) = (ar, Ready p) /\
  commitment (pk_archive p) = Ok c /\ S9pk_signatures p = Ok m /\ verify_commitment signer c SIG_CONTEXT signature = Ok s /\
  match BTreeMap_get key_cmp signer m with
  | Some _ => path' = path
  | None =>
      let archive_end := Z.to_nat (source_end (ma_contents (pk_archive p))) in
      take archive_end path' = take archive_end path /\
      exists ar' p' m', deserialize_local depth None (reliable path') = (ar', Ready p') /\
        pk_archive p' = pk_archive p /\ pk_manifest p' = pk_manifest p /\ S9pk_signatures p' = Ok m' /\
        forall k, BTreeMap_get key_cmp k m' = if decide (k = signer) then Some s else BTreeMap_get key_cmp k m
  end.

Lemma footer_region old record : to_be_bytes (Z.of_nat (length old) + 10 + Z.of_nat (length record)) ++ TRAILER_MAGIC = footer_of (region_with old record).
Proof.
  unfold footer_of, region_with. do 2 f_equal. rewrite !length_app, to_be_bytes_length. change (length (u16_to_be_bytes 1)) with 2. lia.
Qed.

(** Only a trailer that can be edited is asked for the signatures. *)
Lemma needs_inv signer (p : S9pk Section_) needed : needs_endorsement signer p = Ok needed ->
  editable (pk_trailer p) = true /\ exists m, S9pk_signatures p = Ok m /\ needed = negb (bool_decide (is_Some (BTreeMap_get key_cmp signer m))).
Proof.
  unfold needs_endorsement. destruct (editable (pk_trailer p)); cbn [negb]; [|done]. destruct (S9pk_signatures p) as [m|]; [|done].
  intros [= <-]. split; [done|]. by exists m.
Qed.

(** The new file. *)
Lemma endorsed_file depth img sv ar p c m signer signature s record base_len :
  deserialize_local depth None (mkArchived img sv (Some (Z.of_nat (length img)))) = (ar, Ready p) -> commitment (pk_archive p) = Ok c ->
  S9pk_signatures p = Ok m -> BTreeMap_get key_cmp signer m = None ->
  verify_commitment signer c SIG_CONTEXT signature = Ok s -> encode_endorsement signer signature = Ok record ->
  (Z.of_nat (length (raw (pk_trailer p))) + 10 + Z.of_nat (length record) <= MAX_REGION)%Z ->
  match start (pk_trailer p), pk_size p with Some n, _ => base_len = n | None, Some n => base_len = n | None, None => False end ->
  let region := region_with (raw (pk_trailer p)) record in
  endorsed depth signer signature img (take (Z.to_nat base_len) img ++ region ++ footer_of region).
Proof.
  intros Ex Ec Em Hn Ev Er Hmax Hb region. destruct (local_opened _ _ _ _ _ _ Ex) as [c' Ho].
  assert (c' = c) as -> by (pose proof (ol_commitment _ _ _ _ _ Ho); congruence).
  destruct (endorsed_package depth img p c signer signature s record base_len Ho Ev Er Hmax Hb) as [Hend Hob].
  exists sv, ar, p, c, m, s. split; [done|]. split; [done|]. split; [done|]. split; [done|]. rewrite Hn. split.
  { rewrite take_app_le by lia. rewrite take_take. f_equal. rewrite length_take in Hend. lia. }
  set (img' := take (Z.to_nat base_len) img ++ region ++ footer_of region) in *. specialize (Hob (reliable img') ltac:(split; [done|]; split; [done|]; by intros ?%Exists_nil)). unfold post in Hob.
  destruct (deserialize_local depth None (reliable img')) as [ar' [p'|e| |]]; cbn [fst snd] in Hob; [|by destruct Hob..]. destruct Hob as [_ (Ea & Emf & Hsig)].
  destruct (ol_signer _ _ _ _ _ Ho) as (key & sg & max_size & context & Esg).
  assert (exists m', S9pk_signatures p' = Ok m') as [m' Em'] by (unfold S9pk_signatures, MerkleArchive.signature; rewrite Ea, Esg; by eexists).
  exists ar', p', m'. split; [done|]. split; [done|]. split; [done|]. split; [done|]. intros k.
  rewrite (signatures_get p' key sg max_size context m' k ltac:(by rewrite Ea) Em'), Hsig, (signatures_get p key sg max_size context m k Esg Em).
  rewrite (signatures_get p key sg max_size context m signer Esg Em) in Hn.
  destruct (decide (k = Ed25519Key key)) as [->|]; [destruct (decide (Ed25519Key key = signer)) as [<-|]; [|done]; by rewrite decide_True in Hn|].
  destruct (decide (k = signer)) as [->|]; [rewrite decide_False in Hn by done; by rewrite Hn|]. by destruct (BTreeMap_get key_cmp k _).
Qed.
End append.

(** C7: endorsements cannot harm a package.  Whatever follows an archive and however the source answers, reading the trailer neither
    fails nor panics, every signature it gives is verified, with its canonical tag, for the key it is under and the commitment of the archive, and
    the region, if there is one, lies behind the archive and fills the source up to the footer; a source of unknown size has no
    region that could be edited. *)
Theorem trailer_verified `{V : VarInt} `{H : Hashing} `{E : Ed25519} `{P : PureEd25519} `{D : Der} (c : MerkleArchiveCommitment) (archive_end : Z) (a : Archived) :
  exists a' t, Trailer_read c archive_end a = (a', Ready t) /\
    (forall k s, BTreeMap_get key_cmp k (signatures t) = Some s -> key_verify_commitment k c SIG_CONTEXT s = Ok tt) /\
    match start t with
    | None => raw t = [] /\ signatures t = []
    | Some at_ => (package_header <= at_)%Z /\ (archive_end <= at_)%Z /\ reported a = Some (at_ + Z.of_nat (length (raw t)) + 16)%Z
    end /\
    (reported a = None -> editable t = false).
Proof.
  pose proof (trailer_read_spec c archive_end a) as Ht. unfold post in Ht. destruct (Trailer_read c archive_end a) as [a' [t|e| |]]; cbn [fst snd] in Ht; destruct Ht as (_ & _ & Hd); try done.
  exists a', t. split; [done|]. destruct Hd as [Hv Hs Hst]. split; [done|]. split; [by destruct (start t); [destruct Hst as (? & ? & ? & _)|]|].
  intros En. destruct (editable t); [|done]. rewrite En in Hs. by destruct (Hs eq_refl).
Qed.

(** C6: adding an endorsement to the file of a package.  Whatever calls to the file system fail, a call that does not succeed leaves the file as
    it was.  When [Trailer::append] succeeds, the signature was verified for the commitment of the package that it found in the file; if the package has a
    signature for the key already, the file is unchanged; otherwise the bytes of the archive are unchanged, and the new file is opened as
    the same package, with the same manifest, that has all the signatures it had and the new one, with its canonical tag. *)
Theorem append_endorses `{V : VarInt} `{!VarIntOk V} `{H : Hashing} `{E : Ed25519} `{P : PureEd25519} `{D : Der} `{!DerOk D} `{MJ : ManifestJson} `{RS : ReadSource Section_}
    (depth : nat) (signer : AnyVerifyingKey) (signature : AnySignature) (f : Files) :
  match append depth signer signature f with
  | (f', Ready _) => endorsed depth signer signature (fl_path f) (fl_path f')
  | (f', _) => fl_path f' = fl_path f
  end.
Proof.
  enough (post (append depth signer signature) f (file_after (fl_path f) (fun f' _ => endorsed depth signer signature (fl_path f) (fl_path f')))) as Hp.
  { unfold post in Hp. by destruct (append depth signer signature f) as [f' [x|e| |]]. }
  unfold append. eapply after_bind; [apply call_leaves|]. intros f1 [] P1 _. rewrite <- P1.
  eapply after_bind; [apply on_path_opened|]. intros f2 p P2 (sv & rep & ar & Ex & Hrep). rewrite <- P2 in *.
  eapply after_bind; [apply leaves_lift|]. intros f3 needed _ [-> En]. eapply after_bind; [apply leaves_lift|]. intros f4 c _ [-> Ec].
  eapply after_bind; [apply leaves_lift|]. intros f5 s _ [-> Es].
  destruct (needs_inv _ _ _ En) as [Hed (m & Em & Hneeded)].
  assert (rep = Some (Z.of_nat (length (fl_path f2)))) as ->.
  { destruct (local_opened _ _ _ _ _ _ Ex) as [c' Ho]. destruct Hrep as [->|]; [|done]. by destruct (di_size _ _ _ _ (ol_trailer _ _ _ _ _ Ho) Hed). }
  destruct needed; cbn [negb].
  2: { apply post_ret. exists sv, ar, p, c, m, s. split; [done|]. split; [done|]. split; [done|]. split; [done|].
       destruct (BTreeMap_get key_cmp signer m); [done|]. by rewrite bool_decide_false in Hneeded by by intros []. }
  assert (BTreeMap_get key_cmp signer m = None) as Hn by (destruct (BTreeMap_get key_cmp signer m); [by rewrite bool_decide_true in Hneeded|done]).
  eapply after_bind; [apply leaves_lift|]. intros f6 record _ [-> Er]. destruct (Z.ltb_spec MAX_REGION (Z.of_nat (length (raw (pk_trailer p))) + 10 + Z.of_nat (length record))) as [|Hmax]; [done|].
  eapply after_bind; [apply leaves_lift|]. intros f7 base_len _ [-> Hb].
  eapply after_bind; [apply open_prefix_data|]. intros f8 source P8 Hsrc. rewrite <- P8 in *.
  eapply after_bind; [apply new_leaves|]. intros f9 [] P9 Ht9. rewrite <- P9 in *.
  eapply after_bind; [apply or_else_leaves; [by apply write_region_tmp|apply rollback_leaves]|]. intros f10 [] P10 [Ht10 Hlen]. rewrite <- P10 in *.
  eapply post_mono; [apply save_after|]. intros f' [[]|e| |]; cbn [file_after]; [|done..]. intros ->. rewrite Ht10. cbn [default from_option id]. rewrite Hsrc, footer_region.
  eapply endorsed_file; try done. destruct (start (pk_trailer p)); [by injection Hb|]. destruct (pk_size p); [by injection Hb|done].
Qed.
