(* ===== verification/MerkleChecks.v ===== *)
(** * What checking a package keeps

    The theorems on MerkleExpected.v.  The paths that were checked make up a tree that agrees with the archive ([agrees]); filtering by it keeps
    exactly the files that a check has claimed ([keep_checked_exact]); and a file with the right stem can be missed ([with_stem_misses]). *)
From stdpp Require Import sorting.
From S2P Require Import Prelude RustStr BTree SquashFormat SquashBlocks SquashTree SquashData SquashIo SquashImage MerkleVarint MerkleArchive MerkleBytes MerkleHash MerkleCopy MerkleVerify MerkleWrite MerkleRead MerkleTree MerkleExpected.

Local Open Scope rust_scope.

(** ** Names and paths *)

(** A name that is one component of a path. *)
Definition plain (name : bytes) : Prop := name ≠ [] /\ (slash ∉ name) /\ name ≠ dot /\ name ≠ dotdot.

Lemma piece_plain name : plain name -> piece name = Some (Normal name).
Proof. intros (H1 & _ & H2 & H3). unfold piece. by rewrite !bool_decide_eq_false_2 by done. Qed.

Lemma omap_plain names : Forall plain names -> omap piece names = map Normal names.
Proof. induction 1 as [|n ns Hn _ IH]; csimpl; [done|]. by rewrite piece_plain, IH. Qed.

Lemma split_slash_snoc p n : slash ∉ n -> split_slash (p ++ slash :: n) = split_slash p ++ [n].
Proof.
  intros Hn. induction p as [|c p IH]; cbn [app split_slash].
  - rewrite bool_decide_true by done. by rewrite split_slash_plain.
  - case_bool_decide; [by rewrite IH|]. rewrite IH. by destruct (split_slash p) as [|q qs] eqn:E; [by apply split_slash_nonempty in E|].
Qed.

Lemma omap_snoc {A B} (f : A -> option B) l x y : f x = Some y -> omap f (l ++ [x]) = omap f l ++ [y].
Proof. intros E. rewrite omap_app. csimpl. by rewrite E. Qed.

(** A plain name behind a path is one component more. *)
Lemma components_join p n : plain n -> components (path_join p n) = components p ++ [Normal n].
Proof.
  intros Hn. pose proof (piece_plain n Hn) as Hp. destruct Hn as (H1 & H2 & H3 & H4). unfold path_join.
  rewrite bool_decide_eq_false_2 by (destruct n as [|c n]; [done|]; intros [= ->]; apply H2; left).
  destruct (bool_decide (p = [])) eqn:Ep; [apply bool_decide_eq_true_1 in Ep as ->|apply bool_decide_eq_false_1 in Ep; destruct (bool_decide (last p = Some slash)) eqn:El]; cbn [orb app].
  - unfold components. rewrite split_slash_plain by done. rewrite !bool_decide_eq_false_2 by done. cbn. by rewrite Hp.
  - apply bool_decide_eq_true_1 in El. apply last_Some in El as (q & ->). rewrite <- app_assoc. cbn [app]. unfold components.
    rewrite (split_slash_snoc q n), (split_slash_snoc q []) by (done || apply not_elem_of_nil). destruct (split_slash q) as [|a l] eqn:Eq; [by apply split_slash_nonempty in Eq|]. cbn [app].
    rewrite !(bool_decide_eq_false_2 (l ++ [_] = [])) by by destruct l. rewrite <- app_assoc. f_equal. change (a :: l ++ [n]) with ((a :: l) ++ [n]). change (a :: l ++ [[]]) with ((a :: l) ++ [[]]).
    rewrite (omap_snoc _ _ _ _ Hp), omap_app. cbn. by rewrite app_nil_r.
  - unfold components. rewrite split_slash_snoc by done. destruct (split_slash p) as [|a l] eqn:Eq; [by apply split_slash_nonempty in Eq|]. cbn [app].
    rewrite (bool_decide_eq_false_2 (l ++ [_] = [])) by by destruct l. change (a :: l ++ [n]) with ((a :: l) ++ [n]). rewrite (omap_snoc _ _ _ _ Hp), app_assoc. f_equal. f_equal.
    destruct (bool_decide (a = [])) eqn:Ea; [|done]. apply bool_decide_eq_true_1 in Ea as ->. destruct l as [|b l]; [|done].
    destruct p as [|c p]; [done|]. cbn [split_slash] in Eq. case_bool_decide; [injection Eq as Eq; by apply split_slash_nonempty in Eq|]. by destruct (split_slash p).
Qed.

Lemma segments_join p n : plain n -> segments (path_join p n) = segments p ++ [n].
Proof. intros Hn. unfold segments. rewrite components_join by done. by rewrite omap_app. Qed.

(** Names joined from the right, as [filter] joins them. *)
Definition joins (names : list bytes) (p : bytes) : bytes := foldr path_join p names.

Lemma split_joins names n : Forall plain names -> plain n -> split_slash (joins names n) = names ++ [n] /\ head (joins names n) ≠ Some slash.
Proof.
  intros HF Hn. induction HF as [|m names Hm _ IH]; cbn [joins foldr app].
  - destruct Hn as (H1 & H2 & _). split; [by apply split_slash_plain|]. destruct n as [|c n]; [done|]. intros [= ->]. apply H2. left.
  - destruct IH as [IHs IHh]. fold (joins names n). destruct Hm as (H1 & H2 & _). unfold path_join. rewrite bool_decide_eq_false_2 by done.
    rewrite (bool_decide_eq_false_2 (m = [])) by done. rewrite (bool_decide_eq_false_2 (last m = Some slash)).
    2: { intros (q & ->)%last_Some. apply H2, elem_of_app. right. left. }
    cbn [orb]. rewrite split_slash_app, IHs by done. split; [done|]. destruct m as [|c m]; [done|]. intros [= ->]. apply H2. left.
Qed.

Lemma segments_joins names n : Forall plain names -> plain n -> segments (joins names n) = names ++ [n].
Proof.
  intros HF Hn. destruct (split_joins names n HF Hn) as [Es _]. unfold segments, components. rewrite Es.
  assert (Forall plain (names ++ [n])) as HF' by (apply Forall_app; split; [done|by constructor]). destruct (names ++ [n]) as [|a l] eqn:E; [by destruct names|].
  pose proof (Forall_inv HF') as (H1 & _ & H2 & _). rewrite !bool_decide_eq_false_2 by done. cbn [app]. rewrite omap_plain by done. rewrite <- E. clear.
  induction (names ++ [n]) as [|x l IH]; [done|]. csimpl. by rewrite IH.
Qed.

(** ** Entries at a path *)

Section at_path.
Context {S : Type}.
Implicit Types (d sub : DirectoryContents S).

Definition at_path (names : list bytes) d : option (Entry S) := get_segments names (Some d) None.

Lemma get_path_at p d : get_path p d = at_path (segments p) d.
Proof. done. Qed.

Lemma at_path_cons x rest d : at_path (x :: rest) d =
  if utf8_valid x then match rest with [] => get x d | _ => (get x d ≫= as_directory) ≫= at_path rest end else None.
Proof.
  unfold at_path. cbn [get_segments]. destruct (utf8_valid x) eqn:Hx; [|done]. destruct rest as [|y rest]; [done|].
  destruct (get x d) as [e|]; cbn [mbind option_bind].
  - destruct (as_directory e) as [sub|]; cbn; by destruct (utf8_valid y).
  - cbn. by destruct (utf8_valid y).
Qed.

Lemma at_path_app p q d : p ≠ [] -> q ≠ [] -> at_path (p ++ q) d = (at_path p d ≫= as_directory) ≫= at_path q.
Proof.
  intros Hp Hq. revert d. induction p as [|x p IH]; [done|]. intros d. cbn [app]. rewrite !at_path_cons. destruct (utf8_valid x); [|done].
  destruct p as [|y p]; [cbn [app]; by destruct q|]. cbn [app]. destruct (get x d ≫= as_directory) as [sub|]; [|done]. by apply IH.
Qed.
End at_path.

(** ** The tree of checked paths *)

Section checks.
Context {S : Type}.
Implicit Types (d sub : DirectoryContents S) (k : DirectoryContents unit).

(** Every path in [k] is one of [d]: a directory of directories, a file of other entries. *)
Definition agrees k d : Prop := forall names,
  match at_path names k with
  | None => True
  | Some e => match e_contents e with
              | Missing => False
              | File _ => exists e', at_path names d = Some e' /\ as_directory e' = None
              | Directory _ => exists sub, at_path names d ≫= as_directory = Some sub
              end
  end.

(** A check has claimed the file at the path. *)
Definition claimed (names : list bytes) k : Prop := exists h, at_path names k = Some (mkEntry h (File tt)).

Lemma at_path_new names : at_path names (DirectoryContents_new (S := unit)) = None.
Proof. destruct names as [|x rest]; [done|]. rewrite at_path_cons. destruct (utf8_valid x); [|done]. by destruct rest. Qed.

Lemma agrees_new d : agrees DirectoryContents_new d.
Proof. intros names. by rewrite at_path_new. Qed.

Lemma agrees_sub k d x h ksub sub : agrees k d -> utf8_valid x = true -> get x k = Some (mkEntry h (Directory ksub)) -> get x d ≫= as_directory = Some sub -> agrees ksub sub.
Proof.
  intros Ha Hu Hk Hd names. destruct names as [|y rest]; [done|]. specialize (Ha (x :: y :: rest)).
  rewrite (at_path_cons x (y :: rest) k), (at_path_cons x (y :: rest) d), Hu, Hk, Hd in Ha. exact Ha.
Qed.

(** A tree with one directory replaced. *)
Lemma at_path_replaced x names name ksub k : at_path (x :: names) (replaced name (Directory ksub) k) =
  if decide (x = name) then (if utf8_valid x then match names with [] => Some (mkEntry None (Directory ksub)) | _ => at_path names ksub end else None)
  else at_path (x :: names) k.
Proof.
  rewrite !at_path_cons. unfold replaced. destruct (decide (x = name)) as [->|Hne].
  - by rewrite directory_get_insert.
  - by rewrite directory_get_insert_ne.
Qed.

Lemma agrees_insert parents file k d e : agrees k d -> at_path (parents ++ [file]) d = Some e -> as_directory e = None ->
  exists k', insert_segments parents file (Entry_file tt) k = (k', Ok tt) /\ agrees k' d /\ (forall names, claimed names k' <-> claimed names k \/ names = parents ++ [file]).
Proof.
  revert k d. induction parents as [|name parents IH]; intros k d Ha Hp He; cbn [app] in Hp; rewrite at_path_cons in Hp.
  - destruct (utf8_valid file) eqn:Hu; [|done]. eexists. split; [done|].
    set (k' := mkDirectory (BTreeMap_insert bytes_cmp file (Entry_file tt) (d_entries k)) (source_end k) (d_order k)).
    assert (forall x rest, at_path (x :: rest) k' = if decide (x = file) then (if utf8_valid x then match rest with [] => Some (Entry_file tt) | _ => None end else None) else at_path (x :: rest) k) as Hk'.
    { intros x rest. rewrite !at_path_cons. unfold k'. destruct (decide (x = file)) as [->|Hne]; [rewrite directory_get_insert; by destruct rest|by rewrite directory_get_insert_ne]. }
    split.
    + intros [|x rest]; [done|]. rewrite Hk'. specialize (Ha (x :: rest)). destruct (decide (x = file)) as [->|]; [|done]. rewrite Hu. destruct rest as [|y rest]; [|done].
      cbn [e_contents Entry_file Entry_new]. rewrite at_path_cons, Hu. by exists e.
    + intros [|x rest]; [split; [by intros [h ?]|by intros [[h ?]|?]]|]. unfold claimed. setoid_rewrite Hk'. destruct (decide (x = file)) as [->|Hne].
      2: { split; [by left|]. intros [?|[= -> ->]]; [done|done]. }
      rewrite Hu. destruct rest as [|y rest]; [by split; [right|eexists]|]. split; [by intros [h ?]|]. intros [[h Hc]|?]; [exfalso|done].
      specialize (Ha [file]). rewrite !at_path_cons, Hu in *. destruct (get file k) as [[h' [|f|ksub]]|]; [done|done| |done]. cbn in Ha. destruct Ha as [sub Ha]. rewrite Hp in Ha. cbn in Ha. congruence.
  - destruct (utf8_valid name) eqn:Hu; [|done]. destruct (parents ++ [file]) as [|y l] eqn:El; [by destruct parents|]. rewrite <- El in *.
    destruct (get name d ≫= as_directory) as [sub|] eqn:Hd; [|done]. cbn [mbind option_bind] in Hp. rewrite insert_segments_step by done.
    assert (exists ksub, e_contents (step_into name k) = Directory ksub /\ agrees ksub sub /\
      forall names, names ≠ [] -> claimed names ksub <-> claimed (name :: names) k) as (ksub & -> & Hks & Hcl).
    { unfold step_into. destruct (get name k) as [[h [|f|ksub]]|] eqn:Hk; cbn [default from_option id e_contents].
      - specialize (Ha [name]). by rewrite !at_path_cons, Hu, Hk in Ha.
      - specialize (Ha [name]). rewrite !at_path_cons, Hu, Hk in Ha. cbn in Ha. destruct Ha as (e' & Hg & Hn). rewrite Hg in Hd. cbn in Hd. congruence.
      - exists ksub. split; [done|]. split; [by eapply agrees_sub|]. intros names Hne. unfold claimed. split; intros [h0 Hc]; exists h0; revert Hc; rewrite (at_path_cons name), Hu, Hk; by destruct names.
      - exists DirectoryContents_new. split; [done|]. split; [apply agrees_new|]. intros names Hne. unfold claimed. split; intros [h0 Hc]; exists h0; revert Hc; rewrite (at_path_cons name), Hu, Hk, at_path_new; by destruct names. }
    destruct (IH ksub sub Hks Hp He) as (ksub' & -> & Hks' & Hcl'). exists (replaced name (Directory ksub') k). split; [done|]. split.
    + intros [|x rest]; [done|]. rewrite at_path_replaced. specialize (Ha (x :: rest)). destruct (decide (x = name)) as [->|]; [|done]. rewrite Hu. destruct rest as [|z rest].
      * cbn [e_contents]. rewrite at_path_cons, Hu. by exists sub.
      * rewrite (at_path_cons name (z :: rest) d), Hu, Hd. apply Hks'.
    + intros [|x rest]; [split; [by intros [h ?]|by intros [[h ?]|?]]|]. destruct (decide (x = name)) as [->|Hne].
      * destruct rest as [|z rest].
        -- split; [intros [h Hc]; by rewrite at_path_replaced, decide_True, Hu in Hc by done|]. intros [[h Hc]|[= E]]; [exfalso|by destruct parents].
           specialize (Ha [name]). rewrite Hc in Ha. cbn [e_contents] in Ha. destruct Ha as (e' & Hg & Hn). rewrite at_path_cons, Hu in Hg. rewrite Hg in Hd. cbn in Hd. congruence.
        -- rewrite <- (Hcl (z :: rest)) by done. transitivity (claimed (z :: rest) ksub'); [unfold claimed; by setoid_rewrite at_path_replaced; rewrite decide_True, Hu by done|].
           rewrite Hcl'. split; (intros [?|E]; [by left|right]); [cbn [app]; by rewrite E|by injection E].
      * unfold claimed. setoid_rewrite at_path_replaced. rewrite decide_False by done. split; [by left|]. by intros [?|[= -> _]].
Qed.

(** ** The checks *)

(** A step that claims some files more and stays inside the archive. *)
Definition claims (added : list bytes -> Prop) (x x' : Expected S) : Prop :=
  ex_dir x' = ex_dir x /\ agrees (keep x') (ex_dir x') /\ forall names, claimed names (keep x') <-> claimed names (keep x) \/ added names.

(** Components of a path that ends in a name. *)
Lemma segments_last path file : last (components path) = Some (Normal file) -> segments path = omap segment (removelast (components path)) ++ [file].
Proof. intros (l & El)%last_Some. unfold segments. by rewrite El, removelast_last, omap_app. Qed.

Lemma expected_insert_claims path x x' e : agrees (keep x) (ex_dir x) -> get_path path (ex_dir x) = Some e -> as_directory e = None ->
  Expected_insert path x = (x', Ok tt) -> claims (eq (segments path)) x x'.
Proof.
  intros Ha Hp He Ei. unfold Expected_insert, insert_path in Ei. destruct (last (components path)) as [[| | |file]|] eqn:El; [done..| |done]. destruct (utf8_valid file); [|done].
  rewrite get_path_at, (segments_last _ _ El) in Hp. destruct (agrees_insert _ _ _ _ _ Ha Hp He) as (k' & Ek & Hk' & Hcl). rewrite Ek in Ei. injection Ei as <-.
  split; [done|]. split; [done|]. intros names. cbn [keep]. rewrite Hcl, (segments_last _ _ El). split; (intros [?|?]; [by left|by right]).
Qed.

Lemma check_file_claims path x x' : agrees (keep x) (ex_dir x) -> check_file path x = (x', Ok tt) -> claims (eq (segments path)) x x'.
Proof.
  intros Ha. unfold check_file. destruct (get_path path (ex_dir x)) as [e|] eqn:Ep; [|done]. cbn. destruct (as_file e) as [f|] eqn:Ef; [|done].
  apply expected_insert_claims with e; [done|done|]. by destruct e as [h [| |]].
Qed.

Lemma insert_files_claims paths x x' : agrees (keep x) (ex_dir x) ->
  (forall p, p ∈ paths -> last p ≠ Some slash -> exists e, get_path p (ex_dir x) = Some e /\ as_directory e = None) -> insert_files paths x = (x', Ok tt) ->
  claims (fun names => exists p, p ∈ paths /\ last p ≠ Some slash /\ names = segments p) x x'.
Proof.
  revert x. induction paths as [|p paths IH]; intros x Ha Hp Ei; cbn [insert_files] in Ei.
  - injection Ei as <-. split; [done|]. split; [done|]. intros names. split; [by left|]. by intros [?|(p & ?%elem_of_nil & _)].
  - case_bool_decide as El.
    + destruct (IH x Ha) as (E1 & A1 & C1); [intros q Hq; apply Hp; by right|done|]. split; [done|]. split; [done|]. intros names. rewrite C1. f_equiv.
      split; intros (q & Hq & Hs & ->); exists q; [by split; [right|]|]. by apply elem_of_cons in Hq as [->|Hq].
    + destruct (Hp p ltac:(left) El) as (e & He & Hd). destruct (Expected_insert p x) as [x1 [[]|err]] eqn:Ex; [|done].
      destruct (expected_insert_claims p x x1 e Ha He Hd Ex) as (E1 & A1 & C1).
      destruct (IH x1 A1) as (E2 & A2 & C2); [intros q Hq; rewrite E1; apply Hp; by right|done|]. split; [congruence|]. split; [done|]. intros names. rewrite C2, C1. split.
      * intros [[?|<-]|(q & Hq & Hs & ->)]; [by left|right; exists p; by split; [left|]|right; exists q; by split; [right|]].
      * intros [?|(q & [->|Hq]%elem_of_cons & Hs & ->)]; [by do 2 left|left; by right|right; by exists q].
Qed.

(** All names of the tree are plain, and the maps are sorted. *)
Inductive clean : DirectoryContents S -> Prop :=
| clean_directory es stop order : BTreeMap_wf bytes_cmp es -> Forall (fun x => plain x.1 /\ utf8_valid x.1 = true) es ->
    (forall name h sub, (name, mkEntry h (Directory sub)) ∈ es -> clean sub) -> clean (mkDirectory es stop order).

Lemma map_elem_get {A} (k : bytes) (v : A) m : BTreeMap_wf bytes_cmp m -> (k, v) ∈ m -> BTreeMap_get bytes_cmp k m = Some v.
Proof.
  unfold BTreeMap_wf. induction m as [|[x w] m IH]; [by intros _ ?%elem_of_nil|]. cbn [map fst BTreeMap_get]. intros Hw [[= -> ->]|Hin]%elem_of_cons.
  - by rewrite (proj2 (is_eq_true bytes_cmp bytes_cmp_eq x x) eq_refl).
  - inversion Hw as [|? ? Hs HF]; subst. rewrite Forall_forall in HF. assert (keys_lt bytes_cmp x k) as Hlt by (apply HF, list_elem_of_fmap; by exists (k, v)).
    destruct (is_eq (bytes_cmp k x)) eqn:E; [|by apply IH]. apply (is_eq_true bytes_cmp bytes_cmp_eq) in E as ->. unfold keys_lt in Hlt.
    by rewrite (proj2 (bytes_cmp_eq x x) eq_refl) in Hlt.
Qed.

Lemma clean_elem d name e : clean d -> (name, e) ∈ d_entries d -> plain name /\ at_path [name] d = Some e.
Proof.
  intros Hc Hin. destruct Hc as [es stop order Hw HF _]. cbn [d_entries] in Hin. rewrite Forall_forall in HF. destruct (HF _ Hin) as [Hp Hu]. split; [done|].
  rewrite at_path_cons. cbn [fst] in Hu. rewrite Hu. by apply map_elem_get.
Qed.

Lemma clean_get d name sub : clean d -> get name d ≫= as_directory = Some sub -> plain name /\ clean sub.
Proof.
  intros Hc Hg. destruct (get name d) as [[h c]|] eqn:E; [|done]. cbn in Hg. destruct c as [| |sub']; try done. injection Hg as ->. apply map_get_elem in E.
  destruct (clean_elem d _ _ Hc E) as [Hp _]. split; [done|]. destruct Hc as [es stop order _ _ Hs]. by eapply Hs.
Qed.

(** What is found in a clean tree has a plain path. *)
Lemma clean_path d names e : clean d -> at_path names d = Some e -> Forall plain names /\ forall sub, as_directory e = Some sub -> clean sub.
Proof.
  revert d. induction names as [|x names IH]; intros d Hc Hp; [done|]. rewrite at_path_cons in Hp. destruct (utf8_valid x); [|done]. destruct names as [|y names].
  - destruct (clean_elem d x e Hc) as [Hx _]; [by apply map_get_elem|]. split; [by constructor|]. intros sub Hs. apply (clean_get d x sub Hc). by rewrite Hp.
  - destruct (get x d ≫= as_directory) as [sub|] eqn:Hg; [|done]. destruct (clean_get d x sub Hc Hg) as [Hx Hsub]. destruct (IH sub Hsub Hp) as [HF Hd]. split; [by constructor|done].
Qed.

(** The path of a directory ends in a slash, that of a file does not. *)
Lemma join_last p n : plain n -> exists c, last (path_join p n) = Some c /\ c ≠ slash.
Proof.
  intros (H1 & H2 & _). destruct (last n) as [c|] eqn:El; [|by apply last_None in El]. exists c. split; [|intros ->; apply H2, last_Some_elem_of; done].
  unfold path_join. rewrite bool_decide_eq_false_2 by (destruct n as [|b n]; [done|]; intros [= ->]; apply H2; left). destruct (_ || _); [by rewrite last_app, El|].
  change (p ++ slash :: n) with (p ++ [slash] ++ n). by rewrite !last_app, El.
Qed.

Lemma join_slash p n : plain n -> last (path_join (path_join p n) []) = Some slash.
Proof.
  intros Hn. destruct (join_last p n Hn) as (c & El & Hc). unfold path_join at 1. cbn [head]. rewrite bool_decide_eq_false_2 by done.
  rewrite (bool_decide_eq_false_2 (path_join p n = [])) by (intros E; by rewrite E in El).
  rewrite (bool_decide_eq_false_2 (last _ = _)) by (rewrite El; by intros [= ->]). cbn [orb]. by rewrite last_app.
Qed.

(** The paths that [file_paths] gives: those of the entries that are not directories, and directories with a slash. *)
Lemma file_paths_spec d : clean d -> forall prefix q, q ∈ file_paths prefix d -> last q ≠ Some slash ->
  exists names e, segments q = segments prefix ++ names /\ names ≠ [] /\ at_path names d = Some e /\ as_directory e = None.
Proof.
  enough (forall e : Entry S, forall d, as_directory e = Some d -> clean d -> forall prefix q, q ∈ file_paths prefix d -> last q ≠ Some slash ->
    exists names e, segments q = segments prefix ++ names /\ names ≠ [] /\ at_path names d = Some e /\ as_directory e = None) as Hall by (by apply (Hall (mkEntry None (Directory d)))).
  intros e. induction e as [h|h f|h es stop order IH] using tree_ind; intros d' Hd; [done|done|]. injection Hd as <-. intros Hc prefix q Hq Hl. cbn [file_paths] in Hq.
  apply list_elem_of_In, in_concat in Hq as (l & Hin & Hq). apply in_map_iff in Hin as ([name [h' c]] & <- & Hx). apply list_elem_of_In in Hx, Hq. cbn [fst snd] in Hq.
  destruct (clean_elem _ name _ Hc Hx) as [Hp Hat]. pose proof (segments_join prefix name Hp) as Hseg.
  destruct c as [|f|sub]; [apply list_elem_of_singleton in Hq as ->; exists [name], (mkEntry h' Missing); done|apply list_elem_of_singleton in Hq as ->; exists [name], (mkEntry h' (File f)); done|].
  apply elem_of_cons in Hq as [->|Hq]; [by rewrite join_slash in Hl|].
  assert (clean sub) as Hsub by (inversion Hc; eauto). destruct (IH name _ Hx sub eq_refl Hsub _ q Hq Hl) as (names & e & Es & Hne & He & Hd).
  exists (name :: names), e. split; [by rewrite Es, Hseg, <- app_assoc|]. split; [done|]. split; [|done]. change (name :: names) with ([name] ++ names). by rewrite at_path_app, Hat.
Qed.

Lemma file_paths_all names d e : clean d -> names ≠ [] -> at_path names d = Some e -> as_directory e = None ->
  forall prefix, exists q, q ∈ file_paths prefix d /\ last q ≠ Some slash /\ segments q = segments prefix ++ names.
Proof.
  revert d. induction names as [|x names IH]; [done|]. intros [es stop order] Hc _ Hp He prefix. rewrite at_path_cons in Hp. destruct (utf8_valid x); [|done].
  assert (forall q y, (x, y) ∈ es -> q ∈ (let path := path_join prefix x in match y with mkEntry _ (Directory sub) => path_join path [] :: file_paths path sub | _ => [path] end) ->
    q ∈ file_paths prefix (mkDirectory es stop order)) as Hin.
  { intros q y Hy Hq. cbn [file_paths]. apply list_elem_of_In, in_concat. eexists. split; [|by apply list_elem_of_In, Hq]. apply in_map_iff. exists (x, y). split; [done|]. by apply list_elem_of_In. }
  destruct names as [|y names].
  - assert ((x, e) ∈ es) as Hx by by apply map_get_elem. destruct (clean_elem _ x e Hc Hx) as [Hpl _]. exists (path_join prefix x). split; [|split; [|by apply segments_join]].
    + apply (Hin _ e Hx). destruct e as [h [|f|sub]]; [left|left|done].
    + destruct (join_last prefix x Hpl) as (c & -> & Hne). by intros [= ->].
  - destruct (get x (mkDirectory es stop order) ≫= as_directory) as [sub|] eqn:Hg; [|done]. destruct (clean_get _ x sub Hc Hg) as [Hpl Hsub].
    destruct (get x (mkDirectory es stop order)) as [z|] eqn:Hz; [|done]. apply map_get_elem in Hz. cbn in Hg.
    destruct (IH sub Hsub ltac:(done) Hp He (path_join prefix x)) as (q & Hq & Hl & Es). exists q. split; [|split; [done|]].
    + apply (Hin _ z Hz). destruct z as [h [|f|sub']]; [done|done|]. injection Hg as ->. by right.
    + by rewrite Es, segments_join, <- app_assoc.
Qed.

(** The entries below a path that are not directories. *)
Definition below (path : bytes) d (names : list bytes) : Prop :=
  exists rest e, rest ≠ [] /\ names = segments path ++ rest /\ at_path names d = Some e /\ as_directory e = None.

Lemma check_dir_claims path x x' : clean (ex_dir x) -> agrees (keep x) (ex_dir x) -> check_dir path x = (x', Ok tt) -> claims (below path (ex_dir x)) x x'.
Proof.
  intros Hc Ha. unfold check_dir. rewrite get_path_at. destruct (at_path (segments path) (ex_dir x) ≫= as_directory) as [sub|] eqn:Hs; [|done]. intros Ei.
  assert (segments path ≠ []) as Hne by by intros E; rewrite E in Hs. assert (clean sub) as Hsub.
  { destruct (at_path (segments path) (ex_dir x)) as [e|] eqn:Hp; [|done]. by apply (clean_path _ _ _ Hc Hp). }
  assert (forall rest, rest ≠ [] -> at_path (segments path ++ rest) (ex_dir x) = at_path rest sub) as Hat by (intros rest Hr; by rewrite at_path_app, Hs).
  destruct (insert_files_claims (file_paths path sub) x x' Ha) as (E1 & A1 & C1); [|done|].
  { intros p Hp Hl. destruct (file_paths_spec sub Hsub path p Hp Hl) as (rest & e & Es & Hr & He & Hd). exists e. by rewrite get_path_at, Es, Hat. }
  split; [done|]. split; [done|]. intros names. rewrite C1. f_equiv. split.
  - intros (p & Hp & Hl & ->). destruct (file_paths_spec sub Hsub path p Hp Hl) as (rest & e & Es & Hr & He & Hd). exists rest, e. by rewrite Es, Hat.
  - intros (rest & e & Hr & -> & He & Hd). rewrite Hat in He by done. destruct (file_paths_all rest sub e Hsub Hr He Hd path) as (q & Hq & Hl & Es). by exists q.
Qed.
(** The directory a stem is looked up in, and the stem. *)
Definition parent_path (path : bytes) : bytes := path_of (removelast (components path)).
Definition stem_of (path : bytes) : bytes := if bool_decide (removelast (components path) = []) then path else from_option component_text [] (last (components path)).

(** A file next to the path that has its stem and a valid extension. *)
Definition has_stem (path : bytes) (valid : option bytes -> bool) d (names : list bytes) : Prop :=
  exists name f, names = segments (parent_path path) ++ [name] /\ (name = stem_of path \/ file_stem name = Some (stem_of path)) /\
    valid (extension name) = true /\ at_path names d ≫= as_file = Some f.

Lemma take_while_elem {A} (f : A -> bool) x l : x ∈ take_while f l -> x ∈ l /\ f x = true.
Proof.
  induction l as [|y l IH]; cbn; [by intros ?%elem_of_nil|]. destruct (f y) eqn:Ey; [|by intros ?%elem_of_nil].
  intros [->|Hx]%elem_of_cons; [by split; [left|]|]. destruct (IH Hx). by split; [right|].
Qed.

Lemma with_stem_elem stem d name e : (name, e) ∈ with_stem stem d -> (name, e) ∈ d_entries d /\ (name = stem \/ file_stem name = Some stem).
Proof.
  unfold with_stem. intros [Hg|Ht]%elem_of_app.
  - destruct (get stem d) as [e'|] eqn:E; [|by apply elem_of_nil in Hg]. apply list_elem_of_singleton in Hg as [= -> ->]. split; [by apply map_get_elem|by left].
  - apply take_while_elem in Ht as [Hin Hs]. apply bool_decide_eq_true_1 in Hs. apply list_elem_of_In, filter_In in Hin as [Hin _]. split; [by apply list_elem_of_In|by right].
Qed.

Lemma only_valid_Ok valid (l : list (bytes * Entry S)) acc name : only_valid valid l acc = Ok name ->
  acc = Some name \/ exists e, (name, e) ∈ l /\ valid (extension name) = true.
Proof.
  revert acc. induction l as [|[n e] l IH]; intros acc; cbn [only_valid]; [destruct acc; [intros [= ->]; by left|done]|].
  destruct (valid (extension n)) eqn:Ev; [destruct acc; [done|]|]; intros E; destruct (IH _ E) as [Hacc|(e' & Hin & Hv)].
  - injection Hacc as ->. right. exists e. by split; [left|].
  - right. exists e'. by split; [right|].
  - by left.
  - right. exists e'. by split; [right|].
Qed.

Lemma check_stem_claims path valid x x' : clean (ex_dir x) -> agrees (keep x) (ex_dir x) -> is_Some (file_name path) -> check_stem path valid x = (x', Ok tt) ->
  exists names, has_stem path valid (ex_dir x) names /\ claims (eq names) x x'.
Proof.
  intros Hc Ha [n0 Hn0]. unfold check_stem.
  assert (forall dir stem, stem = stem_of path -> clean dir -> (forall name, at_path (segments (parent_path path) ++ [name]) (ex_dir x) = at_path [name] dir) ->
    match only_valid valid (List.filter (fun y => bool_decide (is_Some (as_file y.2))) (with_stem stem dir)) None with
    | Err e => (x, Err e)
    | Ok name => Expected_insert (with_file_name path name) x
    end = (x', Ok tt) -> exists names, has_stem path valid (ex_dir x) names /\ claims (eq names) x x') as Hdir.
  { intros dir stem -> Hdir Hat. destruct (only_valid _ _ None) as [name|] eqn:Eo; [|done]. intros Ei. apply only_valid_Ok in Eo as [|(e & Hin & Hv)]; [done|].
    apply list_elem_of_In, filter_In in Hin as [Hin Hf]. apply bool_decide_eq_true_1 in Hf as [f Hf]. cbn in Hf.
    apply list_elem_of_In, with_stem_elem in Hin as [Hin Hst]. destruct (clean_elem _ _ _ Hdir Hin) as [Hpl He].
    exists (segments (parent_path path) ++ [name]). assert (segments (with_file_name path name) = segments (parent_path path) ++ [name]) as Es.
    { unfold with_file_name. rewrite Hn0. by apply segments_join. }
    split; [exists name, f; split; [done|]; split; [done|]; split; [done|]; by rewrite Hat, He|]. rewrite <- Es. apply expected_insert_claims with e; [done| | |done].
    - by rewrite get_path_at, Es, Hat.
    - by destruct e as [h [| |]]. }
  case_bool_decide as Ep.
  - apply Hdir; [unfold stem_of; by rewrite bool_decide_eq_true_2|done|]. intros name. unfold parent_path. by rewrite Ep.
  - destruct (get_path (path_of (removelast (components path))) (ex_dir x) ≫= as_directory) as [dir|] eqn:Ed; [|done]. fold (parent_path path) in Ed. rewrite get_path_at in Ed.
    assert (segments (parent_path path) ≠ []) as Hne by by intros E; rewrite E in Ed. apply Hdir; [unfold stem_of; by rewrite bool_decide_eq_false_2| |].
    + destruct (at_path (segments (parent_path path)) (ex_dir x)) as [e|] eqn:Hp; [|done]. by apply (clean_path _ _ _ Hc Hp).
    + intros name. by rewrite at_path_app, Ed.
Qed.

(** ** Sequences of checks *)

Inductive check : Type :=
| CheckFile (path : bytes)
| CheckDir (path : bytes)
| CheckStem (path : bytes) (valid_extension : option bytes -> bool).

Definition perform (c : check) (x : Expected S) : Expected S * io unit :=
  match c with
  | CheckFile path => check_file path x
  | CheckDir path => check_dir path x
  | CheckStem path valid => check_stem path valid x
  end.

(** The checks up to the first that fails. *)
Fixpoint perform_all (cs : list check) (x : Expected S) : Expected S * io unit :=
  match cs with
  | [] => (x, Ok tt)
  | c :: rest => match perform c x with (x', Ok _) => perform_all rest x' | (x', Err e) => (x', Err e) end
  end.

(** The files that a check asks for. *)
Definition asks d (c : check) (names : list bytes) : Prop :=
  match c with
  | CheckFile path => names = segments path
  | CheckDir path => below path d names
  | CheckStem path valid => has_stem path valid d names
  end.

(** A check is answered: all files of [check_file] and [check_dir], and one of [check_stem]. *)
Definition answered d (P : list bytes -> Prop) (c : check) : Prop :=
  match c with
  | CheckStem _ _ => exists names, asks d c names /\ P names
  | _ => forall names, asks d c names -> P names
  end.

Lemma answered_mono d (P Q : list bytes -> Prop) c : (forall names, P names -> Q names) -> answered d P c -> answered d Q c.
Proof. intros HPQ. destruct c; cbn; [intros Hc names ->; by apply HPQ, Hc|by intros Hc names Hn; apply HPQ, Hc|intros (names & Hn & HP); exists names; auto]. Qed.

Lemma perform_claims c x x' : clean (ex_dir x) -> agrees (keep x) (ex_dir x) -> (forall path valid, c = CheckStem path valid -> is_Some (file_name path)) -> perform c x = (x', Ok tt) ->
  exists added, claims added x x' /\ (forall names, added names -> asks (ex_dir x) c names) /\ answered (ex_dir x) added c.
Proof.
  intros Hc Ha Hn. destruct c as [path|path|path valid]; intros E.
  - eexists. split; [by apply check_file_claims|]. split; [by intros ? <-|by intros ? ->].
  - eexists. split; [by apply check_dir_claims|]. split; intros names Hb; exact Hb.
  - destruct (check_stem_claims path valid x x' Hc Ha (Hn _ _ eq_refl) E) as (names & Hs & Hcl). exists (eq names). split; [done|]. split; [by cbn; intros ? <-|by exists names].
Qed.

Lemma perform_all_claims cs x x' : clean (ex_dir x) -> agrees (keep x) (ex_dir x) -> (forall path valid, CheckStem path valid ∈ cs -> is_Some (file_name path)) ->
  perform_all cs x = (x', Ok tt) ->
  exists added, claims added x x' /\ (forall names, added names -> exists c, c ∈ cs /\ asks (ex_dir x) c names) /\ Forall (answered (ex_dir x) added) cs.
Proof.
  revert x. induction cs as [|c cs IH]; intros x Hc Ha Hn E; cbn [perform_all] in E.
  - injection E as <-. exists (fun _ => False). split; [|split; [done|constructor]]. split; [done|]. split; [done|]. intros names. tauto.
  - destruct (perform c x) as [x1 [[]|]] eqn:E1; [|done]. destruct (perform_claims c x x1 Hc Ha) as (a1 & (D1 & A1 & C1) & S1 & R1); [intros p v ->; apply (Hn p v); left|done|].
    destruct (IH x1) as (a2 & (D2 & A2 & C2) & S2 & R2); [by rewrite D1|done|intros p v Hin; apply (Hn p v); by right|done|]. rewrite D1 in *.
    exists (fun names => a1 names \/ a2 names). split; [|split].
    + split; [done|]. split; [done|]. intros names. rewrite C2, C1. tauto.
    + intros names [H1|H2]; [exists c; split; [left|by apply S1]|]. destruct (S2 names H2) as (c' & Hin & Hq). exists c'. by split; [right|].
    + constructor; [eapply answered_mono; [|exact R1]; by left|]. eapply Forall_impl; [exact R2|]. intros c'. apply answered_mono. by right.
Qed.
(** ** What is kept *)

Lemma kept_ext (f g : bytes -> bool) names : (forall p, f p = g p) -> kept f names = kept g names.
Proof. revert f g. induction names as [|n names IH]; intros f g Hfg; cbn [kept]; [done|]. rewrite Hfg. f_equal. by apply IH. Qed.

Definition known k (path : bytes) : bool := bool_decide (is_Some (get_path path k)).

Lemma kept_known k pre names : Forall plain pre -> Forall plain names ->
  kept (fun p => known k (joins pre p)) names = true <-> names = [] \/ is_Some (at_path (pre ++ names) k).
Proof.
  intros Hpre HF. revert pre Hpre. induction HF as [|n names Hn HF IH]; intros pre Hpre; cbn [kept]; [by split; [left|]|].
  rewrite andb_true_iff. rewrite (kept_ext _ (fun p => known k (joins (pre ++ [n]) p))) by (intros p; unfold joins; by rewrite foldr_app).
  rewrite IH by (apply Forall_app; split; [done|by constructor]). rewrite <- app_assoc. cbn [app]. unfold known. rewrite bool_decide_eq_true, get_path_at, segments_joins by done. split.
  - intros [H1 [->|H2]]; by right.
  - intros [?|H2]; [done|]. destruct names as [|m names]; [by split; [|left]|]. split; [|by right].
    change (n :: m :: names) with ([n] ++ m :: names) in H2. rewrite app_assoc, at_path_app in H2 by (done || by destruct pre).
    destruct (at_path (pre ++ [n]) k); [done|]. by destruct H2.
Qed.

(** A file that is claimed is left as it is, and a file that is left was claimed. *)
Lemma keep_checked_claimed d k : clean d -> Forall (fun x => stored x.2) (d_entries d) -> agrees k d ->
  exists d', keep_checked k d = (d', Ok tt) /\
    (forall names f, at_path names d' ≫= as_file = Some f -> at_path names d ≫= as_file = Some f /\ claimed names k) /\
    (forall names, claimed names k -> exists e, at_path names d = Some e /\ at_path names d' = Some e).
Proof.
  intros Hc Hst Ha. destruct d as [es stop order]. rewrite Forall_forall in Hst. cbn [d_entries] in Hst.
  destruct (filter_entries_spec (known k) es) as (es' & Ees & Hl); [intros n e Hin; exact (Hst _ Hin)|intros n e g Hin; exact (filter_entry_spec e (Hst _ Hin) g)|].
  exists (mkDirectory es' stop order). split; [unfold keep_checked, DirectoryContents_filter; cbn [d_entries]; fold (known k); by rewrite Ees|].
  assert (forall names, names ≠ [] -> filtered_at (kept (known k) names) (at_path names (mkDirectory es stop order)) (at_path names (mkDirectory es' stop order))) as Hf
    by (intros names Hne; by apply left_segments).
  assert (forall names e, names ≠ [] -> at_path names (mkDirectory es stop order) = Some e -> kept (known k) names = true <-> is_Some (at_path names k)) as Hk.
  { intros names e Hne He. destruct (clean_path _ _ _ Hc He) as [HF _]. pose proof (kept_known k [] names ltac:(constructor) HF) as Hkn. cbn [joins foldr app] in Hkn. rewrite Hkn. by split; [intros [?|?]|right]. }
  split.
  - intros names f He. destruct names as [|n names]; [done|]. specialize (Hf (n :: names) ltac:(done)). specialize (Hk (n :: names)). specialize (Ha (n :: names)).
    destruct (at_path (n :: names) (mkDirectory es' stop order)) as [e'|]; [|done]. cbn in He. destruct (at_path (n :: names) (mkDirectory es stop order)) as [e|] eqn:Ee; [|done].
    destruct e as [h c], e' as [h' c']. unfold as_file in He. cbn [e_contents] in He. destruct c' as [|f'|sub']; [done| |done]. injection He as ->.
    unfold filtered_at in Hf. destruct Hf as [_ Hf]. destruct (kept (known k) (n :: names)) eqn:Ek; [|done]. destruct Hf as [Ht Hf]. destruct c as [|g|sub]; [done| |done].
    specialize (Hf g eq_refl). injection Hf as ->. split; [done|]. destruct (proj1 (Hk _ ltac:(done) eq_refl) eq_refl) as [[hk ck] Hek]. unfold claimed. rewrite Hek in Ha |- *. cbn [e_contents] in Ha.
    destruct ck as [|[]|ksub]; [done|by exists hk|]. by destruct Ha as [sub Ha].
  - intros names [hk Hek]. destruct names as [|n names]; [done|]. pose proof (Ha (n :: names)) as Hn. rewrite Hek in Hn. cbn [e_contents] in Hn. destruct Hn as (e & He & Hd).
    exists e. split; [done|]. specialize (Hf (n :: names) ltac:(done)). rewrite He, (proj2 (Hk (n :: names) e ltac:(done) He)) in Hf by by eexists.
    destruct (at_path (n :: names) (mkDirectory es' stop order)) as [e'|]; [|done]. destruct e as [h c], e' as [h' c']. destruct Hf as (Eh & Et & Hfile). cbn [e_hash e_contents] in *. subst h'.
    destruct c as [|f|sub]; [by destruct c'|by rewrite (Hfile f eq_refl)|done].
Qed.
End checks.

(** C22: the files of a package that are kept are those that were asked for.  In an archive whose names are plain and whose entries have their hashes, after
    a sequence of checks that all succeeded, filtering by what was checked succeeds; a file that is left was there before, at the same path, and one of the checks asked for it: by its path,
    as one below a checked directory, or as one with the stem and a valid extension; and every check is answered, in that the entries that [check_file]
    and [check_dir] asked for, and one that [check_stem] asked for, are as they were. *)
Theorem keep_checked_exact {S : Type} (d : DirectoryContents S) (cs : list check) (x : Expected S) :
  clean d -> Forall (fun y => stored y.2) (d_entries d) -> (forall path valid, CheckStem path valid ∈ cs -> is_Some (file_name path)) ->
  perform_all cs (Expected_new d) = (x, Ok tt) ->
  exists d', keep_checked (keep x) d = (d', Ok tt) /\
    (forall names f, at_path names d' ≫= as_file = Some f -> at_path names d ≫= as_file = Some f /\ exists c, c ∈ cs /\ asks d c names) /\
    Forall (answered d (fun names => exists e, at_path names d = Some e /\ at_path names d' = Some e)) cs.
Proof.
  intros Hc Hst Hn E. destruct (perform_all_claims cs (Expected_new d) x Hc (agrees_new d) Hn E) as (added & (Ed & Ha & Hcl) & Has & Han). rewrite Ed in Ha. cbn [ex_dir Expected_new] in *.
  destruct (keep_checked_claimed d (keep x) Hc Hst Ha) as (d' & Ek & Hfile & Hkeep). exists d'. split; [done|]. split.
  - intros names f Hf. destruct (Hfile names f Hf) as [H1 H2]. split; [done|]. apply Hcl in H2 as [[h H2]|H2]; [by cbn in H2; rewrite at_path_new in H2|by apply Has].
  - eapply Forall_impl; [exact Han|]. intros c. apply answered_mono. intros names Hadd. apply Hkeep, Hcl. by right.
Qed.

(** ** A file that is missed *)

(** Two icons; the second is the one with the stem "icon". *)
Definition two_icons : DirectoryContents unit :=
  (insert_path (bstr "icon.png") (Entry_file tt) (insert_path (bstr "icon-dark.png") (Entry_file tt) DirectoryContents_new).1).1.

(** The names behind the stem are looked at only until one has another stem; "icon-dark.png" comes before "icon.png", so that the icon is not found. *)
Lemma with_stem_misses : file_stem (bstr "icon.png") = Some (bstr "icon") /\ is_Some (get (bstr "icon.png") two_icons ≫= as_file) /\ with_stem (bstr "icon") two_icons = [] /\
  (check_stem (bstr "icon") (fun ext => bool_decide (ext = Some (bstr "png"))) (Expected_new two_icons)).2 = invalid $"file with valid extension missing from archive".
Proof. vm_compute. split_and!; [done|by eexists|done|done]. Qed.
