(* ===== verification/MerkleExamples.v ===== *)
(** * Merkle archives on concrete packages

    A hash, a signature scheme and a package to evaluate the definitions on; the witnesses of the theorems on archives, endorsements and checked files; and a
    directory that leads back to itself ([deserialize_unbounded]). *)
From stdpp Require Import sorting.
From S2P Require Import Prelude RustStr BTree SquashFormat SquashBlocks SquashTree SquashData SquashIo SquashImage SquashFiles SquashLoad MerkleVarint MerkleBytes MerkleArchive MerkleHash MerkleCopy MerkleVerify MerkleWrite MerkleRead MerkleRoundtrip MerkleTree MerkleSign MerkleExpected MerkleTrailer MerklePackage MerkleLocal MerkleEndorse MerkleChecks.
Import Leb128.

Local Open Scope rust_scope.
Local Open Scope poll_scope.

(** ** A hash and signatures *)

Fixpoint digits (n : nat) (z : Z) : bytes :=
  match n with
  | 0 => []
  | S k => low (z mod 256) :: digits k (z / 256)
  end.

#[export] Instance toy_hash : Hashing :=
  {| b3 c := digits 32 (fold_left (fun acc x => (acc * 257 + Z.of_N (Byte.to_N x) + 1) mod 2 ^ 256)%Z c 7%Z) |}.

Lemma digits_length n z : length (digits n z) = n.
Proof. revert z. induction n as [|n IH]; intros z; [done|]. cbn [digits length]. by rewrite IH. Qed.

#[export] Instance toy_hash_ok : HashingOk toy_hash.
Proof. split. intros c. apply digits_length. Qed.

Definition toy_key : bytes := replicate 32 Byte.x05.
Definition toy_signature (m c : bytes) : bytes := b3 (m ++ c) ++ b3 (c ++ m).

#[export] Instance toy_ed25519 : Ed25519 := {|
  SigningKey := unit;
  verifying_key _ := toy_key;
  sign_prehashed _ m c := Ok (toy_signature m c);
  valid_key k := bool_decide (length k = 32);
  verify_prehashed_strict k m c s := bool_decide (k = toy_key) && bool_decide (s = toy_signature m c);
|}.

#[export] Instance toy_ed25519_ok : Ed25519Ok toy_ed25519.
Proof.
  split.
  - done.
  - done.
  - intros k m c s [= <-]. unfold toy_signature. rewrite length_app. by rewrite !b3_length.
  - intros k m c s [= <-]. apply andb_true_intro. split; by apply bool_decide_true.
Qed.

#[export] Instance bytes_source_ok : ReadSourceOk bytes.
Proof. split. intros c n [= <-]. split; [lia|]. by intros r [= <-]. Qed.

(** ** A package *)

Definition put (path content : bytes) (d : DirectoryContents bytes) : DirectoryContents bytes :=
  (insert_path path (Entry_file content) d).1.

Definition tree : DirectoryContents bytes :=
  put (bstr "manifest.json") (bstr "{}") (put (bstr "a/b/c.txt") (bstr "c.txt") (put (bstr "/a/x") (bstr "hello") (put (bstr "LICENSE.md") [] DirectoryContents_new))).

Definition package : MerkleArchive bytes := MerkleArchive_new tree tt SIG_CONTEXT.

Definition hashed_tree : DirectoryContents bytes := (update_hashes true tree).1.

(** It is written to an output that takes a few bytes, is not ready, and then takes the rest. *)
Abbreviation written := (S9pk_serialize true None package (mkSink [] [Moved 3; NotReady])).

Definition stored_at (a : MerkleArchive Section_) (path : bytes) : option (option (bytes * Z) * byte) :=
  e ← get_path path (ma_contents a); Some (e_hash e, type_id (e_contents e)).


Definition source_of (bs : bytes) : Archived := mkArchived bs [] (Some (Z.of_nat (length bs))).
Abbreviation source := (source_of (sunk written.1 ++ bstr "what follows")).

Lemma source_bytes bs : archive (source_of bs) = bs.
Proof. reflexivity. Qed.

Lemma source_size bs n : reported (source_of bs) = Some n -> (Z.of_nat (length (archive (source_of bs))) <= n)%Z.
Proof. intros [= <-]. cbn. lia. Qed.

Example package_opens : match (S9pk_archive 3 None source).2 with
  | Ready a => match get_path (bstr "a/b/c.txt") (ma_contents a) with
               | Some e => match (read_file_to_vec e source).2 with Ready c => bool_decide (c = bstr "c.txt") | _ => false end
               | None => false
               end
  | _ => false
  end = true.
Proof. vm_compute. reflexivity. Qed.

(** ** The tree of the package *)

(** The entries of a list that is written out. *)
Ltac each_entry Hin := repeat (apply elem_of_cons in Hin as [Hin|Hin]; [try discriminate Hin; try (injection Hin; intros; subst; clear Hin)|]); try (by apply elem_of_nil in Hin).

Ltac solve_typed :=
  match goal with
  | |- typed _ => constructor;
      [repeat constructor|reflexivity
      |repeat (apply Forall_cons; split; [split; [reflexivity|split; [reflexivity|intros ? ? [=]; subst; by vm_compute]]|]); constructor
      |let n := fresh in let h := fresh in let s := fresh in let Hin := fresh in intros n h s Hin; each_entry Hin; solve_typed]
  end.

Lemma tree_typed : typed tree.
Proof. let t := eval vm_compute in tree in change (typed t). solve_typed. Qed.

Ltac solve_sound :=
  match goal with
  | |- sound _ => constructor;
      [repeat (apply Forall_cons; split; [by vm_compute|]); constructor
      |let Hin := fresh in intros ? ? ? ? ? Hin; each_entry Hin
      |let Hin := fresh in intros ? ? ? ? Hin; each_entry Hin
      |let Hin := fresh in intros ? ? ? Hin; each_entry Hin; solve_sound]
  end.

Lemma tree_sound : sound tree.
Proof. let t := eval vm_compute in tree in change (sound t). solve_sound. Qed.

Ltac solve_ordered :=
  match goal with
  | |- ordered _ => constructor; [repeat constructor|let Hin := fresh in intros ? ? ? Hin; each_entry Hin; solve_ordered]
  end.

Lemma tree_in_order : in_order tree.
Proof. split; [|apply tree_sound]. let t := eval vm_compute in tree in change (ordered t). solve_ordered. Qed.

Lemma tree_hashed : update_hashes true tree = (hashed_tree, Ok tt).
Proof. vm_compute. reflexivity. Qed.

Lemma tree_stripped : strip_directory tree = tree.
Proof. vm_compute. reflexivity. Qed.

Lemma hashed_tree_in_order : in_order hashed_tree.
Proof. apply (update_hashes_Ok true tree); [rewrite tree_stripped; apply tree_in_order|apply tree_hashed]. Qed.

Lemma hashed_tree_typed : typed hashed_tree.
Proof. let t := eval vm_compute in hashed_tree in change (typed t). solve_typed. Qed.

Lemma hashed_stored e : hashed e -> stored (S := bytes) e.
Proof. induction 1; constructor; done. Qed.

Lemma hashed_tree_stored : Forall (fun x => stored x.2) (d_entries hashed_tree).
Proof.
  destruct (update_hashes_Ok true tree hashed_tree) as (_ & _ & HF); [rewrite tree_stripped; apply tree_in_order|apply tree_hashed|].
  eapply Forall_impl; [exact HF|]. intros x. apply hashed_stored.
Qed.

(** The package as it is after it was signed. *)
Definition root_commitment : MerkleArchiveCommitment := match commitment package with Ok c => c | Err _ => mkCommitment [] 0 end.

Definition signed_package : MerkleArchive bytes :=
  mkArchive (Signed toy_key (toy_signature (digest root_commitment) SIG_CONTEXT) (root_maxsize root_commitment) SIG_CONTEXT) hashed_tree.

Lemma signed_package_fits : signer_fits SIG_CONTEXT signed_package.
Proof.
  unfold signer_fits. cbn [ma_signer signed_package ma_contents]. split; [done|]. split; [by vm_compute|]. split; [by vm_compute|]. split; [done|].
  split; [by vm_compute|]. intros root Er. assert (sighash hashed_tree = Ok (root_sighash root_commitment)) as E by (vm_compute; reflexivity).
  assert (forall x y : bytes, Ok (E := io_error) x = Ok y -> x = y) as Hinj by by intros x y [= ->].
  rewrite (Hinj _ _ (eq_trans (eq_sym Er) E)). vm_compute. reflexivity.
Qed.

(** ** Witnesses *)

Lemma insert_path_sound_witness : in_order (insert_path (bstr "a/b/d") (Entry_file (bstr "d")) tree).1 /\
  get_path (bstr "a/b/d") (insert_path (bstr "a/b/d") (Entry_file (bstr "d")) tree).1 = Some (Entry_file (bstr "d")).
Proof.
  assert (entry_fits (Entry_file (bstr "d"))) as Hfit by (apply fits_unhashed; intros sub [=]).
  assert (segments (bstr "a/b/d") = [bstr "a"; bstr "b"; bstr "d"]) as Es by (vm_compute; reflexivity).
  assert (Forall short (segments (bstr "a/b/d"))) as Hs by (rewrite Es; repeat (apply Forall_cons; split; [by vm_compute|]); constructor).
  pose proof (insert_path_sound (bstr "a/b/d") (Entry_file (bstr "d")) tree tree_in_order Hfit Hs) as Hi.
  destruct (insert_path (bstr "a/b/d") (Entry_file (bstr "d")) tree) as [d' r] eqn:Ei. destruct Hi as [Ho Hg]. split; [done|].
  assert ((insert_path (bstr "a/b/d") (Entry_file (bstr "d")) tree).2 = Ok tt) as Er by (vm_compute; reflexivity). rewrite Ei in Er. cbn [snd] in Er.
  by destruct (Hg Er).
Defined.

Lemma update_hashes_sound_witness : in_order hashed_tree /\ exists d', update_hashes true tree = (d', Ok tt).
Proof.
  destruct (update_hashes_sound true tree) as [Hok _]; [rewrite tree_stripped; apply tree_in_order|].
  destruct (Hok hashed_tree tree_hashed) as (_ & Ho & _). split; [done|]. exists hashed_tree. apply tree_hashed.
Defined.

(** The licence is left out, and what is in [a/b] is kept. *)
Definition without_license (path : bytes) : bool := negb (bool_decide (path = bstr "LICENSE.md") || bool_decide (path = bstr "a/x")).

Lemma filter_keeps_signature_witness : commitment (MerkleArchive_filter without_license signed_package).1 = commitment signed_package.
Proof.
  destruct (filter_keeps_signature without_license SIG_CONTEXT signed_package _ _ _ _ eq_refl signed_package_fits
    hashed_tree_typed hashed_tree_in_order hashed_tree_stored) as (a' & E & Hc & _). by rewrite E.
Defined.

Definition is_ready {A} (r : res A) : bool := match r with Ready _ => true | _ => false end.

#[export] Instance toy_manifest : ManifestJson := {| Manifest := bytes; manifest_from_slice := Ok; manifest_to_vec := Ok |}.

(** A package with another manifest than the one in its archive, and with endorsements. *)
Definition small : DirectoryContents bytes := put (bstr "manifest.json") (bstr "{}") (put (bstr "a") [] DirectoryContents_new).

Lemma small_typed : typed small.
Proof. let t := eval vm_compute in small in change (typed t). solve_typed. Qed.

Lemma small_sound : sound small.
Proof. let t := eval vm_compute in small in change (sound t). solve_sound. Qed.

Definition edited : S9pk bytes := mkS9pk (bstr "{1}") true (MerkleArchive_new small tt SIG_CONTEXT) None (set_present Trailer_default).

Definition edited_archive : MerkleArchive bytes := match to_write id edited with Ok a => a | Err _ => package end.
Abbreviation edited_written := ((S9pk_write id true edited).2 (mkSink [] [Moved 3; NotReady])).
Abbreviation edited_source := (source_of (sunk edited_written.1 ++ bstr "what follows")).

Lemma package_roundtrip_witness : opens edited_source (S9pk_archive 3 None) (fun ar a =>
  MerkleArchive_signer a = toy_key /\ exists e, get_path manifest_name (ma_contents a) = Some e /\ opens ar (read_file_to_vec e) (fun _ c => c = bstr "{1}")).
Proof.
  assert (to_write id edited = Ok edited_archive) as Ew by reflexivity.
  assert (forall x y : MerkleArchive bytes, Ok (E := io_error) x = Ok y -> x = y) as Hinj by by intros x y [= ->].
  assert (forall bs, rs_reader (id bs) = Ok (mkSource bs []) /\ rs_size (id bs) = Ok (Z.of_nat (length bs))) as Hid by by intros bs.
  assert (forall a, to_write id edited = Ok a -> signer_fits SIG_CONTEXT a) as Hfit.
  { intros a Ha. rewrite <- (Hinj _ _ (eq_trans (eq_sym Ew) Ha)). reflexivity. }
  destruct (package_roundtrip id edited true 3 [Moved 3; NotReady] Hid small_typed small_sound ltac:(vm_compute; lia) ltac:(vm_compute; reflexivity) Hfit) as [_ Hp].
  assert (is_ready edited_written.2 && (Z.of_nat (length (archive edited_source)) <? 2 ^ 64)%Z = true) as [Hw H64%Z.ltb_lt]%andb_true_iff by (vm_compute; reflexivity).
  destruct edited_written as [out [[]|e| |]]; [|discriminate Hw..]. cbn [fst] in H64 |- *. destruct Hp as (a & Ea & Hp).
  assert (forall c, commitment a = Ok c -> expectation None (root_sighash c) (root_maxsize c)) as Hexp.
  { rewrite <- (Hinj _ _ (eq_trans (eq_sym Ew) Ea)). intros c Hc. apply Z.leb_le.
    assert (match commitment edited_archive with Ok c => (root_maxsize c <=? CAP_1_MiB)%Z | Err _ => true end = true) as Hm by (vm_compute; reflexivity).
    rewrite Hc in Hm. exact Hm. }
  pose proof (Hp None _ (bstr "what follows") (source_bytes (sunk out ++ bstr "what follows")) H64 (source_size _) Hexp) as Hr. unfold opens in Hr |- *.
  eapply post_mono; [exact Hr|]. intros ar' [a'|e| |] Hx; [|exact Hx..]. destruct Hx as (Hk & _ & _ & Hm). split; [exact Hk|].
  destruct (Hm eq_refl) as (bs & e & Eb & Eg & Ho). exists e. split; [exact Eg|].
  assert (forall x y : bytes, Ok (E := io_error) x = Ok y -> x = y) as Hinj' by by intros x y [= ->].
  rewrite (Hinj' _ _ (Eb : Ok (E := io_error) (bstr "{1}") = Ok bs)). apply Ho. rewrite <- (Hinj' _ _ (Eb : Ok (E := io_error) (bstr "{1}") = Ok bs)). by vm_compute.
Defined.

(** The package without some of its files, written and opened again. *)
Definition rest_written : Sink * res unit := S9pk_serialize true None (MerkleArchive_filter without_license signed_package).1 (mkSink [] []).
Definition rest_source : Archived := mkArchived (sunk rest_written.1) [Served [Moved 1; NotReady]] None.

Definition opened_from (ar : Archived) : MerkleArchive Section_ :=
  match (S9pk_archive 3 (Some root_commitment) ar).2 with Ready a => a | _ => mkArchive (Signing tt []) DirectoryContents_new end.

Lemma opens_from ar : is_ready (S9pk_archive 3 (Some root_commitment) ar).2 = true ->
  S9pk_archive 3 (Some root_commitment) ar = ((S9pk_archive 3 (Some root_commitment) ar).1, Ready (opened_from ar)).
Proof. unfold opened_from. by destruct (S9pk_archive 3 (Some root_commitment) ar) as [ar' [a|e| |]]. Qed.

Lemma opens_source : is_ready (S9pk_archive 3 (Some root_commitment) source).2 = true.
Proof. vm_compute. reflexivity. Qed.

Lemma opens_rest : is_ready (S9pk_archive 3 (Some root_commitment) rest_source).2 = true.
Proof. vm_compute. reflexivity. Qed.

Lemma package_verified_witness : exists root, verified_in None root (ma_contents (opened_from rest_source)).
Proof.
  destruct (package_verified 3 (Some root_commitment) rest_source _ _ (opens_from rest_source opens_rest)) as (_ & _ & _ & root & _ & _ & _ & Hv & _). by exists root.
Defined.

Definition c_path : bytes := bstr "a/b/c.txt".

Definition no_collision_b (l : list bytes) : bool :=
  forallb (fun a => forallb (fun c => negb (bool_decide (b3 a = b3 c)) || bool_decide (a = c)) l) l.

Lemma no_collision_spec l : no_collision_b l = true -> no_collision l.
Proof.
  unfold no_collision_b. rewrite forallb_forall. intros Hl a c Ha Hc E. rewrite list_elem_of_In in Ha, Hc. specialize (Hl a Ha).
  rewrite forallb_forall in Hl. specialize (Hl c Hc). rewrite (bool_decide_true _ E) in Hl. cbn [negb orb] in Hl. by apply bool_decide_eq_true in Hl.
Qed.

Definition is_some {A} (o : option A) : bool := match o with Some _ => true | None => false end.

Lemma is_some_exists {A} (o : option A) : is_some o = true -> exists x, o = Some x.
Proof. destruct o as [x|]; [by exists x|done]. Qed.

Lemma package_integrity_witness : match get_path c_path (ma_contents (opened_from source)), get_path c_path (ma_contents (opened_from rest_source)) with
  | Some e1, Some e2 => e_hash e1 = e_hash e2
  | _, _ => False
  end.
Proof.
  assert (no_collision (hashed_strings (ma_contents (opened_from source)) ++ hashed_strings (ma_contents (opened_from rest_source)))) as Hn
    by (apply no_collision_spec; vm_compute; reflexivity).
  assert (is_some (get_path c_path (ma_contents (opened_from source))) = true) as S1 by (vm_compute; reflexivity).
  assert (is_some (get_path c_path (ma_contents (opened_from rest_source))) = true) as S2 by (vm_compute; reflexivity).
  destruct (is_some_exists _ S1) as [e1 G1]. destruct (is_some_exists _ S2) as [e2 G2].
  destruct (package_integrity 3 3 root_commitment root_commitment source _ rest_source _ _ _ c_path e1 e2 (opens_from _ opens_source) (opens_from _ opens_rest) eq_refl Hn G1 G2) as [Eh _].
  rewrite G1, G2. exact Eh.
Defined.

(** The package in a source that answers in other pieces and has something else behind it. *)
Definition longer : Archived := mkArchived (sunk written.1 ++ bstr "something else") [Served [Moved 2; NotReady]] (Some 100000%Z).

Lemma archive_local_witness : opens longer (S9pk_archive 3 (Some root_commitment)) (fun _ a => a = opened_from source).
Proof.
  set (base := length (sunk written.1)).
  assert ((package_header <=? Z.of_nat base)%Z = true) as H1 by (vm_compute; reflexivity). apply Z.leb_le in H1.
  assert ((source_end (ma_contents (opened_from source)) <=? Z.of_nat base)%Z = true) as H2 by (vm_compute; reflexivity). apply Z.leb_le in H2.
  assert ((Z.of_nat base <=? 100000)%Z = true) as H3 by (vm_compute; reflexivity). apply Z.leb_le in H3.
  assert (take base (archive longer) = take base (archive source)) as Ht by (vm_compute; reflexivity).
  assert (forall n, reported longer = Some n -> (Z.of_nat base <= n)%Z) as Hr by (unfold longer; cbn [reported]; intros n [= <-]; exact H3).
  exact (archive_local 3 (Some root_commitment) source _ longer _ base (opens_from source opens_source) H1 H2 Ht Hr).
Defined.

(** ** An endorsement *)

#[export] Instance toy_pure : PureEd25519 := {| verify_strict k m s := bool_decide (s = b3 (k ++ m)) |}.

#[export] Instance toy_der : Der := {|
  key_to_der k := match k with Ed25519Key k => Ok (Byte.x30 :: k) end;
  key_from_der d := match d with Byte.x30 :: k => Ok (Ed25519Key k) | _ => invalid $"key" end;
  signature_to_der s := match s with Ed25519Plain s => Ok (Byte.x01 :: s) | Ed25519ph s => Ok (Byte.x02 :: s) end;
  signature_from_der d := match d with Byte.x01 :: s => Ok (Ed25519Plain s) | Byte.x02 :: s => Ok (Ed25519ph s) | _ => invalid $"signature" end;
|}.

#[export] Instance toy_der_ok : DerOk toy_der.
Proof. split; [intros [k] d [= <-]; done|intros [s|s] d [= <-]; done]. Qed.


(** All entries of an archive that was read have their hashes, so that no section is read for them. *)
#[export] Instance toy_sections : ReadSource Section_ := {| rs_reader _ := invalid $"closed" |}.

Definition endorser : bytes := replicate 32 Byte.x09.
Definition endorsement : AnySignature :=
  Ed25519Plain (match signing_message COMMITMENT_SIG_TAG root_commitment SIG_CONTEXT with Ok m => b3 (endorser ++ m) | Err _ => [] end).

(** The file of the package; a write takes seven bytes. *)
Definition package_file : Files := mkFiles (sunk written.1) None [] [Moved 7] [].

Lemma append_endorses_witness : is_ready (append 3 (Ed25519Key endorser) endorsement package_file).2 = true /\
  endorsed 3 (Ed25519Key endorser) endorsement (fl_path package_file) (fl_path (append 3 (Ed25519Key endorser) endorsement package_file).1).
Proof.
  assert (is_ready (append 3 (Ed25519Key endorser) endorsement package_file).2 = true) as Hr by (vm_compute; reflexivity).
  pose proof (append_endorses 3 (Ed25519Key endorser) endorsement package_file) as Ha.
  destruct (append 3 (Ed25519Key endorser) endorsement package_file) as [f' [x|e| |]]; [exact (conj eq_refl Ha)|discriminate Hr..].
Defined.

(** The new file has two signatures, and is as long as the old one and the endorsement. *)
Example endorsed_package_opens :
  let path := fl_path (append 3 (Ed25519Key endorser) endorsement package_file).1 in
  match (deserialize_local 3 None (reliable path)).2 with
  | Ready p => match S9pk_signatures p with Ok m => bool_decide (map fst m = [Ed25519Key toy_key; Ed25519Key endorser]) | Err _ => false end
  | _ => false
  end && (length path =? length (fl_path package_file) + 2 + 8 + 8 + 33 + 33 + 16) = true.
Proof. vm_compute. reflexivity. Qed.

(** ** Checked files *)

Ltac solve_clean :=
  match goal with
  | |- clean _ => constructor;
      [repeat constructor
      |repeat (apply Forall_cons; split; [split; [split_and!; [discriminate| |discriminate|discriminate]; by apply (bool_decide_eq_true_1 (_ ∉ _)); vm_compute|reflexivity]|]); constructor
      |let Hin := fresh in intros ? ? ? Hin; each_entry Hin; solve_clean]
  end.

Lemma hashed_tree_clean : clean hashed_tree.
Proof. let t := eval vm_compute in hashed_tree in change (clean t). solve_clean. Qed.

Definition asked : list check := [CheckFile (bstr "manifest.json"); CheckStem (bstr "LICENSE") (fun e => bool_decide (e = Some (bstr "md"))); CheckDir (bstr "a/b")].

Definition checked_ok {S} (r : Expected S * io unit) : bool := match r.2 with Ok _ => true | Err _ => false end.

Lemma checked_eq {S} (r : Expected S * io unit) : checked_ok r = true -> r = (r.1, Ok tt).
Proof. by destruct r as [x [[]|]]. Qed.

Lemma keep_checked_exact_witness : exists d', keep_checked (keep (perform_all asked (Expected_new hashed_tree)).1) hashed_tree = (d', Ok tt) /\
  Forall (answered hashed_tree (fun names => exists e, at_path names hashed_tree = Some e /\ at_path names d' = Some e)) asked.
Proof.
  assert (checked_ok (perform_all asked (Expected_new hashed_tree)) = true) as Hok by (vm_compute; reflexivity).
  assert (is_some (file_name (bstr "LICENSE")) = true) as Hn by (vm_compute; reflexivity).
  assert (forall path valid, CheckStem path valid ∈ asked -> is_Some (file_name path)) as Hs.
  { intros path valid Hin. unfold asked in Hin. each_entry Hin. by destruct (is_some_exists _ Hn) as [x ->]. }
  destruct (keep_checked_exact hashed_tree asked _ hashed_tree_clean hashed_tree_stored Hs (checked_eq _ Hok)) as (d' & Ek & _ & Ha). exists d'. exact (conj Ek Ha).
Defined.

(** ** A directory that contains itself *)

(** The table of contents at [155] has one entry, a directory whose table is at [155]. *)
Definition own_position : bytes := to_be_bytes 155 ++ to_be_bytes 60.
Definition own_table : bytes := encode_var 1 ++ varstring (bstr "a") ++ replicate 32 Byte.x00 ++ to_be_bytes 60 ++ [Byte.x02] ++ own_position.

Definition own_root : bytes := replicate 32 Byte.x07.
Definition loop_package : bytes :=
  MAGIC_AND_VERSION ++ toy_key ++ toy_signature (digest (mkCommitment own_root 60)) SIG_CONTEXT ++ own_root ++ to_be_bytes 60 ++ own_position ++ own_table.
Definition loop_source : Archived := mkArchived loop_package [] (Some 215%Z).

Lemma bind_ready {St A B} (m : M St A) (f : A -> M St B) s s' x : m s = (s', Ready x) -> m_bind m f s = f x s'.
Proof. intros E. unfold m_bind. by rewrite E. Qed.

Lemma bind_panics {St A B} (m : M St A) (f : A -> M St B) s s' : m s = (s', Panics) -> m_bind m f s = (s', Panics).
Proof. intros E. unfold m_bind. by rewrite E. Qed.

Ltac step_ready := erewrite bind_ready by (vm_compute; reflexivity); cbv beta iota.

Definition after_name : Source := mkSource (drop 3 own_table) [].

(** The entry of the table leads to the directory that is being read. *)
Lemma own_entry directory : directory (mkSource own_position []) (replicate 32 Byte.x00) 60%Z loop_source = (loop_source, Panics) ->
  Entry_deserialize directory after_name loop_source = (loop_source, Panics).
Proof.
  intros Hd. unfold Entry_deserialize. step_ready. step_ready. apply bind_panics. unfold EntryContents_deserialize. step_ready. apply bind_panics. exact Hd.
Qed.

Lemma own_directory depth h max_size : (60 <= max_size)%Z -> DirectoryContents_deserialize depth (mkSource own_position []) h max_size loop_source = (loop_source, Panics).
Proof.
  revert h max_size. induction depth as [|k IH]; intros h max_size Hm; [done|]. cbn [DirectoryContents_deserialize]. step_ready. step_ready.
  rewrite (proj2 (Z.ltb_ge _ _)) by (vm_compute (from_be_bytes _); lia). step_ready. step_ready. step_ready. apply bind_panics.
  match goal with |- context [entries_loop _ ?n] => change n with (S 59); generalize 59; intros rest end. cbn [entries_loop].
  change ((1 =? 0)%Z) with false. cbv iota. step_ready. apply bind_panics. exact (own_entry _ (IH _ 60%Z ltac:(lia))).
Qed.

(** The hash of a directory is compared only after all directories below it were read, so a table with an entry that leads back to the table is
    entered again and again: with the hash and the signatures of this file this package of 215 bytes exhausts every depth.  ([Panics] is the depth that is exhausted; no step before it is a panic:
    [own_directory] goes down one level in every round.) *)
Lemma deserialize_unbounded depth : (S9pk_archive depth None loop_source).2 = Panics.
Proof.
  enough (S9pk_archive depth None loop_source = (loop_source, Panics)) as -> by done.
  unfold S9pk_archive. step_ready. step_ready. rewrite bool_decide_true by done. cbn [negb]. unfold MerkleArchive_deserialize.
  step_ready. change (negb (valid_key _)) with false. cbv iota. step_ready. step_ready. step_ready.
  match goal with |- (if negb ?v then _ else _) _ = _ => assert (v = true) as -> by (vm_compute; reflexivity) end. cbn [negb].
  step_ready. apply bind_panics. apply own_directory. vm_compute. discriminate.
Qed.
