(* ===== verification/UciSyntax.v ===== *)
(** * Configuration files of the router: syntax and typed sections

    [src/projects/start-wrt/backend/uciedit]: [src/syntax.rs], tokens, lines, sections and files of the UCI format, parsed and
    printed so that comments and the order of lines stay; [src/lib.rs], its errors; and [uciedit_macros/src/lib.rs], the
    code that [#[derive(TypedSection)]] gives a struct: [read], [write] and [append].

    A struct is described by its fields ([UciField], as in the macro) and its values; a token holds the text
    between its quotes; the arena is allocation only.  The scanner of the [inpt] crate is a parameter ([Inpt]), of which InptOk states what the
    code relies on: it finds again a token that was printed.  The tables of the Unicode standard beyond ASCII are a parameter
    too ([Unicode]). *)
From S2P Require Import Prelude RustStr.

Local Open Scope rust_scope.

(** ** What is used of the standard library *)

(** [char::is_whitespace]. *)
Definition is_whitespace (c : N) : bool :=
  ((9 <=? c) && (c <=? 13) || (c =? 32) || (c =? 133) || (c =? 160) || (c =? 5760) || (8192 <=? c) && (c <=? 8202) ||
   (c =? 8232) || (c =? 8233) || (c =? 8239) || (c =? 8287) || (c =? 12288))%N.

Fixpoint trim_start (s : str) : str :=
  match s with
  | [] => []
  | c :: r => if is_whitespace c then trim_start r else s
  end.

Definition trim_end (s : str) : str := reverse (trim_start (reverse s)).

Definition trim (s : str) : str := trim_end (trim_start s).

Definition strip_suffix_char (c : N) (s : str) : option str :=
  match reverse s with
  | x :: r => if bool_decide (x = c) then Some (reverse r) else None
  | [] => None
  end.

(** [str::split_inclusive] at line feeds. *)
Fixpoint split_inclusive (s : str) : list str :=
  match s with
  | [] => []
  | c :: r =>
      if bool_decide (c = 10%N) then [c] :: split_inclusive r
      else match split_inclusive r with
           | [] => [[c]]
           | l :: ls => (c :: l) :: ls
           end
  end.

(** [str::lines]. *)
Definition strip_line (l : str) : str :=
  match strip_suffix_char 10 l with
  | None => l
  | Some l => default l (strip_suffix_char 13 l)
  end.

Definition str_lines (s : str) : list str := map strip_line (split_inclusive s).

Class Unicode : Type := { wide_alphanumeric : N -> bool; wide_escaped : N -> bool }.

Section text.
Context `{U : Unicode}.

(** [char::is_alphanumeric]. *)
Definition is_alphanumeric (c : N) : bool :=
  if (c <? 128)%N then is_ascii_digit c || is_ascii_lowercase c || is_ascii_uppercase c else wide_alphanumeric c.

Definition hex_digit (d : N) : N := if (d <? 10)%N then (48 + d)%N else (87 + d)%N.

Fixpoint show_hex (fuel : nat) (n : N) : str :=
  match fuel with
  | 0 => []
  | S k => if (n <? 16)%N then [hex_digit n] else show_hex k (n / 16)%N ++ [hex_digit (n mod 16)%N]
  end.

(** [Debug for str], between the quotes.  A character has at most six hexadecimal digits. *)
Definition escape_char (c : N) : str :=
  if (c =? 0)%N then $"\0"
  else if (c =? 9)%N then $"\t"
  else if (c =? 13)%N then $"\r"
  else if (c =? 10)%N then $"\n"
  else if (c =? 34)%N then [92; 34]%N
  else if (c =? 92)%N then [92; 92]%N
  else if (if (c <? 128)%N then (c <? 32)%N || (c =? 127)%N else wide_escaped c) then $"\u{" ++ show_hex 6 c ++ $"}"
  else [c].

Definition escape_debug (s : str) : str := concat (map escape_char s).
End text.

(** ** Errors *)

Inductive Source : Type :=
| Unknown
| UnknownLine (line : nat)
| AtLine (path : str) (line : nat)
| AtPath (path : str).

(** Without the descriptions that come from other crates. *)
Inductive Error : Type :=
| Io (src : Source)
| Utf8 (src : Source)
| Conflict (src : Source)
| FdLock (src : Source)
| BadSection (src : Source)
| BadOption (src : Source)
| BadList (src : Source)
| UnknownKeyword (src : Source) (found : str)
| ExpectedSection (src : Source)
| ExpectedSectionType (src : Source) (expected found : str)
| ValueMsg (src : Source)
| ValueBoolean (src : Source) (found : str)
| MissingOption (src : Source) (missing : str).

Definition map_src (with_ : Source -> Source) (e : Error) : Error :=
  match e with
  | Io src => Io (with_ src)
  | Utf8 src => Utf8 (with_ src)
  | Conflict src => Conflict (with_ src)
  | FdLock src => FdLock (with_ src)
  | BadSection src => BadSection (with_ src)
  | BadOption src => BadOption (with_ src)
  | BadList src => BadList (with_ src)
  | UnknownKeyword src found => UnknownKeyword (with_ src) found
  | ExpectedSection src => ExpectedSection (with_ src)
  | ExpectedSectionType src expected found => ExpectedSectionType (with_ src) expected found
  | ValueMsg src => ValueMsg (with_ src)
  | ValueBoolean src found => ValueBoolean (with_ src) found
  | MissingOption src missing => MissingOption (with_ src) missing
  end.

Definition with_path {A} (path : str) (r : result A Error) : result A Error :=
  match r with
  | Ok x => Ok x
  | Err e => Err (map_src (fun src => match src with Unknown => AtPath path | UnknownLine n => AtLine path n | _ => src end) e)
  end.

(** ** Tokens and lines *)

(** The text inside double quotes, inside single quotes, or up to the next space. *)
Inductive Token : Type :=
| Q (inner : str)
| Sq (inner : str)
| W (inner : str).

Inductive LineComment : Type :=
| NoComment
| Commented (text : str).

Inductive Line : Type :=
| Line_Empty
| Line_Comment (indent : bool) (text : str)
| Line_Section (ty : Token) (name : option Token) (comment : LineComment)
| Line_Option (option_ value : Token) (comment : LineComment)
| Line_List (list_ item : Token) (comment : LineComment)
| Line_Skip.

#[export] Instance Token_eq_dec : EqDecision Token.
Proof. solve_decision. Defined.
#[export] Instance LineComment_eq_dec : EqDecision LineComment.
Proof. solve_decision. Defined.
#[export] Instance Line_eq_dec : EqDecision Line.
Proof. solve_decision. Defined.

(** [inpt_step::<Token>], the rest of the text with it; [inpt::<LineComment>]; and [unescape]. *)
Class Inpt : Type := {
  inpt_step : str -> option (Token * str);
  inpt_comment : str -> option LineComment;
  unescape : str -> str;
}.

Section Syntax.
Context `{U : Unicode} `{I : Inpt}.

Definition as_str (t : Token) : str :=
  match t with
  | Q inner => unescape inner
  | Sq inner => unescape inner
  | W inner => inner
  end.

Definition Token_from_string (s : str) : Token := if bool_decide (39%N ∈ s) then Q (escape_debug s) else Sq s.

Definition plain_char (c : N) : bool := is_alphanumeric c || bool_decide (c ∈ $"_-.").

Definition Token_from_str (s : str) : Token := if forallb plain_char s then W s else Q (escape_debug s).

Definition Token_from_bool (b : bool) : Token := if b then Sq $"1" else Sq $"0".

Definition parse_bool (t : Token) (line_number : nat) : result bool Error :=
  let s := trim (as_str t) in
  if bool_decide (s ∈ [$"0"; $"no"; $"off"; $"false"; $"disabled"]) then Ok false
  else if bool_decide (s ∈ [$"1"; $"yes"; $"on"; $"true"; $"enabled"]) then Ok true
  else Err (ValueBoolean (UnknownLine line_number) s).

(** [Display]. *)
Definition show_token (t : Token) : str :=
  match t with
  | Q inner => [34%N] ++ inner ++ [34%N]
  | Sq inner => [39%N] ++ inner ++ [39%N]
  | W inner => inner
  end.

Definition show_comment (c : LineComment) : str :=
  match c with
  | NoComment => []
  | Commented text => $" #" ++ text
  end.

Definition show_line (l : Line) : str :=
  match l with
  | Line_Empty => [10%N]
  | Line_Comment false text => $"#" ++ text ++ [10%N]
  | Line_Comment true text => [9%N] ++ $"#" ++ text ++ [10%N]
  | Line_Section ty None tail => $"config " ++ show_token ty ++ show_comment tail ++ [10%N]
  | Line_Section ty (Some name) tail => $"config " ++ show_token ty ++ $" " ++ show_token name ++ show_comment tail ++ [10%N]
  | Line_Option option_ value tail => [9%N] ++ $"option " ++ show_token option_ ++ $" " ++ show_token value ++ show_comment tail ++ [10%N]
  | Line_List list_ item tail => [9%N] ++ $"list " ++ show_token list_ ++ $" " ++ show_token item ++ show_comment tail ++ [10%N]
  | Line_Skip => []
  end.

(** [inpt] of two tokens and a comment, and of a token and a comment. *)
Definition inpt_pair (rest : str) : option (Token * Token * LineComment) :=
  '(a, rest) ← inpt_step rest;
  '(b, rest) ← inpt_step rest;
  comment ← inpt_comment rest;
  Some (a, b, comment).

Definition inpt_single (rest : str) : option (Token * LineComment) :=
  '(a, rest) ← inpt_step rest;
  comment ← inpt_comment rest;
  Some (a, comment).

Definition Line_parse (line : str) (line_number : nat) : outcome (result Line Error) :=
  let rest := trim line in
  if bool_decide (rest = []) then Done (Ok Line_Empty)
  else match strip_prefix_char 35 rest with
  | Some text => Done (Ok (Line_Comment (match line with c :: _ => is_whitespace c | [] => false end) text))
  | None =>
      match inpt_step rest with
      | None => Panic
      | Some (keyword, rest) =>
          let src := UnknownLine line_number in
          let keyword := as_str keyword in
          Done (
          if bool_decide (keyword = $"config") then
            match inpt_pair rest with
            | Some (ty, name, comment) => Ok (Line_Section ty (Some name) comment)
            | None =>
                match inpt_single rest with
                | Some (ty, comment) => Ok (Line_Section ty None comment)
                | None => Err (BadSection src)
                end
            end
          else if bool_decide (keyword = $"option") then
            match inpt_pair rest with
            | Some (option_, value, comment) => Ok (Line_Option option_ value comment)
            | None => Err (BadOption src)
            end
          else if bool_decide (keyword = $"list") then
            match inpt_pair rest with
            | Some (list_, item, comment) => Ok (Line_List list_ item comment)
            | None => Err (BadList src)
            end
          else Err (UnknownKeyword src keyword))
      end
  end.

Definition is_in_section (l : Line) : bool :=
  match l with
  | Line_Comment true _ | Line_Option _ _ _ | Line_List _ _ _ => true
  | _ => false
  end.

Definition option_from_display (option_ value : str) : Line := Line_Option (Token_from_str option_) (Token_from_string value) NoComment.
Definition list_from_display (list_ item : str) : Line := Line_List (Token_from_str list_) (Token_from_string item) NoComment.
Definition option_from_bool (option_ : str) (value : bool) : Line := Line_Option (Token_from_str option_) (Token_from_bool value) NoComment.
Definition list_from_bool (list_ : str) (item : bool) : Line := Line_List (Token_from_str list_) (Token_from_bool item) NoComment.

Definition section_from (ty : str) (name : option str) : Line := Line_Section (Token_from_str ty) (Token_from_str <$> name) NoComment.

(** ** Sections and files *)

Record UciSection : Type := mkUciSection { section_lines : list Line }.

Record Config : Type := mkConfig {
  prefix : list Line;
  sections : list UciSection;
  modified : option Z;
}.

Definition Config_new : Config := mkConfig [] [] None.

Definition Section_new (ty : str) (name : option str) : UciSection :=
  mkUciSection [Line_Empty; Line_Section (Token_from_str ty) (Token_from_str <$> name) NoComment].

(** [Section::ty] and [Section::name] panic when there is no header. *)
Fixpoint header (lines : list Line) : outcome (Token * option Token) :=
  match lines with
  | [] => Panic
  | Line_Section ty name _ :: _ => Done (ty, name)
  | _ :: rest => header rest
  end.

Definition Section_ty (s : UciSection) : outcome str := outcome_map (fun h => as_str h.1) (header (section_lines s)).
Definition Section_name (s : UciSection) : outcome (option str) := outcome_map (fun h => as_str <$> h.2) (header (section_lines s)).

(** The lines at the end of a section that belong to the next header. *)
Definition leads_header (has_section : bool) (l : Line) : bool :=
  match l with
  | Line_Comment false _ => true
  | Line_Empty => has_section
  | _ => false
  end.

(** Popped off the end of [last_section], given in reverse, and pushed to the new one. *)
Fixpoint pop_leading (has_section : bool) (reversed : list Line) (new_section : list Line) : list Line * list Line :=
  match reversed with
  | l :: rest => if leads_header has_section l then pop_leading has_section rest (new_section ++ [l]) else (reverse reversed, reverse new_section)
  | [] => ([], reverse new_section)
  end.

(** The sections so far, the last of them apart. *)
Definition add_line (line : Line) (before : list (list Line)) (last_section : list Line) : list (list Line) * list Line :=
  match line with
  | Line_Section _ _ _ =>
      let '(kept, new_section) := pop_leading (bool_decide (before ≠ [])) (reverse last_section) [] in
      (before ++ [kept], new_section ++ [line])
  | _ => (before, last_section ++ [line])
  end.

Fixpoint parse_lines (n : nat) (text : list str) (before : list (list Line)) (last_section : list Line) : outcome (result (list (list Line)) Error) :=
  match text with
  | [] => Done (Ok (before ++ [last_section]))
  | line :: rest =>
      let* r := Line_parse line n in
      match r with
      | Err e => Done (Err e)
      | Ok line => let '(before, last_section) := add_line line before last_section in parse_lines (n + 1) rest before last_section
      end
  end.

Fixpoint check_prefix (n : nat) (prefix : list Line) : result unit Error :=
  match prefix with
  | [] => Ok tt
  | (Line_Option _ _ _ | Line_List _ _ _) :: _ => Err (ExpectedSection (UnknownLine n))
  | _ :: rest => check_prefix (n + 1) rest
  end.

Definition parse_str (text : str) : outcome (result Config Error) :=
  let* r := parse_lines 0 (str_lines text) [] [] in
  Done (
  let? all := r in
  let '(prefix, sections) := match all with [] => ([], []) | p :: rest => (p, rest) end in
  let? _ := check_prefix 0 prefix in
  Ok (mkConfig prefix (map mkUciSection sections) None)).

(** The lines of a file: empty ones at its beginning are left out. *)
Fixpoint dump_lines (empty : bool) (lines : list Line) : str :=
  match lines with
  | [] => []
  | l :: rest => if empty && bool_decide (l = Line_Empty) then dump_lines empty rest else show_line l ++ dump_lines false rest
  end.

Definition dump_str (c : Config) : str :=
  concat (map show_line (prefix c)) ++ dump_lines (bool_decide (prefix c = [])) (concat (map section_lines (sections c))).

(** ** Structs *)

Inductive AggMode : Type := Optional | Single | List_.

Section Fields.
(** The values of fields that are not booleans. *)
Context {X : Type}.

Inductive Scalar : Type := SBool (b : bool) | SOther (x : X).

(** How a field is parsed and displayed: [FromStr] and [Inpt] by functions of its type. *)
Inductive ParseMode : Type :=
| FromStr (from_str : str -> option X) (display : X -> str)
| InptMode (from_inpt : str -> option X) (display : X -> str)
| Bool.

Inductive FieldValue : Type :=
| VOptional (v : option Scalar)
| VSingle (v : Scalar)
| VList (v : list Scalar).

Record UciField : Type := mkField {
  f_name : str;
  f_default : option Scalar;
  f_default_value : option FieldValue;
  f_agg : AggMode;
  f_parse : ParseMode;
}.

Definition is_list (f : UciField) : bool := match f_agg f with List_ => true | _ => false end.

(** [parse_fromstr], [parse_inpt], [parse_bool]. *)
Definition parse_value (f : UciField) (value : Token) (index : nat) : result Scalar Error :=
  match f_parse f with
  | FromStr from _ | InptMode from _ =>
      match from (as_str value) with Some x => Ok (SOther x) | None => Err (ValueMsg (UnknownLine index)) end
  | Bool => let? b := parse_bool value index in Ok (SBool b)
  end.

(** *** Reading *)

(** The placeholders of the fields. *)
Definition read_option (name : str) (value : Token) (index : nat) : list UciField -> list (list Scalar) -> result (list (list Scalar)) Error :=
  fix go fields placed :=
    match fields, placed with
    | f :: fs, p :: ps =>
        if negb (is_list f) && bool_decide (f_name f = name) && bool_decide (p = []) then
          let? v := parse_value f value index in Ok ([v] :: ps)
        else let? ps := go fs ps in Ok (p :: ps)
    | _, _ => Ok placed
    end.

Definition read_list (name : str) (item : Token) (index : nat) : list UciField -> list (list Scalar) -> result (list (list Scalar)) Error :=
  fix go fields placed :=
    match fields, placed with
    | f :: fs, p :: ps =>
        if is_list f && bool_decide (f_name f = name) then
          let? v := parse_value f item index in Ok ((p ++ [v]) :: ps)
        else let? ps := go fs ps in Ok (p :: ps)
    | _, _ => Ok placed
    end.

Fixpoint read_loop (fields : list UciField) (index : nat) (lines : list Line) (placed : list (list Scalar)) : result (list (list Scalar)) Error :=
  match lines with
  | [] | Line_Section _ _ _ :: _ => Ok placed
  | Line_Option option_ value _ :: rest =>
      let? placed := read_option (as_str option_) value index fields placed in read_loop fields (index + 1) rest placed
  | Line_List list_ item _ :: rest =>
      let? placed := read_list (as_str list_) item index fields placed in read_loop fields (index + 1) rest placed
  | _ :: rest => read_loop fields (index + 1) rest placed
  end.

Definition read_init (f : UciField) (placed : list Scalar) : result FieldValue Error :=
  match f_agg f with
  | Optional =>
      Ok (match placed, f_default_value f with
          | v :: _, _ => VOptional (Some v)
          | [], Some d => d
          | [], None => VOptional None
          end)
  | List_ => Ok (match placed, f_default_value f with [], Some d => d | _, _ => VList placed end)
  | Single =>
      match placed, f_default_value f, f_default f with
      | v :: _, _, _ => Ok (VSingle v)
      | [], Some d, _ => Ok d
      | [], None, Some v => Ok (VSingle v)
      | [], None, None => Err (MissingOption (UnknownLine 0) (f_name f))
      end
  end.

Fixpoint read_inits (fields : list UciField) (placed : list (list Scalar)) : result (list FieldValue) Error :=
  match fields, placed with
  | f :: fs, p :: ps => let? v := read_init f p in let? vs := read_inits fs ps in Ok (v :: vs)
  | _, _ => Ok []
  end.

(** The comments and empty lines before the header. *)
Fixpoint skip_leading (lines : list Line) : list Line * list Line :=
  match lines with
  | (Line_Comment _ _ | Line_Empty) as l :: rest => let '(skipped, rest) := skip_leading rest in (l :: skipped, rest)
  | _ => ([], lines)
  end.

(** The lines up to the header, which has the type, and those behind it. *)
Definition find_header (ty : str) (lines : list Line) : result (list Line * list Line) Error :=
  let '(skipped, rest) := skip_leading lines in
  let src := UnknownLine (length skipped) in
  match rest with
  | Line_Section t _ _ as l :: rest =>
      if negb (bool_decide (as_str t = ty)) then Err (ExpectedSectionType src ty (as_str t)) else Ok (skipped ++ [l], rest)
  | _ => Err (ExpectedSection src)
  end.

Definition TypedSection_read (ty : str) (fields : list UciField) (s : UciSection) : result (list FieldValue) Error :=
  let? (before, rest) := find_header ty (section_lines s) in
  let? placed := read_loop fields (length before) rest (map (fun _ => []) fields) in
  read_inits fields placed.

(** *** Writing *)

Definition scalars (v : FieldValue) : list Scalar :=
  match v with
  | VOptional o => match o with Some x => [x] | None => [] end
  | VSingle x => [x]
  | VList l => l
  end.

(** The line of a value.  A value of another type than that of the field does not occur. *)
Definition write_line (f : UciField) (v : Scalar) : Line :=
  match f_parse f, v with
  | Bool, SBool b => if is_list f then list_from_bool (f_name f) b else option_from_bool (f_name f) b
  | (FromStr _ display | InptMode _ display), SOther x => if is_list f then list_from_display (f_name f) (display x) else option_from_display (f_name f) (display x)
  | _, _ => Line_Skip
  end.

(** The iterators: the lines of each field that are still to be written. *)
Definition write_decl (fields : list UciField) (values : list FieldValue) : list (list Line) :=
  zip_with (fun f v => map (write_line f) (scalars v)) fields values.

(** The arm of a name: the next line of the field, or [None] when the name is that of no field. *)
Definition write_arm (wanted : UciField -> bool) : list UciField -> list (list Line) -> option (option Line * list (list Line)) :=
  fix go fields iters :=
    match fields, iters with
    | f :: fs, i :: is_ =>
        if wanted f then Some (match i with [] => (None, [] :: is_) | l :: i => (Some l, i :: is_) end)
        else '(next, is_) ← go fs is_; Some (next, i :: is_)
    | _, _ => None
    end.

Definition option_arm (name : str) : UciField -> bool := fun f => negb (is_list f) && bool_decide (f_name f = name).
Definition list_arm (name : str) : UciField -> bool := fun f => is_list f && bool_decide (f_name f = name).

Definition line_arm (l : Line) : option (UciField -> bool) :=
  match l with
  | Line_Option option_ _ _ => Some (option_arm (as_str option_))
  | Line_List list_ _ _ => Some (list_arm (as_str list_))
  | _ => None
  end.

(** The lines behind the header: what they become, the iterators that are left, and where to insert. *)
Fixpoint write_loop (fields : list UciField) (iters : list (list Line)) (index insert_after : nat) (lines : list Line) : list Line * list (list Line) * nat :=
  match lines with
  | [] => ([], iters, insert_after)
  | Line_Section _ _ _ :: _ => (lines, iters, insert_after)
  | line :: rest =>
      let insert_after := if is_in_section line then index else insert_after in
      match line_arm line ≫= fun wanted => write_arm wanted fields iters with
      | None => let '(rest, iters, insert_after) := write_loop fields iters (index + 1) insert_after rest in (line :: rest, iters, insert_after)
      | Some (next, iters) =>
          let '(rest, iters, insert_after) := write_loop fields iters (index + 1) index rest in
          (default Line_Skip next :: rest, iters, insert_after)
      end
  end.

Definition TypedSection_write (ty : str) (fields : list UciField) (values : list FieldValue) (s : UciSection) : UciSection * result unit Error :=
  match find_header ty (section_lines s) with
  | Err e => (s, Err e)
  | Ok (before, rest) =>
      let '(rest, iters, insert_after) := write_loop fields (write_decl fields values) (length before) (length before - 1) rest in
      let lines := before ++ rest in
      (mkUciSection (take (insert_after + 1) lines ++ concat iters ++ drop (insert_after + 1) lines), Ok tt)
  end.

Definition TypedSection_append (ty : str) (fields : list UciField) (values : list FieldValue) (name : option str) : UciSection :=
  let s := Section_new ty name in
  mkUciSection (section_lines s ++ concat (write_decl fields values)).

Definition Config_append (ty : str) (fields : list UciField) (values : list FieldValue) (name : option str) (c : Config) : Config :=
  mkConfig (prefix c) (sections c ++ [TypedSection_append ty fields values name]) (modified c).

Definition Section_get_typed (ty : str) (fields : list UciField) (s : UciSection) : outcome (result (option (list FieldValue)) Error) :=
  let* found := Section_ty s in
  Done (if bool_decide (found = ty) then let? v := TypedSection_read ty fields s in Ok (Some v) else Ok None).

Definition Section_get (ty : str) (fields : list UciField) (s : UciSection) : result (list FieldValue) Error := TypedSection_read ty fields s.
Definition Section_set (ty : str) (fields : list UciField) (values : list FieldValue) (s : UciSection) : UciSection * result unit Error := TypedSection_write ty fields values s.

(** [Config::each]: the calls that are made, and how it ends. *)
Fixpoint each_section (ty : str) (fields : list UciField) (l : list UciSection) : outcome (list (option str * list FieldValue) * result unit Error) :=
  match l with
  | [] => Done ([], Ok tt)
  | s :: rest =>
      let* found := Section_ty s in
      if bool_decide (found = ty) then
        let* name := Section_name s in
        match TypedSection_read ty fields s with
        | Err e => Done ([], Err e)
        | Ok v => let* (calls, r) := each_section ty fields rest in Done ((name, v) :: calls, r)
        end
      else each_section ty fields rest
  end.

Definition Config_each (ty : str) (fields : list UciField) (c : Config) : outcome (list (option str * list FieldValue) * result unit Error) :=
  each_section ty fields (sections c).

(** [Config::try_each]: the closure changes a state and may fail. *)
Fixpoint try_each_section {E T} (from : Error -> E) (each : option str -> list FieldValue -> T -> T * result unit E) (ty : str) (fields : list UciField) (l : list UciSection) (st : T) : outcome (T * result unit E) :=
  match l with
  | [] => Done (st, Ok tt)
  | s :: rest =>
      let* found := Section_ty s in
      if bool_decide (found = ty) then
        let* name := Section_name s in
        match TypedSection_read ty fields s with
        | Err e => Done (st, Err (from e))
        | Ok v =>
            match each name v st with
            | (st, Ok _) => try_each_section from each ty fields rest st
            | (st, Err e) => Done (st, Err e)
            end
        end
      else try_each_section from each ty fields rest st
  end.

Definition Config_try_each {E T} (from : Error -> E) (each : option str -> list FieldValue -> T -> T * result unit E) (ty : str) (fields : list UciField) (c : Config) : T -> outcome (T * result unit E) :=
  try_each_section from each ty fields (sections c).

(** A closure that collects its calls is what [each] does. *)
Lemma try_each_collects ty fields l calls : try_each_section (fun e => e) (fun name v st => (st ++ [(name, v)], Ok tt)) ty fields l calls = outcome_map (fun r => (calls ++ r.1, r.2)) (each_section ty fields l).
Proof.
  revert calls. induction l as [|s l IH]; intros calls; cbn [try_each_section each_section]; [cbn; by rewrite app_nil_r|]. destruct (Section_ty s) as [found|]; try done. cbn [outcome_bind].
  case_bool_decide; [|apply IH]. destruct (Section_name s) as [name|]; try done. cbn [outcome_bind]. destruct (TypedSection_read ty fields s) as [v|e]; [|cbn; by rewrite app_nil_r].
  rewrite IH. destruct (each_section ty fields l) as [[cs r]|]; try done. cbn. by rewrite <- app_assoc.
Qed.
End Fields.
End Syntax.
Arguments Scalar X : clear implicits.
Arguments ParseMode X : clear implicits.
Arguments FieldValue X : clear implicits.
Arguments UciField X : clear implicits.
