(* ===== verification/UciPrint.v ===== *)
(** * Configuration files are parsed as they were printed

    The laws of the scanner ([InptOk]), and the round trip of lines and files: a file of canonical lines is parsed, after it was printed, into sections with
    the same headers and the same options, whichever section a comment or an empty line goes to; printing it again gives the same text
    ([dump_parse]). *)
From S2P Require Import Prelude RustStr UciSyntax.

Local Open Scope rust_scope.

(** ** What the code relies on *)

(** The end of a token. *)
Definition token_ends (rest : str) : Prop := rest = [] \/ exists r, rest = 32%N :: r.

(** A word that is not taken for a quoted string. *)
Definition word (w : str) : Prop := w ≠ [] /\ Forall (fun c => is_whitespace c = false) w /\ head w ≠ Some 34%N /\ head w ≠ Some 39%N.

(** Text that can stand between single quotes in a line as it is. *)
Definition quotable (s : str) : Prop := (39%N ∉ s) /\ (92%N ∉ s) /\ (10%N ∉ s).

(** Text of a comment. *)
Definition tidy (t : str) : Prop := trim t = t /\ (10%N ∉ t).

(** Text of which [Debug] escapes tabs, line ends, double quotes and backslashes only. *)
Definition escapable `{U : Unicode} (s : str) : Prop := Forall (fun c => c ≠ 0%N /\ length (escape_char c) <= 2) s.

Class InptOk `(U : Unicode) (I : Inpt) : Prop := {
  step_nothing : inpt_step [] = None;
  step_space : forall s, inpt_step (32%N :: s) = inpt_step s;
  step_quoted : forall s rest, escapable s -> token_ends rest -> inpt_step ([34%N] ++ escape_debug s ++ [34%N] ++ rest) = Some (Q (escape_debug s), rest);
  step_single : forall s rest, quotable s -> token_ends rest -> inpt_step ([39%N] ++ s ++ [39%N] ++ rest) = Some (Sq s, rest);
  step_word : forall w rest, word w -> token_ends rest -> inpt_step (w ++ rest) = Some (W w, rest);
  comment_nothing : inpt_comment [] = Some NoComment;
  comment_text : forall t, tidy t -> inpt_comment ($" #" ++ t) = Some (Commented t);
  unescape_debug : forall s, escapable s -> unescape (escape_debug s) = s;
  unescape_plain : forall s, 92%N ∉ s -> unescape s = s;
}.

(** ** Text *)

Lemma trim_start_id s : (forall c, head s = Some c -> is_whitespace c = false) -> trim_start s = s.
Proof. destruct s as [|c s]; [done|]. intros Hs. cbn. by rewrite (Hs c eq_refl). Qed.

(** Text that ends in something visible. *)
Definition solid (s : str) : Prop := exists c, last s = Some c /\ is_whitespace c = false.

Lemma solid_app a b : solid b -> solid (a ++ b).
Proof. intros (c & Hc & Hw). exists c. split; [|done]. by rewrite last_app, Hc. Qed.

Lemma solid_one c : is_whitespace c = false -> solid [c].
Proof. by exists c. Qed.

Lemma head_reverse (s : str) : head (reverse s) = last s.
Proof. induction s as [|c s] using rev_ind; [done|]. by rewrite reverse_snoc, last_snoc. Qed.

Lemma last_reverse (s : str) : last (reverse s) = head s.
Proof. destruct s as [|c s]; [done|]. by rewrite reverse_cons, last_snoc. Qed.

Lemma trim_end_id s : s = [] \/ solid s -> trim_end s = s.
Proof.
  intros Hs. unfold trim_end. rewrite trim_start_id; [apply reverse_involutive|]. intros c. rewrite head_reverse. destruct Hs as [->|(d & Hd & Hw)]; [done|]. rewrite Hd. by intros [= ->].
Qed.

Lemma trim_start_last s : forall c, head (trim_start s) = Some c -> is_whitespace c = false.
Proof. induction s as [|d s IH]; [done|]. intros c. cbn. destruct (is_whitespace d) eqn:Ed; [apply IH|]. by intros [= <-]. Qed.

Lemma trim_end_solid s : trim_end s = s -> s = [] \/ solid s.
Proof.
  intros E. destruct (last s) as [c|] eqn:El; [right|left; by apply last_None]. exists c. split; [done|]. rewrite <- E in El. unfold trim_end in El. rewrite last_reverse in El.
  by eapply trim_start_last.
Qed.

Lemma trim_id s : s = [] \/ solid s -> (forall c, head s = Some c -> is_whitespace c = false) -> trim s = s.
Proof. intros Hs Hh. unfold trim. rewrite (trim_start_id s Hh). by apply trim_end_id. Qed.

Lemma tidy_solid t : tidy t -> t = [] \/ solid t.
Proof.
  intros [E _]. unfold trim in E. assert (trim_end t = t) as Et; [|by apply trim_end_solid].
  apply trim_end_id. destruct (last t) as [c|] eqn:El; [right|left; by apply last_None]. exists c. split; [done|]. rewrite <- E in El. unfold trim_end in El. rewrite last_reverse in El.
  by eapply trim_start_last.
Qed.

Lemma split_line l r : 10%N ∉ l -> split_inclusive (l ++ [10%N] ++ r) = (l ++ [10%N]) :: split_inclusive r.
Proof.
  induction l as [|c l IH]; intros Hl; cbn [app split_inclusive]; [by rewrite bool_decide_true|]. apply not_elem_of_cons in Hl as [Hc Hl]. rewrite bool_decide_false by done.
  cbn [app] in IH. by rewrite (IH Hl).
Qed.

Lemma strip_line_snoc l : last l ≠ Some 13%N -> strip_line (l ++ [10%N]) = l.
Proof.
  intros Hl. unfold strip_line, strip_suffix_char. rewrite reverse_snoc, bool_decide_true by done. rewrite reverse_involutive. destruct (reverse l) as [|x r] eqn:E; [done|].
  case_bool_decide as Hx; [|done]. subst x. exfalso. apply Hl. rewrite <- head_reverse, E. done.
Qed.

(** ** Canonical lines *)

Section Print.
Context `{U : Unicode} `{I : Inpt} `{!InptOk U I}.

Inductive canonical : Token -> Prop :=
| canonical_quoted s : escapable s -> canonical (Q (escape_debug s))
| canonical_single s : quotable s -> canonical (Sq s)
| canonical_word w : word w -> canonical (W w).

Definition canonical_comment (c : LineComment) : Prop := match c with NoComment => True | Commented t => tidy t end.

(** A comment of one word behind a header without a name would be parsed as the name. *)
Definition canonical_line (l : Line) : Prop :=
  match l with
  | Line_Empty | Line_Skip => True
  | Line_Comment _ text => trim_end text = text /\ (10%N ∉ text)
  | Line_Section ty None comment => canonical ty /\ comment = NoComment
  | Line_Section ty (Some name) comment => canonical ty /\ canonical name /\ canonical_comment comment
  | Line_Option a b comment | Line_List a b comment => canonical a /\ canonical b /\ canonical_comment comment
  end.

(** A line without its end. *)
Definition line_text (l : Line) : str :=
  match l with
  | Line_Empty | Line_Skip => []
  | Line_Comment indent text => (if indent then [9%N] else []) ++ $"#" ++ text
  | Line_Section ty None tail => $"config" ++ [32%N] ++ show_token ty ++ show_comment tail
  | Line_Section ty (Some name) tail => $"config" ++ [32%N] ++ show_token ty ++ [32%N] ++ show_token name ++ show_comment tail
  | Line_Option a b tail => [9%N] ++ $"option" ++ [32%N] ++ show_token a ++ [32%N] ++ show_token b ++ show_comment tail
  | Line_List a b tail => [9%N] ++ $"list" ++ [32%N] ++ show_token a ++ [32%N] ++ show_token b ++ show_comment tail
  end.

Lemma show_line_text l : l ≠ Line_Skip -> show_line l = line_text l ++ [10%N].
Proof. destruct l as [|[] text|ty [name|] tail|a b tail|a b tail|]; intros ?; try done; cbn; repeat (rewrite <- app_assoc; cbn); done. Qed.

Lemma escape_char_line c : 10%N ∉ escape_char c.
Proof.
  assert (forall n, (n < 16)%N -> hex_digit n ≠ 10%N) as Hhex by (intros n Hn; unfold hex_digit; destruct (n <? 10)%N eqn:E; lia).
  assert (forall fuel n, 10%N ∉ show_hex fuel n) as Hshow.
  { induction fuel as [|fuel IH]; intros n; cbn; [apply not_elem_of_nil|]. destruct (n <? 16)%N eqn:E.
    - apply N.ltb_lt in E. apply not_elem_of_cons. split; [by apply not_eq_sym, Hhex|apply not_elem_of_nil].
    - rewrite not_elem_of_app. split; [apply IH|]. apply not_elem_of_cons. split; [apply not_eq_sym, Hhex, N.mod_lt; lia|apply not_elem_of_nil]. }
  unfold escape_char. repeat (match goal with |- context [if ?b then _ else _] => lazymatch b with (_ =? _)%N => destruct b eqn:? end end; [by vm_compute; intros H; repeat (apply elem_of_cons in H as [?|H]; [done|]); apply elem_of_nil in H|]).
  destruct (if (c <? 128)%N then _ else _).
  - rewrite !not_elem_of_app. split_and!; [|apply Hshow|]; vm_compute; intros H; repeat (apply elem_of_cons in H as [?|H]; [done|]); by apply elem_of_nil in H.
  - apply not_elem_of_cons. split; [|apply not_elem_of_nil]. intros <-. done.
Qed.

Lemma escape_debug_plain s : 10%N ∉ escape_debug s.
Proof.
  unfold escape_debug. intros Hin. apply list_elem_of_In, in_concat in Hin as (l & Hl & Hin). apply in_map_iff in Hl as (c & <- & _).
  apply list_elem_of_In in Hin. by apply escape_char_line in Hin.
Qed.

Lemma word_plain w : Forall (fun c => is_whitespace c = false) w -> 10%N ∉ w.
Proof. intros HF Hin. rewrite Forall_forall in HF. by specialize (HF _ Hin). Qed.

Lemma token_solid t : canonical t -> solid (show_token t).
Proof.
  destruct 1 as [s|s Hs|w (Hne & HF & _)]; cbn [show_token]; [apply solid_app, solid_app; by apply solid_one..|].
  destruct (last w) as [c|] eqn:El; [|by apply last_None in El]. exists c. split; [done|]. rewrite Forall_forall in HF. apply HF. by apply last_Some_elem_of.
Qed.

Lemma token_plain t : canonical t -> 10%N ∉ show_token t.
Proof.
  destruct 1 as [s|s (_ & _ & Hs)|w (Hne & HF & _)]; cbn [show_token]; [| |by apply word_plain]; rewrite !not_elem_of_app; split_and!;
    (done || apply escape_debug_plain || (apply not_elem_of_cons; split; [done|apply not_elem_of_nil])).
Qed.

Lemma comment_plain c : canonical_comment c -> 10%N ∉ show_comment c.
Proof.
  destruct c as [|t]; cbn; [intros _; apply not_elem_of_nil|]. intros [_ Ht]. rewrite !not_elem_of_cons. done.
Qed.

Lemma comment_solid c s : canonical_comment c -> solid s -> solid (s ++ show_comment c).
Proof.
  destruct c as [|t]; cbn [show_comment canonical_comment]; [by rewrite app_nil_r|]. intros Ht _. apply solid_app. destruct (tidy_solid t Ht) as [->|Hs]; [by exists 35%N|by apply solid_app].
Qed.

Lemma line_text_solid l : canonical_line l -> line_text l = [] \/ solid (line_text l).
Proof.
  destruct l as [|indent text|ty [name|] tail|a b tail|a b tail|]; cbn [canonical_line line_text]; intros H; [by left| | | | | |by left]; right.
  - apply solid_app. destruct H as [E _]. destruct (trim_end_solid _ E) as [->|Hs]; [by exists 35%N|by apply solid_app].
  - destruct H as (Ht & Hn & Hc). do 4 apply solid_app. apply comment_solid; [done|]. by apply token_solid. 
  - destruct H as (Ht & ->). do 2 apply solid_app. cbn [show_comment]. rewrite app_nil_r. by apply token_solid.
  - destruct H as (Ht & Hn & Hc). do 5 apply solid_app. apply comment_solid; [done|]. by apply token_solid.
  - destruct H as (Ht & Hn & Hc). do 5 apply solid_app. apply comment_solid; [done|]. by apply token_solid.
Qed.

Lemma line_text_plain l : canonical_line l -> 10%N ∉ line_text l.
Proof.
  destruct l as [|indent text|ty [name|] tail|a b tail|a b tail|]; cbn [canonical_line line_text]; intros H; try apply not_elem_of_nil;
    rewrite ?not_elem_of_app; split_and!; try (by apply token_plain, H); try (by apply comment_plain, H); try (by destruct indent; vm_compute; intros Hin; repeat (apply elem_of_cons in Hin as [?|Hin]; [done|]); apply elem_of_nil in Hin);
    try (by vm_compute; intros Hin; repeat (apply elem_of_cons in Hin as [?|Hin]; [done|]); apply elem_of_nil in Hin); [apply H|].
  destruct H as [_ ->]. apply not_elem_of_nil.
Qed.

Lemma line_text_no_cr l : canonical_line l -> last (line_text l) ≠ Some 13%N.
Proof. intros Hl. destruct (line_text_solid l Hl) as [->|(c & -> & Hw)]; [done|]. by intros [= ->]. Qed.

(** ** A line is parsed as it was printed *)

Lemma step_token t rest : canonical t -> token_ends rest -> inpt_step (show_token t ++ rest) = Some (t, rest).
Proof. destruct 1 as [s Hs|s Hs|w Hw]; intros Hr; cbn [show_token]; rewrite <- ?app_assoc; [by apply step_quoted|by apply step_single|by apply step_word]. Qed.

Lemma comment_ends c : canonical_comment c -> token_ends (show_comment c).
Proof. destruct c as [|t]; cbn; [by left|]. right. by eexists. Qed.

Lemma inpt_comment_show c : canonical_comment c -> inpt_comment (show_comment c) = Some c.
Proof. destruct c as [|t]; cbn [canonical_comment show_comment]; intros Hc; [apply comment_nothing|by apply comment_text]. Qed.

Lemma inpt_pair_show a b c : canonical a -> canonical b -> canonical_comment c ->
  inpt_pair (32%N :: show_token a ++ 32%N :: show_token b ++ show_comment c) = Some (a, b, c).
Proof.
  intros Ha Hb Hc. unfold inpt_pair. rewrite step_space, step_token by (done || by right; eexists). cbn [mbind option_bind].
  rewrite step_space, step_token by (done || by apply comment_ends). cbn [mbind option_bind]. by rewrite inpt_comment_show.
Qed.

Lemma inpt_single_show a : canonical a -> inpt_pair (32%N :: show_token a) = None /\ inpt_single (32%N :: show_token a) = Some (a, NoComment).
Proof.
  intros Ha. unfold inpt_pair, inpt_single. rewrite <- (app_nil_r (show_token a)), step_space, step_token by (done || by left). cbn [mbind option_bind].
  rewrite step_nothing. split; [done|]. by rewrite comment_nothing.
Qed.

(** A line of a keyword and more. *)
Lemma parse_keyword indent k rest n : word k -> head k ≠ Some 35%N -> solid rest ->
  Line_parse ((if indent : bool then [9%N] else []) ++ k ++ 32%N :: rest) n =
  Done (let src := UnknownLine n in
    if bool_decide (k = $"config") then
      match inpt_pair (32%N :: rest) with
      | Some (ty, name, comment) => Ok (Line_Section ty (Some name) comment)
      | None => match inpt_single (32%N :: rest) with Some (ty, comment) => Ok (Line_Section ty None comment) | None => Err (BadSection src) end
      end
    else if bool_decide (k = $"option") then
      match inpt_pair (32%N :: rest) with Some (option_, value, comment) => Ok (Line_Option option_ value comment) | None => Err (BadOption src) end
    else if bool_decide (k = $"list") then
      match inpt_pair (32%N :: rest) with Some (list_, item, comment) => Ok (Line_List list_ item comment) | None => Err (BadList src) end
    else Err (UnknownKeyword src k)).
Proof.
  intros Hk Hh Hr. unfold Line_parse. assert (trim ((if indent then [9%N] else []) ++ k ++ 32%N :: rest) = k ++ 32%N :: rest) as ->.
  { assert (trim (k ++ 32%N :: rest) = k ++ 32%N :: rest) as E; [|by destruct indent].
    apply trim_id; [right; apply solid_app; by apply (solid_app [32%N])|]. destruct Hk as (Hne & HF & _). destruct k as [|c k]; [done|]. intros d [= <-]. by apply Forall_cons in HF as [? _]. }
  rewrite bool_decide_false by (destruct Hk as [? _]; by destruct k).
  assert (strip_prefix_char 35 (k ++ 32%N :: rest) = None) as ->.
  { destruct Hk as [? _]. destruct k as [|c k]; [done|]. unfold strip_prefix_char. cbn [app]. destruct (decide (c = 35%N)) as [->|Hne]; [done|]. by case_match; bool_to_prop. }
  rewrite step_word by (done || by right; eexists). done.
Qed.

Lemma line_parse_text l n : canonical_line l -> l ≠ Line_Skip -> Line_parse (line_text l) n = Done (Ok l).
Proof.
  assert (word $"config" /\ word $"option" /\ word $"list") as (Wc & Wo & Wl) by (vm_compute; split_and!; repeat constructor; done).
  destruct l as [|indent text|ty [name|] tail|a b tail|a b tail|]; cbn [canonical_line line_text]; intros Hl Hs; [done| | | | | |done].
  - destruct Hl as [E _]. unfold Line_parse. assert (trim ((if indent then [9%N] else []) ++ $"#" ++ text) = $"#" ++ text) as ->.
    { assert (trim ($"#" ++ text) = $"#" ++ text) as E'; [|by destruct indent]. apply trim_id; [right|by intros c [= <-]]. destruct (trim_end_solid _ E) as [->|Hs']; [by exists 35%N|by apply solid_app]. }
    rewrite bool_decide_false by done. by destruct indent.
  - destruct Hl as (Ht & Hn & Hc). etrans; [apply (parse_keyword false $"config" (show_token ty ++ 32%N :: show_token name ++ show_comment tail) n); [done|done|apply solid_app, (solid_app [32%N]), comment_solid; [done|by apply token_solid]]|].
    rewrite bool_decide_true by done. cbn [app]. by rewrite inpt_pair_show.
  - destruct Hl as (Ht & ->). cbn [show_comment]. rewrite app_nil_r. etrans; [apply (parse_keyword false $"config" (show_token ty) n); [done|done|by apply token_solid]|].
    rewrite bool_decide_true by done. cbn [app]. by destruct (inpt_single_show ty Ht) as [-> ->].
  - destruct Hl as (Ht & Hn & Hc). etrans; [apply (parse_keyword true $"option" (show_token a ++ 32%N :: show_token b ++ show_comment tail) n); [done|done|apply solid_app, (solid_app [32%N]), comment_solid; [done|by apply token_solid]]|].
    rewrite bool_decide_false, bool_decide_true by done. cbn [app]. by rewrite inpt_pair_show.
  - destruct Hl as (Ht & Hn & Hc). etrans; [apply (parse_keyword true $"list" (show_token a ++ 32%N :: show_token b ++ show_comment tail) n); [done|done|apply solid_app, (solid_app [32%N]), comment_solid; [done|by apply token_solid]]|].
    rewrite bool_decide_false, bool_decide_false, bool_decide_true by done. cbn [app]. by rewrite inpt_pair_show.
Qed.

(** ** Lines of a file *)

Definition visible (ls : list Line) : list Line := filter (fun l => l ≠ Line_Skip) ls.

Lemma visible_app a b : visible (a ++ b) = visible a ++ visible b.
Proof. apply filter_app. Qed.

Lemma lines_of ls : Forall canonical_line ls -> str_lines (concat (map show_line ls)) = map line_text (visible ls).
Proof.
  unfold str_lines, visible. induction 1 as [|l ls Hl _ IH]; [done|]. cbn [map concat]. destruct (decide (l = Line_Skip)) as [->|Hs].
  - rewrite filter_cons_False by by intros []. exact IH.
  - rewrite filter_cons_True by done. rewrite show_line_text, <- app_assoc, split_line by (done || by apply line_text_plain). cbn [map]. rewrite strip_line_snoc by by apply line_text_no_cr.
    by rewrite IH.
Qed.

Definition grouped (before : list (list Line)) (last_section : list Line) (ls : list Line) : list (list Line) * list Line :=
  fold_left (fun st l => add_line l st.1 st.2) ls (before, last_section).

Lemma parse_lines_text ls n before last_section : Forall canonical_line ls -> Forall (fun l => l ≠ Line_Skip) ls ->
  parse_lines n (map line_text ls) before last_section = Done (Ok ((grouped before last_section ls).1 ++ [(grouped before last_section ls).2])).
Proof.
  intros Hc. revert n before last_section. induction Hc as [|l ls Hl _ IH]; intros n before last_section Hs; [done|]. apply Forall_cons in Hs as [Hl' Hs]. cbn [map parse_lines].
  rewrite line_parse_text by done. cbn [outcome_bind]. unfold grouped. cbn [fold_left fst snd]. destruct (add_line l before last_section) as [b m]. by rewrite IH.
Qed.

(** ** Sections *)

Definition blank (l : Line) : bool := match l with Line_Empty | Line_Comment _ _ => true | _ => false end.
Definition is_header (l : Line) : bool := match l with Line_Section _ _ _ => true | _ => false end.
Definition is_content (l : Line) : bool := match l with Line_Option _ _ _ | Line_List _ _ _ => true | _ => false end.

Definition content (ls : list Line) : list Line := List.filter is_content ls.

Definition has_no_header (ls : list Line) : bool := forallb (fun l => negb (is_header l)) ls.

(** The header of a section, the only one, and its options and lists. *)
Fixpoint parts (ls : list Line) : option (Line * list Line) :=
  match ls with
  | (Line_Empty | Line_Comment _ _) :: rest => parts rest
  | Line_Section _ _ _ as h :: rest => if has_no_header rest then Some (h, content rest) else None
  | _ => None
  end.

Lemma content_app a b : content (a ++ b) = content a ++ content b.
Proof. apply List.filter_app. Qed.

Lemma content_blank x : Forall (fun l => blank l = true) x -> content x = [] /\ has_no_header x = true.
Proof. induction 1 as [|l x Hl _ [IH1 IH2]]; [done|]. destruct l; try done; by cbn. Qed.

Lemma parts_app_blank ls x : Forall (fun l => blank l = true) x -> parts (ls ++ x) = parts ls.
Proof.
  intros Hx. destruct (content_blank x Hx) as [Ec Eh]. induction ls as [|l ls IH]; cbn [app].
  - clear Ec Eh. induction Hx as [|l x Hl _ IH]; [done|]. by destruct l.
  - destruct l; cbn [parts]; try done. unfold has_no_header. rewrite forallb_app. fold (has_no_header ls) (has_no_header x). rewrite Eh, andb_true_r, content_app, Ec, app_nil_r. done.
Qed.

Lemma parts_lead x ls : Forall (fun l => blank l = true) x -> parts (x ++ ls) = parts ls.
Proof. induction 1 as [|l x Hl _ IH]; [done|]. by destruct l. Qed.

(** What makes up a section. *)
Lemma parts_split ls h cs : parts ls = Some (h, cs) -> exists lead body, ls = lead ++ h :: body /\ Forall (fun l => blank l = true) lead /\
  is_header h = true /\ has_no_header body = true /\ cs = content body.
Proof.
  induction ls as [|l ls IH]; [done|]. destruct l; cbn [parts]; try done.
  - intros Hp. destruct (IH Hp) as (lead & body & -> & Hl & Hr). exists (Line_Empty :: lead), body. split; [done|]. split; [by constructor|done].
  - intros Hp. destruct (IH Hp) as (lead & body & -> & Hl & Hr). exists (Line_Comment indent text :: lead), body. split; [done|]. split; [by constructor|done].
  - destruct (has_no_header ls) eqn:Eh; [|done]. intros [= <- <-]. exists [], ls. done.
Qed.

Lemma parts_header h body : is_header h = true -> has_no_header body = true -> parts (h :: body) = Some (h, content body).
Proof. destruct h; try done. cbn [parts]. by intros _ ->. Qed.

Lemma visible_blank x : Forall (fun l => blank l = true) x -> visible x = x.
Proof. unfold visible. induction 1 as [|l x Hl _ IH]; [done|]. rewrite filter_cons_True by by intros ->. by rewrite IH. Qed.

Lemma visible_content ls : content (visible ls) = content ls.
Proof.
  unfold visible. induction ls as [|l ls IH]; [done|]. destruct (decide (l = Line_Skip)) as [->|Hs].
  - rewrite filter_cons_False by by intros []. exact IH.
  - rewrite filter_cons_True by done. unfold content in *. cbn [List.filter]. by rewrite IH.
Qed.

Lemma visible_no_header ls : has_no_header ls = true -> has_no_header (visible ls) = true.
Proof. unfold visible, has_no_header. rewrite !forallb_forall. intros Hl x Hx. apply Hl. apply list_elem_of_In in Hx. apply list_elem_of_filter in Hx as [_ Hx]. by apply list_elem_of_In. Qed.

Lemma parts_visible ls p : parts ls = Some p -> parts (visible ls) = Some p.
Proof.
  destruct p as [h cs]. intros Hp. destruct (parts_split _ _ _ Hp) as (lead & body & -> & Hl & Hh & Hb & ->). rewrite visible_app, (visible_blank _ Hl), parts_lead by done.
  unfold visible at 1. rewrite filter_cons_True by by intros ->. fold (visible body). by rewrite parts_header, visible_content by (done || by apply visible_no_header).
Qed.

(** ** Which section a line goes to *)

Lemma pop_leading_spec hs reversed acc kept new : pop_leading hs reversed acc = (kept, new) -> Forall (fun l => leads_header hs l = true) acc ->
  kept ++ new = reverse reversed ++ reverse acc /\ Forall (fun l => leads_header hs l = true) new.
Proof.
  revert acc. induction reversed as [|l reversed IH]; intros acc; cbn [pop_leading].
  - intros [= <- <-] Ha. split; [done|]. by apply Forall_reverse.
  - destruct (leads_header hs l) eqn:El.
    + intros E Ha. destruct (IH _ E) as [Ek Hn]; [apply Forall_app; split; [done|by constructor]|]. split; [|done]. rewrite Ek, reverse_snoc, reverse_cons. by rewrite <- app_assoc.
    + intros [= <- <-] Ha. split; [done|]. by apply Forall_reverse.
Qed.

Lemma leads_blank hs l : leads_header hs l = true -> blank l = true.
Proof. by destruct l as [|[]| | | |]. Qed.

Lemma grouped_app before last_section a b : grouped before last_section (a ++ b) = grouped (grouped before last_section a).1 (grouped before last_section a).2 b.
Proof. unfold grouped. rewrite fold_left_app. by destruct (fold_left _ a _). Qed.

Lemma grouped_body before last_section x : has_no_header x = true -> grouped before last_section x = (before, last_section ++ x).
Proof.
  unfold grouped. revert last_section. induction x as [|l x IH]; intros last_section; cbn [fold_left fst snd]; [by rewrite app_nil_r|]. unfold has_no_header. cbn [forallb].
  intros [Hl Hx]%andb_true_iff. assert (add_line l before last_section = (before, last_section ++ [l])) as -> by by destruct l. cbn [fst snd]. rewrite (IH _ Hx). by rewrite <- app_assoc.
Qed.

Lemma grouped_header before last_section h : is_header h = true -> exists kept new, grouped before last_section [h] = (before ++ [kept], new ++ [h]) /\ kept ++ new = last_section /\
  Forall (fun l => blank l = true) new /\ (before = [] -> Forall (fun l => l ≠ Line_Empty) new).
Proof.
  intros Hh. unfold grouped. cbn [fold_left fst snd]. assert (add_line h before last_section =
    let '(kept, new) := pop_leading (bool_decide (before ≠ [])) (reverse last_section) [] in (before ++ [kept], new ++ [h])) as -> by by destruct h.
  destruct (pop_leading _ _ []) as [kept new] eqn:E. apply pop_leading_spec in E as [Ek Hn]; [|constructor]. exists kept, new. split; [done|].
  rewrite reverse_involutive, app_nil_r in Ek. split; [done|]. split; [eapply Forall_impl; [exact Hn|]; intros l; apply leads_blank|].
  intros ->. eapply Forall_impl; [exact Hn|]. intros l Hl ->. done.
Qed.

(** Sections keep their headers and options; what is between them may go to another one. *)
Lemma grouped_sections (S : list (list Line)) before last_section : Forall (fun s => is_Some (parts s)) S ->
  exists last' T new lead, (grouped before last_section (concat S)).1 ++ [(grouped before last_section (concat S)).2] = before ++ last' :: T /\
    Forall2 (fun s t => parts s = parts t) S T /\ last' ++ concat T = last_section ++ concat S /\
    last' ++ new = last_section ++ lead /\ Forall (fun l => blank l = true) new /\ Forall (fun l => blank l = true) lead /\ (before = [] -> Forall (fun l => l ≠ Line_Empty) new) /\
    (S = [] -> lead = []) /\ exists r, concat S = lead ++ r.
Proof.
  intros HS. revert before last_section. induction HS as [|s S [[h cs] Hs] _ IH]; intros before last_section.
  { exists last_section, [], [], []. cbn. rewrite !app_nil_r. split_and!; try done; try constructor. by exists []. }
  destruct (parts_split _ _ _ Hs) as (lead & body & -> & Hl & Hh & Hb & ->). cbn [concat]. rewrite <- app_assoc, grouped_app, (grouped_body before last_section lead) by by apply content_blank. cbn [fst snd].
  rewrite <- app_comm_cons. change (h :: body ++ concat S) with ([h] ++ body ++ concat S). rewrite grouped_app. destruct (grouped_header before (last_section ++ lead) h Hh) as (kept & new & -> & Ek & Hn & Hne). cbn [fst snd].
  rewrite grouped_app, (grouped_body _ _ body) by done. cbn [fst snd].
  destruct (IH (before ++ [kept]) ((new ++ [h]) ++ body)) as (last' & T & new' & lead' & Eg & HT & Ec & El & Hn' & Hl' & _).
  exists kept, (last' :: T), new, lead. rewrite Eg. split; [by rewrite <- app_assoc|]. split.
  { constructor; [|done]. rewrite Hs. rewrite <- (parts_app_blank last' new' Hn'), El, parts_app_blank by done. rewrite <- app_assoc. rewrite parts_lead by done. cbn [app]. by rewrite parts_header. }
  cbn [concat]. rewrite Ec. split_and!; [|done|done|done|done|done|by exists (h :: body ++ concat S)].
  rewrite <- !app_assoc, (app_assoc kept new), Ek. by rewrite <- app_assoc.
Qed.

(** ** Reading depends on the header and the options *)

Section reading.
Context {X : Type}.
Implicit Types (fields : list (UciField X)) (placed : list (list (Scalar X))).

Lemma parse_bool_index t i j : result_ok (parse_bool t i) = result_ok (parse_bool t j).
Proof. unfold parse_bool. by do 2 (case_bool_decide; [done|]). Qed.

Lemma parse_value_index (f : UciField X) t i j : result_ok (parse_value f t i) = result_ok (parse_value f t j).
Proof.
  unfold parse_value. destruct (f_parse f) as [from display|from display|]; [by destruct (from _)..|]. pose proof (parse_bool_index t i j) as E.
  destruct (parse_bool t i), (parse_bool t j); cbn in *; congruence.
Qed.

Lemma result_ok_bind {A B E} (m n : result A E) (f g : A -> result B E) : result_ok m = result_ok n -> (forall x, result_ok (f x) = result_ok (g x)) ->
  result_ok (result_bind m f) = result_ok (result_bind n g).
Proof. destruct m as [x|], n as [y|]; cbn; [|done..]. intros [= ->] Hfg. apply Hfg. Qed.

Lemma read_option_index name t i j fields placed : result_ok (read_option name t i fields placed) = result_ok (read_option name t j fields placed).
Proof.
  revert placed. induction fields as [|f fs IH]; intros [|p ps]; try done. cbn [read_option]. destruct (_ && _ && _); (apply result_ok_bind; [apply parse_value_index || apply IH|done]).
Qed.

Lemma read_list_index name t i j fields placed : result_ok (read_list name t i fields placed) = result_ok (read_list name t j fields placed).
Proof.
  revert placed. induction fields as [|f fs IH]; intros [|p ps]; try done. cbn [read_list]. destruct (_ && _); (apply result_ok_bind; [apply parse_value_index || apply IH|done]).
Qed.

Lemma read_loop_content fields i j ls placed : has_no_header ls = true -> result_ok (read_loop fields i ls placed) = result_ok (read_loop fields j (content ls) placed).
Proof.
  revert i j placed. induction ls as [|l ls IH]; intros i j placed; [done|]. unfold has_no_header. cbn [forallb]. intros [Hl Hb]%andb_true_iff.
  destruct l; cbn [content List.filter is_content read_loop]; try done; fold (content ls); try (by apply IH).
  - apply result_ok_bind; [apply read_option_index|]. intros p. by apply IH.
  - apply result_ok_bind; [apply read_list_index|]. intros p. by apply IH.
Qed.

Lemma skip_leading_app lead h rest : Forall (fun l => blank l = true) lead -> is_header h = true -> skip_leading (lead ++ h :: rest) = (lead, h :: rest).
Proof. intros Hl Hh. induction Hl as [|l lead Hx _ IH]; cbn [app]; [by destruct h|]. destruct l; try done; cbn [skip_leading]; by rewrite IH. Qed.

(** What is read from a header and the options. *)
Definition read_parts (ty : str) fields (h : Line) (cs : list Line) : option (list (FieldValue X)) :=
  match h with
  | Line_Section t _ _ =>
      if bool_decide (as_str t = ty) then result_ok (let? placed := read_loop fields 0 cs (map (fun _ => []) fields) in read_inits fields placed) else None
  | _ => None
  end.

Lemma find_header_parts ty lead h body : Forall (fun l => blank l = true) lead -> is_header h = true ->
  find_header ty (lead ++ h :: body) =
  match h with
  | Line_Section t _ _ => if bool_decide (as_str t = ty) then Ok (lead ++ [h], body) else Err (ExpectedSectionType (UnknownLine (length lead)) ty (as_str t))
  | _ => Err (ExpectedSection (UnknownLine (length lead)))
  end.
Proof. intros Hl Hh. unfold find_header. rewrite skip_leading_app by done. destruct h; try done. by case_bool_decide. Qed.

Lemma read_is_parts ty fields s h cs : parts (section_lines s) = Some (h, cs) -> result_ok (TypedSection_read ty fields s) = read_parts ty fields h cs.
Proof.
  intros Hp. destruct (parts_split _ _ _ Hp) as (lead & body & E & Hl & Hh & Hb & ->). unfold TypedSection_read. rewrite E, find_header_parts by done. unfold read_parts.
  destruct h; try done. case_bool_decide; [|done]. cbn [result_bind]. apply result_ok_bind; [by apply read_loop_content|done].
Qed.
End reading.

Lemma header_parts ls h cs : parts ls = Some (h, cs) -> exists ty name c, h = Line_Section ty name c /\ header ls = Done (ty, name).
Proof.
  intros Hp. destruct (parts_split _ _ _ Hp) as (lead & body & -> & Hl & Hh & _). destruct h as [| |ty name c| | |]; try done. exists ty, name, c. split; [done|].
  clear Hp. induction Hl as [|l lead Hx _ IH]; [done|]. by destruct l.
Qed.

(** Sections that no one can tell apart by their type, their name or by what is read from them. *)
Definition same_section (s s' : UciSection) : Prop :=
  Section_ty s' = Section_ty s /\ Section_name s' = Section_name s /\
  forall X ty (fields : list (UciField X)), result_ok (TypedSection_read ty fields s') = result_ok (TypedSection_read ty fields s).

Lemma same_parts s s' : is_Some (parts (section_lines s)) -> parts (section_lines s') = parts (section_lines s) -> same_section s s'.
Proof.
  intros [[h cs] Hp] Hp'. rewrite Hp in Hp'. destruct (header_parts _ _ _ Hp) as (ty & name & c & -> & E). destruct (header_parts _ _ _ Hp') as (ty' & name' & c' & [= <- <- <-] & E').
  unfold same_section, Section_ty, Section_name. rewrite E, E'. split; [done|]. split; [done|]. intros X t fields. by rewrite (read_is_parts _ _ _ _ _ Hp), (read_is_parts _ _ _ _ _ Hp').
Qed.

(** ** Files *)

(** The lines that are printed. *)
Fixpoint dropped (empty : bool) (ls : list Line) : list Line :=
  match ls with
  | [] => []
  | l :: rest => if empty && bool_decide (l = Line_Empty) then dropped empty rest else ls
  end.

Lemma dump_lines_dropped empty ls : dump_lines empty ls = concat (map show_line (dropped empty ls)).
Proof.
  assert (forall ls, dump_lines false ls = concat (map show_line ls)) as Hf by (intros k; induction k as [|l r IH]; [done|]; cbn; by rewrite IH).
  induction ls as [|l ls IH]; [done|]. cbn [dump_lines dropped]. destruct (empty && _); [exact IH|]. cbn [map concat]. by rewrite Hf.
Qed.

Lemma dropped_parts empty s p r : parts s = Some p -> exists s', dropped empty (s ++ r) = s' ++ r /\ parts s' = Some p /\ (empty = true -> head s' ≠ Some Line_Empty) /\ (forall l, l ∈ s' -> l ∈ s).
Proof.
  induction s as [|l s IH]; [done|]. intros Hp. cbn [app dropped]. destruct (empty && bool_decide (l = Line_Empty)) eqn:E.
  - apply andb_true_iff in E as [-> ->%bool_decide_eq_true_1]. destruct (IH Hp) as (s' & Ed & Hs & Hh & Hin). exists s'. split; [done|]. split; [done|]. split; [done|]. intros x Hx. right. by apply Hin.
  - exists (l :: s). split; [done|]. split; [done|]. split; [|done]. intros ->. cbn in E. apply bool_decide_eq_false_1 in E. by intros [= ->].
Qed.

(** A file whose lines can be printed: comments before the first section, sections with one header each. *)
Record config_ok (c : Config) : Prop := {
  co_prefix : Forall (fun l => blank l = true /\ canonical_line l) (prefix c);
  co_sections : Forall (fun s => is_Some (parts (section_lines s)) /\ Forall canonical_line (section_lines s)) (sections c);
}.

Lemma check_prefix_blank n p : Forall (fun l => blank l = true) p -> check_prefix n p = Ok tt.
Proof. intros HF. revert n. induction HF as [|l p Hl _ IH]; intros n; [done|]. destruct l; try done; cbn; apply IH. Qed.

Lemma show_visible ls : concat (map show_line (visible ls)) = concat (map show_line ls).
Proof.
  unfold visible. induction ls as [|l ls IH]; [done|]. destruct (decide (l = Line_Skip)) as [->|Hs].
  - rewrite filter_cons_False by by intros []. exact IH.
  - rewrite filter_cons_True by done. cbn [map concat]. by rewrite IH.
Qed.

(** The sections without the lines that are not printed. *)
Lemma printed_sections empty (secs : list (list Line)) : Forall (fun s => is_Some (parts s) /\ Forall canonical_line s) secs ->
  exists S, visible (dropped empty (concat secs)) = concat S /\ Forall2 (fun s t => parts t = parts s) secs S /\ Forall (fun s => is_Some (parts s) /\ Forall canonical_line s) S /\
    (empty = true -> head (concat S) ≠ Some Line_Empty).
Proof.
  assert (forall s, is_Some (parts s) -> parts (visible s) = parts s) as Hv by (intros s [p Hp]; by rewrite Hp, (parts_visible _ _ Hp)).
  assert (forall s, Forall canonical_line s -> Forall canonical_line (visible s)) as Hc by (intros s HF; unfold visible; rewrite Forall_forall in HF |- *; intros l [_ Hl]%list_elem_of_filter; by apply HF).
  intros HF. destruct HF as [|s rest [[p Hp] Hs] HF].
  { exists []. cbn. split; [done|]. split; [constructor|]. split; [constructor|done]. }
  cbn [concat]. destruct (dropped_parts empty s p (concat rest) Hp) as (s' & -> & Hp' & Hh & Hin). exists (visible s' :: map visible rest).
  assert (is_Some (parts s')) as His by by exists p.
  split; [rewrite visible_app; cbn [concat]; f_equal; clear; induction rest as [|x r IH]; [done|]; cbn [concat map]; by rewrite visible_app, IH|].
  split; [|split].
  - constructor; [by rewrite Hv, Hp', Hp|]. clear -HF Hv. induction HF as [|x r [Hx _] _ IH]; constructor; [by apply Hv|done].
  - constructor; [split; [by rewrite Hv|]|].
    + apply Hc. rewrite Forall_forall in Hs |- *. intros l Hl. by apply Hs, Hin.
    + apply Forall_map. eapply Forall_impl; [exact HF|]. intros x [Hx Hy]. split; [by rewrite Hv|by apply Hc].
  - intros ->. specialize (Hh eq_refl). destruct s' as [|l s']; [done|]. destruct (decide (l = Line_Skip)) as [->|Hl]; [done|]. unfold visible. rewrite filter_cons_True by done. exact Hh.
Qed.

Lemma dump_parse c : config_ok c -> exists c', parse_str (dump_str c) = Done (Ok c') /\ config_ok c' /\
  Forall2 (fun s s' => parts (section_lines s') = parts (section_lines s)) (sections c) (sections c') /\ dump_str c' = dump_str c.
Proof.
  intros [HP HS]. destruct c as [P secs modified0]. cbn [prefix sections] in *. set (empty := bool_decide (P = [])).
  destruct (printed_sections empty (map section_lines secs)) as (S & ES & HS2 & HSok & Hhead); [by apply Forall_map|].
  assert (Forall (fun l => blank l = true) P) as HPb by (eapply Forall_impl; [exact HP|]; by intros l [? _]).
  assert (Forall canonical_line P) as HPc by (eapply Forall_impl; [exact HP|]; by intros l [_ ?]).
  assert (Forall (fun s => is_Some (parts s)) S) as HSp by (eapply Forall_impl; [exact HSok|]; by intros s [? _]).
  assert (Forall canonical_line (P ++ concat S)) as Hcan.
  { apply Forall_app. split; [done|]. apply Forall_concat. eapply Forall_impl; [exact HSok|]. by intros s [_ ?]. }
  set (D := P ++ dropped empty (concat (map section_lines secs))). assert (visible D = P ++ concat S) as ED by (unfold D; by rewrite visible_app, (visible_blank P), ES).
  assert (dump_str (mkConfig P secs modified0) = concat (map show_line D)) as Edump.
  { unfold dump_str, D. cbn [prefix sections]. by rewrite dump_lines_dropped, map_app, concat_app. }
  assert (Forall canonical_line D) as HD.
  { unfold D. apply Forall_app. split; [done|]. assert (Forall canonical_line (concat (map section_lines secs))) as Hall.
    { apply Forall_concat, Forall_map. eapply Forall_impl; [exact HS|]. by intros s [_ ?]. }
    clear -Hall. induction Hall as [|l ls Hl Hls IH]; [constructor|]. cbn [dropped]. destruct (empty && _); [done|by constructor]. }
  assert (Forall (fun l => l ≠ Line_Skip) (P ++ concat S)) as Hvis by (rewrite <- ED; apply Forall_forall; by intros l [? _]%list_elem_of_filter).
  destruct (grouped_sections S [] P HSp) as (prefix' & T & new & lead & Eg & HT & Ec & El & Hn & Hl & Hne & HS0 & (r & Er)). specialize (Hne eq_refl).
  assert (Forall (fun l => blank l = true) prefix') as HP'.
  { assert (Forall (fun l => blank l = true) (prefix' ++ new)) as HF by (rewrite El; by apply Forall_app). by apply Forall_app in HF as [? _]. }
  exists (mkConfig prefix' (map mkUciSection T) None). split; [|split; [|split]].
  - unfold parse_str. rewrite Edump, lines_of, ED, parse_lines_text by done. cbn [outcome_bind]. rewrite grouped_app, (grouped_body [] [] P) by by apply content_blank. cbn [fst snd app].
    rewrite Eg. cbn [result_bind app]. by rewrite check_prefix_blank.
  - rewrite <- Ec in Hcan. apply Forall_app in Hcan as [Hc1 Hc2]. split; cbn [prefix sections].
    + apply Forall_and. by split.
    + apply Forall_map. apply Forall_and. split; [|cbn [section_lines]; by apply Forall_concat].
      cbn [section_lines]. clear -HT HSp. induction HT as [|s t S T E _ IH]; [constructor|]. apply Forall_cons in HSp as [Hs HSp]. constructor; [by rewrite <- E|by apply IH].
  - cbn [sections]. clear -HS2 HT. assert (Forall2 (fun s t => parts t = parts s) (map section_lines secs) T) as HF.
    { revert HT. revert T. induction HS2 as [|x y l k E _ IH]; intros T HT; inversion HT; subst; constructor; [congruence|by apply IH]. }
    revert HF. clear. revert T. induction secs as [|s secs IH]; intros T HF; inversion HF; subst; constructor; [done|by apply IH].
  - rewrite Edump, <- (show_visible D), ED. unfold dump_str. cbn [prefix sections]. rewrite map_map. cbn [section_lines]. rewrite map_id, dump_lines_dropped, <- concat_app, <- map_app. do 2 f_equal.
    rewrite <- Ec. f_equal. case_bool_decide as E0; [|by destruct (concat T)]. subst prefix'. cbn [app] in Ec, El.
    assert (head (concat T) ≠ Some Line_Empty) as Hh.
    { rewrite Ec. destruct new as [|l new].
      - symmetry in El. apply app_eq_nil in El as [-> _]. cbn [app]. by apply Hhead.
      - rewrite Er, app_assoc, <- El. cbn. apply Forall_cons in Hne as [? _]. by intros [= ->]. }
    destruct (concat T) as [|l ls]; [done|]. cbn [dropped andb]. rewrite bool_decide_false; [done|]. intros ->. by apply Hh.
Qed.
End Print.

(** Printed and parsed, the sections say the same. *)
Lemma dump_same `{U : Unicode} `{I : Inpt} `{!InptOk U I} (c : Config) :
  config_ok c -> exists c', parse_str (dump_str c) = Done (Ok c') /\ Forall2 same_section (sections c) (sections c') /\ dump_str c' = dump_str c.
Proof.
  intros Hc. destruct (dump_parse c Hc) as (c' & Ep & _ & HF & Ed). exists c'. split; [done|]. split; [|done].
  destruct Hc as [_ HS]. clear -HF HS. induction HF as [|s s' l k E _ IH]; constructor; apply Forall_cons in HS as [[Hs _] HS]; [by apply same_parts|by apply IH].
Qed.

(** C14: a configuration file is read as it was written.  A file whose lines are canonical (quoted values that can be read back, comments that are trimmed),
    with comments only before the first section and one header in each section, is parsed after it was dumped, without an error or a panic,
    into as many sections, each of which has the type and name it had and gives every struct that is read from it the same values; and
    dumping it once more gives the same text, comments and all. *)
Theorem uci_dump_parse `{U : Unicode} `{I : Inpt} `{!InptOk U I} (c : Config) :
  config_ok c -> exists c', parse_str (dump_str c) = Done (Ok c') /\ Forall2 same_section (sections c) (sections c') /\ dump_str c' = dump_str c.
Proof. exact (dump_same c). Qed.
