(* ===== verification/UciEdit.v ===== *)
(** * Configuration files are edited in place

    The theorems on typed sections: what is written to a section is read from it, and nothing else in it changes ([uci_write_read]); an edited or extended
    file, dumped and parsed, has the new values where they were put and all others where they were ([uci_edit_survives]).  Where
    values do not survive, lemmas at the end say so. *)
From S2P Require Import Prelude RustStr UciSyntax UciPrint.

Local Open Scope rust_scope.

Section Edit.
Context `{U : Unicode} `{I : Inpt} `{!InptOk U I} {X : Type}.
Implicit Types (f : UciField X) (fields : list (UciField X)) (v : FieldValue X) (iters : list (list Line)).

(** ** Fields and their lines *)

(** Text that [Token::from_string] quotes so that it can be read back: with a single quote in it it is escaped, and every character must be one that unescaping gives back; without one it is
    put between single quotes as it is, and must have no backslash ([backslash_lost]) and no line feed ([newline_injects]). *)
Definition printable (s : str) : Prop := if bool_decide (39%N ∈ s) then escapable s else (92%N ∉ s) /\ (10%N ∉ s).

Lemma from_string_spec s : printable s -> canonical (Token_from_string s) /\ as_str (Token_from_string s) = s.
Proof.
  unfold printable, Token_from_string. case_bool_decide as Hq.
  - intros He. split; [by constructor|]. by apply unescape_debug.
  - intros [H1 H2]. split; [by constructor|]. by apply unescape_plain.
Qed.

(** A name that [Token::from_str] writes as a word or quotes so that it can be read back. *)
Definition nameable (s : str) : Prop := canonical (Token_from_str s) /\ (forallb plain_char s = true \/ escapable s).

Lemma from_str_spec s : nameable s -> as_str (Token_from_str s) = s.
Proof. unfold nameable, Token_from_str. intros [_ Hs]. destruct (forallb plain_char s); [done|]. destruct Hs as [?|Hs]; [done|]. by apply unescape_debug. Qed.

Lemma from_bool_spec b n : canonical (Token_from_bool b) /\ parse_bool (Token_from_bool b) n = Ok b.
Proof.
  assert (forall c, c ≠ 39%N -> c ≠ 92%N -> c ≠ 10%N -> quotable [c] /\ unescape [c] = [c]) as Hc.
  { intros c H1 H2 H3. assert (forall d, c ≠ d -> d ∉ [c]) as Hd by (intros d Hd E%list_elem_of_singleton; by apply Hd).
    split; [split_and!; by apply Hd|]. by apply unescape_plain, Hd. }
  unfold parse_bool. destruct b; cbn [Token_from_bool as_str].
  - destruct (Hc 49%N) as [Hq Hu]; [done..|]. split; [by constructor|]. change $"1" with [49%N]. rewrite Hu. done.
  - destruct (Hc 48%N) as [Hq Hu]; [done..|]. split; [by constructor|]. change $"0" with [48%N]. rewrite Hu. done.
Qed.

(** The lines of a field: options or lists with its name. *)
Definition key f : bool * str := (is_list f, f_name f).

Definition line_key (l : Line) : option (bool * str) :=
  match l with
  | Line_Option a _ _ => Some (false, as_str a)
  | Line_List a _ _ => Some (true, as_str a)
  | _ => None
  end.

Definition pick (k : bool * str) (ls : list Line) : list Line := filter (fun l => line_key l = Some k) ls.

(** A value of the field's type whose text comes back. *)
Definition fits_field f (x : Scalar X) : Prop :=
  match f_parse f, x with
  | Bool, SBool _ => True
  | (FromStr from display | InptMode from display), SOther x => from (display x) = Some x /\ printable (display x)
  | _, _ => False
  end.

Record fields_ok fields : Prop := {
  fo_names : Forall (fun f => nameable (f_name f)) fields;
  fo_distinct : NoDup (map key fields);
}.

(** The values of a struct, of the types of their fields: every value is one whose text comes back ([fits_field]), so without backslashes and line feeds unless it has a single quote; and an
    optional value that is missing or a list that is empty has no [default_value], which reading would put in its place. *)
Record value_ok f v : Prop := {
  vo_agg : match f_agg f, v with Optional, VOptional _ | Single, VSingle _ | List_, VList _ => True | _, _ => False end;
  vo_scalars : Forall (fits_field f) (scalars v);
  vo_default : scalars v = [] -> f_default_value f = None;
}.

Lemma write_line_spec f x : nameable (f_name f) -> fits_field f x ->
  line_key (write_line f x) = Some (key f) /\ canonical_line (write_line f x) /\
  exists t c, (write_line f x = (if is_list f then Line_List else Line_Option) (Token_from_str (f_name f)) t c) /\ forall n, parse_value f t n = Ok x.
Proof.
  intros Hn Hx. pose proof (proj1 Hn) as Hn'. unfold write_line, fits_field, key, parse_value in *.
  destruct (f_parse f) as [from display|from display|]; destruct x as [b|x]; try done.
  - destruct Hx as [Hf Hp]. destruct (from_string_spec _ Hp) as [Hc Ea]. destruct (is_list f); (split; [cbn; by rewrite from_str_spec|]); (split; [done|]); eexists _, _; (split; [reflexivity|]); intros n; by rewrite Ea, Hf.
  - destruct Hx as [Hf Hp]. destruct (from_string_spec _ Hp) as [Hc Ea]. destruct (is_list f); (split; [cbn; by rewrite from_str_spec|]); (split; [done|]); eexists _, _; (split; [reflexivity|]); intros n; by rewrite Ea, Hf.
  - destruct (is_list f); (split; [cbn; by rewrite from_str_spec|]); (split; [split; [done|]; split; [apply (from_bool_spec b 0)|done]|]); eexists _, _; (split; [reflexivity|]); intros n; by destruct (from_bool_spec b n) as [_ ->].
Qed.

(** ** Reading *)

Lemma pick_app k a b : pick k (a ++ b) = pick k a ++ pick k b.
Proof. apply filter_app. Qed.

Lemma pick_cons k l ls : pick k (l :: ls) = if decide (line_key l = Some k) then l :: pick k ls else pick k ls.
Proof. unfold pick. by rewrite filter_cons. Qed.

(** A line that belongs to no field is passed over. *)
Lemma read_option_other name t n fields placed : (false, name) ∉ map key fields -> read_option name t n fields placed = Ok placed.
Proof.
  revert placed. induction fields as [|f fs IH]; intros [|p ps] Hn; try done. cbn [read_option]. cbn [map] in Hn. apply not_elem_of_cons in Hn as [H1 H2]. unfold key in H1.
  destruct (is_list f); cbn [negb andb]; [by rewrite IH|]. rewrite (bool_decide_eq_false_2 (f_name f = name)) by congruence. cbn [andb]. by rewrite IH.
Qed.

Lemma read_list_other name t n fields placed : (true, name) ∉ map key fields -> read_list name t n fields placed = Ok placed.
Proof.
  revert placed. induction fields as [|f fs IH]; intros [|p ps] Hn; try done. cbn [read_list]. cbn [map] in Hn. apply not_elem_of_cons in Hn as [H1 H2]. unfold key in H1.
  destruct (is_list f); cbn [andb]; [|by rewrite IH]. rewrite (bool_decide_eq_false_2 (f_name f = name)) by congruence. by rewrite IH.
Qed.

(** Fields with distinct names are read independently. *)
Lemma read_loop_split f fields n ls p ps q qs : key f ∉ map key fields -> read_loop [f] n ls [p] = Ok [q] -> read_loop fields n ls ps = Ok qs ->
  read_loop (f :: fields) n ls (p :: ps) = Ok (q :: qs).
Proof.
  intros Hk. revert n p ps. induction ls as [|l ls IH]; intros n p ps; [by intros [= ->] [= ->]|]. destruct l as [| | |a t c|a t c|]; cbn [read_loop]; try apply IH; [by intros [= ->] [= ->]| |].
  - cbn [read_option]. destruct (negb (is_list f) && bool_decide (f_name f = as_str a)) eqn:Ef.
    + assert (key f = (false, as_str a)) as Ek by (unfold key; apply andb_true_iff in Ef as [?%negb_true_iff ->%bool_decide_eq_true_1]; congruence).
      rewrite (read_option_other _ _ _ fields) by by rewrite <- Ek. destruct (bool_decide (p = [])); cbn [andb result_bind]; [|by apply IH].
      destruct (parse_value f t n); cbn [result_bind]; [by apply IH|done].
    + cbn [andb result_bind]. destruct (read_option (as_str a) t n fields ps) as [ps'|]; cbn [result_bind]; [by apply IH|done].
  - cbn [read_list]. destruct (is_list f && bool_decide (f_name f = as_str a)) eqn:Ef.
    + assert (key f = (true, as_str a)) as Ek by (unfold key; apply andb_true_iff in Ef as [? ->%bool_decide_eq_true_1]; congruence).
      rewrite (read_list_other _ _ _ fields) by by rewrite <- Ek. destruct (parse_value f t n); cbn [result_bind]; [by apply IH|done].
    + cbn [result_bind]. destruct (read_list (as_str a) t n fields ps) as [ps'|]; cbn [result_bind]; [by apply IH|done].
Qed.

(** One field gets the values of its lines. *)
Lemma read_loop_one f n ls p xs : nameable (f_name f) -> Forall (fits_field f) xs -> has_no_header ls = true -> pick (key f) ls = map (write_line f) xs ->
  (is_list f = false -> length (p ++ xs) <= 1) -> read_loop [f] n ls [p] = Ok [p ++ xs].
Proof.
  intros Hn. revert n p xs. induction ls as [|l ls IH]; intros n p xs Hx Hb Hp Hlen; [destruct xs; [by rewrite app_nil_r|done]|].
  unfold has_no_header in Hb. cbn [forallb] in Hb. apply andb_true_iff in Hb as [Hl Hb]. rewrite pick_cons in Hp. destruct l as [| | |a t c|a t c|]; cbn [read_loop line_key] in *; try done; try (by apply IH).
  - cbn [read_option]. destruct (decide (Some (false, as_str a) = Some (key f))) as [Ek|Ek].
    + injection Ek as El En. destruct xs as [|x xs]; [done|]. injection Hp as Ew Hp. apply Forall_cons in Hx as [Hx Hxs]. destruct (write_line_spec f x Hn Hx) as (_ & _ & t' & c' & Ex & Hparse).
      rewrite <- El in *. rewrite Ex in Ew. injection Ew as -> -> ->. rewrite from_str_spec, bool_decide_true by done. cbn [negb andb].
      specialize (Hlen eq_refl). rewrite length_app in Hlen. cbn in Hlen. assert (p = []) as -> by (destruct p; [done|cbn in Hlen; lia]). rewrite bool_decide_true by done. rewrite Hparse. cbn [result_bind].
      rewrite (IH _ [x] xs) by (done || cbn; lia). done.
    + assert (negb (is_list f) && bool_decide (f_name f = as_str a) = false) as ->.
      { apply andb_false_iff. destruct (is_list f) eqn:El; [by left|right]. apply bool_decide_eq_false_2. intros En. apply Ek. unfold key. congruence. }
      cbn [andb result_bind]. by apply IH.
  - cbn [read_list]. destruct (decide (Some (true, as_str a) = Some (key f))) as [Ek|Ek].
    + injection Ek as El En. destruct xs as [|x xs]; [done|]. injection Hp as Ew Hp. apply Forall_cons in Hx as [Hx Hxs]. destruct (write_line_spec f x Hn Hx) as (_ & _ & t' & c' & Ex & Hparse).
      rewrite <- El in *. rewrite Ex in Ew. injection Ew as -> -> ->. rewrite from_str_spec, bool_decide_true by done. cbn [andb]. rewrite Hparse. cbn [result_bind].
      rewrite (IH _ (p ++ [x]) xs) by (done || by rewrite <- app_assoc). by rewrite <- app_assoc.
    + assert (is_list f && bool_decide (f_name f = as_str a) = false) as ->.
      { apply andb_false_iff. destruct (is_list f) eqn:El; [right|by left]. apply bool_decide_eq_false_2. intros En. apply Ek. unfold key. congruence. }
      cbn [result_bind]. by apply IH.
Qed.

(** ** Writing *)

Definition aligned fields iters : Prop := Forall2 (fun f i => Forall (fun l => line_key l = Some (key f)) i) fields iters.

Lemma pick_other k i k' : Forall (fun l => line_key l = Some k') i -> k' ≠ k -> pick k i = [].
Proof. intros HF Hne. unfold pick. induction HF as [|l i Hl _ IH]; [done|]. rewrite filter_cons_False by congruence. exact IH. Qed.

Lemma pick_all k i : Forall (fun l => line_key l = Some k) i -> pick k i = i.
Proof. intros HF. unfold pick. induction HF as [|l i Hl _ IH]; [done|]. rewrite filter_cons_True by done. by rewrite IH. Qed.

Lemma pick_absent k fields iters : aligned fields iters -> k ∉ map key fields -> pick k (concat iters) = [].
Proof.
  induction 1 as [|f i fs is_ Hi _ IH]; [done|]. cbn [map concat]. rewrite not_elem_of_cons, pick_app. intros [Hk Hks]. rewrite (pick_other k i (key f)) by done. by apply IH.
Qed.

Lemma line_arm_key l wanted : line_arm l = Some wanted -> exists k, line_key l = Some k /\ forall f, wanted f = bool_decide (key f = k).
Proof.
  destruct l as [| | |a t c|a t c|]; try done; intros [= <-]; cbn [line_key]; eexists; (split; [done|]); intros f; unfold option_arm, list_arm, key;
    destruct (is_list f); cbn [negb andb]; repeat case_bool_decide; congruence.
Qed.

(** The next line of a field. *)
Definition next_of k fields iters (r : option (option Line * list (list Line))) : Prop :=
  match r with
  | None => k ∉ map key fields
  | Some (Some l, iters') => k ∈ map key fields /\ line_key l = Some k /\ aligned fields iters' /\ pick k (concat iters) = l :: pick k (concat iters') /\
      (forall k', k' ≠ k -> pick k' (concat iters') = pick k' (concat iters)) /\ (forall x, x ∈ concat iters' -> x ∈ concat iters) /\ l ∈ concat iters
  | Some (None, iters') => k ∈ map key fields /\ iters' = iters /\ pick k (concat iters) = []
  end.

Lemma write_arm_spec k wanted fields iters : (forall f, wanted f = bool_decide (key f = k)) -> NoDup (map key fields) -> aligned fields iters -> next_of k fields iters (write_arm wanted fields iters).
Proof.
  intros Hw Hd Ha. induction Ha as [|f i fs is_ Hi Ha IH]; [apply not_elem_of_nil|]. cbn [map] in Hd. apply NoDup_cons in Hd as [Hk Hd]. cbn [write_arm map]. rewrite Hw. case_bool_decide as Ek.
  - subst k. destruct i as [|l i]; cbn [next_of map concat].
    + split; [left|]. split; [done|]. rewrite app_nil_l. by eapply pick_absent.
    + apply Forall_cons in Hi as [Hl Hi]. split; [left|]. split; [done|]. split; [by constructor|]. cbn [app]. rewrite pick_cons, decide_True by done. split; [done|].
      split; [|split; [intros x Hx; by right|left]]. intros k' Hne. rewrite pick_cons, decide_False by congruence. done.
  - specialize (IH Hd). destruct (write_arm wanted fs is_) as [[[l|] is']|]; cbn [mbind option_bind next_of map concat] in IH |- *.
    + destruct IH as (Hin & Hl & Ha' & Hp & Ho & Hsub & Hli). split; [by right|]. split; [done|]. split; [by constructor|]. rewrite !pick_app, (pick_other k i (key f)) by done. split; [done|].
      split; [intros k' Hne; rewrite !pick_app; by rewrite Ho|]. split; [|apply elem_of_app; by right]. intros x [?|?]%elem_of_app; apply elem_of_app; [by left|right; by apply Hsub].
    + destruct IH as (Hin & -> & Hp). split; [by right|]. split; [done|]. by rewrite pick_app, (pick_other k i (key f)), Hp by done.
    + by apply not_elem_of_cons.
Qed.

(** Lines that are neither those of a field nor left out. *)
Definition foreign fields (l : Line) : Prop := l ≠ Line_Skip /\ (forall k, line_key l = Some k -> k ∉ map key fields).

#[export] Instance foreign_dec fields l : Decision (foreign fields l).
Proof.
  unfold foreign. destruct (line_key l) as [k|]; [|destruct (decide (l = Line_Skip)); [right; by intros [? _]|left; by split]].
  destruct (decide (l = Line_Skip)); [right; by intros [? _]|]. destruct (decide (k ∈ map key fields)) as [Hk|Hk]; [right; intros [_ H]; by apply (H k)|left]. split; [done|]. by intros ? [= <-].
Defined.

Record write_result fields iters (index insert_after : nat) (ls ls' : list Line) iters' (insert_after' : nat) : Prop := {
  wr_length : length ls' = length ls;
  wr_aligned : aligned fields iters';
  wr_picked : forall k, k ∈ map key fields -> pick k ls' ++ pick k (concat iters') = pick k (concat iters);
  wr_foreign : filter (foreign fields) ls' = filter (foreign fields) ls;
  wr_headers : has_no_header ls = true -> has_no_header ls' = true;
  wr_after : insert_after <= insert_after' /\ (insert_after' = insert_after \/ index <= insert_after' < index + length ls);
  wr_rest : forall k, k ∈ map key fields -> pick k (drop (insert_after' + 1 - index) ls') = [];
  wr_lines : forall x, x ∈ ls' \/ x ∈ concat iters' -> x ∈ ls \/ x ∈ concat iters \/ x = Line_Skip;
}.

Lemma has_no_header_cons l ls : has_no_header (l :: ls) = negb (is_header l) && has_no_header ls.
Proof. done. Qed.

Lemma keyed_no_header l k : line_key l = Some k -> is_header l = false.
Proof. by destruct l. Qed.

(** A line that stays. *)
Lemma write_keep fields iters index ia l ls ls' iters' ia0 ia' : (is_header l = false) -> (line_key l = None \/ exists k, line_key l = Some k /\ k ∉ map key fields) ->
  ia0 = ia \/ ia0 = index -> ia < index -> write_result fields iters (index + 1) ia0 ls ls' iters' ia' -> write_result fields iters index ia (l :: ls) (l :: ls') iters' ia'.
Proof.
  intros Hh Hk Hia Hlt [H1 H2 H3 H4 H5 H6 H7 H8]. assert (forall k, k ∈ map key fields -> line_key l ≠ Some k) as Hne by (intros k Hin E; destruct Hk as [?|(k' & ? & ?)]; congruence).
  split; [by cbn; rewrite H1|done| | | | | |].
  - intros k Hin. rewrite pick_cons, decide_False by by apply Hne. by apply H3.
  - rewrite !filter_cons. by rewrite H4.
  - rewrite !has_no_header_cons, Hh. cbn. done.
  - cbn [length]. destruct H6 as [Hle [-> |?]]; destruct Hia as [-> | ->]; lia.
  - intros k Hin. destruct (decide (index <= ia')) as [Hi|Hi].
    + replace (ia' + 1 - index) with (S (ia' + 1 - (index + 1))) by lia. cbn [drop]. by apply H7.
    + replace (ia' + 1 - index) with 0 by lia. cbn [drop]. rewrite pick_cons, decide_False by by apply Hne. specialize (H7 k Hin). replace (ia' + 1 - (index + 1)) with 0 in H7 by lia. exact H7.
  - intros x [[->|Hx]%elem_of_cons|Hx]; [left; left| |]; (destruct (H8 x) as [?|?]; [by (left + right)|left; by right|by right]).
Qed.

(** A line that is replaced. *)
Lemma write_replace fields iters index ia l next ls ls' iters1 iters' ia' k : line_key l = Some k -> k ∈ map key fields -> next_of k fields iters (Some (next, iters1)) -> aligned fields iters -> ia < index ->
  write_result fields iters1 (index + 1) index ls ls' iters' ia' -> write_result fields iters index ia (l :: ls) (default Line_Skip next :: ls') iters' ia'.
Proof.
  intros Hl Hin Hn Ha Hlt [H1 H2 H3 H4 H5 H6 H7 H8]. split; [by cbn; rewrite H1|done| | | | | |].
  - intros k' Hin'. specialize (H3 k' Hin'). destruct next as [n|]; cbn [default from_option id] in *.
    + destruct Hn as (_ & Hk & _ & Hp & Ho & _). rewrite pick_cons. destruct (decide (line_key n = Some k')) as [E|E].
      * assert (k' = k) as -> by congruence. cbn [app]. by rewrite H3, Hp.
      * rewrite H3. apply Ho. congruence.
    + destruct Hn as (_ & -> & _). exact H3.
  - rewrite !filter_cons. rewrite (decide_False (P := foreign fields l)) by (intros [_ Hf]; by apply (Hf k)). rewrite decide_False; [done|].
    destruct next as [n|]; [|by intros [? _]]. destruct Hn as (_ & Hk & _). intros [_ Hf]. by apply (Hf k).
  - rewrite !has_no_header_cons. rewrite (keyed_no_header l k Hl). cbn [negb andb]. intros Hh. rewrite H5 by done. destruct next as [n|]; [|done]. destruct Hn as (_ & Hk & _). cbn. by rewrite (keyed_no_header n k Hk).
  - cbn [length]. destruct H6 as [Hle [-> |?]]; lia.
  - intros k' Hin'. replace (ia' + 1 - index) with (S (ia' + 1 - (index + 1))) by lia. cbn [drop]. by apply H7.
  - assert (forall x, x ∈ concat iters1 -> x ∈ concat iters) as Hsub by (destruct next; [by apply Hn|by destruct Hn as (_ & -> & _)]).
    intros x [[->|Hx]%elem_of_cons|Hx].
    + destruct next as [n|]; [right; left; by apply Hn|by do 2 right].
    + destruct (H8 x (or_introl Hx)) as [?|[?|?]]; [left; by right|right; left; by apply Hsub|by do 2 right].
    + destruct (H8 x (or_intror Hx)) as [?|[?|?]]; [left; by right|right; left; by apply Hsub|by do 2 right].
Qed.

Lemma write_loop_spec fields iters index ia ls : NoDup (map key fields) -> aligned fields iters -> ia < index -> has_no_header ls = true ->
  write_result fields iters index ia ls (write_loop fields iters index ia ls).1.1 (write_loop fields iters index ia ls).1.2 (write_loop fields iters index ia ls).2.
Proof.
  intros Hd. revert iters index ia. induction ls as [|l ls IH]; intros iters index ia Ha Hlt Hb.
  { split; cbn; [done|done|done|done|done|lia|intros k _; by rewrite drop_nil|intros x [Hx|Hx]; [by left|by right; left]]. }
  rewrite has_no_header_cons in Hb. apply andb_true_iff in Hb as [Hl%negb_true_iff Hb].
  assert (write_loop fields iters index ia (l :: ls) =
    let ia := if is_in_section l then index else ia in
    match line_arm l ≫= fun wanted => write_arm wanted fields iters with
    | None => let '(rest, iters, ia) := write_loop fields iters (index + 1) ia ls in (l :: rest, iters, ia)
    | Some (next, iters) => let '(rest, iters, ia) := write_loop fields iters (index + 1) index ls in (default Line_Skip next :: rest, iters, ia)
    end) as -> by by destruct l.
  cbv zeta. destruct (line_arm l) as [wanted|] eqn:Earm; cbn [mbind option_bind].
  - destruct (line_arm_key _ _ Earm) as (k & Ek & Hw). pose proof (write_arm_spec k wanted fields iters Hw Hd Ha) as Hn. destruct (write_arm wanted fields iters) as [[next iters1]|].
    + assert (aligned fields iters1) as Ha1 by (destruct next; [by apply Hn|by destruct Hn as (_ & -> & _)]).
      pose proof (IH iters1 (index + 1) index Ha1 ltac:(lia) Hb) as Hr. destruct (write_loop fields iters1 (index + 1) index ls) as [[rest iters'] ia']. cbn [fst snd] in *.
      eapply write_replace; [done| |exact Hn|done|done|done]. destruct next; apply Hn.
    + pose proof (IH iters (index + 1) (if is_in_section l then index else ia) Ha ltac:(destruct (is_in_section l); lia) Hb) as Hr.
      destruct (write_loop fields iters (index + 1) _ ls) as [[rest iters'] ia']. cbn [fst snd] in *. eapply write_keep; [done|right; by exists k| |done|done]. destruct (is_in_section l); [by right|by left].
  - pose proof (IH iters (index + 1) (if is_in_section l then index else ia) Ha ltac:(destruct (is_in_section l); lia) Hb) as Hr.
    destruct (write_loop fields iters (index + 1) _ ls) as [[rest iters'] ia']. cbn [fst snd] in *. eapply write_keep; [done|left| |done|done]; [by destruct l|]. destruct (is_in_section l); [by right|by left].
Qed.

(** ** What is written is read *)

Lemma decl_spec fields values : fields_ok fields -> Forall2 value_ok fields values ->
  aligned fields (write_decl fields values) /\ Forall canonical_line (concat (write_decl fields values)) /\ has_no_header (concat (write_decl fields values)) = true /\
  Forall2 (fun f v => pick (key f) (concat (write_decl fields values)) = map (write_line f) (scalars v)) fields values.
Proof.
  intros [Hn Hd] Hv. revert Hn Hd. induction Hv as [|f v fs vs Hf _ IH]; intros Hn Hd; [split_and!; [constructor|constructor|done|constructor]|].
  apply Forall_cons in Hn as [Hn Hns]. cbn [map] in Hd. apply NoDup_cons in Hd as [Hk Hd]. destruct (IH Hns Hd) as (Ha & Hc & Hb & HF). unfold write_decl in *. cbn [zip_with concat].
  assert (Forall (fun l => line_key l = Some (key f) /\ canonical_line l) (map (write_line f) (scalars v))) as Hl.
  { apply Forall_map. destruct Hf as [_ Hx _]. eapply Forall_impl; [exact Hx|]. intros x Hfx. by destruct (write_line_spec f x Hn Hfx) as (? & ? & _). }
  apply Forall_and in Hl as [Hl1 Hl2]. split_and!; [by constructor|by apply Forall_app| |].
  - unfold has_no_header in *. rewrite forallb_app, Hb, andb_true_r. apply forallb_forall. intros l Hin. rewrite Forall_forall in Hl1. apply list_elem_of_In in Hin. by rewrite (keyed_no_header l _ (Hl1 l Hin)).
  - constructor; [by rewrite pick_app, pick_all, (pick_absent _ fs), app_nil_r|]. clear -HF Hl1 Hk. set (all := concat _) in *. clearbody all. revert Hk.
    induction HF as [|g w gs ws Hg _ IH]; intros Hk; constructor; cbn [map] in Hk; apply not_elem_of_cons in Hk as [H1 H2]; [|by apply IH]. by rewrite pick_app, (pick_other (key g) _ (key f)).
Qed.

Lemma read_fields n body fields values : fields_ok fields -> Forall2 value_ok fields values -> has_no_header body = true ->
  Forall2 (fun f v => pick (key f) body = map (write_line f) (scalars v)) fields values -> read_loop fields n body (map (fun _ => []) fields) = Ok (map scalars values).
Proof.
  intros [Hn Hd] Hv Hb. revert Hn Hd. induction Hv as [|f v fs vs Hf _ IH]; intros Hn Hd HF.
  - clear -Hb. revert n. induction body as [|l body IH]; intros n; [done|]. rewrite has_no_header_cons in Hb. apply andb_true_iff in Hb as [_ Hb]. destruct l; cbn [map read_loop]; try done; by apply IH.
  - inversion HF; subst. apply Forall_cons in Hn as [Hn Hns]. cbn [map] in Hd. apply NoDup_cons in Hd as [Hk Hd]. cbn [map]. apply read_loop_split; [done| |by apply IH].
    destruct Hf as [Hagg Hx _]. apply (read_loop_one f n body [] (scalars v)); [done|done|done|done|]. intros El. unfold is_list in El. cbn [app].
    destruct (f_agg f), v as [[x|]|x|l]; try done; cbn; lia.
Qed.

Lemma read_inits_values fields values : Forall2 value_ok fields values -> read_inits fields (map scalars values) = Ok values.
Proof.
  induction 1 as [|f v fs vs [Ha _ Hd] _ IH]; [done|]. cbn [map read_inits]. assert (read_init f (scalars v) = Ok v) as ->; [|cbn [result_bind]; by rewrite IH].
  unfold read_init. destruct (f_agg f), v as [[x|]|x|l]; try done; cbn [scalars] in *; [by rewrite Hd|]. destruct l; [by rewrite Hd|done].
Qed.

(** A section with these values. *)
Lemma read_written ty fields values lead h body : fields_ok fields -> Forall2 value_ok fields values -> Forall (fun l => blank l = true) lead -> has_no_header body = true ->
  (exists t name c, h = Line_Section t name c /\ as_str t = ty) -> Forall2 (fun f v => pick (key f) body = map (write_line f) (scalars v)) fields values ->
  TypedSection_read ty fields (mkUciSection (lead ++ h :: body)) = Ok values.
Proof.
  intros Hf Hv Hl Hb (t & name & c & -> & Et) HF. unfold TypedSection_read. cbn [section_lines]. rewrite find_header_parts by done. rewrite bool_decide_true by done. cbn [result_bind].
  rewrite (read_fields _ _ _ values) by done. cbn [result_bind]. by apply read_inits_values.
Qed.

Lemma write_section ty fields values s t name c cs : fields_ok fields -> Forall2 value_ok fields values -> parts (section_lines s) = Some (Line_Section t name c, cs) -> as_str t = ty ->
  exists s' cs', TypedSection_write ty fields values s = (s', Ok tt) /\ TypedSection_read ty fields s' = Ok values /\
    filter (foreign fields) (section_lines s') = filter (foreign fields) (section_lines s) /\ parts (section_lines s') = Some (Line_Section t name c, cs') /\
    (Forall canonical_line (section_lines s) -> Forall canonical_line (section_lines s')).
Proof.
  intros Hf Hv Hp Et. destruct (parts_split _ _ _ Hp) as (lead & body & E & Hl & _ & Hb & _). destruct (decl_spec fields values Hf Hv) as (Ha & Hc & Hdh & HF).
  unfold TypedSection_write. rewrite E, find_header_parts, bool_decide_true by done. set (before := lead ++ [Line_Section t name c]).
  assert (1 <= length before) as H1 by (unfold before; rewrite length_app; cbn; lia).
  pose proof (write_loop_spec fields (write_decl fields values) (length before) (length before - 1) body (fo_distinct _ Hf) Ha ltac:(lia) Hb) as Hw.
  destruct (write_loop fields (write_decl fields values) (length before) (length before - 1) body) as [[ls' iters'] ia]. cbn [fst snd] in Hw.
  destruct Hw as [Wlen Wal Wp Wf Wh Wia Wr Wl]. set (m := ia + 1 - length before) in *. set (body' := take m ls' ++ concat iters' ++ drop m ls').
  assert (take (ia + 1) (before ++ ls') ++ concat iters' ++ drop (ia + 1) (before ++ ls') = lead ++ Line_Section t name c :: body') as ->.
  { rewrite take_app_ge, drop_app_ge by lia. fold m. unfold body', before. rewrite <- !app_assoc. done. }
  assert (has_no_header (concat iters') = true) as Hi.
  { apply forallb_forall. intros x Hx. apply list_elem_of_In in Hx. clear -Wal Hx. induction Wal as [|f i fs is_ Hi _ IH]; [by apply elem_of_nil in Hx|]. cbn [concat] in Hx.
    apply elem_of_app in Hx as [Hx|Hx]; [|by apply IH]. rewrite Forall_forall in Hi. by rewrite (keyed_no_header x _ (Hi x Hx)). }
  assert (has_no_header body' = true) as Hb'.
  { unfold body', has_no_header in *. rewrite !forallb_app, Hi. pose proof (Wh Hb) as Hls. rewrite <- (take_drop m ls'), forallb_app in Hls. apply andb_true_iff in Hls as [-> ->]. done. }
  assert (forall k, k ∈ map key fields -> pick k body' = pick k (concat (write_decl fields values))) as Hpick.
  { intros k Hin. unfold body'. rewrite !pick_app, (Wr k Hin), app_nil_r, <- (Wp k Hin). f_equal. rewrite <- (take_drop m ls') at 2. by rewrite pick_app, (Wr k Hin), app_nil_r. }
  exists (mkUciSection (lead ++ Line_Section t name c :: body')), (content body'). split; [done|]. split; [|split; [|split]].
  - apply read_written; [done|done|done|done|by eexists _, _, _|]. clear -HF Hpick.
    assert (Forall (fun f => pick (key f) body' = pick (key f) (concat (write_decl fields values))) fields) as Hall.
    { apply Forall_forall. intros f Hin. apply Hpick, list_elem_of_fmap. by exists f. }
    revert HF Hall. generalize (concat (write_decl fields values)). clear. intros all HF Hall. induction HF as [|f v fs vs Hx _ IH]; [constructor|]. apply Forall_cons in Hall as [H1 H2].
    constructor; [by rewrite H1|by apply IH].
  - cbn [section_lines]. unfold before in *. rewrite !filter_app, !filter_cons. f_equal. assert (filter (foreign fields) body' = filter (foreign fields) body) as ->; [|done].
    unfold body'. rewrite !filter_app, <- Wf. rewrite <- (take_drop m ls') at 3. rewrite filter_app. f_equal. rewrite <- (app_nil_l (filter _ (drop m ls'))) at 2. f_equal.
    clear -Wal. assert (forall fs, (forall k, k ∈ map key fs -> k ∈ map key fields) -> forall is_, aligned fs is_ -> filter (foreign fields) (concat is_) = []) as Hgen; [|by apply (Hgen fields)].
    intros fs Hsub is_ Hal. induction Hal as [|f i fs is_ Hi _ IH]; [done|]. cbn [concat]. rewrite filter_app, IH by (intros k Hk; apply Hsub; by right). rewrite app_nil_r.
    clear -Hi Hsub. induction Hi as [|l i Hl _ IHi]; [done|]. rewrite filter_cons_False; [done|]. intros [_ Hfo]. apply (Hfo _ Hl), Hsub. left.
  - cbn [section_lines]. rewrite parts_lead by done. by apply parts_header.
  - intros HC. cbn [section_lines]. apply Forall_app in HC as [HC1 HC2]. apply Forall_cons in HC2 as [HC2 HC3]. apply Forall_app. split; [done|]. constructor; [done|].
    rewrite Forall_forall in HC3, Hc. apply Forall_forall. intros x Hx. assert (x ∈ ls' \/ x ∈ concat iters') as Hx'.
    { unfold body' in Hx. apply elem_of_app in Hx as [Hx|[Hx|Hx]%elem_of_app]; [left|by right|left]; rewrite <- (take_drop m ls'); apply elem_of_app; [by left|by right]. }
    destruct (Wl x Hx') as [?|[?| ->]]; [by apply HC3|by apply Hc|done].
Qed.

Lemma append_section ty fields values name : fields_ok fields -> Forall2 value_ok fields values -> nameable ty -> (forall n, name = Some n -> nameable n) ->
  let s := TypedSection_append ty fields values name in
  TypedSection_read ty fields s = Ok values /\ Section_name s = Done name /\ is_Some (parts (section_lines s)) /\ Forall canonical_line (section_lines s).
Proof.
  intros Hf Hv Ht Hn. destruct (decl_spec fields values Hf Hv) as (_ & Hc & Hdh & HF). cbn zeta. unfold TypedSection_append, Section_new. cbn [section_lines]. split; [|split; [|split]].
  - apply (read_written ty fields values [Line_Empty]); [done|done|by constructor|done| |done]. eexists _, _, _. split; [done|]. by apply from_str_spec.
  - unfold Section_name. cbn. destruct name as [n|]; [|done]. cbn. rewrite from_str_spec; [done|by apply Hn].
  - cbn [app parts]. rewrite Hdh. by eexists.
  - constructor; [done|]. constructor; [|done]. cbn. destruct name as [n|]; cbn; (split; [apply Ht|]); [|done]. split; [by apply Hn|done].
Qed.
End Edit.

(** C13: writing a struct to a section.  The fields have distinct names that can be written ([fields_ok]); every value is one whose text comes back, which excludes values with a backslash or a
    line feed that have no single quote, and no missing value has a default ([value_ok]).  On a section with one header whose type is that of the struct it succeeds, and what is read from the
    section then is exactly the struct, however often its options were there before, in which order, or not at all; all other lines, comments and
    empty lines among them, are there as they were, in their order.  On a section of another type it fails and changes nothing. *)
Theorem uci_write_read `{U : Unicode} `{I : Inpt} `{!InptOk U I} {X : Type} (ty : str) (fields : list (UciField X)) (values : list (FieldValue X)) (s : UciSection) :
  fields_ok fields -> Forall2 value_ok fields values -> is_Some (parts (section_lines s)) ->
  match TypedSection_write ty fields values s with
  | (s', Ok _) => Section_ty s = Done ty /\ Section_ty s' = Done ty /\ Section_name s' = Section_name s /\ TypedSection_read ty fields s' = Ok values /\
      filter (foreign fields) (section_lines s') = filter (foreign fields) (section_lines s)
  | (s', Err _) => s' = s /\ Section_ty s ≠ Done ty
  end.
Proof.
  intros Hf Hv [[h cs] Hp]. destruct (header_parts _ _ _ Hp) as (t & name & c & -> & Eh). unfold Section_ty, Section_name. rewrite Eh. cbn [outcome_map fst snd].
  destruct (decide (as_str t = ty)) as [Et|Et].
  - destruct (write_section ty fields values s t name c cs Hf Hv Hp Et) as (s' & cs' & -> & Hr & Hfo & Hp' & _). destruct (header_parts _ _ _ Hp') as (t' & name' & c' & [= <- <- <-] & ->).
    cbn [outcome_map fst snd]. by rewrite Et.
  - unfold TypedSection_write. destruct (parts_split _ _ _ Hp) as (lead & body & -> & Hl & _). rewrite find_header_parts, bool_decide_false by done. split; [done|]. by intros [= ?].
Qed.

(** C9: an edit of a configuration file is what is read from it later, for a file whose lines are canonical ([config_ok]), fields and sections with names that can be written, and values
    whose text comes back and in whose place no default is taken ([value_ok]: a value with a backslash or a line feed and no single quote does not survive).  When a section of the right type is set to a struct, or a section is appended,
    and the file is dumped and parsed again, the section gives the struct back under its name, and every other section has the type and name it had and gives every
    struct the same values as before. *)
Theorem uci_edit_survives `{U : Unicode} `{I : Inpt} `{!InptOk U I} {X : Type} (ty : str) (fields : list (UciField X)) (values : list (FieldValue X)) (c : Config) :
  config_ok c -> fields_ok fields -> Forall2 value_ok fields values ->
  (forall i s, sections c !! i = Some s -> Section_ty s = Done ty ->
     exists s' c' t, TypedSection_write ty fields values s = (s', Ok tt) /\
       parse_str (dump_str (mkConfig (prefix c) (<[i := s']> (sections c)) (modified c))) = Done (Ok c') /\ length (sections c') = length (sections c) /\
       sections c' !! i = Some t /\ Section_name t = Section_name s /\ TypedSection_read ty fields t = Ok values /\
       forall j u, j ≠ i -> sections c !! j = Some u -> exists u', sections c' !! j = Some u' /\ same_section u u') /\
  (forall name, nameable ty -> (forall n, name = Some n -> nameable n) ->
     exists c' t, parse_str (dump_str (Config_append ty fields values name c)) = Done (Ok c') /\ length (sections c') = S (length (sections c)) /\
       sections c' !! length (sections c) = Some t /\ Section_name t = Done name /\ TypedSection_read ty fields t = Ok values /\
       forall j u, sections c !! j = Some u -> exists u', sections c' !! j = Some u' /\ same_section u u').
Proof.
  intros [HP HS] Hf Hv.
  assert (forall secs m, Forall (fun s => is_Some (parts (section_lines s)) /\ Forall canonical_line (section_lines s)) secs ->
    exists c', parse_str (dump_str (mkConfig (prefix c) secs m)) = Done (Ok c') /\ length (sections c') = length secs /\
      forall j u, secs !! j = Some u -> exists u', sections c' !! j = Some u' /\ same_section u u') as Hgen.
  { intros secs m Hsecs. destruct (dump_parse (mkConfig (prefix c) secs m)) as (c' & Ep & _ & HF & _); [by split|]. cbn [sections] in HF. exists c'. split; [done|].
    split; [by symmetry; eapply Forall2_length|]. intros j u Hu. destruct (Forall2_lookup_l _ _ _ _ _ HF Hu) as (u' & Hu' & E). exists u'. split; [done|]. apply same_parts; [|done].
    rewrite Forall_lookup in Hsecs. by apply (Hsecs j u). }
  assert (forall s t v, same_section s t -> TypedSection_read ty fields s = Ok v -> TypedSection_read ty fields t = Ok v) as Hsame.
  { intros s t v (_ & _ & Hr) Es. specialize (Hr X ty fields). rewrite Es in Hr. destruct (TypedSection_read ty fields t); [|done]. by injection Hr as ->. }
  split.
  - intros i s Hi Hty. pose proof (proj1 (Forall_lookup _ _) HS i s Hi) as [[[h cs] Hp] Hc]. destruct (header_parts _ _ _ Hp) as (t & name & cm & -> & Eh).
    unfold Section_ty in Hty. rewrite Eh in Hty. injection Hty as Et. destruct (write_section ty fields values s t name cm cs Hf Hv Hp Et) as (s' & cs' & Ew & Hr & _ & Hp' & Hc').
    destruct (Hgen (<[i := s']> (sections c)) (modified c)) as (c' & Ep & Hlen & Hall).
    { apply Forall_insert; [done|]. split; [by eexists|by apply Hc']. }
    destruct (Hall i s') as (t' & Ht' & Hst); [apply list_lookup_insert_eq; by eapply lookup_lt_Some|]. exists s', c', t'. split; [done|]. split; [done|].
    split; [by rewrite Hlen, length_insert|]. split; [done|]. split.
    { destruct Hst as (_ & -> & _). unfold Section_name. rewrite Eh. by destruct (header_parts _ _ _ Hp') as (? & ? & ? & [= <- <- <-] & ->). }
    split; [by eapply Hsame|]. intros j u Hj Hu. apply Hall. by rewrite list_lookup_insert_ne.
  - intros name Ht Hn. destruct (append_section ty fields values name Hf Hv Ht Hn) as (Hr & Hnm & Hp & Hc). unfold Config_append. set (s := TypedSection_append ty fields values name) in *.
    destruct (Hgen (sections c ++ [s]) (modified c)) as (c' & Ep & Hlen & Hall); [apply Forall_app; split; [done|by constructor]|].
    destruct (Hall (length (sections c)) s) as (t' & Ht' & Hst); [by rewrite lookup_app_r, Nat.sub_diag by lia|]. exists c', t'. split; [done|]. split; [rewrite Hlen, length_app; cbn; lia|].
    split; [done|]. split; [destruct Hst as (_ & -> & _); done|]. split; [by eapply Hsame|]. intros j u Hu. apply Hall. by apply lookup_app_l_Some.
Qed.

(** ** Values that do not survive *)

Section Lost.
Context `{U : Unicode} `{I : Inpt} `{!InptOk U I}.

(** A value without a single quote is written between single quotes as it is, but unescaped when it is read: of two backslashes one is left. *)
Lemma backslash_lost : as_str (Token_from_string [92%N; 92%N]) = [92%N].
Proof. change (unescape (escape_debug [92%N]) = [92%N]). apply unescape_debug. repeat constructor; done. Qed.

Lemma word_of (w : str) : forallb (fun c => negb (is_whitespace c)) w = true -> w ≠ [] -> head w ≠ Some 34%N -> head w ≠ Some 39%N -> word w.
Proof. intros Hw ???. split; [done|]. split; [|done]. apply Forall_forall. intros c Hc. rewrite forallb_forall in Hw. apply list_elem_of_In, Hw in Hc. by apply negb_true_iff. Qed.

(** A line feed in such a value ends the line: the rest of the value is another line, here the header of a section. *)
Lemma newline_injects n : str_lines (show_line (option_from_display $"key" ($"a" ++ [10%N] ++ $"config b"))) = [[9%N] ++ $"option key 'a"; $"config b'"] /\
  Line_parse $"config b'" n = Done (Ok (Line_Section (W $"b'") None NoComment)).
Proof.
  split; [vm_compute; done|]. assert (word $"b'") as Hb by (apply word_of; vm_compute; done).
  change (Line_parse (line_text (Line_Section (W $"b'") None NoComment)) n = Done (Ok (Line_Section (W $"b'") None NoComment))). apply line_parse_text; [|done]. split; [by constructor|done].
Qed.

(** A comment of one word behind the header of a section without a name becomes the name of the section. *)
Lemma comment_becomes_name n : Line_parse (line_text (Line_Section (W $"foo") None (Commented $"x"))) n = Done (Ok (Line_Section (W $"foo") (Some (W $"#x")) NoComment)).
Proof.
  change (Line_parse (line_text (Line_Section (W $"foo") (Some (W $"#x")) NoComment)) n = Done (Ok (Line_Section (W $"foo") (Some (W $"#x")) NoComment))).
  apply line_parse_text; [|done]. split; [constructor; apply word_of; by vm_compute|]. split; [constructor; apply word_of; by vm_compute|done].
Qed.
End Lost.
