(* ===== verification/UciFiles.v ===== *)
(** * Configuration files of the router: reading and writing them

    [src/projects/start-wrt/backend/uciedit/src/lib.rs]: [LockedConfig], [ConfigBytes], [Configs], [FrozenConfigs], [read_all] and [write_all].

    A file system has inodes, a directory, the locks of [flock] and a clock; a process that writes is where it stands in [write_all] ([Writer]), and
    every step is one call, which may fail.  A schedule says whose turn it is.  Writing alone is safe under all failures ([uci_write_all_safe]) and
    exact without them ([write_all_exact]); two processes that write at the same time can lose an update ([uci_lost_update]). *)
From stdpp Require Import gmap.
From S2P Require Import Prelude RustStr BTree UciSyntax.

Local Open Scope rust_scope.

(** ** Files *)

Record Inode : Type := mkInode { i_text : str; i_mtime : Z }.

Record FileSystem : Type := mkFs {
  inodes : list Inode;
  dir : gmap str nat;
  locks : gmap nat nat;
  clock : Z;
}.

Definition set_inode (id : nat) (i : Inode) (fs : FileSystem) : FileSystem := mkFs (<[id := i]> (inodes fs)) (dir fs) (locks fs) (clock fs).

(** A new file at the path. *)
Definition new_file (path : str) (fs : FileSystem) : FileSystem * nat :=
  (mkFs (inodes fs ++ [mkInode [] (clock fs)]) (<[path := length (inodes fs)]> (dir fs)) (locks fs) (clock fs), length (inodes fs)).

(** [OpenOptions] with [create] and without [truncate]; [File::create]. *)
Definition open_create (path : str) (fs : FileSystem) : FileSystem * nat :=
  match dir fs !! path with Some id => (fs, id) | None => new_file path fs end.

Definition file_create (path : str) (fs : FileSystem) : FileSystem * nat :=
  match dir fs !! path with Some id => (set_inode id (mkInode [] (clock fs)) fs, id) | None => new_file path fs end.

(** What is written from the beginning of a file. *)
Definition write_at (id : nat) (bytes : str) (fs : FileSystem) : FileSystem :=
  match inodes fs !! id with
  | Some i => set_inode id (mkInode (bytes ++ drop (length bytes) (i_text i)) (clock fs)) fs
  | None => fs
  end.

Definition rename_file (src dst : str) (fs : FileSystem) : option FileSystem :=
  id ← dir fs !! src; Some (mkFs (inodes fs) (<[dst := id]> (delete src (dir fs))) (locks fs) (clock fs)).

Definition lock (pid id : nat) (fs : FileSystem) : FileSystem := mkFs (inodes fs) (dir fs) (<[id := pid]> (locks fs)) (clock fs).
Definition unlock (id : nat) (fs : FileSystem) : FileSystem := mkFs (inodes fs) (dir fs) (delete id (locks fs)) (clock fs).

(** [Path::with_extension("tmp")] of a file name. *)
Definition tmp_path (name : str) : str :=
  match str_split_once 46 (reverse name) with
  | Some (_, before) => if bool_decide (before = []) then name ++ $".tmp" else reverse before ++ $".tmp"
  | None => name ++ $".tmp"
  end.

(** ** Files in memory *)

(** [ConfigBytes], [FrozenConfigs]: name, time of modification and text. *)
Record ConfigEntry : Type := mkEntry { en_name : str; en_modified : option Z; en_text : str }.

#[export] Instance ConfigEntry_eq_dec : EqDecision ConfigEntry.
Proof. solve_decision. Defined.

Definition Configs : Type := list (str * Config).

Section Memory.
Context `{U : Unicode} `{I : Inpt}.

Fixpoint ConfigBytes_parse (entries : list ConfigEntry) (configs : Configs) : outcome (result Configs Error) :=
  match entries with
  | [] => Done (Ok configs)
  | e :: rest =>
      let* r := parse_str (en_text e) in
      match r with
      | Err err => Done (Err (map_src (fun _ => AtPath (en_name e)) err))
      | Ok c => ConfigBytes_parse rest (BTreeMap_insert str_cmp (en_name e) (mkConfig (prefix c) (sections c) (en_modified e)) configs)
      end
  end.

Definition freeze (configs : Configs) : list ConfigEntry := map (fun x => mkEntry x.1 (modified x.2) (dump_str x.2)) configs.

(** [Config::parse]: the time of the file, if it can be told, and what reading it gives. *)
Inductive ReadText : Type := Text (text : str) | NotFound | Unreadable.

Definition Config_parse (path : str) (mtime : option Z) (read : ReadText) : outcome (result Config Error) :=
  let finish text modified :=
    let* r := parse_str text in
    Done (let? c := with_path path r in Ok (mkConfig (prefix c) (sections c) modified)) in
  match read with
  | Text text => finish text mtime
  | NotFound => finish [] None
  | Unreadable => Done (Err (Io (AtPath path)))
  end.

(** [LockedConfig::parse]: the text of the file that is locked, if it can be read. *)
Definition LockedConfig_parse (path : str) (read : option str) : outcome (result Config Error) :=
  match read with
  | Some text => let* r := parse_str text in Done (with_path path r)
  | None => Done (Err (Io (AtPath path)))
  end.

(** [Index for Configs] panics for a file that was not parsed. *)
Definition Configs_index (name : str) (configs : Configs) : outcome Config := unwrap (BTreeMap_get str_cmp name configs).
End Memory.

(** ** Reading *)

Definition MAX_RETRIES : nat := 4.

(** What a call for a file finds: its time of modification, then its text; or that it is not there, or an error. *)
Inductive Found : Type :=
| Present (mtime : option Z) (text : option str)
| Absent
| Failed.

Fixpoint read_entries (names : list str) (find : str -> Found) : result (list ConfigEntry) Error :=
  match names with
  | [] => Ok []
  | name :: rest =>
      match find name with
      | Present mtime (Some text) => let? es := read_entries rest find in Ok (mkEntry name mtime text :: es)
      | Absent => let? es := read_entries rest find in Ok (mkEntry name None [] :: es)
      | Present _ None | Failed => Err (Io (AtPath name))
      end
  end.

Definition newer_than (expected : Z) (e : ConfigEntry) : bool := match en_modified e with Some found => (expected <? found)%Z | None => false end.

(** In every round the time, and what the calls of that round find. *)
Fixpoint read_rounds (rounds : nat) (names : list str) (time : nat -> Z) (find : nat -> str -> Found) (entries : list ConfigEntry) : result (list ConfigEntry) Error :=
  match rounds with
  | 0 => Ok entries
  | S k =>
      let round := MAX_RETRIES - rounds in
      let? entries := read_entries names (find round) in
      if existsb (newer_than (time round)) entries then read_rounds k names time find entries else Ok entries
  end.

Definition read_all (names : list str) (time : nat -> Z) (find : nat -> str -> Found) : result (list ConfigEntry) Error :=
  read_rounds MAX_RETRIES names time find [].

Definition parse_all `{U : Unicode} `{I : Inpt} (names : list str) (time : nat -> Z) (find : nat -> str -> Found) : outcome (result Configs Error) :=
  match read_all names time find with Err e => Done (Err e) | Ok entries => ConfigBytes_parse entries [] end.

(** ** Writing *)

(** Where a process stands in [write_all]: a file that was opened goes with its inode. *)
Inductive Writer : Type :=
| Opening (todo : list ConfigEntry) (files : list (ConfigEntry * nat))
| Locking (e : ConfigEntry) (id : nat) (todo : list ConfigEntry) (files : list (ConfigEntry * nat))
| Checking (todo files : list (ConfigEntry * nat))
| Creating (files : list (ConfigEntry * nat))
| Writing (tmp : nat) (e : ConfigEntry) (id : nat) (files : list (ConfigEntry * nat))
| Flushing (e : ConfigEntry) (id : nat) (files : list (ConfigEntry * nat))
| Syncing (e : ConfigEntry) (id : nat) (files : list (ConfigEntry * nat))
| Renaming (e : ConfigEntry) (id : nat) (files : list (ConfigEntry * nat))
| Finished (r : result unit Error).

(** Returning an error unlocks the files that are open. *)
Definition abort (e : Error) (files : list (ConfigEntry * nat)) (fs : FileSystem) : FileSystem * Writer :=
  (foldr (fun x fs => unlock x.2 fs) fs files, Finished (Err e)).

(** [check_modified] on the inode that is locked; a time that cannot be read passes. *)
Definition check_modified (e : ConfigEntry) (id : nat) (fails : bool) (fs : FileSystem) : bool :=
  match en_modified e, inodes fs !! id with
  | Some expected, Some i => fails || (i_mtime i <=? expected)%Z
  | _, _ => true
  end.

(** One call of [write_all]; it may fail, a write after some bytes.  [None]: it waits for a lock, or there is nothing to do. *)
Definition writer_step (pid : nat) (fails : option nat) (fs : FileSystem) (w : Writer) : option (FileSystem * Writer) :=
  let failed := bool_decide (is_Some fails) in
  let io (e : ConfigEntry) := Io (AtPath (en_name e)) in
  match w with
  | Opening [] files => Some (fs, Checking files files)
  | Opening (e :: todo) files =>
      Some (if failed then abort (io e) files fs else let '(fs, id) := open_create (en_name e) fs in (fs, Locking e id todo files))
  | Locking e id todo files =>
      if failed then Some (abort (FdLock (AtPath (en_name e))) files fs)
      else match locks fs !! id with
           | Some _ => None
           | None => Some (lock pid id fs, Opening todo (files ++ [(e, id)]))
           end
  | Checking [] files => Some (fs, Creating files)
  | Checking ((e, id) :: todo) files =>
      Some (if check_modified e id failed fs then (fs, Checking todo files) else abort (Conflict (AtPath (en_name e))) files fs)
  | Creating [] => Some (fs, Finished (Ok tt))
  | Creating ((e, id) :: files) =>
      Some (if failed then abort (io e) ((e, id) :: files) fs else let '(fs, tmp) := file_create (tmp_path (en_name e)) fs in (fs, Writing tmp e id files))
  | Writing tmp e id files =>
      Some (match fails with
            | Some n => abort (io e) ((e, id) :: files) (write_at tmp (take n (en_text e)) fs)
            | None => (write_at tmp (en_text e) fs, Flushing e id files)
            end)
  | Flushing e id files => Some (if failed then abort (io e) ((e, id) :: files) fs else (fs, Syncing e id files))
  | Syncing e id files => Some (if failed then abort (io e) ((e, id) :: files) fs else (fs, Renaming e id files))
  | Renaming e id files =>
      Some (match (if failed then None else rename_file (tmp_path (en_name e)) (en_name e) fs) with
            | None => abort (io e) ((e, id) :: files) fs
            | Some fs => (unlock id fs, Creating files)
            end)
  | Finished _ => None
  end.

Definition write_all (entries : list ConfigEntry) : Writer := Opening entries [].

Definition dump_all (configs : Configs) : Writer := write_all (freeze configs).

(** [Config::dump] makes the same calls for one file. *)
Definition Config_dump (path : str) (c : Config) : Writer := write_all [mkEntry path (modified c) (dump_str c)].

(** ** Schedules *)

(** A process, the time that passes before its turn, and whether its call fails. *)
Record Event : Type := mkEvent { ev_pid : nat; ev_delay : nat; ev_fails : option nat }.

Record World : Type := mkWorld { w_fs : FileSystem; w_writers : list Writer }.

Definition pass_time (delay : nat) (fs : FileSystem) : FileSystem := mkFs (inodes fs) (dir fs) (locks fs) (clock fs + Z.of_nat delay).

Definition world_step (ev : Event) (w : World) : World :=
  let fs := pass_time (ev_delay ev) (w_fs w) in
  match w_writers w !! ev_pid ev with
  | None => mkWorld fs (w_writers w)
  | Some writer =>
      match writer_step (ev_pid ev) (ev_fails ev) fs writer with
      | None => mkWorld fs (w_writers w)
      | Some (fs, writer) => mkWorld fs (<[ev_pid ev := writer]> (w_writers w))
      end
  end.

Definition run (evs : list Event) (w : World) : World := fold_left (fun w ev => world_step ev w) evs w.

Definition content (fs : FileSystem) (path : str) : option str := id ← dir fs !! path; i_text <$> inodes fs !! id.

(** ** Calls *)

Record fs_ok (fs : FileSystem) : Prop := {
  fk_bound : forall p id, dir fs !! p = Some id -> id < length (inodes fs);
  fk_single : forall p q id, dir fs !! p = Some id -> dir fs !! q = Some id -> p = q;
}.

(** Nothing but [p] has changed. *)
Definition only_at (p : str) (fs fs' : FileSystem) : Prop := forall q, q ≠ p -> dir fs' !! q = dir fs !! q /\ content fs' q = content fs q.

Lemma content_dir fs p t : content fs p = Some t -> exists id, dir fs !! p = Some id.
Proof. unfold content. destruct (dir fs !! p) as [id|]; [by exists id|done]. Qed.

Lemma content_inodes fs fs' p : dir fs' = dir fs -> inodes fs' = inodes fs -> content fs' p = content fs p.
Proof. unfold content. by intros -> ->. Qed.

Lemma new_file_spec p fs : fs_ok fs -> dir fs !! p = None -> fs_ok (new_file p fs).1 /\ dir (new_file p fs).1 !! p = Some (new_file p fs).2 /\ content (new_file p fs).1 p = Some [] /\
  only_at p fs (new_file p fs).1 /\ locks (new_file p fs).1 = locks fs.
Proof.
  intros [H1 H2] Hp. unfold new_file. cbn [fst snd]. set (n := length (inodes fs)).
  assert (forall q id, <[p := n]> (dir fs) !! q = Some id -> q = p /\ id = n \/ q ≠ p /\ dir fs !! q = Some id) as Hq.
  { intros q id. destruct (decide (q = p)) as [->|Hne]; [rewrite lookup_insert_eq; intros [= <-]; by left|rewrite lookup_insert_ne by done; by right]. }
  split; [split; cbn [dir inodes]|].
  - intros q id Hd. rewrite length_app. cbn. destruct (Hq q id Hd) as [[-> ->]|[_ Hd']]; [fold n; lia|]. specialize (H1 q id Hd'). lia.
  - intros a b id Ha Hb. destruct (Hq a id Ha) as [[-> ->]|[Hna Ha']], (Hq b _ Hb) as [[-> E]|[Hnb Hb']]; [done| | |by eapply H2].
    + specialize (H1 b n Hb'). unfold n in H1. lia.
    + subst id. specialize (H1 a n Ha'). unfold n in H1. lia.
  - cbn [dir]. split; [apply lookup_insert_eq|]. split; [|split; [|done]].
    + unfold content. cbn [dir inodes]. rewrite lookup_insert_eq. cbn [mbind option_bind]. unfold n. by rewrite lookup_app_r, Nat.sub_diag by lia.
    + intros q Hne. cbn [dir]. rewrite lookup_insert_ne by done. split; [done|]. unfold content. cbn [dir inodes]. rewrite lookup_insert_ne by done. destruct (dir fs !! q) as [id|] eqn:E; [|done]. cbn [mbind option_bind].
      by rewrite lookup_app_l by by eapply H1.
Qed.

Lemma open_create_spec p fs : fs_ok fs -> fs_ok (open_create p fs).1 /\ dir (open_create p fs).1 !! p = Some (open_create p fs).2 /\ only_at p fs (open_create p fs).1 /\
  (content (open_create p fs).1 p = content fs p \/ content fs p = None /\ content (open_create p fs).1 p = Some []) /\ locks (open_create p fs).1 = locks fs.
Proof.
  intros Hf. unfold open_create. destruct (dir fs !! p) as [id|] eqn:E; [split_and!; [done|done|done|by left|done]|].
  destruct (new_file_spec p fs Hf E) as (H1 & H2 & H3 & H4 & H5). split_and!; [done|done|done| |done]. right. split; [|done]. unfold content. by rewrite E.
Qed.

(** Changing the inode of a path. *)
Lemma set_inode_spec p id i fs : fs_ok fs -> dir fs !! p = Some id -> fs_ok (set_inode id i fs) /\ content (set_inode id i fs) p = Some (i_text i) /\ only_at p fs (set_inode id i fs).
Proof.
  intros [H1 H2] Hp. split; [split; cbn [dir inodes set_inode]; [intros q j Hq; rewrite length_insert; by eapply H1|done]|]. unfold content. cbn [dir inodes set_inode]. split.
  - rewrite Hp. cbn [mbind option_bind]. by rewrite list_lookup_insert_eq by by eapply H1.
  - intros q Hne. split; [done|]. unfold content. cbn [dir inodes set_inode]. destruct (dir fs !! q) as [j|] eqn:E; [|done]. cbn [mbind option_bind]. rewrite list_lookup_insert_ne; [done|]. intros ->. apply Hne. by eapply H2.
Qed.

Lemma file_create_spec p fs : fs_ok fs -> fs_ok (file_create p fs).1 /\ dir (file_create p fs).1 !! p = Some (file_create p fs).2 /\ content (file_create p fs).1 p = Some [] /\
  only_at p fs (file_create p fs).1 /\ locks (file_create p fs).1 = locks fs.
Proof.
  intros Hf. unfold file_create. destruct (dir fs !! p) as [id|] eqn:E; [|by apply new_file_spec]. cbn [fst snd]. destruct (set_inode_spec p id (mkInode [] (clock fs)) fs Hf E) as (H1 & H2 & H3). by split_and!.
Qed.

Lemma write_at_spec p id bytes fs : fs_ok fs -> dir fs !! p = Some id -> fs_ok (write_at id bytes fs) /\ only_at p fs (write_at id bytes fs) /\ locks (write_at id bytes fs) = locks fs /\
  (content fs p = Some [] -> content (write_at id bytes fs) p = Some bytes).
Proof.
  intros Hf Hp. unfold write_at. destruct (lookup_lt_is_Some_2 (inodes fs) id) as [i Hi]; [by eapply fk_bound|]. rewrite Hi.
  destruct (set_inode_spec p id (mkInode (bytes ++ drop (length bytes) (i_text i)) (clock fs)) fs Hf Hp) as (H1 & H2 & H3). split_and!; [done|done|done|].
  rewrite H2. unfold content. rewrite Hp. cbn [mbind option_bind]. rewrite Hi. cbn. intros [= ->]. by rewrite drop_nil, app_nil_r.
Qed.

Lemma rename_spec src dst fs t : fs_ok fs -> src ≠ dst -> content fs src = Some t ->
  exists fs', rename_file src dst fs = Some fs' /\ fs_ok fs' /\ content fs' dst = Some t /\ locks fs' = locks fs /\ (forall q, q ≠ src -> q ≠ dst -> dir fs' !! q = dir fs !! q /\ content fs' q = content fs q).
Proof.
  intros [H1 H2] Hne Hc. destruct (content_dir _ _ _ Hc) as [id Hd]. unfold rename_file. rewrite Hd. cbn [mbind option_bind]. eexists. split; [done|].
  assert (forall q j, <[dst := id]> (delete src (dir fs)) !! q = Some j -> q = dst /\ j = id \/ q ≠ dst /\ q ≠ src /\ dir fs !! q = Some j) as Hq.
  { intros q j. destruct (decide (q = dst)) as [->|Hqd]; [rewrite lookup_insert_eq; intros [= <-]; by left|]. rewrite lookup_insert_ne by done. intros Hq. apply lookup_delete_Some in Hq as [? ?]. right. done. }
  split; [split; cbn [dir inodes]|].
  - intros q j Hj. destruct (Hq q j Hj) as [[-> ->]|(_ & _ & Hj')]; by eapply H1.
  - intros a b j Ha Hb. destruct (Hq a j Ha) as [[-> ->]|(Ha1 & Ha2 & Ha')], (Hq b _ Hb) as [[-> E]|(Hb1 & Hb2 & Hb')]; [done| | |by eapply H2].
    + exfalso. apply Hb2. by eapply H2.
    + subst j. exfalso. apply Ha2. by eapply H2.
  - split; [|split; [done|]].
    + unfold content in *. cbn [dir inodes]. rewrite lookup_insert_eq. rewrite Hd in Hc. exact Hc.
    + intros q Hs Hdst. cbn [dir]. rewrite lookup_insert_ne, lookup_delete_ne by done. split; [done|]. unfold content. cbn [dir inodes]. by rewrite lookup_insert_ne, lookup_delete_ne.
Qed.

Lemma unlock_all_lookup (files : list (ConfigEntry * nat)) fs j :
  locks (foldr (fun x fs => unlock x.2 fs) fs files) !! j = if bool_decide (j ∈ map snd files) then None else locks fs !! j.
Proof.
  induction files as [|[e id] files IH]; cbn [foldr snd map]; [by rewrite bool_decide_false by apply not_elem_of_nil|]. cbn [unlock locks]. destruct (decide (j = id)) as [->|Hne].
  - rewrite lookup_delete_eq, bool_decide_true by left. done.
  - rewrite lookup_delete_ne by done. rewrite IH. by rewrite (bool_decide_ext (j ∈ id :: map snd files) (j ∈ map snd files)) by (rewrite elem_of_cons; split; [by intros [?|?]|by right]).
Qed.

Lemma unlock_all_spec (files : list (ConfigEntry * nat)) fs : inodes (foldr (fun x fs => unlock x.2 fs) fs files) = inodes fs /\ dir (foldr (fun x fs => unlock x.2 fs) fs files) = dir fs /\
  ((forall id, is_Some (locks fs !! id) -> id ∈ map snd files) -> locks (foldr (fun x fs => unlock x.2 fs) fs files) = ∅).
Proof.
  split; [by induction files as [|x files IH]|]. split; [by induction files as [|x files IH]|]. intros Hl. apply map_eq. intros j. rewrite unlock_all_lookup, lookup_empty. case_bool_decide as Hj; [done|].
  destruct (locks fs !! j) as [q|] eqn:E; [|done]. exfalso. apply Hj, Hl. by exists q.
Qed.

(** ** Writing alone *)

Section alone.
Context (fs0 : FileSystem) (entries : list ConfigEntry).
Hypothesis Hdistinct : NoDup (map en_name entries).
Hypothesis Htmp : forall e e', e ∈ entries -> e' ∈ entries -> tmp_path (en_name e) ≠ en_name e'.

(** A file that was not written has the text it had; one that was not there may have been created, empty, when it was opened to be locked. *)
Definition kept (fs : FileSystem) (e : ConfigEntry) : Prop :=
  content fs (en_name e) = content fs0 (en_name e) \/ content fs0 (en_name e) = None /\ content fs (en_name e) = Some [].

Definition renewed (fs : FileSystem) (e : ConfigEntry) : Prop := content fs (en_name e) = Some (en_text e).

Definition others_kept (fs : FileSystem) : Prop := forall p, p ∉ map en_name entries -> p ∉ map (fun e => tmp_path (en_name e)) entries -> content fs p = content fs0 p.

Definition bound (fs : FileSystem) (x : ConfigEntry * nat) : Prop := dir fs !! en_name x.1 = Some x.2.

Definition locked_in (fs : FileSystem) (files : list (ConfigEntry * nat)) : Prop := forall id, is_Some (locks fs !! id) -> id ∈ map snd files.

(** The files that were written and those that were not. *)
Record progress (fs : FileSystem) (done rest : list ConfigEntry) : Prop := {
  pr_ok : fs_ok fs;
  pr_entries : entries = done ++ rest;
  pr_done : Forall (renewed fs) done;
  pr_rest : Forall (kept fs) rest;
  pr_others : others_kept fs;
}.

Definition standing (fs : FileSystem) (w : Writer) : Prop :=
  match w with
  | Opening todo files => progress fs [] (map fst files ++ todo) /\ Forall (bound fs) files /\ locked_in fs files
  | Locking e id todo files => progress fs [] (map fst files ++ e :: todo) /\ Forall (bound fs) files /\ locked_in fs files /\ bound fs (e, id)
  | Checking todo files => progress fs [] (map fst files) /\ Forall (bound fs) files /\ locked_in fs files
  | Creating files => (exists done, progress fs done (map fst files)) /\ Forall (bound fs) files /\ locked_in fs files
  | Writing tmp e id files => (exists done, progress fs done (e :: map fst files)) /\ Forall (bound fs) ((e, id) :: files) /\ locked_in fs ((e, id) :: files) /\
      dir fs !! tmp_path (en_name e) = Some tmp /\ content fs (tmp_path (en_name e)) = Some []
  | Flushing e id files | Syncing e id files | Renaming e id files => (exists done, progress fs done (e :: map fst files)) /\ Forall (bound fs) ((e, id) :: files) /\ locked_in fs ((e, id) :: files) /\
      content fs (tmp_path (en_name e)) = Some (en_text e)
  | Finished r => locks fs = ∅ /\ exists done rest, progress fs done rest /\ match r with Ok _ => rest = [] | Err (Conflict _) => done = [] | Err _ => True end
  end.

(** The calls that are left. *)
Definition left_to_do (w : Writer) : nat :=
  match w with
  | Opening todo files => 3 + 8 * length todo + 6 * length files
  | Locking e id todo files => 4 + 8 * length todo + 6 * (length files + 1)
  | Checking todo files => 2 + length todo + 5 * length files
  | Creating files => 1 + 5 * length files
  | Writing _ _ _ files => 5 + 5 * length files
  | Flushing _ _ files => 4 + 5 * length files
  | Syncing _ _ files => 3 + 5 * length files
  | Renaming _ _ files => 2 + 5 * length files
  | Finished _ => 0
  end.

(** A change at the temporary path of an entry. *)
Lemma progress_tmp fs fs' done rest e : progress fs done rest -> e ∈ entries -> only_at (tmp_path (en_name e)) fs fs' -> fs_ok fs' ->
  progress fs' done rest /\ forall files, (forall x, x ∈ files -> x.1 ∈ entries) -> Forall (bound fs) files -> Forall (bound fs') files.
Proof.
  intros [H1 H2 H3 H4 H5] He Hat Hok.
  assert (forall e', e' ∈ entries -> dir fs' !! en_name e' = dir fs !! en_name e' /\ content fs' (en_name e') = content fs (en_name e')) as Hname by (intros e' He'; apply Hat, not_eq_sym, Htmp; done).
  split; [split|].
  - done.
  - done.
  - rewrite Forall_forall in H3 |- *. intros e' He'. unfold renewed. rewrite (proj2 (Hname e' ltac:(rewrite H2; apply elem_of_app; by left))). by apply H3.
  - rewrite Forall_forall in H4 |- *. intros e' He'. unfold kept. rewrite (proj2 (Hname e' ltac:(rewrite H2; apply elem_of_app; by right))). by apply H4.
  - intros p Hp Ht. rewrite (proj2 (Hat p ltac:(intros ->; apply Ht, list_elem_of_fmap; by exists e))). by apply H5.
  - intros files Hin HF. rewrite Forall_forall in HF |- *. intros x Hx. unfold bound. rewrite (proj1 (Hname x.1 (Hin x Hx))). by apply HF.
Qed.

(** Calls that change no file. *)
Lemma progress_same fs fs' done rest : progress fs done rest -> inodes fs' = inodes fs -> dir fs' = dir fs -> progress fs' done rest.
Proof.
  intros [H1 H2 H3 H4 H5] Ei Ed. assert (forall p, content fs' p = content fs p) as Hc by (intros p; by apply content_inodes). split; [|done| | |].
  - destruct H1 as [A B]. split; rewrite ?Ed, ?Ei; done.
  - eapply Forall_impl; [exact H3|]. intros e. unfold renewed. by rewrite Hc.
  - eapply Forall_impl; [exact H4|]. intros e. unfold kept. by rewrite Hc.
  - intros p Hp Ht. rewrite Hc. by apply H5.
Qed.

Lemma bound_same fs fs' files : dir fs' = dir fs -> Forall (bound fs) files -> Forall (bound fs') files.
Proof. intros Ed HF. eapply Forall_impl; [exact HF|]. intros x. unfold bound. by rewrite Ed. Qed.

(** Giving up. *)
Lemma abort_standing e files fs done rest : progress fs done rest -> locked_in fs files -> (forall src, e = Conflict src -> done = []) -> standing (abort e files fs).1 (abort e files fs).2.
Proof.
  intros Hp Hl He. unfold abort. cbn [fst snd standing]. destruct (unlock_all_spec files fs) as (H1 & H2 & H3). split; [by apply H3|]. exists done, rest. split; [by apply (progress_same fs)|].
  destruct e; try done. by eapply He.
Qed.

Lemma abort_next e files fs done rest w : progress fs done rest -> locked_in fs files -> (forall src, e = Conflict src -> done = []) -> 0 < left_to_do w ->
  exists fs' w', Some (abort e files fs) = Some (fs', w') /\ standing fs' w' /\ left_to_do w' < left_to_do w.
Proof. intros Hp Hl He Hw. exists (abort e files fs).1, (abort e files fs).2. split; [by destruct (abort e files fs)|]. split; [by eapply abort_standing|exact Hw]. Qed.

(** Opening a file. *)
Lemma open_standing fs e todo files fs' id : progress fs [] (map fst files ++ e :: todo) -> Forall (bound fs) files -> locked_in fs files -> open_create (en_name e) fs = (fs', id) ->
  standing fs' (Locking e id todo files).
Proof.
  intros Hp Hb Hl Eo. destruct Hp as [H1 H2 H3 H4 H5]. destruct (open_create_spec (en_name e) fs H1) as (O1 & O2 & O3 & O4 & O5). rewrite Eo in *. cbn [fst snd] in *. cbn [app] in H2.
  assert (forall e', e' ∈ map fst files ++ todo -> en_name e' ≠ en_name e) as Hne.
  { intros e' He' E. rewrite H2, map_app in Hdistinct. cbn [map] in Hdistinct. apply NoDup_app in Hdistinct as (_ & Hd1 & Hd2). apply NoDup_cons in Hd2 as [Hd2 _].
    apply elem_of_app in He' as [He'|He']; [apply (Hd1 (en_name e')); [by apply list_elem_of_fmap_2|rewrite E; left]|apply Hd2; rewrite <- E; by apply list_elem_of_fmap_2]. }
  cbn [standing]. split; [split|split; [|split]].
  - done.
  - done.
  - constructor.
  - rewrite Forall_forall in H4 |- *. intros e' He'. specialize (H4 e' He'). destruct (decide (e' = e)) as [->|Hn].
    + destruct O4 as [E|[E1 E2]]; unfold kept in *; [by rewrite E|]. rewrite E2. destruct H4 as [E|[E ?]]; [right; split; [congruence|done]|by right].
    + unfold kept. rewrite (proj2 (O3 (en_name e') ltac:(apply Hne; apply elem_of_app in He' as [?|[?|?]%elem_of_cons]; apply elem_of_app; [by left|done|by right]))). exact H4.
  - intros p Hp Ht. rewrite (proj2 (O3 p ltac:(intros ->; apply Hp; apply list_elem_of_fmap_2; rewrite H2; apply elem_of_app; right; left))). by apply H5.
  - rewrite Forall_forall in Hb |- *. intros x Hx. unfold bound. rewrite (proj1 (O3 (en_name x.1) ltac:(apply Hne, elem_of_app; left; by apply list_elem_of_fmap_2))). by apply Hb.
  - intros j Hj. rewrite O5 in Hj. by apply Hl.
  - exact O2.
Qed.

(** A lock is free unless the process has it. *)
Lemma lock_free fs e id todo files : standing fs (Locking e id todo files) -> locks fs !! id = None.
Proof.
  intros ([H1 H2 _ _ _] & Hb & Hl & He). destruct (locks fs !! id) as [q|] eqn:E; [|done]. exfalso. assert (id ∈ map snd files) as Hin by (apply Hl; by exists q). apply list_elem_of_fmap in Hin as ([e' id'] & [= <-] & Hin).
  rewrite Forall_forall in Hb. specialize (Hb _ Hin). unfold bound in Hb, He. cbn in Hb, He. pose proof (fk_single _ H1 _ _ _ Hb He) as En. cbn [app] in H2. rewrite H2, map_app in Hdistinct. cbn [map] in Hdistinct.
  apply NoDup_app in Hdistinct as (_ & Hd & _). apply (Hd (en_name e')); [by apply list_elem_of_fmap_2, (list_elem_of_fmap_2 fst files (e', id))|rewrite En; left].
Qed.

(** The new file takes the place of the old. *)
Lemma rename_standing fs e id files : standing fs (Renaming e id files) -> exists fs', rename_file (tmp_path (en_name e)) (en_name e) fs = Some fs' /\ standing (unlock id fs') (Creating files).
Proof.
  intros ((done & [H1 H2 H3 H4 H5]) & Hb & Hl & Hc). assert (e ∈ entries) as He by (rewrite H2; apply elem_of_app; right; left).
  destruct (rename_spec (tmp_path (en_name e)) (en_name e) fs (en_text e) H1 (Htmp e e He He) Hc) as (fs' & Er & R1 & R2 & R3 & R4). exists fs'. split; [done|].
  assert (forall e', e' ∈ done ++ map fst files -> dir fs' !! en_name e' = dir fs !! en_name e' /\ content fs' (en_name e') = content fs (en_name e')) as Hname.
  { intros e' He'. assert (e' ∈ entries) as Hin by (rewrite H2; apply elem_of_app; apply elem_of_app in He' as [?|?]; [by left|right; by right]). apply R4; [by apply not_eq_sym, Htmp|]. intros E.
    rewrite H2, map_app in Hdistinct. cbn [map] in Hdistinct. apply NoDup_app in Hdistinct as (_ & Hd1 & Hd2). apply NoDup_cons in Hd2 as [Hd2 _].
    apply elem_of_app in He' as [He'|He']; [apply (Hd1 (en_name e')); [by apply list_elem_of_fmap_2|rewrite E; left]|apply Hd2; rewrite <- E; by apply list_elem_of_fmap_2]. }
  apply Forall_cons in Hb as [_ Hb]. apply Forall_cons in H4 as [_ H4]. cbn [standing]. split; [|split].
  - exists (done ++ [e]). apply (progress_same fs'); [|done|done]. split.
    + done.
    + by rewrite <- app_assoc.
    + apply Forall_app. split; [|by constructor]. rewrite Forall_forall in H3 |- *. intros e' He'. unfold renewed. rewrite (proj2 (Hname e' ltac:(apply elem_of_app; by left))). by apply H3.
    + rewrite Forall_forall in H4 |- *. intros e' He'. unfold kept. rewrite (proj2 (Hname e' ltac:(apply elem_of_app; by right))). by apply H4.
    + intros p Hp Ht. rewrite (proj2 (R4 p ltac:(intros ->; apply Ht, list_elem_of_fmap; by exists e) ltac:(intros ->; apply Hp; by apply list_elem_of_fmap_2))). by apply H5.
  - rewrite Forall_forall in Hb |- *. intros x Hx. unfold bound. cbn [unlock dir]. rewrite (proj1 (Hname x.1 ltac:(apply elem_of_app; right; by apply list_elem_of_fmap_2))). by apply Hb.
  - intros j Hj. cbn [unlock locks] in Hj. destruct (decide (j = id)) as [->|Hne]; [rewrite lookup_delete_eq in Hj; by destruct Hj|]. rewrite lookup_delete_ne, R3 in Hj by done.
    specialize (Hl j Hj). by apply elem_of_cons in Hl as [?|?].
Qed.

(** Every call leads on. *)
Lemma step_standing pid fails fs w : standing fs w -> 0 < left_to_do w -> exists fs' w', writer_step pid fails fs w = Some (fs', w') /\ standing fs' w' /\ left_to_do w' < left_to_do w.
Proof.
  intros Hs Hw. destruct w as [[|e todo] files|e id todo files|[|[e id] todo] files|[|[e id] files]|tmp e id files|e id files|e id files|e id files|r]; cbn [writer_step].
  - destruct Hs as (Hp & Hb & Hl). rewrite app_nil_r in Hp. eexists _, _. split; [done|]. split; [done|]. cbn. lia.
  - destruct Hs as (Hp & Hb & Hl). case_bool_decide; [by eapply abort_next|]. destruct (open_create (en_name e) fs) as [fs' id] eqn:Eo. eexists _, _. split; [done|]. split; [by eapply open_standing|]. cbn. lia.
  - pose proof (lock_free _ _ _ _ _ Hs) as Hfree. destruct Hs as (Hp & Hb & Hl & He). case_bool_decide; [by eapply abort_next|]. rewrite Hfree. eexists _, _. split; [done|]. split; [|cbn; rewrite length_app; cbn; lia].
    cbn [standing]. rewrite map_app. cbn [map fst]. rewrite <- app_assoc. split; [by apply (progress_same fs)|]. split; [apply Forall_app; split; [by apply (bound_same fs)|by constructor]|].
    intros j Hj. cbn [lock locks] in Hj. rewrite map_app. apply elem_of_app. destruct (decide (j = id)) as [->|Hne]; [right; left|left]. rewrite lookup_insert_ne in Hj by done. by apply Hl.
  - destruct Hs as (Hp & Hb & Hl). eexists _, _. split; [done|]. split; [|cbn; lia]. cbn. split; [by exists []|done].
  - destruct Hs as (Hp & Hb & Hl). destruct (check_modified e id _ fs); [eexists _, _; split; [done|]; split; [done|]; cbn; lia|]. by eapply abort_next.
  - destruct Hs as ((done & Hp) & _ & Hl). eexists _, _. split; [done|]. split; [|cbn; lia]. cbn. split; [|by exists done, []]. apply map_eq. intros j. rewrite lookup_empty.
    destruct (locks fs !! j) as [q|] eqn:E; [|done]. exfalso. by apply (not_elem_of_nil j), Hl; exists q.
  - destruct Hs as ((done & Hp) & Hb & Hl). cbn [map fst] in Hp. case_bool_decide; [by eapply abort_next|]. assert (e ∈ entries) as He by (rewrite (pr_entries _ _ _ Hp); apply elem_of_app; right; left).
    destruct (file_create_spec (tmp_path (en_name e)) fs (pr_ok _ _ _ Hp)) as (F1 & F2 & F3 & F4 & F5). destruct (file_create (tmp_path (en_name e)) fs) as [fs' tmp]. cbn [fst snd] in *.
    destruct (progress_tmp fs fs' done _ e Hp He F4 F1) as [Hp' Hb']. eexists _, _. split; [done|]. split; [|cbn; lia]. cbn [standing]. split; [by exists done|]. split; [|split; [|done]].
    + apply Hb'; [|done]. intros x Hx. rewrite (pr_entries _ _ _ Hp). apply elem_of_app. right. by apply (list_elem_of_fmap_2 fst ((e, id) :: files)).
    + intros j. rewrite F5. apply Hl.
  - destruct Hs as ((done & Hp) & Hb & Hl & Ht & Hc). assert (e ∈ entries) as He by (rewrite (pr_entries _ _ _ Hp); apply elem_of_app; right; left).
    assert (forall bytes, exists done, progress (write_at tmp bytes fs) done (e :: map fst files)) as Hwr.
    { intros bytes. destruct (write_at_spec (tmp_path (en_name e)) tmp bytes fs (pr_ok _ _ _ Hp) Ht) as (W1 & W2 & _). destruct (progress_tmp fs _ done _ e Hp He W2 W1) as [Hp' _]. by exists done. }
    assert (forall bytes, locked_in (write_at tmp bytes fs) ((e, id) :: files)) as Hlk.
    { intros bytes j. destruct (write_at_spec (tmp_path (en_name e)) tmp bytes fs (pr_ok _ _ _ Hp) Ht) as (_ & _ & -> & _). apply Hl. }
    destruct fails as [n|]; [destruct (Hwr (take n (en_text e))) as [d Hd]; by eapply abort_next|]. eexists _, _. split; [done|]. split; [|cbn; lia]. cbn [standing]. split; [done|].
    destruct (write_at_spec (tmp_path (en_name e)) tmp (en_text e) fs (pr_ok _ _ _ Hp) Ht) as (W1 & W2 & _ & W4). destruct (progress_tmp fs _ done _ e Hp He W2 W1) as [_ Hb'].
    split; [|split; [done|by apply W4]]. apply Hb'; [|done]. intros x Hx. rewrite (pr_entries _ _ _ Hp). apply elem_of_app. right. by apply (list_elem_of_fmap_2 fst ((e, id) :: files)).
  - pose proof Hs as ((done & Hp) & Hb & Hl & Hc). case_bool_decide; [by eapply abort_next|]. eexists _, _. split; [done|]. split; [done|]. cbn. lia.
  - pose proof Hs as ((done & Hp) & Hb & Hl & Hc). case_bool_decide; [by eapply abort_next|]. eexists _, _. split; [done|]. split; [done|]. cbn. lia.
  - destruct (rename_standing fs e id files Hs) as (fs' & Er & Hn). destruct Hs as ((done & Hp) & Hb & Hl & Hc). case_bool_decide; [by eapply abort_next|]. rewrite Er.
    eexists _, _. split; [done|]. split; [done|]. cbn. lia.
  - cbn in Hw. lia.
Qed.

Lemma standing_time delay fs w : standing fs w -> standing (pass_time delay fs) w.
Proof.
  assert (forall d r, progress fs d r -> progress (pass_time delay fs) d r) as Hp by (intros d r Hp; by apply (progress_same fs)).
  assert (forall files, Forall (bound fs) files -> Forall (bound (pass_time delay fs)) files) as Hb by (intros files; by apply bound_same).
  destruct w; cbn [standing]; intros Hs; destruct_and?; split_and?; auto; try (destruct_or?; done); try (match goal with H : exists _, _ |- _ => destruct H as [d ?]; exists d; by apply Hp end).
  destruct H0 as (d & rest & Hpr & Hr). exists d, rest. split; [by apply Hp|done].
Qed.
End alone.

(** Events of one process. *)
Definition alone (evs : list (nat * option nat)) : list Event := map (fun x => mkEvent 0 x.1 x.2) evs.

Lemma run_cons ev evs w : run (ev :: evs) w = run evs (world_step ev w).
Proof. done. Qed.

Lemma run_alone fs0 entries evs fs w : NoDup (map en_name entries) -> (forall e e', e ∈ entries -> e' ∈ entries -> tmp_path (en_name e) ≠ en_name e') ->
  standing fs0 entries fs w -> left_to_do w <= length evs -> exists fs' r, run (alone evs) (mkWorld fs [w]) = mkWorld fs' [Finished r] /\ standing fs0 entries fs' (Finished r).
Proof.
  intros Hd Ht. revert fs w. induction evs as [|[delay fails] evs IH]; intros fs w Hs Hl; cbn [length] in Hl.
  - destruct w; cbn in Hl; try lia. by exists fs, r.
  - cbn [alone map]. rewrite run_cons. unfold world_step. cbn [w_writers w_fs ev_pid ev_delay ev_fails lookup list_lookup fst snd]. pose proof (standing_time fs0 entries delay fs w Hs) as Hs'.
    destruct (decide (left_to_do w = 0)) as [E|E].
    + destruct w; cbn in E; try lia. cbn [writer_step]. apply IH; [done|cbn; lia].
    + destruct (step_standing fs0 entries Hd Ht 0 fails _ w Hs' ltac:(lia)) as (fs' & w' & -> & Hn & Hlt). cbn [insert list_insert]. apply IH; [done|lia].
Qed.

(** ** Writing without failures *)

Definition mtime (fs : FileSystem) (path : str) : option Z := id ← dir fs !! path; i_mtime <$> inodes fs !! id.

(** The file was not changed after the entry was read. *)
Definition fresh (fs : FileSystem) (e : ConfigEntry) : Prop :=
  match en_modified e, mtime fs (en_name e) with Some expected, Some found => (found <= expected)%Z | _, _ => True end.

Lemma mtime_inode fs p id i : dir fs !! p = Some id -> inodes fs !! id = Some i -> mtime fs p = Some (i_mtime i).
Proof. unfold mtime. intros -> E. cbn [mbind option_bind]. by rewrite E. Qed.

Lemma new_file_mtime p fs q : fs_ok fs -> q ≠ p -> mtime (new_file p fs).1 q = mtime fs q.
Proof.
  intros [H1 _] Hne. unfold mtime, new_file. cbn [fst dir inodes]. rewrite lookup_insert_ne by done. destruct (dir fs !! q) as [id|] eqn:E; [|done]. cbn [mbind option_bind]. by rewrite lookup_app_l by by eapply H1.
Qed.

Lemma open_create_mtime p fs q : fs_ok fs -> is_Some (mtime fs q) -> mtime (open_create p fs).1 q = mtime fs q.
Proof.
  intros Hf [t Hq]. unfold open_create. destruct (dir fs !! p) as [id|] eqn:E; [done|]. apply new_file_mtime; [done|]. intros ->. unfold mtime in Hq. by rewrite E in Hq.
Qed.

Lemma set_inode_mtime p id i fs q : fs_ok fs -> dir fs !! p = Some id -> mtime (set_inode id i fs) q = if decide (q = p) then Some (i_mtime i) else mtime fs q.
Proof.
  intros [H1 H2] Hp. unfold mtime. cbn [set_inode dir inodes]. destruct (decide (q = p)) as [->|Hne].
  - rewrite Hp. cbn [mbind option_bind]. by rewrite list_lookup_insert_eq by by eapply H1.
  - destruct (dir fs !! q) as [j|] eqn:E; [|done]. cbn [mbind option_bind]. rewrite list_lookup_insert_ne; [done|]. intros ->. apply Hne. by eapply H2.
Qed.

Lemma file_create_mtime p fs q : fs_ok fs -> q ≠ p -> mtime (file_create p fs).1 q = mtime fs q.
Proof. intros Hf Hne. unfold file_create. destruct (dir fs !! p) as [id|] eqn:E; [|by apply new_file_mtime]. cbn [fst]. by rewrite (set_inode_mtime p id), decide_False. Qed.

Lemma write_at_mtime p id bytes fs q : fs_ok fs -> dir fs !! p = Some id -> mtime (write_at id bytes fs) q = if decide (q = p) then Some (clock fs) else mtime fs q.
Proof.
  intros Hf Hp. unfold write_at. destruct (lookup_lt_is_Some_2 (inodes fs) id) as [i Hi]; [by eapply fk_bound|]. rewrite Hi. by rewrite (set_inode_mtime p id).
Qed.

Lemma rename_mtime src dst fs fs' q : rename_file src dst fs = Some fs' -> mtime fs' q = if decide (q = dst) then mtime fs src else if decide (q = src) then None else mtime fs q.
Proof.
  unfold rename_file, mtime. destruct (dir fs !! src) as [id|] eqn:E; [|done]. cbn [mbind option_bind]. intros [= <-]. cbn [dir inodes]. destruct (decide (q = dst)) as [->|Hd]; [by rewrite lookup_insert_eq|].
  rewrite lookup_insert_ne by done. destruct (decide (q = src)) as [->|Hs]; [by rewrite lookup_delete_eq|by rewrite lookup_delete_ne].
Qed.

Section exact.
Context (fs0 : FileSystem) (entries : list ConfigEntry).
Hypothesis Hdistinct : NoDup (map en_name entries).
Hypothesis Htmp : forall e e', e ∈ entries -> e' ∈ entries -> tmp_path (en_name e) ≠ en_name e'.
Hypothesis Hthere : forall e, e ∈ entries -> is_Some (en_modified e) -> is_Some (mtime fs0 (en_name e)).

(** The times of the files are as they were. *)
Definition times_kept (fs : FileSystem) : Prop := forall e, e ∈ entries -> is_Some (mtime fs0 (en_name e)) -> mtime fs (en_name e) = mtime fs0 (en_name e).

(** A file of the entry that was written since. *)
Definition recent (fs : FileSystem) (p : str) : Prop := exists t, mtime fs p = Some t /\ (clock fs0 <= t)%Z.

Definition all_fresh (fs : FileSystem) (files : list (ConfigEntry * nat)) : Prop := Forall (fresh fs0) entries /\ forall e, e ∈ entries -> e ∈ map fst files \/ recent fs (en_name e).

Definition decided (fs : FileSystem) (w : Writer) : Prop :=
  (clock fs0 <= clock fs)%Z /\
  match w with
  | Opening _ _ | Locking _ _ _ _ => times_kept fs
  | Checking todo files => times_kept fs /\ exists checked, files = checked ++ todo /\ Forall (fresh fs0) (map fst checked)
  | Creating files => all_fresh fs files
  | Writing _ e id files => all_fresh fs ((e, id) :: files)
  | Flushing e id files | Syncing e id files | Renaming e id files => all_fresh fs ((e, id) :: files) /\ recent fs (tmp_path (en_name e))
  | Finished (Ok _) => all_fresh fs []
  | Finished (Err (Conflict (AtPath p))) => exists e, e ∈ entries /\ p = en_name e /\ ~ fresh fs0 e
  | Finished (Err _) => False
  end.

Lemma decided_time delay fs w : decided fs w -> decided (pass_time delay fs) w.
Proof. intros [Hc Hw]. split; [cbn; lia|]. exact Hw. Qed.

Lemma times_recent fs fs' files : (forall e, e ∈ entries -> mtime fs' (en_name e) = mtime fs (en_name e)) -> all_fresh fs files -> all_fresh fs' files.
Proof.
  intros Hm [Hf Hr]. split; [done|]. intros e He. destruct (Hr e He) as [?|(t & Ht & Hle)]; [by left|right]. exists t. by rewrite Hm.
Qed.

Lemma step_decided pid fs w fs' w' : standing fs0 entries fs w -> decided fs w -> writer_step pid None fs w = Some (fs', w') -> decided fs' w'.
Proof.
  intros Hs [Hck Hd] Es. destruct w as [[|e todo] files|e id todo files|[|[e id] todo] files|[|[e id] files]|tmp e id files|e id files|e id files|e id files|r]; cbn [writer_step] in Es;
    change (bool_decide (is_Some (@None nat))) with false in Es; cbv iota in Es.
  - injection Es as <- <-. split; [done|]. split; [done|]. by exists [].
  - destruct Hs as (Hp & _). destruct (open_create (en_name e) fs) as [fs1 id] eqn:Eo. injection Es as <- <-. pose proof (open_create_mtime (en_name e) fs) as Hm. rewrite Eo in Hm. cbn [fst] in Hm.
    split; [unfold open_create in Eo; destruct (dir fs !! en_name e); injection Eo as <- <-; done|]. intros e' He' Ht. rewrite Hm; [by apply Hd|apply Hp|]. by rewrite (Hd e' He' Ht).
  - destruct (locks fs !! id); [done|]. injection Es as <- <-. split; [done|]. exact Hd.
  - injection Es as <- <-. destruct Hs as (Hp & _ & _). split; [done|]. destruct Hd as [_ (checked & Ef & Hf)]. rewrite app_nil_r in Ef. subst checked. pose proof (pr_entries _ _ _ _ _ Hp) as E. cbn [app] in E.
    split; [by rewrite E|]. intros e He. left. by rewrite <- E.
  - destruct Hs as (Hp & Hb & _). pose proof (pr_entries _ _ _ _ _ Hp) as E. cbn [app] in E. destruct Hd as [Ht (checked & Ef & Hf)].
    assert ((e, id) ∈ files) as Hin by (rewrite Ef; apply elem_of_app; right; left). assert (e ∈ entries) as He by (rewrite E; by apply (list_elem_of_fmap_2 fst files (e, id))).
    rewrite Forall_forall in Hb. specialize (Hb _ Hin). unfold bound in Hb. cbn [fst snd] in Hb.
    assert (check_modified e id false fs = true <-> fresh fs0 e) as Hcheck.
    { unfold check_modified, fresh. destruct (lookup_lt_is_Some_2 (inodes fs) id) as [i Hi]; [by eapply fk_bound; [apply Hp|]|]. rewrite Hi. destruct (en_modified e) as [m|] eqn:Em; [|done]. cbn [orb].
      rewrite <- (Ht e He (Hthere e He ltac:(rewrite Em; by eexists))), (mtime_inode _ _ _ _ Hb Hi). by rewrite Z.leb_le. }
    destruct (check_modified e id false fs) eqn:Ec; injection Es as <- <-.
    + split; [done|]. split; [done|]. exists (checked ++ [(e, id)]). rewrite <- app_assoc. split; [done|]. rewrite map_app. apply Forall_app. split; [done|]. constructor; [by apply Hcheck|constructor].
    + destruct (unlock_all_spec files fs) as (U1 & U2 & _). split.
      { clear -Hck. assert (forall fs (files : list (ConfigEntry * nat)), clock (foldr (fun x fs => unlock x.2 fs) fs files) = clock fs) as -> by (intros f l; by induction l). done. }
      exists e. split; [done|]. split; [done|]. intros Hfr. apply Hcheck in Hfr. done.
  - injection Es as <- <-. split; [done|]. exact Hd.
  - destruct Hs as ((done & Hp) & _). assert (e ∈ entries) as He by (rewrite (pr_entries _ _ _ _ _ Hp); apply elem_of_app; right; left).
    pose proof (file_create_mtime (tmp_path (en_name e)) fs) as Hm. destruct (file_create (tmp_path (en_name e)) fs) as [fs1 tmp] eqn:Ef. cbn [fst] in Hm. injection Es as <- <-.
    split; [unfold file_create in Ef; destruct (dir fs !! tmp_path (en_name e)); injection Ef as <- <-; done|]. eapply times_recent; [|exact Hd]. intros e' He'. apply Hm; [apply Hp|by apply not_eq_sym, Htmp].
  - destruct Hs as ((done & Hp) & _ & _ & Ht & _). assert (e ∈ entries) as He by (rewrite (pr_entries _ _ _ _ _ Hp); apply elem_of_app; right; left). injection Es as <- <-.
    pose proof (fun q => write_at_mtime (tmp_path (en_name e)) tmp (en_text e) fs q (pr_ok _ _ _ _ _ Hp) Ht) as Hm.
    assert (clock (write_at tmp (en_text e) fs) = clock fs) as Ek by (unfold write_at; by destruct (inodes fs !! tmp)). split; [by rewrite Ek|]. split.
    + eapply times_recent; [|exact Hd]. intros e' He'. rewrite Hm, decide_False by by apply not_eq_sym, Htmp. done.
    + exists (clock fs). by rewrite Hm, decide_True.
  - injection Es as <- <-. split; [done|]. exact Hd.
  - injection Es as <- <-. split; [done|]. exact Hd.
  - destruct Hs as ((done & Hp) & _ & _ & Hc). assert (e ∈ entries) as He by (rewrite (pr_entries _ _ _ _ _ Hp); apply elem_of_app; right; left). destruct Hd as [[Hf Hr] (t & Ht & Hle)].
    destruct (rename_spec (tmp_path (en_name e)) (en_name e) fs (en_text e) (pr_ok _ _ _ _ _ Hp) (Htmp e e He He) Hc) as (fs1 & Er & _). rewrite Er in Es. injection Es as <- <-.
    pose proof (fun q => rename_mtime _ _ _ _ q Er) as Hm. split; [unfold rename_file in Er; destruct (dir fs !! tmp_path (en_name e)); [|done]; injection Er as <-; done|].
    split; [done|]. intros e' He'. unfold recent. change (mtime (unlock id fs1)) with (mtime fs1). setoid_rewrite Hm. destruct (decide (en_name e' = en_name e)) as [En|Hne]; [right; by exists t|].
    rewrite decide_False by by apply not_eq_sym, Htmp. destruct (Hr e' He') as [[->|?]%elem_of_cons|?]; [done|by left|by right].
  - done.
Qed.
End exact.

(** C11: writing configuration files, whatever fails.  A process that writes alone ends within eight calls per file and three more, with all its locks
    released; the files are written in order, each one completely or not at all: those up to some point have the new text, the others the text they had, or are empty when
    there were none; no other file but the temporary ones changes.  After success all files are new; after a conflict none is. *)
Theorem uci_write_all_safe (fs : FileSystem) (entries : list ConfigEntry) (evs : list (nat * option nat)) :
  fs_ok fs -> locks fs = ∅ -> NoDup (map en_name entries) -> (forall e e', e ∈ entries -> e' ∈ entries -> tmp_path (en_name e) ≠ en_name e') -> 3 + 8 * length entries <= length evs ->
  exists fs' r done rest, run (alone evs) (mkWorld fs [write_all entries]) = mkWorld fs' [Finished r] /\ locks fs' = ∅ /\ entries = done ++ rest /\
    Forall (renewed fs') done /\ Forall (kept fs fs') rest /\ others_kept fs entries fs' /\
    match r with Ok _ => rest = [] | Err (Conflict _) => done = [] | Err _ => True end.
Proof.
  intros Hf Hl Hd Ht Hn. destruct (run_alone fs entries evs fs (write_all entries) Hd Ht) as (fs' & r & Er & Hlk & done & rest & [H1 H2 H3 H4 H5] & Hr).
  - cbn. split; [|split; [constructor|intros j; rewrite Hl, lookup_empty; by intros []]]. split; [done|done|constructor| |done]. apply Forall_forall. by left.
  - cbn. lia.
  - by exists fs', r, done, rest.
Qed.

(** Writing when nothing fails.  If a file was modified after its entry was read, the result is a conflict at such a file, and no file was written ([kept]); otherwise it is
    success, all files have their new texts, and their times are not before the start. *)
Lemma write_all_exact (fs : FileSystem) (entries : list ConfigEntry) (delays : list nat) :
  fs_ok fs -> locks fs = ∅ -> NoDup (map en_name entries) -> (forall e e', e ∈ entries -> e' ∈ entries -> tmp_path (en_name e) ≠ en_name e') ->
  (forall e, e ∈ entries -> is_Some (en_modified e) -> is_Some (mtime fs (en_name e))) -> 3 + 8 * length entries <= length delays ->
  exists fs' r, run (alone (map (fun d => (d, None)) delays)) (mkWorld fs [write_all entries]) = mkWorld fs' [Finished r] /\
    ((r = Ok tt /\ Forall (fresh fs) entries /\ Forall (renewed fs') entries /\ Forall (fun e => exists t, mtime fs' (en_name e) = Some t /\ (clock fs <= t)%Z) entries) \/
     (exists e, e ∈ entries /\ ~ fresh fs e /\ r = Err (Conflict (AtPath (en_name e))) /\ Forall (kept fs fs') entries)).
Proof.
  intros Hf Hl Hd Ht Hm Hn.
  assert (forall delays f w, standing fs entries f w -> decided fs entries f w -> left_to_do w <= length delays -> exists fs' r,
    run (alone (map (fun d => (d, None)) delays)) (mkWorld f [w]) = mkWorld fs' [Finished r] /\ standing fs entries fs' (Finished r) /\ decided fs entries fs' (Finished r)) as Hrun.
  { clear Hn delays. intros delays. induction delays as [|d delays IH]; intros f w Hs Hdec Hle; cbn [length] in Hle.
    - destruct w; cbn in Hle; try lia. by exists f, r.
    - cbn [map alone]. rewrite run_cons. unfold world_step. cbn [w_writers w_fs ev_pid ev_delay ev_fails lookup list_lookup fst snd].
      pose proof (standing_time fs entries d f w Hs) as Hs'. pose proof (decided_time fs entries d f w Hdec) as Hdec'. destruct (decide (left_to_do w = 0)) as [E|E].
      + destruct w; cbn in E; try lia. cbn [writer_step]. apply IH; [done|done|cbn; lia].
      + destruct (step_standing fs entries Hd Ht 0 None _ w Hs' ltac:(lia)) as (f' & w' & Es & Hn & Hlt). pose proof (step_decided fs entries Ht Hm 0 _ w f' w' Hs' Hdec' Es) as Hdn. rewrite Es.
        cbn [insert list_insert]. apply IH; [done|done|lia]. }
  destruct (Hrun delays fs (write_all entries)) as (fs' & r & Er & (_ & done & rest & [H1 H2 H3 H4 H5] & Hr) & _ & Hdec).
  - cbn. split; [|split; [constructor|intros j; rewrite Hl, lookup_empty; by intros []]]. split; [done|done|constructor| |done]. apply Forall_forall. by left.
  - split; [done|]. intros e _. done.
  - cbn. lia.
  - exists fs', r. split; [done|]. destruct r as [[]|[src|src|[| |p q|p]|src|src|src|src|src s|src|src s1 s2|src|src s|src s]]; try done.
    + left. subst rest. rewrite app_nil_r in H2. subst done. destruct Hdec as [Hfr Hrec]. split; [done|]. split; [done|]. split; [done|]. apply Forall_forall. intros e He. destruct (Hrec e He) as [?%elem_of_nil|?]; done.
    + right. subst done. destruct Hdec as (e & He & -> & Hne). exists e. cbn [app] in H2. by subst rest.
Qed.

(** ** Two processes *)

(** Turns of one process, without failures, after the delays. *)
Definition turns (pid : nat) (delays : list nat) : list Event := map (fun d => mkEvent pid d None) delays.

(** What they do to the file system and to the process. *)
Definition solo_step (pid d : nat) (x : FileSystem * Writer) : FileSystem * Writer :=
  match writer_step pid None (pass_time d x.1) x.2 with Some y => y | None => (pass_time d x.1, x.2) end.
Definition solo (pid : nat) (delays : list nat) (x : FileSystem * Writer) : FileSystem * Writer := fold_left (fun x d => solo_step pid d x) delays x.

Lemma run_turns pid delays fs ws w : ws !! pid = Some w ->
  run (turns pid delays) (mkWorld fs ws) = mkWorld (solo pid delays (fs, w)).1 (<[pid := (solo pid delays (fs, w)).2]> ws).
Proof.
  revert fs ws w. induction delays as [|d delays IH]; intros fs ws w Hw.
  - cbn. by rewrite list_insert_id.
  - cbn [turns map]. rewrite run_cons. unfold world_step. cbn [w_writers w_fs ev_pid ev_delay ev_fails]. rewrite Hw. cbn [solo fold_left]. fold (solo pid delays). unfold solo_step. cbn [fst snd].
    destruct (writer_step pid None (pass_time d fs) w) as [[f' w']|]; [|by apply IH]. rewrite (IH f' _ w'); [by rewrite list_insert_insert_eq|].
    apply list_lookup_insert_eq. by eapply lookup_lt_Some.
Qed.

Section one_file.
Context (p : str) (start m t0 : Z) (text : str) (q id pid : nat).
Hypothesis Hp : tmp_path p ≠ p.
Hypothesis Hm : (t0 <= m)%Z.
Let e : ConfigEntry := mkEntry p (Some m) text.

(** The file that is open was not modified. *)
Definition unmodified (f : FileSystem) : Prop := exists j, inodes f !! id = Some j /\ i_mtime j = t0.

(** The new file is complete, at [path]. *)
Definition complete (f : FileSystem) (path : str) : Prop := content f path = Some text /\ exists t, mtime f path = Some t /\ (start <= t)%Z.

(** Where the process stands after [k] calls. *)
Definition shape (k : nat) (f : FileSystem) (w : Writer) : Prop :=
  match k with
  | 0 => w = Opening [e] [] /\ locks f = ∅ /\ q = id
  | 1 => w = Locking e id [] [] /\ locks f = ∅
  | 2 => w = Opening [] [(e, id)] /\ locks f = {[ id := pid ]}
  | 3 => w = Checking [(e, id)] [(e, id)] /\ locks f = {[ id := pid ]}
  | 4 => w = Checking [] [(e, id)] /\ locks f = {[ id := pid ]}
  | 5 => w = Creating [(e, id)] /\ locks f = {[ id := pid ]}
  | 6 => (exists tmp, w = Writing tmp e id [] /\ dir f !! tmp_path p = Some tmp /\ content f (tmp_path p) = Some []) /\ locks f = {[ id := pid ]}
  | 7 => w = Flushing e id [] /\ complete f (tmp_path p) /\ locks f = {[ id := pid ]}
  | 8 => w = Syncing e id [] /\ complete f (tmp_path p) /\ locks f = {[ id := pid ]}
  | 9 => w = Renaming e id [] /\ complete f (tmp_path p) /\ locks f = {[ id := pid ]}
  | 10 => w = Creating [] /\ complete f p /\ locks f = ∅
  | _ => w = Finished (Ok tt) /\ complete f p /\ locks f = ∅
  end.

(** The path leads to [q] until it is replaced; a file that is opened at the path keeps its time. *)
Record stage (k : nat) (f : FileSystem) (w : Writer) : Prop := {
  sg_ok : fs_ok f;
  sg_clock : (start <= clock f)%Z;
  sg_dir : k < 10 -> dir f !! p = Some q;
  sg_old : k <= 3 \/ q = id -> unmodified f;
  sg_shape : shape k f w;
}.

Lemma stage_time d k f w : stage k f w -> stage k (pass_time d f) w.
Proof. intros [[A B] H2 H3 H4 H5]. split; [by split|cbn; lia|done|done|exact H5]. Qed.

Lemma unmodified_at f f' : fs_ok f -> dir f !! p = Some q -> q = id -> unmodified f -> mtime f' p = mtime f p -> dir f' !! p = dir f !! p -> unmodified f'.
Proof.
  intros Hf Hd -> (j & Hj & <-) Ht Ed. rewrite (mtime_inode f p id j Hd Hj) in Ht. unfold mtime in Ht. rewrite Ed, Hd in Ht. cbn [mbind option_bind] in Ht.
  destruct (inodes f' !! id) as [j'|] eqn:Ej; [|done]. exists j'. split; [done|]. cbn in Ht. by injection Ht as ->.
Qed.

Lemma stage_step k f w : stage k f w -> k < 11 -> exists f' w', writer_step pid None f w = Some (f', w') /\ stage (1 + k) f' w'.
Proof.
  intros [H1 H2 H3 H4 H5] Hk. destruct k as [|[|[|[|[|[|[|[|[|[|[|k]]]]]]]]]]]; [..|lia]; clear Hk; cbn [shape] in H5; cbn [Nat.add].
  - destruct H5 as (-> & Hl & Hq). specialize (H3 ltac:(lia)). exists f, (Locking e id [] []). split; [cbn [writer_step]; unfold open_create; cbn [en_name e]; rewrite H3, Hq; reflexivity|]. split; [done|done|done|intros _; apply H4; by right|done].
  - destruct H5 as (-> & Hl). eexists _, _. split; [cbn [writer_step]; rewrite Hl, lookup_empty; reflexivity|]. split; [by destruct H1|exact H2|intros _; apply H3; lia|intros _; apply H4; left; lia|]. split; [done|]. cbn [lock locks]. by rewrite Hl.
  - destruct H5 as (-> & Hl). eexists _, _. split; [reflexivity|]. split; [exact H1|exact H2|intros _; apply H3; lia|intros _; apply H4; left; lia|done].
  - destruct H5 as (-> & Hl). destruct (H4 ltac:(left; lia)) as (j & Hj & Ej). eexists _, _. split; [cbn [writer_step]; unfold check_modified; cbn [en_modified e]; rewrite Hj, Ej; cbn; rewrite (proj2 (Z.leb_le _ _) Hm); reflexivity|].
    split; [exact H1|exact H2|intros _; apply H3; lia|intros _; by exists j|done].
  - destruct H5 as (-> & Hl). eexists _, _. split; [reflexivity|]. split; [exact H1|exact H2|intros _; apply H3; lia|intros [?|?]; [lia|apply H4; by right]|done].
  - destruct H5 as (-> & Hl). destruct (file_create_spec (tmp_path p) f H1) as (F1 & F2 & F3 & F4 & F5). pose proof (file_create_mtime (tmp_path p) f p H1 (not_eq_sym Hp)) as Ft.
    assert (clock (file_create (tmp_path p) f).1 = clock f) as Fc by (unfold file_create; by destruct (dir f !! tmp_path p)).
    exists (file_create (tmp_path p) f).1, (Writing (file_create (tmp_path p) f).2 e id []). split; [cbn [writer_step en_name e]; change (bool_decide (is_Some (@None nat))) with false; cbv iota; by destruct (file_create (tmp_path p) f)|]. destruct (F4 p (not_eq_sym Hp)) as [Fd _].
    split; [done|by rewrite Fc|rewrite Fd; intros _; apply H3; lia|intros [?|?]; [lia|]; eapply (unmodified_at f); [done|apply H3; lia|done|apply H4; by right|done|done]|].
    split; [by eexists|by rewrite F5].
  - destruct H5 as ((tmp & -> & Hd & Hc) & Hl). destruct (write_at_spec (tmp_path p) tmp text f H1 Hd) as (W1 & W2 & W3 & W4). pose proof (fun r => write_at_mtime (tmp_path p) tmp text f r H1 Hd) as Wt.
    assert (clock (write_at tmp text f) = clock f) as Wc by (unfold write_at; by destruct (inodes f !! tmp)). destruct (W2 p (not_eq_sym Hp)) as [Wd _].
    eexists _, _. split; [reflexivity|]. cbn [en_text e]. split; [done|by rewrite Wc|rewrite Wd; intros _; apply H3; lia| |].
    + intros [?|?]; [lia|]. eapply (unmodified_at f); [done|apply H3; lia|done|apply H4; by right| |done]. by rewrite Wt, decide_False by by apply not_eq_sym.
    + split; [done|]. split; [|by rewrite W3]. split; [by apply W4|]. exists (clock f). by rewrite Wt, decide_True.
  - destruct H5 as (-> & Hc & Hl). eexists _, _. split; [reflexivity|]. split; [exact H1|exact H2|intros _; apply H3; lia|intros [?|?]; [lia|apply H4; by right]|done].
  - destruct H5 as (-> & Hc & Hl). eexists _, _. split; [reflexivity|]. split; [exact H1|exact H2|intros _; apply H3; lia|intros [?|?]; [lia|apply H4; by right]|done].
  - destruct H5 as (-> & [Hc (t & Ht & Hle)] & Hl). destruct (rename_spec (tmp_path p) p f text H1 Hp Hc) as (f' & Er & R1 & R2 & R3 & R4). pose proof (rename_mtime _ _ _ _ p Er) as Rt. rewrite decide_True in Rt by done.
    assert (clock f' = clock f /\ inodes f' = inodes f) as [Rc Ri] by (unfold rename_file in Er; destruct (dir f !! tmp_path p); [|done]; by injection Er as <-).
    eexists _, _. split; [cbn [writer_step]; cbn [en_name e]; change (bool_decide (is_Some (@None nat))) with false; cbv iota; rewrite Er; reflexivity|].
    split; [by destruct R1|by cbn; rewrite Rc|lia|intros [?|?]; [lia|]; unfold unmodified; cbn [unlock inodes]; rewrite Ri; apply H4; by right|].
    split; [done|]. split; [split; [exact R2|]; exists t; split; [|done]; by rewrite <- Ht, <- Rt|]. cbn [unlock locks]. rewrite R3, Hl. apply delete_singleton_eq.
  - destruct H5 as (-> & Hc & Hl). eexists _, _. split; [reflexivity|]. split; [done|done|lia|intros [?|?]; [lia|apply H4; by right]|done].
Qed.

Lemma stage_run delays k f w : k <= 11 -> stage k f w -> stage (min 11 (k + length delays)) (solo pid delays (f, w)).1 (solo pid delays (f, w)).2.
Proof.
  revert k f w. induction delays as [|d delays IH]; intros k f w Hk Hs; cbn [length].
  - replace (min 11 (k + 0)) with k by lia. done.
  - apply (stage_time d) in Hs. cbn [solo fold_left]. fold (solo pid delays). unfold solo_step. cbn [fst snd]. destruct (decide (k = 11)) as [->|Hne].
    + destruct (sg_shape _ _ _ Hs) as [-> _]. cbn [writer_step]. apply (IH 11); done.
    + destruct (stage_step k _ w Hs ltac:(lia)) as (f' & w' & -> & Hs'). replace (k + S (length delays)) with (1 + k + length delays) by lia. apply IH; [lia|done].
Qed.
End one_file.

(** A process that finds the file modified. *)
Lemma solo_conflict p m text id j pid delays f : dir f !! p = Some id -> inodes f !! id = Some j -> locks f = ∅ -> (m < i_mtime j)%Z -> 4 <= length delays ->
  (solo pid delays (f, write_all [mkEntry p (Some m) text])).2 = Finished (Err (Conflict (AtPath p))) /\
  content (solo pid delays (f, write_all [mkEntry p (Some m) text])).1 p = content f p.
Proof.
  intros Hd Hj Hl Hm Hn. destruct delays as [|d1 [|d2 [|d3 [|d4 delays]]]]; cbn [length] in Hn; [lia..|].
  assert (forall x, solo pid (d1 :: d2 :: d3 :: d4 :: delays) x = solo pid delays (solo_step pid d4 (solo_step pid d3 (solo_step pid d2 (solo_step pid d1 x))))) as -> by done.
  assert (solo_step pid d2 (solo_step pid d1 (f, write_all [mkEntry p (Some m) text])) =
    (lock pid id (pass_time d2 (pass_time d1 f)), Opening [] [(mkEntry p (Some m) text, id)])) as ->.
  { unfold solo_step, write_all. cbn [fst snd writer_step en_name]. unfold open_create. cbn [dir pass_time]. rewrite Hd. cbn. by rewrite Hl, lookup_empty. }
  assert (forall x, solo_step pid d4 (solo_step pid d3 (x, Opening [] [(mkEntry p (Some m) text, id)])) = solo_step pid d4 (pass_time d3 x, Checking [(mkEntry p (Some m) text, id)] [(mkEntry p (Some m) text, id)])) as -> by done.
  set (f2 := pass_time d4 (pass_time d3 (lock pid id (pass_time d2 (pass_time d1 f))))). set (e := mkEntry p (Some m) text).
  assert (check_modified e id false f2 = false) as Hc by (unfold check_modified; cbn [en_modified e]; change (inodes f2) with (inodes f); rewrite Hj; by apply Z.leb_gt).
  assert (solo_step pid d4 (pass_time d3 (lock pid id (pass_time d2 (pass_time d1 f))), Checking [(e, id)] [(e, id)]) = abort (Conflict (AtPath p)) [(e, id)] f2) as ->
    by (unfold solo_step; cbn [fst snd writer_step]; change (bool_decide (is_Some (@None nat))) with false; fold f2; by rewrite Hc).
  unfold abort.
  assert (forall delays f' r, solo pid delays (f', Finished r) = (foldl (fun f d => pass_time d f) f' delays, Finished r)) as Hfin by (induction delays0 as [|d ds IH]; intros f' r; [done|]; apply IH).
  rewrite Hfin. cbn [fst snd]. split; [done|].
  assert (forall delays f', content (foldl (fun f d => pass_time d f) f' delays) p = content f' p) as -> by (induction delays0 as [|d ds IH]; intros f'; [done|]; cbn [foldl]; by rewrite IH). done.
Qed.

(** C12: the lock does not protect a file that is replaced.  Two processes have read the same file, which was not modified after the times they expect, and write
    it; no call fails and any time passes before each call.  If the second starts after the first has ended, and the time it expects is before the first has started, it is told of the
    conflict and the file has the text of the first.  But the lock and the time of modification are those of the file that was opened: when the second opens it at any point
    before the first replaces it and goes on after the first has ended, both succeed, and what the first has written is lost. *)
Theorem uci_lost_update (fs : FileSystem) (p a b : str) (id : nat) (i : Inode) (ma mb : Z) :
  fs_ok fs -> locks fs = ∅ -> dir fs !! p = Some id -> inodes fs !! id = Some i -> (i_mtime i <= ma)%Z -> (i_mtime i <= mb)%Z -> tmp_path p ≠ p ->
  let writers := [write_all [mkEntry p (Some ma) a]; write_all [mkEntry p (Some mb) b]] in
  (forall first second, 11 <= length first -> 4 <= length second -> (mb < clock fs)%Z ->
     let w := run (turns 0 first ++ turns 1 second) (mkWorld fs writers) in
     w_writers w = [Finished (Ok tt); Finished (Err (Conflict (AtPath p)))] /\ content (w_fs w) p = Some a) /\
  (forall first opening first' second, length first <= 9 -> 11 <= length first + length first' -> 10 <= length second ->
     let w := run (turns 0 first ++ turns 1 [opening] ++ turns 0 first' ++ turns 1 second) (mkWorld fs writers) in
     w_writers w = [Finished (Ok tt); Finished (Ok tt)] /\ content (w_fs w) p = Some b).
Proof.
  intros Hf Hl Hd Hi Ha Hb Hp writers.
  assert (stage p (clock fs) ma (i_mtime i) a id id 0 0 fs (write_all [mkEntry p (Some ma) a])) as H0 by (split; [done|lia|done|intros _; by exists i|done]).
  assert (forall evs evs' w, run (evs ++ evs') w = run evs' (run evs w)) as Happ by (intros; apply fold_left_app).
  split.
  - intros first second H1 H2 Hm. cbv zeta. rewrite Happ, (run_turns 0 first fs writers (write_all [mkEntry p (Some ma) a])) by done.
    pose proof (stage_run p (clock fs) ma (i_mtime i) a id id 0 Hp Ha first 0 _ _ ltac:(lia) H0) as Hs. rewrite Nat.min_l in Hs by lia. destruct (solo 0 first (fs, _)) as [f w]. cbn [fst snd] in *.
    destruct (sg_shape _ _ _ _ _ _ _ _ _ _ _ Hs) as (-> & [Hc (t & Ht & Hle)] & Hlk). cbn [insert list_insert].
    destruct (content_dir _ _ _ Hc) as [id' Hd']. unfold mtime in Ht. rewrite Hd' in Ht. cbn [mbind option_bind] in Ht. destruct (inodes f !! id') as [j|] eqn:Ej; [|done]. injection Ht as <-.
    rewrite (run_turns 1 second f _ (write_all [mkEntry p (Some mb) b])) by done. destruct (solo_conflict p mb b id' j 1 second f Hd' Ej Hlk ltac:(lia) H2) as [-> Hcc]. cbn. split; [done|]. by rewrite Hcc.
  - intros first opening first' second H1 H2 H3. cbv zeta. rewrite !Happ, (run_turns 0 first fs writers (write_all [mkEntry p (Some ma) a])) by done.
    pose proof (stage_run p (clock fs) ma (i_mtime i) a id id 0 Hp Ha first 0 _ _ ltac:(lia) H0) as Hs. rewrite Nat.min_r in Hs by lia. destruct (solo 0 first (fs, _)) as [f w]. cbn [fst snd Nat.add] in *. cbn [insert list_insert].
    pose proof (sg_dir _ _ _ _ _ _ _ _ _ _ _ Hs ltac:(lia)) as Hd1.
    rewrite (run_turns 1 [opening] f _ (write_all [mkEntry p (Some mb) b])) by done.
    assert (solo 1 [opening] (f, write_all [mkEntry p (Some mb) b]) = (pass_time opening f, Locking (mkEntry p (Some mb) b) id [] [])) as ->
      by (cbn; unfold open_create; cbn; by rewrite Hd1).
    cbn [fst snd insert list_insert]. apply (stage_time _ _ _ _ _ _ _ _ opening) in Hs.
    rewrite (run_turns 0 first' _ _ w) by done. pose proof (stage_run p (clock fs) ma (i_mtime i) a id id 0 Hp Ha first' (length first) _ _ ltac:(lia) Hs) as Hs'. rewrite Nat.min_l in Hs' by lia.
    destruct (solo 0 first' _) as [f' w']. cbn [fst snd] in *. destruct Hs' as [S1 S2 _ S4 (-> & [Hc _] & Hlk)]. cbn [insert list_insert].
    rewrite (run_turns 1 second f' _ (Locking (mkEntry p (Some mb) b) id [] [])) by done. destruct (content_dir _ _ _ Hc) as [id' Hd'].
    assert (stage p (clock fs) mb (i_mtime i) b id' id 1 1 f' (Locking (mkEntry p (Some mb) b) id [] [])) as H4
      by (split; [done|done|done|intros _; apply S4; by right|done]).
    pose proof (stage_run p (clock fs) mb (i_mtime i) b id' id 1 Hp Hb second 1 _ _ ltac:(lia) H4) as Hs2. rewrite Nat.min_l in Hs2 by lia. destruct (solo 1 second _) as [f2 w2]. cbn [fst snd] in *.
    destruct (sg_shape _ _ _ _ _ _ _ _ _ _ _ Hs2) as (-> & [Hc2 _] & _). done.
Qed.

(** A file system with one file. *)
Definition network_name : str := $"network".
Definition shared (t0 : str) : FileSystem := mkFs [mkInode t0 0] {[ network_name := 0 ]} ∅ 10.

(** ** Reading *)

(** What is returned was found in one round; in an earlier one than the last nothing was newer than its beginning. *)
Lemma read_all_round names time find entries : read_all names time find = Ok entries ->
  exists round, round < MAX_RETRIES /\ read_entries names (find round) = Ok entries /\ (round < MAX_RETRIES - 1 -> existsb (newer_than (time round)) entries = false).
Proof.
  assert (forall rounds es, 0 < rounds <= MAX_RETRIES -> read_rounds rounds names time find es = Ok entries ->
    exists round, round < MAX_RETRIES /\ read_entries names (find round) = Ok entries /\ (round < MAX_RETRIES - 1 -> existsb (newer_than (time round)) entries = false)) as Hgen; [|apply Hgen; unfold MAX_RETRIES; lia].
  induction rounds as [|k IH]; intros es Hk; [lia|]. cbn [read_rounds]. set (round := MAX_RETRIES - S k). destruct (read_entries names (find round)) as [es'|] eqn:E; [|done]. cbn [result_bind].
  destruct (existsb (newer_than (time round)) es') eqn:En.
  - destruct k as [|k]; [|apply IH; lia]. cbn [read_rounds]. intros [= <-]. exists round. unfold round in *. split; [unfold MAX_RETRIES in *; lia|]. split; [done|]. unfold MAX_RETRIES in *. lia.
  - intros [= <-]. exists round. split; [unfold round, MAX_RETRIES in *; lia|]. done.
Qed.
