(* ===== verification/UciSave.v ===== *)
(** * Configuration files are loaded as they were saved

    [parse_all], [dump_all] and what is in the files between them: the composition of the theorems on texts and on files. *)
From Stdlib Require Import Sorted.
From stdpp Require Import gmap.
From S2P Require Import Prelude RustStr BTree UciSyntax UciPrint UciFiles.

Local Open Scope rust_scope.

(** What the calls for a file find when nothing fails. *)
Definition find_in (fs : FileSystem) (name : str) : Found :=
  match dir fs !! name with
  | None => Absent
  | Some id => match inodes fs !! id with Some i => Present (Some (i_mtime i)) (Some (i_text i)) | None => Failed end
  end.

Section Save.
Context `{U : Unicode} `{I : Inpt} `{!InptOk U I}.

(** The text and the time of every entry are in its file. *)
Definition in_file (fs : FileSystem) (e e' : ConfigEntry) : Prop := en_name e' = en_name e /\ en_text e' = en_text e /\ en_modified e' = mtime fs (en_name e).

Lemma read_written_entries fs entries : Forall (renewed fs) entries -> exists es, read_entries (map en_name entries) (find_in fs) = Ok es /\ Forall2 (in_file fs) entries es.
Proof.
  induction 1 as [|e entries He _ (es & IH & HF)]; cbn [map read_entries]; [by exists []|]. unfold renewed, content in He. unfold find_in at 1.
  destruct (dir fs !! en_name e) as [id|] eqn:Ed; [|done]. cbn [mbind option_bind] in He. destruct (inodes fs !! id) as [i|] eqn:Ei; [|done]. injection He as Et.
  rewrite IH. cbn [result_bind]. eexists. split; [done|]. constructor; [|done]. split; [done|]. split; [done|]. cbn [en_modified]. by rewrite (mtime_inode _ _ _ _ Ed Ei).
Qed.

(** Files that do not change are read in any round. *)
Lemma read_all_steady names time find : read_all names time (fun _ => find) = read_entries names find.
Proof. unfold read_all, MAX_RETRIES. cbn [read_rounds]. destruct (read_entries names find) as [es|]; [|done]. cbn [result_bind]. by repeat case_match. Qed.

Lemma insert_last {V} k (v : V) m : Forall (fun x => keys_lt str_cmp x.1 k) m -> BTreeMap_insert str_cmp k v m = m ++ [(k, v)].
Proof.
  induction 1 as [|[x w] m Hx _ IH]; [done|]. cbn [BTreeMap_insert app fst] in *. unfold keys_lt in Hx. rewrite (proj2 (cmp_gt_lt str_cmp k x) Hx). by rewrite IH.
Qed.

(** A file and what is loaded from it. *)
Definition saved (fs : FileSystem) (x y : str * Config) : Prop := y.1 = x.1 /\ modified y.2 = mtime fs x.1 /\ Forall2 same_section (sections x.2) (sections y.2) /\ dump_str y.2 = dump_str x.2.

Lemma parse_frozen fs configs es acc : Forall (fun x => config_ok x.2) configs -> StronglySorted (keys_lt str_cmp) (map fst configs) ->
  Forall (fun x => Forall (keys_lt str_cmp x.1) (map fst configs)) acc -> Forall2 (in_file fs) (freeze configs) es ->
  exists configs', ConfigBytes_parse es acc = Done (Ok (acc ++ configs')) /\ Forall2 (saved fs) configs configs'.
Proof.
  intros Hok. revert es acc. induction Hok as [|[name c] configs Hc _ IH]; intros es acc Hs Hacc HF; cbn [freeze map] in HF.
  - apply Forall2_nil_inv_l in HF as ->. exists []. by rewrite app_nil_r.
  - apply Forall2_cons_inv_l in HF as (e & es' & (En & Et & Em) & HF & ->). cbn [fst snd en_name en_text] in *. cbn [ConfigBytes_parse]. destruct (dump_same c Hc) as (c' & Ep & Hsame & Ed).
    rewrite Et, Ep, En. cbn [outcome_bind]. cbn [map fst] in Hs, Hacc. apply StronglySorted_inv in Hs as [Hs' Hlt].
    rewrite insert_last by (eapply Forall_impl; [exact Hacc|]; by intros x [? _]%Forall_cons). set (y := mkConfig _ _ _).
    destruct (IH es' (acc ++ [(name, y)]) Hs') as (configs' & -> & HF'); [|done|].
    { apply Forall_app. split; [eapply Forall_impl; [exact Hacc|]; by intros x [_ ?]%Forall_cons|]. by constructor. }
    exists ((name, y) :: configs'). rewrite <- app_assoc. split; [done|]. by constructor.
Qed.
End Save.

(** C10: saving configuration files and loading them again, for one process that writes alone and none of whose calls fails, whatever time passes between the calls, and for files whose
    lines are canonical ([config_ok]), whose names are not those of temporary files of each other, and which are there if they had a time.  If none of the files was modified after it
    was loaded, saving succeeds, and what is loaded then has the same files with sections of the same types and names, which give every struct the same values, and a time that is not before
    the start of saving.  If one was, saving ends with a conflict at such a file, and every file has the text it had; a file that was not there may have been created empty ([kept]),
    because the files are opened before the times are compared. *)
Theorem uci_save_load `{U : Unicode} `{I : Inpt} `{!InptOk U I} (fs : FileSystem) (configs : Configs) (delays : list nat) :
  fs_ok fs -> locks fs = ∅ -> BTreeMap_wf str_cmp configs -> Forall (fun x => config_ok x.2) configs ->
  (forall p q, p ∈ map fst configs -> q ∈ map fst configs -> tmp_path p ≠ q) -> (forall x, x ∈ configs -> is_Some (modified x.2) -> is_Some (mtime fs x.1)) ->
  3 + 8 * length configs <= length delays ->
  exists fs' r, run (alone (map (fun d => (d, None)) delays)) (mkWorld fs [dump_all configs]) = mkWorld fs' [Finished r] /\
    ((r = Ok tt /\ Forall (fresh fs) (freeze configs) /\ forall time, exists configs', parse_all (map fst configs) time (fun _ => find_in fs') = Done (Ok configs') /\
        Forall2 (saved fs') configs configs' /\ Forall (fun x => exists t, mtime fs' x.1 = Some t /\ (clock fs <= t)%Z) configs) \/
     (exists e, e ∈ freeze configs /\ ~ fresh fs e /\ r = Err (Conflict (AtPath (en_name e))) /\ Forall (kept fs fs') (freeze configs))).
Proof.
  intros Hf Hl Hwf Hok Htmp Hm Hn. assert (map en_name (freeze configs) = map fst configs) as En by (unfold freeze; by rewrite map_map).
  assert (forall e, e ∈ freeze configs -> exists x, x ∈ configs /\ e = mkEntry x.1 (modified x.2) (dump_str x.2)) as Hin by (intros e (x & -> & ?)%list_elem_of_fmap; by exists x).
  destruct (write_all_exact fs (freeze configs) delays Hf Hl) as (fs' & r & Er & Hr).
  - rewrite En. by eapply (sorted_NoDup str_cmp).
  - intros e e' He He'. apply Htmp; rewrite <- En; by apply (list_elem_of_fmap_2 en_name).
  - intros e (x & Hx & ->)%Hin. by apply Hm.
  - unfold freeze. by rewrite length_map.
  - exists fs', r. split; [done|]. destruct Hr as [(-> & Hfr & Hnew & Ht)|?]; [left|by right]. split; [done|]. split; [done|]. intros time.
    destruct (read_written_entries fs' _ Hnew) as (es & Ees & HF). rewrite En in Ees. unfold parse_all. rewrite read_all_steady, Ees.
    destruct (parse_frozen fs' configs es [] Hok Hwf ltac:(constructor) HF) as (configs' & -> & HF'). exists configs'. split; [done|]. split; [done|].
    apply Forall_forall. intros x Hx. rewrite Forall_forall in Ht. apply (Ht (mkEntry x.1 (modified x.2) (dump_str x.2))). by apply (list_elem_of_fmap_2 (fun x => mkEntry x.1 (modified x.2) (dump_str x.2))).
Qed.
