(* ===== verification/UciExamples.v ===== *)
(** * A scanner and a configuration file

    An instance of [Inpt] that has the laws of [InptOk], and the witnesses of the theorems on configuration files. *)
From stdpp Require Import gmap.
From S2P Require Import Prelude RustStr BTree UciSyntax UciPrint UciEdit UciFiles UciSave.

Local Open Scope rust_scope.

(** ** A scanner *)

#[export] Instance toy_unicode : Unicode := {| wide_alphanumeric _ := false; wide_escaped _ := false |}.

Fixpoint take_word (s : str) : str * str :=
  match s with
  | [] => ([], [])
  | c :: r => if is_whitespace c then ([], s) else let '(w, rest) := take_word r in (c :: w, rest)
  end.

(** Up to the quote; a backslash takes the next character with it. *)
Fixpoint take_quoted (escaped : bool) (quote : N) (s : str) : option (str * str) :=
  match s with
  | [] => None
  | c :: r =>
      if negb escaped && (c =? quote)%N then Some ([], r)
      else '(q, rest) ← take_quoted (negb escaped && (c =? 92)%N) quote r; Some (c :: q, rest)
  end.

Fixpoint skip_spaces (s : str) : str :=
  match s with
  | c :: r => if (c =? 32)%N then skip_spaces r else s
  | [] => []
  end.

Definition toy_step (s : str) : option (Token * str) :=
  let s := skip_spaces s in
  let by_word := match take_word s with ([], _) => None | (w, rest) => Some (W w, rest) end in
  match s with
  | 34%N :: r => match take_quoted false 34 r with Some (q, rest) => Some (Q q, rest) | None => by_word end
  | 39%N :: r => match take_quoted false 39 r with Some (q, rest) => Some (Sq q, rest) | None => by_word end
  | _ => by_word
  end.

Definition toy_comment (s : str) : option LineComment :=
  match trim_start s with
  | [] => Some NoComment
  | 35%N :: t => Some (Commented t)
  | _ => None
  end.

Inductive unescaping : Type := Plain | Escaped | Hex (n : N).

Definition hex_value (c : N) : N := if (c <? 58)%N then (c - 48)%N else (c - 87)%N.

Definition simple_escape (c : N) : N := if (c =? 48)%N then 0%N else if (c =? 116)%N then 9%N else if (c =? 114)%N then 13%N else if (c =? 110)%N then 10%N else c.

Fixpoint toy_unescape (st : unescaping) (s : str) : str :=
  match s with
  | [] => []
  | c :: r =>
      match st with
      | Plain => if (c =? 92)%N then toy_unescape Escaped r else c :: toy_unescape Plain r
      | Escaped => if (c =? 117)%N then toy_unescape (Hex 0) r else simple_escape c :: toy_unescape Plain r
      | Hex n => if (c =? 123)%N then toy_unescape (Hex 0) r else if (c =? 125)%N then n :: toy_unescape Plain r else toy_unescape (Hex (16 * n + hex_value c)) r
      end
  end.

#[export] Instance toy_inpt : Inpt := {| inpt_step := toy_step; inpt_comment := toy_comment; unescape := toy_unescape Plain |}.

(** ASCII characters, one by one. *)
Lemma ascii_ind (P : N -> Prop) : Forall P (map N.of_nat (seq 0 128)) -> (forall c, (128 <= c)%N -> P c) -> forall c, P c.
Proof.
  intros HF Hw c. destruct (decide (c < 128)%N) as [Hc|Hc]; [|apply Hw; lia]. rewrite Forall_forall in HF. apply HF. apply list_elem_of_fmap. exists (N.to_nat c). split; [by rewrite N2Nat.id|].
  apply elem_of_seq. lia.
Qed.

Lemma escape_wide c : (128 <= c)%N -> escape_char c = [c].
Proof.
  intros Hc. unfold escape_char. assert (forall k, (k < 128)%N -> (c =? k)%N = false) as Hk by (intros k ?; apply N.eqb_neq; lia). rewrite !Hk by lia. by rewrite (proj2 (N.ltb_ge c 128) Hc).
Qed.

Lemma unescape_char c r : toy_unescape Plain (escape_char c ++ r) = c :: toy_unescape Plain r.
Proof.
  revert c. apply ascii_ind.
  - repeat constructor.
  - intros c Hc. rewrite escape_wide by done. cbn [app toy_unescape]. by rewrite (proj2 (N.eqb_neq c 92)) by lia.
Qed.

Lemma quoted_char c r : take_quoted false 34 (escape_char c ++ r) = '(q, rest) ← take_quoted false 34 r; Some (escape_char c ++ q, rest).
Proof.
  revert c. apply ascii_ind.
  - let l := eval vm_compute in (map N.of_nat (seq 0 128)) in change (map N.of_nat (seq 0 128)) with l.
    repeat (apply Forall_cons; split; [match goal with |- context [escape_char ?c] => let e := eval vm_compute in (escape_char c) in change (escape_char c) with e end; cbn; by destruct (take_quoted false 34 r) as [[q rest]|]|]).
    apply Forall_nil_2.
  - intros c Hc. rewrite escape_wide by done. cbn [app take_quoted negb andb]. rewrite (proj2 (N.eqb_neq c 34)), (proj2 (N.eqb_neq c 92)) by lia. done.
Qed.

Lemma take_word_app w rest : Forall (fun c => is_whitespace c = false) w -> token_ends rest -> take_word (w ++ rest) = (w, rest).
Proof.
  intros HF Hr. induction HF as [|c w Hc _ IH]; cbn [app take_word]; [|by rewrite Hc, IH]. destruct Hr as [->|(r & ->)]; done.
Qed.

#[export] Instance toy_inpt_ok : InptOk toy_unicode toy_inpt.
Proof.
  split; cbn [inpt_step inpt_comment unescape toy_inpt].
  - done.
  - done.
  - intros s rest _ Hr. unfold toy_step. cbn [app skip_spaces]. change ((34 =? 32)%N) with false. cbv iota.
    assert (take_quoted false 34 (escape_debug s ++ 34%N :: rest) = Some (escape_debug s, rest)) as ->; [|done].
    unfold escape_debug. induction s as [|c s IH]; [done|]. cbn [map concat]. rewrite <- app_assoc, quoted_char, IH. done.
  - intros s rest (H1 & H2 & _) Hr. unfold toy_step. cbn [app skip_spaces]. change ((39 =? 32)%N) with false. cbv iota.
    assert (take_quoted false 39 (s ++ 39%N :: rest) = Some (s, rest)) as ->; [|done].
    induction s as [|c s IH]; [done|]. apply not_elem_of_cons in H1 as [Hc1 H1], H2 as [Hc2 H2]. cbn [app take_quoted negb andb]. rewrite (proj2 (N.eqb_neq c 39)), (proj2 (N.eqb_neq c 92)) by done. by rewrite IH.
  - intros w rest (Hne & HF & Hq1 & Hq2) Hr. unfold toy_step. destruct w as [|c w]; [done|]. pose proof (take_word_app (c :: w) rest HF Hr) as Ew. apply Forall_cons in HF as [Hc HF].
    assert (skip_spaces ((c :: w) ++ rest) = (c :: w) ++ rest) as -> by (cbn [app skip_spaces]; destruct (c =? 32)%N eqn:E; [apply N.eqb_eq in E as ->; done|done]).
    rewrite Ew. cbn [app head] in *. destruct (decide (c = 34%N)) as [->|]; [done|]. destruct (decide (c = 39%N)) as [->|]; [done|]. by repeat case_match; simplify_eq.
  - done.
  - intros t Ht. done.
  - intros s _. unfold escape_debug. induction s as [|c s IH]; [done|]. cbn [map concat]. by rewrite unescape_char, IH.
  - intros s Hs. induction s as [|c s IH]; [done|]. apply not_elem_of_cons in Hs as [Hc Hs]. cbn [toy_unescape]. rewrite (proj2 (N.eqb_neq c 92)) by done. by rewrite IH.
Qed.

(** ** A file and a struct *)

Definition network : str :=
  $"# router" ++ [10%N; 10%N] ++ $"config interface 'lan' #main" ++ [10%N; 9%N] ++ $"# addresses" ++ [10%N; 9%N] ++ $"option proto static" ++ [10%N; 9%N] ++
  $"list dns '1.1.1.1'" ++ [10%N; 9%N] ++ $"list dns '8.8.8.8'" ++ [10%N; 10%N] ++ $"# the other" ++ [10%N] ++ $"config route" ++ [10%N; 9%N] ++ $"option target 10.0.0.0" ++ [10%N].

Definition parsed_network : Config := match parse_str network with Done (Ok c) => c | _ => Config_new end.

Definition text_mode : ParseMode str := FromStr Some (fun s => s).

(** [proto: String], [dns: Vec<String>], [auto: Option<bool>]. *)
Definition interface_fields : list (UciField str) := [mkField $"proto" None None Single text_mode; mkField $"dns" None None List_ text_mode; mkField $"auto" None None Optional Bool].

Definition new_interface : list (FieldValue str) := [VSingle (SOther $"it's dhcp"); VList [SOther $"9.9.9.9"]; VOptional (Some (SBool true))].

Definition expected_network : str :=
  $"# router" ++ [10%N; 10%N] ++ $"config interface 'lan' #main" ++ [10%N; 9%N] ++ $"# addresses" ++ [10%N; 9%N] ++ $"option proto " ++ [34%N] ++ $"it's dhcp" ++ [34%N] ++ [10%N; 9%N] ++
  $"list dns '9.9.9.9'" ++ [10%N; 9%N] ++ $"option auto '1'" ++ [10%N; 10%N] ++ $"# the other" ++ [10%N] ++ $"config route" ++ [10%N; 9%N] ++ $"option target 10.0.0.0" ++ [10%N].

Example network_edited : match sections parsed_network with
  | s :: rest => dump_str (mkConfig (prefix parsed_network) ((TypedSection_write $"interface" interface_fields new_interface s).1 :: rest) None) = expected_network
  | [] => False
  end.
Proof. vm_compute. reflexivity. Qed.

(** ** Witnesses *)

Definition quotable_b (s : str) : bool := forallb (fun c => negb (c =? 39)%N && negb (c =? 92)%N && negb (c =? 10)%N) s.

Lemma quotable_spec s : quotable_b s = true -> quotable s.
Proof.
  unfold quotable_b. rewrite forallb_forall. intros Hs. split_and!; intros Hin; apply list_elem_of_In, Hs in Hin; by vm_compute in Hin.
Qed.

Definition escapable_b (s : str) : bool := forallb (fun c => negb (c =? 0)%N && (length (escape_char c) <=? 2)) s.

Lemma escapable_spec s : escapable_b s = true -> escapable s.
Proof.
  unfold escapable_b. rewrite forallb_forall. intros Hs. apply Forall_forall. intros c Hc. apply list_elem_of_In, Hs, andb_true_iff in Hc as [H1%negb_true_iff%N.eqb_neq H2%Nat.leb_le]. done.
Qed.

Definition canonical_b (t : Token) : bool :=
  match t with
  | Q inner => bool_decide (escape_debug (unescape inner) = inner) && escapable_b (unescape inner)
  | Sq inner => quotable_b inner
  | W w => negb (bool_decide (w = [])) && forallb (fun c => negb (is_whitespace c)) w && negb (bool_decide (head w = Some 34%N)) && negb (bool_decide (head w = Some 39%N))
  end.

Lemma canonical_spec t : canonical_b t = true -> canonical t.
Proof.
  destruct t as [inner|inner|w]; cbn [canonical_b].
  - rewrite andb_true_iff. intros [E%bool_decide_eq_true_1 He]. rewrite <- E. constructor. by apply escapable_spec.
  - intros Hq. constructor. by apply quotable_spec.
  - rewrite !andb_true_iff, !negb_true_iff, !bool_decide_eq_false. intros [[[H1 H2] H3] H4]. constructor. by apply word_of.
Qed.

Lemma nameable_spec s : canonical_b (Token_from_str s) && (forallb plain_char s || escapable_b s) = true -> nameable s.
Proof. intros [H1 [H2|H2]%orb_true_iff]%andb_true_iff; (split; [by apply canonical_spec|]); [by left|right; by apply escapable_spec]. Qed.

Definition comment_b (c : LineComment) : bool := match c with NoComment => true | Commented t => bool_decide (trim t = t) && forallb (fun c => negb (c =? 10)%N) t end.

Lemma no_newline s : forallb (fun c => negb (c =? 10)%N) s = true -> 10%N ∉ s.
Proof. rewrite forallb_forall. intros Hs Hin. apply list_elem_of_In, Hs in Hin. by vm_compute in Hin. Qed.

Definition line_b (l : Line) : bool :=
  match l with
  | Line_Empty | Line_Skip => true
  | Line_Comment _ text => bool_decide (trim_end text = text) && forallb (fun c => negb (c =? 10)%N) text
  | Line_Section ty None comment => canonical_b ty && bool_decide (comment = NoComment)
  | Line_Section ty (Some name) comment => canonical_b ty && canonical_b name && comment_b comment
  | Line_Option a b comment | Line_List a b comment => canonical_b a && canonical_b b && comment_b comment
  end.

Lemma line_spec l : line_b l = true -> canonical_line l.
Proof.
  assert (forall c, comment_b c = true -> canonical_comment c) as Hc by (intros [|t]; cbn; [done|]; rewrite andb_true_iff, bool_decide_eq_true; intros [? ?]; split; [done|by apply no_newline]).
  destruct l as [|indent text|ty [name|] comment|a b comment|a b comment|]; cbn [line_b canonical_line]; [done| | | | | |done]; rewrite ?andb_true_iff, ?bool_decide_eq_true.
  - intros [? ?]. split; [done|by apply no_newline].
  - intros [[? ?] ?]. split_and!; [by apply canonical_spec..|by apply Hc].
  - intros [? ?]. split; [by apply canonical_spec|done].
  - intros [[? ?] ?]. split_and!; [by apply canonical_spec..|by apply Hc].
  - intros [[? ?] ?]. split_and!; [by apply canonical_spec..|by apply Hc].
Qed.

Definition config_b (c : Config) : bool :=
  forallb (fun l => blank l && line_b l) (prefix c) && forallb (fun s => bool_decide (is_Some (parts (section_lines s))) && forallb line_b (section_lines s)) (sections c).

Lemma config_spec c : config_b c = true -> config_ok c.
Proof.
  unfold config_b. rewrite andb_true_iff, !forallb_forall. intros [HP HS]. split; apply Forall_forall.
  - intros l Hl. apply list_elem_of_In, HP, andb_true_iff in Hl as [? ?]. split; [done|by apply line_spec].
  - intros s Hs. apply list_elem_of_In, HS, andb_true_iff in Hs as [Hp%bool_decide_eq_true_1 Hl]. split; [done|]. apply Forall_forall. intros l Hin. rewrite forallb_forall in Hl.
    by apply list_elem_of_In, Hl, line_spec in Hin.
Qed.

Lemma network_ok : config_ok parsed_network.
Proof. apply config_spec. vm_compute. reflexivity. Qed.

Lemma interface_fields_ok : fields_ok interface_fields.
Proof.
  split; [repeat (apply Forall_cons; split; [apply nameable_spec; vm_compute; reflexivity|]); apply Forall_nil_2|]. apply (bool_decide_eq_true_1 (NoDup _)). vm_compute. reflexivity.
Qed.

Lemma new_interface_ok : Forall2 value_ok interface_fields new_interface.
Proof.
  assert (forall s, (if bool_decide (39%N ∈ s) then escapable_b s else quotable_b s) = true -> printable s) as Hp.
  { intros s. unfold printable. case_bool_decide; [apply escapable_spec|]. intros Hq. by destruct (quotable_spec s Hq) as (_ & ? & ?). }
  assert (forall f x, f_parse f = text_mode -> (if bool_decide (39%N ∈ x) then escapable_b x else quotable_b x) = true -> fits_field f (SOther x)) as Hx by (intros f x E Hq; unfold fits_field; rewrite E; split; [done|by apply Hp]).
  apply Forall2_cons; split; [|apply Forall2_cons; split; [|apply Forall2_cons; split; [|by apply Forall2_nil]]];
    (split; [done|apply Forall_cons; split; [|by apply Forall_nil]|discriminate]); [apply Hx; [done|vm_compute; reflexivity]..|done].
Qed.

Lemma uci_dump_parse_witness : exists c', parse_str (dump_str parsed_network) = Done (Ok c') /\ dump_str c' = dump_str parsed_network.
Proof. destruct (uci_dump_parse parsed_network network_ok) as (c' & Ep & _ & Ed). by exists c'. Defined.

Definition lan : UciSection := default (mkUciSection []) (sections parsed_network !! 0).

Lemma uci_write_read_witness : TypedSection_read $"interface" interface_fields (TypedSection_write $"interface" interface_fields new_interface lan).1 = Ok new_interface.
Proof.
  assert (bool_decide (is_Some (parts (section_lines lan))) = true) as Hp by (vm_compute; reflexivity). apply bool_decide_eq_true_1 in Hp.
  pose proof (uci_write_read $"interface" interface_fields new_interface lan interface_fields_ok new_interface_ok Hp) as Hw.
  assert (Section_ty lan = Done $"interface") as Et by (vm_compute; reflexivity).
  destruct (TypedSection_write $"interface" interface_fields new_interface lan) as [s' [[]|e]]; [exact (proj1 (proj2 (proj2 (proj2 Hw))))|]. destruct (proj2 Hw Et).
Defined.

Lemma uci_edit_survives_witness : exists c' t, parse_str (dump_str (Config_append $"interface" interface_fields new_interface (Some $"wan 2") parsed_network)) = Done (Ok c') /\
  sections c' !! 2 = Some t /\ Section_name t = Done (Some $"wan 2") /\ TypedSection_read $"interface" interface_fields t = Ok new_interface.
Proof.
  destruct (uci_edit_survives $"interface" interface_fields new_interface parsed_network network_ok interface_fields_ok new_interface_ok) as [_ Ha].
  assert (length (sections parsed_network) = 2) as El by (vm_compute; reflexivity). rewrite El in Ha.
  destruct (Ha (Some $"wan 2")) as (c' & t & Ep & _ & Ht & Hn & Hr & _); [apply nameable_spec; vm_compute; reflexivity|intros n [= <-]; apply nameable_spec; vm_compute; reflexivity|].
  by exists c', t.
Defined.

(** *** Files *)

Lemma shared_ok t : fs_ok (shared t).
Proof.
  split; cbn [shared dir inodes].
  - intros p id [_ <-]%lookup_singleton_Some. cbn. lia.
  - intros p q id [<- _]%lookup_singleton_Some [<- _]%lookup_singleton_Some. done.
Qed.

Lemma network_tmp : tmp_path network_name ≠ network_name.
Proof. apply (bool_decide_eq_false_1 (_ = _)). vm_compute. reflexivity. Qed.

(** The sixth call, the write, fails after three bytes. *)
Definition failing_write : list (nat * option nat) := replicate 5 (1, None) ++ [(1, Some 3)] ++ replicate 5 (1, None).

Lemma uci_write_all_safe_witness : exists fs' r, run (alone failing_write) (mkWorld (shared network) [write_all [mkEntry network_name (Some 0%Z) expected_network]]) = mkWorld fs' [Finished r] /\
  locks fs' = ∅.
Proof.
  destruct (uci_write_all_safe (shared network) [mkEntry network_name (Some 0%Z) expected_network] failing_write) as (fs' & r & d & rest & Er & Hl & _).
  - apply shared_ok.
  - done.
  - apply NoDup_singleton.
  - intros e e' ->%list_elem_of_singleton ->%list_elem_of_singleton. exact network_tmp.
  - cbn. lia.
  - exists fs', r. exact (conj Er Hl).
Defined.

(** The second process opens the file after four calls of the first, goes on after the first has ended and replaces what it has written. *)
Lemma uci_lost_update_witness : let w := run (turns 0 (replicate 4 1) ++ turns 1 [0] ++ turns 0 (replicate 7 2) ++ turns 1 (replicate 10 1))
    (mkWorld (shared network) [write_all [mkEntry network_name (Some 0%Z) expected_network]; write_all [mkEntry network_name (Some 3%Z) network]]) in
  w_writers w = [Finished (Ok tt); Finished (Ok tt)] /\ content (w_fs w) network_name = Some network.
Proof.
  destruct (uci_lost_update (shared network) network_name expected_network network 0 (mkInode network 0) 0 3 (shared_ok network) eq_refl eq_refl eq_refl ltac:(cbn; lia) ltac:(cbn; lia) network_tmp) as [_ H].
  exact (H (replicate 4 1) 0 (replicate 7 2) (replicate 10 1) ltac:(cbn; lia) ltac:(cbn; lia) ltac:(cbn; lia)).
Defined.

Definition loaded : Configs := [(network_name, mkConfig (prefix parsed_network) (sections parsed_network) (Some 0%Z))].

Lemma uci_save_load_witness : exists fs' configs', run (alone (map (fun d => (d, None)) (replicate 11 1))) (mkWorld (shared network) [dump_all loaded]) = mkWorld fs' [Finished (Ok tt)] /\
  parse_all (map fst loaded) (fun _ => 0%Z) (fun _ => find_in fs') = Done (Ok configs') /\ Forall2 (saved fs') loaded configs'.
Proof.
  destruct (uci_save_load (shared network) loaded (replicate 11 1)) as (fs' & r & Er & Hr).
  - apply shared_ok.
  - done.
  - repeat constructor.
  - constructor; [|constructor]. destruct network_ok as [H1 H2]. by split.
  - intros p q ->%list_elem_of_singleton ->%list_elem_of_singleton. exact network_tmp.
  - intros x ->%list_elem_of_singleton _. by eexists.
  - cbn. lia.
  - destruct Hr as [(-> & _ & Ht)|(e & He & Hf & _)].
    + destruct (Ht (fun _ => 0%Z)) as (configs' & Ep & HF & _). exists fs', configs'. exact (conj Er (conj Ep HF)).
    + exfalso. apply Hf. apply list_elem_of_singleton in He as ->. vm_compute. discriminate.
Defined.
